(* ===== verification/_CoqProject ===== *)
-Q . S2P
Prelude.v
BTree.v
Bytes.v
MemoryStore.v
Buffer.v
LendingIter.v
Mvcc.v
Keyspaces.v
Snapshot.v
Dependency.v
Timeline.v
Isolation.v
Storage.v
Views.v
Windows.v
Recovery.v
Wal.v
Protocol.v
Decimal.v
Duration.v
Layout.v
TimeZones.v
Values.v
Structs.v
Attributes.v
Things.v
Edges.v
ThingManager.v
ThingGraph.v
Players.v
Pattern.v
TypeEdges.v
Statistics.v
StatisticsCounts.v
StatisticsHistory.v
StatisticsClaims.v
StatisticsSerde.v
Annotations.v
TypeReader.v
SchemaGraph.v
Constraints.v
Validation.v
TypeIds.v
SchemaClaims.v
AnnotationClaims.v
Block.v
TypeInference.v
TypeSeeder.v
TypeGraph.v
TypeSoundness.v
TypeClaims.v
SchemaManager.v
