(* ===== verification/Prelude.v ===== *)
(** * A verification library for TypeDB: its storage engine and type inference

    TypeDB keeps its graph in keyspaces of byte keys.  Every write is a version
    of a key, stamped with the sequence number of the commit that made it;
    transactions read a snapshot at a sequence number, buffer their writes, and
    commit optimistically: the commit is logged, validated against the commits
    made since its snapshot was opened, applied to the keyspaces and recorded as
    committed or aborted.  Above it, values and things are encoded as keys, and
    queries become patterns of constraints whose variables are given types
    before they are planned.  This library models the engine, the encoding, the
    part of the thing manager that writes edges, the schema as a graph in the
    same store, and the way from a pattern to its types, from the Rust sources, and proves what makes them correct.

    ** The parts and how they fit

    - [Prelude]: the result type [exec] (a value, an error, or a panic), machine
      integers, ordered types and the tactics shared by all files.
    - [BTree]: [BTreeMap] as a strictly sorted association list.
    - [Bytes]: byte strings, [common/bytes/util.rs] ([increment]) and
      [common/bytes/byte_array.rs] ([ByteArray]).
    - [MemoryStore]: [storage/key_range.rs], [storage/keyspace/memory_backend.rs]
      and [storage/keyspace/memory_iterator.rs], the keyspace of the in-memory
      build.
    - [Buffer]: [storage/snapshot/write.rs], [lock.rs] and [buffer.rs], what a
      transaction has written so far.
    - [LendingIter]: the iterator interface of [common/lending_iterator] as
      classes with laws, and [Peekable].
    - [Mvcc]: the versioned keys of [storage/storage.rs] ([MVCCKey]),
      [storage/iterator.rs] and [storage/write_batches.rs]; the version store it
      implements is [latest].
    - [Keyspaces]: the set of keyspaces and its export format,
      [storage/keyspace/keyspace.rs].
    - [Snapshot]: [storage/snapshot/snapshot.rs] and [iterator.rs], the overlay
      of a buffer on the committed state.
    - [Dependency], [Timeline], [Isolation]: [storage/isolation_manager.rs]; the
      comparison of two commit records, the windows of commit statuses with the
      watermark, and the manager that validates commits.
    - [Storage]: [storage/storage.rs] ([MVCCStorage]) over a durability client
      given by the class [Durability].
    - [Views]: a write snapshot seen from above, as a map from keys to values;
      [Windows]: scans of the keys that continue a prefix by a byte of a range.
    - [Recovery]: [storage/recovery/], loading a storage from the log.
    - [Wal]: [durability/wal.rs], the files of the write-ahead log, shown to
      implement the log that [Recovery] works with.
    - [Protocol]: the commit protocol as a step relation, and the isolation
      manager as an implementation of it.
    - [Decimal], [Duration]: [encoding/value/decimal_value.rs] and
      [duration_value.rs], the arithmetic and the texts of decimals and
      durations.
    - [Layout], [TimeZones]: the tables of the encoding, [encoding/layout/]
      (prefixes, infixes), [encoding/encoding.rs] (keyspaces),
      [graph/definition/definition_key.rs], [value/value_type.rs] and
      [value/timezone.rs].
    - [Values], [Structs]: [encoding/value/]; how values and structs become
      bytes.  Dates and times are [chrono]'s, given by the classes [Chrono] and
      [ChronoZoned] with the documented behaviour as [ChronoLaws].
    - [Attributes]: [graph/thing/vertex_attribute.rs] and
      [graph/common/value_hasher.rs], the keys of attributes; long values are
      hashed and values of the same hash told apart by a tail.
    - [Things]: [graph/thing/vertex_object.rs], [vertex_generator.rs] and
      [graph/type_/vertex.rs], objects and the generator of vertices on top of
      [Snapshot] and [Storage]; reading attributes in
      [concept/thing/thing_manager.rs].
    - [Edges]: [graph/thing/edge.rs], the keys of the edges between things.
    - [ThingManager]: [concept/thing/thing_manager.rs], writing and reading
      ownerships and the players of relations; what the type manager answers is
      the class [Schema].  [ThingGraph] and [Players] hold its theorems, about
      ownership and about relations.
    - [Statistics], [StatisticsSerde]: [concept/thing/statistics.rs], the counts
      of stored things, kept up to date from the log, and their form in it.
      [StatisticsCounts] says what is counted, [StatisticsHistory] and
      [StatisticsClaims] hold the theorems.
    - [TypeEdges]: [graph/type_/], [value/label.rs] and
      [graph/common/schema_id_allocator.rs]; the keys of types, of the edges
      between them (sub, owns, plays, relates), of their properties and labels,
      and the allocation of type ids.
    - [TypeReader]: [concept/type_/type_manager/type_reader.rs] and
      [type_writer.rs], reading and writing the schema through a snapshot.
    - [SchemaGraph]: the stored schema as a graph, with what the readers return;
      [TypeIds]: the ids given to new types; [SchemaClaims]: writing edges,
      changing a supertype and inherited capabilities.
    - [Annotations]: [concept/type_/annotation.rs] and [constraint.rs];
      annotations, the constraints they stand for, when one narrows another, and
      their stored form.  [Constraints]: reading and writing the annotations of
      types, and the constraints that types inherit ([type_reader.rs]).
    - [Validation]: [concept/type_/type_manager/validation/], the checks before
      a supertype or an annotation of a type changes and those of attribute
      types at commit, and the operations of [concept/type_/type_manager.rs]
      that they guard; the checks against existing instances are the class
      [InstanceValidation].  [AnnotationClaims] holds the theorems.
    - [Pattern], [Block]: [ir/pattern/] and [ir/pipeline/block.rs]; constraints,
      conjunctions and their nested patterns, which variables they bind, the
      tree of scopes a block's builder keeps and the checks of a finished block.
    - [TypeInference], [TypeSeeder], [TypeGraph]: [compiler/annotation/]; the
      graph of candidate types of a pattern and its pruning
      ([match_inference.rs]), what a constraint says about the types at its two
      ends and the phases that seed the graph ([type_seeder.rs]).  The schema is
      the class [TypeManager] with its laws [TypeManagerLaws].
      [TypeSoundness] and [TypeClaims] hold the theorems; [SchemaManager] shows
      that a schema read from a snapshot is such a type manager.

    ** How the code is modelled

    A function that can fail returns [exec E A]: [Val a], [Err e] for the
    [Err] branch, [Panic] for a panic ([unwrap], [assert!], slice bounds,
    arithmetic).  Mutation is explicit: a method that changes its object takes
    and returns the object's record.  Bytes are [Z] between 0 and 255, a [u64]
    is a [Z] with its wrap-around written as [u64].  Waiting (a commit that
    waits for a pending predecessor, a snapshot that waits for the watermark) is
    the error [spin] of a single call: the operation cannot complete in that
    state.  Assertions of debug builds are left out.  Interleaving is modelled in [Protocol], where each commit's
    validation is cut into the steps that read or write shared state.

    Loops whose length depends on data take fuel, always an upper bound computed
    from the data (the number of entries, bytes or records), and the theorems
    show that the bound is enough: the functions return [Val], not only
    "if they return, the result is right".

    ** What the theorems show

    - Bytes and keys: prefix ranges hold exactly the keys with the prefix; MVCC
      keys, keyspace exports and the values' encodings round-trip; encodings of
      ordered values sort like the values.
    - Reading: a scan or a point read of a snapshot returns the newest version
      at or below its number, with the transaction's own writes over it.
    - Committing: conflict detection is exact, puts are rebased over concurrent
      writes, a commit is visible from its number on and not before.
    - Isolation: in every interleaving no two committed transactions conflict;
      no commit is rejected without a committed cause; every run of validations
      ends, and while a commit is pending the pending commits up to it can
      always go on; a call of [validate_commit] is a run of the protocol, or
      waits where the protocol waits; the watermark is the end of the
      decided prefix; freeing windows keeps what readers need.
    - Durability: loading the log gives what was logged; recovery restores every
      committed transaction; the files of the write-ahead log implement the log;
      after a write cut short, loading keeps every complete record and drops the
      torn one whenever it is noticed; an exported storage of keyspaces below
      4 GiB is restored by its import.
    - Encoding: a created attribute reads back, long strings too; concurrent
      creations of values with one hash conflict; values of one hash are told
      apart while no tail between theirs is free; ids handed out after a restart are new; structs round-trip.
    - Things: a write snapshot is a map from keys to values, and scans of a
      prefix yield exactly its entries; the prefixes of edges select exactly the
      edges meant; the operations on ownership and on players keep the two
      directions of every edge and the index of players in step; searches from
      an attribute find exactly its owners.
    - Statistics: synchronised with the log they count exactly the stored keys, in
      the totals and by type; tables with the same counts agree; they read back
      from the log.
    - Schema: the writers keep both directions of every edge in step; changing a
      supertype keeps subtyping a forest; capabilities are those declared at a
      type or at its nearest supertype; a new type gets an id of its own; the
      lookups on the stored schema, abstractness included, keep the laws the type
      inference relies on.
    - Annotations: what is set reads back and leaves the rest of the schema
      alone; a type has exactly the constraints of its own annotations and of
      those above it; abstract types keep abstract supertypes; setting a range
      keeps the ranges narrowing downwards; the validation at commit accepts a
      type exactly if its constraints narrow those it inherits and repeat none.
    - Patterns: every use of a variable stays in reach of the scope that declares
      it, in blocks of up to 65533 scopes, after which their ids wrap; binding modes are those of the pattern's meaning.
    - Type inference: seeding and pruning end; every assignment of types that
      satisfies a pattern under the schema is a solution of the graph that comes
      out; pruning neither loses nor adds solutions and leaves an arc-consistent
      graph; patterns are reported unsatisfiable only when they are.
    - Where the code does not do what it means to, a theorem shows the behaviour
      it has (the [findings] of the manifest): among them a put re-inserted by
      validation that recovery loses, and a log whose numbering restarts after a
      crash at a file boundary, a check of the value sets of subtypes that reads
      their regexes, and statistics that panic on a delete they count twice.
      Scope ids that wrap, keyspaces too large for their length field and players
      that keep an entry for themselves in the index are others.

    ** Not modelled

    RocksDB and its iterators, LZ4, bincode, the file system's failures and
    [fsync] are third-party or I/O; where a model needs them they are parameters
    with their documented behaviour as hypotheses.  The sync thread of the log
    and metrics change no modelled state.  Calendar arithmetic is [chrono]'s.
    TypeQL's parser is a third-party library, so the translation to patterns is
    not modelled.  Of the type manager the cache, struct definitions, the checks
    against existing instances, annotations set on capabilities, creating and
    deleting types and the validation of objects and relations at commit are not
    modelled; the rest of the thing manager, expressions and planning in the
    query compiler, the executor and the servers are not modelled. *)
From stdpp Require Export base tactics list list_numbers numbers option strings.
From Stdlib Require Export ZArith Lia.
From Stdlib Require Import Sorting.Sorted.

#[global] Open Scope Z_scope.
#[global] Set Default Goal Selector "!".

(** ** Outcomes of Rust code

    [exec E A] is what a Rust function of type [Result<A, E>] can do: return
    [Ok a] ([Val a]), return [Err e] ([Err e]) or panic ([Panic]: an [unwrap]
    of [None], an index out of range, an [assert!], an explicit [panic!] or
    [unreachable!]).  A function that cannot return an error uses
    [E := Empty_set]. *)
Inductive exec (E A : Type) : Type :=
| Val (a : A)
| Err (e : E)
| Panic.
Arguments Val {E A} a.
Arguments Err {E A} e.
Arguments Panic {E A}.

Abbreviation outcome := (exec Empty_set).

#[global] Instance exec_ret {E} : MRet (exec E) := λ A a, Val a.
#[global] Instance exec_bind {E} : MBind (exec E) := λ A B f m,
  match m with Val a => f a | Err e => Err e | Panic => Panic end.
#[global] Instance exec_fmap {E} : FMap (exec E) := λ A B f m,
  match m with Val a => Val (f a) | Err e => Err e | Panic => Panic end.
Lemma bind_val {E A B} (m : exec E A) (f : A → exec E B) b : (m ≫= f) = Val b ↔ ∃ a, m = Val a ∧ f a = Val b.
Proof. destruct m; cbn; naive_solver. Qed.

Definition unwrap {E A} (o : option A) : exec E A :=
  match o with Some a => Val a | None => Panic end.

(** [Result::map_err] and the [?] operator across error types. *)
Definition map_err {E E' A} (f : E → E') (m : exec E A) : exec E' A :=
  match m with Val a => Val a | Err e => Err (f e) | Panic => Panic end.

(** A computation that returns no error, used where one may be returned. *)
Definition lift {E A} (m : outcome A) : exec E A :=
  match m with Val a => Val a | Err e => match e with end | Panic => Panic end.

(** [option.ok_or(e)]. *)
Definition ok_or {E A} (o : option A) (e : E) : exec E A :=
  match o with Some a => Val a | None => Err e end.

Definition returns {E A} (m : exec E A) : Prop := ∃ a, m = Val a.

(** ** Machine integers, in the arithmetic of release builds (wrap-around) *)
Definition u8 (z : Z) : Z := z mod 2 ^ 8.
Definition u32 (z : Z) : Z := z mod 2 ^ 32.
Definition u64 (z : Z) : Z := z mod 2 ^ 64.
Definition u64_max : Z := 2 ^ 64 - 1.
Definition i64 (z : Z) : Z := (z + 2 ^ 63) mod 2 ^ 64 - 2 ^ 63.

Definition is_byte (b : Z) : Prop := 0 ≤ b < 256.
Definition is_u32 (z : Z) : Prop := 0 ≤ z < 2 ^ 32.
Definition is_u64 (z : Z) : Prop := 0 ≤ z < 2 ^ 64.
Definition is_i64 (z : Z) : Prop := - 2 ^ 63 ≤ z < 2 ^ 63.

Lemma u64_id z : is_u64 z → u64 z = z.
Proof. unfold is_u64, u64. intros. apply Z.mod_small; lia. Qed.
Lemma u32_id z : is_u32 z → u32 z = z.
Proof. unfold is_u32, u32. intros. apply Z.mod_small; lia. Qed.
Lemma u8_id z : is_byte z → u8 z = z.
Proof. unfold is_byte, u8. intros. apply Z.mod_small; lia. Qed.
Lemma u64_range z : is_u64 (u64 z).
Proof. unfold is_u64, u64. apply Z.mod_pos_bound. lia. Qed.
Lemma u8_range z : is_byte (u8 z).
Proof. unfold is_byte, u8. apply (Z.mod_pos_bound z 256). lia. Qed.
Lemma i64_id z : is_i64 z → i64 z = z.
Proof. unfold is_i64, i64. intros. rewrite Z.mod_small; lia. Qed.

(** Byte strings: [&[u8]], [Vec<u8>], [ByteArray] and [Bytes] all compare,
    hash and dereference as the slice they hold. *)
Abbreviation bytes := (list Z).
Abbreviation is_bytes := (Forall is_byte).

(** ** Ordered keys *)
Class Ordered (K : Type) : Type := cmp : K → K → comparison.

Class OrderedLaws (K : Type) `{Ordered K} : Prop := {
  cmp_eq : ∀ a b : K, cmp a b = Eq ↔ a = b;
  cmp_opp : ∀ a b : K, cmp b a = CompOpp (cmp a b);
  cmp_lt_trans : ∀ a b c : K, cmp a b = Lt → cmp b c = Lt → cmp a c = Lt;
}.

Declare Scope ord_scope.
Delimit Scope ord_scope with ord.
Notation "a ≺ b" := (cmp a b = Lt) (at level 70, no associativity) : ord_scope.
Notation "a ⪯ b" := (cmp a b ≠ Gt) (at level 70, no associativity) : ord_scope.
#[global] Open Scope ord_scope.

Definition eqb {K} `{Ordered K} (a b : K) : bool :=
  match cmp a b with Eq => true | _ => false end.
Definition ltb {K} `{Ordered K} (a b : K) : bool :=
  match cmp a b with Lt => true | _ => false end.
Definition leb {K} `{Ordered K} (a b : K) : bool :=
  match cmp a b with Gt => false | _ => true end.

#[global] Instance Z_ordered : Ordered Z := Z.compare.
#[global] Instance Z_ordered_laws : OrderedLaws Z.
Proof.
  split.
  - apply Z.compare_eq_iff.
  - intros a b. apply Z.compare_antisym.
  - unfold cmp, Z_ordered. intros a b c. rewrite !Z.compare_lt_iff. lia.
Qed.

(** Lexicographic order on slices: a proper prefix comes first. *)
Fixpoint list_cmp {A} `{Ordered A} (l k : list A) : comparison :=
  match l, k with
  | [], [] => Eq
  | [], _ :: _ => Lt
  | _ :: _, [] => Gt
  | x :: l', y :: k' => match cmp x y with Eq => list_cmp l' k' | c => c end
  end.
#[global] Instance list_ordered {A} `{Ordered A} : Ordered (list A) := list_cmp.

Section ordered.
Context {K : Type} `{OrderedLaws K}.
Implicit Types a b c : K.

Lemma cmp_refl a : cmp a a = Eq.
Proof. by apply cmp_eq. Qed.
Lemma cmp_gt_lt a b : cmp a b = Gt ↔ b ≺ a.
Proof. rewrite (cmp_opp a b). by destruct (cmp a b). Qed.
Lemma cmp_irrefl a : ¬ a ≺ a.
Proof. by rewrite cmp_refl. Qed.
Lemma cmp_lt_ne a b : a ≺ b → a ≠ b.
Proof. intros ? ->. by eapply cmp_irrefl. Qed.
Lemma cmp_asym a b : a ≺ b → ¬ b ≺ a.
Proof. intros ??. eapply cmp_irrefl, cmp_lt_trans; eauto. Qed.
Lemma cmp_total a b : a ≺ b ∨ a = b ∨ b ≺ a.
Proof. destruct (cmp a b) eqn:E; [apply cmp_eq in E|..|apply cmp_gt_lt in E]; eauto. Qed.
Lemma cmp_le_lt_eq a b : a ⪯ b ↔ a ≺ b ∨ a = b.
Proof.
  rewrite <-cmp_eq. destruct (cmp a b); naive_solver.
Qed.
Lemma cmp_le_nlt a b : a ⪯ b ↔ ¬ b ≺ a.
Proof. rewrite <-cmp_gt_lt. done. Qed.
Lemma cmp_le_refl a : a ⪯ a.
Proof. by rewrite cmp_refl. Qed.
Lemma cmp_lt_le a b : a ≺ b → a ⪯ b.
Proof. by intros ->. Qed.
Lemma cmp_le_lt_trans a b c : a ⪯ b → b ≺ c → a ≺ c.
Proof. intros [| ->]%cmp_le_lt_eq ?; [eapply cmp_lt_trans; eauto|done]. Qed.
Lemma cmp_lt_le_trans a b c : a ≺ b → b ⪯ c → a ≺ c.
Proof. intros ? [| <-]%cmp_le_lt_eq; [eapply cmp_lt_trans; eauto|done]. Qed.
Lemma cmp_le_trans a b c : a ⪯ b → b ⪯ c → a ⪯ c.
Proof.
  intros ? [?| <-]%cmp_le_lt_eq; [|done].
  apply cmp_lt_le. eapply cmp_le_lt_trans; eauto.
Qed.
Lemma cmp_le_antisym a b : a ⪯ b → b ⪯ a → a = b.
Proof. intros [? | ->]%cmp_le_lt_eq Hba%cmp_le_nlt; done. Qed.
Lemma eqb_eq a b : eqb a b = true ↔ a = b.
Proof. unfold eqb. rewrite <-cmp_eq. by destruct (cmp a b). Qed.
Lemma eqb_ne a b : eqb a b = false ↔ a ≠ b.
Proof. rewrite <-eqb_eq. by destruct (eqb a b). Qed.
Lemma eqb_refl a : eqb a a = true.
Proof. by apply eqb_eq. Qed.
Lemma eqb_sym a b : eqb a b = eqb b a.
Proof. unfold eqb. rewrite (cmp_opp a b). by destruct (cmp a b). Qed.
Lemma ltb_lt a b : ltb a b = true ↔ a ≺ b.
Proof. unfold ltb. by destruct (cmp a b). Qed.
Lemma ltb_ge a b : ltb a b = false ↔ b ⪯ a.
Proof. unfold ltb. rewrite (cmp_opp a b). destruct (cmp a b); naive_solver. Qed.
Lemma leb_le a b : leb a b = true ↔ a ⪯ b.
Proof. unfold leb. destruct (cmp a b); naive_solver. Qed.
Lemma leb_gt a b : leb a b = false ↔ b ≺ a.
Proof. unfold leb. rewrite (cmp_opp a b). destruct (cmp a b); naive_solver. Qed.

Lemma list_cmp_eq (l k : list K) : list_cmp l k = Eq ↔ l = k.
Proof.
  revert k. induction l as [|x l IH]; intros [|y k]; simpl; try done.
  destruct (cmp x y) eqn:E.
  - apply cmp_eq in E as ->. rewrite IH. naive_solver.
  - split; [done|]. intros [= -> ->]. by rewrite cmp_refl in E.
  - split; [done|]. intros [= -> ->]. by rewrite cmp_refl in E.
Qed.
Lemma list_cmp_opp (l k : list K) : list_cmp k l = CompOpp (list_cmp l k).
Proof.
  revert k. induction l as [|x l IH]; intros [|y k]; simpl; try done.
  rewrite (cmp_opp x y). destruct (cmp x y); simpl; auto.
Qed.
Lemma list_cmp_lt_trans (l k m : list K) :
  list_cmp l k = Lt → list_cmp k m = Lt → list_cmp l m = Lt.
Proof.
  revert k m. induction l as [|x l IH]; intros [|y k] [|z m]; simpl; try done.
  destruct (cmp x y) eqn:E1, (cmp y z) eqn:E2; try done.
  - apply cmp_eq in E1 as ->. rewrite E2. eauto.
  - apply cmp_eq in E1 as ->. by rewrite E2.
  - apply cmp_eq in E2 as ->. by rewrite E1.
  - by rewrite (cmp_lt_trans _ _ _ E1 E2).
Qed.
#[global] Instance list_ordered_laws : OrderedLaws (list K).
Proof.
  split; [apply list_cmp_eq|apply list_cmp_opp|apply list_cmp_lt_trans].
Qed.
End ordered.

Create HintDb ord.
#[export] Hint Resolve cmp_refl cmp_irrefl cmp_lt_le cmp_le_refl : ord.
