(* ===== verification/BTree.v ===== *)
(** * Ordered maps

    A model of [std::collections::BTreeMap] (and of the subset of a range scan
    over one that the storage layer uses) as association lists sorted by the
    key's order.  The representation is canonical: two well-formed maps with
    the same lookups are equal ([bt_ext]), so iteration order is a function of
    the contents. *)
From S2P Require Import Prelude.
From Stdlib Require Import Sorting.Sorted.

Section btree.
Context {K V : Type} `{OrderedLaws K}.
Implicit Types (m : list (K * V)) (k : K) (v : V).

Definition bt_lt (a b : K * V) : Prop := a.1 ≺ b.1.
Definition bt_wf m : Prop := StronglySorted bt_lt m.

Fixpoint bt_get k m : option V :=
  match m with
  | [] => None
  | (k', v') :: m' => match cmp k k' with Eq => Some v' | _ => bt_get k m' end
  end.

Fixpoint bt_insert k v m : list (K * V) :=
  match m with
  | [] => [(k, v)]
  | (k', v') :: m' =>
      match cmp k k' with
      | Lt => (k, v) :: (k', v') :: m'
      | Eq => (k, v) :: m'
      | Gt => (k', v') :: bt_insert k v m'
      end
  end.

Definition bt_remove k m : list (K * V) := List.filter (λ kv, negb (eqb k kv.1)) m.
Definition bt_contains k m : bool := match bt_get k m with Some _ => true | None => false end.
Definition bt_of_list (l : list (K * V)) : list (K * V) :=
  fold_left (λ m kv, bt_insert kv.1 kv.2 m) l [].

(** Bounds of [BTreeMap::range], which panics when the start is greater than
    the end, or when both are the same excluded key. *)
Inductive bound := Included (k : K) | Excluded (k : K) | Unbounded.

Definition above (b : bound) k : bool :=
  match b with Included s => leb s k | Excluded s => ltb s k | Unbounded => true end.
Definition below (b : bound) k : bool :=
  match b with Included e => leb k e | Excluded e => ltb k e | Unbounded => true end.
Definition range_panics (lo hi : bound) : bool :=
  match lo, hi with
  | Excluded s, Excluded e => leb e s
  | Included s, (Included e | Excluded e) => ltb e s
  | Excluded s, Included e => ltb e s
  | _, _ => false
  end.
Definition bt_range {E} (lo hi : bound) m : exec E (list (K * V)) :=
  if range_panics lo hi then Panic
  else Val (List.filter (λ kv, above lo kv.1 && below hi kv.1) m).

(** ** Lookup laws *)
Lemma bt_get_cons k k' v' m :
  bt_get k ((k', v') :: m) = if eqb k k' then Some v' else bt_get k m.
Proof. simpl. unfold eqb. by destruct (cmp k k'). Qed.

Lemma bt_get_insert_eq k v m : bt_get k (bt_insert k v m) = Some v.
Proof.
  induction m as [|[k' v'] m IH]; simpl; [by rewrite cmp_refl|].
  destruct (cmp k k') eqn:E; simpl; rewrite ?cmp_refl, ?E; done.
Qed.
Lemma bt_get_insert_ne k k' v m : k' ≠ k → bt_get k' (bt_insert k v m) = bt_get k' m.
Proof.
  intros Hne. assert (Hc : cmp k' k ≠ Eq) by (by rewrite cmp_eq).
  induction m as [|[k0 v0] m IH]; simpl.
  - by destruct (cmp k' k).
  - destruct (cmp k k0) eqn:E; simpl.
    + apply cmp_eq in E as ->. by destruct (cmp k' k0).
    + by destruct (cmp k' k).
    + by rewrite IH.
Qed.
Lemma bt_get_remove k k' m :
  bt_get k' (bt_remove k m) = if eqb k k' then None else bt_get k' m.
Proof.
  unfold bt_remove. induction m as [|[k0 v0] m IH]; simpl.
  { by destruct (eqb _ _). }
  destruct (eqb k k0) eqn:E; simpl.
  - rewrite IH. apply eqb_eq in E as ->. rewrite (eqb_sym k0 k'). unfold eqb.
    by destruct (cmp k' k0).
  - rewrite IH. destruct (cmp k' k0) eqn:E'; [|done..].
    apply cmp_eq in E' as ->. by rewrite E.
Qed.
Lemma bt_get_remove_eq k m : bt_get k (bt_remove k m) = None.
Proof. rewrite bt_get_remove. by rewrite eqb_refl. Qed.
Lemma bt_get_remove_ne k k' m : k' ≠ k → bt_get k' (bt_remove k m) = bt_get k' m.
Proof. intros Hne. rewrite bt_get_remove. by rewrite (proj2 (eqb_ne k k')) by done. Qed.

(** ** Well-formedness *)
Lemma bt_wf_nil : bt_wf [].
Proof. constructor. Qed.

Lemma bt_insert_Forall (P : K * V → Prop) k v m :
  P (k, v) → Forall P m → Forall P (bt_insert k v m).
Proof.
  intros Hk Hm. induction Hm as [|[k' v'] m ? ? IH]; simpl; [by repeat constructor|].
  destruct (cmp k k'); repeat constructor; done.
Qed.

Lemma bt_wf_insert k v m : bt_wf m → bt_wf (bt_insert k v m).
Proof.
  unfold bt_wf. induction 1 as [|[k' v'] m Hm IH Hlt]; simpl; [by repeat constructor|].
  destruct (cmp k k') eqn:E.
  - apply cmp_eq in E as ->. by constructor.
  - constructor; [by constructor|]. constructor; [done|].
    eapply Forall_impl; [done|]. intros [k1 v1] Hk1. by eapply cmp_lt_trans.
  - constructor; [done|]. apply bt_insert_Forall; [by apply cmp_gt_lt|done].
Qed.

Lemma bt_wf_filter (f : K * V → bool) m : bt_wf m → bt_wf (List.filter f m).
Proof.
  unfold bt_wf. induction 1 as [|kv m Hm IH Hlt]; simpl; [constructor|].
  destruct (f kv); [|done]. constructor; [done|].
  apply List.Forall_forall. intros x [Hx _]%List.filter_In.
  by eapply List.Forall_forall in Hlt.
Qed.
Lemma bt_wf_remove k m : bt_wf m → bt_wf (bt_remove k m).
Proof. apply bt_wf_filter. Qed.

Lemma bt_wf_of_list l : bt_wf (bt_of_list l).
Proof.
  unfold bt_of_list. assert (Hg : ∀ m, bt_wf m →
    bt_wf (fold_left (λ m kv, bt_insert kv.1 kv.2 m) l m)).
  { induction l; simpl; auto using bt_wf_insert. }
  apply Hg, bt_wf_nil.
Qed.

Lemma bt_get_None_lt k m : Forall (λ kv, k ≺ kv.1) m → bt_get k m = None.
Proof.
  induction 1 as [|[k' v'] m Hlt ? IH]; simpl in *; [done|]. by rewrite Hlt.
Qed.

Lemma bt_get_elem k v m : bt_wf m → bt_get k m = Some v ↔ (k, v) ∈ m.
Proof.
  induction 1 as [|[k' v'] m Hm IH Hlt]; simpl; [by rewrite elem_of_nil|].
  rewrite elem_of_cons. destruct (cmp k k') eqn:E.
  - apply cmp_eq in E as ->. split; [naive_solver|]. intros [[=]|Hin]; [by subst|].
    eapply Forall_forall in Hlt; [|done]. by apply cmp_irrefl in Hlt.
  - rewrite IH. split; [by right|]. intros [[= -> ->]|]; [|done].
    by rewrite cmp_refl in E.
  - rewrite IH. split; [by right|]. intros [[= -> ->]|]; [|done].
    by rewrite cmp_refl in E.
Qed.

Lemma bt_ext m1 m2 :
  bt_wf m1 → bt_wf m2 → (∀ k, bt_get k m1 = bt_get k m2) → m1 = m2.
Proof.
  intros H1. revert m2. induction H1 as [|[k1 v1] m1 Hm1 IH Hlt1]; intros m2 H2 Hget.
  - destruct m2 as [|[k2 v2] m2]; [done|]. specialize (Hget k2). simpl in Hget.
    by rewrite cmp_refl in Hget.
  - destruct H2 as [|[k2 v2] m2 Hm2 Hlt2].
    { specialize (Hget k1). simpl in Hget. by rewrite cmp_refl in Hget. }
    assert (k1 = k2) as ->.
    { destruct (cmp_total k1 k2) as [Hc|[?|Hc]]; [|done|].
      - specialize (Hget k1). simpl in Hget. rewrite cmp_refl, Hc in Hget.
        rewrite bt_get_None_lt in Hget; [done|].
        eapply Forall_impl; [done|]. intros x ?. by eapply cmp_lt_trans.
      - specialize (Hget k2). simpl in Hget. rewrite cmp_refl, Hc in Hget.
        rewrite bt_get_None_lt in Hget; [done|].
        eapply Forall_impl; [exact Hlt1|]. intros x ?. by eapply cmp_lt_trans. }
    pose proof (Hget k2) as Hv. simpl in Hv. rewrite cmp_refl in Hv.
    injection Hv as ->. f_equal. apply IH; [done|]. intros k.
    destruct (eqb k k2) eqn:E.
    + apply eqb_eq in E as ->. by rewrite !bt_get_None_lt.
    + specialize (Hget k). rewrite !bt_get_cons in Hget. by rewrite E in Hget.
Qed.

Lemma bt_get_filter (f : K → bool) k m :
  bt_get k (List.filter (λ kv, f kv.1) m) = if f k then bt_get k m else None.
Proof.
  induction m as [|[k' v'] m IH]; simpl; [by destruct (f k)|].
  destruct (cmp k k') eqn:E.
  - apply cmp_eq in E as ->. destruct (f k') eqn:Ef; simpl; rewrite ?cmp_refl; [done|].
    by rewrite IH.
  - destruct (f k') eqn:Ef; simpl; rewrite ?E, ?IH; done.
  - destruct (f k') eqn:Ef; simpl; rewrite ?E, ?IH; done.
Qed.

Lemma bt_wf_app_inv m1 m2 :
  bt_wf (m1 ++ m2) →
  bt_wf m1 ∧ bt_wf m2 ∧ Forall (λ a, Forall (bt_lt a) m2) m1.
Proof.
  induction m1 as [|kv m1 IH]; simpl; intros Hs; [split_and!; constructor || done|].
  inversion Hs as [|?? Hm Hlt]; subst.
  destruct (IH Hm) as (? & ? & ?). apply Forall_app in Hlt as [? ?].
  split_and!; [by constructor|done|by constructor].
Qed.

Lemma bt_insert_max k v m :
  Forall (λ kv, kv.1 ≺ k) m → bt_insert k v m = m ++ [(k, v)].
Proof.
  induction 1 as [|[k' v'] m Hlt _ IH]; simpl in *; [done|].
  by rewrite (proj2 (cmp_gt_lt k k') Hlt), IH.
Qed.

Lemma bt_fold_insert_sorted m l :
  bt_wf (m ++ l) → fold_left (λ m kv, bt_insert kv.1 kv.2 m) l m = m ++ l.
Proof.
  revert m. induction l as [|[k v] l IH]; intros m Hwf; simpl; [by rewrite app_nil_r|].
  rewrite bt_insert_max.
  - rewrite IH by (by rewrite <-app_assoc). by rewrite <-app_assoc.
  - destruct (bt_wf_app_inv _ _ Hwf) as (_ & _ & Hall).
    eapply Forall_impl; [exact Hall|]. intros kv Hkv. by inversion Hkv.
Qed.
End btree.
Arguments bound K : clear implicits.
Arguments Included {K} k.
Arguments Excluded {K} k.
Arguments Unbounded {K}.

#[export] Hint Resolve bt_wf_nil bt_wf_insert bt_wf_remove bt_wf_of_list bt_wf_filter : ord.
