(* ===== verification/Bytes.v ===== *)
(** * Byte strings: [common/bytes]

    Fixed-width integer encodings ([to_be_bytes] and friends), the big-endian
    increment of [util.rs] that turns a prefix into the exclusive end of its
    range, and the [ByteArray] representation (inline or boxed) refined to the
    slice it dereferences to. *)
From S2P Require Import Prelude.

(** ** Fixed-width encodings of unsigned integers *)

(** [n] bytes of [z], most significant first: [uN::to_be_bytes]. *)
Fixpoint be_bytes (n : nat) (z : Z) : bytes :=
  match n with
  | O => []
  | S n' => (z / 256 ^ Z.of_nat n') mod 256 :: be_bytes n' z
  end.
(** [uN::from_be_bytes]. *)
Fixpoint be_value (bs : bytes) : Z :=
  match bs with
  | [] => 0
  | b :: bs' => b * 256 ^ Z.of_nat (length bs') + be_value bs'
  end.

(** [n] bytes of [z], least significant first: [uN::to_le_bytes]. *)
Fixpoint le_bytes (n : nat) (z : Z) : bytes :=
  match n with
  | O => []
  | S n' => z mod 256 :: le_bytes n' (z / 256)
  end.
(** [uN::from_le_bytes]. *)
Fixpoint le_value (bs : bytes) : Z :=
  match bs with
  | [] => 0
  | b :: bs' => b + 256 * le_value bs'
  end.

Lemma pow256_pos n : 0 < 256 ^ Z.of_nat n.
Proof. apply Z.pow_pos_nonneg; lia. Qed.
Lemma pow256_S n : 256 ^ Z.of_nat (S n) = 256 * 256 ^ Z.of_nat n.
Proof. rewrite Nat2Z.inj_succ, Z.pow_succ_r; lia. Qed.

Lemma length_be_bytes n z : length (be_bytes n z) = n.
Proof. induction n; simpl; auto. Qed.
Lemma length_le_bytes n z : length (le_bytes n z) = n.
Proof. revert z. induction n; intros; simpl; auto. Qed.

Lemma mod256_byte z : is_byte (z mod 256).
Proof. unfold is_byte. apply Z.mod_pos_bound. lia. Qed.
Lemma be_bytes_is_bytes n z : is_bytes (be_bytes n z).
Proof. induction n; simpl; constructor; auto using mod256_byte. Qed.
Lemma le_bytes_is_bytes n z : is_bytes (le_bytes n z).
Proof. revert z. induction n; intros; simpl; constructor; auto using mod256_byte. Qed.

Lemma be_value_bound bs : is_bytes bs → 0 ≤ be_value bs < 256 ^ Z.of_nat (length bs).
Proof.
  induction 1 as [|b bs Hb _ IH]; [simpl; lia|].
  cbn [be_value length]. rewrite pow256_S. unfold is_byte in Hb.
  pose proof (pow256_pos (length bs)). nia.
Qed.

Lemma be_value_be_bytes n z : be_value (be_bytes n z) = z mod 256 ^ Z.of_nat n.
Proof.
  induction n as [|n IH]; [simpl; by rewrite Z.mod_1_r|].
  cbn [be_bytes be_value]. rewrite IH, length_be_bytes, pow256_S.
  pose proof (pow256_pos n). rewrite (Z.mul_comm 256), Z.rem_mul_r by lia. lia.
Qed.

Lemma be_bytes_be_value bs : is_bytes bs → be_bytes (length bs) (be_value bs) = bs.
Proof.
  intros Hbs. induction Hbs as [|b bs Hb Hbs IH]; [done|].
  pose proof (be_value_bound bs Hbs). pose proof (pow256_pos (length bs)).
  assert (Hmod : ∀ n x, be_bytes n (x mod 256 ^ Z.of_nat n) = be_bytes n x).
  { clear. induction n as [|n IHn]; intros x; [done|]. cbn [be_bytes].
    pose proof (pow256_pos n). f_equal.
    - rewrite pow256_S, (Z.mul_comm 256), Z.rem_mul_r by lia.
      rewrite (Z.mul_comm (256 ^ _)), Z.div_add by lia.
      rewrite Z.div_small by (apply Z.mod_pos_bound; lia).
      rewrite Z.add_0_l. by rewrite Z.mod_mod by lia.
    - rewrite <-(IHn (x mod _)), <-(IHn x). f_equal.
      rewrite pow256_S, (Z.mul_comm 256), Z.rem_mul_r by lia.
      rewrite Z.mul_comm, Z.mod_add by lia. by rewrite Z.mod_mod by lia. }
  cbn [be_bytes be_value length]. f_equal.
  - rewrite Z.div_add_l by lia. rewrite (Z.div_small (be_value bs)) by lia.
    rewrite Z.add_0_r. apply Z.mod_small. done.
  - rewrite <-Hmod, Z.add_comm, Z.mod_add, Hmod by lia. done.
Qed.

Lemma le_value_bound bs : is_bytes bs → 0 ≤ le_value bs < 256 ^ Z.of_nat (length bs).
Proof.
  induction 1 as [|b bs Hb _ IH]; [simpl; lia|].
  cbn [le_value length]. rewrite pow256_S. unfold is_byte in Hb. lia.
Qed.
Lemma le_value_le_bytes n z : le_value (le_bytes n z) = z mod 256 ^ Z.of_nat n.
Proof.
  revert z. induction n as [|n IH]; intros z; [simpl; by rewrite Z.mod_1_r|].
  cbn [le_bytes le_value]. rewrite IH, pow256_S. pose proof (pow256_pos n).
  rewrite (Z.rem_mul_r z 256) by lia. lia.
Qed.
Lemma le_bytes_le_value bs : is_bytes bs → le_bytes (length bs) (le_value bs) = bs.
Proof.
  induction 1 as [|b bs Hb _ IH]; [done|]. cbn [le_bytes le_value length].
  unfold is_byte in Hb. f_equal.
  - rewrite Z.mul_comm, Z.mod_add by lia. by apply Z.mod_small.
  - rewrite Z.mul_comm, Z.div_add, Z.div_small by lia. done.
Qed.

(** The big-endian encoding is an order embedding. *)
Lemma be_value_cmp bs cs :
  is_bytes bs → is_bytes cs → length bs = length cs →
  cmp bs cs = Z.compare (be_value bs) (be_value cs).
Proof.
  intros Hbs. revert cs. induction Hbs as [|b bs Hb Hbs IH]; intros cs Hcs Hlen.
  { destruct cs; [done|simplify_eq/=]. }
  destruct Hcs as [|c cs Hc Hcs]; [done|]. simpl in Hlen. injection Hlen as Hlen.
  cbn [be_value]. rewrite <-Hlen.
  pose proof (be_value_bound bs Hbs). pose proof (be_value_bound cs Hcs).
  pose proof (pow256_pos (length bs)). rewrite <-Hlen in *.
  change (cmp (b :: bs) (c :: cs)) with
    (match cmp b c with Eq => cmp bs cs | o => o end).
  change (cmp b c) with (Z.compare b c). rewrite (IH cs Hcs Hlen).
  symmetry. destruct (Z.compare_spec b c) as [->|Hlt|Hlt].
  - destruct (Z.compare_spec (be_value bs) (be_value cs)).
    + apply Z.compare_eq_iff. lia.
    + apply Z.compare_lt_iff. lia.
    + apply Z.compare_gt_iff. lia.
  - apply Z.compare_lt_iff. nia.
  - apply Z.compare_gt_iff. nia.
Qed.

Lemma be_bytes_cmp n a b :
  0 ≤ a < 256 ^ Z.of_nat n → 0 ≤ b < 256 ^ Z.of_nat n →
  cmp (be_bytes n a) (be_bytes n b) = Z.compare a b.
Proof.
  intros. rewrite be_value_cmp by (auto using be_bytes_is_bytes; by rewrite !length_be_bytes).
  rewrite !be_value_be_bytes, !Z.mod_small by done. done.
Qed.

Lemma be_bytes_inj n a b :
  0 ≤ a < 256 ^ Z.of_nat n → 0 ≤ b < 256 ^ Z.of_nat n →
  be_bytes n a = be_bytes n b → a = b.
Proof.
  intros Ha Hb Heq. pose proof (be_bytes_cmp n a b Ha Hb) as Hc.
  rewrite Heq, cmp_refl in Hc. symmetry in Hc. by apply Z.compare_eq_iff in Hc.
Qed.

(** ** Lexicographic order and concatenation *)
Lemma list_cmp_app_same (p a b : bytes) : cmp (p ++ a) (p ++ b) = cmp a b.
Proof.
  induction p as [|x p IH]; [done|]. simpl.
  change (match cmp x x with Eq => cmp (p ++ a) (p ++ b) | o => o end = cmp a b).
  by rewrite cmp_refl.
Qed.
Lemma list_cmp_app_len (a b c d : bytes) :
  length a = length b →
  cmp (a ++ c) (b ++ d) = match cmp a b with Eq => cmp c d | o => o end.
Proof.
  revert b. induction a as [|x a IH]; intros [|y b] Hlen; simplify_eq/=; [done|].
  change (match cmp x y with Eq => cmp (a ++ c) (b ++ d) | o => o end =
          match (match cmp x y with Eq => cmp a b | o => o end) with Eq => cmp c d | o => o end).
  rewrite IH by done. by destruct (cmp x y).
Qed.
Lemma list_cmp_prefix (p a : bytes) : p ⪯ p ++ a.
Proof.
  rewrite <-(app_nil_r p) at 1. rewrite list_cmp_app_same. by destruct a.
Qed.

(** ** [common/bytes/util.rs] *)
Inductive BytesErrorKind := IncrementOverflow.

(** The loop of [increment], over the bytes from last to first.  Bytes are
    overwritten before the overflow of the whole string is known, so the error
    case returns the wrapped (all-zero) bytes. *)
Fixpoint increment_rev (rbytes : bytes) : bytes * (() + BytesErrorKind) :=
  match rbytes with
  | [] => ([], inr IncrementOverflow)
  | byte :: rest =>
      let val := u8 (byte + 1) in
      let overflow := 256 <=? byte + 1 in
      if negb overflow then (val :: rest, inl ())
      else let '(rest', r) := increment_rev rest in (val :: rest', r)
  end.
Definition increment (bs : bytes) : bytes * (() + BytesErrorKind) :=
  let '(r, res) := increment_rev (rev bs) in (rev r, res).

(** The loop of [increment_fixed]: every byte is incremented, from last to
    first, and an overflow of any of them panics. *)
Fixpoint increment_fixed_rev (rbytes : bytes) : outcome bytes :=
  match rbytes with
  | [] => Val []
  | byte :: rest =>
      if 256 <=? byte + 1 then Panic
      else rest' ← increment_fixed_rev rest; Val (u8 (byte + 1) :: rest')
  end.
Definition increment_fixed (bs : bytes) : outcome bytes :=
  @rev Z <$> increment_fixed_rev (rev bs).

(** [increment().unwrap()], as the range code calls it. *)
Definition increment_unwrap {E} (bs : bytes) : exec E bytes :=
  match increment bs with (bs', inl _) => Val bs' | (_, inr _) => Panic end.

Lemma be_value_app bs cs :
  be_value (bs ++ cs) = be_value bs * 256 ^ Z.of_nat (length cs) + be_value cs.
Proof.
  induction bs as [|b bs IH]; simpl; [lia|].
  rewrite IH, length_app, Nat2Z.inj_add, Z.pow_add_r by lia. lia.
Qed.

(** Value of a reversed byte string and how one loop step changes it. *)
Lemma increment_rev_spec rbs :
  is_bytes rbs →
  (increment_rev rbs).2 =
    (if be_value (rev rbs) + 1 <? 256 ^ Z.of_nat (length rbs) then inl () else inr IncrementOverflow) ∧
  is_bytes (increment_rev rbs).1 ∧
  length (increment_rev rbs).1 = length rbs ∧
  be_value (rev (increment_rev rbs).1) =
    (be_value (rev rbs) + 1) mod 256 ^ Z.of_nat (length rbs).
Proof.
  induction 1 as [|b rbs Hb Hrbs IH]; [done|].
  destruct (increment_rev rbs) as [r' res'] eqn:Er. simpl in IH.
  destruct IH as (Hres & Hbytes & Hlen & Hval).
  pose proof (be_value_bound (rev rbs) ltac:(by apply Forall_rev)) as Hbd.
  rewrite length_rev in Hbd. pose proof (pow256_pos (length rbs)).
  unfold is_byte in Hb. cbn [increment_rev]. rewrite Er.
  cbn [rev length]. rewrite be_value_app, pow256_S. cbn [length be_value].
  change (256 ^ Z.of_nat 1) with 256. change (256 ^ Z.of_nat 0) with 1.
  destruct (Z.leb_spec 256 (b + 1)) as [Hov|Hov]; cbn [negb fst snd].
  - assert (b = 255) as -> by lia. rewrite Hres. split_and!.
    + destruct (Z.ltb_spec (be_value (rev rbs) + 1) (256 ^ Z.of_nat (length rbs))),
        (Z.ltb_spec (be_value (rev rbs) * 256 + (255 * 1 + 0) + 1) (256 * 256 ^ Z.of_nat (length rbs)));
        done || lia.
    + constructor; [apply u8_range|done].
    + simpl. lia.
    + cbn [rev]. rewrite be_value_app, Hval. cbn [length be_value].
      change (256 ^ Z.of_nat 1) with 256. change (256 ^ Z.of_nat 0) with 1.
      change (u8 (255 + 1)) with 0.
      replace (be_value (rev rbs) * 256 + (255 * 1 + 0) + 1) with (256 * (be_value (rev rbs) + 1)) by lia.
      rewrite Z.mul_mod_distr_l by lia. lia.
  - unfold u8. rewrite Z.mod_small by lia. split_and!.
    + destruct (Z.ltb_spec (be_value (rev rbs) * 256 + (b * 1 + 0) + 1) (256 * 256 ^ Z.of_nat (length rbs))); done || lia.
    + constructor; [unfold is_byte; lia|done].
    + done.
    + cbn [rev]. rewrite be_value_app. cbn [length be_value].
      change (256 ^ Z.of_nat 1) with 256. change (256 ^ Z.of_nat 0) with 1.
      rewrite Z.mod_small; lia.
Qed.

Lemma increment_as_value bs :
  is_bytes bs →
  increment bs =
    (be_bytes (length bs) (be_value bs + 1),
     if be_value bs + 1 <? 256 ^ Z.of_nat (length bs) then inl () else inr IncrementOverflow).
Proof.
  intros Hbs. unfold increment.
  destruct (increment_rev_spec (rev bs) ltac:(by apply Forall_rev)) as (Hres & Hb & Hlen & Hval).
  destruct (increment_rev (rev bs)) as [r res]. simpl in *.
  rewrite rev_involutive, length_rev in *. rewrite Hres. f_equal.
  rewrite <-(be_bytes_be_value (rev r)) by (by apply Forall_rev).
  rewrite length_rev, Hlen, Hval. rewrite <-be_value_be_bytes.
  rewrite <-(length_be_bytes (length bs) (be_value bs + 1)) at 1.
  apply be_bytes_be_value, be_bytes_is_bytes.
Qed.

Lemma increment_unwrap_spec {E} bs q :
  is_bytes bs →
  increment_unwrap (E:=E) bs = Val q ↔
    be_value bs + 1 < 256 ^ Z.of_nat (length bs) ∧ q = be_bytes (length bs) (be_value bs + 1).
Proof.
  intros Hbs. unfold increment_unwrap. rewrite increment_as_value by done.
  destruct (Z.ltb_spec (be_value bs + 1) (256 ^ Z.of_nat (length bs))); naive_solver lia.
Qed.

(** The keys between a prefix and its increment are those with the prefix,
    among keys at least as long as the prefix. *)
Lemma prefix_range {E} (p q k : bytes) :
  is_bytes p → is_bytes k → increment_unwrap (E:=E) p = Val q → (length p ≤ length k)%nat →
  (p ⪯ k ∧ k ≺ q) ↔ p `prefix_of` k.
Proof.
  intros Hp Hk [Hlt ->]%increment_unwrap_spec Hlen; [|done].
  assert (∃ k1 k2, k = k1 ++ k2 ∧ length k1 = length p) as (k1 & k2 & -> & Hl).
  { exists (take (length p) k), (drop (length p) k). rewrite take_drop, length_take. split; [done|lia]. }
  apply Forall_app in Hk as [Hk Hd].
  pose proof (be_value_bound p Hp). pose proof (be_value_bound k1 Hk) as Hb1. rewrite Hl in Hb1.
  assert (Hc1 : cmp p (k1 ++ k2) = match cmp p k1 with Eq => cmp [] k2 | o => o end).
  { by rewrite <-(app_nil_r p) at 1; rewrite list_cmp_app_len by done. }
  set (q := be_bytes (length p) (be_value p + 1)).
  assert (Hlq : length q = length p) by apply length_be_bytes.
  assert (Hc2 : cmp (k1 ++ k2) q = match cmp k1 q with Eq => cmp k2 [] | o => o end).
  { by rewrite <-(app_nil_r q) at 1; rewrite list_cmp_app_len by congruence. }
  rewrite (be_value_cmp p k1) in Hc1 by done.
  rewrite (be_value_cmp k1 q) in Hc2 by (apply be_bytes_is_bytes || congruence).
  replace (be_value q) with (be_value p + 1) in Hc2
    by (unfold q; rewrite be_value_be_bytes, Z.mod_small; lia).
  split.
  - rewrite Hc1, Hc2. intros [Hle Hlt'].
    assert (be_value p = be_value k1) as Heq.
    { destruct (Z.compare_spec (be_value p) (be_value k1)); [done| |done].
      destruct (Z.compare_spec (be_value k1) (be_value p + 1)); [|lia|done].
      by destruct k2. }
    exists k2. f_equal. rewrite <-(be_bytes_be_value p), <-(be_bytes_be_value k1) by done.
    by rewrite Hl, Heq.
  - intros [z Hz]. assert (k1 = p /\ k2 = z) as [-> ->] by (by apply app_inj_1).
    rewrite Hc1, Hc2. rewrite Z.compare_refl. split; [by destruct z|].
    by rewrite (proj2 (Z.compare_lt_iff (be_value p) (be_value p + 1))) by lia.
Qed.

(** Below the increment of a string means at most that string on its first bytes. *)
Lemma lt_increment_iff {E} (e q k : bytes) :
  is_bytes e → is_bytes k → increment_unwrap (E:=E) e = Val q → (length e ≤ length k)%nat →
  k ≺ q ↔ take (length e) k ⪯ e.
Proof.
  intros He Hk [Hlt ->]%increment_unwrap_spec Hlen; [|done].
  assert (∃ k1 k2, k = k1 ++ k2 ∧ length k1 = length e) as (k1 & k2 & -> & Hl).
  { exists (take (length e) k), (drop (length e) k). rewrite take_drop, length_take. split; [done|lia]. }
  apply Forall_app in Hk as [Hk _]. rewrite <-Hl at 2. rewrite take_app_length.
  set (q := be_bytes (length e) (be_value e + 1)).
  assert (Hlq : length q = length e) by apply length_be_bytes.
  assert (Hc : cmp (k1 ++ k2) q = match cmp k1 q with Eq => cmp k2 [] | o => o end)
    by (rewrite <-(app_nil_r q) at 1; apply list_cmp_app_len; congruence).
  rewrite Hc. rewrite (be_value_cmp k1 q) by (apply be_bytes_is_bytes || congruence).
  rewrite (be_value_cmp k1 e) by done. pose proof (be_value_bound e He).
  replace (be_value q) with (be_value e + 1) by (unfold q; rewrite be_value_be_bytes, Z.mod_small; lia).
  destruct (Z.compare_spec (be_value k1) (be_value e + 1)),
    (Z.compare_spec (be_value k1) (be_value e)); try lia; try done.
  by destruct k2.
Qed.

Lemma lt_take_iff (e k : bytes) : (length e ≤ length k)%nat → k ≺ e ↔ take (length e) k ≺ e.
Proof.
  intros Hlen.
  assert (Hc : cmp (take (length e) k ++ drop (length e) k) (e ++ []) =
    match cmp (take (length e) k) e with Eq => cmp (drop (length e) k) [] | o => o end)
    by (apply list_cmp_app_len; rewrite length_take; lia).
  rewrite take_drop, app_nil_r in Hc. rewrite Hc.
  destruct (cmp (take (length e) k) e); [|done..]. by destruct (drop (length e) k).
Qed.

(** [increment] is the big-endian successor: on a byte string of value [v]
    and length [n] it writes the [n]-byte encoding of [v + 1], reports success
    exactly when [v + 1] fits in [n] bytes, and on overflow reports the error
    having overwritten the string with zeros (the encoding modulo [256^n]). *)
Lemma increment_spec bs :
  is_bytes bs →
  increment bs =
    (be_bytes (length bs) (be_value bs + 1),
     if be_value bs + 1 <? 256 ^ Z.of_nat (length bs) then inl () else inr IncrementOverflow).
Proof. apply increment_as_value. Qed.
Lemma increment_spec_witness :
  is_bytes [7; 255; 255] ∧ increment [7; 255; 255] = ([8; 0; 0], inl ()).
Proof.
  assert (H : is_bytes [7; 255; 255]) by (repeat constructor; unfold is_byte; lia).
  split; [exact H|]. rewrite (increment_spec [7; 255; 255] H). reflexivity.
Defined.

Lemma increment_fixed_rev_value rbs r :
  is_bytes rbs → increment_fixed_rev rbs = Val r → r = (λ b, b + 1) <$> rbs.
Proof.
  intros Hrbs. revert r. induction Hrbs as [|b rbs Hb _ IH]; intros r; simpl; [by intros [= <-]|].
  destruct (Z.leb_spec 256 (b + 1)); [done|].
  destruct (increment_fixed_rev rbs) as [r'| |]; try done. intros [= <-].
  unfold is_byte in Hb. rewrite (IH r') by done. f_equal. by apply u8_id; unfold is_byte; lia.
Qed.

(** [increment_fixed], documented as the const big-endian [+1], returns
    (when it does not panic) the string with {e every} byte incremented; on two
    or more bytes this is never the big-endian successor. *)
Lemma increment_fixed_not_successor bs r :
  is_bytes bs → increment_fixed bs = Val r →
  r = (λ b, b + 1) <$> bs ∧
  ((2 ≤ length bs)%nat → r ≠ be_bytes (length bs) (be_value bs + 1)).
Proof.
  unfold increment_fixed. intros Hbs Hr.
  destruct (increment_fixed_rev (rev bs)) as [r'| |] eqn:E; simpl in Hr; simplify_eq.
  apply increment_fixed_rev_value in E; [|by apply Forall_rev].
  assert (rev r' = (λ b, b + 1) <$> bs) as Hmap.
  { rewrite E. rewrite <-(rev_involutive bs) at 2. by rewrite <-List.map_rev. }
  split; [exact Hmap|]. intros Hlen Heq.
  destruct bs as [|b1 [|b2 bs]]; [simpl in Hlen; lia..|].
  assert (Hbd := be_value_bound _ Hbs).
  apply (f_equal be_value) in Heq. rewrite Hmap, be_value_be_bytes in Heq.
  assert (Hadd : ∀ l, be_value l ≤ be_value ((λ b, b + 1) <$> l)).
  { clear. induction l as [|x l IH]; [simpl; lia|]. cbn [be_value fmap list_fmap].
    rewrite length_fmap. pose proof (pow256_pos (length l)). simpl in *. nia. }
  revert Heq. cbn [be_value fmap list_fmap length]. rewrite length_fmap.
  specialize (Hadd bs). cbn [be_value length] in Hbd.
  change (list_fmap Z Z (λ b, b + 1) bs) with ((λ b, b + 1) <$> bs).
  rewrite !pow256_S in *. pose proof (pow256_pos (length bs)).
  destruct (decide (be_value (b1 :: b2 :: bs) + 1 < 256 * (256 * 256 ^ Z.of_nat (length bs)))) as [Hsm|Hsm];
    cbn [be_value length] in Hsm; rewrite !pow256_S in Hsm.
  - rewrite Z.mod_small by lia. intros Heq. nia.
  - intros Heq.
    assert (b1 * (256 * 256 ^ Z.of_nat (length bs)) + (b2 * 256 ^ Z.of_nat (length bs) + be_value bs) + 1
            = 256 * (256 * 256 ^ Z.of_nat (length bs))) as Hfull by lia.
    rewrite Hfull, Z.mod_same in Heq by lia. nia.
Qed.
Lemma increment_fixed_not_successor_witness :
  increment_fixed [1; 2] = Val [2; 3] ∧ ((2 ≤ 2)%nat → [2; 3] ≠ be_bytes 2 (be_value [1; 2] + 1)).
Proof.
  split; [reflexivity|].
  apply (increment_fixed_not_successor [1; 2] [2; 3]); [|reflexivity].
  repeat constructor; unfold is_byte; lia.
Defined.

(** The range [prefix, prefix + 1) the storage layer scans for a prefix
    holds exactly the keys that start with it, among keys at least as long as
    the prefix (a shorter key can fall into the range: see
    [prefix_range_short_key]). *)
Lemma prefix_range_is_prefix (p q k : bytes) :
  is_bytes p → is_bytes k → increment_unwrap (E:=Empty_set) p = Val q → (length p ≤ length k)%nat →
  (p ⪯ k ∧ k ≺ q) ↔ p `prefix_of` k.
Proof. apply prefix_range. Qed.
Lemma prefix_range_is_prefix_witness :
  increment_unwrap (E:=Empty_set) [1; 255] = Val [2; 0] ∧
  ([1; 255] ⪯ [1; 255; 9] ∧ [1; 255; 9] ≺ [2; 0]).
Proof.
  split; [reflexivity|].
  apply (prefix_range_is_prefix [1; 255] [2; 0] [1; 255; 9]).
  - repeat constructor; unfold is_byte; lia.
  - repeat constructor; unfold is_byte; lia.
  - reflexivity.
  - simpl; lia.
  - by exists [9].
Defined.

Example prefix_range_short_key :
  increment_unwrap (E:=Empty_set) [1; 255] = Val [2; 0] ∧
  [1; 255] ⪯ [2] ∧ [2] ≺ [2; 0] ∧ ¬ [1; 255] `prefix_of` [2].
Proof. repeat split; try done. intros [z [=]]. Qed.

(** ** [common/bytes/byte_array.rs]

    [ByteArray<INLINE_BYTES>] stores up to [INLINE_BYTES] bytes in place, with
    the used length in a [u8], and longer strings on the heap.  The inline size
    is a const generic; every instantiation in the repository is at most 128. *)
Module ByteArray.
Section byte_array.
Context (INLINE : nat) (INLINE_fits : (INLINE ≤ 255)%nat).

Inductive t :=
| Inline (bs : bytes) (len : Z)
| Boxed (bs : bytes).

Definition len_as_u8 (n : nat) : Z := u8 (Z.of_nat n).

(** [Deref]: [&bytes[..*len as usize]] or the box. *)
Definition deref (a : t) : bytes :=
  match a with
  | Inline bs len => take (Z.to_nat len) bs
  | Boxed bs => bs
  end.
Definition len (a : t) : nat := length (deref a).

(** The inline buffer is always [INLINE] bytes and the length within it. *)
Definition wf (a : t) : Prop :=
  match a with
  | Inline bs len => length bs = INLINE ∧ 0 ≤ len ≤ Z.of_nat INLINE
  | Boxed _ => True
  end.

(** [data[at..][..slice.len()].copy_from_slice(slice)] into a buffer. *)
Definition copy_at (at_ : nat) (slice data : bytes) : bytes :=
  take at_ data ++ slice ++ drop (at_ + length slice) data.

Definition empty : t := Inline (replicate INLINE 0) 0.

Definition zeros (length : nat) : t :=
  if (length <=? INLINE)%nat then Inline (replicate INLINE 0) (len_as_u8 length)
  else Boxed (replicate length 0).

Definition copy (bs : bytes) : t :=
  if (length bs <=? INLINE)%nat
  then Inline (copy_at 0 bs (replicate INLINE 0)) (len_as_u8 (length bs))
  else Boxed bs.

(** [copy_inline]: const, byte by byte, asserting that the input fits. *)
Definition copy_inline (bs : bytes) : outcome t :=
  if (length bs <=? INLINE)%nat
  then Val (Inline (copy_at 0 bs (replicate INLINE 0)) (len_as_u8 (length bs)))
  else Panic.

(** [copy_concat]: the slices laid one after the other. *)
Fixpoint concat_into (slices : list bytes) (end_ : nat) (data : bytes) : bytes :=
  match slices with
  | [] => data
  | slice :: rest => concat_into rest (end_ + length slice)%nat (copy_at end_ slice data)
  end.
Definition copy_concat (slices : list bytes) : t :=
  let length_ := sum_list_with length slices in
  if (length_ <=? INLINE)%nat
  then Inline (concat_into slices 0 (replicate INLINE 0)) (len_as_u8 length_)
  else Boxed (concat slices).

Definition truncate (length : nat) (a : t) : outcome t :=
  if (length <=? len a)%nat then
    Val match a with
        | Inline bs _ => Inline bs (len_as_u8 length)
        | Boxed bs => Boxed (take length bs)
        end
  else Panic.

(** [truncate_range(start..end)]: [copy_within] and slicing panic when the
    range is reversed. *)
Definition truncate_range (start end_ : nat) (a : t) : outcome t :=
  if (start <=? len a)%nat && (end_ <=? len a)%nat then
    if (end_ <? start)%nat then Panic
    else
      Val match a with
          | Inline bs _ =>
              Inline (copy_at 0 (take (end_ - start) (drop start bs)) bs)
                (len_as_u8 (end_ - start))
          | Boxed bs => Boxed (take (end_ - start) (drop start bs))
          end
  else Panic.

Definition starts_with (a : t) (bs : bytes) : bool :=
  (length bs <=? len a)%nat && bool_decide (take (length bs) (deref a) = bs).

Definition eq (a b : t) : bool := bool_decide (deref a = deref b).
Definition compare (a b : t) : comparison := cmp (deref a) (deref b).

Lemma len_as_u8_small n : (n ≤ INLINE)%nat → Z.to_nat (len_as_u8 n) = n.
Proof. intros. unfold len_as_u8. rewrite u8_id by (unfold is_byte; lia). lia. Qed.
Lemma len_as_u8_wf n : (n ≤ INLINE)%nat → 0 ≤ len_as_u8 n ≤ Z.of_nat INLINE.
Proof. intros. unfold len_as_u8. rewrite u8_id by (unfold is_byte; lia). lia. Qed.

Lemma length_copy_at i s d : (i + length s ≤ length d)%nat → length (copy_at i s d) = length d.
Proof. unfold copy_at. intros. rewrite !length_app, length_take, length_drop. lia. Qed.
Lemma copy_at_take i s d :
  (i + length s ≤ length d)%nat → take (i + length s) (copy_at i s d) = take i d ++ s.
Proof.
  intros. unfold copy_at. rewrite app_assoc, take_app_length'; [done|].
  rewrite length_app, length_take. lia.
Qed.

Lemma concat_into_spec slices e d :
  (e + sum_list_with length slices ≤ length d)%nat →
  length (concat_into slices e d) = length d ∧
  take (e + sum_list_with length slices) (concat_into slices e d) = take e d ++ concat slices.
Proof.
  revert e d. induction slices as [|s slices IH]; intros e d Hle; simpl in *.
  { by rewrite Nat.add_0_r, app_nil_r. }
  destruct (IH (e + length s)%nat (copy_at e s d)) as [Hlen Htake].
  { rewrite length_copy_at by lia. lia. }
  rewrite length_copy_at in Hlen by lia. split; [done|].
  rewrite Nat.add_assoc, Htake, copy_at_take by lia. by rewrite app_assoc.
Qed.

Lemma copy_at_0_take s d : (length s ≤ length d)%nat → take (length s) (copy_at 0 s d) = s.
Proof. intros. apply (copy_at_take 0 s d). lia. Qed.

Lemma copy_fits bs :
  (length bs ≤ INLINE)%nat →
  wf (Inline (copy_at 0 bs (replicate INLINE 0)) (len_as_u8 (length bs))) ∧
  deref (Inline (copy_at 0 bs (replicate INLINE 0)) (len_as_u8 (length bs))) = bs.
Proof.
  intros Hle. cbn. rewrite length_copy_at, len_as_u8_small, copy_at_0_take
    by (rewrite ?length_replicate; lia).
  rewrite length_replicate. auto using len_as_u8_wf.
Qed.
Lemma copy_refines bs : wf (copy bs) ∧ deref (copy bs) = bs.
Proof.
  unfold copy. destruct (Nat.leb_spec (length bs) INLINE); [by apply copy_fits|done].
Qed.
Lemma copy_inline_refines bs :
  match copy_inline bs with Val a => wf a ∧ deref a = bs | _ => (INLINE < length bs)%nat end.
Proof.
  unfold copy_inline. destruct (Nat.leb_spec (length bs) INLINE); [by apply copy_fits|done].
Qed.
Lemma zeros_refines n : wf (zeros n) ∧ deref (zeros n) = replicate n 0.
Proof.
  unfold zeros. destruct (Nat.leb_spec n INLINE) as [Hle|]; [|done].
  cbn. rewrite length_replicate, len_as_u8_small, take_replicate by done.
  split; [auto using len_as_u8_wf|]. f_equal; lia.
Qed.
Lemma copy_concat_refines slices :
  wf (copy_concat slices) ∧ deref (copy_concat slices) = concat slices.
Proof.
  unfold copy_concat.
  destruct (Nat.leb_spec (sum_list_with length slices) INLINE) as [Hle|]; [|done].
  destruct (concat_into_spec slices 0 (replicate INLINE 0)) as [Hlen Htake];
    [by rewrite length_replicate|].
  rewrite length_replicate in Hlen. cbn in *.
  rewrite len_as_u8_small, Htake by done. auto using len_as_u8_wf.
Qed.
Lemma truncate_refines a n :
  wf a →
  match truncate n a with
  | Val b => wf b ∧ deref b = take n (deref a) | _ => (len a < n)%nat end.
Proof.
  unfold truncate. destruct (Nat.leb_spec n (len a)) as [Hle|]; [|done].
  destruct a as [bs l|bs]; [|done]. intros [Hlen Hl]. unfold len in Hle. cbn in Hle |- *.
  rewrite length_take in Hle. rewrite len_as_u8_small, take_take by lia.
  split; [split; [done|apply len_as_u8_wf; lia]|f_equal; lia].
Qed.
Lemma truncate_range_refines a s e :
  wf a →
  match truncate_range s e a with
  | Val b => wf b ∧ deref b = take (e - s) (drop s (deref a))
  | _ => (len a < s ∨ len a < e ∨ e < s)%nat end.
Proof.
  intros Hwf. unfold truncate_range.
  destruct (Nat.leb_spec s (len a)) as [Hs|]; [|by left].
  destruct (Nat.leb_spec e (len a)) as [He|]; [|by right; left].
  cbn [andb]. destruct (Nat.ltb_spec e s) as [|Hes]; [by right; right|].
  destruct a as [bs l|bs]; [|done]. destruct Hwf as [Hlen Hl]. unfold len in *. cbn in Hs, He |- *.
  rewrite length_take in Hs, He.
  assert (Hsl : length (take (e - s) (drop s bs)) = (e - s)%nat)
    by (rewrite length_take, length_drop; lia).
  rewrite length_copy_at by (rewrite Hsl; lia).
  split; [split; [done|apply len_as_u8_wf; lia]|].
  rewrite len_as_u8_small by lia. rewrite <-Hsl at 1. rewrite copy_at_0_take by (rewrite Hsl; lia).
  rewrite skipn_firstn_comm, take_take. f_equal. lia.
Qed.
Lemma starts_with_prefix a bs : starts_with a bs = true ↔ bs `prefix_of` deref a.
Proof.
  unfold starts_with, len. rewrite andb_true_iff, Nat.leb_le, bool_decide_eq_true. split.
  - intros [_ Heq]. exists (drop (length bs) (deref a)). rewrite <-Heq at 1. by rewrite take_drop.
  - intros [z ->]. rewrite length_app, take_app_length. split; [lia|done].
Qed.

(** [ByteArray] is transparent: every constructor dereferences to the
    bytes it was given (whether they were stored inline or on the heap), the
    two truncations dereference to the sub-slice (and panic exactly when it
    is out of range), prefix tests are prefix tests of the slices, and all of
    them keep the representation invariant. *)
Lemma byte_array_refines_slice :
  (∀ bs, wf (copy bs) ∧ deref (copy bs) = bs) ∧
  (∀ n, wf (zeros n) ∧ deref (zeros n) = replicate n 0) ∧
  (∀ slices, wf (copy_concat slices) ∧ deref (copy_concat slices) = concat slices) ∧
  (∀ bs, match copy_inline bs with
         | Val a => wf a ∧ deref a = bs | _ => (INLINE < length bs)%nat end) ∧
  (∀ a n, wf a → match truncate n a with
                 | Val b => wf b ∧ deref b = take n (deref a) | _ => (len a < n)%nat end) ∧
  (∀ a s e, wf a → match truncate_range s e a with
                   | Val b => wf b ∧ deref b = take (e - s) (drop s (deref a))
                   | _ => (len a < s ∨ len a < e ∨ e < s)%nat end) ∧
  (∀ a bs, starts_with a bs = true ↔ bs `prefix_of` deref a).
Proof.
  exact (conj copy_refines (conj zeros_refines (conj copy_concat_refines (conj copy_inline_refines
    (conj truncate_refines (conj truncate_range_refines starts_with_prefix)))))).
Qed.
End byte_array.
End ByteArray.

Lemma byte_array_refines_slice_witness :
  (4 ≤ 255)%nat ∧
  ByteArray.deref (ByteArray.copy_concat 4 [[1; 2]; [3]]) = [1; 2; 3] ∧
  ByteArray.deref (ByteArray.copy_concat 4 [[1; 2]; [3; 4; 5]]) = [1; 2; 3; 4; 5].
Proof.
  assert (H4 : (4 ≤ 255)%nat) by lia. split; [exact H4|].
  pose proof (ByteArray.byte_array_refines_slice 4 H4) as (_ & _ & Hc & _).
  split; [apply (Hc [[1; 2]; [3]])|apply (Hc [[1; 2]; [3; 4; 5]])].
Defined.
