(* ===== verification/MemoryStore.v ===== *)
(** * The in-memory key-value backend: [storage/key_range.rs],
    [storage/keyspace/memory_backend.rs], [storage/keyspace/memory_iterator.rs]

    Ranges over byte keys, the [BTreeMap] backend of the builds without
    RocksDB, its snapshotting iterator, the range iterator on top of it, and the
    export/import format of one keyspace. *)
From S2P Require Import Prelude BTree Bytes.

(** ** [key_range.rs] *)
Inductive RangeStart (T : Type) :=
| Inclusive (value : T)
| ExcludeFirstWithPrefix (value : T)
| ExcludePrefix (value : T).
Arguments Inclusive {T} value.
Arguments ExcludeFirstWithPrefix {T} value.
Arguments ExcludePrefix {T} value.

Inductive RangeEnd (T : Type) :=
| WithinStartAsPrefix
| EndPrefixInclusive (value : T)
| EndPrefixExclusive (value : T)
| RangeUnbounded.
Arguments WithinStartAsPrefix {T}.
Arguments EndPrefixInclusive {T} value.
Arguments EndPrefixExclusive {T} value.
Arguments RangeUnbounded {T}.

Record KeyRange (T : Type) := mk_KeyRange {
  range_start : RangeStart T;
  range_end : RangeEnd T;
  fixed_width_keys : bool;
}.
Arguments mk_KeyRange {T} range_start range_end fixed_width_keys.
Arguments range_start {T} k.
Arguments range_end {T} k.
Arguments fixed_width_keys {T} k.

Module KeyRangeOps.
Definition start_map {T U} (f : T → U) (s : RangeStart T) : RangeStart U :=
  match s with
  | Inclusive e => Inclusive (f e)
  | ExcludeFirstWithPrefix e => ExcludeFirstWithPrefix (f e)
  | ExcludePrefix e => ExcludePrefix (f e)
  end.
Definition start_value {T} (s : RangeStart T) : T :=
  match s with Inclusive v | ExcludeFirstWithPrefix v | ExcludePrefix v => v end.
Definition end_map {T U} (f : T → U) (e : RangeEnd T) : RangeEnd U :=
  match e with
  | WithinStartAsPrefix => WithinStartAsPrefix
  | EndPrefixInclusive e => EndPrefixInclusive (f e)
  | EndPrefixExclusive e => EndPrefixExclusive (f e)
  | RangeUnbounded => RangeUnbounded
  end.
Definition end_value {T} (e : RangeEnd T) : option T :=
  match e with
  | WithinStartAsPrefix | RangeUnbounded => None
  | EndPrefixInclusive v | EndPrefixExclusive v => Some v
  end.
Definition new_variable_width {T} (s : RangeStart T) (e : RangeEnd T) : KeyRange T :=
  mk_KeyRange s e false.
Definition new_fixed_width {T} (s : RangeStart T) (e : RangeEnd T) : KeyRange T :=
  mk_KeyRange s e true.
Definition new_unbounded {T} (s : RangeStart T) : KeyRange T :=
  mk_KeyRange s RangeUnbounded false.
Definition new_within {T} (prefix : T) (fixed_width : bool) : KeyRange T :=
  mk_KeyRange (Inclusive prefix) WithinStartAsPrefix fixed_width.
Definition map {T U} (f : T → U) (fixed : bool → bool) (r : KeyRange T) : KeyRange U :=
  let s := start_map f (range_start r) in
  let e := end_map f (range_end r) in
  if fixed (fixed_width_keys r) then new_fixed_width s e else new_variable_width s e.
End KeyRangeOps.
Import KeyRangeOps.

(** ** [memory_backend.rs] *)
Inductive MemoryBackendError :=
| LockPoisoned (name : bytes)
| ImportDataMalformed (name : bytes) (message : ImportMessage)
with ImportMessage :=
| UnexpectedEndReadingLengths
| UnexpectedEndOfData (need have : nat).

(** [data] is the shared [BTreeMap]; [poisoned] is the state of the lock that
    guards it. *)
Record MemoryBackend := mk_MemoryBackend {
  mb_data : list (bytes * bytes);
  mb_poisoned : bool;
  mb_name : bytes;
}.
Definition mb_wf (b : MemoryBackend) : Prop := bt_wf (mb_data b).

Inductive WriteOp :=
| WPut (key value : bytes)
| WDelete (key : bytes).

Module Memory.
Definition new (name : bytes) : MemoryBackend := mk_MemoryBackend [] false name.
Definition set_data (d : list (bytes * bytes)) (b : MemoryBackend) : MemoryBackend :=
  mk_MemoryBackend d (mb_poisoned b) (mb_name b).

(** [self.data.read()/write().map_err(LockPoisoned)?]. *)
Definition locked (b : MemoryBackend) : exec MemoryBackendError (list (bytes * bytes)) :=
  if mb_poisoned b then Err (LockPoisoned (mb_name b)) else Val (mb_data b).

Definition len (b : MemoryBackend) : nat := if mb_poisoned b then 0%nat else length (mb_data b).
Definition is_empty (b : MemoryBackend) : bool := (len b =? 0)%nat.

Definition put (key value : bytes) (b : MemoryBackend) : exec MemoryBackendError MemoryBackend :=
  data ← locked b; Val (set_data (bt_insert key value data) b).

Definition get {V} (key : bytes) (mapper : bytes → V) (b : MemoryBackend)
  : exec MemoryBackendError (option V) :=
  data ← locked b; Val (mapper <$> bt_get key data).

(** [data.range(..=key).next_back()]; a poisoned lock reads as [None]. *)
Definition get_prev {V} (key : bytes) (mapper : bytes → bytes → V) (b : MemoryBackend) : option V :=
  if mb_poisoned b then None
  else (λ kv : bytes * bytes, mapper kv.1 kv.2) <$>
    last (List.filter (λ kv, below (Included key) kv.1) (mb_data b)).

Definition write_op (data : list (bytes * bytes)) (op : WriteOp) : list (bytes * bytes) :=
  match op with
  | WPut key value => bt_insert key value data
  | WDelete key => bt_remove key data
  end.
Definition write_batch (batch : list WriteOp) (b : MemoryBackend)
  : exec MemoryBackendError MemoryBackend :=
  data ← locked b; Val (set_data (fold_left write_op batch data) b).

Definition reset (b : MemoryBackend) : exec MemoryBackendError MemoryBackend :=
  _ ← locked b; Val (set_data [] b).

Definition estimate_size_bytes (b : MemoryBackend) : exec MemoryBackendError Z :=
  data ← locked b;
  Val (u64 (Z.of_nat (sum_list_with (λ kv : bytes * bytes, length kv.1 + length kv.2)%nat data))).
Definition estimate_key_count (b : MemoryBackend) : exec MemoryBackendError Z :=
  data ← locked b; Val (u64 (Z.of_nat (length data))).

(** ** Export and import *)
Definition export_entry (kv : bytes * bytes) : bytes :=
  le_bytes 4 (u32 (Z.of_nat (length kv.1))) ++ le_bytes 4 (u32 (Z.of_nat (length kv.2)))
    ++ kv.1 ++ kv.2.
Definition export_data (b : MemoryBackend) : exec MemoryBackendError bytes :=
  data ← locked b; Val (concat (export_entry <$> data)).

Definition u32_at (pos : nat) (bs : bytes) : Z := le_value (take 4 (drop pos bs)).

(** The [while pos < bytes.len()] loop; every round consumes at least eight
    bytes, so [fuel := 1 + bytes.len()] rounds are enough
    ([import_loop_fuel]). *)
Fixpoint import_loop (name : bytes) (fuel : nat) (bs : bytes) (pos : nat)
    (new_data : list (bytes * bytes)) : exec MemoryBackendError (list (bytes * bytes)) :=
  match fuel with
  | O => Panic
  | S fuel =>
      if (length bs <=? pos)%nat then Val new_data
      else if (length bs <? pos + 8)%nat
      then Err (ImportDataMalformed name UnexpectedEndReadingLengths)
      else
        let key_len := Z.to_nat (u32_at pos bs) in
        let value_len := Z.to_nat (u32_at (pos + 4) bs) in
        let pos := (pos + 8)%nat in
        if (length bs <? pos + key_len + value_len)%nat
        then Err (ImportDataMalformed name
                    (UnexpectedEndOfData (key_len + value_len) (length bs - pos)))
        else
          let key := take key_len (drop pos bs) in
          let pos := (pos + key_len)%nat in
          let value := take value_len (drop pos bs) in
          let pos := (pos + value_len)%nat in
          import_loop name fuel bs pos (bt_insert key value new_data)
  end.
Definition import_data (bs : bytes) (b : MemoryBackend) : exec MemoryBackendError MemoryBackend :=
  new_data ← import_loop (mb_name b) (S (length bs)) bs 0 [];
  _ ← locked b; Val (set_data new_data b).
End Memory.

(** ** The snapshotting iterator *)
Record MemoryIterator := mk_MemoryIterator {
  mi_entries : list (bytes * bytes);
  mi_position : nat;
}.

(** [slice.partition_point(pred)] on a slice partitioned by [pred]. *)
Fixpoint partition_point {A} (pred : A → bool) (l : list A) : nat :=
  match l with
  | [] => 0
  | x :: l' => if pred x then S (partition_point pred l') else 0
  end.

Module MemIter.
(** [create_iterator]: the entries from [start_key] on, as they are now. *)
Definition create_iterator (start_key : bytes) (b : MemoryBackend) : outcome MemoryIterator :=
  if mb_poisoned b then Panic
  else Val (mk_MemoryIterator
         (List.filter (λ kv, above (Included start_key) kv.1) (mb_data b)) 0).
Definition seek (key : bytes) (it : MemoryIterator) : MemoryIterator :=
  mk_MemoryIterator (mi_entries it)
    (partition_point (λ kv : bytes * bytes, ltb kv.1 key) (mi_entries it)).
Definition next (it : MemoryIterator) : option (bytes * bytes) * MemoryIterator :=
  match mi_entries it !! mi_position it with
  | None => (None, it)
  | Some kv => (Some kv, mk_MemoryIterator (mi_entries it) (S (mi_position it)))
  end.
(** What is left to yield. *)
Definition remaining (it : MemoryIterator) : list (bytes * bytes) :=
  drop (mi_position it) (mi_entries it).
End MemIter.

(** ** [memory_iterator.rs] *)
Inductive ContinueCondition :=
| ExactPrefix (p : bytes)
| CEndPrefixInclusive (e : bytes)
| CEndPrefixExclusive (e : bytes)
| Always.

Record MemoryKeyspaceRangeIterator := mk_RangeIterator {
  ri_iterator : MemoryIterator;
  ri_condition : ContinueCondition;
  ri_is_finished : bool;
}.

Definition starts_with (key prefix : bytes) : bool :=
  (length prefix <=? length key)%nat && bool_decide (take (length prefix) key = prefix).

Module RangeIter.
(** [&key[0..n]]. *)
Definition slice_to {E} (n : nat) (key : bytes) : exec E bytes :=
  if (n <=? length key)%nat then Val (take n key) else Panic.

(** [accept_value] on an [Ok] item; the slice panics on a key that is shorter
    than the end and not a prefix of it. *)
Definition accept_value (condition : ContinueCondition) (key : bytes) : outcome bool :=
  match condition with
  | ExactPrefix prefix => Val (starts_with key prefix)
  | CEndPrefixInclusive e =>
      if starts_with e key then Val true
      else s ← slice_to (length e) key; Val (leb s e)
  | CEndPrefixExclusive e =>
      if starts_with e key then Val true
      else s ← slice_to (length e) key; Val (ltb s e)
  | Always => Val true
  end.

(** [may_skip_start] has an empty body on this backend. *)
Definition may_skip_start (it : MemoryIterator) (excluded_value : bytes) : MemoryIterator := it.

Definition start_prefix (s : RangeStart bytes) : outcome bytes :=
  match s with
  | Inclusive bs | ExcludeFirstWithPrefix bs => Val bs
  | ExcludePrefix bs => increment_unwrap bs
  end.
Definition condition_of (range : KeyRange bytes) : ContinueCondition :=
  match range_end range with
  | WithinStartAsPrefix => ExactPrefix (start_value (range_start range))
  | EndPrefixInclusive e => CEndPrefixInclusive e
  | EndPrefixExclusive e => CEndPrefixExclusive e
  | RangeUnbounded => Always
  end.

Definition new (it : MemoryIterator) (range : KeyRange bytes) : outcome MemoryKeyspaceRangeIterator :=
  p ← start_prefix (range_start range);
  let it := MemIter.seek p it in
  let it :=
    match range_start range with
    | ExcludeFirstWithPrefix _ => may_skip_start it (start_value (range_start range))
    | _ => it
    end in
  Val (mk_RangeIterator it (condition_of range) false).

Definition next (r : MemoryKeyspaceRangeIterator)
  : outcome (option (bytes * bytes) * MemoryKeyspaceRangeIterator) :=
  if ri_is_finished r then Val (None, r)
  else
    let '(next, it) := MemIter.next (ri_iterator r) in
    match next with
    | None => Val (None, mk_RangeIterator it (ri_condition r) true)
    | Some kv =>
        ok ← accept_value (ri_condition r) kv.1;
        if (ok : bool) then Val (Some kv, mk_RangeIterator it (ri_condition r) false)
        else Val (None, mk_RangeIterator it (ri_condition r) true)
    end.

Definition seek (key : bytes) (r : MemoryKeyspaceRangeIterator) : MemoryKeyspaceRangeIterator :=
  if ri_is_finished r then r
  else mk_RangeIterator (MemIter.seek key (ri_iterator r)) (ri_condition r) false.

(** Everything the iterator yields from here on. *)
Fixpoint collect (fuel : nat) (r : MemoryKeyspaceRangeIterator) : outcome (list (bytes * bytes)) :=
  match fuel with
  | O => Panic
  | S fuel =>
      x ← next r;
      match x with
      | (None, _) => Val []
      | (Some kv, r') => kvs ← collect fuel r'; Val (kv :: kvs)
      end
  end.

(** [Keyspace::iterate_range] of the memory backend, drained. *)
Definition iterate_range (range : KeyRange bytes) (b : MemoryBackend) : outcome MemoryKeyspaceRangeIterator :=
  it ← MemIter.create_iterator (start_value (range_start range)) b;
  new it range.
End RangeIter.

(** ** Export and import *)
Lemma u32_at_app pre b4 rest :
  length b4 = 4%nat → Memory.u32_at (length pre) (pre ++ b4 ++ rest) = le_value b4.
Proof.
  intros H4. unfold Memory.u32_at. rewrite drop_app_length, <-H4, take_app_length. done.
Qed.

Lemma slice_app (pre mid rest : bytes) :
  take (length mid) (drop (length pre) (pre ++ mid ++ rest)) = mid.
Proof. by rewrite drop_app_length, take_app_length. Qed.

Definition entry_fits (kv : bytes * bytes) : Prop :=
  Z.of_nat (length kv.1) < 2 ^ 32 ∧ Z.of_nat (length kv.2) < 2 ^ 32.

Lemma le_value_u32 n : n < 2 ^ 32 → 0 ≤ n → le_value (le_bytes 4 (u32 n)) = n.
Proof.
  intros. rewrite u32_id by (unfold is_u32; lia). rewrite le_value_le_bytes.
  apply Z.mod_small. change (256 ^ Z.of_nat 4) with (2 ^ 32). lia.
Qed.

(** One round of the import loop reads back one exported entry. *)
Lemma import_loop_step name fuel pre kv rest acc :
  entry_fits kv →
  Memory.import_loop name (S fuel) (pre ++ Memory.export_entry kv ++ rest) (length pre) acc =
  Memory.import_loop name fuel (pre ++ Memory.export_entry kv ++ rest)
    (length (pre ++ Memory.export_entry kv)) (bt_insert kv.1 kv.2 acc).
Proof.
  destruct kv as [k v]. intros [Hk Hv]. simpl in Hk, Hv. cbn [fst snd].
  unfold Memory.export_entry. cbn [fst snd].
  set (lk := le_bytes 4 (u32 (Z.of_nat (length k)))).
  set (lv := le_bytes 4 (u32 (Z.of_nat (length v)))).
  assert (Hlk : length lk = 4%nat) by apply length_le_bytes.
  assert (Hlv : length lv = 4%nat) by apply length_le_bytes.
  assert (Hk' : Z.to_nat (le_value lk) = length k) by (unfold lk; rewrite le_value_u32 by lia; lia).
  assert (Hv' : Z.to_nat (le_value lv) = length v) by (unfold lv; rewrite le_value_u32 by lia; lia).
  cbn [Memory.import_loop].
  rewrite (proj2 (Nat.leb_gt _ _)), (proj2 (Nat.ltb_ge _ _))
    by (rewrite !length_app, Hlk, Hlv; lia).
  replace (pre ++ (lk ++ lv ++ k ++ v) ++ rest) with (pre ++ lk ++ (lv ++ k ++ v ++ rest))
    by (by rewrite <-!app_assoc).
  rewrite u32_at_app, Hk' by done.
  replace (length pre + 4)%nat with (length (pre ++ lk)) by (rewrite length_app; lia).
  replace (pre ++ lk ++ lv ++ k ++ v ++ rest) with ((pre ++ lk) ++ lv ++ (k ++ v ++ rest))
    by (by rewrite <-!app_assoc).
  rewrite u32_at_app, Hv' by done.
  rewrite (proj2 (Nat.ltb_ge _ _)) by (rewrite !length_app, Hlk, Hlv; lia).
  replace (length pre + 8)%nat with (length (pre ++ lk ++ lv)) by (rewrite !length_app; lia).
  replace ((pre ++ lk) ++ lv ++ k ++ v ++ rest) with ((pre ++ lk ++ lv) ++ k ++ (v ++ rest))
    by (by rewrite <-!app_assoc).
  rewrite slice_app. rewrite <-(length_app (pre ++ lk ++ lv) k).
  replace ((pre ++ lk ++ lv) ++ k ++ v ++ rest) with (((pre ++ lk ++ lv) ++ k) ++ v ++ rest)
    by (by rewrite <-!app_assoc).
  rewrite slice_app. f_equal. rewrite !length_app. lia.
Qed.

Lemma import_loop_export name fuel pre l acc :
  Forall entry_fits l → (length l < fuel)%nat →
  Memory.import_loop name fuel (pre ++ concat (Memory.export_entry <$> l)) (length pre) acc =
  Val (fold_left (λ m kv, bt_insert kv.1 kv.2 m) l acc).
Proof.
  intros Hl. revert fuel pre acc. induction Hl as [|kv l Hkv Hl IH]; intros fuel pre acc Hfuel.
  - destruct fuel; [simpl in Hfuel; lia|]. simpl. rewrite app_nil_r.
    by rewrite (proj2 (Nat.leb_le _ _)) by lia.
  - destruct fuel as [|fuel]; [simpl in Hfuel; lia|].
    cbn [fmap list_fmap concat]. rewrite import_loop_step by done.
    rewrite app_assoc. cbn [fold_left]. apply IH. simpl in Hfuel. lia.
Qed.

Lemma length_export_entry kv : (8 ≤ length (Memory.export_entry kv))%nat.
Proof. unfold Memory.export_entry. rewrite !length_app, !length_le_bytes. lia. Qed.
Lemma length_concat_export l :
  (length l ≤ length (concat (Memory.export_entry <$> l)))%nat.
Proof.
  induction l as [|kv l IH]; csimpl; [lia|]. rewrite length_app.
  pose proof (length_export_entry kv). lia.
Qed.

Lemma import_exported name l :
  bt_wf l → Forall entry_fits l →
  Memory.import_loop name (S (length (concat (Memory.export_entry <$> l))))
    (concat (Memory.export_entry <$> l)) 0 [] = Val l.
Proof.
  intros Hwf Hfits.
  rewrite (import_loop_export name _ [] l []) by (done || pose proof (length_concat_export l); lia).
  by rewrite bt_fold_insert_sorted.
Qed.

(** Exporting a keyspace and importing the bytes into any backend restores
    exactly the exported contents (replacing whatever it held), provided no key
    or value is 4 GiB or longer: the format's length fields are 32 bits. *)
Lemma export_import_roundtrip b b' out :
  mb_wf b → Forall entry_fits (mb_data b) → mb_poisoned b' = false →
  Memory.export_data b = Val out →
  Memory.import_data out b' = Val (Memory.set_data (mb_data b) b').
Proof.
  unfold Memory.export_data, Memory.import_data, Memory.locked. intros Hwf Hfits Hp' Hex.
  destruct (mb_poisoned b); simpl in Hex; simplify_eq.
  rewrite import_exported by done. cbn [mbind exec_bind]. by rewrite Hp'.
Qed.
Lemma export_import_roundtrip_witness :
  let b := mk_MemoryBackend [([1; 2], [3]); ([9], [])] false [107] in
  mb_wf b ∧ Memory.import_data [2;0;0;0;1;0;0;0;1;2;3; 1;0;0;0;0;0;0;0;9] (Memory.new [106]) =
            Val (Memory.set_data (mb_data b) (Memory.new [106])).
Proof.
  intros b. assert (Hwf : mb_wf b) by (repeat constructor).
  split; [exact Hwf|].
  apply (export_import_roundtrip b (Memory.new [106])); [exact Hwf| |reflexivity|reflexivity].
  repeat constructor; simpl; lia.
Defined.

Lemma import_loop_total name fuel bs pos acc :
  (0 < fuel)%nat → (length bs < pos + fuel)%nat → Memory.import_loop name fuel bs pos acc ≠ Panic.
Proof.
  revert pos acc. induction fuel as [|fuel IH]; intros pos acc H0 Hfuel; cbn [Memory.import_loop].
  - lia.
  - destruct (Nat.leb_spec (length bs) pos); [done|].
    destruct (Nat.ltb_spec (length bs) (pos + 8)); [done|].
    destruct (Nat.ltb_spec (length bs) (pos + 8 + Z.to_nat (Memory.u32_at pos bs)
                + Z.to_nat (Memory.u32_at (pos + 4) bs))); [done|].
    apply IH; lia.
Qed.

(** ** Range scans *)
Lemma starts_with_prefix_of k p : starts_with k p = true ↔ p `prefix_of` k.
Proof.
  unfold starts_with. rewrite andb_true_iff, Nat.leb_le, bool_decide_eq_true. split.
  - intros [_ Heq]. exists (drop (length p) k). rewrite <-Heq at 1. by rewrite take_drop.
  - intros [z ->]. rewrite length_app, take_app_length. split; [lia|done].
Qed.

Lemma prefix_between (p k z : bytes) : p ⪯ k → k ⪯ p ++ z → p `prefix_of` k.
Proof.
  revert k. induction p as [|x p IH]; intros k H1 H2; [by exists k|].
  destruct k as [|y k]; [done|].
  change (match cmp x y with Eq => cmp p k | o => o end ≠ Gt) in H1.
  change (match cmp y x with Eq => cmp k (p ++ z) | o => o end ≠ Gt) in H2.
  rewrite (cmp_opp x y) in H2. destruct (cmp x y) eqn:E; simpl in H2; [|done..].
  apply cmp_eq in E as ->. destruct (IH k H1 H2) as [w ->]. by exists w.
Qed.

Lemma take_mono n (k k' : bytes) : k ⪯ k' → take n k ⪯ take n k'.
Proof.
  revert k k'. induction n as [|n IH]; intros [|x k] [|y k']; try done.
  change (match cmp x y with Eq => cmp k k' | o => o end ≠ Gt →
          match cmp x y with Eq => cmp (take n k) (take n k') | o => o end ≠ Gt).
  destruct (cmp x y); eauto.
Qed.

(** The acceptance test as a total predicate, and the keys on which the code's
    slicing does not panic. *)
Definition accepts (c : ContinueCondition) (k : bytes) : bool :=
  match c with
  | ExactPrefix p => starts_with k p
  | CEndPrefixInclusive e => starts_with e k || leb (take (length e) k) e
  | CEndPrefixExclusive e => starts_with e k || ltb (take (length e) k) e
  | Always => true
  end.
Definition sliceable (c : ContinueCondition) (k : bytes) : Prop :=
  match c with
  | CEndPrefixInclusive e | CEndPrefixExclusive e => (length e ≤ length k)%nat ∨ k `prefix_of` e
  | _ => True
  end.

Lemma accept_value_spec c k : sliceable c k → RangeIter.accept_value c k = Val (accepts c k).
Proof.
  destruct c as [p|e|e|]; simpl; try done.
  all: intros [Hlen|Hpre]; [|by rewrite (proj2 (starts_with_prefix_of e k) Hpre)].
  all: destruct (starts_with e k); [done|]; unfold RangeIter.slice_to;
    by rewrite (proj2 (Nat.leb_le _ _) Hlen).
Qed.

Lemma take_ge_prefix_le (e k : bytes) : k `prefix_of` e → take (length e) k ⪯ e.
Proof.
  intros [z ->]. rewrite take_ge by (rewrite length_app; lia). apply list_cmp_prefix.
Qed.

(** Once a key at or above the start is rejected, so is every later key. *)
Lemma accepts_mono c s k k' :
  (∀ p, c = ExactPrefix p → p ⪯ s) → s ⪯ k → k ≺ k' → accepts c k = false → accepts c k' = false.
Proof.
  intros Hs Hsk Hkk'. rewrite <-!not_true_iff_false. intros Hnk Hk'. apply Hnk. clear Hnk.
  assert (Hle : k ⪯ k') by auto with ord.
  assert (Hpre : ∀ e, k' `prefix_of` e → k ⪯ e).
  { intros e [z ->]. eapply cmp_le_trans; [exact Hle|apply list_cmp_prefix]. }
  destruct c as [p|e|e|]; simpl in *; [| | |done].
  - apply starts_with_prefix_of in Hk' as [z ->]. apply starts_with_prefix_of.
    eapply prefix_between; [|exact Hle]. eapply cmp_le_trans; [by apply Hs|done].
  - apply orb_true_iff. right. apply leb_le.
    apply orb_true_iff in Hk' as [Hk'%starts_with_prefix_of|Hk'%leb_le].
    + apply Hpre in Hk'. apply (take_mono (length e)) in Hk'. by rewrite (take_ge e) in Hk'.
    + eapply cmp_le_trans; [|exact Hk']. by apply take_mono.
  - apply orb_true_iff. apply orb_true_iff in Hk' as [Hk'%starts_with_prefix_of|Hk'%ltb_lt].
    + destruct Hk' as [z ->]. destruct (starts_with (k' ++ z) k) eqn:Hsw; [by left|right].
      apply ltb_lt. apply cmp_le_lt_eq in Hle as [_|Heq]; [|by apply cmp_lt_ne in Hkk'].
      assert (Hk : k ⪯ k' ++ z) by (eapply cmp_le_trans; [apply cmp_lt_le, Hkk'|apply list_cmp_prefix]).
      apply (take_mono (length (k' ++ z))) in Hk. rewrite (take_ge (k' ++ z)) in Hk by done.
      apply cmp_le_lt_eq in Hk as [Hk|Hk]; [done|]. exfalso.
      assert (Hp : (k' ++ z) `prefix_of` k).
      { exists (drop (length (k' ++ z)) k). rewrite <-Hk at 1. by rewrite take_drop. }
      destruct Hp as [w ->]. revert Hkk'. apply cmp_le_nlt.
      rewrite <-app_assoc. apply list_cmp_prefix.
    + right. apply ltb_lt. eapply cmp_le_lt_trans; [|exact Hk']. by apply take_mono.
Qed.

Lemma filter_false {A} (f : A → bool) l : Forall (λ x, f x = false) l → List.filter f l = [].
Proof. induction 1 as [|x l Hx _ IH]; simpl; [done|]. by rewrite Hx. Qed.

Lemma collect_spec c s es pos fuel :
  (∀ p, c = ExactPrefix p → p ⪯ s) →
  bt_wf (drop pos es) → Forall (λ kv, s ⪯ kv.1 ∧ sliceable c kv.1) (drop pos es) →
  (length (drop pos es) < fuel)%nat →
  RangeIter.collect fuel (mk_RangeIterator (mk_MemoryIterator es pos) c false) =
  Val (List.filter (λ kv, accepts c kv.1) (drop pos es)).
Proof.
  intros Hp. revert pos. induction fuel as [|fuel IH]; intros pos Hwf Hall Hfuel; [lia|].
  cbn [RangeIter.collect]. unfold RangeIter.next. cbn [ri_is_finished ri_iterator ri_condition].
  unfold MemIter.next. cbn [mi_entries mi_position].
  destruct (es !! pos) as [kv|] eqn:Elk; simpl; last first.
  { apply lookup_ge_None in Elk. by rewrite (drop_ge es pos) by lia. }
  rewrite (drop_S _ _ _ Elk) in Hwf, Hall, Hfuel |- *.
  inversion Hwf as [|?? Hwf' Hlt]; subst. inversion Hall as [|?? [Hs Hsl] Hall']; subst.
  rewrite accept_value_spec by done. simpl. destruct (accepts c kv.1) eqn:Ea.
  - change (match
      (kvs ← RangeIter.collect fuel (mk_RangeIterator (mk_MemoryIterator es (S pos)) c false);
       Val (kv :: kvs)) with x => x end = Val (kv :: List.filter (λ kv, accepts c kv.1) (drop (S pos) es))).
    rewrite IH; [done|done|done|]. simpl in Hfuel. lia.
  - simpl. f_equal. symmetry. apply filter_false. apply List.Forall_forall. intros x Hx.
    rewrite List.Forall_forall in Hlt. eapply accepts_mono; [exact Hp|exact Hs| |done].
    by apply Hlt.
Qed.

Lemma filter_true {A} (f : A → bool) l : Forall (λ x, f x = true) l → List.filter f l = l.
Proof. induction 1 as [|x l Hx _ IH]; simpl; [done|]. by rewrite Hx, IH. Qed.

Lemma drop_partition_point key (es : list (bytes * bytes)) :
  bt_wf es →
  drop (partition_point (λ kv : bytes * bytes, ltb kv.1 key) es) es =
  List.filter (λ kv, leb key kv.1) es.
Proof.
  induction 1 as [|kv es Hes IH Hlt]; [done|]. simpl. destruct (ltb kv.1 key) eqn:E.
  - simpl. rewrite IH. apply ltb_lt in E. by rewrite (proj2 (leb_gt key kv.1) E).
  - simpl. apply ltb_ge in E. rewrite (proj2 (leb_le key kv.1) E). f_equal. symmetry.
    apply filter_true. apply List.Forall_forall. intros x Hx. apply leb_le.
    rewrite List.Forall_forall in Hlt. eapply cmp_le_trans; [exact E|]. by apply cmp_lt_le, Hlt.
Qed.

Lemma list_filter_filter {A} (f g : A → bool) l :
  List.filter f (List.filter g l) = List.filter (λ x, g x && f x) l.
Proof.
  induction l as [|x l IH]; simpl; [done|]. destruct (g x); simpl; [|done].
  destruct (f x); by rewrite IH.
Qed.
Lemma list_filter_ext {A} (f g : A → bool) l :
  (∀ x, f x = g x) → List.filter f l = List.filter g l.
Proof. intros Hfg. induction l as [|x l IH]; simpl; [done|]. by rewrite Hfg, IH. Qed.

(** What a key range means on stored keys: at or after the first key the start
    allows, and accepted by the end condition. *)
Definition in_range (range : KeyRange bytes) (first k : bytes) : bool :=
  leb first k && accepts (RangeIter.condition_of range) k.

Lemma start_prefix_ge s q :
  is_bytes (start_value s) → RangeIter.start_prefix s = Val q → start_value s ⪯ q.
Proof.
  destruct s as [bs|bs|bs]; simpl; intros Hb Hq; simplify_eq; [apply cmp_le_refl..|].
  apply increment_unwrap_spec in Hq as [Hlt ->]; [|done].
  rewrite be_value_cmp by (auto using be_bytes_is_bytes; by rewrite length_be_bytes).
  pose proof (be_value_bound bs Hb).
  rewrite be_value_be_bytes, Z.mod_small by lia.
  intros Hgt%Z.compare_gt_iff. lia.
Qed.

Lemma iterate_range_filter range b q :
  mb_wf b → mb_poisoned b = false → is_bytes (start_value (range_start range)) →
  RangeIter.start_prefix (range_start range) = Val q →
  Forall (λ kv, sliceable (RangeIter.condition_of range) kv.1) (mb_data b) →
  ∃ r, RangeIter.iterate_range range b = Val r ∧
    RangeIter.collect (S (length (mb_data b))) r =
    Val (List.filter (λ kv, in_range range q kv.1) (mb_data b)).
Proof.
  intros Hwf Hpo Hb Hq Hsl. unfold RangeIter.iterate_range, MemIter.create_iterator.
  rewrite Hpo. cbn [mbind exec_bind]. unfold RangeIter.new. rewrite Hq. cbn [mbind exec_bind].
  pose proof (start_prefix_ge _ _ Hb Hq) as Hsq.
  set (es := List.filter _ _). assert (Hes : bt_wf es) by (by apply bt_wf_filter).
  assert (Hdrop := drop_partition_point q es Hes). unfold es in Hdrop at 3.
  rewrite list_filter_filter in Hdrop.
  rewrite (list_filter_ext _ (λ kv, leb q kv.1)) in Hdrop; last first.
  { intros kv. simpl. destruct (leb q kv.1) eqn:E; [|by rewrite andb_false_r].
    rewrite andb_true_r. apply leb_le in E. apply leb_le. by eapply cmp_le_trans. }
  set (pos := partition_point _ _) in Hdrop.
  eexists. split; [by destruct (range_start range)|].
  transitivity (RangeIter.collect (S (length (mb_data b)))
    (mk_RangeIterator (mk_MemoryIterator es pos) (RangeIter.condition_of range) false)).
  { by destruct (range_start range). }
  rewrite (collect_spec _ q).
  - rewrite Hdrop, list_filter_filter. done.
  - intros p Hp. unfold RangeIter.condition_of in Hp.
    destruct (range_end range); simplify_eq. done.
  - rewrite Hdrop. by apply bt_wf_filter.
  - rewrite Hdrop. apply List.Forall_forall. intros kv [Hin Hle]%List.filter_In.
    split; [by apply leb_le|]. by rewrite List.Forall_forall in Hsl; apply Hsl.
  - rewrite Hdrop. pose proof (List.filter_length_le (λ kv, leb q kv.1) (mb_data b)).
    simpl in *. lia.
Qed.

(** What a range asks for, in terms of the order of keys alone: after the
    start (without the start itself, or without every key that extends it, when
    it is excluded), and before the end or extending it, or strictly before it
    when it is exclusive. *)
Definition start_wants (s : RangeStart bytes) (k : bytes) : bool :=
  match s with
  | Inclusive s => leb s k
  | ExcludeFirstWithPrefix s => ltb s k
  | ExcludePrefix s => ltb s k && negb (starts_with k s)
  end.
Definition end_wants (range : KeyRange bytes) (k : bytes) : bool :=
  match range_end range with
  | WithinStartAsPrefix => starts_with k (start_value (range_start range))
  | EndPrefixInclusive e => ltb k e || starts_with k e
  | EndPrefixExclusive e => ltb k e
  | RangeUnbounded => true
  end.
(** Two keys are returned although the range excludes them. *)
Definition first_kept (s : RangeStart bytes) (k : bytes) : bool :=
  match s with ExcludeFirstWithPrefix s => bool_decide (k = s) | _ => false end.
Definition end_kept (e : RangeEnd bytes) (k : bytes) : bool :=
  match e with EndPrefixExclusive e => bool_decide (k = e) | _ => false end.
(** An excluded prefix is stepped over by incrementing it, which misses keys
    shorter than the prefix. *)
Definition reaches_start (s : RangeStart bytes) (k : bytes) : Prop :=
  match s with ExcludePrefix s => is_bytes k ∧ (length s ≤ length k)%nat | _ => True end.

Lemma leb_ltb (a b : bytes) : leb a b = ltb a b || bool_decide (b = a).
Proof.
  apply eq_true_iff_eq. rewrite orb_true_iff, leb_le, ltb_lt, bool_decide_eq_true, cmp_le_lt_eq. naive_solver.
Qed.
Lemma prefix_take_eq (e k : bytes) : take (length e) k = e → e `prefix_of` k.
Proof. intros He. exists (drop (length e) k). rewrite <-He at 1. by rewrite take_drop. Qed.
Lemma start_wants_spec s q k :
  is_bytes (start_value s) → RangeIter.start_prefix s = Val q → reaches_start s k →
  leb q k = start_wants s k || first_kept s k.
Proof.
  destruct s as [s|s|s]; cbn [start_wants first_kept RangeIter.start_prefix start_value reaches_start].
  - intros _ [= <-] _. by rewrite orb_false_r.
  - intros _ [= <-] _. apply leb_ltb.
  - intros Hs Hq [Hk Hlen]. rewrite orb_false_r. pose proof (lt_increment_iff s q k Hs Hk Hq Hlen) as Hlt.
    apply eq_true_iff_eq. rewrite leb_le, cmp_le_nlt, Hlt, andb_true_iff, negb_true_iff, ltb_lt.
    rewrite <-not_true_iff_false, starts_with_prefix_of. split.
    + intros Hn. split.
      * destruct (cmp_total s k) as [?|[<-|Hks]]; [done|destruct Hn..].
        -- rewrite firstn_all. apply cmp_le_refl.
        -- apply cmp_lt_le. by apply (lt_take_iff s k Hlen).
      * intros [z ->]. apply Hn. rewrite take_app_length. apply cmp_le_refl.
    + intros [Hsk Hn] [Ht|He]%cmp_le_lt_eq; [|by destruct Hn; apply prefix_take_eq].
      apply lt_take_iff in Ht; [|done]. by apply cmp_asym in Ht.
Qed.
Lemma end_wants_spec range k :
  sliceable (RangeIter.condition_of range) k →
  accepts (RangeIter.condition_of range) k = end_wants range k || end_kept (range_end range) k.
Proof.
  unfold RangeIter.condition_of, end_wants, end_kept. destruct (range_end range) as [|e|e|]; cbn [accepts sliceable];
    rewrite ?orb_false_r; [done| | |done].
  all: intros Hsl; apply eq_true_iff_eq; rewrite !orb_true_iff, ?leb_le, !ltb_lt, !starts_with_prefix_of, ?bool_decide_eq_true.
  all: assert (Hpre : k `prefix_of` e → k ≺ e ∨ k = e) by (intros [z ->]; apply cmp_le_lt_eq, list_cmp_prefix).
  - split.
    + intros [Hp|Hle]; [destruct (Hpre Hp) as [?| ->]; [by left|by right]|]. destruct Hsl as [Hlen|Hp].
      * apply cmp_le_lt_eq in Hle as [Hlt|He]; [left; by apply lt_take_iff|right; by apply prefix_take_eq].
      * destruct (Hpre Hp) as [?| ->]; [by left|by right].
    + destruct Hsl as [Hlen|Hp]; [|by left]. intros [Hlt%lt_take_iff|Hp]; [right; by apply cmp_lt_le|done|].
      right. destruct Hp as [z ->]. rewrite take_app_length. apply cmp_le_refl.
  - split.
    + intros [Hp|Hlt]; [by apply Hpre|]. destruct Hsl as [Hlen|Hp]; [left; by apply lt_take_iff|by apply Hpre].
    + destruct Hsl as [Hlen|Hp]; [|by left]. intros [Hlt%lt_take_iff| ->]; [by right|done|by left].
Qed.

(** C32: a range scan of the memory backend terminates and yields, in key
    order, exactly the stored pairs whose key the range asks for in terms of
    the order of keys, and two kinds of keys more that it should exclude
    according to the code's comments: a key equal to the start of a range that
    excludes its first key, and a key equal to an exclusive end. So stopping at
    the first rejected key loses nothing, and nothing else is returned.
    Conditions: the backend is sorted and not poisoned, an excluded start
    prefix can be incremented and no stored key is shorter than it, and stored
    keys are not shorter than the end unless they are a prefix of it, the case
    in which the code's slice panics. *)
Theorem range_scan_exact range b q :
  mb_wf b → mb_poisoned b = false → is_bytes (start_value (range_start range)) →
  RangeIter.start_prefix (range_start range) = Val q →
  Forall (λ kv, sliceable (RangeIter.condition_of range) kv.1) (mb_data b) →
  Forall (λ kv, reaches_start (range_start range) kv.1) (mb_data b) →
  ∃ r, RangeIter.iterate_range range b = Val r ∧
    RangeIter.collect (S (length (mb_data b))) r =
    Val (List.filter (λ kv, (start_wants (range_start range) kv.1 || first_kept (range_start range) kv.1) &&
                            (end_wants range kv.1 || end_kept (range_end range) kv.1)) (mb_data b)).
Proof.
  intros Hwf Hpo Hb Hq Hsl Hreach. destruct (iterate_range_filter range b q Hwf Hpo Hb Hq Hsl) as (r & Hr & Hc).
  exists r. split; [done|]. rewrite Hc. f_equal. apply List.filter_ext_in. intros kv Hin. unfold in_range.
  rewrite List.Forall_forall in Hsl, Hreach.
  by rewrite (start_wants_spec _ q _ Hb Hq (Hreach kv Hin)), (end_wants_spec _ _ (Hsl kv Hin)).
Qed.
Lemma range_scan_exact_witness :
  let b := mk_MemoryBackend [([1; 1], [10]); ([1; 2; 7], [20]); ([1; 3], [30])] false [] in
  let range := new_fixed_width (ExcludePrefix [1; 1]) (EndPrefixExclusive [1; 3]) in
  ∃ r, RangeIter.iterate_range range b = Val r ∧ RangeIter.collect 4 r = Val [([1; 2; 7], [20]); ([1; 3], [30])].
Proof.
  intros b range. apply (range_scan_exact range b [1; 2]).
  - repeat constructor.
  - reflexivity.
  - repeat constructor; unfold is_byte; lia.
  - reflexivity.
  - repeat constructor; simpl; left; simpl; lia.
  - repeat constructor; simpl; unfold is_byte; lia.
Defined.

(** On the memory backend a range that excludes its first key returns that
    key all the same: [may_skip_start] is empty, so [ExcludeFirstWithPrefix]
    scans exactly what [Inclusive] scans, for every bound and every contents. *)
Lemma exclude_first_is_ignored s e fixed b :
  RangeIter.iterate_range (mk_KeyRange (ExcludeFirstWithPrefix s) e fixed) b =
  RangeIter.iterate_range (mk_KeyRange (Inclusive s) e fixed) b.
Proof. done. Qed.

(** An end-exclusive scan returns a stored key equal to its end. *)
Example exclusive_end_returned :
  let b := mk_MemoryBackend [([1], [10]); ([2], [20])] false [] in
  match RangeIter.iterate_range (new_fixed_width (Inclusive [1]) (EndPrefixExclusive [2])) b with
  | Val r => RangeIter.collect 3 r = Val [([1], [10]); ([2], [20])]
  | _ => False
  end.
Proof. reflexivity. Qed.

(** A scan panics when it meets a key shorter than, and not a prefix of, its end. *)
Example short_key_panics :
  let b := mk_MemoryBackend [([1; 1], []); ([2], [])] false [] in
  match RangeIter.iterate_range (new_variable_width (Inclusive [1]) (EndPrefixInclusive [1; 5])) b with
  | Val r => RangeIter.collect 3 r = Panic
  | _ => False
  end.
Proof. reflexivity. Qed.
