(* ===== verification/Buffer.v ===== *)
(** * Buffered writes of a transaction: [storage/snapshot/write.rs],
    [storage/snapshot/lock.rs], [storage/snapshot/buffer.rs]

    The per-keyspace write buffers and the lock table that a snapshot
    accumulates and that becomes the commit record.  The [reinsert] flag of a
    put is an [Arc<AtomicBool>] owned by the buffered write: the commit protocol
    updates it in place, which the model does on the buffer it belongs to. *)
From S2P Require Import Prelude BTree Bytes MemoryStore.
Import KeyRangeOps.

Definition KEYSPACE_MAXIMUM_COUNT : nat := 10.

(** ** [write.rs] *)
Inductive Write :=
| Insert (value : bytes)
| Put (value : bytes) (reinsert known_to_exist : bool)
| Delete.

#[global] Instance Write_eq_dec : EqDecision Write.
Proof. solve_decision. Defined.

Inductive WriteCategory := CategoryInsert | CategoryPut | CategoryDelete.

Module WriteOps.
Definition is_insert (w : Write) : bool := match w with Insert _ => true | _ => false end.
Definition is_put (w : Write) : bool := match w with Put _ _ _ => true | _ => false end.
Definition is_delete (w : Write) : bool := match w with Delete => true | _ => false end.
Definition get_value {E} (w : Write) : exec E bytes :=
  match w with Insert value | Put value _ _ => Val value | Delete => Panic end.
Definition category (w : Write) : WriteCategory :=
  match w with
  | Insert _ => CategoryInsert | Put _ _ _ => CategoryPut | Delete => CategoryDelete
  end.
(** [PartialEq]: compares the current value of the flag. *)
Definition eq (a b : Write) : bool :=
  match a, b with
  | Insert v, Insert v' => bool_decide (v = v')
  | Put v r k, Put v' r' k' => bool_decide (v = v') && Bool.eqb r r' && Bool.eqb k k'
  | Delete, Delete => true
  | _, _ => false
  end.
End WriteOps.

(** ** [lock.rs] *)
Inductive LockType := Unmodifiable | Exclusive.
#[global] Instance LockType_eq_dec : EqDecision LockType.
Proof. solve_decision. Defined.

(** [create_custom_lock_key]: the items written one after the other into a
    zeroed array of their total length. *)
Definition create_custom_lock_key (key_items : list bytes) : bytes :=
  let total_len := sum_list_with length key_items in
  ByteArray.concat_into key_items 0 (replicate total_len 0).

(** ** [WriteBuffer] *)
Record WriteBuffer := mk_WriteBuffer {
  wb_keyspace_id : Z;
  wb_writes : list (bytes * Write);
}.
Definition wb_wf (b : WriteBuffer) : Prop := bt_wf (wb_writes b).

Module WB.
Definition new (keyspace_id : Z) : WriteBuffer := mk_WriteBuffer keyspace_id [].
Definition is_empty (b : WriteBuffer) : bool :=
  match wb_writes b with [] => true | _ => false end.
Definition set_writes (w : list (bytes * Write)) (b : WriteBuffer) : WriteBuffer :=
  mk_WriteBuffer (wb_keyspace_id b) w.

Definition insert (key value : bytes) (b : WriteBuffer) : WriteBuffer :=
  set_writes (bt_insert key (Insert value) (wb_writes b)) b.
Definition uninsert (key expected_value : bytes) (b : WriteBuffer) : outcome WriteBuffer :=
  match bt_get key (wb_writes b) with
  | Some (Insert value) =>
      if bool_decide (value = expected_value)
      then Val (set_writes (bt_remove key (wb_writes b)) b) else Panic
  | Some _ | None => Panic
  end.
Definition put (key value : bytes) (b : WriteBuffer) : WriteBuffer :=
  set_writes (bt_insert key (Put value false false) (wb_writes b)) b.
Definition put_existing (key value : bytes) (b : WriteBuffer) : WriteBuffer :=
  set_writes (bt_insert key (Put value false true) (wb_writes b)) b.
Definition unput (key expected_value : bytes) (b : WriteBuffer) : outcome WriteBuffer :=
  match bt_get key (wb_writes b) with
  | Some (Put value _ _) =>
      if bool_decide (value = expected_value)
      then Val (set_writes (bt_remove key (wb_writes b)) b) else Panic
  | Some _ | None => Panic
  end.
Definition delete (key : bytes) (b : WriteBuffer) : WriteBuffer :=
  set_writes (bt_insert key Delete (wb_writes b)) b.
Definition contains (key : bytes) (b : WriteBuffer) : bool := bt_contains key (wb_writes b).
Definition writes_get (key : bytes) (b : WriteBuffer) : option Write := bt_get key (wb_writes b).
Definition clear (b : WriteBuffer) : WriteBuffer := set_writes [] b.

Definition range_start_as_bound (s : RangeStart bytes) : outcome (bound bytes) :=
  match s with
  | Inclusive bs => Val (Included bs)
  | ExcludeFirstWithPrefix bs => Val (Excluded bs)
  | ExcludePrefix bs => Included <$> increment_unwrap bs
  end.
Definition compute_exclusive_end (s : RangeStart bytes) (e : RangeEnd bytes) : outcome bytes :=
  match e with
  | WithinStartAsPrefix => increment_unwrap (start_value s)
  | EndPrefixInclusive value => increment_unwrap value
  | EndPrefixExclusive value => Val value
  | RangeUnbounded => Val []
  end.
(** The bounds both scans compute; the end is computed first. *)
Definition bounds (range : KeyRange bytes) : outcome (bound bytes * bound bytes) :=
  exclusive_end ← compute_exclusive_end (range_start range) (range_end range);
  let end_ :=
    match range_end range with RangeUnbounded => Unbounded | _ => Excluded exclusive_end end in
  start ← range_start_as_bound (range_start range);
  Val (start, end_).

(** [iterate_range]: the buffered writes of the range, keys tagged with the
    buffer's keyspace. *)
Definition iterate_range (range : KeyRange bytes) (b : WriteBuffer)
  : outcome (list (Z * bytes * Write)) :=
  '(start, end_) ← bounds range;
  writes ← bt_range (E:=Empty_set) start end_ (wb_writes b);
  Val (List.map (λ kw : bytes * Write, (wb_keyspace_id b, kw.1, kw.2)) writes).
Definition any_not_deleted_in_range (range : KeyRange bytes) (b : WriteBuffer) : outcome bool :=
  '(start, end_) ← bounds range;
  writes ← bt_range (E:=Empty_set) start end_ (wb_writes b);
  Val (existsb (λ kw : bytes * Write, negb (WriteOps.is_delete kw.2)) writes).
End WB.

(** ** [OperationsBuffer] *)
Record OperationsBuffer := mk_OperationsBuffer {
  ob_write_buffers : list WriteBuffer;
  ob_locks : list (bytes * LockType);
}.
Definition ob_wf (o : OperationsBuffer) : Prop :=
  length (ob_write_buffers o) = KEYSPACE_MAXIMUM_COUNT ∧
  (∀ i b, ob_write_buffers o !! i = Some b → wb_keyspace_id b = Z.of_nat i ∧ wb_wf b) ∧
  bt_wf (ob_locks o).

Module OB.
Definition new : OperationsBuffer :=
  mk_OperationsBuffer ((λ i, WB.new (Z.of_nat i)) <$> seq 0 KEYSPACE_MAXIMUM_COUNT) [].
Definition is_writes_empty (o : OperationsBuffer) : bool := forallb WB.is_empty (ob_write_buffers o).
Definition locks_empty (o : OperationsBuffer) : bool :=
  match ob_locks o with [] => true | _ => false end.
(** [writes_in]: an out-of-range keyspace id panics. *)
Definition writes_in (keyspace_id : Z) (o : OperationsBuffer) : outcome WriteBuffer :=
  unwrap (ob_write_buffers o !! Z.to_nat keyspace_id).
(** A mutation through [writes_in_mut]. *)
Definition writes_in_mut (keyspace_id : Z) (f : WriteBuffer → outcome WriteBuffer)
    (o : OperationsBuffer) : outcome OperationsBuffer :=
  b ← writes_in keyspace_id o;
  b' ← f b;
  Val (mk_OperationsBuffer (<[Z.to_nat keyspace_id := b']> (ob_write_buffers o)) (ob_locks o)).
Definition lock_add (key : bytes) (l : LockType) (o : OperationsBuffer) : OperationsBuffer :=
  mk_OperationsBuffer (ob_write_buffers o) (bt_insert key l (ob_locks o)).
Definition lock_remove (key : bytes) (o : OperationsBuffer) : OperationsBuffer :=
  mk_OperationsBuffer (ob_write_buffers o) (bt_remove key (ob_locks o)).
Definition clear (o : OperationsBuffer) : OperationsBuffer :=
  mk_OperationsBuffer (WB.clear <$> ob_write_buffers o) [].
Definition len (o : OperationsBuffer) : nat :=
  sum_list_with (λ b, length (wb_writes b)) (ob_write_buffers o).
(** [iterate_writes]: every buffer from the empty key on. *)
Definition iterate_writes (o : OperationsBuffer) : outcome (list (Z * bytes * Write)) :=
  foldr (λ b acc,
      l ← WB.iterate_range (new_unbounded (Inclusive [])) b;
      acc' ← acc; Val (l ++ acc'))
    (Val []) (ob_write_buffers o).
End OB.

(** [BufferRangeIterator::seek]: consume while the key is below the target. *)
Fixpoint buffer_seek (target : bytes) (it : list (Z * bytes * Write)) : list (Z * bytes * Write) :=
  match it with
  | [] => []
  | (ks, key, w) :: it' => if ltb key target then buffer_seek target it' else it
  end.

(** ** Invariant and lookups *)
Lemma ob_wf_new : ob_wf OB.new.
Proof.
  split_and!; [done| |constructor].
  intros i b Hi. unfold OB.new in Hi. cbn [ob_write_buffers] in Hi.
  rewrite list_lookup_fmap in Hi.
  apply fmap_Some in Hi as (j & [-> _]%lookup_seq & ->). split; [done|constructor].
Qed.

Definition wb_preserves (f : WriteBuffer → outcome WriteBuffer) : Prop :=
  ∀ b b', wb_wf b → f b = Val b' → wb_wf b' ∧ wb_keyspace_id b' = wb_keyspace_id b.

Lemma ob_wf_writes_in_mut ks f o o' :
  wb_preserves f → ob_wf o → OB.writes_in_mut ks f o = Val o' → ob_wf o'.
Proof.
  intros Hf (Hlen & Hbufs & Hlocks). unfold OB.writes_in_mut, OB.writes_in, unwrap.
  destruct (ob_write_buffers o !! Z.to_nat ks) as [b|] eqn:Eb; [|done]. simpl.
  destruct (f b) as [b'| |] eqn:Ef; [|done..]. intros [= <-].
  destruct (Hbufs _ _ Eb) as [Hid Hwf]. destruct (Hf _ _ Hwf Ef) as [Hwf' Hid'].
  split_and!; simpl; [by rewrite length_insert| |done]. intros i b0.
  destruct (decide (i = Z.to_nat ks)) as [->|Hne].
  - rewrite list_lookup_insert_eq by (by eapply lookup_lt_Some). intros [= <-]. by rewrite Hid'.
  - rewrite list_lookup_insert_ne by done. apply Hbufs.
Qed.

Lemma wb_preserves_set (g : WriteBuffer → list (bytes * Write)) :
  (∀ b, wb_wf b → bt_wf (g b)) → wb_preserves (λ b, Val (WB.set_writes (g b) b)).
Proof. intros Hg b b' Hwf [= <-]. split; [by apply Hg|done]. Qed.

Lemma operations_buffer_shape_lock key l o : ob_wf o → ob_wf (OB.lock_add key l o).
Proof. intros (Hlen & Hbufs & Hlocks). split_and!; simpl; [done|done|by apply bt_wf_insert]. Qed.

(** The operations buffer keeps its shape: a fresh buffer has one empty
    buffer per keyspace id, in order, and every write operation, undo and lock
    operation leaves the ten buffers in place with their ids, each buffer and
    the lock table sorted with unique keys. *)
Lemma operations_buffer_invariant :
  ob_wf OB.new ∧
  (∀ o o' ks key value, ob_wf o →
     OB.writes_in_mut ks (λ b, Val (WB.insert key value b)) o = Val o' ∨
     OB.writes_in_mut ks (λ b, Val (WB.put key value b)) o = Val o' ∨
     OB.writes_in_mut ks (λ b, Val (WB.put_existing key value b)) o = Val o' ∨
     OB.writes_in_mut ks (λ b, Val (WB.delete key b)) o = Val o' ∨
     OB.writes_in_mut ks (WB.uninsert key value) o = Val o' ∨
     OB.writes_in_mut ks (WB.unput key value) o = Val o' → ob_wf o') ∧
  (∀ o key l, ob_wf o →
     ob_wf (OB.lock_add key l o) ∧ ob_wf (OB.lock_remove key o) ∧ ob_wf (OB.clear o)).
Proof.
  split_and!; [exact ob_wf_new| |].
  - intros o o' ks key value Hwf Hops.
    destruct Hops as [H|[H|[H|[H|[H|H]]]]]; (eapply ob_wf_writes_in_mut; [|exact Hwf|exact H]);
      try (apply wb_preserves_set; intros b Hb; by apply bt_wf_insert).
    all: intros b b' Hb; unfold WB.uninsert, WB.unput;
      destruct (bt_get key (wb_writes b)) as [[]|]; try done;
      case_bool_decide; try done; intros [= <-]; split; [by apply bt_wf_remove|done].
  - intros o key l (Hlen & Hbufs & Hlocks). unfold ob_wf. split_and!; simpl; try done.
    + by apply bt_wf_insert.
    + by apply bt_wf_remove.
    + by rewrite length_fmap.
    + intros i b. rewrite list_lookup_fmap.
      destruct (ob_write_buffers o !! i) as [b0|] eqn:E; [|done]. intros [= <-].
      destruct (Hbufs _ _ E) as [Hid _]. split; [done|constructor].
    + constructor.
Qed.
Lemma operations_buffer_invariant_witness :
  ∃ o, OB.writes_in_mut 2 (λ b, Val (WB.insert [1] [7] b)) OB.new = Val o ∧ ob_wf o.
Proof.
  eexists. split; [reflexivity|].
  destruct operations_buffer_invariant as (Hnew & Hops & _).
  apply (Hops OB.new _ 2 [1] [7]); [exact Hnew|]. left. reflexivity.
Defined.

(** ** Buffered scans *)
Definition end_len (e : RangeEnd bytes) : nat :=
  match end_value e with Some v => length v | None => 0%nat end.

(** Keys on which a buffered scan and a storage scan mean the same range: at
    least as long as the bounds and, for an exclusive end, not the end itself. *)
Definition range_comparable (range : KeyRange bytes) (k : bytes) : Prop :=
  is_bytes k ∧ (length (start_value (range_start range)) ≤ length k)%nat ∧
  (end_len (range_end range) ≤ length k)%nat ∧
  (∀ e, range_end range = EndPrefixExclusive e → k ≠ e).

Definition range_is_bytes (range : KeyRange bytes) : Prop :=
  is_bytes (start_value (range_start range)) ∧
  (∀ e, end_value (range_end range) = Some e → is_bytes e).

Lemma below_end_accepts range q x k :
  range_is_bytes range → range_comparable range k → RangeIter.start_prefix (range_start range) = Val q →
  WB.compute_exclusive_end (range_start range) (range_end range) = Val x → q ⪯ k →
  below (match range_end range with RangeUnbounded => Unbounded | _ => Excluded x end) k =
  accepts (RangeIter.condition_of range) k.
Proof.
  intros [Hbs Hbe] (Hk & Hls & Hle & Hne) Hq Hx Hqk.
  pose proof (start_prefix_ge _ _ Hbs Hq) as Hsq.
  apply eq_true_iff_eq. unfold RangeIter.condition_of, end_len in *.
  destruct (range_end range) as [|e|e|] eqn:Ee; simpl in *; [| | |done].
  - rewrite ltb_lt, starts_with_prefix_of. rewrite <-(prefix_range _ _ _ Hbs Hk Hx Hls).
    split; [|by intros []]. intros ?; split; [by eapply cmp_le_trans|done].
  - rewrite ltb_lt, orb_true_iff, leb_le.
    rewrite (lt_increment_iff _ _ _ (Hbe e eq_refl) Hk Hx Hle).
    split; [by right|]. intros [Hp%starts_with_prefix_of|]; [|done].
    by apply take_ge_prefix_le.
  - injection Hx as <-. rewrite ltb_lt, orb_true_iff, ltb_lt, lt_take_iff by done.
    split; [by right|]. intros [[z Hz]%starts_with_prefix_of|]; [|done].
    destruct z as [|z zs]; [by rewrite app_nil_r in Hz; destruct (Hne e)|].
    rewrite Hz, length_app in Hle. simpl in Hle. lia.
Qed.

Lemma buffer_range_in_range range b q l :
  range_is_bytes range → RangeIter.start_prefix (range_start range) = Val q →
  (∀ s, range_start range ≠ ExcludeFirstWithPrefix s) →
  Forall (λ kw, range_comparable range kw.1) (wb_writes b) →
  WB.iterate_range range b = Val l →
  l = List.map (λ kw : bytes * Write, (wb_keyspace_id b, kw.1, kw.2))
        (List.filter (λ kw, in_range range q kw.1) (wb_writes b)).
Proof.
  intros Hr Hq Hnf Hcmp. unfold WB.iterate_range, WB.bounds.
  destruct (WB.compute_exclusive_end _ _) as [x| |] eqn:Ex; simpl; [|done..].
  assert (Hs : WB.range_start_as_bound (range_start range) = Val (Included q)).
  { destruct (range_start range) as [s|s|s]; simpl in *; simplify_eq; [done|by edestruct Hnf|].
    by rewrite Hq. }
  rewrite Hs. simpl. unfold bt_range. destruct (range_panics _ _); [done|]. simpl. intros [= <-].
  f_equal. apply List.filter_ext_in. intros kw Hin.
  rewrite List.Forall_forall in Hcmp. specialize (Hcmp kw Hin).
  unfold in_range. destruct (leb q kw.1) eqn:Eq; [|done]. simpl.
  apply leb_le in Eq. by apply (below_end_accepts range q x).
Qed.

(** A buffered range scan yields, in key order and tagged with the
    buffer's keyspace, exactly the buffered writes whose key lies in the range
    as the storage scan understands it: the increment-based bounds of
    [buffer.rs] and the prefix tests of [memory_iterator.rs] agree on keys that
    are at least as long as the bounds. *)
Lemma buffer_scan_agrees_with_storage range b q l :
  range_is_bytes range → RangeIter.start_prefix (range_start range) = Val q →
  (∀ s, range_start range ≠ ExcludeFirstWithPrefix s) →
  Forall (λ kw, range_comparable range kw.1) (wb_writes b) →
  WB.iterate_range range b = Val l →
  l = List.map (λ kw : bytes * Write, (wb_keyspace_id b, kw.1, kw.2))
        (List.filter (λ kw, in_range range q kw.1) (wb_writes b)).
Proof. apply buffer_range_in_range. Qed.
Lemma buffer_scan_agrees_with_storage_witness :
  let b := mk_WriteBuffer 3 [([1; 1], Insert [10]); ([1; 2], Delete); ([2; 0], Insert [30])] in
  ∃ l, WB.iterate_range (new_within [1] true) b = Val l ∧
       l = [(3, [1; 1], Insert [10]); (3, [1; 2], Delete)].
Proof.
  intros b. eexists. split; [reflexivity|].
  apply (buffer_scan_agrees_with_storage (new_within [1] true) b [1]).
  - split; [repeat constructor; unfold is_byte; lia|done].
  - reflexivity.
  - done.
  - repeat constructor; unfold is_byte; simpl; lia || done.
  - reflexivity.
Defined.
