(* ===== verification/LendingIter.v ===== *)
(** * Lending iterators: [common/lending_iterator/lending_iterator.rs]

    The [LendingIterator] and [Seekable] traits as classes, the sequence an
    iterator yields as a relation, and the [Peekable] adaptor.  The items of a
    lending iterator borrow it, so an item is never used after the next call:
    returning it by value next to the advanced iterator loses nothing. *)
From S2P Require Import Prelude.

Class LendingIterator (I Item : Type) : Type :=
  li_next : I → outcome (option Item * I).

Class Seekable (I Item K : Type) : Type := {
  li_seek : K → I → outcome I;
  li_compare_key : I → Item → K → comparison;
}.

Section yields.
Context {I Item : Type} `{LendingIterator I Item}.

(** [dead it]: every further call of [next] returns [None]. *)
Fixpoint exhausted (n : nat) (it : I) : Prop :=
  match n with
  | O => True
  | S n => ∃ it', li_next it = Val (None, it') ∧ exhausted n it'
  end.
Definition dead (it : I) : Prop := ∀ n, exhausted n it.

Lemma dead_next it : dead it → ∃ it', li_next it = Val (None, it') ∧ dead it'.
Proof.
  intros Hd. destruct (Hd 1%nat) as (it' & Hn & _). exists it'. split; [done|]. intros n.
  destruct (Hd (S n)) as (it2 & Hn2 & He). rewrite Hn in Hn2. by injection Hn2 as <-.
Qed.
Lemma dead_ind (P : I → Prop) :
  (∀ it, P it → ∃ it', li_next it = Val (None, it') ∧ P it') → ∀ it, P it → dead it.
Proof.
  intros Hstep it HP n. revert it HP. induction n as [|n IH]; intros it HP; simpl; [done|].
  destruct (Hstep it HP) as (it' & ? & ?). exists it'. auto.
Qed.
Lemma dead_step it it' : li_next it = Val (None, it') → dead it' → dead it.
Proof. intros Hn Hd [|n]; simpl; [done|]. by exists it'. Qed.
Lemma dead_loop it : li_next it = Val (None, it) → dead it.
Proof. intros Hn. apply (dead_ind (λ x, x = it)); [intros ? ->; by exists it|done]. Qed.

(** [yields it l]: successive calls of [next] return the items [l], in order,
    then [None] for ever, and none of them panics. *)
Inductive yields : I → list Item → Prop :=
| yields_nil it : dead it → yields it []
| yields_cons it it' x l : li_next it = Val (Some x, it') → yields it' l → yields it (x :: l).

Lemma yields_next it l :
  yields it l → ∃ it', li_next it = Val (head l, it') ∧ yields it' (tail l).
Proof.
  destruct 1 as [it (it' & Hn & Hd)%dead_next|it it' x l Hn Hy].
  - exists it'. split; [done|by constructor].
  - by exists it'.
Qed.

Lemma yields_functional it l l' : yields it l → yields it l' → l = l'.
Proof.
  intros H1. revert l'. induction H1 as [it (it' & Hn & _)%dead_next|it it' x l Hn _ IH]; intros l' H2.
  - inversion H2 as [|? ? y l2 Hn2]; [done|]. congruence.
  - inversion H2 as [? Hd|? ? y l2 Hn2 Hy2]; subst.
    + apply dead_next in Hd as (? & ? & _). congruence.
    + rewrite Hn in Hn2. injection Hn2 as -> ->. f_equal. by apply IH.
Qed.

(** [collect]: as many calls as needed. *)
Fixpoint li_collect (fuel : nat) (it : I) : outcome (list Item) :=
  match fuel with
  | O => Panic
  | S fuel =>
      r ← li_next it;
      match r with
      | (None, _) => Val []
      | (Some x, it') => l ← li_collect fuel it'; Val (x :: l)
      end
  end.

Lemma li_collect_yields it l fuel :
  (length l < fuel)%nat → yields it l → li_collect fuel it = Val l.
Proof.
  revert it l. induction fuel as [|fuel IH]; intros it l Hf Hy; [lia|]. simpl.
  destruct Hy as [it (it' & Hn & _)%dead_next|it it' x l Hn Hy]; rewrite Hn; simpl; [done|].
  rewrite (IH it' l); [done|simpl in Hf; lia|done].
Qed.
End yields.

(** ** [Peekable] *)
Record Peekable (I Item : Type) := mk_Peekable {
  pk_iter : I;
  pk_item : option Item;
}.
Arguments mk_Peekable {I Item} pk_iter pk_item.
Arguments pk_iter {I Item} p.
Arguments pk_item {I Item} p.

Module Peek.
Section peekable.
Context {I Item : Type} `{LendingIterator I Item}.

Definition new (iter : I) : Peekable I Item := mk_Peekable iter None.

Definition peek (p : Peekable I Item) : outcome (option Item * Peekable I Item) :=
  match pk_item p with
  | Some x => Val (Some x, p)
  | None =>
      '(item, iter) ← li_next (pk_iter p);
      Val (item, mk_Peekable iter item)
  end.

#[global] Instance next : LendingIterator (Peekable I Item) Item := λ p,
  match pk_item p with
  | Some x => Val (Some x, mk_Peekable (pk_iter p) None)
  | None =>
      '(item, iter) ← li_next (pk_iter p);
      Val (item, mk_Peekable iter None)
  end.

(** [seek] keeps a peeked item that is at the key, drops one below it, and
    panics ([unreachable!]) on one above it. *)
Definition seek {K} `{Seekable I Item K} (key : K) (p : Peekable I Item)
  : outcome (Peekable I Item) :=
  let go := iter ← li_seek key (pk_iter p); Val (mk_Peekable iter None) in
  match pk_item p with
  | Some item =>
      match li_compare_key (pk_iter p) item key with
      | Lt => go
      | Eq => Val p
      | Gt => Panic
      end
  | None => go
  end.
#[global] Instance seekable {K} `{Seekable I Item K} : Seekable (Peekable I Item) Item K := {|
  li_seek := seek;
  li_compare_key p := li_compare_key (pk_iter p);
|}.

Lemma dead_new it : dead it → dead (new it).
Proof.
  intros Hd. apply (dead_ind (λ p, pk_item p = None ∧ dead (pk_iter p))); [|done].
  intros [it0 o] [Ho Hd0]. simpl in *. subst o. apply dead_next in Hd0 as (it' & Hn & Hd').
  exists (mk_Peekable it' None). split; [|done]. unfold li_next, next. simpl. by rewrite Hn.
Qed.

Lemma yields_new it l : yields it l → yields (new it) l.
Proof.
  induction 1 as [it Hd|it it' x l Hn _ IH]; [by constructor; apply dead_new|].
  econstructor; [|exact IH]. unfold li_next, next, new. simpl. by rewrite Hn.
Qed.

Lemma yields_new_inv it l : yields (new it) l → yields it l.
Proof.
  assert (Hnext : ∀ i o p, next (new i) = Val (o, p) → ∃ i', p = new i' ∧ li_next i = Val (o, i')).
  { intros i o p. unfold next, new. simpl. destruct (li_next i) as [[o' i']| |]; simpl; [|done..].
    intros [= <- <-]. by exists i'. }
  remember (new it) as p eqn:Hp. intros Hy. revert it Hp.
  induction Hy as [p Hd|p p' x l Hn _ IH]; intros it ->.
  - constructor. apply (dead_ind (λ i, dead (new i))); [|done].
    intros i Hi. apply dead_next in Hi as (p' & Hn & Hd').
    apply Hnext in Hn as (i' & -> & Hn). by exists i'.
  - apply Hnext in Hn as (i' & -> & Hn). econstructor; [exact Hn|]. by apply IH.
Qed.

Lemma yields_item it x l : yields it l → yields (mk_Peekable it (Some x)) (x :: l).
Proof. intros Hy. econstructor; [reflexivity|]. by apply yields_new. Qed.

(** Peeking shows the next item and leaves what is yielded unchanged. *)
Lemma peek_yields p l :
  yields p l →
  ∃ p', peek p = Val (head l, p') ∧ yields p' l ∧ (∀ x l', l = x :: l' →
    next p' = Val (Some x, mk_Peekable (pk_iter p') None) ∧
    yields (mk_Peekable (pk_iter p') None) l').
Proof.
  intros Hy. unfold peek. destruct p as [it [x|]]; simpl.
  - inversion Hy as [? Hd|? p' y l' Hn Hy']; subst.
    { apply dead_next in Hd as (? & Hn & _). done. }
    injection Hn as <- <-. eexists. split_and!; [done|done|]. by intros ?? [= <- <-].
  - apply yields_new_inv, yields_next in Hy as (it' & Hn & Hy'). rewrite Hn. simpl.
    eexists. split; [done|]. split.
    + destruct l as [|x l]; simpl in *; [by apply (yields_new it')|by apply yields_item].
    + intros x l' ->. simpl in *. split; [done|by apply (yields_new it')].
Qed.
End peekable.
End Peek.
