(* ===== verification/Mvcc.v ===== *)
(** * Multi-version storage: [durability/durability.rs] (sequence numbers),
    [storage/storage.rs] (MVCC keys and reads), [storage/write_batches.rs],
    [storage/iterator.rs]

    A stored key is [KEY][inverted SEQ][OP].  The MVCC iterator walks the raw
    entries of a keyspace scan and keeps, for each key, the newest version that
    is visible at the snapshot's sequence number.  The component is proved
    against an abstract version store: a finite set of versions and the read
    [latest version at or below the sequence number]. *)
From stdpp Require Import sets.
From S2P Require Import Prelude BTree Bytes MemoryStore Buffer LendingIter.
Import KeyRangeOps.

(** ** [DurabilitySequenceNumber] *)
Module SeqNr.
Definition MIN : Z := 0.
Definition MAX : Z := u64_max.
Definition serialised_len : nat := 8.
Definition next (s : Z) : Z := u64 (s + 1).
Definition previous (s : Z) : Z := u64 (s - 1).
Definition invert (s : Z) : Z := u64_max - s.
Definition to_be_bytes (s : Z) : bytes := be_bytes serialised_len s.
(** [copy_from_slice] panics on a slice of another length. *)
Definition from_be_bytes (bs : bytes) : outcome Z :=
  if (length bs =? 8)%nat then Val (be_value bs) else Panic.
Definition add (s : Z) (n : nat) : Z := u64 (s + Z.of_nat n).
Definition sub (s : Z) (n : nat) : Z := u64 (s - Z.of_nat n).
Definition diff (s t : Z) : nat := Z.to_nat (u64 (s - t)).
End SeqNr.

(** ** [StorageOperation] and [MVCCKey] *)
Inductive StorageOperation := OpInsert | OpDelete.
#[global] Instance StorageOperation_eq_dec : EqDecision StorageOperation.
Proof. solve_decision. Defined.

Module StorageOp.
Definition serialised_len : nat := 1.
Definition to_bytes (op : StorageOperation) : bytes :=
  match op with OpInsert => [0] | OpDelete => [1] end.
Definition from (bs : bytes) : outcome StorageOperation :=
  match bs with [0] => Val OpInsert | [1] => Val OpDelete | _ => Panic end.
End StorageOp.

Module MVCCKey.
Definition OPERATION_START_NEGATIVE_OFFSET : nat := StorageOp.serialised_len.
Definition SEQUENCE_NUMBER_START_NEGATIVE_OFFSET : nat :=
  OPERATION_START_NEGATIVE_OFFSET + SeqNr.serialised_len.

Definition build (key : bytes) (sequence_number : Z) (op : StorageOperation) : bytes :=
  let len := (length key + SeqNr.serialised_len + StorageOp.serialised_len)%nat in
  let key_end := length key in
  let sequence_number_end := (key_end + SeqNr.serialised_len)%nat in
  let bs := replicate len 0 in
  let bs := ByteArray.copy_at 0 key bs in
  let bs := ByteArray.copy_at key_end (SeqNr.to_be_bytes (SeqNr.invert sequence_number)) bs in
  ByteArray.copy_at sequence_number_end (StorageOp.to_bytes op) bs.

(** The offsets are subtracted from the length: a raw key shorter than nine
    bytes makes the slice panic. *)
Definition key (raw : bytes) : outcome bytes :=
  if (length raw <? SEQUENCE_NUMBER_START_NEGATIVE_OFFSET)%nat then Panic
  else Val (take (length raw - SEQUENCE_NUMBER_START_NEGATIVE_OFFSET) raw).
Definition sequence_number (raw : bytes) : outcome Z :=
  if (length raw <? SEQUENCE_NUMBER_START_NEGATIVE_OFFSET)%nat then Panic
  else
    let start := (length raw - SEQUENCE_NUMBER_START_NEGATIVE_OFFSET)%nat in
    s ← SeqNr.from_be_bytes (take SeqNr.serialised_len (drop start raw));
    Val (SeqNr.invert s).
Definition operation (raw : bytes) : outcome StorageOperation :=
  if (length raw <? OPERATION_START_NEGATIVE_OFFSET)%nat then Panic
  else
    let offset := (length raw - OPERATION_START_NEGATIVE_OFFSET)%nat in
    StorageOp.from (take StorageOp.serialised_len (drop offset raw)).
Definition is_visible_to (raw : bytes) (sequence_number_ : Z) : outcome bool :=
  s ← sequence_number raw; Val (s <=? sequence_number_).
End MVCCKey.

(** ** [WriteBatches::from_operations] *)
Module Batches.
Definition put_of (seq : Z) (kw : bytes * Write) : option WriteOp :=
  match kw.2 with
  | Insert value => Some (WPut (MVCCKey.build kw.1 seq OpInsert) value)
  | Put value reinsert _ =>
      if reinsert then Some (WPut (MVCCKey.build kw.1 seq OpInsert) value) else None
  | Delete => Some (WPut (MVCCKey.build kw.1 seq OpDelete) [])
  end.
Definition batch_of (seq : Z) (b : WriteBuffer) : option (list WriteOp) :=
  match wb_writes b with
  | [] => None
  | writes => Some (omap (put_of seq) writes)
  end.
(** One optional batch per keyspace index. *)
Definition from_operations (seq : Z) (o : OperationsBuffer) : list (option (list WriteOp)) :=
  batch_of seq <$> ob_write_buffers o.
End Batches.

(** ** [MVCCRangeIterator] *)
Inductive MVCCReadError (E : Type) := MVCCKeyspace (source : E).
Arguments MVCCKeyspace {E} source.

Abbreviation raw_item E := ((bytes * bytes) + E)%type.
Abbreviation mvcc_item E := ((Z * bytes) * bytes + MVCCReadError E)%type.

Record MVCCRangeIterator (I E : Type) := mk_MVCCRangeIterator {
  mv_keyspace_id : Z;
  mv_iterator : Peekable I (raw_item E);
  mv_open_sequence_number : Z;
  mv_last_visible_key : option bytes;
  mv_item : option (mvcc_item E);
}.
Arguments mk_MVCCRangeIterator {I E} _ _ _ _ _.
Arguments mv_keyspace_id {I E} m.
Arguments mv_iterator {I E} m.
Arguments mv_open_sequence_number {I E} m.
Arguments mv_last_visible_key {I E} m.
Arguments mv_item {I E} m.

Module Mvcc.
Section iterator.
Context {I E : Type} `{LendingIterator I (raw_item E)}.
Abbreviation iter := (MVCCRangeIterator I E).

Definition new (keyspace_id : Z) (iterator : I) (open : Z) : iter :=
  mk_MVCCRangeIterator keyspace_id (Peek.new iterator) open None None.
Definition set_iterator (it : Peekable I (raw_item E)) (m : iter) : iter :=
  mk_MVCCRangeIterator (mv_keyspace_id m) it (mv_open_sequence_number m)
    (mv_last_visible_key m) (mv_item m).
Definition set_last (k : bytes) (m : iter) : iter :=
  mk_MVCCRangeIterator (mv_keyspace_id m) (mv_iterator m) (mv_open_sequence_number m)
    (Some k) (mv_item m).
Definition set_item (x : option (mvcc_item E)) (m : iter) : iter :=
  mk_MVCCRangeIterator (mv_keyspace_id m) (mv_iterator m) (mv_open_sequence_number m)
    (mv_last_visible_key m) x.

(** The [while let Some(&Ok((key, _)))] loop: an error item ends it like the
    end of the scan. Each round consumes one raw entry. *)
Fixpoint find_next_state (fuel : nat) (m : iter) : outcome (bool * iter) :=
  match fuel with
  | O => Panic
  | S fuel =>
      '(peeked, it) ← Peek.peek (mv_iterator m);
      let m := set_iterator it m in
      match peeked with
      | Some (inl (raw_key, _)) =>
          visible ← MVCCKey.is_visible_to raw_key (mv_open_sequence_number m);
          key ← MVCCKey.key raw_key;
          let is_visible := (visible : bool) && negb (bool_decide (mv_last_visible_key m = Some key)) in
          if is_visible then
            let m := set_last key m in
            op ← MVCCKey.operation raw_key;
            match op with
            | OpInsert => Val (true, m)
            | OpDelete =>
                '(_, it) ← Peek.next (mv_iterator m);
                find_next_state fuel (set_iterator it m)
            end
          else
            '(_, it) ← Peek.next (mv_iterator m);
            find_next_state fuel (set_iterator it m)
      | _ => Val (false, m)
      end
  end.

Definition next (fuel : nat) : LendingIterator iter (mvcc_item E) := λ m,
  match mv_item m with
  | Some item => Val (Some item, set_item None m)
  | None =>
      '(found, m) ← find_next_state fuel m;
      if (found : bool) then
        '(kv, it) ← Peek.next (mv_iterator m);
        let m := set_iterator it m in
        match kv with
        | None => Val (None, m)
        | Some (inl (raw_key, value)) =>
            key ← MVCCKey.key raw_key;
            Val (Some (inl ((mv_keyspace_id m, key), value)), m)
        | Some (inr error) => Val (Some (inr (MVCCKeyspace error)), m)
        end
      else Val (None, m)
  end.

Definition peek (fuel : nat) (m : iter) : outcome (option (mvcc_item E) * iter) :=
  match mv_item m with
  | Some item => Val (Some item, m)
  | None => '(item, m) ← next fuel m; Val (item, set_item item m)
  end.

Definition seek `{!Seekable I (raw_item E) bytes} (fuel : nat) (key : bytes) (m : iter) : outcome iter :=
  '(peeked, m) ← peek fuel m;
  match peeked with
  | Some (inl ((_, peek), _)) =>
      if ltb peek key then
        let m := set_item None m in
        it ← Peek.seek key (mv_iterator m);
        Val (set_iterator it m)
      else Val m
  | _ => Val m
  end.
End iterator.
End Mvcc.

(** ** Reads of the in-memory build: [MVCCStorage::iterate_range], [get_mapped] *)
#[global] Instance memory_range_next {E} : LendingIterator MemoryKeyspaceRangeIterator (raw_item E) := λ r,
  '(kv, r) ← RangeIter.next r;
  Val (match kv with Some kv => Some (inl kv) | None => None end, r).
#[global] Instance memory_range_seek {E} : Seekable MemoryKeyspaceRangeIterator (raw_item E) bytes := {|
  li_seek key r := Val (RangeIter.seek key r);
  li_compare_key _ item key :=
    match item with inl kv => cmp kv.1 key | inr _ => Eq end;
|}.

(** The messages of [KeyspaceError::SnapshotMalformed]. *)
Inductive SnapshotMessage :=
| TooShortForHeader
| InvalidMagic
| UnsupportedVersion (version : Z)
| UnexpectedEnd
| UnexpectedEndInKeyspace
| InvalidNameEncoding
| UnexpectedEndInData (data_len : nat).
Inductive KeyspaceError :=
| KeyspaceGet (name : bytes) (source : MemoryBackendError)
| KeyspacePut (name : bytes) (source : MemoryBackendError)
| KeyspaceBatchWrite (name : bytes) (source : MemoryBackendError)
| KeyspaceIterate (name : bytes) (source : MemoryBackendError)
| KeyspaceDeleteRange (name : bytes) (source : MemoryBackendError)
| KeyspaceProperty (name : bytes) (source : MemoryBackendError)
| SnapshotMalformed (message : SnapshotMessage).

Module MVCCStorage.
Abbreviation iter := (MVCCRangeIterator MemoryKeyspaceRangeIterator KeyspaceError).
Definition iterate_range (keyspace_id : Z) (keyspace : MemoryBackend) (range : KeyRange bytes) (open : Z)
  : outcome iter :=
  it ← RangeIter.iterate_range (map (λ key, key) (λ fixed, fixed) range) keyspace;
  Val (Mvcc.new keyspace_id it open).

Fixpoint get_loop {V} (fuel : nat) (key : bytes) (mapper : bytes → V) (rounds : nat) (it : iter)
  : exec (MVCCReadError KeyspaceError) (option V) :=
  match rounds with
  | O => Panic
  | S rounds =>
      match Mvcc.next fuel it with
      | Val (None, _) => Val None
      | Val (Some (inl ((_, k), v)), it) =>
          if bool_decide (k = key) then Val (Some (mapper v)) else get_loop fuel key mapper rounds it
      | Val (Some (inr e), _) => Err e
      | Err e => match e with end
      | Panic => Panic
      end
  end.
Definition get_mapped {V} (keyspace_id : Z) (keyspace : MemoryBackend) (key : bytes) (open : Z)
    (mapper : bytes → V) : exec (MVCCReadError KeyspaceError) (option V) :=
  match iterate_range keyspace_id keyspace (new_within key false) open with
  | Val it =>
      let fuel := S (length (mb_data keyspace)) in
      get_loop fuel key mapper fuel it
  | Err e => match e with end
  | Panic => Panic
  end.
Definition get (keyspace_id : Z) (keyspace : MemoryBackend) (key : bytes) (open : Z) :=
  get_mapped keyspace_id keyspace key open (λ v, v).
End MVCCStorage.

(** ** The key encoding *)
Lemma build_app k s op :
  MVCCKey.build k s op = k ++ be_bytes 8 (u64_max - s) ++ StorageOp.to_bytes op.
Proof.
  unfold MVCCKey.build, SeqNr.to_be_bytes, SeqNr.invert, SeqNr.serialised_len, StorageOp.serialised_len.
  set (inv := be_bytes 8 (u64_max - s)).
  assert (Hi : length inv = 8%nat) by apply length_be_bytes.
  assert (Ho : length (StorageOp.to_bytes op) = 1%nat) by (by destruct op).
  set (o := StorageOp.to_bytes op) in *.
  unfold ByteArray.copy_at. rewrite take_0, app_nil_l, Nat.add_0_l, drop_replicate.
  rewrite take_app_length. rewrite Hi.
  rewrite (drop_app_ge k) by lia. rewrite drop_replicate.
  rewrite (app_assoc k inv). rewrite (take_app_length' (k ++ inv)) by (rewrite length_app, Hi; lia).
  rewrite (drop_ge (_ ++ _)); [by rewrite app_nil_r, <-app_assoc|].
  rewrite !length_app, length_replicate, Ho, Hi. lia.
Qed.

Lemma length_build k s op : length (MVCCKey.build k s op) = (length k + 9)%nat.
Proof. rewrite build_app, !length_app, length_be_bytes. destruct op; simpl; lia. Qed.

Lemma key_build k s op : MVCCKey.key (MVCCKey.build k s op) = Val k.
Proof.
  unfold MVCCKey.key. change MVCCKey.SEQUENCE_NUMBER_START_NEGATIVE_OFFSET with 9%nat.
  rewrite length_build. rewrite (proj2 (Nat.ltb_ge _ _)) by lia.
  rewrite build_app, take_app_le, take_ge by lia. done.
Qed.
Lemma sequence_number_build k s op :
  is_u64 s → MVCCKey.sequence_number (MVCCKey.build k s op) = Val s.
Proof.
  intros Hs. unfold MVCCKey.sequence_number, SeqNr.from_be_bytes, SeqNr.serialised_len.
  change MVCCKey.SEQUENCE_NUMBER_START_NEGATIVE_OFFSET with 9%nat.
  rewrite length_build. rewrite (proj2 (Nat.ltb_ge _ _)) by lia.
  replace (length k + 9 - 9)%nat with (length k) by lia.
  rewrite build_app, drop_app_length, (take_app_length' (be_bytes 8 _)) by (by rewrite length_be_bytes).
  rewrite length_be_bytes. simpl Nat.eqb. cbv iota. cbn [mbind exec_bind].
  rewrite be_value_be_bytes. unfold SeqNr.invert, u64_max, is_u64 in *.
  rewrite Z.mod_small by (change (256 ^ Z.of_nat 8) with (2 ^ 64); lia). f_equal. lia.
Qed.
Lemma operation_build k s op : MVCCKey.operation (MVCCKey.build k s op) = Val op.
Proof.
  unfold MVCCKey.operation, MVCCKey.OPERATION_START_NEGATIVE_OFFSET, StorageOp.serialised_len.
  rewrite length_build. rewrite (proj2 (Nat.ltb_ge _ _)) by lia.
  rewrite build_app, app_assoc, (drop_app_length' (k ++ be_bytes 8 _))
    by (rewrite length_app, length_be_bytes; lia).
  by destruct op.
Qed.

(** An MVCC key decodes to exactly the key, sequence number and operation
    it was built from, for every key and every 64-bit sequence number. *)
Lemma mvcc_key_roundtrip k s op :
  is_u64 s →
  let raw := MVCCKey.build k s op in
  MVCCKey.key raw = Val k ∧ MVCCKey.sequence_number raw = Val s ∧ MVCCKey.operation raw = Val op ∧
  length raw = (length k + 9)%nat.
Proof.
  intros Hs. split_and!; [apply key_build|by apply sequence_number_build|apply operation_build|
    apply length_build].
Qed.
Lemma mvcc_key_roundtrip_witness :
  MVCCKey.build [5; 6] 300 OpDelete = [5; 6; 255; 255; 255; 255; 255; 255; 254; 211; 1] ∧
  MVCCKey.sequence_number (MVCCKey.build [5; 6] 300 OpDelete) = Val 300.
Proof.
  split; [reflexivity|]. apply (mvcc_key_roundtrip [5; 6] 300 OpDelete). unfold is_u64. lia.
Defined.

(** ** The abstract version store *)
Record Version := mk_Version {
  v_key : bytes;
  v_seq : Z;
  v_op : StorageOperation;
  v_value : bytes;
}.
#[global] Instance Version_eq_dec : EqDecision Version.
Proof. solve_decision. Defined.

Definition raw (v : Version) : bytes * bytes :=
  (MVCCKey.build (v_key v) (v_seq v) (v_op v), v_value v).

Definition visible_at (open : Z) (k : bytes) (v : Version) : bool :=
  bool_decide (v_key v = k) && (v_seq v <=? open).

(** The version of [k] with the greatest sequence number at or below [open]. *)
Fixpoint latest (open : Z) (k : bytes) (vs : list Version) : option Version :=
  match vs with
  | [] => None
  | x :: vs =>
      let rest := latest open k vs in
      if visible_at open k x then
        match rest with
        | Some w => if v_seq x <? v_seq w then Some w else Some x
        | None => Some x
        end
      else rest
  end.
Definition read (open : Z) (k : bytes) (vs : list Version) : option bytes :=
  match latest open k vs with
  | Some (mk_Version _ _ OpInsert value) => Some value
  | _ => None
  end.

Definition ver_ok (v : Version) : Prop := is_bytes (v_key v) ∧ 0 ≤ v_seq v < 2 ^ 56.
Definition versions_unique (vs : list Version) : Prop :=
  ∀ a b, a ∈ vs → b ∈ vs → v_key a = v_key b → v_seq a = v_seq b → a = b.
(** A stored key may extend another one, but not by a byte [0xFF]. *)
Definition keys_separated (vs : list Version) : Prop :=
  ∀ a b c t, a ∈ vs → b ∈ vs → v_key b = v_key a ++ c :: t → c ≠ 255.
(** The raw entries of a keyspace are exactly the versions [vs]. *)
Record store_ok (vs : list Version) : Prop := {
  store_sorted : bt_wf (raw <$> vs);
  store_versions : Forall ver_ok vs;
  store_unique : versions_unique vs;
  store_separated : keys_separated vs;
}.

Lemma latest_Some open k vs w :
  latest open k vs = Some w →
  w ∈ vs ∧ v_key w = k ∧ v_seq w ≤ open ∧
  (∀ x, x ∈ vs → v_key x = k → v_seq x ≤ open → v_seq x ≤ v_seq w).
Proof.
  revert w. induction vs as [|x vs IH]; intros w; [done|]. simpl. unfold visible_at.
  destruct (decide (v_key x = k)) as [Hk|Hk]; last first.
  { rewrite bool_decide_eq_false_2 by done. simpl. intros Hw. destruct (IH w Hw) as (? & ? & ? & Hm).
    split_and!; [by right|done|done|]. intros y [->|?]%elem_of_cons; [done|by apply Hm]. }
  rewrite bool_decide_eq_true_2 by done. simpl. destruct (Z.leb_spec (v_seq x) open) as [Hv|Hv]; last first.
  { intros Hw. destruct (IH w Hw) as (? & ? & ? & Hm).
    split_and!; [by right|done|done|]. intros y [->|?]%elem_of_cons; [lia|by apply Hm]. }
  destruct (latest open k vs) as [w'|] eqn:E.
  - destruct (IH w' eq_refl) as (? & ? & ? & Hm). destruct (Z.ltb_spec (v_seq x) (v_seq w')).
    + intros [= <-]. split_and!; [by right|done|done|].
      intros y [->|?]%elem_of_cons; [lia|by apply Hm].
    + intros [= <-]. split_and!; [by left|done|done|].
      intros y [->|Hy]%elem_of_cons Hky Hvy; [lia|]. specialize (Hm y Hy Hky Hvy). lia.
  - intros [= <-]. split_and!; [by left|done|done|].
    intros y [->|Hy]%elem_of_cons Hky Hvy; [lia|]. exfalso. clear IH. revert E.
    induction vs as [|z vs IH]; [by apply not_elem_of_nil in Hy|]. simpl. unfold visible_at.
    apply elem_of_cons in Hy as [->|Hy].
    + rewrite bool_decide_eq_true_2 by done. rewrite (proj2 (Z.leb_le _ _)) by lia. simpl.
      destruct (latest open k vs) as [w'|]; [by destruct (_ <? _)|done].
    + destruct (_ && _); [|by apply IH]. destruct (latest open k vs) as [w'|]; [by destruct (_ <? _)|done].
Qed.

Lemma latest_None open k vs :
  latest open k vs = None ↔ ∀ x, x ∈ vs → v_key x = k → open < v_seq x.
Proof.
  induction vs as [|x vs IH]; simpl; [split; [by intros _ x ?%not_elem_of_nil|done]|].
  unfold visible_at. destruct (decide (v_key x = k)) as [Hk|Hk].
  - rewrite bool_decide_eq_true_2 by done. simpl. destruct (Z.leb_spec (v_seq x) open).
    + split; [destruct (latest open k vs); [by destruct (_ <? _)|done]|].
      intros Hall. assert (open < v_seq x) by (apply Hall; [by left|done]). lia.
    + rewrite IH. split; [|by intros Hall y ?; apply Hall; right].
      intros Hall y [->|?]%elem_of_cons ?; [done|by apply Hall].
  - rewrite bool_decide_eq_false_2 by done. simpl. rewrite IH.
    split; [|by intros Hall y ?; apply Hall; right].
    intros Hall y [->|?]%elem_of_cons ?; [done|by apply Hall].
Qed.

(** [latest] depends on the set of versions only. *)
Lemma latest_set open k vs vs' :
  versions_unique vs → (∀ x, v_key x = k → x ∈ vs ↔ x ∈ vs') → latest open k vs = latest open k vs'.
Proof.
  intros Hu Heq. destruct (latest open k vs) as [w|] eqn:E, (latest open k vs') as [w'|] eqn:E'.
  - apply latest_Some in E as (Hw & Hk & Hs & Hm). apply latest_Some in E' as (Hw' & Hk' & Hs' & Hm').
    f_equal. apply Heq in Hw'; [|done]. apply Hu; [done|done|congruence|].
    pose proof (Hm w' Hw' Hk' Hs'). pose proof (Hm' w (proj1 (Heq w Hk) Hw) Hk Hs). lia.
  - apply latest_Some in E as (Hw & Hk & Hs & _). apply Heq in Hw; [|done].
    rewrite latest_None in E'. specialize (E' w Hw Hk). lia.
  - apply latest_Some in E' as (Hw & Hk & Hs & _). apply Heq in Hw; [|done].
    rewrite latest_None in E. specialize (E w' Hw Hk). lia.
  - done.
Qed.

(** ** Raw order: newest version first, versions of a key contiguous *)
Lemma inverted_head s : 0 ≤ s < 2 ^ 56 → ∃ t, be_bytes 8 (u64_max - s) = 255 :: t.
Proof.
  intros Hs. cbn [be_bytes]. eexists. f_equal. unfold u64_max.
  change (256 ^ Z.of_nat 7) with (2 ^ 56).
  replace (2 ^ 64 - 1 - s) with (255 * 2 ^ 56 + (2 ^ 56 - 1 - s)) by lia.
  rewrite Z.div_add_l by lia. rewrite Z.div_small by lia. done.
Qed.

Lemma raw_same_key v w :
  0 ≤ v_seq v < 2 ^ 56 → 0 ≤ v_seq w < 2 ^ 56 → v_key v = v_key w → bt_lt (raw v) (raw w) →
  v_seq w ≤ v_seq v.
Proof.
  unfold bt_lt, raw. simpl. intros Hv Hw Hk. rewrite !build_app, Hk, list_cmp_app_same.
  rewrite list_cmp_app_len by (by rewrite !length_be_bytes).
  rewrite be_bytes_cmp by (unfold u64_max; change (256 ^ Z.of_nat 8) with (2 ^ 64); lia).
  intros Hc. destruct (Z.compare_spec (u64_max - v_seq v) (u64_max - v_seq w)); lia || done.
Qed.

Lemma prefix_comparable {A} (a b x y : list A) : a ++ x = b ++ y → ∃ t, a = b ++ t ∨ b = a ++ t.
Proof.
  revert b. induction a as [|c a IH]; intros [|d b]; simpl; intros Heq.
  - exists []. by left.
  - exists (d :: b). by right.
  - exists (c :: a). by left.
  - injection Heq as -> [t [-> | ->]]%IH; exists t; [by left|by right].
Qed.

Lemma raw_contiguous v w x :
  ver_ok v → ver_ok w → ver_ok x → v_key v = v_key x →
  (∀ c t, v_key w = v_key v ++ c :: t → c ≠ 255) → (∀ c t, v_key v = v_key w ++ c :: t → c ≠ 255) →
  bt_lt (raw v) (raw w) → bt_lt (raw w) (raw x) → v_key w = v_key v.
Proof.
  unfold bt_lt, raw. simpl. intros [_ Hv] [_ Hw] [_ Hx] Hk Hs1 Hs2. rewrite !build_app, <-Hk.
  destruct (inverted_head _ Hv) as [tv ->], (inverted_head _ Hw) as [tw ->], (inverted_head _ Hx) as [tx ->].
  intros Hvw Hwx. set (k := v_key v) in *. set (k' := v_key w) in *.
  assert (Hp : (k ++ [255]) `prefix_of` (k' ++ (255 :: tw) ++ StorageOp.to_bytes (v_op w))).
  { apply (prefix_between _ _ (tx ++ StorageOp.to_bytes (v_op x))).
    - eapply cmp_le_trans; [|apply cmp_lt_le, Hvw].
      replace (k ++ (255 :: tv) ++ StorageOp.to_bytes (v_op v))
        with ((k ++ [255]) ++ tv ++ StorageOp.to_bytes (v_op v)) by (by rewrite <-app_assoc).
      apply list_cmp_prefix.
    - replace ((k ++ [255]) ++ tx ++ StorageOp.to_bytes (v_op x))
        with (k ++ (255 :: tx) ++ StorageOp.to_bytes (v_op x)) by (by rewrite <-app_assoc).
      by apply cmp_lt_le. }
  destruct Hp as [z Hz]. rewrite <-app_assoc in Hz.
  destruct (prefix_comparable _ _ _ _ Hz) as [t [Ht|Ht]]; destruct t as [|c t];
    rewrite ?app_nil_r in Ht; try done; rewrite Ht, <-?app_assoc in Hz; apply app_inv_head in Hz;
    injection Hz as Hc _; exfalso.
  - by eapply Hs1.
  - by eapply Hs2.
Qed.

(** What the sorted raw order gives: later versions of a key are older, and
    nothing comes between two versions of a key. *)
Inductive grouped : list Version → Prop :=
| grouped_nil : grouped []
| grouped_cons v vs :
    (∀ w, w ∈ vs → v_key w = v_key v → v_seq w < v_seq v) →
    (∀ w vs', vs = w :: vs' → v_key w = v_key v ∨ ∀ x, x ∈ vs → v_key x ≠ v_key v) →
    grouped vs → grouped (v :: vs).

Lemma store_ok_cons v vs : store_ok (v :: vs) → store_ok vs.
Proof.
  intros [Hs Hv Hu Hp]. split.
  - by inversion Hs.
  - by inversion Hv.
  - intros a b ??. apply Hu; by right.
  - intros a b c t ??. apply Hp; by right.
Qed.

Lemma store_ok_grouped vs : store_ok vs → grouped vs.
Proof.
  induction vs as [|v vs IH]; intros Hok; [constructor|]. constructor; [| |by eapply IH, store_ok_cons].
  - intros w Hw Hk. destruct Hok as [Hs Hv Hu _].
    assert (Hlt : bt_lt (raw v) (raw w)).
    { inversion Hs as [|?? _ Hall]; subst. rewrite Forall_forall in Hall. apply Hall.
      by apply list_elem_of_fmap_2. }
    rewrite Forall_forall in Hv.
    destruct (Hv v ltac:(by left)) as [_ ?], (Hv w ltac:(by right)) as [_ ?].
    assert (v_seq w ≤ v_seq v) by (by apply raw_same_key).
    assert (v_seq w ≠ v_seq v); [|lia]. intros Heq.
    assert (w = v) as -> by (apply Hu; [by right|by left|done|done]).
    by apply cmp_irrefl in Hlt.
  - intros w vs' ->. destruct (decide (v_key w = v_key v)) as [|Hne]; [by left|]. right.
    intros x Hx Hk. apply elem_of_cons in Hx as [->|Hx]; [done|]. apply Hne.
    destruct Hok as [Hs Hv _ Hp]. rewrite Forall_forall in Hv.
    inversion Hs as [|?? Hs' Hall]; subst. inversion Hs' as [|?? _ Hall']; subst.
    rewrite Forall_forall in Hall, Hall'.
    apply (raw_contiguous v w x).
    + apply Hv; by left.
    + apply Hv; by right; left.
    + apply Hv; by right; right.
    + done.
    + intros c t. apply Hp; [by left|by right; left].
    + intros c t. apply Hp; [by right; left|by left].
    + apply Hall. by left.
    + apply Hall'. by apply list_elem_of_fmap_2.
Qed.

(** ** What the iterator keeps of a list of versions *)
Fixpoint vis (open : Z) (last : option bytes) (vs : list Version) : list (bytes * bytes) :=
  match vs with
  | [] => []
  | v :: vs =>
      if (v_seq v <=? open) && negb (bool_decide (last = Some (v_key v))) then
        match v_op v with
        | OpInsert => (v_key v, v_value v) :: vis open (Some (v_key v)) vs
        | OpDelete => vis open (Some (v_key v)) vs
        end
      else vis open last vs
  end.

Lemma read_cons_other open k v vs : visible_at open k v = false → read open k (v :: vs) = read open k vs.
Proof. unfold read. simpl. by intros ->. Qed.
Lemma read_cons_newest open v vs :
  v_seq v ≤ open → (∀ w, w ∈ vs → v_key w = v_key v → v_seq w < v_seq v) →
  read open (v_key v) (v :: vs) = match v_op v with OpInsert => Some (v_value v) | OpDelete => None end.
Proof.
  intros Hv Hn. unfold read. simpl. unfold visible_at. rewrite bool_decide_eq_true_2 by done.
  rewrite (proj2 (Z.leb_le _ _)) by lia. simpl.
  destruct (latest open (v_key v) vs) as [w|] eqn:E; [|by destruct v as [? ? [] ?]].
  apply latest_Some in E as (Hw & Hk & _ & _). specialize (Hn w Hw Hk).
  rewrite (proj2 (Z.ltb_ge _ _)) by lia. by destruct v as [? ? [] ?].
Qed.
Lemma read_absent open k vs : (∀ x, x ∈ vs → v_key x ≠ k) → read open k vs = None.
Proof.
  intros Hn. unfold read. rewrite (proj2 (latest_None open k vs)); [done|].
  intros x Hx Hk. by destruct (Hn x Hx).
Qed.

Definition answered (last : option bytes) (vs : list Version) : Prop :=
  ∀ k, last = Some k → ∀ w vs', vs = w :: vs' → v_key w = k ∨ ∀ x, x ∈ vs → v_key x ≠ k.

Lemma vis_spec open last vs k v :
  grouped vs → answered last vs →
  (k, v) ∈ vis open last vs ↔ last ≠ Some k ∧ read open k vs = Some v.
Proof.
  intros Hg. revert last. induction Hg as [|x vs Hnew Hcont Hg IH]; intros last Hans.
  { simpl. rewrite elem_of_nil. naive_solver. }
  assert (Hrest : last = Some (v_key x) → answered last vs).
  { intros -> k0 [= <-] w vs' ->. destruct (Hcont w vs' eq_refl); [by left|by right]. }
  assert (Hx : answered (Some (v_key x)) vs).
  { intros k0 [= <-] w vs' ->. destruct (Hcont w vs' eq_refl); [by left|by right]. }
  simpl. destruct (Z.leb_spec (v_seq x) open) as [Hv|Hv]; simpl; last first.
  { rewrite read_cons_other.
    - apply IH. intros k0 Hk0 w vs' ->. destruct (Hans k0 Hk0 x _ eq_refl) as [Heq|Hno].
      + subst k0. destruct (Hcont w vs' eq_refl); [by left|by right].
      + right. intros y Hy. apply Hno. by right.
    - unfold visible_at. rewrite (proj2 (Z.leb_gt _ _)) by lia. by rewrite andb_false_r. }
  destruct (decide (last = Some (v_key x))) as [Hl|Hl].
  { rewrite bool_decide_eq_true_2 by done. simpl. rewrite (IH last (Hrest Hl)).
    split; intros [Hk Hr]; split; try done.
    - rewrite read_cons_other; [done|]. unfold visible_at. rewrite bool_decide_eq_false_2; [done|].
      intros <-. done.
    - rewrite read_cons_other in Hr; [done|]. unfold visible_at. rewrite bool_decide_eq_false_2; [done|].
      intros <-. done. }
  rewrite bool_decide_eq_false_2 by done. simpl.
  destruct (decide (k = v_key x)) as [->|Hk].
  - rewrite read_cons_newest by done. destruct (v_op x).
    + rewrite elem_of_cons, (IH _ Hx). naive_solver.
    + rewrite (IH _ Hx). naive_solver.
  - assert (Hother : read open k (x :: vs) = read open k vs).
    { apply read_cons_other. unfold visible_at. rewrite bool_decide_eq_false_2 by congruence. done. }
    rewrite Hother.
    assert (Hlast : last = Some k → read open k vs = None).
    { intros Hlk. apply read_absent. destruct (Hans k Hlk x vs eq_refl) as [?|Hno]; [congruence|].
      intros y Hy. apply Hno. by right. }
    assert (Hvis : (k, v) ∈ vis open (Some (v_key x)) vs ↔ last ≠ Some k ∧ read open k vs = Some v).
    { rewrite (IH _ Hx). split; intros [? Hr]; split; try done; [|congruence].
      intros Hlk. by rewrite (Hlast Hlk) in Hr. }
    destruct (v_op x); [|exact Hvis]. rewrite elem_of_cons, Hvis. split; [|by right].
    intros [[= ? _]|?]; [congruence|done].
Qed.

Lemma vis_elem open last vs p :
  p ∈ vis open last vs → ∃ w, w ∈ vs ∧ v_key w = p.1 ∧ v_value w = p.2 ∧ v_op w = OpInsert.
Proof.
  revert last. induction vs as [|x vs IH]; intros last; simpl; [by rewrite elem_of_nil|].
  assert (Hr : ∀ l, p ∈ vis open l vs →
    ∃ w, w ∈ x :: vs ∧ v_key w = p.1 ∧ v_value w = p.2 ∧ v_op w = OpInsert).
  { intros l (w & ? & ?)%IH. exists w. split; [by right|done]. }
  destruct (_ && _); [|apply Hr]. destruct (v_op x) eqn:Eo; [|apply Hr].
  rewrite elem_of_cons. intros [->|?]; [|by eapply Hr]. exists x. split; [by left|done].
Qed.

Lemma answered_None vs : answered None vs.
Proof. by intros k [=]. Qed.
Lemma answered_next v vs last : grouped (v :: vs) → answered last (v :: vs) → answered last vs.
Proof.
  intros Hg Hans k Hk w vs' ->. inversion Hg as [|? ? _ Hc _]; subst.
  destruct (Hans k eq_refl v _ eq_refl) as [<-|Hno].
  - destruct (Hc w vs' eq_refl); [by left|by right].
  - right. intros y Hy. apply Hno. by right.
Qed.
Lemma answered_head v vs : grouped (v :: vs) → answered (Some (v_key v)) vs.
Proof.
  intros Hg k [= <-] w vs' ->. inversion Hg as [|? ? _ Hc _]; subst.
  destruct (Hc w vs' eq_refl); [by left|by right].
Qed.

(** No stored key is a proper prefix of another one. *)
Definition prefix_free (vs : list Version) : Prop :=
  ∀ a b, a ∈ vs → b ∈ vs → v_key a `prefix_of` v_key b → v_key a = v_key b.

Lemma cmp_app_incomparable (a b x y : bytes) :
  ¬ a `prefix_of` b → ¬ b `prefix_of` a → cmp (a ++ x) (b ++ y) = cmp a b.
Proof.
  revert b. induction a as [|c a IH]; intros [|d b] Hab Hba.
  - destruct Hab. by exists [].
  - destruct Hab. by exists (d :: b).
  - destruct Hba. by exists (c :: a).
  - change (match cmp c d with Eq => cmp (a ++ x) (b ++ y) | o => o end =
            match cmp c d with Eq => cmp a b | o => o end).
    destruct (cmp c d) eqn:E; [|done..]. apply cmp_eq in E as ->.
    apply IH; intros Hp; [apply Hab|apply Hba]; by apply prefix_cons.
Qed.

Lemma vis_sorted open last vs :
  store_ok vs → prefix_free vs → answered last vs → bt_wf (vis open last vs).
Proof.
  revert last. induction vs as [|x vs IH]; intros last Hok Hpf Hans; simpl; [constructor|].
  pose proof (store_ok_grouped _ Hok) as Hg. pose proof (store_ok_cons _ _ Hok) as Hok'.
  assert (Hpf' : prefix_free vs) by (intros a b ??; apply Hpf; by right).
  destruct (_ && _); [|by apply IH; [..|eapply answered_next]].
  assert (Hh := answered_head _ _ Hg). destruct (v_op x); [|by apply IH].
  constructor; [by apply IH|]. apply Forall_forall. intros [k v] Hin. unfold bt_lt. simpl.
  assert (Hne : k ≠ v_key x).
  { apply vis_spec in Hin as [? _]; [congruence|by apply store_ok_grouped|done]. }
  apply vis_elem in Hin as (w & Hw & Hk & _). simpl in Hk. subst k.
  destruct Hok as [Hs _ _ _]. inversion Hs as [|?? _ Hall]; subst. rewrite Forall_forall in Hall.
  assert (Hlt : bt_lt (raw x) (raw w)) by (apply Hall; by apply list_elem_of_fmap_2).
  unfold bt_lt, raw in Hlt. simpl in Hlt. rewrite !build_app, cmp_app_incomparable in Hlt; [done|..].
  - intros Hp. apply Hpf in Hp; [congruence|by left|by right].
  - intros Hp. apply Hpf in Hp; [congruence|by right|by left].
Qed.

(** ** The iterator implements [vis] *)
Section iterator_spec.
Context {I E : Type} `{LendingIterator I (raw_item E)}.
Implicit Types (m : MVCCRangeIterator I E) (rest : list (raw_item E)).

Definition raw_items (vs : list Version) : list (raw_item E) := List.map (λ v, inl (raw v)) vs.
Definition items (ks : Z) (kvs : list (bytes * bytes)) : list (mvcc_item E) :=
  List.map (λ kv : bytes * bytes, inl ((ks, kv.1), kv.2)) kvs.
(** The end of a scan, or an error item and whatever follows it. *)
Definition no_entry rest : Prop := match rest with inl _ :: _ => False | _ => True end.

Lemma find_next_state_step fuel m x p' p'' o :
  ver_ok x → Peek.peek (mv_iterator m) = Val (Some (inl (raw x)), p') → Peek.next p' = Val (o, p'') →
  Mvcc.find_next_state (S fuel) m =
    if (v_seq x <=? mv_open_sequence_number m) &&
       negb (bool_decide (mv_last_visible_key m = Some (v_key x)))
    then
      match v_op x with
      | OpInsert => Val (true, Mvcc.set_last (v_key x) (Mvcc.set_iterator p' m))
      | OpDelete => Mvcc.find_next_state fuel (Mvcc.set_last (v_key x) (Mvcc.set_iterator p'' m))
      end
    else Mvcc.find_next_state fuel (Mvcc.set_iterator p'' m).
Proof.
  intros [_ Hx] Hpk Hn. cbn [Mvcc.find_next_state]. rewrite Hpk. unfold raw.
  cbn [mbind exec_bind]. unfold MVCCKey.is_visible_to.
  rewrite sequence_number_build by (unfold is_u64; lia). rewrite key_build, operation_build.
  cbn [mbind exec_bind]. simpl mv_iterator. rewrite Hn. cbn [mbind exec_bind].
  destruct m; simpl. destruct (_ && _); [|done]. by destruct (v_op x).
Qed.

Lemma find_next_state_spec open fuel vs rest m :
  Forall ver_ok vs → no_entry rest → (length vs < fuel)%nat →
  mv_open_sequence_number m = open → mv_item m = None →
  yields (mv_iterator m) (raw_items vs ++ rest) →
  match vis open (mv_last_visible_key m) vs with
  | [] => ∃ m', Mvcc.find_next_state fuel m = Val (false, m') ∧
      mv_item m' = None ∧ yields (mv_iterator m') rest
  | kv :: kvs => ∃ m' x vs',
      Mvcc.find_next_state fuel m = Val (true, m') ∧
      (v_key x, v_value x) = kv ∧ kvs = vis open (Some (v_key x)) vs' ∧
      (length vs' < length vs)%nat ∧ Forall ver_ok vs' ∧
      mv_keyspace_id m' = mv_keyspace_id m ∧ mv_open_sequence_number m' = open ∧
      mv_last_visible_key m' = Some (v_key x) ∧ mv_item m' = None ∧
      ∃ it, Peek.next (mv_iterator m') = Val (Some (inl (raw x)), it) ∧
            yields it (raw_items vs' ++ rest)
  end.
Proof.
  intros Hok Hrest. revert m fuel.
  induction vs as [|x vs IH]; intros m fuel Hfuel Hopen Hitem Hy;
    (destruct fuel as [|fuel]; [simpl in Hfuel; lia|]);
    destruct (Peek.peek_yields _ _ Hy) as (p' & Hpk & Hyp & Hnext).
  - cbn [Mvcc.find_next_state]. rewrite Hpk. cbn [vis mbind exec_bind]. simpl in *.
    destruct rest as [|[?|e] rest]; [|done|]; by eexists.
  - cbn [vis head raw_items List.map app] in *.
    destruct (Hnext _ _ eq_refl) as (Hn & Hy').
    inversion Hok as [|?? Hx Hok']; subst. simpl in Hfuel.
    rewrite (find_next_state_step _ _ _ _ _ _ Hx Hpk Hn).
    assert (Hcont : ∀ last, let m1 := mk_MVCCRangeIterator (mv_keyspace_id m)
        (mk_Peekable (pk_iter p') None) (mv_open_sequence_number m) last (mv_item m) in _)
      by (intros last m1; exact (IH Hok' m1 fuel ltac:(lia) eq_refl Hitem Hy')).
    simpl in Hcont. destruct (_ && _) eqn:Ev; [destruct (v_op x) eqn:Eo|].
    + eexists _, x, vs. split; [reflexivity|]. split_and!; try done; try (simpl; lia).
      by eexists.
    + specialize (Hcont (Some (v_key x))). destruct (vis _ _ vs) as [|kv kvs]; [exact Hcont|].
      destruct Hcont as (m' & x' & vs' & Hf & Hkv & Hkvs & Hlen & Hr). exists m', x', vs'.
      do 3 (split; [assumption|]). split; [simpl; lia|exact Hr].
    + specialize (Hcont (mv_last_visible_key m)).
      destruct (vis _ _ vs) as [|kv kvs]; [exact Hcont|].
      destruct Hcont as (m' & x' & vs' & Hf & Hkv & Hkvs & Hlen & Hr). exists m', x', vs'.
      do 3 (split; [assumption|]). split; [simpl; lia|exact Hr].
Qed.

Lemma mvcc_dead fuel rest m :
  no_entry rest → (0 < fuel)%nat → mv_item m = None → yields (mv_iterator m) rest →
  dead (H:=Mvcc.next fuel) m.
Proof.
  intros Hrest Hfuel Hi Hy.
  apply (dead_ind (H:=Mvcc.next fuel) (λ m, mv_item m = None ∧ yields (mv_iterator m) rest)); [|done].
  clear m Hi Hy. intros m [Hi Hy].
  destruct (find_next_state_spec _ fuel [] rest m ltac:(constructor) Hrest Hfuel eq_refl Hi Hy)
    as (m' & Hf & ? & ?).
  exists m'. split; [|done]. unfold li_next, Mvcc.next. by rewrite Hi, Hf.
Qed.

Lemma mvcc_yields fuel vs rest m :
  Forall ver_ok vs → no_entry rest → (length vs < fuel)%nat → mv_item m = None →
  yields (mv_iterator m) (raw_items vs ++ rest) →
  yields (H:=Mvcc.next fuel) m
    (items (mv_keyspace_id m) (vis (mv_open_sequence_number m) (mv_last_visible_key m) vs)).
Proof.
  remember (length vs) as n eqn:Hn. revert vs m Hn.
  induction n as [n IH] using lt_wf_ind. intros vs m -> Hok Hrest Hfuel Hitem Hy.
  pose proof (find_next_state_spec _ fuel vs rest m Hok Hrest Hfuel eq_refl Hitem Hy) as Hf.
  destruct (vis _ _ vs) as [|kv kvs].
  - destruct Hf as (m' & Hf & ? & ?). constructor. apply (dead_step (H:=Mvcc.next fuel) m m').
    + unfold li_next, Mvcc.next. by rewrite Hitem, Hf.
    + apply (mvcc_dead fuel rest); [done|lia|done|done].
  - destruct Hf as (m' & x & vs' & Hf & <- & -> & Hlen & Hok' & Hks & Ho & Hl & Hi & it & Hnext & Hy').
    simpl. econstructor.
    + unfold li_next, Mvcc.next. rewrite Hitem, Hf. cbn [mbind exec_bind]. rewrite Hnext.
      cbn [mbind exec_bind]. unfold raw at 1. rewrite key_build. cbn [mbind exec_bind].
      rewrite <-Hks. reflexivity.
    + specialize (IH (length vs') Hlen vs' (Mvcc.set_iterator it m') eq_refl Hok' Hrest
        ltac:(lia) Hi Hy').
      cbn [Mvcc.set_iterator mv_keyspace_id mv_open_sequence_number mv_last_visible_key] in IH.
      by rewrite Hks, Ho, Hl in IH.
Qed.
End iterator_spec.

Lemma vis_NoDup open last vs : grouped vs → answered last vs → NoDup (vis open last vs).*1.
Proof.
  intros Hg. revert last. induction Hg as [|x vs Hnew Hcont Hg IH]; intros last Hans; simpl; [constructor|].
  assert (Hg' : grouped (x :: vs)) by (by constructor).
  pose proof (answered_head _ _ Hg') as Hh.
  destruct (_ && _); [|by eapply IH, answered_next]. destruct (v_op x); [|by apply IH].
  csimpl. constructor; [|by apply IH]. intros [[k v] [Heq Hin]]%list_elem_of_fmap_1. simpl in *.
  apply vis_spec in Hin as [? _]; [congruence|done|done].
Qed.

(** C9: a snapshot scan is a read of the version store.  Over any keyspace
    iterator that yields the raw entries of a well-formed store in order, the
    MVCC iterator terminates and yields, once per key, exactly the pairs
    [(k, v)] such that the newest version of [k] at or below the snapshot's
    sequence number is an insert of [v]; deleted keys, overwritten versions and
    versions committed later are not returned.  If no stored key is a proper
    prefix of another, the keys come out in increasing order. *)
Theorem mvcc_scan_reads_snapshot {I E} `{LendingIterator I (raw_item E)} fuel vs ks (it : I) open :
  store_ok vs → (length vs < fuel)%nat → yields it (raw_items vs) →
  ∃ out, yields (H:=Mvcc.next fuel) (Mvcc.new ks it open) (items ks out) ∧
    NoDup out.*1 ∧ (∀ k v, (k, v) ∈ out ↔ read open k vs = Some v) ∧
    (prefix_free vs → bt_wf out).
Proof.
  intros Hok Hfuel Hy. pose proof (store_ok_grouped _ Hok) as Hg.
  exists (vis open None vs). split_and!.
  - apply (mvcc_yields fuel vs [] (Mvcc.new ks it open)); [apply Hok|done|done|done|].
    rewrite app_nil_r. by apply Peek.yields_new.
  - apply vis_NoDup; [done|apply answered_None].
  - intros k v. rewrite vis_spec by (done || apply answered_None). split; [by intros []|done].
  - intros Hpf. apply vis_sorted; [done..|apply answered_None].
Qed.

(** A scan over a list, for concrete runs. *)
Definition list_next {A} : LendingIterator (list A) A := λ l,
  match l with [] => Val (None, []) | x :: l' => Val (Some x, l') end.
Lemma list_yields {A} (l : list A) : yields (H:=list_next) l l.
Proof. induction l as [|x l IH]; [by constructor; apply dead_loop|]. by econstructor. Qed.

Definition example_versions : list Version :=
  [mk_Version [1; 1] 9 OpDelete []; mk_Version [1; 1] 4 OpInsert [41];
   mk_Version [1; 2] 7 OpInsert [27]; mk_Version [1; 2] 3 OpInsert [23]].
Lemma example_versions_ok : store_ok example_versions.
Proof.
  split.
  - repeat constructor.
  - repeat constructor; simpl; unfold is_byte; lia.
  - intros a b Ha Hb. unfold example_versions in *. set_unfold. naive_solver.
  - intros a b c t Ha Hb. unfold example_versions in *. set_unfold. naive_solver.
Qed.
Lemma mvcc_scan_reads_snapshot_witness :
  ∃ out : list (bytes * bytes),
    yields (H:=Mvcc.next (E:=Empty_set) (H:=list_next) 5) (Mvcc.new 0 (raw_items example_versions) 5) (items 0 out) ∧
    ([1; 1], [41]) ∈ out ∧ ([1; 2], [23]) ∈ out.
Proof.
  destruct (mvcc_scan_reads_snapshot (E:=Empty_set) (H:=list_next) 5 example_versions 0
    (raw_items example_versions) 5) as (out & Hy & _ & Hin & _);
    [exact example_versions_ok|simpl; lia|apply list_yields|].
  exists out. split; [exact Hy|]. split; apply Hin; reflexivity.
Defined.

(** A read error of the keyspace ends a snapshot scan silently.  When the
    keyspace iterator yields some entries and then an error, the MVCC iterator
    yields the visible part of those entries and then [None]: no error item is
    ever returned, and the result is that of a scan that had nothing more to
    read. *)
Lemma mvcc_scan_swallows_errors {I E} `{LendingIterator I (raw_item E)} fuel vs rest (e : E) ks (it : I) open :
  Forall ver_ok vs → (length vs < fuel)%nat → yields it (raw_items vs ++ inr e :: rest) →
  yields (H:=Mvcc.next fuel) (Mvcc.new ks it open) (items ks (vis open None vs)).
Proof.
  intros Hok Hfuel Hy.
  by apply (mvcc_yields fuel vs (inr e :: rest) (Mvcc.new ks it open)); [..|apply Peek.yields_new].
Qed.
Lemma mvcc_scan_swallows_errors_witness :
  yields (H:=Mvcc.next (E:=nat) (H:=list_next) 5)
    (Mvcc.new 0 (raw_items example_versions ++ [inr 7%nat]) 5)
    [inl ((0, [1; 1]), [41]); inl ((0, [1; 2]), [23])].
Proof.
  apply (mvcc_scan_swallows_errors (H:=list_next) 5 example_versions [] 7%nat);
    [apply example_versions_ok|simpl; lia|apply list_yields].
Defined.

(** When a key extends another one by a byte [0xFF] the versions of the shorter
    key are not contiguous, and a deleted key comes back. *)
Example extension_by_ff_resurrects :
  let vs := [mk_Version [1] 9 OpDelete [];
             mk_Version [1; 255; 255; 255; 255; 255; 255; 255; 247; 0] 2 OpInsert [77];
             mk_Version [1] 4 OpInsert [41]] in
  bt_wf (raw <$> vs) ∧ read 10 [1] vs = None ∧ ([1], [41]) ∈ vis 10 None vs.
Proof. split_and!; [repeat constructor|reflexivity|]. vm_compute. right. left. Qed.

(** ** Point reads *)
Lemma memory_yields {E} fuel r l :
  RangeIter.collect fuel r = Val l → yields (Item:=raw_item E) r (List.map inl l).
Proof.
  revert r l. induction fuel as [|fuel IH]; intros r l; simpl; [done|].
  destruct (RangeIter.next r) as [[[kv|] r']| |] eqn:En; simpl; try done.
  - destruct (RangeIter.collect fuel r') as [l'| |] eqn:Ec; simpl; try done. intros [= <-]. simpl.
    econstructor; [|by apply IH]. unfold li_next, memory_range_next. by rewrite En.
  - intros [= <-]. constructor. eapply dead_step; [unfold li_next, memory_range_next; by rewrite En|].
    apply dead_loop. unfold li_next, memory_range_next, RangeIter.next.
    assert (ri_is_finished r' = true) as ->; [|done].
    unfold RangeIter.next in En. destruct (ri_is_finished r) eqn:Ef; [by injection En as <-|].
    destruct (MemIter.next _) as [[kv|] it]; [|by injection En as <-].
    destruct (RangeIter.accept_value _ _) as [[]| |]; simpl in En; simplify_eq; done.
Qed.

Lemma get_loop_spec {V} fuel key (mapper : bytes → V) rounds it ks out :
  yields (H:=Mvcc.next fuel) it (items ks out) → (length out < rounds)%nat →
  MVCCStorage.get_loop fuel key mapper rounds it =
  Val (mapper <$> (snd <$> List.find (λ kv : bytes * bytes, bool_decide (kv.1 = key)) out)).
Proof.
  revert rounds it. induction out as [|[k v] out IH]; intros rounds it Hy Hr;
    (destruct rounds as [|rounds]; [simpl in Hr; lia|]); simpl in Hr |- *.
  - inversion Hy as [? Hd|]; subst. apply dead_next in Hd as (it' & Hn & _).
    unfold li_next in Hn. by rewrite Hn.
  - inversion Hy as [|? it' ? ? Hn Hy']; subst. unfold li_next in Hn. rewrite Hn.
    case_bool_decide; [done|]. apply IH; [done|lia].
Qed.

Lemma find_assoc (out : list (bytes * bytes)) k r :
  (∀ v, (k, v) ∈ out ↔ r = Some v) →
  snd <$> List.find (λ kv : bytes * bytes, bool_decide (kv.1 = k)) out = r.
Proof.
  intros Hin. destruct (List.find _ out) as [[k' v']|] eqn:E; simpl.
  - apply List.find_some in E as [Hi Hk%bool_decide_eq_true]. simpl in Hk. subst k'.
    symmetry. apply Hin. by apply list_elem_of_In.
  - destruct r as [v|]; [|done]. destruct (Hin v) as [_ Hi]. specialize (Hi eq_refl).
    apply list_elem_of_In in Hi. apply (List.find_none _ _ E) in Hi. simpl in Hi.
    by rewrite bool_decide_eq_true_2 in Hi.
Qed.

Lemma list_filter_fmap {A B} (f : A → B) (p : B → bool) l :
  List.filter p (f <$> l) = f <$> List.filter (λ x, p (f x)) l.
Proof. induction l as [|x l IH]; csimpl; [done|]. destruct (p (f x)); csimpl; by rewrite IH. Qed.

Lemma elem_of_list_filter_bool {A} (p : A → bool) l x : x ∈ List.filter p l ↔ x ∈ l ∧ p x = true.
Proof. rewrite !list_elem_of_In. apply List.filter_In. Qed.

Lemma store_ok_filter p vs : store_ok vs → store_ok (List.filter p vs).
Proof.
  intros [Hs Hv Hu Hp]. split.
  - clear -Hs. induction vs as [|x vs IH]; simpl; [constructor|].
    inversion Hs as [|?? Hs' Hall]; subst. destruct (p x); [|by apply IH]. csimpl.
    constructor; [by apply IH|]. apply Forall_forall. intros y (w & -> & Hw)%list_elem_of_fmap_1.
    apply elem_of_list_filter_bool in Hw as [Hw _]. rewrite Forall_forall in Hall. apply Hall.
    by apply list_elem_of_fmap_2.
  - apply Forall_forall. intros x [Hx _]%elem_of_list_filter_bool. rewrite Forall_forall in Hv. by apply Hv.
  - intros a b [Ha _]%elem_of_list_filter_bool [Hb _]%elem_of_list_filter_bool. by apply Hu.
  - intros a b c t [Ha _]%elem_of_list_filter_bool [Hb _]%elem_of_list_filter_bool. by apply Hp.
Qed.

Lemma scan_yields fuel ks b range q open vs :
  (length (mb_data b) < fuel)%nat → mb_data b = raw <$> vs → store_ok vs → mb_poisoned b = false →
  is_bytes (start_value (range_start range)) → RangeIter.start_prefix (range_start range) = Val q →
  Forall (λ kv, sliceable (RangeIter.condition_of range) kv.1) (mb_data b) →
  let vs' := List.filter (λ v, in_range range q (raw v).1) vs in
  ∃ m, MVCCStorage.iterate_range ks b range open = Val m ∧
    yields (H:=Mvcc.next fuel) m (items ks (vis open None vs')).
Proof.
  intros Hfuel Hd Hok Hpo Hb Hq Hsl vs'.
  destruct (iterate_range_filter range b q) as (r & Hr & Hc); [|done|done|done|done|].
  { unfold mb_wf. rewrite Hd. apply Hok. }
  exists (Mvcc.new ks r open). split.
  { unfold MVCCStorage.iterate_range.
    replace (map (λ key, key) (λ fixed, fixed) range) with range; [by rewrite Hr|].
    destruct range as [[] [] []]; reflexivity. }
  apply (mvcc_yields _ vs' [] (Mvcc.new ks r open)); [|done| |done|].
  - apply store_ok_filter, Hok.
  - rewrite Hd, length_fmap in Hfuel. unfold vs'.
    pose proof (List.filter_length_le (λ v, in_range range q (raw v).1) vs). lia.
  - apply Peek.yields_new. rewrite app_nil_r.
    replace (raw_items vs') with (List.map (@inl (bytes * bytes) KeyspaceError) (raw <$> vs')); last first.
    { unfold raw_items. apply List.map_map. }
    apply (memory_yields (E:=KeyspaceError)) in Hc. rewrite Hd, list_filter_fmap in Hc. exact Hc.
Qed.

Lemma raw_starts_with v : starts_with (raw v).1 (v_key v) = true.
Proof. apply starts_with_prefix_of. unfold raw. simpl. rewrite build_app. by eexists. Qed.

(** A point read of the in-memory build returns the value of the newest
    version of the key at or below the snapshot's sequence number if it is an
    insert, and nothing otherwise: the range scan it is implemented by
    terminates, does not panic and is not confused by longer keys that share
    the prefix. *)
Lemma get_mapped_spec {V} ks b key open (mapper : bytes → V) vs :
  mb_data b = raw <$> vs → store_ok vs → mb_poisoned b = false → is_bytes key →
  MVCCStorage.get_mapped ks b key open mapper = Val (mapper <$> read open key vs).
Proof.
  intros Hd Hok Hpo Hkey. unfold MVCCStorage.get_mapped.
  set (range := new_within key false).
  destruct (scan_yields (S (length (mb_data b))) ks b range key open vs) as (m & -> & Hy);
    [lia|done|done|done|done|done| |].
  { apply Forall_forall. by intros. }
  set (vs' := List.filter _ vs) in Hy.
  assert (Hok' : store_ok vs') by (by apply store_ok_filter).
  assert (Hlen : (length (vis open None vs') ≤ length vs')%nat).
  { generalize (@None bytes) as last. clear. induction vs' as [|x vs' IH]; intros last; simpl; [lia|].
    destruct (_ && _); [destruct (v_op x)|]; simpl; rewrite ?IH; try lia;
      try (etrans; [apply IH|lia]). apply le_n_S, IH. }
  rewrite (get_loop_spec _ _ _ _ _ ks _ Hy); last first.
  { rewrite Hd, length_fmap. pose proof (List.filter_length_le (λ v, in_range range key (raw v).1) vs).
    unfold vs' in *. lia. }
  do 2 f_equal. apply find_assoc. intros v.
  rewrite vis_spec by (by apply store_ok_grouped || apply answered_None).
  assert (read open key vs' = read open key vs) as ->.
  { unfold read. rewrite (latest_set open key vs' vs); [done|apply Hok'|].
    intros x Hx. unfold vs'. rewrite elem_of_list_filter_bool. split; [by intros []|].
    intros ?. split; [done|]. subst key. unfold in_range. apply andb_true_iff. split.
    - apply leb_le. unfold raw. simpl. rewrite build_app. apply list_cmp_prefix.
    - apply raw_starts_with. }
  split; [by intros []|done].
Qed.

Example get_mapped_example :
  let b := mk_MemoryBackend (raw <$> example_versions) false [] in
  MVCCStorage.get_mapped 0 b [1; 1] 12 (@length Z) = Val None ∧
  MVCCStorage.get_mapped 0 b [1; 1] 8 (@length Z) = Val (Some 1%nat).
Proof.
  intros b. split; rewrite (get_mapped_spec 0 b [1; 1] _ (@length Z) example_versions);
    [reflexivity|reflexivity|apply example_versions_ok|reflexivity|repeat constructor; unfold is_byte; lia|
     reflexivity|reflexivity|apply example_versions_ok|reflexivity|repeat constructor; unfold is_byte; lia].
Defined.

(** ** Applying a commit *)
Definition version_of (seq : Z) (kw : bytes * Write) : option Version :=
  match kw.2 with
  | Insert value | Put value true _ => Some (mk_Version kw.1 seq OpInsert value)
  | Put _ false _ => None
  | Delete => Some (mk_Version kw.1 seq OpDelete [])
  end.

(** What a buffered write makes of the value read before it. *)
Definition overlay (w : option Write) (old : option bytes) : option bytes :=
  match w with
  | Some (Insert value) | Some (Put value true _) => Some value
  | Some (Put _ false _) | None => old
  | Some Delete => None
  end.

Lemma put_of_version seq kw :
  Batches.put_of seq kw = (λ v, WPut (raw v).1 (raw v).2) <$> version_of seq kw.
Proof. destruct kw as [k [v|v [] r|]]; reflexivity. Qed.
Lemma batch_versions seq (ws : list (bytes * Write)) :
  omap (Batches.put_of seq) ws = (λ v, WPut (raw v).1 (raw v).2) <$> omap (version_of seq) ws.
Proof.
  induction ws as [|kw ws IH]; csimpl; [done|]. rewrite put_of_version, IH.
  by destruct (version_of seq kw).
Qed.
Lemma version_of_key seq kw v : version_of seq kw = Some v → v_key v = kw.1 ∧ v_seq v = seq.
Proof. destruct kw as [k [?|? [] ?|]]; simpl; intros [= <-]; done. Qed.

Lemma insert_version v vs :
  (∀ x, x ∈ vs → (raw x).1 ≠ (raw v).1) →
  ∃ vs', bt_insert (raw v).1 (raw v).2 (raw <$> vs) = raw <$> vs' ∧ ∀ x, x ∈ vs' ↔ x = v ∨ x ∈ vs.
Proof.
  induction vs as [|y vs IH]; intros Hf.
  - exists [v]. split; [done|]. intros x. rewrite list_elem_of_singleton, elem_of_nil. tauto.
  - csimpl. destruct (cmp (raw v).1 (raw y).1) eqn:E.
    + apply cmp_eq in E. destruct (Hf y ltac:(by left)). done.
    + exists (v :: y :: vs). split; [unfold raw in *; simpl in *; by rewrite E|].
      intros x. by rewrite elem_of_cons.
    + destruct IH as (vs' & Hi & He); [intros x ?; apply Hf; by right|].
      exists (y :: vs'). split; [unfold raw in *; csimpl; simpl in *; by rewrite E, Hi|].
      intros x. rewrite !elem_of_cons, He. tauto.
Qed.

Lemma insert_versions (new vs : list Version) :
  NoDup (fst ∘ raw <$> new) → (∀ x y, x ∈ vs → y ∈ new → (raw x).1 ≠ (raw y).1) →
  ∃ vs', fold_left Memory.write_op ((λ v, WPut (raw v).1 (raw v).2) <$> new) (raw <$> vs) = raw <$> vs' ∧
    ∀ x, x ∈ vs' ↔ x ∈ new ∨ x ∈ vs.
Proof.
  revert vs. induction new as [|v new IH]; intros vs Hnd Hf; csimpl in *.
  { exists vs. split; [done|]. intros x. rewrite elem_of_nil. tauto. }
  inversion Hnd as [|?? Hv Hnd']; subst.
  destruct (insert_version v vs) as (vs1 & Hi & He); [intros x ?; apply Hf; [done|by left]|].
  destruct (IH vs1 Hnd') as (vs2 & Hi2 & He2).
  { intros x y [->|Hx]%He Hy; [|apply Hf; [done|by right]].
    intros Heq. apply Hv. apply list_elem_of_fmap. exists y. done. }
  exists vs2. split; [rewrite <-Hi2, <-Hi; done|].
  intros x. rewrite He2, He, elem_of_cons. tauto.
Qed.

Lemma raw_inj v w :
  ver_ok v → ver_ok w → (raw v).1 = (raw w).1 → v_key v = v_key w ∧ v_seq v = v_seq w.
Proof.
  intros [_ Hv] [_ Hw] Heq. unfold raw in Heq. simpl in Heq. split.
  - pose proof (key_build (v_key v) (v_seq v) (v_op v)) as H1. rewrite Heq, key_build in H1. congruence.
  - pose proof (sequence_number_build (v_key v) (v_seq v) (v_op v) ltac:(unfold is_u64; lia)) as H1.
    rewrite Heq, sequence_number_build in H1 by (unfold is_u64; lia). congruence.
Qed.

Lemma write_ops_sorted (new : list Version) d :
  bt_wf d → bt_wf (fold_left Memory.write_op ((λ v, WPut (raw v).1 (raw v).2) <$> new) d).
Proof.
  revert d. induction new as [|v n IH]; intros d Hd; csimpl; [done|]. apply IH. by apply bt_wf_insert.
Qed.

Definition commit_separated (vs : list Version) (wb : WriteBuffer) : Prop :=
  ∀ a b c t, (a ∈ v_key <$> vs ∨ a ∈ (wb_writes wb).*1) → (b ∈ v_key <$> vs ∨ b ∈ (wb_writes wb).*1) →
    b = a ++ c :: t → c ≠ 255.

Section commit.
Context (seq : Z) (vs : list Version) (wb : WriteBuffer).
Context (Hseq : 0 ≤ seq < 2 ^ 56) (Hok : store_ok vs) (Hold : Forall (λ v, v_seq v < seq) vs).
Context (Hwb : wb_wf wb) (Hkeys : Forall is_bytes (wb_writes wb).*1) (Hsep : commit_separated vs wb).
Let new := omap (version_of seq) (wb_writes wb).

Lemma new_elem v : v ∈ new ↔ ∃ w, bt_get (v_key v) (wb_writes wb) = Some w ∧
  version_of seq (v_key v, w) = Some v.
Proof.
  unfold new. rewrite list_elem_of_omap. split.
  - intros ([k w] & Hin & Hv). destruct (version_of_key _ _ _ Hv) as [Hk _]. simpl in Hk. subst k.
    exists w. split; [|done]. by apply bt_get_elem.
  - intros (w & Hg & Hv). exists (v_key v, w). split; [|done]. by apply bt_get_elem.
Qed.

Lemma new_ok v : v ∈ new → ver_ok v ∧ v_seq v = seq.
Proof.
  intros (w & Hg & Hv)%new_elem. destruct (version_of_key _ _ _ Hv) as [_ Hs].
  split; [|done]. split; [|lia]. rewrite Forall_forall in Hkeys. apply Hkeys.
  apply bt_get_elem in Hg; [|done]. apply list_elem_of_fmap. by exists (v_key v, w).
Qed.

Lemma new_unique v w : v ∈ new → w ∈ new → v_key v = v_key w → v = w.
Proof.
  intros (u & Hg & Hv)%new_elem (u' & Hg' & Hv')%new_elem Hk. rewrite Hk in Hg.
  rewrite Hg in Hg'. injection Hg' as <-. rewrite Hk in Hv. congruence.
Qed.

Lemma new_NoDup : NoDup (fst ∘ raw <$> new).
Proof.
  apply (NoDup_fmap_2_strong (fst ∘ raw)).
  - intros v w Hv Hw Heq. simpl in Heq. apply new_unique; [done..|].
    by apply raw_inj in Heq as [? _]; [|by apply new_ok..].
  - unfold new. clear Hkeys Hsep. induction Hwb as [|[k w] ws Hws IH Hlt]; csimpl; [constructor|].
    destruct (version_of seq (k, w)) as [v|] eqn:Ev; [|done]. constructor; [|done].
    intros ([k' w'] & Hin & Hv)%list_elem_of_omap.
    apply version_of_key in Ev as [Hk _], Hv as [Hk' _]. simpl in *.
    rewrite Forall_forall in Hlt. apply Hlt in Hin. unfold bt_lt in Hin. simpl in Hin.
    rewrite <-Hk, <-Hk' in Hin. by apply cmp_irrefl in Hin.
Qed.

Lemma commit_store :
  ∃ vs', fold_left Memory.write_op (omap (Batches.put_of seq) (wb_writes wb)) (raw <$> vs) = raw <$> vs' ∧
    store_ok vs' ∧ ∀ x, x ∈ vs' ↔ x ∈ new ∨ x ∈ vs.
Proof.
  destruct (insert_versions new vs new_NoDup) as (vs' & Hf & He).
  { intros x y Hx Hy Heq. rewrite Forall_forall in Hold. specialize (Hold x Hx).
    apply raw_inj in Heq as [_ ?]; [destruct (new_ok y Hy); lia| |by apply new_ok].
    destruct Hok as [_ Hv _ _]. rewrite Forall_forall in Hv. by apply Hv. }
  exists vs'. rewrite batch_versions. split_and!; [done| |done]. split.
  - rewrite <-Hf. apply write_ops_sorted, Hok.
  - apply Forall_forall. intros x [Hx|Hx]%He; [by apply new_ok|].
    destruct Hok as [_ Hv _ _]. rewrite Forall_forall in Hv. by apply Hv.
  - rewrite Forall_forall in Hold. intros a b [Ha|Ha]%He [Hb|Hb]%He Hk Hs.
    + by apply new_unique.
    + apply new_ok in Ha as [_ ?]. specialize (Hold b Hb). lia.
    + apply new_ok in Hb as [_ ?]. specialize (Hold a Ha). lia.
    + by apply Hok.
  - assert (Hin : ∀ x, x ∈ vs' → v_key x ∈ v_key <$> vs ∨ v_key x ∈ (wb_writes wb).*1).
    { intros x [Hx|Hx]%He; [|left; by apply list_elem_of_fmap_2].
      right. apply new_elem in Hx as (w & Hg & _). apply bt_get_elem in Hg; [|done].
      apply list_elem_of_fmap. by exists (v_key x, w). }
    intros a b c t Ha Hb Heq. apply (Hsep (v_key a) (v_key b) c t); auto.
Qed.

Lemma commit_read vs' k open :
  (∀ x, x ∈ vs' ↔ x ∈ new ∨ x ∈ vs) → store_ok vs' →
  read open k vs' = if open <? seq then read open k vs
                    else overlay (bt_get k (wb_writes wb)) (read open k vs).
Proof.
  intros He Hok'. rewrite Forall_forall in Hold.
  assert (Hskip : (∀ v, v ∈ new → v_key v = k → open < seq) → read open k vs' = read open k vs).
  { intros Hs. unfold read. assert (latest open k vs' = latest open k vs) as ->; [|done].
    destruct (latest open k vs) as [w|] eqn:E.
    - apply latest_Some in E as (Hw & Hk & Ho & Hm).
      destruct (latest open k vs') as [w'|] eqn:E'; last first.
      { rewrite latest_None in E'. specialize (E' w ltac:(apply He; by right) Hk). lia. }
      apply latest_Some in E' as (Hw' & Hk' & Ho' & Hm').
      apply He in Hw' as [Hn|Hw']; [destruct (new_ok _ Hn); specialize (Hs _ Hn Hk'); lia|].
      specialize (Hm _ Hw' Hk' Ho'). specialize (Hm' w ltac:(apply He; by right) Hk Ho).
      f_equal. apply Hok; [done|done|congruence|lia].
    - apply latest_None. intros x [Hn|Hx]%He Hk; [destruct (new_ok _ Hn); specialize (Hs _ Hn Hk); lia|].
      by eapply latest_None. }
  destruct (Z.ltb_spec open seq) as [Hlt|Hge]; [by apply Hskip|].
  destruct (bt_get k (wb_writes wb)) as [w|] eqn:Eg; last first.
  { apply Hskip. intros v (w & Hg & _)%new_elem <-. congruence. }
  destruct (version_of seq (k, w)) as [v|] eqn:Ev; last first.
  { assert (overlay (Some w) (read open k vs) = read open k vs) as -> by (by destruct w as [|? [] ?|]).
    apply Hskip. intros v (w' & Hg & Hv)%new_elem <-. congruence. }
  destruct (version_of_key _ _ _ Ev) as [Hk Hs]. simpl in Hk. subst k.
  assert (Hv : v ∈ new) by (apply new_elem; by exists w).
  assert (Hl : latest open (v_key v) vs' = Some v).
  { destruct (latest open (v_key v) vs') as [u|] eqn:E.
    - apply latest_Some in E as (Hu & Hku & Hou & Hm). f_equal.
      specialize (Hm v ltac:(apply He; by left) eq_refl ltac:(lia)).
      apply He in Hu as [Hu|Hu]; [by apply new_unique|]. specialize (Hold u Hu). lia.
    - rewrite latest_None in E. specialize (E v ltac:(apply He; by left) eq_refl). lia. }
  unfold read. rewrite Hl. clear -Ev. unfold version_of in Ev.
  destruct v, w as [?|? [] ?|]; simpl in *; simplify_eq; done.
Qed.
End commit.

(** C8: a commit becomes visible atomically and exactly at its sequence number,
    where no key, stored or written, extends another one by a byte 0xFF
    (without that a deleted version can come back, example
    [extension_by_ff_resurrects]). Writing a commit's batch with a sequence
    number below 2^56 and at least one write into an unpoisoned keyspace that
    is well formed (versions sorted by raw key, one per key and number) and
    whose versions are all older succeeds, keeps the keyspace well formed,
    leaves every read below the commit's sequence number as it was, and makes
    every read at or above it see the buffered write of the key if there is one
    (inserted value, deletion, put re-inserted if marked) and the previous
    value otherwise. *)
Theorem commit_visible_from_its_sequence_number seq vs wb b :
  0 ≤ seq < 2 ^ 56 → mb_data b = raw <$> vs → mb_poisoned b = false → store_ok vs →
  Forall (λ v, v_seq v < seq) vs → wb_wf wb → wb_writes wb ≠ [] →
  Forall is_bytes (wb_writes wb).*1 → commit_separated vs wb →
  ∃ batch b' vs', Batches.batch_of seq wb = Some batch ∧ Memory.write_batch batch b = Val b' ∧
    mb_data b' = raw <$> vs' ∧ store_ok vs' ∧
    ∀ k open, read open k vs' = if open <? seq then read open k vs
                                else overlay (bt_get k (wb_writes wb)) (read open k vs).
Proof.
  intros Hseq Hd Hpo Hok Hold Hwb Hne Hkeys Hsep.
  destruct (commit_store seq vs wb) as (vs' & Hf & Hok' & He); [done..|].
  exists (omap (Batches.put_of seq) (wb_writes wb)), (Memory.set_data (raw <$> vs') b), vs'. split_and!.
  - unfold Batches.batch_of. by destruct (wb_writes wb).
  - unfold Memory.write_batch, Memory.locked. rewrite Hpo, Hd. cbn [mbind exec_bind]. by rewrite Hf.
  - done.
  - done.
  - intros k open. by apply commit_read.
Qed.
Lemma commit_visible_from_its_sequence_number_witness :
  let b := mk_MemoryBackend (raw <$> example_versions) false [] in
  let wb := mk_WriteBuffer 0 [([1; 1], Insert [50]); ([1; 2], Delete)] in
  ∃ b' vs', Memory.write_batch [WPut (MVCCKey.build [1; 1] 12 OpInsert) [50];
                                WPut (MVCCKey.build [1; 2] 12 OpDelete) []] b = Val b' ∧
    mb_data b' = raw <$> vs' ∧ read 12 [1; 1] vs' = Some [50] ∧ read 11 [1; 1] vs' = None ∧
    read 12 [1; 2] vs' = None ∧ read 11 [1; 2] vs' = Some [27].
Proof.
  intros b wb.
  destruct (commit_visible_from_its_sequence_number 12 example_versions wb b) as
    (batch & b' & vs' & Hb & Hw & Hd & _ & Hr).
  - lia.
  - reflexivity.
  - reflexivity.
  - exact example_versions_ok.
  - repeat constructor; simpl; lia.
  - repeat constructor.
  - discriminate.
  - repeat constructor; unfold is_byte; simpl; lia.
  - intros x y c t Hx Hy. simpl in Hx, Hy. set_unfold. naive_solver.
  - exists b', vs'. injection Hb as <-. split; [exact Hw|]. split; [exact Hd|]. rewrite !Hr. repeat split.
Defined.
