(* ===== verification/Keyspaces.v ===== *)
(** * Keyspaces of the in-memory build: [storage/keyspace/keyspace.rs]

    [Keyspaces] is a vector of keyspaces with a ten-entry index from keyspace id
    to position; a [Keyspace] is a [MemoryBackend] with its name and id.  The
    file models opening with its validation, lookup, batched writes, reset,
    estimates, and the snapshot format of [export_snapshot_with_watermark] /
    [import_snapshot_with_watermark] with its round trip. *)
From S2P Require Import Prelude BTree Bytes MemoryStore Buffer LendingIter Mvcc.

Definition KEYSPACE_ID_MAX : Z := Z.of_nat KEYSPACE_MAXIMUM_COUNT - 1.
Definition KEYSPACE_ID_RESERVED_UNSET : Z := KEYSPACE_ID_MAX + 1.

(** An item of a [KeyspaceSet]. *)
Record KeyspaceDef := mk_KeyspaceDef {
  kd_id : Z;
  kd_name : bytes;
  kd_prefix_length : option nat;
}.

Record Keyspace := mk_Keyspace {
  k_backend : MemoryBackend;
  k_name : bytes;
  k_id : Z;
  k_prefix_length : option nat;
}.

Record Keyspaces := mk_Keyspaces {
  kss_keyspaces : list Keyspace;
  kss_index : list (option Z);
}.

Inductive KeyspaceValidationError :=
| IdReserved (name : bytes) (id : Z)
| IdTooLarge (name : bytes) (id max_id : Z)
| NameExists (name : bytes)
| IdExists (new_name : bytes) (id : Z) (existing_name : bytes).
Inductive KeyspaceOpenError := OpenValidation (source : KeyspaceValidationError).

(** ** [std::str::from_utf8] *)
Module Utf8.
Definition between (lo hi b : Z) : bool := (lo <=? b) && (b <=? hi).
Definition cont (b : Z) : bool := between 128 191 b.
Fixpoint valid (bs : bytes) : bool :=
  match bs with
  | [] => true
  | b :: bs =>
      if b <? 128 then valid bs
      else
        match bs with
        | c1 :: bs1 =>
            if between 194 223 b then cont c1 && valid bs1
            else
              match bs1 with
              | c2 :: bs2 =>
                  if between 224 239 b then
                    (if b =? 224 then between 160 191 c1 else if b =? 237 then between 128 159 c1 else cont c1)
                    && cont c2 && valid bs2
                  else
                    match bs2 with
                    | c3 :: bs3 =>
                        between 240 244 b
                        && (if b =? 240 then between 144 191 c1 else if b =? 244 then between 128 143 c1 else cont c1)
                        && cont c2 && cont c3 && valid bs3
                    | [] => false
                    end
              | [] => false
              end
        | [] => false
        end
  end.
End Utf8.

(** ** One keyspace *)
Module KS.
Definition new (d : KeyspaceDef) : Keyspace :=
  mk_Keyspace (Memory.new (kd_name d)) (kd_name d) (kd_id d) (kd_prefix_length d).
Definition with_backend (b : MemoryBackend) (k : Keyspace) : Keyspace :=
  mk_Keyspace b (k_name k) (k_id k) (k_prefix_length k).
Definition put (key value : bytes) (k : Keyspace) : exec KeyspaceError Keyspace :=
  b ← map_err (KeyspacePut (k_name k)) (Memory.put key value (k_backend k)); Val (with_backend b k).
Definition get {V} (key : bytes) (mapper : bytes → V) (k : Keyspace) : exec KeyspaceError (option V) :=
  map_err (KeyspaceGet (k_name k)) (Memory.get key mapper (k_backend k)).
Definition get_prev {V} (key : bytes) (mapper : bytes → bytes → V) (k : Keyspace) : option V :=
  Memory.get_prev key mapper (k_backend k).
Definition iterate_range (range : KeyRange bytes) (k : Keyspace) : outcome MemoryKeyspaceRangeIterator :=
  RangeIter.iterate_range range (k_backend k).
Definition write (batch : list WriteOp) (k : Keyspace) : exec KeyspaceError Keyspace :=
  b ← map_err (KeyspaceBatchWrite (k_name k)) (Memory.write_batch batch (k_backend k));
  Val (with_backend b k).
Definition reset (k : Keyspace) : exec KeyspaceError Keyspace :=
  b ← map_err (KeyspaceIterate (k_name k)) (Memory.reset (k_backend k)); Val (with_backend b k).
(** The names of the property errors: [estimate_size_bytes], [estimate_key_count],
    [export_data] and [import_data]. *)
Definition estimate_size_in_bytes (label : bytes) (k : Keyspace) : exec KeyspaceError Z :=
  map_err (KeyspaceProperty label) (Memory.estimate_size_bytes (k_backend k)).
Definition estimate_key_count (label : bytes) (k : Keyspace) : exec KeyspaceError Z :=
  map_err (KeyspaceProperty label) (Memory.estimate_key_count (k_backend k)).
Definition label_export_data : bytes := [101; 120; 112; 111; 114; 116; 95; 100; 97; 116; 97].
Definition label_import_data : bytes := [105; 109; 112; 111; 114; 116; 95; 100; 97; 116; 97].
Definition export_data (k : Keyspace) : exec KeyspaceError bytes :=
  map_err (KeyspaceProperty label_export_data) (Memory.export_data (k_backend k)).
Definition import_data (data : bytes) (k : Keyspace) : exec KeyspaceError Keyspace :=
  b ← map_err (KeyspaceProperty label_import_data) (Memory.import_data data (k_backend k));
  Val (with_backend b k).
End KS.

(** ** The set of keyspaces *)
Module KSS.
Definition new : Keyspaces := mk_Keyspaces [] (replicate KEYSPACE_MAXIMUM_COUNT None).

(** The loop of [validate_new_keyspace] over [self.index.iter().enumerate()]. *)
Fixpoint validate_loop (d : KeyspaceDef) (keyspaces : list Keyspace) (existing_id : nat)
    (index : list (option Z)) : exec KeyspaceValidationError unit :=
  match index with
  | [] => Val ()
  | None :: index => validate_loop d keyspaces (S existing_id) index
  | Some existing_index :: index =>
      keyspace ← unwrap (keyspaces !! Z.to_nat existing_index);
      if bool_decide (k_name keyspace = kd_name d) then Err (NameExists (kd_name d))
      else if bool_decide (existing_id = Z.to_nat (kd_id d))
      then Err (IdExists (kd_name d) (kd_id d) (k_name keyspace))
      else validate_loop d keyspaces (S existing_id) index
  end.
Definition validate_new_keyspace (d : KeyspaceDef) (s : Keyspaces) : exec KeyspaceValidationError unit :=
  if kd_id d =? KEYSPACE_ID_RESERVED_UNSET then Err (IdReserved (kd_name d) (kd_id d))
  else if KEYSPACE_ID_MAX <? kd_id d then Err (IdTooLarge (kd_name d) (kd_id d) KEYSPACE_ID_MAX)
  else validate_loop d (kss_keyspaces s) 0 (kss_index s).

(** One round of the loop of [open]: the position is the new length less one,
    as [u8]. *)
Definition open_one (s : Keyspaces) (d : KeyspaceDef) : exec KeyspaceOpenError Keyspaces :=
  _ ← map_err OpenValidation (validate_new_keyspace d s);
  let keyspaces := kss_keyspaces s ++ [KS.new d] in
  if (Z.to_nat (kd_id d) <? length (kss_index s))%nat then
    Val (mk_Keyspaces keyspaces
           (<[Z.to_nat (kd_id d) := Some (u8 (u8 (Z.of_nat (length keyspaces)) - 1))]> (kss_index s)))
  else Panic.
Fixpoint open_loop (ds : list KeyspaceDef) (s : Keyspaces) : exec KeyspaceOpenError Keyspaces :=
  match ds with
  | [] => Val s
  | d :: ds => s ← open_one s d; open_loop ds s
  end.
Definition open (ds : list KeyspaceDef) : exec KeyspaceOpenError Keyspaces := open_loop ds new.

(** [self.index[id].unwrap()], then the vector. *)
Definition position {E} (id : Z) (s : Keyspaces) : exec E nat :=
  entry ← unwrap (kss_index s !! Z.to_nat id);
  i ← unwrap entry;
  Val (Z.to_nat i).
Definition get {E} (id : Z) (s : Keyspaces) : exec E Keyspace :=
  i ← position id s; unwrap (kss_keyspaces s !! i).
Definition put_keyspace (i : nat) (k : Keyspace) (s : Keyspaces) : Keyspaces :=
  mk_Keyspaces (<[i := k]> (kss_keyspaces s)) (kss_index s).

(** [write] changes the keyspaces one after the other: an error leaves the
    batches before it written, hence the pair. *)
Fixpoint write_loop (index : nat) (batches : list (option (list WriteOp))) (s : Keyspaces)
  : exec KeyspaceError unit * Keyspaces :=
  match batches with
  | [] => (Val (), s)
  | None :: batches => write_loop (S index) batches s
  | Some batch :: batches =>
      match position (E:=KeyspaceError) (u8 (Z.of_nat index)) s with
      | Val i =>
          match kss_keyspaces s !! i with
          | Some k =>
              match KS.write batch k with
              | Val k => write_loop (S index) batches (put_keyspace i k s)
              | Err e => (Err e, s)
              | Panic => (Panic, s)
              end
          | None => (Panic, s)
          end
      | _ => (Panic, s)
      end
  end.
Definition write (batches : list (option (list WriteOp))) (s : Keyspaces)
  : exec KeyspaceError unit * Keyspaces := write_loop 0 batches s.

(** [reset] over [iter_mut], again one after the other. *)
Fixpoint reset_loop (before after : list Keyspace) : exec KeyspaceError unit * list Keyspace :=
  match after with
  | [] => (Val (), before)
  | k :: after =>
      match KS.reset k with
      | Val k => reset_loop (before ++ [k]) after
      | Err e => (Err e, before ++ k :: after)
      | Panic => (Panic, before ++ k :: after)
      end
  end.
Definition reset (s : Keyspaces) : exec KeyspaceError unit * Keyspaces :=
  let '(r, l) := reset_loop [] (kss_keyspaces s) in (r, mk_Keyspaces l (kss_index s)).

(** [try_fold] with [u64] addition. *)
Fixpoint total (f : Keyspace → exec KeyspaceError Z) (acc : Z) (l : list Keyspace) : exec KeyspaceError Z :=
  match l with
  | [] => Val acc
  | k :: l => x ← f k; total f (u64 (acc + x)) l
  end.
Definition estimate_size_in_bytes (label : bytes) (s : Keyspaces) : exec KeyspaceError Z :=
  total (KS.estimate_size_in_bytes label) 0 (kss_keyspaces s).
Definition estimate_key_count (label : bytes) (s : Keyspaces) : exec KeyspaceError Z :=
  total (KS.estimate_key_count label) 0 (kss_keyspaces s).

(** ** Snapshots of all keyspaces *)
Definition MAGIC : bytes := [84; 68; 66; 83; 78; 80].
Definition VERSION : Z := 2.
Definition export_keyspace (k : Keyspace) : exec KeyspaceError bytes :=
  data ← KS.export_data k;
  Val ([k_id k] ++ [u8 (Z.of_nat (length (k_name k)))] ++ k_name k
         ++ le_bytes 4 (u32 (Z.of_nat (length data))) ++ data).
Fixpoint export_loop (l : list Keyspace) (output : bytes) : exec KeyspaceError bytes :=
  match l with
  | [] => Val output
  | k :: l => bs ← export_keyspace k; export_loop l (output ++ bs)
  end.
Definition export_snapshot_with_watermark (watermark : Z) (s : Keyspaces) : exec KeyspaceError bytes :=
  export_loop (kss_keyspaces s)
    (MAGIC ++ [VERSION] ++ le_bytes 8 watermark ++ [u8 (Z.of_nat (length (kss_keyspaces s)))]).

Definition malformed {A} (m : SnapshotMessage) (s : Keyspaces) : exec KeyspaceError A * Keyspaces :=
  (Err (SnapshotMalformed m), s).
(** [self.keyspaces[..].import_data(data)] if the id has an entry; an id of ten
    or more is out of the index's range. *)
Definition import_keyspace (id : Z) (data : bytes) (s : Keyspaces) : exec KeyspaceError unit * Keyspaces :=
  match kss_index s !! Z.to_nat id with
  | None => (Panic, s)
  | Some None => (Val (), s)
  | Some (Some i) =>
      match kss_keyspaces s !! Z.to_nat i with
      | None => (Panic, s)
      | Some k =>
          match KS.import_data data k with
          | Val k => (Val (), put_keyspace (Z.to_nat i) k s)
          | Err e => (Err e, s)
          | Panic => (Panic, s)
          end
      end
  end.
Fixpoint import_loop (count : nat) (bs : bytes) (pos : nat) (s : Keyspaces)
  : exec KeyspaceError unit * Keyspaces :=
  match count with
  | O => (Val (), s)
  | S count =>
      if (length bs <? pos + 2)%nat then malformed UnexpectedEnd s
      else
        let keyspace_id := nth pos bs 0 in
        let name_len := Z.to_nat (nth (pos + 1) bs 0) in
        let pos := (pos + 2)%nat in
        if (length bs <? pos + name_len + 4)%nat then malformed UnexpectedEndInKeyspace s
        else if negb (Utf8.valid (take name_len (drop pos bs))) then malformed InvalidNameEncoding s
        else
          let pos := (pos + name_len)%nat in
          let data_len := Z.to_nat (Memory.u32_at pos bs) in
          let pos := (pos + 4)%nat in
          if (length bs <? pos + data_len)%nat then malformed (UnexpectedEndInData data_len) s
          else
            let data := take data_len (drop pos bs) in
            let pos := (pos + data_len)%nat in
            match import_keyspace keyspace_id data s with
            | (Val _, s) => import_loop count bs pos s
            | r => r
            end
  end.
Definition import_snapshot_with_watermark (bs : bytes) (s : Keyspaces) : exec KeyspaceError Z * Keyspaces :=
  if (length bs <? 16)%nat then malformed TooShortForHeader s
  else if negb (bool_decide (take 6 bs = MAGIC)) then malformed InvalidMagic s
  else
    let version := nth 6 bs 0 in
    if negb (version =? 2) then malformed (UnsupportedVersion version) s
    else
      let watermark := le_value (take 8 (drop 7 bs)) in
      let keyspace_count := Z.to_nat (nth 15 bs 0) in
      let '(r, s) := import_loop keyspace_count bs 16 s in
      ((_ ← r; Val watermark), s).
End KSS.

(** ** The index *)
(** The ten index entries and the vector agree, in both directions. *)
Record kss_wf (s : Keyspaces) : Prop := {
  kw_index : length (kss_index s) = KEYSPACE_MAXIMUM_COUNT;
  kw_keyspace : ∀ i k, kss_keyspaces s !! i = Some k →
    0 ≤ k_id k < 10 ∧ kss_index s !! Z.to_nat (k_id k) = Some (Some (Z.of_nat i));
  kw_entry : ∀ id i, kss_index s !! id = Some (Some i) →
    0 ≤ i ∧ ∃ k, kss_keyspaces s !! Z.to_nat i = Some k ∧ k_id k = Z.of_nat id;
}.

Lemma ids_NoDup s : kss_wf s → NoDup (k_id <$> kss_keyspaces s).
Proof.
  intros Hwf. apply NoDup_alt. intros i j id Hi Hj.
  apply list_lookup_fmap_Some in Hi as (k & -> & Hk). apply list_lookup_fmap_Some in Hj as (k' & Heq & Hk').
  destruct (kw_keyspace s Hwf i k Hk) as [_ H1]. destruct (kw_keyspace s Hwf j k' Hk') as [_ H2].
  rewrite Heq, H2 in H1. simplify_eq. lia.
Qed.

Lemma ids_below (l : list Z) : NoDup l → Forall (λ id, 0 ≤ id < 10) l → (length l ≤ 10)%nat.
Proof.
  intros Hnd Hr. change 10%nat with (length (Z.of_nat <$> seq 0 10)).
  apply submseteq_length, NoDup_submseteq; [done|]. intros x Hx. rewrite Forall_forall in Hr.
  specialize (Hr x Hx). apply list_elem_of_fmap. exists (Z.to_nat x). split; [lia|].
  apply elem_of_seq. lia.
Qed.

Lemma kss_length s : kss_wf s → (length (kss_keyspaces s) ≤ 10)%nat.
Proof.
  intros Hwf. rewrite <-(length_fmap k_id). apply ids_below; [by apply ids_NoDup|].
  apply Forall_fmap, Forall_lookup. intros i k Hk. by apply (kw_keyspace s Hwf i).
Qed.

Lemma get_position {E} s id i k :
  kss_wf s → kss_keyspaces s !! i = Some k → k_id k = id →
  KSS.position (E:=E) id s = Val i ∧ KSS.get (E:=E) id s = Val k.
Proof.
  intros Hwf Hk <-. destruct (kw_keyspace s Hwf i k Hk) as [_ Hi].
  unfold KSS.get, KSS.position. rewrite Hi. cbn [unwrap mbind exec_bind]. rewrite Nat2Z.id. split; [done|].
  by rewrite Hk.
Qed.

Lemma put_keyspace_wf s i k k' :
  kss_wf s → kss_keyspaces s !! i = Some k → k_id k' = k_id k → kss_wf (KSS.put_keyspace i k' s).
Proof.
  intros Hwf Hk Hid. assert (Hlt := lookup_lt_Some _ _ _ Hk). split; simpl.
  - apply Hwf.
  - intros j kj. destruct (decide (j = i)) as [->|Hne].
    + rewrite list_lookup_insert_eq by done. intros [= <-]. rewrite Hid. by apply (kw_keyspace s Hwf).
    + rewrite list_lookup_insert_ne by done. by apply (kw_keyspace s Hwf).
  - intros id j Hj. destruct (kw_entry s Hwf id j Hj) as (H0 & kj & Hkj & Hidj). split; [done|].
    destruct (decide (Z.to_nat j = i)) as [Heq|Hne].
    + exists k'. rewrite Heq, list_lookup_insert_eq by done. split; [done|]. congruence.
    + exists kj. by rewrite list_lookup_insert_ne.
Qed.

(** The backend behind an id, and a set with the single keyspace 0. *)
Definition backend_of (id : Z) (s : Keyspaces) : option MemoryBackend :=
  match KSS.get (E:=KeyspaceError) id s with Val k => Some (k_backend k) | _ => None end.
Definition one_keyspace (b : MemoryBackend) : Keyspaces :=
  mk_Keyspaces [mk_Keyspace b (mb_name b) 0 None] (Some 0 :: replicate 9 None).

Lemma get_backend {E} id s b :
  backend_of id s = Some b → ∃ k, KSS.get (E:=E) id s = Val k ∧ k_backend k = b.
Proof.
  unfold backend_of, KSS.get, KSS.position. destruct (kss_index s !! Z.to_nat id) as [[i|]|]; cbn; [|done..].
  destruct (kss_keyspaces s !! Z.to_nat i) as [k|]; cbn; [|done]. intros [= <-]. eauto.
Qed.

(** *** Opening *)
Lemma kss_wf_new : kss_wf KSS.new.
Proof.
  split; simpl; [done|done|]. intros id i Hi. apply (lookup_replicate_1 10) in Hi as [? _]. done.
Qed.

(** A definition that [validate_new_keyspace] accepts over [s]. *)
Definition fresh (d : KeyspaceDef) (s : Keyspaces) : Prop :=
  kd_id d < 10 ∧ ¬ (kd_id d ∈ k_id <$> kss_keyspaces s) ∧ ¬ (kd_name d ∈ k_name <$> kss_keyspaces s).

Lemma validate_loop_spec d s n :
  kss_wf s → 0 ≤ kd_id d →
  match KSS.validate_loop d (kss_keyspaces s) n (drop n (kss_index s)) with
  | Val _ => ∀ id i k, (n ≤ id)%nat → kss_index s !! id = Some (Some i) →
      kss_keyspaces s !! Z.to_nat i = Some k → k_name k ≠ kd_name d ∧ k_id k ≠ kd_id d
  | Err _ => ∃ i k, kss_keyspaces s !! i = Some k ∧ (k_name k = kd_name d ∨ k_id k = kd_id d)
  | Panic => False
  end.
Proof.
  intros Hwf Hd. remember (drop n (kss_index s)) as index eqn:Hdrop. revert n Hdrop.
  induction index as [|e index IH]; intros n Hdrop; simpl.
  { intros id i k Hn Hi. apply lookup_lt_Some in Hi. apply (f_equal length) in Hdrop.
    rewrite length_drop in Hdrop. simpl in Hdrop. lia. }
  assert (He : kss_index s !! n = Some e).
  { rewrite <-(Nat.add_0_r n), <-lookup_drop, <-Hdrop. done. }
  assert (Hnext : index = drop (S n) (kss_index s)).
  { rewrite <-Nat.add_1_r, <-drop_drop, <-Hdrop. done. }
  specialize (IH (S n) Hnext). destruct e as [i|].
  - destruct (kw_entry s Hwf n i He) as (_ & k & Hk & Hid). rewrite Hk. cbn [unwrap mbind exec_bind].
    case_bool_decide as Hname; [by eauto|]. case_bool_decide as Hn; [exists (Z.to_nat i), k; split; [done|right; lia]|].
    destruct (KSS.validate_loop _ _ _ index); [|done..]. intros id j k' Hle Hj Hk'.
    destruct (decide (id = n)) as [->|]; [|eapply IH; [|done..]; lia].
    assert (k' = k) as -> by congruence. split; [done|lia].
  - destruct (KSS.validate_loop _ _ _ index); [|done..]. intros id j k' Hle Hj Hk'.
    destruct (decide (id = n)) as [->|]; [congruence|]. eapply IH; [|done..]; lia.
Qed.

Lemma validate_spec d s :
  kss_wf s → 0 ≤ kd_id d →
  match KSS.validate_new_keyspace d s with Val _ => fresh d s | Err _ => ¬ fresh d s | Panic => False end.
Proof.
  intros Hwf Hd. unfold KSS.validate_new_keyspace, fresh.
  change KEYSPACE_ID_RESERVED_UNSET with 10. change KEYSPACE_ID_MAX with 9.
  destruct (Z.eqb_spec (kd_id d) 10); [intros (? & _); lia|].
  destruct (Z.ltb_spec 9 (kd_id d)); [intros (? & _); lia|].
  pose proof (validate_loop_spec d s 0 Hwf Hd) as Hl. rewrite drop_0 in Hl.
  destruct (KSS.validate_loop _ _ _ _) as [[]|e|]; [|intros (_ & Hi & Hn)|done].
  - split; [lia|]. rewrite !list_elem_of_fmap. split; intros (k & Heq & (i & Hk)%list_elem_of_lookup);
      destruct (kw_keyspace s Hwf i k Hk) as [_ Hid];
      destruct (Hl _ _ k (Nat.le_0_l _) Hid ltac:(by rewrite Nat2Z.id)) as [? ?]; congruence.
  - destruct Hl as (i & k & Hk & Hor). apply list_elem_of_lookup_2 in Hk.
    destruct Hor as [Heq|Heq]; [apply Hn|apply Hi]; rewrite <-Heq; by apply list_elem_of_fmap_2.
Qed.

Lemma open_one_spec d s :
  kss_wf s → 0 ≤ kd_id d →
  match KSS.open_one s d with
  | Val s' => fresh d s ∧ kss_wf s' ∧ kss_keyspaces s' = kss_keyspaces s ++ [KS.new d]
  | Err _ => ¬ fresh d s
  | Panic => False
  end.
Proof.
  intros Hwf Hd. unfold KSS.open_one. pose proof (validate_spec d s Hwf Hd) as Hv.
  destruct (KSS.validate_new_keyspace d s) as [[]|e|]; cbn [map_err mbind exec_bind]; [|done..].
  assert (Hf := Hv). destruct Hv as (Hlt & Hid & _). pose proof (kss_length s Hwf) as Hlen.
  rewrite (kw_index s Hwf), (proj2 (Nat.ltb_lt _ _)) by (unfold KEYSPACE_MAXIMUM_COUNT; lia).
  split; [done|]. split; [|done]. rewrite length_app. cbn [length].
  rewrite (u8_id (Z.of_nat _)), u8_id by (unfold is_byte; lia).
  replace (Z.of_nat (length (kss_keyspaces s) + 1) - 1) with (Z.of_nat (length (kss_keyspaces s))) by lia.
  assert (Hix : (Z.to_nat (kd_id d) < length (kss_index s))%nat).
  { rewrite (kw_index s Hwf). unfold KEYSPACE_MAXIMUM_COUNT. lia. }
  split; simpl.
  - rewrite length_insert. apply Hwf.
  - intros i k [Hk|[Hi Hk]]%lookup_app_Some.
    + destruct (kw_keyspace s Hwf i k Hk) as [Hr He]. split; [done|].
      rewrite list_lookup_insert_ne; [done|]. intros Heq. apply Hid, list_elem_of_fmap. exists k.
      split; [lia|by eapply list_elem_of_lookup_2].
    + apply list_lookup_singleton_Some in Hk as [Hi0 <-]. simpl. split; [lia|].
      rewrite list_lookup_insert_eq by done. do 2 f_equal. lia.
  - intros id i Hi. destruct (decide (id = Z.to_nat (kd_id d))) as [->|Hne].
    + rewrite list_lookup_insert_eq in Hi by done. injection Hi as <-. split; [lia|].
      exists (KS.new d). rewrite Nat2Z.id, lookup_app_r, Nat.sub_diag by lia. split; [done|simpl; lia].
    + rewrite list_lookup_insert_ne in Hi by done. destruct (kw_entry s Hwf id i Hi) as (H0 & k & Hk & Hkid).
      split; [done|]. exists k. split; [by apply lookup_app_l_Some|done].
Qed.

Lemma open_loop_spec ds s :
  kss_wf s → Forall (λ d, 0 ≤ kd_id d) ds →
  match KSS.open_loop ds s with
  | Val s' => kss_wf s' ∧ kss_keyspaces s' = kss_keyspaces s ++ (KS.new <$> ds) ∧
      Forall (λ d, kd_id d < 10) ds ∧
      (NoDup (k_name <$> kss_keyspaces s) → NoDup (k_name <$> kss_keyspaces s'))
  | Err _ => ¬ (Forall (λ d, kd_id d < 10) ds ∧ NoDup ((k_id <$> kss_keyspaces s) ++ (kd_id <$> ds)) ∧
               NoDup ((k_name <$> kss_keyspaces s) ++ (kd_name <$> ds)))
  | Panic => False
  end.
Proof.
  intros Hwf Hds. revert s Hwf. induction Hds as [|d ds Hd Hds IH]; intros s Hwf; simpl.
  { by rewrite app_nil_r. }
  pose proof (open_one_spec d s Hwf Hd) as H1. destruct (KSS.open_one s d) as [s1| |]; cbn [mbind exec_bind]; [|..|done].
  - destruct H1 as (Hf & Hwf1 & Hk1). specialize (IH s1 Hwf1). destruct (KSS.open_loop ds s1) as [s2| |]; [|..|done].
    + destruct IH as (? & Hk2 & Hr & Hn). split_and!; [done|by rewrite Hk2, Hk1, <-app_assoc|constructor; [apply Hf|done]|].
      intros Hnd. apply Hn. rewrite Hk1, fmap_app. apply NoDup_app. split_and!; [done| |apply NoDup_singleton].
      intros x Hx ->%list_elem_of_singleton. by apply Hf in Hx.
    + intros (Hr & Hi & Hn). apply IH. rewrite Hk1, !fmap_app, <-!app_assoc. by inversion Hr.
  - intros (Hr & Hi & Hn). apply H1. inversion Hr; subst. split_and!; [done| |].
    + apply NoDup_app in Hi as (_ & Hi & _). intros Hx. apply (Hi _ Hx). left.
    + apply NoDup_app in Hn as (_ & Hn & _). intros Hx. apply (Hn _ Hx). left.
Qed.

(** Opening a set of keyspaces succeeds exactly when the ids are below ten
    and pairwise distinct and the names are pairwise distinct; it never panics.
    On success the vector holds one empty keyspace per definition, in order,
    the index and the vector agree in both directions, and looking a keyspace
    up by its id finds it. *)
Lemma open_keyspaces_exact ds :
  Forall (λ d, 0 ≤ kd_id d) ds →
  let accepted := Forall (λ d, kd_id d < 10) ds ∧ NoDup (kd_id <$> ds) ∧ NoDup (kd_name <$> ds) in
  (accepted ↔ ∃ s, KSS.open ds = Val s) ∧ KSS.open ds ≠ Panic ∧
  ∀ s, KSS.open ds = Val s → kss_wf s ∧ kss_keyspaces s = KS.new <$> ds ∧
    ∀ d, d ∈ ds → KSS.get (E:=KeyspaceError) (kd_id d) s = Val (KS.new d).
Proof.
  intros Hds accepted. pose proof (open_loop_spec ds KSS.new kss_wf_new Hds) as Hl. unfold KSS.open.
  destruct (KSS.open_loop ds KSS.new) as [s|e|]; [|split_and!; [|done..]|done].
  - destruct Hl as (Hwf & Hk & Hr & Hn). cbn [kss_keyspaces KSS.new] in Hk, Hn. rewrite app_nil_l in Hk.
    assert (Hid : kd_id <$> ds = k_id <$> kss_keyspaces s) by (rewrite Hk, <-list_fmap_compose; done).
    assert (Hname : kd_name <$> ds = k_name <$> kss_keyspaces s) by (rewrite Hk, <-list_fmap_compose; done).
    split_and!; [|done|].
    + split; [by eauto|]. intros _. unfold accepted. rewrite Hid, Hname.
      split_and!; [done|by apply ids_NoDup|by apply Hn; constructor].
    + intros s' [= <-]. split_and!; [done|done|]. intros d (i & Hi)%list_elem_of_lookup.
      apply (get_position s (kd_id d) i (KS.new d)); [done| |done]. by rewrite Hk, list_lookup_fmap, Hi.
  - split; [by intros Ha; destruct Hl|by intros [? ?]].
Qed.
Lemma open_keyspaces_exact_witness :
  let ds := [mk_KeyspaceDef 3 [97] None; mk_KeyspaceDef 0 [98] (Some 2%nat)] in
  ∃ s, KSS.open ds = Val s ∧ KSS.get (E:=KeyspaceError) 0 s = Val (KS.new (mk_KeyspaceDef 0 [98] (Some 2%nat))).
Proof.
  intros ds. destruct (open_keyspaces_exact ds) as ([Hopen _] & _ & Hs); [repeat constructor; simpl; lia|].
  destruct Hopen as [s Hs']; [|exists s; split; [exact Hs'|]].
  - split_and!; [repeat constructor; simpl; lia|apply (bool_decide_unpack _); vm_compute; exact I..].
  - destruct (Hs s Hs') as (_ & _ & Hg). apply (Hg (mk_KeyspaceDef 0 [98] (Some 2%nat))). right. left.
Defined.

(** ** Writing batches *)
Lemma backend_of_spec id s b :
  kss_wf s → 0 ≤ id →
  backend_of id s = Some b ↔ ∃ i k, kss_keyspaces s !! i = Some k ∧ k_id k = id ∧ k_backend k = b.
Proof.
  intros Hwf Hid. split.
  - unfold backend_of, KSS.get, KSS.position.
    destruct (kss_index s !! Z.to_nat id) as [[i|]|] eqn:Ei; cbn; [|done..].
    destruct (kw_entry s Hwf _ _ Ei) as (_ & k & Hk & Hkid). rewrite Hk. cbn. intros [= <-].
    exists (Z.to_nat i), k. split_and!; [done|lia|done].
  - intros (i & k & Hk & Hkid & <-). unfold backend_of.
    by destruct (get_position (E:=KeyspaceError) s id i k Hwf Hk Hkid) as [_ ->].
Qed.

Lemma put_keyspace_backend s i k b id :
  kss_wf s → kss_keyspaces s !! i = Some k → 0 ≤ id →
  backend_of id (KSS.put_keyspace i (KS.with_backend b k) s) =
  if bool_decide (id = k_id k) then Some b else backend_of id s.
Proof.
  intros Hwf Hk Hid. assert (Hlt := lookup_lt_Some _ _ _ Hk).
  assert (Hwf' : kss_wf (KSS.put_keyspace i (KS.with_backend b k) s)) by (by eapply put_keyspace_wf).
  case_bool_decide as Heq.
  - apply backend_of_spec; [done|done|]. exists i, (KS.with_backend b k). simpl.
    rewrite list_lookup_insert_eq by done. done.
  - apply option_eq. intros b'. rewrite !backend_of_spec by done. simpl. split.
    + intros (j & kj & Hj & Hkid & Hb). destruct (decide (j = i)) as [->|Hne].
      * rewrite list_lookup_insert_eq in Hj by done. injection Hj as <-. simpl in Hkid. congruence.
      * rewrite list_lookup_insert_ne in Hj by done. eauto.
    + intros (j & kj & Hj & Hkid & Hb). exists j, kj. rewrite list_lookup_insert_ne; [done|]. congruence.
Qed.

Definition written (batch : list WriteOp) (b : MemoryBackend) : MemoryBackend :=
  Memory.set_data (fold_left Memory.write_op batch (mb_data b)) b.
(** The batch for keyspace [id] in a list that starts at keyspace [index]. *)
Definition batch_at (index : nat) (batches : list (option (list WriteOp))) (id : Z) : option (list WriteOp) :=
  if Z.of_nat index <=? id then mjoin (batches !! (Z.to_nat id - index)%nat) else None.

Lemma write_loop_spec index batches s :
  kss_wf s → (index + length batches ≤ 10)%nat →
  (∀ id batch, batch_at index batches id = Some batch → ∃ b, backend_of id s = Some b ∧ mb_poisoned b = false) →
  ∃ s', KSS.write_loop index batches s = (Val (), s') ∧ kss_wf s' ∧ kss_index s' = kss_index s ∧
    ∀ id, 0 ≤ id → backend_of id s' =
      match batch_at index batches id with Some batch => written batch <$> backend_of id s | None => backend_of id s end.
Proof.
  revert index s. induction batches as [|o batches IH]; intros index s Hwf Hlen Hb.
  { exists s. split_and!; [done..|]. intros id Hid. unfold batch_at. simpl. by destruct (_ <=? _). }
  simpl in Hlen.
  assert (Htail : ∀ id, id ≠ Z.of_nat index → batch_at index (o :: batches) id = batch_at (S index) batches id).
  { intros id Hne. unfold batch_at. destruct (Z.leb_spec (Z.of_nat index) id), (Z.leb_spec (Z.of_nat (S index)) id);
      [|lia|lia|done]. replace (Z.to_nat id - index)%nat with (S (Z.to_nat id - S index)) by lia. done. }
  assert (Hhead : batch_at index (o :: batches) (Z.of_nat index) = o).
  { unfold batch_at. rewrite Z.leb_refl. replace (Z.to_nat (Z.of_nat index) - index)%nat with 0%nat by lia. by destruct o. }
  assert (Hnone : batch_at (S index) batches (Z.of_nat index) = None).
  { unfold batch_at. by rewrite (proj2 (Z.leb_gt _ _)) by lia. }
  destruct o as [batch|]; cbn [KSS.write_loop].
  - rewrite u8_id by (unfold is_byte; lia).
    destruct (Hb (Z.of_nat index) batch Hhead) as (b & Hbk & Hp).
    apply backend_of_spec in Hbk as (i & k & Hk & Hkid & <-); [|done|lia].
    destruct (get_position (E:=KeyspaceError) s (Z.of_nat index) i k Hwf Hk Hkid) as [-> _]. rewrite Hk.
    unfold KS.write, Memory.write_batch, Memory.locked. rewrite Hp. cbn [map_err mbind exec_bind].
    set (s1 := KSS.put_keyspace i _ s).
    assert (Hbs : ∀ id, 0 ≤ id → backend_of id s1 =
      if bool_decide (id = Z.of_nat index) then Some (written batch (k_backend k)) else backend_of id s).
    { intros id Hid. rewrite <-Hkid. by apply put_keyspace_backend. }
    destruct (IH (S index) s1) as (s' & Hl & Hwf' & Hix & Hs'); [by eapply put_keyspace_wf|lia| |].
    { intros id batch' Hba. assert (id ≠ Z.of_nat index) by congruence. rewrite Hbs, bool_decide_eq_false_2; [| done|].
      - apply (Hb id batch'). by rewrite Htail.
      - unfold batch_at in Hba. destruct (Z.leb_spec (Z.of_nat (S index)) id); [lia|done]. }
    exists s'. split_and!; [done|done|done|]. intros id Hid. rewrite Hs', Hbs by done.
    destruct (decide (id = Z.of_nat index)) as [->|Hne].
    + rewrite Hnone, Hhead, bool_decide_eq_true_2 by done.
      rewrite (proj2 (backend_of_spec (Z.of_nat index) s (k_backend k) Hwf ltac:(lia))) by eauto. done.
    + by rewrite Htail, bool_decide_eq_false_2 by done.
  - destruct (IH (S index) s) as (s' & Hl & Hwf' & Hix & Hs'); [done|lia| |].
    { intros id batch' Hba. apply (Hb id batch'). rewrite Htail; [done|congruence]. }
    exists s'. split_and!; [done|done|done|]. intros id Hid. rewrite Hs' by done.
    destruct (decide (id = Z.of_nat index)) as [->|Hne]; [by rewrite Hnone, Hhead|by rewrite Htail].
Qed.

(** ** Snapshots *)
Definition loaded (k k0 : Keyspace) : Keyspace :=
  KS.with_backend (Memory.set_data (mb_data (k_backend k)) (k_backend k0)) k0.

(** What the format can hold: names below 256 bytes of UTF-8, entries and the
    whole keyspace within 32-bit lengths. *)
Record exportable (k : Keyspace) : Prop := {
  ex_name : (length (k_name k) < 256)%nat;
  ex_utf8 : Utf8.valid (k_name k) = true;
  ex_sorted : mb_wf (k_backend k);
  ex_entries : Forall entry_fits (mb_data (k_backend k));
  ex_data : Z.of_nat (length (concat (Memory.export_entry <$> mb_data (k_backend k)))) < 2 ^ 32;
}.

Lemma import_data_loaded k k0 data :
  exportable k → mb_poisoned (k_backend k0) = false → KS.export_data k = Val data →
  KS.import_data data k0 = Val (loaded k k0).
Proof.
  intros Hex Hp. unfold KS.export_data, KS.import_data, Memory.export_data, Memory.import_data, Memory.locked.
  destruct (mb_poisoned (k_backend k)); cbn [map_err mbind exec_bind]; [done|]. intros [= <-].
  assert (Hl : Memory.import_loop (mb_name (k_backend k0))
            (S (length (concat (Memory.export_entry <$> mb_data (k_backend k)))))
            (concat (Memory.export_entry <$> mb_data (k_backend k))) 0 [] = Val (mb_data (k_backend k))).
  { apply (import_exported (mb_name (k_backend k0)) _ (ex_sorted k Hex) (ex_entries k Hex)). }
  rewrite Hl. cbn [map_err mbind exec_bind]. by rewrite Hp.
Qed.

(** One keyspace's block, read back at its position: the length of the data was
    cut to 32 bits, and so is what is read of it. *)
Lemma kss_import_loop_step n pre k data bs rest s :
  (length (k_name k) < 256)%nat → Utf8.valid (k_name k) = true →
  KS.export_data k = Val data → KSS.export_keyspace k = Val bs →
  let m := Z.to_nat (u32 (Z.of_nat (length data))) in
  KSS.import_loop (S n) (pre ++ bs ++ rest) (length pre) s =
    match KSS.import_keyspace (k_id k) (take m data) s with
    | (Val _, s) => KSS.import_loop n (pre ++ bs ++ rest) (length pre + 2 + length (k_name k) + 4 + m) s
    | r => r
    end.
Proof.
  intros Hnl Hutf8 Ed Hbs m. unfold KSS.export_keyspace in Hbs. rewrite Ed in Hbs. cbn [mbind exec_bind] in Hbs.
  assert (bs = [k_id k] ++ [u8 (Z.of_nat (length (k_name k)))] ++ k_name k
                 ++ le_bytes 4 (u32 (Z.of_nat (length data))) ++ data) as -> by congruence. clear Hbs.
  assert (Hm : Z.of_nat m = u32 (Z.of_nat (length data)) ∧ (m ≤ length data)%nat).
  { unfold m, u32. pose proof (Z.mod_pos_bound (Z.of_nat (length data)) (2 ^ 32) ltac:(lia)).
    pose proof (Z.mod_le (Z.of_nat (length data)) (2 ^ 32) ltac:(lia) ltac:(lia)). lia. }
  destruct Hm as [Hm Hle]. set (nm := k_name k) in *. set (lb := le_bytes 4 (u32 (Z.of_nat (length data)))).
  assert (Hlb : length lb = 4%nat) by apply length_le_bytes.
  rewrite (u8_id (Z.of_nat (length nm))) by (unfold is_byte; lia).
  set (hd := [k_id k] ++ [Z.of_nat (length nm)]).
  set (whole := pre ++ _ ++ rest).
  assert (Hw1 : whole = pre ++ hd ++ (nm ++ lb ++ data ++ rest)) by (unfold whole, hd; by rewrite <-!app_assoc).
  assert (Hw2 : whole = (pre ++ hd) ++ nm ++ (lb ++ data ++ rest)) by (by rewrite Hw1, <-!app_assoc).
  assert (Hw3 : whole = (pre ++ hd ++ nm) ++ lb ++ (data ++ rest)) by (by rewrite Hw1, <-!app_assoc).
  assert (Hw4 : whole = (pre ++ hd ++ nm ++ lb) ++ data ++ rest) by (by rewrite Hw1, <-!app_assoc).
  assert (Hn0 : nth (length pre) whole 0 = k_id k).
  { rewrite Hw1, app_nth2, Nat.sub_diag by lia. done. }
  assert (Hn1 : nth (length pre + 1) whole 0 = Z.of_nat (length nm)).
  { rewrite Hw1, app_nth2 by lia. replace (length pre + 1 - length pre)%nat with 1%nat by lia. done. }
  assert (Hlen : length whole = (length pre + 2 + length nm + 4 + length data + length rest)%nat).
  { rewrite Hw1. unfold hd. rewrite !length_app, Hlb. simpl. lia. }
  cbn [KSS.import_loop]. rewrite Hn0, Hn1, Nat2Z.id, Hlen.
  rewrite (proj2 (Nat.ltb_ge _ _)), (proj2 (Nat.ltb_ge _ _)) by lia.
  replace (length pre + 2)%nat with (length (pre ++ hd)) by (unfold hd; rewrite length_app; simpl; lia).
  rewrite Hw2, slice_app, <-Hw2, Hutf8. cbn [negb].
  replace (length (pre ++ hd) + length nm)%nat with (length (pre ++ hd ++ nm)) by (rewrite !length_app; lia).
  assert (Hu : Z.to_nat (Memory.u32_at (length (pre ++ hd ++ nm)) whole) = m).
  { rewrite Hw3, u32_at_app by done. unfold lb. rewrite le_value_le_bytes, Z.mod_small; [done|].
    unfold u32. apply Z.mod_pos_bound. lia. }
  rewrite Hu, (proj2 (Nat.ltb_ge _ _)) by (unfold hd; rewrite !length_app; simpl; lia).
  assert (Hd : drop (length (pre ++ hd ++ nm) + 4) whole = data ++ rest).
  { replace (length (pre ++ hd ++ nm) + 4)%nat with (length (pre ++ hd ++ nm ++ lb)) by (rewrite !length_app, Hlb; lia).
    by rewrite Hw4, drop_app_length. }
  rewrite Hd, take_app_le by done. replace (length (pre ++ hd ++ nm)) with (length (pre ++ hd) + length nm)%nat
    by (rewrite !length_app; lia). done.
Qed.
Lemma export_data_length k data :
  KS.export_data k = Val data → data = concat (Memory.export_entry <$> mb_data (k_backend k)).
Proof.
  unfold KS.export_data, Memory.export_data, Memory.locked.
  destruct (mb_poisoned (k_backend k)); cbn [map_err mbind exec_bind]; [done|]. by intros [= <-].
Qed.
Lemma import_loop_block n pre k bs rest s k0 i :
  exportable k → KSS.export_keyspace k = Val bs → 0 ≤ k_id k < 10 →
  kss_index s !! Z.to_nat (k_id k) = Some (Some (Z.of_nat i)) →
  kss_keyspaces s !! i = Some k0 → mb_poisoned (k_backend k0) = false →
  KSS.import_loop (S n) (pre ++ bs ++ rest) (length pre) s =
  KSS.import_loop n (pre ++ bs ++ rest) (length (pre ++ bs)) (KSS.put_keyspace i (loaded k k0) s).
Proof.
  intros Hex Hbs Hid Hix Hk0 Hp. pose proof Hbs as Hbs'. unfold KSS.export_keyspace in Hbs'.
  destruct (KS.export_data k) as [data| |] eqn:Ed; cbn [mbind exec_bind] in Hbs'; [|done..].
  rewrite (kss_import_loop_step n pre k data bs rest s (ex_name k Hex) (ex_utf8 k Hex) Ed Hbs).
  pose proof (ex_data k Hex) as Hdl. rewrite <-(export_data_length k data Ed) in Hdl.
  assert (Hm : Z.to_nat (u32 (Z.of_nat (length data))) = length data) by (unfold u32; rewrite Z.mod_small; lia).
  rewrite Hm, firstn_all. unfold KSS.import_keyspace. rewrite Hix, Nat2Z.id, Hk0.
  rewrite (import_data_loaded k k0 data Hex Hp Ed). f_equal.
  assert (bs = [k_id k] ++ [u8 (Z.of_nat (length (k_name k)))] ++ k_name k
                 ++ le_bytes 4 (u32 (Z.of_nat (length data))) ++ data) as -> by congruence.
  rewrite !length_app, length_le_bytes. cbn [length]. lia.
Qed.

(** The output is an accumulator. *)
Lemma export_loop_app l out :
  KSS.export_loop l out = (tail ← KSS.export_loop l []; Val (out ++ tail)).
Proof.
  revert out. induction l as [|k l IH]; intros out; simpl; [by rewrite app_nil_r|].
  destruct (KSS.export_keyspace k) as [bs| |]; cbn [mbind exec_bind]; [|done..].
  rewrite IH, (IH bs). destruct (KSS.export_loop l []); cbn [mbind exec_bind]; [|done..].
  by rewrite app_assoc.
Qed.

(** Reading back the blocks of the keyspaces from position [j] on, over a set
    with the same index whose keyspaces are not poisoned. *)
Lemma keyspaces_import_loop_export s j pre tail cur :
  kss_wf s → Forall exportable (kss_keyspaces s) →
  KSS.export_loop (drop j (kss_keyspaces s)) [] = Val tail →
  kss_index cur = kss_index s → length (kss_keyspaces cur) = length (kss_keyspaces s) →
  Forall (λ k0, mb_poisoned (k_backend k0) = false) (kss_keyspaces cur) →
  ∃ s1, KSS.import_loop (length (kss_keyspaces s) - j) (pre ++ tail) (length pre) cur = (Val (), s1) ∧
    kss_index s1 = kss_index s ∧ length (kss_keyspaces s1) = length (kss_keyspaces s) ∧
    ∀ i k k0, kss_keyspaces s !! i = Some k → kss_keyspaces cur !! i = Some k0 →
      kss_keyspaces s1 !! i = Some (if (j <=? i)%nat then loaded k k0 else k0).
Proof.
  intros Hwf Hex. remember (length (kss_keyspaces s) - j)%nat as n eqn:Hn. revert j Hn pre tail cur.
  induction n as [|n IH]; intros j Hn pre tail cur Ht Hix Hlen Hp.
  { exists cur. split_and!; [done..|]. intros i k k0 Hi Hi0. apply lookup_lt_Some in Hi.
    rewrite (proj2 (Nat.leb_gt _ _)) by lia. done. }
  destruct (lookup_lt_is_Some_2 (kss_keyspaces s) j) as [k Hk]; [lia|].
  destruct (lookup_lt_is_Some_2 (kss_keyspaces cur) j) as [k0 Hk0]; [lia|].
  rewrite (drop_S _ k) in Ht by done. cbn [KSS.export_loop] in Ht.
  destruct (KSS.export_keyspace k) as [bs| |] eqn:Eb; cbn [mbind exec_bind] in Ht; [|done..].
  rewrite export_loop_app in Ht.
  destruct (KSS.export_loop (drop (S j) (kss_keyspaces s)) []) as [tail'| |] eqn:Et; cbn [mbind exec_bind] in Ht; [|done..].
  injection Ht as <-. destruct (kw_keyspace s Hwf j k Hk) as [Hid Hj].
  assert (Hexk : exportable k) by (rewrite Forall_lookup in Hex; by eapply Hex).
  assert (Hpk : mb_poisoned (k_backend k0) = false) by (rewrite Forall_lookup in Hp; by eapply Hp).
  rewrite <-Hix in Hj. rewrite (import_loop_block n pre k bs tail' cur k0 j Hexk Eb Hid Hj Hk0 Hpk).
  destruct (IH (S j) ltac:(lia) (pre ++ bs) tail' (KSS.put_keyspace j (loaded k k0) cur)) as (s1 & H1 & Hx & Hl & Hs1);
    [done|done|by simpl; rewrite length_insert| |].
  { simpl. apply Forall_insert; [done|]. exact Hpk. }
  exists s1. rewrite app_assoc, H1. split_and!; [done..|]. intros i ki ki0 Hi Hi0.
  destruct (decide (i = j)) as [->|Hne].
  - rewrite Hk in Hi. rewrite Hk0 in Hi0. simplify_eq.
    rewrite (Hs1 j ki (loaded ki ki0)), (proj2 (Nat.leb_gt _ _)), (proj2 (Nat.leb_le _ _)); [done|lia|lia|done|].
    simpl. apply list_lookup_insert_eq. by eapply lookup_lt_Some.
  - rewrite (Hs1 i ki ki0); [|done|by simpl; rewrite list_lookup_insert_ne].
    destruct (Nat.leb_spec (S j) i), (Nat.leb_spec j i); (done || lia).
Qed.

(** The header of a snapshot, and the blocks of the keyspaces after it. *)
Lemma import_exported_header s s0 watermark out :
  (length (kss_keyspaces s) < 256)%nat → is_u64 watermark → KSS.export_snapshot_with_watermark watermark s = Val out →
  ∃ head tail, KSS.export_loop (kss_keyspaces s) [] = Val tail ∧ out = head ++ tail ∧ length head = 16%nat ∧
    KSS.import_snapshot_with_watermark out s0 =
      let '(r, s1) := KSS.import_loop (length (kss_keyspaces s)) (head ++ tail) 16 s0 in ((_ ← r; Val watermark), s1).
Proof.
  intros Hlen Hw. unfold KSS.export_snapshot_with_watermark. rewrite export_loop_app.
  destruct (KSS.export_loop (kss_keyspaces s) []) as [tail| |] eqn:Et; cbn [mbind exec_bind]; [|done..].
  rewrite u8_id by (unfold is_byte; lia).
  set (n := length (kss_keyspaces s)) in *. set (wb := le_bytes 8 watermark).
  assert (Hwb : length wb = 8%nat) by apply length_le_bytes.
  set (head := KSS.MAGIC ++ [KSS.VERSION] ++ wb ++ [Z.of_nat n]).
  assert (Hhead : length head = 16%nat) by (unfold head; rewrite !length_app, Hwb; done).
  intros Hout. assert (out = head ++ tail) as -> by congruence. clear Hout.
  exists head, tail. split_and!; [done..|].
  unfold KSS.import_snapshot_with_watermark. rewrite (proj2 (Nat.ltb_ge _ _)) by (rewrite length_app; lia).
  change (take 6 (head ++ tail)) with KSS.MAGIC. rewrite bool_decide_eq_true_2 by done. cbn [negb].
  change (nth 6 (head ++ tail) 0) with 2. change (2 =? 2) with true. cbn [negb].
  assert (Hn : nth 15 (head ++ tail) 0 = Z.of_nat n).
  { rewrite app_nth1 by lia. change head with ((KSS.MAGIC ++ [KSS.VERSION]) ++ wb ++ [Z.of_nat n]).
    rewrite app_assoc, app_nth2 by (rewrite !length_app, Hwb; simpl; lia).
    rewrite length_app, Hwb. done. }
  assert (Hwm : le_value (take 8 (drop 7 (head ++ tail))) = watermark).
  { change (drop 7 (head ++ tail)) with ((wb ++ [Z.of_nat n]) ++ tail).
    rewrite <-app_assoc, take_app_length' by done. unfold wb. rewrite le_value_le_bytes. apply Z.mod_small. exact Hw. }
  by rewrite Hn, Nat2Z.id, Hwm.
Qed.

(** A snapshot of all keyspaces restores them: importing the exported bytes
    into any set of keyspaces with the same ids returns the exported watermark
    and replaces the contents of every keyspace by the exported contents, names
    and ids unchanged.  The format's limits are the hypotheses: names of at most
    255 bytes, keys, values and keyspaces below 4 GiB. *)
Lemma snapshot_roundtrip s s0 watermark out :
  kss_wf s → is_u64 watermark → Forall exportable (kss_keyspaces s) →
  kss_index s0 = kss_index s → length (kss_keyspaces s0) = length (kss_keyspaces s) →
  Forall (λ k0, mb_poisoned (k_backend k0) = false) (kss_keyspaces s0) →
  KSS.export_snapshot_with_watermark watermark s = Val out →
  ∃ s1, KSS.import_snapshot_with_watermark out s0 = (Val watermark, s1) ∧ kss_index s1 = kss_index s0 ∧
    length (kss_keyspaces s1) = length (kss_keyspaces s0) ∧
    ∀ i k k0, kss_keyspaces s !! i = Some k → kss_keyspaces s0 !! i = Some k0 →
      kss_keyspaces s1 !! i = Some (loaded k k0).
Proof.
  intros Hwf Hw Hex Hix Hlen Hp Hout. pose proof (kss_length s Hwf).
  destruct (import_exported_header s s0 watermark out ltac:(lia) Hw Hout) as (head & tail & Et & -> & Hhead & ->).
  destruct (keyspaces_import_loop_export s 0 head tail s0 Hwf Hex) as (s1 & H1 & Hx & Hl & Hs1); [by rewrite drop_0|done..|].
  rewrite Nat.sub_0_r, Hhead in H1. rewrite H1. exists s1. split_and!; [done|congruence|congruence|].
  intros i k k0 Hi Hi0. by rewrite (Hs1 i k k0 Hi Hi0).
Qed.

(** A keyspace of 4 GiB or more is not restored.  The length of its data is
    written in 32 bits; where the data is a multiple of 2^32 bytes long the length
    reads zero, and importing the snapshot reports success with the keyspace
    emptied. *)
Lemma oversized_keyspace_is_lost s k k0 s0 watermark out q :
  kss_wf s → is_u64 watermark → kss_keyspaces s = [k] → kss_keyspaces s0 = [k0] → kss_index s0 = kss_index s →
  (length (k_name k) < 256)%nat → Utf8.valid (k_name k) = true → mb_poisoned (k_backend k0) = false →
  Z.of_nat (length (concat (Memory.export_entry <$> mb_data (k_backend k)))) = q * 2 ^ 32 →
  KSS.export_snapshot_with_watermark watermark s = Val out →
  KSS.import_snapshot_with_watermark out s0 =
    (Val watermark, KSS.put_keyspace 0 (KS.with_backend (Memory.set_data [] (k_backend k0)) k0) s0).
Proof.
  intros Hwf Hw Hk Hk0 Hix Hnl Hutf8 Hp Hq Hout.
  destruct (import_exported_header s s0 watermark out) as (head & tail & Et & -> & Hhead & ->);
    [rewrite Hk; simpl; lia|done|done|].
  rewrite Hk in Et |- *. cbn [KSS.export_loop app] in Et.
  destruct (KSS.export_keyspace k) as [bs| |] eqn:Eb; cbn [mbind exec_bind] in Et; [|done..]. injection Et as <-.
  pose proof Eb as Eb'. unfold KSS.export_keyspace in Eb'.
  destruct (KS.export_data k) as [data| |] eqn:Ed; cbn [mbind exec_bind] in Eb'; [|done..]. clear Eb'.
  pose proof (kss_import_loop_step 0 head k data bs [] s0 Hnl Hutf8 Ed Eb) as Hstep. rewrite app_nil_r, Hhead in Hstep.
  cbn [length]. rewrite Hstep. rewrite (export_data_length k data Ed), Hq.
  assert (u32 (q * 2 ^ 32) = 0) as -> by (unfold u32; apply Z.mod_mul; lia). change (Z.to_nat 0) with 0%nat. rewrite take_0.
  destruct (kw_keyspace s Hwf 0 k) as [Hid Hi]; [by rewrite Hk|].
  unfold KSS.import_keyspace. rewrite Hix, Hi, Nat2Z.id, Hk0. cbn [lookup list_lookup].
  unfold KS.import_data, Memory.import_data, Memory.locked. cbn. by rewrite Hp.
Qed.

(** Replacing keyspaces by others with the same ids keeps the index right. *)
Lemma kss_wf_same_ids s0 s1 :
  kss_wf s0 → kss_index s1 = kss_index s0 → k_id <$> kss_keyspaces s1 = k_id <$> kss_keyspaces s0 → kss_wf s1.
Proof.
  intros Hwf Hix Hids.
  assert (Hat : ∀ i id, (∃ k, kss_keyspaces s1 !! i = Some k ∧ k_id k = id) ↔ (∃ k, kss_keyspaces s0 !! i = Some k ∧ k_id k = id)).
  { intros i id. pose proof (f_equal (lookup i) Hids) as Hi. rewrite !list_lookup_fmap in Hi.
    destruct (kss_keyspaces s1 !! i), (kss_keyspaces s0 !! i); simpl in Hi; naive_solver. }
  split.
  - rewrite Hix. apply Hwf.
  - intros i k Hk. destruct (proj1 (Hat i (k_id k)) ltac:(eauto)) as (k0 & Hk0 & <-). rewrite Hix. by apply (kw_keyspace s0 Hwf).
  - intros id i Hi. rewrite Hix in Hi. destruct (kw_entry s0 Hwf id i Hi) as (H0 & k0 & Hk0 & Hid).
    split; [done|]. apply Hat. eauto.
Qed.

(** The imported set, keyspace by keyspace. *)
Lemma loaded_backends s s0 s1 :
  kss_wf s → kss_wf s0 → kss_index s0 = kss_index s → length (kss_keyspaces s0) = length (kss_keyspaces s) →
  Forall (λ k0, mb_poisoned (k_backend k0) = false) (kss_keyspaces s0) →
  kss_index s1 = kss_index s0 → length (kss_keyspaces s1) = length (kss_keyspaces s0) →
  (∀ i k k0, kss_keyspaces s !! i = Some k → kss_keyspaces s0 !! i = Some k0 →
     kss_keyspaces s1 !! i = Some (loaded k k0)) →
  kss_wf s1 ∧ ∀ id, 0 ≤ id →
    match backend_of id s1, backend_of id s with
    | Some b1, Some b => mb_data b1 = mb_data b ∧ mb_poisoned b1 = false
    | None, None => True
    | _, _ => False
    end.
Proof.
  intros Hwf Hwf0 Hix Hlen Hp Hix1 Hl1 Hk1.
  assert (Hwf1 : kss_wf s1).
  { apply (kss_wf_same_ids s0); [done|done|]. apply list_eq. intros i. rewrite !list_lookup_fmap.
    destruct (kss_keyspaces s0 !! i) as [k0|] eqn:E0.
    - destruct (lookup_lt_is_Some_2 (kss_keyspaces s) i) as [k Hk]; [apply lookup_lt_Some in E0; lia|].
      by rewrite (Hk1 i k k0 Hk E0).
    - apply lookup_ge_None in E0. rewrite (lookup_ge_None_2 (kss_keyspaces s1)) by lia. done. }
  split; [done|]. intros id Hid. unfold backend_of, KSS.get, KSS.position. rewrite Hix1, Hix.
  destruct (kss_index s !! Z.to_nat id) as [[i|]|] eqn:Ei; cbn; [|done..].
  destruct (kw_entry s Hwf _ _ Ei) as (_ & k & Hk & _). rewrite <-Hix in Ei.
  destruct (kw_entry s0 Hwf0 _ _ Ei) as (_ & k0 & Hk0 & _). rewrite (Hk1 _ k k0 Hk Hk0), Hk. cbn.
  split; [done|]. rewrite Forall_lookup in Hp. by eapply Hp.
Qed.
