(* ===== verification/Snapshot.v ===== *)
(** * Snapshots: [storage/snapshot/iterator.rs], [storage/snapshot/snapshot.rs],
    [MVCCStorage::set_initial_put_status] of [storage/storage.rs]

    A write snapshot reads the committed versions at its sequence number with
    its own buffered writes laid over them.  The range iterator merges two
    sorted streams; it is specified against [apply_writes], the buffered writes
    applied one by one to the map of committed values. *)
From S2P Require Import Prelude BTree Bytes MemoryStore Buffer LendingIter Mvcc Keyspaces.
From Stdlib Require Import Sorting.Sorted.
Import KeyRangeOps.

(** ** [SnapshotRangeIterator] *)
Inductive ReadyItemSource := ReadyStorage | ReadyBuffered | ReadyBoth.

Inductive SnapshotIteratorError (E : Type) := SnapshotMVCCRead (source : MVCCReadError E).
Arguments SnapshotMVCCRead {E} source.

Abbreviation snapshot_item E := ((Z * bytes) * bytes + SnapshotIteratorError E)%type.

(** What the merge uses of the MVCC iterator. *)
Class StorageSource (S E : Type) : Type := {
  ss_next :: LendingIterator S (mvcc_item E);
  ss_peek : S → outcome (option (mvcc_item E) * S);
  ss_seek : bytes → S → outcome S;
}.
Class StorageSourceLaws (S E : Type) `{StorageSource S E} : Prop :=
  ss_peek_yields : ∀ s l, yields s l → ∃ s', ss_peek s = Val (head l, s') ∧ yields s' l.

(** The buffered iterator is what is left of the collected range of writes. *)
Abbreviation BufferRangeIterator := (list (Z * bytes * Write)).

Record SnapshotRangeIterator (S : Type) := mk_SnapshotRangeIterator {
  si_storage_iterator : option S;
  si_buffered_iterator : option BufferRangeIterator;
  si_ready_item_source : option ReadyItemSource;
}.
Arguments mk_SnapshotRangeIterator {S} _ _ _.
Arguments si_storage_iterator {S} s.
Arguments si_buffered_iterator {S} s.
Arguments si_ready_item_source {S} s.

(** [StorageKeyReference] order: keyspace id, then bytes. *)
Definition storage_key_cmp (a b : Z * bytes) : comparison :=
  match cmp a.1 b.1 with Eq => cmp a.2 b.2 | o => o end.

Module SnapIter.
Section iterator.
Context {S E : Type} `{StorageSource S E}.
Abbreviation iter := (SnapshotRangeIterator S).

Definition new (mvcc_iterator : S) (buffered : option BufferRangeIterator) : iter :=
  mk_SnapshotRangeIterator (Some mvcc_iterator) buffered None.
Definition new_empty : iter := mk_SnapshotRangeIterator None None None.

Fixpoint skip_deletes (b : BufferRangeIterator) : BufferRangeIterator :=
  match b with (_, Delete) :: b' => skip_deletes b' | _ => b end.

(** One run of the loop per buffered delete that is skipped, plus one. *)
Fixpoint find_next_state (fuel : nat) (st : iter) : outcome iter :=
  match fuel with
  | O => Panic
  | Datatypes.S fuel =>
      match si_ready_item_source st, si_storage_iterator st with
      | None, Some storage =>
          '(peeked, storage) ← ss_peek storage;
          match peeked with
          | Some (inl (storage_key, _)) =>
              match si_buffered_iterator st with
              | Some (((buffered_key, buffered_write) :: b') as b) =>
                  match storage_key_cmp buffered_key storage_key with
                  | Lt =>
                      if WriteOps.is_delete buffered_write
                      then find_next_state fuel (mk_SnapshotRangeIterator (Some storage) (Some b') None)
                      else Val (mk_SnapshotRangeIterator (Some storage) (Some b) (Some ReadyBuffered))
                  | Eq =>
                      if WriteOps.is_delete buffered_write
                      then
                        '(_, storage) ← li_next storage;
                        find_next_state fuel (mk_SnapshotRangeIterator (Some storage) (Some b') None)
                      else Val (mk_SnapshotRangeIterator (Some storage) (Some b) (Some ReadyBoth))
                  | Gt => Val (mk_SnapshotRangeIterator (Some storage) (Some b) (Some ReadyStorage))
                  end
              | b => Val (mk_SnapshotRangeIterator (Some storage) b (Some ReadyStorage))
              end
          | _ =>
              match si_buffered_iterator st with
              | Some b =>
                  let b := skip_deletes b in
                  let ready := match b with [] => None | _ => Some ReadyBuffered end in
                  Val (mk_SnapshotRangeIterator (Some storage) (Some b) ready)
              | None => Val (mk_SnapshotRangeIterator (Some storage) None None)
              end
          end
      | _, _ => Val st
      end
  end.

Definition of_mvcc (x : mvcc_item E) : snapshot_item E :=
  match x with inl kv => inl kv | inr e => inr (SnapshotMVCCRead e) end.

(** [storage_next], [storage_peek]: the iterator must be there. *)
Definition storage_next (st : iter) : outcome (option (snapshot_item E) * iter) :=
  storage ← unwrap (si_storage_iterator st);
  '(x, storage) ← li_next storage;
  Val (match x with Some x => Some (of_mvcc x) | None => None end,
       mk_SnapshotRangeIterator (Some storage) (si_buffered_iterator st) (si_ready_item_source st)).
Definition storage_peek (st : iter) : outcome (option (snapshot_item E) * iter) :=
  storage ← unwrap (si_storage_iterator st);
  '(x, storage) ← ss_peek storage;
  Val (match x with Some x => Some (of_mvcc x) | None => None end,
       mk_SnapshotRangeIterator (Some storage) (si_buffered_iterator st) (si_ready_item_source st)).
(** [buffered_next], [buffered_peek]: a delete must not be returned. *)
Definition buffered_next (st : iter) : outcome (option (snapshot_item E) * iter) :=
  b ← unwrap (si_buffered_iterator st);
  match b with
  | [] => Val (None, st)
  | (key, write) :: b =>
      value ← WriteOps.get_value write;
      Val (Some (inl (key, value)),
           mk_SnapshotRangeIterator (si_storage_iterator st) (Some b) (si_ready_item_source st))
  end.
Definition buffered_peek (st : iter) : outcome (option (snapshot_item E)) :=
  b ← unwrap (si_buffered_iterator st);
  match b with
  | [] => Val None
  | (key, write) :: _ => value ← WriteOps.get_value write; Val (Some (inl (key, value)))
  end.

Definition with_ready (r : option ReadyItemSource) (st : iter) : iter :=
  mk_SnapshotRangeIterator (si_storage_iterator st) (si_buffered_iterator st) r.

Definition ensure_state (fuel : nat) (st : iter) : outcome iter :=
  match si_ready_item_source st with
  | None => find_next_state fuel st
  | Some _ => Val st
  end.

Definition peek (fuel : nat) (st : iter) : outcome (option (snapshot_item E) * iter) :=
  st ← ensure_state fuel st;
  match si_ready_item_source st with
  | None => Val (None, st)
  | Some ReadyStorage => storage_peek st
  | Some (ReadyBuffered | ReadyBoth) => item ← buffered_peek st; Val (item, st)
  end.

Definition next (fuel : nat) : LendingIterator iter (snapshot_item E) := λ st,
  st ← ensure_state fuel st;
  let ready := si_ready_item_source st in
  let st := with_ready None st in
  match ready with
  | Some ReadyBoth => '(_, st) ← storage_next st; buffered_next st
  | Some ReadyStorage => storage_next st
  | Some ReadyBuffered => buffered_next st
  | None => Val (None, st)
  end.

Definition seek (fuel : nat) (key : Z * bytes) (st : iter) : outcome iter :=
  '(peeked, st) ← peek fuel st;
  match peeked with
  | Some (inl (peek, _)) =>
      match storage_key_cmp peek key with
      | Lt =>
          let b :=
            match si_buffered_iterator st with
            | Some b => Some (buffer_seek key.2 b)
            | None => None
            end in
          storage ← unwrap (si_storage_iterator st);
          storage ← ss_seek key.2 storage;
          find_next_state fuel (mk_SnapshotRangeIterator (Some storage) b None)
      | _ => Val st
      end
  | _ => Val st
  end.
End iterator.
End SnapIter.

(** The MVCC iterator is such a source. *)
#[global] Instance mvcc_source {I E} `{LendingIterator I (raw_item E)} `{!Seekable I (raw_item E) bytes}
    (fuel : nat) : StorageSource (MVCCRangeIterator I E) E := {|
  ss_next := Mvcc.next fuel;
  ss_peek := Mvcc.peek fuel;
  ss_seek := Mvcc.seek fuel;
|}.

(** ** Snapshot reads *)
Inductive SnapshotGetError :=
| GetMVCCRead (source : MVCCReadError KeyspaceError)
| ExpectedRequiredKeyToExist (key : Z * bytes).

Record ReadSnapshot := mk_ReadSnapshot {
  rs_open_sequence_number : Z;
  rs_storage : Keyspaces;
}.
(** [WriteSnapshot] and [SchemaSnapshot] have the same fields and methods; they
    differ in the type of the commit record. *)
Record WriteSnapshot := mk_WriteSnapshot {
  ws_operations : OperationsBuffer;
  ws_open_sequence_number : Z;
  ws_storage : Keyspaces;
}.

Module Snap.
Definition keyspace {E} (id : Z) (storage : Keyspaces) : exec E MemoryBackend :=
  k ← KSS.get id storage; Val (k_backend k).
Definition mvcc_get (storage : Keyspaces) (key : Z * bytes) (open : Z)
  : exec SnapshotGetError (option bytes) :=
  ks ← keyspace key.1 storage;
  map_err GetMVCCRead (MVCCStorage.get key.1 ks key.2 open).

Definition read_get (key : Z * bytes) (s : ReadSnapshot) : exec SnapshotGetError (option bytes) :=
  mvcc_get (rs_storage s) key (rs_open_sequence_number s).

Definition get_write {E} (key : Z * bytes) (s : WriteSnapshot) : exec E (option Write) :=
  b ← unwrap (ob_write_buffers (ws_operations s) !! Z.to_nat key.1);
  Val (WB.writes_get key.2 b).
Definition get (key : Z * bytes) (s : WriteSnapshot) : exec SnapshotGetError (option bytes) :=
  w ← get_write key s;
  match w with
  | Some (Insert value) | Some (Put value _ _) => Val (Some value)
  | Some Delete => Val None
  | None => mvcc_get (ws_storage s) key (ws_open_sequence_number s)
  end.
Definition get_last_existing (key : Z * bytes) (s : WriteSnapshot) : exec SnapshotGetError (option bytes) :=
  w ← get_write key s;
  match w with
  | Some (Insert value) | Some (Put value _ _) => Val (Some value)
  | Some Delete | None => mvcc_get (ws_storage s) key (ws_open_sequence_number s)
  end.
Definition contains (key : Z * bytes) (s : WriteSnapshot) : exec SnapshotGetError bool :=
  v ← get key s; Val (bool_decide (is_Some v)).

Definition with_operations (o : OperationsBuffer) (s : WriteSnapshot) : WriteSnapshot :=
  mk_WriteSnapshot o (ws_open_sequence_number s) (ws_storage s).

(** [get_required] returns the value and takes a lock on a stored key. *)
Definition get_required (key : Z * bytes) (s : WriteSnapshot)
  : exec SnapshotGetError (bytes * WriteSnapshot) :=
  w ← get_write key s;
  match w with
  | Some (Insert value) | Some (Put value _ _) => Val (value, s)
  | Some Delete => Err (ExpectedRequiredKeyToExist key)
  | None =>
      v ← get key s;
      match v with
      | Some value =>
          Val (value, with_operations (OB.lock_add key.2 Unmodifiable (ws_operations s)) s)
      | None => Err (ExpectedRequiredKeyToExist key)
      end
  end.

(** The write operations of [WritableSnapshot]. *)
Definition modify (keyspace_id : Z) (f : WriteBuffer → outcome WriteBuffer) (s : WriteSnapshot)
  : outcome WriteSnapshot :=
  o ← OB.writes_in_mut keyspace_id f (ws_operations s); Val (with_operations o s).
Definition insert_val (key : Z * bytes) (value : bytes) :=
  modify key.1 (λ b, Val (WB.insert key.2 value b)).
Definition uninsert_val (key : Z * bytes) (value : bytes) := modify key.1 (WB.uninsert key.2 value).
Definition put_val (key : Z * bytes) (value : bytes) :=
  modify key.1 (λ b, Val (WB.put key.2 value b)).
Definition unput_val (key : Z * bytes) (value : bytes) := modify key.1 (WB.unput key.2 value).
Definition delete (key : Z * bytes) := modify key.1 (λ b, Val (WB.delete key.2 b)).

Abbreviation source := (MVCCRangeIterator MemoryKeyspaceRangeIterator KeyspaceError).
Definition iterate_range (keyspace_id : Z) (range : KeyRange bytes) (s : WriteSnapshot)
  : outcome (SnapshotRangeIterator source) :=
  b ← OB.writes_in keyspace_id (ws_operations s);
  buffered ← WB.iterate_range range b;
  ks ← keyspace keyspace_id (ws_storage s);
  it ← MVCCStorage.iterate_range keyspace_id ks range (ws_open_sequence_number s);
  Val (SnapIter.new it (Some buffered)).
Definition iterate_storage_range (keyspace_id : Z) (range : KeyRange bytes) (s : WriteSnapshot)
  : outcome (SnapshotRangeIterator source) :=
  ks ← keyspace keyspace_id (ws_storage s);
  it ← MVCCStorage.iterate_range keyspace_id ks range (ws_open_sequence_number s);
  Val (SnapIter.new it None).

(** [any_in_range]; [fuel] bounds the raw entries and buffered writes walked. *)
Definition any_in_range (fuel : nat) (keyspace_id : Z) (range : KeyRange bytes) (buffered_only : bool)
    (s : WriteSnapshot) : outcome bool :=
  b ← OB.writes_in keyspace_id (ws_operations s);
  buffered ← WB.any_not_deleted_in_range range b;
  if (buffered : bool) then Val true
  else if buffered_only then Val false
  else
    it ← iterate_range keyspace_id range s;
    '(x, _) ← SnapIter.next (H:=mvcc_source fuel) fuel it;
    Val (bool_decide (x ≠ None)).

(** [set_initial_put_status]: the [reinsert] flag of each buffered put. *)
Definition put_status (storage : Keyspaces) (open ks : Z) (kw : bytes * Write)
  : exec (MVCCReadError KeyspaceError) (bytes * Write) :=
  match kw.2 with
  | Put value _ true => Val (kw.1, Put value false true)
  | Put value _ false =>
      backend ← keyspace ks storage;
      existing ← MVCCStorage.get ks backend kw.1 open;
      Val (kw.1, Put value (negb (bool_decide (existing = Some value))) false)
  | _ => Val kw
  end.
Fixpoint map_exec {A B E} (f : A → exec E B) (l : list A) : exec E (list B) :=
  match l with
  | [] => Val []
  | x :: l => y ← f x; ys ← map_exec f l; Val (y :: ys)
  end.
Definition buffer_put_status (storage : Keyspaces) (open : Z) (b : WriteBuffer)
  : exec (MVCCReadError KeyspaceError) WriteBuffer :=
  writes ← map_exec (put_status storage open (wb_keyspace_id b)) (wb_writes b);
  Val (WB.set_writes writes b).
Definition set_initial_put_status (s : WriteSnapshot) : exec (MVCCReadError KeyspaceError) WriteSnapshot :=
  bufs ← map_exec (buffer_put_status (ws_storage s) (ws_open_sequence_number s))
           (ob_write_buffers (ws_operations s));
  Val (with_operations (mk_OperationsBuffer bufs (ob_locks (ws_operations s))) s).
End Snap.

Lemma keyspace_backend {E} id storage b :
  backend_of id storage = Some b → Snap.keyspace (E:=E) id storage = Val b.
Proof. intros (k & Hk & <-)%(get_backend (E:=E)). unfold Snap.keyspace. by rewrite Hk. Qed.

(** ** The MVCC iterator satisfies the laws of a source *)
Section mvcc_laws.
Context {I E : Type} `{LendingIterator I (raw_item E)} `{!Seekable I (raw_item E) bytes}.

Lemma find_next_state_item fuel (m m' : MVCCRangeIterator I E) b :
  Mvcc.find_next_state fuel m = Val (b, m') → mv_item m' = mv_item m.
Proof.
  revert m. induction fuel as [|fuel IH]; intros m; simpl; [done|].
  destruct (Peek.peek (mv_iterator m)) as [[[[[rk v]|e]|] it]| |]; simpl; try done;
    try (intros [= <- <-]; done).
  destruct (MVCCKey.is_visible_to _ _) as [vis| |]; simpl; try done.
  destruct (MVCCKey.key rk) as [key| |]; simpl; try done.
  destruct (_ && _); [destruct (MVCCKey.operation rk) as [[]| |]; simpl; try done|].
  - intros [= <- <-]. done.
  - destruct (Peek.next it) as [[? ?]| |]; simpl; try done. by intros ?%IH.
  - destruct (Peek.next it) as [[? ?]| |]; simpl; try done. by intros ?%IH.
Qed.

Lemma mvcc_next_item fuel (m m' : MVCCRangeIterator I E) x :
  Mvcc.next fuel m = Val (x, m') → mv_item m' = None.
Proof.
  unfold Mvcc.next. destruct (mv_item m) as [i|] eqn:Ei; [by intros [= <- <-]|].
  destruct (Mvcc.find_next_state fuel m) as [[[] m1]| |] eqn:Ef; simpl; try done.
  - apply find_next_state_item in Ef. rewrite Ei in Ef.
    destruct (Peek.next (mv_iterator m1)) as [[[[[rk v]|e]|] it]| |]; simpl; try done.
    + destruct (MVCCKey.key rk) as [key| |]; simpl; try done. by intros [= <- <-].
    + by intros [= <- <-].
    + by intros [= <- <-].
  - apply find_next_state_item in Ef. intros [= <- <-]. congruence.
Qed.

#[global] Instance mvcc_source_laws fuel :
  StorageSourceLaws (H:=mvcc_source fuel) (MVCCRangeIterator I E) E.
Proof.
  intros m l Hy. destruct (yields_next _ _ Hy) as (m1 & Hn & Hy1).
  unfold ss_peek, mvcc_source, Mvcc.peek. destruct (mv_item m) as [x|] eqn:Ei.
  - unfold li_next, ss_next, mvcc_source, Mvcc.next in Hn. rewrite Ei in Hn.
    exists m. split; [|done]. congruence.
  - unfold li_next, ss_next, mvcc_source in Hn. rewrite Hn. cbn [mbind exec_bind].
    eexists. split; [done|]. apply mvcc_next_item in Hn as Hi.
    assert (Hset : Mvcc.set_item None m1 = m1) by (destruct m1; simpl in *; by subst).
    destruct l as [|x l]; simpl in *; [by rewrite Hset|].
    econstructor; [|exact Hy1]. unfold li_next, ss_next, mvcc_source, Mvcc.next. simpl.
    rewrite <-Hset at 2. done.
Qed.
End mvcc_laws.

(** ** The merge *)
Definition write_value (w : Write) : option bytes :=
  match w with Insert v | Put v _ _ => Some v | Delete => None end.

(** The reference: the buffered writes applied to the committed values. *)
Definition apply_write (m : list (bytes * bytes)) (kw : bytes * Write) : list (bytes * bytes) :=
  match write_value kw.2 with
  | Some v => bt_insert kw.1 v m
  | None => bt_remove kw.1 m
  end.
Definition apply_writes (b : list (bytes * Write)) (s : list (bytes * bytes)) : list (bytes * bytes) :=
  fold_left apply_write b s.

Definition emit (kw : bytes * Write) (rest : list (bytes * bytes)) : list (bytes * bytes) :=
  match write_value kw.2 with Some v => (kw.1, v) :: rest | None => rest end.

Fixpoint merge (s : list (bytes * bytes)) : list (bytes * Write) → list (bytes * bytes) :=
  fix go b :=
    match s, b with
    | [], kw :: b' => emit kw (go b')
    | _, [] => s
    | kv :: s', kw :: b' =>
        match cmp kw.1 kv.1 with
        | Lt => emit kw (go b')
        | Eq => emit kw (merge s' b')
        | Gt => kv :: merge s' b
        end
    end.

Lemma merge_nil_r s : merge s [] = s.
Proof. by destruct s. Qed.
Lemma merge_nil_l kw b : merge [] (kw :: b) = emit kw (merge [] b).
Proof. done. Qed.
Lemma merge_cons kv s kw b :
  merge (kv :: s) (kw :: b) =
    match cmp kw.1 kv.1 with
    | Lt => emit kw (merge (kv :: s) b)
    | Eq => emit kw (merge s b)
    | Gt => kv :: merge s (kw :: b)
    end.
Proof. done. Qed.

Lemma emit_Forall (P : bytes * bytes → Prop) kw l :
  (∀ v, P (kw.1, v)) → Forall P l → Forall P (emit kw l).
Proof. intros Hp Hl. unfold emit. destruct (write_value kw.2); [by constructor|done]. Qed.

Lemma merge_Forall (P : bytes → Prop) s b :
  Forall (λ kv, P kv.1) s → Forall (λ kw, P kw.1) b → Forall (λ kv, P kv.1) (merge s b).
Proof.
  remember (length s + length b)%nat as n eqn:Hn. revert s b Hn.
  induction n as [n IH] using lt_wf_ind. intros s b -> Hs Hb.
  destruct b as [|kw b]; [by rewrite merge_nil_r|]. inversion Hb as [|?? Hw Hb']; subst.
  destruct s as [|kv s].
  { rewrite merge_nil_l. apply emit_Forall; [done|]. eapply IH; [|done|done|done]. simpl; lia. }
  inversion Hs as [|?? Hv Hs']; subst. rewrite merge_cons. destruct (cmp kw.1 kv.1).
  - apply emit_Forall; [done|]. eapply IH; [|done|done|done]. simpl; lia.
  - apply emit_Forall; [done|]. eapply IH; [|done|done|done]. simpl; lia.
  - constructor; [done|]. eapply IH; [|done|done|done]. simpl; lia.
Qed.

Lemma emit_wf kw l : bt_wf l → Forall (λ kv, kw.1 ≺ kv.1) l → bt_wf (emit kw l).
Proof. intros Hl Hlt. unfold emit. destruct (write_value kw.2); [by constructor|done]. Qed.

Lemma Forall_lt_weaken {V} k k' (l : list (bytes * V)) :
  k ≺ k' → Forall (λ kv, k' ≺ kv.1) l → Forall (λ kv, k ≺ kv.1) l.
Proof.
  intros Hk Hl. eapply Forall_impl; [exact Hl|]. intros x Hx. by eapply cmp_lt_trans.
Qed.

Lemma emit_get kw l k :
  Forall (λ kv, kw.1 ≺ kv.1) l →
  bt_get k (emit kw l) = if eqb k kw.1 then write_value kw.2 else bt_get k l.
Proof.
  intros Hlt. unfold emit. destruct (write_value kw.2) as [v|]; [by rewrite bt_get_cons|].
  destruct (eqb k kw.1) eqn:E; [|done]. apply eqb_eq in E as ->. by apply bt_get_None_lt.
Qed.

(** The merge is sorted and reads as the overlay. *)
Lemma merge_spec s b :
  bt_wf s → bt_wf b →
  bt_wf (merge s b) ∧ ∀ k, bt_get k (merge s b) =
    match bt_get k b with Some w => write_value w | None => bt_get k s end.
Proof.
  remember (length s + length b)%nat as n eqn:Hn. revert s b Hn.
  induction n as [n IH] using lt_wf_ind. intros s b -> Hs Hb.
  destruct b as [|kw b]; [by rewrite merge_nil_r|].
  inversion Hb as [|?? Hb' Hltb]; subst. unfold bt_lt in Hltb.
  destruct s as [|kv s].
  { rewrite merge_nil_l. destruct (IH (length b) ltac:(simpl; lia) [] b eq_refl Hs Hb') as [Hwf Hget].
    assert (Hall : Forall (λ kv : bytes * bytes, kw.1 ≺ kv.1) (merge [] b))
      by (apply (merge_Forall (λ k, kw.1 ≺ k)); [constructor|done]).
    split; [by apply emit_wf|]. intros k. rewrite emit_get by done. destruct kw as [k' w]. simpl.
    rewrite Hget. unfold eqb. by destruct (cmp k k'). }
  inversion Hs as [|?? Hs' Hlts]; subst. unfold bt_lt in Hlts. rewrite merge_cons.
  destruct kw as [kb w], kv as [ks v]. simpl in Hltb, Hlts. cbn [fst snd]. destruct (cmp kb ks) eqn:E.
  - apply cmp_eq in E as ->.
    destruct (IH (length s + length b)%nat ltac:(simpl; lia) s b eq_refl Hs' Hb') as [Hwf Hget].
    assert (Hall : Forall (λ kv : bytes * bytes, ks ≺ kv.1) (merge s b)) by (by apply (merge_Forall (λ k, ks ≺ k))).
    split; [by apply emit_wf|]. intros k. rewrite emit_get by done. simpl. rewrite Hget.
    unfold eqb. by destruct (cmp k ks).
  - destruct (IH (length ((ks, v) :: s) + length b)%nat ltac:(simpl; lia) _ b eq_refl Hs Hb') as [Hwf Hget].
    assert (Hall : Forall (λ kv : bytes * bytes, kb ≺ kv.1) (merge ((ks, v) :: s) b)).
    { apply (merge_Forall (λ k, kb ≺ k)); [|done]. constructor; [done|by eapply Forall_lt_weaken]. }
    split; [by apply emit_wf|]. intros k. rewrite emit_get by done. cbn [fst snd]. rewrite Hget.
    rewrite (bt_get_cons k kb). destruct (eqb k kb); done.
  - apply cmp_gt_lt in E.
    destruct (IH (length s + length ((kb, w) :: b))%nat ltac:(simpl; lia) s _ eq_refl Hs' Hb) as [Hwf Hget].
    assert (Hall : Forall (λ kv : bytes * bytes, ks ≺ kv.1) (merge s ((kb, w) :: b))).
    { apply (merge_Forall (λ k, ks ≺ k)); [done|]. constructor; [done|by eapply Forall_lt_weaken]. }
    split; [by constructor|]. intros k. rewrite !(bt_get_cons k ks), Hget.
    destruct (eqb k ks) eqn:Ek; [|done]. apply eqb_eq in Ek as ->.
    rewrite bt_get_None_lt; [done|]. constructor; [done|by eapply Forall_lt_weaken].
Qed.

Lemma apply_writes_spec b s :
  bt_wf s → bt_wf b →
  bt_wf (apply_writes b s) ∧ ∀ k, bt_get k (apply_writes b s) =
    match bt_get k b with Some w => write_value w | None => bt_get k s end.
Proof.
  intros Hs Hb. revert s Hs. induction Hb as [|[kb w] b Hb IH Hlt]; intros s Hs; [done|].
  unfold apply_writes. simpl. fold (apply_writes b (apply_write s (kb, w))).
  assert (Hwf : bt_wf (apply_write s (kb, w))).
  { unfold apply_write. destruct (write_value _); [by apply bt_wf_insert|by apply bt_wf_remove]. }
  destruct (IH _ Hwf) as [Hwf' Hget]. split; [done|]. intros k. rewrite Hget.
  destruct (cmp k kb) eqn:E.
  - apply cmp_eq in E as ->. rewrite bt_get_None_lt by (by eapply Forall_impl).
    unfold apply_write. simpl. destruct (write_value w); [apply bt_get_insert_eq|apply bt_get_remove_eq].
  - destruct (bt_get k b); [done|]. assert (k ≠ kb) by (by apply cmp_lt_ne).
    unfold apply_write. simpl. destruct (write_value w); [by apply bt_get_insert_ne|by apply bt_get_remove_ne].
  - destruct (bt_get k b); [done|]. apply cmp_gt_lt in E.
    assert (k ≠ kb) by (intros ->; by apply cmp_irrefl in E).
    unfold apply_write. simpl. destruct (write_value w); [by apply bt_get_insert_ne|by apply bt_get_remove_ne].
Qed.

Lemma merge_apply_writes s b : bt_wf s → bt_wf b → merge s b = apply_writes b s.
Proof.
  intros Hs Hb. destruct (merge_spec s b Hs Hb) as [Hwf Hget].
  destruct (apply_writes_spec b s Hs Hb) as [Hwf' Hget'].
  apply bt_ext; [done|done|]. intros k. by rewrite Hget, Hget'.
Qed.

(** ** The iterator implements the merge *)
Definition tag (ks : Z) (b : list (bytes * Write)) : BufferRangeIterator :=
  List.map (λ kw : bytes * Write, (ks, kw.1, kw.2)) b.
Definition represents (ks : Z) (bo : option BufferRangeIterator) (b : list (bytes * Write)) : Prop :=
  match bo with Some l => l = tag ks b | None => b = [] end.
Definition snapshot_items {E} (ks : Z) (l : list (bytes * bytes)) : list (snapshot_item E) :=
  List.map (λ kv : bytes * bytes, inl ((ks, kv.1), kv.2)) l.

Lemma storage_key_cmp_same ks a b : storage_key_cmp (ks, a) (ks, b) = cmp a b.
Proof. unfold storage_key_cmp. simpl. by rewrite cmp_refl. Qed.

Section merge_iterator.
Context {S E : Type} `{StorageSourceLaws S E} (ks : Z).
Implicit Types (st : SnapshotRangeIterator S) (s : list (bytes * bytes)) (b : list (bytes * Write)).

(** Which of the four states the search ends in, and what is then left. *)
Inductive found (out : list (bytes * bytes)) (bound : nat) : SnapshotRangeIterator S → Prop :=
| found_end src bo :
    out = [] → yields src (items (E:=E) ks []) → represents ks bo [] →
    found out bound (mk_SnapshotRangeIterator (Some src) bo None)
| found_storage src bo k v s b :
    out = (k, v) :: merge s b → yields src (items (E:=E) ks ((k, v) :: s)) → represents ks bo b →
    (length b ≤ bound)%nat →
    found out bound (mk_SnapshotRangeIterator (Some src) bo (Some ReadyStorage))
| found_buffered src k w v s b :
    write_value w = Some v → out = (k, v) :: merge s b → yields src (items (E:=E) ks s) →
    (length b ≤ bound)%nat →
    found out bound (mk_SnapshotRangeIterator (Some src) (Some (tag ks ((k, w) :: b))) (Some ReadyBuffered))
| found_both src k w v v0 s b :
    write_value w = Some v → out = (k, v) :: merge s b →
    yields src (items (E:=E) ks ((k, v0) :: s)) → (length b ≤ bound)%nat →
    found out bound (mk_SnapshotRangeIterator (Some src) (Some (tag ks ((k, w) :: b))) (Some ReadyBoth)).

Lemma found_weaken out n m st : (n ≤ m)%nat → found out n st → found out m st.
Proof. intros Hnm. destruct 1; econstructor; eauto; lia. Qed.

Lemma skip_deletes_merge b :
  match SnapIter.skip_deletes (tag ks b) with
  | [] => merge [] b = []
  | _ => ∃ k w v b', SnapIter.skip_deletes (tag ks b) = tag ks ((k, w) :: b') ∧
      write_value w = Some v ∧ merge [] b = (k, v) :: merge [] b' ∧ (length b' ≤ length b)%nat
  end.
Proof.
  induction b as [|[k w] b IH]; simpl; [done|].
  assert (Hhere : ∀ v, write_value w = Some v → ∃ k0 w0 v0 b',
    (ks, k, w) :: tag ks b = tag ks ((k0, w0) :: b') ∧ write_value w0 = Some v0 ∧
    emit (k, w) (merge [] b) = (k0, v0) :: merge [] b' ∧ (length b' ≤ Datatypes.S (length b))%nat).
  { intros v Hv. exists k, w, v, b. split_and!; [done|done| |lia]. unfold emit. simpl. by rewrite Hv. }
  destruct w as [v|v r x|]; [by apply (Hhere v)|by apply (Hhere v)|].
  destruct (SnapIter.skip_deletes (tag ks b)); [exact IH|].
  destruct IH as (k0 & w0 & v0 & b' & Hs & ? & ? & ?). exists k0, w0, v0, b'. split_and!; try done. lia.
Qed.

Lemma find_next_state_found fuel src bo s b :
  (length b < fuel)%nat → yields src (items (E:=E) ks s) → represents ks bo b →
  ∃ st, SnapIter.find_next_state fuel (mk_SnapshotRangeIterator (Some src) bo None) = Val st ∧
        found (merge s b) (length b) st.
Proof.
  revert fuel src bo s. induction b as [|[kb w] b IH]; intros fuel src bo s Hf Hy Hb;
    (destruct fuel as [|fuel]; [lia|]); cbn [SnapIter.find_next_state si_ready_item_source si_storage_iterator];
    destruct (ss_peek_yields _ _ Hy) as (src' & Hpk & Hy'); rewrite Hpk; cbn [mbind exec_bind].
  - rewrite merge_nil_r. cbn [si_buffered_iterator].
    assert (bo = None ∨ bo = Some []) as Hbo by (destruct bo as [l|]; [right; simpl in Hb; by subst|by left]).
    destruct s as [|[k v] s]; cbn [head items List.map].
    + destruct Hbo as [-> | ->]; simpl; eexists; (split; [reflexivity|]); by eapply found_end.
    + eexists. split; [destruct Hbo as [-> | ->]; reflexivity|].
      eapply (found_storage _ _ _ _ k v s []); [by rewrite merge_nil_r|exact Hy'|exact Hb|done].
  - destruct bo as [l|]; [|done]. simpl in Hb. subst l. cbn [si_buffered_iterator].
    destruct s as [|[k v] s].
    + cbn [head items List.map]. eexists. split; [reflexivity|].
      pose proof (skip_deletes_merge ((kb, w) :: b)) as Hskip. cbn zeta.
      change ((ks, kb, w) :: tag ks b) with (tag ks ((kb, w) :: b)).
      destruct (SnapIter.skip_deletes (tag ks ((kb, w) :: b))) as [|x l] eqn:Es.
      * rewrite Hskip. by eapply found_end.
      * destruct Hskip as (k0 & w0 & v0 & b' & Hs & Hv & Hm & Hlen). rewrite Hs.
        by eapply found_buffered.
    + cbn [head items List.map fst snd]. rewrite storage_key_cmp_same.
      change ((ks, kb, w) :: tag ks b) with (tag ks ((kb, w) :: b)).
      rewrite merge_cons. cbn [fst snd]. destruct (cmp kb k) eqn:Ec.
      * apply cmp_eq in Ec as ->. destruct (write_value w) as [vw|] eqn:Ew.
        -- assert (WriteOps.is_delete w = false) as -> by (by destruct w).
           eexists. split; [reflexivity|].
           eapply (found_both _ _ _ k w vw v s b); [done| |exact Hy'|simpl; lia].
           unfold emit. simpl. by rewrite Ew.
        -- assert (WriteOps.is_delete w = true) as -> by (by destruct w).
           destruct (yields_next _ _ Hy') as (src2 & Hn & Hy2). rewrite Hn. cbn [mbind exec_bind].
           destruct (IH fuel src2 (Some (tag ks b)) s ltac:(simpl in Hf; lia) Hy2 eq_refl) as (st & Hst & Hfd).
           exists st. split; [exact Hst|]. unfold emit. simpl. rewrite Ew.
           eapply found_weaken; [|exact Hfd]. simpl; lia.
      * destruct (write_value w) as [vw|] eqn:Ew.
        -- assert (WriteOps.is_delete w = false) as -> by (by destruct w).
           eexists. split; [reflexivity|].
           eapply (found_buffered _ _ _ kb w vw ((k, v) :: s) b); [done| |exact Hy'|simpl; lia].
           unfold emit. simpl. by rewrite Ew.
        -- assert (WriteOps.is_delete w = true) as -> by (by destruct w).
           destruct (IH fuel src' (Some (tag ks b)) ((k, v) :: s) ltac:(simpl in Hf; lia) Hy' eq_refl)
             as (st & Hst & Hfd).
           exists st. split; [exact Hst|]. unfold emit. cbn [snd fst]. rewrite Ew.
           eapply found_weaken; [|exact Hfd]. simpl; lia.
      * eexists. split; [reflexivity|].
        eapply (found_storage _ _ _ _ k v s ((kb, w) :: b)); [done|exact Hy'|done|done].
Qed.

Lemma write_value_get {F} w v : write_value w = Some v → WriteOps.get_value (E:=F) w = Val v.
Proof. destruct w; simpl; by intros [= <-]. Qed.

Lemma snap_next fuel src bo s b :
  (length b < fuel)%nat → yields src (items (E:=E) ks s) → represents ks bo b →
  ∃ st', SnapIter.next (E:=E) fuel (mk_SnapshotRangeIterator (Some src) bo None) =
      Val (head (snapshot_items ks (merge s b)), st') ∧
    ∃ src' bo' s' b', st' = mk_SnapshotRangeIterator (Some src') bo' None ∧
      yields src' (items (E:=E) ks s') ∧ represents ks bo' b' ∧ merge s' b' = tail (merge s b) ∧
      (length b' < fuel)%nat.
Proof.
  intros Hf Hy Hb. destruct (find_next_state_found fuel src bo s b Hf Hy Hb) as (st & Hst & Hfd).
  unfold SnapIter.next, SnapIter.ensure_state. cbn [si_ready_item_source]. rewrite Hst. cbn [mbind exec_bind].
  destruct Hfd as [src1 bo1 -> Hy1 Hb1|src1 bo1 k v s1 b1 -> Hy1 Hb1 Hl|src1 k w v s1 b1 Hw -> Hy1 Hl|
    src1 k w v v0 s1 b1 Hw -> Hy1 Hl]; cbn.
  - eexists. split; [reflexivity|]. eexists _, _, [], []. split_and!; [done|done|done|done|simpl; lia].
  - destruct (yields_next _ _ Hy1) as (src2 & Hn & Hy2). rewrite Hn. cbn.
    eexists. split; [reflexivity|]. eexists _, _, s1, b1. split_and!; [done|done|done|done|lia].
  - rewrite (write_value_get _ _ Hw). cbn. eexists. split; [reflexivity|].
    eexists _, _, s1, b1. split_and!; [done|done|done|done|lia].
  - destruct (yields_next _ _ Hy1) as (src2 & Hn & Hy2). rewrite Hn. cbn.
    rewrite (write_value_get _ _ Hw). cbn. eexists. split; [reflexivity|].
    eexists _, _, s1, b1. split_and!; [done|done|done|done|lia].
Qed.

Lemma merge_yields fuel src bo s b :
  (length b < fuel)%nat → yields src (items (E:=E) ks s) → represents ks bo b →
  yields (H:=SnapIter.next (E:=E) fuel) (mk_SnapshotRangeIterator (Some src) bo None)
    (snapshot_items ks (merge s b)).
Proof.
  remember (merge s b) as out eqn:Hout. revert src bo s b Hout.
  induction out as [|kv out IH]; intros src bo s b Hout Hf Hy Hb.
  - constructor. apply (dead_ind (H:=SnapIter.next (E:=E) fuel)
      (λ st, ∃ src bo s b, st = mk_SnapshotRangeIterator (Some src) bo None ∧ (length b < fuel)%nat ∧
        yields src (items (E:=E) ks s) ∧ represents ks bo b ∧ [] = merge s b)).
    + intros st (src0 & bo0 & s0 & b0 & -> & Hf0 & Hy0 & Hb0 & Hm0).
      destruct (snap_next fuel src0 bo0 s0 b0 Hf0 Hy0 Hb0) as (st' & Hn & src' & bo' & s' & b' & -> & ? & ? & Hm & ?).
      rewrite <-Hm0 in Hn, Hm. eexists. split; [exact Hn|]. eexists _, _, s', b'. by split_and!.
    + by eexists _, _, s, b.
  - destruct (snap_next fuel src bo s b Hf Hy Hb) as (st' & Hn & src' & bo' & s' & b' & -> & ? & ? & Hm & ?).
    rewrite <-Hout in Hn, Hm. econstructor; [exact Hn|]. eapply IH; [|done..]. by rewrite Hm.
Qed.
End merge_iterator.

(** The snapshot iterator overlays the buffer on the storage.  Over any
    storage iterator that yields committed pairs in key order and any sorted
    run of buffered writes, the iterator terminates and yields exactly the
    committed map with the buffered writes applied to it: buffered values win
    over stored ones, deleted keys disappear, and the result is in key order. *)
Lemma snapshot_merge_is_overlay {S E} `{StorageSourceLaws S E} fuel (src : S) ks s b :
  (length b < fuel)%nat → bt_wf s → bt_wf b → yields src (items (E:=E) ks s) →
  yields (H:=SnapIter.next (E:=E) fuel) (SnapIter.new src (Some (tag ks b)))
    (snapshot_items ks (apply_writes b s)).
Proof.
  intros Hf Hs Hb Hy. rewrite <-merge_apply_writes by done. by apply merge_yields.
Qed.
#[local] Instance list_source : StorageSource (list (mvcc_item Empty_set)) Empty_set := {|
  ss_next := list_next;
  ss_peek l := Val (head l, l);
  ss_seek _ l := Val l;
|}.
#[local] Instance list_source_laws : StorageSourceLaws (list (mvcc_item Empty_set)) Empty_set.
Proof.
  intros l l' Hy. exists l. assert (l = l') as -> by (eapply yields_functional; [apply list_yields|done]). done.
Qed.
Lemma snapshot_merge_is_overlay_witness :
  let s := [([1], [10]); ([3], [30]); ([5], [50])] in
  let b := [([1], Delete); ([2], Insert [20]); ([3], Put [31] true false)] in
  yields (H:=SnapIter.next (E:=Empty_set) 9) (SnapIter.new (items 0 s) (Some (tag 0 b)))
    [inl ((0, [2]), [20]); inl ((0, [3]), [31]); inl ((0, [5]), [50])].
Proof.
  intros s b. apply (snapshot_merge_is_overlay (E:=Empty_set) 9 (items 0 s) 0 s b);
    [simpl; lia|repeat constructor|repeat constructor|apply list_yields].
Defined.

(** When a stored key is a proper prefix of another, the MVCC iterator yields
    the longer one first; the merge then misses the buffered delete of the
    shorter one and the deleted key is returned. *)
Example prefix_key_delete_missed :
  let vs := [mk_Version [7; 1] 2 OpInsert [71]; mk_Version [7] 3 OpInsert [70]] in
  let ks := mk_MemoryBackend (raw <$> vs) false [] in
  let bufs := <[0%nat := mk_WriteBuffer 0 [([7], Delete)]]> (ob_write_buffers OB.new) in
  let s := mk_WriteSnapshot (mk_OperationsBuffer bufs []) 5 (one_keyspace ks) in
  store_ok vs ∧ Snap.get (0, [7]) s = Val None ∧
  (it ← Snap.iterate_range 0 (new_within [7] false) s;
   li_collect (H:=SnapIter.next (H:=mvcc_source 9) 9) 9 it)
  = Val [inl ((0, [7; 1]), [71]); inl ((0, [7]), [70])].
Proof.
  split; [split|split; vm_compute; reflexivity].
  - repeat constructor.
  - repeat constructor; simpl; unfold is_byte; lia.
  - intros a b Ha Hb. rewrite !elem_of_cons, elem_of_nil in Ha, Hb. naive_solver.
  - intros a b c t Ha Hb. rewrite !elem_of_cons, elem_of_nil in Ha, Hb.
    destruct Ha as [-> |[-> |[]]], Hb as [-> |[-> |[]]]; intros [=]; subst; done.
Qed.

(** ** Range scans of a write snapshot *)
Lemma buffer_range_filter range b q l :
  range_is_bytes range → RangeIter.start_prefix (range_start range) = Val q →
  (∀ s, range_start range ≠ ExcludeFirstWithPrefix s) →
  Forall (λ kw, range_comparable range kw.1) (wb_writes b) →
  WB.iterate_range range b = Val l →
  l = tag (wb_keyspace_id b) (List.filter (λ kw, in_range range q kw.1) (wb_writes b)).
Proof. apply buffer_range_in_range. Qed.

(** The same, for a range whose stored keys are no prefixes of each other and
    whose bounds select the right keys of the buffer. *)
Lemma scan_overlay fuel ksid range q (s : WriteSnapshot) ks vs wb :
  let stored := List.filter (λ v, in_range range q (raw v).1) vs in
  let buffered := List.filter (λ kw, in_range range q kw.1) (wb_writes wb) in
  backend_of ksid (ws_storage s) = Some ks → ob_write_buffers (ws_operations s) !! Z.to_nat ksid = Some wb →
  wb_wf wb → mb_data ks = raw <$> vs → store_ok vs → prefix_free stored → mb_poisoned ks = false →
  is_bytes (start_value (range_start range)) → RangeIter.start_prefix (range_start range) = Val q →
  Forall (λ kv, sliceable (RangeIter.condition_of range) kv.1) (mb_data ks) →
  WB.iterate_range range wb = Val (tag ksid buffered) →
  (length (mb_data ks) < fuel)%nat → (length (wb_writes wb) < fuel)%nat →
  ∃ it out, Snap.iterate_range ksid range s = Val it ∧
    yields (H:=SnapIter.next (H:=mvcc_source fuel) fuel) it (snapshot_items ksid out) ∧ bt_wf out ∧
    ∀ k, bt_get k out = match bt_get k buffered with
                        | Some w => write_value w
                        | None => read (ws_open_sequence_number s) k stored
                        end.
Proof.
  intros stored buffered Hks Hwb Hwf Hd Hok Hpfs Hpo Hr Hq Hsl Hl Hf1 Hf2.
  set (open := ws_open_sequence_number s).
  destruct (scan_yields fuel ksid ks range q open vs) as (m & Hm & Hy); [done..|].
  fold stored in Hy. assert (Hoks : store_ok stored) by (by apply store_ok_filter).
  assert (Hg := store_ok_grouped _ Hoks).
  assert (Hvs : bt_wf (vis open None stored)) by (apply vis_sorted; [done|done|apply answered_None]).
  assert (Hbw : bt_wf buffered) by (by apply bt_wf_filter).
  exists (SnapIter.new m (Some (tag ksid buffered))), (merge (vis open None stored) buffered).
  destruct (merge_spec _ _ Hvs Hbw) as [Hwfm Hget]. split_and!.
  - unfold Snap.iterate_range, OB.writes_in. rewrite Hwb. cbn [unwrap mbind exec_bind].
    rewrite Hl. cbn [mbind exec_bind]. rewrite (keyspace_backend _ _ _ Hks). cbn [mbind exec_bind]. unfold open in Hm. rewrite Hm.
    cbn [mbind exec_bind]. done.
  - apply (merge_yields (H:=mvcc_source fuel)); [|exact Hy|done].
    pose proof (List.filter_length_le (λ kw, in_range range q kw.1) (wb_writes wb)). unfold buffered. lia.
  - done.
  - intros k. rewrite Hget. destruct (bt_get k buffered); [done|].
    apply option_eq. intros v. rewrite bt_get_elem by done.
    rewrite vis_spec by (done || apply answered_None). split; [by intros []|done].
Qed.

(** A range scan of a write snapshot of the in-memory build reads its own
    writes over the committed state: it terminates without a panic and yields,
    in key order, for every key of the range the buffered value if the
    transaction wrote one, nothing if it deleted the key, and otherwise the
    newest committed value at or below the snapshot's sequence number. *)
Lemma snapshot_scan_overlay fuel ksid range q (s : WriteSnapshot) ks vs wb l :
  backend_of ksid (ws_storage s) = Some ks → ob_write_buffers (ws_operations s) !! Z.to_nat ksid = Some wb →
  wb_keyspace_id wb = ksid → wb_wf wb →
  mb_data ks = raw <$> vs → store_ok vs → prefix_free vs → mb_poisoned ks = false →
  range_is_bytes range → RangeIter.start_prefix (range_start range) = Val q →
  (∀ p, range_start range ≠ ExcludeFirstWithPrefix p) →
  Forall (λ kv, sliceable (RangeIter.condition_of range) kv.1) (mb_data ks) →
  Forall (λ kw, range_comparable range kw.1) (wb_writes wb) → WB.iterate_range range wb = Val l →
  (length (mb_data ks) < fuel)%nat → (length (wb_writes wb) < fuel)%nat →
  let stored := List.filter (λ v, in_range range q (raw v).1) vs in
  let buffered := List.filter (λ kw, in_range range q kw.1) (wb_writes wb) in
  ∃ it out, Snap.iterate_range ksid range s = Val it ∧
    yields (H:=SnapIter.next (H:=mvcc_source fuel) fuel) it (snapshot_items ksid out) ∧ bt_wf out ∧
    ∀ k, bt_get k out = match bt_get k buffered with
                        | Some w => write_value w
                        | None => read (ws_open_sequence_number s) k stored
                        end.
Proof.
  intros Hks Hwb Hid Hwf Hd Hok Hpf Hpo Hr Hq Hnf Hsl Hcmp Hl Hf1 Hf2 stored buffered.
  apply (scan_overlay fuel ksid range q s ks vs wb); [done|done|done|done|done| |done|exact (proj1 Hr)|done|done| |done|done].
  - intros a b [Ha _]%elem_of_list_filter_bool [Hb _]%elem_of_list_filter_bool. by apply Hpf.
  - by rewrite Hl, (buffer_range_filter _ _ _ _ Hr Hq Hnf Hcmp Hl), Hid.
Qed.

Example snapshot_scan_example :
  let ks := mk_MemoryBackend (raw <$> example_versions) false [] in
  let wb := mk_WriteBuffer 0 [([1; 1], Put [99] true false); ([1; 2], Delete)] in
  let s := mk_WriteSnapshot (mk_OperationsBuffer [wb] []) 12 (one_keyspace ks) in
  ∃ it out, Snap.iterate_range 0 (new_within [1] true) s = Val it ∧
    yields (H:=SnapIter.next (H:=mvcc_source 5) 5) it (snapshot_items 0 out) ∧ out = [([1; 1], [99])].
Proof.
  intros ks wb s.
  destruct (snapshot_scan_overlay 5 0 (new_within [1] true) [1] s ks example_versions wb
    (tag 0 (wb_writes wb))) as (it & out & Hit & Hy & Hwf & Hget).
  - reflexivity.
  - reflexivity.
  - reflexivity.
  - repeat constructor.
  - reflexivity.
  - exact example_versions_ok.
  - intros x y Hx Hy. unfold example_versions in Hx, Hy. rewrite !elem_of_cons, elem_of_nil in Hx, Hy.
    destruct Hx as [-> |[-> |[-> |[-> |[]]]]], Hy as [-> |[-> |[-> |[-> |[]]]]]; simpl;
      intros [z [=]]; reflexivity.
  - reflexivity.
  - split; [repeat constructor; unfold is_byte; lia|discriminate].
  - reflexivity.
  - discriminate.
  - repeat constructor.
  - repeat constructor; unfold is_byte; simpl; lia || done.
  - reflexivity.
  - simpl; lia.
  - simpl; lia.
  - exists it, out. split; [exact Hit|]. split; [exact Hy|].
    apply bt_ext; [exact Hwf|repeat constructor|]. intros k. rewrite Hget.
    simpl. destruct (cmp k [1; 1]) eqn:E1; try reflexivity;
      destruct (cmp k [1; 2]) eqn:E2; try reflexivity.
    all: apply read_absent; intros x Hx; rewrite !elem_of_cons, elem_of_nil in Hx;
      destruct Hx as [-> |[-> |[-> |[-> |[]]]]]; simpl; intros <-; discriminate.
Defined.

(** ** Point reads and writes of a snapshot *)
Definition key_ok (key : Z * bytes) : Prop := 0 ≤ key.1.

Lemma modify_get_write f key s s' key' b :
  key_ok key → key_ok key' → Snap.modify key.1 f s = Val s' →
  ob_write_buffers (ws_operations s) !! Z.to_nat key.1 = Some b →
  ∃ b', f b = Val b' ∧ ws_storage s' = ws_storage s ∧
    ws_open_sequence_number s' = ws_open_sequence_number s ∧
    Snap.get_write (E:=SnapshotGetError) key' s' =
      if key'.1 =? key.1 then Val (bt_get key'.2 (wb_writes b')) else Snap.get_write key' s.
Proof.
  unfold key_ok. intros Hk Hk' Hm Hb. unfold Snap.modify, OB.writes_in_mut, OB.writes_in in Hm.
  rewrite Hb in Hm. simpl in Hm. destruct (f b) as [b'| |]; simpl in Hm; simplify_eq.
  exists b'. split_and!; [done..|]. unfold Snap.get_write, WB.writes_get. simpl.
  destruct (Z.eqb_spec key'.1 key.1) as [->|Hne].
  - by rewrite list_lookup_insert_eq by (by eapply lookup_lt_Some).
  - by rewrite list_lookup_insert_ne by lia.
Qed.

(** One buffered write of a key changes what is read for that key only. *)
Lemma modify_get key s s' f w key' :
  key_ok key → key_ok key' →
  (∀ b, f b = Val (WB.set_writes (bt_insert key.2 w (wb_writes b)) b)) →
  Snap.modify key.1 f s = Val s' →
  Snap.get key' s' = if bool_decide (key' = key) then Val (write_value w) else Snap.get key' s.
Proof.
  intros Hk Hk' Hf Hm.
  destruct (ob_write_buffers (ws_operations s) !! Z.to_nat key.1) as [b|] eqn:Hb; last first.
  { unfold Snap.modify, OB.writes_in_mut, OB.writes_in in Hm. by rewrite Hb in Hm. }
  destruct (modify_get_write f key s s' key' b Hk Hk' Hm Hb) as (b' & Hfb & Hst & Ho & Hg).
  rewrite Hf in Hfb. injection Hfb as <-. unfold Snap.get. rewrite Hg, Hst, Ho. simpl wb_writes.
  destruct key as [ks k], key' as [ks' k']. cbn [fst snd] in *. case_bool_decide as Heq.
  - injection Heq as -> ->. rewrite Z.eqb_refl, bt_get_insert_eq. cbn [mbind exec_bind]. by destruct w.
  - destruct (Z.eqb_spec ks' ks) as [->|]; [|done]. rewrite bt_get_insert_ne by congruence.
    unfold Snap.get_write, WB.writes_get. cbn [fst snd]. rewrite Hb. done.
Qed.

(** A transaction reads its own writes: after an insert or a put the key
    reads as the written value, after a delete it reads as absent, and every
    other key of every keyspace reads as before. *)
Lemma read_your_writes key value s s' key' :
  key_ok key → key_ok key' →
  (Snap.insert_val key value s = Val s' ∨ Snap.put_val key value s = Val s' →
     Snap.get key' s' = if bool_decide (key' = key) then Val (Some value) else Snap.get key' s) ∧
  (Snap.delete key s = Val s' →
     Snap.get key' s' = if bool_decide (key' = key) then Val None else Snap.get key' s).
Proof.
  intros Hk Hk'. split; [intros [Hm|Hm]|intros Hm].
  - by apply (modify_get _ _ _ _ (Insert value) _ Hk Hk') in Hm.
  - by apply (modify_get _ _ _ _ (Put value false false) _ Hk Hk') in Hm.
  - by apply (modify_get _ _ _ _ Delete _ Hk Hk') in Hm.
Qed.
Lemma read_your_writes_witness :
  let s := mk_WriteSnapshot OB.new 5 (one_keyspace (Memory.new [])) in
  match Snap.insert_val (0, [8]) [9] s with
  | Val s' => Snap.get (0, [8]) s' = Val (Some [9]) ∧ Snap.get (0, [7]) s' = Val None
  | _ => False
  end.
Proof.
  intros s. unfold s. cbn [Snap.insert_val]. 
  destruct (Snap.insert_val (0, [8]) [9] _) as [s'| |] eqn:E; [|vm_compute in E; discriminate..].
  assert (H1 : key_ok (0, [8])) by (unfold key_ok; simpl; lia).
  assert (H2 : key_ok (0, [7])) by (unfold key_ok; simpl; lia).
  split.
  - rewrite (proj1 (read_your_writes (0, [8]) [9] _ s' (0, [8]) H1 H1) (or_introl E)). reflexivity.
  - rewrite (proj1 (read_your_writes (0, [8]) [9] _ s' (0, [7]) H1 H2) (or_introl E)).
    vm_compute. reflexivity.
Defined.

Lemma bt_remove_insert {V} k (v : V) (m : list (bytes * V)) :
  bt_wf m → bt_get k m = None → bt_remove k (bt_insert k v m) = m.
Proof.
  intros Hm Hk. apply bt_ext; [by apply bt_wf_remove, bt_wf_insert|done|]. intros k'.
  rewrite bt_get_remove. destruct (eqb k k') eqn:E; [by apply eqb_eq in E as <-|].
  apply eqb_ne in E. by apply bt_get_insert_ne.
Qed.

Lemma modify_undo key s s' f g w :
  ob_wf (ws_operations s) → Snap.get_write (E:=Empty_set) key s = Val None →
  (∀ b, f b = Val (WB.set_writes (bt_insert key.2 w (wb_writes b)) b)) →
  (∀ b, bt_get key.2 (wb_writes b) = Some w → g b = Val (WB.set_writes (bt_remove key.2 (wb_writes b)) b)) →
  Snap.modify key.1 f s = Val s' → Snap.modify key.1 g s' = Val s.
Proof.
  intros (_ & Hbufs & _) Hg Hf Hgf Hm. unfold Snap.modify, OB.writes_in_mut, OB.writes_in, Snap.get_write in *.
  destruct (ob_write_buffers (ws_operations s) !! Z.to_nat key.1) as [b|] eqn:Hb; [|done]. simpl in *.
  rewrite Hf in Hm. simpl in Hm. injection Hm as <-. simpl.
  rewrite list_lookup_insert_eq by (by eapply lookup_lt_Some). simpl.
  rewrite Hgf by (simpl; apply bt_get_insert_eq). simpl. rewrite list_insert_insert_eq.
  destruct (Hbufs _ _ Hb) as [_ Hwf]. injection Hg as Hg.
  unfold WB.set_writes. simpl. rewrite bt_remove_insert by done.
  destruct s as [[bufs locks] o st], b as [id ws]. simpl in *. unfold Snap.with_operations. simpl.
  by rewrite list_insert_id.
Qed.

(** [uninsert] undoes [insert] and [unput] undoes [put]: on a key the
    transaction had not touched, doing and undoing the write restores the
    snapshot exactly, and the undo does not panic. *)
Lemma undo_restores_snapshot key value s s' :
  ob_wf (ws_operations s) → Snap.get_write (E:=Empty_set) key s = Val None →
  (Snap.insert_val key value s = Val s' → Snap.uninsert_val key value s' = Val s) ∧
  (Snap.put_val key value s = Val s' → Snap.unput_val key value s' = Val s).
Proof.
  intros Hwf Hg. split; intros Hm.
  - eapply (modify_undo key s s' _ _ (Insert value)); [done|done| | |exact Hm]; [done|].
    intros b Hb. unfold WB.uninsert. rewrite Hb. by rewrite bool_decide_eq_true_2.
  - eapply (modify_undo key s s' _ _ (Put value false false)); [done|done| | |exact Hm]; [done|].
    intros b Hb. unfold WB.unput. rewrite Hb. by rewrite bool_decide_eq_true_2.
Qed.
Lemma undo_restores_snapshot_witness :
  let s := mk_WriteSnapshot OB.new 5 KSS.new in
  ∃ s', Snap.put_val (3, [8]) [9] s = Val s' ∧ Snap.unput_val (3, [8]) [9] s' = Val s.
Proof.
  intros s. eexists. split; [reflexivity|].
  apply (undo_restores_snapshot (3, [8]) [9] s); [exact ob_wf_new|reflexivity|reflexivity].
Defined.

(** [get_required] returns the value [get] returns and errors exactly when
    [get] finds nothing; it takes an [Unmodifiable] lock on the key exactly when
    the value comes from storage and not from the transaction's own writes. *)
Lemma get_required_spec key s r :
  Snap.get_required key s = r →
  match Snap.get key s with
  | Val (Some value) =>
      ∃ s', r = Val (value, s') ∧
        ws_operations s' =
          match Snap.get_write (E:=Empty_set) key s with
          | Val None => OB.lock_add key.2 Unmodifiable (ws_operations s)
          | _ => ws_operations s
          end
  | Val None => r = Err (ExpectedRequiredKeyToExist key)
  | Err e => r = Err e
  | Panic => r = Panic
  end.
Proof.
  intros <-. unfold Snap.get_required, Snap.get at 1, Snap.get_write.
  destruct (ob_write_buffers (ws_operations s) !! Z.to_nat key.1) as [b|] eqn:Eb; simpl; [|done].
  destruct (WB.writes_get key.2 b) as [[v|v ? ?|]|] eqn:Ew; [by eexists|by eexists|done|].
  unfold Snap.get, Snap.get_write. rewrite Eb. simpl. rewrite Ew.
  destruct (Snap.mvcc_get _ _ _) as [[v|]| |]; try done. by eexists.
Qed.
Lemma get_required_spec_witness :
  let ks := mk_MemoryBackend (raw <$> example_versions) false [] in
  let s := mk_WriteSnapshot OB.new 5 (one_keyspace ks) in
  Snap.get (0, [1; 2]) s = Val (Some [23]) ∧
  ∃ s', Snap.get_required (0, [1; 2]) s = Val ([23], s') ∧
      ob_locks (ws_operations s') = [([1; 2], Unmodifiable)].
Proof.
  intros ks s. assert (E : Snap.get (0, [1; 2]) s = Val (Some [23])) by (vm_compute; reflexivity).
  split; [exact E|]. pose proof (get_required_spec (0, [1; 2]) s _ eq_refl) as Hr. rewrite E in Hr.
  destruct Hr as (s' & Hr & Ho). exists s'. split; [exact Hr|]. rewrite Ho. reflexivity.
Defined.

(** ** The put status of a commit *)
Lemma map_exec_Forall2 {A B E} (f : A → exec E B) l r :
  Snap.map_exec f l = Val r ↔ Forall2 (λ x y, f x = Val y) l r.
Proof.
  revert r. induction l as [|x l IH]; intros r; simpl.
  - split; [by intros [= <-]|by inversion 1].
  - destruct (f x) as [y| |] eqn:Ey; simpl.
    + destruct (Snap.map_exec f l) as [ys| |]; simpl.
      * split; [intros [= <-]; constructor; [done|by apply IH]|].
        inversion 1 as [|? ? ? ? Hy Hys]; subst. apply IH in Hys. congruence.
      * split; [done|]. inversion 1 as [|? ? ? ? Hy Hys]; subst. by apply IH in Hys.
      * split; [done|]. inversion 1 as [|? ? ? ? Hy Hys]; subst. by apply IH in Hys.
    + split; [done|]. inversion 1. congruence.
    + split; [done|]. inversion 1. congruence.
Qed.

(** What the status check makes of one buffered write of [k]. *)
Definition checked (open : Z) (vs : list Version) (k : bytes) (w : Write) : Write :=
  match w with
  | Put value _ true => Put value false true
  | Put value _ false => Put value (negb (bool_decide (read open k vs = Some value))) false
  | w => w
  end.

Lemma put_status_checked storage open ks backend vs kw kw' :
  backend_of ks storage = Some backend → mb_data backend = raw <$> vs → store_ok vs →
  mb_poisoned backend = false → is_bytes kw.1 →
  Snap.put_status storage open ks kw = Val kw' → kw' = (kw.1, checked open vs kw.1 kw.2).
Proof.
  intros Hs Hd Hok Hp Hk. destruct kw as [k w]. unfold Snap.put_status. simpl in *.
  destruct w as [v|v r []|]; try (by intros [= <-]).
  rewrite (keyspace_backend _ _ _ Hs). simpl. unfold MVCCStorage.get.
  rewrite (get_mapped_spec ks backend k open (λ v, v) vs) by done. simpl. intros [= <-].
  by rewrite option_fmap_id.
Qed.

Lemma checked_writes storage open ks backend vs writes writes' :
  backend_of ks storage = Some backend → mb_data backend = raw <$> vs → store_ok vs →
  mb_poisoned backend = false → Forall is_bytes writes.*1 →
  Forall2 (λ x y, Snap.put_status storage open ks x = Val y) writes writes' →
  ∀ k, bt_get k writes' = checked open vs k <$> bt_get k writes.
Proof.
  intros Hs Hd Hok Hp Hk Hf k. revert Hk. induction Hf as [|x y l l' Hxy _ IH]; csimpl; intros Hk; [done|].
  inversion Hk as [|?? Hx Hk']; subst.
  apply (put_status_checked _ _ _ _ _ _ _ Hs Hd Hok Hp Hx) in Hxy as ->.
  destruct x as [kx w]. simpl. destruct (cmp k kx) eqn:E; [|by apply IH..].
  apply cmp_eq in E as ->. done.
Qed.

(** The put status check of a commit is exact: for every buffered put that
    was not known to exist, the [reinsert] flag becomes true exactly when the
    value committed at the snapshot's sequence number differs from the put
    value; other writes are unchanged.  Consequently applying the checked put
    over the state the snapshot read always results in the put value. *)
Lemma put_status_exact s s' ks wb backend vs :
  Snap.set_initial_put_status s = Val s' →
  ob_write_buffers (ws_operations s) !! Z.to_nat ks = Some wb → wb_keyspace_id wb = ks →
  backend_of ks (ws_storage s) = Some backend → mb_data backend = raw <$> vs → store_ok vs →
  mb_poisoned backend = false → Forall is_bytes (wb_writes wb).*1 →
  ∃ wb', ob_write_buffers (ws_operations s') !! Z.to_nat ks = Some wb' ∧
    (∀ k, bt_get k (wb_writes wb') = checked (ws_open_sequence_number s) vs k <$> bt_get k (wb_writes wb)) ∧
    ∀ k v r, bt_get k (wb_writes wb) = Some (Put v r false) →
      overlay (bt_get k (wb_writes wb')) (read (ws_open_sequence_number s) k vs) = Some v.
Proof.
  intros Hset Hwb Hid Hst Hd Hok Hp Hk. unfold Snap.set_initial_put_status in Hset.
  destruct (Snap.map_exec _ _) as [bufs| |] eqn:Em; simpl in Hset; simplify_eq/=.
  apply map_exec_Forall2 in Em. destruct (Forall2_lookup_l _ _ _ _ _ Em Hwb) as (wb' & Hwb' & Hb).
  unfold Snap.buffer_put_status in Hb.
  destruct (Snap.map_exec _ (wb_writes wb)) as [ws| |] eqn:Ew; simpl in Hb; simplify_eq.
  apply map_exec_Forall2 in Ew.
  assert (Hget := checked_writes _ _ _ _ _ _ _ Hst Hd Hok Hp Hk Ew).
  eexists. split_and!; [exact Hwb'|exact Hget|]. intros k v r Hkv. simpl. rewrite Hget, Hkv. simpl.
  case_bool_decide as Hr; simpl; done.
Qed.
Lemma put_status_exact_witness :
  let ks := mk_MemoryBackend (raw <$> example_versions) false [] in
  let wb := mk_WriteBuffer 0 [([1; 1], Put [41] true false); ([1; 2], Put [99] false false)] in
  let s := mk_WriteSnapshot (mk_OperationsBuffer [wb] []) 5 (one_keyspace ks) in
  ∃ s' wb', Snap.set_initial_put_status s = Val s' ∧
    ob_write_buffers (ws_operations s') !! 0%nat = Some wb' ∧
    bt_get [1; 1] (wb_writes wb') = Some (Put [41] false false) ∧
    bt_get [1; 2] (wb_writes wb') = Some (Put [99] true false).
Proof.
  intros ks wb s.
  assert (∃ s', Snap.set_initial_put_status s = Val s') as [s' Hs'] by (eexists; vm_compute; reflexivity).
  destruct (put_status_exact s s' 0 wb ks example_versions) as (wb' & Hwb' & Hget & _);
    [exact Hs'|reflexivity|reflexivity|reflexivity|reflexivity|exact example_versions_ok|reflexivity|
     repeat constructor; unfold is_byte; simpl; lia|].
  exists s', wb'. split; [exact Hs'|]. split; [exact Hwb'|]. rewrite !Hget. split; reflexivity.
Defined.
