(* ===== verification/Dependency.v ===== *)
(** * Commit records and their dependencies: [storage/isolation_manager.rs]
    ([CommitRecord::compute_dependency], [handle_dependency])

    Which pairs of concurrent transactions conflict, and which puts of the
    later one must change their [reinsert] flag.  A flag is an
    [Arc<AtomicBool>] shared by the record and the dependency computed from it;
    the model names it by the buffer and key it belongs to and updates the
    record in place. *)
From S2P Require Import Prelude BTree Bytes MemoryStore Buffer Mvcc Snapshot.

Inductive CommitType := CommitData | CommitSchema.

Record CommitRecord := mk_CommitRecord {
  cr_operations : OperationsBuffer;
  cr_open_sequence_number : Z;
  cr_commit_type : CommitType;
}.

Inductive IsolationConflict := DeletingRequiredKey | RequireDeletedKey | ExclusiveLock.

(** The flag of the put of a key in a buffer. *)
Abbreviation flag := (nat * bytes)%type.
Inductive DependentPut :=
| PutDeleted (reinsert : flag)
| PutInserted (reinsert : flag).

Inductive CommitDependency :=
| Independent
| DependentPuts (puts : list DependentPut)
| Conflict (conflict : IsolationConflict).

Module Dep.
(** The loop over the writes of one buffer: [inr] is the early return. *)
Fixpoint scan_writes (i : nat) (writes predecessor_writes : list (bytes * Write))
    (predecessor_locks : list (bytes * LockType)) (puts : list DependentPut)
  : list DependentPut + IsolationConflict :=
  match writes with
  | [] => inl puts
  | (key, write) :: writes =>
      let puts :=
        match bt_get key predecessor_writes with
        | Some predecessor_write =>
            match predecessor_write, write with
            | (Insert _ | Put _ _ _), Put _ _ _ => puts ++ [PutInserted (i, key)]
            | Delete, Put _ _ _ => puts ++ [PutDeleted (i, key)]
            | _, _ => puts
            end
        | None => puts
        end in
      match write, bt_get key predecessor_locks with
      | Delete, Some Unmodifiable => inr DeletingRequiredKey
      | _, _ => scan_writes i writes predecessor_writes predecessor_locks puts
      end
  end.

(** The loop over our locks against the writes of one predecessor buffer. *)
Fixpoint scan_locks (locks : list (bytes * LockType)) (predecessor_writes : list (bytes * Write))
  : option IsolationConflict :=
  match locks with
  | [] => None
  | (key, lock) :: locks =>
      match lock, bt_get key predecessor_writes with
      | Unmodifiable, Some Delete => Some RequireDeletedKey
      | _, _ => scan_locks locks predecessor_writes
      end
  end.

Fixpoint scan_buffers (i : nat) (buffers predecessor_buffers : list WriteBuffer)
    (locks predecessor_locks : list (bytes * LockType)) (puts : list DependentPut)
  : list DependentPut + IsolationConflict :=
  match buffers, predecessor_buffers with
  | b :: bs, p :: ps =>
      match scan_writes i (wb_writes b) (wb_writes p) predecessor_locks puts with
      | inr c => inr c
      | inl puts =>
          match scan_locks locks (wb_writes p) with
          | Some c => inr c
          | None => scan_buffers (S i) bs ps locks predecessor_locks puts
          end
      end
  | _, _ => inl puts
  end.

Fixpoint scan_exclusive (locks predecessor_locks : list (bytes * LockType)) : option IsolationConflict :=
  match locks with
  | [] => None
  | (key, lock) :: locks =>
      match lock, bt_get key predecessor_locks with
      | Exclusive, Some Exclusive => Some ExclusiveLock
      | _, _ => scan_exclusive locks predecessor_locks
      end
  end.

Definition compute_dependency (self predecessor : CommitRecord) : CommitDependency :=
  let locks := ob_locks (cr_operations self) in
  let predecessor_locks := ob_locks (cr_operations predecessor) in
  match scan_buffers 0 (ob_write_buffers (cr_operations self))
          (ob_write_buffers (cr_operations predecessor)) locks predecessor_locks [] with
  | inr c => Conflict c
  | inl puts =>
      match scan_exclusive locks predecessor_locks with
      | Some c => Conflict c
      | None => match puts with [] => Independent | _ => DependentPuts puts end
      end
  end.

(** Storing into a flag of the record. *)
Definition set_reinsert (b : bool) (w : Write) : Write :=
  match w with Put v _ k => Put v b k | w => w end.
Definition alter_write (key : bytes) (f : Write → Write) (ws : list (bytes * Write)) : list (bytes * Write) :=
  List.map (λ kw : bytes * Write, if eqb key kw.1 then (kw.1, f kw.2) else kw) ws.
Definition store (fl : flag) (b : bool) (r : CommitRecord) : CommitRecord :=
  mk_CommitRecord
    (mk_OperationsBuffer
       (alter (λ wb, WB.set_writes (alter_write fl.2 (set_reinsert b) (wb_writes wb)) wb) fl.1
          (ob_write_buffers (cr_operations r)))
       (ob_locks (cr_operations r)))
    (cr_open_sequence_number r) (cr_commit_type r).
Definition apply (p : DependentPut) (r : CommitRecord) : CommitRecord :=
  match p with
  | PutDeleted fl => store fl true r
  | PutInserted fl => store fl false r
  end.

Definition handle_dependency (d : CommitDependency) (r : CommitRecord)
  : option IsolationConflict * CommitRecord :=
  match d with
  | Independent => (None, r)
  | DependentPuts puts => (None, fold_left (λ r p, apply p r) puts r)
  | Conflict c => (Some c, r)
  end.
End Dep.

(** ** What is a conflict *)
Definition deletes (o : OperationsBuffer) (k : bytes) : Prop :=
  ∃ i wb, ob_write_buffers o !! i = Some wb ∧ bt_get k (wb_writes wb) = Some Delete.
Definition locks_as (o : OperationsBuffer) (k : bytes) (l : LockType) : Prop := bt_get k (ob_locks o) = Some l.

(** The transaction deletes a key the predecessor requires, requires a key the
    predecessor deletes, or takes an exclusive lock the predecessor took. *)
Definition conflicting (self predecessor : OperationsBuffer) : Prop :=
  (∃ k, deletes self k ∧ locks_as predecessor k Unmodifiable) ∨
  (∃ k, locks_as self k Unmodifiable ∧ deletes predecessor k) ∨
  (∃ k, locks_as self k Exclusive ∧ locks_as predecessor k Exclusive).

Lemma scan_writes_spec i ws pws pl puts :
  match Dep.scan_writes i ws pws pl puts with
  | inr c => c = DeletingRequiredKey ∧ ∃ k, (k, Delete) ∈ ws ∧ bt_get k pl = Some Unmodifiable
  | inl _ => ∀ k, (k, Delete) ∈ ws → bt_get k pl ≠ Some Unmodifiable
  end.
Proof.
  revert puts. induction ws as [|[k w] ws IH]; intros puts; simpl; [by intros k ?%not_elem_of_nil|].
  set (puts' := match bt_get k pws with Some _ => _ | None => _ end). specialize (IH puts').
  assert (Hcont : (w = Delete → bt_get k pl ≠ Some Unmodifiable) →
    match Dep.scan_writes i ws pws pl puts' with
    | inr c => c = DeletingRequiredKey ∧ ∃ k0, (k0, Delete) ∈ (k, w) :: ws ∧ bt_get k0 pl = Some Unmodifiable
    | inl _ => ∀ k0, (k0, Delete) ∈ (k, w) :: ws → bt_get k0 pl ≠ Some Unmodifiable
    end).
  { intros Hw. destruct (Dep.scan_writes i ws pws pl puts').
    - intros k0 [Heq|?]%elem_of_cons; [|by apply IH]. injection Heq as -> Hd. by apply Hw.
    - destruct IH as (? & k0 & ? & ?). split; [done|]. exists k0. split; [by right|done]. }
  destruct w as [v|v r x|]; [by apply Hcont..|].
  destruct (bt_get k pl) as [[]|] eqn:El; [|by apply Hcont..].
  split; [done|]. exists k. split; [by left|done].
Qed.

Lemma scan_locks_spec ls pws :
  match Dep.scan_locks ls pws with
  | Some c => c = RequireDeletedKey ∧ ∃ k, (k, Unmodifiable) ∈ ls ∧ bt_get k pws = Some Delete
  | None => ∀ k, (k, Unmodifiable) ∈ ls → bt_get k pws ≠ Some Delete
  end.
Proof.
  induction ls as [|[k l] ls IH]; simpl; [by intros k ?%not_elem_of_nil|].
  assert (Hcont : (l = Unmodifiable → bt_get k pws ≠ Some Delete) →
    match Dep.scan_locks ls pws with
    | Some c => c = RequireDeletedKey ∧ ∃ k0, (k0, Unmodifiable) ∈ (k, l) :: ls ∧ bt_get k0 pws = Some Delete
    | None => ∀ k0, (k0, Unmodifiable) ∈ (k, l) :: ls → bt_get k0 pws ≠ Some Delete
    end).
  { intros Hl. destruct (Dep.scan_locks ls pws).
    - destruct IH as (? & k0 & ? & ?). split; [done|]. exists k0. split; [by right|done].
    - intros k0 [Heq|?]%elem_of_cons; [|by apply IH]. injection Heq as -> Hd. by apply Hl. }
  destruct l; [|by apply Hcont]. destruct (bt_get k pws) as [[]|] eqn:E; [by apply Hcont..| |by apply Hcont].
  split; [done|]. exists k. split; [by left|done].
Qed.

Lemma scan_exclusive_spec ls pl :
  match Dep.scan_exclusive ls pl with
  | Some c => c = ExclusiveLock ∧ ∃ k, (k, Exclusive) ∈ ls ∧ bt_get k pl = Some Exclusive
  | None => ∀ k, (k, Exclusive) ∈ ls → bt_get k pl ≠ Some Exclusive
  end.
Proof.
  induction ls as [|[k l] ls IH]; simpl; [by intros k ?%not_elem_of_nil|].
  assert (Hcont : (l = Exclusive → bt_get k pl ≠ Some Exclusive) →
    match Dep.scan_exclusive ls pl with
    | Some c => c = ExclusiveLock ∧ ∃ k0, (k0, Exclusive) ∈ (k, l) :: ls ∧ bt_get k0 pl = Some Exclusive
    | None => ∀ k0, (k0, Exclusive) ∈ (k, l) :: ls → bt_get k0 pl ≠ Some Exclusive
    end).
  { intros Hl. destruct (Dep.scan_exclusive ls pl).
    - destruct IH as (? & k0 & ? & ?). split; [done|]. exists k0. split; [by right|done].
    - intros k0 [Heq|?]%elem_of_cons; [|by apply IH]. injection Heq as -> Hd. by apply Hl. }
  destruct l; [by apply Hcont|]. destruct (bt_get k pl) as [[]|] eqn:E; [by apply Hcont| |by apply Hcont].
  split; [done|]. exists k. split; [by left|done].
Qed.

(** ** The dependency of two records *)
Definition dependent_put (i : nat) (predecessor_writes : list (bytes * Write)) (kw : bytes * Write)
  : option DependentPut :=
  match kw.2, bt_get kw.1 predecessor_writes with
  | Put _ _ _, Some Delete => Some (PutDeleted (i, kw.1))
  | Put _ _ _, Some _ => Some (PutInserted (i, kw.1))
  | _, _ => None
  end.

Lemma scan_writes_puts i ws pws pl puts puts' :
  Dep.scan_writes i ws pws pl puts = inl puts' → puts' = puts ++ omap (dependent_put i pws) ws.
Proof.
  revert puts. induction ws as [|[k w] ws IH]; intros puts; csimpl.
  { intros [= <-]. by rewrite app_nil_r. }
  intros Hs. assert (Hs' : Dep.scan_writes i ws pws pl
    (puts ++ match dependent_put i pws (k, w) with Some p => [p] | None => [] end) = inl puts').
  { revert Hs. unfold dependent_put. simpl.
    destruct w as [v|v r x|], (bt_get k pws) as [[]|]; rewrite ?app_nil_r; try done;
      by destruct (bt_get k pl) as [[]|]. }
  apply IH in Hs'. rewrite Hs', <-app_assoc. by destruct (dependent_put i pws (k, w)).
Qed.

Lemma scan_buffers_spec i bs ps ls pl puts :
  length bs = length ps →
  match Dep.scan_buffers i bs ps ls pl puts with
  | inr _ => ∃ j b p, bs !! j = Some b ∧ ps !! j = Some p ∧
      ((∃ k, (k, Delete) ∈ wb_writes b ∧ bt_get k pl = Some Unmodifiable) ∨
       (∃ k, (k, Unmodifiable) ∈ ls ∧ bt_get k (wb_writes p) = Some Delete))
  | inl puts' =>
      (∀ j b p, bs !! j = Some b → ps !! j = Some p →
        (∀ k, (k, Delete) ∈ wb_writes b → bt_get k pl ≠ Some Unmodifiable) ∧
        (∀ k, (k, Unmodifiable) ∈ ls → bt_get k (wb_writes p) ≠ Some Delete)) ∧
      (∀ x, x ∈ puts' ↔ x ∈ puts ∨ ∃ j b p, bs !! j = Some b ∧ ps !! j = Some p ∧
        ∃ kw, kw ∈ wb_writes b ∧ dependent_put (i + j) (wb_writes p) kw = Some x)
  end.
Proof.
  revert i ps puts. induction bs as [|b bs IH]; intros i [|p ps] puts Hlen; try done; simpl.
  { split; [done|]. intros x. split; [by left|]. intros [|(j & ? & ? & ? & _)]; [done|].
    by rewrite lookup_nil in *. }
  pose proof (scan_writes_spec i (wb_writes b) (wb_writes p) pl puts) as Hw.
  destruct (Dep.scan_writes i _ _ _ _) as [puts1|c] eqn:Ew; last first.
  { destruct Hw as (_ & k & ? & ?). exists 0%nat, b, p. split_and!; [done|done|]. left. by exists k. }
  pose proof (scan_locks_spec ls (wb_writes p)) as Hl. destruct (Dep.scan_locks _ _) as [c|] eqn:El.
  { destruct Hl as (_ & k & ? & ?). exists 0%nat, b, p. split_and!; [done|done|]. right. by exists k. }
  specialize (IH (S i) ps puts1 ltac:(simpl in Hlen; lia)).
  destruct (Dep.scan_buffers (S i) _ _ _ _ _) as [puts'|c].
  - destruct IH as [Hno Hin]. split.
    + intros [|j] b0 p0 Hb0 Hp0; simpl in *; simplify_eq; [done|]. by eapply Hno.
    + apply scan_writes_puts in Ew. intros x. rewrite Hin, Ew, elem_of_app, list_elem_of_omap. split.
      * intros [[?|(kw & ? & ?)]|(j & b0 & p0 & ? & ? & kw & ? & Hd)]; [by left| |]; right.
        -- exists 0%nat, b, p. rewrite Nat.add_0_r. split_and!; [done|done|]. by exists kw.
        -- exists (S j), b0, p0. split_and!; [done|done|]. exists kw.
           by replace (i + S j)%nat with (S i + j)%nat by lia.
      * intros [?|(j & b0 & p0 & Hb0 & Hp0 & kw & ? & Hd)]; [by left; left|].
        destruct j as [|j]; simpl in *; simplify_eq.
        -- left. right. exists kw. by rewrite Nat.add_0_r in Hd.
        -- right. exists j, b0, p0. split_and!; [done|done|]. exists kw.
           by replace (S (i + j)) with (i + S j)%nat by lia.
  - destruct IH as (j & b0 & p0 & ? & ? & Hc). by exists (S j), b0, p0.
Qed.

Section dependency.
Context (self pred : CommitRecord).
Context (Hself : ob_wf (cr_operations self)) (Hpred : ob_wf (cr_operations pred)).
Let bs := ob_write_buffers (cr_operations self).
Let ps := ob_write_buffers (cr_operations pred).

Lemma buffers_paired : length bs = length ps.
Proof. unfold bs, ps. by rewrite (proj1 Hself), (proj1 Hpred). Qed.
Lemma paired_l j b : bs !! j = Some b → ∃ p, ps !! j = Some p.
Proof. intros Hb. apply lookup_lt_is_Some. rewrite <-buffers_paired. by eapply lookup_lt_Some. Qed.
Lemma paired_r j p : ps !! j = Some p → ∃ b, bs !! j = Some b.
Proof. intros Hp. apply lookup_lt_is_Some. rewrite buffers_paired. by eapply lookup_lt_Some. Qed.

Lemma lock_elem o k l : ob_wf o → (k, l) ∈ ob_locks o ↔ locks_as o k l.
Proof. intros (_ & _ & Hl). unfold locks_as. symmetry. by apply bt_get_elem. Qed.
Lemma write_elem o i wb k w :
  ob_wf o → ob_write_buffers o !! i = Some wb → (k, w) ∈ wb_writes wb ↔ bt_get k (wb_writes wb) = Some w.
Proof. intros (_ & Hb & _) Hi. symmetry. apply bt_get_elem. by apply (Hb i). Qed.

Lemma compute_dependency_spec :
  match Dep.compute_dependency self pred with
  | Conflict _ => conflicting (cr_operations self) (cr_operations pred)
  | _ => ¬ conflicting (cr_operations self) (cr_operations pred)
  end.
Proof.
  unfold Dep.compute_dependency. fold bs ps.
  pose proof (scan_buffers_spec 0 bs ps (ob_locks (cr_operations self)) (ob_locks (cr_operations pred)) []
    buffers_paired) as Hs.
  destruct (Dep.scan_buffers _ _ _ _ _ _) as [puts|c].
  - destruct Hs as [Hno _]. pose proof (scan_exclusive_spec (ob_locks (cr_operations self))
      (ob_locks (cr_operations pred))) as He.
    destruct (Dep.scan_exclusive _ _) as [c|].
    + destruct He as (_ & k & Hk & Hp). right. right. exists k. split; [by apply lock_elem|done].
    + assert (¬ conflicting (cr_operations self) (cr_operations pred)) as Hn; [|by destruct puts].
      intros [(k & (j & b & Hb & Hd) & Hl)|[(k & Hl & (j & p & Hp & Hd))|(k & Hl & Hp)]].
      * destruct (paired_l _ _ Hb) as [p Hp]. destruct (Hno j b p Hb Hp) as [H1 _].
        apply (H1 k); [|exact Hl]. by apply (write_elem _ _ _ _ _ Hself Hb).
      * destruct (paired_r _ _ Hp) as [b Hb]. destruct (Hno j b p Hb Hp) as [_ H2].
        apply (H2 k); [by apply lock_elem|done].
      * apply (He k); [by apply lock_elem|done].
  - destruct Hs as (j & b & p & Hb & Hp & [(k & Hk & Hl)|(k & Hk & Hl)]).
    + left. exists k. split; [|exact Hl]. exists j, b. split; [done|]. by apply (write_elem _ _ _ _ _ Hself Hb).
    + right. left. exists k. split; [by apply lock_elem|]. by exists j, p.
Qed.
End dependency.

(** C6: conflict detection is exact: [compute_dependency] reports a conflict
    if and only if the transaction deletes a key the predecessor locked as
    required, locked as required a key the predecessor deletes, or both took
    the same exclusive lock. *)
Theorem conflict_detection_exact self pred :
  ob_wf (cr_operations self) → ob_wf (cr_operations pred) →
  (∃ c, Dep.compute_dependency self pred = Conflict c) ↔
  conflicting (cr_operations self) (cr_operations pred).
Proof.
  intros Hs Hp. pose proof (compute_dependency_spec self pred Hs Hp) as Hc.
  destruct (Dep.compute_dependency self pred) as [|puts|c].
  - split; [by intros [? ?]|done].
  - split; [by intros [? ?]|done].
  - split; [done|]. by exists c.
Qed.
Lemma conflict_detection_exact_witness :
  let self := mk_CommitRecord (OB.lock_add [7] Unmodifiable OB.new) 3 CommitData in
  let pred := mk_CommitRecord
    (mk_OperationsBuffer (<[4%nat := mk_WriteBuffer 4 [([7], Delete)]]> (ob_write_buffers OB.new)) []) 3 CommitData in
  conflicting (cr_operations self) (cr_operations pred).
Proof.
  intros self pred. apply (conflict_detection_exact self pred).
  - apply (operations_buffer_shape_lock [7] Unmodifiable), ob_wf_new.
  - apply (ob_wf_writes_in_mut 4 (λ b, Val (WB.delete [7] b)) OB.new);
      [apply wb_preserves_set; intros b Hb; by apply bt_wf_insert|apply ob_wf_new|reflexivity].
  - exists RequireDeletedKey. vm_compute. reflexivity.
Defined.

(** ** The flags of dependent puts *)
Definition record_write (r : CommitRecord) (i : nat) (k : bytes) : option Write :=
  wb ← ob_write_buffers (cr_operations r) !! i; bt_get k (wb_writes wb).

Definition put_flag (p : DependentPut) : flag := match p with PutDeleted f | PutInserted f => f end.
Definition put_value (p : DependentPut) : bool := match p with PutDeleted _ => true | PutInserted _ => false end.

Lemma bt_get_alter_write key f ws k :
  bt_get k (Dep.alter_write key f ws) = if eqb key k then f <$> bt_get k ws else bt_get k ws.
Proof.
  induction ws as [|[k' w] ws IH]; simpl; [by destruct (eqb key k)|].
  destruct (eqb key k') eqn:E; simpl; destruct (cmp k k') eqn:E'; try apply IH.
  - apply cmp_eq in E' as ->. by rewrite E.
  - apply cmp_eq in E' as ->. by rewrite E.
Qed.

Lemma record_write_apply p r i k :
  record_write (Dep.apply p r) i k =
    if bool_decide (put_flag p = (i, k)) then Dep.set_reinsert (put_value p) <$> record_write r i k
    else record_write r i k.
Proof.
  assert (Hs : ∀ fl b, record_write (Dep.store fl b r) i k =
    if bool_decide (fl = (i, k)) then Dep.set_reinsert b <$> record_write r i k else record_write r i k).
  { intros [j kj] b. unfold record_write, Dep.store. cbn [cr_operations ob_write_buffers fst snd].
    destruct (decide (j = i)) as [->|Hne]; last first.
    { rewrite list_lookup_alter_ne by done. by rewrite bool_decide_eq_false_2 by congruence. }
    rewrite list_lookup_alter_eq. destruct (ob_write_buffers (cr_operations r) !! i) as [wb|]; simpl; [|by case_bool_decide].
    rewrite bt_get_alter_write. destruct (eqb kj k) eqn:E.
    - apply eqb_eq in E as ->. by rewrite bool_decide_eq_true_2.
    - apply eqb_ne in E. by rewrite bool_decide_eq_false_2 by congruence. }
  destruct p; apply Hs.
Qed.

Lemma set_reinsert_idem b w : Dep.set_reinsert b (Dep.set_reinsert b w) = Dep.set_reinsert b w.
Proof. by destruct w. Qed.

Lemma record_write_fold puts r i k :
  (∀ p, p ∈ puts → put_flag p ≠ (i, k)) →
  record_write (fold_left (λ r p, Dep.apply p r) puts r) i k = record_write r i k.
Proof.
  revert r. induction puts as [|p puts IH]; intros r Hp; simpl; [done|].
  rewrite IH by (intros q ?; apply Hp; by right). rewrite record_write_apply.
  by rewrite bool_decide_eq_false_2 by (apply Hp; by left).
Qed.
Lemma record_write_fold_value puts r i k b :
  (∀ p, p ∈ puts → put_flag p = (i, k) → put_value p = b) → (∃ p, p ∈ puts ∧ put_flag p = (i, k)) →
  record_write (fold_left (λ r p, Dep.apply p r) puts r) i k = Dep.set_reinsert b <$> record_write r i k.
Proof.
  revert r. induction puts as [|p puts IH]; intros r Hv [q [Hq Hf]]; [by apply not_elem_of_nil in Hq|]. simpl.
  assert (Hv' : ∀ p, p ∈ puts → put_flag p = (i, k) → put_value p = b) by (intros ??; apply Hv; by right).
  assert (Hhere : put_flag p = (i, k) → record_write (Dep.apply p r) i k = Dep.set_reinsert b <$> record_write r i k).
  { intros Hp. rewrite record_write_apply, bool_decide_eq_true_2, (Hv p) by (done || by left). done. }
  destruct (decide (Exists (λ p, put_flag p = (i, k)) puts)) as [Hex|Hno].
  - apply Exists_exists in Hex. rewrite IH by done. destruct (decide (put_flag p = (i, k))) as [Hp|Hp].
    + rewrite Hhere by done. rewrite <-option_fmap_compose. by destruct (record_write r i k) as [w|]; simpl;
        rewrite ?set_reinsert_idem.
    + rewrite record_write_apply. by rewrite bool_decide_eq_false_2.
  - rewrite record_write_fold.
    + apply Hhere. apply elem_of_cons in Hq as [->|Hq]; [done|]. destruct Hno. apply Exists_exists. eauto.
    + intros p' Hp' Hfp. apply Hno. apply Exists_exists. eauto.
Qed.

(** What the predecessor's write makes of ours. *)
Definition rebased (w pw : option Write) : option Write :=
  match w, pw with
  | Some (Put v _ x), Some Delete => Some (Put v true x)
  | Some (Put v _ x), Some _ => Some (Put v false x)
  | w, _ => w
  end.

Lemma dependent_put_spec i pws k w x :
  dependent_put i pws (k, w) = Some x →
  put_flag x = (i, k) ∧ (∃ v r y, w = Put v r y) ∧
  ∃ pw, bt_get k pws = Some pw ∧ put_value x = WriteOps.is_delete pw.
Proof.
  unfold dependent_put. simpl. destruct w as [|v r y|]; [done| |done].
  destruct (bt_get k pws) as [[]|] eqn:E; intros [= <-]; simpl; split_and!; eauto.
Qed.

(** C37: validation against a predecessor rebases the puts of the transaction
    and nothing else.  For well-formed records without a conflict, the flag of
    each put of a key the predecessor also writes, in the same keyspace, becomes
    "re-insert" if the predecessor deletes the key and "do not insert" if it
    writes it; every other write, and the value of every put, is unchanged. *)
Theorem dependent_puts_rebased self pred r' :
  ob_wf (cr_operations self) → ob_wf (cr_operations pred) →
  Dep.handle_dependency (Dep.compute_dependency self pred) self = (None, r') →
  ∀ i k, record_write r' i k = rebased (record_write self i k) (record_write pred i k).
Proof.
  intros Hself Hpred Hh i k. unfold Dep.compute_dependency in Hh.
  set (bs := ob_write_buffers (cr_operations self)) in *. set (ps := ob_write_buffers (cr_operations pred)) in *.
  pose proof (scan_buffers_spec 0 bs ps (ob_locks (cr_operations self)) (ob_locks (cr_operations pred)) []
    (buffers_paired self pred Hself Hpred)) as Hs.
  destruct (Dep.scan_buffers _ _ _ _ _ _) as [puts|c]; [|done]. destruct Hs as [_ Hin].
  destruct (Dep.scan_exclusive _ _); [done|].
  assert (Hr : r' = fold_left (λ r p, Dep.apply p r) puts self) by (destruct puts; simpl in Hh; by injection Hh).
  subst r'. clear Hh.
  assert (Hflag : ∀ p, p ∈ puts → put_flag p = (i, k) →
    ∃ v r y pw, record_write self i k = Some (Put v r y) ∧ record_write pred i k = Some pw ∧
      put_value p = WriteOps.is_delete pw).
  { intros p [?%not_elem_of_nil|(j & b & q & Hb & Hq & [k' w] & Hkw & Hd)]%Hin Hp; [done|].
    apply dependent_put_spec in Hd as (Hf & (v & r & y & ->) & pw & Hpw & Hv). rewrite Hp in Hf.
    injection Hf as -> ->. exists v, r, y, pw. unfold record_write. fold bs ps.
    simpl. rewrite Hb, Hq. split_and!; [|done|done]. simpl.
    by apply (write_elem (cr_operations self) j b _ _ Hself Hb). }
  destruct (decide (Exists (λ p, put_flag p = (i, k)) puts)) as [Hex|Hno].
  - apply Exists_exists in Hex as (p & Hp & Hpf). destruct (Hflag p Hp Hpf) as (v & r & y & pw & Hw & Hpw & Hv).
    rewrite (record_write_fold_value puts self i k (WriteOps.is_delete pw)).
    + rewrite Hw, Hpw. by destruct pw.
    + intros p' Hp' Hpf'. destruct (Hflag p' Hp' Hpf') as (? & ? & ? & pw' & _ & Hpw' & ->). congruence.
    + by exists p.
  - rewrite record_write_fold by (intros p Hp Hpf; apply Hno, Exists_exists; eauto).
    destruct (record_write self i k) as [[v|v r y|]|] eqn:Ew; [done| |done|done].
    destruct (record_write pred i k) as [pw|] eqn:Epw; [|done]. exfalso. apply Hno, Exists_exists.
    unfold record_write in Ew, Epw. fold bs in Ew. fold ps in Epw.
    destruct (bs !! i) as [b|] eqn:Eb; [|done]. destruct (ps !! i) as [q|] eqn:Eq; [|done]. simpl in Ew, Epw.
    exists (if WriteOps.is_delete pw then PutDeleted (i, k) else PutInserted (i, k)).
    split; [|by destruct (WriteOps.is_delete pw)]. apply Hin. right. exists i, b, q. split_and!; [done|done|].
    exists (k, Put v r y). split; [by apply (write_elem (cr_operations self) i b _ _ Hself Eb)|].
    unfold dependent_put. simpl. rewrite Epw. by destruct pw.
Qed.
Lemma dependent_puts_rebased_witness :
  let ops w := mk_OperationsBuffer (<[1%nat := mk_WriteBuffer 1 [([7], w)]]> (ob_write_buffers OB.new)) [] in
  let self := mk_CommitRecord (ops (Put [5] false false)) 3 CommitData in
  let pred := mk_CommitRecord (ops Delete) 3 CommitData in
  ∃ r', Dep.handle_dependency (Dep.compute_dependency self pred) self = (None, r') ∧
        record_write r' 1 [7] = Some (Put [5] true false).
Proof.
  intros ops self pred. eexists. split; [vm_compute; reflexivity|].
  rewrite (dependent_puts_rebased self pred); [reflexivity| | |vm_compute; reflexivity].
  - apply (ob_wf_writes_in_mut 1 (λ b, Val (WB.put [7] [5] b)) OB.new);
      [apply wb_preserves_set; intros b Hb; by apply bt_wf_insert|apply ob_wf_new|reflexivity].
  - apply (ob_wf_writes_in_mut 1 (λ b, Val (WB.delete [7] b)) OB.new);
      [apply wb_preserves_set; intros b Hb; by apply bt_wf_insert|apply ob_wf_new|reflexivity].
Defined.

(** The predecessor's value is not compared: a put of another value over a
    concurrent insert is dropped, and the key keeps the predecessor's value. *)
Example concurrent_put_of_other_value_dropped :
  let ops w := mk_OperationsBuffer (<[1%nat := mk_WriteBuffer 1 [([7], w)]]> (ob_write_buffers OB.new)) [] in
  let self := mk_CommitRecord (ops (Put [5] true false)) 3 CommitData in
  let pred := mk_CommitRecord (ops (Insert [6])) 3 CommitData in
  let (c, r') := Dep.handle_dependency (Dep.compute_dependency self pred) self in
  c = None ∧ record_write r' 1 [7] = Some (Put [5] false false) ∧
  overlay (record_write r' 1 [7]) (Some [6]) = Some [6].
Proof. vm_compute. split_and!; reflexivity. Qed.

(** ** Updating flags does not change what conflicts *)
Lemma deletes_record r k : deletes (cr_operations r) k ↔ ∃ i, record_write r i k = Some Delete.
Proof.
  unfold deletes, record_write. split.
  - intros (i & wb & Hi & Hk). exists i. by rewrite Hi.
  - intros [i Hi]. destruct (ob_write_buffers (cr_operations r) !! i) as [wb|] eqn:E; [|done].
    by exists i, wb.
Qed.

(** [r'] is [r] with other flags: the same number of buffers, each for the same
    keyspace with the same keys in the same order, under each key the same write
    except that the [reinsert] flag of a put may differ, and the same locks, open
    sequence number and commit type. *)
Definition same_but_flag (w w' : Write) : Prop :=
  match w, w' with
  | Put v _ known, Put v' _ known' => v' = v ∧ known' = known
  | _, _ => w' = w
  end.
Definition same_entry (kw kw' : bytes * Write) : Prop := kw'.1 = kw.1 ∧ same_but_flag kw.2 kw'.2.
Definition same_buffer (b b' : WriteBuffer) : Prop :=
  wb_keyspace_id b' = wb_keyspace_id b ∧ Forall2 same_entry (wb_writes b) (wb_writes b').
Record reflagged (r r' : CommitRecord) : Prop := {
  rf_open : cr_open_sequence_number r' = cr_open_sequence_number r;
  rf_type : cr_commit_type r' = cr_commit_type r;
  rf_locks : ob_locks (cr_operations r') = ob_locks (cr_operations r);
  rf_buffers : Forall2 same_buffer (ob_write_buffers (cr_operations r)) (ob_write_buffers (cr_operations r'));
}.

#[global] Instance same_but_flag_refl : Reflexive same_but_flag.
Proof. by intros []. Qed.
#[global] Instance same_but_flag_trans : Transitive same_but_flag.
Proof. intros [] [] []; simpl; intuition congruence. Qed.
#[global] Instance same_entry_refl : Reflexive same_entry.
Proof. by intros []. Qed.
#[global] Instance same_entry_trans : Transitive same_entry.
Proof. intros a b c [? ?] [? ?]. split; [congruence|by etransitivity]. Qed.
#[global] Instance same_buffer_refl : Reflexive same_buffer.
Proof. intros b. split; [done|reflexivity]. Qed.
#[global] Instance same_buffer_trans : Transitive same_buffer.
Proof. intros a b c [? ?] [? ?]. split; [congruence|by etransitivity]. Qed.
#[global] Instance reflagged_refl : Reflexive reflagged.
Proof. intros r. split; [done..|reflexivity]. Qed.
#[global] Instance reflagged_trans : Transitive reflagged.
Proof. intros a b c [H1 H2 H3 H4] [K1 K2 K3 K4]. split; [congruence..|by etransitivity]. Qed.

Lemma same_entry_keys ws ws' : Forall2 same_entry ws ws' → ws'.*1 = ws.*1.
Proof. induction 1 as [|kw kw' ws ws' [Hk _] _ IH]; csimpl; congruence. Qed.
Lemma bt_get_same k ws ws' :
  Forall2 same_entry ws ws' → option_Forall2 same_but_flag (bt_get k ws) (bt_get k ws').
Proof.
  induction 1 as [|[k1 w1] [k2 w2] ws ws' [Hk Hw] _ IH]; simpl in *; [constructor|]. subst k2.
  destruct (cmp k k1); [by constructor|done|done].
Qed.
Lemma bt_wf_keys_eq (ws ws' : list (bytes * Write)) : ws'.*1 = ws.*1 → bt_wf ws → bt_wf ws'.
Proof.
  intros Hk Hws. revert ws' Hk. induction Hws as [|kw ws Hws IH Hlt]; intros l Hl.
  - destruct l; [constructor|done].
  - destruct l as [|x l]; [done|]. csimpl in *. injection Hl as Hx Hl. constructor; [by apply IH|].
    apply Forall_forall. intros y Hy. unfold bt_lt. rewrite Hx.
    assert (y.1 ∈ ws.*1) as Hy1 by (rewrite <-Hl; by apply list_elem_of_fmap_2).
    apply list_elem_of_fmap in Hy1 as (z & -> & Hz). rewrite Forall_forall in Hlt. by apply Hlt.
Qed.

(** What a record writes under a key, up to the flag. *)
Lemma rf_write r r' i k :
  reflagged r r' → option_Forall2 same_but_flag (record_write r i k) (record_write r' i k).
Proof.
  intros Hrf. unfold record_write.
  destruct (ob_write_buffers (cr_operations r) !! i) as [b|] eqn:Eb.
  - destruct (Forall2_lookup_l _ _ _ _ _ (rf_buffers _ _ Hrf) Eb) as (b' & -> & _ & Hw). simpl. by apply bt_get_same.
  - rewrite (proj2 (lookup_ge_None _ _)); [constructor|].
    rewrite <-(Forall2_length _ _ _ (rf_buffers _ _ Hrf)). by apply lookup_ge_None.
Qed.
Lemma rf_deletes r r' k : reflagged r r' → deletes (cr_operations r') k ↔ deletes (cr_operations r) k.
Proof.
  intros Hrf. rewrite !deletes_record. f_equiv. intros i. pose proof (rf_write r r' i k Hrf) as Hw.
  destruct (record_write r i k) as [w|], (record_write r' i k) as [w'|]; inversion_clear Hw as [? ? Hs|];
    [destruct w, w'; simplify_eq/=; naive_solver|done].
Qed.
Lemma rf_wf r r' : reflagged r r' → ob_wf (cr_operations r) → ob_wf (cr_operations r').
Proof.
  intros [_ _ Hl Hb] (Hlen & Hbufs & Hlocks). split_and!.
  - by rewrite <-(Forall2_length _ _ _ Hb).
  - intros i b' Hi. destruct (Forall2_lookup_r _ _ _ _ _ Hb Hi) as (b & Hb0 & Hid & Hw).
    destruct (Hbufs i b Hb0) as [Hk Hwf]. split; [congruence|]. by eapply bt_wf_keys_eq; [apply same_entry_keys|].
  - by rewrite Hl.
Qed.

Lemma alter_write_same key b ws : Forall2 same_entry ws (Dep.alter_write key (Dep.set_reinsert b) ws).
Proof.
  induction ws as [|[k w] ws IH]; simpl; [constructor|]. constructor; [|done].
  destruct (eqb key k); [|done]. split; [done|]. by destruct w.
Qed.
Lemma alter_same_buffer f i (bs : list WriteBuffer) :
  (∀ b, same_buffer b (f b)) → Forall2 same_buffer bs (alter f i bs).
Proof.
  intros Hf. revert i. induction bs as [|b bs IH]; intros i; [constructor|].
  destruct i as [|i]; [by constructor|]. constructor; [done|apply IH].
Qed.
Lemma apply_reflagged p r : reflagged r (Dep.apply p r).
Proof.
  assert (Hs : ∀ fl b, reflagged r (Dep.store fl b r)).
  { intros [i k] b. split; [done..|]. apply alter_same_buffer. intros wb. split; [done|]. apply alter_write_same. }
  destruct p; apply Hs.
Qed.

Lemma handle_reflagged d r c r' : Dep.handle_dependency d r = (c, r') → reflagged r r'.
Proof.
  destruct d as [|puts|?]; simpl; [by intros [= <- <-]| |by intros [= <- <-]]. intros [= <- <-].
  revert r. induction puts as [|p puts IH]; intros r; simpl; [reflexivity|].
  etransitivity; [apply apply_reflagged|apply IH].
Qed.

Lemma conflicting_reflagged a a' b b' :
  reflagged a a' → reflagged b b' →
  conflicting (cr_operations a') (cr_operations b') ↔ conflicting (cr_operations a) (cr_operations b).
Proof.
  intros Ha Hb. unfold conflicting, locks_as. rewrite (rf_locks _ _ Ha), (rf_locks _ _ Hb).
  setoid_rewrite (λ k, rf_deletes _ _ k Ha). by setoid_rewrite (λ k, rf_deletes _ _ k Hb).
Qed.
