(* ===== verification/Timeline.v ===== *)
(** * The commit timeline: [storage/isolation_manager.rs]
    ([TimelineWindow], [Timeline])

    The slots of recent commits, cut into windows of [TIMELINE_WINDOW_SIZE], and
    the watermark below which every commit is applied or aborted.  Windows are
    shared by [Arc] and mutated through atomics: a mutation through a window
    obtained from the deque is a mutation of the deque's element, which is how
    the model writes it. *)
From S2P Require Import Prelude BTree Bytes MemoryStore Buffer Mvcc Snapshot Dependency.

Definition TIMELINE_WINDOW_SIZE : nat := 100.

Inductive SlotMarker := SlotEmpty | SlotPending | SlotValidated | SlotApplied | SlotAborted.
#[global] Instance SlotMarker_eq_dec : EqDecision SlotMarker.
Proof. solve_decision. Defined.

Module Slot.
Definition as_u8 (m : SlotMarker) : Z :=
  match m with
  | SlotEmpty => 0 | SlotPending => 1 | SlotValidated => 2 | SlotApplied => 3 | SlotAborted => 4
  end.
Definition from (value : Z) : outcome SlotMarker :=
  match value with
  | 0 => Val SlotEmpty | 1 => Val SlotPending | 2 => Val SlotValidated
  | 3 => Val SlotApplied | 4 => Val SlotAborted
  | _ => Panic
  end.
End Slot.

Inductive CommitStatus :=
| StatusEmpty
| StatusPending (r : CommitRecord)
| StatusValidated (r : CommitRecord)
| StatusApplied (r : CommitRecord)
| StatusAborted.

(** ** [TimelineWindow] *)
Record TimelineWindow := mk_TimelineWindow {
  tw_start : Z;
  tw_slot_status : list Z;
  tw_commit_records : list (option CommitRecord);
  tw_readers : Z;
}.

Module TW.
Definition new (start : Z) : TimelineWindow :=
  mk_TimelineWindow start (replicate TIMELINE_WINDOW_SIZE 0) (replicate TIMELINE_WINDOW_SIZE None) 0.
Definition end_ (w : TimelineWindow) : Z := SeqNr.add (tw_start w) TIMELINE_WINDOW_SIZE.

(** [sequence_number - self.start] used as an index of the slot arrays. *)
Definition index (sequence_number : Z) (w : TimelineWindow) : outcome nat :=
  let i := u64 (sequence_number - tw_start w) in
  if i <? Z.of_nat TIMELINE_WINDOW_SIZE then Val (Z.to_nat i) else Panic.
Definition store_slot (i : nat) (m : SlotMarker) (w : TimelineWindow) : TimelineWindow :=
  mk_TimelineWindow (tw_start w) (<[i := Slot.as_u8 m]> (tw_slot_status w)) (tw_commit_records w) (tw_readers w).

(** [OnceLock::set] fails, and the result is unwrapped, on a second write. *)
Definition insert_pending (sequence_number : Z) (r : CommitRecord) (w : TimelineWindow)
  : outcome TimelineWindow :=
  i ← index sequence_number w;
  match tw_commit_records w !! i with
  | Some None =>
      Val (store_slot i SlotPending
             (mk_TimelineWindow (tw_start w) (tw_slot_status w)
                (<[i := Some r]> (tw_commit_records w)) (tw_readers w)))
  | _ => Panic
  end.
Definition set_marker (m : SlotMarker) (sequence_number : Z) (w : TimelineWindow) : outcome TimelineWindow :=
  i ← index sequence_number w; Val (store_slot i m w).
Definition set_validated := set_marker SlotValidated.
Definition set_aborted := set_marker SlotAborted.
Definition set_applied := set_marker SlotApplied.

Definition get_status (sequence_number : Z) (w : TimelineWindow) : outcome CommitStatus :=
  i ← index sequence_number w;
  code ← unwrap (tw_slot_status w !! i);
  status ← Slot.from code;
  match status with
  | SlotEmpty => Val StatusEmpty
  | _ =>
      slot ← unwrap (tw_commit_records w !! i);
      record ← unwrap slot;
      Val match status with
          | SlotPending => StatusPending record
          | SlotValidated => StatusValidated record
          | SlotApplied => StatusApplied record
          | _ => StatusAborted
          end
  end.

Definition set_readers (n : Z) (w : TimelineWindow) : TimelineWindow :=
  mk_TimelineWindow (tw_start w) (tw_slot_status w) (tw_commit_records w) n.
Definition increment_readers (w : TimelineWindow) : TimelineWindow :=
  set_readers (u64 (tw_readers w + 1)) w.
(** [fetch_sub(1) - 1]: the new count is returned. *)
Definition decrement_readers (w : TimelineWindow) : Z * TimelineWindow :=
  (u64 (tw_readers w - 1), set_readers (u64 (tw_readers w - 1)) w).

Definition decided (st : CommitStatus) : bool :=
  match st with StatusAborted | StatusApplied _ => true | _ => false end.
End TW.

(** ** [Timeline] *)
Record Timeline := mk_Timeline {
  tl_windows : list TimelineWindow;
  tl_watermark : Z;
}.

Module TL.
Definition new (next_sequence_number : Z) : Timeline :=
  mk_Timeline [TW.new next_sequence_number] (u64 (next_sequence_number - 1)).
Definition new_with_watermark (watermark next_sequence_number : Z) : Timeline :=
  mk_Timeline [TW.new next_sequence_number] watermark.
Definition set_windows (ws : list TimelineWindow) (t : Timeline) : Timeline :=
  mk_Timeline ws (tl_watermark t).

Definition resolve_window (windows : list TimelineWindow) (to_resolve : Z) : outcome (option nat) :=
  front ← unwrap (head windows);
  back ← unwrap (last windows);
  if (tw_start front <=? to_resolve) && (to_resolve <? TW.end_ back)
  then Val (Some (SeqNr.diff to_resolve (tw_start front) / TIMELINE_WINDOW_SIZE)%nat)
  else Val None.

Definition try_get_window (sequence_number : Z) (t : Timeline) : outcome (option (nat * TimelineWindow)) :=
  window_index ← resolve_window (tl_windows t) sequence_number;
  match window_index with
  | None => Val None
  | Some i => w ← unwrap (tl_windows t !! i); Val (Some (i, w))
  end.

(** A mutation through a window of the deque. *)
Definition put_window (i : nat) (w : TimelineWindow) (t : Timeline) : Timeline :=
  set_windows (<[i := w]> (tl_windows t)) t.

(** One window per round; [create_fuel] rounds reach the sequence number. *)
Fixpoint create_loop (fuel : nat) (sequence_number : Z) (ws : list TimelineWindow)
  : outcome (list TimelineWindow) :=
  match fuel with
  | O => Panic
  | S fuel =>
      back ← unwrap (last ws);
      if TW.end_ back <=? sequence_number
      then create_loop fuel sequence_number (ws ++ [TW.new (TW.end_ back)])
      else Val ws
  end.
Definition create_fuel (sequence_number : Z) (ws : list TimelineWindow) : nat :=
  match last ws with
  | Some back => S (Z.to_nat ((sequence_number - TW.end_ back) / 100 + 1))
  | None => 1
  end.
Definition create_windows_to (sequence_number : Z) (t : Timeline) : outcome Timeline :=
  ws ← create_loop (create_fuel sequence_number (tl_windows t)) sequence_number (tl_windows t);
  Val (set_windows ws t).
Definition get_or_create_window (sequence_number : Z) (t : Timeline)
  : outcome (nat * TimelineWindow * Timeline) :=
  back ← unwrap (last (tl_windows t));
  t ← (if TW.end_ back <=? sequence_number then create_windows_to sequence_number t else Val t);
  found ← try_get_window sequence_number t;
  iw ← unwrap found;
  Val (iw, t).

Fixpoint free_loop (watermark : Z) (ws : list TimelineWindow) : outcome (list TimelineWindow) :=
  match ws with
  | [] => Panic
  | w :: ws' =>
      if (TW.end_ w <=? watermark) && (tw_readers w =? 0) then free_loop watermark ws' else Val ws
  end.
Definition may_free_windows (t : Timeline) : outcome Timeline :=
  let watermark := tl_watermark t in
  match head (tl_windows t) with
  | Some f =>
      if (tw_readers f =? 0) && (TW.end_ f <=? watermark) then
        ws ← free_loop watermark (tl_windows t); Val (set_windows ws t)
      else Val t
  | None => Val t
  end.

(** The loop of [may_increment_watermark]: each round moves the watermark by
    one slot of the windows held. *)
Fixpoint increment_loop (fuel : nat) (candidate : Z) (window : option (nat * TimelineWindow)) (t : Timeline)
  : outcome (Z * Timeline) :=
  match fuel with
  | O => Panic
  | S fuel =>
      match window with
      | None => Val (candidate, t)
      | Some (_, w) =>
          st ← TW.get_status candidate w;
          if TW.decided st && (tl_watermark t =? SeqNr.sub candidate 1) then
            let t := mk_Timeline (tl_windows t) candidate in
            let candidate := SeqNr.add candidate 1 in
            window ← (if TW.end_ w <=? candidate then try_get_window candidate t else Val window);
            increment_loop fuel candidate window t
          else Val (candidate, t)
      end
  end.
Definition increment_fuel (t : Timeline) : nat := S (S (length (tl_windows t) * TIMELINE_WINDOW_SIZE)).
Definition may_increment_watermark (sequence_number : Z) (t : Timeline) : outcome Timeline :=
  if negb (tl_watermark t =? SeqNr.sub sequence_number 1) then Val t
  else
    window ← try_get_window sequence_number t;
    '(candidate, t) ← increment_loop (increment_fuel t) sequence_number window t;
    let watermark := SeqNr.sub candidate 1 in
    previous ← try_get_window (SeqNr.sub sequence_number 1) t;
    match previous with
    | Some (_, w) => if TW.end_ w <=? watermark then may_free_windows t else Val t
    | None => Val t
    end.

Definition record_reader (sequence_number : Z) (t : Timeline) : outcome Timeline :=
  found ← try_get_window sequence_number t;
  match found with
  | Some (i, w) => Val (put_window i (TW.increment_readers w) t)
  | None => Val t
  end.
Definition remove_reader (sequence_number : Z) (t : Timeline) : outcome Timeline :=
  found ← try_get_window sequence_number t;
  match found with
  | Some (i, w) =>
      let '(readers, w) := TW.decrement_readers w in
      let t := put_window i w t in
      if readers =? 0 then may_free_windows t else Val t
  | None => Val t
  end.

(** The windows from that of [open + 1] to that of [commit - 1], and the first
    sequence number they hold. *)
Definition collect_concurrent_windows (open_sequence_number commit_sequence_number : Z) (t : Timeline)
  : outcome (list TimelineWindow * Z) :=
  first ← resolve_window (tl_windows t) (SeqNr.next open_sequence_number);
  last_ ← resolve_window (tl_windows t) (SeqNr.previous commit_sequence_number);
  let first := default 0%nat first in
  let last_ := default 0%nat last_ in
  concurrent_windows ← Snap.map_exec (λ i, unwrap (tl_windows t !! i)) (seq first (S last_ - first));
  w ← unwrap (tl_windows t !! first);
  Val (concurrent_windows, tw_start w).
End TL.

(** ** Invariant *)
Record win_ok (w : TimelineWindow) : Prop := {
  wo_slots : length (tw_slot_status w) = TIMELINE_WINDOW_SIZE;
  wo_records : length (tw_commit_records w) = TIMELINE_WINDOW_SIZE;
  wo_codes : ∀ i c, tw_slot_status w !! i = Some c → ∃ m, c = Slot.as_u8 m;
  wo_filled : ∀ i c, tw_slot_status w !! i = Some c → c ≠ 0 → ∃ r, tw_commit_records w !! i = Some (Some r);
  wo_free : ∀ i, tw_slot_status w !! i = Some 0 → tw_commit_records w !! i = Some None;
}.

Definition base (t : Timeline) : Z := match head (tl_windows t) with Some w => tw_start w | None => 0 end.
Definition limit (t : Timeline) : Z := base t + 100 * Z.of_nat (length (tl_windows t)).

(** The status of a slot; [StatusEmpty] outside the windows. *)
Definition status (t : Timeline) (s : Z) : CommitStatus :=
  match TL.try_get_window s t with
  | Val (Some (_, w)) => match TW.get_status s w with Val st => st | _ => StatusEmpty end
  | _ => StatusEmpty
  end.

Record windows_ok (t : Timeline) : Prop := {
  wk_nonempty : tl_windows t ≠ [];
  wk_window : ∀ i w, tl_windows t !! i = Some w → win_ok w ∧ tw_start w = base t + 100 * Z.of_nat i;
  wk_low : 1 ≤ base t;
  wk_high : limit t ≤ 2 ^ 63;
}.

Record tl_ok (t : Timeline) : Prop := {
  tk_windows : windows_ok t;
  tk_watermark : base t - 1 ≤ tl_watermark t < limit t;
  tk_decided : ∀ s, base t ≤ s ≤ tl_watermark t → TW.decided (status t s) = true;
}.

Lemma slot_from_as m : Slot.from (Slot.as_u8 m) = Val m.
Proof. by destruct m. Qed.

Lemma seq_sub1 s : 1 ≤ s < 2 ^ 64 → SeqNr.sub s 1 = s - 1.
Proof. intros. unfold SeqNr.sub. rewrite u64_id; [lia|unfold is_u64; lia]. Qed.
Lemma seq_add1 s : 0 ≤ s < 2 ^ 64 - 1 → SeqNr.add s 1 = s + 1.
Proof. intros. unfold SeqNr.add. rewrite u64_id; [lia|unfold is_u64; lia]. Qed.
Lemma window_end w : 0 ≤ tw_start w < 2 ^ 63 → TW.end_ w = tw_start w + 100.
Proof. intros. unfold TW.end_, SeqNr.add, TIMELINE_WINDOW_SIZE. rewrite u64_id; [lia|unfold is_u64; lia]. Qed.

Lemma index_in w s :
  tw_start w ≤ s < tw_start w + 100 → TW.index s w = Val (Z.to_nat (s - tw_start w)).
Proof.
  intros. unfold TW.index, TIMELINE_WINDOW_SIZE. rewrite u64_id by (unfold is_u64; lia).
  by rewrite (proj2 (Z.ltb_lt _ _)) by lia.
Qed.

Section windows.
Context (t : Timeline) (Hok : windows_ok t).

Lemma window_at i w :
  tl_windows t !! i = Some w →
  tw_start w = base t + 100 * Z.of_nat i ∧ TW.end_ w = tw_start w + 100 ∧ base t ≤ tw_start w ∧
  tw_start w + 100 ≤ limit t ∧ win_ok w.
Proof.
  intros Hi. destruct (wk_window t Hok i w Hi) as [Hw Hs].
  pose proof (lookup_lt_Some _ _ _ Hi). pose proof (wk_low t Hok). pose proof (wk_high t Hok).
  unfold limit in *. split_and!; [done| |lia|lia|done]. apply window_end. lia.
Qed.

Lemma windows_last : ∃ w, last (tl_windows t) = Some w ∧ TW.end_ w = limit t.
Proof.
  pose proof (wk_nonempty t Hok) as Hne.
  destruct (last (tl_windows t)) as [w|] eqn:E; [|by apply last_None in E].
  exists w. split; [done|]. rewrite last_lookup in E. destruct (window_at _ _ E) as (Hs & He & _).
  rewrite He, Hs. unfold limit. destruct (tl_windows t); [done|]. simpl length. simpl Nat.pred. lia.
Qed.

Lemma resolve_spec s :
  TL.resolve_window (tl_windows t) s =
    Val (if (base t <=? s) && (s <? limit t) then Some (Z.to_nat (s - base t) / 100)%nat else None).
Proof.
  destruct windows_last as (back & Hb & He). unfold TL.resolve_window. rewrite Hb.
  unfold base in *. destruct (tl_windows t) as [|f ws] eqn:Ew; [by destruct (wk_nonempty t Hok)|].
  cbn [head unwrap mbind exec_bind] in *. rewrite He.
  pose proof (wk_high t Hok) as Hh. pose proof (wk_low t Hok) as Hl. unfold limit, base in Hh, Hl |- *.
  rewrite Ew in Hh, Hl |- *. cbn [head] in *.
  destruct (Z.leb_spec (tw_start f) s), (Z.ltb_spec s (tw_start f + 100 * Z.of_nat (length (f :: ws))));
    try done. cbn [andb]. unfold SeqNr.diff, TIMELINE_WINDOW_SIZE. rewrite u64_id; [done|unfold is_u64; lia].
Qed.

Lemma try_get_in s :
  base t ≤ s < limit t →
  ∃ i w, TL.try_get_window s t = Val (Some (i, w)) ∧ tl_windows t !! i = Some w ∧
         tw_start w ≤ s < tw_start w + 100.
Proof.
  intros Hs. unfold TL.try_get_window. rewrite resolve_spec.
  rewrite (proj2 (Z.leb_le _ _)), (proj2 (Z.ltb_lt _ _)) by lia. cbn [andb mbind exec_bind].
  set (i := (Z.to_nat (s - base t) / 100)%nat).
  pose proof (Nat.div_mod_eq (Z.to_nat (s - base t)) 100) as Hdm. fold i in Hdm.
  pose proof (Nat.mod_upper_bound (Z.to_nat (s - base t)) 100 ltac:(lia)).
  unfold limit in Hs. assert (Hi : (i < length (tl_windows t))%nat) by lia.
  destruct (lookup_lt_is_Some_2 _ _ Hi) as [w Hw]. rewrite Hw. cbn [unwrap mbind exec_bind].
  exists i, w. split_and!; [done|done|..]; destruct (window_at i w Hw) as (Hst & _); lia.
Qed.
Lemma try_get_out s : ¬ (base t ≤ s < limit t) → TL.try_get_window s t = Val None.
Proof.
  intros Hs. unfold TL.try_get_window. rewrite resolve_spec.
  destruct (Z.leb_spec (base t) s), (Z.ltb_spec s (limit t)); simpl; try done. lia.
Qed.
Lemma try_get_unique s i w j w' :
  TL.try_get_window s t = Val (Some (i, w)) → tl_windows t !! j = Some w' →
  tw_start w' ≤ s < tw_start w' + 100 → i = j ∧ w = w'.
Proof.
  intros Hg Hj Hs. destruct (window_at j w' Hj) as (Hst & _ & ? & ? & _).
  destruct (try_get_in s ltac:(lia)) as (i0 & w0 & Hg0 & Hi0 & Hs0). rewrite Hg0 in Hg. simplify_eq.
  destruct (window_at i w Hi0) as (Hst0 & _). assert (i = j) as -> by lia. split; congruence.
Qed.

Lemma get_status_ok i w s :
  tl_windows t !! i = Some w → tw_start w ≤ s < tw_start w + 100 → TW.get_status s w = Val (status t s).
Proof.
  intros Hi Hs. destruct (window_at i w Hi) as (Hst & _ & ? & ? & Hw).
  destruct (try_get_in s ltac:(lia)) as (j & w' & Hg & Hj & Hs').
  destruct (try_get_unique _ _ _ _ _ Hg Hi Hs) as [-> ->]. unfold status. rewrite Hg.
  assert (∃ st, TW.get_status s w = Val st) as [st ->]; [|done].
  unfold TW.get_status. rewrite index_in by done. cbn [mbind exec_bind].
  assert (Hlt : (Z.to_nat (s - tw_start w) < 100)%nat) by lia.
  destruct (lookup_lt_is_Some_2 (tw_slot_status w) (Z.to_nat (s - tw_start w))) as [c Hc];
    [rewrite (wo_slots w Hw); exact Hlt|]. rewrite Hc.
  cbn [unwrap mbind exec_bind]. destruct (wo_codes w Hw _ _ Hc) as [m ->]. rewrite slot_from_as.
  cbn [mbind exec_bind]. destruct m; [by eexists| | | |];
    (destruct (wo_filled w Hw _ _ Hc ltac:(done)) as [r Hr]; rewrite Hr; by eexists).
Qed.

Lemma status_out s : ¬ (base t ≤ s < limit t) → status t s = StatusEmpty.
Proof. intros Hs. unfold status. by rewrite try_get_out. Qed.
End windows.

(** ** Updates of a window *)
Section update.
Context (t : Timeline) (Hok : windows_ok t) (i : nat) (w w' : TimelineWindow).
Context (Hi : tl_windows t !! i = Some w) (Hw' : win_ok w') (Hst : tw_start w' = tw_start w).
Let t' := TL.put_window i w' t.

Lemma put_base : base t' = base t.
Proof.
  unfold t', TL.put_window, TL.set_windows, base. simpl. destruct (tl_windows t) as [|f ws]; [done|].
  destruct i; simpl in *; by simplify_eq.
Qed.
Lemma put_limit : limit t' = limit t.
Proof. unfold limit. rewrite put_base. unfold t'. simpl. by rewrite length_insert. Qed.
Lemma put_windows_ok : windows_ok t'.
Proof.
  split.
  - unfold t'. simpl. pose proof (wk_nonempty t Hok). destruct (tl_windows t); [done|]. by destruct i.
  - intros j v. rewrite put_base. unfold t'. simpl. destruct (decide (j = i)) as [->|Hne].
    + rewrite list_lookup_insert_eq by (by eapply lookup_lt_Some). intros [= <-].
      split; [done|]. rewrite Hst. by apply (wk_window t Hok).
    + rewrite list_lookup_insert_ne by done. apply (wk_window t Hok).
  - rewrite put_base. apply (wk_low t Hok).
  - rewrite put_limit. apply (wk_high t Hok).
Qed.
Lemma put_lookup : tl_windows t' !! i = Some w'.
Proof. unfold t'. simpl. apply list_lookup_insert_eq. by eapply lookup_lt_Some. Qed.
Lemma put_status_in s :
  tw_start w ≤ s < tw_start w + 100 → TW.get_status s w' = Val (status t' s).
Proof. intros Hs. apply (get_status_ok t' put_windows_ok i); [apply put_lookup|lia]. Qed.
Lemma put_status_out s : ¬ (tw_start w ≤ s < tw_start w + 100) → status t' s = status t s.
Proof.
  intros Hs. destruct (decide (base t ≤ s < limit t)) as [Hr|Hr]; last first.
  { rewrite (status_out t Hok), (status_out t' put_windows_ok) by (rewrite ?put_base, ?put_limit; done). done. }
  destruct (try_get_in t Hok s Hr) as (j & v & _ & Hj & Hv).
  assert (Hne : j ≠ i) by (intros ->; simplify_eq; done).
  assert (Hj' : tl_windows t' !! j = Some v) by (unfold t'; simpl; by rewrite list_lookup_insert_ne).
  pose proof (get_status_ok t Hok j v s Hj Hv) as H1.
  pose proof (get_status_ok t' put_windows_ok j v s Hj' Hv) as H2. congruence.
Qed.
End update.

Lemma get_status_slot w w' s s' :
  tw_start w' = tw_start w → tw_start w ≤ s < tw_start w + 100 →
  (∀ k, k ≠ Z.to_nat (s' - tw_start w) → tw_slot_status w' !! k = tw_slot_status w !! k ∧
    tw_commit_records w' !! k = tw_commit_records w !! k) →
  tw_start w ≤ s' → s ≠ s' → TW.get_status s w' = TW.get_status s w.
Proof.
  intros Hst Hs Heq Hs' Hne. unfold TW.get_status. rewrite !index_in by lia. cbn [mbind exec_bind].
  rewrite Hst. destruct (Heq (Z.to_nat (s - tw_start w)) ltac:(lia)) as [-> ->]. done.
Qed.

Definition with_marker (m : SlotMarker) (r : CommitRecord) : CommitStatus :=
  match m with
  | SlotEmpty => StatusEmpty
  | SlotPending => StatusPending r
  | SlotValidated => StatusValidated r
  | SlotApplied => StatusApplied r
  | SlotAborted => StatusAborted
  end.

Definition record_at (s : Z) (w : TimelineWindow) : option CommitRecord :=
  mjoin (tw_commit_records w !! Z.to_nat (s - tw_start w)).

(** Writing a marker next to a record. *)
Lemma store_slot_ok w k m r :
  win_ok w → (k < 100)%nat → m ≠ SlotEmpty →
  let w' := TW.store_slot k m (mk_TimelineWindow (tw_start w) (tw_slot_status w)
              (<[k := Some r]> (tw_commit_records w)) (tw_readers w)) in
  win_ok w' ∧ TW.get_status (tw_start w + Z.of_nat k) w' = Val (with_marker m r).
Proof.
  intros Hw Hk Hm w'.
  assert (Hks : (k < length (tw_slot_status w))%nat) by (by rewrite (wo_slots w Hw)).
  assert (Hkr : (k < length (tw_commit_records w))%nat) by (by rewrite (wo_records w Hw)).
  assert (Hm0 : Slot.as_u8 m ≠ 0) by (by destruct m).
  split.
  - split; simpl; rewrite ?length_insert; [apply Hw|apply Hw|..].
    + intros j c. destruct (decide (j = k)) as [->|Hne].
      * rewrite list_lookup_insert_eq by done. intros [= <-]. by exists m.
      * rewrite list_lookup_insert_ne by done. apply (wo_codes w Hw).
    + intros j c. destruct (decide (j = k)) as [->|Hne].
      * intros _ _. exists r. by rewrite list_lookup_insert_eq.
      * rewrite !list_lookup_insert_ne by done. apply (wo_filled w Hw).
    + intros j. destruct (decide (j = k)) as [->|Hne].
      * rewrite list_lookup_insert_eq by done. by intros [=].
      * rewrite !list_lookup_insert_ne by done. apply (wo_free w Hw).
  - unfold TW.get_status. rewrite index_in by (simpl; lia). cbn [mbind exec_bind].
    cbn [w' TW.store_slot tw_slot_status tw_commit_records tw_start].
    replace (Z.to_nat (tw_start w + Z.of_nat k - tw_start w)) with k by lia.
    rewrite !list_lookup_insert_eq by done. cbn [unwrap mbind exec_bind]. rewrite slot_from_as.
    cbn [mbind exec_bind]. by destruct m.
Qed.

Lemma record_insert_same w k r :
  tw_commit_records w !! k = Some (Some r) → <[k := Some r]> (tw_commit_records w) = tw_commit_records w.
Proof. apply list_insert_id. Qed.

(** The record in a filled slot, seen through its status. *)
Lemma status_record t i w s :
  windows_ok t → tl_windows t !! i = Some w → tw_start w ≤ s < tw_start w + 100 →
  (status t s = StatusEmpty ∧ tw_commit_records w !! Z.to_nat (s - tw_start w) = Some None) ∨
  (∃ m r, m ≠ SlotEmpty ∧ status t s = with_marker m r ∧
     tw_commit_records w !! Z.to_nat (s - tw_start w) = Some (Some r)).
Proof.
  intros Hok Hi Hs. pose proof (get_status_ok t Hok i w s Hi Hs) as Hg.
  destruct (window_at t Hok i w Hi) as (_ & _ & _ & _ & Hw).
  unfold TW.get_status in Hg. rewrite index_in in Hg by done. cbn [mbind exec_bind] in Hg.
  destruct (tw_slot_status w !! Z.to_nat (s - tw_start w)) as [c|] eqn:Ec; [|done]. cbn [unwrap mbind exec_bind] in Hg.
  destruct (wo_codes w Hw _ _ Ec) as [m ->]. rewrite slot_from_as in Hg. cbn [mbind exec_bind] in Hg.
  destruct m; [left; split; [by injection Hg|by apply (wo_free w Hw)]| | | |]; right;
    destruct (wo_filled w Hw _ _ Ec ltac:(done)) as [r Hr]; rewrite Hr in Hg; cbn [unwrap mbind exec_bind] in Hg;
    injection Hg as Hg; [exists SlotPending, r|exists SlotValidated, r|exists SlotApplied, r|exists SlotAborted, r];
    split_and!; done.
Qed.

(** A marker written to the slot of [s]: [insert_pending] on an empty slot, the
    other markers on a filled one. *)
Lemma write_slot t i w s m r :
  windows_ok t → tl_windows t !! i = Some w → tw_start w ≤ s < tw_start w + 100 → m ≠ SlotEmpty →
  let k := Z.to_nat (s - tw_start w) in
  let w' := TW.store_slot k m (mk_TimelineWindow (tw_start w) (tw_slot_status w)
              (<[k := Some r]> (tw_commit_records w)) (tw_readers w)) in
  let t' := TL.put_window i w' t in
  windows_ok t' ∧ base t' = base t ∧ limit t' = limit t ∧ tl_watermark t' = tl_watermark t ∧
  win_ok w' ∧ tl_windows t' !! i = Some w' ∧
  ∀ s', status t' s' = if bool_decide (s' = s) then with_marker m r else status t s'.
Proof.
  intros Hok Hi Hs Hm k w' t'. destruct (window_at t Hok i w Hi) as (Hst & _ & _ & _ & Hw).
  destruct (store_slot_ok w k m r Hw ltac:(unfold k; lia) Hm) as [Hw' Hget]. fold w' in Hw', Hget.
  replace (tw_start w + Z.of_nat k) with s in Hget by (unfold k; lia).
  split_and!.
  - by apply (put_windows_ok t Hok i w w').
  - by apply (put_base t i w w').
  - by apply (put_limit t i w w').
  - done.
  - done.
  - by apply (put_lookup t i w w').
  - intros s'. case_bool_decide as Heq; [subst s'|].
    + pose proof (put_status_in t Hok i w w' Hi Hw' eq_refl s Hs) as Hp. unfold t'. congruence.
    + destruct (decide (tw_start w ≤ s' < tw_start w + 100)) as [Hin|Hout].
      * pose proof (put_status_in t Hok i w w' Hi Hw' eq_refl s' Hin) as Hp.
        rewrite (get_status_slot w w' s' s) in Hp; [|done|done| |lia|done].
        { pose proof (get_status_ok t Hok i w s' Hi Hin). unfold t'. congruence. }
        intros j Hj. simpl. by rewrite !list_lookup_insert_ne by (unfold k; done).
      * by apply (put_status_out t Hok i w w').
Qed.

(** ** Creating windows *)
Lemma win_new_ok n : win_ok (TW.new n).
Proof.
  split; cbn [TW.new tw_slot_status tw_commit_records]; [apply length_replicate|apply length_replicate|..].
  - intros i c [-> _]%lookup_replicate. by exists SlotEmpty.
  - intros i c [-> _]%lookup_replicate. done.
  - intros i [_ ?]%lookup_replicate. by apply lookup_replicate.
Qed.
Lemma get_status_new n s : n ≤ s < n + 100 → TW.get_status s (TW.new n) = Val StatusEmpty.
Proof.
  intros Hs. unfold TW.get_status. rewrite index_in by done.
  cbn [mbind exec_bind TW.new tw_slot_status tw_start].
  assert (replicate TIMELINE_WINDOW_SIZE 0 !! Z.to_nat (s - n) = Some 0) as ->; [|done].
  apply lookup_replicate. unfold TIMELINE_WINDOW_SIZE. split; [done|lia].
Qed.

Lemma windows_ok_new n w : 1 ≤ n < 2 ^ 62 → windows_ok (mk_Timeline [TW.new n] w).
Proof.
  intros Hn. split; unfold limit, base; cbn [tl_windows head length]; [done| |simpl; lia|simpl; lia].
  intros [|i] v; [|done]. intros [= <-]. split; [apply win_new_ok|simpl; lia].
Qed.
Lemma status_new n w s : 1 ≤ n < 2 ^ 62 → status (mk_Timeline [TW.new n] w) s = StatusEmpty.
Proof.
  intros Hn. pose proof (windows_ok_new n w Hn) as Hok.
  destruct (decide (n ≤ s < n + 100)) as [Hs|Hs].
  - pose proof (get_status_ok _ Hok 0 (TW.new n) s eq_refl Hs) as Hg. rewrite get_status_new in Hg by done.
    by injection Hg.
  - apply (status_out _ Hok). unfold limit, base. simpl. lia.
Qed.
Lemma tl_ok_new n : 1 ≤ n < 2 ^ 62 → tl_ok (TL.new n).
Proof.
  intros Hn. assert (Hu : u64 (n - 1) = n - 1) by (apply u64_id; unfold is_u64; lia).
  unfold TL.new. split; [by apply windows_ok_new|..]; unfold limit, base; simpl; rewrite Hu; [lia|].
  intros s Hs. lia.
Qed.

Section push.
Context (t : Timeline) (Hok : windows_ok t) (Hroom : limit t + 100 ≤ 2 ^ 63).
Let t' := TL.set_windows (tl_windows t ++ [TW.new (limit t)]) t.

Lemma push_base : base t' = base t.
Proof. unfold t', base. simpl. pose proof (wk_nonempty t Hok). by destruct (tl_windows t). Qed.
Lemma push_limit : limit t' = limit t + 100.
Proof. unfold limit. rewrite push_base. unfold t'. simpl. rewrite length_app. simpl. lia. Qed.
Lemma push_windows_ok : windows_ok t'.
Proof.
  split.
  - unfold t'. simpl. by destruct (tl_windows t).
  - intros i w. rewrite push_base. unfold t'. simpl. intros [Hi|[Hge Hi]]%lookup_app_Some.
    + by apply (wk_window t Hok).
    + apply list_lookup_singleton_Some in Hi as [Hi <-]. split; [apply win_new_ok|]. simpl.
      unfold limit. lia.
  - rewrite push_base. apply (wk_low t Hok).
  - rewrite push_limit. lia.
Qed.
Lemma push_status s : status t' s = status t s.
Proof.
  destruct (decide (base t ≤ s < limit t)) as [Hr|Hr].
  - destruct (try_get_in t Hok s Hr) as (i & w & _ & Hi & Hw).
    assert (Hi' : tl_windows t' !! i = Some w) by (unfold t'; simpl; by apply lookup_app_l_Some).
    pose proof (get_status_ok t Hok i w s Hi Hw). pose proof (get_status_ok t' push_windows_ok i w s Hi' Hw).
    congruence.
  - rewrite (status_out t Hok) by done. destruct (decide (limit t ≤ s < limit t + 100)) as [Hn|Hn].
    + assert (Hi' : tl_windows t' !! length (tl_windows t) = Some (TW.new (limit t))).
      { unfold t'. simpl. apply lookup_app_Some. right. split; [lia|]. by rewrite Nat.sub_diag. }
      pose proof (get_status_ok t' push_windows_ok _ _ s Hi' Hn) as Hg.
      rewrite get_status_new in Hg by done. by injection Hg.
    + apply (status_out t' push_windows_ok). rewrite push_base, push_limit. lia.
Qed.
End push.

Lemma create_loop_spec fuel s t :
  windows_ok t → s < 2 ^ 62 → (0 < fuel)%nat → s < limit t + 100 * (Z.of_nat fuel - 1) →
  ∃ ws, TL.create_loop fuel s (tl_windows t) = Val ws ∧
    let t' := TL.set_windows ws t in
    windows_ok t' ∧ base t' = base t ∧ limit t ≤ limit t' ∧ s < limit t' ∧ ∀ s', status t' s' = status t s'.
Proof.
  revert t. induction fuel as [|fuel IH]; intros t Hok Hs H0 Hf; [lia|].
  cbn [TL.create_loop]. destruct (windows_last t Hok) as (w & Hl & He). rewrite Hl.
  cbn [unwrap mbind exec_bind]. rewrite He. destruct (Z.leb_spec (limit t) s).
  - assert (Hroom : limit t + 100 ≤ 2 ^ 63) by lia.
    destruct (IH (TL.set_windows (tl_windows t ++ [TW.new (limit t)]) t)) as (ws & Hc & Hws).
    + by apply push_windows_ok.
    + done.
    + lia.
    + rewrite push_limit by done. lia.
    + exists ws. split; [exact Hc|]. cbn zeta in Hws |- *.
      destruct Hws as (? & Hb & Hlim & ? & Hst). unfold TL.set_windows in *. simpl in *.
      pose proof (push_base t Hok) as Hpb. pose proof (push_limit t Hok) as Hpl.
      unfold TL.set_windows in Hpb, Hpl.
      split_and!; [done|congruence|lia|done|]. intros s'. rewrite Hst. by apply push_status.
  - exists (tl_windows t). split; [done|]. destruct t. simpl in *. split_and!; done || lia.
Qed.

Lemma get_or_create_spec s t :
  tl_ok t → base t ≤ s < 2 ^ 62 →
  ∃ i w t', TL.get_or_create_window s t = Val (i, w, t') ∧ tl_ok t' ∧ base t' = base t ∧
    tl_watermark t' = tl_watermark t ∧ limit t ≤ limit t' ∧ s < limit t' ∧ tl_windows t' !! i = Some w ∧
    tw_start w ≤ s < tw_start w + 100 ∧ ∀ s', status t' s' = status t s'.
Proof.
  intros Hok Hs. pose proof (tk_windows t Hok) as Hwk. unfold TL.get_or_create_window.
  destruct (windows_last t Hwk) as (back & Hl & He). rewrite Hl. cbn [unwrap mbind exec_bind]. rewrite He.
  assert (∃ t', (if limit t <=? s then TL.create_windows_to s t else Val t) = Val t' ∧ windows_ok t' ∧
    base t' = base t ∧ tl_watermark t' = tl_watermark t ∧ limit t ≤ limit t' ∧ s < limit t' ∧
    ∀ s', status t' s' = status t s') as (t' & Ht' & Hwk' & Hb & Hwm & Hlim & Hsl & Hst).
  { destruct (Z.leb_spec (limit t) s); [|exists t; split_and!; done || lia].
    unfold TL.create_windows_to, TL.create_fuel. rewrite Hl, He.
    destruct (create_loop_spec (S (Z.to_nat ((s - limit t) / 100 + 1))) s t Hwk) as (ws & Hc & Hws); [lia|lia| |].
    { pose proof (Z.div_mod (s - limit t) 100). pose proof (Z.mod_pos_bound (s - limit t) 100).
      pose proof (Z.div_pos (s - limit t) 100). lia. }
    rewrite Hc. cbn [mbind exec_bind]. eexists. split; [done|]. destruct Hws as (? & ? & ? & ? & ?).
    split_and!; done. }
  rewrite Ht'. cbn [mbind exec_bind].
  destruct (try_get_in t' Hwk' s ltac:(lia)) as (i & w & Hg & Hi & Hw). rewrite Hg. cbn [unwrap mbind exec_bind].
  exists i, w, t'. split_and!; try done; try lia. split; [done|..].
  - rewrite Hwm, Hb. pose proof (tk_watermark t Hok). lia.
  - intros s'. rewrite Hb, Hwm, Hst. apply (tk_decided t Hok).
Qed.

(** ** Freeing windows *)
Definition forget (t t' : Timeline) : Prop :=
  base t ≤ base t' ∧ limit t' = limit t ∧ tl_watermark t' = tl_watermark t ∧ base t' ≤ tl_watermark t' + 1 ∧
  ∀ s, base t' ≤ s → status t' s = status t s.

Lemma forget_refl t : base t ≤ tl_watermark t + 1 → forget t t.
Proof. intros. unfold forget. split_and!; done || lia. Qed.

(** Dropping the oldest window. *)
Lemma pop_window w ws m :
  let t := mk_Timeline (w :: ws) m in
  let t' := mk_Timeline ws m in
  windows_ok t → ws ≠ [] → tw_start w + 100 ≤ m →
  windows_ok t' ∧ base t' = base t + 100 ∧ limit t' = limit t ∧
  ∀ s, base t' ≤ s → status t' s = status t s.
Proof.
  intros t t' Hok Hne Hm.
  assert (Hb : base t' = base t + 100).
  { destruct ws as [|w1 ws]; [done|]. destruct (window_at t Hok 1 w1 eq_refl) as (Hs & _).
    change (base t') with (tw_start w1). lia. }
  assert (Hl : limit t' = limit t) by (unfold limit; rewrite Hb; cbn [t t' tl_windows length]; lia).
  assert (Hok' : windows_ok t').
  { split; [done| |rewrite Hb; pose proof (wk_low t Hok); lia|rewrite Hl; apply (wk_high t Hok)].
    intros i v Hi. destruct (wk_window t Hok (S i) v Hi) as [Hv Hs]. split; [done|]. lia. }
  split_and!; [done..|]. intros s Hs. destruct (decide (s < limit t)) as [Hr|Hr].
  - destruct (try_get_in t' Hok' s ltac:(lia)) as (i & v & _ & Hi & Hv).
    pose proof (get_status_ok t' Hok' i v s Hi Hv). pose proof (get_status_ok t Hok (S i) v s Hi Hv). congruence.
  - rewrite (status_out t Hok), (status_out t' Hok') by lia. done.
Qed.

Lemma free_loop_spec ws m :
  let t := mk_Timeline ws m in
  windows_ok t → base t - 1 ≤ m < limit t →
  ∃ ws', TL.free_loop m ws = Val ws' ∧ windows_ok (mk_Timeline ws' m) ∧ forget t (mk_Timeline ws' m).
Proof.
  induction ws as [|w ws IH]; intros t Hok Hm; [by destruct (wk_nonempty t Hok)|].
  simpl. destruct (window_at t Hok 0 w eq_refl) as (Hs & He & _ & _ & _).
  assert (Hstay : ∃ ws', Val (w :: ws) = Val (E:=Empty_set) ws' ∧ windows_ok (mk_Timeline ws' m) ∧ forget t (mk_Timeline ws' m)).
  { exists (w :: ws). split_and!; [done|done|]. apply (forget_refl t). assert (tl_watermark t = m) by done. lia. }
  rewrite He. destruct (Z.leb_spec (tw_start w + 100) m) as [Hle|]; [|exact Hstay].
  destruct (tw_readers w =? 0); [|exact Hstay]. cbn [andb]. clear Hstay.
  assert (Hne : ws ≠ []).
  { intros ->. unfold limit, t in Hm. simpl in Hm. unfold base in Hm. simpl in Hm. lia. }
  destruct (pop_window w ws m Hok Hne Hle) as (Hok' & Hb & Hl & Hst).
  destruct (IH Hok') as (ws' & Hf & Hok'' & Hb' & Hl' & Hw' & Hlow & Hst').
  { fold t in Hb, Hl. unfold base at 2 in Hb. unfold t in Hb. simpl in Hb. lia. }
  exists ws'. split_and!; [done|done|]. fold t in Hb, Hl, Hst. unfold forget. split_and!; [lia|congruence|done|done|].
  intros s Hge. rewrite Hst' by done. apply Hst. lia.
Qed.

Lemma tl_ok_forget t t' : tl_ok t → windows_ok t' → forget t t' → tl_ok t'.
Proof.
  intros Hok Hwk (Hb & Hl & Hw & Hlow & Hst). pose proof (tk_watermark t Hok). split; [done|lia|].
  intros s Hs. rewrite Hst by lia. apply (tk_decided t Hok). lia.
Qed.

Lemma may_free_spec t :
  tl_ok t → ∃ t', TL.may_free_windows t = Val t' ∧ tl_ok t' ∧ forget t t'.
Proof.
  intros Hok. pose proof (tk_watermark t Hok) as Hw.
  assert (Hstay : ∃ t', Val t = Val (E:=Empty_set) t' ∧ tl_ok t' ∧ forget t t').
  { exists t. split_and!; [done|done|]. apply forget_refl. lia. }
  unfold TL.may_free_windows. destruct (head (tl_windows t)); [|exact Hstay].
  destruct (_ && _); [|exact Hstay]. clear Hstay.
  destruct t as [ws m]. destruct (free_loop_spec ws m (tk_windows _ Hok) Hw) as (ws' & Hf & Hok' & Hfg).
  cbn [tl_windows tl_watermark]. rewrite Hf. cbn [mbind exec_bind]. eexists. split; [done|].
  split; [by eapply tl_ok_forget|done].
Qed.

(** ** Moving the watermark *)
Lemma status_watermark ws m m' s : status (mk_Timeline ws m) s = status (mk_Timeline ws m') s.
Proof. done. Qed.

Lemma increment_loop_spec fuel cand t :
  tl_ok t → tl_watermark t = cand - 1 → base t ≤ cand → limit t - cand < Z.of_nat fuel →
  ∃ window cand', TL.try_get_window cand t = Val window ∧
    TL.increment_loop fuel cand window t = Val (cand', mk_Timeline (tl_windows t) (cand' - 1)) ∧
    cand ≤ cand' ≤ limit t ∧ tl_ok (mk_Timeline (tl_windows t) (cand' - 1)) ∧
    TW.decided (status t cand') = false.
Proof.
  revert cand t. induction fuel as [|fuel IH]; intros cand t Hok Hwm Hb Hf.
  { pose proof (tk_watermark t Hok). lia. }
  pose proof (tk_windows t Hok) as Hwk. pose proof (wk_high t Hwk). pose proof (wk_low t Hwk).
  assert (Hself : mk_Timeline (tl_windows t) (cand - 1) = t) by (rewrite <-Hwm; by destruct t).
  pose proof (tk_watermark t Hok) as Hwr. cbn [TL.increment_loop].
  destruct (decide (cand < limit t)) as [Hin|Hout]; last first.
  { exists None, cand. split_and!; [by apply (try_get_out t Hwk); lia|by rewrite Hself|lia|lia|by rewrite Hself|].
    by rewrite (status_out t Hwk) by lia. }
  destruct (try_get_in t Hwk cand ltac:(lia)) as (i & w & Hg & Hi & Hw). exists (Some (i, w)).
  destruct (window_at t Hwk i w Hi) as (Hs & He & _ & ? & _).
  rewrite (get_status_ok t Hwk i w cand Hi Hw). cbn [mbind exec_bind].
  rewrite seq_sub1 by lia. rewrite Hwm, Z.eqb_refl, andb_true_r.
  destruct (TW.decided (status t cand)) eqn:Ed; last first.
  { exists cand. split_and!; [done|by rewrite Hself|lia|lia|by rewrite Hself|done]. }
  rewrite seq_add1 by lia.
  set (t1 := mk_Timeline (tl_windows t) cand).
  assert (Hok1 : tl_ok t1).
  { split; [split; apply Hwk|split; unfold t1; simpl; unfold limit, base in *; simpl in *; lia|].
    intros s Hs1. destruct (decide (s = cand)) as [->|]; [done|].
    change (TW.decided (status t s) = true). apply (tk_decided t Hok). unfold t1 in Hs1. simpl in Hs1.
    unfold base in *. simpl in *. lia. }
  destruct (IH (cand + 1) t1 Hok1) as (window & cand' & Htry & Hloop & Hc' & Hok' & Hnd).
  { unfold t1. simpl. lia. }
  { unfold t1, base in *. simpl in *. lia. }
  { unfold t1, limit, base in *. simpl in *. lia. }
  exists cand'. split; [done|]. rewrite He. split.
  - destruct (Z.leb_spec (tw_start w + 100) (cand + 1)) as [Hend|Hend].
    + rewrite Htry. cbn [mbind exec_bind]. exact Hloop.
    + cbn [mbind exec_bind].
      assert (window = Some (i, w)) as ->; [|exact Hloop].
      destruct (try_get_in t1 (tk_windows _ Hok1) (cand + 1)) as (j & v & Hg1 & Hj & Hv).
      { unfold t1, limit, base in *. simpl in *. lia. }
      rewrite Hg1 in Htry. injection Htry as <-.
      destruct (try_get_unique t1 (tk_windows _ Hok1) (cand + 1) j v i w Hg1 Hi ltac:(lia)) as [-> ->]. done.
  - unfold t1, limit, base in Hc'. simpl in Hc'. unfold limit, base. split_and!; [lia|lia|exact Hok'|exact Hnd].
Qed.

(** After a commit is decided the watermark is the end of the decided prefix. *)
Definition watermark_maximal (t : Timeline) : Prop := TW.decided (status t (tl_watermark t + 1)) = false.

Lemma may_increment_spec s t :
  tl_ok t → base t ≤ s → s < 2 ^ 64 →
  (tl_watermark t ≠ s - 1 → TL.may_increment_watermark s t = Val t) ∧
  (tl_watermark t = s - 1 →
   ∃ t', TL.may_increment_watermark s t = Val t' ∧ tl_ok t' ∧ watermark_maximal t' ∧
     tl_watermark t ≤ tl_watermark t' ∧ base t ≤ base t' ∧ limit t' = limit t ∧
     (∀ s', base t' ≤ s' → status t' s' = status t s') ∧
     ∀ s', tl_watermark t < s' ≤ tl_watermark t' → TW.decided (status t s') = true).
Proof.
  intros Hok Hb Hs. pose proof (tk_windows t Hok) as Hwk. pose proof (wk_low t Hwk). pose proof (wk_high t Hwk).
  unfold TL.may_increment_watermark. rewrite seq_sub1 by lia. split.
  { intros Hne. by rewrite (proj2 (Z.eqb_neq _ _)). }
  intros Hwm. rewrite (proj2 (Z.eqb_eq _ _)) by done. cbn [negb].
  destruct (increment_loop_spec (TL.increment_fuel t) s t Hok Hwm Hb) as
    (window & cand & Htry & Hloop & Hc & Hok1 & Hnd).
  { unfold TL.increment_fuel, TIMELINE_WINDOW_SIZE, limit. lia. }
  rewrite Htry. cbn [mbind exec_bind]. rewrite Hloop. cbn [mbind exec_bind].
  rewrite seq_sub1 by lia.
  set (t1 := mk_Timeline (tl_windows t) (cand - 1)) in *.
  assert (Hdec : ∀ s', tl_watermark t < s' ≤ cand - 1 → TW.decided (status t s') = true).
  { intros s' Hs'. apply (tk_decided t1 Hok1). unfold t1, base in *. simpl in *. lia. }
  assert (Hgo : ∀ t', tl_ok t' → forget t1 t' →
    tl_ok t' ∧ watermark_maximal t' ∧ tl_watermark t ≤ tl_watermark t' ∧ base t ≤ base t' ∧ limit t' = limit t ∧
    (∀ s', base t' ≤ s' → status t' s' = status t s') ∧
    (∀ s', tl_watermark t < s' ≤ tl_watermark t' → TW.decided (status t s') = true)).
  { intros t' Hok' (Hbb & Hll & Hww & Hlow & Hst). unfold watermark_maximal.
    unfold t1 in Hww, Hst. simpl in Hww. split_and!; [done| |lia|done|done|exact Hst|].
    - rewrite Hst by lia. rewrite Hww. by replace (cand - 1 + 1) with cand by lia.
    - intros s' Hs'. apply Hdec. lia. }
  assert (Hstay : ∃ t', Val t1 = Val (E:=Empty_set) t' ∧ tl_ok t' ∧ forget t1 t').
  { exists t1. split_and!; [done|done|]. apply forget_refl. pose proof (tk_watermark _ Hok1). lia. }
  assert (∃ t', match (match TL.try_get_window (s - 1) t1 with
      | Val (Some (_, w)) => if TW.end_ w <=? cand - 1 then TL.may_free_windows t1 else Val t1
      | Val None => Val t1 | Err e => Err e | Panic => Panic end) with x => x end = Val t' ∧ tl_ok t' ∧ forget t1 t')
    as (t' & Ht' & Hokt & Hft).
  { destruct (decide (base t1 ≤ s - 1 < limit t1)) as [Hr|Hr].
    - destruct (try_get_in t1 (tk_windows _ Hok1) (s - 1) Hr) as (i & w & -> & _).
      destruct (_ <=? _); [by apply may_free_spec|exact Hstay].
    - rewrite (try_get_out t1 (tk_windows _ Hok1)) by done. exact Hstay. }
  exists t'. split; [|by apply Hgo]. revert Ht'. unfold mbind, exec_bind. intros <-. done.
Qed.

(** ** Readers *)
Lemma set_readers_ok w n : win_ok w → win_ok (TW.set_readers n w).
Proof. intros Hw. split; apply Hw. Qed.

Lemma put_readers t i w n :
  tl_ok t → tl_windows t !! i = Some w →
  let t' := TL.put_window i (TW.set_readers n w) t in
  tl_ok t' ∧ base t' = base t ∧ limit t' = limit t ∧ ∀ s, status t' s = status t s.
Proof.
  intros Hok Hi t'. pose proof (tk_windows t Hok) as Hwk.
  destruct (window_at t Hwk i w Hi) as (_ & _ & _ & _ & Hw).
  pose proof (set_readers_ok w n Hw) as Hw'.
  assert (Hb : base t' = base t) by (by apply (put_base t i w)).
  assert (Hl : limit t' = limit t) by (by apply (put_limit t i w)).
  assert (Hst : ∀ s, status t' s = status t s).
  { intros s. destruct (decide (tw_start w ≤ s < tw_start w + 100)) as [Hs|Hs].
    - pose proof (put_status_in t Hwk i w _ Hi Hw' eq_refl s Hs) as Hp.
      pose proof (get_status_ok t Hwk i w s Hi Hs) as Hg.
      change (TW.get_status s (TW.set_readers n w)) with (TW.get_status s w) in Hp. unfold t'. congruence.
    - by apply (put_status_out t Hwk i w _ Hi Hw'). }
  split_and!; [|done..]. split.
  - by apply (put_windows_ok t Hwk i w).
  - rewrite Hb, Hl. apply (tk_watermark t Hok).
  - intros s. rewrite Hst, Hb. apply (tk_decided t Hok).
Qed.

Lemma record_reader_spec s t :
  tl_ok t → ∃ t', TL.record_reader s t = Val t' ∧ tl_ok t' ∧ base t' = base t ∧ limit t' = limit t ∧
    tl_watermark t' = tl_watermark t ∧ ∀ s', status t' s' = status t s'.
Proof.
  intros Hok. unfold TL.record_reader. destruct (decide (base t ≤ s < limit t)) as [Hs|Hs].
  - destruct (try_get_in t (tk_windows t Hok) s Hs) as (i & w & -> & Hi & _). cbn [mbind exec_bind].
    eexists. split; [done|]. destruct (put_readers t i w (u64 (tw_readers w + 1)) Hok Hi) as (? & ? & ? & ?).
    by split_and!.
  - rewrite (try_get_out t (tk_windows t Hok)) by done. cbn [mbind exec_bind]. exists t. by split_and!.
Qed.

Lemma remove_reader_spec s t :
  tl_ok t → ∃ t', TL.remove_reader s t = Val t' ∧ tl_ok t' ∧ forget t t'.
Proof.
  intros Hok. pose proof (tk_watermark t Hok) as Hw. unfold TL.remove_reader.
  destruct (decide (base t ≤ s < limit t)) as [Hs|Hs].
  - destruct (try_get_in t (tk_windows t Hok) s Hs) as (i & w & -> & Hi & _). cbn [mbind exec_bind].
    unfold TW.decrement_readers. set (n := u64 (tw_readers w - 1)).
    destruct (put_readers t i w n Hok Hi) as (Hok' & Hb & Hl & Hst).
    set (t1 := TL.put_window i (TW.set_readers n w) t) in *.
    assert (Hf : forget t t1) by (unfold forget; split_and!; [lia|done|done|rewrite Hb; simpl; lia|intros; apply Hst]).
    destruct (n =? 0); [|by exists t1].
    destruct (may_free_spec t1 Hok') as (t2 & -> & Hok2 & Hb2 & Hl2 & Hw2 & Hlow & Hst2).
    exists t2. split_and!; [done|done|]. unfold forget. split_and!; [lia|congruence|done|done|].
    intros s' Hs'. by rewrite Hst2, Hst.
  - rewrite (try_get_out t (tk_windows t Hok)) by done. cbn [mbind exec_bind]. exists t.
    split_and!; [done|done|]. apply forget_refl. lia.
Qed.

(** [resolve_window] and [try_get_window] find the window of a sequence
    number without a panic: over contiguous windows the division of the offset
    gives the one window whose range contains it, and [None] exactly outside
    the range of all windows. *)
Lemma try_get_window_correct t s :
  tl_ok t →
  if (base t <=? s) && (s <? limit t)
  then ∃ i w, TL.try_get_window s t = Val (Some (i, w)) ∧ tl_windows t !! i = Some w ∧
         tw_start w ≤ s < TW.end_ w ∧
         ∀ j w', tl_windows t !! j = Some w' → tw_start w' ≤ s < TW.end_ w' → j = i
  else TL.try_get_window s t = Val None.
Proof.
  intros Hok. pose proof (tk_windows t Hok) as Hwk.
  destruct (Z.leb_spec (base t) s), (Z.ltb_spec s (limit t)); cbn [andb];
    try (apply (try_get_out t Hwk); lia).
  destruct (try_get_in t Hwk s ltac:(lia)) as (i & w & Hg & Hi & Hw). exists i, w.
  destruct (window_at t Hwk i w Hi) as (_ & He & _). rewrite He. split_and!; [done|done|lia|lia|].
  intros j w' Hj Hw'. destruct (window_at t Hwk j w' Hj) as (_ & He' & _).
  by destruct (try_get_unique t Hwk s i w j w' Hg Hj ltac:(lia)).
Qed.
Lemma try_get_window_correct_witness :
  ∃ i w, TL.try_get_window 57 (TL.new 5) = Val (Some (i, w)) ∧ tw_start w ≤ 57 < TW.end_ w.
Proof.
  destruct (try_get_window_correct (TL.new 5) 57 (tl_ok_new 5 ltac:(lia))) as (i & w & Hg & _ & Hw & _).
  exists i, w. split; [exact Hg|exact Hw].
Defined.

Lemma free_loop_drop m ws ws' :
  TL.free_loop m ws = Val ws' →
  ∃ n f, ws' = drop n ws ∧ ws !! n = Some f ∧ ¬ (TW.end_ f ≤ m ∧ tw_readers f = 0) ∧
    ∀ i w, (i < n)%nat → ws !! i = Some w → TW.end_ w ≤ m ∧ tw_readers w = 0.
Proof.
  induction ws as [|w ws IH]; simpl; [done|].
  destruct (Z.leb_spec (TW.end_ w) m), (Z.eqb_spec (tw_readers w) 0); cbn [andb];
    try (intros [= <-]; exists 0%nat, w; split_and!; [done|done|lia|lia]).
  intros (n & f & -> & Hf & Hnf & Hall)%IH. exists (S n), f. split_and!; [done|done|done|].
  intros [|i] v Hi; [by intros [= <-]|]. simpl. apply Hall. lia.
Qed.

(** Two windows, the first full of applied commits, the second with five, of
    which the watermark has passed three. *)
Definition filled (start : Z) (n : nat) : TimelineWindow :=
  mk_TimelineWindow start (replicate n (Slot.as_u8 SlotApplied) ++ replicate (TIMELINE_WINDOW_SIZE - n) 0)
    (replicate n (Some (mk_CommitRecord OB.new 0 CommitData)) ++ replicate (TIMELINE_WINDOW_SIZE - n) None) 0.
Definition two_windows : Timeline := mk_Timeline [filled 1 100; filled 101 5] 103.
Lemma filled_ok start n : (n ≤ TIMELINE_WINDOW_SIZE)%nat → win_ok (filled start n).
Proof.
  intros Hn. split; cbn [filled tw_slot_status tw_commit_records].
  - rewrite length_app, !length_replicate. lia.
  - rewrite length_app, !length_replicate. lia.
  - intros i c [Hi|[_ Hi]]%lookup_app_Some; apply lookup_replicate in Hi as [-> _]; [by exists SlotApplied|by exists SlotEmpty].
  - intros i c [Hi|[_ Hi]]%lookup_app_Some; apply lookup_replicate in Hi as [-> Hlt]; [intros _|done].
    eexists. apply lookup_app_l_Some. by apply lookup_replicate.
  - intros i [Hi|[Hge Hi]]%lookup_app_Some; apply lookup_replicate in Hi as [? Hlt]; [done|]. rewrite length_replicate in *.
    rewrite lookup_app_r by (by rewrite length_replicate). rewrite length_replicate. by apply lookup_replicate.
Qed.
Lemma two_windows_ok : tl_ok two_windows.
Proof.
  split; [split|..].
  - done.
  - intros [|[|i]] w; [intros [= <-]..|done]; (split; [apply filled_ok; unfold TIMELINE_WINDOW_SIZE; lia|reflexivity]).
  - unfold base. cbn. lia.
  - unfold limit, base. cbn. lia.
  - unfold limit, base. cbn. lia.
  - unfold base. cbn [two_windows tl_windows tl_watermark head filled tw_start]. intros s Hs.
    assert (Hall : Forall (λ q, TW.decided (status two_windows q) = true) (seqZ 1 103)).
    { apply (bool_decide_unpack _). vm_compute. exact I. }
    rewrite Forall_forall in Hall. apply Hall. apply elem_of_seqZ. lia.
Qed.

(** C29: freeing windows is safe: it never panics or drops the last window; it
    drops exactly the longest run of oldest windows that end at or below the
    watermark and have no open reader, so a window with a reader, and every
    newer window, stays; the status of every commit in the remaining windows
    and the timeline's invariant are unchanged. *)
Theorem freeing_windows_is_safe t :
  tl_ok t →
  ∃ t', TL.may_free_windows t = Val t' ∧ tl_ok t' ∧ (∀ s, base t' ≤ s → status t' s = status t s) ∧
    ∃ n f, tl_windows t' = drop n (tl_windows t) ∧ tl_windows t !! n = Some f ∧
      ¬ (TW.end_ f ≤ tl_watermark t ∧ tw_readers f = 0) ∧
      ∀ i w, (i < n)%nat → tl_windows t !! i = Some w → TW.end_ w ≤ tl_watermark t ∧ tw_readers w = 0.
Proof.
  intros Hok. destruct (may_free_spec t Hok) as (t' & Hf & Hok' & _ & _ & _ & _ & Hst).
  exists t'. split_and!; [done|done|done|]. unfold TL.may_free_windows in Hf.
  pose proof (wk_nonempty t (tk_windows t Hok)) as Hne.
  destruct (tl_windows t) as [|f ws] eqn:Ew; [done|]. cbn [head] in Hf.
  destruct (Z.eqb_spec (tw_readers f) 0), (Z.leb_spec (TW.end_ f) (tl_watermark t)); cbn [andb] in Hf;
    try (injection Hf as <-; exists 0%nat, f; rewrite Ew; split_and!; [done|done|lia|lia]).
  destruct (TL.free_loop _ _) as [ws'| |] eqn:El; cbn [mbind exec_bind] in Hf; [|done..].
  injection Hf as <-. by apply free_loop_drop in El.
Qed.
Lemma freeing_windows_is_safe_witness :
  ∃ t', TL.may_free_windows two_windows = Val t' ∧ tl_ok t' ∧ tl_windows t' = [filled 101 5] ∧
    status t' 105 = status two_windows 105.
Proof.
  destruct (freeing_windows_is_safe two_windows two_windows_ok) as (t' & Hf & Hok & Hst & _).
  assert (Hw : tl_windows t' = [filled 101 5]) by (vm_compute in Hf; injection Hf as <-; reflexivity).
  exists t'. split; [exact Hf|]. split; [exact Hok|]. split; [exact Hw|]. apply Hst. unfold base. rewrite Hw. cbn. lia.
Defined.

