(* ===== verification/Isolation.v ===== *)
(** * The isolation manager: [storage/isolation_manager.rs]
    ([IsolationManager])

    Validation of a commit against every commit between the sequence number its
    snapshot read and its own, from the timeline's windows and, for what the
    timeline has forgotten, from the durability log.

    Where the code spins waiting for another thread, the model returns
    [Err Spins] in the current state; the waiting itself is the subject of the
    commit protocol (file [Protocol]). *)
From S2P Require Import Prelude BTree Bytes MemoryStore Buffer Mvcc Snapshot Dependency Timeline.

Inductive spin := Spins.

Record StatusRecord := mk_StatusRecord {
  sr_commit_record_sequence_number : Z;
  sr_was_committed : bool;
}.

(** What validation uses of [DurabilityClient]: the typed iterators over the
    log, whose items can fail. *)
Record DurabilityClient (DErr : Type) := mk_DurabilityClient {
  iter_unsequenced_status_from : Z → exec DErr (list (StatusRecord + DErr));
  iter_sequenced_commit_from : Z → exec DErr (list ((Z * CommitRecord) + DErr));
}.
Arguments mk_DurabilityClient {DErr} _ _.
Arguments iter_unsequenced_status_from {DErr} d _.
Arguments iter_sequenced_commit_from {DErr} d _.

Record IsolationManager := mk_IsolationManager {
  im_initial_sequence_number : Z;
  im_timeline : Timeline;
  im_highest_validated_sequence_number : Z;
}.

Inductive ValidatedCommit :=
| ValidatedConflict (c : IsolationConflict)
| ValidatedWrite (batches : list (option (list WriteOp))).

(** ** Against one predecessor *)
(** [resolve_concurrent] on the status read: [None] where the code spins. *)
Definition resolve_status (r : CommitRecord) (predecessor : CommitStatus)
  : option (option IsolationConflict * CommitRecord) :=
  match predecessor with
  | StatusEmpty => None
  | StatusPending p =>
      match Dep.compute_dependency r p with
      | Independent => Some (Dep.handle_dependency Independent r)
      | _ => None
      end
  | StatusValidated p | StatusApplied p => Some (Dep.handle_dependency (Dep.compute_dependency r p) r)
  | StatusAborted => Some (Dep.handle_dependency Independent r)
  end.

Module Iso.
Section manager.
Context {DErr : Type}.

Definition new (next_sequence_number : Z) : IsolationManager :=
  mk_IsolationManager next_sequence_number (TL.new next_sequence_number) (u64 (next_sequence_number - 1)).
Definition with_timeline (t : Timeline) (m : IsolationManager) : IsolationManager :=
  mk_IsolationManager (im_initial_sequence_number m) t (im_highest_validated_sequence_number m).
Definition reset_to_watermark (watermark : Z) (m : IsolationManager) : IsolationManager :=
  let next_seq := SeqNr.next watermark in
  mk_IsolationManager next_seq (TL.new_with_watermark watermark next_seq) watermark.
(** [reset] replaces the timeline only. *)
Definition reset (m : IsolationManager) : IsolationManager :=
  with_timeline (TL.new (im_initial_sequence_number m)) m.
Definition watermark (m : IsolationManager) : Z := tl_watermark (im_timeline m).

Definition opened_for_read (s : Z) (m : IsolationManager) : outcome IsolationManager :=
  t ← TL.record_reader s (im_timeline m); Val (with_timeline t m).
Definition closed_for_read (s : Z) (m : IsolationManager) : outcome IsolationManager :=
  t ← TL.remove_reader s (im_timeline m); Val (with_timeline t m).

(** [applied]: [Err] is [ExpectedWindowError]. *)
Definition applied (s : Z) (m : IsolationManager) : exec Z IsolationManager :=
  match TL.try_get_window s (im_timeline m) with
  | Val (Some (i, w)) =>
      match TW.set_applied s w with
      | Val w =>
          match TL.may_increment_watermark s (TL.put_window i w (im_timeline m)) with
          | Val t => Val (with_timeline t m)
          | _ => Panic
          end
      | _ => Panic
      end
  | Val None => Err s
  | _ => Panic
  end.
Definition load_validated (s : Z) (r : CommitRecord) (m : IsolationManager) : outcome IsolationManager :=
  '(i, w, t) ← TL.get_or_create_window s (im_timeline m);
  w ← TW.insert_pending s r w;
  w ← TW.set_validated s w;
  t ← TL.may_increment_watermark s (TL.put_window i w t);
  Val (with_timeline t m).
Definition load_aborted (s : Z) (m : IsolationManager) : outcome IsolationManager :=
  '(i, w, t) ← TL.get_or_create_window s (im_timeline m);
  w ← TW.set_aborted s w;
  t ← TL.may_increment_watermark s (TL.put_window i w t);
  Val (with_timeline t m).

Definition resolve_concurrent (r : CommitRecord) (predecessor_sequence_number : Z) (w : TimelineWindow)
  : exec spin (option IsolationConflict * CommitRecord) :=
  match TW.get_status predecessor_sequence_number w with
  | Val st => match resolve_status r st with Some x => Val x | None => Err Spins end
  | _ => Panic
  end.

(** The loop over [start_validation_index .. commit_sequence_number]; [n] is
    what is left of the range.  The record is threaded because its flags are
    updated by each predecessor. *)
Fixpoint windows_loop (n : nat) (r : CommitRecord) (validate_against : Z) (windows : list TimelineWindow)
    (window_index : nat) : exec spin (option IsolationConflict * CommitRecord) :=
  match n with
  | O => Val (None, r)
  | S n =>
      window ← unwrap (windows !! window_index);
      '(conflict, r) ← resolve_concurrent r validate_against window;
      match conflict with
      | Some c => Val (Some c, r)
      | None =>
          let window_index :=
            if TW.end_ window <=? SeqNr.add validate_against 1 then S window_index else window_index in
          windows_loop n r (SeqNr.add validate_against 1) windows window_index
      end
  end.
Definition validate_concurrent_from_windows (r : CommitRecord) (commit_sequence_number : Z)
    (windows : list TimelineWindow) (first_window_sequence_number : Z)
  : exec spin (option IsolationConflict * CommitRecord) :=
  let start := Z.max (SeqNr.next (cr_open_sequence_number r)) first_window_sequence_number in
  windows_loop (Z.to_nat (commit_sequence_number - start)) r start windows 0.

(** [iterate_commit_status_from_disk]: the statuses are collected first; the
    commits are read up to the stop. *)
Fixpoint collect_statuses (l : list (StatusRecord + DErr)) (acc : list (Z * bool))
  : exec DErr (list (Z * bool)) :=
  match l with
  | [] => Val acc
  | inr e :: _ => Err e
  | inl r :: l => collect_statuses l (bt_insert (sr_commit_record_sequence_number r) (sr_was_committed r) acc)
  end.
Fixpoint commits_until (stop : Z) (is_committed : list (Z * bool)) (l : list ((Z * CommitRecord) + DErr))
  : list ((Z * CommitStatus) + DErr) :=
  match l with
  | [] => []
  | inr e :: l => inr e :: commits_until stop is_committed l
  | inl (s, r) :: l =>
      if stop <=? s then []
      else
        let st :=
          match bt_get s is_committed with
          | None => StatusPending r
          | Some true => StatusApplied r
          | Some false => StatusAborted
          end in
        inl (s, st) :: commits_until stop is_committed l
  end.
Definition iterate_commit_status_from_disk (client : DurabilityClient DErr) (start stop : Z)
  : exec DErr (list ((Z * CommitStatus) + DErr)) :=
  statuses ← iter_unsequenced_status_from client start;
  is_committed ← collect_statuses statuses [];
  commits ← iter_sequenced_commit_from client start;
  Val (commits_until stop is_committed commits).

Fixpoint disk_loop (r : CommitRecord) (l : list ((Z * CommitStatus) + DErr))
  : exec DErr (option IsolationConflict * CommitRecord) :=
  match l with
  | [] => Val (None, r)
  | inr e :: _ => Err e
  | inl (_, st) :: l =>
      let continue d :=
        let '(conflict, r) := Dep.handle_dependency d r in
        match conflict with Some c => Val (Some c, r) | None => disk_loop r l end in
      match st with
      | StatusAborted => continue Independent
      | StatusApplied p => continue (Dep.compute_dependency r p)
      | StatusPending _ | StatusEmpty | StatusValidated _ => Panic
      end
  end.
Definition validate_concurrent_from_disk (r : CommitRecord) (stop : Z) (client : DurabilityClient DErr)
  : exec DErr (option IsolationConflict * CommitRecord) :=
  l ← iterate_commit_status_from_disk client (SeqNr.next (cr_open_sequence_number r)) stop;
  disk_loop r l.

(** The durability error is a result, not a spin. *)
Definition validate_all_concurrent (commit_sequence_number : Z) (r : CommitRecord)
    (client : DurabilityClient DErr) (t : Timeline)
  : exec spin ((option IsolationConflict + DErr) * CommitRecord) :=
  match TL.collect_concurrent_windows (cr_open_sequence_number r) commit_sequence_number t with
  | Val (windows, first) =>
      let from_windows r :=
        '(c, r) ← validate_concurrent_from_windows r commit_sequence_number windows first;
        Val (inl c, r) in
      if SeqNr.next (cr_open_sequence_number r) <? first then
        match validate_concurrent_from_disk r first client with
        | Val (Some c, r) => Val (inl (Some c), r)
        | Val (None, r) => from_windows r
        | Err e => Val (inr e, r)
        | Panic => Panic
        end
      else from_windows r
  | _ => Panic
  end.

(** The updated record is the one in the slot: the flags are shared. *)
Definition set_record (s : Z) (r : CommitRecord) (w : TimelineWindow) : outcome TimelineWindow :=
  i ← TW.index s w;
  Val (mk_TimelineWindow (tw_start w) (tw_slot_status w) (<[i := Some r]> (tw_commit_records w)) (tw_readers w)).

Definition run {A} (m : outcome A) : exec spin A :=
  match m with Val a => Val a | Err e => match e with end | Panic => Panic end.

Definition validate_commit (s : Z) (r : CommitRecord) (client : DurabilityClient DErr) (m : IsolationManager)
  : exec spin ((ValidatedCommit + DErr) * IsolationManager) :=
  '(i, w, t) ← run (TL.get_or_create_window s (im_timeline m));
  w ← run (TW.insert_pending s r w);
  let t := TL.put_window i w t in
  st ← run (TW.get_status s w);
  match st with
  | StatusPending r =>
      '(result, r) ← validate_all_concurrent s r client t;
      match result with
      | inr e => Val (inr e, with_timeline t m)
      | inl conflict =>
          w ← run (set_record s r w);
          match conflict with
          | None =>
              w ← run (TW.set_validated s w);
              let t := TL.put_window i w t in
              let highest := Z.max (im_highest_validated_sequence_number m) s in
              t ← run (TL.remove_reader (cr_open_sequence_number r) t);
              st ← run (TW.get_status s w);
              match st with
              | StatusValidated r | StatusApplied r =>
                  Val (inl (ValidatedWrite (Batches.from_operations s (cr_operations r))),
                       mk_IsolationManager (im_initial_sequence_number m) t highest)
              | _ => Panic
              end
          | Some c =>
              w ← run (TW.set_aborted s w);
              t ← run (TL.may_increment_watermark s (TL.put_window i w t));
              t ← run (TL.remove_reader (cr_open_sequence_number r) t);
              Val (inl (ValidatedConflict c), with_timeline t m)
          end
      end
  | _ => Panic
  end.
End manager.
End Iso.

(** ** One predecessor *)
Definition status_record_of (st : CommitStatus) : option CommitRecord :=
  match st with
  | StatusPending r | StatusValidated r | StatusApplied r => Some r
  | StatusEmpty | StatusAborted => None
  end.
Definition committed (st : CommitStatus) : option CommitRecord :=
  match st with StatusValidated r | StatusApplied r => Some r | _ => None end.
Definition status_wf (st : CommitStatus) : Prop :=
  ∀ r, status_record_of st = Some r → ob_wf (cr_operations r).

(** What a passed check establishes, and keeps establishing: the predecessor
    has a slot and, unless it aborts, does not conflict. *)
Definition compatible (r : CommitRecord) (st : CommitStatus) : Prop :=
  st ≠ StatusEmpty ∧ ∀ p, status_record_of st = Some p → ¬ conflicting (cr_operations r) (cr_operations p).

Lemma handle_dependency_conflict d r c r' :
  Dep.handle_dependency d r = (Some c, r') → d = Conflict c ∧ r' = r.
Proof. destruct d; simpl; intros [=]; by subst. Qed.
Lemma handle_dependency_none d r r' : Dep.handle_dependency d r = (None, r') → ∀ c, d ≠ Conflict c.
Proof. by destruct d. Qed.

Lemma resolve_status_none r st r' :
  ob_wf (cr_operations r) → status_wf st → resolve_status r st = Some (None, r') →
  compatible r st ∧ reflagged r r'.
Proof.
  intros Hr Hst Hres.
  assert (Hdep : ∀ p, status_record_of st = Some p → Dep.handle_dependency (Dep.compute_dependency r p) r = (None, r') →
    ¬ conflicting (cr_operations r) (cr_operations p)).
  { intros p Hp Hh. pose proof (compute_dependency_spec r p Hr (Hst p Hp)) as Hc.
    pose proof (handle_dependency_none _ _ _ Hh) as Hn.
    destruct (Dep.compute_dependency r p) as [| |c]; [done|done|]. by destruct (Hn c). }
  unfold compatible. destruct st as [|p|p|p|]; simpl in *.
  - done.
  - destruct (Dep.compute_dependency r p) eqn:Ed; [|done..]. injection Hres as <-.
    split_and!; [done| |reflexivity]. intros ? [= <-]. apply Hdep; [done|]. by rewrite Ed.
  - injection Hres as Hres. split_and!; [done| |by eapply handle_reflagged]. intros ? [= <-]. by apply Hdep.
  - injection Hres as Hres. split_and!; [done| |by eapply handle_reflagged]. intros ? [= <-]. by apply Hdep.
  - injection Hres as <-. split_and!; [done|done|reflexivity].
Qed.
Lemma resolve_status_conflict r st c r' :
  ob_wf (cr_operations r) → status_wf st → resolve_status r st = Some (Some c, r') →
  r' = r ∧ ∃ p, committed st = Some p ∧ conflicting (cr_operations r) (cr_operations p).
Proof.
  intros Hr Hst. unfold resolve_status.
  assert (Hdep : ∀ p, status_record_of st = Some p → Dep.handle_dependency (Dep.compute_dependency r p) r = (Some c, r') →
    r' = r ∧ conflicting (cr_operations r) (cr_operations p)).
  { intros p Hp [Hd ->]%handle_dependency_conflict. split; [done|].
    pose proof (compute_dependency_spec r p Hr (Hst p Hp)) as Hc. by rewrite Hd in Hc. }
  destruct st as [|p|p|p|]; simpl; [done| | | |done].
  - by destruct (Dep.compute_dependency r p).
  - intros [= Hh]. destruct (Hdep p eq_refl Hh) as [? ?]. eauto.
  - intros [= Hh]. destruct (Hdep p eq_refl Hh) as [? ?]. eauto.
Qed.

(** ** The interval checked *)
(** The check of the [n] sequence numbers from [p] on, over statuses. *)
Fixpoint check_interval (st : Z → CommitStatus) (n : nat) (r : CommitRecord) (p : Z)
  : exec spin (option IsolationConflict * CommitRecord) :=
  match n with
  | O => Val (None, r)
  | S n =>
      match resolve_status r (st p) with
      | None => Err Spins
      | Some (Some c, r) => Val (Some c, r)
      | Some (None, r) => check_interval st n r (p + 1)
      end
  end.

Lemma windows_loop_check t ws f n r p k :
  windows_ok t → 0 ≤ p → p + Z.of_nat n ≤ limit t →
  (∀ j w, tl_windows t !! (f + j)%nat = Some w → tw_start w < p + Z.of_nat n → ws !! j = Some w) →
  (n ≠ 0%nat → ∃ w, tl_windows t !! (f + k)%nat = Some w ∧ tw_start w ≤ p < tw_start w + 100) →
  Iso.windows_loop n r p ws k = check_interval (status t) n r p.
Proof.
  intros Hok. revert r p k. induction n as [|n IH]; intros r p k Hp Hn Hws Hk; [done|].
  destruct (Hk ltac:(done)) as (w & Hw & Hr). destruct (window_at t Hok _ w Hw) as (Hs & He & _ & Hl & _).
  pose proof (wk_high t Hok). cbn [Iso.windows_loop check_interval].
  rewrite (Hws k w Hw) by lia. cbn [unwrap mbind exec_bind]. unfold Iso.resolve_concurrent.
  rewrite (get_status_ok t Hok _ w p Hw Hr).
  destruct (resolve_status r (status t p)) as [[[c|] r']|]; cbn [mbind exec_bind]; [done| |done].
  rewrite seq_add1 by lia. rewrite He. apply IH; [lia|lia| |].
  - intros j v Hv Hlt. apply Hws; [done|lia].
  - intros Hn0. destruct (Z.leb_spec (tw_start w + 100) (p + 1)) as [Hge|Hlt].
    + assert (Hlen : (f + S k < length (tl_windows t))%nat) by (unfold limit in *; lia).
      destruct (lookup_lt_is_Some_2 _ _ Hlen) as [v Hv]. exists v. split; [done|].
      destruct (window_at t Hok _ v Hv) as (Hsv & _). lia.
    + exists w. split; [done|lia].
Qed.

Lemma map_exec_lookup {A E} (l : list A) i n :
  (i + n ≤ length l)%nat →
  Snap.map_exec (λ j, unwrap (E:=E) (l !! j)) (seq i n) = Val (take n (drop i l)).
Proof.
  revert i. induction n as [|n IH]; intros i Hl; simpl; [done|].
  destruct (lookup_lt_is_Some_2 l i ltac:(lia)) as [x Hx]. rewrite Hx. cbn [unwrap mbind exec_bind].
  rewrite IH by lia. cbn [mbind exec_bind]. by rewrite (drop_S _ _ _ Hx).
Qed.

Lemma seq_next_ok s : 0 ≤ s < 2 ^ 63 → SeqNr.next s = s + 1.
Proof. intros. unfold SeqNr.next. apply u64_id. unfold is_u64. lia. Qed.
Lemma seq_previous_ok s : 1 ≤ s < 2 ^ 63 → SeqNr.previous s = s - 1.
Proof. intros. unfold SeqNr.previous. apply u64_id. unfold is_u64. lia. Qed.

Lemma windows_validation t open s :
  windows_ok t → 0 ≤ open → open < s → base t ≤ s < limit t →
  ∃ ws first, TL.collect_concurrent_windows open s t = Val (ws, first) ∧
    (open + 1 <? first) = (open + 1 <? base t) ∧ (open + 1 < base t → first = base t) ∧
    ∀ r, cr_open_sequence_number r = open →
      let p := Z.max (open + 1) (base t) in
      Iso.validate_concurrent_from_windows r s ws first =
      check_interval (status t) (Z.to_nat (s - p)) r p.
Proof.
  intros Hok Ho Hos Hs. pose proof (wk_high t Hok). pose proof (wk_low t Hok).
  unfold TL.collect_concurrent_windows. rewrite seq_next_ok, seq_previous_ok by lia.
  rewrite !(resolve_spec t Hok). cbn [mbind exec_bind].
  set (fi := default 0%nat (if (base t <=? open + 1) && (open + 1 <? limit t)
               then Some (Z.to_nat (open + 1 - base t) / 100)%nat else None)).
  set (li := default 0%nat (if (base t <=? s - 1) && (s - 1 <? limit t)
               then Some (Z.to_nat (s - 1 - base t) / 100)%nat else None)).
  assert (Hfi : fi = if base t <=? open + 1 then (Z.to_nat (open + 1 - base t) / 100)%nat else 0%nat).
  { unfold fi. destruct (Z.leb_spec (base t) (open + 1)); simpl; [|done].
    by rewrite (proj2 (Z.ltb_lt _ _)) by lia. }
  assert (Hli : li = if base t <=? s - 1 then (Z.to_nat (s - 1 - base t) / 100)%nat else 0%nat).
  { unfold li. destruct (Z.leb_spec (base t) (s - 1)); simpl; [|done].
    by rewrite (proj2 (Z.ltb_lt _ _)) by lia. }
  clearbody fi li.
  assert (Hdm : ∀ x, (x = 100 * (x / 100) + x mod 100 ∧ x mod 100 < 100)%nat).
  { intros x. split; [apply Nat.div_mod_eq|apply Nat.mod_upper_bound; lia]. }
  assert (Hlen : (0 < length (tl_windows t))%nat).
  { pose proof (wk_nonempty t Hok). destruct (tl_windows t); simpl; [done|lia]. }
  assert (Hfl : (fi < length (tl_windows t))%nat).
  { subst fi. destruct (Z.leb_spec (base t) (open + 1)); [|done].
    pose proof (Hdm (Z.to_nat (open + 1 - base t))). unfold limit in *. lia. }
  assert (Hll : (li < length (tl_windows t))%nat).
  { subst li. destruct (Z.leb_spec (base t) (s - 1)); [|done].
    pose proof (Hdm (Z.to_nat (s - 1 - base t))). unfold limit in *. lia. }
  rewrite map_exec_lookup by lia. cbn [mbind exec_bind].
  destruct (lookup_lt_is_Some_2 _ _ Hfl) as [wf Hwf]. rewrite Hwf. cbn [unwrap mbind exec_bind].
  destruct (window_at t Hok _ wf Hwf) as (Hst & _).
  eexists _, _. split; [done|].
  assert (Hfirst : (base t ≤ open + 1 → tw_start wf ≤ open + 1 < tw_start wf + 100) ∧
                   (open + 1 < base t → tw_start wf = base t)).
  { subst fi. split; intros Hb.
    - rewrite (proj2 (Z.leb_le _ _)) in Hst by lia. pose proof (Hdm (Z.to_nat (open + 1 - base t))). lia.
    - rewrite (proj2 (Z.leb_gt _ _)) in Hst by lia. lia. }
  destruct Hfirst as [Hf1 Hf2]. split_and!; [|done|].
  { destruct (Z.ltb_spec (open + 1) (base t)) as [Hb|Hb].
    - rewrite Hf2 by done. by apply Z.ltb_lt.
    - apply Z.ltb_ge. destruct (Hf1 Hb). lia. }
  intros r Hr. set (p := Z.max (open + 1) (base t)). unfold Iso.validate_concurrent_from_windows. rewrite Hr, seq_next_ok by lia.
  assert (Hp : Z.max (open + 1) (tw_start wf) = p).
  { unfold p. destruct (decide (base t ≤ open + 1)) as [Hb|Hb]; [destruct (Hf1 Hb); lia|]. rewrite Hf2 by lia. done. }
  rewrite Hp. apply (windows_loop_check t _ fi); [done|unfold p; lia|unfold p; lia| |].
  - intros j w Hj Hlt. destruct (window_at t Hok _ w Hj) as (Hsj & _).
    assert (Hjl : (fi + j ≤ li)%nat).
    { subst li. unfold p in Hlt. rewrite (proj2 (Z.leb_le (base t) (s - 1))) by lia.
      pose proof (Hdm (Z.to_nat (s - 1 - base t))). lia. }
    rewrite lookup_take_lt by lia. by rewrite lookup_drop.
  - intros Hn. exists wf. rewrite Nat.add_0_r. split; [done|]. unfold p in Hn |- *.
    destruct (decide (base t ≤ open + 1)) as [Hb|Hb]; [destruct (Hf1 Hb); lia|]. rewrite Hf2 by lia. lia.
Qed.

Section interval.
Context (st : Z → CommitStatus) (Hst : ∀ q, status_wf (st q)).

Lemma check_interval_spec n r p c r' :
  ob_wf (cr_operations r) → check_interval st n r p = Val (c, r') →
  reflagged r r' ∧
  match c with
  | None => ∀ q, p ≤ q < p + Z.of_nat n → compatible r (st q)
  | Some _ => ∃ q rq, p ≤ q < p + Z.of_nat n ∧ committed (st q) = Some rq ∧
                conflicting (cr_operations r) (cr_operations rq)
  end.
Proof.
  revert r p. induction n as [|n IH]; intros r p Hr; simpl.
  { intros [= <- <-]. split; [reflexivity|]. intros q Hq. lia. }
  destruct (resolve_status r (st p)) as [[[c0|] r1]|] eqn:Er; [| |done].
  - intros [= <- <-]. destruct (resolve_status_conflict _ _ _ _ Hr (Hst p) Er) as (-> & rq & Hc & Hconf).
    split; [reflexivity|]. exists p, rq. split; [lia|done].
  - destruct (resolve_status_none _ _ _ Hr (Hst p) Er) as [Hcomp Hrf]. intros Hc.
    destruct (IH r1 (p + 1) (rf_wf _ _ Hrf Hr) Hc) as [Hrf' Hres].
    split; [by etransitivity|]. destruct c as [c|].
    + destruct Hres as (q & rq & Hq & Hcq & Hconf). exists q, rq. split; [lia|]. split; [done|].
      by apply (conflicting_reflagged r r1 rq rq).
    + intros q Hq. destruct (decide (q = p)) as [->|]; [done|].
      destruct (Hres q ltac:(lia)) as [Hne Hnc]. split; [done|]. intros x Hx Hconf.
      apply (Hnc x Hx). by apply (conflicting_reflagged r r1 x x).
Qed.

(** Where every predecessor is decided or validated nothing spins. *)
Lemma check_interval_returns n r p :
  (∀ q, p ≤ q < p + Z.of_nat n → st q = StatusAborted ∨ is_Some (committed (st q))) →
  ∃ c r', check_interval st n r p = Val (c, r').
Proof.
  revert r p. induction n as [|n IH]; intros r p Hall; simpl; [by eexists _, _|].
  assert (∃ x, resolve_status r (st p) = Some x) as [[[c|] r1] ->].
  { destruct (Hall p ltac:(lia)) as [-> |[x Hx]]; [by eexists|]. destruct (st p); simplify_eq/=; by eexists. }
  - by eexists _, _.
  - apply IH. intros q Hq. apply Hall. lia.
Qed.
End interval.

Lemma check_interval_ext st st' n r p :
  (∀ q, p ≤ q < p + Z.of_nat n → st q = st' q) → check_interval st n r p = check_interval st' n r p.
Proof.
  revert r p. induction n as [|n IH]; intros r p Heq; simpl; [done|]. rewrite Heq by lia.
  destruct (resolve_status r (st' p)) as [[[c|] r1]|]; [done| |done]. apply IH. intros q Hq. apply Heq. lia.
Qed.

(** ** A write to the slot of an undecided commit *)
Lemma tl_ok_write t i w s m r :
  tl_ok t → tl_windows t !! i = Some w → tw_start w ≤ s < tw_start w + 100 → m ≠ SlotEmpty →
  tl_watermark t < s →
  let k := Z.to_nat (s - tw_start w) in
  let w' := TW.store_slot k m (mk_TimelineWindow (tw_start w) (tw_slot_status w)
              (<[k := Some r]> (tw_commit_records w)) (tw_readers w)) in
  let t' := TL.put_window i w' t in
  tl_ok t' ∧ base t' = base t ∧ limit t' = limit t ∧ tl_watermark t' = tl_watermark t ∧
  tl_windows t' !! i = Some w' ∧ TW.get_status s w' = Val (with_marker m r) ∧
  ∀ s', status t' s' = if bool_decide (s' = s) then with_marker m r else status t s'.
Proof.
  intros Hok Hi Hs Hm Hw k w' t'.
  destruct (write_slot t i w s m r (tk_windows t Hok) Hi Hs Hm) as (Hwk & Hb & Hl & Hwm & _ & Hi' & Hst).
  fold k in Hwk, Hb, Hl, Hwm, Hi', Hst. fold w' in Hwk, Hb, Hl, Hwm, Hi', Hst. fold t' in Hwk, Hb, Hl, Hwm, Hi', Hst.
  split_and!; [|done|done|done|done| |done].
  - split; [done|rewrite Hb, Hl, Hwm; apply (tk_watermark t Hok)|].
    intros q Hq. rewrite Hst, bool_decide_eq_false_2 by lia. apply (tk_decided t Hok). lia.
  - rewrite (get_status_ok t' Hwk i w' s Hi') by done. by rewrite Hst, bool_decide_eq_true_2.
Qed.

Lemma undecided_above t s : tl_ok t → base t ≤ s → TW.decided (status t s) = false → tl_watermark t < s.
Proof.
  intros Hok Hb Hd. destruct (decide (tl_watermark t < s)); [done|].
  rewrite (tk_decided t Hok) in Hd by lia. done.
Qed.

Lemma index_window w s k m r readers slots :
  tw_start w ≤ s < tw_start w + 100 → k = Z.to_nat (s - tw_start w) →
  TW.set_marker m s (mk_TimelineWindow (tw_start w) slots r readers) =
    Val (TW.store_slot k m (mk_TimelineWindow (tw_start w) slots r readers)).
Proof. intros Hs ->. unfold TW.set_marker. by rewrite index_in. Qed.

(** The first half of [validate_commit]: the slot becomes pending. *)
Lemma begin_commit s r t :
  tl_ok t → base t ≤ s < 2 ^ 62 → status t s = StatusEmpty →
  ∃ i w0 t0 w1, TL.get_or_create_window s t = Val (i, w0, t0) ∧ TW.insert_pending s r w0 = Val w1 ∧
    TW.get_status s w1 = Val (StatusPending r) ∧ tw_start w1 ≤ s < tw_start w1 + 100 ∧
    let t1 := TL.put_window i w1 t0 in
    tl_ok t1 ∧ base t1 = base t ∧ s < limit t1 ∧ tl_watermark t1 = tl_watermark t ∧ tl_watermark t < s ∧
    tl_windows t1 !! i = Some w1 ∧
    ∀ q, status t1 q = if bool_decide (q = s) then StatusPending r else status t q.
Proof.
  intros Hok Hs He.
  destruct (get_or_create_spec s t Hok Hs) as (i & w0 & t0 & Hg & Hok0 & Hb0 & Hw0 & _ & Hl0 & Hi0 & Hr0 & Hst0).
  assert (Hwm : tl_watermark t < s) by (apply undecided_above; [done|lia|by rewrite He]).
  assert (Hnone : tw_commit_records w0 !! Z.to_nat (s - tw_start w0) = Some None).
  { destruct (status_record t0 i w0 s (tk_windows _ Hok0) Hi0 Hr0) as [[_ ?]|(m & r0 & Hm & Hsm & _)]; [done|].
    rewrite Hst0, He in Hsm. by destruct m. }
  destruct (tl_ok_write t0 i w0 s SlotPending r Hok0 Hi0 Hr0 ltac:(done) ltac:(lia))
    as (Hok1 & Hb1 & Hl1 & Hw1 & Hi1 & Hg1 & Hst1).
  eexists i, w0, t0, _. split; [done|]. split; [unfold TW.insert_pending; rewrite index_in by done;
    cbn [mbind exec_bind]; rewrite Hnone; reflexivity|].
  split; [exact Hg1|]. split; [exact Hr0|]. split_and!; [done|lia|lia|by rewrite Hw1, Hw0|done|done|].
  intros q. rewrite Hst1. case_bool_decide; [done|apply Hst0].
Qed.

(** ** Validation of a commit *)
Section validate.
Context {DErr : Type} (client : DurabilityClient DErr) (m : IsolationManager) (s : Z) (r : CommitRecord).
Let t := im_timeline m.
Let open := cr_open_sequence_number r.
Context (Hok : tl_ok t) (Hs : base t ≤ s < 2 ^ 62) (Hempty : status t s = StatusEmpty).
Context (Hopen : 0 ≤ open < s) (Hwf : ob_wf (cr_operations r)) (Hall : ∀ q, status_wf (status t q)).

(** The second half of [validate_commit], after the outcome is known. *)
Definition outcome_ok (c : option IsolationConflict) (r' : CommitRecord) (res : ValidatedCommit)
    (m' : IsolationManager) : Prop :=
  let t' := im_timeline m' in
  tl_ok t' ∧ (∀ q, base t' ≤ q → q ≠ s → status t' q = status t q) ∧
  (base t ≤ base t' ∧ tl_watermark t ≤ tl_watermark t') ∧
  match c with
  | Some c => res = ValidatedConflict c ∧ (base t' ≤ s → status t' s = StatusAborted) ∧
      im_highest_validated_sequence_number m' = im_highest_validated_sequence_number m
  | None => res = ValidatedWrite (Batches.from_operations s (cr_operations r')) ∧
      status t' s = StatusValidated r' ∧
      im_highest_validated_sequence_number m' = Z.max (im_highest_validated_sequence_number m) s
  end.

Lemma validate_commit_outcome c r' :
  (∀ t1, windows_ok t1 → base t1 = base t → s < limit t1 →
     (∀ q, status t1 q = if bool_decide (q = s) then StatusPending r else status t q) →
     Iso.validate_all_concurrent s r client t1 = Val (inl c, r')) →
  reflagged r r' →
  ∃ res m', Iso.validate_commit s r client m = Val (inl res, m') ∧ outcome_ok c r' res m'.
Proof.
  intros Hval Hrf. unfold Iso.validate_commit. fold t.
  destruct (begin_commit s r t Hok Hs Hempty) as
    (i & w0 & t0 & w1 & Hg & Hins & Hpend & Hr1 & Hok1 & Hb1 & Hl1 & Hw1 & Hwm & Hi1 & Hst1).
  set (t1 := TL.put_window i w1 t0) in *.
  rewrite Hg. cbn [Iso.run mbind exec_bind]. rewrite Hins. cbn [Iso.run mbind exec_bind].
  rewrite Hpend. cbn [Iso.run mbind exec_bind]. fold t1.
  rewrite (Hval t1 (tk_windows _ Hok1) Hb1 Hl1 Hst1). cbn [mbind exec_bind].
  unfold Iso.set_record. rewrite index_in by done. cbn [Iso.run mbind exec_bind].
  destruct c as [c|].
  - unfold TW.set_aborted. rewrite (index_window w1 s _ _ _ _ _ Hr1 eq_refl). cbn [Iso.run mbind exec_bind].
    destruct (tl_ok_write t1 i w1 s SlotAborted r' Hok1 Hi1 Hr1 ltac:(done) ltac:(lia))
      as (Hok2 & Hb2 & Hl2 & Hw2 & Hi2 & _ & Hst2).
    set (t2 := TL.put_window i _ t1) in *.
    assert (∃ t3, TL.may_increment_watermark s t2 = Val t3 ∧ tl_ok t3 ∧ base t2 ≤ base t3 ∧
      tl_watermark t2 ≤ tl_watermark t3 ∧ ∀ q, base t3 ≤ q → status t3 q = status t2 q)
      as (t3 & -> & Hok3 & Hb3 & Hw3 & Hst3).
    { destruct (may_increment_spec s t2 Hok2 ltac:(lia) ltac:(lia)) as [Hne Heq].
      destruct (decide (tl_watermark t2 = s - 1)) as [Hw|Hw].
      - destruct (Heq Hw) as (t3 & ? & ? & _ & ? & ? & _ & ? & _). exists t3. by split_and!.
      - exists t2. split_and!; [by apply Hne|done|lia|lia|done]. }
    cbn [Iso.run mbind exec_bind].
    destruct (remove_reader_spec (cr_open_sequence_number r') t3 Hok3) as
      (t4 & -> & Hok4 & Hb4 & _ & Hw4 & _ & Hst4).
    cbn [Iso.run mbind exec_bind]. eexists _, _. split; [done|]. unfold outcome_ok. cbn [im_timeline Iso.with_timeline].
    split_and!; [done| |lia|lia|done| |done].
    + intros q Hq Hne. rewrite Hst4, Hst3, Hst2, bool_decide_eq_false_2, Hst1, bool_decide_eq_false_2 by (done || lia). done.
    + intros Hq. rewrite Hst4, Hst3, Hst2, bool_decide_eq_true_2 by (done || lia). done.
  - unfold TW.set_validated. rewrite (index_window w1 s _ _ _ _ _ Hr1 eq_refl). cbn [Iso.run mbind exec_bind].
    destruct (tl_ok_write t1 i w1 s SlotValidated r' Hok1 Hi1 Hr1 ltac:(done) ltac:(lia))
      as (Hok2 & Hb2 & Hl2 & Hw2 & Hi2 & Hg2 & Hst2).
    set (t2 := TL.put_window i _ t1) in *.
    destruct (remove_reader_spec (cr_open_sequence_number r') t2 Hok2) as
      (t3 & -> & Hok3 & Hb3 & _ & Hw3 & Hlow & Hst3).
    cbn [Iso.run mbind exec_bind]. rewrite Hg2. cbn [Iso.run mbind exec_bind with_marker].
    eexists _, _. split; [done|]. unfold outcome_ok. cbn [im_timeline im_highest_validated_sequence_number].
    split_and!; [done| |lia|lia|done| |done].
    + intros q Hq Hne. rewrite Hst3, Hst2, bool_decide_eq_false_2, Hst1, bool_decide_eq_false_2 by (done || lia). done.
    + rewrite Hst3, Hst2, bool_decide_eq_true_2 by (done || lia). done.
Qed.

Lemma validate_in_memory c r' :
  base t ≤ open + 1 →
  check_interval (status t) (Z.to_nat (s - (open + 1))) r (open + 1) = Val (c, r') →
  ∀ t1, windows_ok t1 → base t1 = base t → s < limit t1 →
     (∀ q, status t1 q = if bool_decide (q = s) then StatusPending r else status t q) →
     Iso.validate_all_concurrent s r client t1 = Val (inl c, r').
Proof.
  intros Hmem Hc t1 Hwk Hb Hl Hst. unfold Iso.validate_all_concurrent. fold open.
  destruct (windows_validation t1 open s Hwk) as (ws & first & Hcol & Hlt & _ & Hv); [lia|lia|lia|].
  rewrite Hcol, seq_next_ok by lia. rewrite Hlt, Hb, (proj2 (Z.ltb_ge _ _)) by lia.
  rewrite (Hv r eq_refl), Hb. rewrite Z.max_l by lia.
  rewrite (check_interval_ext _ (status t)); [by rewrite Hc|].
  intros q Hq. rewrite Hst, bool_decide_eq_false_2; [done|]. lia.
Qed.

Lemma validate_commit_in_memory :
  base t ≤ open + 1 →
  (∀ q, open < q < s → status t q = StatusAborted ∨ is_Some (committed (status t q))) →
  ∃ c r' res m', Iso.validate_commit s r client m = Val (inl res, m') ∧ reflagged r r' ∧ outcome_ok c r' res m' ∧
    match c with
    | Some _ => ∃ q rq, open < q < s ∧ committed (status t q) = Some rq ∧
                  conflicting (cr_operations r) (cr_operations rq)
    | None => ∀ q rq, open < q < s → committed (status t q) = Some rq →
                ¬ conflicting (cr_operations r) (cr_operations rq)
    end.
Proof.
  intros Hmem Hdec. pose proof (wk_high t (tk_windows t Hok)).
  set (n := Z.to_nat (s - (open + 1))).
  destruct (check_interval_returns (status t) n r (open + 1)) as (c & r' & Hc).
  { intros q Hq. apply Hdec. unfold n in Hq. lia. }
  destruct (check_interval_spec (status t) Hall n r (open + 1) c r' Hwf Hc) as [Hrf Hspec].
  assert (∀ t1, windows_ok t1 → base t1 = base t → s < limit t1 →
     (∀ q, status t1 q = if bool_decide (q = s) then StatusPending r else status t q) →
     Iso.validate_all_concurrent s r client t1 = Val (inl c, r')) as Hval
    by (by apply validate_in_memory).
  destruct (validate_commit_outcome c r' Hval Hrf) as (res & m' & Hvc & Hout).
  exists c, r', res, m'. split_and!; [done|done|done|]. destruct c as [c|].
  - destruct Hspec as (q & rq & Hq & ? & ?). exists q, rq. split; [unfold n in Hq; lia|done].
  - intros q rq Hq Hcq. destruct (Hspec q ltac:(unfold n; lia)) as [_ Hnc]. apply Hnc.
    by destruct (status t q).
Qed.

(** Where the check of the interval waits, so does the call. *)
Lemma validate_commit_waits :
  base t ≤ open + 1 →
  check_interval (status t) (Z.to_nat (s - (open + 1))) r (open + 1) = Err Spins →
  Iso.validate_commit s r client m = Err Spins.
Proof.
  intros Hmem Hc. unfold Iso.validate_commit. fold t.
  destruct (begin_commit s r t Hok Hs Hempty) as
    (i & w0 & t0 & w1 & Hg & Hins & Hpend & Hr1 & Hok1 & Hb1 & Hl1 & Hw1 & Hwm & Hi1 & Hst1).
  rewrite Hg. cbn [Iso.run mbind exec_bind]. rewrite Hins. cbn [Iso.run mbind exec_bind].
  rewrite Hpend. cbn [Iso.run mbind exec_bind]. set (t1 := TL.put_window i w1 t0) in *.
  unfold Iso.validate_all_concurrent. fold open.
  destruct (windows_validation t1 open s (tk_windows _ Hok1)) as (ws & first & Hcol & Hlt & _ & Hv); [lia..|].
  rewrite Hcol, seq_next_ok by lia. rewrite Hlt, Hb1, (proj2 (Z.ltb_ge _ _)) by lia.
  rewrite (Hv r eq_refl), Hb1. rewrite (Z.max_l (open + 1)) by lia.
  rewrite (check_interval_ext _ (status t)); [by rewrite Hc|].
  intros q Hq. rewrite Hst1, bool_decide_eq_false_2; [done|]. lia.
Qed.

(** A durability error leaves the commit pending. *)
Lemma validate_commit_error e r0 :
  (∀ t1, windows_ok t1 → base t1 = base t → s < limit t1 →
     (∀ q, status t1 q = if bool_decide (q = s) then StatusPending r else status t q) →
     Iso.validate_all_concurrent s r client t1 = Val (inr e, r0)) →
  ∃ m', Iso.validate_commit s r client m = Val (inr e, m') ∧ tl_ok (im_timeline m') ∧
    status (im_timeline m') s = StatusPending r ∧ tl_watermark (im_timeline m') < s.
Proof.
  intros Hval. unfold Iso.validate_commit. fold t.
  destruct (begin_commit s r t Hok Hs Hempty) as
    (i & w0 & t0 & w1 & Hg & Hins & Hpend & Hr1 & Hok1 & Hb1 & Hl1 & Hw1 & Hwm & Hi1 & Hst1).
  rewrite Hg. cbn [Iso.run mbind exec_bind]. rewrite Hins. cbn [Iso.run mbind exec_bind].
  rewrite Hpend. cbn [Iso.run mbind exec_bind].
  rewrite (Hval _ (tk_windows _ Hok1) Hb1 Hl1 Hst1). cbn [mbind exec_bind].
  eexists. split; [done|]. cbn [im_timeline Iso.with_timeline]. split_and!; [done| |lia].
  by rewrite Hst1, bool_decide_eq_true_2.
Qed.
End validate.

(** C7: validation of a commit whose concurrent predecessors are decided or
    validated is exact and does not block or panic: the commit is rejected if
    and only if some committed predecessor in the open interval between the
    snapshot's sequence number and the commit's conflicts with it; its slot
    becomes aborted or validated accordingly, with the record differing only in
    put flags, no other slot changes, the timeline's invariant holds, and the
    write batches are those of the stored record. *)
Theorem validate_commit_exact {DErr} (client : DurabilityClient DErr) m s r :
  let t := im_timeline m in
  let open := cr_open_sequence_number r in
  tl_ok t → base t ≤ s < 2 ^ 62 → status t s = StatusEmpty → 0 ≤ open < s → base t ≤ open + 1 →
  ob_wf (cr_operations r) → (∀ q, status_wf (status t q)) →
  (∀ q, open < q < s → status t q = StatusAborted ∨ is_Some (committed (status t q))) →
  ∃ res m', Iso.validate_commit s r client m = Val (inl res, m') ∧
    let t' := im_timeline m' in
    tl_ok t' ∧ (∀ q, base t' ≤ q → q ≠ s → status t' q = status t q) ∧
    match res with
    | ValidatedConflict _ =>
        (∃ q rq, open < q < s ∧ committed (status t q) = Some rq ∧ conflicting (cr_operations r) (cr_operations rq)) ∧
        (base t' ≤ s → status t' s = StatusAborted)
    | ValidatedWrite batches =>
        (∀ q rq, open < q < s → committed (status t q) = Some rq → ¬ conflicting (cr_operations r) (cr_operations rq)) ∧
        ∃ r', reflagged r r' ∧ status t' s = StatusValidated r' ∧
          batches = Batches.from_operations s (cr_operations r')
    end.
Proof.
  intros t open Hok Hs He Ho Hm Hwf Hall Hdec.
  destruct (validate_commit_in_memory client m s r Hok Hs He Ho Hwf Hall Hm Hdec) as
    (c & r' & res & m' & Hv & Hrf & (Hok' & Hoth & _ & Hres) & Hspec).
  exists res, m'. split; [exact Hv|]. split; [exact Hok'|]. split; [exact Hoth|]. destruct c as [c|].
  - destruct Hres as (-> & Ha & _). done.
  - destruct Hres as (-> & Hst & _). split; [done|]. by exists r'.
Qed.

(** A durability error during validation leaves the commit pending for
    good: [validate_commit] returns the error with the slot still pending, so
    the watermark is below it and cannot pass it while it stays pending, and
    snapshots that wait for a later commit never open. *)
Lemma validation_error_blocks_watermark {DErr} (client : DurabilityClient DErr) m s r e :
  let t := im_timeline m in
  let open := cr_open_sequence_number r in
  tl_ok t → base t ≤ s < 2 ^ 62 → status t s = StatusEmpty → 0 ≤ open < s → open + 1 < base t →
  iter_unsequenced_status_from client (open + 1) = Err e →
  ∃ m', Iso.validate_commit s r client m = Val (inr e, m') ∧ tl_ok (im_timeline m') ∧
    status (im_timeline m') s = StatusPending r ∧
    ∀ t', tl_ok t' → base t' ≤ s → status t' s = StatusPending r → tl_watermark t' < s.
Proof.
  intros t open Hok Hs He Ho Hdisk Herr.
  destruct (validate_commit_error client m s r Hok Hs He e r) as (m' & Hv & Hok' & Hst & _).
  - intros t1 Hwk Hb Hl Hst. unfold Iso.validate_all_concurrent. fold open.
    destruct (windows_validation t1 open s Hwk) as (ws & first & Hcol & Hlt & _ & _); [lia|lia|fold t in Hb; lia|].
    rewrite Hcol, seq_next_ok by lia. fold t in Hb. rewrite Hlt, Hb, (proj2 (Z.ltb_lt _ _)) by lia.
    unfold Iso.validate_concurrent_from_disk, Iso.iterate_commit_status_from_disk.
    fold open. rewrite seq_next_ok, Herr by lia. done.
  - exists m'. split_and!; [done|done|done|]. intros t' Ht' Hb' Hp.
    apply undecided_above; [done|done|by rewrite Hp].
Qed.
Lemma validation_error_blocks_watermark_witness :
  let client : DurabilityClient nat := mk_DurabilityClient (λ _, Err 7%nat) (λ _, Val []) in
  let r := mk_CommitRecord OB.new 3 CommitData in
  ∃ m', Iso.validate_commit 9 r client (Iso.new 9) = Val (inr 7%nat, m') ∧
        status (im_timeline m') 9 = StatusPending r.
Proof.
  intros client r.
  destruct (validation_error_blocks_watermark client (Iso.new 9) 9 r 7%nat) as (m' & Hv & _ & Hst & _);
    [apply tl_ok_new; lia|unfold base; simpl; lia|apply status_new; lia|simpl; lia|unfold base; simpl; lia|reflexivity|].
  exists m'. split; [exact Hv|exact Hst].
Defined.

(** ** Applying a validated commit *)
Lemma window_of_status t s : tl_ok t → status t s ≠ StatusEmpty → base t ≤ s < limit t.
Proof.
  intros Hok Hne. destruct (decide (base t ≤ s < limit t)) as [|Hout]; [done|].
  destruct Hne. apply (status_out t (tk_windows t Hok) s Hout).
Qed.

Lemma applied_spec s m r :
  let t := im_timeline m in
  tl_ok t → status t s = StatusValidated r → tl_watermark t < s →
  ∃ m', Iso.applied s m = Val m' ∧
    let t' := im_timeline m' in
    tl_ok t' ∧ base t ≤ base t' ∧ tl_watermark t ≤ tl_watermark t' ∧
    im_highest_validated_sequence_number m' = im_highest_validated_sequence_number m ∧
    (∀ q, base t' ≤ q → status t' q = if bool_decide (q = s) then StatusApplied r else status t q) ∧
    (tl_watermark t = s - 1 → s ≤ tl_watermark t' ∧ (status t (s + 1) = StatusEmpty → tl_watermark t' = s)).
Proof.
  intros t Hok Hst Hwm. assert (Hr := window_of_status t s Hok ltac:(by rewrite Hst)).
  pose proof (wk_high t (tk_windows t Hok)).
  destruct (try_get_in t (tk_windows t Hok) s Hr) as (i & w & Htry & Hi & Hw).
  destruct (status_record t i w s (tk_windows t Hok) Hi Hw) as [[He _]|(mk & r0 & Hmk & Hs & Hrec)]; [congruence|].
  assert (r0 = r) as -> by (rewrite Hst in Hs; destruct mk; simplify_eq/=; done).
  destruct (tl_ok_write t i w s SlotApplied r Hok Hi Hw ltac:(done) Hwm) as (Hok2 & Hb2 & Hl2 & Hw2 & Hi2 & _ & Hst2).
  unfold Iso.applied. fold t. rewrite Htry. unfold TW.set_applied, TW.set_marker. rewrite index_in by done.
  cbn [mbind exec_bind]. rewrite record_insert_same in Hok2, Hb2, Hl2, Hw2, Hst2 by done.
  replace (mk_TimelineWindow (tw_start w) (tw_slot_status w) (tw_commit_records w) (tw_readers w)) with w
    in Hok2, Hb2, Hl2, Hw2, Hst2 by (by destruct w).
  set (t2 := TL.put_window i _ t) in *.
  destruct (may_increment_spec s t2 Hok2 ltac:(lia) ltac:(lia)) as [Hne Heq].
  destruct (decide (tl_watermark t2 = s - 1)) as [Hw1|Hw1].
  - destruct (Heq Hw1) as (t3 & -> & Hok3 & Hmax & Hle & Hb3 & _ & Hst3 & Hdec).
    eexists. split; [done|]. cbn [im_timeline Iso.with_timeline im_highest_validated_sequence_number].
    split_and!; [done|lia|lia|done| |].
    { intros q Hq. by rewrite Hst3, Hst2 by done. }
    intros Hws. assert (Hge : s ≤ tl_watermark t3).
    { destruct (decide (s ≤ tl_watermark t3)); [done|]. exfalso.
      pose proof (tk_watermark t3 Hok3). unfold watermark_maximal in Hmax.
      replace (tl_watermark t3 + 1) with s in Hmax by lia.
      rewrite Hst3, Hst2, bool_decide_eq_true_2 in Hmax by (done || lia). done. }
    split; [done|]. intros Hnext. destruct (decide (tl_watermark t3 = s)); [done|]. exfalso.
    specialize (Hdec (s + 1) ltac:(lia)). rewrite Hst2, bool_decide_eq_false_2, Hnext in Hdec by lia. done.
  - rewrite (Hne Hw1). eexists. split; [done|]. cbn [im_timeline Iso.with_timeline im_highest_validated_sequence_number].
    split_and!; [done|lia|lia|done|intros q _; apply Hst2|]. intros. lia.
Qed.

(** ** Loading a validated commit *)
Lemma load_validated_spec s r m :
  let t := im_timeline m in
  tl_ok t → base t ≤ s < 2 ^ 62 → status t s = StatusEmpty →
  ∃ m', Iso.load_validated s r m = Val m' ∧
    let t' := im_timeline m' in
    tl_ok t' ∧ base t' ≤ s ∧ ∀ q, base t' ≤ q → status t' q = if bool_decide (q = s) then StatusValidated r else status t q.
Proof.
  intros t Hok Hs He. unfold Iso.load_validated. fold t.
  destruct (begin_commit s r t Hok Hs He) as
    (i & w0 & t0 & w1 & Hg & Hins & Hpend & Hr1 & Hok1 & Hb1 & Hl1 & Hw1 & Hwm & Hi1 & Hst1).
  set (t1 := TL.put_window i w1 t0) in *.
  rewrite Hg. cbn [mbind exec_bind]. rewrite Hins. cbn [mbind exec_bind].
  unfold TW.set_validated, TW.set_marker. rewrite index_in by done. cbn [mbind exec_bind].
  destruct (status_record t1 i w1 s (tk_windows _ Hok1) Hi1 Hr1) as [[Hn _]|(mk & r0 & Hmk & Hsr & Hrec)].
  { rewrite Hst1, bool_decide_eq_true_2 in Hn by done. done. }
  rewrite Hst1, bool_decide_eq_true_2 in Hsr by done.
  assert (r0 = r) as -> by (destruct mk; simplify_eq/=; done).
  destruct (tl_ok_write t1 i w1 s SlotValidated r Hok1 Hi1 Hr1 ltac:(done) ltac:(lia))
    as (Hok2 & Hb2 & Hl2 & Hw2 & Hi2 & _ & Hst2).
  rewrite record_insert_same in Hok2, Hb2, Hl2, Hw2, Hst2 by done.
  replace (mk_TimelineWindow (tw_start w1) (tw_slot_status w1) (tw_commit_records w1) (tw_readers w1)) with w1
    in Hok2, Hb2, Hl2, Hw2, Hst2 by (by destruct w1).
  assert (Hput : ∀ w, TL.put_window i w t0 = TL.put_window i w t1).
  { intros w. unfold t1, TL.put_window, TL.set_windows. simpl. by rewrite list_insert_insert_eq. }
  rewrite Hput. set (t2 := TL.put_window i _ t1) in *.
  assert (∃ t3, TL.may_increment_watermark s t2 = Val t3 ∧ tl_ok t3 ∧ tl_watermark t3 < s ∧
    ∀ q, base t3 ≤ q → status t3 q = status t2 q) as (t3 & -> & Hok3 & Hw3 & Hst3).
  { destruct (may_increment_spec s t2 Hok2 ltac:(lia) ltac:(lia)) as [Hne Heq].
    destruct (decide (tl_watermark t2 = s - 1)) as [Hw|Hw]; [|exists t2; rewrite Hne by done; split_and!; [done|done|lia|done]].
    destruct (Heq Hw) as (t3 & ? & ? & _ & ? & _ & _ & ? & Hdec). exists t3. split_and!; [done|done| |done].
    destruct (decide (tl_watermark t3 < s)); [done|]. specialize (Hdec s ltac:(lia)).
    rewrite Hst2, bool_decide_eq_true_2 in Hdec by done. done. }
  cbn [mbind exec_bind]. eexists. split; [done|]. cbn [im_timeline Iso.with_timeline].
  pose proof (tk_watermark t3 Hok3). split_and!; [done|lia|]. intros q Hq. rewrite Hst3, Hst2, Hst1 by done.
  by destruct (bool_decide (q = s)).
Qed.

(** A record with one write. *)
Definition run_record (w : Write) (open : Z) : CommitRecord :=
  mk_CommitRecord (mk_OperationsBuffer (<[1%nat := mk_WriteBuffer 1 [([7], w)]]> (ob_write_buffers OB.new)) [])
    open CommitData.
Lemma run_record_wf w open : ob_wf (cr_operations (run_record w open)).
Proof.
  unfold run_record. cbn [cr_operations]. destruct ob_wf_new as (Hlen & Hb & Hl). split_and!; [done| |done].
  intros i wb. cbn [ob_write_buffers]. destruct (decide (i = 1%nat)) as [->|Hne].
  - rewrite list_lookup_insert_eq by (rewrite Hlen; unfold KEYSPACE_MAXIMUM_COUNT; lia).
    intros [= <-]. split; [done|repeat constructor].
  - rewrite list_lookup_insert_ne by done. apply Hb.
Qed.

(** The manager after commit 1, an insert, has been validated; commit 2 was
    opened before it and is validated against it. *)
Definition no_log : DurabilityClient Empty_set := mk_DurabilityClient (λ _, Val []) (λ _, Val []).
Lemma one_validated_commit :
  let r1 := run_record (Insert [5]) 0 in
  ∃ m, tl_ok (im_timeline m) ∧ base (im_timeline m) = 1 ∧
    ∀ q, status (im_timeline m) q = if bool_decide (q = 1) then StatusValidated r1 else StatusEmpty.
Proof.
  intros r1. assert (He : ∀ q, status (im_timeline (Iso.new 1)) q = StatusEmpty) by (intros q; apply status_new; lia).
  destruct (load_validated_spec 1 r1 (Iso.new 1)) as (m & Hl & Hok & Hb & Hst).
  - apply tl_ok_new. lia.
  - unfold base. simpl. lia.
  - apply He.
  - assert (Hb1 : base (im_timeline m) = 1) by (vm_compute in Hl; injection Hl as <-; reflexivity).
    exists m. split_and!; [done|done|]. intros q. destruct (decide (1 ≤ q)) as [Hq|Hq].
    + by rewrite Hst, He by lia.
    + rewrite bool_decide_eq_false_2 by lia. apply status_out; [apply (tk_windows _ Hok)|lia].
Qed.

Lemma validate_commit_exact_witness :
  let r := run_record (Put [6] true false) 0 in
  ∃ m batches m' r', status (im_timeline m) 1 = StatusValidated (run_record (Insert [5]) 0) ∧
    Iso.validate_commit 2 r no_log m = Val (inl (ValidatedWrite batches), m') ∧ tl_ok (im_timeline m') ∧
    reflagged r r' ∧ status (im_timeline m') 2 = StatusValidated r' ∧
    batches = Batches.from_operations 2 (cr_operations r').
Proof.
  intros r. destruct one_validated_commit as (m & Hok & Hb & Hst). exists m.
  destruct (validate_commit_exact no_log m 2 r) as (res & m' & Hv & Hok' & _ & Hres).
  - exact Hok.
  - rewrite Hb. lia.
  - by rewrite Hst.
  - simpl. lia.
  - rewrite Hb. simpl. lia.
  - apply run_record_wf.
  - intros q x. rewrite Hst. case_bool_decide; [|done]. intros [= <-]. apply run_record_wf.
  - simpl. intros q Hq. assert (q = 1) as -> by lia. right. rewrite Hst. simpl. eauto.
  - destruct res as [c|batches].
    + destruct Hres as ((q & rq & Hq & Hcq & Hconf) & _). simpl in Hq. assert (q = 1) as -> by lia.
      rewrite Hst in Hcq. injection Hcq as <-. exfalso. revert Hconf.
      exact (compute_dependency_spec r (run_record (Insert [5]) 0) (run_record_wf _ _) (run_record_wf _ _)).
    + destruct Hres as (_ & r' & Hrf & Hs & Hbs). exists batches, m', r'. rewrite Hst. by split_and!.
Defined.

(** ** Recovery of a rejected commit, and reset *)
Lemma fresh_window s : 1 ≤ s < 2 ^ 62 → ∀ wm w,
  tw_start w = s → TL.try_get_window s (mk_Timeline [w] wm) = Val (Some (0%nat, w)).
Proof.
  intros Hs wm w Hw. unfold TL.try_get_window, TL.resolve_window. simpl. rewrite window_end by lia. rewrite Hw.
  rewrite (proj2 (Z.leb_le s s)), (proj2 (Z.ltb_lt s (s + 100))) by lia. cbn [andb mbind exec_bind].
  unfold SeqNr.diff. by rewrite Z.sub_diag.
Qed.

(** Recovery of a log whose first commit was rejected panics:
    [load_aborted] marks the slot aborted without storing a record, and
    [may_increment_watermark], called on the same slot, unwraps the missing
    record. *)
Lemma load_aborted_panics s : 1 ≤ s < 2 ^ 62 → Iso.load_aborted s (Iso.new s) = Panic.
Proof.
  intros Hs. unfold Iso.load_aborted, TL.get_or_create_window, Iso.new, TL.new. cbn [im_timeline tl_windows last].
  cbn [unwrap mbind exec_bind]. rewrite window_end by (simpl; lia). change (tw_start (TW.new s)) with s.
  rewrite (proj2 (Z.leb_gt _ _)) by lia. cbn [mbind exec_bind]. rewrite (fresh_window s Hs _ (TW.new s) eq_refl). cbn [unwrap mbind exec_bind].
  unfold TW.set_aborted, TW.set_marker. rewrite index_in by (simpl; lia). change (tw_start (TW.new s)) with s.
  cbn [mbind exec_bind].
  rewrite Z.sub_diag. change (Z.to_nat 0) with 0%nat.
  set (w := TW.store_slot 0 SlotAborted _). assert (Hw : tw_start w = s) by done.
  unfold TL.put_window, TL.set_windows. cbn [tl_windows tl_watermark list_insert insert].
  unfold TL.may_increment_watermark. cbn [tl_watermark].
  rewrite seq_sub1, u64_id, Z.eqb_refl by (lia || (unfold is_u64; lia)). cbn [negb].
  rewrite (fresh_window s Hs _ w Hw). cbn [mbind exec_bind].
  unfold TL.increment_fuel. cbn [TL.increment_loop tl_windows length].
  unfold TW.get_status. rewrite index_in by lia. rewrite Hw, Z.sub_diag. done.
Qed.
Lemma load_aborted_panics_witness : Iso.load_aborted 4 (Iso.new 4) = Panic.
Proof. apply (load_aborted_panics 4). lia. Defined.

(** [MVCCStorage::wait_for_watermark] and [open_snapshot_write] /
    [open_snapshot_read] / [open_snapshot_schema]. *)
Definition wait_for_watermark (target : Z) (m : IsolationManager) : exec spin Z :=
  let watermark := Iso.watermark m in
  if watermark <? target then Err Spins else Val watermark.
Definition open_snapshot (m : IsolationManager) : exec spin Z :=
  wait_for_watermark (im_highest_validated_sequence_number m) m.

(** [reset] leaves the manager unusable after commits: it restarts the
    timeline at the sequence number the manager was created with but keeps the
    highest validated number, so opening any snapshot waits for a watermark
    that is behind it; and when the manager was created above 1 (a loaded
    database) the first commit of the restarted log, number 1, has no window
    and validation panics. *)
Lemma reset_leaves_manager_unusable {DErr} (client : DurabilityClient DErr) m r :
  1 ≤ im_initial_sequence_number m < 2 ^ 62 →
  (im_initial_sequence_number m ≤ im_highest_validated_sequence_number m →
     open_snapshot (Iso.reset m) = Err Spins) ∧
  (1 < im_initial_sequence_number m → Iso.validate_commit 1 r client (Iso.reset m) = Panic).
Proof.
  intros Hi. split.
  - intros Hh. unfold open_snapshot, wait_for_watermark, Iso.watermark, Iso.reset. cbn.
    rewrite u64_id by (unfold is_u64; lia). by rewrite (proj2 (Z.ltb_lt _ _)) by lia.
  - intros Hgt. unfold Iso.validate_commit, Iso.reset. cbn [im_timeline Iso.with_timeline].
    unfold TL.get_or_create_window, TL.new. cbn [tl_windows last unwrap mbind exec_bind].
    rewrite window_end by (simpl; lia). cbn [TW.new tw_start].
    rewrite (proj2 (Z.leb_gt _ _)) by lia. unfold TL.try_get_window, TL.resolve_window.
    cbn [tl_windows head last unwrap mbind exec_bind TW.new tw_start].
    rewrite (proj2 (Z.leb_gt (im_initial_sequence_number m) 1)) by lia. done.
Qed.
Lemma reset_leaves_manager_unusable_witness :
  let m := mk_IsolationManager 5 (TL.new 5) 9 in
  open_snapshot (Iso.reset m) = Err Spins.
Proof.
  intros m. apply (reset_leaves_manager_unusable
    (mk_DurabilityClient (DErr:=Empty_set) (λ _, Val []) (λ _, Val [])) m (mk_CommitRecord OB.new 0 CommitData));
    simpl; lia.
Defined.

(** Importing a snapshot leaves a usable manager: after
    [reset_to_watermark] the timeline is well formed, snapshots open at once at
    the imported watermark and the next sequence number has a window. *)
Lemma reset_to_watermark_usable watermark m :
  0 ≤ watermark < 2 ^ 62 - 1 →
  let m' := Iso.reset_to_watermark watermark m in
  tl_ok (im_timeline m') ∧ open_snapshot m' = Val watermark ∧
  ∃ i w t, TL.get_or_create_window (watermark + 1) (im_timeline m') = Val (i, w, t).
Proof.
  intros Hw. unfold Iso.reset_to_watermark, TL.new_with_watermark. rewrite seq_next_ok by lia.
  cbn [im_timeline]. assert (Hok : tl_ok (mk_Timeline [TW.new (watermark + 1)] watermark)).
  { split; [apply windows_ok_new; lia|unfold limit, base; simpl; lia|].
    unfold base. simpl. intros q Hq. lia. }
  split_and!; [done| |].
  - unfold open_snapshot, wait_for_watermark. cbn. by rewrite Z.ltb_irrefl.
  - destruct (get_or_create_spec (watermark + 1) _ Hok) as (i & w & t & Hg & _); [unfold base; simpl; lia|].
    eauto.
Qed.
