(* ===== verification/Storage.v ===== *)
(** * The storage engine: [storage/storage.rs] ([MVCCStorage]),
    [storage/durability_client.rs] and the commit of [storage/snapshot/snapshot.rs]

    The commit handler [snapshot_commit] composed as in the code: put status
    check, log write, validation, keyspace writes, notification of the isolation
    manager, status record; with opening of snapshots, reset, and export and
    import.  The durability client is an interface with the in-memory client
    [NoopDurabilityClient] as an instance; the theorems are proved against the
    interface's laws. *)
From stdpp Require Import sets.
From S2P Require Import Prelude BTree Bytes MemoryStore Buffer LendingIter Mvcc Keyspaces Snapshot Dependency Timeline Isolation.

(** ** The durability client *)
(** What the storage uses of [DurabilityClient].  A write changes the client
    also when it fails, hence the pairs. *)
Class Durability (D E : Type) : Type := {
  d_current : D → Z;
  d_sequenced_write : CommitRecord → D → exec E Z * D;
  d_unsequenced_write : StatusRecord → D → exec E unit * D;
  d_reader : D → DurabilityClient E;
  d_reset : D → exec E unit * D;
  d_reset_to_sequence : Z → D → exec E unit * D;
}.
(** A client that numbers records consecutively and does not fail. *)
Class DurabilityLaws (D E : Type) `{Durability D E} : Prop := {
  d_sequenced_ok : ∀ r d, 0 ≤ d_current d < 2 ^ 63 → ∃ d',
    d_sequenced_write r d = (Val (d_current d), d') ∧ d_current d' = d_current d + 1;
  d_unsequenced_ok : ∀ r d, ∃ d', d_unsequenced_write r d = (Val (), d') ∧ d_current d' = d_current d;
}.

Record NoopDurabilityClient := mk_Noop { nd_next_sequence_number : Z }.
Module Noop.
Definition new : NoopDurabilityClient := mk_Noop 1.
Definition with_sequence_number (start : Z) : NoopDurabilityClient := mk_Noop start.
Definition current (d : NoopDurabilityClient) : Z := nd_next_sequence_number d.
Definition previous (d : NoopDurabilityClient) : Z := SeqNr.previous (current d).
(** [fetch_add(1)]: the old value, and wrap-around. *)
Definition sequenced_write (_ : CommitRecord) (d : NoopDurabilityClient)
  : exec Empty_set Z * NoopDurabilityClient :=
  (Val (nd_next_sequence_number d), mk_Noop (u64 (nd_next_sequence_number d + 1))).
Definition unsequenced_write (_ : StatusRecord) (d : NoopDurabilityClient)
  : exec Empty_set unit * NoopDurabilityClient := (Val (), d).
(** [iter_from] and [iter_type_from] are empty. *)
Definition reader (_ : NoopDurabilityClient) : DurabilityClient Empty_set :=
  mk_DurabilityClient (λ _, Val []) (λ _, Val []).
Definition reset (_ : NoopDurabilityClient) : exec Empty_set unit * NoopDurabilityClient := (Val (), mk_Noop 1).
Definition reset_to_sequence (sequence_number : Z) (_ : NoopDurabilityClient)
  : exec Empty_set unit * NoopDurabilityClient := (Val (), mk_Noop sequence_number).
End Noop.
#[global] Instance noop_durability : Durability NoopDurabilityClient Empty_set := {|
  d_current := Noop.current;
  d_sequenced_write := Noop.sequenced_write;
  d_unsequenced_write := Noop.unsequenced_write;
  d_reader := Noop.reader;
  d_reset := Noop.reset;
  d_reset_to_sequence := Noop.reset_to_sequence;
|}.

(** ** The storage *)
Record Storage (D : Type) := mk_Storage {
  st_keyspaces : Keyspaces;
  st_durability : D;
  st_isolation : IsolationManager;
}.
Arguments mk_Storage {D} _ _ _.
Arguments st_keyspaces {D} _.
Arguments st_durability {D} _.
Arguments st_isolation {D} _.

Inductive StorageCommitError (E : Type) :=
| CommitInternal (sequence_number : Z)
| CommitIsolation (conflict : IsolationConflict)
| CommitMVCCRead (source : MVCCReadError KeyspaceError)
| CommitKeyspace (source : KeyspaceError)
| CommitDurability (source : E).
Arguments CommitInternal {E} _.
Arguments CommitIsolation {E} _.
Arguments CommitMVCCRead {E} _.
Arguments CommitKeyspace {E} _.
Arguments CommitDurability {E} _.

Inductive StorageError (E : Type) :=
| StorageKeyspaceOpen (source : KeyspaceOpenError)
| StorageKeyspace (source : KeyspaceError)
| StorageDurability (source : E).
Arguments StorageKeyspaceOpen {E} _.
Arguments StorageKeyspace {E} _.
Arguments StorageDurability {E} _.

Module Engine.
Section engine.
Context {D E : Type} `{Durability D E}.

Definition with_keyspaces (k : Keyspaces) (st : Storage D) : Storage D :=
  mk_Storage k (st_durability st) (st_isolation st).
Definition with_durability (d : D) (st : Storage D) : Storage D :=
  mk_Storage (st_keyspaces st) d (st_isolation st).
Definition with_isolation (m : IsolationManager) (st : Storage D) : Storage D :=
  mk_Storage (st_keyspaces st) (st_durability st) m.

(** [create] of the in-memory build; [load] is [create]. *)
Definition create (ds : list KeyspaceDef) (d : D) : exec (StorageError E) (Storage D) :=
  keyspaces ← map_err StorageKeyspaceOpen (KSS.open ds);
  Val (mk_Storage keyspaces d (Iso.new (d_current d))).

Definition snapshot_watermark (st : Storage D) : Z := Iso.watermark (st_isolation st).

(** [open_snapshot_write] / [open_snapshot_schema], with [WriteSnapshot::new]. *)
Definition open_snapshot_write (st : Storage D) : exec spin (WriteSnapshot * Storage D) :=
  open ← open_snapshot (st_isolation st);
  m ← Iso.run (Iso.opened_for_read open (st_isolation st));
  Val (mk_WriteSnapshot OB.new open (st_keyspaces st), with_isolation m st).
Definition open_snapshot_write_at (s : Z) (st : Storage D) : exec spin (WriteSnapshot * Storage D) :=
  _ ← wait_for_watermark s (st_isolation st);
  m ← Iso.run (Iso.opened_for_read s (st_isolation st));
  Val (mk_WriteSnapshot OB.new s (st_keyspaces st), with_isolation m st).
Definition open_snapshot_read (st : Storage D) : exec spin ReadSnapshot :=
  open ← open_snapshot (st_isolation st); Val (mk_ReadSnapshot open (st_keyspaces st)).
Definition open_snapshot_read_at (s : Z) (st : Storage D) : exec spin ReadSnapshot :=
  _ ← wait_for_watermark s (st_isolation st); Val (mk_ReadSnapshot s (st_keyspaces st)).
(** [close_resources] of a write or schema snapshot. *)
Definition closed_snapshot_write (open : Z) (st : Storage D) : outcome (Storage D) :=
  m ← Iso.closed_for_read open (st_isolation st); Val (with_isolation m st).

Definition persist_commit_status (did_apply : bool) (s : Z) (d : D) : exec E unit * D :=
  d_unsequenced_write (mk_StatusRecord s did_apply) d.

(** [snapshot_commit].  The profile calls have no effect; [sync_notifier.recv()]
    returns once the record is on disk.  A commit that fails leaves what was
    done before the failure, hence the storage in the result. *)
Definition snapshot_commit (ct : CommitType) (o : OperationsBuffer) (open : Z) (st : Storage D)
  : exec spin ((Z + StorageCommitError E) * Storage D) :=
  match Snap.set_initial_put_status (mk_WriteSnapshot o open (st_keyspaces st)) with
  | Err e => Val (inr (CommitMVCCRead e), st)
  | Panic => Panic
  | Val snapshot =>
      let commit_record := mk_CommitRecord (ws_operations snapshot) open ct in
      let '(written, d) := d_sequenced_write commit_record (st_durability st) in
      let st := with_durability d st in
      match written with
      | Err e => Val (inr (CommitDurability e), st)
      | Panic => Panic
      | Val s =>
          '(validated, m) ← Iso.validate_commit s commit_record (d_reader d) (st_isolation st);
          let st := with_isolation m st in
          match validated with
          | inl (ValidatedWrite batches) =>
              let '(stored, k) := KSS.write batches (st_keyspaces st) in
              let st := with_keyspaces k st in
              match stored with
              | Err e => Val (inr (CommitKeyspace e), st)
              | Panic => Panic
              | Val _ =>
                  match Iso.applied s m with
                  | Err w => Val (inr (CommitInternal w), st)
                  | Panic => Panic
                  | Val m =>
                      let '(persisted, d) := persist_commit_status true s d in
                      let st := with_durability d (with_isolation m st) in
                      match persisted with
                      | Err e => Val (inr (CommitDurability e), st)
                      | Panic => Panic
                      | Val _ => Val (inl s, st)
                      end
                  end
              end
          | inl (ValidatedConflict conflict) =>
              let '(persisted, d) := persist_commit_status false s d in
              let st := with_durability d st in
              match persisted with
              | Err e => Val (inr (CommitDurability e), st)
              | Panic => Panic
              | Val _ => Val (inr (CommitIsolation conflict), st)
              end
          | inr e => Val (inr (CommitDurability e), st)
          end
      end
  end.

(** [WriteSnapshot::commit] / [SchemaSnapshot::commit]: nothing to commit
    returns [None] and leaves the reader recorded. *)
Definition commit (ct : CommitType) (o : OperationsBuffer) (open : Z) (st : Storage D)
  : exec spin ((option Z + StorageCommitError E) * Storage D) :=
  if OB.is_writes_empty o && OB.locks_empty o then Val (inl None, st)
  else
    '(r, st) ← snapshot_commit ct o open st;
    Val (match r with inl s => inl (Some s) | inr e => inr e end, st).

(** [reset]: isolation manager, keyspaces, log, in this order. *)
Definition reset (st : Storage D) : exec (StorageError E) unit * Storage D :=
  let st := with_isolation (Iso.reset (st_isolation st)) st in
  let '(r, k) := KSS.reset (st_keyspaces st) in
  let st := with_keyspaces k st in
  match r with
  | Val _ =>
      let '(r, d) := d_reset (st_durability st) in
      (map_err StorageDurability r, with_durability d st)
  | Err e => (Err (StorageKeyspace e), st)
  | Panic => (Panic, st)
  end.

Definition export_snapshot (st : Storage D) : exec (StorageError E) bytes :=
  map_err StorageKeyspace (KSS.export_snapshot_with_watermark (snapshot_watermark st) (st_keyspaces st)).
Definition import_snapshot (bs : bytes) (st : Storage D) : exec (StorageError E) Z * Storage D :=
  let '(r, k) := KSS.import_snapshot_with_watermark bs (st_keyspaces st) in
  let st := with_keyspaces k st in
  match r with
  | Val watermark =>
      let next_sequence := SeqNr.next watermark in
      let st := with_isolation (Iso.reset_to_watermark watermark (st_isolation st)) st in
      let '(r, d) := d_reset_to_sequence next_sequence (st_durability st) in
      ((_ ← map_err StorageDurability r; Val watermark), with_durability d st)
  | Err e => (Err (StorageKeyspace e), st)
  | Panic => (Panic, st)
  end.

(** Raw access, bypassing MVCC; an error is logged and panics. *)
Definition put_raw (key : Z * bytes) (value : bytes) (st : Storage D) : outcome (Storage D) :=
  i ← KSS.position key.1 (st_keyspaces st);
  k ← KSS.get key.1 (st_keyspaces st);
  match KS.put key.2 value k with
  | Val k => Val (with_keyspaces (KSS.put_keyspace i k (st_keyspaces st)) st)
  | _ => Panic
  end.
Definition get_raw_mapped {V} (key : Z * bytes) (mapper : bytes → V) (st : Storage D) : outcome (option V) :=
  k ← KSS.get key.1 (st_keyspaces st);
  match KS.get key.2 mapper k with Val v => Val v | _ => Panic end.
Definition get_prev_raw {V} (key : Z * bytes) (mapper : bytes → bytes → V) (st : Storage D)
  : outcome (option V) :=
  k ← KSS.get key.1 (st_keyspaces st); Val (KS.get_prev key.2 mapper k).
Definition iterate_keyspace_range (keyspace_id : Z) (range : KeyRange bytes) (st : Storage D)
  : outcome MemoryKeyspaceRangeIterator :=
  k ← KSS.get keyspace_id (st_keyspaces st); KS.iterate_range range k.
End engine.
End Engine.

(** ** The abstract contents of a storage *)
(** The version a raw entry stands for. *)
Definition decode (kv : bytes * bytes) : Version :=
  match MVCCKey.key kv.1, MVCCKey.sequence_number kv.1, MVCCKey.operation kv.1 with
  | Val k, Val s, Val op => mk_Version k s op kv.2
  | _, _, _ => mk_Version [] 0 OpInsert kv.2
  end.
Definition versions (b : MemoryBackend) : list Version := decode <$> mb_data b.

Lemma decode_raw v : ver_ok v → decode (raw v) = v.
Proof.
  intros [_ Hs]. unfold decode, raw. cbn [fst snd].
  rewrite key_build, sequence_number_build, operation_build by (unfold is_u64; lia). by destruct v.
Qed.
Lemma versions_raw b vs : mb_data b = raw <$> vs → store_ok vs → versions b = vs.
Proof.
  intros Hd Hok. unfold versions. rewrite Hd, <-list_fmap_compose. rewrite <-(list_fmap_id vs) at 2.
  apply list_fmap_ext. intros i v Hi. apply decode_raw. destruct Hok as [_ Hv _ _].
  rewrite Forall_lookup in Hv. by eapply Hv.
Qed.

Record backend_ok (watermark : Z) (b : MemoryBackend) : Prop := {
  bo_live : mb_poisoned b = false;
  bo_raw : mb_data b = raw <$> versions b;
  bo_store : store_ok (versions b);
  bo_past : Forall (λ v, v_seq v ≤ watermark) (versions b);
}.

(** The committed value of a key at a sequence number. *)
Definition value (kss : Keyspaces) (id : Z) (k : bytes) (open : Z) : option bytes :=
  b ← backend_of id kss; read open k (versions b).
Definition buffered (o : OperationsBuffer) (id : Z) (k : bytes) : option Write :=
  wb ← ob_write_buffers o !! Z.to_nat id; bt_get k (wb_writes wb).
(** What a committed write makes of the value before it.  A put of a key known
    to exist leaves the stored value. *)
Definition committed_value (w : option Write) (old : option bytes) : option bytes :=
  match w with
  | Some (Insert v) | Some (Put v _ false) => Some v
  | Some (Put _ _ true) | None => old
  | Some Delete => None
  end.

Lemma read_stable wm open k vs :
  Forall (λ v, v_seq v ≤ wm) vs → wm ≤ open → read open k vs = read wm k vs.
Proof.
  intros Hv Ho. unfold read. assert (latest open k vs = latest wm k vs) as ->; [|done].
  induction Hv as [|v vs Hv _ IH]; [done|]. simpl. rewrite IH. unfold visible_at.
  by rewrite (proj2 (Z.leb_le _ _)), (proj2 (Z.leb_le (v_seq v) wm)) by lia.
Qed.

(** ** The checked operations *)
(** What the put status check makes of the buffered operations. *)
Definition versions_at (kss : Keyspaces) (id : Z) : list Version :=
  match backend_of id kss with Some b => versions b | None => [] end.
Definition check_write (kss : Keyspaces) (open id : Z) (kw : bytes * Write) : bytes * Write :=
  (kw.1, checked open (versions_at kss id) kw.1 kw.2).
Definition checked_buffer (kss : Keyspaces) (open : Z) (wb : WriteBuffer) : WriteBuffer :=
  WB.set_writes (check_write kss open (wb_keyspace_id wb) <$> wb_writes wb) wb.
Definition checked_ops (kss : Keyspaces) (open : Z) (o : OperationsBuffer) : OperationsBuffer :=
  mk_OperationsBuffer (checked_buffer kss open <$> ob_write_buffers o) (ob_locks o).

Lemma map_exec_fmap {A B Er} (f : A → exec Er B) (g : A → B) l :
  (∀ x, x ∈ l → f x = Val (g x)) → Snap.map_exec f l = Val (g <$> l).
Proof.
  intros Hf. apply map_exec_Forall2. induction l as [|x l IH]; csimpl; constructor.
  - apply Hf. left.
  - apply IH. intros y Hy. apply Hf. by right.
Qed.

Lemma bt_wf_same_keys (f : bytes → Write → Write) m :
  bt_wf m → bt_wf ((λ kw : bytes * Write, (kw.1, f kw.1 kw.2)) <$> m).
Proof.
  induction 1 as [|kw m Hm IH Hlt]; csimpl; constructor; [done|].
  apply Forall_fmap. eapply Forall_impl; [exact Hlt|]. done.
Qed.
Lemma bt_get_same_keys (f : bytes → Write → Write) m k :
  bt_get k ((λ kw : bytes * Write, (kw.1, f kw.1 kw.2)) <$> m) = f k <$> bt_get k m.
Proof.
  induction m as [|[k' w] m IH]; csimpl; [done|]. destruct (cmp k k') eqn:Ec; [|done..].
  by apply cmp_eq in Ec as ->.
Qed.

Lemma checked_ops_wf kss open o : ob_wf o → ob_wf (checked_ops kss open o).
Proof.
  intros (Hl & Hb & Hk). split_and!; simpl; [by rewrite length_fmap| |done]. intros i b.
  rewrite list_lookup_fmap. destruct (ob_write_buffers o !! i) as [wb|] eqn:Ei; [|done]. intros [= <-].
  destruct (Hb i wb Ei) as [Hid Hwf]. split; [done|]. unfold wb_wf. simpl.
  apply (bt_wf_same_keys (checked open (versions_at kss (wb_keyspace_id wb)))), Hwf.
Qed.

Lemma checked_writes_empty kss open wb : wb_writes (checked_buffer kss open wb) = [] ↔ wb_writes wb = [].
Proof. unfold checked_buffer. simpl. by destruct (wb_writes wb). Qed.

Lemma checked_keys kss open wb : (wb_writes (checked_buffer kss open wb)).*1 = (wb_writes wb).*1.
Proof. unfold checked_buffer. simpl. rewrite <-list_fmap_compose. done. Qed.

(** ** A quiescent storage: every commit decided *)
Section quiescent.
Context {D E : Type} `{DurabilityLaws D E}.

Record storage_ok (st : Storage D) : Prop := {
  so_keyspaces : kss_wf (st_keyspaces st);
  so_backend : ∀ id b, 0 ≤ id → backend_of id (st_keyspaces st) = Some b →
    backend_ok (Engine.snapshot_watermark st) b;
  so_timeline : tl_ok (im_timeline (st_isolation st));
  so_next : d_current (st_durability st) = Engine.snapshot_watermark st + 1;
  so_highest : im_highest_validated_sequence_number (st_isolation st) = Engine.snapshot_watermark st;
  so_future : ∀ q, Engine.snapshot_watermark st < q → status (im_timeline (st_isolation st)) q = StatusEmpty;
  so_records : ∀ q, status_wf (status (im_timeline (st_isolation st)) q);
  so_range : 0 ≤ Engine.snapshot_watermark st < 2 ^ 55;
}.

(** Operations a transaction can have buffered against these keyspaces. *)
Definition admissible (o : OperationsBuffer) (kss : Keyspaces) : Prop :=
  ob_wf o ∧ ∀ i wb, ob_write_buffers o !! i = Some wb → wb_writes wb ≠ [] →
    Forall is_bytes (wb_writes wb).*1 ∧
    ∃ b, backend_of (Z.of_nat i) kss = Some b ∧ commit_separated (versions b) wb.

Lemma open_ok st :
  storage_ok st → ∃ st1, Engine.open_snapshot_write st =
      Val (mk_WriteSnapshot OB.new (Engine.snapshot_watermark st) (st_keyspaces st), st1) ∧
    storage_ok st1 ∧ st_keyspaces st1 = st_keyspaces st ∧ st_durability st1 = st_durability st ∧
    Engine.snapshot_watermark st1 = Engine.snapshot_watermark st.
Proof.
  intros Hok. unfold Engine.open_snapshot_write, open_snapshot, wait_for_watermark.
  rewrite (so_highest st Hok). unfold Engine.snapshot_watermark at 1. rewrite Z.ltb_irrefl. cbn [mbind exec_bind].
  unfold Iso.opened_for_read.
  destruct (record_reader_spec (Iso.watermark (st_isolation st)) _ (so_timeline st Hok))
    as (t & -> & Ht & Hb & _ & Hw & Hs). cbn [Iso.run mbind exec_bind].
  eexists. split; [done|]. assert (Hwm : Engine.snapshot_watermark
    (Engine.with_isolation (Iso.with_timeline t (st_isolation st)) st) = Engine.snapshot_watermark st) by exact Hw.
  split_and!; [|done|done|done]. split; simpl; rewrite ?Hwm; try apply Hok; [done| |].
  - intros q Hq. rewrite Hs. by apply (so_future st Hok).
  - intros q. rewrite Hs. apply (so_records st Hok).
Qed.

Lemma put_status_ok st o :
  storage_ok st → admissible o (st_keyspaces st) →
  let open := Engine.snapshot_watermark st in
  Snap.set_initial_put_status (mk_WriteSnapshot o open (st_keyspaces st)) =
  Val (mk_WriteSnapshot (checked_ops (st_keyspaces st) open o) open (st_keyspaces st)).
Proof.
  intros Hok [Hwf Hadm] open. unfold Snap.set_initial_put_status. cbn [ws_operations ws_storage ws_open_sequence_number].
  rewrite (map_exec_fmap _ (checked_buffer (st_keyspaces st) open)); [done|].
  intros wb (i & Hi)%list_elem_of_lookup. unfold Snap.buffer_put_status.
  destruct (proj1 (proj2 Hwf) i wb Hi) as [Hid _].
  rewrite (map_exec_fmap _ (check_write (st_keyspaces st) open (wb_keyspace_id wb))); [done|]. intros [k w] Hkw.
  destruct (Hadm i wb Hi) as [Hk (b & Hb & _)]; [by intros Hnil; rewrite Hnil in Hkw; apply not_elem_of_nil in Hkw|].
  rewrite <-Hid in Hb. assert (0 ≤ wb_keyspace_id wb) as Hid0 by lia.
  destruct (so_backend st Hok _ b Hid0 Hb) as [Hlive Hraw Hstore _].
  unfold Snap.put_status, check_write, versions_at. rewrite Hb. cbn [fst snd].
  destruct w as [v|v r []|]; try done. rewrite (keyspace_backend _ _ _ Hb). cbn [mbind exec_bind].
  unfold MVCCStorage.get. rewrite (get_mapped_spec _ b k open (λ v, v) (versions b)); [|done..|].
  - cbn [mbind exec_bind checked]. by rewrite option_fmap_id.
  - rewrite Forall_forall in Hk. apply Hk. by apply (list_elem_of_fmap_2 fst) in Hkw.
Qed.

Lemma batch_at_checked kss open s o id :
  0 ≤ id → batch_at 0 (Batches.from_operations s (checked_ops kss open o)) id =
    (wb ← ob_write_buffers o !! Z.to_nat id; Batches.batch_of s (checked_buffer kss open wb)).
Proof.
  intros Hid. unfold batch_at, Batches.from_operations. rewrite (proj2 (Z.leb_le _ _)) by (simpl; lia).
  cbn [ob_write_buffers checked_ops]. rewrite Nat.sub_0_r, !list_lookup_fmap.
  by destruct (ob_write_buffers o !! Z.to_nat id).
Qed.

(** The batches of a commit applied to one keyspace. *)
Lemma keyspace_commit st o id b :
  let wm := Engine.snapshot_watermark st in
  let o' := checked_ops (st_keyspaces st) wm o in
  storage_ok st → wm + 1 < 2 ^ 55 → admissible o (st_keyspaces st) → 0 ≤ id →
  backend_of id (st_keyspaces st) = Some b →
  let b' := match batch_at 0 (Batches.from_operations (wm + 1) o') id with
            | Some batch => written batch b | None => b end in
  backend_ok (wm + 1) b' ∧ ∀ k open, read open k (versions b') =
    if open <? wm + 1 then read open k (versions b)
    else committed_value (buffered o id k) (read open k (versions b)).
Proof.
  intros wm o' Hok Hwm [Hwf Hadm] Hid Hb b'. pose proof (so_range st Hok) as Hrange. fold wm in Hrange.
  destruct (so_backend st Hok id b Hid Hb) as [Hlive Hraw Hstore Hpast]. fold wm in Hpast.
  assert (Hsame : b' = b → (∀ k, buffered o id k = None) → backend_ok (wm + 1) b' ∧ ∀ k open, read open k (versions b') =
    if open <? wm + 1 then read open k (versions b)
    else committed_value (buffered o id k) (read open k (versions b))).
  { intros -> Hnone. split; [split; [done..|]|intros k open; rewrite Hnone; by destruct (_ <? _)].
    eapply Forall_impl; [exact Hpast|]. simpl. lia. }
  unfold b' in *. unfold o' in *. clear b' o'. rewrite batch_at_checked in Hsame |- * by done.
  unfold buffered in *. destruct (ob_write_buffers o !! Z.to_nat id) as [wb|] eqn:Ewb; [|by apply Hsame].
  destruct (decide (wb_writes wb = [])) as [Hnil|Hne].
  { assert (Batches.batch_of (wm + 1) (checked_buffer (st_keyspaces st) wm wb) = None) as Hn.
    { unfold Batches.batch_of. by rewrite (proj2 (checked_writes_empty _ _ _) Hnil). }
    cbn [mbind option_bind] in Hsame |- *. rewrite Hn in Hsame |- *. apply Hsame; [done|]. by rewrite Hnil. }
  clear Hsame. cbn [mbind option_bind].
  destruct (proj1 (proj2 Hwf) _ wb Ewb) as [Hwid Hwbwf]. rewrite Z2Nat.id in Hwid by done.
  destruct (Hadm _ wb Ewb Hne) as (Hkeys & b2 & Hb2 & Hsep). rewrite Z2Nat.id, Hb in Hb2 by done. injection Hb2 as <-.
  set (wb' := checked_buffer (st_keyspaces st) wm wb).
  assert (Hk' : (wb_writes wb').*1 = (wb_writes wb).*1) by apply checked_keys.
  destruct (commit_store (wm + 1) (versions b) wb') as (vs' & Hf & Hok' & He).
  { lia. } { done. } { eapply Forall_impl; [exact Hpast|]. simpl. lia. }
  { apply (bt_wf_same_keys (checked wm (versions_at (st_keyspaces st) (wb_keyspace_id wb)))), Hwbwf. }
  { by rewrite Hk'. } { unfold commit_separated. rewrite Hk'. exact Hsep. }
  assert (Batches.batch_of (wm + 1) wb' = Some (omap (Batches.put_of (wm + 1)) (wb_writes wb'))) as ->.
  { unfold Batches.batch_of. destruct (wb_writes wb') eqn:Ew; [|done]. by apply checked_writes_empty in Ew. }
  assert (Hd : mb_data (written (omap (Batches.put_of (wm + 1)) (wb_writes wb')) b) = raw <$> vs').
  { unfold written. simpl. by rewrite Hraw. }
  pose proof (versions_raw _ vs' Hd Hok') as Hvs. split.
  - split; [done|by rewrite Hvs|by rewrite Hvs|]. rewrite Hvs, Forall_forall. intros x [Hx|Hx]%He.
    + apply (new_ok (wm + 1) wb') in Hx as [_ ->]; [lia|lia| |by rewrite Hk'].
      apply (bt_wf_same_keys (checked wm (versions_at (st_keyspaces st) (wb_keyspace_id wb)))), Hwbwf.
    + rewrite Forall_forall in Hpast. specialize (Hpast x Hx). lia.
  - intros k open. rewrite Hvs. rewrite (commit_read (wm + 1) (versions b) wb' ltac:(lia) Hstore); [|..|done|done].
    + destruct (Z.ltb_spec open (wm + 1)); [done|]. cbn [mbind option_bind].
      unfold wb', checked_buffer. cbn [wb_writes WB.set_writes].
      rewrite (bt_get_same_keys (checked wm (versions_at (st_keyspaces st) (wb_keyspace_id wb)))).
      unfold versions_at. rewrite Hwid, Hb. rewrite (read_stable wm open k (versions b)) by (done || lia).
      destruct (bt_get k (wb_writes wb)) as [[v|v r []|]|]; simpl; try done. by case_bool_decide.
    + eapply Forall_impl; [exact Hpast|]. simpl. lia.
    + apply (bt_wf_same_keys (checked wm (versions_at (st_keyspaces st) (wb_keyspace_id wb)))), Hwbwf.
    + by rewrite Hk'.
Qed.

(** The isolation manager's part of a commit with no concurrent predecessor. *)
Lemma isolation_commit st r client :
  let wm := Engine.snapshot_watermark st in
  storage_ok st → wm + 1 < 2 ^ 55 → cr_open_sequence_number r = wm → ob_wf (cr_operations r) →
  ∃ m1 m2, Iso.validate_commit (DErr:=E) (wm + 1) r client (st_isolation st) =
      Val (inl (ValidatedWrite (Batches.from_operations (wm + 1) (cr_operations r))), m1) ∧
    Iso.applied (wm + 1) m1 = Val m2 ∧ tl_ok (im_timeline m2) ∧ Iso.watermark m2 = wm + 1 ∧
    im_highest_validated_sequence_number m2 = wm + 1 ∧
    (∀ q, wm + 1 < q → status (im_timeline m2) q = StatusEmpty) ∧
    (∀ q, status_wf (status (im_timeline m2) q)).
Proof.
  intros wm Hok Hwm Hopen Hwf. set (t := im_timeline (st_isolation st)).
  pose proof (so_timeline st Hok) as Ht. fold t in Ht. pose proof (so_range st Hok) as Hr. fold wm in Hr.
  assert (Hw : tl_watermark t = wm) by done. pose proof (tk_watermark t Ht) as Hb.
  destruct (validate_commit_outcome client (st_isolation st) (wm + 1) r Ht) with (c := @None IsolationConflict) (r' := r)
    as (res & m1 & Hv & Hok1 & Hoth & [Hb1 Hw1] & -> & Hst1 & Hh1).
  - fold t. lia.
  - apply (so_future st Hok). fold wm. lia.
  - apply validate_in_memory; fold t; [lia|lia|lia|]. rewrite Hopen, Z.sub_diag. done.
  - reflexivity.
  - fold t in Hoth, Hb1, Hw1. set (t1 := im_timeline m1) in *.
    pose proof (window_of_status t1 (wm + 1) Hok1 ltac:(by rewrite Hst1)) as Hin.
    assert (Hu : tl_watermark t1 < wm + 1) by (apply undecided_above; [done|lia|by rewrite Hst1]).
    assert (He : status t1 (wm + 1 + 1) = StatusEmpty).
    { rewrite Hoth by lia. apply (so_future st Hok). fold wm. lia. }
    destruct (applied_spec (wm + 1) m1 r Hok1 Hst1 Hu) as (m2 & Ha & Hok2 & Hb2 & Hw2 & Hh2 & Hst2 & Hadv).
    fold t1 in Hb2, Hw2, Hst2, Hadv.
    destruct (Hadv ltac:(lia)) as [_ Hwm2]. specialize (Hwm2 He). pose proof (tk_watermark _ Hok2).
    exists m1, m2. split_and!; [done|done|done|done| | |].
    + rewrite Hh2, Hh1, (so_highest st Hok). fold wm. lia.
    + intros q Hq. rewrite Hst2, bool_decide_eq_false_2, Hoth by lia. apply (so_future st Hok). fold wm. lia.
    + intros q. destruct (decide (base (im_timeline m2) ≤ q)) as [Hge|Hlt].
      * rewrite Hst2 by done. case_bool_decide as Hq; [by intros x [= <-]|].
        rewrite Hoth by lia. apply (so_records st Hok).
      * rewrite (status_out _ (tk_windows _ Hok2)) by lia. intros x [=].
Qed.

Lemma snapshot_commit_ok st ct o :
  let wm := Engine.snapshot_watermark st in
  storage_ok st → wm + 1 < 2 ^ 55 → admissible o (st_keyspaces st) →
  ∃ st', Engine.snapshot_commit ct o wm st = Val (inl (wm + 1), st') ∧ storage_ok st' ∧
    Engine.snapshot_watermark st' = wm + 1 ∧
    (∃ r d1, d_sequenced_write r (st_durability st) = (Val (wm + 1), d1) ∧
       d_unsequenced_write (mk_StatusRecord (wm + 1) true) d1 = (Val (), st_durability st') ∧
       KSS.write (Batches.from_operations (wm + 1) (cr_operations r)) (st_keyspaces st) = (Val (), st_keyspaces st')) ∧
    (∀ id b, 0 ≤ id → backend_of id (st_keyspaces st) = Some b → is_Some (backend_of id (st_keyspaces st'))) ∧
    ∀ id k open, 0 ≤ id → value (st_keyspaces st') id k open =
      if open <? wm + 1 then value (st_keyspaces st) id k open
      else if bool_decide (backend_of id (st_keyspaces st) = None) then None
      else committed_value (buffered o id k) (value (st_keyspaces st) id k open).
Proof.
  intros wm Hok Hwm Hadm. pose proof (so_range st Hok) as Hr. fold wm in Hr.
  pose proof (put_status_ok st o Hok Hadm) as Hps. cbv zeta in Hps. fold wm in Hps.
  unfold Engine.snapshot_commit. rewrite Hps. cbn [ws_operations].
  set (o' := checked_ops (st_keyspaces st) wm o). set (r := mk_CommitRecord o' wm ct).
  destruct (d_sequenced_ok r (st_durability st)) as (d1 & Hseq & Hd1); [rewrite (so_next st Hok); fold wm; lia|].
  rewrite (so_next st Hok) in Hd1, Hseq. fold wm in Hd1, Hseq. rewrite Hseq. cbn [st_isolation Engine.with_durability].
  assert (Hwf : ob_wf o') by (apply checked_ops_wf, Hadm).
  destruct (isolation_commit st r (d_reader d1) Hok Hwm eq_refl Hwf) as
    (m1 & m2 & Hv & Ha & Hok2 & Hw2 & Hh2 & Hf2 & Hr2). fold wm in Hv, Ha, Hw2, Hh2, Hf2.
  rewrite Hv. cbn [mbind exec_bind st_keyspaces Engine.with_isolation Engine.with_durability cr_operations r].
  destruct (write_loop_spec 0 (Batches.from_operations (wm + 1) o') (st_keyspaces st)) as
    (kss & Hwr & Hkwf & Hix & Hbk).
  { apply Hok. }
  { unfold Batches.from_operations. rewrite length_fmap. destruct Hwf as [-> _]. done. }
  { intros id batch Hba. assert (Hid : 0 ≤ id) by (unfold batch_at in Hba; destruct (Z.leb_spec (Z.of_nat 0) id); [lia|done]).
    unfold o' in Hba. rewrite batch_at_checked in Hba by done. unfold option_bind in Hba. 
    destruct (ob_write_buffers o !! Z.to_nat id) as [wb|] eqn:Ewb; [|done]. cbn [mbind option_bind] in Hba.
    destruct (proj2 Hadm _ wb Ewb) as (_ & b & Hb & _).
    { intros Hnil. unfold Batches.batch_of in Hba. by rewrite (proj2 (checked_writes_empty _ _ _) Hnil) in Hba. }
    rewrite Z2Nat.id in Hb by done. exists b. split; [done|]. by apply (so_backend st Hok id b). }
  unfold KSS.write. rewrite Hwr. rewrite Ha. unfold Engine.persist_commit_status.
  destruct (d_unsequenced_ok (mk_StatusRecord (wm + 1) true) d1) as (d2 & Hun & Hd2). rewrite Hun.
  exists (mk_Storage kss d2 m2). split; [done|].
  assert (Hwm' : Engine.snapshot_watermark (mk_Storage kss d2 m2) = wm + 1) by exact Hw2.
  cbn [st_keyspaces st_durability st_isolation]. split_and!; [|exact Hwm'| | |].
  - split; cbn [st_keyspaces st_durability st_isolation]; rewrite ?Hwm'; [done| |done|by rewrite Hd2, Hd1|done|done|done|lia].
    intros id b' Hid Hb'. rewrite Hbk in Hb' by done.
    destruct (backend_of id (st_keyspaces st)) as [b|] eqn:Eb; last first.
    { destruct (batch_at _ _ _); done. }
    destruct (keyspace_commit st o id b Hok Hwm Hadm Hid Eb) as [Hbo _]. fold wm in Hbo. fold o' in Hbo.
    destruct (batch_at 0 _ id); by injection Hb' as <-.
  - exists r, d1. split_and!; [done|done|]. exact Hwr.
  - intros id b Hid Hb. rewrite Hbk, Hb by done. destruct (batch_at _ _ _); by eexists.
  - intros id k open Hid. unfold value. rewrite Hbk by done.
    destruct (backend_of id (st_keyspaces st)) as [b|] eqn:Eb; last first.
    { rewrite bool_decide_eq_true_2 by done. destruct (batch_at _ _ _), (_ <? _); done. }
    rewrite bool_decide_eq_false_2 by done.
    destruct (keyspace_commit st o id b Hok Hwm Hadm Hid Eb) as [_ Hrd]. fold wm in Hrd. fold o' in Hrd.
    destruct (batch_at 0 _ id); cbn [mbind option_bind fmap option_fmap option_map]; apply Hrd.
Qed.

(** Reading through the code's [get] gives the abstract value. *)
Lemma read_get_value st id k open b :
  storage_ok st → 0 ≤ id → is_bytes k → backend_of id (st_keyspaces st) = Some b →
  Snap.read_get (id, k) (mk_ReadSnapshot open (st_keyspaces st)) = Val (value (st_keyspaces st) id k open).
Proof.
  intros Hok Hid Hk Hb. destruct (so_backend st Hok id b Hid Hb) as [Hlive Hraw Hstore _].
  unfold Snap.read_get, Snap.mvcc_get. cbn [fst snd rs_storage rs_open_sequence_number].
  rewrite (keyspace_backend _ _ _ Hb). cbn [mbind exec_bind]. unfold MVCCStorage.get, value. rewrite Hb.
  rewrite (get_mapped_spec id b k open (λ v, v) (versions b)) by done. cbn. by rewrite option_fmap_id.
Qed.
End quiescent.

#[global] Instance noop_laws : DurabilityLaws NoopDurabilityClient Empty_set.
Proof.
  split; [|by eauto]. intros r [n] Hn. eexists. split; [done|]. cbn in *. unfold Noop.current in *. cbn in *.
  apply u64_id. unfold is_u64. lia.
Qed.

(** A created storage is quiescent and empty. *)
Lemma create_ok {D E} `{Durability D E} ds (d0 : D) st :
  Forall (λ d, 0 ≤ kd_id d) ds → d_current d0 = 1 → Engine.create ds d0 = Val st →
  storage_ok st ∧ Engine.snapshot_watermark st = 0 ∧ kss_keyspaces (st_keyspaces st) = KS.new <$> ds.
Proof.
  intros Hds Hcur. unfold Engine.create, KSS.open. rewrite Hcur.
  pose proof (open_loop_spec ds KSS.new kss_wf_new Hds) as Hl.
  destruct (KSS.open_loop ds KSS.new) as [k| |]; cbn [map_err mbind exec_bind]; [|done..]. intros [= <-].
  destruct Hl as (Hwf & Hk & _). cbn [KSS.new kss_keyspaces] in Hk. rewrite app_nil_l in Hk.
  split_and!; [|done|done].
  assert (He : ∀ q, status (im_timeline (Iso.new 1)) q = StatusEmpty) by (intros q; apply status_new; lia).
  split; cbn [st_keyspaces st_isolation st_durability].
  - done.
  - intros id b Hid (i & kk & Hi & _ & <-)%backend_of_spec; [|done|done].
    rewrite Hk, list_lookup_fmap in Hi. destruct (ds !! i); [|done]. injection Hi as <-.
    split; [done|done| |constructor]. split; [constructor|constructor|..].
    + intros x y Hx. by apply not_elem_of_nil in Hx.
    + intros x y c t Hx. by apply not_elem_of_nil in Hx.
  - apply (tl_ok_new 1). lia.
  - done.
  - done.
  - intros q _. apply He.
  - intros q x Hx. exfalso. change (status_record_of (status (im_timeline (Iso.new 1)) q) = Some x) in Hx. by rewrite He in Hx.
  - change (0 ≤ 0 < 2 ^ 55). lia.
Qed.

(** C4: a transaction on a quiescent storage, whatever durability client numbers
    its records consecutively: opening a write snapshot does not wait and reads
    at the watermark; committing any admissible buffered operations succeeds
    with the next sequence number and leaves a quiescent storage with the
    watermark there; a snapshot opened next opens at once and reads, for every
    key, the committed writes over the previous value (inserts and puts give
    the new value, deletes remove it); and every read at an older sequence
    number returns what it returned before. *)
Theorem commit_then_read {D E} `{DurabilityLaws D E} (st : Storage D) ct o :
  let wm := Engine.snapshot_watermark st in
  storage_ok st → wm + 1 < 2 ^ 55 → admissible o (st_keyspaces st) →
  ∃ snap st1 st2 rs, Engine.open_snapshot_write st = Val (snap, st1) ∧ ws_open_sequence_number snap = wm ∧
    Engine.snapshot_commit ct o (ws_open_sequence_number snap) st1 = Val (inl (wm + 1), st2) ∧
    storage_ok st2 ∧ Engine.snapshot_watermark st2 = wm + 1 ∧
    Engine.open_snapshot_read st2 = Val rs ∧
    ∀ id k b, 0 ≤ id → is_bytes k → backend_of id (st_keyspaces st) = Some b →
      (∃ old, Snap.read_get (id, k) (mk_ReadSnapshot wm (st_keyspaces st)) = Val old ∧
         Snap.read_get (id, k) rs = Val (committed_value (buffered o id k) old)) ∧
      ∀ open, open ≤ wm → Snap.read_get (id, k) (mk_ReadSnapshot open (st_keyspaces st2)) =
                           Snap.read_get (id, k) (mk_ReadSnapshot open (st_keyspaces st)).
Proof.
  intros wm Hok Hwm Hadm. destruct (open_ok st Hok) as (st1 & Hop & Hok1 & Hk1 & Hd1 & Hw1). fold wm in Hw1, Hop.
  destruct (snapshot_commit_ok st1 ct o Hok1) as (st2 & Hc & Hok2 & Hw2 & _ & Hbk & Hval); [by rewrite Hw1|by rewrite Hk1|].
  rewrite Hw1 in Hc, Hw2, Hval. rewrite Hk1 in Hval, Hbk.
  eexists _, st1, st2, _. split; [exact Hop|]. split; [done|]. split; [exact Hc|]. split; [done|]. split; [done|].
  split.
  { unfold Engine.open_snapshot_read, open_snapshot, wait_for_watermark. rewrite (so_highest st2 Hok2).
    unfold Engine.snapshot_watermark. rewrite Z.ltb_irrefl. done. }
  change (Iso.watermark (st_isolation st2)) with (Engine.snapshot_watermark st2). rewrite Hw2.
  intros id k b Hid Hk Hb. destruct (Hbk id b Hid Hb) as [b' Hb']. split.
  - exists (value (st_keyspaces st) id k wm). rewrite (read_get_value st id k wm b) by done. split; [done|].
    rewrite (read_get_value st2 id k (wm + 1) b') by done. f_equal. rewrite Hval, Z.ltb_irrefl by done.
    rewrite bool_decide_eq_false_2 by (by rewrite Hb). f_equal. unfold value. rewrite Hb. cbn [mbind option_bind].
    destruct (so_backend st Hok id b Hid Hb) as [_ _ _ Hp]. apply read_stable; [done|lia].
  - intros open Ho. rewrite (read_get_value st2 id k open b'), (read_get_value st id k open b) by done.
    by rewrite Hval, (proj2 (Z.ltb_lt _ _)) by (done || lia).
Qed.
Lemma commit_then_read_witness :
  match Engine.create [mk_KeyspaceDef 0 [97] None] Noop.new with
  | Val st =>
      match OB.writes_in_mut 0 (λ b, Val (WB.put [7] [9] b)) OB.new with
      | Val o => ∃ st1 st2 rs,
          Engine.open_snapshot_write st = Val (mk_WriteSnapshot OB.new 0 (st_keyspaces st), st1) ∧
          Engine.snapshot_commit CommitData o 0 st1 = Val (inl 1, st2) ∧ storage_ok st2 ∧
          Engine.open_snapshot_read st2 = Val rs ∧ Snap.read_get (0, [7]) rs = Val (Some [9])
      | _ => False
      end
  | _ => False
  end.
Proof.
  destruct (Engine.create [mk_KeyspaceDef 0 [97] None] Noop.new) as [st| |] eqn:Ec; [|discriminate Ec..].
  destruct (create_ok [mk_KeyspaceDef 0 [97] None] Noop.new st ltac:(repeat constructor; simpl; lia) eq_refl Ec) as (Hok & Hw & Hk).
  destruct (OB.writes_in_mut 0 (λ b, Val (WB.put [7] [9] b)) OB.new) as [o| |] eqn:Eo; [|discriminate Eo..].
  assert (Hb : backend_of 0 (st_keyspaces st) = Some (Memory.new [97])) by (by injection Ec as <-).
  assert (Hadm : admissible o (st_keyspaces st)).
  { split.
    - apply (ob_wf_writes_in_mut 0 (λ b, Val (WB.put [7] [9] b)) OB.new); [|exact ob_wf_new|exact Eo].
      intros b b' Hwf [= <-]. split; [by apply bt_wf_insert|done].
    - injection Eo as <-. intros [|i] wb Hi Hne.
      + injection Hi as <-. split; [repeat constructor; unfold is_byte; lia|].
        exists (Memory.new [97]). split; [exact Hb|]. intros x y c t Hx Hy. simpl in Hx, Hy. set_unfold. naive_solver.
      + exfalso. do 9 (destruct i as [|i]; [injection Hi as <-; by destruct Hne|]). discriminate Hi. }
  destruct (commit_then_read st CommitData o Hok) as (snap & st1 & st2 & rs & Hop & Hs & Hc & Hok2 & Hw2 & Hr & Hread);
    [rewrite Hw; lia|exact Hadm|].
  destruct (open_ok st Hok) as (st1' & Hop' & _). rewrite Hop in Hop'. injection Hop' as -> <-.
  cbn [ws_open_sequence_number] in Hc. rewrite Hw in Hc, Hop.
  exists st1, st2, rs. split; [exact Hop|]. split; [exact Hc|]. split; [exact Hok2|]. split; [exact Hr|].
  destruct (Hread 0 [7] _ ltac:(lia) ltac:(repeat constructor; unfold is_byte; lia) Hb) as [(old & _ & ->) _].
  injection Eo as <-. reflexivity.
Defined.

(** C31: exporting a quiescent storage and importing the bytes into another one
    with the same keyspaces (a fresh one, or one with other contents, its locks
    not poisoned) restores it, with the durability client that keeps no log (the import restarts the
    log at the next number, which the client of the write-ahead log refuses)
    and within the limits of the format: keyspace names are UTF-8 below 256
    bytes, keys and values below 2^32 bytes, and the exported data of each
    keyspace below 2^32 bytes (the code cuts that length to 32 bits, lemma
    [oversized_keyspace_is_lost]). The import returns the exported watermark,
    every read of every keyspace at every sequence number returns what it
    returned in the exported storage, and the result is quiescent at the
    watermark, so the commits and snapshots that follow behave as on the
    original. *)
Theorem import_restores_storage (st st0 : Storage NoopDurabilityClient) out :
  storage_ok st → Forall exportable (kss_keyspaces (st_keyspaces st)) → kss_wf (st_keyspaces st0) →
  kss_index (st_keyspaces st0) = kss_index (st_keyspaces st) →
  length (kss_keyspaces (st_keyspaces st0)) = length (kss_keyspaces (st_keyspaces st)) →
  Forall (λ k0, mb_poisoned (k_backend k0) = false) (kss_keyspaces (st_keyspaces st0)) →
  Engine.export_snapshot (E:=Empty_set) st = Val out →
  ∃ st1, Engine.import_snapshot out st0 = (Val (Engine.snapshot_watermark st), st1) ∧ storage_ok st1 ∧
    Engine.snapshot_watermark st1 = Engine.snapshot_watermark st ∧
    ∀ id k open, 0 ≤ id → value (st_keyspaces st1) id k open = value (st_keyspaces st) id k open.
Proof.
  intros Hok Hex Hwf0 Hix Hlen Hp Hout. unfold Engine.export_snapshot in Hout. pose proof (so_range st Hok) as Hr.
  set (wm := Engine.snapshot_watermark st) in *.
  destruct (KSS.export_snapshot_with_watermark wm (st_keyspaces st)) as [bs| |] eqn:Eb;
    cbn [map_err] in Hout; [|done..]. injection Hout as ->.
  destruct (snapshot_roundtrip (st_keyspaces st) (st_keyspaces st0) wm out) as (k1 & Hi & Hix1 & Hl1 & Hk1);
    [apply Hok|unfold is_u64; lia|done..|].
  destruct (loaded_backends (st_keyspaces st) (st_keyspaces st0) k1) as [Hwf1 Hb]; [apply Hok|done..|].
  destruct (reset_to_watermark_usable wm (st_isolation st0)) as (Htl & _ & _); [lia|].
  unfold Engine.import_snapshot. rewrite Hi. cbn [d_reset_to_sequence noop_durability Noop.reset_to_sequence map_err mbind exec_bind].
  eexists. split; [done|]. split; [|split; [done|]].
  - assert (Hfut : ∀ q, status (im_timeline (Iso.reset_to_watermark wm (st_isolation st0))) q = StatusEmpty).
    { intros q. unfold Iso.reset_to_watermark, TL.new_with_watermark. cbn [im_timeline].
      rewrite seq_next_ok by lia. apply status_new. lia. }
    split; cbn [st_keyspaces st_durability st_isolation Engine.with_durability Engine.with_isolation Engine.with_keyspaces].
    + done.
    + intros id b1 Hid Hb1. specialize (Hb id Hid). rewrite Hb1 in Hb.
      destruct (backend_of id (st_keyspaces st)) as [b|] eqn:Ebk; [|done]. destruct Hb as [Hd Hlive].
      destruct (so_backend st Hok id b Hid Ebk) as [_ Hraw Hst Hpast].
      split; unfold versions in *; rewrite ?Hd; done.
    + done.
    + cbn. unfold Noop.current. cbn. apply seq_next_ok. lia.
    + done.
    + intros q _. apply Hfut.
    + intros q x Hx. by rewrite Hfut in Hx.
    + exact Hr.
  - intros id k open Hid. unfold value. cbn [st_keyspaces Engine.with_durability Engine.with_isolation Engine.with_keyspaces].
    specialize (Hb id Hid). destruct (backend_of id k1) as [b1|], (backend_of id (st_keyspaces st)) as [b|]; try done.
    cbn [mbind option_bind]. unfold versions. by rewrite (proj1 Hb).
Qed.
(** A storage with one committed put, and an empty one with the same keyspaces. *)
Lemma storage_with_a_put :
  ∃ st st2 : Storage NoopDurabilityClient, storage_ok st ∧ storage_ok st2 ∧
    Engine.snapshot_watermark st2 = 1 ∧
    kss_keyspaces (st_keyspaces st) = [KS.new (mk_KeyspaceDef 0 [97] None)] ∧
    kss_index (st_keyspaces st) = kss_index (st_keyspaces st2) ∧
    kss_keyspaces (st_keyspaces st2) =
      [mk_Keyspace (mk_MemoryBackend [(MVCCKey.build [7] 1 OpInsert, [9])] false [97]) [97] 0 None].
Proof.
  destruct (Engine.create [mk_KeyspaceDef 0 [97] None] Noop.new) as [st| |] eqn:Ec; [|discriminate Ec..].
  destruct (create_ok [mk_KeyspaceDef 0 [97] None] Noop.new st ltac:(repeat constructor; simpl; lia) eq_refl Ec) as (Hok & Hw & Hk).
  destruct (OB.writes_in_mut 0 (λ b, Val (WB.insert [7] [9] b)) OB.new) as [o| |] eqn:Eo; [|discriminate Eo..].
  assert (Hb : backend_of 0 (st_keyspaces st) = Some (Memory.new [97])) by (by injection Ec as <-).
  assert (Hadm : admissible o (st_keyspaces st)).
  { split.
    - apply (ob_wf_writes_in_mut 0 (λ b, Val (WB.insert [7] [9] b)) OB.new); [|exact ob_wf_new|exact Eo].
      intros b b' Hwf [= <-]. split; [by apply bt_wf_insert|done].
    - injection Eo as <-. intros [|i] wb Hi Hne.
      + injection Hi as <-. split; [repeat constructor; unfold is_byte; lia|].
        exists (Memory.new [97]). split; [exact Hb|]. intros x y c t Hx Hy. simpl in Hx, Hy. set_unfold. naive_solver.
      + exfalso. do 9 (destruct i as [|i]; [injection Hi as <-; by destruct Hne|]). discriminate Hi. }
  destruct (snapshot_commit_ok st CommitData o Hok) as (st2 & Hc & Hok2 & Hw2 & _); [rewrite Hw; lia|exact Hadm|].
  exists st, st2. rewrite Hw in Hc, Hw2. split_and!; [done|done|done|by rewrite Hk|..];
    injection Ec as <-; injection Eo as <-; vm_compute in Hc; injection Hc as <-; reflexivity.
Qed.
Lemma import_restores_storage_witness :
  ∃ (st st0 : Storage NoopDurabilityClient) out st1, Engine.export_snapshot (E:=Empty_set) st = Val out ∧
    Engine.import_snapshot out st0 = (Val 1, st1) ∧ storage_ok st1 ∧
    value (st_keyspaces st0) 0 [7] 1 = None ∧ value (st_keyspaces st1) 0 [7] 1 = Some [9].
Proof.
  destruct storage_with_a_put as (st0 & st & Hok0 & Hok & Hwm & Hk0 & Hix & Hk).
  assert (Hb : backend_of 0 (st_keyspaces st0) = Some (Memory.new [97])).
  { apply backend_of_spec; [apply Hok0|lia|]. exists 0%nat, (KS.new (mk_KeyspaceDef 0 [97] None)). by rewrite Hk0. }
  assert (Hb' : backend_of 0 (st_keyspaces st) = Some (mk_MemoryBackend [(MVCCKey.build [7] 1 OpInsert, [9])] false [97])).
  { apply backend_of_spec; [apply Hok|lia|]. eexists 0%nat, _. by rewrite Hk. }
  destruct (Engine.export_snapshot (E:=Empty_set) st) as [out| |] eqn:Eo.
  2,3: unfold Engine.export_snapshot, KSS.export_snapshot_with_watermark in Eo; rewrite Hk in Eo; discriminate Eo.
  destruct (import_restores_storage st st0 out Hok) as (st1 & Hi & Hok1 & _ & Hv).
  - rewrite Hk. constructor; [|constructor]. split; cbn; [lia|reflexivity| |repeat constructor; vm_compute; reflexivity|vm_compute; reflexivity].
    repeat constructor.
  - apply Hok0.
  - exact Hix.
  - by rewrite Hk0, Hk.
  - rewrite Hk0. repeat constructor.
  - exact Eo.
  - exists st, st0, out, st1. split; [exact Eo|]. rewrite Hi, Hwm. split; [reflexivity|]. split; [exact Hok1|]. split.
    + unfold value. rewrite Hb. reflexivity.
    + rewrite Hv by lia. unfold value. rewrite Hb'. vm_compute. reflexivity.
Defined.
