(* ===== verification/Views.v ===== *)
(** * A write snapshot as a map

    A write snapshot shows the committed state at its sequence number with the
    transaction's own writes over it.  Seen from the layers above, it is a map
    from keys to values: [view].  Reading, writing, undoing and scanning a
    prefix are operations of that map. *)
From S2P Require Import Prelude BTree Bytes MemoryStore Buffer LendingIter Mvcc Keyspaces Snapshot Dependency Timeline Isolation Storage.
Import KeyRangeOps.

Abbreviation skey := (Z * bytes)%type.
(** What the transaction has written for a key, what is committed, and both. *)
Definition written (key : skey) (s : WriteSnapshot) : option Write := buffered (ws_operations s) key.1 key.2.
Definition stored (key : skey) (s : WriteSnapshot) : option bytes :=
  value (ws_storage s) key.1 key.2 (ws_open_sequence_number s).
Definition view (key : skey) (s : WriteSnapshot) : option bytes :=
  match written key s with Some w => write_value w | None => stored key s end.

(** A keyspace whose entries are versions. *)
Definition backend_ok (b : MemoryBackend) : Prop :=
  mb_poisoned b = false ∧ mb_data b = raw <$> versions b ∧ store_ok (versions b).
Record snapshot_ok (s : WriteSnapshot) : Prop := {
  sn_buffers : ob_wf (ws_operations s);
  sn_bytes : ∀ i wb, ob_write_buffers (ws_operations s) !! i = Some wb → Forall (λ kw, is_bytes kw.1) (wb_writes wb);
  sn_backend : ∀ id b, 0 ≤ id → backend_of id (ws_storage s) = Some b → backend_ok b;
}.
(** A key of a keyspace that is open. *)
Definition good_id (id : Z) (s : WriteSnapshot) : Prop := 0 ≤ id < 10 ∧ is_Some (backend_of id (ws_storage s)).
Definition good_key (key : skey) (s : WriteSnapshot) : Prop := good_id key.1 s ∧ is_bytes key.2.

(** ** Reading *)
Lemma buffer_exists s id :
  snapshot_ok s → 0 ≤ id < 10 → ∃ wb, ob_write_buffers (ws_operations s) !! Z.to_nat id = Some wb ∧
    wb_keyspace_id wb = id ∧ wb_wf wb.
Proof.
  intros Hok Hid. destruct (sn_buffers s Hok) as (Hlen & Hb & _).
  destruct (lookup_lt_is_Some_2 (ob_write_buffers (ws_operations s)) (Z.to_nat id)) as [wb Hwb].
  { rewrite Hlen. unfold KEYSPACE_MAXIMUM_COUNT. lia. }
  exists wb. destruct (Hb _ _ Hwb) as [Hk Hwf]. split; [done|]. split; [lia|done].
Qed.
Lemma get_write_written {E} key s :
  snapshot_ok s → 0 ≤ key.1 < 10 → Snap.get_write (E:=E) key s = Val (written key s).
Proof.
  intros Hok Hid. destruct (buffer_exists s key.1 Hok Hid) as (wb & Hwb & _).
  unfold Snap.get_write, written, buffered. by rewrite Hwb.
Qed.
Lemma mvcc_get_stored key s :
  snapshot_ok s → good_key key s → Snap.mvcc_get (ws_storage s) key (ws_open_sequence_number s) = Val (stored key s).
Proof.
  intros Hok [[[Hid _] [b Hb]] Hk]. destruct (sn_backend s Hok _ b Hid Hb) as (Hp & Hraw & Hst).
  unfold Snap.mvcc_get, stored, value. rewrite Hb, (keyspace_backend _ _ _ Hb). cbn [mbind exec_bind option_bind].
  unfold MVCCStorage.get. rewrite (get_mapped_spec _ b _ _ (λ v, v) (versions b)) by done. cbn [map_err]. by rewrite option_fmap_id.
Qed.
Lemma get_view key s : snapshot_ok s → good_key key s → Snap.get key s = Val (view key s).
Proof.
  intros Hok Hk. unfold Snap.get, view. rewrite get_write_written by (done || apply Hk). cbn [mbind exec_bind].
  destruct (written key s) as [[v|v r x|]|]; [done..|]. by apply mvcc_get_stored.
Qed.
Lemma get_last_existing_stored key s :
  snapshot_ok s → good_key key s → written key s = None → Snap.get_last_existing key s = Val (stored key s).
Proof.
  intros Hok Hk Hw. unfold Snap.get_last_existing. rewrite get_write_written, Hw by (done || apply Hk).
  by apply mvcc_get_stored.
Qed.

(** ** Writing *)
(** [s'] is [s] with different writes at most for the keys of [K]. *)
Record confined (K : skey → Prop) (s s' : WriteSnapshot) : Prop := {
  cf_ok : snapshot_ok s';
  cf_storage : ws_storage s' = ws_storage s;
  cf_open : ws_open_sequence_number s' = ws_open_sequence_number s;
  cf_written : ∀ key, 0 ≤ key.1 → ¬ K key → written key s' = written key s;
}.
Lemma confined_refl K s : snapshot_ok s → confined K s s.
Proof. by split. Qed.
Lemma confined_trans K s1 s2 s3 : confined K s1 s2 → confined K s2 s3 → confined K s1 s3.
Proof. intros [_ ? ? H1] [? ? ? H2]. split; [done|congruence|congruence|]. intros. by rewrite H2, H1. Qed.
Lemma confined_weaken (K K' : skey → Prop) s s' : (∀ key, K key → K' key) → confined K s s' → confined K' s s'.
Proof. intros HK [? ? ? H]. split; [done..|]. intros key Hid Hn. apply H; [done|]. intros Hin. by apply Hn, HK. Qed.
Lemma confined_stored K s s' key : confined K s s' → stored key s' = stored key s.
Proof. intros [_ Hst Ho _]. unfold stored. by rewrite Hst, Ho. Qed.
Lemma confined_view K s s' key : confined K s s' → 0 ≤ key.1 → ¬ K key → view key s' = view key s.
Proof.
  intros Hc Hid Hn. unfold view. rewrite (cf_written _ _ _ Hc) by done. by rewrite (confined_stored _ _ _ _ Hc).
Qed.
Lemma confined_good K s s' key : confined K s s' → good_key key s' ↔ good_key key s.
Proof. intros [_ Hst _ _]. unfold good_key, good_id. by rewrite Hst. Qed.

(** One write of a key, given by what it does to the keyspace's buffer. *)
Lemma modify_confined key f (g : list (bytes * Write) → list (bytes * Write)) o s :
  snapshot_ok s → 0 ≤ key.1 < 10 →
  (∀ wb, ob_write_buffers (ws_operations s) !! Z.to_nat key.1 = Some wb → f wb = Val (WB.set_writes (g (wb_writes wb)) wb)) →
  (∀ m, bt_wf m → bt_wf (g m)) → (∀ m, Forall (λ kw, is_bytes kw.1) m → Forall (λ kw, is_bytes kw.1) (g m)) →
  (∀ m k, bt_wf m → k ≠ key.2 → bt_get k (g m) = bt_get k m) → (∀ m, bt_wf m → bt_get key.2 (g m) = o) →
  ∃ s', Snap.modify key.1 f s = Val s' ∧ confined (λ k, k = key) s s' ∧ written key s' = o.
Proof.
  intros Hok Hid Hf Hwf Hbs Hother Ho. destruct (buffer_exists s key.1 Hok Hid) as (wb & Hwb & Hwid & Hwwf).
  destruct (sn_buffers s Hok) as (Hlen & Hbufs & Hlocks).
  assert (Hlt : (Z.to_nat key.1 < length (ob_write_buffers (ws_operations s)))%nat) by (by eapply lookup_lt_Some).
  unfold Snap.modify, OB.writes_in_mut, OB.writes_in. rewrite Hwb. cbn [unwrap mbind exec_bind].
  rewrite (Hf wb Hwb). cbn [mbind exec_bind]. eexists. split; [reflexivity|]. split; [split|].
  - split; [| |apply (sn_backend s Hok)].
    + split; [cbn; by rewrite length_insert|]. split; [|done]. cbn. intros i b Hb.
      apply list_lookup_insert_Some in Hb as [(<- & <- & _)|[_ Hb]]; [|by apply Hbufs].
      cbn. split; [lia|by apply Hwf].
    + cbn. intros i b Hb. apply list_lookup_insert_Some in Hb as [(<- & <- & _)|[_ Hb]]; [|by apply (sn_bytes s Hok i)].
      cbn. by apply Hbs, (sn_bytes s Hok (Z.to_nat key.1)).
  - done.
  - done.
  - intros [id k] Hid' Hne. unfold written, buffered. cbn. destruct (decide (id = key.1)) as [->|Hids].
    + rewrite list_lookup_insert_eq by done. rewrite Hwb. cbn. apply Hother; [done|]. intros ->. apply Hne. by destruct key.
    + rewrite list_lookup_insert_ne; [done|]. cbn in Hid'. lia.
  - unfold written, buffered. cbn. rewrite list_lookup_insert_eq by done. cbn. by apply Ho.
Qed.
Lemma write_confined key w s :
  snapshot_ok s → 0 ≤ key.1 < 10 → is_bytes key.2 →
  ∃ s', Snap.modify key.1 (λ b, Val (WB.set_writes (bt_insert key.2 w (wb_writes b)) b)) s = Val s' ∧
    confined (λ k, k = key) s s' ∧ written key s' = Some w.
Proof.
  intros Hok Hid Hk. apply modify_confined with (g := bt_insert key.2 w); [done..| | | |].
  - intros m. apply bt_wf_insert.
  - intros m Hm. by apply bt_insert_Forall.
  - intros m k Hwf Hne. by rewrite bt_get_insert_ne.
  - intros m Hwf. apply bt_get_insert_eq.
Qed.
Lemma remove_confined key f s :
  snapshot_ok s → 0 ≤ key.1 < 10 →
  (∀ wb, ob_write_buffers (ws_operations s) !! Z.to_nat key.1 = Some wb →
     f wb = Val (WB.set_writes (bt_remove key.2 (wb_writes wb)) wb)) →
  ∃ s', Snap.modify key.1 f s = Val s' ∧ confined (λ k, k = key) s s' ∧ written key s' = None.
Proof.
  intros Hok Hid Hf. apply modify_confined with (g := bt_remove key.2); [done..| | | |].
  - intros m. apply bt_wf_remove.
  - intros m Hm. apply Forall_forall. intros kw [Hin _]%elem_of_list_filter_bool. by eapply Forall_forall in Hm.
  - intros m k Hwf Hne. by rewrite bt_get_remove_ne.
  - intros m Hwf. by apply bt_get_remove_eq.
Qed.

Section operations.
Context (key : skey) (s : WriteSnapshot) (Hok : snapshot_ok s) (Hid : 0 ≤ key.1 < 10).
Lemma insert_spec v :
  is_bytes key.2 → ∃ s', Snap.insert_val key v s = Val s' ∧ confined (λ k, k = key) s s' ∧ written key s' = Some (Insert v).
Proof. by apply write_confined. Qed.
Lemma put_spec v :
  is_bytes key.2 → ∃ s', Snap.put_val key v s = Val s' ∧ confined (λ k, k = key) s s' ∧ written key s' = Some (Put v false false).
Proof. by apply write_confined. Qed.
Lemma delete_spec :
  is_bytes key.2 → ∃ s', Snap.delete key s = Val s' ∧ confined (λ k, k = key) s s' ∧ written key s' = Some Delete.
Proof. by apply write_confined. Qed.
Lemma unput_spec v r x :
  written key s = Some (Put v r x) →
  ∃ s', Snap.unput_val key v s = Val s' ∧ confined (λ k, k = key) s s' ∧ written key s' = None.
Proof.
  intros Hw. apply remove_confined; [done..|]. intros wb Hwb. unfold written, buffered in Hw. rewrite Hwb in Hw.
  unfold WB.unput. cbn in Hw. rewrite Hw. by rewrite bool_decide_true.
Qed.
Lemma uninsert_spec v :
  written key s = Some (Insert v) →
  ∃ s', Snap.uninsert_val key v s = Val s' ∧ confined (λ k, k = key) s s' ∧ written key s' = None.
Proof.
  intros Hw. apply remove_confined; [done..|]. intros wb Hwb. unfold written, buffered in Hw. rewrite Hwb in Hw.
  unfold WB.uninsert. cbn in Hw. rewrite Hw. by rewrite bool_decide_true.
Qed.
End operations.

(** ** Scanning a prefix *)
(** What a scan of a prefix asks of the keys of a keyspace: all are as long as
    the prefix, and no stored key is a prefix of another one. *)
Definition keys_cover (n : nat) (id : Z) (s : WriteSnapshot) : Prop :=
  (∀ wb kw, ob_write_buffers (ws_operations s) !! Z.to_nat id = Some wb → kw ∈ wb_writes wb → (n ≤ length kw.1)%nat) ∧
  (∀ b, backend_of id (ws_storage s) = Some b →
     prefix_free (versions b) ∧ ∀ v, v ∈ versions b → (n ≤ length (v_key v))%nat).
(** The fuel of a scan: more than the entries of the keyspace and of its buffer. *)
Definition entries (id : Z) (s : WriteSnapshot) : nat :=
  match ob_write_buffers (ws_operations s) !! Z.to_nat id with Some wb => length (wb_writes wb) | None => 0 end +
  match backend_of id (ws_storage s) with Some b => length (mb_data b) | None => 0 end.
Definition fits (fuel : nat) (id : Z) (s : WriteSnapshot) : Prop := (entries id s < fuel)%nat.
(** The keys that have an entry in the buffer or in the keyspace. *)
Definition known (key : skey) (s : WriteSnapshot) : Prop :=
  is_Some (written key s) ∨ ∃ b v, backend_of key.1 (ws_storage s) = Some b ∧ v ∈ versions b ∧ v_key v = key.2.
Lemma view_known key v s : view key s = Some v → known key s.
Proof.
  unfold view. destruct (written key s) eqn:Hw; [intros _; left; by eexists|]. unfold stored, value. intros Hv.
  destruct (backend_of key.1 (ws_storage s)) as [b|] eqn:Hb; [|done]. cbn [mbind option_bind] in Hv. right. exists b.
  unfold read in Hv. destruct (latest _ _ _) as [x|] eqn:Hl; [|done].
  apply latest_Some in Hl as (Hx & Hk & _). by exists x.
Qed.
Lemma known_confined K s s' key : confined K s s' → 0 ≤ key.1 → ¬ K key → known key s' → known key s.
Proof.
  intros Hc Hid Hn [Hw|Hst].
  - left. by rewrite <-(cf_written _ _ _ Hc key Hid Hn).
  - right. by rewrite <-(cf_storage _ _ _ Hc).
Qed.
Lemma keys_cover_known n id s :
  snapshot_ok s → 0 ≤ id → (∀ k, known (id, k) s → (n ≤ length k)%nat) →
  (∀ k k', known (id, k) s → known (id, k') s → k `prefix_of` k' → k = k') → keys_cover n id s.
Proof.
  intros Hok Hid Hlen Hpf. split.
  - intros wb [k w] Hwb Hin. apply Hlen. left. unfold written, buffered. cbn [fst snd]. rewrite Hwb. exists w.
    cbn [mbind option_bind]. apply bt_get_elem; [|done]. destruct (sn_buffers s Hok) as (_ & Hb & _). by apply (Hb _ _ Hwb).
  - intros b Hb. assert (Hkn : ∀ v, v ∈ versions b → known (id, v_key v) s) by (intros v Hv; right; by exists b, v).
    split; [intros x y Hx Hy; by apply Hpf; apply Hkn|]. intros v Hv. by apply Hlen, Hkn.
Qed.
Lemma bt_wf_NoDup {V} (m : list (bytes * V)) : bt_wf m → NoDup m.*1.
Proof.
  induction 1 as [|[k v] m Hm IH Hlt]; [constructor|]. rewrite fmap_cons. constructor; [|done].
  intros ([k' v'] & Hk & Hin)%list_elem_of_fmap. cbn in Hk. subst k'. eapply Forall_forall in Hlt; [|done].
  by apply cmp_irrefl in Hlt.
Qed.
(** There are no more keys with an entry than entries. *)
Lemma known_length id (ks : list bytes) s :
  snapshot_ok s → 0 ≤ id < 10 → NoDup ks → (∀ k, k ∈ ks → known (id, k) s) → (length ks ≤ entries id s)%nat.
Proof.
  intros Hok Hid Hnd Hin. destruct (buffer_exists s id Hok Hid) as (wb & Hwb & _ & _).
  unfold entries. rewrite Hwb.
  set (vs := match backend_of id (ws_storage s) with Some b => versions b | None => [] end).
  replace (match backend_of id (ws_storage s) with Some b => length (mb_data b) | None => 0%nat end) with (length vs);
    [|unfold vs; destruct (backend_of _ _); [by unfold versions; rewrite length_fmap|done]].
  replace (length (wb_writes wb) + length vs)%nat with (length ((wb_writes wb).*1 ++ (v_key <$> vs)))
    by (by rewrite length_app, !length_fmap).
  apply submseteq_length, NoDup_submseteq; [done|].
  intros k Hk. apply elem_of_app. apply Hin in Hk as [[w Hw]|(b & x & Hb & Hx & Hk)].
  - left. unfold written, buffered in Hw. cbn [fst snd] in *. rewrite Hwb in Hw. cbn [mbind option_bind] in Hw.
    apply bt_get_elem in Hw; [|destruct (sn_buffers s Hok) as (_ & Hb & _); by apply (Hb _ _ Hwb)].
    by apply (list_elem_of_fmap_2 fst) in Hw.
  - right. cbn [fst snd] in *. unfold vs. rewrite Hb. rewrite <-Hk. by apply list_elem_of_fmap_2.
Qed.
Lemma scan_length id (out : list (bytes * bytes)) s :
  snapshot_ok s → 0 ≤ id < 10 → bt_wf out → (∀ k v, (k, v) ∈ out → known (id, k) s) → (length out ≤ entries id s)%nat.
Proof.
  intros Hok Hid Hwf Hin. replace (length out) with (length out.*1) by apply length_fmap.
  apply known_length; [done..|by apply bt_wf_NoDup|]. intros k ([k' v] & -> & Hkv)%list_elem_of_fmap. by eapply Hin.
Qed.
(** A prefix that has an exclusive end: it does not start with a byte 255. *)
Definition prefix_ok (p : bytes) : Prop := is_bytes p ∧ match p with b :: _ => b < 255 | [] => False end.
Lemma prefix_has_end p : prefix_ok p → ∃ q, increment_unwrap (E:=Empty_set) p = Val q.
Proof.
  intros [Hp Hb]. destruct p as [|b p]; [done|]. eexists. apply increment_unwrap_spec; [done|]. split; [|reflexivity].
  apply Forall_cons in Hp as [Hb0 Hp]. pose proof (be_value_bound p Hp). change (b :: p) with ([b] ++ p).
  rewrite be_value_app, length_app, Nat2Z.inj_add, Z.pow_add_r by lia.
  replace (be_value [b]) with b by (unfold be_value; cbn; lia). change (256 ^ Z.of_nat (length [b])) with 256. unfold is_byte in Hb0. nia.
Qed.
Lemma in_range_within p fw k : in_range (new_within p fw) p k = true ↔ p `prefix_of` k.
Proof.
  unfold in_range. cbn. rewrite andb_true_iff, starts_with_prefix_of. split; [by intros []|].
  intros Hp. split; [|done]. apply leb_le. destruct Hp as [t ->]. apply list_cmp_prefix.
Qed.

(** What a scan of the prefix [p] asks of a key [k]: the bounds of the scan select
    [k] only for its prefix, and the bytes that follow a stored key are not taken
    for a part of it. *)
Definition selected (p k : bytes) : Prop :=
  (∀ q, increment_unwrap (E:=Empty_set) p = Val q → (p ⪯ k ∧ k ≺ q) ↔ p `prefix_of` k) ∧
  ∀ t, p `prefix_of` k ++ t → p `prefix_of` k.
Lemma selected_long p k : is_bytes p → is_bytes k → (length p ≤ length k)%nat → selected p k.
Proof.
  intros Hp Hk Hl. split; [intros q Hq; by apply (prefix_range p q k Hp Hk Hq)|]. intros t [u Hu].
  exists (drop (length p) k). assert (Htk := f_equal (take (length p)) Hu). rewrite take_app_le, take_app_length in Htk by done.
  rewrite <-Htk at 1. by rewrite take_drop.
Qed.
(** The increment of a prefix keeps its first byte if the second is not 255. *)
Lemma increment_keeps_head b c p q :
  is_bytes (b :: c :: p) → c < 255 → increment_unwrap (E:=Empty_set) (b :: c :: p) = Val q → ∃ q', q = b :: q'.
Proof.
  intros Hp Hc Hq. apply increment_unwrap_spec in Hq as [_ ->]; [|done].
  apply Forall_cons in Hp as [Hb Hp]. pose proof Hp as [Hc0 Hp']%Forall_cons. pose proof (be_value_bound p Hp').
  assert (be_value (c :: p) + 1 < 256 ^ Z.of_nat (length (c :: p))).
  { change (c :: p) with ([c] ++ p). rewrite be_value_app, length_app, Nat2Z.inj_add, Z.pow_add_r by lia.
    replace (be_value [c]) with c by (unfold be_value; cbn; lia). change (256 ^ Z.of_nat (length [c])) with 256. unfold is_byte in Hc0. nia. }
  exists (be_bytes (length (c :: p)) (be_value (c :: p) + 1)).
  replace (be_value (b :: c :: p) + 1) with (be_value (b :: be_bytes (length (c :: p)) (be_value (c :: p) + 1))).
  - rewrite <-(be_bytes_be_value (b :: be_bytes (length (c :: p)) (be_value (c :: p) + 1))) at 2.
    + cbn [length]. by rewrite length_be_bytes.
    + constructor; [done|apply be_bytes_is_bytes].
  - change (b :: be_bytes (length (c :: p)) (be_value (c :: p) + 1)) with ([b] ++ be_bytes (length (c :: p)) (be_value (c :: p) + 1)).
    change (b :: c :: p) with ([b] ++ (c :: p)). rewrite !be_value_app, length_be_bytes.
    rewrite be_value_be_bytes, Z.mod_small by (pose proof (be_value_bound (c :: p) Hp); lia). lia.
Qed.
(** A key that starts with another byte. *)
Lemma selected_other b c p d k : is_bytes (b :: c :: p) → c < 255 → d ≠ b → selected (b :: c :: p) (d :: k).
Proof.
  intros Hp Hc Hd. split.
  - intros q Hq. destruct (increment_keeps_head _ _ _ _ Hp Hc Hq) as [q' ->]. split; [|intros [t [= ? _]]; done].
    intros [H1 H2]. cbn in H1, H2. change (cmp b d) with (b ?= d) in H1. change (cmp d b) with (d ?= b) in H2.
    destruct (Z.compare_spec b d), (Z.compare_spec d b); (done || lia).
  - intros t [u [= ? _]]. done.
Qed.
Definition scans_exactly (p : bytes) (id : Z) (s : WriteSnapshot) : Prop :=
  (∀ k, known (id, k) s → selected p k) ∧
  (∀ b x y, backend_of id (ws_storage s) = Some b → x ∈ versions b → y ∈ versions b →
     p `prefix_of` v_key x → v_key x `prefix_of` v_key y → v_key x = v_key y).

(** ** Scanning a range *)
(** What a scan of a range asks of a keyspace: the bounds of the buffer's scan
    select the keys that the storage's scan accepts, the bytes that follow a
    stored key make no difference, and the stored keys of the range are no
    prefixes of other keys. *)
Record scannable (range : KeyRange bytes) (q : bytes) (id : Z) (s : WriteSnapshot) : Prop := {
  sr_start : RangeIter.start_prefix (range_start range) = Val q;
  sr_bytes : is_bytes (start_value (range_start range));
  sr_bounds : ∃ start end_, WB.bounds range = Val (start, end_) ∧ range_panics start end_ = false ∧
    ∀ k, known (id, k) s → above start k && below end_ k = in_range range q k;
  sr_stored : ∀ b v, backend_of id (ws_storage s) = Some b → v ∈ versions b →
    in_range range q (raw v).1 = in_range range q (v_key v) ∧ sliceable (RangeIter.condition_of range) (raw v).1;
  sr_prefix_free : ∀ b x y, backend_of id (ws_storage s) = Some b → x ∈ versions b → y ∈ versions b →
    in_range range q (v_key x) = true → v_key x `prefix_of` v_key y → v_key x = v_key y;
}.
Lemma known_buffered id wb kw s :
  snapshot_ok s → ob_write_buffers (ws_operations s) !! Z.to_nat id = Some wb → kw ∈ wb_writes wb → known (id, kw.1) s.
Proof.
  intros Hok Hwb Hin. left. unfold written, buffered. cbn [fst snd]. rewrite Hwb. destruct kw as [k w]. exists w.
  cbn [mbind option_bind]. apply bt_get_elem; [|done]. destruct (sn_buffers s Hok) as (_ & Hb & _). by apply (Hb _ _ Hwb).
Qed.
Lemma known_stored id b v s : backend_of id (ws_storage s) = Some b → v ∈ versions b → known (id, v_key v) s.
Proof. intros Hb Hv. right. by exists b, v. Qed.
Lemma buffer_scan range q id wb s :
  snapshot_ok s → ob_write_buffers (ws_operations s) !! Z.to_nat id = Some wb → wb_keyspace_id wb = id → scannable range q id s →
  WB.iterate_range range wb = Val (tag id (List.filter (λ kw, in_range range q kw.1) (wb_writes wb))).
Proof.
  intros Hok Hwb Hid Hr. destruct (sr_bounds _ _ _ _ Hr) as (start & end_ & Hb & Hp & Hsel).
  unfold WB.iterate_range. rewrite Hb. cbn [mbind exec_bind]. unfold bt_range. rewrite Hp. cbn [mbind exec_bind]. rewrite Hid. do 2 f_equal.
  apply List.filter_ext_in. intros kw Hin%list_elem_of_In. by apply Hsel, (known_buffered id wb).
Qed.
Lemma range_scan fuel id range q s :
  snapshot_ok s → good_id id s → scannable range q id s → fits fuel id s →
  ∃ it out, Snap.iterate_range id range s = Val it ∧
    yields (H:=SnapIter.next (H:=mvcc_source fuel) fuel) it (snapshot_items id out) ∧ bt_wf out ∧
    (length out < fuel)%nat ∧ ∀ k v, (k, v) ∈ out ↔ in_range range q k = true ∧ view (id, k) s = Some v.
Proof.
  intros Hok [Hid [b Hb]] Hr Hfit.
  destruct (buffer_exists s id Hok Hid) as (wb & Hwb & Hwid & Hwf).
  destruct (sn_backend s Hok id b (proj1 Hid) Hb) as (Hpo & Hraw & Hst).
  destruct (scan_overlay fuel id range q s b (versions b) wb) as (it & out & Hit & Hy & Hwfo & Hget);
    [done|done|done|done|done| |done|apply (sr_bytes _ _ _ _ Hr)|apply (sr_start _ _ _ _ Hr)| |by apply (buffer_scan range q id wb s)|
     unfold fits, entries in Hfit; rewrite Hwb, Hb in Hfit; lia|unfold fits, entries in Hfit; rewrite Hwb, Hb in Hfit; lia|].
  { intros x y [Hx Hxp]%elem_of_list_filter_bool [Hy _]%elem_of_list_filter_bool.
    apply (sr_prefix_free _ _ _ _ Hr b); [done..|]. by rewrite <-(proj1 (sr_stored _ _ _ _ Hr b x Hb Hx)). }
  { rewrite Hraw. apply Forall_fmap, Forall_forall. intros v Hv. by apply (sr_stored _ _ _ _ Hr b). }
  assert (Hin : ∀ k v, (k, v) ∈ out ↔ in_range range q k = true ∧ view (id, k) s = Some v); last first.
  { exists it, out. do 3 (split; [done|]). split; [|done]. unfold fits in Hfit. eapply Nat.le_lt_trans; [|done].
    apply scan_length; [done..|]. intros k v [_ Hv]%Hin. by eapply view_known. }
  intros k v. rewrite <-bt_get_elem by done. rewrite Hget.
  unfold view, written, stored, buffered, value. cbn [fst snd]. rewrite Hwb, Hb. cbn [mbind option_bind].
  rewrite (bt_get_filter (λ k, in_range range q k)). destruct (in_range range q k) eqn:Hin.
  - destruct (bt_get k (wb_writes wb)); [naive_solver|].
    assert (read (ws_open_sequence_number s) k (List.filter (λ v, in_range range q (raw v).1) (versions b)) =
      read (ws_open_sequence_number s) k (versions b)) as ->; [|naive_solver].
    unfold read. rewrite (latest_set _ _ _ (versions b)); [done|by apply store_ok_filter|].
    intros x Hx. rewrite elem_of_list_filter_bool. split; [by intros []|].
    intros Hxv. split; [done|]. by rewrite (proj1 (sr_stored _ _ _ _ Hr b x Hb Hxv)), Hx.
  - assert (read (ws_open_sequence_number s) k (List.filter (λ v, in_range range q (raw v).1) (versions b)) =
      None) as ->; [|naive_solver].
    apply read_absent. intros x [Hx Hxi]%elem_of_list_filter_bool Hxk.
    by rewrite (proj1 (sr_stored _ _ _ _ Hr b x Hb Hx)), Hxk, Hin in Hxi.
Qed.
(** The range within a prefix. *)
Lemma within_scannable p fw id s :
  prefix_ok p → scans_exactly p id s → scannable (new_within p fw) p id s.
Proof.
  intros Hp [Hsel Hpf]. destruct (prefix_has_end p Hp) as [q Hq]. pose proof Hp as [Hbp _]. split; [done|done| | |].
  - exists (Included p), (Excluded q). unfold WB.bounds. cbn [new_within range_start range_end WB.compute_exclusive_end start_value].
    rewrite Hq. cbn [mbind exec_bind WB.range_start_as_bound]. split; [done|]. split.
    + assert (Hpq : p ⪯ p ∧ p ≺ q) by (by apply (prefix_range p q p Hbp Hbp Hq)).
      cbn. destruct (ltb q p) eqn:Hlt; [|done]. apply ltb_lt in Hlt. destruct Hpq as [_ Hpq].
      by destruct (cmp_irrefl p (cmp_lt_trans _ _ _ Hpq Hlt)).
    + intros k Hk. destruct (Hsel k Hk) as [Hs _]. specialize (Hs q Hq). apply eq_true_iff_eq.
      rewrite in_range_within, <-Hs. cbn. by rewrite andb_true_iff, leb_le, ltb_lt.
  - intros b v Hb Hv. split; [|done]. apply eq_true_iff_eq. rewrite !in_range_within. unfold raw. cbn [fst]. rewrite build_app.
    split; [|by apply prefix_app_r]. by apply (Hsel (v_key v)), (known_stored id b).
  - intros b x y Hb Hx Hy Hpx%in_range_within. by apply (Hpf b).
Qed.
Lemma prefix_scan_exact fuel id p fw s :
  snapshot_ok s → good_id id s → prefix_ok p → scans_exactly p id s → fits fuel id s →
  ∃ it out, Snap.iterate_range id (new_within p fw) s = Val it ∧
    yields (H:=SnapIter.next (H:=mvcc_source fuel) fuel) it (snapshot_items id out) ∧ bt_wf out ∧
    (length out < fuel)%nat ∧ ∀ k v, (k, v) ∈ out ↔ p `prefix_of` k ∧ view (id, k) s = Some v.
Proof.
  intros Hok Hid Hp Hsc Hfit.
  destruct (range_scan fuel id (new_within p fw) p s Hok Hid (within_scannable p fw id s Hp Hsc) Hfit) as (it & out & Hit & Hy & Hwf & Hl & Hin).
  exists it, out. do 4 (split; [done|]). intros k v. by rewrite Hin, in_range_within.
Qed.
Lemma keys_cover_exact p id s : snapshot_ok s → good_id id s → is_bytes p → keys_cover (length p) id s → scans_exactly p id s.
Proof.
  intros Hok [Hid [b Hb]] Hp [Hcb Hcs]. destruct (Hcs b Hb) as [Hpf Hlen].
  destruct (sn_backend s Hok id b (proj1 Hid) Hb) as (_ & _ & Hst).
  split.
  - intros k [[w Hw]|(b' & v & Hb' & Hv & Hk)]; cbn [fst snd] in *.
    + unfold written, buffered in Hw. cbn [fst snd] in Hw.
      destruct (ob_write_buffers (ws_operations s) !! Z.to_nat id) as [wb|] eqn:Hwb; [|done]. cbn [mbind option_bind] in Hw.
      destruct (sn_buffers s Hok) as (_ & Hbw & _). apply bt_get_elem in Hw; [|by apply (Hbw _ _ Hwb)].
      pose proof (sn_bytes s Hok _ _ Hwb) as Hbs. rewrite Forall_forall in Hbs.
      apply selected_long; [done|by apply (Hbs (k, w))|by apply (Hcb wb (k, w))].
    + assert (b' = b) as -> by congruence. subst k. apply selected_long; [done| |by apply Hlen].
      pose proof (store_versions _ Hst) as Hvs. rewrite Forall_forall in Hvs. by apply Hvs.
  - intros b' x y Hb' Hx Hy _. assert (b' = b) as -> by congruence. by apply Hpf.
Qed.
Lemma prefix_scan fuel id p fw s :
  snapshot_ok s → good_id id s → prefix_ok p → keys_cover (length p) id s → fits fuel id s →
  ∃ it out, Snap.iterate_range id (new_within p fw) s = Val it ∧
    yields (H:=SnapIter.next (H:=mvcc_source fuel) fuel) it (snapshot_items id out) ∧ bt_wf out ∧
    (length out < fuel)%nat ∧ ∀ k v, (k, v) ∈ out ↔ p `prefix_of` k ∧ view (id, k) s = Some v.
Proof. intros Hok Hid Hp Hcov Hfit. apply prefix_scan_exact; [done..| |done]. apply keys_cover_exact; [done..|apply Hp|done]. Qed.

(** ** The snapshot as a map *)
(** [s'] shows [o] for [key] and what [s] shows for every other key. *)
Definition updates (key : skey) (o : option bytes) (s s' : WriteSnapshot) : Prop :=
  snapshot_ok s' ∧ (∀ k, good_key k s' ↔ good_key k s) ∧ view key s' = o ∧
  ∀ k, 0 ≤ k.1 → k ≠ key → view k s' = view k s.
Lemma confined_updates key s s' : confined (λ k, k = key) s s' → updates key (view key s') s s'.
Proof.
  intros Hc. split; [apply (cf_ok _ _ _ Hc)|]. split; [intros k; by apply (confined_good _ _ _ _ Hc)|].
  split; [done|]. intros k Hid Hne. by apply (confined_view _ _ _ _ Hc).
Qed.
Lemma written_view key w s : written key s = Some w → view key s = write_value w.
Proof. unfold view. by intros ->. Qed.
Lemma unwritten_view key s : written key s = None → view key s = stored key s.
Proof. unfold view. by intros ->. Qed.

(** C10: above the storage a write snapshot is a map from keys to values. For
    every byte key of an open keyspace of a well-formed snapshot (buffers and
    keyspaces sorted, one version per key and number, no stored key extending
    another by 0xFF) a read returns the map's value; an insert and a put return
    a snapshot whose map differs by that key having the value, a delete one
    without the key, and undoing a put gives back the committed value. A scan
    of a non-empty prefix that does not start with 0xFF terminates and yields,
    in order, exactly the entries of the map whose key has the prefix, on
    condition that every stored and buffered key of the keyspace is at least as
    long as the prefix and no stored key is a proper prefix of another stored
    key (without that a buffered delete can be missed, example
    [prefix_key_delete_missed]); the fuel of the scan is any number above that
    of the keyspace's stored and buffered entries. *)
Theorem snapshot_is_a_map fuel key v p fw s :
  snapshot_ok s → good_key key s →
  Snap.get key s = Val (view key s) ∧
  (∃ s', Snap.insert_val key v s = Val s' ∧ updates key (Some v) s s') ∧
  (∃ s', Snap.put_val key v s = Val s' ∧ updates key (Some v) s s' ∧
     ∃ s'', Snap.unput_val key v s' = Val s'' ∧ updates key (stored key s) s' s'') ∧
  (∃ s', Snap.delete key s = Val s' ∧ updates key None s s') ∧
  (prefix_ok p → keys_cover (length p) key.1 s → fits fuel key.1 s →
   ∃ it out, Snap.iterate_range key.1 (new_within p fw) s = Val it ∧
     yields (H:=SnapIter.next (H:=mvcc_source fuel) fuel) it (snapshot_items key.1 out) ∧ bt_wf out ∧
     (length out < fuel)%nat ∧ ∀ k w, (k, w) ∈ out ↔ p `prefix_of` k ∧ view (key.1, k) s = Some w).
Proof.
  intros Hok Hk. pose proof Hk as [[Hid Hb] Hbs]. split; [by apply get_view|]. split.
  { destruct (insert_spec key s Hok Hid v Hbs) as (s' & Hs' & Hc & Hw). exists s'. split; [done|].
    replace (Some v) with (view key s') by (by rewrite (written_view _ _ _ Hw)). by apply confined_updates. }
  split.
  { destruct (put_spec key s Hok Hid v Hbs) as (s' & Hs' & Hc & Hw). exists s'. split; [done|]. split.
    - replace (Some v) with (view key s') by (by rewrite (written_view _ _ _ Hw)). by apply confined_updates.
    - destruct (unput_spec key s' (cf_ok _ _ _ Hc) Hid v _ _ Hw) as (s'' & Hs'' & Hc' & Hw'). exists s''. split; [done|].
      rewrite <-(confined_stored _ _ _ key Hc), <-(confined_stored _ _ _ key Hc'), <-(unwritten_view _ _ Hw').
      by apply confined_updates. }
  split.
  { destruct (delete_spec key s Hok Hid Hbs) as (s' & Hs' & Hc & Hw). exists s'. split; [done|].
    replace None with (view key s') by (by rewrite (written_view _ _ _ Hw)). by apply confined_updates. }
  intros Hp Hcov Hfit. by apply prefix_scan.
Qed.

Definition example_snapshot_of (vs : list Version) : WriteSnapshot :=
  mk_WriteSnapshot OB.new 12 (one_keyspace (mk_MemoryBackend (raw <$> vs) false [])).
Lemma decode_raws vs : store_ok vs → decode <$> (raw <$> vs) = vs.
Proof.
  intros [_ Hv _ _]. rewrite <-list_fmap_compose. induction Hv as [|v vs Hv' Hvs IH]; [done|].
  rewrite fmap_cons. unfold compose at 1. by rewrite decode_raw, IH.
Qed.
Lemma backend_in id kss b : backend_of id kss = Some b → ∃ k, k ∈ kss_keyspaces kss ∧ k_backend k = b.
Proof.
  unfold backend_of, KSS.get. destruct (KSS.position id kss) as [i| |]; cbn; [|done..].
  destruct (kss_keyspaces kss !! i) as [k|] eqn:Hk; cbn; [|done]. intros [= <-]. exists k. split; [|done].
  by eapply list_elem_of_lookup_2.
Qed.
(** A snapshot that was just opened. *)
Lemma opened_snapshot_ok open kss :
  Forall (λ k, backend_ok (k_backend k)) (kss_keyspaces kss) → snapshot_ok (mk_WriteSnapshot OB.new open kss).
Proof.
  intros Hks. split; [apply ob_wf_new| |].
  - intros i wb Hwb. cbn [ws_operations OB.new ob_write_buffers] in Hwb. rewrite list_lookup_fmap in Hwb.
    apply fmap_Some in Hwb as (j & _ & ->). constructor.
  - intros id b _ Hb. destruct (backend_in _ _ _ Hb) as (k & Hk & <-). by eapply Forall_forall in Hks.
Qed.
Lemma snapshot_is_a_map_witness :
  let s := example_snapshot_of example_versions in
  Snap.get (0, [1; 2]) s = Val (Some [27]) ∧
  ∃ it out, Snap.iterate_range 0 (new_within [1] true) s = Val it ∧
    yields (H:=SnapIter.next (H:=mvcc_source 5) 5) it (snapshot_items 0 out) ∧ ([1; 2], [27]) ∈ out.
Proof.
  intros s. assert (Hvs : versions (mk_MemoryBackend (raw <$> example_versions) false []) = example_versions).
  { apply decode_raws, example_versions_ok. }
  destruct (snapshot_is_a_map 5 (0, [1; 2]) [9] [1] true s) as (Hget & _ & _ & _ & Hscan).
  - apply opened_snapshot_ok, Forall_singleton. split; [done|]. cbn [one_keyspace k_backend]. rewrite Hvs.
    split; [done|apply example_versions_ok].
  - split; [split; [cbn; lia|by eexists]|]. repeat constructor; cbn; unfold is_byte; lia.
  - split; [rewrite Hget; vm_compute; reflexivity|]. destruct Hscan as (it & out & Hit & Hy & _ & _ & Hin).
    + split; [|lia]. repeat constructor; unfold is_byte; lia.
    + split.
      * cbn. intros wb kw [= <-] Hin0. apply elem_of_nil in Hin0. destruct Hin0.
      * intros b Hb. change (Some (mk_MemoryBackend (raw <$> example_versions) false []) = Some b) in Hb.
        apply (inj Some) in Hb as <-. rewrite Hvs. split; unfold example_versions.
        -- intros x y Hx Hy'. rewrite !elem_of_cons, elem_of_nil in Hx, Hy'.
           destruct Hx as [-> |[-> |[-> |[-> |[]]]]], Hy' as [-> |[-> |[-> |[-> |[]]]]]; simpl; intros [z [=]]; reflexivity.
        -- intros v. rewrite !elem_of_cons, elem_of_nil. intros [-> |[-> |[-> |[-> |[]]]]]; cbn; lia.
    + unfold fits. vm_compute. lia.
    + exists it, out. split; [exact Hit|]. split; [exact Hy|]. apply Hin. split; [by eexists|]. vm_compute. reflexivity.
Defined.
