(* ===== verification/Windows.v ===== *)
(** * Scanning a window of keys

    The properties of a type or of an edge differ in their last byte.  Where keys
    with one first byte have one length, the range from [h ++ [lo]] to
    [h ++ [hi]] selects those that continue [h] by a byte from [lo] to [hi]. *)
From stdpp Require Import strings gmap.
From S2P Require Import Prelude BTree Bytes MemoryStore Buffer LendingIter Mvcc Keyspaces Snapshot Dependency Timeline Isolation Storage Views.
Import KeyRangeOps.
#[local] Open Scope Z_scope.

Section window.
Context (b : Z) (h0 : bytes) (lo hi : Z) (Hb : is_bytes (b :: h0)) (Hlo : 0 ≤ lo ≤ hi) (Hhi : hi < 255) (Hlen : (length h0 ≤ 7)%nat).
Abbreviation h := (b :: h0).
Abbreviation r := (mk_KeyRange (Inclusive (h ++ [lo])) (EndPrefixInclusive (h ++ [hi])) false).
Abbreviation window_end := (Excluded (h ++ [hi + 1])).
Definition window_key (k : bytes) : Prop :=
  (∃ h' i, k = h' ++ [i] ∧ length h' = length h ∧ head h' = Some b) ∨ ∃ c rest, k = c :: rest ∧ c ≠ b.
Lemma cmp_single x y : cmp [x] [y] = (x ?= y).
Proof. cbn. change (cmp x y) with (x ?= y). by destruct (x ?= y). Qed.
Lemma cmp_one x y t : cmp [x] (y :: t) ≠ Gt ↔ x ≤ y.
Proof. cbn. change (cmp x y) with (x ?= y). destruct (Z.compare_spec x y), t; split; (done || lia). Qed.
Lemma cmp_last h' i j : length h' = length h → cmp (h ++ [j]) (h' ++ [i]) = match cmp h h' with Eq => j ?= i | o => o end.
Proof. intros Hl. by rewrite list_cmp_app_len, cmp_single by done. Qed.
Lemma increment_last : increment_unwrap (E:=Empty_set) (h ++ [hi]) = Val (h ++ [hi + 1]).
Proof.
  unfold increment_unwrap, increment. generalize h. intros g. rewrite rev_unit. cbn [increment_rev].
  assert (256 <=? hi + 1 = false) as -> by (apply Z.leb_gt; lia). cbn [negb rev]. rewrite rev_involutive.
  unfold u8. by rewrite Z.mod_small by lia.
Qed.
Lemma window_bounds : WB.bounds r = Val (Included (h ++ [lo]), window_end).
Proof. unfold WB.bounds. cbn [range_start range_end WB.compute_exclusive_end WB.range_start_as_bound]. by rewrite increment_last. Qed.
Lemma in_window h' i t : length h' = length h → in_range r (h ++ [lo]) (h' ++ i :: t) = bool_decide (h' = h) && (lo <=? i) && (i <=? hi).
Proof.
  intros Hl. unfold in_range. cbn [RangeIter.condition_of range_end accepts].
  assert (Ht : take (length (h ++ [hi])) (h' ++ i :: t) = h' ++ [i]).
  { rewrite length_app, <-Hl. cbn [length]. rewrite take_app_add. done. }
  rewrite Ht. apply eq_true_iff_eq. rewrite !andb_true_iff, orb_true_iff, !leb_le, bool_decide_eq_true, !Z.leb_le.
  assert (Hc1 : cmp (h ++ [lo]) (h' ++ i :: t) ≠ Gt ↔ h ≺ h' ∨ (h = h' ∧ lo ≤ i)).
  { rewrite list_cmp_app_len by done. destruct (cmp h h') eqn:E.
    - apply cmp_eq in E as <-. rewrite cmp_one. split; [by right|]. by intros [?|[_ ?]].
    - naive_solver.
    - split; [done|]. intros [?|[<- _]]; [done|]. by rewrite cmp_refl in E. }
  assert (Hc2 : cmp (h' ++ [i]) (h ++ [hi]) ≠ Gt ↔ h' ≺ h ∨ (h' = h ∧ i ≤ hi)).
  { rewrite list_cmp_app_len by done. rewrite cmp_single. destruct (cmp h' h) eqn:E.
    - apply cmp_eq in E as ->. rewrite <-cmp_single, cmp_one. split; [by right|]. by intros [?|[_ ?]].
    - naive_solver.
    - split; [done|]. intros [?|[-> _]]; [done|]. by rewrite cmp_refl in E. }
  assert (Hc3 : starts_with (h ++ [hi]) (h' ++ i :: t) = true → h' ++ [i] = h ++ [hi]).
  { intros [u Hu]%starts_with_prefix_of. rewrite <-app_assoc in Hu. apply app_inj_1 in Hu as [-> [= -> _]]; [done|by rewrite Hl]. }
  rewrite Hc1, Hc2. split.
  - intros [H1 [H2%Hc3|H2]].
    + apply app_inj_1 in H2 as [-> [= ->]]; [|done]. destruct H1 as [H1|[_ H1]]; [by apply cmp_irrefl in H1|]. split_and!; [done|lia|lia].
    + destruct H1 as [H1|[E1 H1]], H2 as [H2|[E2 H2]]; [by apply cmp_asym in H1|subst h'; by apply cmp_irrefl in H1|subst h'; by apply cmp_irrefl in H2|done].
  - intros [[-> ?] ?]. split; [by right|right; by right].
Qed.
Lemma in_window_elsewhere c rest : c ≠ b → in_range r (h ++ [lo]) (c :: rest) = false.
Proof.
  intros Hc. unfold in_range. cbn [RangeIter.condition_of range_end accepts app]. destruct (Z.lt_ge_cases c b) as [Hlt|Hge].
  - destruct (leb _ (c :: rest)) eqn:Hl; [|done]. apply leb_le in Hl. cbn in Hl. change (cmp b c) with (b ?= c) in Hl.
    by rewrite (proj2 (Z.compare_gt_iff b c) Hlt) in Hl.
  - apply andb_false_intro2, orb_false_intro.
    + destruct (starts_with _ _) eqn:Hs; [|done]. apply starts_with_prefix_of in Hs as [u [= Hu _]]. by subst.
    + cbn [length take]. destruct (leb _ _) eqn:Hl; [|done]. apply leb_le in Hl. cbn in Hl. change (cmp c b) with (c ?= b) in Hl.
      by rewrite (proj2 (Z.compare_gt_iff c b) ltac:(lia)) in Hl.
Qed.
(** The bounds of the buffer's scan select the same keys. *)
Lemma window_bounds_in_range k : window_key k → above (Included (h ++ [lo])) k && below window_end k = in_range r (h ++ [lo]) k.
Proof.
  intros [(h' & i & -> & Hl & Hh)|(c & rest & -> & Hc)].
  - rewrite in_window by done. cbn [above below]. apply eq_true_iff_eq.
    rewrite !andb_true_iff, leb_le, ltb_lt, bool_decide_eq_true, !Z.leb_le, !list_cmp_app_len by done. rewrite !cmp_single.
    destruct (cmp h h') eqn:E1.
    + apply cmp_eq in E1 as <-. rewrite cmp_refl. rewrite Z.compare_lt_iff. split.
      * intros [H1 H2]. destruct (Z.compare_spec lo i); [| |done]; split_and!; (done || lia).
      * intros [[_ H1] H2]. split; [|lia]. destruct (Z.compare_spec lo i); (done || lia).
    + rewrite (cmp_opp h h'), E1. cbn. split; [by intros [_ ?]|]. intros [[-> _] _]. by rewrite cmp_refl in E1.
    + split; [by intros [? _]|]. intros [[-> _] _]. by rewrite cmp_refl in E1.
  - rewrite in_window_elsewhere by done. cbn [above below app]. destruct (Z.lt_ge_cases c b) as [Hlt|Hge].
    + destruct (leb _ _) eqn:Hl; [|done]. apply leb_le in Hl. cbn in Hl. change (cmp b c) with (b ?= c) in Hl.
      by rewrite (proj2 (Z.compare_gt_iff b c) Hlt) in Hl.
    + apply andb_false_intro2. destruct (ltb _ _) eqn:Hl; [|done]. apply ltb_lt in Hl. cbn in Hl. change (cmp c b) with (c ?= b) in Hl.
      by rewrite (proj2 (Z.compare_gt_iff c b) ltac:(lia)) in Hl.
Qed.
Lemma window_scannable id s : is_byte lo → (∀ k, known (id, k) s → window_key k) → 0 ≤ id → scannable r (h ++ [lo]) id s.
Proof.
  intros Hlob Hk Hid. split.
  - done.
  - cbn [range_start start_value]. apply Forall_app. split; [done|]. by constructor.
  - exists (Included (h ++ [lo])), window_end. split; [apply window_bounds|]. split.
    + cbn [range_panics]. destruct (ltb _ _) eqn:Hl; [|done]. apply ltb_lt in Hl. rewrite list_cmp_app_len, cmp_refl, cmp_single in Hl by done.
      destruct (Z.compare_spec (hi + 1) lo); (done || lia).
    + intros k Hkn. by apply window_bounds_in_range, Hk.
  - intros vb v Hvb Hv. assert (Hw : window_key (v_key v)) by (by apply Hk, (known_stored id vb)).
    unfold raw. cbn [fst]. rewrite build_app. split.
    + destruct Hw as [(h' & i & -> & Hl & Hh)|(c & rest & -> & Hc)].
      * rewrite <-app_assoc. cbn [app]. by rewrite !in_window by done.
      * cbn [app]. by rewrite !in_window_elsewhere by done.
    + cbn [RangeIter.condition_of range_end sliceable]. left. assert (1 ≤ length (v_key v))%nat.
      { destruct Hw as [(h' & i & -> & Hl & Hh)|(c & rest & -> & Hc)]; [rewrite length_app|]; cbn [length]; lia. }
      rewrite !length_app, length_be_bytes. cbn [length]. lia.
  - intros vb x y Hvb Hx Hy Hin [u Hu].
    assert (Hwx : window_key (v_key x)) by (by apply Hk, (known_stored id vb)).
    assert (Hwy : window_key (v_key y)) by (by apply Hk, (known_stored id vb)).
    destruct Hwx as [(h' & i & Hex & Hl & Hh)|(c & rest & Hex & Hc)]; [|by rewrite Hex, in_window_elsewhere in Hin].
    destruct h' as [|b' h']; [done|]. injection Hh as ->. rewrite Hex in Hu. cbn [app] in Hu.
    destruct Hwy as [(h2 & i2 & Hey & Hl2 & Hh2)|(c & rest & Hey & Hc)]; [|rewrite Hey in Hu; by injection Hu as ? _].
    rewrite Hex, Hey in *. apply (f_equal length) in Hu as Hlen'. cbn [length] in Hlen', Hl, Hl2. rewrite !length_app in Hlen'. cbn [length] in Hlen'.
    destruct u; [|cbn [length] in Hlen'; lia]. rewrite app_nil_r in Hu. by rewrite Hu.
Qed.
End window.
