(* ===== verification/Recovery.v ===== *)
(** * Recovery: [storage/recovery/commit_recovery.rs],
    [storage/recovery/checkpoint.rs] ([recover_storage]) and
    [MVCCStorage::load] of [storage/storage.rs]

    Loading the commits of the log after a crash and applying them to the
    keyspaces, with the log client of [storage/durability_client.rs]
    ([WALClient]) over an abstract log.  The record serialisation (bincode) is a
    parameter with its round trip as a hypothesis.  The keyspaces are those of
    the in-memory build: what RocksDB does with a write batch is what
    [MemoryBackend] does. *)
From stdpp Require Import sets.
From S2P Require Import Prelude BTree Bytes MemoryStore Buffer LendingIter Mvcc Keyspaces Snapshot Dependency Timeline Isolation Storage.

Record RawRecord := mk_RawRecord {
  rr_sequence_number : Z;
  rr_record_type : Z;
  rr_bytes : bytes;
}.
Definition COMMIT_RECORD_TYPE : Z := 0.
Definition STATUS_RECORD_TYPE : Z := 1.

Inductive RecoveryCommitStatus :=
| RecoveryPending (r : CommitRecord)
| RecoveryValidated (r : CommitRecord)
| RecoveryRejected.

Inductive StorageRecoveryError (DErr BErr : Type) :=
| DurabilityRecordDeserialize (source : BErr)
| DurabilityClientRead (source : DErr)
| DurabilityClientWrite (source : DErr)
| DurabilityRecordsMissing (expected_sequence_number first_record_sequence_number : Z)
| RecoveryKeyspaceWrite (source : KeyspaceError).
Arguments DurabilityRecordDeserialize {DErr BErr} _.
Arguments DurabilityClientRead {DErr BErr} _.
Arguments DurabilityClientWrite {DErr BErr} _.
Arguments DurabilityRecordsMissing {DErr BErr} _ _.
Arguments RecoveryKeyspaceWrite {DErr BErr} _.

Inductive StorageLoadError (DErr BErr : Type) :=
| LoadKeyspaceOpen (source : KeyspaceOpenError)
| RecoverFromDurability (source : StorageRecoveryError DErr BErr).
Arguments LoadKeyspaceOpen {DErr BErr} _.
Arguments RecoverFromDurability {DErr BErr} _.

(** What [bincode] does with the two record types. *)
Record Codec (BErr : Type) := mk_Codec {
  serialise_commit : CommitRecord → bytes;
  deserialise_commit : bytes → CommitRecord + BErr;
  serialise_status : StatusRecord → bytes;
  deserialise_status : bytes → StatusRecord + BErr;
}.
Arguments mk_Codec {BErr} _ _ _ _.
Arguments serialise_commit {BErr} _ _.
Arguments deserialise_commit {BErr} _ _.
Arguments serialise_status {BErr} _ _.
Arguments deserialise_status {BErr} _ _.

Module Recovery.
Section recovery.
Context {D DErr BErr : Type} `{Durability D DErr} (codec : Codec BErr).
Abbreviation error := (StorageRecoveryError DErr BErr).
Abbreviation commits := (list (Z * RecoveryCommitStatus)).

(** The body of the loop of [load_commit_data_from] on one record. *)
Definition load_record (start : Z) (rec : RawRecord) (recovered : commits) : exec error commits :=
  if rr_record_type rec =? COMMIT_RECORD_TYPE then
    match deserialise_commit codec (rr_bytes rec) with
    | inl commit_record => Val (bt_insert (rr_sequence_number rec) (RecoveryPending commit_record) recovered)
    | inr e => Err (DurabilityRecordDeserialize e)
    end
  else if rr_record_type rec =? STATUS_RECORD_TYPE then
    match deserialise_status codec (rr_bytes rec) with
    | inr e => Err (DurabilityRecordDeserialize e)
    | inl (mk_StatusRecord commit_record_sequence_number was_committed) =>
        if commit_record_sequence_number <? start then Val recovered
        else if was_committed : bool then
          match bt_get commit_record_sequence_number recovered with
          | Some (RecoveryPending r) =>
              Val (bt_insert commit_record_sequence_number (RecoveryValidated r)
                     (bt_remove commit_record_sequence_number recovered))
          | _ => Panic
          end
        else Val (bt_insert commit_record_sequence_number RecoveryRejected recovered)
    end
  else Val recovered.

(** [limit] is tested after each record; a skipped status record continues
    without the test, which cannot change since nothing was added. *)
Fixpoint load_loop (start limit : Z) (first_record : bool) (records : list (RawRecord + DErr))
    (recovered : commits) : exec error commits :=
  match records with
  | [] => Val recovered
  | inr e :: _ => Err (DurabilityClientRead e)
  | inl rec :: records =>
      if first_record && negb (rr_sequence_number rec =? start)
      then Err (DurabilityRecordsMissing start (rr_sequence_number rec))
      else
        recovered ← load_record start rec recovered;
        if limit <? Z.of_nat (length recovered) then Val recovered
        else load_loop start limit false records recovered
  end.
Definition load_commit_data_from (start : Z) (iter_from : Z → exec DErr (list (RawRecord + DErr))) (limit : Z)
  : exec error commits :=
  records ← map_err DurabilityClientRead (iter_from start);
  load_loop start limit true records [].

(** The first loop of [apply_recovered]: statuses of pending commits are
    decided and persisted, the batches collected. *)
Fixpoint apply_loop (recovered : commits) (m : IsolationManager) (d : D)
    (pending_writes : list (list (option (list WriteOp))))
  : exec spin ((list (list (option (list WriteOp))) + error) * D) :=
  match recovered with
  | [] => Val (inl pending_writes, d)
  | (s, RecoveryValidated r) :: recovered =>
      m ← Iso.run (Iso.load_validated s r m);
      apply_loop recovered m d (pending_writes ++ [Batches.from_operations s (cr_operations r)])
  | (s, RecoveryRejected) :: recovered =>
      m ← Iso.run (Iso.load_aborted s m);
      apply_loop recovered m d pending_writes
  | (s, RecoveryPending r) :: recovered =>
      m ← Iso.run (Iso.opened_for_read (cr_open_sequence_number r) m);
      '(validated, m) ← Iso.validate_commit s r (d_reader d) m;
      match validated with
      | inr e => Val (inr (DurabilityClientRead e), d)
      | inl (ValidatedWrite batches) =>
          match Engine.persist_commit_status true s d with
          | (Val _, d) => apply_loop recovered m d (pending_writes ++ [batches])
          | (Err e, d) => Val (inr (DurabilityClientWrite e), d)
          | (Panic, _) => Panic
          end
      | inl (ValidatedConflict _) =>
          match Engine.persist_commit_status false s d with
          | (Val _, d) => apply_loop recovered m d pending_writes
          | (Err e, d) => Val (inr (DurabilityClientWrite e), d)
          | (Panic, _) => Panic
          end
      end
  end.
Fixpoint write_all (writes : list (list (option (list WriteOp)))) (k : Keyspaces)
  : exec KeyspaceError unit * Keyspaces :=
  match writes with
  | [] => (Val (), k)
  | batches :: writes =>
      match KSS.write batches k with
      | (Val _, k) => write_all writes k
      | r => r
      end
  end.
Definition apply_recovered (recovered : commits) (d : D) (k : Keyspaces)
  : exec spin ((unit + error) * D * Keyspaces) :=
  match recovered with
  | [] => Val (inl (), d, k)
  | (first, _) :: _ =>
      '(writes, d) ← apply_loop recovered (Iso.new first) d [];
      match writes with
      | inr e => Val (inr e, d, k)
      | inl writes =>
          match write_all writes k with
          | (Val _, k) => Val (inl (), d, k)
          | (Err e, k) => Val (inr (RecoveryKeyspaceWrite e), d, k)
          | (Panic, _) => Panic
          end
      end
  end.

(** [commits.keys().max()]: the last key of the sorted map. *)
Definition max_key (default : Z) (recovered : commits) : Z :=
  match last recovered with Some (s, _) => s | None => default end.
Definition usize_max : Z := 2 ^ 64 - 1.

(** [load] without a checkpoint: the keyspaces are created anew and the whole
    log is applied. *)
Definition load (ds : list KeyspaceDef) (iter_from : Z → exec DErr (list (RawRecord + DErr))) (d : D)
  : exec spin ((Storage D + StorageLoadError DErr BErr) * D) :=
  match KSS.open ds with
  | Err e => Val (inr (LoadKeyspaceOpen e), d)
  | Panic => Panic
  | Val keyspaces =>
      match load_commit_data_from (SeqNr.next SeqNr.MIN) iter_from usize_max with
      | Val recovered =>
          let next_sequence_number := SeqNr.next (max_key SeqNr.MIN recovered) in
          '(r, d, k) ← apply_recovered recovered d keyspaces;
          match r with
          | inl _ => Val (inl (mk_Storage k d (Iso.new next_sequence_number)), d)
          | inr e => Val (inr (RecoverFromDurability e), d)
          end
      | Err e => Val (inr (RecoverFromDurability e), d)
      | Panic => Panic
      end
  end.

(** [recover_storage] after the checkpoint's files are restored and opened:
    [keyspaces] are the checkpoint's, [checkpoint_sequence_number] is what its
    metadata file holds and [previous] the log's last number. *)
Definition recover_storage (keyspaces : Keyspaces) (checkpoint_sequence_number previous : Z)
    (iter_from : Z → exec DErr (list (RawRecord + DErr))) (d : D)
  : exec spin ((Keyspaces * Z + error) * D) :=
  if previous <? checkpoint_sequence_number then Panic
  else
    let recovery_start := SeqNr.add checkpoint_sequence_number 1 in
    match load_commit_data_from recovery_start iter_from usize_max with
    | Val recovered =>
        let next_sequence_number := SeqNr.add (max_key (SeqNr.sub recovery_start 1) recovered) 1 in
        '(r, d, k) ← apply_recovered recovered d keyspaces;
        match r with
        | inl _ => Val (inl (k, next_sequence_number), d)
        | inr e => Val (inr e, d)
        end
    | Err e => Val (inr e, d)
    | Panic => Panic
    end.
End recovery.
End Recovery.

(** ** The log client *)
(** [WALClient] over an abstract log: commit records carry the number they were
    written with, status records the number of the last commit before them. *)
Inductive LogEntry :=
| LogCommit (s : Z) (r : CommitRecord)
| LogStatus (s : Z) (r : StatusRecord).
Record Log := mk_Log { lg_entries : list LogEntry; lg_next : Z }.
Inductive LogError := UnsupportedOperation.

Module LogClient.
Definition new : Log := mk_Log [] 1.
Definition entry_seq (e : LogEntry) : Z := match e with LogCommit s _ | LogStatus s _ => s end.
Definition sequenced_write (r : CommitRecord) (l : Log) : exec LogError Z * Log :=
  (Val (lg_next l), mk_Log (lg_entries l ++ [LogCommit (lg_next l) r]) (u64 (lg_next l + 1))).
Definition unsequenced_write (r : StatusRecord) (l : Log) : exec LogError unit * Log :=
  (Val (), mk_Log (lg_entries l ++ [LogStatus (u64 (lg_next l - 1)) r]) (lg_next l)).
Definition from (start : Z) (l : Log) : list LogEntry :=
  List.filter (λ e, start <=? entry_seq e) (lg_entries l).
Definition commit_of (e : LogEntry) : option ((Z * CommitRecord) + LogError) :=
  match e with LogCommit s r => Some (inl (s, r)) | LogStatus _ _ => None end.
Definition status_of (e : LogEntry) : option (StatusRecord + LogError) :=
  match e with LogCommit _ _ => None | LogStatus _ r => Some (inl r) end.
Definition reader (l : Log) : DurabilityClient LogError :=
  mk_DurabilityClient (λ start, Val (omap status_of (from start l))) (λ start, Val (omap commit_of (from start l))).
Definition raw_of {BErr} (codec : Codec BErr) (e : LogEntry) : RawRecord :=
  match e with
  | LogCommit s r => mk_RawRecord s COMMIT_RECORD_TYPE (serialise_commit codec r)
  | LogStatus s r => mk_RawRecord s STATUS_RECORD_TYPE (serialise_status codec r)
  end.
Definition iter_from {BErr} (codec : Codec BErr) (l : Log) (start : Z)
  : exec LogError (list (RawRecord + LogError)) :=
  Val ((λ e, inl (raw_of codec e)) <$> from start l).
Definition reset (_ : Log) : exec LogError unit * Log := (Val (), new).
Definition reset_to_sequence (_ : Z) (l : Log) : exec LogError unit * Log := (Err UnsupportedOperation, l).
End LogClient.
#[global] Instance log_durability : Durability Log LogError := {|
  d_current := lg_next;
  d_sequenced_write := LogClient.sequenced_write;
  d_unsequenced_write := LogClient.unsequenced_write;
  d_reader := LogClient.reader;
  d_reset := LogClient.reset;
  d_reset_to_sequence := LogClient.reset_to_sequence;
|}.
#[global] Instance log_laws : DurabilityLaws Log LogError.
Proof.
  split; [|by eauto]. intros r [l n] Hn. eexists. split; [done|]. cbn in *. apply u64_id. unfold is_u64. lia.
Qed.

(** ** Loading the log *)
(** The log of a run from the commit numbered [start] on: commits numbered
    consecutively, each status after its commit and at most one per commit;
    statuses of earlier commits may be among them. *)
Inductive log_wf (start : Z) : list LogEntry → Z → Prop :=
| log_wf_nil : log_wf start [] start
| log_wf_commit l next r : log_wf start l next → log_wf start (l ++ [LogCommit next r]) (next + 1)
| log_wf_status l next q s b :
    log_wf start l next → l ≠ [] → s < next → (∀ q' b', LogStatus q' (mk_StatusRecord s b') ∉ l) →
    log_wf start (l ++ [LogStatus q (mk_StatusRecord s b)]) next.

(** What the log says of the commit numbered [s]. *)
Definition find_commit (s : Z) (l : list LogEntry) : option CommitRecord :=
  head (omap (λ e, match e with LogCommit s' r => if s' =? s then Some r else None | _ => None end) l).
Definition find_status (s : Z) (l : list LogEntry) : option bool :=
  head (omap (λ e, match e with
                   | LogStatus _ (mk_StatusRecord s' b) => if s' =? s then Some b else None
                   | _ => None end) l).
Definition recorded (s : Z) (l : list LogEntry) : option RecoveryCommitStatus :=
  r ← find_commit s l;
  Some (match find_status s l with
        | None => RecoveryPending r
        | Some true => RecoveryValidated r
        | Some false => RecoveryRejected
        end).

Lemma head_omap_snoc {A B} (f : A → option B) l x :
  head (omap f (l ++ [x])) = match head (omap f l) with Some y => Some y | None => f x end.
Proof. rewrite omap_app. csimpl. by destruct (omap f l), (f x). Qed.

Lemma find_commit_snoc s l e :
  find_commit s (l ++ [e]) =
  match find_commit s l with
  | Some r => Some r
  | None => match e with LogCommit s' r => if s' =? s then Some r else None | _ => None end
  end.
Proof. apply head_omap_snoc. Qed.
Lemma find_status_snoc s l e :
  find_status s (l ++ [e]) =
  match find_status s l with
  | Some b => Some b
  | None => match e with
            | LogStatus _ (mk_StatusRecord s' b) => if s' =? s then Some b else None | _ => None end
  end.
Proof. apply head_omap_snoc. Qed.

Lemma log_wf_spec start l next :
  log_wf start l next → start ≤ next ∧ (∀ s, is_Some (find_commit s l) ↔ start ≤ s < next) ∧
  (∀ s, (∀ q b, LogStatus q (mk_StatusRecord s b) ∉ l) → find_status s l = None) ∧
  (∀ s, next ≤ s → find_status s l = None).
Proof.
  assert (Hnone : ∀ l s, (∀ q b, LogStatus q (mk_StatusRecord s b) ∉ l) → find_status s l = None).
  { clear. intros l s. induction l as [|[?|q [s' b]] l IH]; intros Hn; [done| |]; unfold find_status; csimpl.
    - apply IH. intros q' b' Hin. apply (Hn q' b'). by right.
    - destruct (Z.eqb_spec s' s) as [->|]; [by destruct (Hn q b); left|]. apply IH. intros q' b' Hin. apply (Hn q' b'). by right. }
  induction 1 as [|l next r Hl IH|l next q s b Hl IH Hne Hs Hn]; (split; [|split; [|split; [by apply Hnone|]]]).
  - lia.
  - intros s. split; [by intros [? ?]|lia].
  - done.
  - lia.
  - intros s. rewrite find_commit_snoc. destruct IH as (? & IH & _).
    specialize (IH s). destruct (find_commit s l) as [r'|]; [split; [|by eauto]; intros _; destruct IH as [IH _];
      specialize (IH ltac:(by eauto)); lia|].
    destruct (Z.eqb_spec next s) as [->|].
    + split; [lia|by eauto].
    + split; [by intros [? ?]|]. intros. destruct IH as [_ IH]. destruct (IH ltac:(lia)). done.
  - intros s Hs. rewrite find_status_snoc. destruct IH as (_ & _ & _ & ->); [done|lia].
  - destruct IH as [? _]; lia.
  - intros s'. rewrite find_commit_snoc.
    destruct IH as (_ & IH & _). rewrite <-IH. by destruct (find_commit s' l).
  - intros s' Hs'. rewrite find_status_snoc.
    destruct IH as (_ & _ & _ & ->); [|done]. by rewrite (proj2 (Z.eqb_neq _ _)) by lia.
Qed.

Lemma length_bt_insert {V} (k : Z) (v : V) m : (length (bt_insert k v m) ≤ S (length m))%nat.
Proof. induction m as [|[k' v'] m IH]; simpl; [lia|]. destruct (cmp k k'); simpl; lia. Qed.

(** The serialisation of an entry round-trips. *)
Definition roundtrips {BErr} (codec : Codec BErr) (e : LogEntry) : Prop :=
  match e with
  | LogCommit _ r => deserialise_commit codec (serialise_commit codec r) = inl r
  | LogStatus _ r => deserialise_status codec (serialise_status codec r) = inl r
  end.

Section load.
Context {DErr BErr : Type} (codec : Codec BErr).
Abbreviation error := (StorageRecoveryError DErr BErr).

Fixpoint load_all (start : Z) (l : list LogEntry) (acc : list (Z * RecoveryCommitStatus))
  : exec error (list (Z * RecoveryCommitStatus)) :=
  match l with
  | [] => Val acc
  | e :: l => acc ← Recovery.load_record codec start (LogClient.raw_of codec e) acc; load_all start l acc
  end.
Lemma load_all_snoc start l e acc :
  load_all start (l ++ [e]) acc =
  (m ← load_all start l acc; Recovery.load_record codec start (LogClient.raw_of codec e) m).
Proof.
  revert acc. induction l as [|x l IH]; intros acc; cbn [load_all app].
  - cbn [mbind exec_bind]. by destruct (Recovery.load_record _ _ _ _).
  - destruct (Recovery.load_record _ _ _ _); cbn [mbind exec_bind]; [apply IH|done..].
Qed.

Lemma load_record_length start rec acc m :
  Recovery.load_record (DErr:=DErr) codec start rec acc = Val m → (length m ≤ S (length acc))%nat.
Proof.
  unfold Recovery.load_record. destruct (_ =? _).
  { destruct (deserialise_commit _ _); [|done]. intros [= <-]. apply length_bt_insert. }
  destruct (_ =? _); [|intros [= <-]; lia]. destruct (deserialise_status _ _) as [[s [|]]|]; [..|done].
  - destruct (s <? start); [intros [= <-]; lia|]. destruct (bt_get s acc) as [[]|]; try done. intros [= <-].
    pose proof (length_bt_insert s (RecoveryValidated r) (bt_remove s acc)).
    assert (length (bt_remove s acc) ≤ length acc)%nat by apply List.filter_length_le. lia.
  - destruct (s <? start); intros [= <-]; [lia|apply length_bt_insert].
Qed.

Lemma load_loop_all start limit l acc m first :
  load_all start l acc = Val m → Z.of_nat (length acc + length l) ≤ limit →
  (first = true → match l with [] => True | e :: _ => LogClient.entry_seq e = start end) →
  Recovery.load_loop codec start limit first ((λ e, inl (LogClient.raw_of codec e) : RawRecord + DErr) <$> l) acc = Val m.
Proof.
  revert acc first. induction l as [|e l IH]; intros acc first Hall Hlim Hf; [done|].
  cbn [load_all] in Hall. csimpl.
  assert (Hs : rr_sequence_number (LogClient.raw_of codec e) = LogClient.entry_seq e) by (by destruct e).
  assert (first && negb (rr_sequence_number (LogClient.raw_of codec e) =? start) = false) as ->.
  { destruct first; [|done]. by rewrite Hs, (Hf eq_refl), Z.eqb_refl. }
  destruct (Recovery.load_record _ _ _ _) as [acc'| |] eqn:Er; cbn [mbind exec_bind] in Hall |- *; [|done..].
  apply load_record_length in Er. simpl in Hlim. rewrite (proj2 (Z.ltb_ge _ _)) by lia.
  apply IH; [done|lia|done].
Qed.

Lemma load_all_spec start l next :
  0 ≤ start → log_wf start l next → Forall (roundtrips codec) l →
  ∃ m, load_all start l [] = Val m ∧ bt_wf m ∧ ∀ s, bt_get s m = recorded s l.
Proof.
  intros H0. induction 1 as [|l next r Hl IH|l next q s b Hl IH Hne Hs Hn];
    [|intros [Hrt Hrt1]%Forall_app; rewrite Forall_singleton in Hrt1; specialize (IH Hrt)..].
  { exists []. by split_and!; [|constructor|]. }
  - destruct IH as (m & Hm & Hwf & Hget). destruct (log_wf_spec _ _ _ Hl) as (_ & Hc & _ & Hst).
    rewrite load_all_snoc, Hm. cbn [mbind exec_bind]. unfold Recovery.load_record. cbn.
    cbn [roundtrips] in Hrt1. rewrite Hrt1. eexists. split_and!; [done|by apply bt_wf_insert|]. intros s.
    unfold recorded. rewrite find_commit_snoc, find_status_snoc.
    destruct (Z.eqb_spec next s) as [->|Hne].
    + rewrite bt_get_insert_eq. specialize (Hc s). specialize (Hst s ltac:(lia)). rewrite Hst.
      destruct (find_commit s l); [|done]. destruct Hc as [Hc _]. specialize (Hc ltac:(by eauto)). lia.
    + rewrite bt_get_insert_ne by done. rewrite Hget. unfold recorded.
      destruct (find_commit s l); [|done]. cbn. by destruct (find_status s l) as [[]|].
  - destruct IH as (m & Hm & Hwf & Hget). destruct (log_wf_spec _ _ _ Hl) as (_ & Hc & Hst & _).
    specialize (Hst s Hn). rewrite load_all_snoc, Hm. cbn [mbind exec_bind]. unfold Recovery.load_record. cbn.
    cbn [roundtrips] in Hrt1. rewrite Hrt1.
    assert (Hrec : ∀ s', recorded s' (l ++ [LogStatus q (mk_StatusRecord s b)]) =
      if s' =? s then (r ← find_commit s l; Some (if b : bool then RecoveryValidated r else RecoveryRejected)) else recorded s' l).
    { intros s'. unfold recorded. rewrite find_commit_snoc, find_status_snoc. destruct (Z.eqb_spec s' s) as [->|Hne'].
      - rewrite Hst, Z.eqb_refl. destruct (find_commit s l); [|done]. cbn. by destruct b.
      - rewrite (proj2 (Z.eqb_neq _ _)) by done. destruct (find_commit s' l); [|done]. cbn. by destruct (find_status s' l) as [[]|]. }
    destruct (Z.ltb_spec s start) as [Hlt|Hge].
    { eexists. split_and!; [done|done|]. intros s'. rewrite Hrec, Hget. destruct (Z.eqb_spec s' s) as [->|]; [|done].
      unfold recorded. destruct (find_commit s l) eqn:Ef; [|done]. destruct (Hc s) as [Hc' _]. rewrite Ef in Hc'.
      specialize (Hc' ltac:(by eauto)). lia. }
    destruct (proj2 (Hc s) ltac:(lia)) as [r Hr].
    assert (Hp : bt_get s m = Some (RecoveryPending r)) by (rewrite Hget; unfold recorded; by rewrite Hr, Hst).
    destruct b.
    + rewrite Hp. eexists. split_and!; [done|by apply bt_wf_insert, bt_wf_remove|]. intros s'. rewrite Hrec, Hr.
      destruct (Z.eqb_spec s' s) as [->|]; [by rewrite bt_get_insert_eq|].
      by rewrite bt_get_insert_ne, bt_get_remove_ne by done.
    + eexists. split_and!; [done|by apply bt_wf_insert|]. intros s'. rewrite Hrec, Hr.
      destruct (Z.eqb_spec s' s) as [->|]; [by rewrite bt_get_insert_eq|]. by rewrite bt_get_insert_ne by done.
Qed.

Lemma log_wf_head start l next :
  log_wf start l next → match l with [] => True | e :: _ => LogClient.entry_seq e = start end.
Proof.
  induction 1 as [|l next r Hl IH|l next q s b Hl IH Hne]; [done| |].
  - destruct Hl; [done|..]; by destruct l.
  - by destruct l.
Qed.

Lemma load_commit_data_ok start l next iter_from :
  0 ≤ start → log_wf start l next → Forall (roundtrips codec) l → Z.of_nat (length l) < 2 ^ 64 →
  iter_from start = Val ((λ e, inl (LogClient.raw_of codec e) : RawRecord + DErr) <$> l) →
  ∃ m, Recovery.load_commit_data_from (DErr:=DErr) codec start iter_from Recovery.usize_max = Val m ∧ bt_wf m ∧
    ∀ s, bt_get s m = recorded s l.
Proof.
  intros H0 Hl Hrt Hlen Hit. destruct (load_all_spec start l next H0 Hl Hrt) as (m & Hm & Hwf & Hget).
  exists m. split_and!; [|done|done]. unfold Recovery.load_commit_data_from. rewrite Hit. cbn [map_err mbind exec_bind].
  apply load_loop_all; [done|unfold Recovery.usize_max; simpl; lia|]. intros _. by eapply log_wf_head.
Qed.
End load.

(** Loading the commits of a log recovers exactly what the log says.  For a
    log whose commits are numbered consecutively from the start, whose statuses
    follow their commits, at most one each (statuses of commits before the start
    may be among them), the load succeeds and returns a sorted map that has, for
    each commit in the log and nothing else, the logged record as pending if no
    status was logged, as validated if its status is committed, and a rejection
    otherwise. *)
Lemma load_recovers_log {DErr BErr} (codec : Codec BErr) start l next iter_from :
  0 ≤ start → log_wf start l next → Forall (roundtrips codec) l → Z.of_nat (length l) < 2 ^ 64 →
  iter_from start = Val ((λ e, inl (LogClient.raw_of codec e) : RawRecord + DErr) <$> l) →
  ∃ m, Recovery.load_commit_data_from (DErr:=DErr) codec start iter_from Recovery.usize_max = Val m ∧ bt_wf m ∧
    (∀ s, bt_get s m = recorded s l) ∧ (∀ s, is_Some (bt_get s m) ↔ start ≤ s < next).
Proof.
  intros H0 Hl Hrt Hlen Hit. destruct (load_commit_data_ok codec start l next iter_from H0 Hl Hrt Hlen Hit) as (m & Hm & Hwf & Hget).
  exists m. split_and!; [done..|]. intros s. rewrite Hget. destruct (log_wf_spec _ _ _ Hl) as (_ & Hc & _).
  rewrite <-Hc. unfold recorded. destruct (find_commit s l); split; by intros [? ?].
Qed.
(** A codec for the records of the examples below. *)
Definition example_codec (r0 : CommitRecord) : Codec unit :=
  mk_Codec (λ _, []) (λ _, inl r0) (λ r, [sr_commit_record_sequence_number r; if sr_was_committed r then 1 else 0])
    (λ bs, match bs with [s; b] => inl (mk_StatusRecord s (b =? 1)) | _ => inr () end).
Lemma load_recovers_log_witness :
  let r := mk_CommitRecord OB.new 3 CommitData in
  let l := [LogCommit 5 r; LogStatus 5 (mk_StatusRecord 4 true); LogCommit 6 r; LogStatus 6 (mk_StatusRecord 5 false)] in
  ∃ m, Recovery.load_commit_data_from (DErr:=LogError) (example_codec r) 5
         (LogClient.iter_from (example_codec r) (mk_Log l 7)) Recovery.usize_max = Val m ∧
    bt_get 5 m = Some RecoveryRejected ∧ bt_get 6 m = Some (RecoveryPending r).
Proof.
  intros r l. destruct (load_recovers_log (example_codec r) 5 l 7 (LogClient.iter_from (example_codec r) (mk_Log l 7)))
    as (m & Hm & _ & Hget & _).
  - lia.
  - apply (log_wf_status 5 [LogCommit 5 r; LogStatus 5 (mk_StatusRecord 4 true); LogCommit 6 r] 7 6 5 false);
      [|discriminate|lia|intros q b Hin; set_unfold; naive_solver].
    apply (log_wf_commit 5 [LogCommit 5 r; LogStatus 5 (mk_StatusRecord 4 true)] 6 r).
    apply (log_wf_status 5 [LogCommit 5 r] 6 5 4 true); [|discriminate|lia|intros q b Hin; set_unfold; naive_solver].
    apply (log_wf_commit 5 [] 5 r). constructor.
  - repeat constructor.
  - simpl. lia.
  - reflexivity.
  - exists m. rewrite !Hget. split; [exact Hm|split; reflexivity].
Defined.

(** ** Runs of the engine over the log, one transaction after the other *)
Inductive reaches (ds : list KeyspaceDef) : Storage Log → Prop :=
| reaches_create st : Engine.create ds LogClient.new = Val st → reaches ds st
| reaches_commit st ct o snap st1 s st2 :
    reaches ds st → Engine.snapshot_watermark st + 1 < 2 ^ 55 → admissible o (st_keyspaces st) →
    Engine.open_snapshot_write st = Val (snap, st1) →
    Engine.snapshot_commit ct o (ws_open_sequence_number snap) st1 = Val (inl s, st2) →
    reaches ds st2.

(** The log, the recovered map and the batches of committed records numbered
    from [s] on. *)
Fixpoint log_of (s : Z) (rs : list CommitRecord) : list LogEntry :=
  match rs with
  | [] => []
  | r :: rs => LogCommit s r :: LogStatus s (mk_StatusRecord s true) :: log_of (s + 1) rs
  end.
Fixpoint validated_of (s : Z) (rs : list CommitRecord) : list (Z * RecoveryCommitStatus) :=
  match rs with [] => [] | r :: rs => (s, RecoveryValidated r) :: validated_of (s + 1) rs end.
Fixpoint batches_of (s : Z) (rs : list CommitRecord) : list (list (option (list WriteOp))) :=
  match rs with [] => [] | r :: rs => Batches.from_operations s (cr_operations r) :: batches_of (s + 1) rs end.

Lemma log_of_snoc s rs r :
  log_of s (rs ++ [r]) = (log_of s rs ++ [LogCommit (s + Z.of_nat (length rs)) r])
    ++ [LogStatus (s + Z.of_nat (length rs)) (mk_StatusRecord (s + Z.of_nat (length rs)) true)].
Proof.
  revert s. induction rs as [|x rs IH]; intros s; simpl; [by rewrite Z.add_0_r|]. rewrite IH.
  replace (s + 1 + Z.of_nat (length rs)) with (s + Z.of_nat (S (length rs))) by lia. done.
Qed.
Lemma batches_of_snoc s rs r :
  batches_of s (rs ++ [r]) = batches_of s rs ++ [Batches.from_operations (s + Z.of_nat (length rs)) (cr_operations r)].
Proof.
  revert s. induction rs as [|x rs IH]; intros s; simpl; [by rewrite Z.add_0_r|]. rewrite IH.
  by replace (s + 1 + Z.of_nat (length rs)) with (s + Z.of_nat (S (length rs))) by lia.
Qed.
Lemma length_log_of s rs : length (log_of s rs) = (2 * length rs)%nat.
Proof. revert s. induction rs as [|r rs IH]; intros s; simpl; [done|]. rewrite IH. lia. Qed.

Lemma log_of_status s rs q x : LogStatus q x ∈ log_of s rs → sr_commit_record_sequence_number x < s + Z.of_nat (length rs).
Proof.
  revert s. induction rs as [|r rs IH]; intros s; simpl; [by intros ?%not_elem_of_nil|].
  rewrite !elem_of_cons. intros [[=]|[[= -> ->]|Hin]]; [simpl; lia|]. apply IH in Hin. lia.
Qed.

Lemma log_of_wf s rs : log_wf s (log_of s rs) (s + Z.of_nat (length rs)).
Proof.
  induction rs as [|r rs IH] using rev_ind; [simpl; rewrite Z.add_0_r; constructor|].
  rewrite log_of_snoc, length_app. cbn [length].
  replace (s + Z.of_nat (length rs + 1)) with (s + Z.of_nat (length rs) + 1) by lia. constructor.
  - by constructor.
  - by destruct (log_of s rs).
  - lia.
  - intros q b [Hin|Hin%list_elem_of_singleton]%elem_of_app; [|done]. apply log_of_status in Hin. simpl in Hin. lia.
Qed.

Lemma validated_of_above s rs x : x ∈ validated_of s rs → s ≤ x.1.
Proof.
  revert s. induction rs as [|r rs IH]; intros s; simpl; [by intros ?%not_elem_of_nil|].
  intros [->|Hin]%elem_of_cons; [simpl; lia|]. apply IH in Hin. lia.
Qed.
Lemma validated_of_wf s rs : bt_wf (validated_of s rs).
Proof.
  revert s. induction rs as [|r rs IH]; intros s; constructor; [apply IH|]. apply Forall_forall.
  intros x Hx%validated_of_above. unfold bt_lt. simpl. apply Z.compare_lt_iff. lia.
Qed.
Lemma validated_of_recorded s rs q : bt_get q (validated_of s rs) = recorded q (log_of s rs).
Proof.
  revert s. induction rs as [|r rs IH]; intros s; [done|].
  cbn [validated_of log_of bt_get]. unfold recorded, find_commit, find_status. csimpl.
  destruct (Z.eqb_spec s q) as [->|Hne].
  - rewrite cmp_refl. done.
  - destruct (cmp q s) eqn:Ec; [apply cmp_eq in Ec; by subst|..]; apply IH.
Qed.
Lemma max_key_validated d s rs : Recovery.max_key d (validated_of s rs) = if decide (rs = []) then d else s + Z.of_nat (length rs) - 1.
Proof.
  unfold Recovery.max_key. revert s d. induction rs as [|r rs IH]; intros s d; [done|].
  rewrite decide_False by done. cbn [validated_of last length]. destruct rs as [|r' rs]; [simpl; lia|].
  specialize (IH (s + 1) d). rewrite decide_False in IH by done. cbn [validated_of] in IH |- *. 
  cbn [length] in *. cbn [last] in IH |- *. lia.
Qed.

Section replay.
Context {D DErr BErr : Type} `{Durability D DErr}.

Lemma apply_loop_validated s rs m (d : D) pending :
  tl_ok (im_timeline m) → base (im_timeline m) ≤ s → s + Z.of_nat (length rs) < 2 ^ 62 →
  (∀ q, s ≤ q → status (im_timeline m) q = StatusEmpty) →
  Recovery.apply_loop (BErr:=BErr) (validated_of s rs) m d pending = Val (inl (pending ++ batches_of s rs), d).
Proof.
  revert s m pending. induction rs as [|r rs IH]; intros s m pending Hok Hb Hlen He; simpl.
  { by rewrite app_nil_r. }
  simpl in Hlen.
  destruct (load_validated_spec s r m Hok ltac:(lia) (He s ltac:(lia))) as (m' & -> & Hok' & Hb' & Hst).
  cbn [Iso.run mbind exec_bind]. rewrite IH; [by rewrite <-app_assoc|done|lia|lia|].
  intros q Hq. rewrite Hst, bool_decide_eq_false_2 by lia. apply He. lia.
Qed.

Lemma apply_recovered_validated rs (d : D) k k' :
  1 + Z.of_nat (length rs) < 2 ^ 62 → Recovery.write_all (batches_of 1 rs) k = (Val (), k') →
  Recovery.apply_recovered (BErr:=BErr) (validated_of 1 rs) d k = Val (inl (), d, k').
Proof.
  intros Hlen Hw. destruct rs as [|r rs]; [by injection Hw as <-|].
  pose proof (apply_loop_validated 1 (r :: rs) (Iso.new 1) d []) as Ha.
  unfold Recovery.apply_recovered. cbn [validated_of] in Ha |- *. rewrite Ha.
  - cbn [mbind exec_bind]. change ([] ++ batches_of 1 (r :: rs)) with (batches_of 1 (r :: rs)). by rewrite Hw.
  - apply tl_ok_new. lia.
  - unfold base. simpl. lia.
  - lia.
  - intros q _. apply status_new. lia.
Qed.
End replay.

Lemma write_all_snoc writes b k k1 k2 :
  Recovery.write_all writes k = (Val (), k1) → KSS.write b k1 = (Val (), k2) →
  Recovery.write_all (writes ++ [b]) k = (Val (), k2).
Proof.
  revert k. induction writes as [|x writes IH]; intros k; simpl.
  - intros [= <-] ->. done.
  - destruct (KSS.write x k) as [[[]| |] k']; try done. apply IH.
Qed.

(** What a run leaves in the log and in the keyspaces. *)
Lemma reaches_spec ds st :
  Forall (λ d, 0 ≤ kd_id d) ds → reaches ds st →
  storage_ok st ∧ ∃ k0 rs, KSS.open ds = Val k0 ∧ Engine.snapshot_watermark st = Z.of_nat (length rs) ∧
    st_durability st = mk_Log (log_of 1 rs) (1 + Z.of_nat (length rs)) ∧
    Recovery.write_all (batches_of 1 rs) k0 = (Val (), st_keyspaces st).
Proof.
  intros Hds. induction 1 as [st Hc|st ct o snap st1 s st2 Hr (Hok & k0 & rs & Hopen & Hw & Hd & Hwr) Hwm Hadm Hop Hcm].
  - destruct (create_ok ds LogClient.new st Hds) as (Hok & Hw & _); [done|done|]. split; [done|].
    unfold Engine.create in Hc. destruct (KSS.open ds) as [k0| |]; cbn [map_err mbind exec_bind] in Hc; [|done..].
    injection Hc as <-. exists k0, []. done.
  - destruct (open_ok st Hok) as (st1' & Hop' & Hok1 & Hk1 & Hd1 & Hw1). rewrite Hop in Hop'. injection Hop' as -> <-.
    cbn [ws_open_sequence_number] in Hcm. rewrite <-Hw1 in Hcm, Hwm. rewrite <-Hk1 in Hadm.
    destruct (snapshot_commit_ok st1 ct o Hok1 Hwm Hadm) as (st2' & Hcm' & Hok2 & Hw2 & (r & d1 & Hseq & Hun & Hks) & _).
    rewrite Hcm in Hcm'. injection Hcm' as -> <-. split; [done|].
    rewrite Hw1, Hw in Hw2, Hseq, Hun, Hks. rewrite Hd1, Hd in Hseq. rewrite Hk1 in Hks.
    exists k0, (rs ++ [r]). rewrite length_app, log_of_snoc, batches_of_snoc. cbn [length]. split_and!.
    + done.
    + rewrite Hw2. lia.
    + pose proof (so_range st2 Hok2) as Hrg. rewrite Hw2 in Hrg. injection Hseq as _ <-. injection Hun as <-.
      cbn [lg_next lg_entries]. rewrite !u64_id by (unfold is_u64; rewrite ?u64_id by (unfold is_u64; lia); lia).
      replace (1 + Z.of_nat (length rs) + 1 - 1) with (1 + Z.of_nat (length rs)) by lia.
      replace (Z.of_nat (length rs) + 1) with (1 + Z.of_nat (length rs)) by lia. f_equal. lia.
    + eapply write_all_snoc; [exact Hwr|]. rewrite Z.add_comm. exact Hks.
Qed.

Lemma from_all n rs next : 0 ≤ n → LogClient.from n (mk_Log (log_of n rs) next) = log_of n rs.
Proof.
  intros Hn. unfold LogClient.from. cbn [lg_entries].
  assert (Hall : ∀ m, n ≤ m → List.filter (λ e, n <=? LogClient.entry_seq e) (log_of m rs) = log_of m rs); [|apply Hall; lia].
  induction rs as [|r rs IH]; intros m Hm; simpl; [done|].
  rewrite !(proj2 (Z.leb_le n m)) by lia. rewrite IH by lia. done.
Qed.

(** C3: recovery restores every committed transaction.  For a storage reached
    from an empty one by any sequence of transactions, one after the other, with
    the log as durability client: loading from the log alone (no checkpoint)
    succeeds, without waiting or panicking, and gives keyspaces identical to the
    lost ones, the same watermark, and a quiescent storage on which the next
    transaction behaves as before the crash.  The hypothesis on the codec is
    that the serialisation of the logged records round-trips. *)
Theorem recovery_restores_committed {BErr} (codec : Codec BErr) ds st :
  Forall (λ d, 0 ≤ kd_id d) ds → reaches ds st →
  let log := st_durability st in
  Forall (roundtrips codec) (lg_entries log) →
  ∃ st', Recovery.load codec ds (LogClient.iter_from codec log) log = Val (inl st', log) ∧
    st_keyspaces st' = st_keyspaces st ∧ st_durability st' = log ∧
    Engine.snapshot_watermark st' = Engine.snapshot_watermark st ∧ storage_ok st'.
Proof.
  intros Hds Hr log Hrt. destruct (reaches_spec ds st Hds Hr) as (Hok & k0 & rs & Hopen & Hw & Hd & Hwr).
  pose proof (so_range st Hok) as Hrg. rewrite Hw in Hrg.
  unfold Recovery.load. rewrite Hopen. change (SeqNr.next SeqNr.MIN) with 1.
  destruct (load_commit_data_ok codec 1 (log_of 1 rs) (1 + Z.of_nat (length rs)) (LogClient.iter_from codec log))
    as (m & -> & Hm & Hget); [lia|apply log_of_wf|unfold log in Hrt; by rewrite Hd in Hrt|rewrite length_log_of; lia| |].
  { unfold LogClient.iter_from, log. rewrite Hd, from_all by lia. done. }
  assert (m = validated_of 1 rs) as ->.
  { apply bt_ext; [done|apply validated_of_wf|]. intros q. by rewrite Hget, validated_of_recorded. }
  rewrite (apply_recovered_validated rs log k0 (st_keyspaces st)) by (done || lia). cbn [mbind exec_bind].
  rewrite max_key_validated. set (next := SeqNr.next _).
  assert (Hnext : next = 1 + Z.of_nat (length rs)).
  { unfold next. case_decide as Hnil; [by subst|]. rewrite seq_next_ok by lia. lia. }
  assert (Hwm : Iso.watermark (Iso.new next) = Z.of_nat (length rs)).
  { rewrite Hnext. unfold Iso.watermark, Iso.new, TL.new. cbn [im_timeline tl_watermark].
    rewrite u64_id by (unfold is_u64; lia). lia. }
  assert (He : ∀ q, status (im_timeline (Iso.new next)) q = StatusEmpty) by (intros q; apply status_new; lia).
  eexists. split; [done|]. split; [done|]. split; [done|]. unfold Engine.snapshot_watermark in *. cbn [st_isolation].
  split; [by rewrite Hwm|]. split; unfold Engine.snapshot_watermark; cbn [st_keyspaces st_durability st_isolation]; rewrite ?Hwm.
  - apply Hok.
  - intros id b Hid Hb. rewrite <-Hw. by apply (so_backend st Hok id b).
  - apply tl_ok_new. lia.
  - unfold log. rewrite Hd. cbn. lia.
  - rewrite Hnext. cbn. rewrite u64_id by (unfold is_u64; lia). lia.
  - intros q _. apply He.
  - intros q x Hx. by rewrite He in Hx.
  - lia.
Qed.
Lemma recovery_restores_committed_witness :
  let ds := [mk_KeyspaceDef 0 [97] None] in
  let o := mk_OperationsBuffer (mk_WriteBuffer 0 [([7], Insert [9])] :: drop 1 (ob_write_buffers OB.new)) [] in
  let codec := example_codec (mk_CommitRecord o 0 CommitData) in
  match Engine.create ds LogClient.new with
  | Val st0 => ∃ st1 st2 st', Engine.open_snapshot_write st0 = Val (mk_WriteSnapshot OB.new 0 (st_keyspaces st0), st1) ∧
      Engine.snapshot_commit CommitData o 0 st1 = Val (inl 1, st2) ∧
      Recovery.load codec ds (LogClient.iter_from codec (st_durability st2)) (st_durability st2)
        = Val (inl st', st_durability st2) ∧
      Snap.read_get (0, [7]) (mk_ReadSnapshot 1 (st_keyspaces st')) = Val (Some [9])
  | _ => False
  end.
Proof.
  intros ds o codec. destruct (Engine.create ds LogClient.new) as [st0| |] eqn:Ec; [|discriminate Ec..].
  assert (Hr0 := reaches_create ds st0 Ec). assert (Hds : Forall (λ d, 0 ≤ kd_id d) ds) by (repeat constructor; simpl; lia).
  injection Ec as <-. set (st0 := mk_Storage _ _ _) in *.
  destruct (Engine.open_snapshot_write st0) as [[snap st1]| |] eqn:Eop; [|vm_compute in Eop; discriminate..].
  destruct (Engine.snapshot_commit CommitData o (ws_open_sequence_number snap) st1) as [[[s|e] st2]| |] eqn:Ecm;
    [|vm_compute in Eop; injection Eop as <- <-; vm_compute in Ecm; discriminate..].
  assert (Hr2 : reaches ds st2).
  { refine (reaches_commit ds st0 CommitData o snap st1 s st2 Hr0 _ _ Eop Ecm).
    - change (0 + 1 < 2 ^ 55). lia.
    - split.
      + split_and!; [reflexivity| |constructor]. intros i b Hi.
        do 10 (destruct i as [|i]; [injection Hi as <-; split; [reflexivity|repeat constructor]|]). discriminate Hi.
      + intros [|i] wb Hi Hne.
        * injection Hi as <-. split; [repeat constructor; unfold is_byte; lia|].
          exists (Memory.new [97]). split; [reflexivity|]. intros x y c t Hx Hy. simpl in Hx, Hy. set_unfold. naive_solver.
        * exfalso. do 9 (destruct i as [|i]; [injection Hi as <-; by destruct Hne|]). discriminate Hi. }
  assert (Hrt : Forall (roundtrips codec) (lg_entries (st_durability st2))).
  { vm_compute in Eop. injection Eop as <- <-. vm_compute in Ecm. injection Ecm as <- <-. repeat constructor. }
  destruct (recovery_restores_committed codec ds st2 Hds Hr2 Hrt) as (st' & Hl & Hk & _).
  exists st1, st2, st'. rewrite Hl, Hk. vm_compute in Eop. injection Eop as <- <-. vm_compute in Ecm. injection Ecm as <- <-.
  repeat split; vm_compute; reflexivity.
Defined.

(** ** Concurrent transactions *)
(** A run with two concurrent transactions: a key is inserted and committed;
    two snapshots open; the first deletes the key, the second puts the value it
    sees; both commit. *)
Definition lost_put_ops (w : Write) : OperationsBuffer :=
  mk_OperationsBuffer (mk_WriteBuffer 0 [([7], w)] :: drop 1 (ob_write_buffers OB.new)) [].
Definition commit_or_spin (o : OperationsBuffer) (open : Z) (st : Storage Log) : exec spin (Storage Log) :=
  '(r, st) ← Engine.snapshot_commit CommitData o open st;
  match r with inl _ => Val st | inr _ => Panic end.
Definition lost_put_run : exec spin (Storage Log) :=
  match Engine.create [mk_KeyspaceDef 0 [97] None] LogClient.new with
  | Val st =>
      '(s0, st) ← Engine.open_snapshot_write st;
      st ← commit_or_spin (lost_put_ops (Insert [9])) (ws_open_sequence_number s0) st;
      '(s1, st) ← Engine.open_snapshot_write st;
      '(s2, st) ← Engine.open_snapshot_write st;
      st ← commit_or_spin (lost_put_ops Delete) (ws_open_sequence_number s1) st;
      commit_or_spin (lost_put_ops (Put [9] false false)) (ws_open_sequence_number s2) st
  | _ => Panic
  end.
(** The records as logged: the serialisation is indexed by the open number and
    the first write. *)
Definition lost_put_codec : Codec unit :=
  let code r := match ob_write_buffers (cr_operations r) with
                | b :: _ => match wb_writes b with
                            | (_, Insert _) :: _ => 0 | (_, Delete) :: _ => 1
                            | (_, Put _ false _) :: _ => 2 | (_, Put _ true _) :: _ => 3 | [] => 4 end
                | [] => 4 end in
  mk_Codec (λ r, [code r])
    (λ bs, match bs with
           | [0] => inl (mk_CommitRecord (lost_put_ops (Insert [9])) 0 CommitData)
           | [1] => inl (mk_CommitRecord (lost_put_ops Delete) 1 CommitData)
           | [2] => inl (mk_CommitRecord (lost_put_ops (Put [9] false false)) 1 CommitData)
           | [3] => inl (mk_CommitRecord (lost_put_ops (Put [9] true false)) 1 CommitData)
           | _ => inr () end)
    (serialise_status (example_codec (mk_CommitRecord OB.new 0 CommitData)))
    (deserialise_status (example_codec (mk_CommitRecord OB.new 0 CommitData))).

(** Recovery loses a put that validation re-inserted.  The commit record is
    logged before validation; when validation finds that a concurrent
    transaction deleted the key of a put, it sets the put's [reinsert] flag in
    memory only and the live storage gets the value.  Recovery of the committed
    record uses the logged flag and does not write the value: in a run with a
    delete and a concurrent put of the same key, both committed, the key is
    readable before the crash and missing after recovery from the same log,
    although every logged record round-trips. *)
Lemma recovery_loses_reinserted_put :
  match lost_put_run with
  | Val st =>
      Forall (roundtrips lost_put_codec) (lg_entries (st_durability st)) ∧
      Snap.read_get (0, [7]) (mk_ReadSnapshot 3 (st_keyspaces st)) = Val (Some [9]) ∧
      match Recovery.load lost_put_codec [mk_KeyspaceDef 0 [97] None]
              (LogClient.iter_from lost_put_codec (st_durability st)) (st_durability st) with
      | Val (inl st', _) => Engine.snapshot_watermark st' = 3 ∧
          Snap.read_get (0, [7]) (mk_ReadSnapshot 3 (st_keyspaces st')) = Val None
      | _ => False
      end
  | _ => False
  end.
Proof. vm_compute. split_and!; try reflexivity. repeat constructor. Qed.
