(* ===== verification/Wal.v ===== *)
(** * The write-ahead log's files: [durability/wal.rs]

    Records are appended to numbered files with a 17-byte header and an LZ4
    frame; reading walks the files from the one that holds a sequence number.
    The file system is a map from a file's number (its zero-padded name) to its
    contents; LZ4 is a parameter with its documented behaviour as hypotheses.
    Each [write_record] runs under the write lock, each iteration under the read
    lock, so the operations are modelled as atomic. *)
From Stdlib Require Import Sorting.Sorted.
From stdpp Require Import sets.
From S2P Require Import Prelude BTree Bytes MemoryStore Buffer LendingIter Mvcc Snapshot Dependency Timeline Isolation Keyspaces Storage Recovery.

Definition MAX_WAL_FILE_SIZE : Z := 16 * 1024 * 1024.

Inductive WalError := UnexpectedEof | Decompression.

Record RecordHeader := mk_RecordHeader {
  rh_sequence_number : Z;
  rh_len : Z;
  rh_record_type : Z;
}.

(** [File] with its path given by [start]. *)
Record File := mk_File { f_start : Z; f_len : Z }.
Record Files := mk_Files {
  fs_contents : list (Z * bytes);
  fs_files : list File;
}.
Record FileReader := mk_FileReader { fr_file : File; fr_contents : bytes; fr_pos : nat }.
Record RecordIterator := mk_RecordIterator {
  ri_files : Files;
  ri_current : nat;
  ri_reader : option FileReader;
}.

(** [WAL] without its sync thread. *)
Record WAL := mk_WAL { wal_next : Z; wal_files : Files }.

Module WalFiles.
Section wal.
Context (compress : bytes → bytes) (decompress : bytes → option bytes).

Definition write_header (h : RecordHeader) : bytes :=
  SeqNr.to_be_bytes (rh_sequence_number h) ++ be_bytes 8 (rh_len h) ++ [rh_record_type h].
Definition encode_record (r : RawRecord) : bytes :=
  let compressed_bytes := compress (rr_bytes r) in
  write_header (mk_RecordHeader (rr_sequence_number r) (u64 (Z.of_nat (length compressed_bytes))) (rr_record_type r))
    ++ compressed_bytes.

Definition contents (start : Z) (w : Files) : bytes :=
  match bt_get start (fs_contents w) with Some c => c | None => [] end.
(** [open_new_file_at]: the file is created by opening its writer; an existing
    file of that name keeps its contents. *)
Definition open_new_file_at (start : Z) (w : Files) : Files :=
  mk_Files (bt_insert start (contents start w) (fs_contents w))
    (fs_files w ++ [mk_File start (Z.of_nat (length (contents start w)))]).
(** Appending to the last file. *)
Definition append_last (bs : bytes) (w : Files) : Files :=
  match last (fs_files w) with
  | Some f =>
      let c := contents (f_start f) w ++ bs in
      mk_Files (bt_insert (f_start f) c (fs_contents w))
        (take (length (fs_files w) - 1) (fs_files w) ++ [mk_File (f_start f) (Z.of_nat (length c))])
  | None => w
  end.
Definition write_record (r : RawRecord) (w : Files) : Files :=
  let full := match last (fs_files w) with Some f => MAX_WAL_FILE_SIZE <=? f_len f | None => true end in
  append_last (encode_record r) (if full then open_new_file_at (rr_sequence_number r) w else w).

(** ** Reading one file *)
Definition open_reader (f : File) (w : Files) : FileReader := mk_FileReader f (contents (f_start f) w) 0.
Definition at_end (r : FileReader) : bool := Z.of_nat (fr_pos r) =? f_len (fr_file r).
Definition with_pos (n : nat) (r : FileReader) : FileReader := mk_FileReader (fr_file r) (fr_contents r) n.
(** [read_exact]. *)
Definition read_exact (n : nat) (r : FileReader) : exec WalError (bytes * FileReader) :=
  if (length (fr_contents r) <? fr_pos r + n)%nat then Err UnexpectedEof
  else Val (take n (drop (fr_pos r) (fr_contents r)), with_pos (fr_pos r + n) r).
Definition read_header (r : FileReader) : exec WalError (RecordHeader * FileReader) :=
  '(b, r) ← read_exact 8 r;
  sequence_number ← lift (SeqNr.from_be_bytes b);
  '(b, r) ← read_exact 8 r;
  let len := be_value b in
  '(b, r) ← read_exact 1 r;
  Val (mk_RecordHeader sequence_number len (nth 0 b 0), r).
Definition peek_sequence_number (r : FileReader) : exec WalError (option Z) :=
  if at_end r then Val None
  else '(b, _) ← read_exact 8 r; s ← lift (SeqNr.from_be_bytes b); Val (Some s).
Definition skip_one_record (r : FileReader) : exec WalError FileReader :=
  if at_end r then Val r
  else '(h, r) ← read_header r; Val (with_pos (fr_pos r + Z.to_nat (rh_len h)) r).
(** The decoder reads at most [len] bytes. *)
Definition read_one_record (r : FileReader) : exec WalError (option RawRecord * FileReader) :=
  if at_end r then Val (None, r)
  else
    '(h, r) ← read_header r;
    let chunk := take (Z.to_nat (rh_len h)) (drop (fr_pos r) (fr_contents r)) in
    match decompress chunk with
    | Some bs => Val (Some (mk_RawRecord (rh_sequence_number h) (rh_record_type h) bs),
                      with_pos (fr_pos r + length chunk) r)
    | None => Err Decompression
    end.

(** ** Iterating *)
(** The search loop of [RecordIterator::new] / [FileRecordIterator::new]; a
    file of [n] bytes has fewer than [n] records. *)
Fixpoint find_start (fuel : nat) (start current_start : Z) (r : FileReader) : exec WalError FileReader :=
  if current_start <? start then
    match fuel with
    | O => Panic
    | S fuel =>
        s ← peek_sequence_number r;
        match s with
        | None => Val r
        | Some s =>
            if s =? start then Val r
            else r ← skip_one_record r; find_start fuel start s r
        end
    end
  else Val r.
Definition fuel_for (r : FileReader) : nat := S (length (fr_contents r)).

(** [map_while(..).enumerate().last()]: the last of the leading files that
    start before [start]. *)
Fixpoint leading (start : Z) (files : list File) : list File :=
  match files with
  | f :: files => if f_start f <? start then f :: leading start files else []
  | [] => []
  end.
Definition new_iterator (start : Z) (w : Files) : exec WalError RecordIterator :=
  match fs_files w with
  | [] => Val (mk_RecordIterator w 0 None)
  | first :: _ =>
      let before := leading start (fs_files w) in
      let current := (length before - 1)%nat in
      let f := default first (last before) in
      reader ← find_start (fuel_for (open_reader f w)) start (f_start f) (open_reader f w);
      Val (mk_RecordIterator w current (Some reader))
  end.
Definition advance_file (it : RecordIterator) : option RecordIterator :=
  let current := S (ri_current it) in
  match fs_files (ri_files it) !! current with
  | Some f => Some (mk_RecordIterator (ri_files it) current (Some (open_reader f (ri_files it))))
  | None => None
  end.
(** [next]: an empty file is skipped; [fuel] bounds the files. *)
Fixpoint next (fuel : nat) (it : RecordIterator) : exec WalError (option RawRecord * RecordIterator) :=
  match ri_reader it with
  | None => Val (None, it)
  | Some reader =>
      '(rec, reader) ← read_one_record reader;
      match rec with
      | Some rec => Val (Some rec, mk_RecordIterator (ri_files it) (ri_current it) (Some reader))
      | None =>
          match advance_file it with
          | None => Val (None, mk_RecordIterator (ri_files it) (S (ri_current it)) None)
          | Some it => match fuel with O => Panic | S fuel => next fuel it end
          end
      end
  end.
Fixpoint collect (fuel rounds : nat) (it : RecordIterator) : exec WalError (list RawRecord) :=
  match rounds with
  | O => Panic
  | S rounds =>
      '(rec, it) ← next fuel it;
      match rec with
      | None => Val []
      | Some rec => rest ← collect fuel rounds it; Val (rec :: rest)
      end
  end.
(** [iter_any_from], run to its end. *)
Definition total_len (w : Files) : nat := sum_list_with (λ f, length (contents (f_start f) w)) (fs_files w).
Definition iter_any_from (start : Z) (w : Files) : exec WalError (list RawRecord) :=
  it ← new_iterator start w; collect (length (fs_files w)) (S (total_len w)) it.
Definition iter_type_from (start record_type : Z) (w : Files) : exec WalError (list RawRecord) :=
  l ← iter_any_from start w; Val (List.filter (λ r, rr_record_type r =? record_type) l).
(** [find_last_type]: the files from the newest, each read from its start
    ([FileRecordIterator] from the number 0). *)
Fixpoint file_records (fuel : nat) (r : FileReader) : exec WalError (list RawRecord) :=
  match fuel with
  | O => Panic
  | S fuel =>
      '(rec, r) ← read_one_record r;
      match rec with
      | None => Val []
      | Some rec => rest ← file_records fuel r; Val (rec :: rest)
      end
  end.
Definition file_iterator (f : File) (start : Z) (w : Files) : exec WalError FileReader :=
  let r := open_reader f w in find_start (fuel_for r) start (f_start f) r.
Fixpoint find_last_in (record_type : Z) (files : list File) (w : Files) : exec WalError (option RawRecord) :=
  match files with
  | [] => Val None
  | f :: files =>
      r ← file_iterator f SeqNr.MIN w;
      l ← file_records (fuel_for r) r;
      match last (List.filter (λ r, rr_record_type r =? record_type) l) with
      | Some r => Val (Some r)
      | None => find_last_in record_type files w
      end
  end.

(** ** The tail after a crash *)
(** [trim_corrupted_tail]: the position after the last record that reads back
    non-empty. *)
Fixpoint valid_prefix (fuel : nat) (last_successful_read_pos : nat) (r : FileReader) : option nat :=
  match fuel with
  | O => None
  | S fuel =>
      match read_one_record r with
      | Val (None, _) => None
      | Val (Some rec, r) =>
          match rr_bytes rec with
          | [] => Some last_successful_read_pos
          | _ => valid_prefix fuel (fr_pos r) r
          end
      | _ => Some last_successful_read_pos
      end
  end.
Definition trim_corrupted_tail (f : File) (w : Files) : File * Files :=
  let r := open_reader f w in
  match valid_prefix (fuel_for r) 0 r with
  | None => (f, w)
  | Some pos =>
      (mk_File (f_start f) (Z.of_nat pos),
       mk_Files (bt_insert (f_start f) (take pos (contents (f_start f) w)) (fs_contents w)) (fs_files w))
  end.

(** [Files::open] ([init_files_writer]) on a directory given as the map of its
    files: the zero-padded names sort like the numbers. *)
Definition open (directory : list (Z * bytes)) : Files :=
  let files := (λ '(start, c), mk_File start (Z.of_nat (length c))) <$> directory in
  match last files with
  | None => mk_Files directory files
  | Some f =>
      let '(f, w) := trim_corrupted_tail f (mk_Files directory files) in
      mk_Files (fs_contents w) (take (length files - 1) files ++ [f])
  end.

(** ** [WAL] *)
Definition next_number (start : Z) (w : Files) : exec WalError Z :=
  l ← iter_any_from start w;
  Val (match last l with Some r => SeqNr.next (rr_sequence_number r) | None => SeqNr.next SeqNr.MIN end).
Definition create : exec WalError WAL :=
  let w := open [] in next ← next_number SeqNr.MIN w; Val (mk_WAL next w).
(** [load]: the numbering goes on after the last record read from the start of
    the last file. *)
Definition load (directory : list (Z * bytes)) : exec WalError WAL :=
  let w := open directory in
  let start_seq_nr := foldr Z.max SeqNr.MIN (f_start <$> fs_files w) in
  next ← next_number start_seq_nr w;
  Val (mk_WAL next w).
Definition current (w : WAL) : Z := wal_next w.
Definition previous (w : WAL) : Z := u64 (wal_next w - 1).
Definition unsequenced_write (record_type : Z) (bs : bytes) (w : WAL) : WAL :=
  mk_WAL (wal_next w) (write_record (mk_RawRecord (previous w) record_type bs) (wal_files w)).
Definition sequenced_write (record_type : Z) (bs : bytes) (w : WAL) : Z * WAL :=
  let seq := wal_next w in
  (seq, mk_WAL (u64 (seq + 1)) (write_record (mk_RawRecord seq record_type bs) (wal_files w))).
Definition find_last_type (record_type : Z) (w : WAL) : exec WalError (option RawRecord) :=
  find_last_in record_type (rev (fs_files (wal_files w))) (wal_files w).
Definition reset (_ : WAL) : WAL := mk_WAL (SeqNr.next SeqNr.MIN) (open []).
End wal.
End WalFiles.

(** ** Reading back *)
Section wal_spec.
Context (compress : bytes → bytes) (decompress : bytes → option bytes).
Context (lz4_roundtrip : ∀ bs, decompress (compress bs) = Some bs).
Abbreviation enc := (WalFiles.encode_record compress).
Abbreviation seq_of := rr_sequence_number.

Record rec_ok (r : RawRecord) : Prop := {
  ro_seq : is_u64 (seq_of r);
  ro_len : Z.of_nat (length (compress (rr_bytes r))) < 2 ^ 64;
}.

Lemma length_enc r : length (enc r) = (17 + length (compress (rr_bytes r)))%nat.
Proof. unfold WalFiles.encode_record, WalFiles.write_header, SeqNr.to_be_bytes. rewrite !length_app, !length_be_bytes. simpl. lia. Qed.
Lemma concat_enc_cons x rs : concat (enc <$> x :: rs) = enc x ++ concat (enc <$> rs).
Proof. done. Qed.
Lemma length_encs rs : (length rs ≤ length (concat (enc <$> rs)))%nat.
Proof. induction rs as [|r rs IH]; [simpl; lia|]. rewrite concat_enc_cons, length_app, length_enc. simpl. lia. Qed.

(** A reader with the records [rs] ahead of it, then [torn], what a write cut
    short has left. *)
Definition positioned_torn (r : FileReader) (pre : bytes) (rs : list RawRecord) (torn : bytes) : Prop :=
  fr_contents r = pre ++ concat (enc <$> rs) ++ torn ∧ fr_pos r = length pre ∧
  f_len (fr_file r) = Z.of_nat (length (fr_contents r)) ∧ Forall rec_ok rs.
Abbreviation positioned r pre rs := (positioned_torn r pre rs []).

Lemma at_end_torn r pre torn : positioned_torn r pre [] torn → WalFiles.at_end r = bool_decide (torn = []).
Proof.
  intros (Hc & Hp & Hl & _). unfold WalFiles.at_end. rewrite Hl, Hc, Hp. csimpl. rewrite length_app.
  destruct torn as [|b torn]; [rewrite bool_decide_true by done; apply Z.eqb_eq; simpl; lia|].
  rewrite bool_decide_false by done. apply Z.eqb_neq. simpl. lia.
Qed.
Lemma positioned_end r pre : positioned r pre [] → WalFiles.at_end r = true.
Proof. apply at_end_torn. Qed.
Lemma positioned_not_end {torn} r pre x rs : positioned_torn r pre (x :: rs) torn → WalFiles.at_end r = false.
Proof.
  intros (Hc & Hp & Hl & _). unfold WalFiles.at_end. rewrite Hl, Hc, Hp, concat_enc_cons. apply Z.eqb_neq.
  rewrite !length_app, length_enc. lia.
Qed.

Lemma read_exact_app n (a b c : bytes) f :
  length b = n → WalFiles.read_exact n (mk_FileReader f (a ++ b ++ c) (length a)) =
    Val (b, mk_FileReader f (a ++ b ++ c) (length (a ++ b))).
Proof.
  intros <-. unfold WalFiles.read_exact, WalFiles.with_pos. cbn [fr_contents fr_pos fr_file].
  rewrite (proj2 (Nat.ltb_ge _ _)) by (rewrite !length_app; lia).
  by rewrite slice_app, length_app.
Qed.
Lemma read_exact_short n r :
  (length (fr_contents r) < fr_pos r + n)%nat → WalFiles.read_exact n r = Err UnexpectedEof.
Proof. intros H. unfold WalFiles.read_exact. by rewrite (proj2 (Nat.ltb_lt _ _)). Qed.

Lemma length_header h : length (WalFiles.write_header h) = 17%nat.
Proof. unfold WalFiles.write_header, SeqNr.to_be_bytes. rewrite !length_app, !length_be_bytes. done. Qed.
Lemma read_header_bytes f pre h tail :
  is_u64 (rh_sequence_number h) → is_u64 (rh_len h) →
  let c := pre ++ WalFiles.write_header h ++ tail in
  WalFiles.read_header (mk_FileReader f c (length pre)) = Val (h, mk_FileReader f c (length pre + 17)).
Proof.
  intros Hs Hl c. unfold WalFiles.read_header, c, WalFiles.write_header. rewrite <-!(app_assoc _ _ tail).
  set (sb := SeqNr.to_be_bytes (rh_sequence_number h)). set (lb := be_bytes 8 (rh_len h)).
  assert (Hsb : length sb = 8%nat) by apply length_be_bytes. assert (Hlb : length lb = 8%nat) by apply length_be_bytes.
  rewrite (read_exact_app 8 pre sb) by done. cbn [mbind exec_bind].
  unfold SeqNr.from_be_bytes. rewrite Hsb. cbn [Nat.eqb]. cbn [lift mbind exec_bind].
  rewrite (app_assoc pre sb), (read_exact_app 8 (pre ++ sb) lb) by done. cbn [mbind exec_bind].
  rewrite (app_assoc (pre ++ sb) lb), (read_exact_app 1 ((pre ++ sb) ++ lb) [rh_record_type h]) by done.
  cbn [mbind exec_bind nth]. unfold lb, sb, SeqNr.to_be_bytes. rewrite !be_value_be_bytes.
  change (256 ^ Z.of_nat 8) with (2 ^ 64). rewrite !Z.mod_small by done.
  destruct h. cbn [rh_sequence_number rh_len rh_record_type]. do 3 f_equal.
  rewrite !length_app, !length_be_bytes. unfold SeqNr.serialised_len. simpl. lia.
Qed.

Lemma read_exact_val n r b r' :
  WalFiles.read_exact n r = Val (b, r') →
  length b = n ∧ r' = WalFiles.with_pos (fr_pos r + n) r ∧ (fr_pos r + n ≤ length (fr_contents r))%nat.
Proof.
  unfold WalFiles.read_exact. destruct (Nat.ltb_spec (length (fr_contents r)) (fr_pos r + n)); [done|].
  intros [= <- <-]. rewrite length_take, length_drop. split_and!; [lia|done|lia].
Qed.
Lemma read_header_short r :
  (length (fr_contents r) < fr_pos r + 17)%nat → ∃ e, WalFiles.read_header r = Err e.
Proof.
  intros Hlen. unfold WalFiles.read_header.
  destruct (WalFiles.read_exact 8 r) as [[b r1]|e|] eqn:E1; [|by exists e|by unfold WalFiles.read_exact in E1; case_match].
  apply read_exact_val in E1 as (Hb & -> & _). cbn [mbind exec_bind]. unfold SeqNr.from_be_bytes. rewrite Hb.
  cbn [Nat.eqb lift mbind exec_bind]. change (8 =? SeqNr.serialised_len)%nat with true. cbn [lift mbind exec_bind].
  set (r1 := WalFiles.with_pos (fr_pos r + 8) r).
  destruct (WalFiles.read_exact 8 r1) as [[b2 r2]|e|] eqn:E2; [|by exists e|by unfold WalFiles.read_exact in E2; case_match].
  apply read_exact_val in E2 as (_ & -> & _). cbn [mbind exec_bind]. exists UnexpectedEof.
  rewrite read_exact_short; [done|]. cbn [fr_pos fr_contents WalFiles.with_pos r1]. lia.
Qed.

Definition header_of (x : RawRecord) : RecordHeader :=
  mk_RecordHeader (seq_of x) (Z.of_nat (length (compress (rr_bytes x)))) (rr_record_type x).
Lemma enc_header x : rec_ok x → enc x = WalFiles.write_header (header_of x) ++ compress (rr_bytes x).
Proof. intros [_ Hl]. unfold WalFiles.encode_record. rewrite u64_id by (unfold is_u64; lia). done. Qed.
Lemma read_header_at {torn} r pre x rs :
  positioned_torn r pre (x :: rs) torn →
  WalFiles.read_header r = Val (header_of x, mk_FileReader (fr_file r) (fr_contents r) (length pre + 17)) ∧
  drop (length pre + 17) (fr_contents r) = compress (rr_bytes x) ++ concat (enc <$> rs) ++ torn.
Proof.
  intros (Hc & Hp & _ & Hok). destruct r as [f c p]. cbn [fr_contents fr_pos fr_file] in *. subst p.
  inversion Hok as [|?? Hx _]; subst. pose proof Hx as [Hs Hl].
  rewrite concat_enc_cons, (enc_header x Hx), <-!app_assoc. split.
  - apply read_header_bytes; [exact Hs|unfold is_u64; cbn [rh_len header_of]; lia].
  - rewrite <-drop_drop, drop_app_length. by apply drop_app_length'.
Qed.

Lemma positioned_next {torn} r pre x rs :
  positioned_torn r pre (x :: rs) torn →
  positioned_torn (WalFiles.with_pos (length pre + 17 + length (compress (rr_bytes x)))
    (mk_FileReader (fr_file r) (fr_contents r) (length pre + 17))) (pre ++ enc x) rs torn.
Proof.
  intros (Hc & Hp & Hl & Hok). unfold positioned_torn. cbn [fr_contents fr_pos fr_file WalFiles.with_pos]. split_and!.
  - by rewrite Hc, concat_enc_cons, <-!app_assoc.
  - rewrite length_app, length_enc. lia.
  - done.
  - by inversion Hok.
Qed.
Lemma read_one_at {torn} r pre x rs :
  positioned_torn r pre (x :: rs) torn → ∃ r', WalFiles.read_one_record decompress r = Val (Some x, r') ∧
    positioned_torn r' (pre ++ enc x) rs torn ∧ fr_file r' = fr_file r.
Proof.
  intros Hpos. unfold WalFiles.read_one_record. destruct (read_header_at _ _ _ _ Hpos) as [Hh Hd].
  rewrite (positioned_not_end _ _ _ _ Hpos), Hh.
  cbn [mbind exec_bind rh_len rh_sequence_number rh_record_type header_of fr_pos fr_contents]. rewrite Nat2Z.id.
  rewrite Hd, take_app_length, lz4_roundtrip. eexists. split; [by destruct x|].
  split; [by apply positioned_next|done].
Qed.
Lemma skip_one_at {torn} r pre x rs :
  positioned_torn r pre (x :: rs) torn →
  ∃ r', WalFiles.skip_one_record r = Val r' ∧ positioned_torn r' (pre ++ enc x) rs torn.
Proof.
  intros Hpos. unfold WalFiles.skip_one_record. destruct (read_header_at _ _ _ _ Hpos) as [Hh _].
  rewrite (positioned_not_end _ _ _ _ Hpos), Hh.
  cbn [mbind exec_bind rh_len header_of fr_pos fr_contents]. rewrite Nat2Z.id. eexists. split; [done|].
  by apply positioned_next.
Qed.
Lemma peek_at r pre x rs :
  positioned r pre (x :: rs) → WalFiles.peek_sequence_number r = Val (Some (seq_of x)).
Proof.
  intros Hpos. unfold WalFiles.peek_sequence_number. rewrite (positioned_not_end _ _ _ _ Hpos).
  destruct (read_header_at _ _ _ _ Hpos) as [Hh _]. unfold WalFiles.read_header in Hh.
  destruct (WalFiles.read_exact 8 r) as [[b r1]| |]; cbn [mbind exec_bind] in Hh |- *; [|done..].
  destruct (lift (SeqNr.from_be_bytes b)) as [s| |]; cbn [mbind exec_bind] in Hh |- *; [|done..].
  destruct (WalFiles.read_exact 8 r1) as [[b2 r2]| |]; cbn [mbind exec_bind] in Hh; [|done..].
  destruct (WalFiles.read_exact 1 r2) as [[b3 r3]| |]; cbn [mbind exec_bind] in Hh; [|done..].
  by injection Hh as ->.
Qed.

(** Searching a file for the first record numbered [start]. *)
Lemma find_start_at fuel start cur r pre a b :
  positioned r pre (a ++ b) → (length a < fuel)%nat → cur < start → Forall (λ x, seq_of x < start) a →
  match b with [] => True | y :: _ => seq_of y = start end →
  ∃ r' pre', WalFiles.find_start fuel start cur r = Val r' ∧ positioned r' pre' b.
Proof.
  revert fuel cur r pre. induction a as [|x a IH]; intros fuel cur r pre Hpos Hf Hcur Ha Hb.
  - destruct fuel as [|fuel]; [simpl in Hf; lia|]. cbn [WalFiles.find_start]. rewrite (proj2 (Z.ltb_lt _ _)) by done.
    exists r, pre. split; [|done]. destruct b as [|y b].
    + unfold WalFiles.peek_sequence_number. by rewrite (positioned_end _ _ Hpos).
    + rewrite (peek_at _ _ _ _ Hpos). cbn [mbind exec_bind]. by rewrite Hb, Z.eqb_refl.
  - destruct fuel as [|fuel]; [simpl in Hf; lia|]. cbn [WalFiles.find_start]. rewrite (proj2 (Z.ltb_lt _ _)) by done.
    inversion Ha as [|?? Hx Ha']; subst. rewrite (peek_at _ _ _ _ Hpos). cbn [mbind exec_bind].
    rewrite (proj2 (Z.eqb_neq _ _)) by lia. destruct (skip_one_at _ _ _ _ Hpos) as (r' & -> & Hpos').
    cbn [mbind exec_bind]. apply (IH fuel _ r' (pre ++ enc x)); try done. simpl in Hf. lia.
Qed.

(** *** The files as groups of records *)
Definition file_ok (w : Files) (f : File) (g : list RawRecord) : Prop :=
  WalFiles.contents (f_start f) w = concat (enc <$> g) ∧
  f_len f = Z.of_nat (length (WalFiles.contents (f_start f) w)) ∧ Forall rec_ok g.
Definition wal_ok (w : Files) (groups : list (list RawRecord)) : Prop :=
  Forall2 (file_ok w) (fs_files w) groups.

Lemma open_reader_positioned w f g : file_ok w f g → positioned (WalFiles.open_reader f w) [] g.
Proof. intros (Hc & Hl & Hok). split_and!; [by rewrite app_nil_r|done..]. Qed.

Lemma next_spec w groups fuel cur reader pre rs :
  wal_ok w groups → positioned reader pre rs → (length (fs_files w) ≤ S cur + fuel)%nat →
  match rs ++ concat (drop (S cur) groups) with
  | [] => ∃ it, WalFiles.next decompress fuel (mk_RecordIterator w cur (Some reader)) = Val (None, it)
  | x :: tail => ∃ cur' reader' pre' rs',
      WalFiles.next decompress fuel (mk_RecordIterator w cur (Some reader)) =
        Val (Some x, mk_RecordIterator w cur' (Some reader')) ∧
      positioned reader' pre' rs' ∧ (cur ≤ cur')%nat ∧ rs' ++ concat (drop (S cur') groups) = tail
  end.
Proof.
  intros Hw. revert cur reader pre rs. induction fuel as [|fuel IH]; intros cur reader pre rs Hpos Hfuel.
  all: destruct rs as [|x rs]; cbn [app];
    [|destruct (read_one_at _ _ _ _ Hpos) as (r' & Hr & Hpos' & _); exists cur, r', (pre ++ enc x), rs;
      cbn [WalFiles.next ri_reader]; rewrite Hr; by split_and!].
  all: assert (Hread : WalFiles.read_one_record decompress reader = Val (None, reader))
    by (unfold WalFiles.read_one_record; by rewrite (positioned_end _ _ Hpos)).
  all: pose proof (Forall2_length _ _ _ Hw) as Hlen; cbn [WalFiles.next ri_reader]; rewrite Hread;
    cbn [mbind exec_bind]; unfold WalFiles.advance_file; cbn [ri_files ri_current].
  - rewrite (lookup_ge_None_2 (fs_files w)) by lia. rewrite drop_ge by lia. by eexists.
  - destruct (fs_files w !! S cur) as [f|] eqn:Ef; last first.
    { apply lookup_ge_None in Ef. rewrite drop_ge by lia. by eexists. }
    destruct (Forall2_lookup_l _ _ _ _ _ Hw Ef) as (g & Hg & Hfile).
    rewrite (drop_S groups g) by done. cbn [concat].
    specialize (IH (S cur) (WalFiles.open_reader f w) [] g (open_reader_positioned _ _ _ Hfile) ltac:(lia)).
    destruct (g ++ concat (drop (S (S cur)) groups)) as [|x tail]; [exact IH|].
    destruct IH as (c & r' & p' & rs' & H1 & H2 & H3 & H4). exists c, r', p', rs'. split_and!; [done|done|lia|done].
Qed.

Lemma collect_records_spec w groups fuel rounds cur reader pre rs :
  wal_ok w groups → positioned reader pre rs → (length (fs_files w) ≤ S cur + fuel)%nat →
  (length (rs ++ concat (drop (S cur) groups)) < rounds)%nat →
  WalFiles.collect decompress fuel rounds (mk_RecordIterator w cur (Some reader)) = Val (rs ++ concat (drop (S cur) groups)).
Proof.
  intros Hw. revert cur reader pre rs. induction rounds as [|rounds IH]; intros cur reader pre rs Hpos Hf Hr; [lia|].
  cbn [WalFiles.collect]. pose proof (next_spec w groups fuel cur reader pre rs Hw Hpos Hf) as Hn.
  destruct (rs ++ concat (drop (S cur) groups)) as [|x tail]; [by destruct Hn as [it ->]|].
  destruct Hn as (c & r' & p' & rs' & -> & Hpos' & Hle & Heq). cbn [mbind exec_bind].
  rewrite (IH c r' p' rs' Hpos'); [cbn [mbind exec_bind]; by rewrite Heq|lia|]. rewrite Heq. simpl in Hr. lia.
Qed.

Lemma total_len_records w groups : wal_ok w groups → (length (concat groups) ≤ WalFiles.total_len w)%nat.
Proof.
  intros Hw. unfold WalFiles.total_len. assert (Hall : ∀ files gs, Forall2 (file_ok w) files gs →
    (length (concat gs) ≤ sum_list_with (λ f, length (WalFiles.contents (f_start f) w)) files)%nat); [|by apply Hall].
  induction 1 as [|f g files gs (Hc & _ & _) _ IH]; simpl; [lia|].
  rewrite length_app. pose proof (length_encs g). rewrite Hc. lia.
Qed.

(** *** Starting in the middle *)
Definition ascending (rs : list RawRecord) : Prop := StronglySorted (λ a b, seq_of a ≤ seq_of b) rs.
(** Each file is named after its first record. *)
Definition named (f : File) (g : list RawRecord) : Prop := ∃ x t, g = x :: t ∧ f_start f = seq_of x.
Definition at_least (start : Z) (r : RawRecord) : bool := start <=? seq_of r.

Lemma filter_all start rs : Forall (λ r, start ≤ seq_of r) rs → List.filter (at_least start) rs = rs.
Proof. induction 1 as [|r rs Hr _ IH]; simpl; [done|]. unfold at_least at 1. by rewrite (proj2 (Z.leb_le _ _)), IH. Qed.
Lemma filter_none start rs : Forall (λ r, seq_of r < start) rs → List.filter (at_least start) rs = [].
Proof. induction 1 as [|r rs Hr _ IH]; simpl; [done|]. unfold at_least at 1. by rewrite (proj2 (Z.leb_gt _ _)). Qed.
Lemma ascending_split start rs :
  ascending rs → ∃ a b, rs = a ++ b ∧ Forall (λ r, seq_of r < start) a ∧ List.filter (at_least start) rs = b.
Proof.
  induction 1 as [|r rs Hrs (a & b & -> & Ha & Hf) Hr]; [by exists [], []|].
  destruct (decide (seq_of r < start)) as [Hlt|Hge].
  - exists (r :: a), b. split_and!; [done|by constructor|]. simpl. unfold at_least at 1. by rewrite (proj2 (Z.leb_gt _ _)).
  - exists [], (r :: a ++ b). split_and!; [done|constructor|]. apply filter_all. constructor; [lia|].
    eapply Forall_impl; [exact Hr|]. simpl. lia.
Qed.
Lemma ascending_app a b : ascending (a ++ b) → ascending a ∧ ascending b ∧ ∀ x y, x ∈ a → y ∈ b → seq_of x ≤ seq_of y.
Proof.
  induction a as [|r a IH]; simpl; [intros H; split_and!; [constructor|done|by intros ? ? ?%not_elem_of_nil]|].
  inversion 1 as [|?? Hs Hf]; subst. destruct (IH Hs) as (Ha & Hb & Hab). split_and!; [|done|].
  - constructor; [done|]. by apply Forall_app in Hf as [? _].
  - intros x y [->|Hx]%elem_of_cons Hy; [|by apply Hab]. rewrite Forall_forall in Hf. apply Hf, elem_of_app. by right.
Qed.

(** The files before the one where the search starts hold older records only,
    the files after it none older than [start]. *)
Lemma leading_spec start w files groups :
  Forall2 (λ f g, file_ok w f g ∧ named f g) files groups → ascending (concat groups) →
  let n := length (WalFiles.leading start files) in
  WalFiles.leading start files = take n files ∧ Forall (λ r, start ≤ seq_of r) (concat (drop n groups)) ∧
  ∀ i f g, (i < n)%nat → files !! i = Some f → groups !! i = Some g → f_start f < start ∧
    Forall (λ r, seq_of r < start) (concat (take i groups)).
Proof.
  intros Hall. induction Hall as [|f g files groups [_ (x & t & -> & Hf)] Hrest IH]; intros Hasc; simpl.
  { split_and!; [done|constructor|]. lia. }
  change (concat ((x :: t) :: groups)) with ((x :: t) ++ concat groups) in Hasc.
  destruct (ascending_app _ _ Hasc) as (Ha & Hb & Hab). specialize (IH Hb) as (IH1 & IH2 & IH3).
  destruct (Z.ltb_spec (f_start f) start) as [Hlt|Hge]; simpl.
  - split_and!; [by rewrite <-IH1|done|]. intros [|i] f' g' Hi Hf' Hg'; [by injection Hf' as <-|].
    destruct (IH3 i f' g' ltac:(lia) Hf' Hg') as [Hs Ho]. split; [done|]. change (Forall (λ r, seq_of r < start) ((x :: t) ++ concat (take i groups))).
    apply Forall_app. split; [|done].
    destruct (Forall2_lookup_lr _ _ _ _ _ _ Hrest Hf' Hg') as [_ (y & t' & -> & Hy)].
    apply Forall_forall. intros z Hz. assert (seq_of z ≤ seq_of y); [|lia]. apply Hab; [done|].
    change (groups !! i = Some (y :: t')) in Hg'. apply list_elem_of_lookup_2, list_elem_of_In in Hg'. apply list_elem_of_In, in_concat. exists (y :: t').
    split; [exact Hg'|by left].
  - split_and!; [done| |lia]. change (Forall (λ r, start ≤ seq_of r) ((x :: t) ++ concat groups)).
    apply Forall_forall. intros z Hz. simpl in Hz. apply elem_of_cons in Hz as [->|Hz]; [lia|].
    inversion Hasc as [|?? _ Hfx]; subst. rewrite Forall_forall in Hfx. specialize (Hfx z Hz). lia.
Qed.

Lemma concat_split (groups : list (list RawRecord)) i g :
  groups !! i = Some g → concat groups = concat (take i groups) ++ g ++ concat (drop (S i) groups).
Proof.
  intros Hi. rewrite <-(take_drop_middle groups i g Hi) at 1. rewrite concat_app. done.
Qed.

(** Iteration from [start]: what the log holds from [start] on, when [start] is
    in the log, after it, or before it. *)
Lemma iter_from_spec w groups start :
  Forall2 (λ f g, file_ok w f g ∧ named f g) (fs_files w) groups → ascending (concat groups) →
  (start ∈ seq_of <$> concat groups) ∨ Forall (λ r, seq_of r < start) (concat groups) ∨
    Forall (λ r, start ≤ seq_of r) (concat groups) →
  WalFiles.iter_any_from decompress start w = Val (List.filter (at_least start) (concat groups)).
Proof.
  intros Hall Hasc Hstart.
  assert (Hw : wal_ok w groups) by (eapply Forall2_impl; [exact Hall|]; by intros ?? [? _]).
  pose proof (total_len_records w groups Hw) as Htot. pose proof (Forall2_length _ _ _ Hall) as Hlen.
  unfold WalFiles.iter_any_from, WalFiles.new_iterator.
  destruct (fs_files w) as [|first files] eqn:Efiles; [by destruct groups|]. rewrite <-Efiles in *.
  destruct (leading_spec start w (fs_files w) groups Hall Hasc) as (Htake & Hafter & Hbefore).
  set (n := length (WalFiles.leading start (fs_files w))) in *.
  destruct (decide (n = 0%nat)) as [Hn|Hn].
  - rewrite Hn in Htake, Hafter |- *. rewrite drop_0 in Hafter. rewrite Htake. cbn [take last default Nat.sub].
    destruct groups as [|g groups]; [rewrite Efiles in Hlen; done|]. rewrite Efiles in Hall.
    inversion Hall as [|???? [Hfile (x & t & -> & Hx)] _]; subst.
    change (default first (last (take 0 (fs_files w)))) with first.
    assert (start ≤ f_start first) by (rewrite Hx; rewrite Forall_forall in Hafter; apply Hafter; left).
    assert (WalFiles.find_start (WalFiles.fuel_for (WalFiles.open_reader first w)) start (f_start first) (WalFiles.open_reader first w)
      = Val (WalFiles.open_reader first w)) as ->.
    { unfold WalFiles.fuel_for. cbn [WalFiles.find_start]. by rewrite (proj2 (Z.ltb_ge _ _)). }
    cbn [mbind exec_bind]. rewrite (filter_all start) by done. 
    rewrite (collect_records_spec w ((x :: t) :: groups) _ _ 0 (WalFiles.open_reader first w) [] (x :: t));
      [done|done|by apply open_reader_positioned|lia|]. 
    change ((x :: t) ++ concat (drop 1 ((x :: t) :: groups))) with (concat ((x :: t) :: groups)). lia.
  - assert (Hc : (n - 1 < length (fs_files w))%nat).
    { pose proof (f_equal length Htake) as Hl. rewrite length_take in Hl. fold n in Hl. lia. }
    destruct (lookup_lt_is_Some_2 _ _ Hc) as [f Hf]. destruct (Forall2_lookup_l _ _ _ _ _ Hall Hf) as (g & Hg & Hfile & (x & t & Hgx & Hfx)).
    assert (Hlast : last (WalFiles.leading start (fs_files w)) = Some f).
    { rewrite last_lookup. fold n. rewrite Htake, lookup_take_lt by lia. replace (Nat.pred n) with (n - 1)%nat by lia. done. }
    rewrite Hlast. change (default first (Some f)) with f. destruct (Hbefore (n - 1)%nat f g ltac:(lia) Hf Hg) as [Hlt Hold].
    rewrite (concat_split groups (n - 1) g Hg) in Hasc |- *. replace (S (n - 1)) with n in * by lia.
    destruct (ascending_app _ _ Hasc) as (_ & Hasc2 & _). destruct (ascending_app _ _ Hasc2) as (Hascg & _ & Hgd).
    destruct (ascending_split start g Hascg) as (a & b & Hgab & Ha & Hfb).
    destruct (find_start_at (WalFiles.fuel_for (WalFiles.open_reader f w)) start (f_start f) (WalFiles.open_reader f w) [] a b)
      as (r' & pre' & -> & Hpos).
    + rewrite <-Hgab. by apply open_reader_positioned.
    + unfold WalFiles.fuel_for. cbn [WalFiles.open_reader fr_contents]. destruct Hfile as (-> & _ & _).
      pose proof (length_encs g) as Hle. rewrite Hgab, length_app in Hle at 1. lia.
    + done.
    + done.
    + destruct b as [|y b]; [done|].
      assert (Hy : start ≤ seq_of y).
      { assert (y ∈ List.filter (at_least start) g) as Hin by (rewrite Hfb; left).
        apply list_elem_of_In, filter_In in Hin as [_ Hin]. unfold at_least in Hin. by apply Z.leb_le. }
      assert (Hyin : y ∈ concat groups).
      { rewrite (concat_split groups (n - 1) g Hg). rewrite !elem_of_app. right. left. rewrite Hgab, elem_of_app. right. left. }
      rewrite Forall_forall in Hold.
      destruct Hstart as [(z & Hz & Hzin)%list_elem_of_fmap|[Hlts|Hges]].
      * rewrite (concat_split groups (n - 1) g Hg) in Hzin. replace (S (n - 1)) with n in Hzin by lia.
        rewrite !elem_of_app in Hzin. destruct Hzin as [Hzo|[Hzg|Hzd]].
        -- specialize (Hold z Hzo). lia.
        -- rewrite Hgab in Hzg. apply elem_of_app in Hzg as [Hza|Hzb].
           { rewrite Forall_forall in Ha. specialize (Ha z Hza). lia. }
           rewrite Hgab in Hascg. destruct (ascending_app _ _ Hascg) as (_ & Hascb & _).
           apply elem_of_cons in Hzb as [->|Hzb]; [done|]. inversion Hascb as [|?? _ Hyb]; subst.
           rewrite Forall_forall in Hyb. specialize (Hyb z Hzb). lia.
        -- assert (seq_of y ≤ seq_of z); [|lia]. apply Hgd; [|done]. rewrite Hgab, elem_of_app. right. left.
      * rewrite Forall_forall in Hlts. specialize (Hlts y Hyin). lia.
      * rewrite Forall_forall in Hges. assert (x ∈ concat groups) as Hxin.
        { rewrite (concat_split groups (n - 1) g Hg), Hgx. rewrite !elem_of_app. right. left. left. }
        specialize (Hges x Hxin). lia.
    + cbn [mbind exec_bind]. rewrite !List.filter_app, (filter_none start _ Hold), (filter_all start _ Hafter), Hfb, app_nil_l.
      rewrite (collect_records_spec w groups _ _ (n - 1) r' pre' b Hw Hpos); replace (S (n - 1)) with n by lia; [done|lia|].
      rewrite (concat_split groups (n - 1) g Hg), Hgab in Htot. replace (S (n - 1)) with n in Htot by lia.
      rewrite !length_app in *. lia.
Qed.

(** ** Writing *)
(** The files of a log cut into [groups], each named after its first record. *)
Definition name_of (g : list RawRecord) : Z := match g with x :: _ => seq_of x | [] => 0 end.
Definition bytes_of (g : list RawRecord) : bytes := concat (enc <$> g).
Definition file_of (g : list RawRecord) : File := mk_File (name_of g) (Z.of_nat (length (bytes_of g))).
Definition directory_of (groups : list (list RawRecord)) : list (Z * bytes) :=
  (λ g, (name_of g, bytes_of g)) <$> groups.
Definition files_of (groups : list (list RawRecord)) : Files := mk_Files (directory_of groups) (file_of <$> groups).

Record groups_ok (groups : list (list RawRecord)) : Prop := {
  go_names : bt_wf (directory_of groups);
  go_nonempty : Forall (λ g, g ≠ []) groups;
  go_ascending : ascending (concat groups);
  go_records : Forall rec_ok (concat groups);
}.

Lemma bt_insert_last {V} (k : Z) (v v0 : V) m :
  Forall (λ kv, kv.1 < k) m → bt_insert k v (m ++ [(k, v0)]) = m ++ [(k, v)].
Proof.
  induction 1 as [|[k' v'] m Hlt _ IH]; cbn [app bt_insert]; [by rewrite cmp_refl|].
  rewrite (proj2 (cmp_gt_lt k k')) by (by apply Z.compare_lt_iff). by rewrite IH.
Qed.
Lemma directory_app gs g : directory_of (gs ++ [g]) = directory_of gs ++ [(name_of g, bytes_of g)].
Proof. unfold directory_of. by rewrite fmap_app. Qed.
Lemma names_before gs g :
  bt_wf (directory_of (gs ++ [g])) → Forall (λ kv : Z * bytes, kv.1 < name_of g) (directory_of gs).
Proof.
  rewrite directory_app. intros (_ & _ & Hall)%bt_wf_app_inv. eapply Forall_impl; [exact Hall|].
  intros kv Hkv. inversion Hkv as [|?? Hlt _]; subst. by apply Z.compare_lt_iff in Hlt.
Qed.
Lemma contents_of g groups :
  bt_wf (directory_of groups) → g ∈ groups → WalFiles.contents (name_of g) (files_of groups) = bytes_of g.
Proof.
  intros Hwf Hg. unfold WalFiles.contents. cbn [files_of fs_contents].
  assert (bt_get (name_of g) (directory_of groups) = Some (bytes_of g)) as ->; [|done].
  apply bt_get_elem; [done|]. by apply (list_elem_of_fmap_2 (λ g, (name_of g, bytes_of g))).
Qed.

Lemma bytes_of_snoc g r : bytes_of (g ++ [r]) = bytes_of g ++ enc r.
Proof. unfold bytes_of. rewrite fmap_app, concat_app. simpl. by rewrite app_nil_r. Qed.
Lemma last_files gs g : last (file_of <$> gs ++ [g]) = Some (file_of g).
Proof. rewrite fmap_app. apply last_snoc. Qed.
Lemma butlast_files gs g : take (length (file_of <$> gs ++ [g]) - 1) (file_of <$> gs ++ [g]) = file_of <$> gs.
Proof.
  rewrite fmap_app, length_app. cbn [length fmap list_fmap]. rewrite Nat.add_sub. by rewrite take_app_length.
Qed.

Definition full (g : list RawRecord) : bool := MAX_WAL_FILE_SIZE <=? Z.of_nat (length (bytes_of g)).

Lemma append_to_last gs g r :
  bt_wf (directory_of (gs ++ [g])) → g ≠ [] →
  WalFiles.append_last (enc r) (files_of (gs ++ [g])) = files_of (gs ++ [g ++ [r]]).
Proof.
  intros Hwf Hg. unfold WalFiles.append_last. cbn [files_of fs_files]. rewrite last_files.
  cbn [f_start file_of]. rewrite (contents_of g) by (done || set_solver).
  rewrite butlast_files. cbn [files_of fs_contents]. rewrite directory_app, bt_insert_last by (by apply names_before).
  rewrite <-bytes_of_snoc. assert (Hname : name_of g = name_of (g ++ [r])) by (by destruct g).
  unfold files_of. by rewrite directory_app, fmap_app, Hname.
Qed.

Lemma write_appends gs g r :
  groups_ok (gs ++ [g]) → full g = false →
  WalFiles.write_record compress r (files_of (gs ++ [g])) = files_of (gs ++ [g ++ [r]]).
Proof.
  intros [Hwf Hne _ _] Hf. unfold WalFiles.write_record. cbn [files_of fs_files]. rewrite last_files.
  cbn [f_len file_of]. fold (full g). rewrite Hf. apply append_to_last; [done|].
  apply Forall_app in Hne as [_ Hne]. by inversion Hne.
Qed.
Lemma contents_new groups s :
  bt_wf (directory_of groups) → Forall (λ kv : Z * bytes, kv.1 < s) (directory_of groups) →
  WalFiles.contents s (files_of groups) = [].
Proof.
  intros Hwf Hdir. unfold WalFiles.contents. cbn [files_of fs_contents].
  destruct (bt_get s (directory_of groups)) as [c|] eqn:E; [|done].
  apply bt_get_elem in E; [|done]. rewrite Forall_forall in Hdir. specialize (Hdir _ E). simpl in Hdir. lia.
Qed.
Lemma write_opens groups r :
  groups_ok groups → Forall (λ g, name_of g < seq_of r) groups →
  match last groups with Some g => full g = true | None => True end →
  WalFiles.write_record compress r (files_of groups) = files_of (groups ++ [[r]]).
Proof.
  intros [Hwf _ _ _] Hlt Hf. unfold WalFiles.write_record. cbn [files_of fs_files].
  assert (match last (file_of <$> groups) with
          | Some f => MAX_WAL_FILE_SIZE <=? f_len f | None => true end = true) as ->.
  { rewrite fmap_last. destruct (last groups); [exact Hf|done]. }
  assert (Hdir : Forall (λ kv : Z * bytes, kv.1 < seq_of r) (directory_of groups))
    by (apply Forall_fmap; exact Hlt).
  assert (Hnone : WalFiles.contents (seq_of r) (files_of groups) = []) by (by apply contents_new).
  unfold WalFiles.open_new_file_at. rewrite Hnone. cbn [files_of fs_contents fs_files length].
  rewrite bt_insert_max by (eapply Forall_impl; [exact Hdir|]; intros kv ?; by apply Z.compare_lt_iff).
  unfold WalFiles.append_last. cbn [fs_files]. rewrite last_snoc. cbn [f_start].
  assert (WalFiles.contents (seq_of r) (mk_Files (directory_of groups ++ [(seq_of r, [])])
    ((file_of <$> groups) ++ [mk_File (seq_of r) (Z.of_nat 0)])) = []) as ->.
  { unfold WalFiles.contents. cbn [fs_contents]. rewrite <-bt_insert_max
      by (eapply Forall_impl; [exact Hdir|]; intros kv ?; by apply Z.compare_lt_iff). by rewrite bt_get_insert_eq. }
  cbn [fs_contents app]. rewrite bt_insert_last by done. rewrite length_app. cbn [length]. rewrite Nat.add_sub, take_app_length.
  unfold files_of. rewrite directory_app, fmap_app. cbn [fmap list_fmap name_of file_of].
  assert (bytes_of [r] = enc r) as Hb by (unfold bytes_of; simpl; by rewrite app_nil_r).
  unfold file_of. by rewrite Hb.
Qed.

Lemma ascending_snoc rs r : ascending rs → Forall (λ x, seq_of x ≤ seq_of r) rs → ascending (rs ++ [r]).
Proof.
  induction 1 as [|x rs Hs IH Hx]; intros Hall; simpl; [by repeat constructor|].
  inversion Hall; subst. constructor; [by apply IH|]. apply Forall_app. split; [done|by constructor].
Qed.
Lemma bt_wf_snoc_key {V} (k : Z) (v v' : V) m : bt_wf (m ++ [(k, v)]) → bt_wf (m ++ [(k, v')]).
Proof.
  intros Hwf. rewrite <-(bt_insert_last k v' v m); [by apply bt_wf_insert|].
  destruct (bt_wf_app_inv _ _ Hwf) as (_ & _ & Hall). eapply Forall_impl; [exact Hall|].
  intros kv Hkv. inversion Hkv as [|?? Hlt _]; subst. by apply Z.compare_lt_iff in Hlt.
Qed.

Lemma write_record_spec groups r :
  groups_ok groups → rec_ok r → Forall (λ x, seq_of x ≤ seq_of r) (concat groups) →
  (∀ g, last groups = Some g → full g = true → name_of g < seq_of r) →
  ∃ groups', WalFiles.write_record compress r (files_of groups) = files_of groups' ∧ groups_ok groups' ∧
    concat groups' = concat groups ++ [r].
Proof.
  intros Hok Hr Hle Hroom.
  assert (Hasc : ascending (concat groups ++ [r])) by (apply ascending_snoc; [apply Hok|done]).
  assert (Hrec : Forall rec_ok (concat groups ++ [r])) by (apply Forall_app; split; [apply Hok|by constructor]).
  assert (Hnew : concat (groups ++ [[r]]) = concat groups ++ [r]) by (by rewrite concat_app).
  destruct groups as [|g gs _] using rev_ind.
  { exists [[r]]. split_and!; [by apply (write_opens [])|split; try done; repeat constructor; done|done]. }
  destruct (full g) eqn:Ef.
  - exists ((gs ++ [g]) ++ [[r]]).
    assert (Hg : name_of g < seq_of r) by (apply Hroom; [apply last_snoc|done]).
    assert (Hlt : Forall (λ g, name_of g < seq_of r) (gs ++ [g])).
    { apply Forall_app. split; [|by constructor]. pose proof (names_before gs g (go_names _ Hok)) as Hb.
      unfold directory_of in Hb. rewrite Forall_fmap in Hb. eapply Forall_impl; [exact Hb|]. simpl. lia. }
    split_and!; [apply write_opens; [done|done|by rewrite last_snoc]| |done].
    split; rewrite ?Hnew; [|apply Forall_app; split; [apply Hok|by constructor]|done..].
    rewrite directory_app, <-bt_insert_max; [apply bt_wf_insert, Hok|].
    apply Forall_fmap. eapply Forall_impl; [exact Hlt|]. intros g' Hg'. by apply Z.compare_lt_iff.
  - assert (Hcat : concat (gs ++ [g ++ [r]]) = concat (gs ++ [g]) ++ [r]).
    { rewrite !concat_app. cbn [concat]. by rewrite !app_nil_r, app_assoc. }
    exists (gs ++ [g ++ [r]]). split_and!; [by apply write_appends| |done].
    destruct Hok as [Hwf Hne _ _]. apply Forall_app in Hne as [Hne Hneg]. rewrite Forall_singleton in Hneg.
    split; rewrite ?Hcat; [|apply Forall_app; split; [done|]; constructor; [by destruct g|done]|done..].
    assert (Hname : name_of g = name_of (g ++ [r])) by (by destruct g).
    rewrite directory_app, <-Hname. rewrite directory_app in Hwf. by eapply bt_wf_snoc_key.
Qed.

Lemma files_of_spec groups :
  groups_ok groups → Forall2 (λ f g, file_ok (files_of groups) f g ∧ named f g) (fs_files (files_of groups)) groups.
Proof.
  intros [Hwf Hne _ Hrec]. cbn [files_of fs_files]. apply Forall2_fmap_l, Forall_Forall2_diag, Forall_forall.
  intros g Hg. split.
  - split_and!; cbn [f_start f_len file_of]; rewrite ?(contents_of g) by done; [done..|].
    rewrite Forall_forall in Hrec |- *. intros x Hx. apply Hrec. apply list_elem_of_In, in_concat.
    exists g. by rewrite <-!list_elem_of_In.
  - rewrite Forall_forall in Hne. specialize (Hne g Hg). destruct g as [|x t]; [done|]. by exists x, t.
Qed.

(** *** The last record of a type *)
Definition of_type (record_type : Z) (r : RawRecord) : bool := rr_record_type r =? record_type.
Lemma file_records_spec fuel r pre rs :
  positioned r pre rs → (length rs < fuel)%nat → WalFiles.file_records decompress fuel r = Val rs.
Proof.
  revert fuel r pre. induction rs as [|x rs IH]; intros [|fuel] r pre Hpos Hf; [simpl in Hf; lia| |simpl in Hf; lia|].
  - cbn [WalFiles.file_records]. unfold WalFiles.read_one_record. by rewrite (positioned_end _ _ Hpos).
  - cbn [WalFiles.file_records]. destruct (read_one_at _ _ _ _ Hpos) as (r' & -> & Hpos' & _).
    cbn [mbind exec_bind]. rewrite (IH fuel r' _ Hpos'); [done|]. simpl in Hf. lia.
Qed.
Lemma find_last_spec w record_type files groups :
  Forall2 (λ f g, file_ok w f g ∧ named f g) files groups →
  WalFiles.find_last_in decompress record_type (rev files) w = Val (last (List.filter (of_type record_type) (concat groups))).
Proof.
  revert groups. induction files as [|f files IH] using rev_ind; intros groups Hall.
  { inversion Hall; subst. done. }
  apply Forall2_app_inv_l in Hall as (gs & gl & Hgs & Hgl & ->).
  inversion Hgl as [|? g ?? [Hf (x & t & -> & Hx)] Hnil]; subst. inversion Hnil; subst.
  rewrite rev_unit. cbn [WalFiles.find_last_in]. pose proof (open_reader_positioned _ _ _ Hf) as Hpos.
  assert (Hit : WalFiles.file_iterator f SeqNr.MIN w = Val (WalFiles.open_reader f w)).
  { unfold WalFiles.file_iterator, WalFiles.fuel_for. cbn [WalFiles.find_start].
    destruct Hf as (_ & _ & Hr). inversion Hr as [|?? [[? _] _] _]; subst.
    rewrite (proj2 (Z.ltb_ge _ _)); [done|]. rewrite Hx. unfold SeqNr.MIN. lia. }
  rewrite Hit. cbn [mbind exec_bind]. rewrite (file_records_spec _ _ _ _ Hpos).
  2: { unfold WalFiles.fuel_for. cbn [WalFiles.open_reader fr_contents]. destruct Hf as (-> & _ & _).
       pose proof (length_encs (x :: t)). lia. }
  cbn [mbind exec_bind]. rewrite concat_app, List.filter_app. cbn [concat]. rewrite app_nil_r, last_app.
  change (λ r, rr_record_type r =? record_type) with (of_type record_type).
  destruct (last (List.filter (of_type record_type) (x :: t))); [done|by apply IH].
Qed.

(** ** The log the files hold *)
Section refinement.
Context {BErr : Type} (codec : Codec BErr).

(** The numbers in use: every commit number from 1 has a record, and no record
    is numbered at or after the next one. *)
Record numbered (l : Log) : Prop := {
  nb_next : 1 ≤ lg_next l < 2 ^ 64;
  nb_below : Forall (λ e, 0 ≤ LogClient.entry_seq e < lg_next l) (lg_entries l);
  nb_dense : ∀ s, 1 ≤ s < lg_next l → s ∈ LogClient.entry_seq <$> lg_entries l;
}.
Definition represents (w : WAL) (l : Log) : Prop :=
  wal_next w = lg_next l ∧ numbered l ∧ ∃ groups, wal_files w = files_of groups ∧ groups_ok groups ∧
    concat groups = LogClient.raw_of codec <$> lg_entries l.
Definition fits (bs : bytes) : Prop := Z.of_nat (length (compress bs)) < 2 ^ 64.
(** Writing the number [s] does not reopen the last file. *)
Definition appendable (s : Z) (w : WAL) : Prop :=
  match last (fs_files (wal_files w)) with
  | Some f => f_len f < MAX_WAL_FILE_SIZE ∨ f_start f < s
  | None => True
  end.

Lemma seq_of_raw e : seq_of (LogClient.raw_of codec e) = LogClient.entry_seq e.
Proof. by destruct e. Qed.
Lemma seqs_of_raw (es : list LogEntry) : seq_of <$> (LogClient.raw_of codec <$> es) = LogClient.entry_seq <$> es.
Proof. rewrite <-list_fmap_compose. apply list_fmap_ext. intros _ e _. apply seq_of_raw. Qed.
Lemma filter_raw start es :
  List.filter (at_least start) (LogClient.raw_of codec <$> es) =
  LogClient.raw_of codec <$> List.filter (λ e, start <=? LogClient.entry_seq e) es.
Proof.
  induction es as [|e es IH]; [done|]. cbn [fmap list_fmap List.filter]. unfold at_least at 1. rewrite seq_of_raw.
  destruct (start <=? LogClient.entry_seq e); cbn [fmap list_fmap]; by rewrite IH.
Qed.

Lemma write_represents w l e next' :
  represents w l → LogClient.entry_seq e ≤ lg_next l → lg_next l - 1 ≤ LogClient.entry_seq e →
  fits (rr_bytes (LogClient.raw_of codec e)) → appendable (LogClient.entry_seq e) w →
  numbered (mk_Log (lg_entries l ++ [e]) next') →
  represents (mk_WAL next' (WalFiles.write_record compress (LogClient.raw_of codec e) (wal_files w)))
    (mk_Log (lg_entries l ++ [e]) next').
Proof.
  intros (_ & [Hnext Hbelow _] & groups & Hfiles & Hok & Hcat) Hle Hge Hfit Happ Hnum.
  rewrite Hfiles.
  destruct (write_record_spec groups (LogClient.raw_of codec e)) as (groups' & Hw & Hok' & Hcat').
  - done.
  - split; [|exact Hfit]. rewrite seq_of_raw. destruct Hnum as [? Hb _]. cbn [lg_next lg_entries] in *.
    apply Forall_app in Hb as [_ Hb]. rewrite Forall_singleton in Hb. unfold is_u64. lia.
  - rewrite Hcat, seq_of_raw. apply Forall_fmap. eapply Forall_impl; [exact Hbelow|].
    intros e' He'. cbn beta in He'. cbn [compose]. rewrite seq_of_raw. lia.
  - intros g Hg Hfull. unfold appendable in Happ. rewrite Hfiles in Happ. cbn [files_of fs_files] in Happ.
    rewrite fmap_last, Hg in Happ. cbn [fmap option_fmap option_map file_of f_len f_start] in Happ.
    unfold full in Hfull. rewrite seq_of_raw. destruct Happ as [Happ|Happ]; [|done]. apply Z.leb_le in Hfull. lia.
  - split_and!; [done|done|]. exists groups'. split_and!; [exact Hw|done|].
    cbn [lg_entries]. by rewrite Hcat', Hcat, fmap_app.
Qed.

Lemma iter_represents w l start :
  represents w l →
  WalFiles.iter_any_from decompress start (wal_files w) = Val (LogClient.raw_of codec <$> LogClient.from start l).
Proof.
  intros (_ & [Hnext Hbelow Hdense] & groups & -> & Hok & Hcat).
  rewrite (iter_from_spec _ groups start (files_of_spec _ Hok) (go_ascending _ Hok)).
  - rewrite Hcat. f_equal. apply filter_raw.
  - rewrite Hcat, seqs_of_raw, !Forall_fmap.
    destruct (decide (1 ≤ start < lg_next l)) as [?|Hout]; [left; by apply Hdense|right].
    destruct (decide (start < 1)) as [?|?]; [right|left].
    all: eapply Forall_impl; [exact Hbelow|]; intros e He; cbn beta in He; cbn [compose]; rewrite seq_of_raw; lia.
Qed.

Lemma numbered_commit l r :
  numbered l → lg_next l + 1 < 2 ^ 64 → numbered (LogClient.sequenced_write r l).2.
Proof.
  intros [Hnext Hbelow Hdense] Hroom. cbn [LogClient.sequenced_write snd]. rewrite u64_id by (unfold is_u64; lia).
  split; cbn [lg_next lg_entries]; [lia| |].
  - apply Forall_app. split; [|apply Forall_singleton; simpl; lia]. eapply Forall_impl; [exact Hbelow|]. simpl. lia.
  - intros s Hs. rewrite fmap_app, elem_of_app. destruct (decide (s = lg_next l)) as [->|]; [right; by left|left; apply Hdense; lia].
Qed.
Lemma numbered_status l r : numbered l → numbered (LogClient.unsequenced_write r l).2.
Proof.
  intros [Hnext Hbelow Hdense]. cbn [LogClient.unsequenced_write snd]. rewrite u64_id by (unfold is_u64; lia).
  split; cbn [lg_next lg_entries]; [done| |].
  - apply Forall_app. split; [done|apply Forall_singleton; simpl; lia].
  - intros s Hs. rewrite fmap_app, elem_of_app. left. by apply Hdense.
Qed.
(** A new number never reopens a file. *)
Lemma sequenced_appendable w l : represents w l → appendable (lg_next l) w.
Proof.
  intros (_ & [Hnext Hbelow _] & groups & Hfiles & Hok & Hcat). unfold appendable. rewrite Hfiles.
  cbn [files_of fs_files]. rewrite fmap_last. destruct (last groups) as [g|] eqn:Eg; [|done]. right.
  apply last_Some in Eg as [gs ->]. destruct Hok as [_ Hne _ _]. apply Forall_app in Hne as [_ Hne].
  rewrite Forall_singleton in Hne. destruct g as [|x t]; [done|]. cbn [f_start file_of name_of].
  assert (Hx : x ∈ LogClient.raw_of codec <$> lg_entries l).
  { rewrite <-Hcat, concat_app, elem_of_app. right. cbn [concat]. rewrite app_nil_r. left. }
  apply list_elem_of_fmap in Hx as (e & -> & He). rewrite seq_of_raw. rewrite Forall_forall in Hbelow.
  by apply Hbelow.
Qed.

(** C5: the write-ahead log refines the abstract log the recovery works with.
    Where the files hold the records of a log whose commits are numbered
    consecutively from 1, writing a commit record returns the log's next number
    and keeps the files in step with the log; so does writing a status record,
    provided that the current file, when full, was not opened at that very
    number; reading from any number yields the log's records from that number
    on, in order, whatever file they are in; [iter_type_from] and
    [find_last_type] select among them.  LZ4 decompression inverts
    compression. *)
Theorem wal_refines_log w l :
  represents w l →
  (∀ r, fits (serialise_commit codec r) → lg_next l + 1 < 2 ^ 64 → ∃ w',
     WalFiles.sequenced_write compress COMMIT_RECORD_TYPE (serialise_commit codec r) w = (lg_next l, w') ∧
     represents w' (LogClient.sequenced_write r l).2) ∧
  (∀ r, fits (serialise_status codec r) → appendable (lg_next l - 1) w →
     represents (WalFiles.unsequenced_write compress STATUS_RECORD_TYPE (serialise_status codec r) w)
       (LogClient.unsequenced_write r l).2) ∧
  (∀ start,
     WalFiles.iter_any_from decompress start (wal_files w) = Val (LogClient.raw_of codec <$> LogClient.from start l) ∧
     ∀ record_type, WalFiles.iter_type_from decompress start record_type (wal_files w) =
       Val (List.filter (of_type record_type) (LogClient.raw_of codec <$> LogClient.from start l))) ∧
  (∀ record_type, WalFiles.find_last_type decompress record_type w =
     Val (last (List.filter (of_type record_type) (LogClient.raw_of codec <$> lg_entries l)))).
Proof.
  intros Hrep. pose proof Hrep as (Hn & Hnum & groups & Hfiles & Hok & Hcat). pose proof (nb_next _ Hnum) as Hnext.
  split_and!.
  - intros r Hfit Hroom. unfold WalFiles.sequenced_write. rewrite Hn. eexists. split; [done|].
    apply (write_represents w l (LogCommit (lg_next l) r)); cbn [LogClient.entry_seq]; [done|lia|lia|done| |].
    + by apply sequenced_appendable.
    + by apply (numbered_commit l r).
  - intros r Hfit Happ. unfold WalFiles.unsequenced_write, WalFiles.previous. rewrite Hn.
    cbn [LogClient.unsequenced_write snd]. pose proof (numbered_status l r Hnum) as Hnum'.
    cbn [LogClient.unsequenced_write snd] in Hnum'. rewrite u64_id in Hnum' |- * by (unfold is_u64; lia).
    apply (write_represents w l (LogStatus (lg_next l - 1) r)); cbn [LogClient.entry_seq]; [done|lia|lia|done|done|done].
  - intros start. split; [by apply iter_represents|]. intros record_type. unfold WalFiles.iter_type_from.
    by rewrite (iter_represents w l start Hrep).
  - intros record_type. unfold WalFiles.find_last_type. rewrite Hfiles.
    rewrite (find_last_spec _ _ _ groups) by (by apply files_of_spec). by rewrite Hcat.
Qed.

(** ** Loading after a crash *)
(** What a write that did not complete has left. *)
Definition torn_write (torn : bytes) : Prop := ∃ x rest, rec_ok x ∧ rest ≠ [] ∧ enc x = torn ++ rest.
(** The cut is noticed where the header is incomplete, or the decoder fails on
    the payload that is there or gets nothing out of it. *)
Definition cut_noticed (torn : bytes) : bool :=
  (length torn <? 17)%nat || match decompress (drop 17 torn) with Some (_ :: _) => false | _ => true end.

Lemma read_torn r pre torn :
  positioned_torn r pre [] torn → torn ≠ [] → torn_write torn →
  if cut_noticed torn then
    match WalFiles.read_one_record decompress r with
    | Val (None, _) | Panic => False
    | Val (Some rec, _) => rr_bytes rec = []
    | Err _ => True
    end
  else ∃ rec r', WalFiles.read_one_record decompress r = Val (Some rec, r') ∧ rr_bytes rec ≠ [] ∧ WalFiles.at_end r' = true.
Proof.
  intros Hpos Hne (x & rest & Hx & Hrest & Henc). unfold WalFiles.read_one_record, cut_noticed.
  rewrite (at_end_torn _ _ _ Hpos), bool_decide_false by done.
  destruct Hpos as (Hc & Hp & Hl & _). destruct r as [f c p]. cbn [fr_contents fr_pos fr_file] in Hc, Hp, Hl. subst p.
  simpl in Hc. subst c. rewrite (enc_header x Hx) in Henc.
  destruct (Nat.ltb_spec (length torn) 17) as [Hshort|Hlen]; cbn [orb].
  - destruct (read_header_short (mk_FileReader f (pre ++ torn) (length pre))) as [e ->]; [|done].
    cbn [fr_contents fr_pos]. rewrite length_app. lia.
  - assert (∃ k, torn = WalFiles.write_header (header_of x) ++ k ∧ compress (rr_bytes x) = k ++ rest) as (k & -> & Hk).
    { destruct (app_eq_inv _ _ _ _ Henc) as [(k & Hk1 & Hk2)|(k & -> & Hk2)]; [|by exists k].
      pose proof (f_equal length Hk1) as Hl1. rewrite length_app, length_header in Hl1.
      assert (k = []) as -> by (destruct k; [done|simpl in Hl1; lia]). rewrite app_nil_r in Hk1. simpl in Hk2. subst rest.
      exists []. by rewrite app_nil_r. }
    pose proof (read_header_bytes f pre (header_of x) k) as Hh.
    rewrite Hh; [|apply Hx|destruct Hx as [_ ?]; unfold is_u64; cbn [rh_len header_of]; lia].
    cbn [mbind exec_bind rh_len header_of fr_pos fr_contents]. rewrite <-drop_drop, drop_app_length.
    rewrite (drop_app_length' _ _ 17) by (by rewrite length_header).
    rewrite take_ge by (rewrite Nat2Z.id, Hk, length_app; lia).
    destruct (decompress k) as [[|b bs]|]; [done| |done]. eexists _, _. split; [done|]. split; [done|].
    unfold WalFiles.at_end, WalFiles.with_pos. cbn [fr_pos fr_file]. rewrite !length_app, length_header in Hl. simpl in Hl.
    apply Z.eqb_eq. lia.
Qed.

Lemma valid_prefix_torn fuel r pre rs torn :
  positioned_torn r pre rs torn → torn_write torn → Forall (λ x, rr_bytes x ≠ []) rs → (length rs + length torn < fuel)%nat →
  WalFiles.valid_prefix decompress fuel (length pre) r =
    if decide (torn = []) then None else if cut_noticed torn then Some (length (pre ++ bytes_of rs)) else None.
Proof.
  intros Hpos Htorn. revert fuel r pre Hpos.
  induction rs as [|x rs IH]; intros [|fuel] r pre Hpos Hne Hf; [simpl in Hf; lia| |simpl in Hf; lia|].
  all: cbn [WalFiles.valid_prefix].
  - case_decide as Ht.
    + subst torn. unfold WalFiles.read_one_record. by rewrite (positioned_end _ _ Hpos).
    + pose proof (read_torn r pre torn Hpos Ht Htorn) as Hread. change (bytes_of []) with (@nil Z). rewrite app_nil_r.
      destruct (cut_noticed torn).
      * destruct (WalFiles.read_one_record decompress r) as [[[rec|] r']|e|]; [by rewrite Hread|done..].
      * destruct Hread as (rec & r' & -> & Hb & Hend). destruct (rr_bytes rec); [done|].
        destruct fuel as [|fuel]; [destruct torn; [done|simpl in Hf; lia]|]. cbn [WalFiles.valid_prefix]. unfold WalFiles.read_one_record. by rewrite Hend.
  - destruct (read_one_at _ _ _ _ Hpos) as (r' & -> & Hpos' & _). inversion Hne as [|?? Hx Hne']; subst.
    destruct (rr_bytes x) eqn:Ex; [done|]. destruct Hpos' as (Hc & Hp & ?) eqn:E. rewrite Hp. clear E.
    rewrite (IH fuel r' (pre ++ enc x)) by (done || simpl in Hf; lia).
    unfold bytes_of. rewrite concat_enc_cons. by rewrite <-app_assoc.
Qed.

(** Opening the directory drops a torn write whose cut is noticed and nothing
    else. *)
Definition with_torn (gs : list (list RawRecord)) (name : Z) (g : list RawRecord) (torn : bytes) : list (Z * bytes) :=
  directory_of gs ++ [(name, bytes_of g ++ torn)].
Lemma open_torn gs name g torn :
  bt_wf (with_torn gs name g torn) → torn_write torn → Forall rec_ok g → Forall (λ x, rr_bytes x ≠ []) g →
  let kept := if cut_noticed torn then [] else torn in
  WalFiles.open decompress (with_torn gs name g torn) =
    mk_Files (with_torn gs name g kept) ((file_of <$> gs) ++ [mk_File name (Z.of_nat (length (bytes_of g ++ kept)))]).
Proof.
  intros Hwf Htorn Hrec Hne kept. unfold WalFiles.open, with_torn in *. set (c := bytes_of g ++ torn) in *.
  assert (Hfiles : (λ '(start, c), mk_File start (Z.of_nat (length c))) <$> directory_of gs ++ [(name, c)] =
    (file_of <$> gs) ++ [mk_File name (Z.of_nat (length c))]).
  { rewrite fmap_app. f_equal. unfold directory_of. rewrite <-list_fmap_compose. done. }
  rewrite Hfiles, last_snoc. set (w := mk_Files _ _). unfold WalFiles.trim_corrupted_tail. cbn [f_start].
  assert (Hcont : WalFiles.contents name w = c).
  { unfold WalFiles.contents, w. cbn [fs_contents].
    assert (bt_get name (directory_of gs ++ [(name, c)]) = Some c) as ->; [|done].
    apply bt_get_elem; [done|]. apply elem_of_app. right. left. }
  assert (Hpos : positioned_torn (WalFiles.open_reader (mk_File name (Z.of_nat (length c))) w) [] g torn)
    by (unfold positioned_torn, WalFiles.open_reader; cbn [fr_contents fr_pos fr_file f_start f_len]; by rewrite Hcont).
  pose proof (valid_prefix_torn (WalFiles.fuel_for (WalFiles.open_reader (mk_File name (Z.of_nat (length c))) w)) _ _ _ _ Hpos Htorn Hne) as Hv.
  cbn [length app] in Hv. rewrite Hv; clear Hv.
  2: { unfold WalFiles.fuel_for, WalFiles.open_reader. cbn [fr_contents f_start]. rewrite Hcont. unfold c.
       pose proof (length_encs g). unfold bytes_of. rewrite length_app. lia. }
  rewrite length_app. cbn [length]. rewrite Nat.add_sub, take_app_length. unfold kept. case_decide as Ht.
  - unfold w, c. subst torn. done.
  - destruct (cut_noticed torn); [|done].
    rewrite Hcont. unfold w, c. cbn [fs_contents]. rewrite take_app_length, app_nil_r, bt_insert_last; [done|].
    destruct (bt_wf_app_inv _ _ Hwf) as (_ & _ & Hall). eapply Forall_impl; [exact Hall|].
    intros kv Hkv. inversion Hkv as [|?? Hlt _]; subst. by apply Z.compare_lt_iff in Hlt.
Qed.

Lemma with_torn_nil gs g : with_torn gs (name_of g) g [] = directory_of (gs ++ [g]).
Proof. unfold with_torn. by rewrite directory_app, app_nil_r. Qed.
Lemma last_filter {A} (p : A → bool) l x : last l = Some x → p x = true → last (List.filter p l) = Some x.
Proof. intros [l' ->]%last_Some Hp. rewrite List.filter_app. cbn [List.filter]. rewrite Hp. apply last_snoc. Qed.

(** The last record carries the number before the next one. *)
Lemma last_number l groups e :
  numbered l → groups_ok groups → concat groups = LogClient.raw_of codec <$> lg_entries l →
  last (lg_entries l) = Some e → LogClient.entry_seq e = lg_next l - 1.
Proof.
  intros [Hnext Hbelow Hdense] [_ _ Hasc _] Hcat [l' Hl]%last_Some. rewrite Hcat, Hl, fmap_app in Hasc.
  destruct (ascending_app _ _ Hasc) as (_ & _ & Hle). rewrite Hl in Hbelow, Hdense.
  apply Forall_app in Hbelow as [_ He]. rewrite Forall_singleton in He. cbn beta in He.
  destruct (decide (lg_next l = 1)) as [?|Hne]; [lia|].
  specialize (Hdense (lg_next l - 1) ltac:(lia)). rewrite fmap_app, elem_of_app in Hdense.
  destruct Hdense as [(e' & Heq & He')%list_elem_of_fmap|Hin].
  - specialize (Hle (LogClient.raw_of codec e') (LogClient.raw_of codec e)). rewrite !seq_of_raw in Hle.
    assert (LogClient.entry_seq e' ≤ LogClient.entry_seq e); [|lia].
    apply Hle; [by apply list_elem_of_fmap_2|by left].
  - apply list_elem_of_fmap in Hin as (e' & Heq & He'). apply list_elem_of_singleton in He' as ->. lia.
Qed.

Lemma max_start_below w l :
  represents w l → foldr Z.max SeqNr.MIN (f_start <$> fs_files (wal_files w)) ≤ lg_next l - 1.
Proof.
  intros (_ & [Hnext Hbelow _] & groups & -> & [_ Hne _ _] & Hcat). cbn [files_of fs_files].
  assert (Hall : Forall (λ g, name_of g ≤ lg_next l - 1) groups).
  { apply Forall_forall. intros g Hg. rewrite Forall_forall in Hne. rewrite Forall_forall in Hbelow. specialize (Hne g Hg). destruct g as [|x t]; [done|].
    assert (Hx : x ∈ LogClient.raw_of codec <$> lg_entries l).
    { rewrite <-Hcat. apply list_elem_of_In, in_concat. exists (x :: t). split; [by apply list_elem_of_In|by left]. }
    apply list_elem_of_fmap in Hx as (e & -> & He). cbn [name_of]. rewrite seq_of_raw. specialize (Hbelow e He). lia. }
  clear -Hall Hnext. induction Hall as [|g groups Hg _ IH]; cbn [fmap list_fmap foldr]; [unfold SeqNr.MIN; lia|].
  cbn [f_start file_of]. lia.
Qed.

Lemma next_number_represents w l :
  represents w l →
  WalFiles.next_number decompress (foldr Z.max SeqNr.MIN (f_start <$> fs_files (wal_files w))) (wal_files w) = Val (lg_next l).
Proof.
  intros Hrep. pose proof (max_start_below w l Hrep) as Hmax. unfold WalFiles.next_number.
  rewrite (iter_represents w l _ Hrep). cbn [mbind exec_bind]. rewrite fmap_last.
  destruct Hrep as (_ & Hnum & groups & _ & Hok & Hcat).
  destruct (last (lg_entries l)) as [e|] eqn:Elast.
  - pose proof (last_number l groups e Hnum Hok Hcat Elast) as He. unfold LogClient.from.
    rewrite (last_filter _ _ e Elast) by (apply Z.leb_le; lia). cbn [fmap option_fmap option_map]. rewrite seq_of_raw, He.
    unfold SeqNr.next. destruct Hnum as [? _ _]. rewrite u64_id by (unfold is_u64; lia). do 2 f_equal. lia.
  - apply last_None in Elast. destruct Hnum as [? _ Hdense]. unfold LogClient.from. rewrite Elast in *. cbn.
    unfold SeqNr.next, SeqNr.MIN. rewrite u64_id by (unfold is_u64; lia).
    destruct (decide (lg_next l = 1)) as [->|]; [done|].
    specialize (Hdense 1 ltac:(lia)). by apply elem_of_nil in Hdense.
Qed.

Lemma append_files torn gs g :
  groups_ok (gs ++ [g]) →
  WalFiles.append_last torn (files_of (gs ++ [g])) =
    mk_Files (with_torn gs (name_of g) g torn) ((file_of <$> gs) ++ [mk_File (name_of g) (Z.of_nat (length (bytes_of g ++ torn)))]).
Proof.
  intros Hok. unfold WalFiles.append_last. cbn [files_of fs_files]. rewrite last_files. cbn [f_start file_of fs_contents].
  rewrite (contents_of g) by (apply Hok || set_solver). cbn [files_of fs_contents]. rewrite directory_app.
  rewrite bt_insert_last by (apply names_before, Hok).
  rewrite fmap_app, length_app. cbn [length fmap list_fmap]. rewrite Nat.add_sub, take_app_length. done.
Qed.
Lemma open_crashed w l torn :
  represents w l → Forall (λ e, rr_bytes (LogClient.raw_of codec e) ≠ []) (lg_entries l) → torn_write torn →
  WalFiles.open decompress (fs_contents (WalFiles.append_last torn (wal_files w))) =
    WalFiles.append_last (if cut_noticed torn then [] else torn) (wal_files w).
Proof.
  intros (_ & _ & groups & -> & Hok & Hcat) Hne Htorn. pose proof Hok as [Hwf _ _ Hrec].
  destruct groups as [|g gs _] using rev_ind; [done|]. rewrite !append_files by done. cbn [fs_contents]. apply open_torn.
  - unfold with_torn. rewrite directory_app in Hwf. by eapply bt_wf_snoc_key.
  - done.
  - rewrite concat_app in Hrec. apply Forall_app in Hrec as [_ Hrec]. simpl in Hrec. by rewrite app_nil_r in Hrec.
  - assert (Hb : Forall (λ x, rr_bytes x ≠ []) (concat (gs ++ [g]))) by (rewrite Hcat; by apply Forall_fmap).
    rewrite concat_app in Hb. apply Forall_app in Hb as [_ Hb]. simpl in Hb. by rewrite app_nil_r in Hb.
Qed.
Lemma append_nothing w l : represents w l → WalFiles.append_last [] (wal_files w) = wal_files w.
Proof.
  intros (_ & _ & groups & -> & Hok & _). destruct groups as [|g gs _] using rev_ind; [done|].
  rewrite append_files by done. rewrite with_torn_nil, app_nil_r. unfold files_of. by rewrite fmap_app.
Qed.

(** C27: loading the write-ahead log after a crash, for files that hold the
    records of a log (consecutive commit numbers, no record that decompresses
    to nothing) and any part of one more record that an incomplete write has
    left in the current file. Where that part is shorter than the 17 bytes of a
    record's header, whatever the compression does, or where the decoder
    rejects the cut payload or gets no byte out of it, [load] drops that part
    and nothing else and resumes numbering where the log stopped. Where the
    decoder does return bytes for the cut payload, opening the log keeps the
    part as a record: the recorded length is not compared with what was read.
    That the decoder inverts the encoder on whole records is assumed; nothing
    is assumed of it on cut ones. *)
Theorem load_survives_torn_write w l torn :
  represents w l → Forall (λ e, rr_bytes (LogClient.raw_of codec e) ≠ []) (lg_entries l) → torn_write torn →
  let crashed := fs_contents (WalFiles.append_last torn (wal_files w)) in
  ((length torn < 17)%nat ∨ decompress (drop 17 torn) = None ∨ decompress (drop 17 torn) = Some [] →
   WalFiles.load decompress crashed = Val w) ∧
  (∀ b bs, (17 ≤ length torn)%nat → decompress (drop 17 torn) = Some (b :: bs) →
   WalFiles.open decompress crashed = WalFiles.append_last torn (wal_files w)).
Proof.
  intros Hrep Hne Htorn crashed. pose proof (open_crashed w l torn Hrep Hne Htorn) as Hopen. fold crashed in Hopen. split.
  - intros Hcut. assert (Hseen : cut_noticed torn = true).
    { unfold cut_noticed. destruct Hcut as [Hs|[-> | ->]]; [by rewrite (proj2 (Nat.ltb_lt _ _))|by rewrite orb_true_r..]. }
    rewrite Hseen, (append_nothing w l Hrep) in Hopen. unfold WalFiles.load.
    rewrite Hopen, (next_number_represents w l Hrep). cbn [mbind exec_bind]. destruct Hrep as (<- & _). by destruct w.
  - intros b bs Hlen Hd. unfold cut_noticed in Hopen. by rewrite (proj2 (Nat.ltb_ge _ _)), Hd in Hopen.
Qed.

(** Names and contents where no record has the number [s] or a later one. *)
Lemma names_below groups s :
  groups_ok groups → Forall (λ x, seq_of x < s) (concat groups) → Forall (λ kv : Z * bytes, kv.1 < s) (directory_of groups).
Proof.
  intros Hok Hlt. apply Forall_fmap, Forall_forall. intros g Hg. pose proof (go_nonempty _ Hok) as Hne.
  rewrite Forall_forall in Hne. specialize (Hne g Hg). destruct g as [|x t]; [done|]. cbn [compose fst name_of].
  rewrite Forall_forall in Hlt. apply Hlt.
  apply list_elem_of_In, in_concat. exists (x :: t). split; [by apply list_elem_of_In|by left].
Qed.
(** A directory whose last file holds no record. *)
Lemma next_number_empty_last w groups s :
  groups_ok groups → groups ≠ [] → Forall (λ x, seq_of x < s) (concat groups) →
  w = mk_Files (directory_of groups ++ [(s, [])]) ((file_of <$> groups) ++ [mk_File s 0]) →
  WalFiles.iter_any_from decompress s w = Val [].
Proof.
  intros Hok Hgroups Hlt ->. set (w := mk_Files _ _).
  assert (Hnames : Forall (λ g, name_of g < s) groups)
    by (pose proof (names_below groups s Hok Hlt) as Hn; unfold directory_of in Hn; by rewrite Forall_fmap in Hn).
  assert (Hdir : bt_wf (directory_of groups ++ [(s, [])])).
  { rewrite <-bt_insert_max; [apply bt_wf_insert, Hok|]. apply Forall_fmap. eapply Forall_impl; [exact Hnames|].
    intros g Hg. by apply Z.compare_lt_iff. }
  assert (Hcont : ∀ k c, (k, c) ∈ directory_of groups ++ [(s, [])] → WalFiles.contents k w = c).
  { intros k c Hin. unfold WalFiles.contents, w. cbn [fs_contents]. by rewrite (proj2 (bt_get_elem k c _ Hdir) Hin). }
  assert (Hfile : Forall (λ g, file_ok w (file_of g) g) groups).
  { apply Forall_forall. intros g Hg. unfold file_ok. cbn [f_start f_len file_of]. rewrite (Hcont (name_of g) (bytes_of g)).
    - split_and!; [done..|]. pose proof (go_records _ Hok) as Hrec. rewrite Forall_forall in Hrec. apply Forall_forall.
      intros x Hx. apply Hrec. apply list_elem_of_In, in_concat. exists g. by rewrite <-!list_elem_of_In.
    - apply elem_of_app. left. by apply (list_elem_of_fmap_2 (λ g, (name_of g, bytes_of g))). }
  assert (Hw : wal_ok w (groups ++ [[]])).
  { change (Forall2 (file_ok w) ((file_of <$> groups) ++ [mk_File s 0]) (groups ++ [[]])). apply Forall2_app.
    - apply Forall2_fmap_l, Forall_Forall2_diag. exact Hfile.
    - constructor; [|constructor]. unfold file_ok. cbn [f_start f_len].
      rewrite (Hcont s []) by (apply elem_of_app; right; left). by split_and!. }
  assert (Hlead : WalFiles.leading s (fs_files w) = file_of <$> groups).
  { unfold w. cbn [fs_files]. clear -Hnames. induction Hnames as [|g groups Hg _ IH]; cbn [fmap list_fmap app WalFiles.leading].
    - cbn [f_start]. by rewrite Z.ltb_irrefl.
    - cbn [f_start file_of]. by rewrite (proj2 (Z.ltb_lt _ _)), IH. }
  unfold WalFiles.iter_any_from, WalFiles.new_iterator. rewrite Hlead.
  destruct (fs_files w) as [|first files] eqn:Efiles; [by destruct groups|]. rewrite <-Efiles. clear Efiles.
  destruct groups as [|g gs _] using rev_ind; [done|]. rewrite last_files.
  change (default first (Some (file_of g))) with (file_of g). apply Forall_app in Hnames as [_ Hg].
  rewrite Forall_singleton in Hg. apply Forall_app in Hfile as [_ Hfile]. rewrite Forall_singleton in Hfile.
  rewrite concat_app in Hlt. apply Forall_app in Hlt as [_ Hlt]. cbn [concat] in Hlt. rewrite app_nil_r in Hlt.
  pose proof (open_reader_positioned _ _ _ Hfile) as Hpos. rewrite <-(app_nil_r g) in Hpos at 2.
  destruct (find_start_at (WalFiles.fuel_for (WalFiles.open_reader (file_of g) w)) s (f_start (file_of g)) _ _ _ _ Hpos)
    as (r' & pre' & -> & Hpos'); [|exact Hg|done|done|].
  { unfold WalFiles.fuel_for. cbn [WalFiles.open_reader fr_contents]. destruct Hfile as (-> & _ & _).
    pose proof (length_encs g). lia. }
  cbn [mbind exec_bind]. rewrite length_fmap, length_app. cbn [length]. rewrite Nat.add_sub.
  rewrite (collect_records_spec w ((gs ++ [g]) ++ [[]]) _ _ (length gs) r' pre' []); [|done|done|lia|].
  all: rewrite (drop_app_length' _ _ (S (length gs))) by (rewrite length_app; simpl; lia); simpl; try done; lia.
Qed.

(** A crash while the log moves on to a new file restarts the numbering.
    Where [write_record] has opened the file of the next commit and the process
    stops before the record is complete (and the cut is noticed), [load] finds no record from that file's
    number on and numbers the next commit 1, although the log holds commits: the
    numbers of logged commits are given out again. *)
Lemma load_after_interrupted_rollover w l torn :
  represents w l → 1 < lg_next l → torn_write torn → cut_noticed torn = true →
  ∃ w', WalFiles.load decompress (fs_contents (WalFiles.append_last torn
      (WalFiles.open_new_file_at (lg_next l) (wal_files w)))) = Val w' ∧ WalFiles.current w' = 1.
Proof.
  intros (_ & [Hnext Hbelow Hdense] & groups & -> & Hok & Hcat) Hlarge Htorn Hseen.
  assert (Hlt : Forall (λ x, seq_of x < lg_next l) (concat groups)).
  { rewrite Hcat. apply Forall_fmap. eapply Forall_impl; [exact Hbelow|]. intros e He. cbn beta in He. cbn [compose].
    rewrite seq_of_raw. lia. }
  assert (Hdir : Forall (λ kv : Z * bytes, kv.1 < lg_next l) (directory_of groups)).
  { by apply names_below. }
  assert (Hdir' : Forall (λ kv : Z * bytes, kv.1 ≺ lg_next l)%ord (directory_of groups))
    by (eapply Forall_impl; [exact Hdir|]; intros kv ?; by apply Z.compare_lt_iff).
  assert (Hcrash : fs_contents (WalFiles.append_last torn (WalFiles.open_new_file_at (lg_next l) (files_of groups))) =
    with_torn groups (lg_next l) [] torn).
  { unfold WalFiles.open_new_file_at, WalFiles.append_last. cbn [fs_files]. rewrite last_snoc. cbn [f_start fs_contents].
    unfold WalFiles.contents at 1. cbn [fs_contents]. rewrite bt_get_insert_eq. rewrite (contents_new groups) by (done || apply Hok).
    cbn [files_of fs_contents app]. rewrite (bt_insert_max (lg_next l) [] (directory_of groups)) by done. by rewrite bt_insert_last. }
  rewrite Hcrash. unfold WalFiles.load. rewrite open_torn; [|..|done|constructor|constructor].
  2: { unfold with_torn. rewrite <-bt_insert_max by done. apply bt_wf_insert, Hok. }
  rewrite Hseen, app_nil_r. cbn [fs_files]. set (w' := mk_Files _ _).
  assert (Hmax : foldr Z.max SeqNr.MIN (f_start <$> (file_of <$> groups) ++ [mk_File (lg_next l) (Z.of_nat (length (bytes_of [])))])
    = lg_next l).
  { rewrite fmap_app, foldr_app. cbn [fmap list_fmap foldr f_start]. rewrite Z.max_l by (unfold SeqNr.MIN; lia).
    clear -Hdir. induction groups as [|g groups IH]; [done|]. inversion Hdir; subst.
    cbn [fmap list_fmap foldr f_start file_of]. rewrite IH by done. simpl in *. lia. }
  rewrite Hmax. unfold WalFiles.next_number. rewrite (next_number_empty_last w' groups (lg_next l)); [by eexists|done| |done|done].
  intros ->. destruct (lg_entries l); [|done]. specialize (Hdense 1 ltac:(lia)). by apply elem_of_nil in Hdense.
Qed.
End refinement.
End wal_spec.

(** ** A log of one commit *)
(** A framing that stands for LZ4: the length, then the bytes. *)
Definition framed (bs : bytes) : bytes := Z.of_nat (length bs) :: bs.
Definition unframed (c : bytes) : option bytes :=
  match c with n :: bs => if n =? Z.of_nat (length bs) then Some bs else None | [] => None end.
Lemma unframed_framed bs : unframed (framed bs) = Some bs.
Proof. unfold unframed, framed. by rewrite Z.eqb_refl. Qed.
Definition one_commit : CommitRecord := mk_CommitRecord OB.new 0 CommitData.
Definition one_codec : Codec unit :=
  mk_Codec (λ _, [7]) (λ _, inl one_commit) (serialise_status (example_codec one_commit))
    (deserialise_status (example_codec one_commit)).
Definition one_log : Log := mk_Log [LogCommit 1 one_commit; LogStatus 1 (mk_StatusRecord 1 true)] 2.
Definition one_wal : WAL :=
  WalFiles.unsequenced_write framed STATUS_RECORD_TYPE [1; 1]
    (WalFiles.sequenced_write framed COMMIT_RECORD_TYPE [7] (mk_WAL 1 (mk_Files [] []))).2.
Lemma one_represents : represents framed one_codec one_wal one_log.
Proof.
  split_and!; [done| |].
  - split; cbn [one_log lg_next lg_entries]; [lia|repeat constructor; simpl; lia|].
    intros s Hs. assert (s = 1) as -> by lia. left.
  - exists [[mk_RawRecord 1 0 [7]; mk_RawRecord 1 1 [1; 1]]]. split_and!; [reflexivity| |done].
    split; [repeat constructor|repeat constructor; done| |].
    + repeat constructor; simpl; lia.
    + repeat constructor; simpl; unfold is_u64; simpl; lia.
Qed.
Lemma one_torn : torn_write framed [0; 0; 0].
Proof.
  exists (mk_RawRecord 2 0 [7]), (drop 3 (WalFiles.encode_record framed (mk_RawRecord 2 0 [7]))).
  split_and!; [|discriminate|reflexivity]. split; [unfold is_u64|]; simpl; lia.
Qed.

Lemma wal_refines_log_witness :
  (WalFiles.sequenced_write framed COMMIT_RECORD_TYPE [7] one_wal).1 = 2 ∧
  WalFiles.iter_any_from unframed 1 (wal_files one_wal) = Val [mk_RawRecord 1 0 [7]; mk_RawRecord 1 1 [1; 1]].
Proof.
  destruct (wal_refines_log framed unframed unframed_framed one_codec one_wal one_log one_represents) as (Hs & _ & Hi & _).
  split; [|exact (proj1 (Hi 1))].
  destruct (Hs one_commit) as (w' & Hw & _); [unfold fits; simpl; lia|simpl; lia|].
  exact (f_equal fst Hw).
Defined.
(** A commit 2 whose payload was cut after one byte: the length says two. *)
Definition one_cut : bytes := take 19 (WalFiles.encode_record framed (mk_RawRecord 2 0 [7; 8])).
Lemma one_cut_torn : torn_write framed one_cut.
Proof.
  exists (mk_RawRecord 2 0 [7; 8]), (drop 19 (WalFiles.encode_record framed (mk_RawRecord 2 0 [7; 8]))).
  split_and!; [|vm_compute; discriminate|reflexivity]. split; [unfold is_u64|]; simpl; lia.
Qed.
Lemma load_survives_torn_write_witness :
  WalFiles.load unframed (fs_contents (WalFiles.append_last [0; 0; 0] (wal_files one_wal))) = Val one_wal ∧
  WalFiles.load unframed (fs_contents (WalFiles.append_last one_cut (wal_files one_wal))) = Val one_wal.
Proof.
  split.
  - apply (load_survives_torn_write framed unframed unframed_framed one_codec one_wal one_log);
      [exact one_represents|repeat constructor; discriminate|exact one_torn|]. left. simpl. lia.
  - apply (load_survives_torn_write framed unframed unframed_framed one_codec one_wal one_log);
      [exact one_represents|repeat constructor; discriminate|exact one_cut_torn|]. right. left. vm_compute. reflexivity.
Defined.
Lemma load_after_interrupted_rollover_witness :
  ∃ w', WalFiles.load unframed (fs_contents (WalFiles.append_last [0; 0; 0]
    (WalFiles.open_new_file_at 2 (wal_files one_wal)))) = Val w' ∧ WalFiles.current w' = 1.
Proof.
  apply (load_after_interrupted_rollover framed unframed unframed_framed one_codec one_wal one_log);
    [exact one_represents|simpl; lia|exact one_torn|reflexivity].
Defined.
