(* ===== verification/Protocol.v ===== *)
(** * The concurrent commit protocol: [storage/isolation_manager.rs]
    ([validate_commit], [validate_concurrent_from_windows],
    [resolve_concurrent], [await_pending_status_commits], [applied])

    Committing threads interleave at the granularity of the reads and writes of
    slot statuses, which are sequentially consistent atomics.  The state is the
    status of every sequence number and, for a commit being validated, the next
    predecessor it will look at; a transition is one iteration of the
    validation loop or one status change.  A thread that would spin has no
    transition.  The protocol keeps every status; the timeline of
    [IsolationManager] holds the recent ones and the log the rest. *)
From stdpp Require Import relations.
From S2P Require Import Prelude BTree Bytes MemoryStore Buffer Mvcc Snapshot Dependency Timeline Isolation.

Record sys := mk_sys {
  hist : Z → CommitStatus;
  cursor : Z → Z;
}.

Definition upd {A} (f : Z → A) (s : Z) (x : A) : Z → A := λ q, if bool_decide (q = s) then x else f q.
Lemma upd_eq {A} (f : Z → A) s x : upd f s x s = x.
Proof. unfold upd. by rewrite bool_decide_eq_true_2. Qed.
Lemma upd_ne {A} (f : Z → A) s x q : q ≠ s → upd f s x q = f q.
Proof. intros. unfold upd. by rewrite bool_decide_eq_false_2. Qed.

Inductive step : sys → sys → Prop :=
| step_begin σ s r :
    hist σ s = StatusEmpty → ob_wf (cr_operations r) → 0 ≤ cr_open_sequence_number r < s →
    step σ (mk_sys (upd (hist σ) s (StatusPending r)) (upd (cursor σ) s (cr_open_sequence_number r + 1)))
| step_check σ s r r' :
    hist σ s = StatusPending r → cursor σ s < s →
    resolve_status r (hist σ (cursor σ s)) = Some (None, r') →
    step σ (mk_sys (upd (hist σ) s (StatusPending r')) (upd (cursor σ) s (cursor σ s + 1)))
| step_reject σ s r r' c :
    hist σ s = StatusPending r → cursor σ s < s →
    resolve_status r (hist σ (cursor σ s)) = Some (Some c, r') →
    step σ (mk_sys (upd (hist σ) s StatusAborted) (cursor σ))
| step_validate σ s r :
    hist σ s = StatusPending r → cursor σ s = s →
    step σ (mk_sys (upd (hist σ) s (StatusValidated r)) (cursor σ))
| step_apply σ s r :
    hist σ s = StatusValidated r →
    step σ (mk_sys (upd (hist σ) s (StatusApplied r)) (cursor σ)).

Definition initial (σ : sys) : Prop := ∀ s, hist σ s = StatusEmpty ∨ hist σ s = StatusAborted.
Definition reachable (σ : sys) : Prop := ∃ σ0, initial σ0 ∧ rtc step σ0 σ.

(** ** How a status may change *)
Inductive evolves : CommitStatus → CommitStatus → Prop :=
| evolves_refl st : evolves st st
| evolves_begin r : evolves StatusEmpty (StatusPending r)
| evolves_reflag r r' : reflagged r r' → evolves (StatusPending r) (StatusPending r')
| evolves_abort r : evolves (StatusPending r) StatusAborted
| evolves_validate r : evolves (StatusPending r) (StatusValidated r)
| evolves_apply r : evolves (StatusValidated r) (StatusApplied r).

Lemma compatible_evolves r st st' : compatible r st → evolves st st' → compatible r st'.
Proof.
  intros [Hne Hc] Hev. destruct Hev as [st|p|p p' Hrf|p|p|p]; simpl in *; try done.
  - split; [done|]. intros x [= <-] Hconf. apply (Hc p eq_refl).
    by apply (conflicting_reflagged r r p p').
Qed.

Lemma compatible_reflagged r r' st : reflagged r r' → compatible r st → compatible r' st.
Proof.
  intros Hrf [Hne Hc]. split; [done|]. intros p Hp Hconf. apply (Hc p Hp).
  by apply (conflicting_reflagged r r' p p).
Qed.

Record inv (σ : sys) : Prop := {
  inv_wf : ∀ s, status_wf (hist σ s);
  inv_open : ∀ s r, hist σ s = StatusPending r → 0 ≤ cr_open_sequence_number r;
  inv_pending : ∀ s r, hist σ s = StatusPending r →
    cr_open_sequence_number r < cursor σ s ≤ s ∧
    ∀ p, cr_open_sequence_number r < p < cursor σ s → compatible r (hist σ p);
  inv_committed : ∀ s r, committed (hist σ s) = Some r →
    ∀ p, cr_open_sequence_number r < p < s → compatible r (hist σ p);
}.

(** One status changes, the others do not. *)
Lemma step_evolves σ σ' : inv σ → step σ σ' → ∀ q, evolves (hist σ q) (hist σ' q).
Proof.
  intros Hinv Hstep q. destruct Hstep as [σ s r He _ _|σ s r r' Hp _ Hr|σ s r r' c Hp _ _|σ s r Hp _|σ s r Hp]; simpl;
    (destruct (decide (q = s)) as [->|Hne]; [rewrite upd_eq|rewrite upd_ne by done; constructor]).
  - rewrite He. constructor.
  - rewrite Hp. constructor.
    eapply resolve_status_none; [|apply (inv_wf σ Hinv (cursor σ s))|exact Hr].
    apply (inv_wf σ Hinv s). by rewrite Hp.
  - rewrite Hp. constructor.
  - rewrite Hp. constructor.
  - rewrite Hp. constructor.
Qed.

Lemma evolves_wf st st' :
  evolves st st' → (∀ r, st = StatusEmpty → st' = StatusPending r → ob_wf (cr_operations r)) →
  status_wf st → status_wf st'.
Proof.
  intros Hev Hb Hwf r Hr. destruct Hev as [st|p|p p' Hrf|p|p|p]; simpl in *; simplify_eq.
  - by apply Hwf.
  - by apply Hb.
  - apply (rf_wf _ _ Hrf). by apply Hwf.
  - by apply Hwf.
  - by apply Hwf.
Qed.

Lemma inv_initial σ : initial σ → inv σ.
Proof.
  intros Hi. split; intros s; destruct (Hi s) as [Hs|Hs]; rewrite Hs; try done; intros r Hr; done.
Qed.

Lemma inv_step σ σ' : inv σ → step σ σ' → inv σ'.
Proof.
  intros Hinv Hstep. pose proof (step_evolves _ _ Hinv Hstep) as Hev.
  assert (Hkeep : ∀ r p, compatible r (hist σ p) → compatible r (hist σ' p)).
  { intros r p Hc. by eapply compatible_evolves. }
  assert (Hwf : ∀ s, status_wf (hist σ' s)).
  { intros q. eapply evolves_wf; [apply Hev| |apply (inv_wf σ Hinv)].
    intros x Hq Hq'. destruct Hstep as [σ s r He Hr _|σ s r r' Hp _ _|σ s r r' c Hp _ _|σ s r Hp _|σ s r Hp];
      simpl in Hq'; (destruct (decide (q = s)) as [->|Hne]; [rewrite upd_eq in Hq'|rewrite upd_ne in Hq' by done]);
      congruence. }
  (* pending and committed records of the other slots *)
  assert (Hpend : ∀ s r, hist σ s = StatusPending r → ∀ c, c = cursor σ s →
    cr_open_sequence_number r < c ≤ s ∧ ∀ p, cr_open_sequence_number r < p < c → compatible r (hist σ' p)).
  { intros s r Hs c ->. destruct (inv_pending σ Hinv s r Hs) as [? Hc]. split; [done|]. intros p Hp. by apply Hkeep, Hc. }
  assert (Hcomm : ∀ s r, committed (hist σ s) = Some r →
    ∀ p, cr_open_sequence_number r < p < s → compatible r (hist σ' p)).
  { intros s r Hs p Hp. apply Hkeep. by eapply (inv_committed σ Hinv). }
  destruct Hstep as [σ s r He Hr Ho|σ s r r' Hp Hc Hres|σ s r r' c Hp Hc Hres|σ s r Hp Hc|σ s r Hp]; simpl in *;
    (split; simpl; [exact Hwf|intros q x Hq|intros q x Hq|intros q x Hq]);
    (destruct (decide (q = s)) as [->|Hne];
      [rewrite ?upd_eq in *|rewrite ?(upd_ne _ _ _ q) in * by done]);
    try discriminate; try (by eapply (inv_open σ Hinv)); try (by eapply Hpend); try (by eapply Hcomm); simplify_eq/=.
  - lia.
  - split; [lia|]. intros p Hp. lia.
  - assert (Hwr : ob_wf (cr_operations r)) by (apply (inv_wf σ Hinv s); by rewrite Hp).
    destruct (resolve_status_none _ _ _ Hwr (inv_wf σ Hinv _) Hres) as [_ Hrf].
    rewrite (rf_open _ _ Hrf). by eapply (inv_open σ Hinv).
  - assert (Hwr : ob_wf (cr_operations r)) by (apply (inv_wf σ Hinv s); by rewrite Hp).
    destruct (resolve_status_none _ _ _ Hwr (inv_wf σ Hinv _) Hres) as [Hcomp Hrf].
    destruct (Hpend s r Hp _ eq_refl) as [Hlt Hold]. rewrite (rf_open _ _ Hrf). split; [lia|].
    intros p Hpr. apply (compatible_reflagged r); [done|].
    destruct (decide (p = cursor σ s)) as [->|]; [|apply Hold; lia].
    rewrite upd_ne by lia. done.
  - destruct (Hpend s _ Hp _ eq_refl) as [_ Hold]. intros p Hpr. apply Hold. lia.
  - intros p Hpr. apply (Hcomm s); [by rewrite Hp|done].
Qed.

Lemma reachable_inv σ : reachable σ → inv σ.
Proof.
  intros (σ0 & Hi & Hr). pose proof (inv_initial _ Hi) as Hinv. clear Hi.
  induction Hr as [|σ0 σ1 σ Hs _ IH]; [done|]. apply IH. by eapply inv_step.
Qed.

(** C1: snapshot isolation is enforced under every interleaving: in every
    reachable state, a validated or applied commit does not conflict with any
    validated or applied commit between the sequence number its snapshot read
    and its own, whichever of them finished validation first. *)
Theorem committed_transactions_do_not_conflict σ s p r rp :
  reachable σ → committed (hist σ s) = Some r → committed (hist σ p) = Some rp →
  cr_open_sequence_number r < p < s → ¬ conflicting (cr_operations r) (cr_operations rp).
Proof.
  intros Hr Hs Hp Hlt. destruct (inv_committed σ (reachable_inv σ Hr) s r Hs p Hlt) as [_ Hc].
  apply Hc. destruct (hist σ p); simplify_eq/=; done.
Qed.

(** A concrete run: commits 1 and 2 insert the same key, opened before each
    other's commit; both validate. *)
Definition run_start : sys := mk_sys (λ _, StatusEmpty) (λ _, 0).
Definition run_end : sys :=
  let r1 := run_record (Insert [5]) 0 in
  let r2 := run_record (Insert [6]) 0 in
  mk_sys (upd (upd (upd (upd (upd (hist run_start) 1 (StatusPending r1)) 2 (StatusPending r2)) 2 (StatusPending r2))
            2 (StatusValidated r2)) 1 (StatusValidated r1))
         (upd (upd (upd (cursor run_start) 1 1) 2 1) 2 2).
Lemma run_reachable : reachable run_end.
Proof.
  exists run_start. split; [by left|].
  eapply rtc_l; [apply (step_begin _ 1 (run_record (Insert [5]) 0)); [done|apply run_record_wf|simpl; lia]|].
  eapply rtc_l; [apply (step_begin _ 2 (run_record (Insert [6]) 0)); [done|apply run_record_wf|simpl; lia]|].
  eapply rtc_l; [eapply (step_check _ 2 (run_record (Insert [6]) 0)); [done|simpl; done|vm_compute; reflexivity]|].
  eapply rtc_l; [apply (step_validate _ 2 (run_record (Insert [6]) 0)); done|].
  eapply rtc_l; [apply (step_validate _ 1 (run_record (Insert [5]) 0)); done|].
  apply rtc_refl.
Qed.
Lemma committed_transactions_do_not_conflict_witness :
  reachable run_end ∧
  ¬ conflicting (cr_operations (run_record (Insert [6]) 0)) (cr_operations (run_record (Insert [5]) 0)).
Proof.
  split; [exact run_reachable|].
  apply (committed_transactions_do_not_conflict run_end 2 1); [exact run_reachable|reflexivity|reflexivity|simpl; lia].
Defined.

(** No commit is rejected without cause: whenever a pending commit becomes
    aborted, some commit between its snapshot's sequence number and its own is
    validated or applied and conflicts with it; a predecessor that is still
    pending is waited for instead. *)
Lemma rejection_has_a_committed_cause σ σ' s r :
  reachable σ → step σ σ' → hist σ s = StatusPending r → hist σ' s = StatusAborted →
  ∃ p rp, cr_open_sequence_number r < p < s ∧ committed (hist σ p) = Some rp ∧
          conflicting (cr_operations r) (cr_operations rp).
Proof.
  intros Hreach Hstep Hs Hs'. pose proof (reachable_inv σ Hreach) as Hinv.
  destruct Hstep as [σ q x He _ _|σ q x x' Hq _ _|σ q x x' c Hq Hc Hres|σ q x Hq _|σ q x Hq]; simpl in Hs';
    (destruct (decide (s = q)) as [->|Hne]; [rewrite upd_eq in Hs'|rewrite upd_ne in Hs' by done; congruence]);
    simplify_eq.
  rewrite Hs in Hq. injection Hq as <-.
  assert (Hwf : ob_wf (cr_operations r)) by (apply (inv_wf σ Hinv q); by rewrite Hs).
  destruct (resolve_status_conflict _ _ _ _ Hwf (inv_wf σ Hinv _) Hres) as (_ & rp & Hcp & Hconf).
  destruct (inv_pending σ Hinv q r Hs) as [Hlt _]. exists (cursor σ q), rp. split; [lia|done].
Qed.

Definition run_conflict : sys :=
  let r1 := mk_CommitRecord (OB.lock_add [9] Exclusive OB.new) 0 CommitData in
  mk_sys (upd (upd (upd (hist run_start) 1 (StatusPending r1)) 1 (StatusValidated r1)) 2 (StatusPending r1))
         (upd (upd (cursor run_start) 1 1) 2 1).
Lemma run_conflict_reachable : reachable run_conflict.
Proof.
  set (r1 := mk_CommitRecord (OB.lock_add [9] Exclusive OB.new) 0 CommitData).
  assert (Hwf : ob_wf (cr_operations r1)) by (apply operations_buffer_shape_lock, ob_wf_new).
  exists run_start. split; [by left|].
  eapply rtc_l; [apply (step_begin _ 1 r1); [done|exact Hwf|simpl; lia]|].
  eapply rtc_l; [apply (step_validate _ 1 r1); done|].
  eapply rtc_l; [apply (step_begin _ 2 r1); [done|exact Hwf|simpl; lia]|].
  apply rtc_refl.
Qed.
Lemma rejection_has_a_committed_cause_witness :
  let r1 := mk_CommitRecord (OB.lock_add [9] Exclusive OB.new) 0 CommitData in
  ∃ σ', step run_conflict σ' ∧ hist σ' 2 = StatusAborted ∧
  ∃ p rp, 0 < p < 2 ∧ committed (hist run_conflict p) = Some rp ∧ conflicting (cr_operations r1) (cr_operations rp).
Proof.
  intros r1.
  assert (Hstep : step run_conflict (mk_sys (upd (hist run_conflict) 2 StatusAborted) (cursor run_conflict))).
  { eapply (step_reject run_conflict 2 r1); [reflexivity|reflexivity|vm_compute; reflexivity]. }
  eexists. split; [exact Hstep|]. split; [reflexivity|].
  apply (rejection_has_a_committed_cause run_conflict _ 2 r1 run_conflict_reachable Hstep); reflexivity.
Defined.

(** ** Progress *)
(** One validation step of the commit [s]: its record is checked against its
    next predecessor, rejected or validated.  No other slot is written. *)
Inductive validation_step : sys → Z → sys → Prop :=
| validation_check σ s r r' :
    hist σ s = StatusPending r → cursor σ s < s →
    resolve_status r (hist σ (cursor σ s)) = Some (None, r') →
    validation_step σ s (mk_sys (upd (hist σ) s (StatusPending r')) (upd (cursor σ) s (cursor σ s + 1)))
| validation_reject σ s r r' c :
    hist σ s = StatusPending r → cursor σ s < s →
    resolve_status r (hist σ (cursor σ s)) = Some (Some c, r') →
    validation_step σ s (mk_sys (upd (hist σ) s StatusAborted) (cursor σ))
| validation_done σ s r :
    hist σ s = StatusPending r → cursor σ s = s →
    validation_step σ s (mk_sys (upd (hist σ) s (StatusValidated r)) (cursor σ)).
Lemma validation_step_step σ s σ' : validation_step σ s σ' → step σ σ'.
Proof. intros []; [by eapply step_check|by eapply step_reject|by eapply step_validate]. Qed.
Lemma validation_step_pending σ s σ' : validation_step σ s σ' → ∃ r, hist σ s = StatusPending r.
Proof. intros []; eauto. Qed.

(** A step of some pending commit at or below [s]. *)
Definition step_below (s : Z) (σ σ' : sys) : Prop := ∃ q, q ≤ s ∧ validation_step σ q σ'.

(** No sequence number that a pending commit at or below [s] has to look at is
    still unused. *)
Definition no_gaps (σ : sys) (s : Z) : Prop :=
  ∀ q x p, q ≤ s → hist σ q = StatusPending x → cr_open_sequence_number x < p < q → hist σ p ≠ StatusEmpty.

(** The validation steps the commits 1..[n] still have to take. *)
Definition work_of (σ : sys) (q : Z) : nat :=
  match hist σ q with StatusPending _ => Z.to_nat (q - cursor σ q + 1) | _ => 0%nat end.
Fixpoint work (σ : sys) (n : nat) : nat :=
  match n with O => 0%nat | S m => (work_of σ (Z.of_nat n) + work σ m)%nat end.

Lemma work_change σ σ' q n :
  0 < q → (∀ p, p ≠ q → work_of σ' p = work_of σ p) → (work_of σ' q < work_of σ q)%nat →
  (if Z.of_nat n <? q then work σ' n = work σ n else (work σ' n < work σ n)%nat).
Proof.
  intros Hq Hoth Hlt. induction n as [|n IH]; cbn [work].
  { by rewrite (proj2 (Z.ltb_lt _ _)) by lia. }
  destruct (Z.ltb_spec (Z.of_nat (S n)) q) as [Hn|Hn].
  - rewrite (proj2 (Z.ltb_lt _ _)) in IH by lia. rewrite Hoth by lia. lia.
  - destruct (decide (Z.of_nat (S n) = q)) as [He|Hne].
    + rewrite (proj2 (Z.ltb_lt _ _)) in IH by lia. rewrite He, IH. lia.
    + rewrite (proj2 (Z.ltb_ge _ _)) in IH by lia. rewrite Hoth by lia. lia.
Qed.

(** A validation step leaves less to do. *)
Lemma validation_step_work σ q σ' :
  inv σ → validation_step σ q σ' → 0 < q ∧ (∀ p, p ≠ q → work_of σ' p = work_of σ p) ∧ (work_of σ' q < work_of σ q)%nat.
Proof.
  intros Hinv Hstep. unfold work_of.
  destruct Hstep as [σ q r r' Hp Hc _|σ q r r' c Hp Hc _|σ q r Hp Hc]; cbn [hist cursor];
    destruct (inv_pending σ Hinv q r Hp) as [Hb _]; pose proof (inv_open σ Hinv q r Hp);
    (split; [lia|]); rewrite !upd_eq, Hp; (split; [intros p Hne; by rewrite !upd_ne|lia]).
Qed.
Lemma step_below_work s σ σ' : inv σ → step_below s σ σ' → (work σ' (Z.to_nat s) < work σ (Z.to_nat s))%nat.
Proof.
  intros Hinv (q & Hq & Hst). destruct (validation_step_work _ _ _ Hinv Hst) as (Hpos & Hoth & Hlt).
  pose proof (work_change σ σ' q (Z.to_nat s) Hpos Hoth Hlt) as Hw.
  by rewrite (proj2 (Z.ltb_ge _ _)) in Hw by lia.
Qed.

(** No slot becomes unused and none becomes pending, so no gap appears. *)
Lemma step_below_no_gaps s σ σ' : inv σ → step_below s σ σ' → no_gaps σ s → no_gaps σ' s.
Proof.
  intros Hinv (q & Hq & Hst) Hgap p x g Hp Hx Hg.
  assert (Hev : evolves (hist σ g) (hist σ' g)) by (eapply step_evolves; [done|by eapply validation_step_step]).
  assert (∃ y, hist σ p = StatusPending y ∧ cr_open_sequence_number y = cr_open_sequence_number x) as (y & Hy & Ho).
  { destruct Hst as [σ q r r' Hr Hc Hres|σ q r r' c Hr Hc _|σ q r Hr Hc]; cbn [hist] in Hx;
      (destruct (decide (p = q)) as [->|Hne]; [rewrite upd_eq in Hx|rewrite upd_ne in Hx by done; by exists x]);
      [|done..]. injection Hx as <-. exists r. split; [done|].
    symmetry. eapply rf_open, resolve_status_none; [|apply (inv_wf σ Hinv (cursor σ q))|exact Hres].
    apply (inv_wf σ Hinv q). by rewrite Hr. }
  assert (hist σ g ≠ StatusEmpty) as Hne by (eapply Hgap; [done|exact Hy|lia]).
  intros He. rewrite He in Hev. inversion Hev; congruence.
Qed.

(** Some pending commit at or below a pending commit can step: the lowest of
    those it waits for does not wait. *)
Lemma pending_can_step σ s r :
  inv σ → no_gaps σ s → hist σ s = StatusPending r → ∃ σ', step_below s σ σ'.
Proof.
  intros Hinv Hgap Hs.
  assert (Hind : ∀ n q x, q ≤ s → hist σ q = StatusPending x → (Z.to_nat q ≤ n)%nat → ∃ σ', step_below s σ σ').
  { induction n as [|n IH]; intros q x Hqs Hq Hle;
      destruct (inv_pending σ Hinv q x Hq) as [[Hlo Hhi] _]; pose proof (inv_open σ Hinv q x Hq); [lia|].
    destruct (decide (cursor σ q = q)) as [Hend|Hmore]; [by eexists _, q; split; [|by eapply validation_done]|].
    destruct (resolve_status x (hist σ (cursor σ q))) as [[[c|] x']|] eqn:Er.
    - eexists _, q. split; [done|]. eapply validation_reject; [done|lia|done].
    - eexists _, q. split; [done|]. eapply validation_check; [done|lia|done].
    - assert (hist σ (cursor σ q) ≠ StatusEmpty) as Hne by (eapply Hgap; [exact Hqs|done|lia]).
      destruct (hist σ (cursor σ q)) as [|p|p|p|] eqn:Ep; try done. apply (IH (cursor σ q) p); [lia|done|lia]. }
  by apply (Hind (Z.to_nat s) s r).
Qed.

(** C28: waiting cannot deadlock or go on for ever.  Take a reachable state in
    which a commit is pending and no sequence number that a pending commit at or
    below it must look at is still unused, and let the pending commits at or below
    it take validation steps (check the next predecessor, be rejected, be
    validated) in any order whatsoever.  Every such run is at most as long as the
    number of predecessors those commits have left to look at plus one each, and as
    long as the commit is still pending some pending commit at or below it can
    take such a step.  So every run ends with the commit decided. *)
Theorem waiting_cannot_deadlock σ s r n σ' :
  reachable σ → hist σ s = StatusPending r → no_gaps σ s → nsteps (step_below s) n σ σ' →
  (n ≤ work σ (Z.to_nat s))%nat ∧
  (∀ r', hist σ' s = StatusPending r' → ∃ q x σ'', q ≤ s ∧ hist σ' q = StatusPending x ∧ validation_step σ' q σ'') ∧
  ((∀ r', hist σ' s ≠ StatusPending r') → hist σ' s = StatusAborted ∨ ∃ r', hist σ' s = StatusValidated r' ∧ reflagged r r').
Proof.
  intros Hreach Hs Hgap Hrun. pose proof (reachable_inv σ Hreach) as Hinv. clear Hreach.
  assert (Hstart : (∃ r', hist σ s = StatusPending r' ∧ reflagged r r') ∨ hist σ s = StatusAborted ∨
    ∃ r', hist σ s = StatusValidated r' ∧ reflagged r r') by (left; by exists r). clear Hs.
  induction Hrun as [σ|n σ σ1 σ' Hst Hrun IH].
  - split; [lia|]. split.
    + intros r' Hp. destruct (pending_can_step σ s r' Hinv Hgap Hp) as (σ2 & q & Hq & Hv).
      destruct (validation_step_pending _ _ _ Hv) as [x Hx]. by exists q, x, σ2.
    + intros Hn. destruct Hstart as [(r' & Hp & _)|?]; [by destruct (Hn r')|done].
  - pose proof (step_below_work _ _ _ Hinv Hst) as Hw. pose proof Hst as (q & Hq & Hv).
    pose proof (validation_step_step _ _ _ Hv) as Hstep.
    destruct IH as (Hn & Hrest).
    + by eapply step_below_no_gaps.
    + by eapply inv_step.
    + pose proof (step_evolves _ _ Hinv Hstep s) as Hev.
      destruct Hstart as [(r' & Hp & Hrf)|[Ha|(r' & Hp & Hrf)]].
      * rewrite Hp in Hev. inversion Hev; subst; eauto.
        left. eexists. split; [done|]. by etransitivity.
      * rewrite Ha in Hev. inversion Hev; subst; eauto.
      * destruct Hv as [σ q x x' Hx _ _|σ q x x' c Hx _ _|σ q x Hx _]; cbn [hist];
          (rewrite upd_ne; [|congruence]); eauto.
    + split; [lia|done].
Qed.
Lemma waiting_cannot_deadlock_witness :
  let r1 := mk_CommitRecord (OB.lock_add [9] Exclusive OB.new) 0 CommitData in
  ∃ q x σ'', q ≤ 2 ∧ hist run_conflict q = StatusPending x ∧ validation_step run_conflict q σ''.
Proof.
  intros r1. refine (proj1 (proj2 (waiting_cannot_deadlock run_conflict 2 r1 0 run_conflict
    run_conflict_reachable eq_refl _ (nsteps_O _ _))) r1 eq_refl).
  intros q x p _ Hq Hp. unfold run_conflict in Hq |- *. cbn [hist] in Hq |- *.
  destruct (decide (q = 2)) as [->|Hq2].
  - rewrite upd_eq in Hq. injection Hq as <-. simpl in Hp. assert (p = 1) as -> by lia. discriminate.
  - rewrite upd_ne in Hq by done. destruct (decide (q = 1)) as [->|Hq1].
    + rewrite upd_eq in Hq. discriminate.
    + rewrite !upd_ne in Hq by done. discriminate.
Defined.

(** ** The manager refines the protocol *)
(** Validation of [s] has reached a predecessor for which it must wait. *)
Definition waits (σ : sys) (s : Z) : Prop :=
  ∃ r, hist σ s = StatusPending r ∧ cursor σ s < s ∧ resolve_status r (hist σ (cursor σ s)) = None.

Lemma check_interval_steps σ s n r p c r' :
  hist σ s = StatusPending r → cursor σ s = p → s = p + Z.of_nat n →
  check_interval (hist σ) n r p = Val (c, r') →
  ∃ σ', rtc step σ σ' ∧ (∀ q, q ≠ s → hist σ' q = hist σ q) ∧
    match c with
    | None => hist σ' s = StatusPending r' ∧ cursor σ' s = s
    | Some _ => hist σ' s = StatusAborted
    end.
Proof.
  revert σ r p. induction n as [|n IH]; intros σ r p Hs Hc Hn Hch.
  { injection Hch as <- <-. exists σ. split_and!; [apply rtc_refl|done|done|lia]. }
  cbn [check_interval] in Hch. subst p.
  destruct (resolve_status r (hist σ (cursor σ s))) as [[[c0|] r1]|] eqn:Er; [| |done].
  - injection Hch as <- <-. eexists. split; [apply rtc_once; eapply step_reject; [done|lia|done]|]. simpl.
    split; [intros q Hq; by rewrite upd_ne|by rewrite upd_eq].
  - set (σ1 := mk_sys (upd (hist σ) s (StatusPending r1)) (upd (cursor σ) s (cursor σ s + 1))).
    assert (Hstep : step σ σ1) by (apply (step_check σ s r r1); [done|lia|done]).
    destruct (IH σ1 r1 (cursor σ s + 1)) as (σ' & Hsteps & Hoth & Hres).
    + unfold σ1. simpl. by rewrite upd_eq.
    + unfold σ1. simpl. by rewrite upd_eq.
    + lia.
    + rewrite <-Hch. apply check_interval_ext. intros q Hq. unfold σ1. simpl. rewrite upd_ne by lia. done.
    + exists σ'. split_and!; [by eapply rtc_l| |done].
      intros q Hq. rewrite Hoth by done. unfold σ1. simpl. by rewrite upd_ne.
Qed.

Lemma check_interval_waits σ s n r p :
  hist σ s = StatusPending r → cursor σ s = p → s = p + Z.of_nat n →
  check_interval (hist σ) n r p = Err Spins →
  ∃ σ', rtc step σ σ' ∧ (∀ q, q ≠ s → hist σ' q = hist σ q) ∧ waits σ' s.
Proof.
  revert σ r p. induction n as [|n IH]; intros σ r p Hs Hc Hn Hch; [done|].
  cbn [check_interval] in Hch. subst p.
  destruct (resolve_status r (hist σ (cursor σ s))) as [[[c0|] r1]|] eqn:Er; [done| |].
  - set (σ1 := mk_sys (upd (hist σ) s (StatusPending r1)) (upd (cursor σ) s (cursor σ s + 1))).
    assert (Hstep : step σ σ1) by (apply (step_check σ s r r1); [done|lia|done]).
    destruct (IH σ1 r1 (cursor σ s + 1)) as (σ' & Hsteps & Hoth & Hres).
    + unfold σ1. simpl. by rewrite upd_eq.
    + unfold σ1. simpl. by rewrite upd_eq.
    + lia.
    + rewrite <-Hch. apply check_interval_ext. intros q Hq. unfold σ1. simpl. rewrite upd_ne by lia. done.
    + exists σ'. split_and!; [by eapply rtc_l| |done].
      intros q Hq. rewrite Hoth by done. unfold σ1. simpl. by rewrite upd_ne.
  - exists σ. split; [apply rtc_refl|]. split; [done|]. exists r. split_and!; [done|lia|done].
Qed.
Lemma check_interval_no_panic st n r p : check_interval st n r p ≠ Panic.
Proof.
  revert r p. induction n as [|n IH]; intros r p; simpl; [done|].
  destruct (resolve_status r (st p)) as [[[c|] r1]|]; [done|apply IH|done].
Qed.

(** C2: the isolation manager refines the commit protocol.  Let the timeline
    hold the interval between the snapshot's sequence number and the commit's own,
    which is unused, below 2^62 and above the snapshot's, let the recorded commits
    be well formed, and take any protocol state that agrees with the timeline;
    the predecessors may be in any state, pending and unused ones included.
    Then one call of [validate_commit] is a sequence of protocol steps.  Where it
    returns, it returns no durability error, the steps lead to a state that agrees
    with the resulting timeline on every sequence number it still holds, and the
    commit's slot there is aborted for a conflict and validated, with the record
    whose batches are returned, otherwise.  Where it spins, the steps lead to a
    state in which only the commit's slot has changed and in which the commit is
    pending at a predecessor that is unused, or pending and not independent of
    it, so the protocol has no step for it either.  It does not panic. *)
Theorem validate_commit_refines_protocol {DErr} (client : DurabilityClient DErr) m s r σ :
  let t := im_timeline m in
  let open := cr_open_sequence_number r in
  tl_ok t → base t ≤ s < 2 ^ 62 → status t s = StatusEmpty → 0 ≤ open < s → base t ≤ open + 1 →
  ob_wf (cr_operations r) → (∀ q, status_wf (status t q)) →
  (∀ q, base t ≤ q → hist σ q = status t q) →
  match Iso.validate_commit s r client m with
  | Val (inl res, m') => ∃ σ', rtc step σ σ' ∧
      base t ≤ base (im_timeline m') ∧ (∀ q, base (im_timeline m') ≤ q → hist σ' q = status (im_timeline m') q) ∧
      match res with
      | ValidatedConflict _ => hist σ' s = StatusAborted
      | ValidatedWrite batches =>
          ∃ r', hist σ' s = StatusValidated r' ∧ batches = Batches.from_operations s (cr_operations r')
      end
  | Err Spins => ∃ σ', rtc step σ σ' ∧ (∀ q, q ≠ s → hist σ' q = hist σ q) ∧ waits σ' s
  | Val (inr _, _) | Panic => False
  end.
Proof.
  intros t open Hok Hs He Ho Hm Hwf Hall Hag.
  set (n := Z.to_nat (s - (open + 1))).
  set (σ0 := mk_sys (upd (hist σ) s (StatusPending r)) (upd (cursor σ) s (open + 1))).
  assert (Hbegin : step σ σ0) by (apply step_begin; [rewrite Hag by lia; done|done|fold open; lia]).
  assert (Hp0 : hist σ0 s = StatusPending r ∧ cursor σ0 s = open + 1 ∧ s = open + 1 + Z.of_nat n).
  { unfold σ0, n. simpl. rewrite !upd_eq. split_and!; [done..|lia]. }
  destruct Hp0 as (Hp0 & Hc0 & Hn).
  assert (Hchk : check_interval (hist σ0) n r (open + 1) = check_interval (status t) n r (open + 1)).
  { apply check_interval_ext. intros q Hq. unfold σ0. simpl. rewrite upd_ne by lia. apply Hag. lia. }
  destruct (check_interval (status t) n r (open + 1)) as [[c r']|[]|] eqn:Hc.
  - destruct (check_interval_spec (status t) Hall n r (open + 1) c r' Hwf Hc) as [Hrf _].
    destruct (validate_commit_outcome client m s r Hok Hs He c r') as (res & m' & -> & Hok' & Hoth & Hwm & Hres).
    { intros t1 Hwk Hb Hl Hst. by apply (validate_in_memory client m s r Hs Ho c r' Hm Hc). }
    { done. }
    destruct (check_interval_steps σ0 s n r (open + 1) c r' Hp0 Hc0 Hn Hchk) as (σ1 & Hsteps & Hoth1 & Hres1).
    assert (Hbase : base t ≤ base (im_timeline m')) by apply Hwm.
    assert (Hagree : ∀ q, base (im_timeline m') ≤ q → q ≠ s → hist σ1 q = status (im_timeline m') q).
    { intros q Hq Hne. rewrite Hoth1 by done. unfold σ0. simpl. rewrite upd_ne by done.
      rewrite Hag by lia. by rewrite Hoth. }
    destruct c as [c|]; destruct Hres as (-> & Ha & _).
    + exists σ1. split_and!; [by eapply rtc_l|apply Hwm| |done].
      intros q Hq. destruct (decide (q = s)) as [->|]; [|by apply Hagree]. rewrite Hres1. symmetry. by apply Ha.
    + destruct Hres1 as [Hp Hcur].
      eexists. split_and!; [eapply rtc_l; [done|]; eapply rtc_r; [done|by eapply step_validate]|apply Hwm| |].
      * intros q Hq. simpl. destruct (decide (q = s)) as [->|Hne]; [by rewrite upd_eq|].
        rewrite upd_ne by done. by apply Hagree.
      * exists r'. simpl. by rewrite upd_eq.
  - rewrite (validate_commit_waits client m s r Hok Hs He Ho Hm Hc).
    destruct (check_interval_waits σ0 s n r (open + 1) Hp0 Hc0 Hn Hchk) as (σ1 & Hsteps & Hoth1 & Hw).
    exists σ1. split_and!; [by eapply rtc_l| |done].
    intros q Hq. rewrite Hoth1 by done. unfold σ0. simpl. by rewrite upd_ne.
  - by destruct (check_interval_no_panic (status t) n r (open + 1)).
Qed.

Lemma validate_commit_refines_protocol_witness :
  let r := run_record (Insert [6]) 0 in
  ∃ m, status (im_timeline m) 1 = StatusValidated (run_record (Insert [5]) 0) ∧
  match Iso.validate_commit 2 r no_log m with
  | Val (inl res, m') => ∃ σ', rtc step (mk_sys (status (im_timeline m)) (λ _, 0)) σ' ∧
      hist σ' 2 = status (im_timeline m') 2
  | Err Spins => False
  | _ => False
  end.
Proof.
  intros r. destruct one_validated_commit as (m & Hok & Hb & Hst). exists m. split; [by rewrite Hst|].
  pose proof (validate_commit_refines_protocol no_log m 2 r (mk_sys (status (im_timeline m)) (λ _, 0))) as Href.
  cbn zeta in Href. rewrite Hb in Href.
  assert (Hwfs : ∀ q, status_wf (status (im_timeline m) q)).
  { intros q x. rewrite Hst. case_bool_decide; [|done]. intros [= <-]. apply run_record_wf. }
  specialize (Href Hok ltac:(lia) ltac:(by rewrite Hst) ltac:(simpl; lia) ltac:(simpl; lia)
    (run_record_wf _ _) Hwfs ltac:(done)).
  destruct (validate_commit_in_memory no_log m 2 r Hok ltac:(rewrite Hb; lia) ltac:(by rewrite Hst) ltac:(simpl; lia)
    (run_record_wf _ _) Hwfs ltac:(rewrite Hb; simpl; lia)) as (c & r' & res & m' & Hv & _ & (Hok' & _ & _ & Hres) & Hspec).
  { simpl. intros q Hq. assert (q = 1) as -> by lia. right. rewrite Hst. simpl. eauto. }
  rewrite Hv in Href |- *. destruct Href as (σ' & Hsteps & Hb' & Hag & _). exists σ'. split; [done|]. apply Hag.
  destruct c as [c|]; [|destruct Hres as (_ & Hval & _); apply (window_of_status _ 2 Hok'); by rewrite Hval].
  destruct Hspec as (q & rq & Hq & Hcq & Hconf). simpl in Hq. assert (q = 1) as -> by lia.
  rewrite Hst in Hcq. injection Hcq as <-. exfalso. revert Hconf.
  exact (compute_dependency_spec r (run_record (Insert [5]) 0) (run_record_wf _ _) (run_record_wf _ _)).
Defined.
