(* ===== verification/Decimal.v ===== *)
(** * Decimals: [encoding/value/decimal_value.rs]

    A fixed-point number of 19 fractional digits: a signed 64-bit integer part
    and an unsigned fraction below [10^19], which needs more than half of the
    64-bit range, so sums of fractions overflow.  The operations are modelled at
    their widths, in the arithmetic of release builds; conversions to and from
    [f64] are not modelled.  Strings are lists of ASCII codes. *)
From S2P Require Import Prelude.

Definition FRACTIONAL_PART_DENOMINATOR_LOG10 : Z := 19.
Definition FRACTIONAL_PART_DENOMINATOR : Z := 10000000000000000000.
Definition i128 (z : Z) : Z := (z + 2 ^ 127) mod 2 ^ 128 - 2 ^ 127.
Definition is_i128 (z : Z) : Prop := - 2 ^ 127 ≤ z < 2 ^ 127.

Record Decimal := mk_Decimal { dec_integer : Z; dec_fractional : Z }.
#[global] Instance decimal_eq_dec : EqDecision Decimal.
Proof. solve_decision. Defined.

(** The kinds of [ParseIntError]. *)
Inductive ParseIntError := Empty | InvalidDigit | PosOverflow | NegOverflow.

Module Dec.
Abbreviation D := FRACTIONAL_PART_DENOMINATOR.

Definition default : Decimal := mk_Decimal 0 0.
Definition MIN : Decimal := mk_Decimal (- 2 ^ 63) 0.
Definition MAX : Decimal := mk_Decimal (2 ^ 63 - 1) (D - 1).

Definition abs (d : Decimal) : Decimal :=
  if 0 <=? dec_integer d then d
  else if dec_fractional d =? 0 then mk_Decimal (i64 (- dec_integer d)) 0
  else mk_Decimal (i64 (i64 (- dec_integer d) - 1)) (u64 (D - dec_fractional d)).
Definition floor (d : Decimal) : Z := dec_integer d.
Definition ceil (d : Decimal) : Z :=
  if dec_fractional d =? 0 then dec_integer d else i64 (dec_integer d + 1).
Definition round (d : Decimal) : Z :=
  match dec_fractional d ?= D / 2 with
  | Lt => dec_integer d
  | Eq => i64 (dec_integer d + dec_integer d mod 2)
  | Gt => i64 (dec_integer d + 1)
  end.
(** The derived order: the fields in turn. *)
Definition compare (a b : Decimal) : comparison :=
  match dec_integer a ?= dec_integer b with
  | Eq => dec_fractional a ?= dec_fractional b
  | c => c
  end.

Definition add (lhs rhs : Decimal) : outcome Decimal :=
  let sum := dec_fractional lhs + dec_fractional rhs in
  let frac := u64 sum in
  let overflow := 2 ^ 64 <=? sum in
  '(fractional, carry) ←
    (if negb overflow && (frac <? D) then Val (frac, 0)
     else if overflow && (frac <? D) then Val (u64 (frac + u64 (0 - D)), 1)
     else if negb overflow then Val (u64 (frac - D), 1)
     else Panic);
  Val (mk_Decimal (i64 (i64 (dec_integer lhs + dec_integer rhs) + carry)) fractional).
Definition sub (lhs rhs : Decimal) : Decimal :=
  let frac := u64 (dec_fractional lhs - dec_fractional rhs) in
  let '(fractional, carry) :=
    if dec_fractional lhs <? dec_fractional rhs then (u64 (frac + D), 1) else (frac, 0) in
  mk_Decimal (i64 (i64 (dec_integer lhs - dec_integer rhs) - carry)) fractional.
Definition neg (d : Decimal) : Decimal := sub default d.

(** The loop that makes the fraction non-negative; [/] and [%] truncate. *)
Fixpoint borrow (fuel : nat) (carry fractional : Z) : outcome (Z * Z) :=
  if fractional <? 0 then
    match fuel with O => Panic | S fuel => borrow fuel (i128 (carry - 1)) (i128 (fractional + D)) end
  else Val (carry, fractional).
Definition mul (lhs rhs : Decimal) : outcome Decimal :=
  let '(mk_Decimal li lf) := lhs in
  let '(mk_Decimal ri rf) := rhs in
  let fractional :=
    i128 (i128 (Z.quot (i128 (i128 (lf * rf) + Z.quot D 2)) D + Z.rem (i128 (lf * ri)) D) + Z.rem (i128 (li * rf)) D) in
  '(carry, fractional) ← borrow 1 (Z.quot fractional D) (Z.rem fractional D);
  let integer :=
    i128 (i128 (i128 (i64 (li * ri) + Z.quot (i128 (lf * ri)) D) + Z.quot (i128 (li * rf)) D) + carry) in
  Val (mk_Decimal (i64 integer) (u64 fractional)).
(** [Div<u64>]. *)
Definition div (d : Decimal) (rhs : Z) : outcome Decimal :=
  if rhs =? 0 then Panic
  else
    let q := Z.quot (i128 (i128 (dec_integer d * D) + dec_fractional d)) rhs in
    Val (mk_Decimal (i64 (q / D)) (u64 (q mod D))).

(** ** Parsing *)
Definition is_digit (c : Z) : bool := (48 <=? c) && (c <=? 57).
(** [from_str_radix(10)] on the digits: a bad digit is reported before the
    overflow of the multiplication it follows. *)
Fixpoint parse_positive (max acc : Z) (s : bytes) : exec ParseIntError Z :=
  match s with
  | [] => Val acc
  | c :: s =>
      if negb (is_digit c) then Err InvalidDigit
      else if max <? acc * 10 then Err PosOverflow
      else if max <? acc * 10 + (c - 48) then Err PosOverflow
      else parse_positive max (acc * 10 + (c - 48)) s
  end.
Fixpoint parse_negative (min acc : Z) (s : bytes) : exec ParseIntError Z :=
  match s with
  | [] => Val acc
  | c :: s =>
      if negb (is_digit c) then Err InvalidDigit
      else if acc * 10 <? min then Err NegOverflow
      else if acc * 10 - (c - 48) <? min then Err NegOverflow
      else parse_negative min (acc * 10 - (c - 48)) s
  end.
Definition parse_u64 (s : bytes) : exec ParseIntError Z :=
  match s with
  | [] => Err Empty
  | [43] => Err InvalidDigit
  | 43 :: s => parse_positive u64_max 0 s
  | s => parse_positive u64_max 0 s
  end.
Definition parse_i64 (s : bytes) : exec ParseIntError Z :=
  match s with
  | [] => Err Empty
  | [43] | [45] => Err InvalidDigit
  | 43 :: s => parse_positive (2 ^ 63 - 1) 0 s
  | 45 :: s => parse_negative (- 2 ^ 63) 0 s
  | s => parse_positive (2 ^ 63 - 1) 0 s
  end.
(** [10u64.pow(n)]: [10^64] is a multiple of [2^64]. *)
Definition pow10 (n : Z) : Z := if 64 <=? n then 0 else u64 (10 ^ n).

(** [trim_end_matches("dec")], on the reversed string, and
    [trim_start_matches('-')]. *)
Fixpoint trim_dec_rev (s : bytes) : bytes :=
  match s with 99 :: 101 :: 100 :: s => trim_dec_rev s | s => s end.
Fixpoint trim_minus (s : bytes) : bytes := match s with 45 :: s => trim_minus s | s => s end.
Fixpoint split_once (s : bytes) : option (bytes * bytes) :=
  match s with
  | [] => None
  | c :: s => if c =? 46 then Some ([], s)
              else match split_once s with Some (a, b) => Some (c :: a, b) | None => None end
  end.
Definition from_str (str : bytes) : exec ParseIntError Decimal :=
  let str := rev (trim_dec_rev (rev str)) in
  let is_negative := match str with 45 :: _ => true | _ => false end in
  let str := if is_negative then trim_minus str else str in
  let '(integer_part, fractional_part) :=
    match split_once str with Some p => p | None => (str, [48]) end in
  integer ← parse_i64 integer_part;
  let num_fractional_digits := u32 (Z.of_nat (length fractional_part)) in
  fractional ← parse_u64 fractional_part;
  let fractional := u64 (fractional * pow10 (u32 (FRACTIONAL_PART_DENOMINATOR_LOG10 - num_fractional_digits))) in
  Val (if is_negative then neg (mk_Decimal integer fractional) else mk_Decimal integer fractional).

(** ** Printing *)
(** [w] decimal digits of [n], most significant first. *)
Fixpoint digits (w : nat) (n : Z) : bytes :=
  match w with O => [] | S w => digits w (n / 10) ++ [48 + n mod 10] end.
Fixpoint strip_zeros (s : bytes) : bytes := match s with 48 :: s => strip_zeros s | s => s end.
(** Decimal notation of an unsigned 64-bit integer. *)
Definition show_nat (n : Z) : bytes := if n =? 0 then [48] else strip_zeros (digits 20 n).
Definition show_i64 (n : Z) : bytes := if n <? 0 then 45 :: show_nat (- n) else show_nat n.
(** [{:0width$}]. *)
Definition pad (width : nat) (n : Z) : bytes := replicate (width - length (show_nat n)) 48 ++ show_nat n.
Fixpoint drop_tail_zeros (fuel : nat) (tail_0s fractional : Z) : outcome (Z * Z) :=
  if fractional mod 10 =? 0 then
    match fuel with O => Panic | S fuel => drop_tail_zeros fuel (tail_0s + 1) (fractional / 10) end
  else Val (tail_0s, fractional).
Definition dec_suffix : bytes := [100; 101; 99].
Definition to_string (d : Decimal) : outcome bytes :=
  if dec_fractional d =? 0 then Val (show_i64 (dec_integer d) ++ [46; 48] ++ dec_suffix)
  else
    let '(is_negative, int, frac) :=
      if dec_integer d <? 0
      then (true, Z.abs (i64 (dec_integer d + 1)), u64 (D - dec_fractional d))
      else (false, dec_integer d, dec_fractional d) in
    '(tail_0s, fractional) ← drop_tail_zeros 19 0 frac;
    let fractional_width := Z.to_nat (FRACTIONAL_PART_DENOMINATOR_LOG10 - tail_0s) in
    Val ((if is_negative : bool then [45] else []) ++ show_i64 int ++ [46] ++ pad fractional_width fractional ++ dec_suffix).
End Dec.

(** ** Arithmetic *)
Definition dec_ok (d : Decimal) : Prop :=
  is_i64 (dec_integer d) ∧ 0 ≤ dec_fractional d < FRACTIONAL_PART_DENOMINATOR.
(** The number of units of [10^-19], and the number the type wraps it to. *)
Definition scaled (d : Decimal) : Z := dec_integer d * FRACTIONAL_PART_DENOMINATOR + dec_fractional d.
Definition wrapped (z : Z) : Z :=
  (z + 2 ^ 63 * FRACTIONAL_PART_DENOMINATOR) mod (2 ^ 64 * FRACTIONAL_PART_DENOMINATOR)
  - 2 ^ 63 * FRACTIONAL_PART_DENOMINATOR.
Definition representable (z : Z) : Prop :=
  - 2 ^ 63 * FRACTIONAL_PART_DENOMINATOR ≤ z < 2 ^ 63 * FRACTIONAL_PART_DENOMINATOR.

Lemma i64_range z : is_i64 (i64 z).
Proof. unfold is_i64, i64. pose proof (Z.mod_pos_bound (z + 2 ^ 63) (2 ^ 64)). lia. Qed.
Lemma i64_i64_add x y : i64 (i64 x + y) = i64 (x + y).
Proof.
  unfold i64. replace ((x + 2 ^ 63) mod 2 ^ 64 - 2 ^ 63 + y + 2 ^ 63) with ((x + 2 ^ 63) mod 2 ^ 64 + y) by lia.
  rewrite Z.add_mod_idemp_l by lia. do 2 f_equal. lia.
Qed.
Lemma i128_id z : is_i128 z → i128 z = z.
Proof. unfold is_i128, i128. intros. rewrite Z.mod_small; lia. Qed.

Lemma wrapped_id z : representable z → wrapped z = z.
Proof. unfold representable, wrapped, FRACTIONAL_PART_DENOMINATOR. intros. rewrite Z.mod_small; lia. Qed.
(** Wrapping the integer part wraps the number. *)
Lemma wrapped_integer x f :
  0 ≤ f < FRACTIONAL_PART_DENOMINATOR →
  i64 x * FRACTIONAL_PART_DENOMINATOR + f = wrapped (x * FRACTIONAL_PART_DENOMINATOR + f).
Proof.
  intros Hf. unfold i64, wrapped. set (D := FRACTIONAL_PART_DENOMINATOR) in *.
  assert (HD : 0 < D) by (unfold D, FRACTIONAL_PART_DENOMINATOR; lia).
  replace (x * D + f + 2 ^ 63 * D) with (f + (x + 2 ^ 63) * D) by lia. rewrite (Z.mul_comm (2 ^ 64) D).
  rewrite Z.rem_mul_r by lia. rewrite Z.mod_add, (Z.mod_small f), Z.div_add, (Z.div_small f), Z.add_0_l by lia. lia.
Qed.
Lemma scaled_inj a b : dec_ok a → dec_ok b → scaled a = scaled b → a = b.
Proof.
  destruct a as [ai af], b as [bi bf]. unfold dec_ok, scaled, FRACTIONAL_PART_DENOMINATOR. simpl.
  intros [_ ?] [_ ?] Heq. assert (ai = bi) by lia. subst. f_equal. lia.
Qed.
Lemma scaled_representable d : dec_ok d → representable (scaled d).
Proof. unfold dec_ok, scaled, representable, is_i64, FRACTIONAL_PART_DENOMINATOR. lia. Qed.

(** A decimal whose integer part is wrapped from [x]. *)
Lemma of_parts x f z :
  0 ≤ f < FRACTIONAL_PART_DENOMINATOR → x * FRACTIONAL_PART_DENOMINATOR + f = z →
  dec_ok (mk_Decimal (i64 x) f) ∧ scaled (mk_Decimal (i64 x) f) = wrapped z.
Proof.
  intros Hf <-. split; [split; [apply i64_range|done]|]. unfold scaled. simpl. by apply wrapped_integer.
Qed.

Lemma add_spec a b :
  dec_ok a → dec_ok b → ∃ c, Dec.add a b = Val c ∧ dec_ok c ∧ scaled c = wrapped (scaled a + scaled b).
Proof.
  destruct a as [ai af], b as [bi bf]. intros [_ Ha] [_ Hb]. cbn [dec_integer dec_fractional] in *.
  unfold Dec.add, scaled. cbn [dec_integer dec_fractional].
  unfold u64. unfold FRACTIONAL_PART_DENOMINATOR in *.
  change (2 ^ 64) with 18446744073709551616.
  destruct (Z.leb_spec 18446744073709551616 (af + bf)) as [Hov|Hov]; cbn [negb andb].
  - rewrite (Z.mod_eq (af + bf)) by lia. assert ((af + bf) / 18446744073709551616 = 1) as -> by (symmetry; apply (Z.div_unique _ _ 1 (af + bf - 18446744073709551616)); lia).
    rewrite (proj2 (Z.ltb_lt _ _)) by lia. cbn [mbind exec_bind].
    change ((0 - 10000000000000000000) mod 18446744073709551616) with 8446744073709551616.
    rewrite Z.mod_small by lia. eexists. split; [done|]. rewrite i64_i64_add. apply of_parts; unfold FRACTIONAL_PART_DENOMINATOR; lia.
  - rewrite (Z.mod_small (af + bf)) by lia. destruct (Z.ltb_spec (af + bf) 10000000000000000000); cbn [mbind exec_bind].
    + eexists. split; [done|]. rewrite i64_i64_add. apply of_parts; unfold FRACTIONAL_PART_DENOMINATOR; lia.
    + rewrite Z.mod_small by lia. eexists. split; [done|]. rewrite i64_i64_add. apply of_parts; unfold FRACTIONAL_PART_DENOMINATOR; lia.
Qed.

Lemma sub_spec a b :
  dec_ok a → dec_ok b → dec_ok (Dec.sub a b) ∧ scaled (Dec.sub a b) = wrapped (scaled a - scaled b).
Proof.
  destruct a as [ai af], b as [bi bf]. intros [_ Ha] [_ Hb]. cbn [dec_integer dec_fractional] in *.
  unfold Dec.sub. cbn [dec_integer dec_fractional]. unfold u64. change (2 ^ 64) with 18446744073709551616.
  unfold FRACTIONAL_PART_DENOMINATOR in *.
  destruct (Z.ltb_spec af bf) as [Hlt|Hge]; rewrite <-Z.add_opp_r, i64_i64_add; apply of_parts;
    unfold scaled, FRACTIONAL_PART_DENOMINATOR; cbn [dec_integer dec_fractional].
  - rewrite Zplus_mod_idemp_l, Z.mod_small; lia.
  - rewrite Zplus_mod_idemp_l, Z.mod_small; lia.
  - rewrite Z.mod_small; lia.
  - rewrite Z.mod_small; lia.
Qed.

Lemma quot_rem_unit a :
  a = FRACTIONAL_PART_DENOMINATOR * Z.quot a FRACTIONAL_PART_DENOMINATOR + Z.rem a FRACTIONAL_PART_DENOMINATOR ∧
  - FRACTIONAL_PART_DENOMINATOR < Z.rem a FRACTIONAL_PART_DENOMINATOR < FRACTIONAL_PART_DENOMINATOR.
Proof.
  unfold FRACTIONAL_PART_DENOMINATOR. split; [apply Z.quot_rem'|].
  pose proof (Z.rem_bound_abs a 10000000000000000000). lia.
Qed.
Lemma mul_bounds x y m n : - m ≤ x ≤ m → - n ≤ y ≤ n → - (m * n) ≤ x * y ≤ m * n.
Proof. intros. split; nia. Qed.

Lemma borrow_spec c f :
  - FRACTIONAL_PART_DENOMINATOR < f < FRACTIONAL_PART_DENOMINATOR → - 10 < c < 10 →
  ∃ c' f', Dec.borrow 1 c f = Val (c', f') ∧ 0 ≤ f' < FRACTIONAL_PART_DENOMINATOR ∧ - 20 < c' < 20 ∧
    c' * FRACTIONAL_PART_DENOMINATOR + f' = c * FRACTIONAL_PART_DENOMINATOR + f.
Proof.
  unfold FRACTIONAL_PART_DENOMINATOR. intros Hf Hc. cbn [Dec.borrow].
  destruct (Z.ltb_spec f 0).
  - unfold FRACTIONAL_PART_DENOMINATOR. rewrite !i128_id by (unfold is_i128; lia).
    rewrite (proj2 (Z.ltb_ge _ _)) by lia. eexists _, _. split_and!; [done|lia..].
  - eexists _, _. split_and!; [done|lia..].
Qed.

Lemma mul_spec a b :
  dec_ok a → dec_ok b → ∃ c, Dec.mul a b = Val c ∧ dec_ok c ∧
    scaled c = wrapped ((scaled a * scaled b + FRACTIONAL_PART_DENOMINATOR / 2) / FRACTIONAL_PART_DENOMINATOR).
Proof.
  destruct a as [li lf], b as [ri rf]. intros [Hli Hlf] [Hri Hrf]. cbn [dec_integer dec_fractional] in *.
  unfold is_i64 in *. unfold Dec.mul. set (D := FRACTIONAL_PART_DENOMINATOR) in *.
  assert (HD : D = 10000000000000000000) by done.
  pose proof (mul_bounds lf rf D D ltac:(lia) ltac:(lia)) as B1. pose proof (mul_bounds lf ri D (2 ^ 63) ltac:(lia) ltac:(lia)) as B2.
  pose proof (mul_bounds li rf (2 ^ 63) D ltac:(lia) ltac:(lia)) as B3.
  assert (B1' : 0 ≤ lf * rf) by nia.
  rewrite !(i128_id (lf * rf)), !(i128_id (lf * ri)), !(i128_id (li * rf)) by (unfold is_i128; lia).
  change (Z.quot D 2) with (D / 2). assert (HD2 : D / 2 = 5000000000000000000) by done.
  rewrite (i128_id (lf * rf + D / 2)) by (unfold is_i128; lia). rewrite (Z.quot_div_nonneg (lf * rf + D / 2) D) by lia.
  set (q1 := (lf * rf + D / 2) / D). assert (Hq1 : 0 ≤ q1 ≤ D).
  { unfold q1. split; [apply Z.div_pos; lia|]. apply Z.div_le_upper_bound; [lia|]. nia. }
  destruct (quot_rem_unit (lf * ri)) as [E2 R2]. destruct (quot_rem_unit (li * rf)) as [E3 R3]. fold D in E2, R2, E3, R3.
  set (q2 := Z.quot (lf * ri) D) in *. set (r2 := Z.rem (lf * ri) D) in *.
  set (q3 := Z.quot (li * rf) D) in *. set (r3 := Z.rem (li * rf) D) in *.
  rewrite (i128_id (q1 + r2)), (i128_id (q1 + r2 + r3)) by (unfold is_i128; lia).
  destruct (quot_rem_unit (q1 + r2 + r3)) as [E4 R4]. fold D in E4, R4.
  destruct (borrow_spec (Z.quot (q1 + r2 + r3) D) (Z.rem (q1 + r2 + r3) D)) as (c & f & Hb & Hf & Hc & Hcf).
  { exact R4. }
  { clearbody D; subst D; lia. }
  fold D in Hf, Hcf. rewrite Hb. cbn [mbind exec_bind].
  pose proof (i64_range (li * ri)) as Hw. unfold is_i64 in Hw.
  assert (Hq2 : - 2 ^ 64 ≤ q2 ≤ 2 ^ 64) by (clearbody D; subst D; lia).
  assert (Hq3 : - 2 ^ 64 ≤ q3 ≤ 2 ^ 64) by (clearbody D; subst D; lia).
  rewrite (i128_id (i64 (li * ri) + q2)), (i128_id (_ + q3)), (i128_id (_ + c)) by (unfold is_i128; lia).
  rewrite <-!Z.add_assoc, i64_i64_add, u64_id by (unfold is_u64; lia). eexists. split; [done|].
  apply of_parts; [done|]. fold D. unfold scaled. cbn [dec_integer dec_fractional]. fold D.
  replace ((li * D + lf) * (ri * D + rf) + D / 2) with ((li * ri * D + lf * ri + li * rf) * D + (lf * rf + D / 2)) by lia.
  rewrite Z.div_add_l by lia. fold q1. lia.
Qed.

Lemma div_spec a n :
  dec_ok a → 0 < n < 2 ^ 64 → ∃ c, Dec.div a n = Val c ∧ dec_ok c ∧ scaled c = Z.quot (scaled a) n.
Proof.
  intros Ha Hn. pose proof (scaled_representable a Ha) as Hr. unfold representable in Hr.
  unfold Dec.div. rewrite (proj2 (Z.eqb_neq _ _)) by lia. destruct Ha as [Hi Hf]. unfold is_i64, scaled in *.
  set (D := FRACTIONAL_PART_DENOMINATOR) in *. assert (HD : D = 10000000000000000000) by done.
  rewrite !i128_id by (unfold is_i128; rewrite ?i128_id; unfold is_i128; lia).
  set (z := dec_integer a * D + dec_fractional a) in *. set (q := Z.quot z n).
  assert (Hq : - 2 ^ 63 * D ≤ q < 2 ^ 63 * D).
  { pose proof (Z.quot_rem' z n) as E. pose proof (Z.rem_bound_abs z n ltac:(lia)) as B. fold q in E.
    destruct (Z.le_gt_cases 0 z).
    - assert (0 ≤ q) by (apply Z.quot_pos; lia). assert (q ≤ z) by (apply Z.quot_le_upper_bound; nia). lia.
    - assert (z ≤ q); [|assert (q ≤ 0); [|lia]].
      + assert (- q ≤ - z); [|lia]. unfold q. rewrite <-Z.quot_opp_l by lia. apply Z.quot_le_upper_bound; nia.
      + assert (0 ≤ - q); [|lia]. unfold q. rewrite <-Z.quot_opp_l by lia. apply Z.quot_pos; lia. }
  pose proof (Z.mod_pos_bound q D ltac:(lia)) as Hm. rewrite u64_id by (unfold is_u64; lia).
  destruct (of_parts (q / D) (q mod D) q Hm) as [Hok Hs]; [fold D; pose proof (Z.div_mod q D ltac:(lia)); lia|].
  eexists. split_and!; [done|done|]. etransitivity; [exact Hs|by apply wrapped_id].
Qed.

(** Decimal arithmetic is exact fixed-point arithmetic at the type's width:
    addition and subtraction of the numbers of units, multiplication rounded to
    the nearest unit (halves up) and division by an integer rounded towards
    zero, each wrapped to the type's range exactly as the number of units wraps
    (so exact whenever the result is representable); no operation panics on
    well-formed operands although the sum of two fractions overflows 64 bits,
    every result is well-formed, and the derived comparison is that of the
    numbers. *)
Lemma decimal_arithmetic_exact a b n :
  dec_ok a → dec_ok b → 0 < n < 2 ^ 64 →
  (∃ c, Dec.add a b = Val c ∧ dec_ok c ∧ scaled c = wrapped (scaled a + scaled b)) ∧
  (dec_ok (Dec.sub a b) ∧ scaled (Dec.sub a b) = wrapped (scaled a - scaled b)) ∧
  (∃ c, Dec.mul a b = Val c ∧ dec_ok c ∧
     scaled c = wrapped ((scaled a * scaled b + FRACTIONAL_PART_DENOMINATOR / 2) / FRACTIONAL_PART_DENOMINATOR)) ∧
  (∃ c, Dec.div a n = Val c ∧ dec_ok c ∧ scaled c = Z.quot (scaled a) n) ∧
  Dec.compare a b = (scaled a ?= scaled b) ∧ (∀ z, representable z → wrapped z = z).
Proof.
  intros Ha Hb Hn. split_and!;
    [by apply add_spec|by apply sub_spec|by apply sub_spec|by apply mul_spec|by apply div_spec| |apply wrapped_id].
  destruct Ha as [_ Ha], Hb as [_ Hb]. unfold Dec.compare, scaled. unfold FRACTIONAL_PART_DENOMINATOR in *.
  destruct (Z.compare_spec (dec_integer a) (dec_integer b)) as [->|Hlt|Hgt]; symmetry.
  - apply Z.add_compare_mono_l.
  - apply Z.compare_lt_iff. lia.
  - apply Z.compare_gt_iff. lia.
Qed.
Lemma decimal_arithmetic_exact_witness :
  let a := mk_Decimal (-1) 9999999999999999999 in
  ∃ c, Dec.add a a = Val c ∧ scaled c = -2 ∧ scaled (Dec.sub a a) = 0.
Proof.
  intros a. destruct (decimal_arithmetic_exact a a 7) as ((c & Hc & _ & Hs) & (_ & Hd) & _).
  - split; unfold is_i64, FRACTIONAL_PART_DENOMINATOR; simpl; lia.
  - split; unfold is_i64, FRACTIONAL_PART_DENOMINATOR; simpl; lia.
  - lia.
  - exists c. split; [exact Hc|]. split; [rewrite Hs; reflexivity|rewrite Hd; reflexivity].
Defined.

(** Rounding: down, up, and to the nearest integer with ties to even. *)
Lemma rounding_spec d :
  dec_ok d → dec_integer d < 2 ^ 63 - 1 →
  Dec.floor d = scaled d / FRACTIONAL_PART_DENOMINATOR ∧
  Dec.ceil d = - ((- scaled d) / FRACTIONAL_PART_DENOMINATOR) ∧
  2 * Z.abs (Dec.round d * FRACTIONAL_PART_DENOMINATOR - scaled d) ≤ FRACTIONAL_PART_DENOMINATOR ∧
  (2 * Z.abs (Dec.round d * FRACTIONAL_PART_DENOMINATOR - scaled d) = FRACTIONAL_PART_DENOMINATOR → Z.Even (Dec.round d)).
Proof.
  destruct d as [i f]. unfold dec_ok, is_i64, scaled, Dec.floor, Dec.ceil, Dec.round. cbn [dec_integer dec_fractional].
  intros [Hi Hf] Hmax. set (D := FRACTIONAL_PART_DENOMINATOR) in *. assert (HD : D = 10000000000000000000) by done.
  assert (HD2 : D / 2 = 5000000000000000000) by done. pose proof (Z.mod_pos_bound i 2 ltac:(lia)) as Hm.
  split_and!.
  - rewrite Z.div_add_l, Z.div_small by lia. lia.
  - destruct (Z.eqb_spec f 0) as [->|Hne].
    + rewrite Z.add_0_r, <-Z.mul_opp_l, Z.div_mul by lia. lia.
    + rewrite i64_id by (unfold is_i64; lia). replace (- (i * D + f)) with (- (i + 1) * D + (D - f)) by lia.
      rewrite Z.div_add_l, Z.div_small by lia. lia.
  - destruct (Z.compare_spec f (D / 2)); rewrite ?i64_id by (unfold is_i64; lia); [|lia..].
    assert (i mod 2 = 0 ∨ i mod 2 = 1) as [-> | ->] by lia; lia.
  - destruct (Z.compare_spec f (D / 2)); rewrite ?i64_id by (unfold is_i64; lia); [|lia..]. intros _.
    apply Z.even_spec. rewrite Z.even_add. rewrite (Zmod_even i). by destruct (Z.even i).
Qed.

(** ** Printing and parsing *)
Abbreviation all_digits := (Forall (λ c, Dec.is_digit c = true)).
Definition dvalue (acc : Z) (s : bytes) : Z := fold_left (λ a c, a * 10 + (c - 48)) s acc.

Lemma is_digit_range c : Dec.is_digit c = true ↔ 48 ≤ c ≤ 57.
Proof. unfold Dec.is_digit. rewrite andb_true_iff, !Z.leb_le. lia. Qed.
Lemma digit_cases (P : Z → Prop) c :
  Dec.is_digit c = true → P 48 → P 49 → P 50 → P 51 → P 52 → P 53 → P 54 → P 55 → P 56 → P 57 → P c.
Proof.
  intros Hc%is_digit_range **. assert (c = 48 ∨ c = 49 ∨ c = 50 ∨ c = 51 ∨ c = 52 ∨ c = 53 ∨ c = 54 ∨ c = 55 ∨ c = 56 ∨ c = 57)
    as [->|[->|[->|[->|[->|[->|[->|[->|[->| ->]]]]]]]]] by lia; done.
Qed.
Lemma dvalue_ge acc s : 0 ≤ acc → all_digits s → acc ≤ dvalue acc s.
Proof.
  intros Ha Hs. revert acc Ha. induction Hs as [|c s Hc _ IH]; intros acc Ha; simpl; [lia|].
  apply is_digit_range in Hc. specialize (IH (acc * 10 + (c - 48)) ltac:(lia)). unfold dvalue in *. lia.
Qed.
Lemma parse_positive_ok max acc s :
  0 ≤ acc → all_digits s → dvalue acc s ≤ max → Dec.parse_positive max acc s = Val (dvalue acc s).
Proof.
  intros Ha Hs. revert acc Ha. induction Hs as [|c s Hc Hs IH]; intros acc Ha Hmax; [done|].
  cbn [Dec.parse_positive]. rewrite Hc. cbn [negb]. apply is_digit_range in Hc.
  change (dvalue acc (c :: s)) with (dvalue (acc * 10 + (c - 48)) s) in *.
  pose proof (dvalue_ge (acc * 10 + (c - 48)) s ltac:(lia) Hs).
  rewrite !(proj2 (Z.ltb_ge _ _)) by lia. by apply IH; [lia|].
Qed.
Lemma parse_unsigned s :
  s ≠ [] → all_digits s → dvalue 0 s ≤ u64_max → Dec.parse_u64 s = Val (dvalue 0 s).
Proof.
  intros Hne Hs Hmax. rewrite <-(parse_positive_ok u64_max 0 s) by (done || lia).
  destruct Hs as [|c s Hc Hs]; [done|]. apply (digit_cases (λ c, Dec.parse_u64 (c :: s) = Dec.parse_positive u64_max 0 (c :: s)) c Hc); done.
Qed.
Lemma parse_signed s :
  s ≠ [] → all_digits s → dvalue 0 s ≤ 2 ^ 63 - 1 → Dec.parse_i64 s = Val (dvalue 0 s).
Proof.
  intros Hne Hs Hmax. rewrite <-(parse_positive_ok (2 ^ 63 - 1) 0 s) by (done || lia).
  destruct Hs as [|c s Hc Hs]; [done|].
  apply (digit_cases (λ c, Dec.parse_i64 (c :: s) = Dec.parse_positive (2 ^ 63 - 1) 0 (c :: s)) c Hc); done.
Qed.

Lemma dvalue_app acc s t : dvalue acc (s ++ t) = dvalue (dvalue acc s) t.
Proof. apply fold_left_app. Qed.
Lemma digits_all w n : all_digits (Dec.digits w n).
Proof.
  revert n. induction w as [|w IH]; intros n; simpl; [constructor|]. apply Forall_app. split; [apply IH|].
  apply Forall_singleton. apply is_digit_range. pose proof (Z.mod_pos_bound n 10). lia.
Qed.
Lemma dvalue_digits w n acc : dvalue acc (Dec.digits w n) = acc * 10 ^ Z.of_nat w + n mod 10 ^ Z.of_nat w.
Proof.
  revert n. induction w as [|w IH]; intros n; cbn [Dec.digits].
  - unfold dvalue. simpl. rewrite Z.mod_1_r. lia.
  - rewrite dvalue_app, IH. unfold dvalue. cbn [fold_left]. rewrite Nat2Z.inj_succ, Z.pow_succ_r by lia.
    rewrite Z.rem_mul_r by lia. lia.
Qed.
Lemma digits_pad k w n : 0 ≤ n < 10 ^ Z.of_nat w → Dec.digits (k + w) n = replicate k 48 ++ Dec.digits w n.
Proof.
  revert n. induction w as [|w IH]; intros n Hn.
  - assert (n = 0) as -> by (simpl in Hn; lia). rewrite Nat.add_0_r. cbn [Dec.digits]. rewrite app_nil_r.
    induction k as [|k IHk]; [done|]. cbn [Dec.digits]. change (0 / 10) with 0. rewrite IHk.
    change (48 + 0 mod 10) with 48. by rewrite <-replicate_cons_app.
  - rewrite Nat.add_succ_r. cbn [Dec.digits]. rewrite Nat2Z.inj_succ, Z.pow_succ_r in Hn by lia.
    rewrite IH, app_assoc; [done|]. split; [apply Z.div_pos; lia|apply Z.div_lt_upper_bound; lia].
Qed.
Lemma strip_zeros_value s : dvalue 0 (Dec.strip_zeros s) = dvalue 0 s.
Proof.
  induction s as [|c s IH]; [done|]. destruct (decide (c = 48)) as [->|Hne]; [exact IH|].
  assert (Dec.strip_zeros (c :: s) = c :: s) as ->; [|done]. simpl. repeat case_match; done.
Qed.
Lemma strip_zeros_suffix s : ∃ k, s = replicate k 48 ++ Dec.strip_zeros s.
Proof.
  induction s as [|c s (k & IH)]; [by exists 0%nat|]. destruct (decide (c = 48)) as [->|Hne].
  - exists (S k). cbn [Dec.strip_zeros replicate app]. by rewrite <-IH.
  - exists 0%nat. assert (Dec.strip_zeros (c :: s) = c :: s) as ->; [|done]. simpl. repeat case_match; done.
Qed.
Lemma strip_zeros_replicate k s : Dec.strip_zeros (replicate k 48 ++ s) = Dec.strip_zeros s.
Proof. induction k; [done|]. done. Qed.

(** Decimal notation: digits, at least one, at most [w] below [10^w], and its
    value. *)
Lemma show_nat_spec n w :
  0 ≤ n < 10 ^ Z.of_nat w → (1 ≤ w ≤ 20)%nat →
  all_digits (Dec.show_nat n) ∧ Dec.show_nat n ≠ [] ∧ (length (Dec.show_nat n) ≤ w)%nat ∧ dvalue 0 (Dec.show_nat n) = n.
Proof.
  intros Hn Hw. unfold Dec.show_nat. destruct (Z.eqb_spec n 0) as [->|Hne].
  { split_and!; [by repeat constructor|done|simpl; lia|done]. }
  assert (Hd : Dec.digits 20 n = replicate (20 - w) 48 ++ Dec.digits w n).
  { rewrite <-digits_pad by done. f_equal. lia. }
  assert (Hlen : ∀ w n, length (Dec.digits w n) = w).
  { clear. induction w as [|w IH]; intros n; [done|]. cbn [Dec.digits]. rewrite length_app, IH. simpl. lia. }
  assert (Hv : dvalue 0 (Dec.strip_zeros (Dec.digits 20 n)) = n).
  { rewrite strip_zeros_value, Hd, dvalue_app. assert (Hz : ∀ k, dvalue 0 (replicate k 48) = 0) by (clear; induction k; [done|exact IHk]).
    rewrite Hz, dvalue_digits, Z.mod_small by done. lia. }
  destruct (strip_zeros_suffix (Dec.digits w n)) as (k & Hk). pose proof (digits_all w n) as Hall.
  rewrite Hd, strip_zeros_replicate in *. split_and!; [|by intros E; rewrite E in Hv| |done].
  - rewrite Hk in Hall. by apply Forall_app in Hall as [_ ?].
  - pose proof (f_equal length Hk) as Hl. rewrite Hlen, length_app in Hl. lia.
Qed.
Lemma pad_spec n w :
  0 ≤ n < 10 ^ Z.of_nat w → (1 ≤ w ≤ 20)%nat →
  all_digits (Dec.pad w n) ∧ length (Dec.pad w n) = w ∧ dvalue 0 (Dec.pad w n) = n.
Proof.
  intros Hn Hw. destruct (show_nat_spec n w Hn Hw) as (Hd & _ & Hl & Hv). unfold Dec.pad. split_and!.
  - apply Forall_app. split; [|done]. by apply Forall_replicate.
  - rewrite length_app, length_replicate. lia.
  - rewrite dvalue_app. assert (Hz : ∀ k, dvalue 0 (replicate k 48) = 0) by (clear; induction k; [done|exact IHk]). by rewrite Hz.
Qed.

Lemma drop_tail_zeros_spec fuel t f :
  0 < f < 10 ^ Z.of_nat fuel →
  ∃ k f', Dec.drop_tail_zeros fuel t f = Val (t + Z.of_nat k, f') ∧ f = f' * 10 ^ Z.of_nat k ∧ 0 < f'.
Proof.
  revert t f. induction fuel as [|fuel IH]; intros t f Hf; [simpl in Hf; lia|].
  cbn [Dec.drop_tail_zeros]. destruct (Z.eqb_spec (f mod 10) 0) as [Hm|Hm].
  - assert (Hdiv : f = 10 * (f / 10)) by (pose proof (Z.div_mod f 10); lia).
    rewrite Nat2Z.inj_succ, Z.pow_succ_r in Hf by lia. destruct (IH (t + 1) (f / 10)) as (k & f' & -> & Heq & Hpos); [lia|].
    exists (S k), f'. split_and!; [do 2 f_equal; lia| |done]. rewrite Nat2Z.inj_succ, Z.pow_succ_r by lia. lia.
  - exists 0%nat, f. rewrite Z.add_0_r. split_and!; [done|simpl; lia|lia].
Qed.

(** The text around the digits. *)
Lemma trim_dec_suffix s c : Dec.is_digit c = true → rev (Dec.trim_dec_rev (rev ((s ++ [c]) ++ Dec.dec_suffix))) = s ++ [c].
Proof.
  intros Hc. rewrite rev_app_distr, rev_unit. 
  change (Dec.trim_dec_rev (rev Dec.dec_suffix ++ c :: rev s)) with (Dec.trim_dec_rev (c :: rev s)).
  assert (Dec.trim_dec_rev (c :: rev s) = c :: rev s) as ->.
  { apply (digit_cases (λ c, Dec.trim_dec_rev (c :: rev s) = c :: rev s) c Hc); done. }
  cbn [rev]. by rewrite rev_involutive.
Qed.
Lemma split_once_digits s t : all_digits s → Dec.split_once (s ++ 46 :: t) = Some (s, t).
Proof.
  induction 1 as [|c s Hc _ IH]; [done|]. cbn [app Dec.split_once]. apply is_digit_range in Hc.
  by rewrite (proj2 (Z.eqb_neq _ _)), IH by lia.
Qed.

(** Reading back a printed number. *)
Lemma from_str_ok (negative : bool) n ip fp :
  all_digits ip → ip ≠ [] → dvalue 0 ip = n → n ≤ 2 ^ 63 - 1 →
  all_digits fp → (1 ≤ length fp ≤ 19)%nat → dvalue 0 fp < 10 ^ Z.of_nat (length fp) →
  let d := mk_Decimal n (dvalue 0 fp * 10 ^ (19 - Z.of_nat (length fp))) in
  Dec.from_str ((if negative then [45] else []) ++ ip ++ [46] ++ fp ++ Dec.dec_suffix) =
    Val (if negative then Dec.neg d else d).
Proof.
  intros Hip Hine Hn Hmax Hfp Hlen Hfv d.
  assert (Hstr : rev (Dec.trim_dec_rev (rev ((if negative then [45] else []) ++ ip ++ [46] ++ fp ++ Dec.dec_suffix))) =
    (if negative then [45] else []) ++ ip ++ [46] ++ fp).
  { destruct fp as [|c fp _] using rev_ind; [simpl in Hlen; lia|]. apply Forall_app in Hfp as [_ Hc]. rewrite Forall_singleton in Hc.
    rewrite !app_assoc. by apply trim_dec_suffix. }
  unfold Dec.from_str. rewrite Hstr.
  assert (Hneg : match (if negative then [45] else []) ++ ip ++ [46] ++ fp with 45 :: _ => true | _ => false end = negative).
  { destruct negative; [done|]. destruct Hip as [|c ip Hc]; [done|]. cbn [app].
    apply (digit_cases (λ c, match c :: ip ++ 46 :: fp with 45 :: _ => true | _ => false end = false) c Hc); done. }
  rewrite Hneg.
  assert (Htrim : (if negative then Dec.trim_minus ((if negative then [45] else []) ++ ip ++ [46] ++ fp)
    else (if negative then [45] else []) ++ ip ++ [46] ++ fp) = ip ++ 46 :: fp).
  { destruct negative; [|done]. destruct Hip as [|c ip Hc]; [done|]. cbn [app].
    change (Dec.trim_minus (45 :: c :: ip ++ 46 :: fp)) with (Dec.trim_minus (c :: ip ++ 46 :: fp)).
    apply (digit_cases (λ c, Dec.trim_minus (c :: ip ++ 46 :: fp) = c :: ip ++ 46 :: fp) c Hc); done. }
  rewrite Htrim, split_once_digits by done. rewrite parse_signed by (done || lia). cbn [mbind exec_bind].
  assert (H10 : 10 ^ Z.of_nat (length fp) ≤ 10 ^ 19) by (apply Z.pow_le_mono_r; lia).
  assert (Hpos : 0 ≤ dvalue 0 fp) by (by apply dvalue_ge).
  rewrite parse_unsigned; [|by destruct fp; simpl in Hlen; [lia|]|done|unfold u64_max; lia]. cbn [mbind exec_bind].
  set (k := length fp) in *. unfold FRACTIONAL_PART_DENOMINATOR_LOG10.
  rewrite (u32_id (Z.of_nat k)), u32_id by (unfold is_u32; lia). unfold Dec.pow10.
  rewrite (proj2 (Z.leb_gt _ _)) by lia.
  assert (Hp : 0 < 10 ^ (19 - Z.of_nat k) ≤ 10 ^ 19) by (split; [apply Z.pow_pos_nonneg; lia|apply Z.pow_le_mono_r; lia]).
  rewrite (u64_id (10 ^ _)) by (unfold is_u64; lia).
  assert (Hprod : dvalue 0 fp * 10 ^ (19 - Z.of_nat k) < 10 ^ 19).
  { replace 19 with (Z.of_nat k + (19 - Z.of_nat k)) at 2 by lia. rewrite Z.pow_add_r by lia.
    apply Z.mul_lt_mono_pos_r; lia. }
  rewrite u64_id by (unfold is_u64; nia). rewrite Hn. by destruct negative.
Qed.

Lemma neg_spec d : dec_ok d → representable (- scaled d) → dec_ok (Dec.neg d) ∧ scaled (Dec.neg d) = - scaled d.
Proof.
  intros Hd Hr. destruct (sub_spec Dec.default d) as [Hok Hs]; [split; [unfold is_i64|unfold FRACTIONAL_PART_DENOMINATOR]; simpl; lia|done|].
  split; [exact Hok|]. unfold Dec.neg. rewrite Hs. change (scaled Dec.default) with 0. rewrite Z.sub_0_l. by apply wrapped_id.
Qed.

(** What [to_string] prints: a sign, and the integer and the fraction of the
    absolute value. *)
Definition units (n : Z) (fp : bytes) : Z :=
  n * FRACTIONAL_PART_DENOMINATOR + dvalue 0 fp * 10 ^ (19 - Z.of_nat (length fp)).
Lemma fraction_printed f :
  0 < f < FRACTIONAL_PART_DENOMINATOR → ∃ t f', Dec.drop_tail_zeros 19 0 f = Val (t, f') ∧
  let fp := Dec.pad (Z.to_nat (FRACTIONAL_PART_DENOMINATOR_LOG10 - t)) f' in
  all_digits fp ∧ (1 ≤ length fp ≤ 19)%nat ∧ dvalue 0 fp < 10 ^ Z.of_nat (length fp) ∧
  dvalue 0 fp * 10 ^ (19 - Z.of_nat (length fp)) = f.
Proof.
  intros Hf. unfold FRACTIONAL_PART_DENOMINATOR in Hf.
  destruct (drop_tail_zeros_spec 19 0 f ltac:(lia)) as (k & f' & -> & -> & Hpos).
  rewrite Z.add_0_l. exists (Z.of_nat k), f'. split; [done|]. unfold FRACTIONAL_PART_DENOMINATOR_LOG10.
  assert (Hk : (k < 19)%nat).
  { assert (10 ^ Z.of_nat k < 10 ^ 19) as Hlt%Z.pow_lt_mono_r_iff; [|lia..].
    assert (0 < 10 ^ Z.of_nat k) by (apply Z.pow_pos_nonneg; lia). nia. }
  set (w := Z.to_nat (19 - Z.of_nat k)). assert (Hw : Z.of_nat w = 19 - Z.of_nat k) by lia.
  assert (Hf' : 0 ≤ f' < 10 ^ Z.of_nat w).
  { split; [lia|]. rewrite Hw. apply (Z.mul_lt_mono_pos_r (10 ^ Z.of_nat k)); [apply Z.pow_pos_nonneg; lia|].
    rewrite <-Z.pow_add_r by lia. replace (19 - Z.of_nat k + Z.of_nat k) with 19 by lia. lia. }
  destruct (pad_spec f' w Hf' ltac:(lia)) as (Hd & Hl & Hv). cbv zeta. rewrite Hl, Hv.
  split_and!; [done|lia|lia|lia|]. do 2 f_equal. lia.
Qed.
Lemma to_string_parts d :
  dec_ok d → ∃ (negative : bool) n fp,
    Dec.to_string d = Val ((if negative then [45] else []) ++ Dec.show_nat n ++ [46] ++ fp ++ Dec.dec_suffix) ∧
    all_digits fp ∧ (1 ≤ length fp ≤ 19)%nat ∧ dvalue 0 fp < 10 ^ Z.of_nat (length fp) ∧
    0 ≤ n ≤ 2 ^ 63 ∧ (n = 2 ^ 63 → d = Dec.MIN) ∧ scaled d = if negative then - units n fp else units n fp.
Proof.
  destruct d as [i f]. intros [Hi Hf]. cbn [dec_integer dec_fractional] in *. unfold is_i64 in Hi.
  unfold Dec.to_string, units, scaled. cbn [dec_integer dec_fractional].
  destruct (Z.eqb_spec f 0) as [->|Hne].
  - exists (i <? 0), (Z.abs i), [48]. unfold Dec.show_i64. change (dvalue 0 [48]) with 0.
    destruct (Z.ltb_spec i 0); split_and!; try done; try (simpl; lia); try (by repeat constructor).
    + by rewrite Z.abs_neq by lia.
    + intros ?. unfold Dec.MIN. f_equal. lia.
    + by rewrite Z.abs_eq by lia.
  - set (D := FRACTIONAL_PART_DENOMINATOR) in *. assert (HD : D = 10000000000000000000) by done.
    destruct (Z.ltb_spec i 0) as [Hneg|Hpos].
    + rewrite i64_id by (unfold is_i64; lia). rewrite u64_id by (unfold is_u64; lia).
      destruct (fraction_printed (D - f) ltac:(fold D; lia)) as (t & f' & -> & Hd & Hl & Hb & Hv). cbn [mbind exec_bind].
      eexists true, (Z.abs (i + 1)), _. unfold Dec.show_i64. rewrite (proj2 (Z.ltb_ge _ _)) by lia.
      split_and!; [done|done|lia|lia|done|lia|lia|lia|]. rewrite Hv. lia.
    + destruct (fraction_printed f ltac:(fold D; lia)) as (t & f' & -> & Hd & Hl & Hb & Hv). cbn [mbind exec_bind].
      eexists false, i, _. unfold Dec.show_i64. rewrite (proj2 (Z.ltb_ge _ _)) by lia.
      split_and!; [done|done|lia|lia|done|lia|lia|lia|]. rewrite Hv. lia.
Qed.

(** Decimals print and parse back: for every decimal except the smallest
    one, [to_string] succeeds and [from_str] of its result is the decimal;
    signs, trailing zeros and leading zeros of the fraction are all accounted
    for.  The smallest decimal prints but does not parse: its integer part
    without the sign is out of range. *)
Lemma decimal_print_parse d :
  dec_ok d → ∃ s, Dec.to_string d = Val s ∧
    Dec.from_str s = if bool_decide (d = Dec.MIN) then Err PosOverflow else Val d.
Proof.
  intros Hd. case_bool_decide as Hmin.
  { subst d. eexists. split; [reflexivity|vm_compute; reflexivity]. }
  destruct (to_string_parts d Hd) as (negative & n & fp & -> & Hfp & Hl & Hb & Hn & Hm & Hs).
  eexists. split; [done|]. assert (n ≠ 2 ^ 63) by (by intros ?%Hm).
  destruct (show_nat_spec n 20 ltac:(lia) ltac:(lia)) as (Hip & Hne & _ & Hv).
  rewrite (from_str_ok negative n) by (done || lia). f_equal.
  assert (Hf : 0 ≤ dvalue 0 fp * 10 ^ (19 - Z.of_nat (length fp)) < FRACTIONAL_PART_DENOMINATOR).
  { change FRACTIONAL_PART_DENOMINATOR with (10 ^ 19). pose proof (dvalue_ge 0 fp ltac:(lia) Hfp).
    assert (0 < 10 ^ (19 - Z.of_nat (length fp))) by (apply Z.pow_pos_nonneg; lia). split; [nia|].
    replace 19 with (Z.of_nat (length fp) + (19 - Z.of_nat (length fp))) at 2 by lia. rewrite Z.pow_add_r by lia.
    apply Z.mul_lt_mono_pos_r; lia. }
  set (d' := mk_Decimal n _). assert (Hd' : dec_ok d') by (split; [unfold is_i64; simpl; lia|done]).
  assert (Hs' : scaled d' = units n fp) by done.
  destruct negative; [|by apply scaled_inj; [..|lia]].
  destruct (neg_spec d' Hd') as [Hok Hneg]; [rewrite Hs', <-Hs; by apply scaled_representable|].
  apply scaled_inj; [done..|lia].
Qed.
Lemma decimal_print_parse_witness :
  ∃ s, Dec.to_string (mk_Decimal (-1) 5000000000000000000) = Val s ∧
    Dec.from_str s = Val (mk_Decimal (-1) 5000000000000000000).
Proof.
  apply (decimal_print_parse (mk_Decimal (-1) 5000000000000000000)).
  split; [unfold is_i64|unfold FRACTIONAL_PART_DENOMINATOR]; simpl; lia.
Defined.

(** A fraction of twenty digits is dropped without an error, and so is a second
    sign. *)
Example long_fraction_dropped : Dec.from_str ([49; 46] ++ replicate 20 49) = Val (mk_Decimal 1 0).
Proof. vm_compute. reflexivity. Qed.
Example repeated_sign_accepted : Dec.from_str [45; 45; 53] = Val (mk_Decimal (-5) 0).
Proof. reflexivity. Qed.
