(* ===== verification/Duration.v ===== *)
(** * Durations: [encoding/value/duration_value.rs]

    A duration of months, days and nanoseconds: sums and differences, and the
    ISO-8601 text with its parser.  Adding a duration to a date is done by
    [chrono] and is not modelled.  Strings are lists of UTF-8 bytes. *)
From S2P Require Import Prelude Decimal.

Definition NANOS_PER_SEC : Z := 1000000000.
Definition NANOS_PER_MINUTE : Z := 60 * NANOS_PER_SEC.
Definition NANOS_PER_HOUR : Z := 60 * 60 * NANOS_PER_SEC.
Definition MAX_YEAR : Z := (2 ^ 31 - 1) / 2 ^ 13 - 1.
Definition MIN_YEAR : Z := (- 2 ^ 31) / 2 ^ 13 + 1.
Definition MONTHS_PER_YEAR : Z := 12.
Definition MAX_MONTHS : Z := u32 (u32 (MAX_YEAR - MIN_YEAR + 1) * MONTHS_PER_YEAR).
Definition DAYS_PER_WEEK : Z := 7.

Record Duration := mk_Duration { du_months : Z; du_days : Z; du_nanos : Z }.
Inductive DurationParseError := DurationParse.
Record Segment := mk_Segment { sg_number : Z; sg_symbol : Z; sg_number_len : nat }.

Module Dur.
Definition new (months days nanos : Z) : outcome Duration :=
  if months <=? MAX_MONTHS then Val (mk_Duration months days nanos) else Panic.
Definition is_empty (d : Duration) : bool := (du_months d =? 0) && (du_days d =? 0) && (du_nanos d =? 0).
Definition years (years : Z) : Duration := mk_Duration (u32 (years * MONTHS_PER_YEAR)) 0 0.
Definition months (months : Z) : Duration := mk_Duration months 0 0.
Definition weeks (weeks : Z) : Duration := mk_Duration 0 (u32 (weeks * DAYS_PER_WEEK)) 0.
Definition days (days : Z) : Duration := mk_Duration 0 days 0.
Definition hours (hours : Z) : Duration := mk_Duration 0 0 (u64 (hours * NANOS_PER_HOUR)).
Definition minutes (minutes : Z) : Duration := mk_Duration 0 0 (u64 (minutes * NANOS_PER_MINUTE)).
Definition seconds (seconds : Z) : Duration := mk_Duration 0 0 (u64 (seconds * NANOS_PER_SEC)).
Definition nanos (nanos : Z) : Duration := mk_Duration 0 0 nanos.
Definition add (lhs rhs : Duration) : outcome Duration :=
  new (u32 (du_months lhs + du_months rhs)) (u32 (du_days lhs + du_days rhs)) (u64 (du_nanos lhs + du_nanos rhs)).
Definition sub (lhs rhs : Duration) : outcome Duration :=
  new (u32 (du_months lhs - du_months rhs)) (u32 (du_days lhs - du_days rhs)) (u64 (du_nanos lhs - du_nanos rhs)).

(** ** Parsing *)
(** The loop [while i + 1 < str.len() && str[i].is_ascii_digit()]. *)
Fixpoint count_digits (str : bytes) : nat :=
  match str with
  | c :: (_ :: _) as str' => if Dec.is_digit c then S (count_digits str') else 0
  | _ => 0
  end.
(** [&str[n..]] panics inside a character. *)
Definition slice_from (n : nat) (str : bytes) : exec DurationParseError bytes :=
  match drop n str with
  | c :: _ => if (128 <=? c) && (c <? 192) then Panic else Val (drop n str)
  | [] => Val []
  end.
Definition read_u32 (str : bytes) : exec DurationParseError (Segment * bytes) :=
  let i := count_digits str in
  if (i =? 0)%nat then Err DurationParse
  else
    value ← map_err (λ _, DurationParse) (Dec.parse_u64 (take i str));
    symbol ← unwrap (str !! i);
    tail ← slice_from (i + 1) str;
    Val (mk_Segment value symbol i, tail).
(** One segment's contribution. *)
Definition apply_segment (parsing_time : bool) (previous_symbol : option Z) (s : Segment) (d : Duration)
  : exec DurationParseError Duration :=
  let '(mk_Duration months days nanos) := d in
  let '(mk_Segment number symbol number_len) := s in
  let after_point := match previous_symbol with Some p => p =? 46 | None => false end in
  if after_point && negb (symbol =? 83) then Err DurationParse
  else if symbol =? 89 then Val (mk_Duration (u32 (months + u32 (u32 number * MONTHS_PER_YEAR))) days nanos)
  else if (symbol =? 77) && negb parsing_time then Val (mk_Duration (u32 (months + u32 number)) days nanos)
  else if symbol =? 87 then Val (mk_Duration months (u32 (days + u32 (u32 number * DAYS_PER_WEEK))) nanos)
  else if symbol =? 68 then Val (mk_Duration months (u32 (days + u32 number)) nanos)
  else if symbol =? 72 then Val (mk_Duration months days (u64 (nanos + u64 (number * NANOS_PER_HOUR))))
  else if (symbol =? 77) && parsing_time then
    Val (mk_Duration months days (u64 (nanos + u64 (number * NANOS_PER_MINUTE))))
  else if symbol =? 46 then Val (mk_Duration months days (u64 (nanos + u64 (number * NANOS_PER_SEC))))
  else if (symbol =? 83) && negb after_point then
    Val (mk_Duration months days (u64 (nanos + u64 (number * NANOS_PER_SEC))))
  else if (symbol =? 83) && after_point then
    Val (mk_Duration months days (u64 (nanos + u64 (number * Dec.pow10 (u32 (9 - Z.of_nat number_len))))))
  else Err DurationParse.
Fixpoint parse_loop (fuel : nat) (parsing_time : bool) (previous_symbol : option Z) (d : Duration) (str : bytes)
  : exec DurationParseError Duration :=
  match str with
  | [] => Val d
  | c :: rest =>
      match fuel with
      | O => Panic
      | S fuel =>
          '(parsing_time, str) ← (if c =? 84 then rest ← slice_from 1 str; Val (true, rest) else Val (parsing_time, str));
          '(s, tail) ← read_u32 str;
          d ← apply_segment parsing_time previous_symbol s d;
          parse_loop fuel parsing_time (Some (sg_symbol s)) d tail
      end
  end.
(** The empty string is indexed out of bounds. *)
Definition from_str (str : bytes) : exec DurationParseError Duration :=
  match str with
  | [] => Panic
  | c :: _ =>
      if negb (c =? 80) then Err DurationParse
      else str ← slice_from 1 str; parse_loop (length str) false None (mk_Duration 0 0 0) str
  end.

(** ** Printing *)
Definition field (n symbol : Z) : bytes := if 0 <? n then Dec.show_nat n ++ [symbol] else [].
Definition to_string (d : Duration) : bytes :=
  if is_empty d then [80; 84; 48; 83]
  else
    [80] ++
    (if (0 <? du_months d) || (0 <? du_days d)
     then field (du_months d / MONTHS_PER_YEAR) 89 ++ field (du_months d mod MONTHS_PER_YEAR) 77 ++ field (du_days d) 68
     else []) ++
    (if 0 <? du_nanos d then
       let hours := du_nanos d / NANOS_PER_HOUR in
       let minutes := (du_nanos d mod NANOS_PER_HOUR) / NANOS_PER_MINUTE in
       let seconds := (du_nanos d mod NANOS_PER_MINUTE) / NANOS_PER_SEC in
       let nanos := du_nanos d mod NANOS_PER_SEC in
       [84] ++ field hours 72 ++ field minutes 77 ++
       (if (0 <? seconds) && (nanos =? 0) then Dec.show_nat seconds ++ [83]
        else if 0 <? nanos then Dec.show_nat seconds ++ [46] ++ Dec.pad 9 nanos ++ [83]
        else [])
     else []).
End Dur.

(** ** Parsing back what was printed *)
Record du_ok (d : Duration) : Prop := {
  du_months_ok : is_u32 (du_months d);
  du_days_ok : is_u32 (du_days d);
  du_nanos_ok : is_u64 (du_nanos d);
}.
(** A printed segment: an optional [T], digits and a symbol. *)
Record text_segment := mk_text_segment { ts_time : bool; ts_digits : bytes; ts_symbol : Z }.
Definition text (s : text_segment) : bytes := (if ts_time s then [84] else []) ++ ts_digits s ++ [ts_symbol s].
Record segment_ok (s : text_segment) : Prop := {
  so_digits : all_digits (ts_digits s);
  so_nonempty : ts_digits s ≠ [];
  so_value : dvalue 0 (ts_digits s) ≤ u64_max;
  so_symbol : 0 ≤ ts_symbol s < 128 ∧ Dec.is_digit (ts_symbol s) = false;
}.
Definition state : Type := bool * option Z * Duration.
Definition run_segment (st : state) (s : text_segment) : exec DurationParseError state :=
  let '(parsing_time, previous_symbol, d) := st in
  d ← Dur.apply_segment (parsing_time || ts_time s) previous_symbol
        (mk_Segment (dvalue 0 (ts_digits s)) (ts_symbol s) (length (ts_digits s))) d;
  Val (parsing_time || ts_time s, Some (ts_symbol s), d).
Fixpoint run (st : state) (l : list text_segment) : exec DurationParseError state :=
  match l with [] => Val st | s :: l => st ← run_segment st s; run st l end.
Lemma run_app st l k : run st (l ++ k) = st ← run st l; run st k.
Proof.
  revert st. induction l as [|s l IH]; intros st; [done|]. cbn [app run].
  destruct (run_segment st s); cbn [mbind exec_bind]; [apply IH|done..].
Qed.

Abbreviation ascii := (Forall (λ c, 0 ≤ c < 128)).
Lemma digits_ascii s : all_digits s → ascii s.
Proof. intros Hs. eapply Forall_impl; [exact Hs|]. intros c Hc%is_digit_range. lia. Qed.
Lemma text_ascii s : segment_ok s → ascii (text s).
Proof.
  intros [Hd _ _ [Hs _]]. unfold text. rewrite !Forall_app. split_and!;
    [destruct (ts_time s); repeat constructor; lia|by apply digits_ascii|by apply Forall_singleton].
Qed.
Lemma slice_ascii n s : ascii s → Dur.slice_from n s = Val (drop n s).
Proof.
  intros Hs. unfold Dur.slice_from. pose proof (Forall_drop _ n _ Hs) as Hd.
  destruct (drop n s) as [|c t]; [done|]. inversion Hd; subst. by rewrite (proj2 (Z.leb_gt _ _)) by lia.
Qed.
Lemma count_digits_app ds c tail :
  all_digits ds → Dec.is_digit c = false → Dur.count_digits (ds ++ c :: tail) = length ds.
Proof.
  intros Hd Hc. induction Hd as [|x ds Hx _ IH].
  - simpl. destruct tail; [done|]. by rewrite Hc.
  - cbn [app length]. destruct (ds ++ c :: tail) as [|y t] eqn:E; [by destruct ds|].
    cbn [Dur.count_digits]. rewrite Hx. f_equal. exact IH.
Qed.
Lemma read_segment s tail :
  segment_ok s → ascii tail →
  Dur.read_u32 (ts_digits s ++ ts_symbol s :: tail) =
    Val (mk_Segment (dvalue 0 (ts_digits s)) (ts_symbol s) (length (ts_digits s)), tail).
Proof.
  intros [Hd Hne Hv [Hs Hnd]] Ht. unfold Dur.read_u32. rewrite count_digits_app by done.
  rewrite (proj2 (Nat.eqb_neq _ _)) by (by intros ?%length_zero_iff_nil). rewrite take_app_length, parse_unsigned by done.
  cbn [map_err mbind exec_bind]. rewrite lookup_app_r, Nat.sub_diag by lia. cbn [lookup list_lookup unwrap mbind exec_bind].
  rewrite slice_ascii by (apply Forall_app; split; [by apply digits_ascii|by constructor]). cbn [mbind exec_bind].
  by rewrite <-drop_drop, drop_app_length.
Qed.

Lemma parse_run fuel pt prev d segs :
  Forall segment_ok segs → (length segs ≤ fuel)%nat →
  Dur.parse_loop fuel pt prev d (concat (text <$> segs)) = st ← run (pt, prev, d) segs; Val st.2.
Proof.
  intros Hok. revert fuel pt prev d. induction Hok as [|s segs Hs Hsegs IH]; intros fuel pt prev d Hf; [by destruct fuel|].
  destruct fuel as [|fuel]; [simpl in Hf; lia|]. cbn [fmap list_fmap concat].
  assert (Htail : ascii (concat (text <$> segs))).
  { apply Forall_concat, Forall_fmap. eapply Forall_impl; [exact Hsegs|]. apply text_ascii. }
  set (tail := concat (text <$> segs)) in *.
  assert (Hread : Dur.parse_loop (S fuel) pt prev d (text s ++ tail) =
    d ← Dur.apply_segment (pt || ts_time s) prev (mk_Segment (dvalue 0 (ts_digits s)) (ts_symbol s) (length (ts_digits s))) d;
    Dur.parse_loop fuel (pt || ts_time s) (Some (ts_symbol s)) d tail).
  { pose proof (read_segment s tail Hs Htail) as Hr. pose proof (text_ascii s Hs) as Ht. destruct Hs as [Hd Hne _ _].
    unfold text in *. destruct (ts_time s) eqn:Et.
    - cbn [app]. rewrite <-app_assoc. cbn [app Dur.parse_loop]. rewrite Z.eqb_refl.
      rewrite slice_ascii.
      2: { cbn [app] in Ht. inversion Ht as [|?? ? Ht']; subst. apply Forall_app in Ht' as [? Hsym].
           rewrite Forall_singleton in Hsym.
           constructor; [lia|]. apply Forall_app. split; [done|]. by constructor. }
      cbn [drop mbind exec_bind]. rewrite drop_0, Hr. cbn [mbind exec_bind sg_symbol]. by rewrite orb_true_r.
    - cbn [app]. rewrite <-app_assoc. cbn [app]. destruct (ts_digits s) as [|c ds] eqn:Eds; [done|]. cbn [app Dur.parse_loop].
      inversion Hd as [|?? Hc _]; subst. apply is_digit_range in Hc. rewrite (proj2 (Z.eqb_neq c 84)) by lia.
      cbn [mbind exec_bind]. cbn [app] in Hr. rewrite Hr. cbn [mbind exec_bind sg_symbol]. by rewrite orb_false_r. }
  rewrite Hread. cbn [run run_segment]. destruct (Dur.apply_segment _ _ _ d) as [d'| |]; cbn [mbind exec_bind]; [|done..].
  apply IH. simpl in Hf. lia.
Qed.

Definition segment_of (n symbol : Z) : list text_segment :=
  if 0 <? n then [mk_text_segment false (Dec.show_nat n) symbol] else [].
Definition date_segments (d : Duration) : list text_segment :=
  segment_of (du_months d / MONTHS_PER_YEAR) 89 ++ segment_of (du_months d mod MONTHS_PER_YEAR) 77 ++ segment_of (du_days d) 68.
Definition time_segments (n : Z) : list text_segment :=
  let seconds := (n mod NANOS_PER_MINUTE) / NANOS_PER_SEC in
  let nanos := n mod NANOS_PER_SEC in
  segment_of (n / NANOS_PER_HOUR) 72 ++ segment_of ((n mod NANOS_PER_HOUR) / NANOS_PER_MINUTE) 77 ++
  (if (0 <? seconds) && (nanos =? 0) then [mk_text_segment false (Dec.show_nat seconds) 83]
   else if 0 <? nanos then [mk_text_segment false (Dec.show_nat seconds) 46; mk_text_segment false (Dec.pad 9 nanos) 83]
   else []).
Definition mark (l : list text_segment) : list text_segment :=
  match l with [] => [] | s :: l => mk_text_segment true (ts_digits s) (ts_symbol s) :: l end.

Lemma field_text n symbol : Dur.field n symbol = concat (text <$> segment_of n symbol).
Proof. unfold Dur.field, segment_of. destruct (0 <? n); [|done]. csimpl. unfold text. simpl. by rewrite app_nil_r. Qed.
Lemma mark_text l : l ≠ [] → Forall (λ s, ts_time s = false) l → concat (text <$> mark l) = 84 :: concat (text <$> l).
Proof.
  intros Hne Hall. destruct Hall as [|[t ds c] l Hs _]; [done|]. cbn in Hs. by subst t.
Qed.
Lemma show_segment_ok t n symbol :
  is_u64 n → 0 ≤ symbol < 128 → Dec.is_digit symbol = false → segment_ok (mk_text_segment t (Dec.show_nat n) symbol).
Proof.
  unfold is_u64. intros Hn Hs Hd. destruct (show_nat_spec n 20 ltac:(lia) ltac:(lia)) as (H1 & H2 & _ & H4).
  split; cbn [ts_digits ts_symbol]; [done|done|rewrite H4; unfold u64_max; lia|done].
Qed.
Lemma segment_of_ok n symbol :
  is_u64 n → 0 ≤ symbol < 128 → Dec.is_digit symbol = false →
  Forall segment_ok (segment_of n symbol) ∧ Forall (λ s, ts_time s = false) (segment_of n symbol).
Proof.
  intros. unfold segment_of. destruct (0 <? n); split; repeat constructor; by apply show_segment_ok.
Qed.

(** The segments add up to the fields. *)
Definition not_point (previous_symbol : option Z) : Prop := previous_symbol ≠ Some 46.
Lemma apply_not_point pt prev s d : not_point prev → Dur.apply_segment pt prev s d = Dur.apply_segment pt None s d.
Proof.
  intros Hp. unfold Dur.apply_segment. destruct prev as [c|]; [|done].
  assert ((c =? 46) = false) as -> by (apply Z.eqb_neq; intros ->; by apply Hp). done.
Qed.
Lemma run_field pt prev d d' n symbol :
  not_point prev → symbol ≠ 46 → is_u64 n →
  (∀ k, 0 < n → Dur.apply_segment pt None (mk_Segment n symbol k) d = Val d') → (n = 0 → d' = d) →
  ∃ prev', not_point prev' ∧ run (pt, prev, d) (segment_of n symbol) = Val (pt, prev', d').
Proof.
  unfold is_u64. intros Hp Hs Hn Hpos Hzero. unfold segment_of. destruct (Z.ltb_spec 0 n).
  - exists (Some symbol). split; [by intros [= ?]|]. cbn [run run_segment ts_time ts_digits ts_symbol].
    destruct (show_nat_spec n 20 ltac:(lia) ltac:(lia)) as (_ & _ & _ & ->).
    rewrite orb_false_r, apply_not_point, Hpos by (done || lia). done.
  - exists prev. rewrite Hzero by lia. done.
Qed.
Lemma run_mark pt prev d l :
  l ≠ [] → Forall (λ s, ts_time s = false) l → run (pt, prev, d) (mark l) = run (true, prev, d) l.
Proof.
  intros Hne Hall. destruct Hall as [|[t ds c] l Hs _]; [done|]. cbn in Hs. subst t.
  cbn [mark run run_segment ts_time ts_digits ts_symbol]. by rewrite orb_true_r.
Qed.

(** Innermost wrapped integers that are in range. *)
Ltac unwrap_ints :=
  repeat match goal with
  | |- context [u32 ?x] =>
      lazymatch x with context [u32 _] => fail | _ => rewrite (u32_id x) by (unfold is_u32; lia) end
  | |- context [u64 ?x] =>
      lazymatch x with context [u64 _] => fail | _ => rewrite (u64_id x) by (unfold is_u64; lia) end
  end.
Lemma run_date d :
  du_ok d → ∃ prev, not_point prev ∧
    run (false, None, mk_Duration 0 0 0) (date_segments d) = Val (false, prev, mk_Duration (du_months d) (du_days d) 0).
Proof.
  destruct d as [m dd n]. intros [Hm Hd _]. cbn [du_months du_days] in *. unfold is_u32 in *. unfold date_segments.
  cbn [du_months du_days]. unfold MONTHS_PER_YEAR. pose proof (Z.div_mod m 12 ltac:(lia)) as Hdm.
  pose proof (Z.mod_pos_bound m 12 ltac:(lia)) as Hb. assert (0 ≤ m / 12) by lia.
  rewrite !run_app.
  destruct (run_field false None (mk_Duration 0 0 0) (mk_Duration (m / 12 * 12) 0 0) (m / 12) 89) as (p1 & Hp1 & ->).
  { done. } { done. } { unfold is_u64; lia. }
  { intros k _. cbn. unfold MONTHS_PER_YEAR. unwrap_ints. done. }
  { intros ->. done. }
  cbn [mbind exec_bind]. rewrite run_app.
  destruct (run_field false p1 (mk_Duration (m / 12 * 12) 0 0) (mk_Duration m 0 0) (m mod 12) 77) as (p2 & Hp2 & ->).
  { done. } { done. } { unfold is_u64; lia. }
  { intros k _. cbn. unwrap_ints. do 2 f_equal. lia. }
  { intros E. f_equal. lia. }
  cbn [mbind exec_bind].
  destruct (run_field false p2 (mk_Duration m 0 0) (mk_Duration m dd 0) dd 68) as (p3 & Hp3 & ->).
  { done. } { done. } { unfold is_u64; lia. }
  { intros k _. cbn. unwrap_ints. done. }
  { intros ->. done. }
  by exists p3.
Qed.

(** The fields of a number of nanoseconds. *)
Lemma time_fields n :
  is_u64 n →
  let h := n / NANOS_PER_HOUR in
  let m := (n mod NANOS_PER_HOUR) / NANOS_PER_MINUTE in
  let s := (n mod NANOS_PER_MINUTE) / NANOS_PER_SEC in
  let f := n mod NANOS_PER_SEC in
  n = h * NANOS_PER_HOUR + m * NANOS_PER_MINUTE + s * NANOS_PER_SEC + f ∧
  0 ≤ h ∧ 0 ≤ m ∧ 0 ≤ s ∧ 0 ≤ f < NANOS_PER_SEC.
Proof.
  unfold is_u64, NANOS_PER_HOUR, NANOS_PER_MINUTE, NANOS_PER_SEC. intros Hn.
  change (60 * 60 * 1000000000) with 3600000000000. change (60 * 1000000000) with 60000000000. cbv zeta.
  Z.div_mod_to_equations. lia.
Qed.
Lemma run_time prev d n :
  not_point prev → 0 < n → is_u64 n → du_nanos d = 0 →
  ∃ st, run (true, prev, d) (time_segments n) = Val st ∧ st.2 = mk_Duration (du_months d) (du_days d) n.
Proof.
  destruct d as [mo dd z]. cbn [du_nanos du_months du_days]. intros Hp Hpos Hn ->. unfold time_segments.
  destruct (time_fields n Hn) as (Hsum & Hh & Hm & Hs & Hf). unfold is_u64 in Hn.
  set (h := n / NANOS_PER_HOUR) in *. set (m := (n mod NANOS_PER_HOUR) / NANOS_PER_MINUTE) in *.
  set (s := (n mod NANOS_PER_MINUTE) / NANOS_PER_SEC) in *. set (f := n mod NANOS_PER_SEC) in *. clearbody h m s f.
  unfold NANOS_PER_HOUR, NANOS_PER_MINUTE, NANOS_PER_SEC in *. rewrite run_app.
  destruct (run_field true prev (mk_Duration mo dd 0) (mk_Duration mo dd (h * 3600000000000)) h 72) as (p1 & Hp1 & ->).
  { done. } { done. } { unfold is_u64; lia. }
  { intros k _. cbn. unfold NANOS_PER_HOUR, NANOS_PER_SEC. unwrap_ints. do 2 f_equal; lia. }
  { intros ->. done. }
  cbn [mbind exec_bind]. rewrite run_app.
  destruct (run_field true p1 (mk_Duration mo dd (h * 3600000000000)) (mk_Duration mo dd (h * 3600000000000 + m * 60000000000)) m 77)
    as (p2 & Hp2 & ->).
  { done. } { done. } { unfold is_u64; lia. }
  { intros k _. cbn. unfold NANOS_PER_MINUTE, NANOS_PER_SEC. unwrap_ints. do 2 f_equal; lia. }
  { intros ->. by rewrite Z.add_0_r. }
  cbn [mbind exec_bind]. destruct (show_nat_spec s 20 ltac:(lia) ltac:(lia)) as (_ & _ & _ & Hsv).
  destruct (Z.ltb_spec 0 s), (Z.eqb_spec f 0) as [->|Hne]; cbn [andb]; rewrite ?(proj2 (Z.ltb_lt 0 f)) by lia;
    cbn [Z.ltb Z.compare]; cbn [run run_segment ts_time ts_digits ts_symbol]; rewrite ?Hsv, ?apply_not_point by done.
  - eexists. split; [reflexivity|]. cbn. unfold NANOS_PER_SEC. unwrap_ints. f_equal. lia.
  - destruct (pad_spec f 9 ltac:(simpl; lia) ltac:(lia)) as (_ & Hpl & Hpv).
    eexists. split; [cbn -[Dec.pad Dec.show_nat dvalue]; rewrite Hpl, Hpv; reflexivity|]. cbn. unfold NANOS_PER_SEC.
    change (Dec.pow10 (u32 (9 - Z.of_nat 9))) with 1. unwrap_ints. f_equal. lia.
  - eexists. split; [reflexivity|]. cbn. f_equal. lia.
  - destruct (pad_spec f 9 ltac:(simpl; lia) ltac:(lia)) as (_ & Hpl & Hpv).
    eexists. split; [cbn -[Dec.pad Dec.show_nat dvalue]; rewrite Hpl, Hpv; reflexivity|]. cbn. unfold NANOS_PER_SEC.
    change (Dec.pow10 (u32 (9 - Z.of_nat 9))) with 1. unwrap_ints. f_equal. lia.
Qed.

Definition all_segments (d : Duration) : list text_segment :=
  if Dur.is_empty d then [mk_text_segment true [48] 83]
  else date_segments d ++ (if 0 <? du_nanos d then mark (time_segments (du_nanos d)) else []).

Lemma time_segments_ok n :
  is_u64 n → 0 < n → time_segments n ≠ [] ∧ Forall segment_ok (time_segments n) ∧
  Forall (λ s, ts_time s = false) (time_segments n).
Proof.
  intros Hn Hpos. destruct (time_fields n Hn) as (Hsum & Hh & Hm & Hs & Hf). unfold is_u64 in Hn. unfold time_segments.
  set (h := n / NANOS_PER_HOUR) in *. set (m := (n mod NANOS_PER_HOUR) / NANOS_PER_MINUTE) in *.
  set (s := (n mod NANOS_PER_MINUTE) / NANOS_PER_SEC) in *. set (f := n mod NANOS_PER_SEC) in *. clearbody h m s f.
  unfold NANOS_PER_HOUR, NANOS_PER_MINUTE, NANOS_PER_SEC in *.
  destruct (segment_of_ok h 72) as [H1 H1']; [unfold is_u64; lia|lia|done|].
  destruct (segment_of_ok m 77) as [H2 H2']; [unfold is_u64; lia|lia|done|].
  assert (Hsh : ∀ c, 0 ≤ c < 128 → Dec.is_digit c = false → segment_ok (mk_text_segment false (Dec.show_nat s) c))
    by (intros; apply show_segment_ok; [unfold is_u64; lia|done|done]).
  assert (Hpad : segment_ok (mk_text_segment false (Dec.pad 9 f) 83)).
  { destruct (pad_spec f 9 ltac:(simpl; lia) ltac:(lia)) as (Hd & Hl & Hv).
    split; cbn [ts_digits ts_symbol]; [done|by intros E; rewrite E in Hl|rewrite Hv; unfold u64_max; lia|done]. }
  split_and!.
  - unfold segment_of. destruct (Z.ltb_spec 0 h), (Z.ltb_spec 0 m), (Z.ltb_spec 0 s), (Z.eqb_spec f 0), (Z.ltb_spec 0 f); try done; lia.
  - rewrite !Forall_app. split_and!; [done..|]. repeat case_match;
    [constructor; [by apply Hsh|constructor]|constructor; [by apply Hsh|constructor; [done|constructor]]|constructor].
  - rewrite !Forall_app. split_and!; [done..|]. repeat case_match; by repeat constructor.
Qed.
Lemma all_segments_ok d : du_ok d → Forall segment_ok (all_segments d).
Proof.
  intros [Hm Hd Hn]. unfold all_segments, date_segments. destruct (Dur.is_empty d).
  { constructor; [|constructor]. split; cbn; [by repeat constructor|done|done|done]. }
  unfold is_u32 in *. unfold MONTHS_PER_YEAR. pose proof (Z.mod_pos_bound (du_months d) 12 ltac:(lia)).
  assert (0 ≤ du_months d / 12 ≤ du_months d) by (Z.div_mod_to_equations; lia).
  rewrite !Forall_app. split_and!.
  1-3: apply segment_of_ok; [unfold is_u64; lia|lia|done].
  destruct (Z.ltb_spec 0 (du_nanos d)) as [Hpos|]; [|constructor].
  destruct (time_segments_ok (du_nanos d) Hn Hpos) as (Hne & Hall & _). destruct Hall as [|[t ds c] l [? ? ? ?]]; [done|].
  cbn [mark]. by constructor.
Qed.
Lemma to_string_segments d : du_ok d → Dur.to_string d = 80 :: concat (text <$> all_segments d).
Proof.
  intros [Hm Hd Hn]. unfold Dur.to_string, all_segments. destruct (Dur.is_empty d); [done|]. cbn [app]. f_equal.
  unfold is_u32 in *. rewrite fmap_app, concat_app. f_equal.
  - unfold date_segments. rewrite !fmap_app, !concat_app, <-!field_text.
    destruct (Z.ltb_spec 0 (du_months d)), (Z.ltb_spec 0 (du_days d)); cbn [orb]; try done.
    replace (du_months d) with 0 by lia. replace (du_days d) with 0 by lia. done.
  - destruct (Z.ltb_spec 0 (du_nanos d)) as [Hpos|]; [|done].
    destruct (time_segments_ok (du_nanos d) Hn Hpos) as (Hne & _ & Hall). rewrite mark_text by done. f_equal.
    unfold time_segments. rewrite !fmap_app, !concat_app, <-!field_text. do 2 f_equal.
    repeat case_match; csimpl; unfold text; cbn [ts_time ts_digits ts_symbol app]; by rewrite ?app_nil_r, <-?app_assoc.
Qed.
Lemma run_all d : du_ok d → ∃ st, run (false, None, mk_Duration 0 0 0) (all_segments d) = Val st ∧ st.2 = d.
Proof.
  intros Hok. unfold all_segments. destruct (Dur.is_empty d) eqn:E.
  { unfold Dur.is_empty in E. rewrite !andb_true_iff, !Z.eqb_eq in E. destruct E as [[? ?] ?].
    eexists. split; [reflexivity|]. destruct d as [m dd n]. cbn [du_months du_days du_nanos] in *. by subst. }
  destruct (run_date d Hok) as (prev & Hp & Hrun). rewrite run_app, Hrun. cbn [mbind exec_bind].
  destruct Hok as [_ _ Hn]. destruct (Z.ltb_spec 0 (du_nanos d)) as [Hpos|Hle].
  - destruct (time_segments_ok (du_nanos d) Hn Hpos) as (Hne & _ & Hall). rewrite run_mark by done.
    destruct (run_time prev (mk_Duration (du_months d) (du_days d) 0) (du_nanos d)) as (st & -> & Hst); [done..|].
    exists st. split; [done|]. rewrite Hst. by destruct d.
  - eexists. split; [done|]. cbn [snd]. unfold is_u64 in Hn. destruct d as [m dd n]. cbn [du_nanos du_months du_days] in *. f_equal. lia.
Qed.

(** Durations print and parse back: for every duration (any 32-bit months
    and days, any 64-bit nanoseconds), [from_str] of the ISO-8601 text that
    [to_string] prints succeeds with the same duration, whichever of the fields
    are zero. *)
Lemma duration_print_parse d : du_ok d → Dur.from_str (Dur.to_string d) = Val d.
Proof.
  intros Hok. rewrite to_string_segments by done. pose proof (all_segments_ok d Hok) as Hsegs.
  assert (Hascii : ascii (concat (text <$> all_segments d)))
    by (apply Forall_concat, Forall_fmap; eapply Forall_impl; [exact Hsegs|apply text_ascii]).
  unfold Dur.from_str. rewrite Z.eqb_refl. cbn [negb].
  rewrite slice_ascii by (constructor; [lia|done]). cbn [mbind exec_bind].
  change (drop 1 (80 :: concat (text <$> all_segments d))) with (concat (text <$> all_segments d)).
  destruct (run_all d Hok) as (st & Hrun & Hst).
  rewrite parse_run; [rewrite Hrun; cbn [mbind exec_bind]; by rewrite Hst|done|].
  clear -Hsegs. induction Hsegs as [|s l Hs _ IH]; [simpl; lia|]. csimpl. rewrite length_app. unfold text at 1.
  rewrite !length_app. simpl. lia.
Qed.
Lemma duration_print_parse_witness :
  Dur.from_str (Dur.to_string (mk_Duration 14 3 3723000000005)) = Val (mk_Duration 14 3 3723000000005).
Proof. apply (duration_print_parse (mk_Duration 14 3 3723000000005)). split; unfold is_u32, is_u64; simpl; lia. Defined.

(** The empty string and a text with a character outside ASCII after a symbol
    panic. *)
Example empty_duration_panics : Dur.from_str [] = Panic.
Proof. reflexivity. Qed.
Example non_ascii_duration_panics : Dur.from_str [80; 49; 195; 169] = Panic.
Proof. reflexivity. Qed.
