(* ===== verification/Layout.v ===== *)
(** * The key space: [encoding/layout/prefix.rs], [encoding/layout/infix.rs],
    [encoding/encoding.rs], [encoding/graph/definition/definition_key.rs] and
    [encoding/value/value_type.rs]

    Every key starts with the byte of its [Prefix]; the keyspace a key is stored
    in is an [EncodingKeyspace].  Value types are named by their category byte
    and, for structs, the key of the struct's definition. *)
From S2P Require Import Prelude Bytes.

(** ** Prefixes and infixes *)
Inductive Prefix :=
| VertexEntityType
| VertexRelationType
| VertexAttributeType
| VertexRoleType
| DefinitionStruct
| DefinitionFunction
| VertexEntity
| VertexRelation
| VertexAttribute
| EdgeSub
| EdgeSubReverse
| EdgeOwns
| EdgeOwnsReverse
| EdgePlays
| EdgePlaysReverse
| EdgeRelates
| EdgeRelatesReverse
| EdgeHas
| EdgeHasReverse
| EdgeLinks
| EdgeLinksReverse
| EdgeLinksIndex
| PropertyTypeVertex
| PropertyTypeEdge
| PropertyObjectVertex
| IndexLabelToType
| IndexNameToDefinitionStruct
| IndexNameToDefinitionFunction
| IndexValueToStruct.
#[global] Instance Prefix_eq_dec : EqDecision Prefix.
Proof. solve_decision. Defined.

Module Prefixes.
Definition prefix_id (p : Prefix) : Z :=
  match p with
  | VertexEntityType => 10
  | VertexRelationType => 11
  | VertexAttributeType => 12
  | VertexRoleType => 15
  | DefinitionStruct => 20
  | DefinitionFunction => 21
  | VertexEntity => 30
  | VertexRelation => 31
  | VertexAttribute => 32
  | EdgeSub => 100
  | EdgeSubReverse => 101
  | EdgeOwns => 102
  | EdgeOwnsReverse => 103
  | EdgePlays => 104
  | EdgePlaysReverse => 105
  | EdgeRelates => 106
  | EdgeRelatesReverse => 107
  | EdgeHas => 130
  | EdgeHasReverse => 131
  | EdgeLinks => 132
  | EdgeLinksReverse => 133
  | EdgeLinksIndex => 140
  | PropertyTypeVertex => 160
  | PropertyTypeEdge => 162
  | PropertyObjectVertex => 163
  | IndexLabelToType => 182
  | IndexNameToDefinitionStruct => 183
  | IndexNameToDefinitionFunction => 184
  | IndexValueToStruct => 190
  end.
Definition successor_prefix_id (p : Prefix) : Z :=
  match p with
  | VertexEntityType => 10 + 1
  | VertexRelationType => 11 + 1
  | VertexAttributeType => 12 + 1
  | VertexRoleType => 15 + 1
  | DefinitionStruct => 20 + 1
  | DefinitionFunction => 21 + 1
  | VertexEntity => 30 + 1
  | VertexRelation => 31 + 1
  | VertexAttribute => 32 + 1
  | EdgeSub => 100 + 1
  | EdgeSubReverse => 101 + 1
  | EdgeOwns => 102 + 1
  | EdgeOwnsReverse => 103 + 1
  | EdgePlays => 104 + 1
  | EdgePlaysReverse => 105 + 1
  | EdgeRelates => 106 + 1
  | EdgeRelatesReverse => 107 + 1
  | EdgeHas => 130 + 1
  | EdgeHasReverse => 131 + 1
  | EdgeLinks => 132 + 1
  | EdgeLinksReverse => 133 + 1
  | EdgeLinksIndex => 140 + 1
  | PropertyTypeVertex => 160 + 1
  | PropertyTypeEdge => 162 + 1
  | PropertyObjectVertex => 163 + 1
  | IndexLabelToType => 182 + 1
  | IndexNameToDefinitionStruct => 183 + 1
  | IndexNameToDefinitionFunction => 184 + 1
  | IndexValueToStruct => 190 + 1
  end.
Definition from_prefix_id (byte : Z) : outcome Prefix :=
  match byte with
  | 10 => Val VertexEntityType
  | 11 => Val VertexRelationType
  | 12 => Val VertexAttributeType
  | 15 => Val VertexRoleType
  | 20 => Val DefinitionStruct
  | 21 => Val DefinitionFunction
  | 30 => Val VertexEntity
  | 31 => Val VertexRelation
  | 32 => Val VertexAttribute
  | 100 => Val EdgeSub
  | 101 => Val EdgeSubReverse
  | 102 => Val EdgeOwns
  | 103 => Val EdgeOwnsReverse
  | 104 => Val EdgePlays
  | 105 => Val EdgePlaysReverse
  | 106 => Val EdgeRelates
  | 107 => Val EdgeRelatesReverse
  | 130 => Val EdgeHas
  | 131 => Val EdgeHasReverse
  | 132 => Val EdgeLinks
  | 133 => Val EdgeLinksReverse
  | 140 => Val EdgeLinksIndex
  | 160 => Val PropertyTypeVertex
  | 162 => Val PropertyTypeEdge
  | 163 => Val PropertyObjectVertex
  | 182 => Val IndexLabelToType
  | 183 => Val IndexNameToDefinitionStruct
  | 184 => Val IndexNameToDefinitionFunction
  | 190 => Val IndexValueToStruct
  | _ => Panic
  end.
(** Whether all keys of the prefix have the same width. *)
Definition fixed_width_keys (p : Prefix) : bool :=
  match p with
  | VertexEntityType => true
  | VertexRelationType => true
  | VertexAttributeType => true
  | VertexRoleType => true
  | DefinitionStruct => true
  | DefinitionFunction => true
  | VertexEntity => true
  | VertexRelation => true
  | VertexAttribute => false
  | EdgeSub => true
  | EdgeSubReverse => true
  | EdgeOwns => true
  | EdgeOwnsReverse => true
  | EdgePlays => true
  | EdgePlaysReverse => true
  | EdgeRelates => true
  | EdgeRelatesReverse => true
  | EdgeHas => false
  | EdgeHasReverse => false
  | EdgeLinks => true
  | EdgeLinksReverse => true
  | EdgeLinksIndex => true
  | PropertyTypeVertex => true
  | PropertyTypeEdge => true
  | PropertyObjectVertex => true
  | IndexLabelToType => false
  | IndexNameToDefinitionStruct => false
  | IndexNameToDefinitionFunction => false
  | IndexValueToStruct => false
  end.
Definition max_object_type_prefix : Prefix :=
  if prefix_id VertexEntityType <? prefix_id VertexRelationType then VertexEntityType else VertexRelationType.
Definition min_object_type_prefix : Prefix :=
  if prefix_id VertexEntityType <? prefix_id VertexRelationType then VertexRelationType else VertexEntityType.
End Prefixes.

Inductive Infix :=
| PropertyLabel
| PropertyValueType
| PropertyOrdering
| PropertyRelationTypeIndependent
| PropertyAnnotationAbstract
| PropertyAnnotationDistinct
| PropertyAnnotationDoc
| PropertyAnnotationIndependent
| PropertyAnnotationUnique
| PropertyAnnotationKey
| PropertyAnnotationCardinality
| PropertyAnnotationRegex
| PropertyAnnotationCascade
| PropertyAnnotationRange
| PropertyAnnotationValues
| PropertyAnnotationLast
| PropertyHasOrder
| PropertyLinksOrder.
#[global] Instance Infix_eq_dec : EqDecision Infix.
Proof. solve_decision. Defined.

Module Infixes.
Definition ANNOTATION_MIN : Infix := PropertyAnnotationAbstract.
Definition ANNOTATION_MAX : Infix := PropertyAnnotationLast.
Definition infix_id (i : Infix) : Z :=
  match i with
  | PropertyLabel => 0
  | PropertyValueType => 1
  | PropertyOrdering => 2
  | PropertyRelationTypeIndependent => 3
  | PropertyAnnotationAbstract => 50
  | PropertyAnnotationDistinct => 51
  | PropertyAnnotationDoc => 60
  | PropertyAnnotationIndependent => 52
  | PropertyAnnotationUnique => 53
  | PropertyAnnotationKey => 54
  | PropertyAnnotationCardinality => 55
  | PropertyAnnotationRegex => 56
  | PropertyAnnotationCascade => 57
  | PropertyAnnotationRange => 58
  | PropertyAnnotationValues => 59
  | PropertyAnnotationLast => 99
  | PropertyHasOrder => 100
  | PropertyLinksOrder => 101
  end.
Definition from_infix_id (id : Z) : outcome Infix :=
  match id with
  | 0 => Val PropertyLabel
  | 1 => Val PropertyValueType
  | 2 => Val PropertyOrdering
  | 3 => Val PropertyRelationTypeIndependent
  | 50 => Val PropertyAnnotationAbstract
  | 51 => Val PropertyAnnotationDistinct
  | 60 => Val PropertyAnnotationDoc
  | 52 => Val PropertyAnnotationIndependent
  | 53 => Val PropertyAnnotationUnique
  | 54 => Val PropertyAnnotationKey
  | 55 => Val PropertyAnnotationCardinality
  | 56 => Val PropertyAnnotationRegex
  | 57 => Val PropertyAnnotationCascade
  | 58 => Val PropertyAnnotationRange
  | 59 => Val PropertyAnnotationValues
  | 99 => Val PropertyAnnotationLast
  | 100 => Val PropertyHasOrder
  | 101 => Val PropertyLinksOrder
  | _ => Panic
  end.
End Infixes.

Inductive EncodingKeyspace :=
| DefaultOptimisedPrefix11
| OptimisedPrefix15
| OptimisedPrefix16
| OptimisedPrefix17
| OptimisedPrefix25.
#[global] Instance EncodingKeyspace_eq_dec : EqDecision EncodingKeyspace.
Proof. solve_decision. Defined.

Module EncodingKeyspaces.
Definition iter : list EncodingKeyspace :=
  [DefaultOptimisedPrefix11; OptimisedPrefix15; OptimisedPrefix16; OptimisedPrefix17; OptimisedPrefix25].
Definition id (k : EncodingKeyspace) : Z :=
  match k with
  | DefaultOptimisedPrefix11 => 0
  | OptimisedPrefix15 => 1
  | OptimisedPrefix16 => 2
  | OptimisedPrefix17 => 3
  | OptimisedPrefix25 => 4
  end.
Definition prefix_length (k : EncodingKeyspace) : option nat :=
  Some match k with
       | DefaultOptimisedPrefix11 => 11%nat
       | OptimisedPrefix15 => 15%nat
       | OptimisedPrefix16 => 16%nat
       | OptimisedPrefix17 => 17%nat
       | OptimisedPrefix25 => 25%nat
       end.
End EncodingKeyspaces.

(** ** Slices

    [bs[from..to]] of a slice panics out of range. *)
Definition slice (from to : nat) (bs : bytes) : outcome bytes :=
  if (from <=? to)%nat && (to <=? length bs)%nat then Val (take (to - from) (drop from bs)) else Panic.
(** [bs.try_into::<[u8; n]>().unwrap()]. *)
Definition into_array (n : nat) (bs : bytes) : outcome bytes :=
  if (length bs =? n)%nat then Val bs else Panic.

Lemma slice_middle (a b c : bytes) : slice (length a) (length a + length b) (a ++ b ++ c) = Val b.
Proof.
  unfold slice. rewrite !length_app.
  rewrite (proj2 (Nat.leb_le _ _)), (proj2 (Nat.leb_le _ _)) by lia. simpl.
  rewrite drop_app_length. f_equal.
  replace (length a + length b - length a)%nat with (length b) by lia. apply take_app_length.
Qed.
Lemma into_array_ok n (bs : bytes) : length bs = n → into_array n bs = Val bs.
Proof. intros. unfold into_array. by rewrite (proj2 (Nat.eqb_eq _ _)). Qed.
Lemma slice_at (a b c : bytes) n m :
  length a = n → (n + length b)%nat = m → slice n m (a ++ b ++ c) = Val b.
Proof. intros <- <-. apply slice_middle. Qed.
Lemma slice_rest (a b : bytes) n m : length a = n → (n + length b)%nat = m → slice n m (a ++ b) = Val b.
Proof. intros. rewrite <-(app_nil_r (a ++ b)), <-app_assoc. by apply slice_at. Qed.

(** ** Definition keys *)
Module DefinitionID.
Definition LENGTH : nat := 2.
Definition build (id : Z) : bytes := be_bytes LENGTH id.
Definition as_uint (bs : bytes) : Z := be_value bs.
End DefinitionID.

Module DefinitionKey.
Definition LENGTH : nat := (1 + DefinitionID.LENGTH)%nat.
Definition build (prefix : Prefix) (definition_id : bytes) : bytes := Prefixes.prefix_id prefix :: definition_id.
Definition definition_id (key : bytes) : outcome bytes :=
  s ← slice 1 (1 + DefinitionID.LENGTH) key; into_array DefinitionID.LENGTH s.
Definition build_prefix (prefix : Prefix) : EncodingKeyspace * bytes :=
  (DefaultOptimisedPrefix11, [Prefixes.prefix_id prefix]).
End DefinitionKey.

(** ** Value types *)
Inductive ValueTypeCategory :=
| CatBoolean | CatInteger | CatDouble | CatDecimal | CatDate | CatDateTime | CatDateTimeTZ | CatDuration
| CatString | CatStruct.
#[global] Instance ValueTypeCategory_eq_dec : EqDecision ValueTypeCategory.
Proof. solve_decision. Defined.

(** A struct's definition key is held as its bytes. *)
Inductive ValueType :=
| TyBoolean | TyInteger | TyDouble | TyDecimal | TyDate | TyDateTime | TyDateTimeTZ | TyDuration
| TyString | TyStruct (definition_key : bytes).
#[global] Instance ValueType_eq_dec : EqDecision ValueType.
Proof. solve_decision. Defined.

Module Category.
Definition to_bytes (c : ValueTypeCategory) : bytes :=
  match c with
  | CatBoolean => [0] | CatInteger => [1] | CatDouble => [2] | CatDecimal => [3] | CatDate => [4]
  | CatDateTime => [5] | CatDateTimeTZ => [6] | CatDuration => [7] | CatString => [8] | CatStruct => [40]
  end.
Definition from_bytes (b : bytes) : outcome ValueTypeCategory :=
  match b with
  | [0] => Val CatBoolean | [1] => Val CatInteger | [2] => Val CatDouble | [3] => Val CatDecimal
  | [4] => Val CatDate | [5] => Val CatDateTime | [6] => Val CatDateTimeTZ | [7] => Val CatDuration
  | [8] => Val CatString | [40] => Val CatStruct
  | _ => Panic
  end.
Definition comparable_categories (c : ValueTypeCategory) : list ValueTypeCategory :=
  match c with
  | CatBoolean => [CatBoolean]
  | CatInteger => [CatInteger; CatDouble; CatDecimal]
  | CatDouble => [CatInteger; CatDouble; CatDecimal]
  | CatDecimal => [CatInteger; CatDouble; CatDecimal]
  | CatDateTime => [CatDateTime]
  | CatDateTimeTZ => [CatDateTimeTZ]
  | CatDuration => [CatDuration]
  | CatString => [CatString]
  | CatStruct => [CatStruct]
  | CatDate => [CatDate]
  end.
Definition try_into_value_type (c : ValueTypeCategory) : option ValueType :=
  match c with
  | CatBoolean => Some TyBoolean | CatInteger => Some TyInteger | CatDouble => Some TyDouble
  | CatDecimal => Some TyDecimal | CatDate => Some TyDate | CatDateTime => Some TyDateTime
  | CatDateTimeTZ => Some TyDateTimeTZ | CatDuration => Some TyDuration | CatString => Some TyString
  | CatStruct => None
  end.
End Category.

Module VType.
Definition category (t : ValueType) : ValueTypeCategory :=
  match t with
  | TyBoolean => CatBoolean | TyInteger => CatInteger | TyDouble => CatDouble | TyDecimal => CatDecimal
  | TyDate => CatDate | TyDateTime => CatDateTime | TyDateTimeTZ => CatDateTimeTZ | TyDuration => CatDuration
  | TyString => CatString | TyStruct _ => CatStruct
  end.
Definition keyable (t : ValueType) : bool :=
  match t with
  | TyBoolean | TyInteger | TyDecimal | TyDate | TyDateTime | TyDateTimeTZ | TyDuration | TyString => true
  | TyDouble | TyStruct _ => false
  end.
Definition from_category_and_tail (c : ValueTypeCategory) (tail : bytes) : ValueType :=
  match c with
  | CatBoolean => TyBoolean | CatInteger => TyInteger | CatDouble => TyDouble | CatDecimal => TyDecimal
  | CatDate => TyDate | CatDateTime => TyDateTime | CatDateTimeTZ => TyDateTimeTZ | CatDuration => TyDuration
  | CatString => TyString | CatStruct => TyStruct tail
  end.
Definition is_trivially_castable_to (t : ValueType) (other : ValueTypeCategory) : bool :=
  if bool_decide (category t = other) then true
  else
    match t with
    | TyInteger => bool_decide (other = CatDouble) || bool_decide (other = CatDecimal)
    | TyDecimal => bool_decide (other = CatDouble)
    | TyDate => bool_decide (other = CatDateTime)
    | _ => false
    end.
Definition is_approximately_castable_to (t : ValueType) (other : ValueTypeCategory) : bool :=
  if bool_decide (category t = other) then true
  else
    match t with
    | TyInteger => bool_decide (other = CatDouble) || bool_decide (other = CatDecimal)
    | TyDecimal => bool_decide (other = CatDouble) || bool_decide (other = CatInteger)
    | TyDouble => bool_decide (other = CatDecimal) || bool_decide (other = CatInteger)
    | TyDate => bool_decide (other = CatDateTime)
    | _ => false
    end.
End VType.

Module ValueTypeBytes.
Definition CATEGORY_LENGTH : nat := 1.
Definition TAIL_LENGTH : nat := DefinitionKey.LENGTH.
Definition LENGTH : nat := (CATEGORY_LENGTH + TAIL_LENGTH)%nat.
Definition build (t : ValueType) : bytes :=
  Category.to_bytes (VType.category t) ++
  match t with TyStruct key => key | _ => replicate TAIL_LENGTH 0 end.
Definition to_value_type (b : bytes) : outcome ValueType :=
  c ← slice 0 CATEGORY_LENGTH b;
  category ← Category.from_bytes c;
  tail ← slice CATEGORY_LENGTH LENGTH b;
  Val (VType.from_category_and_tail category tail).
End ValueTypeBytes.

Lemma category_round_trip c : Category.from_bytes (Category.to_bytes c) = Val c.
Proof. by destruct c. Qed.
Lemma length_category c : length (Category.to_bytes c) = 1%nat.
Proof. by destruct c. Qed.
Lemma category_is_bytes c : is_bytes (Category.to_bytes c).
Proof. destruct c; repeat constructor; done. Qed.
Lemma prefix_round_trip p : Prefixes.from_prefix_id (Prefixes.prefix_id p) = Val p.
Proof. by destruct p. Qed.
Lemma prefix_id_inj p q : Prefixes.prefix_id p = Prefixes.prefix_id q → p = q.
Proof. intros H. apply (f_equal Prefixes.from_prefix_id) in H. rewrite !prefix_round_trip in H. by injection H. Qed.
Lemma prefix_id_byte p : is_byte (Prefixes.prefix_id p).
Proof. unfold is_byte. destruct p; simpl; lia. Qed.
Lemma infix_round_trip i : Infixes.from_infix_id (Infixes.infix_id i) = Val i.
Proof. by destruct i. Qed.

(** The prefixes named the largest and the smallest object type prefix are the
    other way round. *)
Example object_type_prefixes_swapped :
  Prefixes.prefix_id Prefixes.max_object_type_prefix < Prefixes.prefix_id Prefixes.min_object_type_prefix.
Proof. done. Qed.

(** A value type is read back from the bytes stored in the schema; the key of a
    struct's definition has [DefinitionKey.LENGTH] bytes. *)
Lemma value_type_round_trip t :
  match t with TyStruct key => length key = DefinitionKey.LENGTH | _ => True end →
  length (ValueTypeBytes.build t) = ValueTypeBytes.LENGTH ∧
  ValueTypeBytes.to_value_type (ValueTypeBytes.build t) = Val t.
Proof.
  destruct t as [| | | | | | | | |key]; try (intros _; split; reflexivity).
  intros Hlen. unfold DefinitionKey.LENGTH, DefinitionID.LENGTH in Hlen.
  destruct key as [|a [|b [|c [|]]]]; simpl in Hlen; try lia. done.
Qed.
