(* ===== verification/Values.v ===== *)
(** * Sortable encodings of values: [encoding/value/]

    The primitive encodings of [primitive_encoding.rs] and the fixed-size
    encodings of every inlineable value type ([boolean_bytes.rs],
    [integer_bytes.rs], [double_bytes.rs], [decimal_bytes.rs], [date_bytes.rs],
    [date_time_bytes.rs], [date_time_tz_bytes.rs], [duration_bytes.rs]) with the
    time zones of [timezone.rs].  Calendar dates are chrono's: a class gives the
    functions the code calls, a second one what chrono documents of them.

    A double is its bit pattern, an unsigned 64-bit number. *)
From stdpp Require Import strings.
From S2P Require Import Prelude Bytes Decimal Duration Layout TimeZones.

(** ** [primitive_encoding.rs] *)
Definition i32 (z : Z) : Z := (z + 2 ^ 31) mod 2 ^ 32 - 2 ^ 31.
Definition is_i32 (z : Z) : Prop := - 2 ^ 31 ≤ z < 2 ^ 31.

Module Prim.
Definition decode_u32 (b : bytes) : Z := be_value b.
Definition encode_u32 (value : Z) : bytes := be_bytes 4 value.
Definition decode_i32 (b : bytes) : Z := Z.lxor (i32 (be_value b)) (- 2 ^ 31).
Definition encode_i32 (value : Z) : bytes := be_bytes 4 (Z.lxor value (- 2 ^ 31)).
Definition decode_u64 (b : bytes) : Z := be_value b.
Definition encode_u64 (value : Z) : bytes := be_bytes 8 value.
Definition decode_i64 (b : bytes) : Z := Z.lxor (i64 (be_value b)) (- 2 ^ 63).
Definition encode_i64 (value : Z) : bytes := be_bytes 8 (Z.lxor value (- 2 ^ 63)).
End Prim.

(** ** Encoded lengths: [ValueEncodingLength] of [vertex_attribute.rs] *)
Inductive ValueEncodingLength := Short | Long.
Module EncLen.
Definition SHORT_LENGTH : nat := 8.
Definition LONG_LENGTH : nat := 17.
Definition length (l : ValueEncodingLength) : nat :=
  match l with Short => SHORT_LENGTH | Long => LONG_LENGTH end.
Definition is_short (l : ValueEncodingLength) : bool := match l with Short => true | Long => false end.
Definition max_length : nat := LONG_LENGTH.
End EncLen.

(** [data[at..][..slice.len()].copy_from_slice(slice)] into an array. *)
Abbreviation copy_at := ByteArray.copy_at.

(** ** Chrono *)
Class Chrono := {
  NaiveDate : Type;
  num_days_from_ce : NaiveDate → Z;
  from_num_days_from_ce_opt : Z → option NaiveDate;
  NaiveDateTime : Type;
  timestamp : NaiveDateTime → Z;
  timestamp_subsec_nanos : NaiveDateTime → Z;
  from_timestamp : Z → Z → option NaiveDateTime;
  FixedOffset : Type;
  local_minus_utc : FixedOffset → Z;
  east_opt : Z → option FixedOffset;
}.

Inductive TimeZone `{Chrono} := IANA (tz : string) | Fixed (fixed : FixedOffset).

(** [DateTime<TimeZone>]: the UTC date and time, the zone, and how they are put
    together ([and_utc().with_timezone(&tz)]). *)
Class ChronoZoned `{Chrono} := {
  DateTimeTZ : Type;
  naive_utc : DateTimeTZ → NaiveDateTime;
  timezone : DateTimeTZ → TimeZone;
  with_timezone : NaiveDateTime → TimeZone → DateTimeTZ;
}.

(** What chrono documents: the ranges of the numbers, and that a date, a time
    (outside a leap second), an offset and a zoned time are determined by the
    numbers read from them. *)
Class ChronoLaws `{ChronoZoned} : Prop := {
  num_days_range : ∀ d, is_i32 (num_days_from_ce d);
  num_days_inverse : ∀ d, from_num_days_from_ce_opt (num_days_from_ce d) = Some d;
  timestamp_range : ∀ t, is_i64 (timestamp t);
  nanos_range : ∀ t, is_u32 (timestamp_subsec_nanos t);
  timestamp_inverse : ∀ t,
    timestamp_subsec_nanos t < 10 ^ 9 → from_timestamp (timestamp t) (timestamp_subsec_nanos t) = Some t;
  offset_range : ∀ o, -86399 ≤ local_minus_utc o ≤ 86399;
  offset_inverse : ∀ o, east_opt (local_minus_utc o) = Some o;
  zoned_inverse : ∀ d, with_timezone (naive_utc d) (timezone d) = d;
}.

(** ** The encodings *)
Module BooleanBytes.
Definition ENCODED_LENGTH : nat := EncLen.length Short.
Definition build (b : bool) : bytes := <[0%nat := (if b then 1 else 0)]> (replicate ENCODED_LENGTH 0).
Definition as_bool (bs : bytes) : outcome bool := b ← unwrap (bs !! 0%nat); Val (negb (b =? 0)).
End BooleanBytes.

Module IntegerBytes.
Definition build (integer : Z) : bytes := Prim.encode_i64 integer.
Definition as_i64 (bs : bytes) : Z := Prim.decode_i64 bs.
End IntegerBytes.

Module DoubleBytes.
Definition ENCODED_NEGATIVE_ZERO : Z := 2 ^ 63 - 1.
(** The sign is the top bit; negation flips it. *)
Definition is_sign_positive (double : Z) : bool := negb (Z.testbit double 63).
Definition neg (double : Z) : Z := Z.lxor double (2 ^ 63).
Definition build (double : Z) : bytes :=
  let encoded_bits := if is_sign_positive double then neg double else u64 (Z.lnot double) in
  Prim.encode_u64 encoded_bits.
Definition as_f64 (bs : bytes) : Z :=
  let encoded_bits := Prim.decode_u64 bs in
  if ENCODED_NEGATIVE_ZERO <? encoded_bits then neg encoded_bits else u64 (Z.lnot encoded_bits).
End DoubleBytes.

Module DecimalBytes.
Definition INTEGER_LENGTH : nat := 8.
Definition FRACTIONAL_LENGTH : nat := 8.
Definition build (d : Decimal) : bytes :=
  let bs := replicate (EncLen.length Long) 0 in
  let bs := copy_at 0 (Prim.encode_i64 (dec_integer d)) bs in
  copy_at INTEGER_LENGTH (Prim.encode_u64 (dec_fractional d)) bs.
Definition as_decimal (bs : bytes) : Decimal :=
  mk_Decimal (Prim.decode_i64 (take INTEGER_LENGTH bs))
    (Prim.decode_u64 (take FRACTIONAL_LENGTH (drop INTEGER_LENGTH bs))).
End DecimalBytes.

Module DurationBytes.
Definition MONTHS_LENGTH : nat := 4.
Definition DAYS_LENGTH : nat := 4.
Definition NANOS_LENGTH : nat := 8.
Definition build (d : Duration) : bytes :=
  let bs := replicate (EncLen.length Long) 0 in
  let bs := copy_at 0 (Prim.encode_u32 (du_months d)) bs in
  let bs := copy_at MONTHS_LENGTH (Prim.encode_u32 (du_days d)) bs in
  copy_at (MONTHS_LENGTH + DAYS_LENGTH) (Prim.encode_u64 (du_nanos d)) bs.
Definition as_duration (bs : bytes) : Duration :=
  mk_Duration (Prim.decode_u32 (take MONTHS_LENGTH bs))
    (Prim.decode_u32 (take DAYS_LENGTH (drop MONTHS_LENGTH bs)))
    (Prim.decode_u64 (take NANOS_LENGTH (drop (MONTHS_LENGTH + DAYS_LENGTH) bs))).
End DurationBytes.

Module Zone.
Section zone.
Context `{Chrono}.
Definition encode (z : TimeZone) : outcome bytes :=
  match z with
  | IANA tz => id ← encode_tz tz; Val (Prim.encode_u32 id)
  | Fixed fixed => Val (Prim.encode_i32 (local_minus_utc fixed))
  end.
Definition decode (encoded : bytes) : outcome TimeZone :=
  let as_u32 := Prim.decode_u32 encoded in
  if as_u32 <? NUM_TZS then tz ← decode_tz as_u32; Val (IANA tz)
  else fixed ← unwrap (east_opt (Prim.decode_i32 encoded)); Val (Fixed fixed).
End zone.
End Zone.

Module DateBytes.
Section date.
Context `{Chrono}.
Definition DAYS_LENGTH : nat := 4.
Definition build (date : NaiveDate) : bytes :=
  copy_at 0 (Prim.encode_i32 (num_days_from_ce date)) (replicate (EncLen.length Short) 0).
Definition as_naive_date (bs : bytes) : outcome NaiveDate :=
  unwrap (from_num_days_from_ce_opt (Prim.decode_i32 (take DAYS_LENGTH bs))).
End date.
End DateBytes.

Module DateTimeBytes.
Section date_time.
Context `{Chrono}.
Definition TIMESTAMP_LENGTH : nat := 8.
Definition NANOS_LENGTH : nat := 4.
Definition build (date_time : NaiveDateTime) : bytes :=
  let bs := replicate (EncLen.length Long) 0 in
  let bs := copy_at 0 (Prim.encode_i64 (timestamp date_time)) bs in
  copy_at TIMESTAMP_LENGTH (Prim.encode_u32 (timestamp_subsec_nanos date_time)) bs.
Definition as_naive_date_time (bs : bytes) : outcome NaiveDateTime :=
  let secs := Prim.decode_i64 (take TIMESTAMP_LENGTH bs) in
  let nsecs := Prim.decode_u32 (take NANOS_LENGTH (drop TIMESTAMP_LENGTH bs)) in
  unwrap (from_timestamp secs nsecs).
End date_time.
End DateTimeBytes.

Module DateTimeTZBytes.
Section date_time_tz.
Context `{ChronoZoned}.
Definition DATE_TIME_LENGTH : nat := 12.
Definition TZ_LENGTH : nat := 4.
Definition build (date_time : DateTimeTZ) : outcome bytes :=
  zone ← Zone.encode (timezone date_time);
  Val (copy_at DATE_TIME_LENGTH zone (DateTimeBytes.build (naive_utc date_time))).
Definition as_date_time (bs : bytes) : outcome DateTimeTZ :=
  date_time ← DateTimeBytes.as_naive_date_time bs;
  tz ← Zone.decode (take TZ_LENGTH (drop DATE_TIME_LENGTH bs));
  Val (with_timezone date_time tz).
End date_time_tz.
End DateTimeTZBytes.

(** [string_bytes.rs]: the bytes of the string; reading checks the UTF-8. *)
Definition cont (b : Z) : bool := (128 <=? b) && (b <=? 191).
Fixpoint utf8 (bs : bytes) : bool :=
  match bs with
  | [] => true
  | a :: r =>
      if (0 <=? a) && (a <=? 127) then utf8 r
      else
        match r with
        | b :: r2 =>
            if (194 <=? a) && (a <=? 223) then cont b && utf8 r2
            else
              match r2 with
              | c :: r3 =>
                  if (224 <=? a) && (a <=? 239) then
                    (if a =? 224 then (160 <=? b) && (b <=? 191)
                     else if a =? 237 then (128 <=? b) && (b <=? 159) else cont b) && cont c && utf8 r3
                  else
                    match r3 with
                    | d :: r4 =>
                        (240 <=? a) && (a <=? 244) &&
                        (if a =? 240 then (144 <=? b) && (b <=? 191)
                         else if a =? 244 then (128 <=? b) && (b <=? 143) else cont b) &&
                        cont c && cont d && utf8 r4
                    | [] => false
                    end
              | [] => false
              end
        | [] => false
        end
  end.
Definition as_str (bs : bytes) : outcome bytes := if utf8 bs then Val bs else Panic.

(** ** Integers *)
Lemma lxor_min k v :
  0 ≤ k → - 2 ^ k ≤ v < 2 ^ k → Z.lxor v (- 2 ^ k) = if v <? 0 then v + 2 ^ k else v - 2 ^ k.
Proof.
  intros Hk Hv.
  assert (Hnn : ∀ w, 0 ≤ w < 2 ^ k → Z.lxor w (- 2 ^ k) = w - 2 ^ k).
  { intros w Hw. rewrite <-Z.add_nocarry_lxor; [lia|]. apply Z.bits_inj'. intros i Hi.
    rewrite Z.land_spec, Z.bits_0. destruct (Z.lt_ge_cases i k) as [Hlt|Hge].
    - rewrite (Z.bits_opp (2 ^ k)), <-Z.ones_equiv, Z.ones_spec_low by lia. by rewrite andb_false_r.
    - destruct (Z.eq_dec w 0) as [->|Hw0]; [by rewrite Z.bits_0|].
      rewrite Z.bits_above_log2; [done|lia|]. apply Z.log2_lt_pow2; [lia|].
      apply Z.lt_le_trans with (2 ^ k); [lia|]. apply Z.pow_le_mono_r; lia. }
  destruct (Z.ltb_spec v 0) as [Hneg|Hpos]; [|apply Hnn; lia].
  replace v with (Z.lxor (v + 2 ^ k) (- 2 ^ k)) at 1 by (rewrite Hnn; lia).
  by rewrite Z.lxor_assoc, Z.lxor_nilpotent, Z.lxor_0_r.
Qed.

Lemma be_bytes_mod n z : be_bytes n (z mod 256 ^ Z.of_nat n) = be_bytes n z.
Proof.
  pose proof (be_bytes_be_value (be_bytes n z) (be_bytes_is_bytes n z)) as H.
  by rewrite length_be_bytes, be_value_be_bytes in H.
Qed.
Lemma be_bytes_congr n a b : a mod 256 ^ Z.of_nat n = b mod 256 ^ Z.of_nat n → be_bytes n a = be_bytes n b.
Proof. intros H. by rewrite <-(be_bytes_mod n a), <-(be_bytes_mod n b), H. Qed.

(** The signed encodings add the offset that makes them unsigned. *)
Lemma encode_i64_spec v : is_i64 v → Prim.encode_i64 v = be_bytes 8 (v + 2 ^ 63).
Proof.
  intros Hv. unfold Prim.encode_i64. rewrite lxor_min by (unfold is_i64 in *; lia).
  destruct (Z.ltb_spec v 0); [done|]. apply be_bytes_congr.
  change (256 ^ Z.of_nat 8) with (2 ^ 64). replace (v + 2 ^ 63) with (v - 2 ^ 63 + 1 * 2 ^ 64) by lia.
  by rewrite Z.mod_add by lia.
Qed.
Lemma encode_i32_spec v : is_i32 v → Prim.encode_i32 v = be_bytes 4 (v + 2 ^ 31).
Proof.
  intros Hv. unfold Prim.encode_i32. rewrite lxor_min by (unfold is_i32 in *; lia).
  destruct (Z.ltb_spec v 0); [done|]. apply be_bytes_congr.
  change (256 ^ Z.of_nat 4) with (2 ^ 32). replace (v + 2 ^ 31) with (v - 2 ^ 31 + 1 * 2 ^ 32) by lia.
  by rewrite Z.mod_add by lia.
Qed.

Lemma be_bytes_value n z : 0 ≤ z < 256 ^ Z.of_nat n → be_value (be_bytes n z) = z.
Proof. intros. rewrite be_value_be_bytes. by apply Z.mod_small. Qed.

Lemma decode_i64_spec u : is_u64 u → Z.lxor (i64 u) (- 2 ^ 63) = u - 2 ^ 63.
Proof.
  unfold is_u64. intros Hu. assert (Hi : i64 u = if u <? 2 ^ 63 then u else u - 2 ^ 64).
  { unfold i64. destruct (Z.ltb_spec u (2 ^ 63)).
    - rewrite (Z.mod_small (u + 2 ^ 63)) by lia. lia.
    - replace (u + 2 ^ 63) with (u - 2 ^ 63 + 1 * 2 ^ 64) by lia.
      rewrite Z.mod_add, (Z.mod_small (u - 2 ^ 63)) by lia. lia. }
  rewrite lxor_min by (try rewrite Hi; destruct (Z.ltb_spec u (2 ^ 63)); lia). rewrite Hi.
  destruct (Z.ltb_spec u (2 ^ 63)).
  - destruct (Z.ltb_spec u 0); lia.
  - destruct (Z.ltb_spec (u - 2 ^ 64) 0); lia.
Qed.
Lemma decode_i32_spec u : is_u32 u → Z.lxor (i32 u) (- 2 ^ 31) = u - 2 ^ 31.
Proof.
  unfold is_u32. intros Hu. assert (Hi : i32 u = if u <? 2 ^ 31 then u else u - 2 ^ 32).
  { unfold i32. destruct (Z.ltb_spec u (2 ^ 31)).
    - rewrite (Z.mod_small (u + 2 ^ 31)) by lia. lia.
    - replace (u + 2 ^ 31) with (u - 2 ^ 31 + 1 * 2 ^ 32) by lia.
      rewrite Z.mod_add, (Z.mod_small (u - 2 ^ 31)) by lia. lia. }
  rewrite lxor_min by (try rewrite Hi; destruct (Z.ltb_spec u (2 ^ 31)); lia). rewrite Hi.
  destruct (Z.ltb_spec u (2 ^ 31)).
  - destruct (Z.ltb_spec u 0); lia.
  - destruct (Z.ltb_spec (u - 2 ^ 32) 0); lia.
Qed.

Lemma i64_round_trip v : is_i64 v → Prim.decode_i64 (Prim.encode_i64 v) = v.
Proof.
  intros Hv. rewrite encode_i64_spec by done. unfold Prim.decode_i64, is_i64 in *.
  rewrite be_bytes_value by (change (256 ^ Z.of_nat 8) with (2 ^ 64); lia).
  rewrite decode_i64_spec by (unfold is_u64; lia). lia.
Qed.
Lemma i32_round_trip v : is_i32 v → Prim.decode_i32 (Prim.encode_i32 v) = v.
Proof.
  intros Hv. rewrite encode_i32_spec by done. unfold Prim.decode_i32, is_i32 in *.
  rewrite be_bytes_value by (change (256 ^ Z.of_nat 4) with (2 ^ 32); lia).
  rewrite decode_i32_spec by (unfold is_u32; lia). lia.
Qed.
Lemma u64_round_trip v : is_u64 v → Prim.decode_u64 (Prim.encode_u64 v) = v.
Proof. intros. by apply (be_bytes_value 8). Qed.
Lemma u32_round_trip v : is_u32 v → Prim.decode_u32 (Prim.encode_u32 v) = v.
Proof. intros. by apply (be_bytes_value 4). Qed.

Lemma cmp_shift a b c : (a + c ?= b + c) = (a ?= b).
Proof. destruct (Z.compare_spec a b); [subst; apply Z.compare_refl|apply Z.compare_lt_iff; lia|apply Z.compare_gt_iff; lia]. Qed.
Lemma i64_cmp a b : is_i64 a → is_i64 b → cmp (Prim.encode_i64 a) (Prim.encode_i64 b) = (a ?= b).
Proof.
  intros Ha Hb. rewrite !encode_i64_spec by done. unfold is_i64 in *.
  rewrite be_bytes_cmp by (change (256 ^ Z.of_nat 8) with (2 ^ 64); lia). apply cmp_shift.
Qed.
Lemma i32_cmp a b : is_i32 a → is_i32 b → cmp (Prim.encode_i32 a) (Prim.encode_i32 b) = (a ?= b).
Proof.
  intros Ha Hb. rewrite !encode_i32_spec by done. unfold is_i32 in *.
  rewrite be_bytes_cmp by (change (256 ^ Z.of_nat 4) with (2 ^ 32); lia). apply cmp_shift.
Qed.
Lemma u64_cmp a b : is_u64 a → is_u64 b → cmp (Prim.encode_u64 a) (Prim.encode_u64 b) = (a ?= b).
Proof. apply (be_bytes_cmp 8). Qed.
Lemma u32_cmp a b : is_u32 a → is_u32 b → cmp (Prim.encode_u32 a) (Prim.encode_u32 b) = (a ?= b).
Proof. apply (be_bytes_cmp 4). Qed.

Lemma length_i64 v : length (Prim.encode_i64 v) = 8%nat.
Proof. apply length_be_bytes. Qed.
Lemma length_i32 v : length (Prim.encode_i32 v) = 4%nat.
Proof. apply length_be_bytes. Qed.
Lemma length_u64 v : length (Prim.encode_u64 v) = 8%nat.
Proof. apply length_be_bytes. Qed.
Lemma length_u32 v : length (Prim.encode_u32 v) = 4%nat.
Proof. apply length_be_bytes. Qed.
Ltac enc_len := rewrite ?length_i64, ?length_i32, ?length_u64, ?length_u32, ?length_replicate.

(** ** Doubles

    The value of a finite double is an integer number of units of [2^-1074], the
    smallest positive double; IEEE comparison compares these values. *)
Definition f64_magnitude (double : Z) : Z := double mod 2 ^ 63.
Definition units_of (magnitude : Z) : Z :=
  let exponent := magnitude / 2 ^ 52 in
  let mantissa := magnitude mod 2 ^ 52 in
  if exponent =? 0 then mantissa else (2 ^ 52 + mantissa) * 2 ^ (exponent - 1).
Definition f64_units (double : Z) : Z :=
  if DoubleBytes.is_sign_positive double then units_of (f64_magnitude double)
  else - units_of (f64_magnitude double).
Definition is_finite (double : Z) : bool := f64_magnitude double / 2 ^ 52 <? 2047.

Lemma testbit_63 double : is_u64 double → Z.testbit double 63 = (2 ^ 63 <=? double).
Proof.
  unfold is_u64. intros H. rewrite Z.testbit_eqb by lia.
  destruct (Z.leb_spec (2 ^ 63) double) as [Hge|Hlt].
  - replace (double / 2 ^ 63) with 1; [done|].
    apply Z.div_unique with (double - 2 ^ 63); lia.
  - rewrite Z.div_small by lia. done.
Qed.
Lemma positive_spec double : is_u64 double → DoubleBytes.is_sign_positive double = (double <? 2 ^ 63).
Proof.
  intros H. unfold DoubleBytes.is_sign_positive. rewrite testbit_63 by done.
  destruct (Z.leb_spec (2 ^ 63) double), (Z.ltb_spec double (2 ^ 63)); simpl; lia || done.
Qed.
Lemma double_neg_spec double :
  is_u64 double → DoubleBytes.neg double = if double <? 2 ^ 63 then double + 2 ^ 63 else double - 2 ^ 63.
Proof.
  unfold is_u64. intros H. unfold DoubleBytes.neg.
  assert (Hlow : ∀ w, 0 ≤ w < 2 ^ 63 → Z.lxor w (2 ^ 63) = w + 2 ^ 63).
  { intros w Hw. rewrite <-Z.add_nocarry_lxor; [done|]. apply Z.bits_inj'. intros i Hi.
    rewrite Z.land_spec, Z.bits_0. destruct (Z.eq_dec i 63) as [->|Hne].
    - rewrite testbit_63 by (unfold is_u64; lia). destruct (Z.leb_spec (2 ^ 63) w); [lia|done].
    - by rewrite Z.pow2_bits_false, andb_false_r by lia. }
  destruct (Z.ltb_spec double (2 ^ 63)); [apply Hlow; lia|].
  replace double with (Z.lxor (double - 2 ^ 63) (2 ^ 63)) at 1 by (rewrite Hlow; lia).
  by rewrite Z.lxor_assoc, Z.lxor_nilpotent, Z.lxor_0_r.
Qed.
Lemma lnot_spec double : is_u64 double → u64 (Z.lnot double) = 2 ^ 64 - 1 - double.
Proof.
  unfold is_u64. intros H. unfold u64, Z.lnot.
  replace (Z.pred (- double)) with (2 ^ 64 - 1 - double + (-1) * 2 ^ 64) by lia.
  rewrite Z.mod_add, Z.mod_small; lia.
Qed.

(** The number the encoding stores: negative doubles below [2^63] in reverse
    order, the others above. *)
Definition double_rank (double : Z) : Z := if double <? 2 ^ 63 then double + 2 ^ 63 else 2 ^ 64 - 1 - double.
Lemma double_rank_range double : is_u64 double → is_u64 (double_rank double).
Proof. unfold is_u64, double_rank. intros. destruct (Z.ltb_spec double (2 ^ 63)); lia. Qed.
Lemma double_build_spec double : is_u64 double → DoubleBytes.build double = Prim.encode_u64 (double_rank double).
Proof.
  intros H. unfold DoubleBytes.build, double_rank. rewrite positive_spec, double_neg_spec, lnot_spec by done.
  by destruct (Z.ltb_spec double (2 ^ 63)).
Qed.
Lemma double_round_trip double : is_u64 double → DoubleBytes.as_f64 (DoubleBytes.build double) = double.
Proof.
  intros H. rewrite double_build_spec by done. unfold DoubleBytes.as_f64, DoubleBytes.ENCODED_NEGATIVE_ZERO.
  pose proof (double_rank_range double H) as Hr. rewrite u64_round_trip by done.
  rewrite double_neg_spec, lnot_spec by done. unfold double_rank, is_u64 in *.
  destruct (Z.ltb_spec double (2 ^ 63)).
  - rewrite (proj2 (Z.ltb_lt (2 ^ 63 - 1) _)) by lia.
    destruct (Z.ltb_spec (double + 2 ^ 63) (2 ^ 63)); lia.
  - destruct (Z.ltb_spec (2 ^ 63 - 1) (2 ^ 64 - 1 - double)); lia.
Qed.

(** Larger magnitudes are larger values: the exponent field dominates. *)
Lemma units_mono a b : 0 ≤ a → a < b → units_of a < units_of b.
Proof.
  intros Ha Hab. unfold units_of.
  pose proof (Z.div_mod a (2 ^ 52) ltac:(lia)). pose proof (Z.div_mod b (2 ^ 52) ltac:(lia)).
  pose proof (Z.mod_pos_bound a (2 ^ 52) ltac:(lia)). pose proof (Z.mod_pos_bound b (2 ^ 52) ltac:(lia)).
  pose proof (Z.div_pos a (2 ^ 52) Ha ltac:(lia)).
  assert (Hle : a / 2 ^ 52 ≤ b / 2 ^ 52) by (apply Z.div_le_mono; lia).
  revert H H0 H1 H2 H3 Hle. generalize (a / 2 ^ 52) (a mod 2 ^ 52) (b / 2 ^ 52) (b mod 2 ^ 52).
  generalize (eq_refl (2 ^ 52)). generalize (2 ^ 52) at 1 3 4 5 6 7 8.
  intros K HK ea ma eb mb Hea Heb Hma Hmb H0 Hle. rewrite HK in *.
  destruct (Z.eqb_spec ea 0) as [->|Hne]; destruct (Z.eqb_spec eb 0) as [->|Hnb].
  - lia.
  - pose proof (Z.pow_pos_nonneg 2 (eb - 1) ltac:(lia) ltac:(lia)). nia.
  - lia.
  - destruct (Z.eq_dec ea eb) as [->|Hneq].
    + pose proof (Z.pow_pos_nonneg 2 (eb - 1) ltac:(lia) ltac:(lia)). nia.
    + pose proof (Z.pow_pos_nonneg 2 (ea - 1) ltac:(lia) ltac:(lia)).
      assert (2 * 2 ^ (ea - 1) ≤ 2 ^ (eb - 1)).
      { rewrite <-Z.pow_succ_r by lia. apply Z.pow_le_mono_r; lia. }
      nia.
Qed.

Lemma units_nonneg m : 0 ≤ m → 0 ≤ units_of m.
Proof.
  intros Hm. destruct (Z.eq_dec m 0) as [->|Hne]; [done|].
  pose proof (units_mono 0 m ltac:(lia) ltac:(lia)) as H. change (units_of 0) with 0 in H. lia.
Qed.
Lemma double_cmp a b :
  is_u64 a → is_u64 b → f64_units a < f64_units b → DoubleBytes.build a ≺ DoubleBytes.build b.
Proof.
  intros Ha Hb Hlt. rewrite !double_build_spec by done.
  rewrite u64_cmp by (by apply double_rank_range). apply Z.compare_lt_iff.
  unfold f64_units, f64_magnitude, double_rank in *. rewrite !positive_spec in Hlt by done. unfold is_u64 in *.
  destruct (Z.ltb_spec a (2 ^ 63)), (Z.ltb_spec b (2 ^ 63)); try lia.
  - rewrite (Z.mod_small a), (Z.mod_small b) in Hlt by lia.
    destruct (Z.lt_ge_cases a b) as [|Hge]; [lia|].
    destruct (Z.eq_dec a b) as [->|]; [lia|]. pose proof (units_mono b a ltac:(lia) ltac:(lia)). lia.
  - pose proof (units_nonneg (a mod 2 ^ 63) ltac:(apply Z.mod_pos_bound; lia)).
    pose proof (units_nonneg (b mod 2 ^ 63) ltac:(apply Z.mod_pos_bound; lia)). lia.
  - assert (Hmod : ∀ x, 2 ^ 63 ≤ x < 2 ^ 64 → x mod 2 ^ 63 = x - 2 ^ 63).
    { intros x Hx. symmetry. apply Z.mod_unique with 1; lia. }
    rewrite !Hmod in Hlt by lia. destruct (Z.lt_ge_cases b a) as [|Hge]; [lia|].
    destruct (Z.eq_dec a b) as [->|]; [lia|].
    pose proof (units_mono (a - 2 ^ 63) (b - 2 ^ 63) ltac:(lia) ltac:(lia)). lia.
Qed.
(** Doubles of equal value have equal bits, except the two zeros. *)
Lemma double_units_inj a b :
  is_u64 a → is_u64 b → f64_units a = f64_units b → a = b ∨ (f64_magnitude a = 0 ∧ f64_magnitude b = 0).
Proof.
  intros Ha Hb Heq. unfold f64_units, f64_magnitude in *. rewrite !positive_spec in Heq by done. unfold is_u64 in *.
  assert (Hmod : ∀ x, 2 ^ 63 ≤ x < 2 ^ 64 → x mod 2 ^ 63 = x - 2 ^ 63).
  { intros x Hx. symmetry. apply Z.mod_unique with 1; lia. }
  assert (Hinj : ∀ x y, 0 ≤ x → 0 ≤ y → units_of x = units_of y → x = y).
  { intros x y Hx Hy He. destruct (Z.lt_total x y) as [Hl|[->|Hl]]; [|done|];
      apply units_mono in Hl; lia. }
  assert (Hzero : ∀ x, 0 ≤ x → units_of x = 0 → x = 0) by (intros x Hx He; by apply (Hinj x 0)).
  pose proof (Z.mod_pos_bound a (2 ^ 63) ltac:(lia)). pose proof (Z.mod_pos_bound b (2 ^ 63) ltac:(lia)).
  pose proof (units_nonneg (a mod 2 ^ 63) ltac:(lia)). pose proof (units_nonneg (b mod 2 ^ 63) ltac:(lia)).
  destruct (Z.ltb_spec a (2 ^ 63)), (Z.ltb_spec b (2 ^ 63)).
  - rewrite !Z.mod_small in Heq by lia. left. apply Hinj; lia.
  - right. split; apply Hzero; lia.
  - right. split; apply Hzero; lia.
  - left. rewrite !Hmod in Heq by lia. apply Z.opp_inj in Heq. apply Hinj in Heq; lia.
Qed.
(** The two zeros are equal doubles with different encodings. *)
Example zeros_encoded_differently :
  f64_units 0 = f64_units (2 ^ 63) ∧ DoubleBytes.build 0 ≠ DoubleBytes.build (2 ^ 63).
Proof. split; [reflexivity|vm_compute; discriminate]. Qed.

(** ** Laying fields into an array *)
Lemma copy_at_app (a old new b : bytes) n :
  length a = n → length old = length new → copy_at n new (a ++ old ++ b) = a ++ new ++ b.
Proof.
  intros <- Hlen. unfold copy_at, ByteArray.copy_at.
  rewrite take_app_length. f_equal. f_equal. rewrite app_assoc.
  rewrite drop_app_length'; [done|]. rewrite length_app. lia.
Qed.
Lemma copy_at_start (old new b : bytes) :
  length old = length new → copy_at 0 new (old ++ b) = new ++ b.
Proof. by apply (copy_at_app []). Qed.

Lemma decimal_build_spec d :
  DecimalBytes.build d = Prim.encode_i64 (dec_integer d) ++ Prim.encode_u64 (dec_fractional d) ++ [0].
Proof.
  unfold DecimalBytes.build. change (replicate (EncLen.length Long) 0) with (replicate 8 0 ++ replicate 8 0 ++ [0]).
  rewrite copy_at_start by (by enc_len). rewrite copy_at_app; [done| |]; by enc_len.
Qed.
Lemma duration_build_spec d :
  DurationBytes.build d =
  Prim.encode_u32 (du_months d) ++ Prim.encode_u32 (du_days d) ++ Prim.encode_u64 (du_nanos d) ++ [0].
Proof.
  unfold DurationBytes.build.
  change (replicate (EncLen.length Long) 0) with (replicate 4 0 ++ replicate 4 0 ++ replicate 8 0 ++ [0]).
  rewrite copy_at_start by (by enc_len). rewrite copy_at_app by (by enc_len).
  rewrite app_assoc, copy_at_app by (rewrite ?length_app; by enc_len). by rewrite <-app_assoc.
Qed.

Section chrono_layout.
Context `{ChronoZoned}.
Lemma date_build_spec (d : NaiveDate) :
  DateBytes.build d = Prim.encode_i32 (num_days_from_ce d) ++ replicate 4 0.
Proof.
  unfold DateBytes.build. change (replicate (EncLen.length Short) 0) with (replicate 4 0 ++ replicate 4 0).
  by rewrite copy_at_start by (by enc_len).
Qed.
Lemma date_time_build_spec (t : NaiveDateTime) :
  DateTimeBytes.build t =
  Prim.encode_i64 (timestamp t) ++ Prim.encode_u32 (timestamp_subsec_nanos t) ++ replicate 5 0.
Proof.
  unfold DateTimeBytes.build.
  change (replicate (EncLen.length Long) 0) with (replicate 8 0 ++ replicate 4 0 ++ replicate 5 0).
  rewrite copy_at_start by (by enc_len). rewrite copy_at_app; [done| |]; by enc_len.
Qed.
Lemma date_time_tz_build_spec (d : DateTimeTZ) zone :
  Zone.encode (timezone d) = Val zone → length zone = 4%nat →
  DateTimeTZBytes.build d = Val
    (Prim.encode_i64 (timestamp (naive_utc d)) ++ Prim.encode_u32 (timestamp_subsec_nanos (naive_utc d)) ++
     zone ++ [0]).
Proof.
  intros Hz Hlen. unfold DateTimeTZBytes.build. rewrite Hz. simpl. f_equal. rewrite date_time_build_spec.
  change (replicate 5 0) with (replicate 4 0 ++ [0]). rewrite app_assoc, copy_at_app.
  - by rewrite <-app_assoc.
  - rewrite length_app. by enc_len.
  - by rewrite Hlen.
Qed.
End chrono_layout.

(** ** The interface of inline encodings: [InlineEncodableAttributeID]

    A value type that fits in an attribute's key has an encoded length, an
    encoding and a decoding.  The category is the index of the instance. *)
Class InlineEncodable (category : ValueTypeCategory) (T : Type) := {
  ENCODED_LENGTH_ID : ValueEncodingLength;
  encode_inline : T → outcome bytes;
  decode_inline : bytes → outcome T;
}.
Arguments ENCODED_LENGTH_ID category T {_}.
Arguments encode_inline category {T _} v.
Arguments decode_inline category {T _} b.

Class InlineEncodableLaws (category : ValueTypeCategory) (T : Type) `{InlineEncodable category T}
    (valid : T → Prop) : Prop :=
  inline_round_trip : ∀ v, valid v →
    ∃ b, encode_inline category v = Val b ∧ length b = EncLen.length (ENCODED_LENGTH_ID category T) ∧
         is_bytes b ∧ decode_inline category b = Val v.

#[global] Instance boolean_inline : InlineEncodable CatBoolean bool := {|
  ENCODED_LENGTH_ID := Short;
  encode_inline := λ b, Val (BooleanBytes.build b);
  decode_inline := BooleanBytes.as_bool |}.
#[global] Instance integer_inline : InlineEncodable CatInteger Z := {|
  ENCODED_LENGTH_ID := Short;
  encode_inline := λ v, Val (IntegerBytes.build v);
  decode_inline := λ b, Val (IntegerBytes.as_i64 b) |}.
#[global] Instance double_inline : InlineEncodable CatDouble Z := {|
  ENCODED_LENGTH_ID := Short;
  encode_inline := λ v, Val (DoubleBytes.build v);
  decode_inline := λ b, Val (DoubleBytes.as_f64 b) |}.
#[global] Instance decimal_inline : InlineEncodable CatDecimal Decimal := {|
  ENCODED_LENGTH_ID := Long;
  encode_inline := λ v, Val (DecimalBytes.build v);
  decode_inline := λ b, Val (DecimalBytes.as_decimal b) |}.
#[global] Instance duration_inline : InlineEncodable CatDuration Duration := {|
  ENCODED_LENGTH_ID := Long;
  encode_inline := λ v, Val (DurationBytes.build v);
  decode_inline := λ b, Val (DurationBytes.as_duration b) |}.
#[global] Instance date_inline `{Chrono} : InlineEncodable CatDate NaiveDate := {|
  ENCODED_LENGTH_ID := Short;
  encode_inline := λ v, Val (DateBytes.build v);
  decode_inline := DateBytes.as_naive_date |}.
#[global] Instance date_time_inline `{Chrono} : InlineEncodable CatDateTime NaiveDateTime := {|
  ENCODED_LENGTH_ID := Long;
  encode_inline := λ v, Val (DateTimeBytes.build v);
  decode_inline := DateTimeBytes.as_naive_date_time |}.
#[global] Instance date_time_tz_inline `{ChronoZoned} : InlineEncodable CatDateTimeTZ DateTimeTZ := {|
  ENCODED_LENGTH_ID := Long;
  encode_inline := DateTimeTZBytes.build;
  decode_inline := DateTimeTZBytes.as_date_time |}.

Definition decimal_valid (d : Decimal) : Prop := is_i64 (dec_integer d) ∧ is_u64 (dec_fractional d).
Definition duration_valid (d : Duration) : Prop :=
  is_u32 (du_months d) ∧ is_u32 (du_days d) ∧ is_u64 (du_nanos d).
(** Outside a leap second. *)
Definition date_time_valid `{Chrono} (t : NaiveDateTime) : Prop := timestamp_subsec_nanos t < 10 ^ 9.
(** The zone is one the table names. *)
Definition zone_valid `{Chrono} (z : TimeZone) : Prop :=
  match z with IANA tz => tz ∈ tz_table | Fixed _ => True end.
Definition date_time_tz_valid `{ChronoZoned} (d : DateTimeTZ) : Prop :=
  date_time_valid (naive_utc d) ∧ zone_valid (timezone d).

Ltac enc_bytes := repeat apply Forall_app_2; try apply be_bytes_is_bytes; try apply Forall_replicate;
  repeat constructor; unfold is_byte; lia.

#[global] Instance boolean_inline_laws : InlineEncodableLaws CatBoolean bool (λ _, True).
Proof.
  intros b _. eexists; split; [done|]. split; [by destruct b|]. split; [destruct b; enc_bytes|by destruct b].
Qed.
#[global] Instance integer_inline_laws : InlineEncodableLaws CatInteger Z is_i64.
Proof.
  intros v Hv. eexists; split; [done|]. split; [apply length_i64|]. split; [apply be_bytes_is_bytes|].
  cbn. f_equal. by apply i64_round_trip.
Qed.
#[global] Instance double_inline_laws : InlineEncodableLaws CatDouble Z is_u64.
Proof.
  intros v Hv. eexists; split; [done|]. split; [apply length_u64|]. split; [apply be_bytes_is_bytes|].
  cbn. f_equal. by apply double_round_trip.
Qed.
#[global] Instance decimal_inline_laws : InlineEncodableLaws CatDecimal Decimal decimal_valid.
Proof.
  intros [i f] [Hi Hf]. eexists; split; [done|]. cbn [decode_inline decimal_inline ENCODED_LENGTH_ID].
  rewrite decimal_build_spec. cbn [dec_integer dec_fractional] in *. split; [rewrite !length_app; by enc_len|]. split; [enc_bytes|].
  unfold DecimalBytes.as_decimal. rewrite take_app_length' by (by enc_len).
  rewrite drop_app_length', take_app_length' by (by enc_len). by rewrite i64_round_trip, u64_round_trip.
Qed.
#[global] Instance duration_inline_laws : InlineEncodableLaws CatDuration Duration duration_valid.
Proof.
  intros [m d n] (Hm & Hd & Hn). eexists; split; [done|]. cbn [decode_inline duration_inline ENCODED_LENGTH_ID].
  rewrite duration_build_spec. cbn [du_months du_days du_nanos] in *. split; [rewrite !length_app; by enc_len|]. split; [enc_bytes|].
  unfold DurationBytes.as_duration. rewrite take_app_length' by (by enc_len).
  rewrite (drop_app_length' _ _ DurationBytes.MONTHS_LENGTH), take_app_length' by (by enc_len).
  rewrite (app_assoc (Prim.encode_u32 m)).
  rewrite drop_app_length', take_app_length' by (rewrite ?length_app; by enc_len).
  by rewrite !u32_round_trip, u64_round_trip.
Qed.

Section chrono_laws.
Context `{ChronoLaws}.
Lemma zone_round_trip z :
  zone_valid z → ∃ b, Zone.encode z = Val b ∧ length b = 4%nat ∧ is_bytes b ∧ Zone.decode b = Val z.
Proof.
  destruct z as [tz|o]; simpl; intros Hz.
  - apply list_elem_of_lookup in Hz as [k Hk].
    pose proof (lookup_lt_Some _ _ _ Hk). pose proof tz_table_length.
    destruct (tz_decode_encode (Z.of_nat k)) as (tz' & Hd & He); [unfold NUM_TZS in *; lia|].
    assert (tz' = tz) as ->.
    { unfold decode_tz in Hd. rewrite (proj2 (Z.ltb_lt _ _)), Nat2Z.id, Hk in Hd by lia. by injection Hd. }
    exists (Prim.encode_u32 (Z.of_nat k)); split; [by rewrite He|]. split; [apply length_u32|]. split; [apply be_bytes_is_bytes|].
    unfold Zone.decode. rewrite u32_round_trip by (unfold is_u32, NUM_TZS in *; lia).
    rewrite (proj2 (Z.ltb_lt _ _)) by lia. by rewrite Hd.
  - pose proof (offset_range o). assert (is_i32 (local_minus_utc o)) by (unfold is_i32; lia).
    eexists; split; [done|]. split; [apply length_i32|]. split; [apply be_bytes_is_bytes|].
    unfold Zone.decode. rewrite i32_round_trip by done. unfold Prim.decode_u32. rewrite encode_i32_spec by done.
    rewrite be_bytes_value by (change (256 ^ Z.of_nat 4) with (2 ^ 32); lia).
    unfold NUM_TZS. destruct (Z.ltb_spec (local_minus_utc o + 2 ^ 31) 596); [lia|]. by rewrite offset_inverse.
Qed.
#[global] Instance date_inline_laws : InlineEncodableLaws CatDate NaiveDate (λ _, True).
Proof.
  intros d _. eexists; split; [done|]. cbn [decode_inline date_inline ENCODED_LENGTH_ID].
  rewrite date_build_spec. split; [rewrite !length_app; by enc_len|]. split; [enc_bytes|].
  unfold DateBytes.as_naive_date. rewrite take_app_length' by (by enc_len).
  rewrite i32_round_trip by apply num_days_range. by rewrite num_days_inverse.
Qed.
Lemma date_time_decodes t (rest : bytes) :
  date_time_valid t →
  DateTimeBytes.as_naive_date_time
    (Prim.encode_i64 (timestamp t) ++ Prim.encode_u32 (timestamp_subsec_nanos t) ++ rest) = Val t.
Proof.
  intros Ht. unfold DateTimeBytes.as_naive_date_time. rewrite take_app_length' by (by enc_len).
  rewrite drop_app_length', take_app_length' by (by enc_len).
  rewrite i64_round_trip, u32_round_trip by (apply timestamp_range || apply nanos_range).
  by rewrite timestamp_inverse.
Qed.
#[global] Instance date_time_inline_laws : InlineEncodableLaws CatDateTime NaiveDateTime date_time_valid.
Proof.
  intros t Ht. eexists; split; [done|]. cbn [decode_inline date_time_inline ENCODED_LENGTH_ID].
  rewrite date_time_build_spec. split; [rewrite !length_app; by enc_len|]. split; [enc_bytes|].
  by apply date_time_decodes.
Qed.
#[global] Instance date_time_tz_inline_laws : InlineEncodableLaws CatDateTimeTZ DateTimeTZ date_time_tz_valid.
Proof.
  intros d [Ht Hz]. destruct (zone_round_trip _ Hz) as (z & He & Hlen & Hb & Hd).
  exists (Prim.encode_i64 (timestamp (naive_utc d)) ++ Prim.encode_u32 (timestamp_subsec_nanos (naive_utc d)) ++
          z ++ [0]).
  split; [by apply date_time_tz_build_spec|]. split; [rewrite !length_app, Hlen; by enc_len|].
  split; [apply Forall_app_2; [apply be_bytes_is_bytes|]; apply Forall_app_2; [apply be_bytes_is_bytes|];
          apply Forall_app_2; [done|]; enc_bytes|].
  cbn [decode_inline date_time_tz_inline]. unfold DateTimeTZBytes.as_date_time.
  rewrite date_time_decodes by done. cbn [mbind exec_bind].
  rewrite (app_assoc (Prim.encode_i64 _)), drop_app_length', take_app_length'
    by (rewrite ?length_app; by enc_len || by rewrite Hlen).
  rewrite Hd. simpl. by rewrite zoned_inverse.
Qed.
End chrono_laws.

(** ** Order *)
Lemma decimal_cmp a b :
  decimal_valid a → decimal_valid b → cmp (DecimalBytes.build a) (DecimalBytes.build b) = Dec.compare a b.
Proof.
  intros [Hai Haf] [Hbi Hbf]. rewrite !decimal_build_spec, list_cmp_app_len by (by enc_len).
  rewrite i64_cmp by done. unfold Dec.compare. destruct (dec_integer a ?= dec_integer b); [|done..].
  rewrite list_cmp_app_len by (by enc_len). rewrite u64_cmp by done.
  by destruct (dec_fractional a ?= dec_fractional b).
Qed.
Lemma date_cmp `{ChronoLaws} (a b : NaiveDate) :
  cmp (DateBytes.build a) (DateBytes.build b) = (num_days_from_ce a ?= num_days_from_ce b).
Proof.
  rewrite !date_build_spec, list_cmp_app_len by (by enc_len). rewrite i32_cmp by apply num_days_range.
  by destruct (num_days_from_ce a ?= num_days_from_ce b).
Qed.
Lemma date_time_cmp `{ChronoLaws} (a b : NaiveDateTime) :
  cmp (DateTimeBytes.build a) (DateTimeBytes.build b) =
  match timestamp a ?= timestamp b with
  | Eq => timestamp_subsec_nanos a ?= timestamp_subsec_nanos b
  | o => o
  end.
Proof.
  rewrite !date_time_build_spec, list_cmp_app_len by (by enc_len). rewrite i64_cmp by apply timestamp_range.
  destruct (timestamp a ?= timestamp b); [|done..].
  rewrite list_cmp_app_len by (by enc_len). rewrite u32_cmp by apply nanos_range.
  by destruct (timestamp_subsec_nanos a ?= timestamp_subsec_nanos b).
Qed.

(** C34: the encodings sort like the values.  For every value the types can
    hold, comparing the encoded bytes lexicographically, which is what the
    keyspaces do, gives the comparison of the values: of integers and decimals
    as the code compares them, of finite doubles by their value (equal doubles
    have equal encodings, the two zeros apart), of dates by their day, of dates
    with times by their second and then their nanosecond. *)
Theorem encodings_sort_like_values `{ChronoLaws} :
  (∀ a b, is_i64 a → is_i64 b → cmp (IntegerBytes.build a) (IntegerBytes.build b) = (a ?= b)) ∧
  (∀ a b, decimal_valid a → decimal_valid b → cmp (DecimalBytes.build a) (DecimalBytes.build b) = Dec.compare a b) ∧
  (∀ a b, is_u64 a → is_u64 b → is_finite a → is_finite b →
     (f64_units a < f64_units b → DoubleBytes.build a ≺ DoubleBytes.build b) ∧
     (f64_units a = f64_units b → DoubleBytes.build a = DoubleBytes.build b ∨ f64_units a = 0)) ∧
  (∀ a b : NaiveDate,
     cmp (DateBytes.build a) (DateBytes.build b) = (num_days_from_ce a ?= num_days_from_ce b)) ∧
  (∀ a b : NaiveDateTime,
     cmp (DateTimeBytes.build a) (DateTimeBytes.build b) =
     match timestamp a ?= timestamp b with
     | Eq => timestamp_subsec_nanos a ?= timestamp_subsec_nanos b
     | o => o
     end).
Proof.
  split; [exact i64_cmp|]. split; [exact decimal_cmp|].
  split; [|split; [exact date_cmp|exact date_time_cmp]].
  intros a b Ha Hb _ _. split; [by apply double_cmp|].
  intros Heq. destruct (double_units_inj a b) as [->|[Hz _]]; [done..|by left|right].
  unfold f64_units. rewrite Hz. by destruct (DoubleBytes.is_sign_positive a).
Qed.

(** A calendar that satisfies chrono's laws: days, seconds and offsets as their
    numbers. *)
#[global] Instance is_i32_dec z : Decision (is_i32 z) := ltac:(unfold is_i32; apply _).
#[global] Instance is_i64_dec z : Decision (is_i64 z) := ltac:(unfold is_i64; apply _).
#[global] Instance is_u32_dec z : Decision (is_u32 z) := ltac:(unfold is_u32; apply _).
Module Calendar.
Definition time_ok (t : Z * Z) : Prop := is_i64 t.1 ∧ is_u32 t.2.
Definition offset_ok (o : Z) : Prop := -86399 ≤ o ≤ 86399.
#[global] Instance time_ok_dec t : Decision (time_ok t) := ltac:(unfold time_ok; apply _).
#[global] Instance offset_ok_dec o : Decision (offset_ok o) := ltac:(unfold offset_ok; apply _).
Definition checked {A} (P : A → Prop) `{∀ x, Decision (P x)} (x : A) : option (dsig P) :=
  match decide (P x) with left p => Some (dexist x p) | right _ => None end.
Lemma checked_proj {A} (P : A → Prop) `{∀ x, Decision (P x)} (x : dsig P) : checked P (proj1_sig x) = Some x.
Proof.
  unfold checked. destruct (decide _) as [p|n]; [|by pose proof (proj2_dsig x)].
  f_equal. by apply dsig_eq.
Qed.
#[global] Instance chrono : Chrono := {|
  NaiveDate := dsig is_i32;
  num_days_from_ce := proj1_sig;
  from_num_days_from_ce_opt := checked is_i32;
  NaiveDateTime := dsig time_ok;
  timestamp := λ t, (proj1_sig t).1;
  timestamp_subsec_nanos := λ t, (proj1_sig t).2;
  from_timestamp := λ s n, checked time_ok (s, n);
  FixedOffset := dsig offset_ok;
  local_minus_utc := proj1_sig;
  east_opt := checked offset_ok |}.
#[global] Instance zoned : ChronoZoned := {|
  DateTimeTZ := NaiveDateTime * TimeZone;
  naive_utc := fst;
  timezone := snd;
  with_timezone := pair |}.
#[global] Instance laws : ChronoLaws.
Proof.
  split; simpl.
  - intros d. apply (proj2_dsig d).
  - intros d. apply checked_proj.
  - intros t. apply (proj2_dsig t).
  - intros t. apply (proj2_dsig t).
  - intros t _. rewrite <-surjective_pairing. apply checked_proj.
  - intros o. apply (proj2_dsig o).
  - intros o. apply checked_proj.
  - intros [t z]. done.
Qed.
End Calendar.

Lemma encodings_sort_like_values_witness :
  cmp (IntegerBytes.build (-3)) (IntegerBytes.build 2) = Lt ∧ DoubleBytes.build (2 ^ 63 + 1) ≺ DoubleBytes.build 5.
Proof.
  pose proof (@encodings_sort_like_values Calendar.chrono Calendar.zoned Calendar.laws) as (Hi & _ & Hd & _).
  split; [rewrite Hi; [reflexivity|..]; unfold is_i64; lia|].
  apply Hd; [unfold is_u64; lia..|reflexivity|reflexivity|reflexivity].
Defined.
