(* ===== verification/Structs.v ===== *)
(** * Values and structs: [encoding/value/value.rs], [encoding/value/struct_bytes.rs]

    A [Value] of every type, its category, and the encoding of structs: the id
    of the definition, the number of fields, and for each field its id, the
    category of its value and the value, strings and nested structs with a
    variable-length size in front.

    The fields of a struct are a [HashMap]; the list here is the order in which
    it is iterated, which the language leaves open.  Decoding inserts the fields
    in the order in which they are read. *)
From stdpp Require Import strings.
From S2P Require Import Prelude Bytes Decimal Duration Layout TimeZones Values.

Inductive EncodingError := StructFieldValueTooLarge (len : Z) | UnexpectedEndOfEncodedStruct.

Definition u16 (z : Z) : Z := z mod 2 ^ 16.
Definition is_u16 (z : Z) : Prop := 0 ≤ z < 2 ^ 16.

Inductive Value `{ChronoZoned} :=
| VBoolean (b : bool)
| VInteger (i : Z)
| VDouble (bits : Z)
| VDecimal (d : Decimal)
| VDate (d : NaiveDate)
| VDateTime (t : NaiveDateTime)
| VDateTimeTZ (t : DateTimeTZ)
| VDuration (d : Duration)
| VString (s : bytes)
| VStruct (definition_key : bytes) (fields : list (Z * Value)).

Section values.
Context `{ChronoZoned}.

Definition value_type (v : Value) : ValueType :=
  match v with
  | VBoolean _ => TyBoolean
  | VInteger _ => TyInteger
  | VDouble _ => TyDouble
  | VDecimal _ => TyDecimal
  | VDate _ => TyDate
  | VDateTime _ => TyDateTime
  | VDateTimeTZ _ => TyDateTimeTZ
  | VDuration _ => TyDuration
  | VString _ => TyString
  | VStruct key _ => TyStruct key
  end.
Definition category (v : Value) : ValueTypeCategory := VType.category (value_type v).

(** ** Variable-length sizes *)
Definition VLE_IS_U32_FLAG : Z := 128.
Definition VLE_U32_LEN_MASK : Z := 2 ^ 31.
Definition MAX_VALUE_SIZE : Z := VLE_U32_LEN_MASK - 1.
Definition VLE_SINGLE_BYTE_MAX_SIZE : Z := VLE_IS_U32_FLAG - 1.

Definition append_length_as_vle (len : Z) (buf : bytes) : exec EncodingError bytes :=
  if len <=? VLE_SINGLE_BYTE_MAX_SIZE then Val (buf ++ [u8 len])
  else if len <=? MAX_VALUE_SIZE then Val (buf ++ be_bytes 4 (Z.lor (u32 len) VLE_U32_LEN_MASK))
  else Err (StructFieldValueTooLarge len).

Definition read_bytes_increment_offset (n : nat) (offset : nat) (buf : bytes) : exec EncodingError (bytes * nat) :=
  if (length buf <? offset + n)%nat then Err UnexpectedEndOfEncodedStruct
  else Val (take n (drop offset buf), (offset + n)%nat).
Definition read_slice_increment_offset (n : Z) (offset : nat) (buf : bytes) : exec EncodingError (bytes * nat) :=
  if Z.of_nat (length buf) <? Z.of_nat offset + n then Err UnexpectedEndOfEncodedStruct
  else Val (take (Z.to_nat n) (drop offset buf), (offset + Z.to_nat n)%nat).

Definition read_vle_increment_offset (offset : nat) (buf : bytes) : exec EncodingError (Z * nat) :=
  b ← unwrap (buf !! offset);
  if Z.land b VLE_IS_U32_FLAG =? 0 then
    '(bs, offset) ← read_bytes_increment_offset 1 offset buf; Val (be_value bs, offset)
  else
    '(bs, offset) ← read_bytes_increment_offset 4 offset buf;
    Val (Z.land (be_value bs) (Z.lnot VLE_U32_LEN_MASK), offset).

(** ** Encoding *)
Definition inline_bytes (e : outcome bytes) (buf : bytes) : exec EncodingError bytes :=
  bs ← lift e; Val (buf ++ bs).

Fixpoint encode_value_into (value : Value) (buf : bytes) : exec EncodingError bytes :=
  match value with
  | VString s => buf ← append_length_as_vle (Z.of_nat (length s)) buf; Val (buf ++ s)
  | VStruct key fields =>
      id ← lift (DefinitionKey.definition_id key);
      buf ← append_length_as_vle (Z.of_nat (length fields)) (buf ++ id);
      (fix encode_fields (fields : list (Z * Value)) (buf : bytes) : exec EncodingError bytes :=
         match fields with
         | [] => Val buf
         | (idx, value) :: fields =>
             let buf := buf ++ be_bytes 2 idx in
             let buf := buf ++ Category.to_bytes (category value) in
             buf ← encode_value_into value buf;
             encode_fields fields buf
         end) fields buf
  | VBoolean v => inline_bytes (encode_inline CatBoolean v) buf
  | VInteger v => inline_bytes (encode_inline CatInteger v) buf
  | VDouble v => inline_bytes (encode_inline CatDouble v) buf
  | VDecimal v => inline_bytes (encode_inline CatDecimal v) buf
  | VDate v => inline_bytes (encode_inline CatDate v) buf
  | VDateTime v => inline_bytes (encode_inline CatDateTime v) buf
  | VDateTimeTZ v => inline_bytes (encode_inline CatDateTimeTZ v) buf
  | VDuration v => inline_bytes (encode_inline CatDuration v) buf
  end.
Definition encode_struct_into (key : bytes) (fields : list (Z * Value)) (buf : bytes) : exec EncodingError bytes :=
  encode_value_into (VStruct key fields) buf.
(** [StructBytes::build] unwraps. *)
Definition build_struct (key : bytes) (fields : list (Z * Value)) : outcome bytes :=
  match encode_struct_into key fields [] with Val b => Val b | _ => Panic end.

(** ** Decoding *)
Definition read_inline {T} (category : ValueTypeCategory) `{!InlineEncodable category T} (inj : T → Value)
    (offset : nat) (buf : bytes) : exec EncodingError (Value * nat) :=
  '(bs, offset) ← read_bytes_increment_offset (EncLen.length (ENCODED_LENGTH_ID category T)) offset buf;
  v ← lift (decode_inline category bs);
  Val (inj v, offset).

(** [HashMap::insert]. *)
Fixpoint insert_field (idx : Z) (v : Value) (fields : list (Z * Value)) : list (Z * Value) :=
  match fields with
  | [] => [(idx, v)]
  | (i, w) :: fields => if i =? idx then (i, v) :: fields else (i, w) :: insert_field idx v fields
  end.

Fixpoint decode_struct_increment_offset (fuel : nat) (offset : nat) (buf : bytes)
  : exec EncodingError (bytes * list (Z * Value) * nat) :=
  match fuel with
  | O => Panic
  | S fuel =>
      '(id, offset) ← read_bytes_increment_offset DefinitionID.LENGTH offset buf;
      let definition_key := DefinitionKey.build DefinitionStruct (DefinitionID.build (DefinitionID.as_uint id)) in
      '(n_fields, offset) ← read_vle_increment_offset offset buf;
      '(fields, offset) ← decode_fields fuel n_fields offset buf [];
      Val (definition_key, fields, offset)
  end
with decode_fields (fuel : nat) (n_fields : Z) (offset : nat) (buf : bytes) (fields : list (Z * Value))
  : exec EncodingError (list (Z * Value) * nat) :=
  match fuel with
  | O => Panic
  | S fuel =>
      if n_fields <=? 0 then Val (fields, offset)
      else
        '(idx, offset) ← read_bytes_increment_offset 2 offset buf;
        '(category, offset) ← read_bytes_increment_offset 1 offset buf;
        category ← lift (Category.from_bytes category);
        '(value, offset) ←
          match category with
          | CatBoolean => read_inline CatBoolean VBoolean offset buf
          | CatInteger => read_inline CatInteger VInteger offset buf
          | CatDouble => read_inline CatDouble VDouble offset buf
          | CatDecimal => read_inline CatDecimal VDecimal offset buf
          | CatDate => read_inline CatDate VDate offset buf
          | CatDateTime => read_inline CatDateTime VDateTime offset buf
          | CatDateTimeTZ => read_inline CatDateTimeTZ VDateTimeTZ offset buf
          | CatDuration => read_inline CatDuration VDuration offset buf
          | CatString =>
              '(len, offset) ← read_vle_increment_offset offset buf;
              '(s, offset) ← read_slice_increment_offset len offset buf;
              s ← lift (as_str s);
              Val (VString s, offset)
          | CatStruct =>
              '(key, nested, offset) ← decode_struct_increment_offset fuel offset buf;
              Val (VStruct key nested, offset)
          end;
        decode_fields fuel (n_fields - 1) offset buf (insert_field (be_value idx) value fields)
  end.

(** [as_struct]: decodes from the start of the bytes and unwraps.  Every struct
    and every field takes at least one byte, so the fuel never runs out. *)
Definition as_struct (bs : bytes) : outcome (bytes * list (Z * Value)) :=
  match decode_struct_increment_offset (S (S (length bs))) 0 bs with
  | Val (key, fields, _) => Val (key, fields)
  | _ => Panic
  end.
End values.

(** ** Sizes round-trip *)
Lemma testbit_small w k i : 0 ≤ w < 2 ^ k → 0 ≤ k ≤ i → Z.testbit w i = false.
Proof.
  intros Hw Hk. destruct (Z.eq_dec w 0) as [->|]; [apply Z.bits_0|].
  apply Z.bits_above_log2; [lia|]. apply Z.log2_lt_pow2; [lia|].
  apply Z.lt_le_trans with (2 ^ k); [lia|]. apply Z.pow_le_mono_r; lia.
Qed.
Lemma land_pow2_small w k : 0 ≤ w < 2 ^ k → 0 ≤ k → Z.land w (2 ^ k) = 0.
Proof.
  intros Hw Hk. apply Z.bits_inj'. intros i Hi. rewrite Z.land_spec, Z.bits_0.
  destruct (Z.eq_dec i k) as [->|]; [by rewrite (testbit_small w k) by lia|].
  by rewrite Z.pow2_bits_false, andb_false_r by lia.
Qed.
Lemma lor_pow2_small w k : 0 ≤ w < 2 ^ k → 0 ≤ k → Z.lor w (2 ^ k) = w + 2 ^ k.
Proof.
  intros Hw Hk. pose proof (Z.add_lor_land w (2 ^ k)) as H. rewrite land_pow2_small in H by done. lia.
Qed.
Lemma land_lnot_pow2 w k : 0 ≤ w < 2 ^ k → 0 ≤ k → Z.land (Z.lor w (2 ^ k)) (Z.lnot (2 ^ k)) = w.
Proof.
  intros Hw Hk. apply Z.bits_inj'. intros i Hi. rewrite Z.land_spec, Z.lor_spec, Z.lnot_spec by lia.
  destruct (Z.eq_dec i k) as [->|].
  - by rewrite (testbit_small w k), Z.pow2_bits_true by lia.
  - rewrite Z.pow2_bits_false by lia. by rewrite orb_false_r, andb_true_r.
Qed.
Lemma land_pow2_high w k : 0 ≤ k → 2 ^ k ≤ w < 2 ^ (k + 1) → Z.land w (2 ^ k) = 2 ^ k.
Proof.
  intros Hk Hw. rewrite Z.pow_add_r in Hw by lia.
  replace w with (Z.lor (w - 2 ^ k) (2 ^ k)) by (rewrite lor_pow2_small; lia).
  by rewrite Z.land_lor_distr_l, Z.land_diag, land_pow2_small by lia.
Qed.

Definition vle (len : Z) : bytes :=
  if len <=? VLE_SINGLE_BYTE_MAX_SIZE then [len] else be_bytes 4 (len + VLE_U32_LEN_MASK).
Lemma append_vle len buf : 0 ≤ len ≤ MAX_VALUE_SIZE → append_length_as_vle len buf = Val (buf ++ vle len).
Proof.
  unfold MAX_VALUE_SIZE, VLE_U32_LEN_MASK. intros Hlen. unfold append_length_as_vle, vle.
  unfold VLE_SINGLE_BYTE_MAX_SIZE, VLE_IS_U32_FLAG, MAX_VALUE_SIZE, VLE_U32_LEN_MASK.
  destruct (Z.leb_spec len (128 - 1)).
  - by rewrite u8_id by (unfold is_byte; lia).
  - rewrite (proj2 (Z.leb_le len _)) by lia.
    rewrite u32_id by (unfold is_u32; lia). by rewrite lor_pow2_small by lia.
Qed.
Lemma length_vle len : (1 ≤ length (vle len))%nat.
Proof. unfold vle. destruct (_ <=? _); simpl; lia. Qed.

Lemma drop_pre {A} (pre rest : list A) : drop (length pre) (pre ++ rest) = rest.
Proof. apply drop_app_length. Qed.
Lemma read_bytes_at n (pre bs rest : bytes) :
  length bs = n →
  read_bytes_increment_offset n (length pre) (pre ++ bs ++ rest) = Val (bs, length (pre ++ bs)).
Proof.
  intros <-. unfold read_bytes_increment_offset. rewrite !length_app.
  destruct (Nat.ltb_spec (length pre + (length bs + length rest)) (length pre + length bs)); [lia|].
  by rewrite drop_pre, take_app_length.
Qed.
Lemma read_slice_at (pre bs rest : bytes) :
  read_slice_increment_offset (Z.of_nat (length bs)) (length pre) (pre ++ bs ++ rest) =
  Val (bs, length (pre ++ bs)).
Proof.
  unfold read_slice_increment_offset. rewrite !length_app.
  destruct (Z.ltb_spec (Z.of_nat (length pre + (length bs + length rest))) (Z.of_nat (length pre) + Z.of_nat (length bs))); [lia|].
  by rewrite Nat2Z.id, drop_pre, take_app_length.
Qed.
Lemma lookup_pre (pre bs rest : bytes) b : head bs = Some b → (pre ++ bs ++ rest) !! length pre = Some b.
Proof. intros Hb. rewrite lookup_app_r, Nat.sub_diag by lia. by destruct bs. Qed.
Lemma read_vle_at len (pre rest : bytes) :
  0 ≤ len ≤ MAX_VALUE_SIZE →
  read_vle_increment_offset (length pre) (pre ++ vle len ++ rest) = Val (len, length (pre ++ vle len)).
Proof.
  unfold MAX_VALUE_SIZE, VLE_U32_LEN_MASK. intros Hlen. unfold read_vle_increment_offset.
  unfold vle, VLE_SINGLE_BYTE_MAX_SIZE, VLE_IS_U32_FLAG, VLE_U32_LEN_MASK.
  destruct (Z.leb_spec len (128 - 1)) as [Hs|Hs].
  - rewrite (lookup_pre pre [len] rest len) by done. cbn [unwrap mbind exec_bind].
    change 128 with (2 ^ 7). rewrite land_pow2_small by lia. cbn [Z.eqb].
    rewrite read_bytes_at by done. cbn [mbind exec_bind]. f_equal. f_equal. cbn. lia.
  - set (w := len + 2 ^ 31). rewrite (lookup_pre pre (be_bytes 4 w) rest ((w / 256 ^ 3) mod 256)) by done.
    cbn [unwrap mbind exec_bind].
    assert (Hq : 128 ≤ w / 256 ^ 3 < 256).
    { unfold w. split; [apply Z.div_le_lower_bound; lia|apply Z.div_lt_upper_bound; lia]. }
    rewrite (Z.mod_small (w / 256 ^ 3)) by lia. change 128 with (2 ^ 7). rewrite land_pow2_high by (simpl; lia).
    cbn [Z.eqb Z.pow Z.pow_pos]. simpl (_ =? _). cbv iota.
    rewrite read_bytes_at by apply length_be_bytes. cbn [mbind exec_bind].
    rewrite be_bytes_value by (change (256 ^ Z.of_nat 4) with (2 ^ 32); unfold w; lia).
    unfold w. rewrite <-(lor_pow2_small len 31), land_lnot_pow2 by lia. done.
Qed.

Section struct_round_trip.
Context `{ChronoLaws}.

(** Induction over values and the values of their fields. *)
Lemma value_ind (P : Value → Prop) :
  (∀ v, (∀ key fields, v ≠ VStruct key fields) → P v) →
  (∀ key fields, Forall (λ f, P f.2) fields → P (VStruct key fields)) →
  ∀ v, P v.
Proof.
  intros Hleaf Hstruct. fix go 1. intros [ | | | | | | | | |key fields]; try (apply Hleaf; done).
  apply Hstruct. induction fields as [|[i v] fields IH]; [constructor|]. constructor; [apply go|exact IH].
Qed.

(** The values the types can hold: numbers within their widths, strings of
    valid UTF-8, and structs with distinct field ids whose sizes fit the
    variable-length encoding. *)
Fixpoint valid (v : Value) : Prop :=
  match v with
  | VBoolean _ | VDate _ => True
  | VInteger i => is_i64 i
  | VDouble d => is_u64 d
  | VDecimal d => decimal_valid d
  | VDateTime t => date_time_valid t
  | VDateTimeTZ t => date_time_tz_valid t
  | VDuration d => duration_valid d
  | VString s => utf8 s = true ∧ Z.of_nat (length s) ≤ MAX_VALUE_SIZE
  | VStruct key fields =>
      (∃ id, is_u16 id ∧ key = DefinitionKey.build DefinitionStruct (DefinitionID.build id)) ∧
      Z.of_nat (length fields) ≤ MAX_VALUE_SIZE ∧ NoDup fields.*1 ∧
      (fix all (fields : list (Z * Value)) : Prop :=
         match fields with [] => True | (i, v) :: fields => (is_u16 i ∧ valid v) ∧ all fields end) fields
  end.
Lemma valid_fields key fields :
  valid (VStruct key fields) → Forall (λ f, is_u16 f.1 ∧ valid f.2) fields.
Proof.
  intros (_ & _ & _ & Hall). induction fields as [|[i v] fields IH]; [constructor|].
  destruct Hall as [Hv Hall]. constructor; [done|by apply IH].
Qed.

(** The loop over the fields of a struct, as functions of their own. *)
Definition encode_fields :=
  fix encode_fields (fields : list (Z * Value)) (buf : bytes) : exec EncodingError bytes :=
    match fields with
    | [] => Val buf
    | (idx, value) :: fields =>
        buf ← encode_value_into value ((buf ++ be_bytes 2 idx) ++ Category.to_bytes (category value));
        encode_fields fields buf
    end.
Definition decode_value (fuel : nat) (category : ValueTypeCategory) (offset : nat) (buf : bytes)
  : exec EncodingError (Value * nat) :=
  match category with
  | CatBoolean => read_inline CatBoolean VBoolean offset buf
  | CatInteger => read_inline CatInteger VInteger offset buf
  | CatDouble => read_inline CatDouble VDouble offset buf
  | CatDecimal => read_inline CatDecimal VDecimal offset buf
  | CatDate => read_inline CatDate VDate offset buf
  | CatDateTime => read_inline CatDateTime VDateTime offset buf
  | CatDateTimeTZ => read_inline CatDateTimeTZ VDateTimeTZ offset buf
  | CatDuration => read_inline CatDuration VDuration offset buf
  | CatString =>
      '(len, offset) ← read_vle_increment_offset offset buf;
      '(s, offset) ← read_slice_increment_offset len offset buf;
      s ← lift (as_str s);
      Val (VString s, offset)
  | CatStruct =>
      '(key, nested, offset) ← decode_struct_increment_offset fuel offset buf;
      Val (VStruct key nested, offset)
  end.
Lemma decode_fields_step fuel n offset buf fields :
  decode_fields (S fuel) n offset buf fields =
  if n <=? 0 then Val (fields, offset)
  else
    '(idx, offset) ← read_bytes_increment_offset 2 offset buf;
    '(category, offset) ← read_bytes_increment_offset 1 offset buf;
    category ← lift (Category.from_bytes category);
    '(value, offset) ← decode_value fuel category offset buf;
    decode_fields fuel (n - 1) offset buf (insert_field (be_value idx) value fields).
Proof. reflexivity. Qed.
Lemma decode_struct_step fuel offset buf :
  decode_struct_increment_offset (S fuel) offset buf =
  ('(id, offset) ← read_bytes_increment_offset DefinitionID.LENGTH offset buf;
   '(n_fields, offset) ← read_vle_increment_offset offset buf;
   '(fields, offset) ← decode_fields fuel n_fields offset buf [];
   Val (DefinitionKey.build DefinitionStruct (DefinitionID.build (DefinitionID.as_uint id)), fields, offset)).
Proof. reflexivity. Qed.

(** What a value's encoding must satisfy: it is appended to the buffer, and read
    back wherever it lies, with fuel for its bytes. *)
Definition encodes (v : Value) (e : bytes) : Prop :=
  (∀ buf, encode_value_into v buf = Val (buf ++ e)) ∧
  (∀ fuel pre rest, (length e ≤ fuel)%nat →
     decode_value fuel (category v) (length pre) (pre ++ e ++ rest) = Val (v, length (pre ++ e))).

Lemma inline_encodes {T} cat `{!InlineEncodable cat T} (ok : T → Prop) `{!InlineEncodableLaws cat T ok}
    (inj : T → Value) v :
  ok v → (∀ buf, encode_value_into (inj v) buf = inline_bytes (encode_inline cat v) buf) →
  (∀ fuel offset buf, decode_value fuel (category (inj v)) offset buf = read_inline cat inj offset buf) →
  ∃ e, encodes (inj v) e.
Proof.
  intros Hv He Hd. destruct (inline_round_trip v Hv) as (b & Hb & Hlen & _ & Hr).
  exists b. split.
  - intros buf. rewrite He, Hb. done.
  - intros fuel pre rest _. rewrite Hd. unfold read_inline. rewrite read_bytes_at by done.
    cbn [mbind exec_bind]. by rewrite Hr.
Qed.

Lemma insert_field_fresh idx v fields : idx ∉ fields.*1 → insert_field idx v fields = fields ++ [(idx, v)].
Proof.
  induction fields as [|[i w] fields IH]; [done|]. cbn. intros Hni. apply not_elem_of_cons in Hni as [Hne Hni].
  destruct (Z.eqb_spec i idx); [congruence|]. by rewrite IH.
Qed.

Lemma app_at (pre a b rest : bytes) : pre ++ (a ++ b) ++ rest = (pre ++ a) ++ b ++ rest.
Proof. by rewrite !app_assoc. Qed.

Lemma fields_encode fields :
  Forall (λ f, is_u16 f.1 ∧ ∃ e, encodes f.2 e) fields →
  ∃ e, (∀ buf, encode_fields fields buf = Val (buf ++ e)) ∧
    ∀ fuel pre rest acc, (length e < fuel)%nat → NoDup (acc ++ fields).*1 →
      decode_fields fuel (Z.of_nat (length fields)) (length pre) (pre ++ e ++ rest) acc =
      Val (acc ++ fields, length (pre ++ e)).
Proof.
  induction 1 as [|[idx v] fields [Hidx [ev [Hev Hdv]]] _ (e & He & Hd)].
  { exists []. split; [intros; by rewrite app_nil_r|]. intros [|fuel] pre rest acc Hf _; [simpl in Hf; lia|].
    rewrite decode_fields_step. cbn. by rewrite !app_nil_r. }
  cbn [fst snd] in *. set (c := Category.to_bytes (category v)).
  exists (be_bytes 2 idx ++ c ++ ev ++ e). split.
  { intros buf. cbn [encode_fields]. rewrite Hev. cbn [mbind exec_bind]. fold encode_fields. rewrite He.
    unfold c. by rewrite !app_assoc. }
  intros [|fuel] pre rest acc Hf Hnd; [lia|]. rewrite !length_app, length_be_bytes in Hf.
  assert (Hc : length c = 1%nat) by apply length_category.
  rewrite decode_fields_step. destruct (Z.leb_spec (Z.of_nat (length ((idx, v) :: fields))) 0); [simpl in *; lia|].
  rewrite app_at, <-app_assoc, read_bytes_at by apply length_be_bytes. cbn [mbind exec_bind].
  rewrite app_assoc, app_at, <-app_assoc, read_bytes_at by done. cbn [mbind exec_bind].
  assert (Category.from_bytes c = Val (category v)) as -> by apply category_round_trip. cbn [lift mbind exec_bind].
  rewrite app_assoc, app_at, <-app_assoc, Hdv by lia. cbn [mbind exec_bind].
  rewrite be_bytes_value by (unfold is_u16 in Hidx; change (256 ^ Z.of_nat 2) with (2 ^ 16); lia).
  rewrite app_assoc. replace (Z.of_nat (length ((idx, v) :: fields)) - 1) with (Z.of_nat (length fields)) by (simpl; lia).
  rewrite insert_field_fresh.
  - rewrite Hd; [|lia|by rewrite <-app_assoc]. f_equal. f_equal; [by rewrite <-app_assoc|by rewrite <-!app_assoc].
  - rewrite fmap_app in Hnd. apply NoDup_app in Hnd as (_ & Hdis & _). intros Hin. apply (Hdis idx Hin). left.
Qed.

Lemma struct_encodes key fields :
  valid (VStruct key fields) → Forall (λ f, ∃ e, encodes f.2 e) fields → ∃ e, encodes (VStruct key fields) e.
Proof.
  intros Hv Hf. pose proof (valid_fields key fields Hv) as Hvf.
  destruct Hv as ((id & Hid & ->) & Hlen & Hnd & _).
  destruct (fields_encode fields) as (e & He & Hd).
  { clear -Hvf Hf. induction Hf; inversion Hvf; constructor; naive_solver. }
  assert (Hids : length (DefinitionID.build id) = 2%nat) by apply length_be_bytes.
  exists (DefinitionID.build id ++ vle (Z.of_nat (length fields)) ++ e). split.
  - intros buf. cbn [encode_value_into]. fold encode_fields.
    assert (DefinitionKey.definition_id (DefinitionKey.build DefinitionStruct (DefinitionID.build id)) =
            Val (DefinitionID.build id)) as ->.
    { unfold DefinitionKey.definition_id, DefinitionKey.build.
      change (Prefixes.prefix_id DefinitionStruct :: DefinitionID.build id)
        with ([Prefixes.prefix_id DefinitionStruct] ++ DefinitionID.build id).
      rewrite slice_rest by (done || by rewrite Hids). by apply into_array_ok. }
    cbn [lift mbind exec_bind]. rewrite append_vle by lia. cbn [mbind exec_bind].
    change (encode_fields fields ((buf ++ DefinitionID.build id) ++ vle (Z.of_nat (length fields))) =
            Val (buf ++ DefinitionID.build id ++ vle (Z.of_nat (length fields)) ++ e)).
    rewrite He. by rewrite !app_assoc.
  - intros fuel pre rest Hfuel. rewrite !length_app, Hids in Hfuel.
    pose proof (length_vle (Z.of_nat (length fields))).
    destruct fuel as [|fuel]; [lia|]. cbn [category value_type VType.category decode_value].
    change (VType.category (TyStruct _)) with CatStruct. cbv iota.
    rewrite decode_struct_step.
    rewrite app_at, <-app_assoc, read_bytes_at by done. cbn [mbind exec_bind].
    rewrite app_assoc, app_at, <-app_assoc, read_vle_at by lia. cbn [mbind exec_bind].
    rewrite app_assoc, Hd by (done || lia). cbn [mbind exec_bind app].
    f_equal. f_equal; [|by rewrite <-!app_assoc]. f_equal.
    unfold DefinitionID.as_uint. unfold DefinitionID.build at 2.
    rewrite be_bytes_value by (unfold is_u16 in Hid; change (256 ^ Z.of_nat DefinitionID.LENGTH) with (2 ^ 16); lia).
    done.
Qed.

Lemma value_encodes v : valid v → ∃ e, encodes v e.
Proof.
  induction v as [v Hleaf|key fields IH] using value_ind; intros Hv.
  - destruct v as [x|x|x|x|x|x|x|x|s|key fields].
    9: { destruct Hv as [Hu Hlen]. exists (vle (Z.of_nat (length s)) ++ s). split.
         - intros buf. cbn [encode_value_into]. rewrite append_vle by lia. cbn. by rewrite <-app_assoc.
         - intros fuel pre rest _. cbn [decode_value category value_type VType.category].
           change (VType.category TyString) with CatString. cbv iota.
           rewrite app_at, <-app_assoc, read_vle_at by lia. cbn [mbind exec_bind].
           rewrite app_assoc, read_slice_at. cbn [mbind exec_bind].
           unfold as_str. rewrite Hu. cbn. by rewrite <-app_assoc. }
    9: by edestruct Hleaf.
    + by apply (inline_encodes CatBoolean (λ _, True) VBoolean).
    + by apply (inline_encodes CatInteger is_i64 VInteger).
    + by apply (inline_encodes CatDouble is_u64 VDouble).
    + by apply (inline_encodes CatDecimal decimal_valid VDecimal).
    + by apply (inline_encodes CatDate (λ _, True) VDate).
    + by apply (inline_encodes CatDateTime date_time_valid VDateTime).
    + by apply (inline_encodes CatDateTimeTZ date_time_tz_valid VDateTimeTZ).
    + by apply (inline_encodes CatDuration duration_valid VDuration).
  - apply struct_encodes; [done|]. pose proof (valid_fields key fields Hv) as Hvf.
    clear Hv. induction IH; inversion Hvf; constructor; naive_solver.
Qed.
End struct_round_trip.

(** ** The fuel of decoding is enough for any bytes *)
Section decode_fuel.
Context `{ChronoZoned}.

Lemma read_bytes_bounds n offset buf bs o :
  read_bytes_increment_offset n offset buf = Val (bs, o) → (o = offset + n ∧ o ≤ length buf)%nat.
Proof. unfold read_bytes_increment_offset. destruct (Nat.ltb_spec (length buf) (offset + n)); [done|]. intros [= _ <-]. lia. Qed.
Lemma read_slice_bounds n offset buf bs o :
  (offset ≤ length buf)%nat → read_slice_increment_offset n offset buf = Val (bs, o) →
  (offset ≤ o ≤ length buf)%nat.
Proof.
  intros Ho. unfold read_slice_increment_offset.
  destruct (Z.ltb_spec (Z.of_nat (length buf)) (Z.of_nat offset + n)); [done|]. intros [= _ <-]. lia.
Qed.
Lemma read_vle_bounds offset buf n o :
  read_vle_increment_offset offset buf = Val (n, o) → (offset < o ≤ length buf)%nat.
Proof.
  unfold read_vle_increment_offset. destruct (buf !! offset) as [b|]; [|done]. cbn [unwrap mbind exec_bind].
  destruct (Z.land b VLE_IS_U32_FLAG =? 0).
  - destruct (read_bytes_increment_offset 1 offset buf) as [[bs o']| |] eqn:Hr; cbn; try done.
    intros [= _ <-]. apply read_bytes_bounds in Hr. lia.
  - destruct (read_bytes_increment_offset 4 offset buf) as [[bs o']| |] eqn:Hr; cbn; try done.
    intros [= _ <-]. apply read_bytes_bounds in Hr. lia.
Qed.
Lemma read_inline_bounds {T} cat `{!InlineEncodable cat T} (inj : T → Value) offset buf v o :
  read_inline cat inj offset buf = Val (v, o) → (offset ≤ o ≤ length buf)%nat.
Proof.
  unfold read_inline. destruct (read_bytes_increment_offset _ offset buf) as [[bs o']| |] eqn:Hr; cbn; try done.
  destruct (lift (decode_inline cat bs)); cbn; try done. intros [= _ <-]. apply read_bytes_bounds in Hr. lia.
Qed.

(** Decoding moves the offset forward, within the bytes. *)
Lemma value_bounds fuel cat offset buf v o :
  (∀ offset buf k f o, (offset ≤ length buf)%nat →
     decode_struct_increment_offset fuel offset buf = Val (k, f, o) → (offset ≤ o ≤ length buf)%nat) →
  (offset ≤ length buf)%nat → decode_value fuel cat offset buf = Val (v, o) → (offset ≤ o ≤ length buf)%nat.
Proof.
  intros IHs Ho H3. destruct cat; simpl in H3; try (by apply read_inline_bounds in H3).
  - destruct (read_vle_increment_offset offset buf) as [[m o4]| |] eqn:H4; cbn [mbind exec_bind] in H3; try done.
    apply read_vle_bounds in H4.
    destruct (read_slice_increment_offset m o4 buf) as [[str o5]| |] eqn:H5; cbn [mbind exec_bind] in H3; try done.
    apply read_slice_bounds in H5; [|lia]. destruct (lift (as_str str)); cbn in H3; simplify_eq. lia.
  - destruct (decode_struct_increment_offset fuel offset buf) as [[[k fs] o4]| |] eqn:H4; cbn in H3; simplify_eq.
    apply IHs in H4; lia.
Qed.
Lemma decode_bounds fuel :
  (∀ offset buf k f o, (offset ≤ length buf)%nat →
     decode_struct_increment_offset fuel offset buf = Val (k, f, o) → (offset ≤ o ≤ length buf)%nat) ∧
  (∀ n offset buf acc f o, (offset ≤ length buf)%nat →
     decode_fields fuel n offset buf acc = Val (f, o) → (offset ≤ o ≤ length buf)%nat).
Proof.
  induction fuel as [|fuel [IHs IHf]]; [done|]. split.
  - intros offset buf k f o Ho. rewrite decode_struct_step.
    destruct (read_bytes_increment_offset _ offset buf) as [[id o1]| |] eqn:H1; cbn [mbind exec_bind]; try done.
    apply read_bytes_bounds in H1.
    destruct (read_vle_increment_offset o1 buf) as [[n o2]| |] eqn:H2; cbn [mbind exec_bind]; try done.
    apply read_vle_bounds in H2.
    destruct (decode_fields fuel n o2 buf []) as [[fs o3]| |] eqn:H3; cbn [mbind exec_bind]; try done.
    intros [= _ _ <-]. apply IHf in H3; lia.
  - intros n offset buf acc f o Ho. rewrite decode_fields_step. destruct (n <=? 0); [intros [= _ <-]; lia|].
    destruct (read_bytes_increment_offset 2 offset buf) as [[id o1]| |] eqn:H1; cbn [mbind exec_bind]; try done.
    apply read_bytes_bounds in H1.
    destruct (read_bytes_increment_offset 1 o1 buf) as [[c o2]| |] eqn:H2; cbn [mbind exec_bind]; try done.
    apply read_bytes_bounds in H2. destruct (lift (Category.from_bytes c)) as [cat| |]; cbn [mbind exec_bind]; try done.
    destruct (decode_value fuel cat o2 buf) as [[v o3]| |] eqn:H3; cbn [mbind exec_bind]; try done.
    apply (value_bounds fuel) in H3; [|exact IHs|lia]. intros Hf. apply IHf in Hf; lia.
Qed.

Lemma decode_value_bounds fuel cat offset buf v o :
  (offset ≤ length buf)%nat → decode_value fuel cat offset buf = Val (v, o) → (offset ≤ o ≤ length buf)%nat.
Proof. apply value_bounds. intros *. apply decode_bounds. Qed.

Lemma decode_enough fuel :
  (∀ offset buf, (offset ≤ length buf < fuel + offset)%nat →
     decode_struct_increment_offset (S fuel) offset buf = decode_struct_increment_offset fuel offset buf) ∧
  (∀ n offset buf acc, (offset ≤ length buf < fuel + offset)%nat →
     decode_fields (S fuel) n offset buf acc = decode_fields fuel n offset buf acc).
Proof.
  induction fuel as [|fuel [IHs IHf]]; [split; intros; lia|]. split.
  - intros offset buf Ho. rewrite decode_struct_step, (decode_struct_step fuel).
    destruct (read_bytes_increment_offset _ offset buf) as [[id o1]| |] eqn:H1; cbn [mbind exec_bind]; try done.
    apply read_bytes_bounds in H1. unfold DefinitionID.LENGTH in H1.
    destruct (read_vle_increment_offset o1 buf) as [[n o2]| |] eqn:H2; cbn [mbind exec_bind]; try done.
    apply read_vle_bounds in H2. rewrite IHf by lia. done.
  - intros n offset buf acc Ho. rewrite decode_fields_step, (decode_fields_step fuel).
    destruct (n <=? 0); [done|].
    destruct (read_bytes_increment_offset 2 offset buf) as [[id o1]| |] eqn:H1; cbn [mbind exec_bind]; try done.
    apply read_bytes_bounds in H1.
    destruct (read_bytes_increment_offset 1 o1 buf) as [[c o2]| |] eqn:H2; cbn [mbind exec_bind]; try done.
    apply read_bytes_bounds in H2. destruct (lift (Category.from_bytes c)) as [cat| |]; cbn [mbind exec_bind]; try done.
    assert (decode_value (S fuel) cat o2 buf = decode_value fuel cat o2 buf) as ->.
    { destruct cat; try done. unfold decode_value. rewrite IHs by lia. done. }
    destruct (decode_value fuel cat o2 buf) as [[v o3]| |] eqn:H3; cbn [mbind exec_bind]; try done.
    rewrite IHf; [done|].
    assert (o2 ≤ o3 ≤ length buf)%nat; [|lia].
    apply (decode_value_bounds fuel) in H3; [done|lia].
Qed.
End decode_fuel.

(** C35: structs round-trip. Every struct whose values fit their types (nested
    structs to any depth, strings of valid UTF-8, sizes below [2^31]; datetimes
    without a leap second, zones that are offsets or in the time-zone table),
    whatever the order in which its fields are iterated, is encoded without an
    error, and decoding the bytes terminates and returns its definition and its
    fields. *)
Theorem struct_round_trip `{ChronoLaws} (key : bytes) (fields : list (Z * Value)) :
  valid (VStruct key fields) →
  ∃ b, build_struct key fields = Val b ∧ as_struct b = Val (key, fields).
Proof.
  intros Hv. destruct (value_encodes _ Hv) as (e & He & Hd). exists e. split.
  - unfold build_struct, encode_struct_into. by rewrite He.
  - specialize (Hd (S (S (length e))) [] []). rewrite app_nil_r in Hd. cbn [app length] in Hd.
    specialize (Hd ltac:(lia)). unfold as_struct.
    change (decode_value (S (S (length e))) (category (VStruct key fields)) 0 e) with
      ('(key, nested, offset) ← decode_struct_increment_offset (S (S (length e))) 0 e;
       Val (VStruct key nested, offset)) in Hd.
    destruct (decode_struct_increment_offset _ 0 e) as [[[k f] o]| |]; cbn in Hd; by simplify_eq.
Qed.

Lemma struct_round_trip_witness :
  ∃ b, build_struct (H0 := Calendar.zoned) [20; 0; 7]
         [(2, VString [97; 98]); (1, VStruct [20; 0; 8] [(0, VInteger (-5))])] = Val b ∧
       as_struct b = Val ([20; 0; 7], [(2, VString [97; 98]); (1, VStruct [20; 0; 8] [(0, VInteger (-5))])]).
Proof.
  apply (struct_round_trip (H1 := Calendar.laws)). split; [exists 7; split; [unfold is_u16; lia|reflexivity]|].
  split; [simpl; unfold MAX_VALUE_SIZE, VLE_U32_LEN_MASK; lia|]. split; [by apply (bool_decide_unpack _)|].
  split; [split; [unfold is_u16; lia|split; [reflexivity|simpl; unfold MAX_VALUE_SIZE, VLE_U32_LEN_MASK; lia]]|].
  split; [|done]. split; [unfold is_u16; lia|]. split; [exists 8; split; [unfold is_u16; lia|reflexivity]|].
  split; [simpl; unfold MAX_VALUE_SIZE, VLE_U32_LEN_MASK; lia|]. split; [by apply (bool_decide_unpack _)|].
  split; [|done]. split; [unfold is_u16; lia|]. simpl. unfold is_i64. lia.
Defined.

(** Two orders of the same fields are encoded differently, so equal structs can
    have different bytes. *)
Example field_order_changes_encoding :
  build_struct (H0 := Calendar.zoned) [20; 0; 7] [(0, VBoolean true); (1, VBoolean false)] ≠
  build_struct (H0 := Calendar.zoned) [20; 0; 7] [(1, VBoolean false); (0, VBoolean true)].
Proof. vm_compute. discriminate. Qed.
