(* ===== verification/Attributes.v ===== *)
(** * Attribute vertices: [encoding/graph/thing/vertex_attribute.rs],
    [encoding/graph/common/value_hasher.rs] and the attributes of
    [encoding/graph/thing/vertex_generator.rs]

    The key of an attribute is its prefix byte, its type and an id that starts
    with the category of the value.  Values of fixed size are in the id; a string
    of up to 16 bytes too, with its length in the last byte; longer strings and
    structs are hashed, and a tail byte tells values of the same hash apart: the
    keys with the same hash are scanned for the value, and a new value takes a
    tail that is not in use. *)
From stdpp Require Import strings.
From S2P Require Import Prelude BTree Bytes MemoryStore Buffer LendingIter Mvcc Keyspaces Snapshot Dependency Decimal Duration Layout TimeZones Values Structs.

Import KeyRangeOps.

(** ** Type ids *)
Module TypeID.
Definition LENGTH : nat := 2.
Definition to_bytes (id : Z) : bytes := be_bytes LENGTH id.
Definition decode (b : bytes) : Z := be_value b.
Definition increment (id : Z) : option Z := if id + 1 <? 2 ^ 16 then Some (id + 1) else None.
Definition decrement (id : Z) : option Z := if 0 <=? id - 1 then Some (id - 1) else None.
End TypeID.

Definition THING_VERTEX_LENGTH_PREFIX_TYPE : nat := (1 + TypeID.LENGTH)%nat.

(** ** Ids of values of fixed size: [InlinePrimitiveID] *)
Module InlineID.
Section inline.
Context {T : Type} (category : ValueTypeCategory) `{!InlineEncodable category T}.
Definition LENGTH : nat := (ValueTypeBytes.CATEGORY_LENGTH + EncLen.length (ENCODED_LENGTH_ID category T))%nat.
(** Writes the category and the value to the start of the slice. *)
Definition write (value : T) (bs : bytes) : outcome (nat * bytes) :=
  encoded ← encode_inline category value;
  if (length bs <? ValueTypeBytes.CATEGORY_LENGTH + length encoded)%nat then Panic
  else
    let bs := copy_at 0 (Category.to_bytes category) bs in
    let bs := copy_at ValueTypeBytes.CATEGORY_LENGTH encoded bs in
    Val ((ValueTypeBytes.CATEGORY_LENGTH + length encoded)%nat, bs).
Definition build (value : T) : outcome bytes :=
  '(_, bs) ← write value (replicate LENGTH 0); Val bs.
Definition read (id : bytes) : outcome T :=
  bs ← into_array (EncLen.length (ENCODED_LENGTH_ID category T)) (drop ValueTypeBytes.CATEGORY_LENGTH id);
  decode_inline category bs.
End inline.
End InlineID.

(** ** Hashed ids: [HashedID] *)
Class ReadableSnapshot (S I E : Type) : Type := {
  rs_iterate_range : Z → KeyRange bytes → S → outcome I;
  rs_next :: LendingIterator I (snapshot_item E);
}.

Module Hashed.
Definition HASH_DISAMBIGUATOR_BYTE_IS_HASH_FLAG : Z := 128.
Definition HASH_LENGTH (DISAMBIGUATED_HASH_LENGTH : nat) : nat := (DISAMBIGUATED_HASH_LENGTH - 1)%nat.

(** The bytes [write_hash] writes. *)
Definition write_hash (n : nat) (hasher : bytes → Z) (value_bytes : bytes) : bytes :=
  take (HASH_LENGTH n) (be_bytes 8 (hasher value_bytes)).
Definition concat_hash_and_tail (hash_bytes : bytes) (tail : Z) : bytes := hash_bytes ++ [tail].

Section snapshot.
Context {S I E : Type} `{ReadableSnapshot S I E}.

(** The loop over the keys of the same hash.  The counter is a [u8] that starts
    at 128 and the code panics when it would overflow, so 129 steps are
    enough. *)
Fixpoint disambiguate_loop (fuel : nat) (tail_byte_index : nat) (value_bytes : bytes) (iter : I)
    (next_tail : Z) (first_unused_tail : option Z) : exec (SnapshotIteratorError E) (Z + Z) :=
  match fuel with
  | O => Panic
  | Datatypes.S fuel =>
      '(next, iter) ← lift (li_next iter);
      match next with
      | None => Val (inr (default next_tail first_unused_tail))
      | Some (inr e) => Err e
      | Some (inl (key, value)) =>
          key_tail ← unwrap (key.2 !! tail_byte_index);
          if bool_decide (value = value_bytes) then Val (inl key_tail)
          else
            let first_unused_tail := if negb (next_tail =? key_tail) then Some next_tail else first_unused_tail in
            if next_tail =? 255 then Panic
            else disambiguate_loop fuel tail_byte_index value_bytes iter (next_tail + 1) first_unused_tail
      end
  end.
(** [First] (the tail of the value) is [inl], [Second] (a new tail) is [inr]. *)
Definition disambiguate (snapshot : S) (keyspace : EncodingKeyspace) (key_without_tail_byte value_bytes : bytes)
  : exec (SnapshotIteratorError E) (Z + Z) :=
  iter ← lift (rs_iterate_range (EncodingKeyspaces.id keyspace) (new_within key_without_tail_byte true) snapshot);
  disambiguate_loop 129 (length key_without_tail_byte) value_bytes iter HASH_DISAMBIGUATOR_BYTE_IS_HASH_FLAG None.

Definition find_existing_or_next_disambiguated_hash (n : nat) (snapshot : S) (hasher : bytes → Z)
    (keyspace : EncodingKeyspace) (key_without_hash value_bytes : bytes)
  : exec (SnapshotIteratorError E) (bytes + bytes) :=
  let hash_bytes := write_hash n hasher value_bytes in
  tail ← disambiguate snapshot keyspace (key_without_hash ++ hash_bytes) value_bytes;
  match tail with
  | inl tail => Val (inl (concat_hash_and_tail hash_bytes tail))
  | inr tail => Val (inr (concat_hash_and_tail hash_bytes tail))
  end.
End snapshot.
End Hashed.

(** ** Attribute ids *)
Inductive AttributeID :=
| IdBoolean (id : bytes)
| IdInteger (id : bytes)
| IdDouble (id : bytes)
| IdDecimal (id : bytes)
| IdDate (id : bytes)
| IdDateTime (id : bytes)
| IdDateTimeTZ (id : bytes)
| IdDuration (id : bytes)
| IdString (id : bytes)
| IdStruct (id : bytes).
Record AttributeVertex := mk_AttributeVertex { av_type_id : Z; av_attribute_id : AttributeID }.

Module AttrID.
Definition value_type_category (id : AttributeID) : ValueTypeCategory :=
  match id with
  | IdBoolean _ => CatBoolean | IdInteger _ => CatInteger | IdDouble _ => CatDouble | IdDecimal _ => CatDecimal
  | IdDate _ => CatDate | IdDateTime _ => CatDateTime | IdDateTimeTZ _ => CatDateTimeTZ
  | IdDuration _ => CatDuration | IdString _ => CatString | IdStruct _ => CatStruct
  end.
Definition value_type_encoded_value_length (c : ValueTypeCategory) : ValueEncodingLength :=
  match c with
  | CatBoolean | CatInteger | CatDouble | CatDate | CatStruct => Short
  | CatDecimal | CatDateTime | CatDateTimeTZ | CatDuration | CatString => Long
  end.
Definition value_type_encoding_length (c : ValueTypeCategory) : nat :=
  (ValueTypeBytes.CATEGORY_LENGTH + EncLen.length (value_type_encoded_value_length c))%nat.
Definition max_length : nat := (ValueTypeBytes.CATEGORY_LENGTH + EncLen.max_length)%nat.
Definition bytes_ref (id : AttributeID) : bytes :=
  match id with
  | IdBoolean b | IdInteger b | IdDouble b | IdDecimal b | IdDate b | IdDateTime b | IdDateTimeTZ b
  | IdDuration b | IdString b | IdStruct b => b
  end.
Definition length (id : AttributeID) : nat := value_type_encoding_length (value_type_category id).
Definition of_category (c : ValueTypeCategory) (b : bytes) : AttributeID :=
  match c with
  | CatBoolean => IdBoolean b | CatInteger => IdInteger b | CatDouble => IdDouble b | CatDecimal => IdDecimal b
  | CatDate => IdDate b | CatDateTime => IdDateTime b | CatDateTimeTZ => IdDateTimeTZ b
  | CatDuration => IdDuration b | CatString => IdString b | CatStruct => IdStruct b
  end.
(** [new]: the category byte gives the length the bytes must have. *)
Definition new (bs : bytes) : outcome AttributeID :=
  match bs with
  | [] => Panic
  | prefix :: _ =>
      category ← Category.from_bytes [prefix];
      id ← into_array (value_type_encoding_length category) bs;
      Val (of_category category id)
  end.
End AttrID.

Module StringID.
Definition LENGTH : nat := (ValueTypeBytes.CATEGORY_LENGTH + EncLen.length Long)%nat.
Definition INLINE_OR_PREFIXED_HASH_LENGTH : nat := (EncLen.length Long - 1)%nat.
Definition HASHED_HASH_LENGTH : nat := 8.
Definition HASHED_PREFIX_LENGTH : nat := (INLINE_OR_PREFIXED_HASH_LENGTH - HASHED_HASH_LENGTH)%nat.
Definition TAIL_IS_HASH_MASK : Z := 128.
Definition TAIL_INDEX : nat := (LENGTH - 1)%nat.

Definition is_inlineable (string : bytes) : bool := (length string <=? INLINE_OR_PREFIXED_HASH_LENGTH)%nat.
Definition set_tail_inline_length (bs : bytes) (length : Z) : outcome bytes :=
  if Z.land length TAIL_IS_HASH_MASK =? 0 then Val (<[TAIL_INDEX := length]> bs) else Panic.
Definition write_inline_id (bs string : bytes) : outcome bytes :=
  if (EncLen.length Long <? length string)%nat then Panic
  else
    let bs := copy_at 0 (Category.to_bytes CatString) bs in
    let bs := copy_at ValueTypeBytes.CATEGORY_LENGTH string bs in
    set_tail_inline_length bs (u8 (Z.of_nat (length string))).
Definition build_inline_id (string : bytes) : outcome bytes := write_inline_id (replicate LENGTH 0) string.
Definition is_inline (id : bytes) : outcome bool :=
  tail ← unwrap (id !! TAIL_INDEX); Val (Z.land tail TAIL_IS_HASH_MASK =? 0).
Definition get_inline_length (id : bytes) : outcome Z := unwrap (id !! TAIL_INDEX).
(** The buffer copied into has [INLINE_OR_PREFIXED_HASH_LENGTH] bytes. *)
Definition get_inline_id_value (id : bytes) : outcome bytes :=
  n ← get_inline_length id;
  if (INLINE_OR_PREFIXED_HASH_LENGTH <? Z.to_nat n)%nat then Panic
  else slice 0 (Z.to_nat n) (drop ValueTypeBytes.CATEGORY_LENGTH id).
Definition get_inline_string_bytes (id : bytes) : outcome bytes :=
  n ← get_inline_length id; slice 0 (Z.to_nat n) id.
Definition get_hash_prefix (id : bytes) : outcome bytes :=
  slice ValueTypeBytes.CATEGORY_LENGTH (ValueTypeBytes.CATEGORY_LENGTH + HASHED_PREFIX_LENGTH) id.
Definition get_hash_hash (id : bytes) : outcome bytes :=
  slice (ValueTypeBytes.CATEGORY_LENGTH + HASHED_PREFIX_LENGTH)
    (ValueTypeBytes.CATEGORY_LENGTH + HASHED_PREFIX_LENGTH + HASHED_HASH_LENGTH) id.
Definition get_hash_disambiguator (id : bytes) : outcome Z :=
  tail ← unwrap (id !! TAIL_INDEX); Val (Z.land tail (Z.lnot TAIL_IS_HASH_MASK)).

Section hashed.
Context {S I E : Type} `{ReadableSnapshot S I E}.
(** [keyspace_for_category] of strings. *)
Definition KEYSPACE : EncodingKeyspace := OptimisedPrefix17.
Definition build_or_find_hashed_id (type_id : Z) (string : bytes) (snapshot : S) (hasher : bytes → Z)
  : exec (SnapshotIteratorError E) (bytes + bytes) :=
  prefix ← lift (slice 0 HASHED_PREFIX_LENGTH string);
  let id_prefix := Category.to_bytes CatString ++ prefix in
  let attribute_bytes := Prefixes.prefix_id VertexAttribute :: TypeID.to_bytes type_id ++ id_prefix in
  disambiguated_hash ← Hashed.find_existing_or_next_disambiguated_hash (HASHED_HASH_LENGTH + 1) snapshot hasher
    KEYSPACE attribute_bytes string;
  match disambiguated_hash with
  | inl disambiguated_hash => Val (inl (Category.to_bytes CatString ++ prefix ++ disambiguated_hash))
  | inr disambiguated_hash => Val (inr (Category.to_bytes CatString ++ prefix ++ disambiguated_hash))
  end.
Definition build_hashed_id (type_id : Z) (string : bytes) (snapshot : S) (hasher : bytes → Z)
  : exec (SnapshotIteratorError E) bytes :=
  id ← build_or_find_hashed_id type_id string snapshot hasher;
  match id with inl id | inr id => Val id end.
Definition find_hashed_id (type_id : Z) (string : bytes) (snapshot : S) (hasher : bytes → Z)
  : exec (SnapshotIteratorError E) (option bytes) :=
  id ← build_or_find_hashed_id type_id string snapshot hasher;
  match id with inl id => Val (Some id) | inr _ => Val None end.
End hashed.
(** The part of the key that the value determines, and its length. *)
Definition write_deterministic_prefix (string : bytes) (hasher : bytes → Z) (bs : bytes) : outcome (nat * bytes) :=
  if is_inlineable string then
    s ← slice 0 LENGTH bs; id ← write_inline_id s string; Val (LENGTH, copy_at 0 id bs)
  else
    prefix ← slice 0 HASHED_PREFIX_LENGTH string;
    let bs := copy_at 0 (Category.to_bytes CatString) bs in
    let bs := copy_at ValueTypeBytes.CATEGORY_LENGTH prefix bs in
    let bs := copy_at (ValueTypeBytes.CATEGORY_LENGTH + HASHED_PREFIX_LENGTH)
                (Hashed.write_hash (HASHED_HASH_LENGTH + 1) hasher string) bs in
    Val ((ValueTypeBytes.CATEGORY_LENGTH + HASHED_PREFIX_LENGTH + HASHED_HASH_LENGTH)%nat, bs).
End StringID.

Module StructID.
Definition LENGTH : nat := (ValueTypeBytes.CATEGORY_LENGTH + EncLen.length Short)%nat.
Definition HASH_LENGTH : nat := (EncLen.length Short - 1)%nat.
Definition KEYSPACE : EncodingKeyspace := DefaultOptimisedPrefix11.
Section hashed.
Context {S I E : Type} `{ReadableSnapshot S I E}.
Definition existing_or_new (type_id : Z) (struct_bytes : bytes) (snapshot : S) (hasher : bytes → Z)
  : exec (SnapshotIteratorError E) (bytes + bytes) :=
  let attribute_prefix := Prefixes.prefix_id VertexAttribute :: TypeID.to_bytes type_id in
  Hashed.find_existing_or_next_disambiguated_hash (HASH_LENGTH + 1) snapshot hasher KEYSPACE
    (attribute_prefix ++ Category.to_bytes CatStruct) struct_bytes.
Definition build_hashed_id (type_id : Z) (struct_bytes : bytes) (snapshot : S) (hasher : bytes → Z)
  : exec (SnapshotIteratorError E) bytes :=
  hash ← existing_or_new type_id struct_bytes snapshot hasher;
  match hash with inl hash | inr hash => Val (Category.to_bytes CatStruct ++ hash) end.
Definition find_hashed_id (type_id : Z) (struct_bytes : bytes) (snapshot : S) (hasher : bytes → Z)
  : exec (SnapshotIteratorError E) (option bytes) :=
  hash ← existing_or_new type_id struct_bytes snapshot hasher;
  match hash with inl hash => Val (Some (Category.to_bytes CatStruct ++ hash)) | inr _ => Val None end.
End hashed.
(** The hash is written at the start of the slice, without the category. *)
Definition write_hashed_id_deterministic_prefix (struct_bytes : bytes) (hasher : bytes → Z) (bs : bytes)
  : nat * bytes := (HASH_LENGTH, copy_at 0 (Hashed.write_hash (HASH_LENGTH + 1) hasher struct_bytes) bs).
Definition get_hash_hash (id : bytes) : outcome bytes :=
  slice ValueTypeBytes.CATEGORY_LENGTH (ValueTypeBytes.CATEGORY_LENGTH + HASH_LENGTH) id.
End StructID.

(** ** Attribute vertices *)
Module AttrVertex.
Definition to_bytes (v : AttributeVertex) : bytes :=
  Prefixes.prefix_id VertexAttribute :: TypeID.to_bytes (av_type_id v) ++ AttrID.bytes_ref (av_attribute_id v).
Definition decode (bs : bytes) : outcome AttributeVertex :=
  type_id ← slice 1 (1 + TypeID.LENGTH) bs;
  attribute_id ← AttrID.new (drop (1 + TypeID.LENGTH) bs);
  Val (mk_AttributeVertex (TypeID.decode type_id) attribute_id).
Definition is_attribute_bytes (bs : bytes) : bool :=
  match bs with [] => false | b :: _ => b =? Prefixes.prefix_id VertexAttribute end.
Definition try_decode (bs : bytes) : outcome (option AttributeVertex) :=
  if is_attribute_bytes bs then v ← decode bs; Val (Some v) else Val None.
Definition is_category_short_encoding (c : ValueTypeCategory) : bool :=
  EncLen.is_short (AttrID.value_type_encoded_value_length c).
Definition is_short_encoding (v : AttributeVertex) : bool :=
  is_category_short_encoding (AttrID.value_type_category (av_attribute_id v)).
Definition keyspace_for_is_short (is_short : bool) : EncodingKeyspace :=
  if is_short then DefaultOptimisedPrefix11 else OptimisedPrefix17.
Definition keyspace_for_category (c : ValueTypeCategory) : EncodingKeyspace :=
  keyspace_for_is_short (is_category_short_encoding c).
Definition keyspace (v : AttributeVertex) : EncodingKeyspace := keyspace_for_is_short (is_short_encoding v).
Definition is_valid_keyspace (keyspace_id : Z) : bool :=
  (keyspace_id =? EncodingKeyspaces.id DefaultOptimisedPrefix11) ||
  (keyspace_id =? EncodingKeyspaces.id OptimisedPrefix17).
Definition is_attribute_vertex (keyspace_id : Z) (bs : bytes) : bool :=
  is_valid_keyspace keyspace_id && is_attribute_bytes bs.
Definition into_storage_key (v : AttributeVertex) : Z * bytes := (EncodingKeyspaces.id (keyspace v), to_bytes v).

Section values.
Context `{ChronoZoned}.
(** [AttributeID::build_inline]; structs are not implemented. *)
Definition build_inline (value : Value) : outcome AttributeID :=
  match value with
  | VBoolean v => id ← InlineID.build CatBoolean v; Val (IdBoolean id)
  | VInteger v => id ← InlineID.build CatInteger v; Val (IdInteger id)
  | VDouble v => id ← InlineID.build CatDouble v; Val (IdDouble id)
  | VDecimal v => id ← InlineID.build CatDecimal v; Val (IdDecimal id)
  | VDate v => id ← InlineID.build CatDate v; Val (IdDate id)
  | VDateTime v => id ← InlineID.build CatDateTime v; Val (IdDateTime id)
  | VDateTimeTZ v => id ← InlineID.build CatDateTimeTZ v; Val (IdDateTimeTZ id)
  | VDuration v => id ← InlineID.build CatDuration v; Val (IdDuration id)
  | VString s => id ← StringID.build_inline_id s; Val (IdString id)
  | VStruct _ _ => Panic
  end.
Definition is_inlineable (value : Value) : bool :=
  match value with
  | VString s => StringID.is_inlineable s
  | VStruct _ _ => false
  | _ => true
  end.
(** The deterministic part of an id: its length and whether it is all of it. *)
Definition write_deterministic_value_or_prefix (bs : bytes) (value : Value) (hasher : bytes → Z)
  : outcome (nat * bytes * bool) :=
  match value with
  | VBoolean v => r ← InlineID.write CatBoolean v bs; Val (r, true)
  | VInteger v => r ← InlineID.write CatInteger v bs; Val (r, true)
  | VDouble v => r ← InlineID.write CatDouble v bs; Val (r, true)
  | VDecimal v => r ← InlineID.write CatDecimal v bs; Val (r, true)
  | VDate v => r ← InlineID.write CatDate v bs; Val (r, true)
  | VDateTime v => r ← InlineID.write CatDateTime v bs; Val (r, true)
  | VDateTimeTZ v => r ← InlineID.write CatDateTimeTZ v bs; Val (r, true)
  | VDuration v => r ← InlineID.write CatDuration v bs; Val (r, true)
  | VString s => r ← StringID.write_deterministic_prefix s hasher bs; Val (r, false)
  | VStruct key fields =>
      b ← build_struct key fields;
      Val (StructID.write_hashed_id_deterministic_prefix b hasher bs, false)
  end.
Definition build_or_prefix_for_value (type_id : Z) (value : Value) (hasher : bytes → Z)
  : outcome (AttributeVertex + EncodingKeyspace * bytes) :=
  let bs := Prefixes.prefix_id VertexAttribute :: TypeID.to_bytes type_id in
  '(id_length, id, is_complete) ← write_deterministic_value_or_prefix (replicate AttrID.max_length 0) value hasher;
  let bs := bs ++ take id_length id in
  if (is_complete : bool) then v ← decode bs; Val (inl v)
  else Val (inr (keyspace_for_category (category value), bs)).
End values.
End AttrVertex.

(** ** Ids of fixed size *)
Lemma copy_at_whole (new old : bytes) : length new = length old → copy_at 0 new old = new.
Proof. intros Hl. rewrite <-(app_nil_r old), copy_at_start by done. apply app_nil_r. Qed.

Lemma inline_id_spec {T} category `{!InlineEncodable category T} (ok : T → Prop) `{!InlineEncodableLaws category T ok} v :
  ok v → ∃ b, encode_inline category v = Val b ∧ length b = EncLen.length (ENCODED_LENGTH_ID category T) ∧ is_bytes b ∧
    InlineID.build category v = Val (Category.to_bytes category ++ b) ∧
    InlineID.read category (Category.to_bytes category ++ b) = Val v.
Proof.
  intros Hv. destruct (inline_round_trip v Hv) as (b & Hb & Hlen & Hbs & Hr).
  exists b. split; [done|]. split; [done|]. split; [done|]. pose proof (length_category category) as Hc. split.
  - unfold InlineID.build, InlineID.write, InlineID.LENGTH, ValueTypeBytes.CATEGORY_LENGTH. rewrite Hb.
    cbn [mbind exec_bind]. rewrite length_replicate, Hlen.
    destruct (Nat.ltb_spec (1 + EncLen.length (ENCODED_LENGTH_ID category T))
                (1 + EncLen.length (ENCODED_LENGTH_ID category T))); [lia|].
    cbn [mbind exec_bind]. rewrite replicate_add, copy_at_start by (by rewrite Hc).
    f_equal. rewrite <-(app_nil_r (replicate (EncLen.length _) 0)).
    rewrite copy_at_app by (rewrite ?length_replicate; lia). by rewrite app_nil_r.
  - unfold InlineID.read, ValueTypeBytes.CATEGORY_LENGTH. rewrite drop_app_length' by (by rewrite Hc).
    by rewrite into_array_ok.
Qed.

(** ** Inline strings *)
Definition inline_id (s : bytes) : bytes :=
  Category.to_bytes CatString ++ s ++ replicate (16 - length s) 0 ++ [Z.of_nat (length s)].
Lemma build_inline_id_spec s : (length s ≤ 16)%nat → StringID.build_inline_id s = Val (inline_id s).
Proof.
  intros Hs. unfold StringID.build_inline_id, StringID.write_inline_id.
  destruct (Nat.ltb_spec (EncLen.length Long) (length s)) as [H|_]; [change (EncLen.length Long) with 17%nat in H; lia|].
  assert (Hr : replicate StringID.LENGTH 0 =
    replicate 1 0 ++ replicate (length s) 0 ++ replicate (16 - length s) 0 ++ [0]).
  { rewrite !app_assoc, <-!replicate_add. change [0] with (replicate 1 0). rewrite <-replicate_add.
    f_equal. change (StringID.LENGTH) with 18%nat. lia. }
  rewrite Hr, copy_at_start by done. change ValueTypeBytes.CATEGORY_LENGTH with 1%nat.
  rewrite copy_at_app by (rewrite ?length_replicate; done). rewrite u8_id by (unfold is_byte; lia).
  unfold StringID.set_tail_inline_length. change StringID.TAIL_IS_HASH_MASK with (2 ^ 7).
  rewrite land_pow2_small by lia. cbn [Z.eqb]. f_equal.
  change (StringID.TAIL_INDEX) with 17%nat. unfold inline_id. rewrite !app_assoc.
  rewrite insert_app_r_alt by (rewrite !length_app, length_replicate; change (length (Category.to_bytes CatString)) with 1%nat; lia). f_equal.
  rewrite !length_app, length_replicate. cbn [length Category.to_bytes].
  replace (17 - (1 + length s + (16 - length s)))%nat with 0%nat by lia. done.
Qed.
Lemma length_inline_id s : (length s ≤ 16)%nat → length (inline_id s) = 18%nat.
Proof. intros. unfold inline_id. rewrite !length_app, length_replicate. cbn. lia. Qed.
Lemma inline_id_tail s : (length s ≤ 16)%nat → inline_id s !! StringID.TAIL_INDEX = Some (Z.of_nat (length s)).
Proof.
  intros Hs. unfold inline_id. rewrite !app_assoc, lookup_app_r by (rewrite !length_app, length_replicate; cbn; lia).
  rewrite !length_app, length_replicate. cbn [length Category.to_bytes].
  replace (StringID.TAIL_INDEX - (1 + length s + (16 - length s)))%nat with 0%nat; [done|].
  change StringID.TAIL_INDEX with 17%nat. lia.
Qed.
Lemma inline_id_read s :
  (length s ≤ 16)%nat →
  StringID.is_inline (inline_id s) = Val true ∧ StringID.get_inline_id_value (inline_id s) = Val s.
Proof.
  intros Hs. split.
  - unfold StringID.is_inline. rewrite inline_id_tail by done. cbn [unwrap mbind exec_bind].
    change StringID.TAIL_IS_HASH_MASK with (2 ^ 7). by rewrite land_pow2_small by lia.
  - unfold StringID.get_inline_id_value, StringID.get_inline_length. rewrite inline_id_tail by done.
    cbn [unwrap mbind exec_bind]. rewrite Nat2Z.id.
    change StringID.INLINE_OR_PREFIXED_HASH_LENGTH with 16%nat.
    destruct (Nat.ltb_spec 16 (length s)); [lia|]. unfold inline_id.
    change ValueTypeBytes.CATEGORY_LENGTH with 1%nat. rewrite drop_app_length' by done.
    apply (slice_at [] s); [done|simpl; lia].
Qed.

(** Reading the inline string with [get_inline_string_bytes] returns the
    category byte and drops the last character. *)
Example get_inline_string_bytes_shifted :
  StringID.get_inline_string_bytes (inline_id [97; 98; 99]) = Val [8; 97; 98].
Proof. reflexivity. Qed.

(** ** Attribute vertices *)
Definition id_ok (id : AttributeID) : Prop :=
  ∃ rest, AttrID.bytes_ref id = Category.to_bytes (AttrID.value_type_category id) ++ rest ∧
    length rest = EncLen.length (AttrID.value_type_encoded_value_length (AttrID.value_type_category id)).
Lemma attr_id_new id : id_ok id → AttrID.new (AttrID.bytes_ref id) = Val id.
Proof.
  intros (rest & Hb & Hlen). rewrite Hb. pose proof (length_category (AttrID.value_type_category id)) as Hc.
  pose proof (category_round_trip (AttrID.value_type_category id)) as Hr.
  destruct (Category.to_bytes (AttrID.value_type_category id)) as [|c [|]] eqn:Ec; simpl in Hc; try lia.
  cbn [app AttrID.new]. rewrite Hr. cbn [mbind exec_bind]. rewrite into_array_ok.
  - cbn [mbind exec_bind]. cbn [app] in Hb. rewrite <-Hb. clear. by destruct id.
  - cbn [length]. rewrite Hlen. reflexivity.
Qed.
Lemma attribute_vertex_decodes v :
  is_u16 (av_type_id v) → id_ok (av_attribute_id v) → AttrVertex.decode (AttrVertex.to_bytes v) = Val v.
Proof.
  intros Ht Hid. destruct v as [t id]. unfold AttrVertex.decode, AttrVertex.to_bytes. cbn [av_type_id av_attribute_id].
  assert (Hl : length (TypeID.to_bytes t) = 2%nat) by apply length_be_bytes.
  change (Prefixes.prefix_id VertexAttribute :: TypeID.to_bytes t ++ AttrID.bytes_ref id)
    with ([Prefixes.prefix_id VertexAttribute] ++ TypeID.to_bytes t ++ AttrID.bytes_ref id).
  rewrite slice_at by (done || by rewrite Hl). cbn [mbind exec_bind].
  rewrite app_assoc, drop_app_length' by (rewrite length_app, Hl; done).
  rewrite attr_id_new by done. cbn [mbind exec_bind]. unfold TypeID.decode, TypeID.to_bytes.
  rewrite be_bytes_value by (unfold is_u16 in Ht; change (256 ^ Z.of_nat TypeID.LENGTH) with (2 ^ 16); simpl in *; lia).
  done.
Qed.

(** ** Telling values of the same hash apart *)
(** The keys of one hash, as the snapshot yields them: their tails and values. *)
Definition hash_items {E} (ks : Z) (key_without_tail : bytes) (out : list (Z * bytes)) : list (snapshot_item E) :=
  (λ tv, inl ((ks, key_without_tail ++ [tv.1]), tv.2)) <$> out.

(** The tail the loop has noted when the value is not found. *)
Fixpoint last_mismatch (next_tail : Z) (noted : option Z) (tails : list Z) : option Z :=
  match tails with
  | [] => noted
  | t :: tails => last_mismatch (next_tail + 1) (if negb (next_tail =? t) then Some next_tail else noted) tails
  end.

Section disambiguation.
Context {S I E : Type} `{ReadableSnapshot S I E}.

Lemma loop_step fuel key v (it it' : I) next noted t x ks :
  li_next it = Val (Some (inl ((ks, key ++ [t]), x)), it') → x ≠ v → next < 255 →
  Hashed.disambiguate_loop (Datatypes.S fuel) (length key) v it next noted =
  Hashed.disambiguate_loop fuel (length key) v it' (next + 1) (if negb (next =? t) then Some next else noted).
Proof.
  intros Hn Hx Hlt. cbn [Hashed.disambiguate_loop]. rewrite Hn. cbn [lift mbind exec_bind snd].
  rewrite list_lookup_middle by done. cbn [unwrap mbind exec_bind].
  rewrite bool_decide_eq_false_2 by done. by rewrite (proj2 (Z.eqb_neq next 255)) by lia.
Qed.
Lemma loop_found fuel key v (it : I) next noted ks before t after :
  yields it (hash_items ks key (before ++ (t, v) :: after)) → Forall (λ tv, tv.2 ≠ v) before →
  next + Z.of_nat (length before) ≤ 255 → (length before < fuel)%nat →
  Hashed.disambiguate_loop fuel (length key) v it next noted = Val (inl t).
Proof.
  revert fuel it next noted. induction before as [|[t0 x] before IH]; intros fuel it next noted Hy Hb Hn Hf;
    (destruct fuel as [|fuel]; [simpl in Hf; lia|]); apply yields_next in Hy as (it' & Hnx & Hy).
  - cbn in Hnx. cbn [Hashed.disambiguate_loop]. rewrite Hnx. cbn [lift mbind exec_bind snd].
    rewrite list_lookup_middle by done. cbn [unwrap mbind exec_bind]. by rewrite bool_decide_eq_true_2.
  - rewrite Forall_cons in Hb. destruct Hb as [Hx Hb]. cbn in Hnx. simpl in Hn, Hf.
    rewrite (loop_step _ _ _ _ _ _ _ _ _ _ Hnx Hx) by lia. apply IH; [done|done|lia|lia].
Qed.
Lemma loop_new fuel key v (it : I) next noted ks out :
  yields it (hash_items ks key out) → Forall (λ tv, tv.2 ≠ v) out →
  next + Z.of_nat (length out) ≤ 255 → (length out < fuel)%nat →
  Hashed.disambiguate_loop fuel (length key) v it next noted =
  Val (inr (default (next + Z.of_nat (length out)) (last_mismatch next noted out.*1))).
Proof.
  revert fuel it next noted. induction out as [|[t0 x] out IH]; intros fuel it next noted Hy Hb Hn Hf;
    (destruct fuel as [|fuel]; [simpl in Hf; lia|]); apply yields_next in Hy as (it' & Hnx & Hy).
  - cbn in Hnx. cbn [Hashed.disambiguate_loop]. rewrite Hnx. cbn. by rewrite Z.add_0_r.
  - rewrite Forall_cons in Hb. destruct Hb as [Hx Hb]. cbn in Hnx. simpl in Hn, Hf.
    rewrite (loop_step _ _ _ _ _ _ _ _ _ _ Hnx Hx) by lia. rewrite IH by (done || lia).
    cbn [last_mismatch fmap list_fmap fst]. do 3 f_equal. simpl. lia.
Qed.
End disambiguation.

(** Tails in use without a hole: 128, 129, ..., after at most one key of an
    inline string whose 16 bytes are the prefix and the hash. *)
Inductive tails_ok : list Z → Z → Prop :=
| tails_hashed n : tails_ok (seqZ 128 (Z.of_nat n)) (128 + Z.of_nat n)
| tails_inline a n : 0 ≤ a < 128 → tails_ok (a :: seqZ 128 (Z.of_nat n)) (128 + Z.of_nat n).

Lemma last_mismatch_seq k n noted : last_mismatch k noted (seqZ k (Z.of_nat n)) = noted.
Proof.
  revert k. induction n as [|n IH]; intros k; [done|].
  rewrite seqZ_cons by lia. cbn [last_mismatch]. rewrite Z.eqb_refl. simpl.
  replace (Z.pred (Z.of_nat (S n))) with (Z.of_nat n) by lia. apply IH.
Qed.
Lemma last_mismatch_shifted k n noted :
  last_mismatch (k + 1) noted (seqZ k (Z.of_nat n)) = if (n =? 0)%nat then noted else Some (k + Z.of_nat n).
Proof.
  revert k noted. induction n as [|n IH]; intros k noted; [done|].
  rewrite seqZ_cons by lia. cbn [last_mismatch]. rewrite (proj2 (Z.eqb_neq _ _)) by lia. cbn [negb].
  replace (Z.pred (Z.of_nat (S n))) with (Z.of_nat n) by lia.
  change (Z.succ k) with (k + 1). rewrite (IH (k + 1)). destruct n as [|n]; cbn [Nat.eqb]; f_equal; lia.
Qed.
Lemma tails_ok_next ts next :
  tails_ok ts next → default (128 + Z.of_nat (length ts)) (last_mismatch 128 None ts) = next.
Proof.
  destruct 1 as [n|a n Ha].
  - rewrite last_mismatch_seq. simpl. rewrite length_seqZ. lia.
  - cbn [last_mismatch]. rewrite (proj2 (Z.eqb_neq _ _)) by lia. cbn [negb].
    rewrite (last_mismatch_shifted 128). destruct n; cbn; lia.
Qed.
Lemma tails_ok_fresh ts next : tails_ok ts next → (next ∉ ts) ∧ tails_ok (ts ++ [next]) (next + 1).
Proof.
  assert (Hsnoc : ∀ n, seqZ 128 (Z.of_nat n) ++ [128 + Z.of_nat n] = seqZ 128 (Z.of_nat (S n))).
  { intros n. rewrite Nat2Z.inj_succ, <-Z.add_1_r, seqZ_app by lia. done. }
  destruct 1 as [n|a n Ha]; (split; [rewrite ?elem_of_cons, elem_of_seqZ; lia|]).
  - rewrite Hsnoc. replace (128 + Z.of_nat n + 1) with (128 + Z.of_nat (S n)) by lia. constructor.
  - cbn [app]. rewrite Hsnoc. replace (128 + Z.of_nat n + 1) with (128 + Z.of_nat (S n)) by lia. by constructor.
Qed.

Lemma tails_ok_next_range ts next : tails_ok ts next → 128 ≤ next ≤ 128 + Z.of_nat (length ts).
Proof. destruct 1 as [n|a n Ha]; cbn [length]; rewrite length_seqZ; lia. Qed.
Lemma tails_ok_range ts next : tails_ok ts next → ∀ t, t ∈ ts → 0 ≤ t < 128 + Z.of_nat (length ts).
Proof.
  destruct 1 as [n|a n Ha]; intros t Ht; cbn [length]; rewrite length_seqZ.
  - rewrite elem_of_seqZ in Ht. lia.
  - rewrite elem_of_cons, elem_of_seqZ in Ht. lia.
Qed.
Lemma tails_ok_NoDup ts next : tails_ok ts next → NoDup ts.
Proof.
  destruct 1 as [n|a n Ha]; [apply NoDup_seqZ|]. constructor; [rewrite elem_of_seqZ; lia|apply NoDup_seqZ].
Qed.
Lemma NoDup_fst_inj {A B} (l : list (A * B)) a b b' : NoDup l.*1 → (a, b) ∈ l → (a, b') ∈ l → b = b'.
Proof.
  intros Hnd (i & Hi)%list_elem_of_lookup (j & Hj)%list_elem_of_lookup.
  assert (i = j) as ->; [|congruence].
  apply (NoDup_lookup l.*1 i j a); [done|by rewrite list_lookup_fmap, Hi|by rewrite list_lookup_fmap, Hj].
Qed.

Section told_apart.
Context {S I E : Type} `{ReadableSnapshot S I E}.
Variables (snapshot : S) (keyspace : EncodingKeyspace) (key v : bytes) (it : I) (out : list (Z * bytes)) (next : Z).
Hypothesis Hr : rs_iterate_range (EncodingKeyspaces.id keyspace) (new_within key true) snapshot = Val it.
Hypothesis Hy : yields it (hash_items (EncodingKeyspaces.id keyspace) key out).
Hypothesis Ht : tails_ok out.*1 next.
Hypothesis Hnd : NoDup out.*2.
Hypothesis Hlen : (length out ≤ 127)%nat.

Lemma disambiguate_found t : (t, v) ∈ out → Hashed.disambiguate snapshot keyspace key v = Val (inl t).
Proof.
  unfold Hashed.disambiguate. rewrite Hr. cbn [lift mbind exec_bind].
  unfold Hashed.HASH_DISAMBIGUATOR_BYTE_IS_HASH_FLAG.
  intros (before & after & Hout)%list_elem_of_split. rewrite Hout in Hy, Hnd, Hlen.
  apply (loop_found 129 key v it 128 None _ before t after Hy).
  - rewrite fmap_app in Hnd. apply NoDup_app in Hnd as (_ & Hdis & _). rewrite Forall_forall. intros [t' x] Hb <-.
    apply (Hdis x); [by apply (list_elem_of_fmap_2 snd _ (t', x))|]. left.
  - rewrite length_app in Hlen. simpl in Hlen. lia.
  - rewrite length_app in Hlen. simpl in Hlen. lia.
Qed.
Lemma disambiguate_new : v ∉ out.*2 → Hashed.disambiguate snapshot keyspace key v = Val (inr next).
Proof.
  intros Hv. unfold Hashed.disambiguate. rewrite Hr. cbn [lift mbind exec_bind].
  unfold Hashed.HASH_DISAMBIGUATOR_BYTE_IS_HASH_FLAG.
  rewrite (loop_new 129 key v it 128 None _ out Hy); [|rewrite Forall_forall; intros [t x] Hin <-;
    apply Hv; by apply (list_elem_of_fmap_2 snd _ (t, x))|lia|lia].
  rewrite <-(tails_ok_next _ _ Ht). by rewrite length_fmap.
Qed.
End told_apart.

(** Hashed values are told apart.  Over any snapshot, where the keys of one
    hash carry the tails 128, 129, ... without a hole (after at most one inline
    string with the same bytes) and hold distinct values: a value that is stored
    is found under its own tail, a value that is not stored gets the next tail,
    which no key uses, and storing it there leaves the tails without a hole.
    The loop never panics below its limit of 127 keys. *)
Lemma hashed_values_told_apart {S I E} `{ReadableSnapshot S I E} (snapshot : S) keyspace key v it out next :
  rs_iterate_range (EncodingKeyspaces.id keyspace) (new_within key true) snapshot = Val it →
  yields it (hash_items (EncodingKeyspaces.id keyspace) key out) →
  tails_ok out.*1 next → NoDup out.*2 → (length out ≤ 127)%nat →
  (∀ t, (t, v) ∈ out → Hashed.disambiguate snapshot keyspace key v = Val (inl t)) ∧
  (v ∉ out.*2 →
     Hashed.disambiguate snapshot keyspace key v = Val (inr next) ∧ (next ∉ out.*1) ∧
     tails_ok (out ++ [(next, v)]).*1 (next + 1)).
Proof.
  intros Hr Hy Ht Hnd Hlen. split; [by apply disambiguate_found with it|].
  intros Hv. split; [by apply disambiguate_new with it out|].
  destruct (tails_ok_fresh _ _ Ht) as [Hf Ho]. split; [done|]. by rewrite fmap_app.
Qed.

(** A snapshot that holds one run of keys. *)
#[local] Instance run_snapshot : ReadableSnapshot (list (snapshot_item Empty_set)) (list (snapshot_item Empty_set)) Empty_set := {|
  rs_iterate_range := λ _ _ l, Val l;
  rs_next := list_next |}.
Lemma hashed_values_told_apart_witness :
  let out := [(16, [1]); (128, [2]); (129, [3])] in
  let snapshot := hash_items 3 [5; 6] out : list (snapshot_item Empty_set) in
  Hashed.disambiguate snapshot OptimisedPrefix17 [5; 6] [3] = Val (inl 129) ∧
  Hashed.disambiguate snapshot OptimisedPrefix17 [5; 6] [9] = Val (inr 130).
Proof.
  intros out snapshot.
  destruct (hashed_values_told_apart snapshot OptimisedPrefix17 [5; 6] [3] snapshot out 130) as [Hin _].
  - reflexivity.
  - apply list_yields.
  - apply (tails_inline 16 2). lia.
  - by apply (bool_decide_unpack _).
  - simpl. lia.
  - split; [apply Hin; do 2 right; left|].
    destruct (hashed_values_told_apart snapshot OptimisedPrefix17 [5; 6] [9] snapshot out 130) as [_ Hnew].
    + reflexivity.
    + apply list_yields.
    + apply (tails_inline 16 2). lia.
    + by apply (bool_decide_unpack _).
    + simpl. lia.
    + apply Hnew. by apply (bool_decide_unpack _).
Defined.

(** A hole in the tails makes a new value take a tail that is in use.  When
    the keys of one hash carry the tails 128, 130, 131 (129 was deleted) and the
    value is none of theirs, the loop overwrites the tail it noted at the hole
    and returns 130, the tail of another value, as new. *)
Lemma hole_reuses_tail_in_use {S I E} `{ReadableSnapshot S I E} (snapshot : S) keyspace key v it a b c :
  rs_iterate_range (EncodingKeyspaces.id keyspace) (new_within key true) snapshot = Val it →
  yields it (hash_items (EncodingKeyspaces.id keyspace) key [(128, a); (130, b); (131, c)]) →
  v ≠ a → v ≠ b → v ≠ c →
  Hashed.disambiguate snapshot keyspace key v = Val (inr 130).
Proof.
  intros Hr Hy Ha Hb Hc. unfold Hashed.disambiguate. rewrite Hr. cbn [lift mbind exec_bind].
  rewrite (loop_new 129 key v it _ None _ _ Hy); [done| |simpl; unfold Hashed.HASH_DISAMBIGUATOR_BYTE_IS_HASH_FLAG; lia|simpl; lia].
  repeat constructor; done.
Qed.
Lemma hole_reuses_tail_in_use_witness :
  Hashed.disambiguate (hash_items 3 [5; 6] [(128, [1]); (130, [2]); (131, [3])] : list (snapshot_item Empty_set))
    OptimisedPrefix17 [5; 6] [9] = Val (inr 130).
Proof.
  eapply (hole_reuses_tail_in_use _ OptimisedPrefix17 [5; 6] [9] _ [1] [2] [3]);
    [reflexivity|apply list_yields|done..].
Defined.
