(* ===== verification/Things.v ===== *)
(** * Vertices and their generator: [encoding/graph/type_/vertex.rs],
    [encoding/graph/thing/vertex_object.rs],
    [encoding/graph/thing/vertex_generator.rs] and the reading of attributes in
    [concept/thing/thing_manager.rs]

    Objects get their ids from counters, one per type; loading a database sets
    each counter above the ids in the storage.  Attributes get the keys of
    [Attributes]; creating a hashed one takes an exclusive lock on its hash. *)
From stdpp Require Import strings gmap.
From S2P Require Import Prelude BTree Bytes MemoryStore Buffer LendingIter Mvcc Keyspaces Snapshot Dependency Timeline Isolation Storage Decimal Duration Layout TimeZones Values Structs Attributes.
Import KeyRangeOps.

(** ** Type vertices *)
Module TypeVertex.
Definition LENGTH : nat := (1 + TypeID.LENGTH)%nat.
Definition new (prefix type_id : Z) : Z := Z.shiftl prefix 16 + type_id.
Definition decode (bs : bytes) : outcome Z :=
  if (length bs =? LENGTH)%nat then Val (be_value (0 :: bs)) else Panic.
Definition to_bytes (v : Z) : bytes := drop 1 (be_bytes 4 v).
Definition type_id_ (v : Z) : Z := Z.land v 65535.
Definition prefix (v : Z) : outcome Prefix := b ← unwrap (head (to_bytes v)); Prefixes.from_prefix_id b.
Definition build_type_vertex_prefix_key (p : Prefix) : EncodingKeyspace * bytes :=
  (DefaultOptimisedPrefix11, [Prefixes.prefix_id p]).
End TypeVertex.

(** ** Object vertices *)
Record ObjectVertex := mk_ObjectVertex { ov_prefix : Prefix; ov_type_id : Z; ov_object_id : Z }.
#[global] Instance ObjectVertex_eq_dec : EqDecision ObjectVertex.
Proof. solve_decision. Defined.

Module ObjVertex.
Definition KEYSPACE : EncodingKeyspace := DefaultOptimisedPrefix11.
Definition LENGTH : nat := (1 + TypeID.LENGTH + 8)%nat.
Definition build_entity (type_id object_id : Z) : ObjectVertex := mk_ObjectVertex VertexEntity type_id object_id.
Definition build_relation (type_id object_id : Z) : ObjectVertex := mk_ObjectVertex VertexRelation type_id object_id.
Definition is_vertex_of (p : Prefix) (keyspace_id : Z) (bs : bytes) : bool :=
  (keyspace_id =? EncodingKeyspaces.id KEYSPACE) && (length bs =? LENGTH)%nat &&
  match bs with b :: _ => b =? Prefixes.prefix_id p | [] => false end.
Definition is_entity_vertex : Z → bytes → bool := is_vertex_of VertexEntity.
Definition is_relation_vertex : Z → bytes → bool := is_vertex_of VertexRelation.
Definition prefix_for_type (p : Prefix) : outcome Prefix :=
  match p with
  | VertexEntityType => Val VertexEntity
  | VertexRelationType => Val VertexRelation
  | _ => Panic
  end.
Definition to_bytes (v : ObjectVertex) : bytes :=
  Prefixes.prefix_id (ov_prefix v) :: TypeID.to_bytes (ov_type_id v) ++ be_bytes 8 (ov_object_id v).
Definition decode (bs : bytes) : outcome ObjectVertex :=
  b ← unwrap (bs !! 0%nat);
  p ← Prefixes.from_prefix_id b;
  type_id ← slice 1 (1 + TypeID.LENGTH) bs;
  object_id ← slice (1 + TypeID.LENGTH) LENGTH bs;
  Val (mk_ObjectVertex p (TypeID.decode type_id) (be_value object_id)).
Definition try_decode (bs : bytes) : outcome (option ObjectVertex) :=
  if (length bs =? LENGTH)%nat then
    b ← unwrap (bs !! 0%nat);
    if negb (b =? Prefixes.prefix_id VertexEntity) && negb (b =? Prefixes.prefix_id VertexRelation) then Val None
    else v ← decode bs; Val (Some v)
  else Val None.
Definition into_storage_key (v : ObjectVertex) : Z * bytes := (EncodingKeyspaces.id KEYSPACE, to_bytes v).
End ObjVertex.

(** ** The generator *)
(** An array of counters, one per type id, all 0 at first. *)
Abbreviation counters := (gmap Z Z).
Definition counter (type_id : Z) (ids : counters) : Z := default 0 (ids !! type_id).

Record ThingVertexGenerator := mk_ThingVertexGenerator {
  vg_entity_ids : counters;
  vg_relation_ids : counters;
  vg_large_value_hasher : bytes → Z;
}.

(** Scans of a write snapshot, for the hashed ids. *)
#[global] Instance write_snapshot (fuel : nat)
  : ReadableSnapshot WriteSnapshot (SnapshotRangeIterator Snap.source) KeyspaceError := {|
  rs_iterate_range := Snap.iterate_range;
  rs_next := SnapIter.next (H:=mvcc_source fuel) fuel |}.

Inductive LoadError := LoadWaits (w : spin) | ExistingTypesRead (source : SnapshotIteratorError KeyspaceError).

Module Generator.
Definition new_with_hasher (hasher : bytes → Z) : ThingVertexGenerator := mk_ThingVertexGenerator ∅ ∅ hasher.
Definition reset (g : ThingVertexGenerator) : ThingVertexGenerator :=
  mk_ThingVertexGenerator ∅ ∅ (vg_large_value_hasher g).

(** [fetch_add(1)] wraps. *)
Definition create_entity (type_id : Z) (s : WriteSnapshot) (g : ThingVertexGenerator)
  : outcome (ObjectVertex * WriteSnapshot * ThingVertexGenerator) :=
  let entity_id := counter type_id (vg_entity_ids g) in
  let g := mk_ThingVertexGenerator (<[type_id := u64 (entity_id + 1)]> (vg_entity_ids g)) (vg_relation_ids g)
             (vg_large_value_hasher g) in
  let vertex := ObjVertex.build_entity type_id entity_id in
  s ← Snap.insert_val (ObjVertex.into_storage_key vertex) [] s;
  Val (vertex, s, g).
Definition create_relation (type_id : Z) (s : WriteSnapshot) (g : ThingVertexGenerator)
  : outcome (ObjectVertex * WriteSnapshot * ThingVertexGenerator) :=
  let relation_id := counter type_id (vg_relation_ids g) in
  let g := mk_ThingVertexGenerator (vg_entity_ids g) (<[type_id := u64 (relation_id + 1)]> (vg_relation_ids g))
             (vg_large_value_hasher g) in
  let vertex := ObjVertex.build_relation type_id relation_id in
  s ← Snap.insert_val (ObjVertex.into_storage_key vertex) [] s;
  Val (vertex, s, g).

(** *** Loading *)
Section load.
Context {D : Type}.
(** [ReadSnapshot::iterate_range] and [collect_cloned_vec]. *)
Definition read_iterate_range (keyspace_id : Z) (range : KeyRange bytes) (s : ReadSnapshot)
  : outcome (SnapshotRangeIterator Snap.source) :=
  ks ← Snap.keyspace keyspace_id (rs_storage s);
  it ← MVCCStorage.iterate_range keyspace_id ks range (rs_open_sequence_number s);
  Val (SnapIter.new it None).
Fixpoint collect_types (n fuel : nat) (it : SnapshotRangeIterator Snap.source)
  : exec (SnapshotIteratorError KeyspaceError) (list Z) :=
  match n with
  | O => Panic
  | S n =>
      '(x, it) ← lift (SnapIter.next (H:=mvcc_source fuel) fuel it);
      match x with
      | None => Val []
      | Some (inr e) => Err e
      | Some (inl (key, _)) =>
          v ← lift (TypeVertex.decode key.2);
          l ← collect_types n fuel it;
          Val (TypeVertex.type_id_ v :: l)
      end
  end.
Definition types_of (fuel : nat) (p : Prefix) (s : ReadSnapshot)
  : exec (SnapshotIteratorError KeyspaceError) (list Z) :=
  let '(ks, key) := TypeVertex.build_type_vertex_prefix_key p in
  it ← lift (read_iterate_range (EncodingKeyspaces.id ks) (new_within key (Prefixes.fixed_width_keys p)) s);
  collect_types fuel fuel it.

(** The counter of one type: the key before the end of its objects. *)
Definition load_type (p : Prefix) (st : Storage D) (ids : counters) (type_id : Z) : outcome counters :=
  max_object_id ← increment_unwrap (ObjVertex.to_bytes (mk_ObjectVertex p type_id u64_max));
  prev_bytes ← Engine.get_prev_raw (EncodingKeyspaces.id ObjVertex.KEYSPACE, max_object_id) (λ key _, MVCCKey.key key) st;
  match prev_bytes with
  | Some key =>
      prev_bytes ← key;
      if ObjVertex.is_vertex_of p (EncodingKeyspaces.id ObjVertex.KEYSPACE) prev_bytes then
        object_vertex ← ObjVertex.decode prev_bytes;
        if ov_type_id object_vertex =? type_id then Val (<[type_id := u64 (ov_object_id object_vertex + 1)]> ids)
        else Val ids
      else Val ids
  | None => Val ids
  end.
Fixpoint load_types (p : Prefix) (st : Storage D) (types : list Z) (ids : counters) : outcome counters :=
  match types with
  | [] => Val ids
  | type_id :: types => ids ← load_type p st ids type_id; load_types p st types ids
  end.
(** [fuel] bounds the versions of the scanned keyspace. *)
Definition load_with_hasher (fuel : nat) (st : Storage D) (hasher : bytes → Z) : exec LoadError ThingVertexGenerator :=
  read_snapshot ← map_err LoadWaits (Engine.open_snapshot_read st);
  entity_types ← map_err ExistingTypesRead (types_of fuel VertexEntityType read_snapshot);
  relation_types ← map_err ExistingTypesRead (types_of fuel VertexRelationType read_snapshot);
  entity_ids ← lift (load_types VertexEntity st entity_types ∅);
  relation_ids ← lift (load_types VertexRelation st relation_types ∅);
  Val (mk_ThingVertexGenerator entity_ids relation_ids hasher).
End load.

(** *** Attributes *)
Definition put (key : Z * bytes) (s : WriteSnapshot) : outcome WriteSnapshot := Snap.put_val key [] s.
Definition exclusive_lock_add (key : bytes) (s : WriteSnapshot) : WriteSnapshot :=
  Snap.with_operations (OB.lock_add key Exclusive (ws_operations s)) s.
(** [snapshot.put(vertex.into_storage_key())] of a vertex with an inline id. *)
Definition put_vertex (type_id : Z) (id : AttributeID) (s : WriteSnapshot) : outcome (AttributeVertex * WriteSnapshot) :=
  let vertex := mk_AttributeVertex type_id id in
  s ← put (AttrVertex.into_storage_key vertex) s;
  Val (vertex, s).

Section attributes.
Context `{ChronoZoned}.
Definition create_attribute_boolean (type_id : Z) (value : bool) (s : WriteSnapshot) :=
  id ← InlineID.build CatBoolean value; put_vertex type_id (IdBoolean id) s.
Definition create_attribute_integer (type_id : Z) (value : Z) (s : WriteSnapshot) :=
  id ← InlineID.build CatInteger value; put_vertex type_id (IdInteger id) s.
Definition create_attribute_double (type_id : Z) (value : Z) (s : WriteSnapshot) :=
  id ← InlineID.build CatDouble value; put_vertex type_id (IdDouble id) s.
Definition create_attribute_decimal (type_id : Z) (value : Decimal) (s : WriteSnapshot) :=
  id ← InlineID.build CatDecimal value; put_vertex type_id (IdDecimal id) s.
Definition create_attribute_date (type_id : Z) (value : NaiveDate) (s : WriteSnapshot) :=
  id ← InlineID.build CatDate value; put_vertex type_id (IdDate id) s.
Definition create_attribute_date_time (type_id : Z) (value : NaiveDateTime) (s : WriteSnapshot) :=
  id ← InlineID.build CatDateTime value; put_vertex type_id (IdDateTime id) s.
Definition create_attribute_date_time_tz (type_id : Z) (value : DateTimeTZ) (s : WriteSnapshot) :=
  id ← InlineID.build CatDateTimeTZ value; put_vertex type_id (IdDateTimeTZ id) s.
Definition create_attribute_duration (type_id : Z) (value : Duration) (s : WriteSnapshot) :=
  id ← InlineID.build CatDuration value; put_vertex type_id (IdDuration id) s.
End attributes.

(** The lock key of a hash: prefix, type and hash. *)
Definition hash_lock (type_id : Z) (hash : bytes) : bytes :=
  Prefixes.prefix_id VertexAttribute :: TypeID.to_bytes type_id ++ hash.
Definition create_attribute_id_string (fuel : nat) (type_id : Z) (string : bytes) (s : WriteSnapshot)
    (g : ThingVertexGenerator) : exec (SnapshotIteratorError KeyspaceError) (bytes * WriteSnapshot) :=
  if StringID.is_inlineable string then id ← lift (StringID.build_inline_id string); Val (id, s)
  else
    id ← StringID.build_hashed_id (H:=write_snapshot fuel) type_id string s (vg_large_value_hasher g);
    hash ← lift (StringID.get_hash_hash id);
    Val (id, exclusive_lock_add (hash_lock type_id hash) s).
Definition create_attribute_string (fuel : nat) (type_id : Z) (value : bytes) (s : WriteSnapshot)
    (g : ThingVertexGenerator) : exec (SnapshotIteratorError KeyspaceError) (AttributeVertex * WriteSnapshot) :=
  '(id, s) ← create_attribute_id_string fuel type_id value s g;
  let vertex := mk_AttributeVertex type_id (IdString id) in
  s ← lift (Snap.put_val (AttrVertex.into_storage_key vertex) value s);
  Val (vertex, s).
Definition find_attribute_id_string_noinline (fuel : nat) (type_id : Z) (string : bytes) (s : WriteSnapshot)
    (g : ThingVertexGenerator) : exec (SnapshotIteratorError KeyspaceError) (option bytes) :=
  if StringID.is_inlineable string then Panic
  else StringID.find_hashed_id (H:=write_snapshot fuel) type_id string s (vg_large_value_hasher g).
Definition create_attribute_id_struct (fuel : nat) (type_id : Z) (struct_bytes : bytes) (s : WriteSnapshot)
    (g : ThingVertexGenerator) : exec (SnapshotIteratorError KeyspaceError) (bytes * WriteSnapshot) :=
  id ← StructID.build_hashed_id (H:=write_snapshot fuel) type_id struct_bytes s (vg_large_value_hasher g);
  hash ← lift (StructID.get_hash_hash id);
  Val (id, exclusive_lock_add (hash_lock type_id hash) s).
Definition create_attribute_struct (fuel : nat) (type_id : Z) (value : bytes) (s : WriteSnapshot)
    (g : ThingVertexGenerator) : exec (SnapshotIteratorError KeyspaceError) (AttributeVertex * WriteSnapshot) :=
  '(id, s) ← create_attribute_id_struct fuel type_id value s g;
  let vertex := mk_AttributeVertex type_id (IdStruct id) in
  s ← lift (Snap.put_val (AttrVertex.into_storage_key vertex) value s);
  Val (vertex, s).
Definition find_attribute_id_struct (fuel : nat) (type_id : Z) (struct_bytes : bytes) (s : WriteSnapshot)
    (g : ThingVertexGenerator) : exec (SnapshotIteratorError KeyspaceError) (option bytes) :=
  StructID.find_hashed_id (H:=write_snapshot fuel) type_id struct_bytes s (vg_large_value_hasher g).
End Generator.

(** ** Reading an attribute: [ThingManager::get_attribute_value] *)
Inductive ConceptReadError :=
| SnapshotGet (source : SnapshotGetError)
| SnapshotIterate (source : SnapshotIteratorError KeyspaceError)
| InternalMissingAttributeValue
| Encoding
| OrderingValueMissing
| InternalMissingTypeLabel
| InternalMissingRootRelatesForRole
| InternalMissingScopeForRoleTypeLabel.

Section get_value.
Context `{ChronoZoned}.
Definition stored_value (vertex : AttributeVertex) (s : WriteSnapshot) : exec ConceptReadError bytes :=
  v ← map_err SnapshotGet (Snap.get (AttrVertex.into_storage_key vertex) s);
  ok_or v InternalMissingAttributeValue.
Definition get_attribute_value (vertex : AttributeVertex) (s : WriteSnapshot) : exec ConceptReadError Value :=
  match av_attribute_id vertex with
  | IdBoolean id => v ← lift (InlineID.read CatBoolean id); Val (VBoolean v)
  | IdInteger id => v ← lift (InlineID.read CatInteger id); Val (VInteger v)
  | IdDouble id => v ← lift (InlineID.read CatDouble id); Val (VDouble v)
  | IdDecimal id => v ← lift (InlineID.read CatDecimal id); Val (VDecimal v)
  | IdDate id => v ← lift (InlineID.read CatDate id); Val (VDate v)
  | IdDateTime id => v ← lift (InlineID.read CatDateTime id); Val (VDateTime v)
  | IdDateTimeTZ id => v ← lift (InlineID.read CatDateTimeTZ id); Val (VDateTimeTZ v)
  | IdDuration id => v ← lift (InlineID.read CatDuration id); Val (VDuration v)
  | IdString id =>
      inline ← lift (StringID.is_inline id);
      string ← (if (inline : bool) then b ← lift (StringID.get_inline_id_value id); lift (as_str b)
                else b ← stored_value vertex s; lift (as_str b));
      Val (VString string)
  | IdStruct _ =>
      b ← stored_value vertex s;
      '(key, fields) ← lift (as_struct b);
      Val (VStruct key fields)
  end.
End get_value.

(** ** Writing and reading an attribute *)
Lemma keyspace_id_bounds k : 0 ≤ EncodingKeyspaces.id k ∧ (Z.to_nat (EncodingKeyspaces.id k) < 5)%nat.
Proof. destruct k; simpl; lia. Qed.
Lemma put_val_ok k key value s :
  ob_wf (ws_operations s) → ∃ s', Snap.put_val (EncodingKeyspaces.id k, key) value s = Val s' ∧
    ob_wf (ws_operations s') ∧ ob_locks (ws_operations s') = ob_locks (ws_operations s) ∧
    (∀ key', 0 ≤ key'.1 → Snap.get key' s' =
       if bool_decide (key' = (EncodingKeyspaces.id k, key)) then Val (Some value) else Snap.get key' s).
Proof.
  intros Hwf. pose proof Hwf as (Hlen & _ & _). destruct (keyspace_id_bounds k) as [Hk0 Hk].
  destruct (lookup_lt_is_Some_2 (ob_write_buffers (ws_operations s)) (Z.to_nat (EncodingKeyspaces.id k))) as [b Hb].
  { rewrite Hlen. unfold KEYSPACE_MAXIMUM_COUNT. lia. }
  destruct (Snap.put_val (EncodingKeyspaces.id k, key) value s) as [s'| |] eqn:Hp.
  2,3: unfold Snap.put_val, Snap.modify, OB.writes_in_mut, OB.writes_in in Hp; cbn [fst] in Hp; by rewrite Hb in Hp.
  exists s'. split; [done|]. pose proof Hp as Hm. unfold Snap.put_val, Snap.modify in Hp. cbn [fst snd] in Hp.
  destruct (OB.writes_in_mut (EncodingKeyspaces.id k) _ (ws_operations s)) as [o'| |] eqn:Ho; cbn in Hp; simplify_eq.
  split; [|split].
  - cbn. eapply ob_wf_writes_in_mut; [|exact Hwf|exact Ho].
    apply (wb_preserves_set (λ b, bt_insert key (Put value false false) (wb_writes b))).
    intros b0 Hb0. by apply bt_wf_insert.
  - unfold OB.writes_in_mut, OB.writes_in in Ho. rewrite Hb in Ho. cbn in Ho. by simplify_eq.
  - intros key' Hk'. rewrite (modify_get (EncodingKeyspaces.id k, key) s _ _ (Put value false false) key' Hk0 Hk'
      (λ b, eq_refl) Hm). done.
Qed.

Section read_back.
Context `{ChronoLaws}.

(** The generator's method for a value that fits in the key. *)
Definition create_inline_attribute (fuel : nat) (type_id : Z) (value : Value) (s : WriteSnapshot)
    (g : ThingVertexGenerator) : exec (SnapshotIteratorError KeyspaceError) (AttributeVertex * WriteSnapshot) :=
  match value with
  | VBoolean v => lift (Generator.create_attribute_boolean type_id v s)
  | VInteger v => lift (Generator.create_attribute_integer type_id v s)
  | VDouble v => lift (Generator.create_attribute_double type_id v s)
  | VDecimal v => lift (Generator.create_attribute_decimal type_id v s)
  | VDate v => lift (Generator.create_attribute_date type_id v s)
  | VDateTime v => lift (Generator.create_attribute_date_time type_id v s)
  | VDateTimeTZ v => lift (Generator.create_attribute_date_time_tz type_id v s)
  | VDuration v => lift (Generator.create_attribute_duration type_id v s)
  | VString v => Generator.create_attribute_string fuel type_id v s g
  | VStruct _ _ => Panic
  end.

(** What is shown of a created vertex: it is stored, it is read back from its
    key, and its value from the vertex. *)
Definition created (type_id : Z) (value : Value) (vertex : AttributeVertex) (s s' : WriteSnapshot) : Prop :=
  av_type_id vertex = type_id ∧ AttrVertex.decode (AttrVertex.to_bytes vertex) = Val vertex ∧
  is_Some (match Snap.get (AttrVertex.into_storage_key vertex) s' with Val v => v | _ => None end) ∧
  get_attribute_value vertex s' = Val value ∧
  ∀ key, 0 ≤ key.1 → key ≠ AttrVertex.into_storage_key vertex → Snap.get key s' = Snap.get key s.

Lemma put_val_created type_id value id stored s :
  is_u16 type_id → id_ok id → ob_wf (ws_operations s) →
  let vertex := mk_AttributeVertex type_id id in
  (∀ s', Snap.get (AttrVertex.into_storage_key vertex) s' = Val (Some stored) →
     get_attribute_value vertex s' = Val value) →
  ∃ s', Snap.put_val (AttrVertex.into_storage_key vertex) stored s = Val s' ∧ ob_wf (ws_operations s') ∧
    ob_locks (ws_operations s') = ob_locks (ws_operations s) ∧ created type_id value vertex s s'.
Proof.
  intros Ht Hid Hwf vertex Hget.
  destruct (put_val_ok (AttrVertex.keyspace vertex) (AttrVertex.to_bytes vertex) stored s Hwf)
    as (s' & Hp & Hwf' & Hl & Hg).
  exists s'. split; [done|]. split; [done|]. split; [done|].
  split; [done|]. split; [by apply attribute_vertex_decodes|].
  pose proof (proj1 (keyspace_id_bounds (AttrVertex.keyspace vertex))) as Hk0.
  assert (Hs : Snap.get (AttrVertex.into_storage_key vertex) s' = Val (Some stored)).
  { rewrite Hg by done. by rewrite bool_decide_eq_true_2. }
  split; [rewrite Hs; by eexists|]. split; [by apply Hget|].
  intros key Hk Hne. rewrite Hg by done. by rewrite bool_decide_eq_false_2.
Qed.
Lemma put_vertex_created type_id value id s :
  is_u16 type_id → id_ok id → ob_wf (ws_operations s) →
  (∀ s', get_attribute_value (mk_AttributeVertex type_id id) s' = Val value) →
  ∃ vertex s', Generator.put_vertex type_id id s = Val (vertex, s') ∧ ob_wf (ws_operations s') ∧
    created type_id value vertex s s'.
Proof.
  intros Ht Hid Hwf Hget.
  destruct (put_val_created type_id value id [] s Ht Hid Hwf) as (s' & Hp & Hwf' & _ & Hc); [intros; apply Hget|].
  eexists _, s'. unfold Generator.put_vertex, Generator.put. rewrite Hp. done.
Qed.

Lemma inline_created {T} cat `{!InlineEncodable cat T} (ok : T → Prop) `{!InlineEncodableLaws cat T ok}
    (inj : T → Value) (mk : bytes → AttributeID) type_id (v : T) s :
  ok v → is_u16 type_id → ob_wf (ws_operations s) →
  (∀ b, AttrID.bytes_ref (mk b) = b ∧ AttrID.value_type_category (mk b) = cat) →
  AttrID.value_type_encoded_value_length cat = ENCODED_LENGTH_ID cat T →
  (∀ b s', get_attribute_value (mk_AttributeVertex type_id (mk b)) s' =
           (v ← lift (InlineID.read cat b); Val (inj v))) →
  ∃ vertex s', (id ← InlineID.build cat v; Generator.put_vertex type_id (mk id) s) = Val (vertex, s') ∧
    ob_wf (ws_operations s') ∧ created type_id (inj v) vertex s s'.
Proof.
  intros Hv Ht Hwf Hmk Hlen Hget.
  destruct (inline_id_spec cat ok v Hv) as (b & _ & Hl & _ & Hb & Hr). rewrite Hb. cbn [mbind exec_bind].
  apply put_vertex_created; [done| |done|].
  - unfold id_ok. destruct (Hmk (Category.to_bytes cat ++ b)) as [-> ->]. exists b. by rewrite Hl, Hlen.
  - intros s'. rewrite Hget, Hr. done.
Qed.

Lemma short_string_created fuel type_id v s g :
  is_u16 type_id → ob_wf (ws_operations s) → utf8 v = true → StringID.is_inlineable v = true →
  ∃ vertex s', Generator.create_attribute_string fuel type_id v s g = Val (vertex, s') ∧
    ob_wf (ws_operations s') ∧ created type_id (VString v) vertex s s'.
Proof.
  intros Ht Hwf Hu Hin. assert (Hlen : (length v ≤ 16)%nat) by (by apply Nat.leb_le in Hin).
  destruct (inline_id_read v Hlen) as [Hi Hr].
  destruct (put_val_created type_id (VString v) (IdString (inline_id v)) v s) as (s' & Hp & Hwf' & _ & Hc);
    [done| |done| |].
  - unfold id_ok. exists (v ++ replicate (16 - length v) 0 ++ [Z.of_nat (length v)]). split; [done|].
    rewrite !length_app, length_replicate. change (length v + (16 - length v + 1) = 17)%nat. lia.
  - intros s' _. unfold get_attribute_value. cbn [av_attribute_id]. rewrite Hi. cbn [lift mbind exec_bind].
    rewrite Hr. cbn [lift mbind exec_bind]. unfold as_str. by rewrite Hu.
  - eexists _, s'. split; [|by split].
    unfold Generator.create_attribute_string, Generator.create_attribute_id_string. rewrite Hin.
    rewrite build_inline_id_spec by done. cbn [lift mbind exec_bind]. by rewrite Hp.
Qed.
End read_back.

Tactic Notation "inline_case" constr(spec) reference(op) :=
  let x := fresh in let s' := fresh in let Hc := fresh in let Hr := fresh in
  destruct spec as (x & s' & Hc & Hr); try done; exists x, s'; split; [|exact Hr]; unfold op; by rewrite Hc.

(** An attribute whose value fits in its key reads back.  For every value of
    a fixed-size type and every string of up to 16 bytes, creating the attribute
    succeeds; its vertex is stored and is decoded from its own key, reading its
    value returns exactly the value it was created with, and no other key reads
    differently. *)
Lemma inline_attribute_reads_back `{ChronoLaws} fuel type_id value s g :
  is_u16 type_id → ob_wf (ws_operations s) → valid value → AttrVertex.is_inlineable value = true →
  ∃ vertex s', create_inline_attribute fuel type_id value s g = Val (vertex, s') ∧
    ob_wf (ws_operations s') ∧ created type_id value vertex s s'.
Proof.
  intros Ht Hwf Hv Hin. destruct value as [v|v|v|v|v|v|v|v|v|key fields]; cbn [create_inline_attribute].
  - inline_case (inline_created CatBoolean (λ _, True) VBoolean IdBoolean type_id v s) Generator.create_attribute_boolean.
  - inline_case (inline_created CatInteger is_i64 VInteger IdInteger type_id v s) Generator.create_attribute_integer.
  - inline_case (inline_created CatDouble is_u64 VDouble IdDouble type_id v s) Generator.create_attribute_double.
  - inline_case (inline_created CatDecimal decimal_valid VDecimal IdDecimal type_id v s) Generator.create_attribute_decimal.
  - inline_case (inline_created CatDate (λ _, True) VDate IdDate type_id v s) Generator.create_attribute_date.
  - inline_case (inline_created CatDateTime date_time_valid VDateTime IdDateTime type_id v s) Generator.create_attribute_date_time.
  - inline_case (inline_created CatDateTimeTZ date_time_tz_valid VDateTimeTZ IdDateTimeTZ type_id v s) Generator.create_attribute_date_time_tz.
  - inline_case (inline_created CatDuration duration_valid VDuration IdDuration type_id v s) Generator.create_attribute_duration.
  - destruct Hv as [Hu _]. by apply short_string_created.
  - done.
Qed.

Definition example_snapshot : WriteSnapshot := mk_WriteSnapshot OB.new 5 (one_keyspace (Memory.new [])).
Lemma example_snapshot_wf : ob_wf (ws_operations example_snapshot).
Proof. exact ob_wf_new. Qed.
Lemma inline_attribute_reads_back_witness :
  ∃ vertex s', create_inline_attribute (H0:=Calendar.zoned) 3 7 (VDouble 4611686018427387904) example_snapshot
      (Generator.new_with_hasher (λ _, 0)) = Val (vertex, s') ∧
    ob_wf (ws_operations s') ∧ created (H0:=Calendar.zoned) 7 (VDouble 4611686018427387904) vertex example_snapshot s'.
Proof.
  apply (inline_attribute_reads_back (H1:=Calendar.laws));
    [unfold is_u16; lia|apply example_snapshot_wf|simpl; unfold is_u64; lia|reflexivity].
Defined.

(** ** Long strings *)
(** The key of a long string without its tail, and the hash in it. *)
Definition string_hash (hasher : bytes → Z) (v : bytes) : bytes := be_bytes 8 (hasher v).
Definition string_key (type_id : Z) (hasher : bytes → Z) (v : bytes) : bytes :=
  (Prefixes.prefix_id VertexAttribute :: TypeID.to_bytes type_id ++ Category.to_bytes CatString ++ take 8 v) ++
  string_hash hasher v.

Lemma write_hash_string hasher v : Hashed.write_hash (StringID.HASHED_HASH_LENGTH + 1) hasher v = string_hash hasher v.
Proof. unfold Hashed.write_hash, string_hash. apply take_ge. by rewrite length_be_bytes. Qed.

(** The id of a long string for each answer of the scan. *)
Lemma build_hashed_id_spec fuel type_id v s hasher r tail :
  (8 ≤ length v)%nat → r = inl tail ∨ r = inr tail →
  Hashed.disambiguate (H:=write_snapshot fuel) s OptimisedPrefix17 (string_key type_id hasher v) v = Val r →
  StringID.build_hashed_id (H:=write_snapshot fuel) type_id v s hasher =
  Val (Category.to_bytes CatString ++ take 8 v ++ string_hash hasher v ++ [tail]).
Proof.
  intros Hlen Hr Hd. unfold StringID.build_hashed_id, StringID.build_or_find_hashed_id.
  assert (Hs : slice 0 StringID.HASHED_PREFIX_LENGTH v = Val (take 8 v)).
  { unfold slice. change StringID.HASHED_PREFIX_LENGTH with 8%nat.
    by rewrite (proj2 (Nat.leb_le 8 (length v))) by done. }
  rewrite Hs. cbn [lift mbind exec_bind]. unfold Hashed.find_existing_or_next_disambiguated_hash.
  rewrite write_hash_string.
  change (Hashed.disambiguate (H:=write_snapshot fuel) s StringID.KEYSPACE
    ((Prefixes.prefix_id VertexAttribute :: TypeID.to_bytes type_id ++ Category.to_bytes CatString ++ take 8 v) ++
     string_hash hasher v) v)
    with (Hashed.disambiguate (H:=write_snapshot fuel) s OptimisedPrefix17 (string_key type_id hasher v) v).
  rewrite Hd. cbn [mbind exec_bind]. by destruct Hr as [-> | ->].
Qed.

Lemma hashed_id_fields p h tail :
  length p = 8%nat → length h = 8%nat → 128 ≤ tail < 256 →
  let id := Category.to_bytes CatString ++ p ++ h ++ [tail] in
  id_ok (IdString id) ∧ StringID.is_inline id = Val false ∧ StringID.get_hash_hash id = Val h.
Proof.
  intros Hp Hh Ht id. split; [|split].
  - exists (p ++ h ++ [tail]). split; [done|]. rewrite !length_app, Hp, Hh. done.
  - unfold StringID.is_inline, id. rewrite !app_assoc, lookup_app_r by (rewrite !length_app, Hp, Hh; cbn; lia).
    rewrite !length_app, Hp, Hh. cbn [length Category.to_bytes Nat.add Nat.sub StringID.TAIL_INDEX].
    change (StringID.TAIL_INDEX - 17)%nat with 0%nat. cbn [lookup list_lookup unwrap mbind exec_bind].
    change StringID.TAIL_IS_HASH_MASK with (2 ^ 7). by rewrite land_pow2_high by (simpl; lia).
  - unfold StringID.get_hash_hash, id. rewrite (app_assoc (Category.to_bytes CatString)).
    apply slice_at; [by rewrite length_app, Hp|by rewrite Hh].
Qed.

(** The scan for a value that is told apart gives a tail of the hashed range
    that belongs to the value or to no key. *)
Lemma disambiguated_tail fuel s key v it out next :
  Snap.iterate_range (EncodingKeyspaces.id OptimisedPrefix17) (new_within key true) s = Val it →
  yields (H:=SnapIter.next (H:=mvcc_source fuel) fuel) it (hash_items (EncodingKeyspaces.id OptimisedPrefix17) key out) →
  tails_ok out.*1 next → NoDup out.*2 → (length out ≤ 127)%nat →
  (∀ t x, (t, x) ∈ out → t < 128 → (length x ≤ 16)%nat) → (16 < length v)%nat →
  ∃ r tail, (r = inl tail ∨ r = inr tail) ∧ 128 ≤ tail < 256 ∧
    Hashed.disambiguate (H:=write_snapshot fuel) s OptimisedPrefix17 key v = Val r ∧
    ∀ t x, (t, x) ∈ out → x ≠ v → t ≠ tail.
Proof.
  intros Hr Hy Ht Hnd Hlen Hin Hv.
  destruct (decide (v ∈ out.*2)) as [Hex|Hnew].
  - apply list_elem_of_fmap in Hex as ([t x] & Hx & Hto). cbn in Hx. subst x.
    exists (inl t), t. split; [by left|]. split; [|split].
    + destruct (tails_ok_range _ _ Ht t) as [H0 H1]; [by apply (list_elem_of_fmap_2 fst _ (t, v))|].
      destruct (Z.lt_ge_cases t 128) as [Hl|]; [specialize (Hin t v Hto Hl); lia|].
      rewrite length_fmap in H1. lia.
    + by apply (disambiguate_found (H:=write_snapshot fuel) s OptimisedPrefix17 key v it out).
    + intros t' x Hto' Hne ->. apply Hne.
      apply (NoDup_fst_inj out t); [by apply (tails_ok_NoDup _ next)|done|done].
  - exists (inr next), next. destruct (tails_ok_fresh _ _ Ht) as [Hf _]. split; [by right|]. split; [|split].
    + pose proof (tails_ok_next_range _ _ Ht) as Hnr. rewrite length_fmap in Hnr. lia.
    + by apply (disambiguate_new (H:=write_snapshot fuel) s OptimisedPrefix17 key v it out next).
    + intros t x Hto _ ->. apply Hf. by apply (list_elem_of_fmap_2 fst _ (next, x)).
Qed.

Lemma string_vertex_bytes type_id hasher v tail :
  AttrVertex.to_bytes (mk_AttributeVertex type_id
    (IdString (Category.to_bytes CatString ++ take 8 v ++ string_hash hasher v ++ [tail]))) =
  string_key type_id hasher v ++ [tail].
Proof. unfold AttrVertex.to_bytes, string_key. cbn [av_type_id av_attribute_id AttrID.bytes_ref]. by rewrite <-!app_assoc. Qed.

(** A long string reads back and displaces no other.  Where the stored
    strings of the same type, prefix and hash have tails without a hole, creating
    an attribute with a string of more than 16 bytes succeeds whether or not the
    string is stored already; the attribute is read back from its key and its
    value is the string; its key is the key of no other stored string; every
    other key reads as before; and the transaction holds the exclusive lock on
    the hash. *)
Lemma long_string_reads_back `{ChronoLaws} fuel type_id v s g it out next :
  let key := string_key type_id (vg_large_value_hasher g) v in
  let ks := EncodingKeyspaces.id OptimisedPrefix17 in
  is_u16 type_id → ob_wf (ws_operations s) → utf8 v = true → (16 < length v)%nat →
  Snap.iterate_range ks (new_within key true) s = Val it →
  yields (H:=SnapIter.next (H:=mvcc_source fuel) fuel) it (hash_items ks key out) →
  tails_ok out.*1 next → NoDup out.*2 → (length out ≤ 127)%nat →
  (∀ t x, (t, x) ∈ out → t < 128 → (length x ≤ 16)%nat) →
  ∃ vertex s', Generator.create_attribute_string fuel type_id v s g = Val (vertex, s') ∧
    created type_id (VString v) vertex s s' ∧
    (∀ t x, (t, x) ∈ out → x ≠ v → AttrVertex.into_storage_key vertex ≠ (ks, key ++ [t])) ∧
    bt_get (Generator.hash_lock type_id (string_hash (vg_large_value_hasher g) v)) (ob_locks (ws_operations s')) =
      Some Exclusive.
Proof.
  intros key ks Ht Hwf Hu Hlen Hit Hy Htails Hnd Hout Hinl.
  destruct (disambiguated_tail fuel s key v it out next) as (r & tail & Hr & Hrange & Hd & Hother); try done.
  set (h := string_hash (vg_large_value_hasher g) v). set (id := Category.to_bytes CatString ++ take 8 v ++ h ++ [tail]).
  destruct (hashed_id_fields (take 8 v) h tail) as (Hok & Hinline & Hhash);
    [rewrite length_take; lia|apply length_be_bytes|done|]. fold id in Hok, Hinline, Hhash.
  set (s1 := Generator.exclusive_lock_add (Generator.hash_lock type_id h) s).
  destruct (put_val_created type_id (VString v) (IdString id) v s1) as (s' & Hp & _ & Hlocks & Hc); [done|done| | |].
  { by apply operations_buffer_shape_lock. }
  { intros s' Hg. unfold get_attribute_value. cbn [av_attribute_id]. rewrite Hinline. cbn [lift mbind exec_bind].
    unfold stored_value. rewrite Hg. cbn [map_err mbind exec_bind ok_or]. unfold as_str. by rewrite Hu. }
  exists (mk_AttributeVertex type_id (IdString id)), s'. split; [|split; [exact Hc|split]].
  - unfold Generator.create_attribute_string, Generator.create_attribute_id_string.
    assert (StringID.is_inlineable v = false) as ->.
    { apply Nat.leb_gt. change StringID.INLINE_OR_PREFIXED_HASH_LENGTH with 16%nat. lia. }
    rewrite (build_hashed_id_spec fuel type_id v s _ r tail) by (done || lia). fold h id. cbn [mbind exec_bind].
    rewrite Hhash. cbn [lift mbind exec_bind]. fold s1. by rewrite Hp.
  - intros t x Hto Hx Heq. apply (Hother t x Hto Hx). apply (f_equal snd) in Heq. cbn [snd] in Heq.
    change (snd (AttrVertex.into_storage_key (mk_AttributeVertex type_id (IdString id))))
      with (AttrVertex.to_bytes (mk_AttributeVertex type_id (IdString id))) in Heq.
    unfold id, h in Heq. rewrite string_vertex_bytes in Heq. by apply app_inj_tail in Heq as [_ <-].
  - rewrite Hlocks. unfold s1. cbn. apply bt_get_insert_eq.
Qed.

(** The keyspaces of an empty database. *)
Definition encoding_keyspaces : Keyspaces :=
  mk_Keyspaces ((λ i, mk_Keyspace (Memory.new []) [] i None) <$> [0; 1; 2; 3; 4])
    ([Some 0; Some 1; Some 2; Some 3; Some 4] ++ replicate 5 None).
Definition empty_snapshot : WriteSnapshot := mk_WriteSnapshot OB.new 5 encoding_keyspaces.
Lemma empty_snapshot_scan k key :
  is_bytes key → WB.iterate_range (new_within key true) (WB.new (EncodingKeyspaces.id k)) = Val [] →
  ∃ it, Snap.iterate_range (EncodingKeyspaces.id k) (new_within key true) empty_snapshot = Val it ∧
    yields (H:=SnapIter.next (H:=mvcc_source 3) 3) it [].
Proof.
  intros Hkey Hbuf.
  destruct (snapshot_scan_overlay 3 (EncodingKeyspaces.id k) (new_within key true) key empty_snapshot
    (Memory.new []) [] (WB.new (EncodingKeyspaces.id k)) []) as (it & out & Hit & Hy & _ & Hget).
  - by destruct k.
  - by destruct k.
  - done.
  - constructor.
  - done.
  - split; [constructor|constructor|intros a b Ha; by apply not_elem_of_nil in Ha|intros a b c t Ha; by apply not_elem_of_nil in Ha].
  - intros a b Ha. by apply not_elem_of_nil in Ha.
  - done.
  - split; [done|discriminate].
  - done.
  - discriminate.
  - constructor.
  - constructor.
  - exact Hbuf.
  - simpl; lia.
  - simpl; lia.
  - exists it. split; [done|]. destruct out as [|[k0 x] out]; [done|].
    specialize (Hget k0). cbn in Hget. by rewrite cmp_refl in Hget.
Qed.
Lemma long_string_reads_back_witness :
  let g := Generator.new_with_hasher (λ _, 7) in
  ∃ vertex s', Generator.create_attribute_string 3 1 (replicate 17 97) empty_snapshot g = Val (vertex, s') ∧
    created (H0:=Calendar.zoned) 1 (VString (replicate 17 97)) vertex empty_snapshot s'.
Proof.
  intros g.
  destruct (empty_snapshot_scan OptimisedPrefix17 (string_key 1 (λ _, 7) (replicate 17 97))) as (it & Hit & Hy).
  { apply Forall_app_2; [|apply be_bytes_is_bytes]. cbn [take replicate].
    repeat (apply Forall_cons_2; [unfold is_byte; vm_compute; split; congruence|]). apply Forall_nil_2. }
  { reflexivity. }
  destruct (long_string_reads_back (H1:=Calendar.laws) 3 1 (replicate 17 97) empty_snapshot g it [] 128)
    as (vertex & s' & Hc & Hcr & _).
  - unfold is_u16; lia.
  - exact ob_wf_new.
  - reflexivity.
  - simpl; lia.
  - exact Hit.
  - exact Hy.
  - exact (tails_hashed 0).
  - constructor.
  - simpl; lia.
  - intros t x Hx. by apply not_elem_of_nil in Hx.
  - by exists vertex, s'.
Defined.

(** ** Concurrent creation *)
Lemma disambiguate_ok fuel type_id v s hasher id :
  StringID.build_hashed_id (H:=write_snapshot fuel) type_id v s hasher = Val id →
  ∃ r, Hashed.disambiguate (H:=write_snapshot fuel) s OptimisedPrefix17 (string_key type_id hasher v) v = Val r.
Proof.
  unfold StringID.build_hashed_id, StringID.build_or_find_hashed_id, slice.
  change StringID.HASHED_PREFIX_LENGTH with 8%nat. destruct ((0 <=? 8)%nat && (8 <=? length v)%nat); [|done].
  cbn [lift mbind exec_bind drop Nat.sub]. unfold Hashed.find_existing_or_next_disambiguated_hash.
  rewrite write_hash_string. unfold string_key, StringID.KEYSPACE.
  destruct (Hashed.disambiguate _ _ _ _) as [r| |]; [|done..]. by exists r.
Qed.
Lemma hashed_id_hash fuel type_id v s hasher id :
  (8 ≤ length v)%nat → StringID.build_hashed_id (H:=write_snapshot fuel) type_id v s hasher = Val id →
  StringID.get_hash_hash id = Val (string_hash hasher v).
Proof.
  intros Hlen Hb. destruct (disambiguate_ok fuel type_id v s hasher id Hb) as [r Hd].
  assert (∃ tail, r = inl tail ∨ r = inr tail) as [tail Hr] by (destruct r; eauto).
  rewrite (build_hashed_id_spec fuel type_id v s hasher r tail Hlen Hr Hd) in Hb.
  assert (id = Category.to_bytes CatString ++ take 8 v ++ string_hash hasher v ++ [tail]) as -> by congruence.
  unfold StringID.get_hash_hash. rewrite (app_assoc (Category.to_bytes CatString)).
  apply slice_at; [rewrite length_app, length_take; change (1 + Nat.min 8 (length v) = 9)%nat; lia|done].
Qed.

Lemma create_string_locks fuel type_id v s g vertex s' :
  StringID.is_inlineable v = false → ob_wf (ws_operations s) →
  Generator.create_attribute_string fuel type_id v s g = Val (vertex, s') →
  ob_wf (ws_operations s') ∧
  locks_as (ws_operations s') (Generator.hash_lock type_id (string_hash (vg_large_value_hasher g) v)) Exclusive.
Proof.
  intros Hin Hwf. unfold Generator.create_attribute_string, Generator.create_attribute_id_string. rewrite Hin.
  apply Nat.leb_gt in Hin. change StringID.INLINE_OR_PREFIXED_HASH_LENGTH with 16%nat in Hin.
  destruct (StringID.build_hashed_id type_id v s _) as [id| |] eqn:Hb; cbn [mbind exec_bind]; try done.
  rewrite (hashed_id_hash fuel type_id v s _ id) by (done || lia). cbn [lift mbind exec_bind].
  set (lock := Generator.hash_lock type_id (string_hash (vg_large_value_hasher g) v)).
  set (x := mk_AttributeVertex type_id (IdString id)).
  destruct (put_val_ok (AttrVertex.keyspace x) (AttrVertex.to_bytes x) v (Generator.exclusive_lock_add lock s))
    as (s2 & Hp & Hwf2 & Hl & _); [by apply operations_buffer_shape_lock|].
  unfold AttrVertex.into_storage_key. rewrite Hp. cbn [lift mbind exec_bind]. intros [= _ <-].
  split; [done|]. unfold locks_as. rewrite Hl. cbn. apply bt_get_insert_eq.
Qed.

(** C33: concurrent creation is detected. Let two transactions, with
    well-formed buffers, each create an attribute of the same type with a
    string of more than 16 bytes: the same string, or two strings that the
    hasher maps to the same hash. Then both hold an exclusive lock on the same
    hash, and comparing their commit records, in either direction, reports a
    conflict. Whether the tail that each of them takes is free is not part of
    this (lemma hole_reuses_tail_in_use). *)
Theorem concurrent_string_creation_conflicts fuel type_id v1 v2 s1 s2 g1 g2 x1 x2 s1' s2' o1 o2 c1 c2 :
  StringID.is_inlineable v1 = false → StringID.is_inlineable v2 = false →
  vg_large_value_hasher g1 v1 = vg_large_value_hasher g2 v2 →
  ob_wf (ws_operations s1) → ob_wf (ws_operations s2) →
  Generator.create_attribute_string fuel type_id v1 s1 g1 = Val (x1, s1') →
  Generator.create_attribute_string fuel type_id v2 s2 g2 = Val (x2, s2') →
  let r1 := mk_CommitRecord (ws_operations s1') o1 c1 in
  let r2 := mk_CommitRecord (ws_operations s2') o2 c2 in
  (∃ c, Dep.compute_dependency r1 r2 = Conflict c) ∧ (∃ c, Dep.compute_dependency r2 r1 = Conflict c).
Proof.
  intros Hn1 Hn2 Hh Hw1 Hw2 Hc1 Hc2 r1 r2.
  destruct (create_string_locks _ _ _ _ _ _ _ Hn1 Hw1 Hc1) as [Hw1' Hl1].
  destruct (create_string_locks _ _ _ _ _ _ _ Hn2 Hw2 Hc2) as [Hw2' Hl2].
  unfold string_hash in Hl1, Hl2. rewrite Hh in Hl1.
  split; [pose proof (compute_dependency_spec r1 r2 Hw1' Hw2') as Hs; destruct (Dep.compute_dependency r1 r2)
         |pose proof (compute_dependency_spec r2 r1 Hw2' Hw1') as Hs; destruct (Dep.compute_dependency r2 r1)];
    try (by eexists); destruct Hs; do 2 right; by eexists.
Qed.
Lemma concurrent_string_creation_conflicts_witness :
  let g := Generator.new_with_hasher (λ _, 7) in
  match Generator.create_attribute_string 3 1 (replicate 17 97) empty_snapshot g,
        Generator.create_attribute_string 3 1 (replicate 20 98) empty_snapshot g with
  | Val (_, s1), Val (_, s2) =>
      ∃ c, Dep.compute_dependency (mk_CommitRecord (ws_operations s1) 5 CommitData)
             (mk_CommitRecord (ws_operations s2) 5 CommitData) = Conflict c
  | _, _ => False
  end.
Proof.
  intros g. destruct (Generator.create_attribute_string 3 1 (replicate 17 97) empty_snapshot g) as [[x1 s1]| |] eqn:H1;
    [|vm_compute in H1; discriminate H1..].
  destruct (Generator.create_attribute_string 3 1 (replicate 20 98) empty_snapshot g) as [[x2 s2]| |] eqn:H2;
    [|vm_compute in H2; discriminate H2..].
  apply (concurrent_string_creation_conflicts 3 1 (replicate 17 97) (replicate 20 98) empty_snapshot empty_snapshot
    g g x1 x2 s1 s2 5 5 CommitData CommitData); [reflexivity|reflexivity|reflexivity|exact ob_wf_new|exact ob_wf_new|done|done].
Defined.

(** ** Loading the counters *)
Lemma get_prev_spec b key (vs : list Version) v :
  mb_data b = raw <$> vs → bt_wf (mb_data b) → mb_poisoned b = false → v ∈ vs → (raw v).1 ⪯ key →
  ∃ w, w ∈ vs ∧ (raw v).1 ⪯ (raw w).1 ∧ (raw w).1 ⪯ key ∧
    ∀ V (mapper : bytes → bytes → V), Memory.get_prev key mapper b = Some (mapper (raw w).1 (raw w).2).
Proof.
  intros Hd Hwf Hp Hv Hle. set (f := λ kv : bytes * bytes, below (Included key) kv.1).
  assert (Hin : raw v ∈ List.filter f (mb_data b)).
  { apply elem_of_list_filter_bool. split; [|by apply leb_le]. rewrite Hd. by apply list_elem_of_fmap_2. }
  destruct (last (List.filter f (mb_data b))) as [kv|] eqn:Hl; [|by apply last_None in Hl; rewrite Hl in Hin; inversion Hin].
  assert (Hkv : kv ∈ List.filter f (mb_data b)) by (by apply last_Some_elem_of).
  apply elem_of_list_filter_bool in Hkv as [Hkd Hkf]. rewrite Hd in Hkd.
  apply list_elem_of_fmap in Hkd as (w & -> & Hw). exists w. split; [done|]. split; [|split].
  - apply (bt_wf_filter f) in Hwf. apply last_Some in Hl as [pre Hpre]. rewrite Hpre in Hin, Hwf.
    apply elem_of_app in Hin as [Hin|Hin].
    + apply cmp_lt_le. destruct (bt_wf_app_inv _ _ Hwf) as (_ & _ & Hall). rewrite Forall_forall in Hall.
      specialize (Hall _ Hin). by rewrite Forall_singleton in Hall.
    + rewrite elem_of_cons, elem_of_nil in Hin. destruct Hin as [-> |[]]. apply cmp_le_refl.
  - by apply leb_le in Hkf.
  - intros V mapper. unfold Memory.get_prev. rewrite Hp. fold f. by rewrite Hl.
Qed.

Lemma length_type_id t : length (TypeID.to_bytes t) = 2%nat.
Proof. apply length_be_bytes. Qed.
Lemma length_object v : length (ObjVertex.to_bytes v) = 11%nat.
Proof. unfold ObjVertex.to_bytes. cbn [length]. by rewrite length_app, length_type_id, length_be_bytes. Qed.
Lemma object_is_bytes v : is_bytes (ObjVertex.to_bytes v).
Proof. constructor; [apply prefix_id_byte|]. apply Forall_app_2; apply be_bytes_is_bytes. Qed.
(** The key as a number: prefix, type and id in the digits of base 256. *)
Lemma object_value v :
  is_u16 (ov_type_id v) → is_u64 (ov_object_id v) →
  be_value (ObjVertex.to_bytes v) = Prefixes.prefix_id (ov_prefix v) * 2 ^ 80 + ov_type_id v * 2 ^ 64 + ov_object_id v.
Proof.
  intros Ht Hi. unfold ObjVertex.to_bytes. cbn [be_value].
  rewrite length_app, length_type_id, length_be_bytes, be_value_app, length_be_bytes. unfold TypeID.to_bytes, TypeID.LENGTH.
  unfold is_u16, is_u64 in *.
  rewrite (be_bytes_value 2), (be_bytes_value 8) by (first [change (256 ^ Z.of_nat 2) with (2 ^ 16) | change (256 ^ Z.of_nat 8) with (2 ^ 64)]; lia).
  change (256 ^ Z.of_nat 8) with (2 ^ 64). change (256 ^ Z.of_nat (2 + 8)) with (2 ^ 80). lia.
Qed.
Lemma object_decodes v :
  is_u16 (ov_type_id v) → is_u64 (ov_object_id v) → ObjVertex.decode (ObjVertex.to_bytes v) = Val v.
Proof.
  intros Ht Hi. destruct v as [p t i]. cbn [ov_type_id ov_object_id] in *. unfold ObjVertex.decode, ObjVertex.to_bytes.
  cbn [ov_prefix ov_type_id ov_object_id lookup list_lookup unwrap mbind exec_bind].
  rewrite prefix_round_trip. cbn [mbind exec_bind].
  change (Prefixes.prefix_id p :: TypeID.to_bytes t ++ be_bytes 8 i)
    with ([Prefixes.prefix_id p] ++ TypeID.to_bytes t ++ be_bytes 8 i).
  rewrite (slice_at [Prefixes.prefix_id p] (TypeID.to_bytes t) _ 1 (1 + TypeID.LENGTH)) by (rewrite ?length_type_id; done). cbn [mbind exec_bind].
  rewrite app_assoc, slice_rest by (rewrite ?length_app, ?length_type_id, ?length_be_bytes; done). cbn [mbind exec_bind].
  unfold TypeID.decode, TypeID.to_bytes, is_u16, is_u64 in *.
  rewrite (be_bytes_value TypeID.LENGTH) by (change (256 ^ Z.of_nat TypeID.LENGTH) with (2 ^ 16); lia).
  by rewrite (be_bytes_value 8) by (change (256 ^ Z.of_nat 8) with (2 ^ 64); lia).
Qed.

(** Keys of eleven bytes or more compare like their first eleven bytes. *)
Lemma long_key_le (a n : bytes) : (11 < length a)%nat → length n = 11%nat → a ⪯ n → take 11 a ≺ n.
Proof.
  intros Ha Hn Hle. rewrite <-(take_drop 11 a) in Hle.
  assert (Hl : length (take 11 a) = length n) by (rewrite length_take; lia).
  rewrite <-(app_nil_r n) in Hle. rewrite (list_cmp_app_len _ _ _ _ Hl) in Hle.
  destruct (cmp (take 11 a) n) eqn:Hc; [|done|by destruct Hle].
  exfalso. apply Hle. destruct (drop 11 a) as [|x l] eqn:Hd; [|done].
  apply (f_equal length) in Hd. rewrite length_drop in Hd. simpl in Hd. lia.
Qed.
Lemma take_le_mono (a b : bytes) k : (k ≤ length a)%nat → (k ≤ length b)%nat → a ⪯ b → take k a ⪯ take k b.
Proof.
  intros Ha Hb Hle. rewrite <-(take_drop k a), <-(take_drop k b) in Hle.
  rewrite list_cmp_app_len in Hle by (rewrite !length_take; lia). by destruct (cmp (take k a) (take k b)).
Qed.

(** What the keyspace of objects holds: versions of well-formed keys, the keys
    of objects of prefix [p] with eleven bytes, those of the next prefix with at
    least three, and no object with the largest id. *)
Record objects_ok (p : Prefix) (vs : list Version) : Prop := {
  oo_store : store_ok vs;
  oo_length : ∀ v, v ∈ vs → head (v_key v) = Some (Prefixes.prefix_id p) → length (v_key v) = ObjVertex.LENGTH;
  oo_next : ∀ v, v ∈ vs → head (v_key v) = Some (Prefixes.prefix_id p + 1) → (3 ≤ length (v_key v))%nat;
  oo_max : ∀ v t, v ∈ vs → is_u16 t → v_key v ≠ ObjVertex.to_bytes (mk_ObjectVertex p t u64_max);
}.

Section load_objects.
Context (p : Prefix) (vs : list Version) (Hp : p = VertexEntity ∨ p = VertexRelation) (Hok : objects_ok p vs).

Lemma raw_is_bytes v : v ∈ vs → is_bytes (raw v).1.
Proof.
  intros Hv. destruct Hok as [[_ Hvs _ _] _ _ _]. rewrite Forall_forall in Hvs. destruct (Hvs v Hv) as [Hk _].
  unfold raw. cbn. rewrite build_app. apply Forall_app_2; [done|]. apply Forall_app_2; [apply be_bytes_is_bytes|].
  destruct (v_op v); repeat constructor; done.
Qed.

(** The number of the end of a type's keys. *)
Definition type_end (t : Z) : Z := Prefixes.prefix_id p * 2 ^ 80 + (t + 1) * 2 ^ 64.
Lemma type_end_key t :
  is_u16 t → increment_unwrap (E:=Empty_set) (ObjVertex.to_bytes (mk_ObjectVertex p t u64_max)) = Val (be_bytes 11 (type_end t)) ∧
  0 ≤ type_end t < 256 ^ Z.of_nat 11.
Proof.
  intros Ht. assert (Hid : 30 ≤ Prefixes.prefix_id p ≤ 31) by (destruct Hp as [-> | ->]; simpl; lia).
  assert (Hr : 0 ≤ type_end t < 256 ^ Z.of_nat 11).
  { unfold type_end, is_u16 in *. change (256 ^ Z.of_nat 11) with (2 ^ 88). lia. }
  split; [|done]. apply increment_unwrap_spec; [apply object_is_bytes|]. rewrite length_object, object_value.
  - cbn [ov_prefix ov_type_id ov_object_id]. unfold type_end, u64_max in *.
    split; [change (256 ^ Z.of_nat 11) with (2 ^ 88) in *; lia|]. f_equal. lia.
  - done.
  - unfold is_u64, u64_max. cbn [ov_object_id]. lia.
Qed.

Lemma cons_le (x y : Z) (a b : bytes) : x :: a ⪯ y :: b → x ≤ y.
Proof.
  change (cmp (x :: a) (y :: b)) with (match Z.compare x y with Eq => cmp a b | o => o end).
  destruct (Z.compare_spec x y); [lia|lia|done].
Qed.
(** Between an object of the type and the end of the type, keys start with the
    prefix or the next one. *)
Lemma first_byte t i v w :
  is_u16 t → v ∈ vs → w ∈ vs → v_key v = ObjVertex.to_bytes (mk_ObjectVertex p t i) →
  (raw v).1 ⪯ (raw w).1 → (raw w).1 ⪯ be_bytes 11 (type_end t) →
  head (v_key w) = Some (Prefixes.prefix_id p) ∨ head (v_key w) = Some (Prefixes.prefix_id p + 1).
Proof.
  intros Ht Hv Hw Hvk Hlo Hhi.
  assert (Hid : 30 ≤ Prefixes.prefix_id p ≤ 31) by (destruct Hp as [-> | ->]; simpl; lia).
  assert (Hrv : ∃ l, (raw v).1 = Prefixes.prefix_id p :: l).
  { unfold raw. cbn [fst]. rewrite build_app, Hvk. by eexists. }
  destruct Hrv as [l Hrv]. rewrite Hrv in Hlo.
  destruct (raw w).1 as [|c rest] eqn:Hrw; [done|]. apply cons_le in Hlo. cbn [be_bytes] in Hhi. apply cons_le in Hhi.
  change (256 ^ Z.of_nat 10) with (2 ^ 80) in Hhi. unfold type_end, is_u16 in *.
  assert (Hq : (Prefixes.prefix_id p * 2 ^ 80 + (t + 1) * 2 ^ 64) / 2 ^ 80 ≤ Prefixes.prefix_id p + 1).
  { apply Z.div_le_upper_bound; lia. }
  assert (Hq0 : 0 ≤ (Prefixes.prefix_id p * 2 ^ 80 + (t + 1) * 2 ^ 64) / 2 ^ 80) by (apply Z.div_pos; lia).
  rewrite Z.mod_small in Hhi by lia.
  unfold raw in Hrw. cbn [fst] in Hrw. rewrite build_app in Hrw.
  destruct (v_key w) as [|b k]; cbn [app] in Hrw; injection Hrw as <- _.
  - exfalso. destruct Hok as [[_ Hvs _ _] _ _ _]. rewrite Forall_forall in Hvs. destruct (Hvs w Hw) as [_ Hs].
    assert ((u64_max - v_seq w) / 256 ^ Z.of_nat 7 = 255) as Hb.
    { change (256 ^ Z.of_nat 7) with (2 ^ 56). unfold u64_max. symmetry.
      apply Z.div_unique with (2 ^ 56 - 1 - v_seq w); lia. }
    rewrite Hb in Hhi, Hlo. change (255 mod 256) with 255 in *. lia.
  - cbn [head]. destruct (Z.eq_dec b (Prefixes.prefix_id p)) as [->|]; [by left|]. right. f_equal. lia.
Qed.
Lemma object_below_end t i v :
  is_u16 t → is_u64 i → v_key v = ObjVertex.to_bytes (mk_ObjectVertex p t i) → (raw v).1 ≺ be_bytes 11 (type_end t).
Proof.
  intros Ht Hi Hvk. destruct (type_end_key t Ht) as [_ Hr]. unfold raw. cbn [fst]. rewrite build_app, Hvk.
  rewrite <-(app_nil_r (be_bytes 11 _)), list_cmp_app_len by (by rewrite length_object, length_be_bytes).
  rewrite be_value_cmp; [|apply object_is_bytes|apply be_bytes_is_bytes|by rewrite length_object, length_be_bytes].
  rewrite be_bytes_value by done. rewrite object_value by done. cbn [ov_prefix ov_type_id ov_object_id].
  rewrite (proj2 (Z.compare_lt_iff _ _)); [done|]. unfold type_end, is_u64 in *. lia.
Qed.

(** A version between an object of the type and the end of the type is an object
    of the type with at least its id. *)
Lemma between_objects t i v w :
  is_u16 t → is_u64 i → v ∈ vs → w ∈ vs → v_key v = ObjVertex.to_bytes (mk_ObjectVertex p t i) →
  (raw v).1 ⪯ (raw w).1 → (raw w).1 ⪯ be_bytes 11 (type_end t) →
  ∃ j, is_u64 j ∧ i ≤ j ∧ v_key w = ObjVertex.to_bytes (mk_ObjectVertex p t j).
Proof.
  intros Ht Hi Hv Hw Hvk Hlo Hhi. destruct (type_end_key t Ht) as [_ Hend].
  assert (Hid : 30 ≤ Prefixes.prefix_id p ≤ 31) by (destruct Hp as [-> | ->]; simpl; lia).
  set (P := Prefixes.prefix_id p) in *.
  assert (Hkw : (raw w).1 = v_key w ++ be_bytes 8 (u64_max - v_seq w) ++ StorageOp.to_bytes (v_op w)).
  { unfold raw. cbn [fst]. by rewrite build_app. }
  assert (Hlw : length (raw w).1 = (length (v_key w) + 9)%nat) by apply length_build.
  pose proof (raw_is_bytes w Hw) as Hbw.
  assert (Hlv : length (raw v).1 = 20%nat).
  { unfold raw. cbn [fst]. by rewrite length_build, Hvk, length_object. }
  assert (Hhead : head (v_key w) = Some P ∨ head (v_key w) = Some (P + 1)).
  { by apply (first_byte t i v w). }
  assert (Hlen : (11 < length (raw w).1)%nat).
  { rewrite Hlw. destruct Hhead as [Hh|Hh]; [rewrite (oo_length _ _ Hok w Hw Hh); simpl; lia|].
    pose proof (oo_next _ _ Hok w Hw Hh). lia. }
  assert (Hlt : be_value (take 11 (raw w).1) < type_end t).
  { pose proof (long_key_le _ _ Hlen (length_be_bytes 11 _) Hhi) as Hc.
    rewrite be_value_cmp in Hc; [|exact (Forall_take _ 11 _ Hbw)|apply be_bytes_is_bytes
      |rewrite length_take, length_be_bytes; lia].
    rewrite be_bytes_value in Hc by done. by apply Z.compare_lt_iff in Hc. }
  assert (Hge : be_value (ObjVertex.to_bytes (mk_ObjectVertex p t i)) ≤ be_value (take 11 (raw w).1)).
  { assert (Htk : take 11 (raw v).1 = ObjVertex.to_bytes (mk_ObjectVertex p t i)).
    { unfold raw. cbn [fst]. rewrite build_app, Hvk. apply take_app_length'. by rewrite length_object. }
    pose proof (take_le_mono (raw v).1 (raw w).1 11 ltac:(lia) ltac:(lia) Hlo) as Hc. rewrite Htk in Hc.
    rewrite be_value_cmp in Hc; [|apply object_is_bytes|exact (Forall_take _ 11 _ Hbw)
      |rewrite length_take, length_object; lia].
    by apply Z.compare_le_iff in Hc. }
  rewrite object_value in Hge by done. cbn [ov_prefix ov_type_id ov_object_id] in Hge. fold P in Hge.
  set (j := be_value (take 11 (raw w).1) - P * 2 ^ 80 - t * 2 ^ 64).
  assert (Hj : is_u64 j) by (unfold is_u64, is_u16, type_end, j in *; fold P in Hlt; lia).
  exists j. split; [done|]. split; [unfold j; lia|].
  assert (Hk1 : take 11 (raw w).1 = ObjVertex.to_bytes (mk_ObjectVertex p t j)).
  { rewrite <-(be_bytes_be_value (take 11 (raw w).1)) by (exact (Forall_take _ 11 _ Hbw)).
    rewrite <-(be_bytes_be_value (ObjVertex.to_bytes _)) by apply object_is_bytes.
    rewrite object_value by done. cbn [ov_prefix ov_type_id ov_object_id]. fold P.
    rewrite length_object, length_take. rewrite Nat.min_l by lia. f_equal. unfold j. lia. }
  assert (Hhp : head (v_key w) = Some P).
  { destruct (v_key w) as [|b l]; [by destruct Hhead|]. rewrite Hkw in Hk1. cbn in Hk1. injection Hk1 as Hb _.
    cbn. by subst b. }
  pose proof (oo_length _ _ Hok w Hw Hhp) as Hl11. change ObjVertex.LENGTH with 11%nat in Hl11.
  rewrite Hkw, take_app_length' in Hk1 by done. done.
Qed.

Context {D : Type} (st : Storage D) (b : MemoryBackend).
Hypothesis Hb : backend_of (EncodingKeyspaces.id ObjVertex.KEYSPACE) (st_keyspaces st) = Some b.
Hypothesis Hd : mb_data b = raw <$> vs.
Hypothesis Hpo : mb_poisoned b = false.

(** The ids of the type's objects, deleted ones included, are below the
    counter. *)
Definition above_stored (t : Z) (ids : counters) : Prop :=
  ∀ v i, v ∈ vs → is_u64 i → v_key v = ObjVertex.to_bytes (mk_ObjectVertex p t i) → i < counter t ids.

Lemma object_is_vertex t i : ObjVertex.is_vertex_of p 0 (ObjVertex.to_bytes (mk_ObjectVertex p t i)) = true.
Proof. unfold ObjVertex.is_vertex_of. rewrite length_object. cbn. by rewrite Z.eqb_refl. Qed.
Lemma decode_vertex key :
  ObjVertex.is_vertex_of p 0 key = true → ∃ o, ObjVertex.decode key = Val o.
Proof.
  unfold ObjVertex.is_vertex_of. intros [[_ Hl]%andb_prop Hh]%andb_prop. apply Nat.eqb_eq in Hl.
  destruct key as [|c key]; [done|]. apply Z.eqb_eq in Hh. subst c.
  unfold ObjVertex.decode. cbn [lookup list_lookup unwrap mbind exec_bind]. rewrite prefix_round_trip. cbn [mbind exec_bind].
  change ObjVertex.LENGTH with 11%nat in *. change TypeID.LENGTH with 2%nat. unfold slice. rewrite Hl. cbn. by eexists.
Qed.
Lemma load_type_spec t ids :
  is_u16 t → is_u64 (counter t ids) →
  ∃ ids', Generator.load_type p st ids t = Val ids' ∧ (above_stored t ids' ∧ is_u64 (counter t ids')) ∧
    ∀ t', t' ≠ t → counter t' ids' = counter t' ids.
Proof.
  intros Ht Hcount. destruct (type_end_key t Ht) as [Hinc Hrange]. unfold Generator.load_type. rewrite Hinc.
  cbn [mbind exec_bind]. unfold Engine.get_prev_raw. cbn [fst snd].
  destruct (get_backend (E:=Empty_set) _ _ _ Hb) as (k & Hk & Hkb). rewrite Hk. cbn [mbind exec_bind].
  unfold KS.get_prev. rewrite Hkb. set (key := be_bytes 11 (type_end t)).
  assert (Hsorted : bt_wf (mb_data b)) by (rewrite Hd; apply Hok).
  assert (Habove : ∀ v i, v ∈ vs → is_u64 i → v_key v = ObjVertex.to_bytes (mk_ObjectVertex p t i) →
    ∃ w j, Memory.get_prev key pair b = Some (raw w) ∧ is_u64 j ∧ i ≤ j < u64_max ∧
      v_key w = ObjVertex.to_bytes (mk_ObjectVertex p t j)).
  { intros v i Hv Hi Hvk.
    destruct (get_prev_spec b key vs v Hd Hsorted Hpo Hv) as (w & Hw & Hlo & Hhi & Hall).
    { apply cmp_lt_le. by apply (object_below_end t i v). }
    destruct (between_objects t i v w Ht Hi Hv Hw Hvk Hlo Hhi) as (j & Hj & Hij & Hkey).
    exists w, j. rewrite Hall, <-surjective_pairing. split; [done|]. split; [done|]. split; [|done]. split; [done|].
    assert (j ≠ u64_max) by (intros ->; by apply (oo_max _ _ Hok w t Hw Ht)). unfold is_u64, u64_max in *. lia. }
  unfold Memory.get_prev in *. rewrite Hpo in *.
  destruct (last (List.filter (λ kv : bytes * bytes, below (Included key) kv.1) (mb_data b))) as [kv|] eqn:Hl; cbn [fmap option_fmap option_map] in *.
  2: { exists ids. split; [done|]. split; [|done]. split; [|done]. intros v i Hv Hi Hvk.
       by destruct (Habove v i Hv Hi Hvk) as (w & j & Hw & _). }
  assert (∃ w, w ∈ vs ∧ kv = raw w) as (w & Hw & ->).
  { apply last_Some_elem_of, elem_of_list_filter_bool in Hl as [Hkv _]. rewrite Hd in Hkv.
    apply list_elem_of_fmap in Hkv as (w & -> & Hw). by exists w. }
  unfold raw at 1. cbn [fst]. rewrite key_build. cbn [mbind exec_bind].
  change (EncodingKeyspaces.id ObjVertex.KEYSPACE) with 0.
  assert (Hsame : ∀ v i, v ∈ vs → is_u64 i → v_key v = ObjVertex.to_bytes (mk_ObjectVertex p t i) →
    ∃ j, is_u64 j ∧ i ≤ j < u64_max ∧ v_key w = ObjVertex.to_bytes (mk_ObjectVertex p t j)).
  { intros v i Hv Hi Hvk. destruct (Habove v i Hv Hi Hvk) as (w' & j & Heq & Hj & Hij & Hk').
    exists j. split; [done|]. split; [done|]. rewrite <-Hk'. rewrite <-surjective_pairing in Heq. injection Heq as Heq _.
    apply (f_equal MVCCKey.key) in Heq. rewrite !key_build in Heq. by injection Heq. }
  destruct (ObjVertex.is_vertex_of p 0 (v_key w)) eqn:Hvx.
  2: { exists ids. split; [done|]. split; [|done]. split; [|done]. intros v i Hv Hi Hvk.
       destruct (Hsame v i Hv Hi Hvk) as (j & _ & _ & Hkw). by rewrite Hkw, object_is_vertex in Hvx. }
  destruct (decode_vertex _ Hvx) as [o Ho]. rewrite Ho. cbn [mbind exec_bind].
  destruct (Z.eqb_spec (ov_type_id o) t) as [Heq|Hne].
  - eexists. split; [done|]. split; [split|].
    + intros v i Hv Hi Hvk. destruct (Hsame v i Hv Hi Hvk) as (j & Hj & Hij & Hkw).
      rewrite Hkw, object_decodes in Ho by done. injection Ho as <-. cbn [ov_object_id]. unfold counter.
      rewrite lookup_insert_eq. cbn. rewrite u64_id by (unfold is_u64, u64_max in *; lia). lia.
    + unfold counter. rewrite lookup_insert_eq. apply u64_range.
    + intros t' Ht'. unfold counter. by rewrite lookup_insert_ne.
  - exists ids. split; [done|]. split; [|done]. split; [|done]. intros v i Hv Hi Hvk.
    destruct (Hsame v i Hv Hi Hvk) as (j & Hj & _ & Hkw). rewrite Hkw, object_decodes in Ho by done.
    injection Ho as <-. by cbn in Hne.
Qed.
Lemma load_types_spec types ids :
  Forall is_u16 types → (∀ t, is_u64 (counter t ids)) →
  ∃ ids', Generator.load_types p st types ids = Val ids' ∧ (∀ t, t ∈ types → above_stored t ids') ∧
    (∀ t, is_u64 (counter t ids')) ∧ ∀ t, (t ∉ types) → counter t ids' = counter t ids.
Proof.
  intros Ht. revert ids. induction Ht as [|t types Ht _ IH]; intros ids Hids.
  { exists ids. split; [done|]. split; [|done]. intros t Hin. by apply not_elem_of_nil in Hin. }
  destruct (load_type_spec t ids Ht (Hids t)) as (ids1 & Hl & [Ha Hu] & Hother).
  destruct (IH ids1) as (ids2 & Hl2 & Ha2 & Hu2 & Hother2).
  { intros t'. destruct (decide (t' = t)) as [->|Hne]; [done|]. by rewrite Hother. }
  exists ids2. cbn [Generator.load_types]. rewrite Hl. cbn [mbind exec_bind]. split; [done|]. split; [|split; [done|]].
  - intros t' [->|Hin]%elem_of_cons; [|by apply Ha2]. destruct (decide (t ∈ types)) as [Hin|Hout]; [by apply Ha2|].
    intros v i Hv Hi Hk. rewrite (Hother2 t Hout). by apply (Ha v).
  - intros t' [Hne Hout]%not_elem_of_cons. by rewrite (Hother2 t' Hout), Hother.
Qed.
End load_objects.

Lemma collected_types fuel n it types : Generator.collect_types n fuel it = Val types → Forall is_u16 types.
Proof.
  revert it types. induction n as [|n IH]; [done|]. intros it types. cbn [Generator.collect_types].
  destruct (SnapIter.next _ it) as [[x it']|?|]; cbn [lift mbind exec_bind]; [|done|done].
  destruct x as [[[key ?]|?]|]; [|done|by intros [= <-]].
  destruct (TypeVertex.decode key.2) as [v|?|]; cbn [lift mbind exec_bind]; [|done|done].
  destruct (Generator.collect_types n fuel it') as [ts|?|] eqn:Hts; cbn [mbind exec_bind]; [|done|done].
  intros [= <-]. constructor; [|by apply (IH it')]. unfold TypeVertex.type_id_, is_u16.
  change 65535 with (Z.ones 16). rewrite Z.land_ones by done. apply Z.mod_pos_bound. done.
Qed.
Lemma listed_types fuel p s types : Generator.types_of fuel p s = Val types → Forall is_u16 types.
Proof.
  unfold Generator.types_of. destruct (TypeVertex.build_type_vertex_prefix_key p) as [k key].
  destruct (Generator.read_iterate_range _ _ s) as [it|?|]; cbn [lift mbind exec_bind]; [apply collected_types|done|done].
Qed.

(** Loading a database succeeds once its types can be listed, and gives a
    generator whose next entity and relation of every listed type have keys
    that no version in the storage has, deleted objects included: ids are not
    reused across restarts. *)
Lemma loaded_ids_are_fresh {D} fuel (st : Storage D) b vs rs entity_types relation_types hasher :
  backend_of (EncodingKeyspaces.id ObjVertex.KEYSPACE) (st_keyspaces st) = Some b →
  mb_data b = raw <$> vs → mb_poisoned b = false → objects_ok VertexEntity vs → objects_ok VertexRelation vs →
  Engine.open_snapshot_read st = Val rs →
  Generator.types_of fuel VertexEntityType rs = Val entity_types →
  Generator.types_of fuel VertexRelationType rs = Val relation_types →
  ∃ g, Generator.load_with_hasher fuel st hasher = Val g ∧
    (∀ t s vertex s' g' v, t ∈ entity_types → Generator.create_entity t s g = Val (vertex, s', g') →
       v ∈ vs → v_key v ≠ ObjVertex.to_bytes vertex) ∧
    (∀ t s vertex s' g' v, t ∈ relation_types → Generator.create_relation t s g = Val (vertex, s', g') →
       v ∈ vs → v_key v ≠ ObjVertex.to_bytes vertex).
Proof.
  intros Hb Hd Hpo He Hr Hopen Hets Hrts.
  assert (Hempty : ∀ t, is_u64 (counter t ∅)).
  { intros t. unfold counter. rewrite lookup_empty. unfold is_u64. cbn. lia. }
  destruct (load_types_spec VertexEntity vs (or_introl eq_refl) He st b Hb Hd Hpo entity_types ∅
    (listed_types _ _ _ _ Hets) Hempty) as (eids & Hle & Hae & Hue & _).
  destruct (load_types_spec VertexRelation vs (or_intror eq_refl) Hr st b Hb Hd Hpo relation_types ∅
    (listed_types _ _ _ _ Hrts) Hempty) as (rids & Hlr & Har & Hur & _).
  exists (mk_ThingVertexGenerator eids rids hasher). unfold Generator.load_with_hasher.
  rewrite Hopen. cbn [map_err mbind exec_bind]. rewrite Hets. cbn [map_err mbind exec_bind]. rewrite Hrts.
  cbn [map_err mbind exec_bind]. rewrite Hle. cbn [lift mbind exec_bind]. rewrite Hlr. cbn [lift mbind exec_bind].
  split; [done|]. unfold Generator.create_entity, Generator.create_relation. cbn [vg_entity_ids vg_relation_ids].
  split; intros t s vertex s' g' v Hin Hcr Hv Hk.
  - destruct (Snap.insert_val _ _ s) as [s1|?|]; [|done|done]. injection Hcr as <- _ _.
    pose proof (Hae t Hin v _ Hv (Hue t) Hk). lia.
  - destruct (Snap.insert_val _ _ s) as [s1|?|]; [|done|done]. injection Hcr as <- _ _.
    pose proof (Har t Hin v _ Hv (Hur t) Hk). lia.
Qed.

(** A database with the entity type 1 and its entity 4, whose deletion is also
    stored. *)
Definition loaded_versions : list Version :=
  [mk_Version [Prefixes.prefix_id VertexEntityType; 0; 1] 1 OpInsert [];
   mk_Version (ObjVertex.to_bytes (ObjVertex.build_entity 1 4)) 3 OpDelete [];
   mk_Version (ObjVertex.to_bytes (ObjVertex.build_entity 1 4)) 2 OpInsert []].
Definition loaded_storage : Storage NoopDurabilityClient :=
  mk_Storage (one_keyspace (mk_MemoryBackend (raw <$> loaded_versions) false [])) Noop.new (Iso.new 4).
Lemma loaded_ok p : p = VertexEntity ∨ p = VertexRelation → objects_ok p loaded_versions.
Proof.
  intros Hp. unfold loaded_versions. split; [split|..].
  - repeat constructor; vm_compute; reflexivity.
  - repeat (apply Forall_cons_2; [split; [apply (bool_decide_unpack _); vm_compute; exact I|simpl; lia]|]). apply Forall_nil_2.
  - intros a b. rewrite !elem_of_cons, !elem_of_nil. naive_solver.
  - intros a b c t. rewrite !elem_of_cons, !elem_of_nil. naive_solver.
  - intros v. rewrite !elem_of_cons, !elem_of_nil. destruct Hp as [-> | ->]; naive_solver.
  - intros v. rewrite !elem_of_cons, !elem_of_nil. destruct Hp as [-> | ->]; naive_solver.
  - intros v t. rewrite !elem_of_cons, !elem_of_nil. intros Hv _. destruct Hp as [-> | ->]; naive_solver.
Qed.
Lemma loaded_ids_are_fresh_witness :
  ∃ g, Generator.load_with_hasher 9 loaded_storage (λ _, 0) = Val g ∧
    ∀ s vertex s' g' v, Generator.create_entity 1 s g = Val (vertex, s', g') → v ∈ loaded_versions →
      v_key v ≠ ObjVertex.to_bytes vertex.
Proof.
  destruct (loaded_ids_are_fresh 9 loaded_storage (mk_MemoryBackend (raw <$> loaded_versions) false []) loaded_versions
    (mk_ReadSnapshot 3 (st_keyspaces loaded_storage)) [1] [] (λ _, 0)) as (g & Hg & Hfresh & _).
  - reflexivity.
  - reflexivity.
  - reflexivity.
  - apply loaded_ok; by left.
  - apply loaded_ok; by right.
  - reflexivity.
  - vm_compute. reflexivity.
  - vm_compute. reflexivity.
  - exists g. split; [exact Hg|]. intros s vertex s' g' v. apply Hfresh. by left.
Defined.
