(* ===== verification/Edges.v ===== *)
(** * Edges between things: [encoding/graph/thing/edge.rs]

    An edge is stored as a key whose parts are the vertices it connects, once in
    each direction: ownership of attributes ([ThingEdgeHas] and
    [ThingEdgeHasReverse]), the players of relations ([ThingEdgeLinks], both
    directions), and the index of pairs of players
    ([ThingEdgeIndexedRelation]).  Edges are found by scanning a prefix of their
    keys, so a prefix must select exactly the edges with the given parts, and
    keys must sort like the edges. *)
From stdpp Require Import strings gmap.
From S2P Require Import Prelude BTree Bytes MemoryStore Buffer LendingIter Mvcc Keyspaces Snapshot Layout Values Structs Attributes Things.
Import KeyRangeOps.

(** [write_prefix_type] of [ThingVertex]. *)
Definition write_prefix_type (prefix : Prefix) (type_id : Z) : bytes :=
  Prefixes.prefix_id prefix :: TypeID.to_bytes type_id.
(** [write_prefix_from_type_vertex]. *)
Definition write_prefix_from_type_vertex (type_vertex : Z) : outcome bytes :=
  p ← TypeVertex.prefix type_vertex;
  p ← ObjVertex.prefix_for_type p;
  Val (write_prefix_type p (TypeVertex.type_id_ type_vertex)).

(** ** Orders of the vertices, as derived *)
Definition then_with (a b : comparison) : comparison := match a with Eq => b | o => o end.
Definition object_cmp (a b : ObjectVertex) : comparison :=
  then_with (Prefixes.prefix_id (ov_prefix a) ?= Prefixes.prefix_id (ov_prefix b))
    (then_with (ov_type_id a ?= ov_type_id b) (ov_object_id a ?= ov_object_id b)).
(** The position of an id in the enumeration. *)
Definition variant (id : AttributeID) : Z :=
  match id with
  | IdBoolean _ => 0 | IdInteger _ => 1 | IdDouble _ => 2 | IdDecimal _ => 3 | IdDate _ => 4
  | IdDateTime _ => 5 | IdDateTimeTZ _ => 6 | IdDuration _ => 7 | IdString _ => 8 | IdStruct _ => 9
  end.
Definition attribute_id_cmp (a b : AttributeID) : comparison :=
  then_with (variant a ?= variant b) (cmp (AttrID.bytes_ref a) (AttrID.bytes_ref b)).
Definition attribute_cmp (a b : AttributeVertex) : comparison :=
  then_with (av_type_id a ?= av_type_id b) (attribute_id_cmp (av_attribute_id a) (av_attribute_id b)).

(** ** Ownership: from the owner *)
Record ThingEdgeHas := mk_ThingEdgeHas { h_owner : ObjectVertex; h_attribute : AttributeVertex }.

Module EdgeHas.
Definition KEYSPACE : EncodingKeyspace := OptimisedPrefix15.
Definition PREFIX : Prefix := EdgeHas.
Definition FIXED_WIDTH_ENCODING : bool := Prefixes.fixed_width_keys PREFIX.
Definition decode (bs : bytes) : outcome ThingEdgeHas :=
  owner ← slice 1 (1 + ObjVertex.LENGTH) bs;
  owner ← ObjVertex.decode owner;
  attribute ← slice (1 + ObjVertex.LENGTH) (length bs) bs;
  attribute ← AttrVertex.decode attribute;
  Val (mk_ThingEdgeHas owner attribute).
Definition prefix_from_type (type_ : Z) : outcome (EncodingKeyspace * bytes) :=
  from ← write_prefix_from_type_vertex type_; Val (KEYSPACE, Prefixes.prefix_id PREFIX :: from).
Definition prefix_from_type_parts (type_prefix : Prefix) (type_id : Z) : outcome (EncodingKeyspace * bytes) :=
  p ← ObjVertex.prefix_for_type type_prefix;
  Val (KEYSPACE, Prefixes.prefix_id PREFIX :: write_prefix_type p type_id).
Definition prefix_from_object (from : ObjectVertex) : EncodingKeyspace * bytes :=
  (KEYSPACE, Prefixes.prefix_id PREFIX :: ObjVertex.to_bytes from).
Definition prefix_from_object_to_type (from : ObjectVertex) (to_type_id : Z) : EncodingKeyspace * bytes :=
  (KEYSPACE, Prefixes.prefix_id PREFIX :: ObjVertex.to_bytes from ++ write_prefix_type VertexAttribute to_type_id).
Definition prefix_from_object_to_type_with_attribute_prefix (from : ObjectVertex) (attribute_vertex_prefix : bytes)
  : EncodingKeyspace * bytes :=
  (KEYSPACE, Prefixes.prefix_id PREFIX :: ObjVertex.to_bytes from ++ attribute_vertex_prefix).
Definition prefix : EncodingKeyspace * bytes := (KEYSPACE, [Prefixes.prefix_id PREFIX]).
Definition is_has (keyspace_id : Z) (bs : bytes) : bool :=
  (keyspace_id =? EncodingKeyspaces.id KEYSPACE) &&
  match bs with b :: _ => b =? Prefixes.prefix_id PREFIX | [] => false end.
Definition to_bytes (e : ThingEdgeHas) : bytes :=
  Prefixes.prefix_id PREFIX :: ObjVertex.to_bytes (h_owner e) ++ AttrVertex.to_bytes (h_attribute e).
Definition into_storage_key (e : ThingEdgeHas) : Z * bytes := (EncodingKeyspaces.id KEYSPACE, to_bytes e).
Definition compare (a b : ThingEdgeHas) : comparison :=
  then_with (object_cmp (h_owner a) (h_owner b)) (attribute_cmp (h_attribute a) (h_attribute b)).
End EdgeHas.

(** ** Ownership: from the attribute *)
Record ThingEdgeHasReverse := mk_ThingEdgeHasReverse { hr_attribute : AttributeVertex; hr_owner : ObjectVertex }.

Module EdgeHasReverse.
Definition PREFIX : Prefix := EdgeHasReverse.
Definition FIXED_WIDTH_ENCODING : bool := Prefixes.fixed_width_keys PREFIX.
Definition INDEX_FROM_VALUE_PREFIX : nat := (1 + THING_VERTEX_LENGTH_PREFIX_TYPE)%nat.
(** The length of the attribute is that of its category. *)
Definition decode (bs : bytes) : outcome ThingEdgeHasReverse :=
  c ← unwrap (bs !! INDEX_FROM_VALUE_PREFIX);
  category ← Category.from_bytes [c];
  let attribute_len := (1 + TypeID.LENGTH + AttrID.value_type_encoding_length category)%nat in
  attribute ← slice 1 (attribute_len + 1) bs;
  attribute ← AttrVertex.decode attribute;
  owner ← slice (attribute_len + 1) (length bs) bs;
  owner ← ObjVertex.decode owner;
  Val (mk_ThingEdgeHasReverse attribute owner).
Definition keyspace_for_is_short (is_short_attribute : bool) : EncodingKeyspace :=
  if is_short_attribute then OptimisedPrefix16 else OptimisedPrefix25.
Definition keyspace (e : ThingEdgeHasReverse) : EncodingKeyspace :=
  keyspace_for_is_short (AttrVertex.is_short_encoding (hr_attribute e)).
Definition prefix_from_prefix (from_prefix : Prefix) (k : EncodingKeyspace) : EncodingKeyspace * bytes :=
  (k, [Prefixes.prefix_id PREFIX; Prefixes.prefix_id from_prefix]).
Definition prefix_from_prefix_short (from_prefix : Prefix) : EncodingKeyspace * bytes :=
  prefix_from_prefix from_prefix (keyspace_for_is_short true).
Definition prefix_from_prefix_long (from_prefix : Prefix) : EncodingKeyspace * bytes :=
  prefix_from_prefix from_prefix (keyspace_for_is_short false).
Definition prefix_from_attribute_type (category : ValueTypeCategory) (from_type_id : Z) : EncodingKeyspace * bytes :=
  (keyspace_for_is_short (AttrVertex.is_category_short_encoding category),
   Prefixes.prefix_id PREFIX :: Prefixes.prefix_id VertexAttribute :: TypeID.to_bytes from_type_id).
Definition prefix_from_attribute_vertex_prefix (category : ValueTypeCategory) (attribute_vertex_prefix : bytes)
  : EncodingKeyspace * bytes :=
  (keyspace_for_is_short (AttrVertex.is_category_short_encoding category),
   Prefixes.prefix_id PREFIX :: attribute_vertex_prefix).
Definition prefix_from_attribute (from : AttributeVertex) : EncodingKeyspace * bytes :=
  (keyspace_for_is_short (AttrVertex.is_short_encoding from), Prefixes.prefix_id PREFIX :: AttrVertex.to_bytes from).
Definition prefix_from_attribute_to_type_parts (from : AttributeVertex) (to_type_prefix : Prefix) (to_type_id : Z)
  : outcome (EncodingKeyspace * bytes) :=
  p ← ObjVertex.prefix_for_type to_type_prefix;
  Val (keyspace_for_is_short (AttrVertex.is_short_encoding from),
       Prefixes.prefix_id PREFIX :: AttrVertex.to_bytes from ++ write_prefix_type p to_type_id).
Definition prefix_from_attribute_to_type (from : AttributeVertex) (to_type : Z) : outcome (EncodingKeyspace * bytes) :=
  p ← TypeVertex.prefix to_type;
  prefix_from_attribute_to_type_parts from p (TypeVertex.type_id_ to_type).
Definition is_has_reverse (keyspace_id : Z) (bs : bytes) : outcome bool :=
  match bs with
  | b :: _ =>
      if b =? Prefixes.prefix_id PREFIX then
        edge ← decode bs; Val (EncodingKeyspaces.id (keyspace edge) =? keyspace_id)
      else Val false
  | [] => Val false
  end.
Definition to_bytes (e : ThingEdgeHasReverse) : bytes :=
  Prefixes.prefix_id PREFIX :: AttrVertex.to_bytes (hr_attribute e) ++ ObjVertex.to_bytes (hr_owner e).
Definition into_storage_key (e : ThingEdgeHasReverse) : Z * bytes := (EncodingKeyspaces.id (keyspace e), to_bytes e).
Definition compare (a b : ThingEdgeHasReverse) : comparison :=
  then_with (attribute_cmp (hr_attribute a) (hr_attribute b)) (object_cmp (hr_owner a) (hr_owner b)).
End EdgeHasReverse.

(** ** Players of relations, from the relation or from the player *)
Record ThingEdgeLinks := mk_ThingEdgeLinks {
  l_relation : ObjectVertex;
  l_player : ObjectVertex;
  l_role_id : Z;
  l_is_reverse : bool;
}.

Module EdgeLinks.
Definition KEYSPACE : EncodingKeyspace := OptimisedPrefix15.
Definition PREFIX : Prefix := EdgeLinks.
Definition PREFIX_REVERSE : Prefix := EdgeLinksReverse.
Definition FIXED_WIDTH_ENCODING : bool := Prefixes.fixed_width_keys PREFIX.
Definition FIXED_WIDTH_ENCODING_REVERSE : bool := Prefixes.fixed_width_keys PREFIX_REVERSE.
Definition LENGTH_PREFIX_FROM : nat := (1 + ObjVertex.LENGTH)%nat.
Definition LENGTH_PREFIX_FROM_TO : nat := (1 + ObjVertex.LENGTH + ObjVertex.LENGTH)%nat.
Definition LENGTH : nat := (1 + 2 * ObjVertex.LENGTH + TypeID.LENGTH)%nat.
(** The prefix says which of the two vertices is the relation. *)
Definition decode (bs : bytes) : outcome ThingEdgeLinks :=
  b ← unwrap (bs !! 0%nat);
  p ← Prefixes.from_prefix_id b;
  match p with
  | EdgeLinks | EdgeLinksReverse =>
      from ← slice 1 LENGTH_PREFIX_FROM bs;
      from ← ObjVertex.decode from;
      to ← slice LENGTH_PREFIX_FROM LENGTH_PREFIX_FROM_TO bs;
      to ← ObjVertex.decode to;
      role_id ← slice LENGTH_PREFIX_FROM_TO LENGTH bs;
      let role_id := TypeID.decode role_id in
      if decide (p = PREFIX) then Val (mk_ThingEdgeLinks from to role_id false)
      else Val (mk_ThingEdgeLinks to from role_id true)
  | _ => Panic
  end.
Definition new (relation player : ObjectVertex) (role : Z) : ThingEdgeLinks :=
  mk_ThingEdgeLinks relation player (TypeVertex.type_id_ role) false.
Definition new_reverse (player relation : ObjectVertex) (role : Z) : ThingEdgeLinks :=
  mk_ThingEdgeLinks relation player (TypeVertex.type_id_ role) true.
Definition prefix_from_relation_type (relation_type_id : Z) : outcome (EncodingKeyspace * bytes) :=
  p ← ObjVertex.prefix_for_type VertexRelationType;
  Val (KEYSPACE, Prefixes.prefix_id PREFIX :: write_prefix_type p relation_type_id).
Definition prefix_from_relation (relation : ObjectVertex) : EncodingKeyspace * bytes :=
  (KEYSPACE, Prefixes.prefix_id PREFIX :: ObjVertex.to_bytes relation).
Definition prefix_from_relation_player_type_parts (relation : ObjectVertex) (player_type_prefix : Prefix)
    (player_type_id : Z) : outcome (EncodingKeyspace * bytes) :=
  p ← ObjVertex.prefix_for_type player_type_prefix;
  Val (KEYSPACE, Prefixes.prefix_id PREFIX :: ObjVertex.to_bytes relation ++ write_prefix_type p player_type_id).
Definition prefix_from_relation_player_type (relation : ObjectVertex) (player_type : Z)
  : outcome (EncodingKeyspace * bytes) :=
  p ← TypeVertex.prefix player_type;
  prefix_from_relation_player_type_parts relation p (TypeVertex.type_id_ player_type).
Definition prefix_from_relation_player (relation player : ObjectVertex) : EncodingKeyspace * bytes :=
  (KEYSPACE, Prefixes.prefix_id PREFIX :: ObjVertex.to_bytes relation ++ ObjVertex.to_bytes player).
Definition prefix_reverse_from_player (player : ObjectVertex) : EncodingKeyspace * bytes :=
  (KEYSPACE, Prefixes.prefix_id PREFIX_REVERSE :: ObjVertex.to_bytes player).
Definition prefix_reverse_from_player_type (player_type_prefix : Prefix) (player_type_id : Z)
  : outcome (EncodingKeyspace * bytes) :=
  p ← ObjVertex.prefix_for_type player_type_prefix;
  Val (KEYSPACE, Prefixes.prefix_id PREFIX_REVERSE :: write_prefix_type p player_type_id).
Definition prefix_reverse_from_player_relation_type (player : ObjectVertex) (relation_type_id : Z)
  : outcome (EncodingKeyspace * bytes) :=
  p ← ObjVertex.prefix_for_type VertexRelationType;
  Val (KEYSPACE, Prefixes.prefix_id PREFIX_REVERSE :: ObjVertex.to_bytes player ++ write_prefix_type p relation_type_id).
Definition prefix_reverse_from_player_relation (player relation : ObjectVertex) : EncodingKeyspace * bytes :=
  (KEYSPACE, Prefixes.prefix_id PREFIX_REVERSE :: ObjVertex.to_bytes player ++ ObjVertex.to_bytes relation).
Definition prefix : EncodingKeyspace * bytes := (KEYSPACE, [Prefixes.prefix_id PREFIX]).
Definition prefix_reverse : EncodingKeyspace * bytes := (KEYSPACE, [Prefixes.prefix_id PREFIX_REVERSE]).
Definition is_links_with (p : Prefix) (keyspace_id : Z) (bs : bytes) : bool :=
  (keyspace_id =? EncodingKeyspaces.id KEYSPACE) && (length bs =? LENGTH)%nat &&
  match bs with b :: _ => b =? Prefixes.prefix_id p | [] => false end.
Definition is_links : Z → bytes → bool := is_links_with PREFIX.
Definition is_links_reverse : Z → bytes → bool := is_links_with PREFIX_REVERSE.
Definition from (e : ThingEdgeLinks) : ObjectVertex := if l_is_reverse e then l_player e else l_relation e.
Definition to (e : ThingEdgeLinks) : ObjectVertex := if l_is_reverse e then l_relation e else l_player e.
Definition to_bytes (e : ThingEdgeLinks) : bytes :=
  if l_is_reverse e then
    Prefixes.prefix_id PREFIX_REVERSE :: ObjVertex.to_bytes (l_player e) ++ ObjVertex.to_bytes (l_relation e) ++
      TypeID.to_bytes (l_role_id e)
  else
    Prefixes.prefix_id PREFIX :: ObjVertex.to_bytes (l_relation e) ++ ObjVertex.to_bytes (l_player e) ++
      TypeID.to_bytes (l_role_id e).
Definition into_storage_key (e : ThingEdgeLinks) : Z * bytes := (EncodingKeyspaces.id KEYSPACE, to_bytes e).
(** [bool::cmp]. *)
Definition bool_cmp (a b : bool) : comparison :=
  match a, b with false, true => Lt | true, false => Gt | _, _ => Eq end.
Definition compare (a b : ThingEdgeLinks) : comparison :=
  if xorb (l_is_reverse a) (l_is_reverse b) then bool_cmp (l_is_reverse b) (l_is_reverse a)
  else if l_is_reverse a then
    then_with (object_cmp (l_player a) (l_player b))
      (then_with (object_cmp (l_relation a) (l_relation b)) (l_role_id a ?= l_role_id b))
  else
    then_with (object_cmp (l_relation a) (l_relation b))
      (then_with (object_cmp (l_player a) (l_player b)) (l_role_id a ?= l_role_id b)).
End EdgeLinks.

(** ** The index of pairs of players of a relation *)
Record ThingEdgeIndexedRelation := mk_ThingEdgeIndexedRelation {
  ix_player_from : ObjectVertex;
  ix_player_to : ObjectVertex;
  ix_relation_type_id : Z;
  ix_relation_id : Z;
  ix_role_id_from : Z;
  ix_role_id_to : Z;
}.

Module EdgeIndex.
Definition KEYSPACE : EncodingKeyspace := OptimisedPrefix17.
Definition PREFIX : Prefix := EdgeLinksIndex.
Definition FIXED_WIDTH_ENCODING : bool := Prefixes.fixed_width_keys PREFIX.
Definition END_RELATION_TYPE_ID : nat := (1 + TypeID.LENGTH)%nat.
Definition END_START : nat := (END_RELATION_TYPE_ID + ObjVertex.LENGTH)%nat.
Definition END_END : nat := (END_START + ObjVertex.LENGTH)%nat.
Definition END_RELATION_ID : nat := (END_END + 8)%nat.
Definition END_START_ROLE : nat := (END_RELATION_ID + TypeID.LENGTH)%nat.
Definition LENGTH : nat := (END_START_ROLE + TypeID.LENGTH)%nat.
Definition new (player_from player_to relation : ObjectVertex) (role_id_from role_id_to : Z)
  : ThingEdgeIndexedRelation :=
  mk_ThingEdgeIndexedRelation player_from player_to (ov_type_id relation) (ov_object_id relation) role_id_from role_id_to.
Definition into_reverse (e : ThingEdgeIndexedRelation) : ThingEdgeIndexedRelation :=
  mk_ThingEdgeIndexedRelation (ix_player_to e) (ix_player_from e) (ix_relation_type_id e) (ix_relation_id e)
    (ix_role_id_to e) (ix_role_id_from e).
Definition decode (bs : bytes) : outcome ThingEdgeIndexedRelation :=
  player_from ← slice END_RELATION_TYPE_ID END_START bs;
  player_from ← ObjVertex.decode player_from;
  player_to ← slice END_START END_END bs;
  player_to ← ObjVertex.decode player_to;
  role_id_from ← slice END_RELATION_ID END_START_ROLE bs;
  role_id_to ← slice END_START_ROLE LENGTH bs;
  relation_type_id ← slice 1 END_RELATION_TYPE_ID bs;
  relation_id ← slice END_END END_RELATION_ID bs;
  Val (mk_ThingEdgeIndexedRelation player_from player_to (TypeID.decode relation_type_id) (be_value relation_id)
         (TypeID.decode role_id_from) (TypeID.decode role_id_to)).
Definition prefix_relation_type (relation_id : Z) : EncodingKeyspace * bytes :=
  (KEYSPACE, Prefixes.prefix_id PREFIX :: TypeID.to_bytes relation_id).
Definition prefix_relation_type_start_type (relation_id start_instance_type : Z) : outcome (EncodingKeyspace * bytes) :=
  start ← write_prefix_from_type_vertex start_instance_type;
  Val (KEYSPACE, Prefixes.prefix_id PREFIX :: TypeID.to_bytes relation_id ++ start).
Definition prefix_start (relation_id : Z) (start : ObjectVertex) : EncodingKeyspace * bytes :=
  (KEYSPACE, Prefixes.prefix_id PREFIX :: TypeID.to_bytes relation_id ++ ObjVertex.to_bytes start).
Definition prefix_start_end (relation_id : Z) (start end_ : ObjectVertex) : EncodingKeyspace * bytes :=
  (KEYSPACE, Prefixes.prefix_id PREFIX :: TypeID.to_bytes relation_id ++ ObjVertex.to_bytes start ++
               ObjVertex.to_bytes end_).
Definition prefix_start_end_relation (start end_ relation : ObjectVertex) : EncodingKeyspace * bytes :=
  (KEYSPACE, Prefixes.prefix_id PREFIX :: TypeID.to_bytes (ov_type_id relation) ++ ObjVertex.to_bytes start ++
               ObjVertex.to_bytes end_ ++ be_bytes 8 (ov_object_id relation)).
Definition prefix_start_end_relation_startrole (start end_ relation : ObjectVertex) (start_role : Z)
  : EncodingKeyspace * bytes :=
  (KEYSPACE, Prefixes.prefix_id PREFIX :: TypeID.to_bytes (ov_type_id relation) ++ ObjVertex.to_bytes start ++
               ObjVertex.to_bytes end_ ++ be_bytes 8 (ov_object_id relation) ++
               TypeID.to_bytes (TypeVertex.type_id_ start_role)).
Definition is_index (keyspace_id : Z) (bs : bytes) : bool :=
  (keyspace_id =? EncodingKeyspaces.id KEYSPACE) && (length bs =? LENGTH)%nat &&
  match bs with b :: _ => b =? Prefixes.prefix_id PREFIX | [] => false end.
Definition relation (e : ThingEdgeIndexedRelation) : ObjectVertex :=
  ObjVertex.build_relation (ix_relation_type_id e) (ix_relation_id e).
Definition to_bytes (e : ThingEdgeIndexedRelation) : bytes :=
  Prefixes.prefix_id PREFIX :: TypeID.to_bytes (ix_relation_type_id e) ++ ObjVertex.to_bytes (ix_player_from e) ++
    ObjVertex.to_bytes (ix_player_to e) ++ be_bytes 8 (ix_relation_id e) ++ TypeID.to_bytes (ix_role_id_from e) ++
    TypeID.to_bytes (ix_role_id_to e).
Definition into_storage_key (e : ThingEdgeIndexedRelation) : Z * bytes := (EncodingKeyspaces.id KEYSPACE, to_bytes e).
End EdgeIndex.

(** ** Well-formed vertices and edges *)
Definition object_ok (v : ObjectVertex) : Prop :=
  (ov_prefix v = VertexEntity ∨ ov_prefix v = VertexRelation) ∧ is_u16 (ov_type_id v) ∧ is_u64 (ov_object_id v).
Definition attribute_ok (v : AttributeVertex) : Prop :=
  is_u16 (av_type_id v) ∧ id_ok (av_attribute_id v) ∧ is_bytes (AttrID.bytes_ref (av_attribute_id v)).
Definition has_ok (e : ThingEdgeHas) : Prop := object_ok (h_owner e) ∧ attribute_ok (h_attribute e).
Definition has_reverse_ok (e : ThingEdgeHasReverse) : Prop := attribute_ok (hr_attribute e) ∧ object_ok (hr_owner e).
Definition links_ok (e : ThingEdgeLinks) : Prop :=
  object_ok (l_relation e) ∧ object_ok (l_player e) ∧ is_u16 (l_role_id e).
Definition index_ok (e : ThingEdgeIndexedRelation) : Prop :=
  object_ok (ix_player_from e) ∧ object_ok (ix_player_to e) ∧ is_u16 (ix_relation_type_id e) ∧
  is_u64 (ix_relation_id e) ∧ is_u16 (ix_role_id_from e) ∧ is_u16 (ix_role_id_to e).

Lemma length_attribute v :
  attribute_ok v → length (AttrVertex.to_bytes v) = (3 + AttrID.length (av_attribute_id v))%nat.
Proof.
  intros (_ & (rest & Hb & Hl) & _). unfold AttrVertex.to_bytes. cbn [length]. rewrite length_app, length_type_id, Hb.
  rewrite length_app, length_category, Hl. reflexivity.
Qed.
Lemma attribute_is_bytes v : attribute_ok v → is_bytes (AttrVertex.to_bytes v).
Proof.
  intros (_ & _ & Hb). constructor; [apply prefix_id_byte|]. by apply Forall_app_2; [apply be_bytes_is_bytes|].
Qed.
Lemma type_id_decodes t : is_u16 t → TypeID.decode (TypeID.to_bytes t) = t.
Proof.
  intros Ht. unfold TypeID.decode, TypeID.to_bytes. apply be_bytes_value.
  change (256 ^ Z.of_nat TypeID.LENGTH) with (2 ^ 16). exact Ht.
Qed.
Lemma object_id_decodes i : is_u64 i → be_value (be_bytes 8 i) = i.
Proof. exact (be_bytes_value 8 i). Qed.

(** Keys written as parts of known lengths: the part at an offset. *)
Ltac key_len := rewrite ?length_app; cbn [length]; rewrite ?length_type_id, ?length_object, ?length_be_bytes; reflexivity.

(** ** Decoding *)
Lemma has_decodes e : has_ok e → EdgeHas.decode (EdgeHas.to_bytes e) = Val e.
Proof.
  intros [(_ & Hot & Hoi) (Hat & Hid & _)]. destruct e as [o a]. cbn [h_owner h_attribute] in *.
  unfold EdgeHas.decode, EdgeHas.to_bytes. cbn [h_owner h_attribute]. set (p := Prefixes.prefix_id EdgeHas.PREFIX).
  change (p :: ObjVertex.to_bytes o ++ AttrVertex.to_bytes a) with ([p] ++ ObjVertex.to_bytes o ++ AttrVertex.to_bytes a).
  rewrite (slice_at [p] _ _ 1 (1 + ObjVertex.LENGTH)) by key_len. cbn [mbind exec_bind]. rewrite object_decodes by done. cbn [mbind exec_bind].
  rewrite app_assoc, slice_rest by (rewrite ?length_app, ?length_object; reflexivity). cbn [mbind exec_bind].
  by rewrite attribute_vertex_decodes.
Qed.
(** The key of an attribute: prefix, type, category and a rest whose length the
    category gives. *)
Lemma attribute_parts v :
  id_ok (av_attribute_id v) → ∃ c rest,
    AttrVertex.to_bytes v = Prefixes.prefix_id VertexAttribute :: TypeID.to_bytes (av_type_id v) ++ c :: rest ∧
    AttrID.bytes_ref (av_attribute_id v) = c :: rest ∧
    Category.to_bytes (AttrID.value_type_category (av_attribute_id v)) = [c] ∧
    S (length rest) = AttrID.length (av_attribute_id v).
Proof.
  intros (rest & Hb & Hl). unfold AttrVertex.to_bytes. rewrite Hb.
  pose proof (length_category (AttrID.value_type_category (av_attribute_id v))) as Hc.
  destruct (Category.to_bytes _) as [|c [|]]; simpl in Hc; try lia. exists c, rest. split; [done|]. split; [done|].
  split; [done|]. rewrite Hl. reflexivity.
Qed.
Lemma has_reverse_decodes e : has_reverse_ok e → EdgeHasReverse.decode (EdgeHasReverse.to_bytes e) = Val e.
Proof.
  intros [Ha (_ & Hot & Hoi)]. pose proof (length_attribute _ Ha) as Hl. destruct Ha as (Hat & Hid & _).
  destruct e as [a o]. cbn [hr_owner hr_attribute] in *.
  unfold EdgeHasReverse.decode, EdgeHasReverse.to_bytes. cbn [hr_owner hr_attribute].
  set (p := Prefixes.prefix_id EdgeHasReverse.PREFIX).
  destruct (attribute_parts a Hid) as (c & rest & Hb & _ & Hcat & _).
  assert (Hc : (p :: AttrVertex.to_bytes a ++ ObjVertex.to_bytes o) !! EdgeHasReverse.INDEX_FROM_VALUE_PREFIX = Some c).
  { rewrite Hb. reflexivity. }
  rewrite Hc. cbn [unwrap mbind exec_bind]. rewrite <-Hcat, category_round_trip. cbn [mbind exec_bind].
  change (p :: AttrVertex.to_bytes a ++ ObjVertex.to_bytes o) with ([p] ++ AttrVertex.to_bytes a ++ ObjVertex.to_bytes o).
  set (n := (1 + TypeID.LENGTH + AttrID.value_type_encoding_length _)%nat).
  change (3 + AttrID.length (av_attribute_id a))%nat with n in Hl.
  rewrite (slice_at [p] (AttrVertex.to_bytes a) _ 1 (n + 1)) by (rewrite ?Hl; cbn [length]; clearbody n; lia). cbn [mbind exec_bind].
  rewrite attribute_vertex_decodes by done. cbn [mbind exec_bind].
  rewrite app_assoc, slice_rest by (rewrite ?length_app, ?Hl, ?length_object; cbn [length]; clearbody n; lia). cbn [mbind exec_bind].
  by rewrite object_decodes.
Qed.
Lemma links_decodes e : links_ok e → EdgeLinks.decode (EdgeLinks.to_bytes e) = Val e.
Proof.
  assert (Hp : ∀ p from to role, object_ok from → object_ok to → is_u16 role → p = EdgeLinks ∨ p = EdgeLinksReverse →
    EdgeLinks.decode (Prefixes.prefix_id p :: ObjVertex.to_bytes from ++ ObjVertex.to_bytes to ++ TypeID.to_bytes role) =
    if decide (p = EdgeLinks) then Val (mk_ThingEdgeLinks from to role false) else Val (mk_ThingEdgeLinks to from role true)).
  { intros p from to role (_ & Hft & Hfi) (_ & Htt & Hti) Hr Hp. unfold EdgeLinks.decode.
    cbn [lookup list_lookup unwrap mbind exec_bind]. rewrite prefix_round_trip. cbn [mbind exec_bind].
    set (b := Prefixes.prefix_id p).
    change (b :: ObjVertex.to_bytes from ++ ObjVertex.to_bytes to ++ TypeID.to_bytes role)
      with ([b] ++ ObjVertex.to_bytes from ++ ObjVertex.to_bytes to ++ TypeID.to_bytes role).
    rewrite (slice_at [b] _ _ 1 EdgeLinks.LENGTH_PREFIX_FROM) by key_len. cbn [mbind exec_bind].
    rewrite object_decodes by done. cbn [mbind exec_bind].
    rewrite app_assoc, (slice_at _ _ _ EdgeLinks.LENGTH_PREFIX_FROM EdgeLinks.LENGTH_PREFIX_FROM_TO) by key_len.
    cbn [mbind exec_bind]. rewrite object_decodes by done. cbn [mbind exec_bind].
    rewrite app_assoc, slice_rest by key_len. cbn [mbind exec_bind]. rewrite type_id_decodes by done.
    destruct Hp as [-> | ->]; reflexivity. }
  destruct e as [r p role rev]. intros (Hr & Hpl & Hro). cbn [l_relation l_player l_role_id] in *.
  unfold EdgeLinks.to_bytes. cbn [l_is_reverse l_relation l_player l_role_id].
  destruct rev; rewrite Hp by (unfold EdgeLinks.PREFIX, EdgeLinks.PREFIX_REVERSE; auto); reflexivity.
Qed.
Lemma index_decodes e : index_ok e → EdgeIndex.decode (EdgeIndex.to_bytes e) = Val e.
Proof.
  destruct e as [f t rt ri rf rto]. intros ((_ & Hft & Hfi) & (_ & Htt & Hti) & Hrt & Hri & Hrf & Hrto).
  cbn [ix_player_from ix_player_to ix_relation_type_id ix_relation_id ix_role_id_from ix_role_id_to] in *.
  unfold EdgeIndex.decode, EdgeIndex.to_bytes.
  cbn [ix_player_from ix_player_to ix_relation_type_id ix_relation_id ix_role_id_from ix_role_id_to].
  set (b := Prefixes.prefix_id EdgeIndex.PREFIX).
  set (k := b :: _).
  assert (Hsl : ∀ x y z n m, k = x ++ y ++ z → length x = n → (n + length y)%nat = m → slice n m k = Val y).
  { intros x y z n m ->. apply slice_at. }
  assert (H1 : slice 1 EdgeIndex.END_RELATION_TYPE_ID k = Val (TypeID.to_bytes rt)).
  { apply (Hsl (b :: []) (TypeID.to_bytes rt) (ObjVertex.to_bytes f ++ ObjVertex.to_bytes t ++ be_bytes 8 ri ++ TypeID.to_bytes rf ++ TypeID.to_bytes rto)); [unfold k; by rewrite ?app_nil_r, <-?app_comm_cons, <-?app_assoc|key_len..]. }
  assert (H2 : slice EdgeIndex.END_RELATION_TYPE_ID EdgeIndex.END_START k = Val (ObjVertex.to_bytes f)).
  { apply (Hsl (b :: TypeID.to_bytes rt) (ObjVertex.to_bytes f) (ObjVertex.to_bytes t ++ be_bytes 8 ri ++ TypeID.to_bytes rf ++ TypeID.to_bytes rto)); [unfold k; by rewrite ?app_nil_r, <-?app_comm_cons, <-?app_assoc|key_len..]. }
  assert (H3 : slice EdgeIndex.END_START EdgeIndex.END_END k = Val (ObjVertex.to_bytes t)).
  { apply (Hsl (b :: TypeID.to_bytes rt ++ ObjVertex.to_bytes f) (ObjVertex.to_bytes t) (be_bytes 8 ri ++ TypeID.to_bytes rf ++ TypeID.to_bytes rto)); [unfold k; by rewrite ?app_nil_r, <-?app_comm_cons, <-?app_assoc|key_len..]. }
  assert (H4 : slice EdgeIndex.END_END EdgeIndex.END_RELATION_ID k = Val (be_bytes 8 ri)).
  { apply (Hsl (b :: TypeID.to_bytes rt ++ ObjVertex.to_bytes f ++ ObjVertex.to_bytes t) (be_bytes 8 ri) (TypeID.to_bytes rf ++ TypeID.to_bytes rto)); [unfold k; by rewrite ?app_nil_r, <-?app_comm_cons, <-?app_assoc|key_len..]. }
  assert (H5 : slice EdgeIndex.END_RELATION_ID EdgeIndex.END_START_ROLE k = Val (TypeID.to_bytes rf)).
  { apply (Hsl (b :: TypeID.to_bytes rt ++ ObjVertex.to_bytes f ++ ObjVertex.to_bytes t ++ be_bytes 8 ri) (TypeID.to_bytes rf) (TypeID.to_bytes rto)); [unfold k; by rewrite ?app_nil_r, <-?app_comm_cons, <-?app_assoc|key_len..]. }
  assert (H6 : slice EdgeIndex.END_START_ROLE EdgeIndex.LENGTH k = Val (TypeID.to_bytes rto)).
  { apply (Hsl (b :: TypeID.to_bytes rt ++ ObjVertex.to_bytes f ++ ObjVertex.to_bytes t ++ be_bytes 8 ri ++ TypeID.to_bytes rf) (TypeID.to_bytes rto) []); [unfold k; by rewrite ?app_nil_r, <-?app_comm_cons, <-?app_assoc|key_len..]. }
  rewrite H2. cbn [mbind exec_bind]. rewrite object_decodes by done. cbn [mbind exec_bind]. rewrite H3.
  cbn [mbind exec_bind]. rewrite object_decodes by done. cbn [mbind exec_bind].
  rewrite H5, H6, H1, H4. cbn [mbind exec_bind]. by rewrite !type_id_decodes, object_id_decodes.
Qed.

(** ** Prefixes of keys *)
Lemma prefix_app_len (a b x y : bytes) :
  length a = length b → (a ++ x) `prefix_of` (b ++ y) ↔ a = b ∧ x `prefix_of` y.
Proof.
  intros Hl. split.
  - intros [z Hz]. rewrite <-app_assoc in Hz. apply app_inj_1 in Hz as [-> ->]; [|done]. split; [done|by exists z].
  - intros [-> [z ->]]. exists z. by rewrite app_assoc.
Qed.
Lemma prefix_same (a b y : bytes) : length a = length b → a `prefix_of` (b ++ y) ↔ a = b.
Proof.
  intros Hl. rewrite <-(app_nil_r a) at 1. rewrite prefix_app_len by done. split; [by intros []|].
  intros ->. split; [done|apply prefix_nil].
Qed.
Lemma cons_prefix (c d : Z) (a b : bytes) : (c :: a) `prefix_of` (d :: b) ↔ c = d ∧ a `prefix_of` b.
Proof.
  change ([c] ++ a `prefix_of` [d] ++ b ↔ c = d ∧ a `prefix_of` b). rewrite prefix_app_len by done.
  split; intros [Heq Hp]; (split; [|done]); [by injection Heq|by rewrite Heq].
Qed.
Lemma type_id_inj a b : is_u16 a → is_u16 b → TypeID.to_bytes a = TypeID.to_bytes b ↔ a = b.
Proof. intros Ha Hb. split; [|by intros ->]. intros Heq%(f_equal TypeID.decode). by rewrite !type_id_decodes in Heq. Qed.
Lemma object_id_inj a b : is_u64 a → is_u64 b → be_bytes 8 a = be_bytes 8 b ↔ a = b.
Proof. intros Ha Hb. split; [|by intros ->]. apply (be_bytes_inj 8 a b Ha Hb). Qed.
Lemma object_inj a b : object_ok a → object_ok b → ObjVertex.to_bytes a = ObjVertex.to_bytes b ↔ b = a.
Proof.
  intros (_ & Hat & Hai) (_ & Hbt & Hbi). split; [|by intros ->]. intros Heq%(f_equal ObjVertex.decode).
  rewrite !object_decodes in Heq by done. by injection Heq.
Qed.
Lemma attribute_inj a b : attribute_ok a → attribute_ok b → AttrVertex.to_bytes a = AttrVertex.to_bytes b → a = b.
Proof.
  intros (Hat & Hai & _) (Hbt & Hbi & _) Heq%(f_equal AttrVertex.decode).
  rewrite !attribute_vertex_decodes in Heq by done. by injection Heq.
Qed.
(** The category decides the length of an attribute, so no attribute is a
    prefix of another. *)
Lemma attribute_prefix a b x y :
  attribute_ok a → attribute_ok b →
  (AttrVertex.to_bytes a ++ x) `prefix_of` (AttrVertex.to_bytes b ++ y) ↔ b = a ∧ x `prefix_of` y.
Proof.
  intros Ha Hb. destruct (attribute_parts a) as (c & ra & Ea & _ & Hca & _); [apply Ha|].
  destruct (attribute_parts b) as (d & rb & Eb & _ & Hdb & _); [apply Hb|]. split.
  - intros Hp. assert (Hl : length (AttrVertex.to_bytes a) = length (AttrVertex.to_bytes b)).
    { rewrite !length_attribute by done. rewrite Ea, Eb in Hp. cbn [app] in Hp.
      apply cons_prefix in Hp as [_ Hp]. rewrite <-!app_assoc in Hp. apply prefix_app_len in Hp as [_ Hp];
        [|by rewrite !length_type_id]. cbn [app] in Hp. apply cons_prefix in Hp as [-> _].
      assert (AttrID.value_type_category (av_attribute_id a) = AttrID.value_type_category (av_attribute_id b)) as Hcat.
      { apply (f_equal Category.from_bytes) in Hca, Hdb. rewrite category_round_trip in Hca, Hdb. congruence. }
      unfold AttrID.length. by rewrite Hcat. }
    apply prefix_app_len in Hp as [Heq Hp]; [|done]. split; [|done]. symmetry. by apply attribute_inj.
  - intros [-> Hp]. by apply prefix_app.
Qed.
Lemma object_prefix a b x y :
  object_ok a → object_ok b →
  (ObjVertex.to_bytes a ++ x) `prefix_of` (ObjVertex.to_bytes b ++ y) ↔ b = a ∧ x `prefix_of` y.
Proof. intros Ha Hb. rewrite prefix_app_len by (by rewrite !length_object). by rewrite object_inj. Qed.
Lemma object_type_prefix p t o y :
  is_u16 t → object_ok o →
  write_prefix_type p t `prefix_of` (ObjVertex.to_bytes o ++ y) ↔ ov_prefix o = p ∧ ov_type_id o = t.
Proof.
  intros Ht (_ & Hot & _). unfold write_prefix_type, ObjVertex.to_bytes. cbn [app]. rewrite cons_prefix, <-app_assoc.
  rewrite prefix_same by (by rewrite !length_type_id). rewrite type_id_inj by done. split.
  - intros [Hp ->]. split; [|done]. symmetry. by apply prefix_id_inj.
  - by intros [-> ->].
Qed.
Lemma attribute_type_prefix t a y :
  is_u16 t → attribute_ok a →
  write_prefix_type VertexAttribute t `prefix_of` (AttrVertex.to_bytes a ++ y) ↔ av_type_id a = t.
Proof.
  intros Ht (Hat & _). unfold write_prefix_type, AttrVertex.to_bytes. cbn [app]. rewrite cons_prefix, <-app_assoc.
  rewrite prefix_same by (by rewrite !length_type_id). rewrite type_id_inj by done. split; [by intros [_ ->]|by intros ->].
Qed.

(** The type of objects that a type vertex prefix stands for. *)
Definition instances_of (type_prefix p : Prefix) : Prop := ObjVertex.prefix_for_type type_prefix = Val (E:=Empty_set) p.

Lemma has_prefixes e o t :
  has_ok e → object_ok o → is_u16 t →
  ((EdgeHas.prefix_from_object o).2 `prefix_of` EdgeHas.to_bytes e ↔ h_owner e = o) ∧
  ((EdgeHas.prefix_from_object_to_type o t).2 `prefix_of` EdgeHas.to_bytes e ↔
     h_owner e = o ∧ av_type_id (h_attribute e) = t).
Proof.
  intros [Ho Ha] Hoo Ht. unfold EdgeHas.prefix_from_object, EdgeHas.prefix_from_object_to_type, EdgeHas.to_bytes.
  cbn [snd]. rewrite !cons_prefix. rewrite prefix_same by (by rewrite !length_object). rewrite object_inj by done.
  rewrite object_prefix by done. rewrite <-(app_nil_r (AttrVertex.to_bytes _)), attribute_type_prefix by done. tauto.
Qed.
Lemma has_reverse_prefixes e a tp t p k :
  has_reverse_ok e → attribute_ok a → is_u16 t → instances_of tp p →
  EdgeHasReverse.prefix_from_attribute_to_type_parts a tp t = Val k →
  ((EdgeHasReverse.prefix_from_attribute a).2 `prefix_of` EdgeHasReverse.to_bytes e ↔ hr_attribute e = a) ∧
  (k.2 `prefix_of` EdgeHasReverse.to_bytes e ↔
     hr_attribute e = a ∧ ov_prefix (hr_owner e) = p ∧ ov_type_id (hr_owner e) = t).
Proof.
  intros [Ha Ho] Haa Ht Hp. unfold EdgeHasReverse.prefix_from_attribute_to_type_parts. rewrite Hp. cbn [mbind exec_bind].
  intros Hk%(f_equal (λ r, match r with Val x => x | _ => k end)). cbv beta iota in Hk. subst k.
  unfold EdgeHasReverse.prefix_from_attribute, EdgeHasReverse.to_bytes. cbn [snd]. rewrite !cons_prefix.
  rewrite <-(app_nil_r (AttrVertex.to_bytes a)) at 1. rewrite !attribute_prefix by done.
  pose proof (object_type_prefix p t (hr_owner e) [] Ht Ho) as Htype. rewrite app_nil_r in Htype.
  assert ([] `prefix_of` ObjVertex.to_bytes (hr_owner e)) by apply prefix_nil. tauto.
Qed.
Lemma links_prefixes e r p :
  links_ok e → object_ok r → object_ok p →
  ((EdgeLinks.prefix_from_relation r).2 `prefix_of` EdgeLinks.to_bytes e ↔ l_is_reverse e = false ∧ l_relation e = r) ∧
  ((EdgeLinks.prefix_from_relation_player r p).2 `prefix_of` EdgeLinks.to_bytes e ↔
     l_is_reverse e = false ∧ l_relation e = r ∧ l_player e = p) ∧
  ((EdgeLinks.prefix_reverse_from_player p).2 `prefix_of` EdgeLinks.to_bytes e ↔ l_is_reverse e = true ∧ l_player e = p) ∧
  ((EdgeLinks.prefix_reverse_from_player_relation p r).2 `prefix_of` EdgeLinks.to_bytes e ↔
     l_is_reverse e = true ∧ l_player e = p ∧ l_relation e = r).
Proof.
  intros (Hr & Hp & _) Hrr Hpp. unfold EdgeLinks.prefix_from_relation, EdgeLinks.prefix_from_relation_player,
    EdgeLinks.prefix_reverse_from_player, EdgeLinks.prefix_reverse_from_player_relation, EdgeLinks.to_bytes. cbn [snd].
  destruct (l_is_reverse e); rewrite !cons_prefix, !object_prefix by done;
    rewrite !prefix_same by (by rewrite !length_object); rewrite !object_inj by done;
    repeat match goal with |- _ ∧ _ => split end; (split; intros H; destruct_and?; try discriminate; simplify_eq; tauto).
Qed.
Lemma index_prefixes e r s t :
  index_ok e → object_ok r → ov_prefix r = VertexRelation → object_ok s → object_ok t →
  ((EdgeIndex.prefix_start (ov_type_id r) s).2 `prefix_of` EdgeIndex.to_bytes e ↔
     ix_relation_type_id e = ov_type_id r ∧ ix_player_from e = s) ∧
  ((EdgeIndex.prefix_start_end_relation s t r).2 `prefix_of` EdgeIndex.to_bytes e ↔
     ix_player_from e = s ∧ ix_player_to e = t ∧ EdgeIndex.relation e = r).
Proof.
  intros (Hf & Ht & Hrt & Hri & _) (_ & Hrrt & Hrri) Hpr Hs Htt.
  unfold EdgeIndex.prefix_start, EdgeIndex.prefix_start_end_relation, EdgeIndex.to_bytes. cbn [snd].
  rewrite !cons_prefix, !(prefix_app_len (TypeID.to_bytes _)) by (by rewrite !length_type_id).
  rewrite (type_id_inj (ov_type_id r)) by done. rewrite prefix_same by (by rewrite !length_object).
  rewrite object_inj, !object_prefix by done. rewrite prefix_same by (by rewrite !length_be_bytes).
  rewrite object_id_inj by done. split; [intuition|].
  destruct r as [pr rt ri]. cbn [ov_prefix ov_type_id ov_object_id] in *. subst pr.
  unfold EdgeIndex.relation, ObjVertex.build_relation. split.
  - intros (_ & -> & -> & -> & ->). done.
  - intros (-> & -> & [= -> ->]). done.
Qed.

(** The prefixes by which edges are looked up select exactly the edges with
    the given parts.  A key of an ownership starts with the prefix of an owner
    (and of a type of attributes) exactly if the edge has that owner (and an
    attribute of that type), a key of the reverse edge with the prefix of an
    attribute (and of a type of owners) exactly if it has that attribute (and
    an owner of that type), and so on for the players of relations in both
    directions and for the index of players. *)
Lemma edge_prefixes_exact :
  (∀ e o t, has_ok e → object_ok o → is_u16 t →
     ((EdgeHas.prefix_from_object o).2 `prefix_of` EdgeHas.to_bytes e ↔ h_owner e = o) ∧
     ((EdgeHas.prefix_from_object_to_type o t).2 `prefix_of` EdgeHas.to_bytes e ↔
        h_owner e = o ∧ av_type_id (h_attribute e) = t)) ∧
  (∀ e a tp t p k, has_reverse_ok e → attribute_ok a → is_u16 t → instances_of tp p →
     EdgeHasReverse.prefix_from_attribute_to_type_parts a tp t = Val k →
     ((EdgeHasReverse.prefix_from_attribute a).2 `prefix_of` EdgeHasReverse.to_bytes e ↔ hr_attribute e = a) ∧
     (k.2 `prefix_of` EdgeHasReverse.to_bytes e ↔
        hr_attribute e = a ∧ ov_prefix (hr_owner e) = p ∧ ov_type_id (hr_owner e) = t)) ∧
  (∀ e r p, links_ok e → object_ok r → object_ok p →
     ((EdgeLinks.prefix_from_relation r).2 `prefix_of` EdgeLinks.to_bytes e ↔ l_is_reverse e = false ∧ l_relation e = r) ∧
     ((EdgeLinks.prefix_from_relation_player r p).2 `prefix_of` EdgeLinks.to_bytes e ↔
        l_is_reverse e = false ∧ l_relation e = r ∧ l_player e = p) ∧
     ((EdgeLinks.prefix_reverse_from_player p).2 `prefix_of` EdgeLinks.to_bytes e ↔ l_is_reverse e = true ∧ l_player e = p) ∧
     ((EdgeLinks.prefix_reverse_from_player_relation p r).2 `prefix_of` EdgeLinks.to_bytes e ↔
        l_is_reverse e = true ∧ l_player e = p ∧ l_relation e = r)) ∧
  (∀ e r s t, index_ok e → object_ok r → ov_prefix r = VertexRelation → object_ok s → object_ok t →
     ((EdgeIndex.prefix_start (ov_type_id r) s).2 `prefix_of` EdgeIndex.to_bytes e ↔
        ix_relation_type_id e = ov_type_id r ∧ ix_player_from e = s) ∧
     ((EdgeIndex.prefix_start_end_relation s t r).2 `prefix_of` EdgeIndex.to_bytes e ↔
        ix_player_from e = s ∧ ix_player_to e = t ∧ EdgeIndex.relation e = r)).
Proof.
  split; [exact has_prefixes|]. split; [exact has_reverse_prefixes|]. split; [exact links_prefixes|exact index_prefixes].
Qed.
Lemma edge_prefixes_exact_witness :
  let owner := ObjVertex.build_entity 1 7 in
  let attribute := mk_AttributeVertex 2 (IdString (inline_id [97; 98])) in
  let relation := ObjVertex.build_relation 3 9 in
  ((EdgeHas.prefix_from_object_to_type owner 2).2 `prefix_of` EdgeHas.to_bytes (mk_ThingEdgeHas owner attribute)) ∧
  ((EdgeHasReverse.prefix_from_attribute attribute).2
     `prefix_of` EdgeHasReverse.to_bytes (mk_ThingEdgeHasReverse attribute owner)) ∧
  ((EdgeLinks.prefix_from_relation relation).2 `prefix_of` EdgeLinks.to_bytes (mk_ThingEdgeLinks relation owner 4 false)) ∧
  ((EdgeIndex.prefix_start_end_relation owner owner relation).2
     `prefix_of` EdgeIndex.to_bytes (EdgeIndex.new owner owner relation 4 5)).
Proof.
  intros owner attribute relation.
  assert (Ho : object_ok owner) by (split; [by left|split; [unfold is_u16|unfold is_u64]; simpl; lia]).
  assert (Hr : object_ok relation) by (split; [by right|split; [unfold is_u16|unfold is_u64]; simpl; lia]).
  assert (Ha : attribute_ok attribute).
  { split; [unfold is_u16; simpl; lia|]. split; [by eexists|]. apply (bool_decide_unpack _). vm_compute. exact I. }
  assert (H2 : is_u16 2) by (unfold is_u16; lia).
  destruct edge_prefixes_exact as (H & Hrev & Hl & Hi). split_and!.
  - apply H; [split|..]; done.
  - assert (H1 : is_u16 1) by (unfold is_u16; lia).
    refine (proj2 (proj1 (Hrev (mk_ThingEdgeHasReverse attribute owner) attribute VertexEntityType 1 VertexEntity _
      (conj Ha Ho) Ha H1 eq_refl eq_refl)) eq_refl).
  - apply (Hl _ relation owner); [split; [done|split; [done|unfold is_u16; simpl; lia]]|done|done|done].
  - apply (Hi _ relation owner owner); [split; [done|split; [done|unfold is_u16, is_u64; simpl; lia]]|done|done|done|done|done].
Defined.

(** ** Order of keys *)
Lemma cons_cmp (x y : Z) (a b : bytes) : cmp (x :: a) (y :: b) = then_with (x ?= y) (cmp a b).
Proof. change (cmp (x :: a) (y :: b)) with (match Z.compare x y with Eq => cmp a b | o => o end). by destruct (x ?= y). Qed.
Lemma type_id_cmp a b : is_u16 a → is_u16 b → cmp (TypeID.to_bytes a) (TypeID.to_bytes b) = (a ?= b).
Proof. apply (be_bytes_cmp 2). Qed.
Lemma object_bytes_cmp a b x y :
  object_ok a → object_ok b →
  cmp (ObjVertex.to_bytes a ++ x) (ObjVertex.to_bytes b ++ y) = then_with (object_cmp a b) (cmp x y).
Proof.
  intros (_ & Hat & Hai) (_ & Hbt & Hbi). unfold ObjVertex.to_bytes, object_cmp. cbn [app]. rewrite cons_cmp, <-!app_assoc.
  rewrite list_cmp_app_len by (by rewrite !length_type_id). rewrite type_id_cmp by done.
  rewrite list_cmp_app_len by (by rewrite !length_be_bytes).
  pose proof (u64_cmp (ov_object_id a) (ov_object_id b) Hai Hbi) as Hc. unfold Prim.encode_u64 in Hc. rewrite Hc. clear Hc.
  destruct (Prefixes.prefix_id _ ?= _), (ov_type_id a ?= _), (ov_object_id a ?= _); reflexivity.
Qed.
(** Categories sort like the variants of the enumeration. *)
Lemma variant_category a b c d :
  Category.to_bytes (AttrID.value_type_category a) = [c] → Category.to_bytes (AttrID.value_type_category b) = [d] →
  (variant a ?= variant b) = (c ?= d).
Proof. by destruct a, b; intros [= <-] [= <-]. Qed.
Lemma attribute_bytes_cmp a b x y :
  attribute_ok a → attribute_ok b →
  cmp (AttrVertex.to_bytes a ++ x) (AttrVertex.to_bytes b ++ y) = then_with (attribute_cmp a b) (cmp x y).
Proof.
  intros Ha Hb. destruct (attribute_parts a) as (c & ra & Ea & Ba & Hca & Hla); [apply Ha|].
  destruct (attribute_parts b) as (d & rb & Eb & Bb & Hdb & Hlb); [apply Hb|]. rewrite Ea, Eb. cbn [app].
  rewrite cons_cmp, Z.compare_refl. cbn [then_with]. rewrite <-!app_assoc.
  rewrite list_cmp_app_len by (by rewrite !length_type_id). rewrite type_id_cmp by (apply Ha || apply Hb).
  unfold attribute_cmp, attribute_id_cmp. rewrite Ba, Bb, (variant_category _ _ c d Hca Hdb). cbn [app]. rewrite !cons_cmp.
  destruct (av_type_id a ?= av_type_id b); [|done..]. cbn [then_with].
  destruct (c ?= d) eqn:Hcd; [|done..]. cbn [then_with]. apply Z.compare_eq in Hcd as ->. rewrite <-Hdb in Hca.
  apply (f_equal Category.from_bytes) in Hca. rewrite !category_round_trip in Hca. injection Hca as Hcat.
  rewrite list_cmp_app_len; [by destruct (cmp ra rb)|]. unfold AttrID.length in Hla, Hlb. rewrite Hcat in Hla. lia.
Qed.

(** Keys of edges sort like the edges: comparing the keys of two ownerships
    or of two reverse ownerships bytewise gives the derived order of the edges,
    and so for two edges between relation and player of the same direction.
    For edges of different directions the order of the edges is the opposite of
    the order of the keys: the code compares the flags the wrong way round. *)
Lemma edge_keys_sort_like_edges :
  (∀ a b, has_ok a → has_ok b → cmp (EdgeHas.to_bytes a) (EdgeHas.to_bytes b) = EdgeHas.compare a b) ∧
  (∀ a b, has_reverse_ok a → has_reverse_ok b →
     cmp (EdgeHasReverse.to_bytes a) (EdgeHasReverse.to_bytes b) = EdgeHasReverse.compare a b) ∧
  (∀ a b, links_ok a → links_ok b →
     cmp (EdgeLinks.to_bytes a) (EdgeLinks.to_bytes b) =
       if Bool.eqb (l_is_reverse a) (l_is_reverse b) then EdgeLinks.compare a b else CompOpp (EdgeLinks.compare a b)).
Proof.
  split; [|split].
  - intros a b [Hao Haa] [Hbo Hba]. unfold EdgeHas.to_bytes, EdgeHas.compare. rewrite cons_cmp, Z.compare_refl.
    cbn [then_with]. rewrite object_bytes_cmp by done. f_equal.
    rewrite <-(app_nil_r (AttrVertex.to_bytes _)), <-(app_nil_r (AttrVertex.to_bytes (h_attribute b))).
    rewrite attribute_bytes_cmp by done. by destruct (attribute_cmp _ _).
  - intros a b [Haa Hao] [Hba Hbo]. unfold EdgeHasReverse.to_bytes, EdgeHasReverse.compare.
    rewrite cons_cmp, Z.compare_refl. cbn [then_with]. rewrite attribute_bytes_cmp by done. f_equal.
    rewrite <-(app_nil_r (ObjVertex.to_bytes _)), <-(app_nil_r (ObjVertex.to_bytes (hr_owner b))).
    rewrite object_bytes_cmp by done. by destruct (object_cmp _ _).
  - intros a b (Har & Hap & Hat) (Hbr & Hbp & Hbt). unfold EdgeLinks.to_bytes, EdgeLinks.compare.
    destruct (l_is_reverse a), (l_is_reverse b); [| reflexivity | reflexivity |].
    all: cbn [xorb]; rewrite cons_cmp, Z.compare_refl; cbn [then_with]; by rewrite !object_bytes_cmp, type_id_cmp.
Qed.
Lemma edge_keys_sort_like_edges_witness :
  let relation := ObjVertex.build_relation 3 9 in
  let player := ObjVertex.build_entity 1 7 in
  let canonical := mk_ThingEdgeLinks relation player 4 false in
  let reverse := mk_ThingEdgeLinks relation player 4 true in
  EdgeLinks.to_bytes canonical ≺ EdgeLinks.to_bytes reverse ∧ EdgeLinks.compare canonical reverse = Gt.
Proof.
  intros relation player canonical reverse. destruct edge_keys_sort_like_edges as (_ & _ & Hl). split; [|reflexivity].
  rewrite (Hl canonical reverse); [reflexivity|..].
  all: split; [split; [by right|unfold is_u16, is_u64; simpl; lia]|].
  all: split; [split; [by left|unfold is_u16, is_u64; simpl; lia]|unfold is_u16; simpl; lia].
Defined.
