(* ===== verification/ThingManager.v ===== *)
(** * Writing and reading edges: [concept/thing/thing_manager.rs]

    The operations of the thing manager on ownership and on the players of
    relations.  Every edge is stored in both directions and carries the number
    of its repetitions; relations that allow it also keep an index of the pairs
    of their players.  What the schema says (is there an index, may this owner
    have this attribute) comes from the type manager and the validation, which
    are interfaces here. *)
From stdpp Require Import strings gmap.
From S2P Require Import Prelude BTree Bytes MemoryStore Buffer LendingIter Mvcc Keyspaces Snapshot Dependency Timeline Isolation Storage Decimal Duration Layout TimeZones Values Structs Attributes Things Edges.
Import KeyRangeOps.

Inductive ConceptStatus := Inserted | StatusPut | Persisted | Deleted.
#[global] Instance ConceptStatus_eq_dec : EqDecision ConceptStatus.
Proof. solve_decision. Defined.
Inductive ConceptWriteError :=
| ConceptRead (source : ConceptReadError)
| DataValidation
| RemoveDeletedPlayers (decrement_count current_count : Z).

(** What the thing manager asks of the schema: whether relations of a type are
    indexed, and whether an owner may have an attribute with a value. *)
Class Schema `{ChronoZoned} := {
  relation_index_available : Z → WriteSnapshot → exec ConceptReadError bool;
  validate_has : ObjectVertex → AttributeVertex → Value → WriteSnapshot → exec ConceptWriteError unit;
}.

(** [decode_value_u64]. *)
Definition decode_value_u64 (bs : bytes) : outcome Z := b ← into_array 8 bs; Val (Prim.decode_u64 b).
(** The vertex of a role type. *)
Definition role_vertex (role_id : Z) : Z := TypeVertex.new (Prefixes.prefix_id VertexRoleType) role_id.

Module TM.
Section operations.
Context `{Schema}.

(** ** Status and locks *)
Definition get_status (key : Z * bytes) (s : WriteSnapshot) : exec ConceptReadError ConceptStatus :=
  w ← Snap.get_write key s;
  match w with
  | Some (Insert _) => Val Inserted
  | Some (Put _ _ _) => Val StatusPut
  | Some Delete => Val Deleted
  | None =>
      v ← map_err SnapshotGet (Snap.get_last_existing key s);
      match v with Some _ => Val Persisted | None => Val Deleted end
  end.
Definition instance_exists (key : Z * bytes) (s : WriteSnapshot) : exec ConceptReadError bool :=
  map_err SnapshotGet (Snap.contains key s).
Definition unmodifiable_lock_add (key : bytes) (s : WriteSnapshot) : WriteSnapshot :=
  Snap.with_operations (OB.lock_add key Unmodifiable (ws_operations s)) s.
Definition unmodifiable_lock_remove (key : bytes) (s : WriteSnapshot) : WriteSnapshot :=
  Snap.with_operations (OB.lock_remove key (ws_operations s)) s.
Definition lock_existing_object (object : ObjectVertex) (s : WriteSnapshot) : WriteSnapshot :=
  unmodifiable_lock_add (ObjVertex.to_bytes object) s.
Definition lock_existing_attribute (attribute : AttributeVertex) (s : WriteSnapshot) : WriteSnapshot :=
  unmodifiable_lock_add (AttrVertex.to_bytes attribute) s.
(** [set_required] of entities and relations; that of attributes always locks. *)
Definition set_required (object : ObjectVertex) (s : WriteSnapshot) : exec ConceptReadError WriteSnapshot :=
  status ← get_status (ObjVertex.into_storage_key object) s;
  match status with Persisted => Val (lock_existing_object object s) | _ => Val s end.
Definition get_snapshot_put_value (key : Z * bytes) (s : WriteSnapshot) : outcome (option bytes) :=
  w ← Snap.get_write key s;
  match w with
  | Some (Put value _ _) => Val (Some value)
  | Some Delete | None => Val None
  | Some (Insert _) => Panic
  end.
(** [get_mapped(key, |_| true).unwrap_or(false)]. *)
Definition key_exists (key : Z * bytes) (s : WriteSnapshot) : exec ConceptReadError bool :=
  v ← map_err SnapshotGet (Snap.get key s); Val (bool_decide (is_Some v)).

(** ** Deleting things *)
Definition delete_object (key : Z * bytes) (s : WriteSnapshot) : exec ConceptWriteError WriteSnapshot :=
  status ← map_err ConceptRead (get_status key s);
  let s := unmodifiable_lock_remove key.2 s in
  match status with
  | Inserted => lift (Snap.uninsert_val key [] s)
  | Persisted => lift (Snap.delete key s)
  | Deleted => Val s
  | StatusPut => Panic
  end.
Definition unput_attribute (attribute : AttributeVertex) (s : WriteSnapshot) : exec ConceptWriteError WriteSnapshot :=
  value ← map_err ConceptRead (get_attribute_value attribute s);
  lift (Snap.unput_val (AttrVertex.into_storage_key attribute) (match value with VString string => string | _ => [] end) s).
Definition delete_attribute (attribute : AttributeVertex) (s : WriteSnapshot) : exec ConceptWriteError WriteSnapshot :=
  let key := AttrVertex.into_storage_key attribute in
  status ← map_err ConceptRead (get_status key s);
  match status with
  | StatusPut =>
      s ← unput_attribute attribute s;
      exists_ ← map_err ConceptRead (instance_exists key s);
      if (exists_ : bool) then lift (Snap.delete key s) else Val s
  | Persisted => lift (Snap.delete key s)
  | Deleted => Val s
  | Inserted => Panic
  end.

(** ** Ownership *)
Definition has_key (owner : ObjectVertex) (attribute : AttributeVertex) : Z * bytes :=
  EdgeHas.into_storage_key (mk_ThingEdgeHas owner attribute).
Definition has_reverse_key (owner : ObjectVertex) (attribute : AttributeVertex) : Z * bytes :=
  EdgeHasReverse.into_storage_key (mk_ThingEdgeHasReverse attribute owner).
Definition owner_has_attribute (owner : ObjectVertex) (attribute : AttributeVertex) (s : WriteSnapshot)
  : exec ConceptReadError bool := key_exists (has_key owner attribute) s.

(** Removing an edge that is stored under two keys: undo the puts of this
    transaction and, unless the thing it starts from is new, delete what is
    stored. *)
Definition remove_edge (status : ConceptStatus) (key reverse : Z * bytes) (s : WriteSnapshot)
  : exec ConceptReadError WriteSnapshot :=
  snapshot_value_opt ← lift (get_snapshot_put_value key s);
  s ← lift (match snapshot_value_opt with
            | Some snapshot_value => s ← Snap.unput_val key snapshot_value s; Snap.unput_val reverse snapshot_value s
            | None => Val s
            end);
  if decide (status = Inserted) then Val s
  else
    exists_ ← key_exists key s;
    if (exists_ : bool) then lift (s ← Snap.delete key s; Snap.delete reverse s) else Val s.
Definition unset_has (owner : ObjectVertex) (attribute : AttributeVertex) (s : WriteSnapshot)
  : exec ConceptWriteError WriteSnapshot :=
  owner_status ← map_err ConceptRead (get_status (ObjVertex.into_storage_key owner) s);
  map_err ConceptRead (remove_edge owner_status (has_key owner attribute) (has_reverse_key owner attribute) s).
Definition put_both (key reverse : Z * bytes) (count : Z) (s : WriteSnapshot) : outcome WriteSnapshot :=
  s ← Snap.put_val key (Prim.encode_u64 count) s; Snap.put_val reverse (Prim.encode_u64 count) s.
Definition set_has_count (owner : ObjectVertex) (attribute : AttributeVertex) (count : Z) (s : WriteSnapshot)
  : exec ConceptWriteError WriteSnapshot :=
  value ← map_err ConceptRead (get_attribute_value attribute s);
  _ ← validate_has owner attribute value s;
  if count =? 0 then unset_has owner attribute s
  else
    s ← map_err ConceptRead (set_required owner s);
    let s := lock_existing_attribute attribute s in
    lift (put_both (has_key owner attribute) (has_reverse_key owner attribute) count s).
Definition set_has_unordered (owner : ObjectVertex) (attribute : AttributeVertex) (s : WriteSnapshot)
  : exec ConceptWriteError WriteSnapshot := set_has_count owner attribute 1 s.

(** ** Scanning edges *)
(** The loop over an edge iterator: each key and count is given to [body]; the
    buffered writes of the range were copied when the iterator was made, so the
    writes of [body] do not change what is iterated. *)
Fixpoint for_each {A E'} (n fuel : nat) (wrap : ConceptReadError → E') (body : bytes → bytes → A → exec E' A)
    (it : SnapshotRangeIterator Snap.source) (a : A) : exec E' A :=
  match n with
  | O => Panic
  | S n =>
      '(x, it) ← lift (SnapIter.next (H:=mvcc_source fuel) fuel it);
      match x with
      | None => Val a
      | Some (inr e) => Err (wrap (SnapshotIterate e))
      | Some (inl (key, value)) => a ← body key.2 value a; for_each n fuel wrap body it a
      end
  end.
Definition iterate_prefix (prefix : EncodingKeyspace * bytes) (fixed_width : bool) (s : WriteSnapshot)
  : outcome (SnapshotRangeIterator Snap.source) :=
  Snap.iterate_range (EncodingKeyspaces.id prefix.1) (new_within prefix.2 fixed_width) s.
(** [get_owners] and [get_owners_by_type], collected: the owners and counts. *)
Definition collect_owners (fuel : nat) (prefix : EncodingKeyspace * bytes) (s : WriteSnapshot)
  : exec ConceptReadError (list (ObjectVertex * Z)) :=
  it ← lift (iterate_prefix prefix EdgeHasReverse.FIXED_WIDTH_ENCODING s);
  for_each fuel fuel (λ e, e) (λ key value owners,
    edge ← lift (EdgeHasReverse.decode key);
    count ← lift (decode_value_u64 value);
    Val (owners ++ [(hr_owner edge, count)])) it [].
Definition get_owners (fuel : nat) (attribute : AttributeVertex) (s : WriteSnapshot) :=
  collect_owners fuel (EdgeHasReverse.prefix_from_attribute attribute) s.
Definition get_owners_by_type (fuel : nat) (attribute : AttributeVertex) (owner_type : Z) (s : WriteSnapshot) :=
  prefix ← lift (EdgeHasReverse.prefix_from_attribute_to_type attribute owner_type);
  collect_owners fuel prefix s.
(** [get_has_reverse_by_attribute_and_owner_type_range]: the range scanned. *)
Definition owner_type_range_keys (attribute : AttributeVertex) (start end_ : bound Z)
  : outcome (KeyRange (EncodingKeyspace * bytes)) :=
  range_start ← match start with
                | Included owner_start =>
                    Inclusive <$> EdgeHasReverse.prefix_from_attribute_to_type attribute owner_start
                | Excluded owner_start =>
                    ExcludePrefix <$> EdgeHasReverse.prefix_from_attribute_to_type attribute owner_start
                | Unbounded =>
                    Inclusive <$> EdgeHasReverse.prefix_from_attribute_to_type_parts attribute
                      Prefixes.min_object_type_prefix 0
                end;
  range_end ← match end_ with
              | Included owner_end =>
                  EndPrefixInclusive <$> EdgeHasReverse.prefix_from_attribute_to_type attribute owner_end
              | Excluded owner_end =>
                  EndPrefixExclusive <$> EdgeHasReverse.prefix_from_attribute_to_type attribute owner_end
              | Unbounded =>
                  EndPrefixInclusive <$> EdgeHasReverse.prefix_from_attribute_to_type_parts attribute
                    Prefixes.max_object_type_prefix 65535
              end;
  Val (mk_KeyRange range_start range_end EdgeHasReverse.FIXED_WIDTH_ENCODING).
Definition has_reverse_by_owner_type_range (attribute : AttributeVertex) (start end_ : bound Z) (s : WriteSnapshot)
  : outcome (SnapshotRangeIterator Snap.source) :=
  range ← owner_type_range_keys attribute start end_;
  let keyspace := (start_value (range_start range)).1 in
  Snap.iterate_range (EncodingKeyspaces.id keyspace)
    (mk_KeyRange (start_map snd (range_start range)) (end_map snd (range_end range)) (fixed_width_keys range)) s.

(** ** Players of relations *)
Definition links_key (relation player : ObjectVertex) (role_id : Z) : Z * bytes :=
  EdgeLinks.into_storage_key (EdgeLinks.new relation player (role_vertex role_id)).
Definition links_reverse_key (relation player : ObjectVertex) (role_id : Z) : Z * bytes :=
  EdgeLinks.into_storage_key (EdgeLinks.new_reverse player relation (role_vertex role_id)).
Definition index_key (player_from player_to relation : ObjectVertex) (role_from role_to : Z) : Z * bytes :=
  EdgeIndex.into_storage_key (EdgeIndex.new player_from player_to relation (TypeVertex.type_id_ (role_vertex role_from))
    (TypeVertex.type_id_ (role_vertex role_to))).
Definition has_role_player (relation player : ObjectVertex) (role_id : Z) (s : WriteSnapshot)
  : exec ConceptReadError bool := key_exists (links_key relation player role_id) s.
Definition is_same_role_player (player : ObjectVertex) (role : Z) (other : ObjectVertex) (other_role : Z) : bool :=
  bool_decide (player = other) && (role =? other_role).

Definition regenerate_player (relation player : ObjectVertex) (role_id count_for_player : Z) (key value : bytes)
    (s : WriteSnapshot) : exec ConceptWriteError WriteSnapshot :=
  edge ← lift (EdgeLinks.decode key);
  rp_count ← lift (decode_value_u64 value);
  let rp_player := l_player edge in
  let rp_role := l_role_id edge in
  if is_same_role_player rp_player rp_role player role_id then
    let player_repetitions := u64 (count_for_player - 1) in
    if 0 <? player_repetitions then
      lift (Snap.put_val (index_key player player relation role_id role_id) (Prim.encode_u64 player_repetitions) s)
    else Val s
  else
    s ← lift (Snap.put_val (index_key player rp_player relation role_id rp_role) (Prim.encode_u64 rp_count) s);
    lift (Snap.put_val (index_key rp_player player relation rp_role role_id) (Prim.encode_u64 count_for_player) s).
Definition relation_index_player_regenerate (fuel : nat) (relation player : ObjectVertex) (role_id count_for_player : Z)
    (s : WriteSnapshot) : exec ConceptWriteError WriteSnapshot :=
  it ← lift (iterate_prefix (EdgeLinks.prefix_from_relation relation) EdgeLinks.FIXED_WIDTH_ENCODING s);
  for_each fuel fuel ConceptRead (regenerate_player relation player role_id count_for_player) it s.
Definition unput_if_put (key : Z * bytes) (s : WriteSnapshot) : outcome WriteSnapshot :=
  v ← get_snapshot_put_value key s;
  match v with Some value => Snap.unput_val key value s | None => Val s end.
Definition remove_player (relation player : ObjectVertex) (role_id : Z) (key value : bytes) (s : WriteSnapshot)
  : exec ConceptWriteError WriteSnapshot :=
  edge ← lift (EdgeLinks.decode key);
  let index := EdgeIndex.new player (l_player edge) relation (TypeVertex.type_id_ (role_vertex role_id))
                 (TypeVertex.type_id_ (role_vertex (l_role_id edge))) in
  let index_key := EdgeIndex.into_storage_key index in
  let index_reverse_key := EdgeIndex.into_storage_key (EdgeIndex.into_reverse index) in
  s ← lift (unput_if_put index_key s);
  s ← lift (unput_if_put index_reverse_key s);
  is_persisted ← map_err ConceptRead (key_exists index_key s);
  if (is_persisted : bool) then
    s ← lift (Snap.delete index_key s);
    if is_same_role_player (l_player edge) (l_role_id edge) player role_id then Val s
    else lift (Snap.delete index_reverse_key s)
  else Val s.
Definition relation_index_player_remove (fuel : nat) (relation player : ObjectVertex) (role_id : Z) (s : WriteSnapshot)
  : exec ConceptWriteError WriteSnapshot :=
  it ← lift (iterate_prefix (EdgeLinks.prefix_from_relation relation) EdgeLinks.FIXED_WIDTH_ENCODING s);
  for_each fuel fuel ConceptRead (remove_player relation player role_id) it s.

Definition unset_links (fuel : nat) (relation player : ObjectVertex) (role_id : Z) (s : WriteSnapshot)
  : exec ConceptWriteError WriteSnapshot :=
  relation_status ← map_err ConceptRead (get_status (ObjVertex.into_storage_key relation) s);
  s ← map_err ConceptRead (remove_edge relation_status (links_key relation player role_id)
        (links_reverse_key relation player role_id) s);
  indexed ← map_err ConceptRead (relation_index_available (ov_type_id relation) s);
  if (indexed : bool) then relation_index_player_remove fuel relation player role_id s else Val s.
(** The puts of [set_links_count] and [put_links_unordered]. *)
Definition put_links (fuel : nat) (relation player : ObjectVertex) (role_id count : Z) (s : WriteSnapshot)
  : exec ConceptWriteError WriteSnapshot :=
  s ← map_err ConceptRead (set_required relation s);
  s ← map_err ConceptRead (set_required player s);
  s ← lift (put_both (links_key relation player role_id) (links_reverse_key relation player role_id) count s);
  indexed ← map_err ConceptRead (relation_index_available (ov_type_id relation) s);
  if (indexed : bool) then relation_index_player_regenerate fuel relation player role_id count s else Val s.
Definition put_links_unordered (fuel : nat) (relation player : ObjectVertex) (role_id : Z) (s : WriteSnapshot)
  : exec ConceptWriteError WriteSnapshot := put_links fuel relation player role_id 1 s.
Definition set_links_count (fuel : nat) (relation player : ObjectVertex) (role_id count : Z) (s : WriteSnapshot)
  : exec ConceptWriteError WriteSnapshot :=
  if count =? 0 then unset_links fuel relation player role_id s else put_links fuel relation player role_id count s.
Definition links_count (relation player : ObjectVertex) (role_id : Z) (s : WriteSnapshot)
  : exec ConceptWriteError (option Z) :=
  v ← map_err (λ e, ConceptRead (SnapshotGet e)) (Snap.get (links_key relation player role_id) s);
  match v with Some bs => count ← lift (decode_value_u64 bs); Val (Some count) | None => Val None end.
Definition increment_links_count (fuel : nat) (relation player : ObjectVertex) (role_id : Z) (s : WriteSnapshot)
  : exec ConceptWriteError WriteSnapshot :=
  count ← links_count relation player role_id s;
  set_links_count fuel relation player role_id (u64 (default 0 count + 1)) s.
(** [validate_links_count_to_remove_players] rejects removing more players than
    there are. *)
Definition decrement_links_count (fuel : nat) (relation player : ObjectVertex) (role_id decrement_count : Z)
    (s : WriteSnapshot) : exec ConceptWriteError WriteSnapshot :=
  count ← links_count relation player role_id s;
  if default 0 count <? decrement_count then Err (RemoveDeletedPlayers decrement_count (default 0 count))
  else
    count ← unwrap count;
    set_links_count fuel relation player role_id (count - decrement_count) s.
End operations.
End TM.
