(* ===== verification/ThingGraph.v ===== *)
(** * The graph of things: theorems about [ThingManager]

    Every edge is stored twice and carries a count.  The invariant [things_ok]
    says that the two entries of an edge agree, in the committed state and in
    the transaction's buffer; the operations that write edges keep it, and with
    it what is found from one end of an edge is what is found from the other. *)
From stdpp Require Import strings gmap.
From S2P Require Import Prelude BTree Bytes MemoryStore Buffer LendingIter Mvcc Keyspaces Snapshot Dependency Timeline Isolation Storage Views Decimal Duration Layout TimeZones Values Structs Attributes Things Edges ThingManager.
Import KeyRangeOps.

(** ** The edges of a snapshot *)
Inductive edge_key : skey → Prop :=
| edge_key_has e : has_ok e → edge_key (EdgeHas.into_storage_key e)
| edge_key_has_reverse e : has_reverse_ok e → edge_key (EdgeHasReverse.into_storage_key e)
| edge_key_links e : links_ok e → edge_key (EdgeLinks.into_storage_key e).
(** The two keys of an edge. *)
Inductive edge_pair : skey → skey → Prop :=
| pair_has o a : object_ok o → attribute_ok a → edge_pair (TM.has_key o a) (TM.has_reverse_key o a)
| pair_links r p role : object_ok r → object_ok p → is_u16 role →
    edge_pair (TM.links_key r p role) (TM.links_reverse_key r p role).
Definition edge_keyspace (id : Z) : Prop :=
  id = EncodingKeyspaces.id OptimisedPrefix15 ∨ id = EncodingKeyspaces.id OptimisedPrefix16 ∨
  id = EncodingKeyspaces.id OptimisedPrefix25.
Definition is_count (v : bytes) : Prop := is_bytes v ∧ length v = 8%nat.
(** The writes an edge may have in the buffer. *)
Definition edge_write (w : Write) : Prop :=
  match w with Insert _ => False | Put v _ _ => is_count v | Delete => True end.

Record things_ok (s : WriteSnapshot) : Prop := {
  t_snapshot : snapshot_ok s;
  t_open : ∀ k, good_id (EncodingKeyspaces.id k) s;
  t_keys : ∀ key, edge_keyspace key.1 → known key s → edge_key key;
  t_stored : ∀ key v, edge_keyspace key.1 → stored key s = Some v → is_count v;
  t_written : ∀ key w, edge_keyspace key.1 → written key s = Some w → edge_write w;
  t_agree : ∀ k1 k2, edge_pair k1 k2 → stored k1 s = stored k2 s ∧ written k1 s = written k2 s;
  t_fresh : ∀ o v, object_ok o → written (ObjVertex.into_storage_key o) s = Some (Insert v) →
    (∀ a, attribute_ok a → stored (TM.has_key o a) s = None) ∧
    (∀ p role, object_ok p → is_u16 role → stored (TM.links_key o p role) s = None);
}.

Lemma type_vertex_parts p t :
  is_u16 t → TypeVertex.type_id_ (TypeVertex.new (Prefixes.prefix_id p) t) = t ∧
    TypeVertex.prefix (TypeVertex.new (Prefixes.prefix_id p) t) = Val p.
Proof.
  intros Ht. unfold TypeVertex.type_id_, TypeVertex.prefix, TypeVertex.new. rewrite Z.shiftl_mul_pow2 by lia. split.
  - change 65535 with (Z.ones 16). rewrite Z.land_ones by lia. rewrite Z.add_comm, Z.mod_add by lia.
    apply Z.mod_small. exact Ht.
  - pose proof (prefix_id_byte p) as Hp. unfold TypeVertex.to_bytes. cbn [be_bytes drop head unwrap mbind exec_bind].
    change (256 ^ Z.of_nat 2) with (2 ^ 16). rewrite Z.div_add_l by lia. rewrite (Z.div_small t) by exact Ht.
    rewrite Z.add_0_r, Z.mod_small by exact Hp. apply prefix_round_trip.
Qed.
Lemma role_vertex_id role : is_u16 role → TypeVertex.type_id_ (role_vertex role) = role.
Proof. apply type_vertex_parts. Qed.
Lemma links_key_edge r p role :
  is_u16 role → TM.links_key r p role = EdgeLinks.into_storage_key (mk_ThingEdgeLinks r p role false).
Proof. intros Hr. unfold TM.links_key, EdgeLinks.new. by rewrite role_vertex_id. Qed.
Lemma links_reverse_key_edge r p role :
  is_u16 role → TM.links_reverse_key r p role = EdgeLinks.into_storage_key (mk_ThingEdgeLinks r p role true).
Proof. intros Hr. unfold TM.links_reverse_key, EdgeLinks.new_reverse. by rewrite role_vertex_id. Qed.
Lemma pair_edges k1 k2 : edge_pair k1 k2 → edge_key k1 ∧ edge_key k2.
Proof.
  destruct 1 as [o a Ho Ha|r p role Hr Hp Hrole]; [split; [by apply edge_key_has|by apply edge_key_has_reverse]|].
  rewrite links_key_edge, links_reverse_key_edge by done. split; by apply edge_key_links.
Qed.
Lemma edge_keyspaces key : edge_key key → edge_keyspace key.1.
Proof.
  destruct 1 as [e He|e He|e He]; [by left| |by left]. right. cbn. unfold EdgeHasReverse.keyspace, EdgeHasReverse.keyspace_for_is_short.
  destruct (AttrVertex.is_short_encoding _); [by left|by right].
Qed.
Lemma edge_keyspace_range id : edge_keyspace id → 0 ≤ id < 10.
Proof. intros [-> |[-> | ->]]; cbn; lia. Qed.
Lemma object_key_bytes o : is_bytes (ObjVertex.to_bytes o).
Proof. apply object_is_bytes. Qed.
Lemma edge_bytes key : edge_key key → is_bytes key.2.
Proof.
  destruct 1 as [e [Ho Ha]|e [Ha Ho]|e He]; cbn [EdgeHas.into_storage_key EdgeHasReverse.into_storage_key EdgeLinks.into_storage_key snd].
  - constructor; [apply prefix_id_byte|]. apply Forall_app_2; [apply object_is_bytes|by apply attribute_is_bytes].
  - constructor; [apply prefix_id_byte|]. apply Forall_app_2; [by apply attribute_is_bytes|apply object_is_bytes].
  - unfold EdgeLinks.to_bytes. destruct (l_is_reverse e); (constructor; [apply prefix_id_byte|]);
      repeat apply Forall_app_2; try apply object_is_bytes; apply be_bytes_is_bytes.
Qed.
Lemma edge_good key s : things_ok s → edge_key key → good_key key s.
Proof.
  intros Hok He. split; [|by apply edge_bytes]. destruct (edge_keyspaces _ He) as [-> |[-> | ->]]; by apply t_open.
Qed.

(** ** Keys of different edges *)
Lemma decodes_inj {A} (dec : bytes → outcome A) (enc : A → bytes) a b :
  dec (enc a) = Val a → dec (enc b) = Val b → enc a = enc b → a = b.
Proof. intros Ha Hb Heq. rewrite Heq, Hb in Ha. by injection Ha. Qed.
Lemma has_edge_inj e e' : has_ok e → has_ok e' → EdgeHas.to_bytes e = EdgeHas.to_bytes e' → e = e'.
Proof. intros He He'. apply (decodes_inj EdgeHas.decode); by apply has_decodes. Qed.
Lemma has_reverse_edge_inj e e' :
  has_reverse_ok e → has_reverse_ok e' → EdgeHasReverse.to_bytes e = EdgeHasReverse.to_bytes e' → e = e'.
Proof. intros He He'. apply (decodes_inj EdgeHasReverse.decode); by apply has_reverse_decodes. Qed.
Lemma links_edge_inj e e' : links_ok e → links_ok e' → EdgeLinks.to_bytes e = EdgeLinks.to_bytes e' → e = e'.
Proof. intros He He'. apply (decodes_inj EdgeLinks.decode); by apply links_decodes. Qed.
Lemma index_edge_inj e e' : index_ok e → index_ok e' → EdgeIndex.to_bytes e = EdgeIndex.to_bytes e' → e = e'.
Proof. intros He He'. apply (decodes_inj EdgeIndex.decode); by apply index_decodes. Qed.

Lemma has_keys_inj o a o' a' :
  object_ok o → attribute_ok a → object_ok o' → attribute_ok a' →
  (TM.has_key o a = TM.has_key o' a' → o = o' ∧ a = a') ∧ (TM.has_reverse_key o a = TM.has_reverse_key o' a' → o = o' ∧ a = a').
Proof.
  intros. split; intros Heq%(f_equal snd).
  - apply has_edge_inj in Heq; [by injection Heq|by split..].
  - apply has_reverse_edge_inj in Heq; [by injection Heq|by split..].
Qed.
Lemma links_keys_inj r p role r' p' role' :
  object_ok r → object_ok p → is_u16 role → object_ok r' → object_ok p' → is_u16 role' →
  (TM.links_key r p role = TM.links_key r' p' role' → r = r' ∧ p = p' ∧ role = role') ∧
  (TM.links_reverse_key r p role = TM.links_reverse_key r' p' role' → r = r' ∧ p = p' ∧ role = role').
Proof.
  intros. rewrite !links_key_edge, !links_reverse_key_edge by done.
  split; intros Heq%(f_equal snd)%links_edge_inj; try done; by injection Heq.
Qed.
#[global] Instance AttributeID_eq_dec : EqDecision AttributeID.
Proof. solve_decision. Defined.
#[global] Instance AttributeVertex_eq_dec : EqDecision AttributeVertex.
Proof. solve_decision. Defined.
(** The first byte of a key. *)
Definition tag_of (key : skey) : option Z := head key.2.
Lemma has_key_tag o a : tag_of (TM.has_key o a) = Some (Prefixes.prefix_id EdgeHas).
Proof. done. Qed.
Lemma has_reverse_key_tag o a : tag_of (TM.has_reverse_key o a) = Some (Prefixes.prefix_id EdgeHasReverse).
Proof. done. Qed.
Lemma links_key_tag r p role : tag_of (TM.links_key r p role) = Some (Prefixes.prefix_id EdgeLinks).
Proof. done. Qed.
Lemma links_reverse_key_tag r p role : tag_of (TM.links_reverse_key r p role) = Some (Prefixes.prefix_id EdgeLinksReverse).
Proof. done. Qed.
Ltac other_tag := let H := fresh in intros H%(f_equal tag_of); discriminate H.

Lemma pair_distinct k1 k2 k1' k2' :
  edge_pair k1 k2 → edge_pair k1' k2' → (k1 = k1' ∧ k2 = k2') ∨ (k1 ≠ k1' ∧ k2 ≠ k2').
Proof.
  intros [o a Ho Ha|r p role Hr Hp Hro] [o' a' Ho' Ha'|r' p' role' Hr' Hp' Hro'].
  - destruct (has_keys_inj o a o' a') as [H1 H2]; [done..|].
    destruct (decide (o = o' ∧ a = a')) as [[-> ->]|Hne]; [by left|right; split; intros ?; apply Hne; auto].
  - right; split; other_tag.
  - right; split; other_tag.
  - destruct (links_keys_inj r p role r' p' role') as [H1 H2]; [done..|].
    destruct (decide (r = r' ∧ p = p' ∧ role = role')) as [(-> & -> & ->)|Hne]; [by left|right; split; intros ?; apply Hne; auto].
Qed.
Lemma pair_crossed k1 k2 k1' k2' : edge_pair k1 k2 → edge_pair k1' k2' → k1 ≠ k2'.
Proof. intros [o a Ho Ha|r p role Hr Hp Hro] [o' a' Ho' Ha'|r' p' role' Hr' Hp' Hro']; other_tag. Qed.

Lemma has_prefix_free e e' : has_ok e → has_ok e' → EdgeHas.to_bytes e `prefix_of` EdgeHas.to_bytes e' → e = e'.
Proof.
  destruct e as [o a], e' as [o' a']. intros [Ho Ha] [Ho' Ha']. unfold EdgeHas.to_bytes. cbn [h_owner h_attribute] in *.
  rewrite cons_prefix, object_prefix by done. intros (_ & -> & Hp).
  rewrite <-(app_nil_r (AttrVertex.to_bytes a)), <-(app_nil_r (AttrVertex.to_bytes a')) in Hp.
  by apply attribute_prefix in Hp as [-> _].
Qed.
Lemma has_reverse_prefix_free e e' :
  has_reverse_ok e → has_reverse_ok e' → EdgeHasReverse.to_bytes e `prefix_of` EdgeHasReverse.to_bytes e' → e = e'.
Proof.
  destruct e as [a o], e' as [a' o']. intros [Ha Ho] [Ha' Ho']. unfold EdgeHasReverse.to_bytes. cbn [hr_owner hr_attribute] in *.
  rewrite cons_prefix, attribute_prefix by done. intros (_ & -> & Hp).
  rewrite <-(app_nil_r (ObjVertex.to_bytes o)), <-(app_nil_r (ObjVertex.to_bytes o')) in Hp.
  by apply object_prefix in Hp as [-> _].
Qed.
Lemma length_links e : length (EdgeLinks.to_bytes e) = EdgeLinks.LENGTH.
Proof. unfold EdgeLinks.to_bytes. destruct (l_is_reverse e); key_len. Qed.
(** No key of an edge is a prefix of another one. *)
Lemma edge_prefix_free key key' : edge_key key → edge_key key' → key.2 `prefix_of` key'.2 → key.2 = key'.2.
Proof.
  intros H H' Hp. assert (Hh : head key.2 = head key'.2).
  { destruct Hp as [t ->]. destruct H; [done..|]. unfold EdgeLinks.into_storage_key, EdgeLinks.to_bytes. cbn [snd]. by destruct (l_is_reverse e). }
  destruct H as [e He|e He|e He], H' as [e' He'|e' He'|e' He']; cbn [EdgeHas.into_storage_key EdgeHasReverse.into_storage_key EdgeLinks.into_storage_key snd] in *.
  all: try (by apply has_prefix_free in Hp as ->); try (by apply has_reverse_prefix_free in Hp as ->).
  all: try (apply prefix_length_eq in Hp; [done|]; by rewrite !length_links).
  all: exfalso; revert Hh; unfold EdgeLinks.to_bytes; repeat destruct (l_is_reverse _); discriminate.
Qed.

(** ** What keeps the invariant *)
Lemma things_confined (K : skey → Prop) s s' `{!∀ key, Decision (K key)} :
  things_ok s → confined K s s' →
  (∀ key, K key → edge_keyspace key.1 → edge_key key ∧ ∀ w, written key s' = Some w → edge_write w) →
  (∀ k1 k2, edge_pair k1 k2 → written k1 s' = written k2 s') →
  (∀ o, ¬ K (ObjVertex.into_storage_key o)) → things_ok s'.
Proof.
  intros Hok Hc HK Hpair Hobj. split.
  - apply (cf_ok _ _ _ Hc).
  - intros k. unfold good_id. rewrite (cf_storage _ _ _ Hc). by apply t_open.
  - intros key Hks Hkn. destruct (decide (K key)) as [Hin|Hn]; [by apply HK|].
    apply (t_keys s Hok); [done|]. by apply (known_confined _ _ _ _ Hc); [apply edge_keyspace_range in Hks; lia|..].
  - intros key v Hks. rewrite (confined_stored _ _ _ _ Hc). by apply t_stored.
  - intros key w Hks Hw. destruct (decide (K key)) as [Hin|Hn]; [by apply (HK key)|].
    rewrite (cf_written _ _ _ Hc) in Hw; [by apply (t_written s Hok key)|apply edge_keyspace_range in Hks; lia|done].
  - intros k1 k2 Hp. rewrite !(confined_stored _ _ _ _ Hc). split; [by apply (t_agree s Hok)|by apply Hpair].
  - intros o v Ho Hw. rewrite (cf_written _ _ _ Hc) in Hw by (done || cbn; lia).
    destruct (t_fresh s Hok o v Ho Hw) as [Hh Hl]. split; intros; rewrite (confined_stored _ _ _ _ Hc); eauto.
Qed.
(** Writes to the keyspace of the index. *)
Definition in_index (key : skey) : Prop := key.1 = EncodingKeyspaces.id EdgeIndex.KEYSPACE.
Lemma things_index s s' : things_ok s → confined in_index s s' → things_ok s'.
Proof.
  intros Hok Hc. assert (∀ key, Decision (in_index key)) by (intros; unfold in_index; apply _).
  refine (things_confined in_index s s' Hok Hc _ _ _); [| |done].
  - intros key Hin Hks. exfalso. unfold in_index in Hin. rewrite Hin in Hks. destruct Hks as [Hk|[Hk|Hk]]; discriminate Hk.
  - intros k1 k2 Hp. destruct (pair_edges _ _ Hp) as [H1%edge_keyspaces H2%edge_keyspaces].
    rewrite !(cf_written _ _ _ Hc); [by apply (t_agree s Hok)| | | |]; try (by apply edge_keyspace_range in H1; lia);
      try (by apply edge_keyspace_range in H2; lia); unfold in_index; intros Hin.
    + rewrite Hin in H2. destruct H2 as [Hks|[Hks|Hks]]; discriminate Hks.
    + rewrite Hin in H1. destruct H1 as [Hks|[Hks|Hks]]; discriminate Hks.
Qed.
(** Writes to both keys of an edge. *)
Definition either (k1 k2 key : skey) : Prop := key = k1 ∨ key = k2.
Lemma things_pair k1 k2 s s' :
  things_ok s → edge_pair k1 k2 → confined (either k1 k2) s s' → written k1 s' = written k2 s' →
  (∀ w, written k1 s' = Some w → edge_write w) → things_ok s'.
Proof.
  intros Hok Hp Hc Heq Hw. destruct (pair_edges _ _ Hp) as [H1 H2].
  assert (∀ key, Decision (either k1 k2 key)) by (intros; unfold either; apply _).
  refine (things_confined (either k1 k2) s s' Hok Hc _ _ _).
  - intros key [-> | ->] _; [done|]. by rewrite <-Heq.
  - intros k1' k2' Hp'. destruct (pair_edges _ _ Hp') as [H1'%edge_keyspaces%edge_keyspace_range H2'%edge_keyspaces%edge_keyspace_range].
    destruct (pair_distinct _ _ _ _ Hp Hp') as [[<- <-]|[Hn1 Hn2]]; [done|].
    rewrite !(cf_written _ _ _ Hc); [by apply (t_agree s Hok)|lia| |lia|].
    + intros [-> | ->]; [by apply (pair_crossed k1 k2 k1' k1)|done].
    + intros [-> | ->]; [done|by apply (pair_crossed k2 k2' k1 k2)].
  - intros o [Heo|Heo]; [apply edge_keyspaces in H1; rewrite <-Heo in H1; destruct H1 as [Hks|[Hks|Hks]]; discriminate Hks|].
    apply edge_keyspaces in H2; rewrite <-Heo in H2; destruct H2 as [Hks|[Hks|Hks]]; discriminate Hks.
Qed.

(** ** The operations on one edge *)
Definition status_of (key : skey) (s : WriteSnapshot) : ConceptStatus :=
  match written key s with
  | Some (Insert _) => Inserted
  | Some (Put _ _ _) => StatusPut
  | Some Delete => Deleted
  | None => match stored key s with Some _ => Persisted | None => Deleted end
  end.
Lemma get_status_spec key s : snapshot_ok s → good_key key s → TM.get_status key s = Val (status_of key s).
Proof.
  intros Hok Hk. unfold TM.get_status, status_of. rewrite get_write_written by (done || apply Hk). cbn [mbind exec_bind].
  destruct (written key s) as [[]|] eqn:Hw; [done..|]. rewrite get_last_existing_stored by done. cbn [map_err mbind exec_bind].
  by destruct (stored key s).
Qed.
Lemma object_good o s : things_ok s → good_key (ObjVertex.into_storage_key o) s.
Proof. intros Hok. split; [by apply t_open|apply object_is_bytes]. Qed.
Lemma lock_confined K k s : snapshot_ok s → confined K s (TM.unmodifiable_lock_add k s).
Proof.
  intros [Hb Hbs Hst]. split; [|done..]. split; [|done..]. by apply operations_buffer_shape_lock.
Qed.
Definition nowhere (key : skey) : Prop := False.
Lemma things_nowhere s s' : things_ok s → confined nowhere s s' → things_ok s'.
Proof. intros Hok Hc. apply (things_index s); [done|]. apply (confined_weaken nowhere); [by intros ? []|done]. Qed.
Lemma set_required_spec o s :
  things_ok s → ∃ s', TM.set_required o s = Val s' ∧ confined nowhere s s' ∧ things_ok s'.
Proof.
  intros Hok. pose proof (t_snapshot s Hok) as Hs. unfold TM.set_required. rewrite get_status_spec by auto using object_good.
  cbn [mbind exec_bind]. assert (Hl := lock_confined nowhere (ObjVertex.to_bytes o) s Hs).
  destruct (status_of _ s); eexists; (split; [reflexivity|]);
    first [by split; [apply confined_refl|]|by split; [exact Hl|apply (things_nowhere s)]].
Qed.

Lemma encode_is_count count : is_count (Prim.encode_u64 count).
Proof. split; [apply be_bytes_is_bytes|apply length_be_bytes]. Qed.
Lemma confined_two k1 k2 s s1 s2 :
  confined (λ k, k = k1) s s1 → confined (λ k, k = k2) s1 s2 → confined (either k1 k2) s s2.
Proof.
  intros H1 H2. eapply confined_trans; eapply confined_weaken; [|done| |done]; intros key ->; [by left|by right].
Qed.
Lemma pair_ids k1 k2 : edge_pair k1 k2 → (0 ≤ k1.1 < 10 ∧ 0 ≤ k2.1 < 10) ∧ (is_bytes k1.2 ∧ is_bytes k2.2) ∧ k1 ≠ k2.
Proof.
  intros Hp. destruct (pair_edges _ _ Hp) as [H1 H2].
  split; [split; by apply edge_keyspace_range, edge_keyspaces|]. split; [split; by apply edge_bytes|].
  by apply (pair_crossed k1 k2 k1 k2).
Qed.
(** The same write for both keys. *)
Lemma written_two k1 k2 s s1 s2 w :
  0 ≤ k1.1 → k1 ≠ k2 → confined (λ k, k = k1) s s1 → confined (λ k, k = k2) s1 s2 → written k1 s1 = w → written k2 s2 = w →
  confined (either k1 k2) s s2 ∧ written k1 s2 = w ∧ written k2 s2 = w.
Proof.
  intros Hid Hne H1 H2 Hw1 Hw2. split; [by eapply confined_two|]. split; [|done].
  by rewrite (cf_written _ _ _ H2) by done.
Qed.
Lemma put_both_spec k1 k2 count s :
  things_ok s → edge_pair k1 k2 →
  ∃ s', TM.put_both k1 k2 count s = Val s' ∧ confined (either k1 k2) s s' ∧ things_ok s' ∧
    view k1 s' = Some (Prim.encode_u64 count) ∧ view k2 s' = Some (Prim.encode_u64 count).
Proof.
  intros Hok Hp. destruct (pair_ids _ _ Hp) as ([Hi1 Hi2] & [Hb1 Hb2] & Hne).
  destruct (put_spec k1 s (t_snapshot s Hok) Hi1 (Prim.encode_u64 count) Hb1) as (s1 & Hs1 & Hc1 & Hw1).
  destruct (put_spec k2 s1 (cf_ok _ _ _ Hc1) Hi2 (Prim.encode_u64 count) Hb2) as (s2 & Hs2 & Hc2 & Hw2).
  destruct (written_two _ _ _ _ _ _ (proj1 Hi1) Hne Hc1 Hc2 Hw1 Hw2) as (Hc & Hw1' & _).
  exists s2. unfold TM.put_both. rewrite Hs1. cbn [mbind exec_bind]. split; [done|]. split; [done|]. split.
  - apply (things_pair k1 k2 s); [done..|by rewrite Hw1', Hw2|]. intros w. rewrite Hw1'. intros [= <-]. apply encode_is_count.
  - by rewrite (written_view _ _ _ Hw1'), (written_view _ _ _ Hw2).
Qed.
Lemma get_put_value_spec key s :
  snapshot_ok s → 0 ≤ key.1 < 10 → (∀ v, written key s ≠ Some (Insert v)) →
  TM.get_snapshot_put_value key s = Val (match written key s with Some (Put v _ _) => Some v | _ => None end).
Proof.
  intros Hok Hid Hni. unfold TM.get_snapshot_put_value. rewrite get_write_written by done. cbn [mbind exec_bind].
  destruct (written key s) as [[]|] eqn:Hw; try done. by destruct (Hni value).
Qed.
Lemma key_exists_spec key s :
  snapshot_ok s → good_key key s → TM.key_exists key s = Val (bool_decide (is_Some (view key s))).
Proof. intros Hok Hk. unfold TM.key_exists. by rewrite get_view. Qed.
Lemma delete_both_spec k1 k2 s :
  things_ok s → edge_pair k1 k2 →
  ∃ s', (s1 ← Snap.delete k1 s; Snap.delete k2 s1) = Val s' ∧ confined (either k1 k2) s s' ∧ things_ok s' ∧
    view k1 s' = None ∧ view k2 s' = None.
Proof.
  intros Hok Hp. destruct (pair_ids _ _ Hp) as ([Hi1 Hi2] & [Hb1 Hb2] & Hne).
  destruct (delete_spec k1 s (t_snapshot s Hok) Hi1 Hb1) as (s1 & Hs1 & Hc1 & Hw1).
  destruct (delete_spec k2 s1 (cf_ok _ _ _ Hc1) Hi2 Hb2) as (s2 & Hs2 & Hc2 & Hw2).
  destruct (written_two _ _ _ _ _ _ (proj1 Hi1) Hne Hc1 Hc2 Hw1 Hw2) as (Hc & Hw1' & _).
  exists s2. rewrite Hs1. cbn [mbind exec_bind]. split; [done|]. split; [done|]. split.
  - apply (things_pair k1 k2 s); [done..|by rewrite Hw1', Hw2|]. intros w. rewrite Hw1'. by intros [= <-].
  - by rewrite (written_view _ _ _ Hw1'), (written_view _ _ _ Hw2).
Qed.
Definition undo_both (value : option bytes) (k1 k2 : skey) (s : WriteSnapshot) : outcome WriteSnapshot :=
  match value with
  | Some v => s ← Snap.unput_val k1 v s; Snap.unput_val k2 v s
  | None => Val s
  end.
(** Undoing what the transaction put: the keys have no write or a delete left. *)
Lemma undo_both_spec k1 k2 s :
  things_ok s → edge_pair k1 k2 →
  ∃ s', undo_both (match written k1 s with Some (Put v _ _) => Some v | _ => None end) k1 k2 s = Val s' ∧
    confined (either k1 k2) s s' ∧ things_ok s' ∧ (written k1 s' = None ∨ written k1 s' = Some Delete).
Proof.
  intros Hok Hp. destruct (pair_ids _ _ Hp) as ([Hi1 Hi2] & _ & Hne). destruct (pair_edges _ _ Hp) as [He1 _].
  pose proof (t_agree s Hok _ _ Hp) as [_ Hag].
  assert (Hni : ∀ v, written k1 s ≠ Some (Insert v)).
  { intros v Hw. by apply (t_written s Hok k1 (Insert v)); [apply edge_keyspaces|]. }
  destruct (written k1 s) as [[v|v r x|]|] eqn:Hw; [by destruct (Hni v)| | |];
    [|by exists s; split; [done|]; split; [by apply confined_refl, t_snapshot|]; auto..].
  destruct (unput_spec k1 s (t_snapshot s Hok) Hi1 v r x Hw) as (s1 & Hs1 & Hc1 & Hw1).
  assert (Hw2 : written k2 s1 = Some (Put v r x)) by (rewrite (cf_written _ _ _ Hc1); [by rewrite <-Hag|lia|done]).
  destruct (unput_spec k2 s1 (cf_ok _ _ _ Hc1) Hi2 v r x Hw2) as (s2 & Hs2 & Hc2 & Hw2').
  destruct (written_two _ _ _ _ _ _ (proj1 Hi1) Hne Hc1 Hc2 Hw1 Hw2') as (Hc & Hw1' & _).
  exists s2. cbn [undo_both]. rewrite Hs1. cbn [mbind exec_bind]. split; [done|]. split; [done|]. split; [|by left].
  apply (things_pair k1 k2 s); [done..|by rewrite Hw1', Hw2'|]. by rewrite Hw1'.
Qed.
Lemma pair_views k1 k2 s : things_ok s → edge_pair k1 k2 → view k1 s = view k2 s.
Proof. intros Hok Hp. unfold view. by destruct (t_agree s Hok _ _ Hp) as [-> ->]. Qed.
Lemma remove_edge_spec status k1 k2 s :
  things_ok s → edge_pair k1 k2 → (status = Inserted → stored k1 s = None) →
  ∃ s', TM.remove_edge status k1 k2 s = Val s' ∧ confined (either k1 k2) s s' ∧ things_ok s' ∧
    view k1 s' = None ∧ view k2 s' = None.
Proof.
  intros Hok Hp Hst. destruct (pair_ids _ _ Hp) as ([Hi1 Hi2] & _ & Hne). destruct (pair_edges _ _ Hp) as [He1 _].
  unfold TM.remove_edge. rewrite get_put_value_spec; [|by apply t_snapshot|done|].
  2:{ intros v Hw. by apply (t_written s Hok k1 (Insert v)); [apply edge_keyspaces|]. }
  cbn [lift mbind exec_bind]. destruct (undo_both_spec k1 k2 s Hok Hp) as (s1 & Hs1 & Hc1 & Hok1 & Hw1).
  unfold undo_both in Hs1. rewrite Hs1. cbn [lift mbind exec_bind].
  assert (Hnone : view k1 s1 = None → view k1 s1 = None ∧ view k2 s1 = None).
  { intros Hv. by rewrite <-(pair_views k1 k2 s1 Hok1 Hp). }
  destruct (decide (status = Inserted)) as [Hi|Hi].
  { exists s1. do 3 (split; [done|]). apply Hnone. unfold view. destruct Hw1 as [-> | ->]; [|done].
    rewrite (confined_stored _ _ _ _ Hc1). by apply Hst. }
  rewrite key_exists_spec by (by apply t_snapshot || apply edge_good). cbn [mbind exec_bind].
  destruct (bool_decide_reflect (is_Some (view k1 s1))) as [Hs|Hn].
  - destruct (delete_both_spec k1 k2 s1 Hok1 Hp) as (s2 & Hs2 & Hc2 & Hok2 & Hv). rewrite Hs2. exists s2. split; [done|].
    split; [by eapply confined_trans|]. done.
  - exists s1. do 3 (split; [done|]). apply Hnone. by apply eq_None_not_Some.
Qed.

(** ** Ownership *)
(** The value under both keys of an edge with a count. *)
Definition edge_value (count : Z) : option bytes := if count =? 0 then None else Some (Prim.encode_u64 count).
(** [s'] is [s] with a count for the edge stored under the keys [k1] and [k2]. *)
Definition edge_set (k1 k2 : skey) (count : Z) (s s' : WriteSnapshot) : Prop :=
  view k1 s' = edge_value count ∧ view k2 s' = edge_value count ∧
  ∀ key, 0 ≤ key.1 → key ≠ k1 → key ≠ k2 → view key s' = view key s.
Lemma confined_edge_set k1 k2 count s s' :
  confined (either k1 k2) s s' → view k1 s' = edge_value count → view k2 s' = edge_value count → edge_set k1 k2 count s s'.
Proof.
  intros Hc H1 H2. split; [done|]. split; [done|]. intros key Hid Hn1 Hn2.
  apply (confined_view _ _ _ _ Hc); [done|]. by intros [?|?].
Qed.
Section ownership.
Context `{Schema}.
Lemma unset_has_spec o a s :
  things_ok s → object_ok o → attribute_ok a →
  ∃ s', TM.unset_has o a s = Val s' ∧ confined (either (TM.has_key o a) (TM.has_reverse_key o a)) s s' ∧ things_ok s' ∧
    view (TM.has_key o a) s' = None ∧ view (TM.has_reverse_key o a) s' = None.
Proof.
  intros Hok Ho Ha. unfold TM.unset_has. rewrite get_status_spec by (by apply t_snapshot || apply object_good).
  cbn [map_err mbind exec_bind].
  destruct (remove_edge_spec (status_of (ObjVertex.into_storage_key o) s) (TM.has_key o a) (TM.has_reverse_key o a) s)
    as (s' & Hs' & Hrest); [done|by constructor| |by exists s'; rewrite Hs'].
  unfold status_of. destruct (written _ s) as [[]|] eqn:Hw; try done; [intros _|by destruct (stored _ s)].
  by apply (t_fresh s Hok o value).
Qed.
Lemma set_has_count_spec o a count value s :
  things_ok s → object_ok o → attribute_ok a →
  get_attribute_value a s = Val value → validate_has o a value s = Val () →
  ∃ s', TM.set_has_count o a count s = Val s' ∧ confined (either (TM.has_key o a) (TM.has_reverse_key o a)) s s' ∧
    things_ok s' ∧ view (TM.has_key o a) s' = edge_value count ∧ view (TM.has_reverse_key o a) s' = edge_value count.
Proof.
  intros Hok Ho Ha Hv Hval. unfold TM.set_has_count. rewrite Hv. cbn [map_err mbind exec_bind]. rewrite Hval. cbn [mbind exec_bind].
  unfold edge_value. destruct (count =? 0); [by apply unset_has_spec|].
  destruct (set_required_spec o s Hok) as (s1 & Hs1 & Hc1 & Hok1). rewrite Hs1. cbn [map_err mbind exec_bind].
  assert (Hc2 := lock_confined nowhere (AttrVertex.to_bytes a) s1 (t_snapshot s1 Hok1)).
  assert (Hok2 := things_nowhere _ _ Hok1 Hc2).
  destruct (put_both_spec (TM.has_key o a) (TM.has_reverse_key o a) count (TM.lock_existing_attribute a s1)) as (s' & Hs' & Hc & Hok' & Hvs);
    [done|by constructor|].
  rewrite Hs'. exists s'. split; [done|]. split; [|done]. eapply confined_trans; [|done].
  eapply confined_weaken; [|by eapply confined_trans]. by intros ? [].
Qed.

(** C23: setting how often an owner has an attribute.  When the attribute can be
    read and the schema allows the ownership, the operation succeeds; afterwards
    the edge from the owner and the edge from the attribute both carry the
    count, or are both gone when the count is zero; no other key of the
    snapshot changes; and the invariant is kept, so the two directions of every
    edge still agree. *)
Theorem ownership_edges_in_step o a count value s :
  things_ok s → object_ok o → attribute_ok a →
  get_attribute_value a s = Val value → validate_has o a value s = Val () →
  (∃ s', TM.set_has_count o a count s = Val s' ∧ things_ok s' ∧
     edge_set (TM.has_key o a) (TM.has_reverse_key o a) count s s') ∧
  (∃ s', TM.unset_has o a s = Val s' ∧ things_ok s' ∧ edge_set (TM.has_key o a) (TM.has_reverse_key o a) 0 s s').
Proof.
  intros Hok Ho Ha Hv Hval. split.
  - destruct (set_has_count_spec o a count value s Hok Ho Ha Hv Hval) as (s' & Hs' & Hc & Hok' & Hv1 & Hv2).
    exists s'. split; [done|]. split; [done|]. by apply confined_edge_set.
  - destruct (unset_has_spec o a s Hok Ho Ha) as (s' & Hs' & Hc & Hok' & Hv1 & Hv2).
    exists s'. split; [done|]. split; [done|]. by apply confined_edge_set.
Qed.
End ownership.

(** An opened snapshot of an empty database. *)
Lemma empty_backend_ok : backend_ok (Memory.new []).
Proof.
  split; [done|]. split; [done|]. split; [constructor|constructor|intros a b Ha; by apply not_elem_of_nil in Ha|].
  intros a b c t Ha. by apply not_elem_of_nil in Ha.
Qed.
Lemma empty_written key : 0 ≤ key.1 → written key empty_snapshot = None.
Proof.
  intros Hid. unfold written, buffered, empty_snapshot. cbn [ws_operations OB.new ob_write_buffers]. rewrite list_lookup_fmap.
  by destruct (seq _ _ !! _).
Qed.
Lemma empty_backend id b : backend_of id (ws_storage empty_snapshot) = Some b → b = Memory.new [].
Proof.
  intros (k & Hk & <-)%backend_in. cbn [empty_snapshot ws_storage encoding_keyspaces kss_keyspaces] in Hk.
  by apply list_elem_of_fmap in Hk as (i & -> & _).
Qed.
Lemma empty_stored key : stored key empty_snapshot = None.
Proof.
  unfold stored, value. destruct (backend_of _ _) as [b|] eqn:Hb; [|done]. by apply empty_backend in Hb as ->.
Qed.
Lemma empty_things_ok : things_ok empty_snapshot.
Proof.
  assert (Hkn : ∀ key, 0 ≤ key.1 → ¬ known key empty_snapshot).
  { intros key Hid [[w Hw]|(b & v & Hb & Hv & _)]; [by rewrite empty_written in Hw|].
    apply empty_backend in Hb as ->. by apply not_elem_of_nil in Hv. }
  split.
  - apply opened_snapshot_ok. apply Forall_forall. intros k Hk. cbn [encoding_keyspaces kss_keyspaces] in Hk.
    apply list_elem_of_fmap in Hk as (i & -> & _). apply empty_backend_ok.
  - intros k. split; [destruct k; cbn; lia|]. destruct k; by eexists.
  - intros key Hks%edge_keyspace_range Hk. by destruct (Hkn key (proj1 Hks)).
  - intros key v _. by rewrite empty_stored.
  - intros key w Hks%edge_keyspace_range. by rewrite empty_written by lia.
  - intros k1 k2 Hp. destruct (pair_ids _ _ Hp) as ([Hi1 Hi2] & _). by rewrite !empty_stored, !empty_written by lia.
  - intros o v _. rewrite empty_written by (cbn; lia). discriminate.
Qed.
(** A schema that allows every ownership and indexes every relation. *)
Definition open_schema : Schema (H0:=Calendar.zoned) := {|
  relation_index_available := λ _ _, Val true; validate_has := λ _ _ _ _, Val () |}.
Definition example_owner : ObjectVertex := ObjVertex.build_entity 1 7.
Definition example_attribute : AttributeVertex := mk_AttributeVertex 2 (IdInteger (1 :: Prim.encode_i64 42)).
Lemma example_owner_ok : object_ok example_owner.
Proof. split; [by left|split; [unfold is_u16|unfold is_u64]; simpl; lia]. Qed.
Lemma example_attribute_ok : attribute_ok example_attribute.
Proof.
  split; [unfold is_u16; simpl; lia|]. split; [by eexists|]. apply (bool_decide_unpack _). vm_compute. exact I.
Qed.
Lemma example_attribute_value :
  get_attribute_value (H0:=Calendar.zoned) example_attribute empty_snapshot = Val (VInteger 42).
Proof.
  unfold get_attribute_value. cbn [av_attribute_id example_attribute].
  assert (InlineID.read CatInteger (1 :: Prim.encode_i64 42) = Val 42) as -> by (vm_compute; reflexivity). reflexivity.
Qed.
Lemma ownership_edges_in_step_witness :
  ∃ s', TM.set_has_count (H1:=open_schema) example_owner example_attribute 3 empty_snapshot = Val s' ∧ things_ok s' ∧
    edge_set (TM.has_key example_owner example_attribute) (TM.has_reverse_key example_owner example_attribute) 3 empty_snapshot s'.
Proof.
  exact (proj1 (ownership_edges_in_step (H1:=open_schema) example_owner example_attribute 3 (VInteger 42) empty_snapshot
    empty_things_ok example_owner_ok example_attribute_ok example_attribute_value eq_refl)).
Defined.

(** ** Scanning edges *)
(** A scan's loop, as a fold over the entries that the scan yields. *)
Fixpoint fold_body {A E} (body : bytes → bytes → A → exec E A) (l : list (bytes * bytes)) (a : A) : exec E A :=
  match l with
  | [] => Val a
  | kv :: l => a ← body kv.1 kv.2 a; fold_body body l a
  end.
Lemma for_each_fold {A E} n fuel wrap (body : bytes → bytes → A → exec E A) id it l a :
  yields (H:=SnapIter.next (H:=mvcc_source fuel) fuel) it (snapshot_items id l) → (length l < n)%nat →
  TM.for_each n fuel wrap body it a = fold_body body l a.
Proof.
  revert n it a. induction l as [|[k v] l IH]; intros n it a Hy Hn; (destruct n as [|n]; [cbn in Hn; lia|]);
    apply yields_next in Hy as (it' & Hnx & Hy); unfold li_next in Hnx; cbn [TM.for_each]; rewrite Hnx; cbn [lift mbind exec_bind];
    [done|]. cbn [fold_body fst snd]. cbn [snapshot_items List.map head snd fst].
  destruct (body k v a); cbn [mbind exec_bind]; [|done..]. apply IH; [done|]. cbn in Hn. lia.
Qed.
Lemma known_edges id s n :
  things_ok s → edge_keyspace id → (∀ key, edge_key key → key.1 = id → (n ≤ length key.2)%nat) → keys_cover n id s.
Proof.
  intros Hok Hid Hlen. apply keys_cover_known; [by apply t_snapshot|apply edge_keyspace_range in Hid; lia| |].
  - intros k Hk. apply (Hlen (id, k)); [|done]. by apply (t_keys s Hok).
  - intros k k' Hk Hk'. apply (edge_prefix_free (id, k) (id, k')); by apply (t_keys s Hok).
Qed.
(** A scan of the edges of one of their keyspaces. *)
Lemma edge_scan k p fw s :
  things_ok s → edge_keyspace (EncodingKeyspaces.id k) → prefix_ok p →
  (∀ key, edge_key key → key.1 = EncodingKeyspaces.id k → (length p ≤ length key.2)%nat) →
  ∃ n, ∀ fuel, (n ≤ fuel)%nat → ∃ it out, TM.iterate_prefix (k, p) fw s = Val it ∧
    yields (H:=SnapIter.next (H:=mvcc_source fuel) fuel) it (snapshot_items (EncodingKeyspaces.id k) out) ∧
    (length out < fuel)%nat ∧ NoDup out.*1 ∧
    ∀ b v, (b, v) ∈ out ↔ p `prefix_of` b ∧ view (EncodingKeyspaces.id k, b) s = Some v.
Proof.
  intros Hok Hks Hp Hlen. exists (S (entries (EncodingKeyspaces.id k) s)). intros fuel Hfuel.
  destruct (prefix_scan fuel (EncodingKeyspaces.id k) p fw s) as (it & out & Hit & Hy & Hwf & Hl & Hin);
    [by apply t_snapshot|by apply t_open|done|by apply known_edges|unfold fits; lia|].
  exists it, out. do 3 (split; [done|]). split; [by apply bt_wf_NoDup|done].
Qed.
Lemma edge_count_value key v s : things_ok s → edge_keyspace key.1 → view key s = Some v → is_count v.
Proof.
  intros Hok Hks. unfold view. destruct (written key s) as [w|] eqn:Hw; [|by apply (t_stored s Hok)].
  pose proof (t_written s Hok key w Hks Hw) as He. destruct w; cbn; [done| |done]. by intros [= <-].
Qed.
Lemma view_edge key v s : things_ok s → edge_keyspace key.1 → view key s = Some v → edge_key key.
Proof. intros Hok Hks Hv. apply (t_keys s Hok); [done|]. by eapply view_known. Qed.
Lemma decode_count v : is_count v → decode_value_u64 v = Val (be_value v) ∧ Prim.encode_u64 (be_value v) = v.
Proof.
  intros [Hb Hl]. unfold decode_value_u64, into_array, Prim.decode_u64, Prim.encode_u64. rewrite Hl. split; [done|].
  rewrite <-Hl at 1. by apply be_bytes_be_value.
Qed.

(** ** Owners of an attribute *)
Definition owner_entry (kv : bytes * bytes) (oc : ObjectVertex * Z) : Prop :=
  ∃ a, has_reverse_ok (mk_ThingEdgeHasReverse a oc.1) ∧ kv.1 = EdgeHasReverse.to_bytes (mk_ThingEdgeHasReverse a oc.1) ∧
    is_count kv.2 ∧ oc.2 = be_value kv.2.
Lemma collect_owners_fold l : ∀ owners found,
  Forall2 owner_entry l found →
  fold_body (E:=ConceptReadError) (λ key value owners,
    edge ← lift (EdgeHasReverse.decode key);
    count ← lift (decode_value_u64 value);
    Val (owners ++ [(hr_owner edge, count)])) l owners = Val (owners ++ found).
Proof.
  induction l as [|[k v] l IH]; intros owners found Hf.
  - apply Forall2_nil_inv_l in Hf as ->. cbn. by rewrite app_nil_r.
  - apply Forall2_cons_inv_l in Hf as ([o c] & found' & (a & Ha & Hk & Hc & Hv) & Hf & ->). cbn [fst snd] in *. subst k c.
    cbn [fold_body fst snd]. rewrite has_reverse_decodes by done. cbn [lift mbind exec_bind].
    destruct (decode_count v Hc) as [-> _]. cbn [lift mbind exec_bind hr_owner]. rewrite (IH _ found' Hf).
    by rewrite <-app_assoc.
Qed.
(** The shortest and the longest attributes of a keyspace. *)
Lemma attribute_lengths a b :
  AttrVertex.is_short_encoding a = AttrVertex.is_short_encoding b →
  (AttrID.length (av_attribute_id a) + 3 ≤ AttrID.length (av_attribute_id b) + 11)%nat.
Proof. destruct a as [? []], b as [? []]; vm_compute; intros [=]; lia. Qed.
Lemma Forall_choice {A B} (R : A → B → Prop) l : Forall (λ a, ∃ b, R a b) l → ∃ k, Forall2 R l k.
Proof. induction 1 as [|a l [b Hb] _ [k Hk]]; [by exists []|]. exists (b :: k). by constructor. Qed.
Section owners.
Context (a : AttributeVertex) (p : bytes) (P : ObjectVertex → Prop) (s : WriteSnapshot).
Hypothesis Hok : things_ok s.
Hypothesis Ha : attribute_ok a.
Hypothesis Hp : prefix_ok p.
Hypothesis Hlen : (length p ≤ 7 + AttrID.length (av_attribute_id a))%nat.
Hypothesis Hexact : ∀ e, has_reverse_ok e → p `prefix_of` EdgeHasReverse.to_bytes e ↔ hr_attribute e = a ∧ P (hr_owner e).
Let keyspace := EdgeHasReverse.keyspace_for_is_short (AttrVertex.is_short_encoding a).
Lemma owners_keyspace : edge_keyspace (EncodingKeyspaces.id keyspace).
Proof. unfold keyspace, EdgeHasReverse.keyspace_for_is_short. destruct (AttrVertex.is_short_encoding a); [right; by left|right; by right]. Qed.
Lemma owners_keyspace_reverse key :
  edge_key key → key.1 = EncodingKeyspaces.id keyspace → ∃ e, has_reverse_ok e ∧ key = EdgeHasReverse.into_storage_key e.
Proof.
  assert (Hne : EncodingKeyspaces.id OptimisedPrefix15 ≠ EncodingKeyspaces.id keyspace).
  { unfold keyspace, EdgeHasReverse.keyspace_for_is_short. by destruct (AttrVertex.is_short_encoding a). }
  intros [e He|e He|e He] Hk; [by destruct Hne|by exists e|by destruct Hne].
Qed.
Lemma owners_length key : edge_key key → key.1 = EncodingKeyspaces.id keyspace → (length p ≤ length key.2)%nat.
Proof.
  intros He Hk. destruct (owners_keyspace_reverse key He Hk) as (e & [Hea Heo] & ->).
  assert (Hs : AttrVertex.is_short_encoding a = AttrVertex.is_short_encoding (hr_attribute e)).
  { revert Hk. unfold keyspace. cbn [EdgeHasReverse.into_storage_key fst]. unfold EdgeHasReverse.keyspace.
    destruct (AttrVertex.is_short_encoding a), (AttrVertex.is_short_encoding (hr_attribute e)); intros [=]; done. }
  apply attribute_lengths in Hs. cbn [EdgeHasReverse.into_storage_key snd]. unfold EdgeHasReverse.to_bytes. cbn [length].
  rewrite length_app, length_attribute, length_object by done. unfold ObjVertex.LENGTH, TypeID.LENGTH. lia.
Qed.
(** The entries of the scan. *)
Variable out : list (bytes * bytes).
Hypothesis Hout : ∀ b v, (b, v) ∈ out ↔ p `prefix_of` b ∧ view (EncodingKeyspaces.id keyspace, b) s = Some v.
Lemma owners_entry o : object_ok o → view (TM.has_reverse_key o a) s = view (TM.has_key o a) s.
Proof. intros Ho. symmetry. apply pair_views; [done|by constructor]. Qed.
Lemma owners_out b v :
  (b, v) ∈ out ↔ ∃ o, object_ok o ∧ P o ∧ b = EdgeHasReverse.to_bytes (mk_ThingEdgeHasReverse a o) ∧ view (TM.has_key o a) s = Some v.
Proof.
  rewrite Hout. split.
  - intros [Hpb Hv].
    destruct (owners_keyspace_reverse (EncodingKeyspaces.id keyspace, b)) as ([a' o] & Hok' & Hkey);
      [eapply view_edge; [done|apply owners_keyspace|done]|done|].
    pose proof (f_equal snd Hkey) as Hb. cbn [snd EdgeHasReverse.into_storage_key] in Hb. subst b.
    apply Hexact in Hpb as [Hat HP]; [|done]. cbn in Hat, HP. subst a'.
    exists o. split; [apply Hok'|]. split; [done|]. split; [done|]. by rewrite <-owners_entry by apply Hok'.
  - intros (o & Ho & HP & -> & Hv). split; [by apply Hexact|]. by rewrite <-owners_entry in Hv.
Qed.
Lemma owners_entries : Forall (λ kv, ∃ oc, owner_entry kv oc) out.
Proof.
  apply Forall_forall. intros [b v] Hin. apply owners_out in Hin as (o & Ho & HP & -> & Hv).
  exists (o, be_value v). exists a. split; [done|]. split; [done|]. split; [|done].
  eapply (edge_count_value (TM.has_key o a)); [done|by left|done].
Qed.
Lemma owners_found found o c :
  Forall2 owner_entry out found →
  (o, c) ∈ found ↔ object_ok o ∧ P o ∧ is_u64 c ∧ view (TM.has_key o a) s = Some (Prim.encode_u64 c).
Proof.
  intros Hf. split.
  - intros (i & Hi)%list_elem_of_lookup. destruct (Forall2_lookup_r _ _ _ _ _ Hf Hi) as ([b v] & Hb & a' & Ha' & Hk & Hc & Hv).
    cbn [fst snd] in *. subst b c. apply list_elem_of_lookup_2 in Hb as (o' & Ho' & HP & Heq & Hview)%owners_out.
    apply has_reverse_edge_inj in Heq as [= -> <-]; [|done|done].
    split; [done|]. split; [done|]. destruct (decode_count v Hc) as [_ ->]. split; [|done].
    destruct Hc as [Hb Hl]. unfold is_u64. pose proof (be_value_bound v Hb). rewrite Hl in *. done.
  - intros (Ho & HP & Hc & Hv).
    assert (Hin : (EdgeHasReverse.to_bytes (mk_ThingEdgeHasReverse a o), Prim.encode_u64 c) ∈ out) by (apply owners_out; eauto).
    apply list_elem_of_lookup in Hin as (i & Hi).
    destruct (Forall2_lookup_l _ _ _ _ _ Hf Hi) as ([o' c'] & Hb & a' & Ha' & Hk & Hcnt & Hv').
    cbn [fst snd] in *. apply has_reverse_edge_inj in Hk as [= <- <-]; [|done|done]. subst c'.
    rewrite u64_round_trip in Hb by done. by eapply list_elem_of_lookup_2.
Qed.
Lemma owners_NoDup found : Forall2 owner_entry out found → NoDup out.*1 → NoDup found.*1.
Proof.
  intros Hf Hnd. apply NoDup_alt. intros i j o Hi Hj. apply list_lookup_fmap_Some in Hi as ([o1 c1] & -> & Hi), Hj as ([o2 c2] & [= <-] & Hj).
  destruct (Forall2_lookup_r _ _ _ _ _ Hf Hi) as ([b1 v1] & Hb1 & a1 & Ha1 & Hk1 & _ & _).
  destruct (Forall2_lookup_r _ _ _ _ _ Hf Hj) as ([b2 v2] & Hb2 & a2 & Ha2 & Hk2 & _ & _). cbn [fst snd] in *. subst b1 b2.
  pose proof (list_elem_of_lookup_2 _ _ _ Hb1) as (x1 & Hx1 & _ & Heq1 & _)%owners_out.
  pose proof (list_elem_of_lookup_2 _ _ _ Hb2) as (x2 & Hx2 & _ & Heq2 & _)%owners_out.
  apply has_reverse_edge_inj in Heq1 as [= -> <-]; [|done|done]. apply has_reverse_edge_inj in Heq2 as [= -> _]; [|done|done].
  eapply (NoDup_lookup _ _ _ _ Hnd); rewrite list_lookup_fmap, ?Hb1, ?Hb2; done.
Qed.
End owners.

(** What a search for the owners of [a] that satisfy [P] must return. *)
Definition finds_owners (a : AttributeVertex) (P : ObjectVertex → Prop) (s : WriteSnapshot)
    (search : nat → exec ConceptReadError (list (ObjectVertex * Z))) : Prop :=
  ∃ n, ∀ fuel, (n ≤ fuel)%nat → ∃ owners, search fuel = Val owners ∧ NoDup owners.*1 ∧
    ∀ o c, (o, c) ∈ owners ↔ object_ok o ∧ P o ∧ is_u64 c ∧ view (TM.has_key o a) s = Some (Prim.encode_u64 c).
Lemma collect_owners_spec a p P s :
  things_ok s → attribute_ok a → prefix_ok p → (length p ≤ 7 + AttrID.length (av_attribute_id a))%nat →
  (∀ e, has_reverse_ok e → p `prefix_of` EdgeHasReverse.to_bytes e ↔ hr_attribute e = a ∧ P (hr_owner e)) →
  finds_owners a P s (λ fuel,
    TM.collect_owners fuel (EdgeHasReverse.keyspace_for_is_short (AttrVertex.is_short_encoding a), p) s).
Proof.
  intros Hok Ha Hp Hlen Hexact.
  destruct (edge_scan (EdgeHasReverse.keyspace_for_is_short (AttrVertex.is_short_encoding a)) p
    EdgeHasReverse.FIXED_WIDTH_ENCODING s) as (n & Hn); [done|apply owners_keyspace|done|by apply owners_length|].
  exists n. intros fuel Hfuel. destruct (Hn fuel Hfuel) as (it & out & Hit & Hy & Hl & Hnd & Hin).
  destruct (Forall_choice owner_entry out) as (found & Hf); [by eapply owners_entries|].
  exists found. unfold TM.collect_owners. rewrite Hit. cbn [lift mbind exec_bind].
  split; [|split; [by eapply owners_NoDup|intros o c; by eapply owners_found]].
  rewrite (for_each_fold _ _ _ _ _ _ _ _ Hy Hl). by apply (collect_owners_fold out [] found).
Qed.
Lemma reverse_prefix_ok a rest : attribute_ok a → is_bytes rest → prefix_ok (Prefixes.prefix_id EdgeHasReverse :: AttrVertex.to_bytes a ++ rest).
Proof.
  intros Ha Hr. split; [|vm_compute; reflexivity]. constructor; [apply prefix_id_byte|].
  apply Forall_app_2; [by apply attribute_is_bytes|done].
Qed.

(** The owners of an attribute are found exactly.  The search scans the
    edges stored from the attribute; it terminates and returns, each once,
    exactly the objects that have the attribute according to the edges stored
    from the owners, with their counts; the search by a type of owners returns
    exactly those of that type. *)
Lemma owners_found_exactly a tp t p s :
  things_ok s → attribute_ok a → is_u16 t → instances_of tp p →
  finds_owners a (λ _, True) s (λ fuel, TM.get_owners fuel a s) ∧
  finds_owners a (λ o, ov_prefix o = p ∧ ov_type_id o = t) s
    (λ fuel, TM.get_owners_by_type fuel a (TypeVertex.new (Prefixes.prefix_id tp) t) s).
Proof.
  intros Hok Ha Ht Hinst. destruct (type_vertex_parts tp t Ht) as [Hid Hpre]. split.
  - apply (collect_owners_spec a (EdgeHasReverse.prefix_from_attribute a).2); [done..| | |].
    + unfold EdgeHasReverse.prefix_from_attribute. cbn [snd]. rewrite <-(app_nil_r (AttrVertex.to_bytes a)).
      by apply reverse_prefix_ok.
    + cbn [EdgeHasReverse.prefix_from_attribute snd length]. rewrite length_attribute by done. lia.
    + intros e He. unfold instances_of in Hinst.
      destruct (has_reverse_prefixes e a tp t p (EdgeHasReverse.keyspace_for_is_short (AttrVertex.is_short_encoding a),
        Prefixes.prefix_id EdgeHasReverse :: AttrVertex.to_bytes a ++ write_prefix_type p t)) as [-> _]; [done..| |tauto].
      unfold EdgeHasReverse.prefix_from_attribute_to_type_parts. by rewrite Hinst.
  - set (pre := Prefixes.prefix_id EdgeHasReverse :: AttrVertex.to_bytes a ++ write_prefix_type p t).
    assert (Hparts : EdgeHasReverse.prefix_from_attribute_to_type_parts a tp t =
      Val (EdgeHasReverse.keyspace_for_is_short (AttrVertex.is_short_encoding a), pre)).
    { unfold EdgeHasReverse.prefix_from_attribute_to_type_parts. unfold instances_of in Hinst. by rewrite Hinst. }
    assert (Hf : finds_owners a (λ o, ov_prefix o = p ∧ ov_type_id o = t) s (λ fuel, TM.collect_owners fuel
      (EdgeHasReverse.keyspace_for_is_short (AttrVertex.is_short_encoding a), pre) s)).
    { apply collect_owners_spec; [done..| | |].
      - apply reverse_prefix_ok; [done|]. constructor; [apply prefix_id_byte|apply be_bytes_is_bytes].
      - unfold pre. cbn [length]. rewrite length_app, length_attribute by done. unfold write_prefix_type. cbn [length].
        rewrite length_type_id. unfold TypeID.LENGTH. lia.
      - intros e He. by apply (has_reverse_prefixes e a tp t p _ He Ha Ht Hinst Hparts). }
    destruct Hf as (n & Hn). exists n. intros fuel Hfuel. unfold TM.get_owners_by_type.
    unfold EdgeHasReverse.prefix_from_attribute_to_type. rewrite Hpre. cbn [mbind exec_bind]. rewrite Hid, Hparts.
    cbn [lift mbind exec_bind]. by apply Hn.
Qed.
Lemma owners_found_exactly_witness :
  ∃ s, TM.put_both (TM.has_key example_owner example_attribute) (TM.has_reverse_key example_owner example_attribute) 3
      empty_snapshot = Val s ∧
  ∃ n, ∀ fuel, (n ≤ fuel)%nat → ∃ owners, TM.get_owners fuel example_attribute s = Val owners ∧ (example_owner, 3) ∈ owners.
Proof.
  destruct (put_both_spec (TM.has_key example_owner example_attribute) (TM.has_reverse_key example_owner example_attribute) 3
    empty_snapshot) as (s & Hs & _ & Hok & Hv & _);
    [exact empty_things_ok|apply pair_has; [exact example_owner_ok|exact example_attribute_ok]|].
  exists s. split; [exact Hs|].
  destruct (owners_found_exactly example_attribute VertexEntityType 1 VertexEntity s Hok example_attribute_ok) as [(n & Hn) _];
    [unfold is_u16; lia|reflexivity|].
  exists n. intros fuel Hfuel. destruct (Hn fuel Hfuel) as (owners & Hos & _ & Hin). exists owners. split; [exact Hos|].
  apply Hin. split; [exact example_owner_ok|]. split; [exact I|]. split; [unfold is_u64; lia|exact Hv].
Defined.

(** ** Owners of an unbounded range of types *)
Definition owners_from (a : AttributeVertex) : bytes := Prefixes.prefix_id EdgeHasReverse :: AttrVertex.to_bytes a ++ write_prefix_type VertexRelation 0.
Definition owners_to (a : AttributeVertex) : bytes := Prefixes.prefix_id EdgeHasReverse :: AttrVertex.to_bytes a ++ write_prefix_type VertexEntity 65535.
Lemma unbounded_owner_range a :
  TM.owner_type_range_keys a Unbounded Unbounded =
  Val (mk_KeyRange (Inclusive (EdgeHasReverse.keyspace_for_is_short (AttrVertex.is_short_encoding a), owners_from a))
    (EndPrefixInclusive (EdgeHasReverse.keyspace_for_is_short (AttrVertex.is_short_encoding a), owners_to a))
    EdgeHasReverse.FIXED_WIDTH_ENCODING).
Proof. reflexivity. Qed.
Lemma owners_range_reversed a : owners_to a ≺ owners_from a.
Proof.
  unfold owners_to, owners_from. rewrite !app_comm_cons, list_cmp_app_len by done. rewrite cmp_refl. reflexivity.
Qed.
Lemma length_owners_range a : length (owners_to a) = length (owners_from a).
Proof. unfold owners_to, owners_from. rewrite !app_comm_cons, !length_app. reflexivity. Qed.
Lemma owners_range_empty a fw k :
  (length (owners_to a) ≤ length k)%nat →
  in_range (mk_KeyRange (Inclusive (owners_from a)) (EndPrefixInclusive (owners_to a)) fw) (owners_from a) k = false.
Proof.
  intros Hl. apply not_true_is_false. unfold in_range. cbn. rewrite andb_true_iff, leb_le, orb_true_iff, leb_le.
  pose proof (owners_range_reversed a) as Hlt. intros [Hge [Hpre%starts_with_prefix_of|Hle]].
  - apply prefix_length_eq in Hpre as ->; [|done]. by apply (cmp_irrefl (owners_to a)), (cmp_lt_le_trans _ (owners_from a)).
  - apply (take_mono (length (owners_to a))) in Hge. rewrite take_ge in Hge by (by rewrite length_owners_range).
    apply (cmp_irrefl (owners_to a)). eapply cmp_lt_le_trans; [exact Hlt|]. by eapply cmp_le_trans.
Qed.
Lemma owners_to_end a : attribute_ok a → is_bytes (owners_to a) ∧ increment_unwrap (E:=Empty_set) (owners_to a) = Val (owners_from a).
Proof.
  intros Ha. assert (Hx : is_bytes (Prefixes.prefix_id EdgeHasReverse :: AttrVertex.to_bytes a)).
  { constructor; [apply prefix_id_byte|by apply attribute_is_bytes]. }
  assert (Hb : is_bytes (owners_to a)).
  { unfold owners_to. rewrite app_comm_cons. apply Forall_app_2; [done|]. constructor; [apply prefix_id_byte|apply be_bytes_is_bytes]. }
  split; [done|]. apply increment_unwrap_spec; [done|].
  assert (Hbf : is_bytes (owners_from a)).
  { unfold owners_from. rewrite app_comm_cons. apply Forall_app_2; [done|]. constructor; [apply prefix_id_byte|apply be_bytes_is_bytes]. }
  assert (Hv : be_value (owners_to a) + 1 = be_value (owners_from a)).
  { unfold owners_to, owners_from. rewrite !app_comm_cons, !be_value_app.
    change (length (write_prefix_type VertexEntity 65535)) with 3%nat. change (length (write_prefix_type VertexRelation 0)) with 3%nat.
    replace (be_value (write_prefix_type VertexRelation 0)) with (be_value (write_prefix_type VertexEntity 65535) + 1) by reflexivity. lia. }
  rewrite Hv, length_owners_range. split; [by apply be_value_bound|by rewrite be_bytes_be_value].
Qed.
Lemma stored_length id b v s n :
  keys_cover n id s → backend_of id (ws_storage s) = Some b → v ∈ versions b → (n ≤ length (raw v).1)%nat.
Proof.
  intros [_ Hc] Hb Hv. destruct (Hc b Hb) as [_ Hl]. specialize (Hl v Hv). unfold raw. cbn [fst]. rewrite build_app, length_app. lia.
Qed.

Lemma filter_nothing {A} (f : A → bool) l : (∀ x, x ∈ l → f x = false) → List.filter f l = [].
Proof.
  induction l as [|x l IH]; intros Hf; [done|]. cbn. rewrite Hf by left. apply IH. intros y Hy. apply Hf. by right.
Qed.
Lemma owners_range_buffer a b fw :
  increment_unwrap (E:=Empty_set) (owners_to a) = Val (owners_from a) →
  WB.iterate_range (mk_KeyRange (Inclusive (owners_from a)) (EndPrefixInclusive (owners_to a)) fw) b = Val [].
Proof.
  intros Hinc. unfold WB.iterate_range, WB.bounds. cbn [range_start range_end WB.compute_exclusive_end]. rewrite Hinc.
  cbn [mbind exec_bind WB.range_start_as_bound]. unfold bt_range.
  assert (Hlt : ltb (owners_from a) (owners_from a) = false) by (unfold ltb; by rewrite cmp_refl).
  unfold range_panics. rewrite Hlt. cbn [mbind exec_bind].
  replace (List.filter _ (wb_writes b)) with (@nil (bytes * Write)); [done|]. symmetry. apply filter_nothing. intros [k w] _.
  unfold above, below. cbn [fst]. apply andb_false_iff. destruct (ltb k (owners_from a)) eqn:Hk; [left|by right].
  apply not_true_is_false. rewrite leb_le. apply ltb_lt in Hk. intros Hle.
  by apply (cmp_irrefl k), (cmp_lt_le_trans _ (owners_from a)).
Qed.

(** A search for the owners of an attribute over all types of owners finds
    nothing.  The bounds of the range take the smallest and the largest prefix
    of an object type the wrong way round, so the range is empty: the scan does
    not fail, and yields no owner whatever edges there are. *)
Lemma unbounded_owner_scan_is_empty a s :
  things_ok s → attribute_ok a →
  ∃ n, ∀ fuel, (n ≤ fuel)%nat → ∃ it, TM.has_reverse_by_owner_type_range a Unbounded Unbounded s = Val it ∧
    yields (H:=SnapIter.next (H:=mvcc_source fuel) fuel) it [].
Proof.
  intros Hok Ha. set (k := EdgeHasReverse.keyspace_for_is_short (AttrVertex.is_short_encoding a)).
  set (id := EncodingKeyspaces.id k). pose proof (t_snapshot s Hok) as Hs.
  assert (Hcov : keys_cover (length (owners_to a)) id s).
  { apply known_edges; [done|apply owners_keyspace|]. apply owners_length.
    unfold owners_to. cbn [length]. rewrite length_app, length_attribute by done. cbn [write_prefix_type length].
    rewrite length_type_id. unfold TypeID.LENGTH. lia. }
  destruct (t_open s Hok k) as [Hid [b Hb]]. fold id in Hid, Hb.
  destruct (buffer_exists s id Hs Hid) as (wb & Hwb & Hwid & Hwf). destruct (sn_backend s Hs id b (proj1 Hid) Hb) as (Hpo & Hraw & Hst).
  destruct (owners_to_end a Ha) as [Hbt Hinc]. exists (S (entries id s)). intros fuel Hfuel.
  set (range := mk_KeyRange (Inclusive (owners_from a)) (EndPrefixInclusive (owners_to a)) EdgeHasReverse.FIXED_WIDTH_ENCODING).
  assert (Hfits : (length (wb_writes wb) + length (mb_data b) < fuel)%nat) by (unfold entries in Hfuel; rewrite Hwb, Hb in Hfuel; lia).
  destruct (proj2 Hcov b Hb) as [Hpf _].
  destruct (snapshot_scan_overlay fuel id range (owners_from a) s b (versions b) wb []) as (it & out & Hit & Hy & Hwfo & Hget).
  - done.
  - done.
  - done.
  - done.
  - done.
  - done.
  - done.
  - done.
  - split; [|by intros e [= <-]]. cbn. apply increment_unwrap_spec in Hinc as [_ ->]; [apply be_bytes_is_bytes|done].
  - done.
  - by intros p [=].
  - rewrite Hraw. apply Forall_forall. intros kv (v & -> & Hv)%list_elem_of_fmap. left. by eapply stored_length.
  - apply Forall_forall. intros kw Hin. pose proof (proj1 Hcov wb kw Hwb Hin) as Hl.
    pose proof (sn_bytes s Hs _ _ Hwb) as Hbs. rewrite Forall_forall in Hbs.
    split; [by apply Hbs|]. split; [cbn [range range_start start_value]; by rewrite <-length_owners_range|]. split; [done|by intros e [=]].
  - by apply owners_range_buffer.
  - lia.
  - lia.
  - exists it. split.
    + unfold TM.has_reverse_by_owner_type_range. rewrite unbounded_owner_range. exact Hit.
    + destruct out as [|[x y] out]; [done|]. exfalso. specialize (Hget x). rewrite bt_get_cons in Hget. unfold eqb in Hget.
      rewrite cmp_refl in Hget. rewrite !filter_nothing in Hget; [done| |]; intros kw Hin; apply owners_range_empty.
      * by eapply stored_length.
      * by apply (proj1 Hcov wb).
Qed.
Lemma unbounded_owner_scan_is_empty_witness :
  ∃ s, TM.put_both (TM.has_key example_owner example_attribute) (TM.has_reverse_key example_owner example_attribute) 3
      empty_snapshot = Val s ∧
    view (TM.has_key example_owner example_attribute) s = Some (Prim.encode_u64 3) ∧
    ∃ n, ∀ fuel, (n ≤ fuel)%nat → ∃ it, TM.has_reverse_by_owner_type_range example_attribute Unbounded Unbounded s = Val it ∧
      yields (H:=SnapIter.next (H:=mvcc_source fuel) fuel) it [].
Proof.
  destruct (put_both_spec (TM.has_key example_owner example_attribute) (TM.has_reverse_key example_owner example_attribute) 3
    empty_snapshot) as (s & Hs & _ & Hok & Hv & _);
    [exact empty_things_ok|apply pair_has; [exact example_owner_ok|exact example_attribute_ok]|].
  exists s. split; [exact Hs|]. split; [exact Hv|].
  exact (unbounded_owner_scan_is_empty example_attribute s Hok example_attribute_ok).
Defined.
