(* ===== verification/Players.v ===== *)
(** * Players of relations: theorems about [ThingManager]

    A relation and its players are connected by edges in both directions; a
    relation whose type is indexed also keeps, for every pair of its players,
    an entry from the one to the other that carries the count of the other.
    The operations on players keep edges and index in step, except for the
    entry from a player to itself. *)
From stdpp Require Import strings gmap.
From S2P Require Import Prelude BTree Bytes MemoryStore Buffer LendingIter Mvcc Keyspaces Snapshot Dependency Timeline Isolation Storage Views Decimal Duration Layout TimeZones Values Structs Attributes Things Edges ThingManager ThingGraph.
Import KeyRangeOps.

(** ** Role players and their keys *)
Abbreviation role_player := (ObjectVertex * Z)%type.
Definition rp_ok (x : role_player) : Prop := object_ok x.1 ∧ is_u16 x.2.
Definition relation_ok (r : ObjectVertex) : Prop := object_ok r ∧ ov_prefix r = VertexRelation.
Definition lnk (r : ObjectVertex) (x : role_player) : skey := TM.links_key r x.1 x.2.
Definition lnk_rev (r : ObjectVertex) (x : role_player) : skey := TM.links_reverse_key r x.1 x.2.
Definition idx (r : ObjectVertex) (x y : role_player) : skey := TM.index_key x.1 y.1 r x.2 y.2.

Lemma lnk_edge r x : rp_ok x → lnk r x = EdgeLinks.into_storage_key (mk_ThingEdgeLinks r x.1 x.2 false).
Proof. intros [_ Hx]. by apply links_key_edge. Qed.
Lemma lnk_pair r x : object_ok r → rp_ok x → edge_pair (lnk r x) (lnk_rev r x).
Proof. intros Hr [Hx Hr']. by constructor. Qed.
Lemma lnk_inj r x r' x' : object_ok r → rp_ok x → object_ok r' → rp_ok x' → lnk r x = lnk r' x' → r = r' ∧ x = x'.
Proof.
  intros Hr [Hp Hro] Hr' [Hp' Hro'] Heq. destruct (links_keys_inj r x.1 x.2 r' x'.1 x'.2) as [H _]; [done..|].
  destruct (H Heq) as (-> & H1 & H2). split; [done|]. destruct x, x'; cbn in *; congruence.
Qed.
Lemma idx_edge r x y :
  rp_ok x → rp_ok y → idx r x y = EdgeIndex.into_storage_key (EdgeIndex.new x.1 y.1 r x.2 y.2).
Proof. intros [_ Hx] [_ Hy]. unfold idx, TM.index_key. by rewrite !role_vertex_id. Qed.
Lemma idx_inj r x y r' x' y' :
  relation_ok r → rp_ok x → rp_ok y → relation_ok r' → rp_ok x' → rp_ok y' → idx r x y = idx r' x' y' → r = r' ∧ x = x' ∧ y = y'.
Proof.
  intros [[_ [Hrt Hri]] Hrp] [Hx Hxr] [Hy Hyr] [[_ [Hrt' Hri']] Hrp'] [Hx' Hxr'] [Hy' Hyr'].
  rewrite !idx_edge by done. intros Heq%(f_equal snd)%index_edge_inj; [|repeat (split; [done|]); done|repeat (split; [done|]); done].
  destruct r, r', x, x', y, y'. cbn in *. unfold EdgeIndex.new in Heq. cbn in Heq. injection Heq as -> -> -> -> -> ->. by subst.
Qed.
Lemma idx_in_index r x y : in_index (idx r x y).
Proof. done. Qed.
Lemma idx_bytes r x y : is_bytes (idx r x y).2.
Proof.
  unfold idx, TM.index_key, EdgeIndex.into_storage_key, EdgeIndex.to_bytes. cbn [snd].
  constructor; [apply prefix_id_byte|]. repeat apply Forall_app_2; try apply object_is_bytes; apply be_bytes_is_bytes.
Qed.
Lemma idx_id r x y : 0 ≤ (idx r x y).1 < 10.
Proof. change ((idx r x y).1) with 3. lia. Qed.
Lemma idx_not_edge r x y key : edge_key key → idx r x y ≠ key.
Proof. intros Hk%edge_keyspaces <-. destruct Hk as [Hk|[Hk|Hk]]; discriminate Hk. Qed.
Lemma lnk_is_edge r x : object_ok r → rp_ok x → edge_key (lnk r x).
Proof. intros Hr Hx. by destruct (pair_edges _ _ (lnk_pair r x Hr Hx)). Qed.
Lemma same_role_player x y : TM.is_same_role_player x.1 x.2 y.1 y.2 = bool_decide (x = y).
Proof.
  unfold TM.is_same_role_player. destruct x as [p r], y as [q t]. cbn. repeat case_bool_decide; cbn; try done.
  - destruct (Z.eqb_spec r t); naive_solver.
  - destruct (Z.eqb_spec r t); naive_solver.
  - naive_solver.
Qed.

(** ** The scan over the players of a relation *)
Definition link_entry (r : ObjectVertex) (kv : bytes * bytes) : Prop :=
  ∃ x, rp_ok x ∧ kv.1 = (lnk r x).2 ∧ is_count kv.2.
Lemma relation_prefix_ok r : prefix_ok (EdgeLinks.prefix_from_relation r).2.
Proof. split; [|vm_compute; reflexivity]. constructor; [apply prefix_id_byte|apply object_is_bytes]. Qed.
Lemma links_of_relation r key :
  object_ok r → edge_key key → (EdgeLinks.prefix_from_relation r).2 `prefix_of` key.2 → ∃ x, rp_ok x ∧ key.2 = (lnk r x).2.
Proof.
  intros Hr [e He|e He|e He] Hp; [destruct Hp as [t Ht]; apply (f_equal head) in Ht; discriminate Ht..|].
  cbn [EdgeLinks.into_storage_key snd] in *.
  destruct (links_prefixes e r (l_player e)) as [[Hf _] _]; [done|done|apply He|]. destruct (Hf Hp) as [Hrev Hrel].
  exists (l_player e, l_role_id e). destruct e as [r' p role rev]. cbn in Hrev, Hrel. subst r' rev. destruct He as (_ & Hpl & Hro).
  split; [done|]. by rewrite lnk_edge.
Qed.
Lemma links_scan r s :
  things_ok s → object_ok r →
  ∃ n, ∀ fuel, (n ≤ fuel)%nat → ∃ it out,
    TM.iterate_prefix (EdgeLinks.prefix_from_relation r) EdgeLinks.FIXED_WIDTH_ENCODING s = Val it ∧
    yields (H:=SnapIter.next (H:=mvcc_source fuel) fuel) it (snapshot_items (EncodingKeyspaces.id EdgeLinks.KEYSPACE) out) ∧
    (length out < fuel)%nat ∧ NoDup out.*1 ∧ Forall (link_entry r) out ∧
    ∀ x v, rp_ok x → ((lnk r x).2, v) ∈ out ↔ view (lnk r x) s = Some v.
Proof.
  intros Hok Hr.
  destruct (edge_scan EdgeLinks.KEYSPACE (EdgeLinks.prefix_from_relation r).2 EdgeLinks.FIXED_WIDTH_ENCODING s) as (n & Hn);
    [done|by left|apply relation_prefix_ok| |].
  { intros key Hk Hid. cbn [EdgeLinks.prefix_from_relation snd length]. rewrite length_object.
    destruct Hk as [e [Ho Ha]|e [Ha Ho]|e He]; cbn [EdgeHas.into_storage_key EdgeHasReverse.into_storage_key EdgeLinks.into_storage_key snd].
    - unfold EdgeHas.to_bytes. cbn [length]. rewrite length_app, length_object. lia.
    - unfold EdgeHasReverse.to_bytes. cbn [length]. rewrite length_app, length_object. lia.
    - rewrite length_links. vm_compute. lia. }
  exists n. intros fuel Hfuel. destruct (Hn fuel Hfuel) as (it & out & Hit & Hy & Hl & Hnd & Hin).
  exists it, out. do 4 (split; [done|]). split.
  - apply Forall_forall. intros [k v] Hkv. apply Hin in Hkv as [Hp Hv].
    destruct (links_of_relation r (EncodingKeyspaces.id EdgeLinks.KEYSPACE, k)) as (x & Hx & Hk);
      [done|eapply view_edge; [done|by left|done]|done|].
    exists x. split; [done|]. split; [done|]. eapply (edge_count_value (_, k)); [done| |exact Hv]. by left.
  - intros x v Hx. rewrite Hin, lnk_edge by done. cbn [EdgeLinks.into_storage_key fst snd]. split; [by intros []|].
    intros Hv. split; [|done]. apply (links_prefixes _ r x.1); [split; [done|split; apply Hx]|done|apply Hx|done].
Qed.

(** ** The index *)
(** Two buffered writes of the same form. *)
Definition same_shape (a b : option Write) : Prop :=
  match a, b with
  | None, None | Some (Put _ _ _), Some (Put _ _ _) | Some Delete, Some Delete => True
  | _, _ => False
  end.
Lemma same_shape_comm a b : same_shape a b → same_shape b a.
Proof. by destruct a as [[]|], b as [[]|]. Qed.
(** The entry from [x] to [y]: there is one exactly if both are players, and it
    carries the count of [y]. *)
Record index_agrees (r : ObjectVertex) (x y : role_player) (s : WriteSnapshot) : Prop := {
  ia_written : same_shape (written (idx r x y) s) (written (idx r y x) s);
  ia_stored : is_Some (stored (idx r x y) s) ↔ is_Some (stored (idx r y x) s);
  ia_view : view (idx r x y) s = match view (lnk r x) s with Some _ => view (lnk r y) s | None => None end;
}.
Lemma index_agrees_kept K r x y s s' :
  confined K s s' → index_agrees r x y s → ¬ K (idx r x y) → ¬ K (idx r y x) → ¬ K (lnk r x) → ¬ K (lnk r y) → index_agrees r x y s'.
Proof.
  intros Hc [Hw Hst Hv] H1 H2 H3 H4. split.
  - rewrite !(cf_written _ _ _ Hc) by (done || apply idx_id). done.
  - by rewrite !(confined_stored _ _ _ _ Hc).
  - rewrite !(confined_view _ _ _ _ Hc) by (done || apply idx_id). done.
Qed.

(** The two entries of a pair of players are written and stored together. *)
Definition index_paired (r : ObjectVertex) (x y : role_player) (s : WriteSnapshot) : Prop :=
  same_shape (written (idx r x y) s) (written (idx r y x) s) ∧
  (is_Some (stored (idx r x y) s) ↔ is_Some (stored (idx r y x) s)).
Lemma index_paired_kept K r x y s s' :
  confined K s s' → index_paired r x y s → ¬ K (idx r x y) → ¬ K (idx r y x) → index_paired r x y s'.
Proof.
  intros Hc [Hw Hst] H1 H2. unfold index_paired. rewrite !(cf_written _ _ _ Hc) by (done || apply idx_id).
  by rewrite !(confined_stored _ _ _ _ Hc).
Qed.

(** What the loops over the players write. *)
Definition touched (r : ObjectVertex) (pl : role_player) (l : list (bytes * bytes)) (key : skey) : Prop :=
  key = idx r pl pl ∨ ∃ x v, ((lnk r x).2, v) ∈ l ∧ rp_ok x ∧ x ≠ pl ∧ (key = idx r pl x ∨ key = idx r x pl).
Lemma touched_index r pl l key : touched r pl l key → in_index key.
Proof. by intros [-> |(x & v & _ & _ & _ & [-> | ->])]. Qed.
Lemma touched_cons r pl kv l key : touched r pl l key → touched r pl (kv :: l) key.
Proof. intros [->|(x & v & Hin & H)]; [by left|]. right. exists x, v. split; [by right|done]. Qed.

Lemma touched_step r pl kv l s s1 s2 :
  confined (touched r pl [kv]) s s1 → confined (touched r pl l) s1 s2 → confined (touched r pl (kv :: l)) s s2.
Proof.
  intros H1 H2. eapply confined_trans; eapply confined_weaken; [|done| |done]; [|intros key; apply touched_cons].
  intros key [->|(x & v & Hin & Hrest)]; [by left|]. right. exists x, v. split; [|done].
  apply list_elem_of_singleton in Hin as ->. left.
Qed.

Section loops.
Context (r : ObjectVertex) (pl : role_player) (Hr : relation_ok r) (Hpl : rp_ok pl).
Lemma touched_pair x l :
  rp_ok x → x ≠ pl → (lnk r x).2 ∉ l.*1 → ¬ touched r pl l (idx r pl x) ∧ ¬ touched r pl l (idx r x pl).
Proof.
  intros Hx Hne Hn. assert (Hin : ∀ v, ((lnk r x).2, v) ∉ l).
  { intros v Hv. by apply Hn, (list_elem_of_fmap_2' fst _ _ _ Hv). }
  split; (intros [Heq|(y & v & Hy & Hoky & Hney & [Heq|Heq])]; apply idx_inj in Heq as (_ & H1 & H2); try done);
    first [by destruct Hney|by destruct Hne|by subst y; destruct (Hin v)].
Qed.
Lemma touched_other r' x y l :
  relation_ok r' → rp_ok x → rp_ok y → x ≠ y → (r' ≠ r ∨ (x ≠ pl ∧ y ≠ pl)) → ¬ touched r pl l (idx r' x y).
Proof.
  intros Hr' Hx Hy Hxy Hor [Heq|(z & v & _ & Hz & Hne & [Heq|Heq])]; apply idx_inj in Heq as (-> & -> & ->); try done;
    by destruct Hor as [?|[? ?]].
Qed.
Lemma touched_edge l key : edge_key key → ¬ touched r pl l key.
Proof.
  intros Hk%edge_keyspaces Ht%touched_index. rewrite Ht in Hk. destruct Hk as [Hk|[Hk|Hk]]; discriminate Hk.
Qed.

Lemma put_index_spec k v s :
  snapshot_ok s → in_index k → is_bytes k.2 →
  ∃ s', Snap.put_val k v s = Val s' ∧ confined (λ key, key = k) s s' ∧ written k s' = Some (Put v false false).
Proof. intros Hs Hk Hb. apply put_spec; [done|rewrite Hk; cbn; lia|done]. Qed.
Lemma lnk_decodes x : rp_ok x → EdgeLinks.decode (lnk r x).2 = Val (mk_ThingEdgeLinks r x.1 x.2 false).
Proof.
  intros Hx. rewrite lnk_edge by done. apply links_decodes. split; [apply Hr|]. split; apply Hx.
Qed.
(** One player of the relation, met by the loop that writes the index. *)
Lemma regenerate_step count x v s :
  snapshot_ok s → rp_ok x → is_count v →
  ∃ s', TM.regenerate_player r pl.1 pl.2 count (lnk r x).2 v s = Val s' ∧
    confined (touched r pl [((lnk r x).2, v)]) s s' ∧
    (x ≠ pl → written (idx r pl x) s' = Some (Put v false false) ∧
              written (idx r x pl) s' = Some (Put (Prim.encode_u64 count) false false)) ∧
    written (idx r pl pl) s' = if bool_decide (x = pl) && (0 <? u64 (count - 1))
                               then Some (Put (Prim.encode_u64 (u64 (count - 1))) false false) else written (idx r pl pl) s.
Proof.
  intros Hs Hx Hv. unfold TM.regenerate_player. rewrite lnk_decodes by done. cbn [lift mbind exec_bind].
  destruct (decode_count v Hv) as [-> Henc]. cbn [lift mbind exec_bind l_player l_role_id].
  rewrite same_role_player. destruct (decide (x = pl)) as [->|Hne].
  - rewrite bool_decide_true by done.
    destruct (put_index_spec (idx r pl pl) (Prim.encode_u64 (u64 (count - 1))) s Hs) as (s1 & Hs1 & Hc1 & Hw1); [done|apply idx_bytes|].
    destruct (0 <? u64 (count - 1)); [|exists s; split; [done|]; split; [by apply confined_refl|done]].
    exists s1. unfold idx in Hs1. rewrite Hs1. split; [done|]. split; [|done]. eapply confined_weaken; [|done]. by left.
  - rewrite bool_decide_false by done. rewrite Henc.
    destruct (put_index_spec (idx r pl x) v s Hs) as (s1 & Hs1 & Hc1 & Hw1); [done|apply idx_bytes|].
    destruct (put_index_spec (idx r x pl) (Prim.encode_u64 count) s1 (cf_ok _ _ _ Hc1)) as (s2 & Hs2 & Hc2 & Hw2); [done|apply idx_bytes|].
    exists s2. unfold idx in Hs1, Hs2. rewrite Hs1. cbn [lift mbind exec_bind]. rewrite Hs2. split; [done|]. split.
    + eapply confined_weaken; [|by eapply confined_two]. intros key Hkey. right. exists x, v.
      split; [by left|]. split; [done|]. split; [done|exact Hkey].
    + split.
      * intros _. split; [|done]. rewrite (cf_written _ _ _ Hc2); [done|apply idx_id|].
        intros Heq. apply idx_inj in Heq as (_ & Heq & _); done.
      * cbn [andb]. rewrite (cf_written _ _ _ Hc2), (cf_written _ _ _ Hc1); [done|apply idx_id| |apply idx_id|];
          intros Heq; apply idx_inj in Heq as (_ & Heq1 & Heq2); try done; by destruct Hne.
Qed.
Lemma regenerate_loop count l : ∀ s,
  snapshot_ok s → NoDup l.*1 → Forall (link_entry r) l →
  ∃ s', fold_body (TM.regenerate_player r pl.1 pl.2 count) l s = Val s' ∧ confined (touched r pl l) s s' ∧
    (∀ x v, rp_ok x → x ≠ pl → ((lnk r x).2, v) ∈ l →
      written (idx r pl x) s' = Some (Put v false false) ∧
      written (idx r x pl) s' = Some (Put (Prim.encode_u64 count) false false)) ∧
    written (idx r pl pl) s' = if bool_decide ((lnk r pl).2 ∈ l.*1) && (0 <? u64 (count - 1))
                               then Some (Put (Prim.encode_u64 (u64 (count - 1))) false false) else written (idx r pl pl) s.
Proof.
  induction l as [|[k w] l IH]; intros s Hs Hnd Hl.
  { exists s. split; [done|]. split; [by apply confined_refl|]. split; [|done]. intros x v _ _ Hin. by apply not_elem_of_nil in Hin. }
  apply Forall_cons in Hl as [(y & Hy & Hk & Hw) Hl]. cbn [fst snd] in Hk, Hw. subst k.
  rewrite fmap_cons in Hnd. apply NoDup_cons in Hnd as [Hny Hnd]. cbn [fst] in Hny.
  destruct (regenerate_step count y w s Hs Hy Hw) as (s1 & Hs1 & Hc1 & Hw1 & Hself1).
  destruct (IH s1 (cf_ok _ _ _ Hc1) Hnd Hl) as (s' & Hs' & Hc' & Hw' & Hself'). exists s'. cbn [fold_body fst snd]. rewrite Hs1.
  cbn [mbind exec_bind]. split; [done|]. split.
  - by eapply touched_step.
  - split.
    { intros x v Hx Hne Hin. apply elem_of_cons in Hin as [Heq|Hin]; [|by apply Hw'].
      pose proof (f_equal fst Heq) as Hlk. apply (f_equal snd) in Heq. cbn [fst snd] in Hlk, Heq. subst v.
      assert (x = y) as -> by (apply (lnk_inj r x r y); [apply Hr|done|apply Hr|done|by apply injective_projections]).
      destruct (touched_pair y l Hy Hne Hny) as [Hn1 Hn2].
      rewrite !(cf_written _ _ _ Hc') by (done || apply idx_id). by apply Hw1. }
    rewrite Hself', Hself1. rewrite fmap_cons. cbn [fst]. destruct (0 <? u64 (count - 1)); [|by rewrite !andb_false_r].
    rewrite !andb_true_r. destruct (decide (y = pl)) as [->|Hnp].
    + rewrite (bool_decide_true ((lnk r pl).2 ∈ (lnk r pl).2 :: _)) by left. rewrite (bool_decide_true (pl = pl)) by done.
      by destruct (bool_decide _).
    + assert (Hmem : (lnk r pl).2 ∈ (lnk r y).2 :: l.*1 ↔ (lnk r pl).2 ∈ l.*1).
      { rewrite elem_of_cons. split; [intros [Hlk|?]; [|done]|by right]. destruct Hnp. symmetry.
        apply (lnk_inj r pl r y); [apply Hr|done|apply Hr|done|by apply injective_projections]. }
      rewrite (bool_decide_ext _ _ Hmem). rewrite (bool_decide_false (y = pl)) by done. done.
Qed.

(** Removing one entry of the index, in both directions. *)
Lemma unput_if_put_spec k s :
  snapshot_ok s → in_index k → (∀ v, written k s ≠ Some (Insert v)) →
  ∃ s', TM.unput_if_put k s = Val s' ∧ confined (λ key, key = k) s s' ∧
    written k s' = match written k s with Some (Put _ _ _) => None | o => o end.
Proof.
  intros Hs Hk Hni. assert (Hid : 0 ≤ k.1 < 10) by (rewrite Hk; cbn; lia).
  unfold TM.unput_if_put. rewrite get_put_value_spec by done. cbn [mbind exec_bind].
  destruct (written k s) as [[v|v a b|]|] eqn:Hw; [by destruct (Hni v)|by apply (unput_spec k s Hs Hid v a b)|
    exists s; split; [done|]; split; [by apply confined_refl|done]..].
Qed.
Lemma delete_index_spec k s :
  snapshot_ok s → in_index k → is_bytes k.2 →
  ∃ s', Snap.delete k s = Val s' ∧ confined (λ key, key = k) s s' ∧ written k s' = Some Delete.
Proof. intros Hs Hk Hb. apply delete_spec; [done|rewrite Hk; cbn; lia|done]. Qed.
Lemma no_insert_shape a b v : same_shape a b → a ≠ Some (Insert v).
Proof. by destruct a as [[]|], b as [[]|]. Qed.
Lemma idx_ne x : rp_ok x → x ≠ pl → idx r pl x ≠ idx r x pl.
Proof. intros Hx Hne Heq. apply idx_inj in Heq as (_ & Heq & _); done. Qed.
(** The undone puts of a pair of entries. *)
Lemma undo_pair x s :
  snapshot_ok s → rp_ok x → x ≠ pl → index_paired r pl x s →
  ∃ s1 s2, TM.unput_if_put (idx r pl x) s = Val s1 ∧ TM.unput_if_put (idx r x pl) s1 = Val s2 ∧
    confined (either (idx r pl x) (idx r x pl)) s s2 ∧
    ((written (idx r pl x) s2 = None ∧ written (idx r x pl) s2 = None) ∨
     (written (idx r pl x) s2 = Some Delete ∧ written (idx r x pl) s2 = Some Delete)).
Proof.
  intros Hs Hx Hne [Hsh _]. pose proof (idx_ne x Hx Hne) as Hk.
  destruct (unput_if_put_spec (idx r pl x) s Hs) as (s1 & Hs1 & Hc1 & Hw1); [done|intros v; by eapply no_insert_shape|].
  assert (Hw : written (idx r x pl) s1 = written (idx r x pl) s).
  { apply (cf_written _ _ _ Hc1); [apply idx_id|]. by intros Heq. }
  destruct (unput_if_put_spec (idx r x pl) s1 (cf_ok _ _ _ Hc1)) as (s2 & Hs2 & Hc2 & Hw2);
    [done|intros v; rewrite Hw; by eapply no_insert_shape, same_shape_comm|].
  exists s1, s2. do 2 (split; [done|]). split; [by eapply confined_two|].
  rewrite (cf_written _ _ _ Hc2) by (done || apply idx_id). rewrite Hw1, Hw2, Hw.
  destruct (written (idx r pl x) s) as [[]|], (written (idx r x pl) s) as [[]|]; try done; auto.
Qed.
Lemma delete_pair x s :
  snapshot_ok s → rp_ok x → x ≠ pl →
  ∃ s1 s2, Snap.delete (idx r pl x) s = Val s1 ∧ Snap.delete (idx r x pl) s1 = Val s2 ∧
    confined (either (idx r pl x) (idx r x pl)) s s2 ∧
    written (idx r pl x) s2 = Some Delete ∧ written (idx r x pl) s2 = Some Delete.
Proof.
  intros Hs Hx Hne. pose proof (idx_ne x Hx Hne) as Hk.
  destruct (delete_index_spec (idx r pl x) s Hs) as (s1 & Hs1 & Hc1 & Hw1); [done|apply idx_bytes|].
  destruct (delete_index_spec (idx r x pl) s1 (cf_ok _ _ _ Hc1)) as (s2 & Hs2 & Hc2 & Hw2); [done|apply idx_bytes|].
  exists s1, s2. do 2 (split; [done|]).
  by destruct (written_two _ _ _ _ _ _ (proj1 (idx_id r pl x)) Hk Hc1 Hc2 Hw1 Hw2) as (? & ? & _).
Qed.
(** The entries between the removed player and another one are gone. *)
Definition index_cleared (x : role_player) (s : WriteSnapshot) : Prop :=
  view (idx r pl x) s = None ∧ view (idx r x pl) s = None ∧ same_shape (written (idx r pl x) s) (written (idx r x pl) s).
Lemma remove_step x v s :
  snapshot_ok s → good_id (EncodingKeyspaces.id EdgeIndex.KEYSPACE) s → rp_ok x → x ≠ pl → index_paired r pl x s →
  ∃ s', TM.remove_player r pl.1 pl.2 (lnk r x).2 v s = Val s' ∧
    confined (either (idx r pl x) (idx r x pl)) s s' ∧ index_cleared x s'.
Proof.
  intros Hs Hgood Hx Hne Hag. pose proof (idx_ne x Hx Hne) as Hk. unfold TM.remove_player. rewrite lnk_decodes by done.
  cbn [lift mbind exec_bind l_player l_role_id].
  change (EdgeIndex.into_storage_key (EdgeIndex.new pl.1 x.1 r _ _)) with (idx r pl x).
  change (EdgeIndex.into_storage_key (EdgeIndex.into_reverse _)) with (idx r x pl).
  destruct (undo_pair x s Hs Hx Hne Hag) as (s1 & s2 & Hs1 & Hs2 & Hc & Hw). rewrite Hs1. cbn [lift mbind exec_bind].
  rewrite Hs2. cbn [lift mbind exec_bind]. assert (Hok2 := cf_ok _ _ _ Hc).
  assert (Hg : good_key (idx r pl x) s2) by (apply (confined_good _ _ _ _ Hc); split; [exact Hgood|apply idx_bytes]).
  rewrite (key_exists_spec _ s2 Hok2 Hg). cbn [map_err mbind exec_bind].
  assert (Hst : is_Some (stored (idx r pl x) s2) ↔ is_Some (stored (idx r x pl) s2)).
  { rewrite !(confined_stored _ _ _ _ Hc). apply Hag. }
  destruct (bool_decide_reflect (is_Some (view (idx r pl x) s2))) as [Hv|Hv].
  - destruct (delete_pair x s2 Hok2 Hx Hne) as (s3 & s4 & Hs3 & Hs4 & Hc' & Hw1 & Hw2). rewrite Hs3. cbn [lift mbind exec_bind].
    rewrite same_role_player, bool_decide_false by done. rewrite Hs4. exists s4. split; [done|].
    split; [by eapply confined_trans|]. unfold index_cleared. rewrite (written_view _ _ _ Hw1), (written_view _ _ _ Hw2), Hw1, Hw2. done.
  - exists s2. split; [done|]. split; [done|]. apply eq_None_not_Some in Hv. split; [done|].
    destruct Hw as [[Hw1 Hw2]|[Hw1 Hw2]]; rewrite Hw1, Hw2.
    + rewrite (unwritten_view _ _ Hw1) in Hv. rewrite (unwritten_view _ _ Hw2). split; [|done].
      apply eq_None_not_Some. by rewrite <-Hst, <-eq_None_not_Some.
    + by rewrite (written_view _ _ _ Hw2).
Qed.
Lemma remove_loop l : ∀ s,
  snapshot_ok s → good_id (EncodingKeyspaces.id EdgeIndex.KEYSPACE) s → NoDup l.*1 →
  Forall (λ kv, ∃ x, rp_ok x ∧ x ≠ pl ∧ kv.1 = (lnk r x).2 ∧ index_paired r pl x s) l →
  ∃ s', fold_body (TM.remove_player r pl.1 pl.2) l s = Val s' ∧ confined (touched r pl l) s s' ∧
    (∀ x v, rp_ok x → x ≠ pl → ((lnk r x).2, v) ∈ l → index_cleared x s') ∧
    written (idx r pl pl) s' = written (idx r pl pl) s.
Proof.
  induction l as [|[k w] l IH]; intros s Hs Hg Hnd Hl.
  { exists s. split; [done|]. split; [by apply confined_refl|]. split; [|done]. intros x v _ _ Hin. by apply not_elem_of_nil in Hin. }
  apply Forall_cons in Hl as [(y & Hy & Hne & Hk & Hag) Hl]. cbn [fst] in Hk. subst k.
  rewrite fmap_cons in Hnd. apply NoDup_cons in Hnd as [Hny Hnd]. cbn [fst] in Hny.
  destruct (remove_step y w s Hs Hg Hy Hne Hag) as (s1 & Hs1 & Hc1 & Hclr).
  assert (Hc1' : confined (touched r pl [((lnk r y).2, w)]) s s1).
  { eapply confined_weaken; [|done]. intros key Hkey. right. exists y, w. split; [by left|]. done. }
  destruct (IH s1 (cf_ok _ _ _ Hc1)) as (s' & Hs' & Hc' & Hw' & Hself').
  { unfold good_id. by rewrite (cf_storage _ _ _ Hc1). }
  { done. }
  { apply Forall_forall. intros kv Hin. eapply Forall_forall in Hl as (x & Hx & Hnx & Hkx & Hagx); [|done].
    exists x. do 3 (split; [done|]).
    assert (Hxy : x ≠ y). { intros ->. apply Hny. rewrite <-Hkx. by apply list_elem_of_fmap_2. }
    assert (Hnt : (lnk r x).2 ∉ [((lnk r y).2, w)].*1).
    { cbn. rewrite list_elem_of_singleton. intros Heq. apply Hxy.
      apply (lnk_inj r x r y); [apply Hr|done|apply Hr|done|by apply injective_projections]. }
    destruct (touched_pair x _ Hx Hnx Hnt) as [Hn1 Hn2].
    by apply (index_paired_kept _ _ _ _ _ _ Hc1' Hagx). }
  exists s'. cbn [fold_body fst snd]. rewrite Hs1. cbn [mbind exec_bind]. split; [done|]. split; [by eapply touched_step|]. split.
  - intros x v Hx Hnx Hin. apply elem_of_cons in Hin as [Heq|Hin]; [|by eapply Hw'].
    pose proof (f_equal fst Heq) as Hlk. cbn [fst] in Hlk.
    assert (x = y) as -> by (apply (lnk_inj r x r y); [apply Hr|done|apply Hr|done|by apply injective_projections]).
    destruct (touched_pair y l Hy Hne Hny) as [Hn1 Hn2]. unfold index_cleared.
    rewrite !(cf_written _ _ _ Hc') by (done || apply idx_id). rewrite !(confined_view _ _ _ _ Hc') by (done || apply idx_id). done.
  - rewrite Hself'. apply (cf_written _ _ _ Hc1); [apply idx_id|].
    intros [Heq|Heq]; apply idx_inj in Heq as (_ & Heq1 & Heq2); try done; by destruct Hne.
Qed.
End loops.

(** ** The operations on players *)
Section players.
Context `{Schema}.
(** Which types of relations are indexed: writing data does not change it. *)
Variable indexed : Z → bool.
Hypothesis schema_fixed : ∀ t s, relation_index_available t s = Val (indexed t).
Definition index_in_step (s : WriteSnapshot) : Prop :=
  ∀ r, relation_ok r → indexed (ov_type_id r) = true → ∀ x y, rp_ok x → rp_ok y → x ≠ y → index_agrees r x y s.
(** What changes when a player's count is set. *)
Definition player_set (r : ObjectVertex) (pl : role_player) (count : Z) (s s' : WriteSnapshot) : Prop :=
  view (lnk r pl) s' = edge_value count ∧ view (lnk_rev r pl) s' = edge_value count ∧
  ∀ key, 0 ≤ key.1 → ¬ in_index key → key ≠ lnk r pl → key ≠ lnk_rev r pl → view key s' = view key s.

(** What becomes of the entry from a player to itself. *)
Definition self_after (r : ObjectVertex) (pl : role_player) (count : Z) (s s' : WriteSnapshot) : Prop :=
  indexed (ov_type_id r) = true →
  view (idx r pl pl) s' = if 1 <? count then Some (Prim.encode_u64 (count - 1)) else view (idx r pl pl) s.

Lemma edge_not_index key : edge_key key → ¬ in_index key.
Proof. intros Hk%edge_keyspaces Ht. rewrite Ht in Hk. destruct Hk as [Hk|[Hk|Hk]]; discriminate Hk. Qed.
Lemma lnk_ne_rev r x r' x' : object_ok r → rp_ok x → object_ok r' → rp_ok x' → lnk r x ≠ lnk_rev r' x'.
Proof. intros. eapply pair_crossed; by apply lnk_pair. Qed.
(** After the edges of one player were written, the index of other relations
    and between other players is as it was. *)
Lemma index_other r pl s s1 r' x y :
  relation_ok r → rp_ok pl → relation_ok r' → rp_ok x → rp_ok y → (r' ≠ r ∨ (x ≠ pl ∧ y ≠ pl)) →
  confined (either (lnk r pl) (lnk_rev r pl)) s s1 → index_agrees r' x y s → index_agrees r' x y s1.
Proof.
  intros [Hr _] Hpl [Hr' _] Hx Hy Hor Hc Hag. destruct (pair_edges _ _ (lnk_pair r pl Hr Hpl)) as [He1 He2].
  apply (index_agrees_kept _ _ _ _ _ _ Hc Hag).
  - by intros [Heq|Heq]; revert Heq; apply idx_not_edge.
  - by intros [Heq|Heq]; revert Heq; apply idx_not_edge.
  - intros [Heq|Heq]; [|by apply lnk_ne_rev in Heq]. apply lnk_inj in Heq as [-> ->]; [|done..]. by destruct Hor as [?|[? ?]].
  - intros [Heq|Heq]; [|by apply lnk_ne_rev in Heq]. apply lnk_inj in Heq as [-> ->]; [|done..]. by destruct Hor as [?|[? ?]].
Qed.
Lemma player_set_index r pl count s s1 s2 :
  relation_ok r → rp_ok pl →
  confined (either (lnk r pl) (lnk_rev r pl)) s s1 → view (lnk r pl) s1 = edge_value count → view (lnk_rev r pl) s1 = edge_value count →
  confined in_index s1 s2 → player_set r pl count s s2.
Proof.
  intros [Hr _] Hpl Hc Hv1 Hv2 Hc2. destruct (pair_edges _ _ (lnk_pair r pl Hr Hpl)) as [He1 He2].
  destruct (pair_ids _ _ (lnk_pair r pl Hr Hpl)) as ([Hi1 Hi2] & _ & _).
  split; [rewrite (confined_view _ _ _ _ Hc2); [done|lia|by apply edge_not_index]|].
  split; [rewrite (confined_view _ _ _ _ Hc2); [done|lia|by apply edge_not_index]|].
  intros key Hid Hni Hn1 Hn2. rewrite (confined_view _ _ _ _ Hc2) by done. apply (confined_view _ _ _ _ Hc); [done|]. by intros [?|?].
Qed.

Section one_player.
Context (r : ObjectVertex) (pl : role_player) (s s1 s2 : WriteSnapshot) (out : list (bytes * bytes)).
Hypothesis Hr : relation_ok r.
Hypothesis Hpl : rp_ok pl.
(** [s1] is [s] with the edges of the player written, [s2] is [s1] after the
    loop over the players of the relation. *)
Hypothesis Hc1 : confined (either (lnk r pl) (lnk_rev r pl)) s s1.
Hypothesis Hc2 : confined (touched r pl out) s1 s2.
Hypothesis Hout : ∀ x v, rp_ok x → ((lnk r x).2, v) ∈ out ↔ view (lnk r x) s1 = Some v.
Lemma lnk_after x : rp_ok x → view (lnk r x) s2 = view (lnk r x) s1.
Proof.
  intros Hx. apply (confined_view _ _ _ _ Hc2); [done|]. apply touched_edge, lnk_is_edge; [apply Hr|done].
Qed.
Lemma lnk_other x : rp_ok x → x ≠ pl → view (lnk r x) s1 = view (lnk r x) s.
Proof.
  intros Hx Hne. apply (confined_view _ _ _ _ Hc1); [done|]. destruct Hr as [Hro _].
  intros [Heq|Heq]; [by apply lnk_inj in Heq as [_ ?]|by apply lnk_ne_rev in Heq].
Qed.
Lemma idx_before x y : written (idx r x y) s1 = written (idx r x y) s ∧ view (idx r x y) s1 = view (idx r x y) s.
Proof.
  destruct (pair_edges _ _ (lnk_pair r pl (proj1 Hr) Hpl)) as [He1 He2].
  assert (Hn : ¬ either (lnk r pl) (lnk_rev r pl) (idx r x y)) by (by intros [Heq|Heq]; revert Heq; apply idx_not_edge).
  split; [by apply (cf_written _ _ _ Hc1)|by apply (confined_view _ _ _ _ Hc1)].
Qed.
Lemma idx_stored x y : stored (idx r x y) s2 = stored (idx r x y) s.
Proof. by rewrite (confined_stored _ _ _ _ Hc2), (confined_stored _ _ _ _ Hc1). Qed.
(** The entries of an object that is not a player stay as they were: absent. *)
Lemma index_absent y :
  rp_ok y → y ≠ pl → index_agrees r pl y s → index_agrees r y pl s → view (lnk r y) s1 = None →
  index_agrees r pl y s2 ∧ index_agrees r y pl s2.
Proof.
  intros Hy Hne [Hw Hst Hv] [Hw' Hst' Hv'] Hnone.
  assert (Hn : (lnk r y).2 ∉ out.*1).
  { intros ([k v] & Hk & Hin)%list_elem_of_fmap. cbn in Hk. subst k. apply Hout in Hin; [congruence|done]. }
  destruct (touched_pair r pl Hr Hpl y out Hy Hne Hn) as [Hn1 Hn2].
  destruct (idx_before pl y) as [Hb1 Hb2], (idx_before y pl) as [Hb3 Hb4].
  pose proof (lnk_other y Hy Hne) as Hly. rewrite Hnone in Hly. rewrite <-Hly in Hv, Hv'.
  split; (split; [rewrite !(cf_written _ _ _ Hc2) by (done || apply idx_id); by rewrite Hb1, Hb3
                 |by rewrite !idx_stored|rewrite !lnk_after, Hnone by done; rewrite (confined_view _ _ _ _ Hc2) by (done || apply idx_id)]).
  - rewrite Hb2, Hv. by destruct (view (lnk r pl) s), (view (lnk r pl) s1).
  - by rewrite Hb4, Hv'.
Qed.
(** The whole index, from what holds of the entries of this player. *)
Lemma index_after :
  index_in_step s → indexed (ov_type_id r) = true →
  (∀ y, rp_ok y → y ≠ pl → is_Some (view (lnk r y) s1) → index_agrees r pl y s2 ∧ index_agrees r y pl s2) → index_in_step s2.
Proof.
  intros Hin Hidx Hplayers r' Hr' Hidx' x y Hx Hy Hxy.
  destruct (decide (r' ≠ r ∨ (x ≠ pl ∧ y ≠ pl))) as [Hor|Hor].
  - apply (index_agrees_kept _ _ _ _ s1 _ Hc2).
    + apply (index_other r pl s); try done. by apply Hin.
    + by apply touched_other.
    + apply touched_other; try done. destruct Hor as [?|[? ?]]; [by left|by right].
    + apply touched_edge, lnk_is_edge; [apply Hr'|done].
    + apply touched_edge, lnk_is_edge; [apply Hr'|done].
  - assert (r' = r) as -> by (destruct (decide (r' = r)); [done|by destruct Hor; left]).
    assert (Hboth : ∀ z, rp_ok z → z ≠ pl → index_agrees r pl z s2 ∧ index_agrees r z pl s2).
    { intros z Hz Hne. destruct (view (lnk r z) s1) eqn:Hvz; [apply Hplayers; [done|done|by rewrite Hvz]|].
      apply index_absent; [done|done|by apply Hin|by apply Hin|done]. }
    destruct (decide (x = pl)) as [->|Hnx]; [by apply Hboth|].
    destruct (decide (y = pl)) as [->|Hny]; [by apply Hboth|]. destruct Hor. by right.
Qed.
End one_player.

Lemma index_unindexed r pl s s1 :
  relation_ok r → rp_ok pl → indexed (ov_type_id r) = false → confined (either (lnk r pl) (lnk_rev r pl)) s s1 →
  index_in_step s → index_in_step s1.
Proof.
  intros Hr Hpl Hidx Hc Hin r' Hr' Hidx' x y Hx Hy Hxy.
  apply (index_other r pl s); try done; [|by apply Hin]. left. intros ->. congruence.
Qed.
Lemma regenerated_entries r pl count s1 s2 out y :
  relation_ok r → rp_ok pl → count ≠ 0 → rp_ok y → y ≠ pl → confined (touched r pl out) s1 s2 →
  (∀ x v, rp_ok x → ((lnk r x).2, v) ∈ out ↔ view (lnk r x) s1 = Some v) → view (lnk r pl) s1 = edge_value count →
  (is_Some (stored (idx r pl y) s2) ↔ is_Some (stored (idx r y pl) s2)) →
  (∀ v, ((lnk r y).2, v) ∈ out → written (idx r pl y) s2 = Some (Put v false false) ∧
      written (idx r y pl) s2 = Some (Put (Prim.encode_u64 count) false false)) →
  is_Some (view (lnk r y) s1) → index_agrees r pl y s2 ∧ index_agrees r y pl s2.
Proof.
  intros Hr Hpl Hcount Hy Hne Hc Hout Hvp Hst Hw [v Hv]. destruct (Hw v) as [Hw1 Hw2]; [by apply Hout|].
  assert (Hpv : edge_value count = Some (Prim.encode_u64 count)) by (unfold edge_value; by destruct (Z.eqb_spec count 0)).
  rewrite Hpv in Hvp. assert (Hl1 := lnk_after r pl s1 s2 out Hr Hc pl Hpl). assert (Hl2 := lnk_after r pl s1 s2 out Hr Hc y Hy).
  rewrite Hvp in Hl1. rewrite Hv in Hl2.
  split; (split; [by rewrite Hw1, Hw2|tauto|]).
  - by rewrite (written_view _ _ _ Hw1), Hl1, Hl2.
  - by rewrite (written_view _ _ _ Hw2), Hl1, Hl2.
Qed.
Lemma self_regenerated r pl count s s1 s2 out :
  relation_ok r → rp_ok pl → is_u64 count → count ≠ 0 → confined (either (lnk r pl) (lnk_rev r pl)) s s1 →
  confined (touched r pl out) s1 s2 →
  (∀ x v, rp_ok x → ((lnk r x).2, v) ∈ out ↔ view (lnk r x) s1 = Some v) → view (lnk r pl) s1 = edge_value count →
  (written (idx r pl pl) s2 = if bool_decide ((lnk r pl).2 ∈ out.*1) && (0 <? u64 (count - 1))
     then Some (Put (Prim.encode_u64 (u64 (count - 1))) false false) else written (idx r pl pl) s1) →
  view (idx r pl pl) s2 = if 1 <? count then Some (Prim.encode_u64 (count - 1)) else view (idx r pl pl) s.
Proof.
  intros Hr Hpl Hu Hcount Hc1 Hc2 Hout Hv Hself.
  assert (Hm : u64 (count - 1) = count - 1) by (unfold u64; unfold is_u64 in Hu; apply Z.mod_small; lia). rewrite Hm in Hself.
  rewrite bool_decide_true in Hself.
  2:{ unfold edge_value in Hv. destruct (Z.eqb_spec count 0); [done|]. apply Hout in Hv; [|done].
      apply list_elem_of_fmap. eexists. split; [|exact Hv]. done. }
  cbn [andb] in Hself. replace (0 <? count - 1) with (1 <? count) in Hself by (destruct (Z.ltb_spec 1 count), (Z.ltb_spec 0 (count - 1)); lia).
  destruct (1 <? count); [by rewrite (written_view _ _ _ Hself)|].
  destruct (idx_before r pl s s1 Hr Hpl Hc1 pl pl) as [Hb _]. unfold view. rewrite Hself, Hb.
  by rewrite (idx_stored r pl s s1 s2 out Hc1 Hc2).
Qed.
Lemma put_links_spec r pl count s :
  things_ok s → index_in_step s → relation_ok r → rp_ok pl → is_u64 count → count ≠ 0 →
  ∃ n, ∀ fuel, (n ≤ fuel)%nat → ∃ s', TM.put_links fuel r pl.1 pl.2 count s = Val s' ∧ things_ok s' ∧ index_in_step s' ∧
    player_set r pl count s s' ∧ self_after r pl count s s'.
Proof.
  intros Hok Hin Hr Hpl Hu Hcount. destruct (set_required_spec r s Hok) as (sa & Hsa & Hca & Hoka).
  destruct (set_required_spec pl.1 sa Hoka) as (sb & Hsb & Hcb & Hokb).
  destruct (put_both_spec (lnk r pl) (lnk_rev r pl) count sb Hokb) as (s1 & Hs1 & Hc1' & Hok1 & Hv1 & Hv2);
    [apply lnk_pair; [apply Hr|done]|].
  assert (Hc1 : confined (either (lnk r pl) (lnk_rev r pl)) s s1).
  { eapply confined_trans; [|done]. eapply confined_weaken; [|by eapply confined_trans]. by intros ? []. }
  assert (Hpv : edge_value count = Some (Prim.encode_u64 count)) by (unfold edge_value; by destruct (Z.eqb_spec count 0)).
  rewrite <-Hpv in Hv1, Hv2.
  assert (Hrun : ∀ fuel, TM.put_links fuel r pl.1 pl.2 count s =
    if indexed (ov_type_id r) then TM.relation_index_player_regenerate fuel r pl.1 pl.2 count s1 else Val s1).
  { intros fuel. unfold TM.put_links. rewrite Hsa. cbn [map_err mbind exec_bind]. rewrite Hsb. cbn [map_err mbind exec_bind].
    unfold lnk, lnk_rev in Hs1. rewrite Hs1. cbn [lift mbind exec_bind]. by rewrite schema_fixed. }
  destruct (indexed (ov_type_id r)) eqn:Hidx.
  - destruct (links_scan r s1 Hok1 (proj1 Hr)) as (n & Hn). exists n. intros fuel Hfuel.
    destruct (Hn fuel Hfuel) as (it & out & Hit & Hy & Hl & Hnd & Hentries & Hout).
    destruct (regenerate_loop r pl Hr Hpl count out s1 (t_snapshot s1 Hok1) Hnd Hentries) as (s2 & Hs2 & Hc2 & Hw2 & Hself).
    assert (Hci : confined in_index s1 s2) by (eapply confined_weaken; [apply touched_index|done]).
    exists s2. rewrite Hrun. unfold TM.relation_index_player_regenerate. rewrite Hit. cbn [lift mbind exec_bind].
    rewrite (for_each_fold _ _ _ _ _ _ _ _ Hy Hl). split; [done|]. split; [by eapply things_index|]. split.
    + apply (index_after r pl s s1 s2 out Hr Hpl Hc1 Hc2 Hout Hin Hidx). intros y Hy' Hne.
      apply (regenerated_entries r pl count s1 s2 out y); try done; [|intros v; by apply Hw2].
      rewrite !(idx_stored r pl s s1 s2 out Hc1 Hc2). by apply Hin.
    + split; [by eapply player_set_index|]. intros _. by apply (self_regenerated r pl count s s1 s2 out).
  - exists 0%nat. intros fuel _. exists s1. rewrite Hrun. split; [done|]. split; [done|]. split; [by eapply index_unindexed|].
    split; [|intros ?; congruence]. apply (player_set_index r pl count s s1 s1); try done. apply confined_refl. by apply t_snapshot.
Qed.
Lemma removed_entries r pl s1 s2 out y :
  relation_ok r → rp_ok pl → rp_ok y → y ≠ pl → confined (touched r pl out) s1 s2 → view (lnk r pl) s1 = None →
  (is_Some (stored (idx r pl y) s2) ↔ is_Some (stored (idx r y pl) s2)) → index_cleared r pl y s2 →
  index_agrees r pl y s2 ∧ index_agrees r y pl s2.
Proof.
  intros Hr Hpl Hy Hne Hc Hvp Hst (Hv1 & Hv2 & Hsh). assert (Hl1 := lnk_after r pl s1 s2 out Hr Hc pl Hpl). rewrite Hvp in Hl1.
  split; (split; [|tauto|rewrite ?Hv1, ?Hv2, Hl1; by repeat case_match]); [done|by apply same_shape_comm].
Qed.
Lemma unset_links_spec r pl s :
  things_ok s → index_in_step s → relation_ok r → rp_ok pl →
  ∃ n, ∀ fuel, (n ≤ fuel)%nat → ∃ s', TM.unset_links fuel r pl.1 pl.2 s = Val s' ∧ things_ok s' ∧ index_in_step s' ∧
    player_set r pl 0 s s' ∧ self_after r pl 0 s s'.
Proof.
  intros Hok Hin Hr Hpl. set (status := status_of (ObjVertex.into_storage_key r) s).
  destruct (remove_edge_spec status (lnk r pl) (lnk_rev r pl) s Hok) as (s1 & Hs1 & Hc1 & Hok1 & Hv1 & Hv2);
    [apply lnk_pair; [apply Hr|done]| |].
  { unfold status, status_of. destruct (written _ s) as [[v| |]|] eqn:Hw; try done; [intros _|by destruct (stored _ s)].
    destruct (t_fresh s Hok r v (proj1 Hr) Hw) as [_ Hl]. apply Hl; apply Hpl. }
  assert (Hrun : ∀ fuel, TM.unset_links fuel r pl.1 pl.2 s =
    if indexed (ov_type_id r) then TM.relation_index_player_remove fuel r pl.1 pl.2 s1 else Val s1).
  { intros fuel. unfold TM.unset_links. rewrite get_status_spec by (by apply t_snapshot || apply object_good).
    cbn [map_err mbind exec_bind]. unfold lnk, lnk_rev, status in Hs1. rewrite Hs1. cbn [map_err mbind exec_bind]. by rewrite schema_fixed. }
  destruct (indexed (ov_type_id r)) eqn:Hidx.
  - destruct (links_scan r s1 Hok1 (proj1 Hr)) as (n & Hn). exists n. intros fuel Hfuel.
    destruct (Hn fuel Hfuel) as (it & out & Hit & Hy & Hl & Hnd & Hentries & Hout).
    assert (Hst : ∀ x, rp_ok x → x ≠ pl → is_Some (stored (idx r pl x) s) ↔ is_Some (stored (idx r x pl) s)).
    { intros x Hx Hne. by apply Hin. }
    assert (Hpairs : Forall (λ kv, ∃ x, rp_ok x ∧ x ≠ pl ∧ kv.1 = (lnk r x).2 ∧ index_paired r pl x s1) out).
    { apply Forall_forall. intros [k v] Hkv. rewrite Forall_forall in Hentries. destruct (Hentries _ Hkv) as (x & Hx & Hk & _).
      cbn [fst] in Hk. subst k. assert (Hne : x ≠ pl) by (intros ->; apply Hout in Hkv; [congruence|done]).
      exists x. do 3 (split; [done|]).
      destruct (idx_before r pl s s1 Hr Hpl Hc1 pl x) as [Hw1 _], (idx_before r pl s s1 Hr Hpl Hc1 x pl) as [Hw2 _].
      unfold index_paired. rewrite Hw1, Hw2, !(confined_stored _ _ _ _ Hc1). split; [by apply Hin|by apply Hst]. }
    destruct (remove_loop r pl Hr Hpl out s1 (t_snapshot s1 Hok1) (t_open s1 Hok1 _) Hnd Hpairs) as (s2 & Hs2 & Hc2 & Hclr & Hself).
    assert (Hci : confined in_index s1 s2) by (eapply confined_weaken; [apply touched_index|done]).
    exists s2. rewrite Hrun. unfold TM.relation_index_player_remove. rewrite Hit. cbn [lift mbind exec_bind].
    rewrite (for_each_fold _ _ _ _ _ _ _ _ Hy Hl). split; [done|]. split; [by eapply things_index|]. split.
    + apply (index_after r pl s s1 s2 out Hr Hpl Hc1 Hc2 Hout Hin Hidx). intros y Hy' Hne [v Hv].
      apply (removed_entries r pl s1 s2 out y); try done; [|apply (Hclr y v); [done|done|by apply Hout]].
      rewrite !(idx_stored r pl s s1 s2 out Hc1 Hc2). by apply Hst.
    + split; [by eapply player_set_index|]. intros _. cbn [Z.ltb Z.compare].
      destruct (idx_before r pl s s1 Hr Hpl Hc1 pl pl) as [Hb _]. unfold view. rewrite Hself, Hb.
      by rewrite (idx_stored r pl s s1 s2 out Hc1 Hc2).
  - exists 0%nat. intros fuel _. exists s1. rewrite Hrun. split; [done|]. split; [done|]. split; [by eapply index_unindexed|].
    split; [|intros ?; congruence]. apply (player_set_index r pl 0 s s1 s1); try done. apply confined_refl. by apply t_snapshot.
Qed.
Lemma set_links_count_spec r pl count s :
  things_ok s → index_in_step s → relation_ok r → rp_ok pl → is_u64 count →
  ∃ n, ∀ fuel, (n ≤ fuel)%nat → ∃ s', TM.set_links_count fuel r pl.1 pl.2 count s = Val s' ∧ things_ok s' ∧ index_in_step s' ∧
    player_set r pl count s s' ∧ self_after r pl count s s'.
Proof.
  intros Hok Hin Hr Hpl Hu. unfold TM.set_links_count. destruct (Z.eqb_spec count 0) as [->|Hne]; [by apply unset_links_spec|].
  by apply put_links_spec.
Qed.

(** C22: setting how often an object plays a role in a relation, where what the
    schema says of a relation type being indexed is fixed (writing data does
    not change it) and the things and the index are in step before. The
    operation succeeds; afterwards the edges from the relation and from the
    player both carry the count, or are both gone when it is zero, and outside
    the index no other key changes. When the relation's type is indexed, for
    any two different players (object and role) the index is in step again:
    there is an entry from the one to the other with the other's count, and
    none where one of the two is no player. The entry from the player to itself
    is not kept in step: a count above one writes it with one less than the
    count, and a lower count, zero included, leaves what was there. *)
Theorem players_and_index_in_step r pl count s :
  things_ok s → index_in_step s → relation_ok r → rp_ok pl → is_u64 count →
  ∃ n, ∀ fuel, (n ≤ fuel)%nat → ∃ s', TM.set_links_count fuel r pl.1 pl.2 count s = Val s' ∧ things_ok s' ∧ index_in_step s' ∧
    player_set r pl count s s' ∧ self_after r pl count s s'.
Proof. intros. by apply set_links_count_spec. Qed.

Lemma links_count_spec r pl n s :
  things_ok s → relation_ok r → rp_ok pl → is_u64 n → view (lnk r pl) s = edge_value n →
  TM.links_count r pl.1 pl.2 s = Val (if n =? 0 then None else Some n).
Proof.
  intros Hok Hr Hpl Hn Hv. unfold TM.links_count. change (TM.links_key r pl.1 pl.2) with (lnk r pl).
  rewrite (get_view (lnk r pl) s (t_snapshot s Hok)) by (apply edge_good; [done|apply lnk_is_edge; [apply Hr|done]]).
  rewrite Hv. unfold edge_value. cbn [map_err mbind exec_bind]. destruct (n =? 0); [done|].
  destruct (decode_count (Prim.encode_u64 n) (encode_is_count n)) as [-> _]. cbn [lift mbind exec_bind].
  pose proof (u64_round_trip n Hn) as Hrt. unfold Prim.decode_u64 in Hrt. by rewrite Hrt.
Qed.
(** C36: counting players up and down, where what the schema says of a relation
    type being indexed is fixed. From a count of [n] (zero when the object is
    no player) an increment sets the count to [n + 1] in 64-bit arithmetic, so
    that one more than the largest count is zero and removes the player. A
    decrement by more than [n] is rejected with the two counts and no change;
    one by at most [n] sets the count to the difference when [n] is not zero,
    and panics when [n] is zero, that is for a decrement by zero of an object
    that is no player. *)
Theorem player_counts_move r pl n d s :
  things_ok s → index_in_step s → relation_ok r → rp_ok pl → is_u64 n → 0 ≤ d → view (lnk r pl) s = edge_value n →
  ∃ m, ∀ fuel, (m ≤ fuel)%nat →
    (∃ s', TM.increment_links_count fuel r pl.1 pl.2 s = Val s' ∧ things_ok s' ∧ index_in_step s' ∧
       player_set r pl (if n =? u64_max then 0 else n + 1) s s') ∧
    (if d <=? n
     then
       if n =? 0 then TM.decrement_links_count fuel r pl.1 pl.2 d s = Panic
       else ∃ s', TM.decrement_links_count fuel r pl.1 pl.2 d s = Val s' ∧ things_ok s' ∧ index_in_step s' ∧ player_set r pl (n - d) s s'
     else TM.decrement_links_count fuel r pl.1 pl.2 d s = Err (RemoveDeletedPlayers d n)).
Proof.
  intros Hok Hin Hr Hpl Hn Hd Hv. pose proof (links_count_spec r pl n s Hok Hr Hpl Hn Hv) as Hcount.
  assert (Hdef : default 0 (if n =? 0 then None else Some n) = n) by (by destruct (Z.eqb_spec n 0)).
  set (up := if n =? u64_max then 0 else n + 1).
  assert (Hup : u64 (n + 1) = up ∧ is_u64 up).
  { unfold up, u64, u64_max, is_u64 in *. destruct (Z.eqb_spec n (2 ^ 64 - 1)) as [->|Hne]; [done|].
    rewrite Z.mod_small by lia. lia. }
  destruct (set_links_count_spec r pl up s Hok Hin Hr Hpl (proj2 Hup)) as (m1 & Hm1).
  assert (Hdown : ∃ m2, ∀ fuel, (m2 ≤ fuel)%nat → d <= n → ∃ s', TM.set_links_count fuel r pl.1 pl.2 (n - d) s = Val s' ∧
    things_ok s' ∧ index_in_step s' ∧ player_set r pl (n - d) s s').
  { destruct (Z.leb_spec d n) as [Hle|Hgt]; [|exists 0%nat; lia].
    destruct (set_links_count_spec r pl (n - d) s Hok Hin Hr Hpl) as (m2 & Hm2); [unfold is_u64 in *; lia|].
    exists m2. intros fuel Hf _. destruct (Hm2 fuel Hf) as (s' & ? & ? & ? & ? & _). by exists s'. }
  destruct Hdown as (m2 & Hm2). exists (m1 + m2)%nat. intros fuel Hf. split.
  - destruct (Hm1 fuel) as (s' & Hs' & ? & ? & ? & _); [lia|]. exists s'. unfold TM.increment_links_count.
    rewrite Hcount. cbn [mbind exec_bind]. by rewrite Hdef, (proj1 Hup).
  - unfold TM.decrement_links_count. rewrite Hcount. cbn [mbind exec_bind]. rewrite Hdef.
    destruct (Z.leb_spec d n) as [Hle|Hgt].
    + rewrite (proj2 (Z.ltb_ge _ _)) by lia. destruct (Z.eqb_spec n 0); [done|]. cbn [unwrap mbind exec_bind].
      apply Hm2; lia.
    + by rewrite (proj2 (Z.ltb_lt _ _)) by lia.
Qed.

(** The index entry from a player to itself goes stale.  Raising a player's
    count above one writes an entry from the player to itself with one less than
    the count; lowering the count to one, or removing the player altogether,
    leaves that entry as it is. *)
Lemma self_index_goes_stale r pl count s :
  things_ok s → index_in_step s → relation_ok r → rp_ok pl → is_u64 count → 1 < count → indexed (ov_type_id r) = true →
  ∃ n, ∀ fuel, (n ≤ fuel)%nat → ∃ s1, TM.set_links_count fuel r pl.1 pl.2 count s = Val s1 ∧
    view (idx r pl pl) s1 = Some (Prim.encode_u64 (count - 1)) ∧
    ∀ c, c = 0 ∨ c = 1 → ∃ m, ∀ fuel', (m ≤ fuel')%nat → ∃ s2, TM.set_links_count fuel' r pl.1 pl.2 c s1 = Val s2 ∧
      view (lnk r pl) s2 = edge_value c ∧ view (idx r pl pl) s2 = Some (Prim.encode_u64 (count - 1)).
Proof.
  intros Hok Hin Hr Hpl Hu Hc Hidx. destruct (set_links_count_spec r pl count s Hok Hin Hr Hpl Hu) as (n & Hn).
  exists n. intros fuel Hf. destruct (Hn fuel Hf) as (s1 & Hs1 & Hok1 & Hin1 & _ & Hself). exists s1. split; [done|].
  specialize (Hself Hidx). rewrite (proj2 (Z.ltb_lt _ _)) in Hself by lia. split; [done|]. intros c Hcase.
  destruct (set_links_count_spec r pl c s1 Hok1 Hin1 Hr Hpl) as (m & Hm); [unfold is_u64; lia|].
  exists m. intros fuel' Hf'. destruct (Hm fuel' Hf') as (s2 & Hs2 & _ & _ & [Hv _] & Hself2). exists s2.
  split; [done|]. split; [done|]. specialize (Hself2 Hidx). rewrite (proj2 (Z.ltb_ge _ _)) in Hself2 by lia. by rewrite Hself2.
Qed.
End players.

(** ** A relation in an empty database *)
Definition example_relation : ObjectVertex := ObjVertex.build_relation 3 9.
Definition example_player : role_player := (example_owner, 4).
Lemma example_relation_ok : relation_ok example_relation.
Proof. split; [|done]. split; [by right|split; [unfold is_u16|unfold is_u64]; simpl; lia]. Qed.
Lemma example_player_ok : rp_ok example_player.
Proof. split; [apply example_owner_ok|unfold is_u16; simpl; lia]. Qed.
Lemma empty_view key : 0 ≤ key.1 → view key empty_snapshot = None.
Proof. intros Hid. unfold view. by rewrite empty_written, empty_stored. Qed.
Lemma empty_index indexed : index_in_step indexed empty_snapshot.
Proof.
  intros r _ _ x y _ _ _. split.
  - by rewrite !empty_written by apply idx_id.
  - by rewrite !empty_stored.
  - by rewrite !empty_view by (done || apply idx_id).
Qed.
Lemma players_and_index_in_step_witness :
  ∃ n, ∀ fuel, (n ≤ fuel)%nat → ∃ s',
    TM.set_links_count (H1:=open_schema) fuel example_relation example_player.1 example_player.2 2 empty_snapshot = Val s' ∧
    things_ok s' ∧ index_in_step (λ _, true) s' ∧ player_set example_relation example_player 2 empty_snapshot s' ∧
    self_after (λ _, true) example_relation example_player 2 empty_snapshot s'.
Proof.
  apply (players_and_index_in_step (H1:=open_schema) (λ _, true) (λ _ _, eq_refl) example_relation example_player 2 empty_snapshot
    empty_things_ok (empty_index _) example_relation_ok example_player_ok). unfold is_u64; lia.
Defined.
Lemma player_counts_move_witness :
  ∃ m, ∀ fuel, (m ≤ fuel)%nat →
    (∃ s', TM.increment_links_count (H1:=open_schema) fuel example_relation example_player.1 example_player.2 empty_snapshot = Val s' ∧
       player_set example_relation example_player 1 empty_snapshot s') ∧
    TM.decrement_links_count (H1:=open_schema) fuel example_relation example_player.1 example_player.2 1 empty_snapshot =
      Err (RemoveDeletedPlayers 1 0).
Proof.
  destruct (player_counts_move (H1:=open_schema) (λ _, true) (λ _ _, eq_refl) example_relation example_player 0 1 empty_snapshot
    empty_things_ok (empty_index _) example_relation_ok example_player_ok) as (m & Hm);
    [unfold is_u64; lia|lia|apply empty_view; done|].
  exists m. intros fuel Hf. destruct (Hm fuel Hf) as [(s' & Hs' & _ & _ & Hset) Hdec].
  split; [exists s'; split; [exact Hs'|exact Hset]|exact Hdec].
Defined.
Lemma self_index_goes_stale_witness :
  ∃ n, ∀ fuel, (n ≤ fuel)%nat → ∃ s1,
    TM.set_links_count (H1:=open_schema) fuel example_relation example_player.1 example_player.2 2 empty_snapshot = Val s1 ∧
    ∃ m, ∀ fuel', (m ≤ fuel')%nat → ∃ s2,
      TM.set_links_count (H1:=open_schema) fuel' example_relation example_player.1 example_player.2 0 s1 = Val s2 ∧
      view (lnk example_relation example_player) s2 = None ∧
      view (idx example_relation example_player example_player) s2 = Some (Prim.encode_u64 1).
Proof.
  destruct (self_index_goes_stale (H1:=open_schema) (λ _, true) (λ _ _, eq_refl) example_relation example_player 2 empty_snapshot
    empty_things_ok (empty_index _) example_relation_ok example_player_ok) as (n & Hn); [unfold is_u64; lia|lia|reflexivity|].
  exists n. intros fuel Hf. destruct (Hn fuel Hf) as (s1 & Hs1 & _ & Hst). exists s1. split; [exact Hs1|].
  exact (Hst 0 (or_introl eq_refl)).
Defined.
