(* ===== verification/Pattern.v ===== *)
(** * Query patterns

    The intermediate representation of a query's patterns
    ([ir/pattern]): vertices, the constraints between them, conjunctions with
    their nested disjunctions, negations and optionals, the categories of
    variables and the binding modes of a pattern's variables.  Source spans are
    left out: no comparison of the code reads them. *)
From S2P Require Import Prelude Layout.
From stdpp Require Import countable gmap.

(** ** Variables and vertices *)
Record Var := { var_id : Z; var_anonymous : bool }.
#[global] Instance Var_eq_dec : EqDecision Var.
Proof. solve_decision. Defined.
#[global] Instance Var_countable : Countable Var.
Proof.
  refine (inj_countable' (λ v, (var_id v, var_anonymous v)) (λ p, {| var_id := p.1; var_anonymous := p.2 |}) _).
  by intros [].
Defined.

Inductive ParameterID := ParamValue (id : Z) | ParamIid (id : Z) | ParamFetchKey (id : Z).
#[global] Instance ParameterID_eq_dec : EqDecision ParameterID.
Proof. solve_decision. Defined.
#[global] Instance ParameterID_countable : Countable ParameterID.
Proof.
  refine (inj_countable'
    (λ p, match p with ParamValue i => inl i | ParamIid i => inr (inl i) | ParamFetchKey i => inr (inr i) end)
    (λ s, match s with inl i => ParamValue i | inr (inl i) => ParamIid i | inr (inr i) => ParamFetchKey i end) _).
  by intros [].
Defined.

(** A label compares, hashes and orders by its scoped name. *)
Inductive Vertex := VVariable (v : Var) | VLabel (scoped_name : string) | VParameter (p : ParameterID).
#[global] Instance Vertex_eq_dec : EqDecision Vertex.
Proof. solve_decision. Defined.
#[global] Instance Vertex_countable : Countable Vertex.
Proof.
  refine (inj_countable'
    (λ x, match x with VVariable v => inl v | VLabel l => inr (inl l) | VParameter p => inr (inr p) end)
    (λ s, match s with inl v => VVariable v | inr (inl l) => VLabel l | inr (inr p) => VParameter p end) _).
  by intros [].
Defined.

Definition as_variable (x : Vertex) : option Var := match x with VVariable v => Some v | _ => None end.
Definition is_variable (x : Vertex) : bool := match x with VVariable _ => true | _ => false end.
Definition is_parameter (x : Vertex) : bool := match x with VParameter _ => true | _ => false end.

(** ** Categories of variables *)
Inductive VariableCategory :=
| CType | CThingType | CAttributeType | CRoleType
| CThing | CObject
| CAttributeOrValue | CAttribute | CValue
| CThingList | CObjectList
| CAttributeList | CValueList.
#[global] Instance VariableCategory_eq_dec : EqDecision VariableCategory.
Proof. solve_decision. Defined.

(** The match's arms in the order of the source. *)
Definition narrowest (self other : VariableCategory) : option VariableCategory :=
  match self, other with
  | CRoleType, CRoleType => Some CRoleType
  | CRoleType, CType | CType, CRoleType => Some CRoleType
  | CRoleType, _ | _, CRoleType => None
  | CType, CAttributeType | CAttributeType, CType => Some CAttributeType
  | CThingType, CAttributeType | CAttributeType, CThingType => Some CAttributeType
  | CAttributeType, CAttributeType => Some CAttributeType
  | CAttributeType, _ | _, CAttributeType => None
  | CThingType, CThingType => Some CThingType
  | CThingType, CType | CType, CThingType => Some CThingType
  | CThingType, _ | _, CThingType => None
  | CType, CType => Some CType
  | _, CType | CType, _ => None
  | CThing, CThing => Some CThing
  | CThing, CObject | CObject, CThing => Some CObject
  | CThing, CAttributeOrValue | CAttributeOrValue, CThing => Some CAttribute
  | CThing, CAttribute | CAttribute, CThing => Some CAttribute
  | _, CThing | CThing, _ => None
  | CObject, CObject => Some CObject
  | _, CObject | CObject, _ => None
  | CAttributeOrValue, CAttributeOrValue => Some CAttributeOrValue
  | CAttributeOrValue, CAttribute | CAttribute, CAttributeOrValue => Some CAttribute
  | CAttributeOrValue, CValue | CValue, CAttributeOrValue => Some CValue
  | CAttributeOrValue, _ | _, CAttributeOrValue => None
  | CAttribute, CAttribute => Some CAttribute
  | _, CAttribute | CAttribute, _ => None
  | CValue, CValue => Some CValue
  | _, CValue | CValue, _ => None
  | CObjectList, CObjectList => Some CObjectList
  | CThingList, CObjectList | CObjectList, CThingList => Some CObjectList
  | _, CObjectList | CObjectList, _ => None
  | CAttributeList, CAttributeList => Some CAttributeList
  | CThingList, CAttributeList | CAttributeList, CThingList => Some CAttributeList
  | _, CAttributeList | CAttributeList, _ => None
  | CThingList, CThingList => Some CThingList
  | CThingList, _ | _, CThingList => None
  | CValueList, CValueList => Some CValueList
  end.
Definition is_category_type (c : VariableCategory) : bool := bool_decide (narrowest c CType = Some c).
Definition is_category_thing (c : VariableCategory) : bool := bool_decide (narrowest c CThing = Some c).

(** ** Expressions, as the nodes of a tree in pre-order *)
Inductive Operator := OpAdd | OpSubtract | OpMultiply | OpDivide | OpModulo | OpPower.
Inductive BuiltInFunctionID := FnAbs | FnCeil | FnFloor | FnRound.
Inductive Expression :=
| ExprConstant (p : ParameterID)
| ExprVariable (v : Var)
| ExprOperation (operator : Operator) (left_expression_id right_expression_id : nat)
| ExprBuiltInCall (builtin_id : BuiltInFunctionID) (argument_expression_ids : list nat)
| ExprListIndex (list_variable : Var) (index_expression_id : nat)
| ExprList (item_expression_ids : list nat) (len_id : ParameterID)
| ExprListIndexRange (list_variable : Var) (from_expression_id to_expression_id : nat).
#[global] Instance Operator_eq_dec : EqDecision Operator.
Proof. solve_decision. Defined.
#[global] Instance BuiltInFunctionID_eq_dec : EqDecision BuiltInFunctionID.
Proof. solve_decision. Defined.
#[global] Instance Expression_eq_dec : EqDecision Expression.
Proof. solve_decision. Defined.

Definition expression_argument (e : Expression) : option Var :=
  match e with
  | ExprVariable v => Some v
  | ExprListIndex l _ => Some l
  | ExprListIndexRange l _ _ => Some l
  | ExprConstant _ | ExprOperation _ _ _ | ExprBuiltInCall _ _ | ExprList _ _ => None
  end.
Definition argument_ids (tree : list Expression) : list Var := omap expression_argument tree.

(** ** Constraints *)
Inductive Kind := KEntity | KAttribute | KRelation | KRole.
Inductive SubKind := SubExact | SubSubtype.
Inductive IsaKind := IsaExact | IsaSubtype.
Inductive Comparator := CmpEqual | CmpNotEqual | CmpLess | CmpGreater | CmpLessOrEqual | CmpGreaterOrEqual | CmpLike | CmpContains.
Inductive FunctionID := FnSchema (definition_key : bytes) | FnPreamble (index : nat).
Inductive PatternValueType := Builtin (value_type : ValueType) | StructNamed (name : string).
Record Links := { links_relation : Vertex; links_player : Vertex; links_role_type : Vertex }.
#[global] Instance Kind_eq_dec : EqDecision Kind.
Proof. solve_decision. Defined.
#[global] Instance SubKind_eq_dec : EqDecision SubKind.
Proof. solve_decision. Defined.
#[global] Instance IsaKind_eq_dec : EqDecision IsaKind.
Proof. solve_decision. Defined.
#[global] Instance Comparator_eq_dec : EqDecision Comparator.
Proof. solve_decision. Defined.
#[global] Instance FunctionID_eq_dec : EqDecision FunctionID.
Proof. solve_decision. Defined.
#[global] Instance PatternValueType_eq_dec : EqDecision PatternValueType.
Proof. solve_decision. Defined.
#[global] Instance Links_eq_dec : EqDecision Links.
Proof. solve_decision. Defined.

(** The conjunction an [Unsatisfiable] replaced is not read again: all
    [Unsatisfiable] constraints are equal. *)
Inductive Constraint :=
| Is (lhs rhs : Vertex)
| KindC (kind : Kind) (type_ : Vertex)
| LabelC (type_var type_label : Vertex)
| RoleName (left : Vertex) (name : string)
| Sub (kind : SubKind) (subtype supertype : Vertex)
| Isa (kind : IsaKind) (thing type_ : Vertex)
| Iid (var iid : Vertex)
| LinksC (l : Links)
| IndexedRelation (player_1 player_2 relation role_type_1 role_type_2 : Vertex)
| Has (owner attribute : Vertex)
| ExpressionBinding (left : Vertex) (expression : list Expression)
| FunctionCallBinding (assigned : list Vertex) (function_id : FunctionID) (arguments : list Var) (is_stream : bool)
| Comparison (lhs rhs : Vertex) (comparator : Comparator)
| Owns (owner attribute : Vertex)
| Relates (relation role_type : Vertex)
| Plays (player role_type : Vertex)
| ValueC (attribute_type : Vertex) (value_type : PatternValueType)
| LinksDeduplication (links1 links2 : Links)
| Unsatisfiable.
#[global] Instance Constraint_eq_dec : EqDecision Constraint.
Proof. solve_decision. Defined.

Definition vertices (c : Constraint) : list Vertex :=
  match c with
  | Is l r => [l; r]
  | KindC _ t => [t]
  | LabelC t l => [t; l]
  | RoleName l _ => [l]
  | Sub _ l r => [l; r]
  | Isa _ l r => [l; r]
  | Iid v i => [v; i]
  | LinksC l => [links_relation l; links_player l; links_role_type l]
  | IndexedRelation p1 p2 r r1 r2 => [r; p1; p2; r1; r2]
  | Has o a => [o; a]
  | ExpressionBinding l _ => [l]
  | FunctionCallBinding a _ _ _ => a
  | Comparison l r _ => [l; r]
  | Owns o a => [o; a]
  | Relates r t => [r; t]
  | Plays p t => [p; t]
  | ValueC a _ => [a]
  | LinksDeduplication a b => [links_role_type a; links_player a; links_role_type b; links_player b]
  | Unsatisfiable => []
  end.

Definition ids (c : Constraint) : list Var :=
  match c with
  | Is l r => omap as_variable [l; r]
  | KindC _ t => omap as_variable [t]
  | LabelC t _ => omap as_variable [t]
  | RoleName l _ => omap as_variable [l]
  | Sub _ l r => omap as_variable [l; r]
  | Isa _ l r => omap as_variable [l; r]
  | Iid v _ => omap as_variable [v]
  | LinksC l => omap as_variable [links_relation l; links_player l; links_role_type l]
  | IndexedRelation p1 p2 r r1 r2 => omap as_variable [r; p1; p2; r1; r2]
  | Has o a => omap as_variable [o; a]
  | ExpressionBinding l e => omap as_variable [l] ++ argument_ids e
  | FunctionCallBinding a _ args _ => omap as_variable a ++ args
  | Comparison l r _ => omap as_variable [l; r]
  | Owns o a => omap as_variable [o; a]
  | Relates r t => omap as_variable [r; t]
  | Plays p t => omap as_variable [p; t]
  | ValueC a _ => omap as_variable [a]
  | LinksDeduplication a b => omap as_variable [links_role_type a; links_player a; links_role_type b; links_player b]
  | Unsatisfiable => []
  end.

Definition binding_ids (c : Constraint) : list Var :=
  match c with
  | ExpressionBinding l _ => omap as_variable [l]
  | FunctionCallBinding a _ _ _ => omap as_variable a
  | Comparison _ _ _ => []
  | LinksDeduplication _ _ => []
  | c => ids c
  end.
Definition non_binding_ids (c : Constraint) : list Var :=
  match c with
  | Is l r => ids (Is l r)
  | ExpressionBinding _ e => argument_ids e
  | FunctionCallBinding _ _ args _ => args
  | Comparison l r k => ids (Comparison l r k)
  | _ => []
  end.

(** ** Conjunctions and nested patterns *)
Inductive Conjunction :=
| MkConjunction (scope_id : Z) (constraints : list Constraint) (nested_patterns : list NestedPattern)
with NestedPattern :=
| PDisjunction (conjunctions : list Conjunction) (branch_ids : list Z) (scope_id : Z)
| PNegation (conjunction : Conjunction)
| POptional (conjunction : Conjunction) (branch_id : Z).

Definition conj_scope_id (c : Conjunction) : Z := let '(MkConjunction s _ _) := c in s.
Definition constraints (c : Conjunction) : list Constraint := let '(MkConjunction _ cs _) := c in cs.
Definition nested_patterns (c : Conjunction) : list NestedPattern := let '(MkConjunction _ _ ns) := c in ns.

(** [Itertools::unique]: the first of equal elements. *)
Fixpoint unique {A} `{EqDecision A} (l : list A) : list A :=
  match l with
  | [] => []
  | x :: l' => x :: List.filter (λ y, negb (bool_decide (y = x))) (unique l')
  end.

Fixpoint referenced_variables (c : Conjunction) : list Var :=
  match c with
  | MkConjunction _ cs ns => unique (flat_map ids cs ++ flat_map nested_referenced_variables ns)
  end
with nested_referenced_variables (n : NestedPattern) : list Var :=
  match n with
  | PDisjunction cs _ _ => flat_map referenced_variables cs
  | PNegation c => referenced_variables c
  | POptional c _ => referenced_variables c
  end.

(** ** Binding modes *)
Inductive BindingMode := RequirePrebound | AlwaysBinding | LocallyBindingInChild | OptionallyBinding.
#[global] Instance BindingMode_eq_dec : EqDecision BindingMode.
Proof. solve_decision. Defined.

Definition mode_and (a b : BindingMode) : BindingMode :=
  match a, b with
  | AlwaysBinding, _ | _, AlwaysBinding => AlwaysBinding
  | RequirePrebound, _ | _, RequirePrebound => RequirePrebound
  | LocallyBindingInChild, _ | _, LocallyBindingInChild => LocallyBindingInChild
  | OptionallyBinding, OptionallyBinding => OptionallyBinding
  end.
Definition mode_or (a b : BindingMode) : BindingMode :=
  match a, b with
  | RequirePrebound, _ | _, RequirePrebound => RequirePrebound
  | OptionallyBinding, _ | _, OptionallyBinding => OptionallyBinding
  | LocallyBindingInChild, _ | _, LocallyBindingInChild => LocallyBindingInChild
  | AlwaysBinding, AlwaysBinding => AlwaysBinding
  end.

Record VariableBindingMode := { mode : BindingMode; referencing_constraints : list Constraint }.
Definition require_prebound (c : Constraint) : VariableBindingMode :=
  {| mode := RequirePrebound; referencing_constraints := [c] |}.
Definition always_binding (c : Constraint) : VariableBindingMode :=
  {| mode := AlwaysBinding; referencing_constraints := [c] |}.
Definition set_mode (m : BindingMode) (v : VariableBindingMode) : VariableBindingMode :=
  {| mode := m; referencing_constraints := referencing_constraints v |}.
Definition set_locally_binding_in_child := set_mode LocallyBindingInChild.
Definition set_optionally_binding := set_mode OptionallyBinding.
Definition is_always_binding (v : VariableBindingMode) : bool := bool_decide (mode v = AlwaysBinding).
Definition is_optionally_binding (v : VariableBindingMode) : bool := bool_decide (mode v = OptionallyBinding).
Definition binding_and (a b : VariableBindingMode) : VariableBindingMode :=
  {| mode := mode_and (mode a) (mode b);
     referencing_constraints := referencing_constraints a ++ referencing_constraints b |}.
Definition binding_or (a b : VariableBindingMode) : VariableBindingMode :=
  {| mode := mode_or (mode a) (mode b);
     referencing_constraints := referencing_constraints a ++ referencing_constraints b |}.

Abbreviation modes := (gmap Var VariableBindingMode).

(** The [Entry] match of the loops: combine with the mode on record, or record
    the new one. *)
Definition and_entry (v : Var) (b : VariableBindingMode) (acc : modes) : modes :=
  <[v := match acc !! v with Some a => binding_and a b | None => b end]> acc.
Definition constraint_modes (acc : modes) (c : Constraint) : modes :=
  let acc := fold_left (λ acc v, and_entry v (always_binding c) acc) (binding_ids c) acc in
  fold_left (λ acc v, and_entry v (require_prebound c) acc) (non_binding_ids c) acc.
Definition constraints_binding_modes (cs : list Constraint) : modes := fold_left constraint_modes cs ∅.

(** A loop over the entries of a map, each handled under its own key. *)
Definition and_modes (acc nested : modes) : modes := union_with (λ a b, Some (binding_and a b)) acc nested.
Definition local_if_always (m : VariableBindingMode) : VariableBindingMode :=
  if is_always_binding m then set_locally_binding_in_child m else m.
Definition optional_if_always (m : VariableBindingMode) : VariableBindingMode :=
  if is_always_binding m then set_optionally_binding m else m.
Definition branch_entry (a b : option VariableBindingMode) : option VariableBindingMode :=
  match a, b with
  | Some a, Some b => Some (binding_or a b)
  | Some a, None => Some (local_if_always a)
  | None, Some b => Some (local_if_always b)
  | None, None => None
  end.
Definition or_branch (acc branch : modes) : modes := merge branch_entry acc branch.

Fixpoint variable_binding_modes (c : Conjunction) : modes :=
  match c with
  | MkConjunction _ cs ns =>
      fold_left and_modes (List.map nested_binding_modes ns) (constraints_binding_modes cs)
  end
with nested_binding_modes (n : NestedPattern) : modes :=
  match n with
  | PDisjunction cs _ _ =>
      match List.map variable_binding_modes cs with
      | [] => ∅
      | first :: branches => fold_left or_branch branches first
      end
  | PNegation c => local_if_always <$> variable_binding_modes c
  | POptional c _ => optional_if_always <$> variable_binding_modes c
  end.

(** ** Narrowing of categories *)
Definition narrow (a b : option VariableCategory) : option VariableCategory :=
  match a, b with Some a, Some b => narrowest a b | _, _ => None end.
Lemma narrow_comm a b : narrow a b = narrow b a.
Proof. by destruct a as [[]|], b as [[]|]. Qed.
Lemma narrow_idemp a : narrow a a = a.
Proof. by destruct a as [[]|]. Qed.
Lemma narrow_assoc a b c : narrow (narrow a b) c = narrow a (narrow b c).
Proof. by destruct a as [[]|], b as [[]|], c as [[]|]. Qed.

(** ** What the binding modes of a pattern are *)

(** The mode of a variable in a disjunction, from its modes in the branches
    ([None] where a branch does not mention it). *)
Definition disjunction_mode (branches : list (option BindingMode)) : option BindingMode :=
  if forallb (λ m, bool_decide (m = None)) branches then None
  else if bool_decide (Some RequirePrebound ∈ branches) then Some RequirePrebound
  else if bool_decide (Some OptionallyBinding ∈ branches) then Some OptionallyBinding
  else if forallb (λ m, bool_decide (m = Some AlwaysBinding)) branches then Some AlwaysBinding
  else Some LocallyBindingInChild.

(** The mode of a variable in a conjunction, from the modes its parts give it. *)
Definition conjunction_mode (parts : list (option BindingMode)) : option BindingMode :=
  if forallb (λ m, bool_decide (m = None)) parts then None
  else if bool_decide (Some AlwaysBinding ∈ parts) then Some AlwaysBinding
  else if bool_decide (Some RequirePrebound ∈ parts) then Some RequirePrebound
  else if bool_decide (Some LocallyBindingInChild ∈ parts) then Some LocallyBindingInChild
  else Some OptionallyBinding.

Definition mode_at (m : modes) (v : Var) : option BindingMode := mode <$> m !! v.
Definition constraint_parts (v : Var) (c : Constraint) : list (option BindingMode) :=
  [if bool_decide (v ∈ binding_ids c) then Some AlwaysBinding else None;
   if bool_decide (v ∈ non_binding_ids c) then Some RequirePrebound else None].
Definition negation_mode (m : BindingMode) : BindingMode :=
  match m with AlwaysBinding => LocallyBindingInChild | m => m end.
Definition optional_mode (m : BindingMode) : BindingMode :=
  match m with AlwaysBinding => OptionallyBinding | m => m end.

Definition and_opt (a b : option BindingMode) : option BindingMode :=
  match a, b with Some a, Some b => Some (mode_and a b) | Some a, None => Some a | None, b => b end.
Definition or_opt (a b : option BindingMode) : option BindingMode :=
  match a, b with
  | Some a, Some b => Some (mode_or a b)
  | Some a, None => Some (negation_mode a)
  | None, Some b => Some (negation_mode b)
  | None, None => None
  end.

Lemma and_opt_app l a : conjunction_mode (l ++ [a]) = and_opt (conjunction_mode l) a.
Proof.
  unfold conjunction_mode. rewrite forallb_app. cbn [forallb].
  rewrite !(bool_decide_ext (_ ∈ l ++ [a]) _ (elem_of_app _ _ _)), !bool_decide_or.
  rewrite !(bool_decide_ext (_ ∈ [a]) _ (list_elem_of_singleton _ _)).
  destruct (forallb _ l) eqn:E.
  - assert (∀ x, bool_decide (Some x ∈ l) = false) as R.
    { intros x. apply bool_decide_eq_false. intros Hin. rewrite forallb_forall in E.
      by specialize (E (Some x) (proj1 (list_elem_of_In _ _) Hin)). }
    rewrite !R. by destruct a as [[]|].
  - by do 3 destruct (bool_decide (Some _ ∈ l)); destruct a as [[]|].
Qed.
Lemma or_opt_app l a : l ≠ [] → disjunction_mode (l ++ [a]) = or_opt (disjunction_mode l) a.
Proof.
  intros Hl. unfold disjunction_mode. rewrite !forallb_app. cbn [forallb].
  rewrite !(bool_decide_ext (_ ∈ l ++ [a]) _ (elem_of_app _ _ _)), !bool_decide_or.
  rewrite !(bool_decide_ext (_ ∈ [a]) _ (list_elem_of_singleton _ _)).
  destruct (forallb (λ m, bool_decide (m = None)) l) eqn:E.
  - assert (∀ x, bool_decide (Some x ∈ l) = false) as R.
    { intros x. apply bool_decide_eq_false. intros Hin. rewrite forallb_forall in E.
      by specialize (E (Some x) (proj1 (list_elem_of_In _ _) Hin)). }
    destruct l as [|b l]; [done|]. cbn [forallb] in E. apply andb_prop in E as [Hb _].
    apply bool_decide_eq_true in Hb as ->. rewrite !R. by destruct a as [[]|].
  - destruct (forallb (λ m, bool_decide (m = Some AlwaysBinding)) l) eqn:F;
      do 2 destruct (bool_decide (Some _ ∈ l)); by destruct a as [[]|].
Qed.

Lemma mode_at_and acc m v : mode_at (and_modes acc m) v = and_opt (mode_at acc v) (mode_at m v).
Proof. unfold mode_at, and_modes. rewrite lookup_union_with. by destruct (acc !! v), (m !! v). Qed.
Lemma mode_at_or acc m v : mode_at (or_branch acc m) v = or_opt (mode_at acc v) (mode_at m v).
Proof.
  unfold mode_at, or_branch. rewrite lookup_merge.
  destruct (acc !! v) as [[[] ?]|], (m !! v) as [[[] ?]|]; done.
Qed.
Lemma mode_at_fold_and ms acc parts v :
  mode_at acc v = conjunction_mode parts →
  mode_at (fold_left and_modes ms acc) v = conjunction_mode (parts ++ ((λ m, mode_at m v) <$> ms)).
Proof.
  revert acc parts. induction ms as [|m ms IH]; intros acc parts E; [by rewrite app_nil_r|].
  cbn [fold_left fmap list_fmap]. rewrite (IH _ (parts ++ [mode_at m v])).
  - by rewrite <-app_assoc.
  - by rewrite mode_at_and, E, and_opt_app.
Qed.
Lemma mode_at_fold_or ms acc parts v :
  parts ≠ [] → mode_at acc v = disjunction_mode parts →
  mode_at (fold_left or_branch ms acc) v = disjunction_mode (parts ++ ((λ m, mode_at m v) <$> ms)).
Proof.
  revert acc parts. induction ms as [|m ms IH]; intros acc parts Hn E; [by rewrite app_nil_r|].
  cbn [fold_left fmap list_fmap]. rewrite (IH _ (parts ++ [mode_at m v])).
  - by rewrite <-app_assoc.
  - by destruct parts.
  - by rewrite mode_at_or, E, or_opt_app.
Qed.

Lemma mode_at_entries (l : list Var) b acc v :
  mode_at (fold_left (λ acc v, and_entry v b acc) l acc) v =
  and_opt (mode_at acc v) (if bool_decide (v ∈ l) then Some (mode b) else None).
Proof.
  revert acc. induction l as [|x l IH]; intros acc.
  { cbn [fold_left]. rewrite bool_decide_eq_false_2 by apply not_elem_of_nil. by destruct (mode_at acc v). }
  cbn [fold_left]. rewrite IH. unfold mode_at at 1, and_entry.
  destruct (decide (x = v)) as [->|Hx].
  - rewrite lookup_insert_eq. rewrite (bool_decide_eq_true_2 (v ∈ v :: l)) by apply list_elem_of_here.
    unfold mode_at. destruct (acc !! v) as [[[] ?]|], b as [[] ?], (bool_decide (v ∈ l)); done.
  - rewrite lookup_insert_ne by done.
    rewrite (bool_decide_ext (v ∈ x :: l) (v ∈ l)); [done|]. rewrite elem_of_cons. naive_solver.
Qed.
Lemma and_opt_assoc a b c : and_opt (and_opt a b) c = and_opt a (and_opt b c).
Proof. by destruct a as [[]|], b as [[]|], c as [[]|]. Qed.
Lemma mode_at_constraints cs v :
  mode_at (constraints_binding_modes cs) v = conjunction_mode (flat_map (constraint_parts v) cs).
Proof.
  unfold constraints_binding_modes.
  assert (∀ acc parts, mode_at acc v = conjunction_mode parts →
    mode_at (fold_left constraint_modes cs acc) v = conjunction_mode (parts ++ flat_map (constraint_parts v) cs)) as G.
  { induction cs as [|c cs IH]; intros acc parts E; [by rewrite app_nil_r|].
    cbn [fold_left flat_map]. rewrite (IH _ (parts ++ constraint_parts v c)); [by rewrite <-app_assoc|].
    unfold constraint_modes, constraint_parts. rewrite !mode_at_entries, E.
    change ([?a; ?b]) with ([a] ++ [b]). by rewrite app_assoc, !and_opt_app. }
  apply (G ∅ []). by unfold mode_at; rewrite lookup_empty.
Qed.

(** The binding modes of a pattern.  A variable of a conjunction is always
    binding when some constraint or nested pattern binds it; otherwise it must
    be bound before when some part requires it; otherwise it is binding in a
    child, or optionally binding.  In a disjunction a variable some branch
    requires must be bound before, one that is bound in every branch is always
    binding, and one bound in some of them is local to its branches.  A
    negation turns what it binds into local bindings, an optional into optional
    ones.  So the modes do not depend on the order of the parts. *)
Lemma binding_modes_of_patterns scope cs ns c0 branches ids_ n v :
  mode_at (variable_binding_modes (MkConjunction scope cs ns)) v =
    conjunction_mode (flat_map (constraint_parts v) cs ++ ((λ n, mode_at (nested_binding_modes n) v) <$> ns)) ∧
  mode_at (nested_binding_modes (PDisjunction (c0 :: branches) ids_ scope)) v =
    disjunction_mode ((λ c, mode_at (variable_binding_modes c) v) <$> c0 :: branches) ∧
  mode_at (nested_binding_modes (PNegation c0)) v = negation_mode <$> mode_at (variable_binding_modes c0) v ∧
  mode_at (nested_binding_modes (POptional c0 n)) v = optional_mode <$> mode_at (variable_binding_modes c0) v.
Proof.
  split_and!.
  - cbn [variable_binding_modes]. rewrite (mode_at_fold_and _ _ _ v (mode_at_constraints cs v)).
    by rewrite <-list_fmap_compose.
  - cbn [nested_binding_modes List.map]. rewrite (mode_at_fold_or _ _ [mode_at (variable_binding_modes c0) v]); [|done|].
    + by rewrite <-list_fmap_compose.
    + by destruct (mode_at (variable_binding_modes c0) v) as [[]|].
  - cbn [nested_binding_modes]. unfold mode_at. rewrite lookup_fmap.
    by destruct (variable_binding_modes c0 !! v) as [[[] ?]|].
  - cbn [nested_binding_modes]. unfold mode_at. rewrite lookup_fmap.
    by destruct (variable_binding_modes c0 !! v) as [[[] ?]|].
Qed.
