(* ===== verification/TypeEdges.v ===== *)
(** * The keys of the schema: [encoding/graph/type_/edge.rs],
    [encoding/graph/type_/property.rs], [encoding/graph/type_/index.rs],
    [encoding/value/label.rs] and [encoding/graph/common/schema_id_allocator.rs]

    A type is a vertex of three bytes.  Subtyping, ownership, playing and
    relating are edges between two of them, each stored in both directions.
    Properties of types and of edges, and the index of labels, are keys of the
    same keyspace; the first byte tells them apart. *)
From stdpp Require Import strings gmap.
From S2P Require Import Prelude BTree Bytes MemoryStore Buffer LendingIter Mvcc Keyspaces Snapshot Dependency Timeline Isolation Storage Layout Values Structs Attributes Things Edges ThingManager Pattern.
Import KeyRangeOps.
#[local] Open Scope Z_scope.

(** ** Kinds of types: [TypeVertexEncoding] and [TypeAPI] *)
Inductive TypeEncodingError :=
| UnexpectedPrefix (expected_prefix actual_prefix : Prefix)
| SchemaIDAllocate (source : SnapshotIteratorError KeyspaceError)
| TypeIDsExhausted (kind : Kind).
(** [Result::unwrap]. *)
Definition unwrap_ok {E E' A} (m : exec E A) : exec E' A := match m with Val a => Val a | _ => Panic end.

(** A type of types is its decoding from a vertex; its values are vertices. *)
Record TypeAPI := mk_TypeAPI { from_vertex : Z → exec TypeEncodingError Z }.
Definition new (T : TypeAPI) (vertex : Z) : outcome Z := unwrap_ok (from_vertex T vertex).
Definition from_bytes (T : TypeAPI) (bs : bytes) : exec TypeEncodingError Z :=
  vertex ← lift (TypeVertex.decode bs); from_vertex T vertex.
Definition from_vertex_of (p : Prefix) (vertex : Z) : exec TypeEncodingError Z :=
  actual ← lift (TypeVertex.prefix vertex);
  if decide (actual = p) then Val vertex else Err (UnexpectedPrefix p actual).
Definition EntityType : TypeAPI := mk_TypeAPI (from_vertex_of VertexEntityType).
Definition RelationType : TypeAPI := mk_TypeAPI (from_vertex_of VertexRelationType).
Definition AttributeType : TypeAPI := mk_TypeAPI (from_vertex_of VertexAttributeType).
Definition RoleType : TypeAPI := mk_TypeAPI (from_vertex_of VertexRoleType).
Definition ObjectType_from_vertex (vertex : Z) : exec TypeEncodingError Z :=
  actual ← lift (TypeVertex.prefix vertex);
  match actual with
  | VertexEntityType => lift (new EntityType vertex)
  | VertexRelationType => lift (new RelationType vertex)
  | _ => Err (UnexpectedPrefix VertexEntityType actual)
  end.
Definition ObjectType : TypeAPI := mk_TypeAPI ObjectType_from_vertex.
Definition prefix_of_kind (k : Kind) : Prefix :=
  match k with
  | KEntity => VertexEntityType
  | KAttribute => VertexAttributeType
  | KRelation => VertexRelationType
  | KRole => VertexRoleType
  end.
Definition type_of_kind (k : Kind) : TypeAPI :=
  match k with KEntity => EntityType | KAttribute => AttributeType | KRelation => RelationType | KRole => RoleType end.
Definition prefix_for_kind (k : Kind) : EncodingKeyspace * bytes := TypeVertex.build_type_vertex_prefix_key (prefix_of_kind k).

(** ** Edges *)
Record TypeEdge := mk_TypeEdge { te_prefix : Prefix; te_from : Z; te_to : Z }.
Module TypeEdges.
Definition KEYSPACE : EncodingKeyspace := DefaultOptimisedPrefix11.
Definition FIXED_WIDTH_ENCODING : bool := true.
Definition LENGTH : nat := (1 + 2 * TypeVertex.LENGTH)%nat.
Definition decode (bs : bytes) : outcome TypeEdge :=
  b ← unwrap (bs !! 0%nat);
  prefix ← Prefixes.from_prefix_id b;
  from ← slice 1 (1 + TypeVertex.LENGTH) bs;
  from ← TypeVertex.decode from;
  to ← slice (1 + TypeVertex.LENGTH) (1 + TypeVertex.LENGTH + TypeVertex.LENGTH) bs;
  to ← TypeVertex.decode to;
  Val (mk_TypeEdge prefix from to).
Definition build_prefix (p : Prefix) : EncodingKeyspace * bytes := (KEYSPACE, [Prefixes.prefix_id p]).
Definition build_prefix_prefix (p from_prefix : Prefix) : EncodingKeyspace * bytes :=
  (KEYSPACE, [Prefixes.prefix_id p; Prefixes.prefix_id from_prefix]).
Definition build_prefix_from (p : Prefix) (from : Z) : EncodingKeyspace * bytes :=
  (KEYSPACE, Prefixes.prefix_id p :: TypeVertex.to_bytes from).
Definition to_bytes (e : TypeEdge) : bytes :=
  Prefixes.prefix_id (te_prefix e) :: TypeVertex.to_bytes (te_from e) ++ TypeVertex.to_bytes (te_to e).
Definition into_storage_key (e : TypeEdge) : Z * bytes := (EncodingKeyspaces.id KEYSPACE, to_bytes e).
End TypeEdges.

(** The edges of a kind: [TypeEdgeEncoding].  An edge of a kind is the pair of
    the vertices that [canonical_from] and [canonical_to] return. *)
Record TypeEdgeEncoding := mk_TypeEdgeEncoding {
  CANONICAL_PREFIX : Prefix; REVERSE_PREFIX : Prefix; From : TypeAPI; To : TypeAPI }.
Abbreviation edge := (Z * Z)%type.
Module EdgeEncoding.
Section encoding.
Context (E : TypeEdgeEncoding).
Definition decode_canonical_edge (bs : bytes) : outcome edge :=
  type_edge ← TypeEdges.decode bs;
  from ← new (From E) (te_from type_edge);
  to ← new (To E) (te_to type_edge);
  Val (from, to).
Definition decode_reverse_edge (bs : bytes) : outcome edge :=
  type_edge ← TypeEdges.decode bs;
  from ← new (From E) (te_to type_edge);
  to ← new (To E) (te_from type_edge);
  Val (from, to).
Definition to_canonical_type_edge (e : edge) : TypeEdge := mk_TypeEdge (CANONICAL_PREFIX E) e.1 e.2.
Definition to_reverse_type_edge (e : edge) : TypeEdge := mk_TypeEdge (REVERSE_PREFIX E) e.2 e.1.
Definition prefix_for_canonical_edges_from (from : Z) : EncodingKeyspace * bytes :=
  TypeEdges.build_prefix_from (CANONICAL_PREFIX E) from.
Definition prefix_for_reverse_edges_from (from : Z) : EncodingKeyspace * bytes :=
  TypeEdges.build_prefix_from (REVERSE_PREFIX E) from.
Definition prefix_for_canonical_edges (from_prefix : Prefix) : EncodingKeyspace * bytes :=
  TypeEdges.build_prefix_prefix (CANONICAL_PREFIX E) from_prefix.
Definition prefix_for_reverse_edges (from_prefix : Prefix) : EncodingKeyspace * bytes :=
  TypeEdges.build_prefix_prefix (REVERSE_PREFIX E) from_prefix.
Definition is_canonical_edge (bs : bytes) : outcome bool :=
  if (length bs =? TypeEdges.LENGTH)%nat then
    e ← TypeEdges.decode bs; Val (bool_decide (te_prefix e = CANONICAL_PREFIX E))
  else Val false.
Definition is_reverse_edge (bs : bytes) : outcome bool :=
  if (length bs =? TypeEdges.LENGTH)%nat then
    e ← TypeEdges.decode bs; Val (bool_decide (te_prefix e = REVERSE_PREFIX E))
  else Val false.
End encoding.
End EdgeEncoding.
Definition Sub (T : TypeAPI) : TypeEdgeEncoding := mk_TypeEdgeEncoding EdgeSub EdgeSubReverse T T.
Definition Owns : TypeEdgeEncoding := mk_TypeEdgeEncoding EdgeOwns EdgeOwnsReverse ObjectType AttributeType.
Definition Plays : TypeEdgeEncoding := mk_TypeEdgeEncoding EdgePlays EdgePlaysReverse ObjectType RoleType.
Definition Relates : TypeEdgeEncoding := mk_TypeEdgeEncoding EdgeRelates EdgeRelatesReverse RelationType RoleType.

(** ** Properties of types and of edges *)
Record TypeVertexProperty := mk_TypeVertexProperty { vp_type : Z; vp_infix : Infix; vp_suffix : option bytes }.
Module VertexProperty.
Definition KEYSPACE : EncodingKeyspace := DefaultOptimisedPrefix11.
Definition PREFIX : Prefix := PropertyTypeVertex.
Definition FIXED_WIDTH_ENCODING : bool := Prefixes.fixed_width_keys PREFIX.
Definition LENGTH_NO_SUFFIX : nat := (1 + TypeVertex.LENGTH + 1)%nat.
Definition new (type_ : Z) (infix : Infix) : TypeVertexProperty := mk_TypeVertexProperty type_ infix None.
Definition new_suffixed (vertex : Z) (infix : Infix) (suffix : bytes) : TypeVertexProperty :=
  mk_TypeVertexProperty vertex infix (Some suffix).
Definition decode (bs : bytes) : outcome TypeVertexProperty :=
  type_ ← slice 1 (1 + TypeVertex.LENGTH) bs;
  type_ ← TypeVertex.decode type_;
  infix ← unwrap (bs !! (1 + TypeVertex.LENGTH)%nat);
  infix ← Infixes.from_infix_id infix;
  Val (mk_TypeVertexProperty type_ infix
    (if (LENGTH_NO_SUFFIX <? length bs)%nat then Some (drop LENGTH_NO_SUFFIX bs) else None)).
Definition build_prefix : EncodingKeyspace * bytes := (KEYSPACE, [Prefixes.prefix_id PREFIX]).
Definition to_bytes (p : TypeVertexProperty) : bytes :=
  Prefixes.prefix_id PREFIX :: TypeVertex.to_bytes (vp_type p) ++ [Infixes.infix_id (vp_infix p)] ++ default [] (vp_suffix p).
Definition into_storage_key (p : TypeVertexProperty) : Z * bytes := (EncodingKeyspaces.id KEYSPACE, to_bytes p).
End VertexProperty.

Record TypeEdgeProperty := mk_TypeEdgeProperty { ep_edge : TypeEdge; ep_infix : Infix; ep_suffix : option bytes }.
Module EdgeProperty.
Definition KEYSPACE : EncodingKeyspace := DefaultOptimisedPrefix11.
Definition PREFIX : Prefix := PropertyTypeEdge.
Definition FIXED_WIDTH_ENCODING : bool := Prefixes.fixed_width_keys PREFIX.
Definition LENGTH_NO_SUFFIX : nat := (1 + TypeEdges.LENGTH + 1)%nat.
Definition new (edge : TypeEdge) (infix : Infix) : TypeEdgeProperty := mk_TypeEdgeProperty edge infix None.
Definition decode (bs : bytes) : outcome TypeEdgeProperty :=
  edge ← slice 1 (1 + TypeEdges.LENGTH) bs;
  edge ← TypeEdges.decode edge;
  infix ← unwrap (bs !! (1 + TypeEdges.LENGTH)%nat);
  infix ← Infixes.from_infix_id infix;
  Val (mk_TypeEdgeProperty edge infix
    (if (LENGTH_NO_SUFFIX <? length bs)%nat then Some (drop LENGTH_NO_SUFFIX bs) else None)).
Definition build_suffixed (edge : TypeEdge) (infix : Infix) (suffix : bytes) : TypeEdgeProperty :=
  mk_TypeEdgeProperty edge infix (Some suffix).
Definition build_prefix : EncodingKeyspace * bytes := (KEYSPACE, [Prefixes.prefix_id PREFIX]).
Definition to_bytes (p : TypeEdgeProperty) : bytes :=
  Prefixes.prefix_id PREFIX :: TypeEdges.to_bytes (ep_edge p) ++ [Infixes.infix_id (ep_infix p)] ++ default [] (ep_suffix p).
Definition into_storage_key (p : TypeEdgeProperty) : Z * bytes := (EncodingKeyspaces.id KEYSPACE, to_bytes p).
End EdgeProperty.

(** [TypeVertexPropertyEncoding] and [TypeEdgePropertyEncoding]: a property is
    stored under its infix, as a value or as the key alone. *)
Record PropertyEncoding (P : Type) := mk_PropertyEncoding {
  INFIX : Infix; from_value_bytes : bytes → outcome P; to_value_bytes : P → option bytes }.
Arguments mk_PropertyEncoding {P} INFIX from_value_bytes to_value_bytes.
Arguments INFIX {P} p.
Arguments from_value_bytes {P} p bs.
Arguments to_value_bytes {P} p a.
Definition vertex_key {P} (property : PropertyEncoding P) (vertex : Z) : TypeVertexProperty :=
  VertexProperty.new vertex (INFIX property).
Definition edge_key {P} (property : PropertyEncoding P) (E : TypeEdgeEncoding) (e : edge) : TypeEdgeProperty :=
  EdgeProperty.new (EdgeEncoding.to_canonical_type_edge E e) (INFIX property).
Definition ValueType_from_value_bytes (value : bytes) : outcome ValueType :=
  bs ← slice 0 ValueTypeBytes.LENGTH value; ValueTypeBytes.to_value_type bs.
Definition ValueType_property : PropertyEncoding ValueType :=
  mk_PropertyEncoding PropertyValueType ValueType_from_value_bytes (λ value_type, Some (ValueTypeBytes.build value_type)).
(** The orders of lists, in the encoding of the [bincode] crate. *)
Inductive Ordering := Unordered | Ordered.
Class Bincode (A : Type) := { serialize : A → bytes; deserialize : bytes → outcome A }.
Definition Ordering_property `{Bincode Ordering} : PropertyEncoding Ordering :=
  mk_PropertyEncoding PropertyOrdering deserialize (λ ordering, Some (serialize ordering)).
Definition Independent_property `{Bincode unit} : PropertyEncoding unit :=
  mk_PropertyEncoding PropertyRelationTypeIndependent deserialize (λ independent, Some (serialize independent)).

(** ** Labels *)
Definition colon : Z := 58.
Record Label := mk_Label { name : bytes; scope : option bytes; scoped_name : bytes }.
Module Labels.
(** [str::split(':')]. *)
Fixpoint split (bs : bytes) : list bytes :=
  match bs with
  | [] => [[]]
  | b :: bs =>
      if b =? colon then [] :: split bs
      else match split bs with s :: ss => (b :: s) :: ss | [] => [[b]] end
  end.
Definition build (n : bytes) : Label := mk_Label n None n.
Definition build_scoped (n s : bytes) : Label := mk_Label n (Some s) (s ++ colon :: n).
Definition parse_from (string : bytes) : outcome Label :=
  match split string with
  | first :: second :: _ => Val (build_scoped second first)
  | [first] => Val (build first)
  | [] => Panic
  end.
Definition from_value_bytes (value : bytes) : outcome Label := s ← as_str value; parse_from s.
Definition to_value_bytes (l : Label) : option bytes := Some (scoped_name l).
Definition property : PropertyEncoding Label := mk_PropertyEncoding PropertyLabel from_value_bytes to_value_bytes.
End Labels.

(** ** The index of names *)
Module IdentifierIndex.
Definition KEYSPACE : EncodingKeyspace := DefaultOptimisedPrefix11.
Definition FIXED_WIDTH_ENCODING : bool := false.
(** The identifier of a type: its name and then its scope. *)
Definition label_identifier (key : Label) : bytes :=
  match scope key with Some s => name key ++ colon :: s | None => name key end.
Definition build (p : Prefix) (identifier : bytes) : Z * bytes := (EncodingKeyspaces.id KEYSPACE, Prefixes.prefix_id p :: identifier).
Definition build_prefix (p : Prefix) : Z * bytes := (EncodingKeyspaces.id KEYSPACE, [Prefixes.prefix_id p]).
Definition identifier (bs : bytes) : bytes := drop 1 bs.
Definition LabelToTypeVertex (label : Label) : Z * bytes := build IndexLabelToType (label_identifier label).
Definition NameToStructDefinition (n : bytes) : Z * bytes := build IndexNameToDefinitionStruct n.
Definition NameToFunctionDefinition (n : bytes) : Z * bytes := build IndexNameToDefinitionFunction n.
End IdentifierIndex.

(** ** Ids of types *)
Module SchemaIDAllocator.
Definition MAX_ID : Z := 65535.
Definition object_from_id (p : Prefix) (id : Z) : Z := TypeVertex.new (Prefixes.prefix_id p) id.
Definition into_storage_key (vertex : Z) : Z * bytes := (EncodingKeyspaces.id DefaultOptimisedPrefix11, TypeVertex.to_bytes vertex).
Definition id_from_key (key : bytes) : outcome Z := vertex ← TypeVertex.decode key; Val (TypeVertex.type_id_ vertex).
Definition ids_exhausted_error (p : Prefix) : exec TypeEncodingError Z :=
  match p with
  | VertexEntityType => Err (TypeIDsExhausted KEntity)
  | VertexRelationType => Err (TypeIDsExhausted KRelation)
  | VertexAttributeType => Err (TypeIDsExhausted KAttribute)
  | VertexRoleType => Err (TypeIDsExhausted KRole)
  | _ => Panic
  end.
Definition range (p : Prefix) (start : Z) : KeyRange bytes :=
  mk_KeyRange (Inclusive (TypeVertex.to_bytes (object_from_id p start)))
    (EndPrefixInclusive (TypeVertex.to_bytes (object_from_id p MAX_ID))) true.
(** The loop [for expected_next_id in start..=MAX_ID], [n] ids before its end. *)
Fixpoint find_gap (n fuel : nat) (expected_next_id : Z) (it : SnapshotRangeIterator Snap.source)
  : exec TypeEncodingError (option Z) :=
  match n with
  | O => Val None
  | S n =>
      '(x, it) ← lift (SnapIter.next (H:=mvcc_source fuel) fuel it);
      match x with
      | None => Val (Some expected_next_id)
      | Some (inr e) => Err (SchemaIDAllocate e)
      | Some (inl (key, _)) =>
          actual_id ← lift (id_from_key key.2);
          if actual_id =? expected_next_id then find_gap n fuel (expected_next_id + 1) it
          else Val (Some expected_next_id)
      end
  end.
Definition find_unallocated_id (fuel : nat) (p : Prefix) (start : Z) (s : WriteSnapshot)
  : exec TypeEncodingError (option Z) :=
  it ← lift (Snap.iterate_range (EncodingKeyspaces.id DefaultOptimisedPrefix11) (range p start) s);
  find_gap (Z.to_nat (MAX_ID + 1 - start)) fuel start it.
(** [allocate]: the id and the new value of [last_allocated_type_id]. *)
Definition allocate (fuel : nat) (p : Prefix) (last_allocated_type_id : Z) (s : WriteSnapshot)
  : exec TypeEncodingError (Z * Z) :=
  found ← find_unallocated_id fuel p last_allocated_type_id s;
  match found with
  | Some allocated_id => Val (object_from_id p allocated_id, allocated_id)
  | None =>
      found ← find_unallocated_id fuel p 0 s;
      match found with
      | None => vertex ← ids_exhausted_error p; Val (vertex, last_allocated_type_id)
      | Some allocated_id => Val (object_from_id p allocated_id, allocated_id)
      end
  end.
End SchemaIDAllocator.

(** The generator has an allocator for each kind. *)
Record TypeVertexGenerator := mk_TypeVertexGenerator {
  next_entity : Z; next_relation : Z; next_role : Z; next_attribute : Z }.
Module TypeGenerator.
Definition new : TypeVertexGenerator := mk_TypeVertexGenerator 0 0 0 0.
Definition reset (_ : TypeVertexGenerator) : TypeVertexGenerator := mk_TypeVertexGenerator 0 0 0 0.
Definition create (fuel : nat) (p : Prefix) (last : Z) (s : WriteSnapshot) : exec TypeEncodingError (Z * Z * WriteSnapshot) :=
  '(vertex, last) ← SchemaIDAllocator.allocate fuel p last s;
  s ← lift (Snap.put_val (SchemaIDAllocator.into_storage_key vertex) [] s);
  Val (vertex, last, s).
Definition create_entity_type (fuel : nat) (s : WriteSnapshot) (g : TypeVertexGenerator) :=
  '(vertex, last, s) ← create fuel VertexEntityType (next_entity g) s;
  Val (vertex, s, mk_TypeVertexGenerator last (next_relation g) (next_role g) (next_attribute g)).
Definition create_relation_type (fuel : nat) (s : WriteSnapshot) (g : TypeVertexGenerator) :=
  '(vertex, last, s) ← create fuel VertexRelationType (next_relation g) s;
  Val (vertex, s, mk_TypeVertexGenerator (next_entity g) last (next_role g) (next_attribute g)).
Definition create_role_type (fuel : nat) (s : WriteSnapshot) (g : TypeVertexGenerator) :=
  '(vertex, last, s) ← create fuel VertexRoleType (next_role g) s;
  Val (vertex, s, mk_TypeVertexGenerator (next_entity g) (next_relation g) last (next_attribute g)).
Definition create_attribute_type (fuel : nat) (s : WriteSnapshot) (g : TypeVertexGenerator) :=
  '(vertex, last, s) ← create fuel VertexAttributeType (next_attribute g) s;
  Val (vertex, s, mk_TypeVertexGenerator (next_entity g) (next_relation g) (next_role g) last).
End TypeGenerator.

(** ** Bytes of vertices and edges *)
Definition is_vertex (v : Z) : Prop := ∃ p id, is_u16 id ∧ v = TypeVertex.new (Prefixes.prefix_id p) id.
(** The values of a type of types. *)
Definition in_type (T : TypeAPI) (v : Z) : Prop := is_vertex v ∧ from_vertex T v = Val v.
Lemma length_vertex v : length (TypeVertex.to_bytes v) = 3%nat.
Proof. unfold TypeVertex.to_bytes. by rewrite length_drop, length_be_bytes. Qed.
Lemma vertex_is_bytes v : is_bytes (TypeVertex.to_bytes v).
Proof. apply Forall_drop, be_bytes_is_bytes. Qed.
Lemma vertex_bound v : is_vertex v → 0 ≤ v < 2 ^ 24.
Proof.
  intros (p & id & Hid & ->). pose proof (prefix_id_byte p) as Hp. unfold TypeVertex.new, is_byte, is_u16 in *.
  rewrite Z.shiftl_mul_pow2 by lia. lia.
Qed.
Lemma vertex_decodes v : is_vertex v → TypeVertex.decode (TypeVertex.to_bytes v) = Val v.
Proof.
  intros Hv%vertex_bound. unfold TypeVertex.decode. rewrite length_vertex. cbn [Nat.eqb TypeVertex.LENGTH TypeID.LENGTH]. f_equal.
  unfold TypeVertex.to_bytes. transitivity (be_value (be_bytes 4 v)).
  - cbn [be_bytes drop]. f_equal. f_equal. rewrite Z.div_small; [done|]. change (256 ^ Z.of_nat 3) with (2 ^ 24). lia.
  - rewrite be_value_be_bytes. apply Z.mod_small. change (256 ^ Z.of_nat 4) with (2 ^ 32). lia.
Qed.
Lemma vertex_inj v w : is_vertex v → is_vertex w → TypeVertex.to_bytes v = TypeVertex.to_bytes w → v = w.
Proof. intros Hv%vertex_decodes Hw%vertex_decodes He. congruence. Qed.
Lemma type_edge_decodes e : is_vertex (te_from e) → is_vertex (te_to e) → TypeEdges.decode (TypeEdges.to_bytes e) = Val e.
Proof.
  intros Hf Ht. destruct e as [p f t]. cbn [te_from te_to] in *. unfold TypeEdges.decode, TypeEdges.to_bytes. cbn [te_prefix te_from te_to].
  change ((Prefixes.prefix_id p :: TypeVertex.to_bytes f ++ TypeVertex.to_bytes t) !! 0%nat) with (Some (Prefixes.prefix_id p)).
  cbn [unwrap mbind exec_bind]. rewrite prefix_round_trip. cbn [mbind exec_bind].
  pose proof (slice_middle [Prefixes.prefix_id p] (TypeVertex.to_bytes f) (TypeVertex.to_bytes t)) as H1.
  pose proof (slice_middle (Prefixes.prefix_id p :: TypeVertex.to_bytes f) (TypeVertex.to_bytes t) []) as H2.
  cbn [length] in H1, H2. rewrite length_vertex in H1. rewrite !(length_vertex t), (length_vertex f), app_nil_r in H2.
  cbn [app] in H1, H2. change (1 + TypeVertex.LENGTH)%nat with (1 + 3)%nat. rewrite H1. cbn [mbind exec_bind].
  rewrite vertex_decodes by done. cbn [mbind exec_bind]. change (1 + 3 + TypeVertex.LENGTH)%nat with (4 + 3)%nat.
  change (1 + 3)%nat with 4%nat. rewrite H2 by done. cbn [mbind exec_bind]. by rewrite vertex_decodes.
Qed.
(** An edge whose vertices have the types of its kind. *)
Definition edge_typed (E : TypeEdgeEncoding) (e : edge) : Prop := in_type (From E) e.1 ∧ in_type (To E) e.2.
Abbreviation canonical_key E e := (TypeEdges.into_storage_key (EdgeEncoding.to_canonical_type_edge E e)).
Abbreviation reverse_key E e := (TypeEdges.into_storage_key (EdgeEncoding.to_reverse_type_edge E e)).
Lemma new_typed T v : in_type T v → new T v = Val v.
Proof. intros [_ Hv]. unfold new. by rewrite Hv. Qed.
Lemma canonical_decodes E e : edge_typed E e → EdgeEncoding.decode_canonical_edge E (canonical_key E e).2 = Val e.
Proof.
  intros [Hf Ht]. unfold EdgeEncoding.decode_canonical_edge. cbn [TypeEdges.into_storage_key snd].
  rewrite type_edge_decodes by (apply Hf || apply Ht). cbn. rewrite !new_typed by done. by destruct e.
Qed.
Lemma reverse_decodes E e : edge_typed E e → EdgeEncoding.decode_reverse_edge E (reverse_key E e).2 = Val e.
Proof.
  intros [Hf Ht]. unfold EdgeEncoding.decode_reverse_edge. cbn [TypeEdges.into_storage_key snd].
  rewrite type_edge_decodes by (apply Hf || apply Ht). cbn. rewrite !new_typed by done. by destruct e.
Qed.
(** A prefix that holds a vertex selects the edges that start from it. *)
Lemma edge_has_prefix p v e :
  is_vertex v → is_vertex (te_from e) →
  (TypeEdges.build_prefix_from p v).2 `prefix_of` TypeEdges.to_bytes e ↔ te_prefix e = p ∧ te_from e = v.
Proof.
  intros Hv Hf. destruct e as [q f t]. unfold TypeEdges.build_prefix_from, TypeEdges.to_bytes. cbn [snd te_prefix te_from te_to] in *. split.
  - intros [u Hu]. pose proof (f_equal head Hu) as Hq. apply (inj Some), prefix_id_inj in Hq. split; [done|].
    symmetry. apply vertex_inj; [done..|]. apply (f_equal (λ l, take 3 (tail l))) in Hu. cbn [tail app] in Hu.
    rewrite !take_app_length' in Hu by (by rewrite length_vertex). by symmetry in Hu.
  - intros [-> ->]. by eexists.
Qed.
