(* ===== verification/Statistics.v ===== *)
(** * Thing statistics: [concept/thing/statistics.rs]

    Counts of the stored things and edges, per type and per combination of
    types, that the query planner reads.  They are brought up to date from the
    commit records of the log: each write of a commit is turned into a change of
    [-1], [0] or [1], by what the transactions committed concurrently with it
    wrote, and added to the counts that the written key belongs to. *)
From stdpp Require Import gmap countable.
From S2P Require Import Prelude BTree Bytes MemoryStore Buffer LendingIter Mvcc Keyspaces Snapshot Dependency Timeline Isolation Storage Recovery Layout Values Structs Attributes Things Edges ThingManager Pattern TypeEdges.
#[local] Open Scope Z_scope.

(** ** Types of objects *)
(** The enumeration [ObjectType] of [concept/type_/object_type.rs]. *)
Inductive ObjType := ObjEntity (type_ : Z) | ObjRelation (type_ : Z).
#[global] Instance ObjType_eq_dec : EqDecision ObjType.
Proof. solve_decision. Defined.
#[global] Instance ObjType_countable : Countable ObjType.
Proof.
  refine (inj_countable' (λ t, match t with ObjEntity x => inl x | ObjRelation x => inr x end)
            (λ x, match x with inl x => ObjEntity x | inr x => ObjRelation x end) _). by intros [].
Defined.

(** [PrefixedTypeVertexEncoding]. *)
Definition build_from_type_id (T : TypeAPI) (PREFIX : Prefix) (type_id : Z) : outcome Z :=
  unwrap_ok (from_vertex T (TypeVertex.new (Prefixes.prefix_id PREFIX) type_id)).
Definition is_decodable_from (PREFIX : Prefix) (bs : bytes) : outcome bool :=
  if (length bs =? TypeVertex.LENGTH)%nat then
    vertex ← TypeVertex.decode bs; p ← TypeVertex.prefix vertex; Val (bool_decide (p = PREFIX))
  else Val false.
Definition is_decodable_from_key (PREFIX : Prefix) (keyspace_id : Z) (bs : bytes) : outcome bool :=
  if keyspace_id =? EncodingKeyspaces.id DefaultOptimisedPrefix11 then is_decodable_from PREFIX bs else Val false.
(** [TypeAPI::read_from]. *)
Definition read_from (T : TypeAPI) (bs : bytes) : outcome Z := unwrap_ok (from_bytes T bs).

(** The types of things: [Entity::type_], [Relation::type_], [Attribute::type_], [Object::type_]. *)
Definition entity_type (v : ObjectVertex) : outcome Z := build_from_type_id EntityType VertexEntityType (ov_type_id v).
Definition relation_type (v : ObjectVertex) : outcome Z := build_from_type_id RelationType VertexRelationType (ov_type_id v).
Definition attribute_type (v : AttributeVertex) : outcome Z :=
  build_from_type_id AttributeType VertexAttributeType (av_type_id v).
Definition role_type (role_id : Z) : outcome Z := build_from_type_id RoleType VertexRoleType role_id.
Definition object_type (v : ObjectVertex) : outcome ObjType :=
  match ov_prefix v with
  | VertexEntity => ObjEntity <$> entity_type v
  | VertexRelation => ObjRelation <$> relation_type v
  | _ => Panic
  end.

(** ** The counts *)
Record Statistics := mk_Statistics {
  encoding_version : Z;
  sequence_number : Z;
  last_durable_write_sequence_number : Z;
  last_durable_write_total_count : Z;
  total_count : Z;
  total_thing_count : Z;
  total_entity_count : Z;
  total_relation_count : Z;
  total_attribute_count : Z;
  total_role_count : Z;
  total_has_count : Z;
  entity_counts : gmap Z Z;
  relation_counts : gmap Z Z;
  attribute_counts : gmap Z Z;
  role_counts : gmap Z Z;
  has_attribute_counts : gmap ObjType (gmap Z Z);
  attribute_owner_counts : gmap Z (gmap ObjType Z);
  role_player_counts : gmap ObjType (gmap Z Z);
  relation_role_counts : gmap Z (gmap Z Z);
  relation_role_player_counts : gmap Z (gmap Z (gmap ObjType Z));
  player_role_relation_counts : gmap ObjType (gmap Z (gmap Z Z));
  links_index_counts : gmap ObjType (gmap ObjType Z);
}.
(** Assignments to a field. *)
Definition set_sequence_number (v : Z) (s : Statistics) : Statistics :=
  mk_Statistics (encoding_version s) v (last_durable_write_sequence_number s) (last_durable_write_total_count s)
    (total_count s) (total_thing_count s) (total_entity_count s) (total_relation_count s) (total_attribute_count
    s) (total_role_count s) (total_has_count s) (entity_counts s) (relation_counts s) (attribute_counts s)
    (role_counts s) (has_attribute_counts s) (attribute_owner_counts s) (role_player_counts s)
    (relation_role_counts s) (relation_role_player_counts s) (player_role_relation_counts s) (links_index_counts
    s).
Definition set_last_durable_write_sequence_number (v : Z) (s : Statistics) : Statistics :=
  mk_Statistics (encoding_version s) (sequence_number s) v (last_durable_write_total_count s) (total_count s)
    (total_thing_count s) (total_entity_count s) (total_relation_count s) (total_attribute_count s)
    (total_role_count s) (total_has_count s) (entity_counts s) (relation_counts s) (attribute_counts s)
    (role_counts s) (has_attribute_counts s) (attribute_owner_counts s) (role_player_counts s)
    (relation_role_counts s) (relation_role_player_counts s) (player_role_relation_counts s) (links_index_counts
    s).
Definition set_last_durable_write_total_count (v : Z) (s : Statistics) : Statistics :=
  mk_Statistics (encoding_version s) (sequence_number s) (last_durable_write_sequence_number s) v (total_count
    s) (total_thing_count s) (total_entity_count s) (total_relation_count s) (total_attribute_count s)
    (total_role_count s) (total_has_count s) (entity_counts s) (relation_counts s) (attribute_counts s)
    (role_counts s) (has_attribute_counts s) (attribute_owner_counts s) (role_player_counts s)
    (relation_role_counts s) (relation_role_player_counts s) (player_role_relation_counts s) (links_index_counts
    s).
Definition set_total_count (v : Z) (s : Statistics) : Statistics :=
  mk_Statistics (encoding_version s) (sequence_number s) (last_durable_write_sequence_number s)
    (last_durable_write_total_count s) v (total_thing_count s) (total_entity_count s) (total_relation_count s)
    (total_attribute_count s) (total_role_count s) (total_has_count s) (entity_counts s) (relation_counts s)
    (attribute_counts s) (role_counts s) (has_attribute_counts s) (attribute_owner_counts s) (role_player_counts
    s) (relation_role_counts s) (relation_role_player_counts s) (player_role_relation_counts s)
    (links_index_counts s).
Definition set_total_thing_count (v : Z) (s : Statistics) : Statistics :=
  mk_Statistics (encoding_version s) (sequence_number s) (last_durable_write_sequence_number s)
    (last_durable_write_total_count s) (total_count s) v (total_entity_count s) (total_relation_count s)
    (total_attribute_count s) (total_role_count s) (total_has_count s) (entity_counts s) (relation_counts s)
    (attribute_counts s) (role_counts s) (has_attribute_counts s) (attribute_owner_counts s) (role_player_counts
    s) (relation_role_counts s) (relation_role_player_counts s) (player_role_relation_counts s)
    (links_index_counts s).
Definition set_total_entity_count (v : Z) (s : Statistics) : Statistics :=
  mk_Statistics (encoding_version s) (sequence_number s) (last_durable_write_sequence_number s)
    (last_durable_write_total_count s) (total_count s) (total_thing_count s) v (total_relation_count s)
    (total_attribute_count s) (total_role_count s) (total_has_count s) (entity_counts s) (relation_counts s)
    (attribute_counts s) (role_counts s) (has_attribute_counts s) (attribute_owner_counts s) (role_player_counts
    s) (relation_role_counts s) (relation_role_player_counts s) (player_role_relation_counts s)
    (links_index_counts s).
Definition set_total_relation_count (v : Z) (s : Statistics) : Statistics :=
  mk_Statistics (encoding_version s) (sequence_number s) (last_durable_write_sequence_number s)
    (last_durable_write_total_count s) (total_count s) (total_thing_count s) (total_entity_count s) v
    (total_attribute_count s) (total_role_count s) (total_has_count s) (entity_counts s) (relation_counts s)
    (attribute_counts s) (role_counts s) (has_attribute_counts s) (attribute_owner_counts s) (role_player_counts
    s) (relation_role_counts s) (relation_role_player_counts s) (player_role_relation_counts s)
    (links_index_counts s).
Definition set_total_attribute_count (v : Z) (s : Statistics) : Statistics :=
  mk_Statistics (encoding_version s) (sequence_number s) (last_durable_write_sequence_number s)
    (last_durable_write_total_count s) (total_count s) (total_thing_count s) (total_entity_count s)
    (total_relation_count s) v (total_role_count s) (total_has_count s) (entity_counts s) (relation_counts s)
    (attribute_counts s) (role_counts s) (has_attribute_counts s) (attribute_owner_counts s) (role_player_counts
    s) (relation_role_counts s) (relation_role_player_counts s) (player_role_relation_counts s)
    (links_index_counts s).
Definition set_total_role_count (v : Z) (s : Statistics) : Statistics :=
  mk_Statistics (encoding_version s) (sequence_number s) (last_durable_write_sequence_number s)
    (last_durable_write_total_count s) (total_count s) (total_thing_count s) (total_entity_count s)
    (total_relation_count s) (total_attribute_count s) v (total_has_count s) (entity_counts s) (relation_counts
    s) (attribute_counts s) (role_counts s) (has_attribute_counts s) (attribute_owner_counts s)
    (role_player_counts s) (relation_role_counts s) (relation_role_player_counts s) (player_role_relation_counts
    s) (links_index_counts s).
Definition set_total_has_count (v : Z) (s : Statistics) : Statistics :=
  mk_Statistics (encoding_version s) (sequence_number s) (last_durable_write_sequence_number s)
    (last_durable_write_total_count s) (total_count s) (total_thing_count s) (total_entity_count s)
    (total_relation_count s) (total_attribute_count s) (total_role_count s) v (entity_counts s) (relation_counts
    s) (attribute_counts s) (role_counts s) (has_attribute_counts s) (attribute_owner_counts s)
    (role_player_counts s) (relation_role_counts s) (relation_role_player_counts s) (player_role_relation_counts
    s) (links_index_counts s).
Definition set_entity_counts (v : gmap Z Z) (s : Statistics) : Statistics :=
  mk_Statistics (encoding_version s) (sequence_number s) (last_durable_write_sequence_number s)
    (last_durable_write_total_count s) (total_count s) (total_thing_count s) (total_entity_count s)
    (total_relation_count s) (total_attribute_count s) (total_role_count s) (total_has_count s) v
    (relation_counts s) (attribute_counts s) (role_counts s) (has_attribute_counts s) (attribute_owner_counts s)
    (role_player_counts s) (relation_role_counts s) (relation_role_player_counts s) (player_role_relation_counts
    s) (links_index_counts s).
Definition set_relation_counts (v : gmap Z Z) (s : Statistics) : Statistics :=
  mk_Statistics (encoding_version s) (sequence_number s) (last_durable_write_sequence_number s)
    (last_durable_write_total_count s) (total_count s) (total_thing_count s) (total_entity_count s)
    (total_relation_count s) (total_attribute_count s) (total_role_count s) (total_has_count s) (entity_counts
    s) v (attribute_counts s) (role_counts s) (has_attribute_counts s) (attribute_owner_counts s)
    (role_player_counts s) (relation_role_counts s) (relation_role_player_counts s) (player_role_relation_counts
    s) (links_index_counts s).
Definition set_attribute_counts (v : gmap Z Z) (s : Statistics) : Statistics :=
  mk_Statistics (encoding_version s) (sequence_number s) (last_durable_write_sequence_number s)
    (last_durable_write_total_count s) (total_count s) (total_thing_count s) (total_entity_count s)
    (total_relation_count s) (total_attribute_count s) (total_role_count s) (total_has_count s) (entity_counts
    s) (relation_counts s) v (role_counts s) (has_attribute_counts s) (attribute_owner_counts s)
    (role_player_counts s) (relation_role_counts s) (relation_role_player_counts s) (player_role_relation_counts
    s) (links_index_counts s).
Definition set_role_counts (v : gmap Z Z) (s : Statistics) : Statistics :=
  mk_Statistics (encoding_version s) (sequence_number s) (last_durable_write_sequence_number s)
    (last_durable_write_total_count s) (total_count s) (total_thing_count s) (total_entity_count s)
    (total_relation_count s) (total_attribute_count s) (total_role_count s) (total_has_count s) (entity_counts
    s) (relation_counts s) (attribute_counts s) v (has_attribute_counts s) (attribute_owner_counts s)
    (role_player_counts s) (relation_role_counts s) (relation_role_player_counts s) (player_role_relation_counts
    s) (links_index_counts s).
Definition set_has_attribute_counts (v : gmap ObjType (gmap Z Z)) (s : Statistics) : Statistics :=
  mk_Statistics (encoding_version s) (sequence_number s) (last_durable_write_sequence_number s)
    (last_durable_write_total_count s) (total_count s) (total_thing_count s) (total_entity_count s)
    (total_relation_count s) (total_attribute_count s) (total_role_count s) (total_has_count s) (entity_counts
    s) (relation_counts s) (attribute_counts s) (role_counts s) v (attribute_owner_counts s) (role_player_counts
    s) (relation_role_counts s) (relation_role_player_counts s) (player_role_relation_counts s)
    (links_index_counts s).
Definition set_attribute_owner_counts (v : gmap Z (gmap ObjType Z)) (s : Statistics) : Statistics :=
  mk_Statistics (encoding_version s) (sequence_number s) (last_durable_write_sequence_number s)
    (last_durable_write_total_count s) (total_count s) (total_thing_count s) (total_entity_count s)
    (total_relation_count s) (total_attribute_count s) (total_role_count s) (total_has_count s) (entity_counts
    s) (relation_counts s) (attribute_counts s) (role_counts s) (has_attribute_counts s) v (role_player_counts
    s) (relation_role_counts s) (relation_role_player_counts s) (player_role_relation_counts s)
    (links_index_counts s).
Definition set_role_player_counts (v : gmap ObjType (gmap Z Z)) (s : Statistics) : Statistics :=
  mk_Statistics (encoding_version s) (sequence_number s) (last_durable_write_sequence_number s)
    (last_durable_write_total_count s) (total_count s) (total_thing_count s) (total_entity_count s)
    (total_relation_count s) (total_attribute_count s) (total_role_count s) (total_has_count s) (entity_counts
    s) (relation_counts s) (attribute_counts s) (role_counts s) (has_attribute_counts s) (attribute_owner_counts
    s) v (relation_role_counts s) (relation_role_player_counts s) (player_role_relation_counts s)
    (links_index_counts s).
Definition set_relation_role_counts (v : gmap Z (gmap Z Z)) (s : Statistics) : Statistics :=
  mk_Statistics (encoding_version s) (sequence_number s) (last_durable_write_sequence_number s)
    (last_durable_write_total_count s) (total_count s) (total_thing_count s) (total_entity_count s)
    (total_relation_count s) (total_attribute_count s) (total_role_count s) (total_has_count s) (entity_counts
    s) (relation_counts s) (attribute_counts s) (role_counts s) (has_attribute_counts s) (attribute_owner_counts
    s) (role_player_counts s) v (relation_role_player_counts s) (player_role_relation_counts s)
    (links_index_counts s).
Definition set_relation_role_player_counts (v : gmap Z (gmap Z (gmap ObjType Z))) (s : Statistics) : Statistics :=
  mk_Statistics (encoding_version s) (sequence_number s) (last_durable_write_sequence_number s)
    (last_durable_write_total_count s) (total_count s) (total_thing_count s) (total_entity_count s)
    (total_relation_count s) (total_attribute_count s) (total_role_count s) (total_has_count s) (entity_counts
    s) (relation_counts s) (attribute_counts s) (role_counts s) (has_attribute_counts s) (attribute_owner_counts
    s) (role_player_counts s) (relation_role_counts s) v (player_role_relation_counts s) (links_index_counts s).
Definition set_player_role_relation_counts (v : gmap ObjType (gmap Z (gmap Z Z))) (s : Statistics) : Statistics :=
  mk_Statistics (encoding_version s) (sequence_number s) (last_durable_write_sequence_number s)
    (last_durable_write_total_count s) (total_count s) (total_thing_count s) (total_entity_count s)
    (total_relation_count s) (total_attribute_count s) (total_role_count s) (total_has_count s) (entity_counts
    s) (relation_counts s) (attribute_counts s) (role_counts s) (has_attribute_counts s) (attribute_owner_counts
    s) (role_player_counts s) (relation_role_counts s) (relation_role_player_counts s) v (links_index_counts s).
Definition set_links_index_counts (v : gmap ObjType (gmap ObjType Z)) (s : Statistics) : Statistics :=
  mk_Statistics (encoding_version s) (sequence_number s) (last_durable_write_sequence_number s)
    (last_durable_write_total_count s) (total_count s) (total_thing_count s) (total_entity_count s)
    (total_relation_count s) (total_attribute_count s) (total_role_count s) (total_has_count s) (entity_counts
    s) (relation_counts s) (attribute_counts s) (role_counts s) (has_attribute_counts s) (attribute_owner_counts
    s) (role_player_counts s) (relation_role_counts s) (relation_role_player_counts s)
    (player_role_relation_counts s) v.

(** ** Counting *)
(** [u64::checked_add_signed]. *)
Definition checked_add_signed (count delta : Z) : option Z :=
  if (0 <=? count + delta) && (count + delta <? 2 ^ 64) then Some (count + delta) else None.
Definition add_signed (count delta : Z) : outcome Z := unwrap (checked_add_signed count delta).

(** [map.entry(key).or_default()], added to, in maps nested once, twice and
    three times. *)
Definition add_to {K} `{Countable K} (k : K) (delta : Z) (m : gmap K Z) : outcome (gmap K Z) :=
  count ← add_signed (default 0 (m !! k)) delta; Val (<[k := count]> m).
Definition add_to2 {K L} `{Countable K, Countable L} (k : K) (l : L) (delta : Z) (m : gmap K (gmap L Z))
  : outcome (gmap K (gmap L Z)) :=
  inner ← add_to l delta (default ∅ (m !! k)); Val (<[k := inner]> m).
Definition add_to3 {K L M} `{Countable K, Countable L, Countable M} (k : K) (l : L) (n : M) (delta : Z)
    (m : gmap K (gmap L (gmap M Z))) : outcome (gmap K (gmap L (gmap M Z))) :=
  inner ← add_to2 l n delta (default ∅ (m !! k)); Val (<[k := inner]> m).

(** [for map in m.values_mut() { map.remove(l) }] and [m.retain(|_, map| !map.is_empty())]. *)
Definition remove_inner {K L} `{Countable K, Countable L} (l : L) (m : gmap K (gmap L Z)) : gmap K (gmap L Z) :=
  filter (λ kv : K * gmap L Z, kv.2 ≠ ∅) (delete l <$> m).

Record CommittedWrites := mk_CommittedWrites { cw_open_sequence_number : Z; cw_operations : OperationsBuffer }.

(** ** [Statistics] *)
Module Stats.
Definition ENCODING_VERSION : Z := 0.
Definition COMMIT_CONTEXT_SIZE : Z := 8.
Definition DURABLE_WRITE_CHANGE_COUNT : Z := 10000.
Definition DURABLE_WRITE_SEQ_NUMBERS : Z := 1000.

Definition new (sequence_number : Z) : Statistics :=
  mk_Statistics ENCODING_VERSION sequence_number sequence_number 0 0 0 0 0 0 0 0 ∅ ∅ ∅ ∅ ∅ ∅ ∅ ∅ ∅ ∅ ∅.

Definition update_entities (entity_type delta : Z) (s : Statistics) : outcome Statistics :=
  counts ← add_to entity_type delta (entity_counts s);
  let s := set_entity_counts counts s in
  total ← add_signed (total_entity_count s) delta;
  let s := set_total_entity_count total s in
  total ← add_signed (total_thing_count s) delta;
  Val (set_total_thing_count total s).
Definition update_relations (relation_type delta : Z) (s : Statistics) : outcome Statistics :=
  counts ← add_to relation_type delta (relation_counts s);
  let s := set_relation_counts counts s in
  total ← add_signed (total_relation_count s) delta;
  let s := set_total_relation_count total s in
  total ← add_signed (total_thing_count s) delta;
  Val (set_total_thing_count total s).
Definition update_attributes (attribute_type delta : Z) (s : Statistics) : outcome Statistics :=
  counts ← add_to attribute_type delta (attribute_counts s);
  let s := set_attribute_counts counts s in
  total ← add_signed (total_attribute_count s) delta;
  let s := set_total_attribute_count total s in
  total ← add_signed (total_thing_count s) delta;
  Val (set_total_thing_count total s).
Definition update_has (owner_type : ObjType) (attribute_type delta : Z) (s : Statistics) : outcome Statistics :=
  counts ← add_to2 owner_type attribute_type delta (has_attribute_counts s);
  let s := set_has_attribute_counts counts s in
  counts ← add_to2 attribute_type owner_type delta (attribute_owner_counts s);
  let s := set_attribute_owner_counts counts s in
  total ← add_signed (total_has_count s) delta;
  Val (set_total_has_count total s).
Definition update_role_player (player_type : ObjType) (role_type relation_type delta : Z) (s : Statistics)
  : outcome Statistics :=
  counts ← add_to role_type delta (role_counts s);
  let s := set_role_counts counts s in
  total ← add_signed (total_role_count s) delta;
  let s := set_total_role_count total s in
  counts ← add_to2 player_type role_type delta (role_player_counts s);
  let s := set_role_player_counts counts s in
  counts ← add_to2 relation_type role_type delta (relation_role_counts s);
  let s := set_relation_role_counts counts s in
  counts ← add_to3 relation_type role_type player_type delta (relation_role_player_counts s);
  let s := set_relation_role_player_counts counts s in
  counts ← add_to3 player_type role_type relation_type delta (player_role_relation_counts s);
  Val (set_player_role_relation_counts counts s).
Definition update_indexed_player (player_1_type player_2_type : ObjType) (delta : Z) (s : Statistics)
  : outcome Statistics :=
  counts ← add_to2 player_1_type player_2_type delta (links_index_counts s);
  let s := set_links_index_counts counts s in
  if decide (player_1_type = player_2_type) then Val s
  else
    counts ← add_to2 player_2_type player_1_type delta (links_index_counts s);
    Val (set_links_index_counts counts s).

Definition clear_object_type (t : ObjType) (s : Statistics) : Statistics :=
  let s := set_has_attribute_counts (delete t (has_attribute_counts s)) s in
  let s := set_attribute_owner_counts (remove_inner t (attribute_owner_counts s)) s in
  let s := set_role_player_counts (delete t (role_player_counts s)) s in
  set_links_index_counts (remove_inner t (delete t (links_index_counts s))) s.
(** The branches of [update_write] for a deleted type. *)
Definition clear_entity_type (t : Z) (s : Statistics) : Statistics :=
  clear_object_type (ObjEntity t) (set_entity_counts (delete t (entity_counts s)) s).
Definition clear_relation_type (t : Z) (s : Statistics) : Statistics :=
  let s := set_relation_counts (delete t (relation_counts s)) s in
  let s := set_relation_role_counts (delete t (relation_role_counts s)) s in
  clear_object_type (ObjRelation t) s.
Definition clear_attribute_type (t : Z) (s : Statistics) : Statistics :=
  let s := set_attribute_counts (delete t (attribute_counts s)) s in
  let s := set_attribute_owner_counts (delete t (attribute_owner_counts s)) s in
  set_has_attribute_counts (remove_inner t (has_attribute_counts s)) s.
Definition clear_role_type (t : Z) (s : Statistics) : Statistics :=
  let s := set_role_counts (delete t (role_counts s)) s in
  let s := set_role_player_counts (remove_inner t (role_player_counts s)) s in
  set_relation_role_counts (remove_inner t (relation_role_counts s)) s.

(** The body of the loop of [update_write] on one write, with [total_delta]. *)
Definition update_key (keyspace_id : Z) (key : bytes) (write : Write) (delta : Z) (s : Statistics) (total_delta : Z)
  : outcome (Statistics * Z) :=
  if ObjVertex.is_entity_vertex keyspace_id key then
    vertex ← ObjVertex.decode key; type_ ← entity_type vertex;
    s ← update_entities type_ delta s; Val (s, i64 (total_delta + delta))
  else if ObjVertex.is_relation_vertex keyspace_id key then
    vertex ← ObjVertex.decode key; type_ ← relation_type vertex;
    s ← update_relations type_ delta s; Val (s, i64 (total_delta + delta))
  else if AttrVertex.is_attribute_vertex keyspace_id key then
    vertex ← AttrVertex.decode key; type_ ← attribute_type vertex;
    s ← update_attributes type_ delta s; Val (s, total_delta)
  else if EdgeHas.is_has keyspace_id key then
    edge ← EdgeHas.decode key;
    owner_type ← object_type (h_owner edge); attribute_type ← attribute_type (h_attribute edge);
    s ← update_has owner_type attribute_type delta s; Val (s, i64 (total_delta + delta))
  else if EdgeLinks.is_links keyspace_id key then
    edge ← EdgeLinks.decode key;
    role_type ← role_type (l_role_id edge);
    player_type ← object_type (EdgeLinks.to edge); relation_type ← relation_type (EdgeLinks.from edge);
    s ← update_role_player player_type role_type relation_type delta s; Val (s, i64 (total_delta + delta))
  else if EdgeIndex.is_index keyspace_id key then
    edge ← EdgeIndex.decode key;
    from_type ← object_type (ix_player_from edge); to_type ← object_type (ix_player_to edge);
    s ← update_indexed_player from_type to_type delta s; Val (s, total_delta)
  else
    is_entity_type ← is_decodable_from_key VertexEntityType keyspace_id key;
    if is_entity_type : bool then
      type_ ← read_from EntityType key;
      Val (if WriteOps.is_delete write then clear_entity_type type_ s else s, total_delta)
    else
    is_relation_type ← is_decodable_from_key VertexRelationType keyspace_id key;
    if is_relation_type : bool then
      type_ ← read_from RelationType key;
      Val (if WriteOps.is_delete write then clear_relation_type type_ s else s, total_delta)
    else
    is_attribute_type ← is_decodable_from_key VertexAttributeType keyspace_id key;
    if is_attribute_type : bool then
      type_ ← read_from AttributeType key;
      Val (if WriteOps.is_delete write then clear_attribute_type type_ s else s, total_delta)
    else
    is_role_type ← is_decodable_from_key VertexRoleType keyspace_id key;
    if is_role_type : bool then
      type_ ← read_from RoleType key;
      Val (if WriteOps.is_delete write then clear_role_type type_ s else s, total_delta)
    else Val (s, total_delta).

(** ** The change a write makes *)
Section storage.
(** What the synchronisation uses of the storage and its durability client:
    the keyspaces, to read keys, and writing statistics to the log.  The client
    changes also when a write fails. *)
Context {D DErr BErr : Type} `{Durability D DErr} (codec : Codec BErr).
Variable iter_from : D → Z → exec DErr (list (RawRecord + DErr)).
Variable write_statistics : Statistics → D → exec DErr unit * D.

Inductive StatisticsError :=
| DurablyWrite (source : DErr)
| ReloadCommitData (source : StorageRecoveryError DErr BErr)
| DataRead (source : MVCCReadError KeyspaceError).

(** [MVCCStorage::get]. *)
Definition storage_get (storage : Keyspaces) (key : Z * bytes) (open : Z) : exec (MVCCReadError KeyspaceError) (option bytes) :=
  keyspace ← Snap.keyspace key.1 storage; MVCCStorage.get key.1 keyspace key.2 open.
(** The writes of a commit to a key. *)
Definition written_by (key : Z * bytes) (w : CommittedWrites) : outcome (option Write) :=
  b ← OB.writes_in key.1 (cw_operations w); Val (WB.writes_get key.2 b).
(** [.any(..)] and [.find_map(..)] over commits, in the order given. *)
Fixpoint any_deletes (key : Z * bytes) (commits : list (Z * CommittedWrites)) : outcome bool :=
  match commits with
  | [] => Val false
  | (_, w) :: commits =>
      write ← written_by key w;
      match write with Some Delete => Val true | _ => any_deletes key commits end
  end.
Fixpoint find_write (key : Z * bytes) (commits : list (Z * CommittedWrites)) : outcome (option Write) :=
  match commits with
  | [] => Val None
  | (_, w) :: commits =>
      write ← written_by key w;
      match write with Some write => Val (Some write) | None => find_write key commits end
  end.

Definition write_to_delta (write_key : Z * bytes) (write : Write) (open commit : Z)
    (commits : list (Z * CommittedWrites)) (storage : Keyspaces) : exec (MVCCReadError KeyspaceError) Z :=
  match write with
  | Insert _ => Val 1
  | Delete =>
      concurrent ← bt_range (Excluded open) (Excluded commit) commits;
      deleted ← lift (any_deletes write_key concurrent);
      Val (if deleted : bool then 0 else -1)
  | Put _ reinsert _ =>
      first_commit_sequence_number ← unwrap (fst <$> head commits);
      concurrent ← bt_range (Excluded open) (Excluded commit) commits;
      write ← lift (find_write write_key (reverse concurrent));
      match write with
      | Some (Insert _) | Some (Put _ _ _) => Val 0
      | Some Delete => Val 1
      | None =>
          if SeqNr.next open <? first_commit_sequence_number then
            value ← storage_get storage write_key (SeqNr.previous commit);
            Val (match value with Some _ => 0 | None => 1 end)
          else Val (if reinsert : bool then 1 else 0)
      end
  end.

(** ** Applying commits *)
Fixpoint update_keys (writes : list (Z * bytes * Write)) (open commit : Z) (commits : list (Z * CommittedWrites))
    (storage : Keyspaces) (s : Statistics) (total_delta : Z) : exec (MVCCReadError KeyspaceError) (Statistics * Z) :=
  match writes with
  | [] => Val (s, total_delta)
  | (key, write) :: writes =>
      delta ← write_to_delta key write open commit commits storage;
      '(s, total_delta) ← lift (update_key key.1 key.2 write delta s total_delta);
      update_keys writes open commit commits storage s total_delta
  end.
Definition update_write (commit : Z) (w : CommittedWrites) (commits : list (Z * CommittedWrites))
    (storage : Keyspaces) (s : Statistics) : exec (MVCCReadError KeyspaceError) (Statistics * Z) :=
  writes ← lift (OB.iterate_writes (cw_operations w));
  update_keys writes (cw_open_sequence_number w) commit commits storage s 0.
Fixpoint update_commits (todo commits : list (Z * CommittedWrites)) (storage : Keyspaces) (s : Statistics)
  : exec (MVCCReadError KeyspaceError) Statistics :=
  match todo with
  | [] => Val s
  | (sequence_number, w) :: todo =>
      '(s, delta) ← update_write sequence_number w commits storage s;
      total ← lift (add_signed (total_count s) delta);
      update_commits todo commits storage (set_sequence_number sequence_number (set_total_count total s))
  end.
Definition update_writes (commits : list (Z * CommittedWrites)) (storage : Keyspaces) (s : Statistics)
  : exec (MVCCReadError KeyspaceError) Statistics :=
  todo ← bt_range (Included (SeqNr.next (sequence_number s))) Unbounded commits;
  update_commits todo commits storage s.

(** ** Synchronising *)
Definition durably_write (s : Statistics) (d : D) : exec StatisticsError Statistics * D :=
  match write_statistics s d with
  | (Val _, d) =>
      (Val (set_last_durable_write_total_count (total_count s)
              (set_last_durable_write_sequence_number (sequence_number s) s)), d)
  | (Err e, d) => (Err (DurablyWrite e), d)
  | (Panic, d) => (Panic, d)
  end.

(** The commit of a schema transaction: the data commits before it are applied
    and the statistics written to the log, then it is applied by itself. *)
Definition apply_schema_commit (seq : Z) (writes : CommittedWrites) (data_commits : list (Z * CommittedWrites))
    (storage : Keyspaces) (s : Statistics) (d : D) : exec StatisticsError Statistics * D :=
  let flushed :=
    if SeqNr.next (last_durable_write_sequence_number s) <? seq then
      match map_err DataRead (update_writes data_commits storage s) with
      | Val s => durably_write s d
      | Err e => (Err e, d)
      | Panic => (Panic, d)
      end
    else (Val s, d) in
  match flushed with
  | (Val s, d) => (map_err DataRead (update_writes [(seq, writes)] storage s), d)
  | r => r
  end.

(** The loop over the loaded commits.  [inl] holds the statistics and the data
    commits that are left to apply. *)
Fixpoint sync_loop (loaded : list (Z * RecoveryCommitStatus)) (data_commits : list (Z * CommittedWrites))
    (storage : Keyspaces) (s : Statistics) (d : D)
  : exec StatisticsError (Statistics * list (Z * CommittedWrites)) * D :=
  match loaded with
  | [] | (_, RecoveryPending _) :: _ => (Val (s, data_commits), d)
  | (_, RecoveryRejected) :: loaded => sync_loop loaded data_commits storage s d
  | (seq, RecoveryValidated record) :: loaded =>
      let writes := mk_CommittedWrites (cr_open_sequence_number record) (cr_operations record) in
      match cr_commit_type record with
      | CommitData => sync_loop loaded (bt_insert seq writes data_commits) storage s d
      | CommitSchema =>
          match (if sequence_number s <? seq then apply_schema_commit seq writes data_commits storage s d else (Val s, d)) with
          | (Val s, d) => sync_loop loaded [] storage s d
          | (Err e, d) => (Err e, d)
          | (Panic, d) => (Panic, d)
          end
      end
  end.

Definition load_start (s : Statistics) : Z := Z.max (Z.max (sequence_number s - COMMIT_CONTEXT_SIZE) 0) 1.
Definition needs_durable_write (s : Statistics) : bool :=
  (DURABLE_WRITE_CHANGE_COUNT <? i64 (Z.abs (i64 (i64 (total_count s) - i64 (last_durable_write_total_count s))))) ||
  (DURABLE_WRITE_SEQ_NUMBERS <? u64 (sequence_number s - last_durable_write_sequence_number s)).

(** [may_synchronise] of builds with a log.  Statistics that failed to
    synchronise are dropped by every caller, so an error returns none. *)
Definition may_synchronise (storage : Storage D) (s : Statistics) : exec StatisticsError Statistics * D :=
  let d := st_durability storage in
  if sequence_number s =? Engine.snapshot_watermark storage then (Val s, d)
  else
    match Recovery.load_commit_data_from codec (load_start s) (iter_from d) Recovery.usize_max with
    | Val loaded =>
        match sync_loop loaded [] (st_keyspaces storage) s d with
        | (Val (s, data_commits), d) =>
            match map_err DataRead (update_writes data_commits (st_keyspaces storage) s) with
            | Val s => if needs_durable_write s then durably_write s d else (Val s, d)
            | Err e => (Err e, d)
            | Panic => (Panic, d)
            end
        | (Err e, d) => (Err e, d)
        | (Panic, d) => (Panic, d)
        end
    | Err e => (Err (ReloadCommitData e), d)
    | Panic => (Panic, d)
    end.
(** [may_synchronise] of builds without a log. *)
Definition may_synchronise_memory (storage : Storage D) (s : Statistics) : Statistics :=
  set_sequence_number (Engine.snapshot_watermark storage) s.
End storage.

Definition reset (sequence_number : Z) (s : Statistics) : Statistics :=
  let s := set_sequence_number sequence_number s in
  let s := set_total_count 0 s in
  let s := set_total_thing_count 0 s in
  let s := set_total_entity_count 0 s in
  let s := set_total_relation_count 0 s in
  let s := set_total_attribute_count 0 s in
  let s := set_total_role_count 0 s in
  let s := set_total_has_count 0 s in
  let s := set_entity_counts ∅ s in
  let s := set_relation_counts ∅ s in
  let s := set_attribute_counts ∅ s in
  let s := set_role_counts ∅ s in
  let s := set_has_attribute_counts ∅ s in
  let s := set_attribute_owner_counts ∅ s in
  let s := set_role_player_counts ∅ s in
  let s := set_relation_role_counts ∅ s in
  set_links_index_counts ∅ s.
End Stats.
