(* ===== verification/StatisticsCounts.v ===== *)
(** * What the statistics count

    A cell is one number of the statistics; [cells] says which cells a stored
    key is counted in.  Statistics are exact for a set of stored keys when every
    cell holds the number of keys counted in it ([exact]).  The lemmas show what
    updating for one key does to the cells, and that the tables that hold the
    same counts by different types agree whatever is applied. *)
From stdpp Require Import gmap sets.
From S2P Require Import Prelude BTree Bytes MemoryStore Buffer LendingIter Mvcc Keyspaces Snapshot Dependency Timeline Isolation Storage Recovery Layout Values Structs Attributes Things Edges ThingManager Pattern TypeEdges Statistics.
#[local] Open Scope Z_scope.

(** ** Cells *)
Inductive cell :=
| Total | Things | Entities | Relations | AttributesCell | Roles | HasEdges
| OfEntity (t : Z) | OfRelation (t : Z) | OfAttribute (t : Z) | OfRole (t : Z)
| HasAttribute (o : ObjType) (a : Z) | AttributeOwner (a : Z) (o : ObjType)
| RolePlayer (p : ObjType) (r : Z) | RelationRole (t r : Z)
| RelationRolePlayer (t r : Z) (p : ObjType) | PlayerRoleRelation (p : ObjType) (r t : Z)
| LinksIndex (p q : ObjType).
#[global] Instance cell_eq_dec : EqDecision cell.
Proof. solve_decision. Defined.

Definition at1 {K} `{Countable K} (m : gmap K Z) (k : K) : Z := default 0 (m !! k).
Definition at2 {K L} `{Countable K, Countable L} (m : gmap K (gmap L Z)) (k : K) (l : L) : Z :=
  at1 (default ∅ (m !! k)) l.
Definition at3 {K L M} `{Countable K, Countable L, Countable M} (m : gmap K (gmap L (gmap M Z))) (k : K) (l : L) (n : M) : Z :=
  at2 (default ∅ (m !! k)) l n.

(** The number in a cell, while a commit is applied whose changes to the total
    count so far are [total_delta]. *)
Definition count_of (c : cell) (s : Statistics) (total_delta : Z) : Z :=
  match c with
  | Total => total_count s + total_delta
  | Things => total_thing_count s
  | Entities => total_entity_count s
  | Relations => total_relation_count s
  | AttributesCell => total_attribute_count s
  | Roles => total_role_count s
  | HasEdges => total_has_count s
  | OfEntity t => at1 (entity_counts s) t
  | OfRelation t => at1 (relation_counts s) t
  | OfAttribute t => at1 (attribute_counts s) t
  | OfRole t => at1 (role_counts s) t
  | HasAttribute o a => at2 (has_attribute_counts s) o a
  | AttributeOwner a o => at2 (attribute_owner_counts s) a o
  | RolePlayer p r => at2 (role_player_counts s) p r
  | RelationRole t r => at2 (relation_role_counts s) t r
  | RelationRolePlayer t r p => at3 (relation_role_player_counts s) t r p
  | PlayerRoleRelation p r t => at3 (player_role_relation_counts s) p r t
  | LinksIndex p q => at2 (links_index_counts s) p q
  end.

(** The cells a key is counted in. *)
Definition cells (key : Z * bytes) : outcome (list cell) :=
  let '(ks, bs) := key in
  if ObjVertex.is_entity_vertex ks bs then
    v ← ObjVertex.decode bs; t ← entity_type v; Val [Total; Things; Entities; OfEntity t]
  else if ObjVertex.is_relation_vertex ks bs then
    v ← ObjVertex.decode bs; t ← relation_type v; Val [Total; Things; Relations; OfRelation t]
  else if AttrVertex.is_attribute_vertex ks bs then
    v ← AttrVertex.decode bs; t ← attribute_type v; Val [Things; AttributesCell; OfAttribute t]
  else if EdgeHas.is_has ks bs then
    e ← EdgeHas.decode bs; o ← object_type (h_owner e); a ← attribute_type (h_attribute e);
    Val [Total; HasEdges; HasAttribute o a; AttributeOwner a o]
  else if EdgeLinks.is_links ks bs then
    e ← EdgeLinks.decode bs; r ← role_type (l_role_id e);
    p ← object_type (EdgeLinks.to e); t ← relation_type (EdgeLinks.from e);
    Val [Total; Roles; OfRole r; RolePlayer p r; RelationRole t r; RelationRolePlayer t r p; PlayerRoleRelation p r t]
  else if EdgeIndex.is_index ks bs then
    e ← EdgeIndex.decode bs; p ← object_type (ix_player_from e); q ← object_type (ix_player_to e);
    Val [LinksIndex p q; LinksIndex q p]
  else Val [].

(** The type that a key is the vertex of. *)
Definition type_of_key (key : Z * bytes) : outcome (option (Kind * Z)) :=
  let '(ks, bs) := key in
  if ObjVertex.is_entity_vertex ks bs || ObjVertex.is_relation_vertex ks bs || AttrVertex.is_attribute_vertex ks bs ||
     EdgeHas.is_has ks bs || EdgeLinks.is_links ks bs || EdgeIndex.is_index ks bs then Val None
  else
    b ← is_decodable_from_key VertexEntityType ks bs;
    if b : bool then t ← read_from EntityType bs; Val (Some (KEntity, t)) else
    b ← is_decodable_from_key VertexRelationType ks bs;
    if b : bool then t ← read_from RelationType bs; Val (Some (KRelation, t)) else
    b ← is_decodable_from_key VertexAttributeType ks bs;
    if b : bool then t ← read_from AttributeType bs; Val (Some (KAttribute, t)) else
    b ← is_decodable_from_key VertexRoleType ks bs;
    if b : bool then t ← read_from RoleType bs; Val (Some (KRole, t)) else Val None.
Definition decodes (key : Z * bytes) : Prop := returns (cells key) ∧ returns (type_of_key key).

(** Cells about instances of a type. *)
Definition mentions (kt : Kind * Z) (c : cell) : bool :=
  match kt, c with
  | (KEntity, t), OfEntity t' => bool_decide (t = t')
  | (KRelation, t), (OfRelation t' | RelationRole t' _) => bool_decide (t = t')
  | (KEntity, t), (HasAttribute o _ | AttributeOwner _ o | RolePlayer o _) => bool_decide (o = ObjEntity t)
  | (KEntity, t), LinksIndex p q => bool_decide (p = ObjEntity t ∨ q = ObjEntity t)
  | (KRelation, t), (HasAttribute o _ | AttributeOwner _ o | RolePlayer o _) => bool_decide (o = ObjRelation t)
  | (KRelation, t), LinksIndex p q => bool_decide (p = ObjRelation t ∨ q = ObjRelation t)
  | (KAttribute, t), (OfAttribute t' | HasAttribute _ t' | AttributeOwner t' _) => bool_decide (t = t')
  | (KRole, t), (OfRole t' | RolePlayer _ t' | RelationRole _ t') => bool_decide (t = t')
  | _, _ => false
  end.

(** ** Maps of counts *)
Lemma add_signed_spec x d : 0 ≤ x + d < 2 ^ 64 → add_signed x d = Val (x + d).
Proof.
  intros. unfold add_signed, checked_add_signed.
  by rewrite (proj2 (Z.leb_le _ _)), (proj2 (Z.ltb_lt _ _)) by lia.
Qed.
Lemma add_signed_inv x d y : add_signed x d = Val y → y = x + d.
Proof. unfold add_signed, checked_add_signed. case_match; simpl; congruence. Qed.

Lemma at1_insert {K} `{Countable K} (m : gmap K Z) k v k' : at1 (<[k := v]> m) k' = if decide (k' = k) then v else at1 m k'.
Proof. unfold at1. case_decide; subst; by simplify_map_eq. Qed.
Lemma add_to_spec {K} `{Countable K} (k : K) d (m : gmap K Z) : 0 ≤ at1 m k + d < 2 ^ 64 → add_to k d m = Val (<[k := at1 m k + d]> m).
Proof. intros Hb. unfold add_to. by rewrite add_signed_spec. Qed.
Lemma add_to_inv {K} `{Countable K} (k : K) d (m m' : gmap K Z) :
  add_to k d m = Val m' → ∀ k', at1 m' k' = at1 m k' + if decide (k' = k) then d else 0.
Proof.
  unfold add_to. destruct (add_signed _ d) as [v| |] eqn:E; [|done..]. intros [= <-] k'.
  apply add_signed_inv in E as ->. rewrite at1_insert. case_decide; subst; unfold at1; lia.
Qed.
Lemma add_to2_inv {K L} `{Countable K, Countable L} (k : K) (l : L) d (m m' : gmap K (gmap L Z)) :
  add_to2 k l d m = Val m' → ∀ k' l', at2 m' k' l' = at2 m k' l' + if decide (k' = k ∧ l' = l) then d else 0.
Proof.
  unfold add_to2. destruct (add_to l d _) as [inner| |] eqn:E; [|done..]. intros [= <-] k' l'.
  unfold at2. destruct (decide (k' = k)) as [->|]; simplify_map_eq.
  - rewrite (add_to_inv _ _ _ _ E). do 2 case_decide; naive_solver lia.
  - rewrite decide_False by tauto. lia.
Qed.
Lemma add_to2_ok {K L} `{Countable K, Countable L} (k : K) (l : L) d (m : gmap K (gmap L Z)) : 0 ≤ at2 m k l + d < 2 ^ 64 → returns (add_to2 k l d m).
Proof. intros Hb. unfold add_to2. rewrite add_to_spec by done. by eexists. Qed.
Lemma add_to3_inv {K L M} `{Countable K, Countable L, Countable M} (k : K) (l : L) (n : M) d m m' :
  add_to3 k l n d m = Val m' →
  ∀ k' l' n', at3 m' k' l' n' = at3 m k' l' n' + if decide (k' = k ∧ l' = l ∧ n' = n) then d else 0.
Proof.
  unfold add_to3. destruct (add_to2 l n d _) as [inner| |] eqn:E; [|done..]. intros [= <-] k' l' n'.
  unfold at3. destruct (decide (k' = k)) as [->|]; simplify_map_eq.
  - rewrite (add_to2_inv _ _ _ _ _ E). do 2 case_decide; naive_solver lia.
  - rewrite decide_False by tauto. lia.
Qed.
Lemma add_to3_ok {K L M} `{Countable K, Countable L, Countable M} (k : K) (l : L) (n : M) d m :
  0 ≤ at3 m k l n + d < 2 ^ 64 → returns (add_to3 k l n d m).
Proof.
  intros Hb. unfold add_to3. destruct (add_to2_ok l n d (default ∅ (m !! k)) Hb) as [m' ->]. by eexists.
Qed.
Lemma add_to_ok {K} `{Countable K} (k : K) d (m : gmap K Z) : 0 ≤ at1 m k + d < 2 ^ 64 → returns (add_to k d m).
Proof. intros Hb. rewrite add_to_spec by done. by eexists. Qed.

Lemma at1_delete {K} `{Countable K} (m : gmap K Z) k k' : at1 (delete k m) k' = if decide (k' = k) then 0 else at1 m k'.
Proof. unfold at1. case_decide; subst; by simplify_map_eq. Qed.
Lemma at2_delete {K L} `{Countable K, Countable L} (m : gmap K (gmap L Z)) k k' l :
  at2 (delete k m) k' l = if decide (k' = k) then 0 else at2 m k' l.
Proof. unfold at2. case_decide; subst; by simplify_map_eq. Qed.
Lemma at2_remove_inner {K L} `{Countable K, Countable L} (m : gmap K (gmap L Z)) l k l' :
  at2 (remove_inner l m) k l' = if decide (l' = l) then 0 else at2 m k l'.
Proof.
  unfold at2, remove_inner. rewrite map_lookup_filter, lookup_fmap.
  destruct (m !! k) as [inner|]; cbn [fmap option_fmap option_map mbind option_bind].
  - destruct (decide (delete l inner = ∅)) as [He|He].
    + rewrite option_guard_False by (simpl; tauto). cbn.
      rewrite <-(at1_delete inner l l'). by rewrite He.
    + rewrite option_guard_True by done. cbn. apply at1_delete.
  - by destruct (decide (l' = l)).
Qed.

(** ** Updating the counts of one key *)
Definition added (c : cell) (l : list cell) (delta : Z) : Z := if decide (c ∈ l) then delta else 0.

Ltac bind_inv :=
  match goal with
  | H : (?m ≫= _) = Val _ |- _ => let E := fresh "E" in destruct m eqn:E; cbn beta iota zeta delta [mbind exec_bind] in H; [|discriminate H..]
  end.
Ltac count_change :=
  repeat match goal with
  | H : add_signed _ _ = Val _ |- _ => apply add_signed_inv in H
  | H : add_to _ _ _ = Val _ |- _ => pose proof (add_to_inv _ _ _ _ H); clear H
  | H : add_to2 _ _ _ _ = Val _ |- _ => pose proof (add_to2_inv _ _ _ _ _ H); clear H
  | H : add_to3 _ _ _ _ _ = Val _ |- _ => pose proof (add_to3_inv _ _ _ _ _ _ H); clear H
  end; subst; cbn in *;
  let c := fresh "c" in intros c; intros; unfold added; destruct c; cbn;
  repeat match goal with H : ∀ _, at1 _ _ = _ |- _ => rewrite H | H : ∀ _ _, at2 _ _ _ = _ |- _ => rewrite H | H : ∀ _ _ _, at3 _ _ _ _ = _ |- _ => rewrite H end;
  repeat match goal with |- context [decide ?P] => destruct (decide P) end;
  set_unfold; try lia; naive_solver lia.

Lemma update_entities_inv t d s s' : Stats.update_entities t d s = Val s' →
  ∀ c td, count_of c s' td = count_of c s td + added c [Things; Entities; OfEntity t] d.
Proof. unfold Stats.update_entities. intros Hu. repeat bind_inv. injection Hu as <-. count_change. Qed.
Lemma update_relations_inv t d s s' : Stats.update_relations t d s = Val s' →
  ∀ c td, count_of c s' td = count_of c s td + added c [Things; Relations; OfRelation t] d.
Proof. unfold Stats.update_relations. intros Hu. repeat bind_inv. injection Hu as <-. count_change. Qed.
Lemma update_attributes_inv t d s s' : Stats.update_attributes t d s = Val s' →
  ∀ c td, count_of c s' td = count_of c s td + added c [Things; AttributesCell; OfAttribute t] d.
Proof. unfold Stats.update_attributes. intros Hu. repeat bind_inv. injection Hu as <-. count_change. Qed.
Lemma update_has_inv o a d s s' : Stats.update_has o a d s = Val s' →
  ∀ c td, count_of c s' td = count_of c s td + added c [HasEdges; HasAttribute o a; AttributeOwner a o] d.
Proof. unfold Stats.update_has. intros Hu. repeat bind_inv. injection Hu as <-. count_change. Qed.
Lemma update_role_player_inv p r t d s s' : Stats.update_role_player p r t d s = Val s' →
  ∀ c td, count_of c s' td = count_of c s td +
    added c [Roles; OfRole r; RolePlayer p r; RelationRole t r; RelationRolePlayer t r p; PlayerRoleRelation p r t] d.
Proof. unfold Stats.update_role_player. intros Hu. repeat bind_inv. injection Hu as <-. count_change. Qed.
Lemma update_indexed_player_inv p q d s s' : Stats.update_indexed_player p q d s = Val s' →
  ∀ c td, count_of c s' td = count_of c s td + added c [LinksIndex p q; LinksIndex q p] d.
Proof.
  unfold Stats.update_indexed_player. intros Hu. bind_inv.
  destruct (decide (p = q)) as [->|Hne]; [|bind_inv]; injection Hu as <-; count_change.
Qed.

(** An update goes through when the new counts are in range. *)
Definition fits (l : list cell) (d : Z) (s : Statistics) : Prop := ∀ c, c ∈ l → 0 ≤ count_of c s 0 + d < 2 ^ 64.
Lemma returns_bind {E A B} (m : exec E A) (f : A → exec E B) :
  returns m → (∀ a, m = Val a → returns (f a)) → returns (m ≫= f).
Proof. intros [a ->] Hf. by apply Hf. Qed.
Lemma add_signed_ok x d : 0 ≤ x + d < 2 ^ 64 → returns (add_signed x d).
Proof. intros. rewrite add_signed_spec by done. by eexists. Qed.
Ltac counted Hf c := exact (Hf c ltac:(set_solver)).
Ltac update_step tac := apply returns_bind; [tac|intros ? _; cbv zeta].

Lemma update_entities_ok t d s : fits [Things; Entities; OfEntity t] d s → returns (Stats.update_entities t d s).
Proof.
  intros Hf. unfold Stats.update_entities.
  update_step ltac:(apply add_to_ok; counted Hf (OfEntity t)).
  update_step ltac:(apply add_signed_ok; counted Hf Entities).
  update_step ltac:(apply add_signed_ok; counted Hf Things). by eexists.
Qed.
Lemma update_relations_ok t d s : fits [Things; Relations; OfRelation t] d s → returns (Stats.update_relations t d s).
Proof.
  intros Hf. unfold Stats.update_relations.
  update_step ltac:(apply add_to_ok; counted Hf (OfRelation t)).
  update_step ltac:(apply add_signed_ok; counted Hf Relations).
  update_step ltac:(apply add_signed_ok; counted Hf Things). by eexists.
Qed.
Lemma update_attributes_ok t d s :
  fits [Things; AttributesCell; OfAttribute t] d s → returns (Stats.update_attributes t d s).
Proof.
  intros Hf. unfold Stats.update_attributes.
  update_step ltac:(apply add_to_ok; counted Hf (OfAttribute t)).
  update_step ltac:(apply add_signed_ok; counted Hf AttributesCell).
  update_step ltac:(apply add_signed_ok; counted Hf Things). by eexists.
Qed.
Lemma update_has_ok o a d s :
  fits [HasEdges; HasAttribute o a; AttributeOwner a o] d s → returns (Stats.update_has o a d s).
Proof.
  intros Hf. unfold Stats.update_has.
  update_step ltac:(apply add_to2_ok; counted Hf (HasAttribute o a)).
  update_step ltac:(apply add_to2_ok; counted Hf (AttributeOwner a o)).
  update_step ltac:(apply add_signed_ok; counted Hf HasEdges). by eexists.
Qed.
Lemma update_role_player_ok p r t d s :
  fits [Roles; OfRole r; RolePlayer p r; RelationRole t r; RelationRolePlayer t r p; PlayerRoleRelation p r t] d s →
  returns (Stats.update_role_player p r t d s).
Proof.
  intros Hf. unfold Stats.update_role_player.
  update_step ltac:(apply add_to_ok; counted Hf (OfRole r)).
  update_step ltac:(apply add_signed_ok; counted Hf Roles).
  update_step ltac:(apply add_to2_ok; counted Hf (RolePlayer p r)).
  update_step ltac:(apply add_to2_ok; counted Hf (RelationRole t r)).
  update_step ltac:(apply add_to3_ok; counted Hf (RelationRolePlayer t r p)).
  update_step ltac:(apply add_to3_ok; counted Hf (PlayerRoleRelation p r t)). by eexists.
Qed.
Lemma update_indexed_player_ok p q d s :
  fits [LinksIndex p q; LinksIndex q p] d s → returns (Stats.update_indexed_player p q d s).
Proof.
  intros Hf. unfold Stats.update_indexed_player.
  apply returns_bind; [apply add_to2_ok; counted Hf (LinksIndex p q)|]. intros m Hm. cbv zeta.
  destruct (decide (p = q)) as [->|Hne]; [by eexists|].
  update_step ltac:(apply add_to2_ok); [|by eexists]. cbn. rewrite (add_to2_inv _ _ _ _ _ Hm).
  rewrite decide_False by naive_solver. rewrite Z.add_0_r. counted Hf (LinksIndex q p).
Qed.

(** ** Deleting a type *)
Definition clear_type (kt : Kind * Z) : Statistics → Statistics :=
  match kt with
  | (KEntity, t) => Stats.clear_entity_type t
  | (KRelation, t) => Stats.clear_relation_type t
  | (KAttribute, t) => Stats.clear_attribute_type t
  | (KRole, t) => Stats.clear_role_type t
  end.
Lemma clear_type_count kt c s td : count_of c (clear_type kt s) td = if mentions kt c then 0 else count_of c s td.
Proof.
  destruct kt as [[] t]; destruct c; cbn;
    rewrite ?at1_delete, ?at2_remove_inner, ?at2_delete; unfold bool_decide;
    repeat case_decide; naive_solver.
Qed.

(** ** One write *)
Lemma count_of_total s td td' c :
  count_of c s td' = count_of c s td + if decide (c = Total) then td' - td else 0.
Proof. destruct (decide (c = Total)) as [->|Hc]; [simpl; lia|]. destruct c; simpl; first [lia|done]. Qed.
Lemma added_cons c x l d : added c (x :: l) d = if decide (c = x) then d else added c l d.
Proof. unfold added. repeat case_decide; set_solver. Qed.
Lemma added_none c l d : c ∉ l → added c l d = 0.
Proof. intros. unfold added. by rewrite decide_False. Qed.

(** What a key is: the cells it is counted in, or the type it is the vertex of. *)
Inductive key_role (key : Z * bytes) : list cell → option (Kind * Z) → Prop :=
| role_cells l : cells key = Val l → type_of_key key = Val None → key_role key l None
| role_type kt : cells key = Val [] → type_of_key key = Val (Some kt) → key_role key [] (Some kt).

Definition changed (o : option (Kind * Z)) (w : Write) (l : list cell) (d : Z) (c : cell) (n : Z) : Z :=
  match o with
  | Some kt => if WriteOps.is_delete w && mentions kt c then 0 else n
  | None => n + added c l d
  end.
Lemma changed_type kt w d s td c :
  count_of c (if WriteOps.is_delete w then clear_type kt s else s) td = changed (Some kt) w [] d c (count_of c s td).
Proof. unfold changed. destruct (WriteOps.is_delete w); [|done]. apply clear_type_count. Qed.
Lemma changed_total s s' td d l c :
  (∀ c td, count_of c s' td = count_of c s td + added c l d) → is_i64 (td + d) → Total ∉ l →
  count_of c s' (i64 (td + d)) = count_of c s td + added c (Total :: l) d.
Proof.
  intros Hs Hi Hl. rewrite Hs, i64_id by done. rewrite (count_of_total s td), added_cons.
  destruct (decide (c = Total)) as [->|]; [rewrite added_none by done|]; lia.
Qed.

Ltac key_case Hu Hc Ht tac :=
  cbn [orb] in Ht; repeat (bind_inv; cbn [mbind exec_bind] in Hc); injection Hu as <- <-;
  eexists _, None; split; [by constructor|]; intros ?c; tac.
Ltac key_total lem := apply changed_total; [by apply lem|done|set_solver].
Ltac type_case Hu Ht kind :=
  bind_inv; cbn [mbind exec_bind] in Ht; injection Hu as <- <-;
  match goal with t : Z, E : read_from _ _ = Val ?t |- _ => exists [], (Some (kind, t)) end;
  split; [by constructor|]; intros ?c; apply (changed_type (kind, _)).

Lemma update_key_inv ks bs w d s td s' td' :
  Stats.update_key ks bs w d s td = Val (s', td') → is_i64 (td + d) →
  ∃ l o, key_role (ks, bs) l o ∧ ∀ c, count_of c s' td' = changed o w l d c (count_of c s td).
Proof.
  intros Hu Hi. unfold Stats.update_key in Hu.
  assert (Hc := eq_refl (cells (ks, bs))). assert (Ht := eq_refl (type_of_key (ks, bs))).
  unfold cells at 2 in Hc. unfold type_of_key at 2 in Ht.
  destruct (ObjVertex.is_entity_vertex ks bs); [key_case Hu Hc Ht ltac:(key_total update_entities_inv)|].
  destruct (ObjVertex.is_relation_vertex ks bs); [key_case Hu Hc Ht ltac:(key_total update_relations_inv)|].
  destruct (AttrVertex.is_attribute_vertex ks bs); [key_case Hu Hc Ht ltac:(by apply update_attributes_inv)|].
  destruct (EdgeHas.is_has ks bs); [key_case Hu Hc Ht ltac:(key_total update_has_inv)|].
  destruct (EdgeLinks.is_links ks bs); [key_case Hu Hc Ht ltac:(key_total update_role_player_inv)|].
  destruct (EdgeIndex.is_index ks bs); [key_case Hu Hc Ht ltac:(by apply update_indexed_player_inv)|].
  simpl orb in Ht. cbv iota in Ht.
  bind_inv. cbn [mbind exec_bind] in Ht. case_match; [type_case Hu Ht KEntity|].
  bind_inv. cbn [mbind exec_bind] in Ht. case_match; [type_case Hu Ht KRelation|].
  bind_inv. cbn [mbind exec_bind] in Ht. case_match; [type_case Hu Ht KAttribute|].
  bind_inv. cbn [mbind exec_bind] in Ht. case_match; [type_case Hu Ht KRole|].
  injection Hu as <- <-. exists [], None. split; [by constructor|]. intros c. simpl. by rewrite added_none, Z.add_0_r by set_solver.
Qed.

Ltac counts_case Hc lem :=
  repeat (bind_inv; cbn [mbind exec_bind]); injection Hc as <-; intros Hf;
  apply returns_bind; [apply lem; intros ?c ?; by apply Hf; [done|set_solver..]|by eexists].
Lemma update_key_ok ks bs w d s td :
  decodes (ks, bs) → (∀ l c, cells (ks, bs) = Val l → c ∈ l → c ≠ Total → 0 ≤ count_of c s 0 + d < 2 ^ 64) →
  returns (Stats.update_key ks bs w d s td).
Proof.
  intros [[l Hc] [o Ht]] Hf. specialize (Hf l). revert Hf.
  unfold cells in *. unfold type_of_key in Ht. unfold Stats.update_key.
  destruct (ObjVertex.is_entity_vertex ks bs); [counts_case Hc update_entities_ok|].
  destruct (ObjVertex.is_relation_vertex ks bs); [counts_case Hc update_relations_ok|].
  destruct (AttrVertex.is_attribute_vertex ks bs); [counts_case Hc update_attributes_ok|].
  destruct (EdgeHas.is_has ks bs); [counts_case Hc update_has_ok|].
  destruct (EdgeLinks.is_links ks bs); [counts_case Hc update_role_player_ok|].
  destruct (EdgeIndex.is_index ks bs); [counts_case Hc update_indexed_player_ok|].
  intros _. cbn [orb] in Ht.
  do 4 (bind_inv; cbn [mbind exec_bind]; case_match; [bind_inv; by eexists|]). by eexists.
Qed.

(** What updating leaves alone. *)
Definition frame (s : Statistics) : Z * Z * Z * Z * Z :=
  (encoding_version s, sequence_number s, last_durable_write_sequence_number s, last_durable_write_total_count s, total_count s).
Lemma update_key_frame ks bs w d s td s' td' :
  Stats.update_key ks bs w d s td = Val (s', td') → frame s' = frame s.
Proof.
  unfold Stats.update_key, Stats.update_entities, Stats.update_relations, Stats.update_attributes, Stats.update_has,
    Stats.update_role_player, Stats.update_indexed_player.
  intros Hu. repeat (case_match || bind_inv); simplify_eq; try done.
Qed.

(** ** Counting stored keys *)
Definition counted (c : cell) (key : Z * bytes) : bool :=
  match cells key with Val l => bool_decide (c ∈ l) | _ => false end.
Definition number (c : cell) (S : gset (Z * bytes)) : Z :=
  Z.of_nat (size (filter (λ key, counted c key = true) S)).
(** The statistics are those of the stored keys. *)
Definition exact (S : gset (Z * bytes)) (s : Statistics) (total_delta : Z) : Prop :=
  ∀ c, count_of c s total_delta = number c S.

Definition apply_write (S : gset (Z * bytes)) (kw : Z * bytes * Write) : gset (Z * bytes) :=
  match kw.2 with Delete => S ∖ {[kw.1]} | _ => S ∪ {[kw.1]} end.
(** The change of the number of stored keys by a write. *)
Definition delta_of (S : gset (Z * bytes)) (kw : Z * bytes * Write) : Z :=
  match kw.2 with
  | Delete => if decide (kw.1 ∈ S) then -1 else 0
  | _ => if decide (kw.1 ∈ S) then 0 else 1
  end.

Lemma number_bounds c S : 0 ≤ number c S ≤ Z.of_nat (size S).
Proof. unfold number. split; [lia|]. apply Nat2Z.inj_le, subseteq_size. set_solver. Qed.
Lemma number_add c S key : key ∉ S → number c (S ∪ {[key]}) = number c S + if counted c key then 1 else 0.
Proof.
  intros Hn. unfold number. set (P := λ key, counted c key = true). destruct (counted c key) eqn:E.
  - assert (filter P (S ∪ {[key]}) = filter P S ∪ {[key]}) as -> by (unfold P; set_solver).
    rewrite size_union, size_singleton by set_solver. lia.
  - assert (filter P (S ∪ {[key]}) = filter P S) as ->; [|lia].
    apply set_eq. intros x. rewrite !elem_of_filter. unfold P. set_unfold. naive_solver congruence.
Qed.
Lemma number_remove c S key : key ∈ S → number c (S ∖ {[key]}) = number c S - if counted c key then 1 else 0.
Proof.
  intros Hin. assert (HS : S = S ∖ {[key]} ∪ {[key]}).
  { apply set_eq. intros x. destruct (decide (x = key)) as [->|]; set_solver. }
  rewrite HS at 2. rewrite number_add by set_solver. lia.
Qed.
Lemma number_write c S kw : number c (apply_write S kw) = number c S + if counted c kw.1 then delta_of S kw else 0.
Proof.
  destruct kw as [key w]. unfold apply_write, delta_of. cbn [fst snd].
  assert (Hadd : number c (S ∪ {[key]}) = number c S + if counted c key then if decide (key ∈ S) then 0 else 1 else 0).
  { case_decide; [|by apply number_add]. replace (S ∪ {[key]}) with S by set_solver. destruct (counted c key); lia. }
  destruct w; [exact Hadd..|]. case_decide.
  - rewrite number_remove by done. destruct (counted c key); lia.
  - replace (S ∖ {[key]}) with S by set_solver. destruct (counted c key); lia.
Qed.
Lemma number_none kt c S :
  (∀ key c, key ∈ S → counted c key = true → mentions kt c = false) → mentions kt c = true → number c S = 0.
Proof.
  intros Hn Hm. unfold number. replace (filter _ S) with (∅ : gset (Z * bytes)); [done|]. apply set_eq. intros key.
  rewrite elem_of_filter. split; [set_solver|]. intros [Hk Hin]. specialize (Hn key c Hin Hk). congruence.
Qed.

Lemma size_write S kw : (size (apply_write S kw) ≤ size S + 1)%nat.
Proof.
  destruct kw as [key w]. unfold apply_write. cbn [fst snd].
  assert (size (S ∪ {[key]}) ≤ size S + 1)%nat by (rewrite size_union_alt, <-(size_singleton (C:=gset _) key);
    apply Nat.add_le_mono_l, subseteq_size; set_solver).
  destruct w; [done..|]. transitivity (size S); [apply subseteq_size; set_solver|lia].
Qed.
Lemma delta_bounds S kw : -1 ≤ delta_of S kw ≤ 1.
Proof. unfold delta_of. destruct kw.2; case_decide; lia. Qed.

(** Updating exact statistics by the change that a write makes goes through and
    leaves them exact.  A type may be deleted when it has no instances. *)
Lemma exact_write S s td key w :
  exact S s td → decodes key → 0 ≤ total_count s < 2 ^ 62 → Z.of_nat (size S) + 1 < 2 ^ 62 →
  (∀ kt, w = Delete → type_of_key key = Val (Some kt) →
     ∀ key' c, key' ∈ S → counted c key' = true → mentions kt c = false) →
  ∃ s' td', Stats.update_key key.1 key.2 w (delta_of S (key, w)) s td = Val (s', td') ∧ frame s' = frame s ∧
    exact (apply_write S (key, w)) s' td'.
Proof.
  destruct key as [ks bs]. intros Hex Hdec Ht Hsz Htype. cbn [fst snd]. set (d := delta_of S (ks, bs, w)).
  assert (Hd : -1 ≤ d ≤ 1) by apply delta_bounds.
  destruct (update_key_ok ks bs w d s td) as [[s' td'] Hu].
  { done. }
  { intros l c Hl Hc Hne. pose proof (number_bounds c (apply_write S (ks, bs, w))) as Hb.
    rewrite number_write in Hb. unfold counted in Hb. cbn [fst] in Hb.
    rewrite Hl, bool_decide_eq_true_2 in Hb by done.
    pose proof (size_write S (ks, bs, w)). rewrite <-(Hex c), (count_of_total s 0) in Hb. rewrite decide_False in Hb by done.
    fold d in Hb. lia. }
  exists s', td'. split; [done|]. split; [by eapply update_key_frame|].
  assert (Htd : is_i64 (td + d)).
  { specialize (Hex Total). cbn in Hex. pose proof (number_bounds Total S). unfold is_i64. lia. }
  destruct (update_key_inv _ _ _ _ _ _ _ _ Hu Htd) as (l & o & Hrole & Hc).
  intros c. rewrite Hc, number_write, Hex. fold d. unfold counted. cbn [fst].
  destruct Hrole as [l Hl _|kt Hl Hk]; rewrite Hl; cbn [changed].
  - unfold added. case_decide; case_bool_decide; done.
  - rewrite bool_decide_eq_false_2 by set_solver. rewrite Z.add_0_r.
    destruct (WriteOps.is_delete w && mentions kt c) eqn:E; [|done]. apply andb_true_iff in E as [Hw Hm].
    symmetry. apply (number_none kt); [|done]. apply Htype; [by destruct w|done].
Qed.

(** ** Tables that hold the same counts *)
(** The counts of owners are those of owned attributes, the counts of players
    of relations those of relations of players; the counts of pairs of players
    are symmetric; the number of things is the sum of the numbers of entities,
    relations and attributes. *)
Record tables_agree (s : Statistics) : Prop := {
  ta_has : ∀ o a, count_of (HasAttribute o a) s 0 = count_of (AttributeOwner a o) s 0;
  ta_players : ∀ t r p, count_of (RelationRolePlayer t r p) s 0 = count_of (PlayerRoleRelation p r t) s 0;
  ta_index : ∀ p q, count_of (LinksIndex p q) s 0 = count_of (LinksIndex q p) s 0;
  ta_things : count_of Things s 0 = count_of Entities s 0 + count_of Relations s 0 + count_of AttributesCell s 0;
}.
Lemma cells_mirrored key l : cells key = Val l →
  (∀ o a, HasAttribute o a ∈ l ↔ AttributeOwner a o ∈ l) ∧
  (∀ t r p, RelationRolePlayer t r p ∈ l ↔ PlayerRoleRelation p r t ∈ l) ∧
  (∀ p q, LinksIndex p q ∈ l ↔ LinksIndex q p ∈ l) ∧
  (∀ d, added Things l d = added Entities l d + added Relations l d + added AttributesCell l d).
Proof.
  destruct key as [ks bs]. unfold cells. intros Hl.
  assert (Hnil : ∀ c d, added c [] d = 0) by (intros; by apply added_none, not_elem_of_nil).
  repeat case_match; repeat bind_inv; injection Hl as <-; split_and!;
    try (intros; rewrite ?elem_of_cons, ?elem_of_nil; intuition congruence);
    intros; rewrite ?added_cons, ?Hnil; repeat first [rewrite decide_True by done|rewrite decide_False by done]; lia.
Qed.
Lemma update_key_any_total ks bs w d s td s' td' :
  Stats.update_key ks bs w d s td = Val (s', td') → ∃ td'', Stats.update_key ks bs w d s 0 = Val (s', td'').
Proof.
  unfold Stats.update_key. intros Hu. repeat (first [case_match|bind_inv]; cbn [mbind exec_bind]); simplify_eq; by eexists.
Qed.
Lemma tables_agree_key ks bs w d s td s' td' :
  Stats.update_key ks bs w d s td = Val (s', td') → is_i64 d → tables_agree s → tables_agree s'.
Proof.
  intros Hu Hd [Hhas Hpl Hix Hth]. apply update_key_any_total in Hu as [td2 Hu].
  destruct (update_key_inv _ _ _ _ _ _ _ _ Hu Hd) as (l & o & Hrole & Hc).
  assert (Hn : ∀ c, c ≠ Total → count_of c s' 0 = changed o w l d c (count_of c s 0)).
  { intros c Hne. rewrite <-Hc, (count_of_total s' td2). rewrite decide_False by done. lia. }
  destruct (cells_mirrored (ks, bs) l) as (Mh & Mp & Mi & Mt). { by destruct Hrole. }
  assert (Hpair : ∀ c c', c ≠ Total → c' ≠ Total → (c ∈ l ↔ c' ∈ l) → (∀ kt, mentions kt c = mentions kt c') →
    count_of c s 0 = count_of c' s 0 → count_of c s' 0 = count_of c' s' 0).
  { intros c c' Hne Hne' Hl Hm Hs. rewrite !Hn by done. unfold changed. destruct o as [kt|]; rewrite Hs; [by rewrite Hm|].
    unfold added. repeat case_decide; tauto. }
  split.
  - intros o' a. apply Hpair; [done..|by intros [[] ?]|done].
  - intros t r p. apply Hpair; [done..|by intros [[] ?]|done].
  - intros p q. apply Hpair; [done..| |done]. intros [[] ?]; cbn; [|done| |done]; apply bool_decide_ext; tauto.
  - rewrite !Hn by done. unfold changed. destruct o as [[k t]|]; [|rewrite Mt; lia].
    replace (mentions (k, t) Things) with false by (by destruct k).
    replace (mentions (k, t) Entities) with false by (by destruct k).
    replace (mentions (k, t) Relations) with false by (by destruct k).
    replace (mentions (k, t) AttributesCell) with false by (by destruct k).
    rewrite !andb_false_r. done.
Qed.
