(* ===== verification/StatisticsHistory.v ===== *)
(** * Statistics of a history of commits

    The keys a history of committed transactions leaves stored ([stored]), the
    conditions under which its records describe what the transactions did
    ([commit_ok]), and the lemmas that applying the records to statistics counts
    the stored keys. *)
From stdpp Require Import gmap sets sorting.
From Stdlib Require Import Sorting.Sorted.
From S2P Require Import Prelude BTree Bytes MemoryStore Buffer LendingIter Mvcc Keyspaces Snapshot Dependency Timeline Isolation Storage Recovery Layout Values Structs Attributes Things Edges ThingManager Pattern TypeEdges Statistics StatisticsCounts.
Import KeyRangeOps.
#[local] Open Scope Z_scope.

(** ** The writes of a transaction *)
Definition writes_of (o : OperationsBuffer) : list (Z * bytes * Write) :=
  ob_write_buffers o ≫= λ b, (λ kw : bytes * Write, (wb_keyspace_id b, kw.1, kw.2)) <$> wb_writes b.
Definition write_at (o : OperationsBuffer) (key : Z * bytes) : option Write := buffered o key.1 key.2.

Lemma iterate_writes_of o : OB.iterate_writes o = Val (writes_of o).
Proof.
  unfold OB.iterate_writes, writes_of. induction (ob_write_buffers o) as [|b bs IH]; [done|]. cbn [foldr].
  rewrite IH. unfold WB.iterate_range, WB.bounds, WB.range_start_as_bound, WB.compute_exclusive_end, new_unbounded.
  cbn. unfold bt_range. cbn. f_equal. f_equal.
  induction (wb_writes b) as [|[k w] l IHl]; [done|]. cbn. replace (leb [] k) with true by (by destruct k). cbn. f_equal. exact IHl.
Qed.
Lemma elem_of_writes o key w : ob_wf o → (key, w) ∈ writes_of o ↔ 0 ≤ key.1 ∧ write_at o key = Some w.
Proof.
  intros (Hlen & Hb & _). unfold writes_of, write_at, buffered. rewrite list_elem_of_bind. split.
  - intros (b & Hin & Hbs). apply list_elem_of_fmap in Hin as ([k w'] & [= -> ->] & Hin). apply list_elem_of_lookup in Hbs as [i Hi].
    destruct (Hb i b Hi) as [Hid Hwf]. cbn [fst snd]. split; [lia|]. rewrite Hid, Nat2Z.id, Hi. cbn. by apply bt_get_elem.
  - destruct key as [id k]. cbn [fst snd]. intros [H0 Hw]. destruct (ob_write_buffers o !! Z.to_nat id) as [b|] eqn:Ei; [|done].
    destruct (Hb _ b Ei) as [Hid Hwf]. exists b. split; [|by eapply list_elem_of_lookup_2].
    apply list_elem_of_fmap. exists (k, w). cbn. split; [|by apply bt_get_elem]. rewrite Hid. f_equal. f_equal. lia.
Qed.
Lemma NoDup_bt_keys {V} (m : list (bytes * V)) : bt_wf m → NoDup m.*1.
Proof.
  induction 1 as [|[k v] m Hm IH Hlt]; csimpl; constructor; [|done]. intros Hin. apply list_elem_of_fmap in Hin as (kv & Hk & Hin).
  rewrite Forall_forall in Hlt. specialize (Hlt kv Hin). unfold bt_lt in Hlt. cbn in Hlt. subst. by apply cmp_irrefl in Hlt.
Qed.
Lemma NoDup_writes o : ob_wf o → NoDup (writes_of o).*1.
Proof.
  intros (_ & Hb & _). unfold writes_of.
  assert (Hg : ∀ n bs, (∀ i b, bs !! i = Some b → wb_keyspace_id b = Z.of_nat (n + i) ∧ wb_wf b) →
    NoDup ((bs ≫= λ b, (λ kw : bytes * Write, (wb_keyspace_id b, kw.1, kw.2)) <$> wb_writes b).*1)).
  { clear. intros n bs. revert n. induction bs as [|b bs IH]; intros n Hb; cbn [mbind list_bind]; [constructor|].
    rewrite fmap_app, <-list_fmap_compose. apply NoDup_app. split_and!.
    - destruct (Hb 0%nat b eq_refl) as [_ Hwf]. apply NoDup_bt_keys in Hwf.
      replace (_ <$> wb_writes b) with (pair (wb_keyspace_id b) <$> (wb_writes b).*1)
        by (rewrite <-list_fmap_compose; done).
      apply NoDup_fmap_2; [|done]. by intros ? ? [=].
    - intros key Hin Hin'. apply list_elem_of_fmap in Hin as (kw & -> & _).
      apply list_elem_of_fmap in Hin' as ([key' w'] & Hk & Hin'). apply list_elem_of_bind in Hin' as (b' & Hin' & Hb').
      apply list_elem_of_fmap in Hin' as (kw' & [= -> ->] & _). apply list_elem_of_lookup in Hb' as [i Hi].
      destruct (Hb (S i) b' Hi) as [Hid _]. destruct (Hb 0%nat b eq_refl) as [Hid0 _]. cbn in Hk. injection Hk as Hk _. lia.
    - apply (IH (S n)). intros i b' Hi. destruct (Hb (S i) b' Hi) as [-> ?]. split; [lia|done]. }
  apply (Hg 0%nat). intros i b Hi. by apply Hb.
Qed.

Lemma elem_of_apply_write S kw key : key ≠ kw.1 → key ∈ apply_write S kw ↔ key ∈ S.
Proof. intros. unfold apply_write. destruct kw.2; set_solver. Qed.
Definition apply_writes (S : gset (Z * bytes)) (l : list (Z * bytes * Write)) : gset (Z * bytes) := foldl apply_write S l.
Lemma apply_writes_other S l key : key ∉ l.*1 → key ∈ apply_writes S l ↔ key ∈ S.
Proof.
  revert S. induction l as [|kw l IH]; intros S Hn; [done|]. cbn. csimpl in Hn. fold (apply_writes (apply_write S kw) l).
  rewrite IH by set_solver. apply elem_of_apply_write. set_solver.
Qed.
Lemma apply_writes_written S l key w : NoDup l.*1 → (key, w) ∈ l → key ∈ apply_writes S l ↔ w ≠ Delete.
Proof.
  revert S. induction l as [|kw l IH]; intros S Hnd Hin; [set_solver|]. csimpl in Hnd. apply NoDup_cons in Hnd as [Hk Hnd].
  cbn. fold (apply_writes (apply_write S kw) l). apply elem_of_cons in Hin as [<-|Hin]; [|by apply IH].
  rewrite apply_writes_other by done. unfold apply_write. cbn [fst snd]. destruct w; set_solver.
Qed.

(** ** Histories *)
(** The committed transactions, in the order of their sequence numbers. *)
Abbreviation history := (list (Z * CommitRecord)).
Definition before (a b : Z * CommitRecord) : Prop := a.1 < b.1.
Definition in_order (h : history) : Prop := StronglySorted before h.
Definition ops (sr : Z * CommitRecord) : OperationsBuffer := cr_operations sr.2.
Definition apply_commit (n : Z) (S : gset (Z * bytes)) (sr : Z * CommitRecord) : gset (Z * bytes) :=
  if sr.1 <=? n then apply_writes S (writes_of (ops sr)) else S.
(** The keys stored at a sequence number. *)
Definition stored (n : Z) (h : history) : gset (Z * bytes) := foldl (apply_commit n) ∅ h.
Definition all_wf (h : history) : Prop := Forall (λ sr, ob_wf (ops sr)) h.

Lemma all_wf_snoc h sr : all_wf (h ++ [sr]) → all_wf h ∧ ob_wf (ops sr).
Proof. unfold all_wf. rewrite Forall_app, Forall_singleton. done. Qed.
Lemma in_order_app h1 h2 : in_order (h1 ++ h2) ↔
  (∀ x y, x ∈ h1 → y ∈ h2 → x.1 < y.1) ∧ in_order h1 ∧ in_order h2.
Proof. apply StronglySorted_app. Qed.
Lemma stored_snoc n h sr : stored n (h ++ [sr]) = apply_commit n (stored n h) sr.
Proof. unfold stored. by rewrite foldl_app. Qed.
Lemma apply_commit_above n S sr : n < sr.1 → apply_commit n S sr = S.
Proof. intros. unfold apply_commit. by rewrite (proj2 (Z.leb_gt _ _)) by lia. Qed.
Lemma apply_commit_below n S sr : sr.1 ≤ n → apply_commit n S sr = apply_writes S (writes_of (ops sr)).
Proof. intros. unfold apply_commit. by rewrite (proj2 (Z.leb_le _ _)) by lia. Qed.
Lemma elem_of_apply_ops S o key :
  ob_wf o → 0 ≤ key.1 →
  key ∈ apply_writes S (writes_of o) ↔ match write_at o key with Some w => w ≠ Delete | None => key ∈ S end.
Proof.
  intros Hwf H0. destruct (write_at o key) as [w|] eqn:E.
  - apply apply_writes_written; [by apply NoDup_writes|]. by apply elem_of_writes.
  - apply apply_writes_other. intros Hin. apply list_elem_of_fmap in Hin as ([key' w] & -> & Hin). cbn in *.
    apply elem_of_writes in Hin as [_ Hw]; [|done]. congruence.
Qed.

Section key.
Context (key : Z * bytes) (H0 : 0 ≤ key.1).
(** Nothing between two numbers writes the key. *)
Lemma stored_same h n m :
  all_wf h → n ≤ m → (∀ sr, sr ∈ h → n < sr.1 ≤ m → write_at (ops sr) key = None) →
  key ∈ stored m h ↔ key ∈ stored n h.
Proof.
  intros Hwf Hnm. induction h as [|sr h IH] using rev_ind; intros Hn; [done|]. apply all_wf_snoc in Hwf as [Hwf Hsr].
  rewrite !stored_snoc. destruct (decide (m < sr.1)).
  { rewrite !apply_commit_above by lia. apply IH; [done|]. intros; apply Hn; set_solver. }
  rewrite (apply_commit_below m) by lia. rewrite elem_of_apply_ops by done. destruct (decide (n < sr.1)).
  - rewrite Hn by (set_solver || lia). rewrite apply_commit_above by lia. apply IH; [done|]. intros; apply Hn; set_solver.
  - rewrite apply_commit_below by lia. rewrite elem_of_apply_ops by done. destruct (write_at (ops sr) key); [done|].
    apply IH; [done|]. intros; apply Hn; set_solver.
Qed.
(** A stored key stays stored while nothing deletes it. *)
Lemma stored_kept h n m :
  all_wf h → n ≤ m → (∀ sr, sr ∈ h → n < sr.1 ≤ m → write_at (ops sr) key ≠ Some Delete) →
  key ∈ stored n h → key ∈ stored m h.
Proof.
  intros Hwf Hnm. induction h as [|sr h IH] using rev_ind; intros Hn Hin; [done|]. apply all_wf_snoc in Hwf as [Hwf Hsr].
  rewrite stored_snoc in *. assert (IH' : key ∈ stored n h → key ∈ stored m h).
  { apply IH; [done|]. intros; apply Hn; set_solver. }
  destruct (decide (m < sr.1)); [rewrite apply_commit_above in * by lia; auto|].
  rewrite apply_commit_below by lia. rewrite elem_of_apply_ops by done. destruct (decide (n < sr.1)).
  - rewrite apply_commit_above in Hin by lia. specialize (Hn sr ltac:(set_solver) ltac:(lia)).
    destruct (write_at (ops sr) key); [congruence|auto].
  - rewrite apply_commit_below in Hin by lia. rewrite elem_of_apply_ops in Hin by done.
    destruct (write_at (ops sr) key); auto.
Qed.
(** The last write of a key decides: also when deletes follow a delete. *)
Lemma stored_after h sr w m :
  all_wf h → in_order h → sr ∈ h → sr.1 ≤ m → write_at (ops sr) key = Some w →
  (∀ sr', sr' ∈ h → sr.1 < sr'.1 ≤ m → write_at (ops sr') key = None ∨ w = Delete ∧ write_at (ops sr') key = Some Delete) →
  key ∈ stored m h ↔ w ≠ Delete.
Proof.
  intros Hwf Hord Hin Hm Hw. revert Hord Hin. induction h as [|x h IH] using rev_ind; intros Hord Hin Hn; [set_solver|].
  apply all_wf_snoc in Hwf as [Hwf Hx].
  apply in_order_app in Hord as (Hbelow & Hord & _).
  rewrite stored_snoc. apply elem_of_app in Hin as [Hin| ->%list_elem_of_singleton].
  - assert (IHw : key ∈ stored m h ↔ w ≠ Delete).
    { apply IH; [done..|]. intros; apply Hn; [set_solver|done]. }
    destruct (decide (m < x.1)); [by rewrite apply_commit_above|].
    rewrite apply_commit_below by lia. rewrite elem_of_apply_ops by done.
    destruct (Hn x ltac:(set_solver)) as [->|[-> ->]]; [specialize (Hbelow sr x Hin ltac:(set_solver)); lia|done|done].
  - rewrite apply_commit_below by lia. rewrite elem_of_apply_ops by done. by rewrite Hw.
Qed.
End key.

Lemma stored_gap h n m : n ≤ m → (∀ sr, sr ∈ h → ¬ n < sr.1 ≤ m) → stored m h = stored n h.
Proof.
  intros Hnm. induction h as [|sr h IH] using rev_ind; intros Hn; [done|]. rewrite !stored_snoc, IH by set_solver.
  specialize (Hn sr ltac:(set_solver)). unfold apply_commit.
  destruct (Z.leb_spec (sr.1) m), (Z.leb_spec (sr.1) n); done || lia.
Qed.

(** ** Records that describe what a transaction did *)
(** The record of a commit in a history.  A transaction inserts keys that it
    does not see and that no concurrent transaction writes, deletes keys that it
    sees, and knows of the keys it puts whether it sees them; no transaction
    brings back a key while one that deletes it is open; its keys decode, and it
    deletes no type of stored things. *)
Record commit_ok (h : history) (s : Z) (r : CommitRecord) : Prop := {
  co_open : 0 ≤ cr_open_sequence_number r < s;
  co_range : s < 2 ^ 62;
  co_insert : ∀ key v, 0 ≤ key.1 → write_at (cr_operations r) key = Some (Insert v) →
    key ∉ stored (cr_open_sequence_number r) h ∧
    ∀ sr, sr ∈ h → cr_open_sequence_number r < sr.1 < s → write_at (ops sr) key = None;
  co_put : ∀ key v b x, 0 ≤ key.1 → write_at (cr_operations r) key = Some (Put v b x) →
    b = true ↔ key ∉ stored (cr_open_sequence_number r) h;
  co_delete : ∀ key, 0 ≤ key.1 → write_at (cr_operations r) key = Some Delete →
    key ∈ stored (cr_open_sequence_number r) h ∧
    ∀ sr1 sr2, sr1 ∈ h → sr2 ∈ h → cr_open_sequence_number r < sr1.1 → sr1.1 < sr2.1 → sr2.1 < s →
      write_at (ops sr1) key = Some Delete → write_at (ops sr2) key = None ∨ write_at (ops sr2) key = Some Delete;
  co_decodes : ∀ key, key ∈ (writes_of (cr_operations r)).*1 → decodes key;
  co_types : ∀ key kt, 0 ≤ key.1 → write_at (cr_operations r) key = Some Delete → type_of_key key = Val (Some kt) →
    ∀ key' c, key' ∈ stored (s - 1) h ∨ key' ∈ (writes_of (cr_operations r)).*1 → counted c key' = true → mentions kt c = false;
}.

Definition committed (sr : Z * CommitRecord) : Z * CommittedWrites :=
  (sr.1, mk_CommittedWrites (cr_open_sequence_number sr.2) (ops sr)).
Definition between (open s : Z) (sr : Z * CommitRecord) : bool := (open <? sr.1) && (sr.1 <? s).

Lemma range_committed {E} open s (h : history) :
  open < s → bt_range (E:=E) (Excluded open) (Excluded s) (committed <$> h) = Val (committed <$> List.filter (between open s) h).
Proof.
  intros Ho. unfold bt_range. cbn [range_panics].
  replace (leb s open) with false by (unfold leb, cmp, Z_ordered; by rewrite (proj2 (Z.compare_gt_iff s open))). f_equal.
  induction h as [|sr h IH]; [done|]. rewrite fmap_cons. cbn [List.filter]. rewrite IH.
  change (above (Excluded open) (committed sr).1 && below (Excluded s) (committed sr).1) with (between open s sr).
  by destruct (between open s sr).
Qed.
Lemma written_by_ok key sr : ob_wf (ops sr) → 0 ≤ key.1 < 10 → Stats.written_by key (committed sr).2 = Val (write_at (ops sr) key).
Proof.
  intros (Hlen & _ & _) Hk. unfold Stats.written_by, OB.writes_in, write_at, buffered. cbn [committed snd cw_operations].
  destruct (ob_write_buffers (ops sr) !! Z.to_nat key.1) as [b|] eqn:E; [done|].
  apply lookup_ge_None in E. rewrite Hlen in E. unfold KEYSPACE_MAXIMUM_COUNT in E. lia.
Qed.
Lemma any_deletes_ok key (h : history) : all_wf h → 0 ≤ key.1 < 10 →
  ∃ b, Stats.any_deletes key (committed <$> h) = Val b ∧ (b = true ↔ ∃ sr, sr ∈ h ∧ write_at (ops sr) key = Some Delete).
Proof.
  intros Hwf Hk. induction Hwf as [|sr h Hsr Hwf IH].
  { exists false. split; [done|]. split; [done|]. intros (sr & Hin & _). set_solver. }
  destruct IH as (b & Hb & Hiff). rewrite fmap_cons. change (committed sr) with (sr.1, (committed sr).2).
  cbn [Stats.any_deletes]. rewrite written_by_ok by done. cbn [mbind exec_bind].
  destruct (write_at (ops sr) key) as [[]|] eqn:E; try (exists b; split; [done|]; rewrite Hiff;
    split; [intros (x & ? & ?); exists x; set_solver|intros (x & [->|?]%elem_of_cons & ?); [congruence|by exists x]]).
  exists true. split; [done|]. split; [|done]. intros _. exists sr. set_solver.
Qed.
Lemma find_write_ok key (h : history) : all_wf h → 0 ≤ key.1 < 10 →
  ∃ o, Stats.find_write key (reverse (committed <$> h)) = Val o ∧
    match o with
    | Some w => ∃ h1 sr h2, h = h1 ++ sr :: h2 ∧ write_at (ops sr) key = Some w ∧ Forall (λ x, write_at (ops x) key = None) h2
    | None => Forall (λ x, write_at (ops x) key = None) h
    end.
Proof.
  intros Hwf Hk. induction h as [|sr h IH] using rev_ind; [by exists None|]. apply all_wf_snoc in Hwf as [Hwf Hsr].
  rewrite fmap_app, reverse_app. change (reverse (committed <$> [sr])) with [(sr.1, (committed sr).2)].
  cbn [app Stats.find_write]. rewrite written_by_ok by done. cbn [mbind exec_bind]. destruct (write_at (ops sr) key) as [w|] eqn:E.
  - exists (Some w). split; [done|]. by exists h, sr, [].
  - destruct (IH Hwf) as (o & -> & Ho). exists o. split; [done|]. destruct o as [w|].
    + destruct Ho as (h1 & x & h2 & -> & Hw & Hn). exists h1, x, (h2 ++ [sr]). rewrite <-app_assoc. split_and!; [done..|].
      apply Forall_app. split; [done|by repeat constructor].
    + apply Forall_app. split; [done|by repeat constructor].
Qed.

Lemma elem_of_between open s (h : history) x : x ∈ List.filter (between open s) h ↔ x ∈ h ∧ open < x.1 < s.
Proof.
  rewrite !list_elem_of_In, List.filter_In. unfold between. rewrite andb_true_iff, !Z.ltb_lt. done.
Qed.
Lemma all_wf_sub (h h' : history) : all_wf h → (∀ x, x ∈ h' → x ∈ h) → all_wf h'.
Proof. unfold all_wf. rewrite !Forall_forall. auto. Qed.

(** ** The change of a write *)
Section delta.
(** The commits that are compared with are those of a part of the history. *)
Context (h h1 hc h3 : history) (s : Z) (r : CommitRecord) (key : Z * bytes) (storage : Keyspaces).
Context (Hh : h = h1 ++ hc ++ h3) (Hwf : all_wf h) (Hord : in_order h) (Hin : (s, r) ∈ hc) (Hok : commit_ok h s r).
Context (Hkey : 0 ≤ key.1 < 10).
Abbreviation open := (cr_open_sequence_number r).

Lemma context_complete x : x ∈ h → x.1 < s → x ∈ h1 ∨ x ∈ hc.
Proof.
  rewrite Hh in Hord |- *.
  intros [?|[?|Hx]%elem_of_app]%elem_of_app Hs; [by left|by right|].
  rewrite app_assoc in Hord. apply in_order_app in Hord as (Hlt & _). 
  specialize (Hlt (s, r) x ltac:(set_solver) Hx). cbn in Hlt. lia.
Qed.
Lemma concurrent_wf : all_wf (List.filter (between open s) hc).
Proof. apply (all_wf_sub h); [done|]. intros x [Hx _]%elem_of_between. rewrite Hh. set_solver. Qed.
Lemma order_in_context x y l1 l2 : List.filter (between open s) hc = l1 ++ x :: l2 → y ∈ h → x.1 < y.1 < s → y ∈ l2.
Proof.
  intros Hf Hy Hlt. assert (Hx : x ∈ List.filter (between open s) hc) by (rewrite Hf; set_solver).
  apply elem_of_between in Hx as [Hx Hb]. assert (Hyc : y ∈ List.filter (between open s) hc).
  { apply elem_of_between. split; [|lia]. destruct (context_complete y Hy) as [Hy1|]; [lia| |done].
    rewrite Hh in Hord. apply in_order_app in Hord as (Hlt' & _). specialize (Hlt' y x Hy1 ltac:(set_solver)). lia. }
  assert (Hof : in_order (List.filter (between open s) hc)).
  { rewrite Hh in Hord. apply in_order_app in Hord as (_ & _ & Hc). apply in_order_app in Hc as (_ & Hc & _).
    clear -Hc. unfold in_order in *. induction Hc as [|a l Hl IH Ha]; cbn; [constructor|]. destruct (between open s a); [|done].
    constructor; [done|]. rewrite Forall_forall in *. intros z [Hz _]%elem_of_between. auto. }
  rewrite Hf in Hyc, Hof. apply elem_of_app in Hyc as [Hy1|[->|?]%elem_of_cons]; [|lia|done].
  apply in_order_app in Hof as (Hlt' & _). specialize (Hlt' y x Hy1 ltac:(set_solver)). lia.
Qed.

Lemma delta_insert v : write_at (cr_operations r) key = Some (Insert v) → delta_of (stored (s - 1) h) (key, Insert v) = 1.
Proof.
  intros Hw. destruct Hok as [Ho _ Hi _ _ _ _]. destruct (Hi key v ltac:(lia) Hw) as [Hn Hc]. unfold delta_of. cbn [fst snd].
  rewrite decide_False; [done|]. rewrite (stored_same key ltac:(lia) h open); [done|done|lia|]. intros x Hx Hlt. apply Hc; [done|lia].
Qed.
Lemma delta_delete :
  write_at (cr_operations r) key = Some Delete → (∀ x, x ∈ h1 → x.1 ≤ open) →
  Stats.write_to_delta key Delete open s (committed <$> hc) storage = Val (delta_of (stored (s - 1) h) (key, Delete)).
Proof.
  intros Hw Hctx. destruct Hok as [Ho _ _ _ Hd _ _]. destruct (Hd key ltac:(lia) Hw) as [Hs Hback].
  unfold Stats.write_to_delta. rewrite range_committed by lia. cbn [mbind exec_bind].
  destruct (any_deletes_ok key _ concurrent_wf Hkey) as (b & -> & Hb). cbn [lift mbind exec_bind]. f_equal.
  unfold delta_of. cbn [fst snd]. destruct b.
  - destruct (proj1 Hb eq_refl) as (x & [Hx Hlt]%elem_of_between & Hxw). rewrite decide_False; [done|].
    assert (Hxh : x ∈ h) by (rewrite Hh; set_solver).
    rewrite (stored_after key ltac:(lia) h x Delete); [by intros []|done..|lia|done|].
    intros y Hy Hxy. destruct (Hback x y Hxh Hy) as [|]; [lia..|done|by left|by right].
  - rewrite decide_True; [done|]. apply (stored_kept key ltac:(lia) h open); [done|lia| |done].
    intros x Hx Hlt Hxw. destruct Hb as [_ Hb]. discriminate Hb. exists x. split; [|done]. apply elem_of_between.
    split; [|lia]. destruct (context_complete x Hx) as [Hx1|]; [lia| |done]. specialize (Hctx x Hx1). lia.
Qed.
Lemma delta_put v b x :
  write_at (cr_operations r) key = Some (Put v b x) →
  (∃ o, Stats.storage_get storage key (s - 1) = Val o ∧ (is_Some o ↔ key ∈ stored (s - 1) h)) →
  Stats.write_to_delta key (Put v b x) open s (committed <$> hc) storage = Val (delta_of (stored (s - 1) h) (key, Put v b x)).
Proof.
  intros Hw (o & Hget & Ho'). destruct Hok as [Ho Hr _ Hp _ _ _]. specialize (Hp key v b x ltac:(lia) Hw).
  unfold Stats.write_to_delta, delta_of. cbn [fst snd].
  assert (∃ first rf hc', hc = (first, rf) :: hc') as (first & rf & hc' & Ehc).
  { clear -Hin. destruct hc as [|[first rf] hc']; [set_solver|by eauto]. }
  replace (head (committed <$> hc)) with (Some (committed (first, rf))) by (by rewrite Ehc).
  cbn [fmap option_fmap option_map unwrap mbind exec_bind committed fst]. rewrite range_committed by lia. cbn [mbind exec_bind].
  destruct (find_write_ok key _ concurrent_wf Hkey) as (w' & -> & Hw'). cbn [lift mbind exec_bind]. destruct w' as [w'|].
  - destruct Hw' as (l1 & y & l2 & Hf & Hy & Hn). assert (Hyin : y ∈ List.filter (between open s) hc) by (rewrite Hf; set_solver).
    apply elem_of_between in Hyin as [Hyc Hyb].
    assert (Hst : key ∈ stored (s - 1) h ↔ w' ≠ Delete).
    { apply (stored_after key ltac:(lia) h y w'); [done..|rewrite Hh; set_solver|lia|done|].
      intros z Hz Hlt. left. rewrite Forall_forall in Hn. apply Hn. apply (order_in_context y z l1 l2); [done..|lia]. }
    destruct w'; f_equal; case_decide; naive_solver.
  - destruct (Z.ltb_spec (SeqNr.next open) first) as [Hlt|Hge].
    + replace (SeqNr.previous s) with (s - 1) by (unfold SeqNr.previous; rewrite u64_id; unfold is_u64; lia).
      rewrite Hget. cbn [mbind exec_bind]. f_equal. case_decide as Hd; destruct o as [?|]; try done.
      * apply Ho' in Hd as [? [=]].
      * destruct Hd. apply Ho'. by eexists.
    + unfold SeqNr.next in Hge. rewrite u64_id in Hge by (unfold is_u64; lia). f_equal.
      assert (Hst : key ∈ stored (s - 1) h ↔ key ∈ stored open h).
      { apply stored_same; [lia|done|lia|]. intros y Hy Hlt. rewrite Forall_forall in Hw'. apply Hw'. apply elem_of_between.
        split; [|lia]. destruct (context_complete y Hy) as [Hy1|]; [lia| |done].
        rewrite Hh in Hord. apply in_order_app in Hord as (Hlt' & _).
        specialize (Hlt' y (first, rf) Hy1 ltac:(rewrite Ehc; set_solver)). cbn in Hlt'. lia. }
      rewrite (decide_ext _ _ _ _ Hst). destruct b; case_decide; naive_solver.
Qed.
Lemma delta_exact w :
  write_at (cr_operations r) key = Some w → (w = Delete → ∀ x, x ∈ h1 → x.1 ≤ open) →
  (∀ v b x, w = Put v b x → ∃ o, Stats.storage_get storage key (s - 1) = Val o ∧ (is_Some o ↔ key ∈ stored (s - 1) h)) →
  Stats.write_to_delta key w open s (committed <$> hc) storage = Val (delta_of (stored (s - 1) h) (key, w)).
Proof.
  intros Hw Hctx Hst. destruct w as [v|v b x|].
  - by rewrite (delta_insert v).
  - by apply delta_put, (Hst v b x).
  - apply delta_delete; auto.
Qed.
End delta.

(** ** Applying commits *)
Lemma update_keys_exact open s ctx storage l S st td :
  NoDup l.*1 → exact S st td → 0 ≤ total_count st < 2 ^ 62 → Z.of_nat (size S) + Z.of_nat (length l) < 2 ^ 62 →
  (∀ kw, kw ∈ l → Stats.write_to_delta kw.1 kw.2 open s ctx storage = Val (delta_of S kw)) →
  (∀ key, key ∈ l.*1 → decodes key) →
  (∀ key kt, (key, Delete) ∈ l → type_of_key key = Val (Some kt) →
     ∀ key' c, key' ∈ S ∨ key' ∈ l.*1 → counted c key' = true → mentions kt c = false) →
  ∃ st' td', Stats.update_keys l open s ctx storage st td = Val (st', td') ∧ frame st' = frame st ∧
    exact (apply_writes S l) st' td'.
Proof.
  revert S st td. induction l as [|[key w] l IH]; intros S st td Hnd Hex Ht Hsz Hd Hdec Htype.
  { by exists st, td. }
  csimpl in Hnd. apply NoDup_cons in Hnd as [Hk Hnd]. cbn [length] in Hsz.
  destruct (exact_write S st td key w) as (st1 & td1 & Hu & Hfr & Hex1); [done|apply Hdec; set_solver|done|lia| |].
  { intros kt -> Hkt key' c Hin. apply (Htype key kt); [set_solver|done|by left]. }
  assert (Ht1 : total_count st1 = total_count st) by (unfold frame in Hfr; congruence).
  destruct (IH (apply_write S (key, w)) st1 td1) as (st' & td' & Hrest & Hfr' & Hex').
  - done.
  - done.
  - by rewrite Ht1.
  - pose proof (size_write S (key, w)). lia.
  - intros kw Hin. rewrite (Hd kw) by set_solver. f_equal. unfold delta_of.
    assert (Hne : kw.1 ≠ key) by (intros <-; apply Hk, list_elem_of_fmap; eauto).
    destruct kw.2; by rewrite (decide_ext _ _ _ _ (elem_of_apply_write S (key, w) kw.1 Hne)).
  - intros key' Hin. apply Hdec. set_solver.
  - intros key1 kt Hin Hkt key' c Hor. apply (Htype key1 kt); [set_solver|done|].
    destruct Hor as [Hin'|]; [|set_solver]. destruct (decide (key' = key)) as [->|Hne]; [set_solver|].
    left. by apply (elem_of_apply_write S (key, w)) in Hin'.
  - exists st', td'. split; [|split; [congruence|done]]. cbn [Stats.update_keys].
    pose proof (Hd (key, w) ltac:(set_solver)) as Hd'. cbn [fst snd] in Hd'. rewrite Hd'. cbn [mbind exec_bind].
    rewrite Hu. cbn [lift mbind exec_bind]. done.
Qed.

Definition writes_count (h : history) : Z := Z.of_nat (sum_list_with (λ sr, length (writes_of (ops sr))) h).
Lemma size_writes S l : (size (apply_writes S l) ≤ size S + length l)%nat.
Proof.
  revert S. induction l as [|kw l IH]; intros S; cbn; [lia|]. fold (apply_writes (apply_write S kw) l).
  pose proof (size_write S kw). specialize (IH (apply_write S kw)). lia.
Qed.
Lemma size_stored n h : Z.of_nat (size (stored n h)) ≤ writes_count h.
Proof.
  unfold writes_count. induction h as [|sr h IH] using rev_ind; [done|]. rewrite stored_snoc, sum_list_with_app. cbn [sum_list_with].
  unfold apply_commit. case_match; [|lia]. pose proof (size_writes (stored n h) (writes_of (ops sr))). lia.
Qed.
Lemma stored_commit h s r :
  in_order h → (s, r) ∈ h → stored s h = apply_writes (stored (s - 1) h) (writes_of (cr_operations r)).
Proof.
  intros Hord Hin. induction h as [|x h IH] using rev_ind; [set_solver|]. apply in_order_app in Hord as (Hlt & Hord & _).
  rewrite !stored_snoc. apply elem_of_app in Hin as [Hin|<-%list_elem_of_singleton].
  - specialize (Hlt (s, r) x Hin ltac:(set_solver)). cbn in Hlt. rewrite !apply_commit_above by lia. auto.
  - rewrite apply_commit_below by (cbn; lia). rewrite apply_commit_above by (cbn; lia). unfold ops. cbn [snd]. f_equal.
    apply stored_gap; [lia|]. intros y Hy. specialize (Hlt y (s, r) Hy ltac:(set_solver)). cbn in Hlt. lia.
Qed.

Lemma writes_keyspace o key w : ob_wf o → (key, w) ∈ writes_of o → 0 ≤ key.1 < 10.
Proof.
  intros Hwf Hin. apply elem_of_writes in Hin as [H0 Hw]; [|done]. split; [done|]. unfold write_at, buffered in Hw.
  destruct (ob_write_buffers o !! Z.to_nat key.1) as [b|] eqn:E; [|done]. apply lookup_lt_Some in E.
  destruct Hwf as (Hlen & _). rewrite Hlen in E. unfold KEYSPACE_MAXIMUM_COUNT in E. lia.
Qed.

(** The storage holds what the history stored, for the keys that are put. *)
Definition storage_agrees (storage : Keyspaces) (h : history) : Prop := ∀ s r key v b x,
  (s, r) ∈ h → 0 ≤ key.1 → write_at (cr_operations r) key = Some (Put v b x) →
  ∃ o, Stats.storage_get storage key (s - 1) = Val o ∧ (is_Some o ↔ key ∈ stored (s - 1) h).
Definition deletes (r : CommitRecord) : Prop := ∃ key, 0 ≤ key.1 ∧ write_at (cr_operations r) key = Some Delete.

(** A history whose records are in order, describe what was done and are few
    enough for the counters. *)
Record history_ok (storage : Keyspaces) (h : history) : Prop := {
  ho_wf : all_wf h;
  ho_order : in_order h;
  ho_commits : ∀ s r, (s, r) ∈ h → commit_ok h s r;
  ho_storage : storage_agrees storage h;
  ho_count : 2 * writes_count h < 2 ^ 61;
}.

Section apply.
Context (storage : Keyspaces) (h : history) (Hok : history_ok storage h).

Lemma length_writes s r : (s, r) ∈ h → Z.of_nat (length (writes_of (cr_operations r))) ≤ writes_count h.
Proof.
  intros Hin. unfold writes_count. clear Hok. induction h as [|x h' IH]; [set_solver|]. cbn [sum_list_with].
  apply elem_of_cons in Hin as [<-|Hin]; [unfold ops; cbn; lia|]. specialize (IH Hin). lia.
Qed.
Lemma total_exact n st : exact (stored n h) st 0 → 0 ≤ total_count st < 2 ^ 60.
Proof.
  intros Hex. specialize (Hex Total). cbn in Hex. rewrite Z.add_0_r in Hex. rewrite Hex.
  pose proof (number_bounds Total (stored n h)). pose proof (size_stored n h). destruct Hok. lia.
Qed.

Lemma update_write_exact h1 hc h3 s r st :
  h = h1 ++ hc ++ h3 → (s, r) ∈ hc → (deletes r → ∀ x, x ∈ h1 → x.1 ≤ cr_open_sequence_number r) →
  exact (stored (s - 1) h) st 0 →
  ∃ st' td, Stats.update_write s (committed (s, r)).2 (committed <$> hc) storage st = Val (st', td) ∧
    frame st' = frame st ∧ exact (stored s h) st' td.
Proof.
  intros Hh Hin Hctx Hex. assert (Hsr : (s, r) ∈ h) by (rewrite Hh; set_solver).
  pose proof (total_exact _ _ Hex) as Ht. pose proof (size_stored (s - 1) h) as Hsz. pose proof (length_writes s r Hsr) as Hlen.
  destruct Hok as [Hwf Hord Hcs Hsto Hcount]. pose proof (Hcs s r Hsr) as Hco.
  assert (Hwr : ob_wf (cr_operations r)) by (unfold all_wf in Hwf; rewrite Forall_forall in Hwf; apply (Hwf (s, r) Hsr)).
  rewrite (stored_commit h s r) by done. unfold Stats.update_write. cbn [committed snd cw_operations cw_open_sequence_number].
  unfold ops. cbn [snd]. rewrite iterate_writes_of. cbn [lift mbind exec_bind].
  apply update_keys_exact; [by apply NoDup_writes|done|lia|lia| | |].
  - intros [key w] Hkw. cbn [fst snd]. pose proof (writes_keyspace _ _ _ Hwr Hkw) as Hk.
    apply elem_of_writes in Hkw as [_ Hkw]; [|done].
    apply (delta_exact h h1 hc h3); [done..| |].
    + intros ->. apply Hctx. exists key. split; [lia|done].
    + intros v b x ->. eapply Hsto; [done|lia|done].
  - apply (co_decodes _ _ _ Hco).
  - intros key kt Hkw Hkt. apply elem_of_writes in Hkw as [H0 Hkw]; [|done]. by eapply co_types.
Qed.

Definition last_number (n : Z) (l : history) : Z := default n (fst <$> last l).
Lemma last_number_cons n x l : last_number n (x :: l) = last_number x.1 l.
Proof.
  unfold last_number. rewrite last_cons. by destruct (last l).
Qed.

Lemma update_commits_exact h1 hc h3 don todo st :
  h = h1 ++ hc ++ h3 → hc = don ++ todo →
  (∀ s r, (s, r) ∈ todo → deletes r → ∀ x, x ∈ h1 → x.1 ≤ cr_open_sequence_number r) →
  (∀ x, x ∈ h1 ++ don → x.1 ≤ sequence_number st) → (∀ x, x ∈ todo → sequence_number st < x.1) →
  exact (stored (sequence_number st) h) st 0 →
  ∃ st', Stats.update_commits (committed <$> todo) (committed <$> hc) storage st = Val st' ∧
    sequence_number st' = last_number (sequence_number st) todo ∧ exact (stored (sequence_number st') h) st' 0 ∧
    last_durable_write_sequence_number st' = last_durable_write_sequence_number st.
Proof.
  intros Hh. revert don st. induction todo as [|[s r] todo IH]; intros don st Hhc Hctx Hdone Htodo Hex.
  { exists st. done. }
  assert (Hin : (s, r) ∈ hc) by (rewrite Hhc; set_solver). pose proof (ho_order _ _ Hok) as Hord.
  assert (Hgap : stored (s - 1) h = stored (sequence_number st) h).
  { apply stored_gap; [specialize (Htodo (s, r) ltac:(set_solver)); cbn in Htodo; lia|]. intros x Hx Hlt.
    rewrite Hh, Hhc, <-!app_assoc, app_assoc in Hx, Hord. cbn [app] in Hx, Hord. apply elem_of_app in Hx as [Hx|Hx].
    { specialize (Hdone x Hx). lia. }
    apply in_order_app in Hord as (_ & _ & Hord). apply elem_of_cons in Hx as [->|Hx]; [cbn in Hlt; lia|].
    apply StronglySorted_cons in Hord as [Hord _]. rewrite Forall_forall in Hord. specialize (Hord x Hx). unfold before in Hord.
    cbn in Hord. lia. }
  destruct (update_write_exact h1 hc h3 s r st) as (st1 & td & Hu & Hfr & Hex1); [done..| |by rewrite Hgap|].
  { apply (Hctx s r). set_solver. }
  assert (Htot : total_count st1 + td = number Total (stored s h)) by exact (Hex1 Total).
  pose proof (number_bounds Total (stored s h)) as Hnb. pose proof (size_stored s h) as Hsz. pose proof (ho_count _ _ Hok).
  set (st2 := set_sequence_number s (set_total_count (total_count st1 + td) st1)).
  destruct (IH (don ++ [(s, r)]) st2) as (st' & Hrest & Hseq & Hex' & Hld).
  - by rewrite <-app_assoc.
  - intros s' r' Hsr'. apply (Hctx s'). set_solver.
  - intros x Hx. cbn. rewrite app_assoc in Hx. apply elem_of_app in Hx as [Hx| ->%list_elem_of_singleton]; [|done].
    specialize (Hdone x Hx). specialize (Htodo (s, r) ltac:(set_solver)). cbn in Htodo. lia.
  - intros x Hx. cbn. rewrite Hh, Hhc in Hord. apply in_order_app in Hord as (_ & _ & Hord).
    apply in_order_app in Hord as (_ & Hord & _). apply in_order_app in Hord as (_ & _ & Hord).
    apply StronglySorted_cons in Hord as [Hord _]. rewrite Forall_forall in Hord. apply (Hord x Hx).
  - intros c. cbn [sequence_number st2 set_sequence_number]. rewrite <-(Hex1 c). by destruct c; cbn; rewrite ?Z.add_0_r.
  - exists st'. split_and!; [|by rewrite last_number_cons|done|].
    + change (committed <$> (s, r) :: todo) with ((s, (committed (s, r)).2) :: (committed <$> todo)).
      cbn [Stats.update_commits]. rewrite Hu. cbn [mbind exec_bind].
      rewrite add_signed_spec by lia. cbn [lift mbind exec_bind]. exact Hrest.
    + rewrite Hld. cbn. unfold frame in Hfr. congruence.
Qed.
End apply.

(** ** Applying what is left of a part of the history *)
Lemma split_at_number n (l : history) :
  in_order l → l = List.filter (λ x, x.1 <=? n) l ++ List.filter (λ x, n <? x.1) l.
Proof.
  induction 1 as [|x l Hl IH Hx]; [done|]. cbn. destruct (Z.leb_spec x.1 n), (Z.ltb_spec n x.1); try lia.
  - cbn. by f_equal.
  - replace (List.filter (λ x, x.1 <=? n) l) with (@nil (Z * CommitRecord)) in *; [cbn in *; by f_equal|].
    symmetry. clear IH. induction Hx as [|y l Hy _ IH]; [done|]. cbn. unfold before in Hy.
    rewrite (proj2 (Z.leb_gt _ _)) by lia. apply IH. by inversion_clear Hl.
Qed.
Lemma range_above {E} n (l : history) :
  bt_range (E:=E) (Included (n + 1)) Unbounded (committed <$> l) = Val (committed <$> List.filter (λ x, n <? x.1) l).
Proof.
  unfold bt_range. cbn [range_panics]. f_equal. induction l as [|x l IH]; [done|]. rewrite fmap_cons. cbn [List.filter]. rewrite IH.
  replace (above (Included (n + 1)) (committed x).1 && below Unbounded (committed x).1) with (n <? x.1); [by destruct (n <? x.1)|].
  cbn. rewrite andb_true_r. unfold leb, cmp, Z_ordered. destruct (Z.compare_spec (n + 1) x.1), (Z.ltb_spec n x.1); done || lia.
Qed.
Lemma last_number_bound n l : in_order l → (∀ x, x ∈ l → x.1 ≤ last_number n l) ∧ (l ≠ [] → ∃ x, x ∈ l ∧ x.1 = last_number n l).
Proof.
  intros Ho. unfold last_number. induction l as [|y l _] using rev_ind; [set_solver|]. rewrite last_snoc. cbn. split.
  - apply in_order_app in Ho as (Hlt & _). intros x [Hx| ->%list_elem_of_singleton]%elem_of_app; [|done].
    specialize (Hlt x y Hx ltac:(set_solver)). lia.
  - intros _. exists y. set_solver.
Qed.

Section settle.
Context (storage : Keyspaces) (h : history) (Hok : history_ok storage h).
Lemma update_writes_exact h1 hc h3 st :
  h = h1 ++ hc ++ h3 → 0 ≤ sequence_number st < 2 ^ 62 → (∀ x, x ∈ h1 → x.1 ≤ sequence_number st) →
  (∀ s r, (s, r) ∈ hc → sequence_number st < s → deletes r → ∀ x, x ∈ h1 → x.1 ≤ cr_open_sequence_number r) →
  exact (stored (sequence_number st) h) st 0 →
  ∃ st', Stats.update_writes (committed <$> hc) storage st = Val st' ∧
    sequence_number st' = Z.max (sequence_number st) (last_number (sequence_number st) hc) ∧
    exact (stored (sequence_number st') h) st' 0 ∧
    last_durable_write_sequence_number st' = last_durable_write_sequence_number st.
Proof.
  intros Hh Hseq Hh1 Hctx Hex. set (n := sequence_number st) in *.
  assert (Hord : in_order hc).
  { pose proof (ho_order _ _ Hok) as Hord. rewrite Hh in Hord. apply in_order_app in Hord as (_ & _ & Hord). by apply in_order_app in Hord as (_ & ? & _). }
  pose proof (split_at_number n hc Hord) as Hsplit. set (don := List.filter (λ x, x.1 <=? n) hc) in *. set (todo := List.filter (λ x, n <? x.1) hc) in *.
  assert (Htodo : ∀ x, x ∈ todo → x ∈ hc ∧ n < x.1).
  { intros x Hx. apply list_elem_of_In, List.filter_In in Hx as [Hx Hlt]. split; [by apply list_elem_of_In|lia]. }
  assert (Hdon : ∀ x, x ∈ don → x.1 ≤ n).
  { intros x Hx. apply list_elem_of_In, List.filter_In in Hx as [Hx Hlt]. lia. }
  destruct (update_commits_exact storage h Hok h1 hc h3 don todo st) as (st' & Hu & Hs & Hex' & Hld); [done..| | | |done|].
  - intros s r Hin. destruct (Htodo _ Hin). by apply (Hctx s).
  - intros x [Hx|Hx]%elem_of_app; auto.
  - intros x Hx. by apply Htodo.
  - exists st'. split_and!; [| |done|done].
    + unfold Stats.update_writes. unfold SeqNr.next. rewrite u64_id by (unfold is_u64; lia). rewrite range_above. exact Hu.
    + rewrite Hs. fold n. replace (last_number n hc) with (last_number n (don ++ todo)) by (by rewrite <-Hsplit). clearbody todo don. destruct (decide (todo = [])) as [->|Hne].
      * rewrite app_nil_r in *. unfold last_number at 1. cbn. destruct (decide (don = [])) as [->|Hne]; [cbn; lia|].
        destruct (last_number_bound n don) as [_ Hl].
        { by rewrite <-Hsplit. }
        destruct (Hl Hne) as (x & Hx & <-). specialize (Hdon x Hx). lia.
      * destruct (last_number_bound n todo) as [_ Hl].
        { rewrite Hsplit in Hord. by apply in_order_app in Hord as (_ & _ & ?). }
        destruct (Hl Hne) as (x & Hx & Hxl). destruct (Htodo x Hx). rewrite <-Hxl.
        assert (last_number n (don ++ todo) = last_number n todo) as ->.
        { unfold last_number. destruct todo as [|y todo'] using rev_ind; [done|]. by rewrite app_assoc, !last_snoc. }
        rewrite <-Hxl. lia.
Qed.
End settle.
