(* ===== verification/StatisticsClaims.v ===== *)
(** * Synchronising statistics: theorems

    What [may_synchronise] of [concept/thing/statistics.rs] makes of the
    statistics when it reads the commit records of the log. *)
From stdpp Require Import gmap sets sorting.
From S2P Require Import Prelude BTree Bytes MemoryStore Buffer LendingIter Mvcc Keyspaces Snapshot Dependency Timeline Isolation Storage Recovery Layout Values Structs Attributes Things Edges ThingManager Pattern TypeEdges Statistics StatisticsCounts StatisticsHistory.
#[local] Open Scope Z_scope.

(** The commits that are decided before the first one that is not. *)
Fixpoint settled (loaded : list (Z * RecoveryCommitStatus)) : history :=
  match loaded with
  | [] | (_, RecoveryPending _) :: _ => []
  | (_, RecoveryRejected) :: loaded => settled loaded
  | (s, RecoveryValidated r) :: loaded => (s, r) :: settled loaded
  end.
(** Schema transactions run alone. *)
Definition schema_alone (h : history) : Prop := ∀ q rq s r,
  (q, rq) ∈ h → (s, r) ∈ h → cr_commit_type rq = CommitSchema →
  (q < s → q ≤ cr_open_sequence_number r) ∧ (s < q → s ≤ cr_open_sequence_number rq).
(** Transactions that delete and are not counted yet were open when the commits
    read as context began. *)
Definition context_reaches (start n : Z) (h : history) : Prop := ∀ s r,
  (s, r) ∈ h → n < s → deletes r → start ≤ cr_open_sequence_number r + 1.

Section sync.
Context {D DErr BErr : Type} (write_statistics : Statistics → D → exec DErr unit * D).
Context (Hwrite : ∀ s d, ∃ d', write_statistics s d = (Val (), d')).
Context (storage : Keyspaces) (h : history) (Hok : history_ok storage h) (Halone : schema_alone h) (start : Z).
Abbreviation sync := (Stats.sync_loop (BErr:=BErr) write_statistics).

(** The state of the loop: the history is cut into the commits that are
    counted, the data commits read since, and those to be read. *)
Record sync_inv (h1 hc rest : history) (st : Statistics) : Prop := {
  si_history : h = h1 ++ hc ++ rest;
  si_seq : 0 ≤ last_durable_write_sequence_number st ≤ sequence_number st;
  si_range : sequence_number st < 2 ^ 62;
  si_exact : exact (stored (sequence_number st) h) st 0;
  si_counted : ∀ x, x ∈ h1 → x.1 ≤ sequence_number st;
  si_cover : ∀ x, x ∈ h1 → x.1 < start ∨ ∃ q rq, (q, rq) ∈ h1 ∧ cr_commit_type rq = CommitSchema ∧ x.1 ≤ q;
  si_context : context_reaches start (sequence_number st) h;
}.

Lemma inv_before h1 hc rest st x y : sync_inv h1 hc rest st → x ∈ h1 → y ∈ hc ++ rest → x.1 < y.1.
Proof. intros Hi. pose proof (ho_order _ _ Hok) as Ho. rewrite (si_history _ _ _ _ Hi) in Ho. apply in_order_app in Ho as (Ho & _). auto. Qed.
Lemma inv_context h1 hc rest st s r x :
  sync_inv h1 hc rest st → (s, r) ∈ hc ++ rest → sequence_number st < s → deletes r → x ∈ h1 → x.1 ≤ cr_open_sequence_number r.
Proof.
  intros Hi Hin Hs Hd Hx. pose proof (si_history _ _ _ _ Hi) as Hh. assert (Hsr : (s, r) ∈ h) by (rewrite Hh; set_solver).
  destruct (si_cover _ _ _ _ Hi x Hx) as [Hlt|(q & rq & Hq & Hty & Hle)].
  - pose proof (si_context _ _ _ _ Hi s r Hsr Hs Hd). lia.
  - pose proof (inv_before _ _ _ _ (q, rq) (s, r) Hi Hq Hin) as Hqs. cbn in Hqs.
    destruct (Halone q rq s r) as [Hal _]; [rewrite Hh; set_solver|done..|]. specialize (Hal Hqs). lia.
Qed.
Lemma inv_last h1 hc rest st n : sync_inv h1 hc rest st → last_number n hc < 2 ^ 62 ∨ hc = [].
Proof.
  intros Hi. destruct (decide (hc = [])) as [->|Hne]; [by right|left]. pose proof (ho_order _ _ Hok) as Ho.
  pose proof (si_history _ _ _ _ Hi) as Hh. rewrite Hh in Ho. apply in_order_app in Ho as (_ & _ & Ho). apply in_order_app in Ho as (_ & Ho & _).
  destruct (last_number_bound n hc Ho) as [_ Hl]. destruct (Hl Hne) as ([s r] & Hx & <-). cbn.
  apply (co_range h s r), (ho_commits _ _ Hok). rewrite Hh. set_solver.
Qed.

(** Applying the data commits that were read. *)
Lemma flush h1 hc rest st :
  sync_inv h1 hc rest st →
  ∃ st', Stats.update_writes (committed <$> hc) storage st = Val st' ∧
    sequence_number st' = Z.max (sequence_number st) (last_number (sequence_number st) hc) ∧
    last_durable_write_sequence_number st' = last_durable_write_sequence_number st ∧
    sync_inv h1 hc rest st' ∧ ∀ x, x ∈ hc → x.1 ≤ sequence_number st'.
Proof.
  intros Hi. pose proof Hi as [Hh Hseq Hr Hex Hc Hcov Hctx].
  destruct (update_writes_exact storage h Hok h1 hc rest st) as (st' & Hu & Hs & Hex' & Hld); [done|lia|done| |done|].
  { intros s r Hin Hlt Hd x Hx. apply (inv_context h1 hc rest st s r x); [done|set_solver|done..]. }
  assert (Hlast : ∀ x, x ∈ hc → x.1 ≤ sequence_number st').
  { intros x Hx. pose proof (ho_order _ _ Hok) as Ho. rewrite Hh in Ho. apply in_order_app in Ho as (_ & _ & Ho).
    apply in_order_app in Ho as (_ & Ho & _). destruct (last_number_bound (sequence_number st) hc Ho) as [Hl _].
    specialize (Hl x Hx). lia. }
  exists st'. split_and!; [done..| |done]. split; [done|lia| |done| |done|].
  - rewrite Hs. destruct (inv_last _ _ _ _ (sequence_number st) Hi) as [| ->]; [lia|cbn; lia].
  - intros x Hx. specialize (Hc x Hx). lia.
  - intros s r Hin Hlt. apply (Hctx s r Hin). lia.
Qed.
Lemma durably_write_ok st d : ∃ d', Stats.durably_write (BErr:=BErr) write_statistics st d =
  (Val (set_last_durable_write_total_count (total_count st) (set_last_durable_write_sequence_number (sequence_number st) st)), d').
Proof. unfold Stats.durably_write. destruct (Hwrite st d) as [d' ->]. by exists d'. Qed.
Lemma inv_written h1 hc rest st : sync_inv h1 hc rest st →
  sync_inv h1 hc rest (set_last_durable_write_total_count (total_count st) (set_last_durable_write_sequence_number (sequence_number st) st)).
Proof. intros [Hh Hseq Hr Hex Hc Hcov Hctx]. split; [done|cbn; lia|done| |done..].
  intros c. etransitivity; [|exact (Hex c)]. by destruct c.
Qed.

(** Everything up to a schema commit that is counted. *)
Lemma inv_schema h1 hc q rq rest st :
  sync_inv h1 hc ((q, rq) :: rest) st → cr_commit_type rq = CommitSchema → q ≤ sequence_number st →
  sync_inv (h1 ++ hc ++ [(q, rq)]) [] rest st.
Proof.
  intros Hi Hty Hq. pose proof Hi as [Hh Hseq Hr Hex Hc Hcov Hctx].
  assert (Hle : ∀ x, x ∈ h1 ++ hc ++ [(q, rq)] → x.1 ≤ q).
  { pose proof (ho_order _ _ Hok) as Ho. rewrite Hh, app_assoc in Ho. apply in_order_app in Ho as (Ho & _). intros x Hx.
    rewrite app_assoc in Hx. apply elem_of_app in Hx as [Hx| ->%list_elem_of_singleton]; [|done].
    specialize (Ho x (q, rq) Hx ltac:(set_solver)). cbn in Ho. lia. }
  split; [|done..| | |done].
  - cbn [app]. rewrite <-!app_assoc. exact Hh.
  - intros x Hx. specialize (Hle x Hx). lia.
  - intros x Hx. right. exists q, rq. split_and!; [set_solver|done|by apply Hle].
Qed.
Lemma apply_schema_ok h1 hc q rq rest st d :
  sync_inv h1 hc ((q, rq) :: rest) st → cr_commit_type rq = CommitSchema → sequence_number st < q →
  ∃ st' d', Stats.apply_schema_commit (BErr:=BErr) write_statistics q (committed (q, rq)).2 (committed <$> hc) storage st d = (Val st', d') ∧
    sequence_number st' = q ∧ sync_inv (h1 ++ hc ++ [(q, rq)]) [] rest st'.
Proof.
  intros Hi Hty Hq.
  assert (Hmid : ∃ st1 d1, (if SeqNr.next (last_durable_write_sequence_number st) <? q then
      match map_err Stats.DataRead (Stats.update_writes (committed <$> hc) storage st) with
      | Val s => Stats.durably_write (BErr:=BErr) write_statistics s d
      | Err e => (Err e, d)
      | Panic => (Panic, d)
      end else (Val st, d)) = (Val st1, d1) ∧ sync_inv h1 hc ((q, rq) :: rest) st1 ∧
      (∀ x, x ∈ hc → x.1 ≤ sequence_number st1) ∧ sequence_number st1 < q).
  { assert (Hbelow : ∀ x, x ∈ hc → x.1 < q).
    { pose proof (ho_order _ _ Hok) as Ho. rewrite (si_history _ _ _ _ Hi) in Ho. apply in_order_app in Ho as (_ & _ & Ho).
      apply in_order_app in Ho as (Ho & _). intros x Hx. apply (Ho x (q, rq)); set_solver. }
    unfold SeqNr.next. rewrite u64_id by (unfold is_u64; destruct Hi; lia).
    destruct (Z.ltb_spec (last_durable_write_sequence_number st + 1) q).
    - destruct (flush _ _ _ _ Hi) as (st1 & -> & Hs & _ & Hi1 & Hle). cbn [map_err].
      destruct (durably_write_ok st1 d) as [d1 ->]. eexists _, d1. split; [done|]. split; [by apply inv_written|].
      split; [done|]. cbn. rewrite Hs. destruct (decide (hc = [])) as [->|Hne]; [cbn; lia|].
      destruct (last_number_bound (sequence_number st) hc) as [_ Hl].
      { pose proof (ho_order _ _ Hok) as Ho. rewrite (si_history _ _ _ _ Hi) in Ho. apply in_order_app in Ho as (_ & _ & Ho).
        by apply in_order_app in Ho as (_ & ? & _). }
      destruct (Hl Hne) as (x & Hx & <-). specialize (Hbelow x Hx). lia.
    - exists st, d. split_and!; [done..| |done]. intros x Hx. specialize (Hbelow x Hx). destruct Hi. lia. }
  destruct Hmid as (st1 & d1 & Hfl & Hi1 & Hle & Hlt).
  pose proof Hi1 as [Hh Hseq Hr Hex Hc Hcov Hctx].
  assert (Hqh : (q, rq) ∈ h) by (rewrite Hh; set_solver).
  destruct (update_writes_exact storage h Hok (h1 ++ hc) [(q, rq)] rest st1) as (st2 & Hu & Hs & Hex2 & Hld);
    [by rewrite <-app_assoc|lia| | |done|].
  { intros x [?|?]%elem_of_app; auto. }
  { intros s r [= -> ->]%list_elem_of_singleton _ _ [s' r'] Hx.
    destruct (Halone q rq s' r') as [_ Hal]; [done|rewrite Hh; set_solver|done|]. apply Hal.
    apply elem_of_app in Hx as [Hx|Hx]; [specialize (Hc _ Hx)|specialize (Hle _ Hx)]; cbn in *; lia. }
  cbn in Hs. exists st2, d1. assert (Hs2 : sequence_number st2 = q) by lia. split_and!; [|done|].
  - unfold Stats.apply_schema_commit. rewrite Hfl. change [(q, (committed (q, rq)).2)] with (committed <$> [(q, rq)]).
    by rewrite Hu.
  - apply inv_schema; [|done|lia]. split; [done|lia| |done| |done|].
    + rewrite Hs2. by apply (co_range h q rq), (ho_commits _ _ Hok).
    + intros x Hx. specialize (Hc x Hx). lia.
    + intros s r Hin Hlt'. apply (Hctx s r Hin). lia.
Qed.

Lemma sync_loop_ok loaded h1 hc st d :
  sync_inv h1 hc (settled loaded) st →
  ∃ st' h1' hc' d', sync loaded (committed <$> hc) storage st d = (Val (st', committed <$> hc'), d') ∧
    sync_inv h1' hc' [] st' ∧ sequence_number st ≤ sequence_number st' ∧
    (sequence_number st' = sequence_number st ∨ ∃ x, x ∈ h ∧ x.1 = sequence_number st').
Proof.
  revert h1 hc st d. induction loaded as [|[s [r|r|]] loaded IH]; intros h1 hc st d Hi; cbn [settled Stats.sync_loop] in *.
  - exists st, h1, hc, d. split_and!; [done..|lia|by left].
  - exists st, h1, hc, d. split_and!; [done..|lia|by left].
  - destruct (cr_commit_type r) eqn:Ety.
    + rewrite bt_insert_max.
      * change [(s, mk_CommittedWrites (cr_open_sequence_number r) (cr_operations r))] with (committed <$> [(s, r)]).
        rewrite <-fmap_app. apply (IH h1 (hc ++ [(s, r)])). destruct Hi as [Hh ? ? ? ? ? ?]. split; [|done..].
        by rewrite <-app_assoc.
      * pose proof (ho_order _ _ Hok) as Ho. rewrite (si_history _ _ _ _ Hi) in Ho. apply in_order_app in Ho as (_ & _ & Ho).
        apply in_order_app in Ho as (Ho & _). apply Forall_fmap, Forall_forall. intros x Hx.
        apply Z.compare_lt_iff, (Ho x (s, r)); set_solver.
    + destruct (Z.ltb_spec (sequence_number st) s) as [Hlt|Hge].
      * destruct (apply_schema_ok h1 hc s r (settled loaded) st d Hi Ety Hlt) as (st1 & d1 & Ha & Hs & Hi1).
        cbn [committed snd] in Ha. unfold ops in Ha. cbn [snd] in Ha. rewrite Ha.
        destruct (IH _ [] st1 d1 Hi1) as (st' & h1' & hc' & d' & Hl & Hi' & Hle & Hor). exists st', h1', hc', d'.
        split_and!; [done..|lia|]. right. destruct Hor as [Heq|]; [|done]. exists (s, r). cbn. split; [|lia].
        rewrite (si_history _ _ _ _ Hi). set_solver.
      * apply (IH (h1 ++ hc ++ [(s, r)]) [] st d). by apply inv_schema.
  - apply (IH h1 hc st d Hi).
Qed.
End sync.

Lemma last_number_max h n n' :
  in_order h → n ≤ n' → (∀ x, x ∈ h → x.1 ≤ n') → n' = n ∨ (∃ x, x ∈ h ∧ x.1 = n') → n' = Z.max n (last_number n h).
Proof.
  intros Ho Hn Hle Hor. destruct (last_number_bound n h Ho) as [Hb Hl]. destruct (decide (h = [])) as [->|Hne].
  { destruct Hor as [->|(x & Hx & _)]; [cbn; lia|set_solver]. }
  destruct (Hl Hne) as (y & Hy & Hyl). specialize (Hle y Hy). destruct Hor as [->|(x & Hx & <-)]; [lia|]. specialize (Hb x Hx). lia.
Qed.

(** C24: synchronised statistics count what is stored. Assume: well-formed
    records in order whose keys decode; inserted keys are new, also among
    concurrent commits; deleted keys were seen; puts know if they saw the key;
    no key comes back while a transaction deleting it is open; types are
    deleted without instances; under 2^60 writes, numbers below 2^62; just
    before each put the storage has its key exactly if the history does; schema
    transactions run alone; the load from the log gives the history from eight
    before the statistics' number to the first undecided commit; uncounted
    transactions that delete were open no longer; writing statistics succeeds;
    0 <= last durable write <= statistics' number, true after new and kept, but
    not by reset (lemma reset_skips_commits). Then synchronising exact
    statistics succeeds, leaves them at the last decided commit (unchanged if
    at the watermark), and the total and each entry of the tables by type is
    the number of stored keys it counts there. *)
Theorem statistics_count_what_is_stored {D DErr BErr : Type} `{Durability D DErr} (codec : Codec BErr)
    (iter_from : D → Z → exec DErr (list (RawRecord + DErr))) (write_statistics : Statistics → D → exec DErr unit * D)
    (storage : Storage D) (st : Statistics) (loaded : list (Z * RecoveryCommitStatus)) (old : history) :
  let h := old ++ settled loaded in
  (∀ s d, ∃ d', write_statistics s d = (Val (), d')) →
  Recovery.load_commit_data_from codec (Stats.load_start st) (iter_from (st_durability storage)) Recovery.usize_max = Val loaded →
  (∀ x, x ∈ old → x.1 < Stats.load_start st) →
  history_ok (st_keyspaces storage) h → schema_alone h → context_reaches (Stats.load_start st) (sequence_number st) h →
  0 ≤ last_durable_write_sequence_number st ≤ sequence_number st → sequence_number st < 2 ^ 62 →
  exact (stored (sequence_number st) h) st 0 →
  ∃ st' d', Stats.may_synchronise codec iter_from write_statistics storage st = (Val st', d') ∧
    exact (stored (sequence_number st') h) st' 0 ∧
    0 ≤ last_durable_write_sequence_number st' ≤ sequence_number st' ∧
    sequence_number st' = if decide (sequence_number st = Engine.snapshot_watermark storage) then sequence_number st
                          else Z.max (sequence_number st) (last_number (sequence_number st) h).
Proof.
  intros h Hwrite Hload Hold Hok Halone Hctx Hld Hr Hex. unfold Stats.may_synchronise.
  destruct (Z.eqb_spec (sequence_number st) (Engine.snapshot_watermark storage)) as [Heq|Hne].
  { exists st, (st_durability storage). rewrite decide_True by done. done. }
  rewrite decide_False by done. rewrite Hload.
  assert (Hi : sync_inv h (Stats.load_start st) old [] (settled loaded) st).
  { split; [done..| | |done]; intros x Hx; specialize (Hold x Hx); [unfold Stats.load_start, Stats.COMMIT_CONTEXT_SIZE in Hold; lia|by left]. }
  destruct (sync_loop_ok write_statistics Hwrite (st_keyspaces storage) h Hok Halone _ (BErr:=BErr) loaded old [] st (st_durability storage) Hi)
    as (st1 & h1 & hc & d1 & Hloop & Hi1 & Hle1 & Hor1). cbn [fmap list_fmap] in Hloop. rewrite Hloop.
  destruct (flush write_statistics Hwrite (st_keyspaces storage) h Hok Halone _ h1 hc [] st1 Hi1) as (st2 & -> & Hs2 & _ & Hi2 & Hle2). cbn [map_err].
  assert (Hnum : sequence_number st2 = Z.max (sequence_number st) (last_number (sequence_number st) h)).
  { apply last_number_max; [by apply (ho_order _ _ Hok)|lia| |].
    - intros x Hx. pose proof (si_history _ _ _ _ _ _ Hi1) as Hh. rewrite Hh, app_nil_r in Hx.
      apply elem_of_app in Hx as [Hx|Hx]; [by apply (si_counted _ _ _ _ _ _ Hi2)|by apply Hle2].
    - destruct (Z.max_spec (sequence_number st1) (last_number (sequence_number st1) hc)) as [[Hlt Hm]|[_ Hm]]; rewrite Hs2, Hm; [|done].
      right. destruct (decide (hc = [])) as [->|Hnil]; [cbn in Hlt; lia|]. pose proof (ho_order _ _ Hok) as Ho.
      pose proof (si_history _ _ _ _ _ _ Hi1) as Hh. rewrite Hh in Ho. apply in_order_app in Ho as (_ & _ & Ho). rewrite app_nil_r in Ho.
      destruct (last_number_bound (sequence_number st1) hc Ho) as [_ Hl]. destruct (Hl Hnil) as (x & Hx & Hxl). exists x. rewrite Hh. set_solver. }
  destruct Hi2 as [_ Hseq2 _ Hex2 _ _ _].
  destruct (Stats.needs_durable_write st2); [|by exists st2, d1].
  destruct (durably_write_ok write_statistics Hwrite (BErr:=BErr) st2 d1) as [d2 ->]. eexists _, d2. split; [done|]. cbn. split_and!; [|lia|lia|done].
  intros c. etransitivity; [|exact (Hex2 c)]. by destruct c.
Qed.

(** ** Tables that hold the same counts *)
Lemma tables_agree_frame s s' : (∀ c, c ≠ Total → count_of c s' 0 = count_of c s 0) → tables_agree s → tables_agree s'.
Proof. intros Hs [Hh Hp Hi Ht]. split; intros; rewrite !Hs by done; auto. Qed.
Ltac same_tables := apply tables_agree_frame; intros []; done.

Section tables.
Context {D DErr BErr : Type} `{Durability D DErr} (codec : Codec BErr).
Context (iter_from : D → Z → exec DErr (list (RawRecord + DErr))) (write_statistics : Statistics → D → exec DErr unit * D).
Implicit Types (s : Statistics).

Lemma write_to_delta_range key w open commit commits storage d :
  Stats.write_to_delta key w open commit commits storage = Val d → -1 ≤ d ≤ 1.
Proof.
  unfold Stats.write_to_delta. destruct w as [v|v b x|]; intros Hd; [injection Hd; lia| |].
  - do 3 bind_inv. destruct a1 as [[]|]; [injection Hd; lia..|]. destruct (_ <? _); [bind_inv|].
    + injection Hd as <-. destruct a1; lia.
    + injection Hd as <-. destruct b; lia.
  - do 2 bind_inv. injection Hd as <-. destruct a0; lia.
Qed.
Lemma tables_agree_keys l open commit commits storage s td s' td' :
  Stats.update_keys l open commit commits storage s td = Val (s', td') → tables_agree s → tables_agree s'.
Proof.
  revert s td. induction l as [|[key w] l IH]; intros s td; cbn [Stats.update_keys]; [by intros [= -> ->]|].
  intros Hu Hs. bind_inv. destruct (Stats.update_key _ _ _ _ _ _) as [[s1 td1]| |] eqn:Ek; cbn in Hu; [|done..].
  apply (IH s1 td1 Hu). eapply tables_agree_key; [exact Ek| |done].
  match goal with E : Stats.write_to_delta _ _ _ _ _ _ = Val _ |- _ => apply write_to_delta_range in E end. unfold is_i64. lia.
Qed.
Lemma tables_agree_commits todo commits storage s s' :
  Stats.update_commits todo commits storage s = Val s' → tables_agree s → tables_agree s'.
Proof.
  revert s. induction todo as [|[n w] todo IH]; intros s; cbn [Stats.update_commits]; [by intros [= ->]|].
  intros Hu Hs. destruct (Stats.update_write n w commits storage s) as [[s1 d]| |] eqn:E; cbn [mbind exec_bind] in Hu; [|done..].
  bind_inv. apply (IH _ Hu). unfold Stats.update_write in E. bind_inv. apply tables_agree_keys in E; [|done]. revert E. same_tables.
Qed.
Lemma tables_agree_writes commits storage s s' :
  Stats.update_writes commits storage s = Val s' → tables_agree s → tables_agree s'.
Proof. unfold Stats.update_writes. intros Hu. bind_inv. by apply (tables_agree_commits _ _ _ _ _ Hu). Qed.
Lemma tables_agree_durably s d s' d' :
  Stats.durably_write (BErr:=BErr) write_statistics s d = (Val s', d') → tables_agree s → tables_agree s'.
Proof. unfold Stats.durably_write. destruct (write_statistics s d) as [[] ?]; [|done..]. intros [= <- _]. same_tables. Qed.
Lemma tables_agree_schema n w commits storage s d s' d' :
  Stats.apply_schema_commit (BErr:=BErr) write_statistics n w commits storage s d = (Val s', d') → tables_agree s → tables_agree s'.
Proof.
  unfold Stats.apply_schema_commit. intros Hu Hs.
  assert (Hlast : ∀ s1, tables_agree s1 → map_err (E':=Stats.StatisticsError (DErr:=DErr) (BErr:=BErr)) Stats.DataRead
    (Stats.update_writes [(n, w)] storage s1) = Val s' → tables_agree s').
  { intros s1 Hs1 Hm. destruct (Stats.update_writes _ storage s1) eqn:E; [|done..]. injection Hm as <-. by eapply tables_agree_writes. }
  destruct (SeqNr.next _ <? n).
  - destruct (Stats.update_writes commits storage s) as [s1| |] eqn:E1; cbn [map_err] in Hu; [|done..].
    destruct (Stats.durably_write _ s1 d) as [[s2| |] d2] eqn:E2; [|done..]. injection Hu as Hu _.
    eapply Hlast; [|exact Hu]. eapply tables_agree_durably; [exact E2|]. by eapply tables_agree_writes.
  - injection Hu as Hu _. by eapply Hlast.
Qed.
Lemma tables_agree_loop loaded commits storage s d s' rest d' :
  Stats.sync_loop (BErr:=BErr) write_statistics loaded commits storage s d = (Val (s', rest), d') → tables_agree s → tables_agree s'.
Proof.
  revert commits s d. induction loaded as [|[n [r|r|]] loaded IH]; intros commits s d; cbn [Stats.sync_loop].
  - by intros [= -> -> ->].
  - by intros [= -> -> ->].
  - destruct (cr_commit_type r); [apply IH|]. destruct (sequence_number s <? n); [|apply IH].
    destruct (Stats.apply_schema_commit _ _ _ _ _ _ _) as [[s1| |] d1] eqn:E; [|done..]. intros Hl Hs.
    eapply IH; [exact Hl|]. by eapply tables_agree_schema.
  - apply IH.
Qed.
End tables.

(** C25: the tables that hold the same counts agree, whatever is applied.  New
    statistics, and statistics after a reset or after a synchronisation with any
    log, have the same counts of attributes by owner as of owners by attribute,
    and of players by relation as of relations by player; the counts of pairs of
    players are symmetric; the number of things is the sum of those of entities,
    relations and attributes.  Deleting types keeps this so. *)
Theorem statistics_tables_agree {D DErr BErr : Type} `{Durability D DErr} (codec : Codec BErr)
    (iter_from : D → Z → exec DErr (list (RawRecord + DErr))) (write_statistics : Statistics → D → exec DErr unit * D)
    (storage : Storage D) (st st' : Statistics) (n : Z) (d' : D) :
  tables_agree (Stats.new n) ∧
  (tables_agree st → tables_agree (Stats.reset n st)) ∧
  (Stats.may_synchronise codec iter_from write_statistics storage st = (Val st', d') → tables_agree st → tables_agree st').
Proof.
  split_and!; [by split| |].
  - intros [Hh Hp Hi Ht]. by split.
  - unfold Stats.may_synchronise. case_match; [by intros [= -> _]|]. destruct (Recovery.load_commit_data_from _ _ _ _); [|done..].
    destruct (Stats.sync_loop _ _ _ _ _ _) as [[[s1 rest]| |] d1] eqn:E1; [|done..].
    destruct (Stats.update_writes rest _ s1) as [s2| |] eqn:E2; cbn [map_err]; [|done..]. intros Hu Hs.
    assert (tables_agree s2) by (eapply tables_agree_writes; [exact E2|]; by eapply tables_agree_loop).
    destruct (Stats.needs_durable_write s2); [by eapply tables_agree_durably|]. by injection Hu as <- _.
Qed.

(** ** Deletes that the context misses *)
Lemma sync_loop_data {D DErr BErr : Type} (write_statistics : Statistics → D → exec DErr unit * D) loaded hc storage st d :
  in_order (hc ++ settled loaded) → (∀ x, x ∈ settled loaded → cr_commit_type x.2 = CommitData) →
  Stats.sync_loop (BErr:=BErr) write_statistics loaded (committed <$> hc) storage st d =
  (Val (st, committed <$> (hc ++ settled loaded)), d).
Proof.
  revert hc. induction loaded as [|[s [r|r|]] loaded IH]; intros hc Ho Hd; cbn [settled Stats.sync_loop] in *.
  - by rewrite app_nil_r.
  - by rewrite app_nil_r.
  - pose proof (Hd (s, r) ltac:(set_solver)) as Hty. cbn in Hty. rewrite Hty, bt_insert_max.
    + change [(s, mk_CommittedWrites (cr_open_sequence_number r) (cr_operations r))] with (committed <$> [(s, r)]).
      rewrite <-fmap_app, IH; [by rewrite <-app_assoc|by rewrite <-app_assoc|]. intros x Hx. apply Hd. set_solver.
    + apply in_order_app in Ho as (Ho & _). apply Forall_fmap, Forall_forall. intros x Hx.
      apply Z.compare_lt_iff, (Ho x (s, r)); set_solver.
  - by apply IH.
Qed.

Lemma missed_delete storage (hc : history) key open s :
  all_wf hc → 0 ≤ key.1 < 10 → open < s → (∀ x, x ∈ hc → open < x.1 < s → write_at (ops x) key ≠ Some Delete) →
  Stats.write_to_delta key Delete open s (committed <$> hc) storage = Val (-1).
Proof.
  intros Hwf Hkey Ho Hn. unfold Stats.write_to_delta. rewrite range_committed by done. cbn [mbind exec_bind].
  destruct (any_deletes_ok key (List.filter (between open s) hc)) as (b & -> & Hb); [|done|].
  { apply (all_wf_sub hc); [done|]. by intros x [? _]%elem_of_between. }
  destruct b; [|done]. destruct (proj1 Hb eq_refl) as (x & [Hx Hlt]%elem_of_between & Hd). by destruct (Hn x Hx Hlt).
Qed.
Lemma count_below_zero ks bs v t st td :
  ObjVertex.is_entity_vertex ks bs = true → ObjVertex.decode bs = Val v → entity_type v = Val t → at1 (entity_counts st) t = 0 →
  Stats.update_key ks bs Delete (-1) st td = Panic.
Proof.
  intros He Hd Ht H0. unfold Stats.update_key. rewrite He, Hd. cbn [mbind exec_bind]. rewrite Ht. cbn [mbind exec_bind].
  unfold Stats.update_entities, add_to. unfold at1 in H0. by rewrite H0.
Qed.
Lemma late_delete_update storage st (context : history) s r key v t :
  in_order (context ++ [(s, r)]) → all_wf (context ++ [(s, r)]) → (∀ x, x ∈ context → x.1 ≤ sequence_number st) →
  0 ≤ sequence_number st < s → s < 2 ^ 62 → cr_open_sequence_number r < s → writes_of (cr_operations r) = [(key, Delete)] →
  (∀ x, x ∈ context → cr_open_sequence_number r < x.1 → write_at (ops x) key ≠ Some Delete) →
  ObjVertex.is_entity_vertex key.1 key.2 = true → ObjVertex.decode key.2 = Val v → entity_type v = Val t →
  at1 (entity_counts st) t = 0 →
  Stats.update_writes (committed <$> (context ++ [(s, r)])) storage st = Panic.
Proof.
  intros Hord Hwf Hctx Hseq Hs Hopen Hw Hnodel Hent Hdec Hty Hzero.
  assert (Hkey : 0 ≤ key.1 < 10).
  { apply (writes_keyspace (cr_operations r) key Delete); [|rewrite Hw; set_solver]. by apply all_wf_snoc in Hwf as [_ ?]. }
  assert (Hnone : List.filter (λ x, sequence_number st <? x.1) context = []).
  { clear -Hctx. induction context as [|x l IH]; [done|]. cbn. rewrite (proj2 (Z.ltb_ge _ _)) by (apply Hctx; set_solver).
    apply IH. intros y Hy. apply Hctx. set_solver. }
  unfold Stats.update_writes, SeqNr.next. rewrite u64_id by (unfold is_u64; lia).
  rewrite range_above, List.filter_app, Hnone. cbn [List.filter]. rewrite (proj2 (Z.ltb_lt _ _)) by (cbn; lia).
  set (hc := context ++ [(s, r)]) in *.
  change (committed <$> [] ++ [(s, r)]) with [(s, mk_CommittedWrites (cr_open_sequence_number r) (cr_operations r))].
  cbn [mbind exec_bind Stats.update_commits]. unfold Stats.update_write. cbn [cw_operations cw_open_sequence_number].
  rewrite iterate_writes_of, Hw. cbn [lift mbind exec_bind Stats.update_keys]. rewrite missed_delete; [|done..|].
  - cbn [mbind exec_bind]. by rewrite (count_below_zero _ _ v t).
  - intros x Hx Hlt. apply elem_of_app in Hx as [Hx| ->%list_elem_of_singleton]; [apply Hnodel; [done|lia]|cbn in Hlt; lia].
Qed.

(** C40: a delete whose concurrent delete the context misses panics. Let the
    statistics not be at the watermark, let all loaded commits be well-formed
    data commits in order with numbers below 2^62, the last of which is not counted yet and has as its
    only write the delete of an entity, and all others of which are counted
    already. If the statistics count no entity of its type, and none of the
    loaded commits after its open number deletes that entity (as when the
    concurrent delete that was counted lies more than eight commits back), then
    the count is taken below zero and the synchronisation panics. *)
Theorem late_delete_panics {D DErr BErr : Type} `{Durability D DErr} (codec : Codec BErr)
    (iter_from : D → Z → exec DErr (list (RawRecord + DErr))) (write_statistics : Statistics → D → exec DErr unit * D)
    (storage : Storage D) (st : Statistics) (loaded : list (Z * RecoveryCommitStatus)) (context : history)
    (s : Z) (r : CommitRecord) (key : Z * bytes) (v : ObjectVertex) (t : Z) :
  Recovery.load_commit_data_from codec (Stats.load_start st) (iter_from (st_durability storage)) Recovery.usize_max = Val loaded →
  settled loaded = context ++ [(s, r)] → (∀ x, x ∈ settled loaded → cr_commit_type x.2 = CommitData) →
  in_order (settled loaded) → all_wf (settled loaded) →
  (∀ x, x ∈ context → x.1 ≤ sequence_number st) → 0 ≤ sequence_number st < s → s < 2 ^ 62 →
  sequence_number st ≠ Engine.snapshot_watermark storage → cr_open_sequence_number r < s →
  writes_of (cr_operations r) = [(key, Delete)] →
  (∀ x, x ∈ context → cr_open_sequence_number r < x.1 → write_at (ops x) key ≠ Some Delete) →
  ObjVertex.is_entity_vertex key.1 key.2 = true → ObjVertex.decode key.2 = Val v → entity_type v = Val t →
  at1 (entity_counts st) t = 0 →
  Stats.may_synchronise codec iter_from write_statistics storage st = (Panic, st_durability storage).
Proof.
  intros Hload Hset Hdata Hord Hwf Hctx Hseq Hs Hwm Hopen Hw Hnodel Hent Hdec Hty Hzero.
  unfold Stats.may_synchronise. rewrite (proj2 (Z.eqb_neq _ _)), Hload by done.
  pose proof (sync_loop_data (BErr:=BErr) write_statistics loaded [] (st_keyspaces storage) st (st_durability storage) Hord Hdata) as Hloop.
  cbn [fmap list_fmap app] in Hloop. rewrite Hloop. rewrite Hset in *.
  by rewrite (late_delete_update _ _ _ _ _ key v t).
Qed.

(** ** Examples *)
Lemma exact_new n : exact ∅ (Stats.new n) 0.
Proof. intros c. unfold number. replace (filter _ ∅) with (∅ : gset (Z * bytes)) by set_solver. by destruct c. Qed.

Module StatisticsExample.
#[local] Instance WriteBuffer_eq_dec : EqDecision WriteBuffer.
Proof. solve_decision. Defined.
#[local] Instance OperationsBuffer_eq_dec : EqDecision OperationsBuffer.
Proof. solve_decision. Defined.
#[local] Instance CommitType_eq_dec : EqDecision CommitType.
Proof. solve_decision. Defined.
#[local] Instance CommitRecord_eq_dec : EqDecision CommitRecord.
Proof. solve_decision. Defined.

Definition ops_of (l : list (Z * bytes * Write)) : OperationsBuffer :=
  mk_OperationsBuffer
    ((λ i, mk_WriteBuffer (Z.of_nat i)
             (bt_of_list (omap (λ kw : Z * bytes * Write, if kw.1.1 =? Z.of_nat i then Some (kw.1.2, kw.2) else None) l)))
       <$> seq 0 KEYSPACE_MAXIMUM_COUNT) [].
Lemma ops_of_wf l : ob_wf (ops_of l).
Proof.
  split_and!; [done| |constructor]. intros i b Hi. cbn [ops_of ob_write_buffers] in Hi. rewrite list_lookup_fmap in Hi.
  apply fmap_Some in Hi as (j & [-> _]%lookup_seq & ->). split; [done|]. apply bt_wf_of_list.
Qed.
Definition commit (open : Z) (l : list (Z * bytes * Write)) : CommitRecord := mk_CommitRecord (ops_of l) open CommitData.
(** Records are stored by their position in a list. *)
Definition codec_of (rs : list CommitRecord) : Codec unit :=
  mk_Codec (λ r, match list_find (λ x, x = r) rs with Some (i, _) => [Z.of_nat i] | None => [] end)
    (λ bs, match bs with [i] => match rs !! Z.to_nat i with Some r => inl r | None => inr () end | _ => inr () end)
    (λ r, [sr_commit_record_sequence_number r; if sr_was_committed r then 1 else 0])
    (λ bs, match bs with [s; b] => inl (mk_StatusRecord s (b =? 1)) | _ => inr () end).
Definition write_statistics (_ : Statistics) (l : Log) : exec LogError unit * Log := (Val (), l).
Definition storage_of (k : Keyspaces) (rs : list CommitRecord) : Storage Log :=
  mk_Storage k (mk_Log (log_of 1 rs) (1 + Z.of_nat (length rs))) (Iso.new (1 + Z.of_nat (length rs))).
Definition synchronise (k : Keyspaces) (rs : list CommitRecord) (st : Statistics) :=
  Stats.may_synchronise (codec_of rs) (LogClient.iter_from (codec_of rs)) write_statistics (storage_of k rs) st.

Definition entity (t i : Z) : Z * bytes := ObjVertex.into_storage_key (ObjVertex.build_entity t i).

(** An entity is inserted, deleted, and deleted by a transaction that was open
    at the first delete and commits last. *)
Definition late_commits : list CommitRecord :=
  [commit 0 [(entity 7 0, Insert [])]; commit 1 [(entity 7 0, Delete)]] ++
  ((λ i, commit (Z.of_nat i) [(entity 8 (Z.of_nat i), Insert [])]) <$> seq 2 10) ++
  [commit 1 [(entity 7 0, Delete)]].
Fixpoint numbered_from (s : Z) (rs : list CommitRecord) : history :=
  match rs with [] => [] | r :: rs => (s, r) :: numbered_from (s + 1) rs end.
Lemma settled_validated s rs : settled (validated_of s rs) = numbered_from s rs.
Proof. revert s. induction rs as [|r rs IH]; intros s; [done|]. cbn. by rewrite IH. Qed.
Lemma numbered_elem s rs x : x ∈ numbered_from s rs → s ≤ x.1 < s + Z.of_nat (length rs) ∧ x.2 ∈ rs.
Proof.
  revert s. induction rs as [|r rs IH]; intros s; cbn [numbered_from length]; [set_solver|].
  intros [->|Hx]%elem_of_cons; [cbn; split; [lia|set_solver]|]. destruct (IH _ Hx). split; [lia|set_solver].
Qed.
Lemma numbered_order s rs : in_order (numbered_from s rs).
Proof.
  revert s. induction rs as [|r rs IH]; intros s; cbn; constructor; [apply IH|]. apply Forall_forall. intros x Hx%numbered_elem.
  unfold before. cbn. lia.
Qed.
Lemma numbered_wf s rs : (∀ r, r ∈ rs → ∃ open l, r = commit open l) → all_wf (numbered_from s rs).
Proof.
  intros Hrs. apply Forall_forall. intros x [_ Hx]%numbered_elem. destruct (Hrs _ Hx) as (open & l & Heq). unfold ops. rewrite Heq.
  apply ops_of_wf.
Qed.
Lemma numbered_app s rs rs' : numbered_from s (rs ++ rs') = numbered_from s rs ++ numbered_from (s + Z.of_nat (length rs)) rs'.
Proof.
  revert s. induction rs as [|r rs IH]; intros s; cbn [app numbered_from length]; [by rewrite Z.add_0_r|]. rewrite IH.
  cbn. do 2 f_equal. f_equal. lia.
Qed.

Definition counted_12 : Statistics :=
  match (synchronise encoding_keyspaces (take 12 late_commits) (Stats.new 0)).1 with Val st => st | _ => Stats.new 0 end.
Lemma late_commits_commit r : r ∈ late_commits → ∃ open l, r = commit open l.
Proof.
  unfold late_commits. rewrite !elem_of_app. intros [Hr|[Hr|Hr]].
  - set_unfold. naive_solver.
  - apply list_elem_of_fmap in Hr as (i & -> & _). by eauto.
  - set_unfold. naive_solver.
Qed.

Lemma late_delete_panics_witness :
  (synchronise encoding_keyspaces (take 12 late_commits) (Stats.new 0)).1 = Val counted_12 ∧ sequence_number counted_12 = 12 ∧
  Dep.compute_dependency (commit 1 [(entity 7 0, Delete)]) (commit 1 [(entity 7 0, Delete)]) = Independent ∧
  (synchronise encoding_keyspaces late_commits counted_12).1 = Panic ∧
  returns (synchronise encoding_keyspaces late_commits (Stats.new 0)).1.
Proof.
  split; [vm_compute; reflexivity|]. split; [vm_compute; reflexivity|]. split; [vm_compute; reflexivity|]. split.
  2: { destruct (synchronise encoding_keyspaces late_commits (Stats.new 0)).1 eqn:E; [by eexists|vm_compute in E; discriminate E..]. }
  pose (rest := take 9 (drop 3 late_commits)). pose (last_commit := commit 1 [(entity 7 0, Delete)]).
  assert (Hset : settled (validated_of 4 (drop 3 late_commits)) = numbered_from 4 rest ++ [(13, last_commit)]).
  { rewrite settled_validated. change (drop 3 late_commits) with (rest ++ [last_commit]). by rewrite numbered_app. }
  unfold synchronise. rewrite (late_delete_panics _ _ _ _ counted_12 (validated_of 4 (drop 3 late_commits)) (numbered_from 4 rest) 13 last_commit
    (entity 7 0) (ObjVertex.build_entity 7 0) (TypeVertex.new (Prefixes.prefix_id VertexEntityType) 7)); [reflexivity|..].
  - vm_compute. reflexivity.
  - exact Hset.
  - rewrite settled_validated. intros x [_ Hx]%numbered_elem. destruct (late_commits_commit x.2) as (o & l & Heq).
    { apply list_elem_of_lookup in Hx as [i Hi]. rewrite lookup_drop in Hi. by eapply list_elem_of_lookup_2. }
    by rewrite Heq.
  - rewrite settled_validated. apply numbered_order.
  - rewrite settled_validated. apply numbered_wf. intros r Hr. apply late_commits_commit.
    apply list_elem_of_lookup in Hr as [i Hi]. rewrite lookup_drop in Hi. by eapply list_elem_of_lookup_2.
  - intros x [Hx _]%numbered_elem. change (sequence_number counted_12) with 12. change (length rest) with 9%nat in Hx. lia.
  - change (sequence_number counted_12) with 12. lia.
  - lia.
  - vm_compute. discriminate.
  - vm_compute. reflexivity.
  - vm_compute. reflexivity.
  - assert (Hno : Forall (λ r, write_at (cr_operations r) (entity 7 0) ≠ Some Delete) rest) by (repeat constructor; vm_compute; discriminate).
    intros x [_ Hx]%numbered_elem _. rewrite Forall_forall in Hno. by apply Hno.
  - vm_compute. reflexivity.
  - vm_compute. reflexivity.
  - vm_compute. reflexivity.
  - vm_compute. reflexivity.
Defined.

(** An entity with an attribute is stored, then deleted by two transactions at
    once, one of which also deletes the ownership. *)
Definition owned : AttributeVertex := mk_AttributeVertex 9 (IdInteger (1 :: Prim.encode_i64 42)).
Definition ownership : Z * bytes := EdgeHas.into_storage_key (mk_ThingEdgeHas (ObjVertex.build_entity 7 0) owned).
Definition small_commits : list CommitRecord :=
  [commit 0 [(entity 7 0, Insert []); (ownership, Put [] true false)];
   commit 1 [(entity 7 0, Delete); (ownership, Delete)];
   commit 1 [(entity 7 0, Delete)]].
Definition small : history := numbered_from 1 small_commits.

Lemma small_elem s r : (s, r) ∈ small →
  (s = 1 ∧ r = commit 0 [(entity 7 0, Insert []); (ownership, Put [] true false)]) ∨
  (s = 2 ∧ r = commit 1 [(entity 7 0, Delete); (ownership, Delete)]) ∨ (s = 3 ∧ r = commit 1 [(entity 7 0, Delete)]).
Proof. unfold small. set_unfold. naive_solver. Qed.
Lemma small_writes s r : (s, r) ∈ small →
  (s = 1 ∧ writes_of (cr_operations r) = [(entity 7 0, Insert []); (ownership, Put [] true false)]) ∨
  (s = 2 ∧ writes_of (cr_operations r) = [(entity 7 0, Delete); (ownership, Delete)]) ∨
  (s = 3 ∧ writes_of (cr_operations r) = [(entity 7 0, Delete)]).
Proof.
  intros Hin. destruct (small_elem s r Hin) as [[-> ->]|[[-> ->]|[-> ->]]]; [left|right; left|right; right];
    (split; [done|vm_compute; reflexivity]).
Qed.
Lemma small_written s r key w : (s, r) ∈ small → 0 ≤ key.1 → write_at (cr_operations r) key = Some w →
  (s = 1 ∧ key = entity 7 0 ∧ w = Insert []) ∨ (s = 1 ∧ key = ownership ∧ w = Put [] true false) ∨
  (s = 2 ∧ key = entity 7 0 ∧ w = Delete) ∨ (s = 2 ∧ key = ownership ∧ w = Delete) ∨ (s = 3 ∧ key = entity 7 0 ∧ w = Delete).
Proof.
  intros Hin H0 Hw. assert (Hwf : ob_wf (cr_operations r)).
  { destruct (small_elem s r Hin) as [[_ ->]|[[_ ->]|[_ ->]]]; apply ops_of_wf. }
  assert (Hk : (key, w) ∈ writes_of (cr_operations r)) by (by apply elem_of_writes).
  destruct (small_writes s r Hin) as [[-> Heq]|[[-> Heq]|[-> Heq]]]; rewrite Heq, ?elem_of_cons, elem_of_nil, ?pair_equal_spec in Hk; tauto.
Qed.
Lemma small_deleted s r key : (s, r) ∈ small → 0 ≤ key.1 → write_at (cr_operations r) key = Some Delete →
  2 ≤ s ≤ 3 ∧ (key = entity 7 0 ∨ key = ownership).
Proof.
  intros Hin H0 Hw. destruct (small_written _ _ _ _ Hin H0 Hw) as [(_ & _ & [=])|[(_ & _ & [=])|Hd]].
  destruct Hd as [(-> & -> & _)|[(-> & -> & _)|(-> & -> & _)]]; split; first [lia|tauto].
Qed.
Lemma small_open s r : (s, r) ∈ small → 1 ≤ s ≤ 3 ∧ cr_open_sequence_number r = Z.min (s - 1) 1.
Proof. intros Hin. by destruct (small_elem s r Hin) as [[-> ->]|[[-> ->]|[-> ->]]]. Qed.
Lemma small_ok s r : (s, r) ∈ small → commit_ok small s r.
Proof.
  intros Hin. destruct (small_open s r Hin) as [Hs Hopen]. split.
  - lia.
  - lia.
  - intros key v H0 Hw. destruct (small_written _ _ _ _ Hin H0 Hw) as [(-> & -> & _)|Hd]; [|by destruct_or! Hd; destruct_and! Hd].
    rewrite Hopen. split; [apply (bool_decide_unpack _); vm_compute; exact I|]. intros sr _ Hlt. exfalso. lia.
  - intros key v b x H0 Hw. destruct (small_written _ _ _ _ Hin H0 Hw) as [(_ & _ & [=])|[(-> & -> & [= -> -> ->])|Hd]];
      [|by destruct_or! Hd; destruct_and! Hd].
    rewrite Hopen. split; [|done]. intros _. apply (bool_decide_unpack _). vm_compute. exact I.
  - intros key H0 Hw. destruct (small_deleted s r key Hin H0 Hw) as [Hs' Hkey]. rewrite Hopen. replace (Z.min (s - 1) 1) with 1 by lia.
    split; [destruct Hkey as [->| ->]; apply (bool_decide_unpack _); vm_compute; exact I|]. intros sr1 sr2 _ _ H1 H2 H3. exfalso. lia.
  - intros key Hkey. apply list_elem_of_fmap in Hkey as ([k w] & -> & Hk).
    assert (Hd : k = entity 7 0 ∨ k = ownership).
    { destruct (small_writes s r Hin) as [[_ Heqw]|[[_ Heqw]|[_ Heqw]]]; rewrite Heqw, ?elem_of_cons, elem_of_nil, ?pair_equal_spec in Hk; tauto. }
    destruct Hd as [->| ->]; (split; eexists; vm_compute; reflexivity).
  - intros key kt H0 Hw Hkt. exfalso. destruct (small_deleted s r key Hin H0 Hw) as [_ [->| ->]]; vm_compute in Hkt; discriminate Hkt.
Qed.
Lemma small_history : history_ok encoding_keyspaces small.
Proof.
  split.
  - apply numbered_wf. intros r Hr. unfold small_commits in Hr. set_unfold. naive_solver.
  - apply numbered_order.
  - apply small_ok.
  - intros s r key v b x Hin H0 Hw. destruct (small_written _ _ _ _ Hin H0 Hw) as [(_ & _ & [=])|[(-> & -> & _)|Hd]];
      [|by destruct_or! Hd; destruct_and! Hd].
    exists None. split; [vm_compute; reflexivity|]. split; [by intros [? ?]|]. intros Hx. exfalso. revert Hx. apply (bool_decide_unpack _). vm_compute. exact I.
  - vm_compute. reflexivity.
Qed.

Lemma statistics_count_what_is_stored_witness :
  ∃ st, (synchronise encoding_keyspaces small_commits (Stats.new 0)).1 = Val st ∧ sequence_number st = 3 ∧
    exact (stored 3 small) st 0 ∧ count_of (OfEntity (TypeVertex.new (Prefixes.prefix_id VertexEntityType) 7)) st 0 = 0.
Proof.
  destruct (statistics_count_what_is_stored (codec_of small_commits) (LogClient.iter_from (codec_of small_commits)) write_statistics
    (storage_of encoding_keyspaces small_commits) (Stats.new 0) (validated_of 1 small_commits) []) as (st & d & Hst & Hex & _ & Hseq).
  - intros s d. by exists d.
  - vm_compute. reflexivity.
  - set_solver.
  - rewrite settled_validated. apply small_history.
  - rewrite settled_validated. intros q rq s r Hq Hs Hty. destruct (small_elem q rq Hq) as [[-> ->]|[[-> ->]|[-> ->]]]; discriminate Hty.
  - rewrite settled_validated. intros s r Hin _ _. destruct (small_elem s r Hin) as [[-> ->]|[[-> ->]|[-> ->]]]; vm_compute; discriminate.
  - cbn. lia.
  - cbn. lia.
  - apply exact_new.
  - rewrite settled_validated in Hseq, Hex.
    assert (H3 : sequence_number st = 3) by (rewrite Hseq; vm_compute; reflexivity). rewrite H3 in Hex.
    exists st. unfold synchronise. rewrite Hst. split_and!; [done..|]. rewrite Hex. vm_compute. reflexivity.
Defined.
Lemma statistics_tables_agree_witness :
  ∃ st, (synchronise encoding_keyspaces small_commits (Stats.new 0)).1 = Val st ∧ tables_agree st.
Proof.
  destruct (synchronise encoding_keyspaces small_commits (Stats.new 0)) as [[st| |] d] eqn:E; [|vm_compute in E; discriminate E..].
  exists st. split; [done|].
  destruct (statistics_tables_agree (codec_of small_commits) (LogClient.iter_from (codec_of small_commits)) write_statistics
    (storage_of encoding_keyspaces small_commits) (Stats.new 0) st 0 d) as (Hnew & _ & Hsync). exact (Hsync E Hnew).
Defined.
(** An ownership that a transaction deletes, a concurrent one puts back and a
    third, open all the while, deletes: the last delete is not counted. *)
Definition revived_commits : list CommitRecord :=
  [commit 0 [(ownership, Put [] true false)]; commit 1 [(ownership, Delete)]; commit 1 [(ownership, Put [] false false)];
   commit 1 [(ownership, Delete)]].
Lemma revived_delete_not_counted :
  total_has_count <$> (synchronise encoding_keyspaces revived_commits (Stats.new 0)).1 = Val 1 ∧
  stored 4 (numbered_from 1 revived_commits) = ∅ ∧
  Dep.compute_dependency (commit 1 [(ownership, Delete)]) (commit 1 [(ownership, Put [] false false)]) = Independent.
Proof.
  split; [|split]; vm_compute; reflexivity.
Qed.
End StatisticsExample.

(** A reset keeps the number of the last statistics in the log, and with it a
    schema commit below that number drops the data commits before it. *)
Lemma reset_skips_commits {D DErr BErr : Type} (write_statistics : Statistics → D → exec DErr unit * D) n q w commits storage st d :
  q ≤ SeqNr.next (last_durable_write_sequence_number st) →
  Stats.apply_schema_commit (BErr:=BErr) write_statistics q w commits storage (Stats.reset n st) d =
  (map_err Stats.DataRead (Stats.update_writes [(q, w)] storage (Stats.reset n st)), d) ∧
  relation_role_player_counts (Stats.reset n st) = relation_role_player_counts st ∧
  player_role_relation_counts (Stats.reset n st) = player_role_relation_counts st.
Proof.
  intros Hq. assert (Hl : last_durable_write_sequence_number (Stats.reset n st) = last_durable_write_sequence_number st) by done.
  split; [|split; [by destruct st|by destruct st]]. revert Hl. generalize (Stats.reset n st). intros st' Hl.
  unfold Stats.apply_schema_commit. rewrite Hl. by rewrite (proj2 (Z.ltb_ge _ _)).
Qed.
