(* ===== verification/StatisticsSerde.v ===== *)
(** * Statistics in the log: the serialisation in [concept/thing/statistics.rs]

    How statistics are written to and read from records.  A format is [serde]'s:
    it stores the fields that [serialize] gives it, with their names or without,
    and hands them to [visit_map] or [visit_seq]; [bincode], which the log uses,
    stores no names. *)
From stdpp Require Import gmap countable strings.
From S2P Require Import Prelude BTree Bytes MemoryStore Buffer LendingIter Mvcc Keyspaces Snapshot Dependency Timeline Isolation Storage Recovery Layout Values Structs Attributes Things Edges ThingManager ThingGraph Pattern TypeEdges Statistics.
#[local] Open Scope Z_scope.

(** ** Types *)
Inductive SerialisableType := SEntity (id : Z) | SRelation (id : Z) | SAttribute (id : Z) | SRole (id : Z).
#[global] Instance SerialisableType_eq_dec : EqDecision SerialisableType.
Proof. solve_decision. Defined.
#[global] Instance SerialisableType_countable : Countable SerialisableType.
Proof.
  refine (inj_countable' (λ t, match t with SEntity i => (0%nat, i) | SRelation i => (1%nat, i) | SAttribute i => (2%nat, i) | SRole i => (3%nat, i) end)
    (λ x, match x with (0%nat, i) => SEntity i | (1%nat, i) => SRelation i | (2%nat, i) => SAttribute i | (_, i) => SRole i end) _). by intros [].
Defined.
Definition into_entity_type (t : SerialisableType) : outcome Z :=
  match t with SEntity id => build_from_type_id EntityType VertexEntityType id | _ => Panic end.
Definition into_relation_type (t : SerialisableType) : outcome Z :=
  match t with SRelation id => build_from_type_id RelationType VertexRelationType id | _ => Panic end.
Definition into_object_type (t : SerialisableType) : outcome ObjType :=
  match t with
  | SEntity id => ObjEntity <$> build_from_type_id EntityType VertexEntityType id
  | SRelation id => ObjRelation <$> build_from_type_id RelationType VertexRelationType id
  | _ => Panic
  end.
Definition into_attribute_type (t : SerialisableType) : outcome Z :=
  match t with SAttribute id => build_from_type_id AttributeType VertexAttributeType id | _ => Panic end.
Definition into_role_type (t : SerialisableType) : outcome Z :=
  match t with SRole id => build_from_type_id RoleType VertexRoleType id | _ => Panic end.
Definition from_entity_type (t : Z) : SerialisableType := SEntity (TypeVertex.type_id_ t).
Definition from_relation_type (t : Z) : SerialisableType := SRelation (TypeVertex.type_id_ t).
Definition from_attribute_type (t : Z) : SerialisableType := SAttribute (TypeVertex.type_id_ t).
Definition from_role_type (t : Z) : SerialisableType := SRole (TypeVertex.type_id_ t).
Definition from_object_type (t : ObjType) : SerialisableType :=
  match t with ObjEntity t => from_entity_type t | ObjRelation t => from_relation_type t end.

(** ** Maps *)
(** [map.iter().map(|(k, v)| (f(k), g(v))).collect()], without and with panics. *)
Definition to_map {K L A B} `{Countable K, Countable L} (f : K → L) (g : A → B) (m : gmap K A) : gmap L B :=
  list_to_map ((λ kv : K * A, (f kv.1, g kv.2)) <$> map_to_list m).
Fixpoint convert {K L A B} (f : L → outcome K) (g : B → outcome A) (l : list (L * B)) : outcome (list (K * A)) :=
  match l with
  | [] => Val []
  | (k, v) :: l => k ← f k; v ← g v; l ← convert f g l; Val ((k, v) :: l)
  end.
Definition into_map {K L A B} `{Countable K, Countable L} (f : L → outcome K) (g : B → outcome A) (m : gmap L B) : outcome (gmap K A) :=
  l ← convert f g (map_to_list m); Val (list_to_map l).

Abbreviation smap := (gmap SerialisableType Z).
Abbreviation smap2 := (gmap SerialisableType smap).
Abbreviation smap3 := (gmap SerialisableType smap2).
Definition to_serialisable_map {K} `{Countable K} (f : K → SerialisableType) : gmap K Z → smap := to_map f (λ n, n).
Definition to_serialisable_map_map {K L} `{Countable K, Countable L} (f : K → SerialisableType) (g : L → SerialisableType)
  : gmap K (gmap L Z) → smap2 := to_map f (to_serialisable_map g).
Definition to_serialisable_map_map_map {K L M} `{Countable K, Countable L, Countable M}
    (f : K → SerialisableType) (g : L → SerialisableType) (k : M → SerialisableType)
  : gmap K (gmap L (gmap M Z)) → smap3 := to_map f (to_serialisable_map_map g k).
Definition into_entity_map : smap → outcome (gmap Z Z) := into_map into_entity_type Val.
Definition into_relation_map : smap → outcome (gmap Z Z) := into_map into_relation_type Val.
Definition into_attribute_map : smap → outcome (gmap Z Z) := into_map into_attribute_type Val.
Definition into_role_map : smap → outcome (gmap Z Z) := into_map into_role_type Val.
Definition into_object_map : smap → outcome (gmap ObjType Z) := into_map into_object_type Val.

(** ** Fields *)
Inductive Field :=
| StatisticsVersion | OpenSequenceNumber | LastDurableWriteTotalCount | TotalCount | TotalThingCount | TotalEntityCount
| TotalRelationCount | TotalAttributeCount | TotalRoleCount | TotalHasCount | EntityCounts | RelationCounts
| AttributeCounts | RoleCounts | HasAttributeCounts | AttributeOwnerCounts | RolePlayerCounts | RelationRoleCounts
| RelationRolePlayerCounts | PlayerRoleRelationCounts | LinksIndexCounts.
#[global] Instance Field_eq_dec : EqDecision Field.
Proof. solve_decision. Defined.
(** [Field::NAMES], in the order in which fields are written. *)
Definition FIELDS : list Field :=
  [StatisticsVersion; OpenSequenceNumber; LastDurableWriteTotalCount; TotalCount; TotalThingCount; TotalEntityCount;
   TotalRelationCount; TotalAttributeCount; TotalRoleCount; TotalHasCount; EntityCounts; RelationCounts; AttributeCounts;
   RoleCounts; HasAttributeCounts; AttributeOwnerCounts; RolePlayerCounts; RelationRoleCounts; RelationRolePlayerCounts;
   PlayerRoleRelationCounts; LinksIndexCounts].

(** The names of the fields, and the field of a name. *)
Definition field_name (f : Field) : string :=
  match f with
  | StatisticsVersion => "StatisticsVersion"
  | OpenSequenceNumber => "OpenSequenceNumber"
  | LastDurableWriteTotalCount => "LastDurableWriteTotalCount"
  | TotalCount => "TotalCount"
  | TotalThingCount => "TotalThingCount"
  | TotalEntityCount => "TotalEntityCount"
  | TotalRelationCount => "TotalRelationCount"
  | TotalAttributeCount => "TotalAttributeCount"
  | TotalRoleCount => "TotalRoleCount"
  | TotalHasCount => "TotalHasCount"
  | EntityCounts => "EntityCounts"
  | RelationCounts => "RelationCounts"
  | AttributeCounts => "AttributeCounts"
  | RoleCounts => "RoleCounts"
  | HasAttributeCounts => "HasAttributeCounts"
  | AttributeOwnerCounts => "AttributeOwnerCounts"
  | RolePlayerCounts => "RolePlayerCounts"
  | RelationRoleCounts => "RelationRoleCounts"
  | RelationRolePlayerCounts => "RelationRolePlayerCounts"
  | PlayerRoleRelationCounts => "RolePlayerRelationCounts"
  | LinksIndexCounts => "PlayerIndexCounts"
  end.
Definition field_from (name : string) : option Field :=
  if decide (name = "StatisticsVersion")%string then Some StatisticsVersion else
  if decide (name = "OpenSequenceNumber")%string then Some OpenSequenceNumber else
  if decide (name = "LastDurableWriteTotalCount")%string then Some LastDurableWriteTotalCount else
  if decide (name = "TotalCount")%string then Some TotalCount else
  if decide (name = "TotalThingCount")%string then Some TotalThingCount else
  if decide (name = "TotalEntityCount")%string then Some TotalEntityCount else
  if decide (name = "TotalRelationCount")%string then Some TotalRelationCount else
  if decide (name = "TotalAttributeCount")%string then Some TotalAttributeCount else
  if decide (name = "TotalRoleCount")%string then Some TotalRoleCount else
  if decide (name = "TotalHasCount")%string then Some TotalHasCount else
  if decide (name = "EntityCounts")%string then Some EntityCounts else
  if decide (name = "RelationCounts")%string then Some RelationCounts else
  if decide (name = "AttributeCounts")%string then Some AttributeCounts else
  if decide (name = "RoleCounts")%string then Some RoleCounts else
  if decide (name = "HasAttributeCounts")%string then Some HasAttributeCounts else
  if decide (name = "AttributeOwnerCounts")%string then Some AttributeOwnerCounts else
  if decide (name = "RolePlayerCounts")%string then Some RolePlayerCounts else
  if decide (name = "RelationRoleCounts")%string then Some RelationRoleCounts else
  if decide (name = "RelationRolePlayerCounts")%string then Some RelationRolePlayerCounts else
  if decide (name = "RolePlayerRelationCounts")%string then Some PlayerRoleRelationCounts else
  if decide (name = "PlayerIndexCounts")%string then Some LinksIndexCounts else
  None.

(** A value of the format, and errors of reading. *)
Inductive SValue := SNumber (n : Z) | SMap (m : smap) | SMap2 (m : smap2) | SMap3 (m : smap3).
Inductive DeError := InvalidLength (n : nat) | DuplicateField (f : Field) | MissingField (f : Field) | UnknownField (name : string) | InvalidType.

Definition field_value (f : Field) (s : Statistics) : SValue :=
  match f with
  | StatisticsVersion => SNumber (encoding_version s)
  | OpenSequenceNumber => SNumber (sequence_number s)
  | LastDurableWriteTotalCount => SNumber (last_durable_write_total_count s)
  | TotalCount => SNumber (total_count s)
  | TotalThingCount => SNumber (total_thing_count s)
  | TotalEntityCount => SNumber (total_entity_count s)
  | TotalRelationCount => SNumber (total_relation_count s)
  | TotalAttributeCount => SNumber (total_attribute_count s)
  | TotalRoleCount => SNumber (total_role_count s)
  | TotalHasCount => SNumber (total_has_count s)
  | EntityCounts => SMap (to_serialisable_map from_entity_type (entity_counts s))
  | RelationCounts => SMap (to_serialisable_map from_relation_type (relation_counts s))
  | AttributeCounts => SMap (to_serialisable_map from_attribute_type (attribute_counts s))
  | RoleCounts => SMap (to_serialisable_map from_role_type (role_counts s))
  | HasAttributeCounts => SMap2 (to_serialisable_map_map from_object_type from_attribute_type (has_attribute_counts s))
  | AttributeOwnerCounts => SMap2 (to_serialisable_map_map from_attribute_type from_object_type (attribute_owner_counts s))
  | RolePlayerCounts => SMap2 (to_serialisable_map_map from_object_type from_role_type (role_player_counts s))
  | RelationRoleCounts => SMap2 (to_serialisable_map_map from_relation_type from_role_type (relation_role_counts s))
  | RelationRolePlayerCounts =>
      SMap3 (to_serialisable_map_map_map from_relation_type from_role_type from_object_type (relation_role_player_counts s))
  | PlayerRoleRelationCounts =>
      SMap3 (to_serialisable_map_map_map from_object_type from_role_type from_relation_type (player_role_relation_counts s))
  | LinksIndexCounts => SMap2 (to_serialisable_map_map from_object_type from_object_type (links_index_counts s))
  end.
Definition serialize (s : Statistics) : list (string * SValue) := (λ f, (field_name f, field_value f s)) <$> FIELDS.

(** ** Reading *)
(** A field that was read: the type its variable has. *)
Inductive Column :=
| ColNumber (n : Z)
| ColTypes (m : gmap Z Z)
| ColObjectTypes (m : gmap ObjType (gmap Z Z))
| ColTypeObjects (m : gmap Z (gmap ObjType Z))
| ColTypeTypes (m : gmap Z (gmap Z Z))
| ColTypeTypeObjects (m : gmap Z (gmap Z (gmap ObjType Z)))
| ColObjectTypeTypes (m : gmap ObjType (gmap Z (gmap Z Z)))
| ColObjectObjects (m : gmap ObjType (gmap ObjType Z)).

Definition number (v : SValue) : exec DeError Column := match v with SNumber n => Val (ColNumber n) | _ => Err InvalidType end.
Definition map1 {A} (c : A → Column) (f : smap → outcome A) (v : SValue) : exec DeError Column :=
  match v with SMap m => lift (c <$> f m) | _ => Err InvalidType end.
Definition map2 {A} (c : A → Column) (f : smap2 → outcome A) (v : SValue) : exec DeError Column :=
  match v with SMap2 m => lift (c <$> f m) | _ => Err InvalidType end.
Definition map3 {A} (c : A → Column) (f : smap3 → outcome A) (v : SValue) : exec DeError Column :=
  match v with SMap3 m => lift (c <$> f m) | _ => Err InvalidType end.
(** [map.next_value()] or [seq.next_element()] of a field, converted to its types. *)
Definition read_field (f : Field) : SValue → exec DeError Column :=
  match f with
  | EntityCounts => map1 ColTypes into_entity_map
  | RelationCounts => map1 ColTypes into_relation_map
  | AttributeCounts => map1 ColTypes into_attribute_map
  | RoleCounts => map1 ColTypes into_role_map
  | HasAttributeCounts => map2 ColObjectTypes (into_map into_object_type into_attribute_map)
  | AttributeOwnerCounts => map2 ColTypeObjects (into_map into_attribute_type into_object_map)
  | RolePlayerCounts => map2 ColObjectTypes (into_map into_object_type into_role_map)
  | RelationRoleCounts => map2 ColTypeTypes (into_map into_relation_type into_role_map)
  | RelationRolePlayerCounts => map3 ColTypeTypeObjects (into_map into_relation_type (into_map into_role_type into_object_map))
  | PlayerRoleRelationCounts => map3 ColObjectTypeTypes (into_map into_object_type (into_map into_role_type into_relation_map))
  | LinksIndexCounts => map2 ColObjectObjects (into_map into_object_type into_object_map)
  | _ => number
  end.

(** The local variables of both visitors, one per field. *)
Definition columns := Field → option Column.
Definition set_column (f : Field) (c : Column) (cs : columns) : columns := λ f', if decide (f' = f) then Some c else cs f'.
Definition no_columns : columns := λ _, None.

(** The struct literal at the end of both; the number of the last statistics in
    the log is the number of these. *)
Section build.
Context (cs : columns) (missing : Field → DeError).
Definition get {A} (p : Column → option A) (f : Field) : exec DeError A :=
  c ← ok_or (cs f) (missing f); ok_or (p c) InvalidType.
Definition get_number := get (λ c, match c with ColNumber n => Some n | _ => None end).
Definition get_types := get (λ c, match c with ColTypes m => Some m | _ => None end).
Definition get_object_types := get (λ c, match c with ColObjectTypes m => Some m | _ => None end).
Definition get_type_objects := get (λ c, match c with ColTypeObjects m => Some m | _ => None end).
Definition get_type_types := get (λ c, match c with ColTypeTypes m => Some m | _ => None end).
Definition get_type_type_objects := get (λ c, match c with ColTypeTypeObjects m => Some m | _ => None end).
Definition get_object_type_types := get (λ c, match c with ColObjectTypeTypes m => Some m | _ => None end).
Definition get_object_objects := get (λ c, match c with ColObjectObjects m => Some m | _ => None end).
Definition build : exec DeError Statistics :=
  version ← get_number StatisticsVersion;
  sequence_number ← get_number OpenSequenceNumber;
  last_total ← get_number LastDurableWriteTotalCount;
  last_number ← get_number OpenSequenceNumber;
  total ← get_number TotalCount;
  things ← get_number TotalThingCount;
  entities ← get_number TotalEntityCount;
  relations ← get_number TotalRelationCount;
  attributes ← get_number TotalAttributeCount;
  roles ← get_number TotalRoleCount;
  has ← get_number TotalHasCount;
  entity_counts ← get_types EntityCounts;
  relation_counts ← get_types RelationCounts;
  attribute_counts ← get_types AttributeCounts;
  role_counts ← get_types RoleCounts;
  has_attribute_counts ← get_object_types HasAttributeCounts;
  attribute_owner_counts ← get_type_objects AttributeOwnerCounts;
  role_player_counts ← get_object_types RolePlayerCounts;
  relation_role_counts ← get_type_types RelationRoleCounts;
  relation_role_player_counts ← get_type_type_objects RelationRolePlayerCounts;
  player_role_relation_counts ← get_object_type_types PlayerRoleRelationCounts;
  links_index_counts ← get_object_objects LinksIndexCounts;
  Val (mk_Statistics version sequence_number last_number last_total total things entities relations attributes roles has
    entity_counts relation_counts attribute_counts role_counts has_attribute_counts attribute_owner_counts
    role_player_counts relation_role_counts relation_role_player_counts player_role_relation_counts links_index_counts).
End build.

(** [visit_seq]: the fields by position. *)
Fixpoint seq_columns (n : nat) (fs : list Field) (vs : list SValue) (cs : columns) : exec DeError columns :=
  match fs, vs with
  | [], _ => Val cs
  | _ :: _, [] => Err (InvalidLength n)
  | f :: fs, v :: vs => c ← read_field f v; seq_columns (S n) fs vs (set_column f c cs)
  end.
Definition visit_seq (vs : list SValue) : exec DeError Statistics :=
  cs ← seq_columns 0 FIELDS vs no_columns; build cs MissingField.

(** [visit_map]: the fields by name.  Each arm tests that a variable is not set
    and reports a duplicate of a field; not every arm tests and names its own. *)
Definition tested (f : Field) : Field :=
  match f with
  | LastDurableWriteTotalCount => TotalCount
  | RelationRolePlayerCounts | PlayerRoleRelationCounts => RelationRoleCounts
  | f => f
  end.
Definition reported (f : Field) : Field := match f with TotalHasCount | EntityCounts => TotalRoleCount | f => f end.
Fixpoint map_columns (fvs : list (string * SValue)) (cs : columns) : exec DeError columns :=
  match fvs with
  | [] => Val cs
  | (name, v) :: fvs =>
      f ← ok_or (field_from name) (UnknownField name);
      match cs (tested f) with
      | Some _ => Err (DuplicateField (reported f))
      | None => c ← read_field f v; map_columns fvs (set_column f c cs)
      end
  end.
Definition visit_map (fvs : list (string * SValue)) : exec DeError Statistics :=
  cs ← map_columns fvs no_columns; build cs MissingField.

(** ** What is read back *)
(** The keys of the tables are types of the kinds the tables are about. *)
Definition type_of (p : Prefix) (t : Z) : Prop := ∃ id, is_u16 id ∧ t = TypeVertex.new (Prefixes.prefix_id p) id.
Definition obj_type (t : ObjType) : Prop :=
  match t with ObjEntity t => type_of VertexEntityType t | ObjRelation t => type_of VertexRelationType t end.
Definition keys1 {K} `{Countable K} (P : K → Prop) {A} (m : gmap K A) : Prop := ∀ k v, m !! k = Some v → P k.
Definition keys2 {K L} `{Countable K, Countable L} (P : K → Prop) (Q : L → Prop) (m : gmap K (gmap L Z)) : Prop :=
  ∀ k v, m !! k = Some v → P k ∧ keys1 Q v.
Definition keys3 {K L M} `{Countable K, Countable L, Countable M} (P : K → Prop) (Q : L → Prop) (R : M → Prop)
    (m : gmap K (gmap L (gmap M Z))) : Prop := ∀ k v, m !! k = Some v → P k ∧ keys2 Q R v.
Record tables_typed (s : Statistics) : Prop := {
  tt_entities : keys1 (type_of VertexEntityType) (entity_counts s);
  tt_relations : keys1 (type_of VertexRelationType) (relation_counts s);
  tt_attributes : keys1 (type_of VertexAttributeType) (attribute_counts s);
  tt_roles : keys1 (type_of VertexRoleType) (role_counts s);
  tt_has : keys2 obj_type (type_of VertexAttributeType) (has_attribute_counts s);
  tt_owners : keys2 (type_of VertexAttributeType) obj_type (attribute_owner_counts s);
  tt_players : keys2 obj_type (type_of VertexRoleType) (role_player_counts s);
  tt_relates : keys2 (type_of VertexRelationType) (type_of VertexRoleType) (relation_role_counts s);
  tt_relation_players : keys3 (type_of VertexRelationType) (type_of VertexRoleType) obj_type (relation_role_player_counts s);
  tt_player_relations : keys3 obj_type (type_of VertexRoleType) (type_of VertexRelationType) (player_role_relation_counts s);
  tt_index : keys2 obj_type obj_type (links_index_counts s);
}.

Lemma convert_map {K L A B} (f : K → L) (f' : L → outcome K) (g : A → B) (g' : B → outcome A) (l : list (K * A)) :
  (∀ k v, (k, v) ∈ l → f' (f k) = Val k ∧ g' (g v) = Val v) →
  convert f' g' ((λ kv : K * A, (f kv.1, g kv.2)) <$> l) = Val l.
Proof.
  induction l as [|[k v] l IH]; intros Hfg; [done|]. rewrite fmap_cons. cbn [convert fst snd].
  destruct (Hfg k v ltac:(left)) as [-> ->]. cbn [mbind exec_bind]. rewrite IH; [done|]. intros k' v' Hin. apply Hfg. by right.
Qed.
Lemma into_to_map {K L A B} `{Countable K, Countable L} (f : K → L) (f' : L → outcome K) (g : A → B) (g' : B → outcome A) (m : gmap K A) :
  (∀ k v, m !! k = Some v → f' (f k) = Val k ∧ g' (g v) = Val v) → into_map f' g' (to_map f g m) = Val m.
Proof.
  intros Hfg. unfold into_map, to_map. set (F := λ kv : K * A, (f kv.1, g kv.2)).
  assert (Hnd : NoDup (F <$> map_to_list m).*1).
  { rewrite <-list_fmap_compose. assert (Hk := NoDup_fst_map_to_list m).
    assert (∀ l, NoDup l.*1 → (∀ k v, (k, v) ∈ l → f' (f k) = Val k) → NoDup (fst ∘ F <$> l)) as Hl.
    { clear. intros l. induction l as [|[k v] l IH]; intros Hn Hl; csimpl in *; [constructor|]. apply NoDup_cons in Hn as [Hn Hl'].
      constructor; [|apply IH; [done|]; intros k' v' Hin; apply (Hl k' v'); by right].
      intros Hin. apply list_elem_of_fmap in Hin as ([k' v'] & Heq & Hin). cbn in Heq. apply Hn. apply list_elem_of_fmap.
      exists (k', v'). split; [|done]. cbn. assert (E := Hl k v ltac:(left)). rewrite Heq, (Hl k' v') in E by (by right). congruence. }
    apply Hl; [done|]. intros k v Hin. apply elem_of_map_to_list in Hin. by apply (Hfg k v). }
  destruct (Permutation_map_inv F (map_to_list m) (map_to_list_to_map (M:=gmap L) _ Hnd)) as (l & Heq & Hperm).
  rewrite Heq. change (ListDef.map F l) with (F <$> l). unfold F. rewrite (convert_map f f' g g' l).
  - cbn [mbind exec_bind]. f_equal. rewrite <-(list_to_map_to_list m). symmetry. apply list_to_map_proper; [apply NoDup_fst_map_to_list|done].
  - intros k v Hin. rewrite <-Hperm in Hin. by apply Hfg, elem_of_map_to_list.
Qed.

Section back.
Context (T : TypeAPI) (p : Prefix) (HT : from_vertex T = from_vertex_of p).
Lemma type_back t : type_of p t → build_from_type_id T p (TypeVertex.type_id_ t) = Val t.
Proof.
  intros (id & Hid & ->). destruct (type_vertex_parts p id Hid) as [-> Hp]. unfold build_from_type_id. rewrite HT.
  unfold from_vertex_of. rewrite Hp. cbn [lift mbind exec_bind]. by rewrite decide_True.
Qed.
End back.
Lemma object_back t : obj_type t → into_object_type (from_object_type t) = Val t.
Proof.
  destruct t as [t|t]; cbn [obj_type from_object_type into_object_type from_entity_type from_relation_type]; intros Ht.
  - by rewrite (type_back EntityType VertexEntityType).
  - by rewrite (type_back RelationType VertexRelationType).
Qed.
Lemma map_back {K} `{Countable K} (P : K → Prop) (f : K → SerialisableType) f' (m : gmap K Z) :
  (∀ k, P k → f' (f k) = Val k) → keys1 P m → into_map f' Val (to_serialisable_map f m) = Val m.
Proof. intros Hf Hm. apply into_to_map. intros k v Hk. split; [by eapply Hf, Hm|done]. Qed.
Lemma map2_back {K L} `{Countable K, Countable L} (P : K → Prop) (Q : L → Prop) f f' g g' (m : gmap K (gmap L Z)) :
  (∀ k, P k → f' (f k) = Val k) → (∀ l, Q l → g' (g l) = Val l) → keys2 P Q m →
  into_map f' (into_map g' Val) (to_serialisable_map_map f g m) = Val m.
Proof.
  intros Hf Hg Hm. apply into_to_map. intros k v Hk. destruct (Hm k v Hk) as [HP HQ]. split; [by apply Hf|]. by apply (map_back Q).
Qed.
Lemma map3_back {K L M} `{Countable K, Countable L, Countable M} (P : K → Prop) (Q : L → Prop) (R : M → Prop) f f' g g' h h'
    (m : gmap K (gmap L (gmap M Z))) :
  (∀ k, P k → f' (f k) = Val k) → (∀ l, Q l → g' (g l) = Val l) → (∀ n, R n → h' (h n) = Val n) → keys3 P Q R m →
  into_map f' (into_map g' (into_map h' Val)) (to_serialisable_map_map_map f g h m) = Val m.
Proof.
  intros Hf Hg Hh Hm. apply into_to_map. intros k v Hk. destruct (Hm k v Hk) as [HP HQ]. split; [by apply Hf|]. by apply (map2_back Q R).
Qed.

(** The column that a field of the statistics is read back as. *)
Definition column_of (f : Field) (s : Statistics) : Column :=
  match f with
  | StatisticsVersion => ColNumber (encoding_version s)
  | OpenSequenceNumber => ColNumber (sequence_number s)
  | LastDurableWriteTotalCount => ColNumber (last_durable_write_total_count s)
  | TotalCount => ColNumber (total_count s)
  | TotalThingCount => ColNumber (total_thing_count s)
  | TotalEntityCount => ColNumber (total_entity_count s)
  | TotalRelationCount => ColNumber (total_relation_count s)
  | TotalAttributeCount => ColNumber (total_attribute_count s)
  | TotalRoleCount => ColNumber (total_role_count s)
  | TotalHasCount => ColNumber (total_has_count s)
  | EntityCounts => ColTypes (entity_counts s)
  | RelationCounts => ColTypes (relation_counts s)
  | AttributeCounts => ColTypes (attribute_counts s)
  | RoleCounts => ColTypes (role_counts s)
  | HasAttributeCounts => ColObjectTypes (has_attribute_counts s)
  | AttributeOwnerCounts => ColTypeObjects (attribute_owner_counts s)
  | RolePlayerCounts => ColObjectTypes (role_player_counts s)
  | RelationRoleCounts => ColTypeTypes (relation_role_counts s)
  | RelationRolePlayerCounts => ColTypeTypeObjects (relation_role_player_counts s)
  | PlayerRoleRelationCounts => ColObjectTypeTypes (player_role_relation_counts s)
  | LinksIndexCounts => ColObjectObjects (links_index_counts s)
  end.
Lemma read_back f s : tables_typed s → read_field f (field_value f s) = Val (column_of f s).
Proof.
  intros [He Hr Ha Hro Hh Ho Hp Hrr Hrp Hpr Hi].
  assert (Be : ∀ t, type_of VertexEntityType t → into_entity_type (from_entity_type t) = Val t) by (intros; by apply type_back).
  assert (Br : ∀ t, type_of VertexRelationType t → into_relation_type (from_relation_type t) = Val t) by (intros; by apply type_back).
  assert (Ba : ∀ t, type_of VertexAttributeType t → into_attribute_type (from_attribute_type t) = Val t) by (intros; by apply type_back).
  assert (Bo : ∀ t, type_of VertexRoleType t → into_role_type (from_role_type t) = Val t) by (intros; by apply type_back).
  pose proof object_back as Bobj.
  destruct f; cbn [read_field field_value column_of number map1 map2 map3]; try done;
    unfold into_entity_map, into_relation_map, into_attribute_map, into_role_map, into_object_map;
    first [erewrite map_back by done|erewrite map2_back by done|erewrite map3_back by done]; done.
Qed.
Lemma field_from_name f : field_from (field_name f) = Some f.
Proof. by destruct f. Qed.
Lemma seq_columns_back fs n cs s :
  tables_typed s → ∃ cs', seq_columns n fs ((λ f, field_value f s) <$> fs) cs = Val cs' ∧
    ∀ f, cs' f = if decide (f ∈ fs) then Some (column_of f s) else cs f.
Proof.
  intros Hs. revert n cs. induction fs as [|f fs IH]; intros n cs; [by exists cs|]. rewrite fmap_cons. cbn [seq_columns].
  rewrite read_back by done. cbn [mbind exec_bind]. destruct (IH (S n) (set_column f (column_of f s) cs)) as (cs' & -> & Hc).
  exists cs'. split; [done|]. intros f'. rewrite Hc. unfold set_column. repeat case_decide; set_solver.
Qed.
Lemma map_columns_step f fs cs s :
  tables_typed s → cs (tested f) = None →
  map_columns ((λ f, (field_name f, field_value f s)) <$> f :: fs) cs =
  map_columns ((λ f, (field_name f, field_value f s)) <$> fs) (set_column f (column_of f s) cs).
Proof. intros Hs Hc. rewrite fmap_cons. cbn [map_columns]. rewrite field_from_name. cbn [ok_or mbind exec_bind]. by rewrite Hc, read_back. Qed.

Lemma visit_seq_back (s : Statistics) :
  tables_typed s → visit_seq (serialize s).*2 = Val (set_last_durable_write_sequence_number (sequence_number s) s).
Proof.
  intros Hs. unfold visit_seq, serialize. rewrite <-list_fmap_compose.
  destruct (seq_columns_back FIELDS 0 no_columns s Hs) as (cs & Hcs & Hc). unfold compose. cbn [snd]. rewrite Hcs. cbn [mbind exec_bind].
  assert (Hall : ∀ f, cs f = Some (column_of f s)).
  { intros f. rewrite Hc, decide_True; [done|]. by destruct f; vm_compute; repeat (left || right). }
  unfold build, get_number, get_types, get_object_types, get_type_objects, get_type_types, get_type_type_objects,
    get_object_type_types, get_object_objects, get. by rewrite !Hall.
Qed.

(** C39: statistics in the log read back.  For statistics whose tables have types
    of the kinds they are about, what [serialize] writes is read by position, as
    [bincode] does, as the same statistics, the number of the last statistics in
    the log being their own.  Read by name it is always refused: the arm for the
    players of relations tests the variable of the roles of relations, which is
    set by then, and reports a duplicate field. *)
Theorem statistics_read_back (s : Statistics) :
  tables_typed s →
  visit_seq (serialize s).*2 = Val (set_last_durable_write_sequence_number (sequence_number s) s) ∧
  visit_map (serialize s) = Err (DuplicateField RelationRolePlayerCounts).
Proof.
  intros Hs. split; [by apply visit_seq_back|].
  unfold visit_map, serialize, FIELDS. do 18 (rewrite map_columns_step by done). reflexivity.
Qed.
Lemma statistics_read_back_witness :
  let t := TypeVertex.new (Prefixes.prefix_id VertexEntityType) 7 in
  let s := set_entity_counts {[t := 3]} (Stats.new 5) in
  visit_seq (serialize s).*2 = Val s ∧ visit_map (serialize s) = Err (DuplicateField RelationRolePlayerCounts).
Proof.
  intros t s. apply (statistics_read_back s). unfold s.
  split; cbn; try (intros k v Hk; exfalso; revert Hk; by rewrite lookup_empty). intros k v Hk. apply lookup_singleton_Some in Hk as [<- _]. exists 7. split; [unfold is_u16; lia|done].
Defined.

(** Statistics are written before the count they were written with is noted, so
    what is read back holds the count noted by the write before. *)
Lemma read_back_count_is_old {D DErr BErr : Type} (write_statistics : Statistics → D → exec DErr unit * D) s d s' d' :
  tables_typed s → Stats.durably_write (BErr:=BErr) write_statistics s d = (Val s', d') →
  last_durable_write_total_count s' = total_count s ∧
  last_durable_write_total_count <$> visit_seq (serialize s).*2 = Val (last_durable_write_total_count s).
Proof.
  intros Hs Hw. rewrite visit_seq_back by done. split; [|done].
  unfold Stats.durably_write in Hw. destruct (write_statistics s d) as [[] ?]; [|done..]. by injection Hw as <- _.
Qed.
