(* ===== verification/Annotations.v ===== *)
(** * Annotations and constraints: [concept/type_/annotation.rs] and
    [concept/type_/constraint.rs]

    An annotation of the schema says something about the instances of a type or
    of a capability; it stands for up to two constraints.  A constraint of a
    subtype has to narrow those of its supertypes.  Values are compared within
    one type: doubles as IEEE numbers, dates and times as chrono orders them
    (by day, by instant), strings by their bytes. *)
From stdpp Require Import strings gmap.
From S2P Require Import Prelude Bytes Decimal Duration Layout TimeZones Values Structs Pattern TypeEdges.
#[local] Open Scope Z_scope.

(** ** Comparing values *)
Definition is_nan (double : Z) : bool := 2047 * 2 ^ 52 <? f64_magnitude double.
(** A double that is a number, as a signed magnitude. *)
Definition f64_rank (double : Z) : Z :=
  if DoubleBytes.is_sign_positive double then f64_magnitude double else - f64_magnitude double.
Definition f64_partial_cmp (a b : Z) : option comparison :=
  if is_nan a || is_nan b then None else Some (cmp (f64_rank a) (f64_rank b)).
Definition bool_cmp (a b : bool) : comparison := cmp (Z.b2z a) (Z.b2z b).
Definition is_le (c : option comparison) : bool := match c with Some Lt | Some Eq => true | _ => false end.
Definition is_ge (c : option comparison) : bool := match c with Some Gt | Some Eq => true | _ => false end.
Definition is_lt (c : option comparison) : bool := match c with Some Lt => true | _ => false end.
Definition is_eq (c : option comparison) : bool := match c with Some Eq => true | _ => false end.

Section values.
Context `{ChronoZoned}.
Definition date_cmp (a b : NaiveDate) : comparison := cmp (num_days_from_ce a) (num_days_from_ce b).
Definition date_time_cmp (a b : NaiveDateTime) : comparison :=
  cmp [timestamp a; timestamp_subsec_nanos a] [timestamp b; timestamp_subsec_nanos b].
Definition date_time_tz_cmp (a b : DateTimeTZ) : comparison := date_time_cmp (naive_utc a) (naive_utc b).
(** [a] unwrapped as a value of the type of [b], compared with it. *)
Definition cmp_unwrapped (a b : Value) : outcome (option comparison) :=
  match b, a with
  | VBoolean b, VBoolean a => Val (Some (bool_cmp a b))
  | VInteger b, VInteger a => Val (Some (cmp a b))
  | VDouble b, VDouble a => Val (f64_partial_cmp a b)
  | VDecimal b, VDecimal a => Val (Some (Dec.compare a b))
  | VDate b, VDate a => Val (Some (date_cmp a b))
  | VDateTime b, VDateTime a => Val (Some (date_time_cmp a b))
  | VDateTimeTZ b, VDateTimeTZ a => Val (Some (date_time_tz_cmp a b))
  | VString b, VString a => Val (Some (cmp a b))
  | _, _ => Panic
  end.
(** [PartialEq] of values; the fields of structs are compared as maps. *)
Fixpoint value_eqb (a b : Value) : bool :=
  match a, b with
  | VBoolean a, VBoolean b => bool_decide (a = b)
  | VInteger a, VInteger b => bool_decide (a = b)
  | VDouble a, VDouble b => is_eq (f64_partial_cmp a b)
  | VDecimal a, VDecimal b =>
      bool_decide (dec_integer a = dec_integer b) && bool_decide (dec_fractional a = dec_fractional b)
  | VDate a, VDate b => is_eq (Some (date_cmp a b))
  | VDateTime a, VDateTime b => is_eq (Some (date_time_cmp a b))
  | VDateTimeTZ a, VDateTimeTZ b => is_eq (Some (date_time_tz_cmp a b))
  | VDuration a, VDuration b =>
      bool_decide (du_months a = du_months b) && bool_decide (du_days a = du_days b) && bool_decide (du_nanos a = du_nanos b)
  | VString a, VString b => bool_decide (a = b)
  | VStruct key fields, VStruct key' fields' =>
      bool_decide (key = key') && (length fields =? length fields')%nat &&
      (fix all (fields : list (Z * Value)) : bool :=
         match fields with
         | [] => true
         | (i, v) :: fields =>
             match List.find (λ f, f.1 =? i) fields' with Some f => value_eqb v f.2 | None => false end && all fields
         end) fields
  | _, _ => false
  end.

(** ** Annotations *)
Record AnnotationDoc := mk_AnnotationDoc { doc_description : option bytes }.
Record AnnotationCardinality := mk_AnnotationCardinality { card_start : Z; card_end : option Z }.
Record AnnotationRegex := mk_AnnotationRegex { regex : bytes }.
Record AnnotationRange := mk_AnnotationRange { rng_start : option Value; rng_end : option Value }.
Record AnnotationValues := mk_AnnotationValues { ann_values : list Value }.
Inductive Annotation :=
| AnnAbstract
| AnnDistinct
| AnnDoc (doc : AnnotationDoc)
| AnnIndependent
| AnnUnique
| AnnKey
| AnnCardinality (cardinality : AnnotationCardinality)
| AnnRegex (regex : AnnotationRegex)
| AnnCascade
| AnnRange (range : AnnotationRange)
| AnnValues (values : AnnotationValues).
End values.
Inductive AnnotationCategory :=
| CAbstract | CDistinct | CDoc | CIndependent | CUnique | CKey | CCardinality | CRegex | CCascade | CRange | CValues.
#[global] Instance AnnotationCategory_eq_dec : EqDecision AnnotationCategory.
Proof. solve_decision. Defined.

Module Cardinality.
Definition MAX : Z := 2 ^ 64 - 1.
Definition unchecked : AnnotationCardinality := mk_AnnotationCardinality 0 None.
Definition default : AnnotationCardinality := unchecked.
Definition eqb (a b : AnnotationCardinality) : bool :=
  bool_decide (card_start a = card_start b) && bool_decide (card_end a = card_end b).
Definition requires_validation (c : AnnotationCardinality) : bool := negb (eqb c unchecked).
Definition is_bounded_to_one (c : AnnotationCardinality) : bool := bool_decide (card_end c = Some 1).
Definition valid (c : AnnotationCardinality) : bool :=
  match card_end c with
  | Some end_inclusive =>
      if end_inclusive <? card_start c then false
      else negb ((card_start c =? end_inclusive) && (end_inclusive =? 0))
  | None => true
  end.
Definition value_satisfies_start (c : AnnotationCardinality) (value : Z) : bool := card_start c <=? value.
Definition value_satisfies_end (c : AnnotationCardinality) (value : option Z) : bool :=
  from_option id MAX value <=? from_option id MAX (card_end c).
Definition value_valid (c : AnnotationCardinality) (value : Z) : bool :=
  value_satisfies_start c value && value_satisfies_end c (Some value).
Definition narrowed_correctly_by (c other : AnnotationCardinality) : bool :=
  value_satisfies_start c (card_start other) && value_satisfies_end c (card_end other).
End Cardinality.

Module Regexes.
(** The regular expressions of the [regex] crate: whether one is well-formed,
    and whether a string matches it. *)
Class RegexCrate := { regex_ok : bytes → bool; is_match : bytes → bytes → bool }.
Section regexes.
Context `{RegexCrate}.
Definition default : AnnotationRegex := mk_AnnotationRegex [46; 42].
Definition validate (r : AnnotationRegex) : bool := match regex r with [] => false | _ => regex_ok (regex r) end.
Definition value_valid (r : AnnotationRegex) (value : bytes) : bool := regex_ok (regex r) && is_match (regex r) value.
Definition value_type_valid (t : option ValueType) : bool := bool_decide (t = Some TyString).
Definition narrowed_correctly_by (_ _ : AnnotationRegex) : bool := true.
End regexes.
End Regexes.

Module Unique.
Definition value_type_valid (t : option ValueType) : bool := match t with Some t => VType.keyable t | None => false end.
End Unique.

(** [a && b] of two computations. *)
Definition and_then (a b : outcome bool) : outcome bool := (a ≫= λ x : bool, if x then b else Val false).

Module Ranges.
Section ranges.
Context `{ChronoZoned}.
Definition default : AnnotationRange := mk_AnnotationRange (Some (VBoolean false)) (Some (VBoolean true)).
Definition type_matches (t : option ValueType) (v : Value) : bool := bool_decide (from_option id (value_type v) t = value_type v).
Definition valid (r : AnnotationRange) (t : option ValueType) : outcome bool :=
  match rng_start r, rng_end r with
  | None, None => Val false
  | None, Some end_ => Val (type_matches t end_)
  | Some start, None => Val (type_matches t start)
  | Some start, Some end_ =>
      if negb (bool_decide (value_type start = value_type end_)) then Val false
      else if negb (type_matches t start) then Val false
      else c ← cmp_unwrapped start end_; Val (is_lt c)
  end.
Definition value_satisfies_start (r : AnnotationRange) (value : option Value) : outcome bool :=
  match rng_start r, value with
  | None, _ => Val true
  | Some _, None => Val false
  | Some start, Some value => c ← cmp_unwrapped start value; Val (is_le c)
  end.
Definition value_satisfies_end (r : AnnotationRange) (value : option Value) : outcome bool :=
  match rng_end r, value with
  | None, _ => Val true
  | Some _, None => Val false
  | Some end_, Some value => c ← cmp_unwrapped end_ value; Val (is_ge c)
  end.
Definition value_valid (r : AnnotationRange) (value : Value) : outcome bool :=
  and_then (value_satisfies_start r (Some value)) (value_satisfies_end r (Some value)).
Definition value_type_valid (t : option ValueType) : bool :=
  match t with
  | Some (TyBoolean | TyInteger | TyDouble | TyDecimal | TyDate | TyDateTime | TyDateTimeTZ | TyString) => true
  | Some (TyDuration | TyStruct _) | None => false
  end.
Definition narrowed_correctly_by (r other : AnnotationRange) : outcome bool :=
  and_then (value_satisfies_start r (rng_start other)) (value_satisfies_end r (rng_end other)).
End ranges.
End Ranges.

Module ValueSets.
Section sets.
Context `{ChronoZoned}.
Definition default : AnnotationValues := mk_AnnotationValues [].
Definition contains (s : AnnotationValues) (value : Value) : bool := existsb (λ v, value_eqb v value) (ann_values s).
Fixpoint no_duplicates (l : list Value) : bool :=
  match l with [] => true | v :: l => negb (existsb (value_eqb v) l) && no_duplicates l end.
Definition valid (s : AnnotationValues) (expected : option ValueType) : bool :=
  match ann_values s with
  | [] => false
  | v :: l =>
      forallb (λ w, bool_decide (value_type w = value_type v)) l &&
      match expected with Some t => bool_decide (value_type v = t) | None => true end &&
      no_duplicates (v :: l)
  end.
Definition value_valid (s : AnnotationValues) (value : Value) : bool := contains s value.
Definition value_type_valid (t : option ValueType) : bool :=
  match t with
  | Some (TyStruct _) | None => false
  | Some _ => true
  end.
Definition narrowed_correctly_by (s other : AnnotationValues) : bool := forallb (contains s) (ann_values other).
End sets.
End ValueSets.

Module Annotations.
Definition category `{ChronoZoned} (a : Annotation) : AnnotationCategory :=
  match a with
  | AnnAbstract => CAbstract | AnnDistinct => CDistinct | AnnDoc _ => CDoc | AnnIndependent => CIndependent
  | AnnUnique => CUnique | AnnKey => CKey | AnnCardinality _ => CCardinality | AnnRegex _ => CRegex
  | AnnCascade => CCascade | AnnRange _ => CRange | AnnValues _ => CValues
  end.
Definition to_default `{ChronoZoned} (c : AnnotationCategory) : Annotation :=
  match c with
  | CAbstract => AnnAbstract | CDistinct => AnnDistinct | CDoc => AnnDoc (mk_AnnotationDoc None)
  | CIndependent => AnnIndependent | CUnique => AnnUnique | CKey => AnnKey
  | CCardinality => AnnCardinality Cardinality.default | CRegex => AnnRegex Regexes.default
  | CCascade => AnnCascade | CRange => AnnRange Ranges.default | CValues => AnnValues ValueSets.default
  end.
Definition declarable_alongside (c other : AnnotationCategory) : bool :=
  match c, other with
  | CUnique, CKey | CCardinality, CKey => false
  | CKey, (CUnique | CCardinality) => false
  | _, _ => true
  end.
Definition has_parameter (c : AnnotationCategory) : bool :=
  match c with CCardinality | CDoc | CRegex | CRange | CValues => true | _ => false end.
Definition is_value_type_annotation_category (c : AnnotationCategory) : bool :=
  match c with CRegex | CRange | CValues => true | _ => false end.
End Annotations.

(** ** The annotations of each kind of type and of each capability

    [EntityTypeAnnotation] and the like have the payloads of [Annotation] for
    some of its categories; their values are the annotations of these. *)
Inductive AnnotationTarget := OnType (kind : Kind) | OnOwns | OnPlays | OnRelates.
Inductive AnnotationError := UnsupportedAnnotationFor (target : AnnotationTarget) (category : AnnotationCategory).
Definition supported (target : AnnotationTarget) (c : AnnotationCategory) : bool :=
  match target, c with
  | OnType KEntity, (CAbstract | CDoc) => true
  | OnType KRelation, (CAbstract | CCascade | CDoc) => true
  | OnType KAttribute, (CAbstract | CIndependent | CRegex | CRange | CValues | CDoc) => true
  | OnType KRole, CDoc => true
  | OnOwns, (CDistinct | CUnique | CKey | CCardinality | CRegex | CRange | CValues) => true
  | OnPlays, CCardinality => true
  | OnRelates, (CAbstract | CDistinct | CCardinality) => true
  | _, _ => false
  end.
Section annotations.
Context `{ChronoZoned}.
Definition try_from (target : AnnotationTarget) (a : Annotation) : exec AnnotationError Annotation :=
  if supported target (Annotations.category a) then Val a else Err (UnsupportedAnnotationFor target (Annotations.category a)).
Definition try_getting_default (target : AnnotationTarget) (c : AnnotationCategory) : exec AnnotationError Annotation :=
  try_from target (Annotations.to_default c).

(** ** Constraints *)
Inductive ConstraintCategory := KAbstract | KDistinct | KIndependent | KUnique | KCardinality | KRegex | KRange | KValues.
#[global] Instance ConstraintCategory_eq_dec : EqDecision ConstraintCategory.
Proof. solve_decision. Defined.
Inductive ConstraintDescription :=
| DAbstract
| DDistinct
| DIndependent
| DUnique
| DCardinality (cardinality : AnnotationCardinality)
| DRegex (regex : AnnotationRegex)
| DRange (range : AnnotationRange)
| DValues (values : AnnotationValues).
Inductive ConstraintScope :=
| SingleInstanceOfType | SingleInstanceOfTypeOrSubtype | AllInstancesOfSiblingTypeOrSubtypes | AllInstancesOfTypeOrSubtypes.
Definition KEY_CARDINALITY : AnnotationCardinality := mk_AnnotationCardinality 1 (Some 1).
Definition from_annotation (a : Annotation) : list ConstraintDescription :=
  match a with
  | AnnAbstract => [DAbstract]
  | AnnDistinct => [DDistinct]
  | AnnIndependent => [DIndependent]
  | AnnUnique => [DUnique]
  | AnnCardinality c => [DCardinality c]
  | AnnRegex r => [DRegex r]
  | AnnRange r => [DRange r]
  | AnnValues v => [DValues v]
  | AnnKey => [DUnique; DCardinality KEY_CARDINALITY]
  | AnnCascade | AnnDoc _ => []
  end.
Definition constraint_category (d : ConstraintDescription) : ConstraintCategory :=
  match d with
  | DAbstract => KAbstract | DDistinct => KDistinct | DIndependent => KIndependent | DUnique => KUnique
  | DCardinality _ => KCardinality | DRegex _ => KRegex | DRange _ => KRange | DValues _ => KValues
  end.
Definition scope_of (d : ConstraintDescription) : ConstraintScope :=
  match d with
  | DAbstract => SingleInstanceOfType
  | DDistinct | DIndependent | DRegex _ | DRange _ | DValues _ => SingleInstanceOfTypeOrSubtype
  | DCardinality _ => AllInstancesOfSiblingTypeOrSubtypes
  | DUnique => AllInstancesOfTypeOrSubtypes
  end.
Definition requires_validation (d : ConstraintDescription) : bool :=
  match d with DCardinality c => Cardinality.requires_validation c | DIndependent => false | _ => true end.
Definition requires_operation_time_validation (d : ConstraintDescription) : bool :=
  match d with DCardinality _ | DIndependent => false | _ => true end.
Definition narrowed_correctly_by (d other : ConstraintDescription) (allow_different_description : bool) : outcome bool :=
  let default := if allow_different_description then Val true else Panic in
  match d with
  | DAbstract | DDistinct | DIndependent | DUnique => Val true
  | DRegex r => match other with DRegex o => Val (Regexes.narrowed_correctly_by r o) | _ => default end
  | DCardinality c => match other with DCardinality o => Val (Cardinality.narrowed_correctly_by c o) | _ => default end
  | DRange r => match other with DRange o => Ranges.narrowed_correctly_by r o | _ => default end
  | DValues v => match other with DValues o => Val (ValueSets.narrowed_correctly_by v o) | _ => default end
  end.
Definition narrowed_by_strictly_same_type (d other : ConstraintDescription) : outcome bool := narrowed_correctly_by d other false.
Definition narrowed_by_any_type (d other : ConstraintDescription) : outcome bool := narrowed_correctly_by d other true.

Inductive ConstraintError :=
| CannotUnwrap (type_ : ConstraintCategory)
| CorruptConstraintIsNotApplicableToValue (description : ConstraintDescription) (value : Value)
| IsNotNarrowedBy (first second : ConstraintDescription)
| ViolatedCardinality (cardinality : AnnotationCardinality) (count : Z)
| ViolatedRegex (regex : AnnotationRegex) (value : Value)
| ViolatedRange (range : AnnotationRange) (value : Value)
| ViolatedValues (values : AnnotationValues) (value : Value)
| ViolatedDistinct (count : Z).
Definition check_bool (b : outcome bool) (e : ConstraintError) : exec ConstraintError unit :=
  x ← lift b; if (x : bool) then Val tt else Err e.
Definition validate_narrowed_by_strictly_same_type (d other : ConstraintDescription) : exec ConstraintError unit :=
  check_bool (narrowed_by_strictly_same_type d other) (IsNotNarrowedBy d other).
Definition validate_narrowed_by_any_type (d other : ConstraintDescription) : exec ConstraintError unit :=
  check_bool (narrowed_by_any_type d other) (IsNotNarrowedBy d other).
Definition validate_narrows_strictly_same_type (d other : ConstraintDescription) : exec ConstraintError unit :=
  check_bool (narrowed_by_strictly_same_type other d) (IsNotNarrowedBy other d).
Definition validate_narrows_any_type (d other : ConstraintDescription) : exec ConstraintError unit :=
  check_bool (narrowed_by_any_type other d) (IsNotNarrowedBy other d).
Definition unwrap_cardinality (d : ConstraintDescription) : exec ConstraintError AnnotationCardinality :=
  match d with DCardinality c => Val c | _ => Err (CannotUnwrap KCardinality) end.
Definition unwrap_regex (d : ConstraintDescription) : exec ConstraintError AnnotationRegex :=
  match d with DRegex r => Val r | _ => Err (CannotUnwrap KRegex) end.
Definition unwrap_range (d : ConstraintDescription) : exec ConstraintError AnnotationRange :=
  match d with DRange r => Val r | _ => Err (CannotUnwrap KRange) end.
Definition unwrap_values (d : ConstraintDescription) : exec ConstraintError AnnotationValues :=
  match d with DValues v => Val v | _ => Err (CannotUnwrap KValues) end.
Definition validate_cardinality (d : ConstraintDescription) (count : Z) : exec ConstraintError unit :=
  cardinality ← unwrap_cardinality d;
  check_bool (Val (Cardinality.value_valid cardinality count)) (ViolatedCardinality cardinality count).
Definition validate_regex `{Regexes.RegexCrate} (d : ConstraintDescription) (value : Value) : exec ConstraintError unit :=
  match value with
  | VString s => regex ← unwrap_regex d; check_bool (Val (Regexes.value_valid regex s)) (ViolatedRegex regex value)
  | _ => Err (CorruptConstraintIsNotApplicableToValue d value)
  end.
Definition validate_range (d : ConstraintDescription) (value : Value) : exec ConstraintError unit :=
  range ← unwrap_range d; check_bool (Ranges.value_valid range value) (ViolatedRange range value).
Definition validate_values (d : ConstraintDescription) (value : Value) : exec ConstraintError unit :=
  values ← unwrap_values d; check_bool (Val (ValueSets.value_valid values value)) (ViolatedValues values value).
Definition validate_distinct (count : Z) : exec ConstraintError unit :=
  if 1 <? count then Err (ViolatedDistinct count) else Val tt.
End annotations.

(** ** Narrowing *)
Section narrowing.
Context `{ChronoZoned}.
(** Values that can be compared, as lists of numbers in the same order. *)
Definition order_key (v : Value) : option (ValueTypeCategory * list Z) :=
  match v with
  | VBoolean b => Some (CatBoolean, [Z.b2z b])
  | VInteger i => Some (CatInteger, [i])
  | VDouble d => if is_nan d then None else Some (CatDouble, [f64_rank d])
  | VDecimal d => Some (CatDecimal, [dec_integer d; dec_fractional d])
  | VDate d => Some (CatDate, [num_days_from_ce d])
  | VDateTime t => Some (CatDateTime, [timestamp t; timestamp_subsec_nanos t])
  | VDateTimeTZ t => Some (CatDateTimeTZ, [timestamp (naive_utc t); timestamp_subsec_nanos (naive_utc t)])
  | VString s => Some (CatString, s)
  | VDuration _ | VStruct _ _ => None
  end.
Lemma cmp_singleton (x y : Z) : cmp [x] [y] = cmp x y.
Proof. cbn. by destruct (cmp x y). Qed.
Lemma dec_cmp_list a b : Dec.compare a b = cmp [dec_integer a; dec_fractional a] [dec_integer b; dec_fractional b].
Proof.
  unfold Dec.compare. cbn. change (dec_integer a ?= dec_integer b) with (cmp (dec_integer a) (dec_integer b)).
  change (dec_fractional a ?= dec_fractional b) with (cmp (dec_fractional a) (dec_fractional b)).
  destruct (cmp (dec_integer a) _); [|done..]. by destruct (cmp (dec_fractional a) _).
Qed.
Lemma cmp_unwrapped_spec a b c :
  cmp_unwrapped a b = Val (Some c) ↔ ∃ t ka kb, order_key a = Some (t, ka) ∧ order_key b = Some (t, kb) ∧ c = cmp ka kb.
Proof.
  split.
  - destruct b, a; cbn [cmp_unwrapped order_key]; try discriminate; unfold f64_partial_cmp, bool_cmp, date_cmp, date_time_tz_cmp, date_time_cmp;
      try (destruct (is_nan _); [discriminate|]); try (destruct (is_nan _); [discriminate|]); cbn [orb]; intros [= <-];
      eexists _, _, _; (split; [done|]); (split; [done|]); by rewrite ?cmp_singleton, ?dec_cmp_list.
  - intros (t & ka & kb & Ha & Hb & ->). destruct b, a; cbn [cmp_unwrapped order_key] in *;
      repeat match goal with H : (if is_nan ?d then _ else _) = _ |- _ => destruct (is_nan d) eqn:? end; simplify_eq;
      unfold f64_partial_cmp, bool_cmp, date_cmp, date_time_tz_cmp, date_time_cmp;
      repeat match goal with H : is_nan _ = _ |- _ => rewrite H end; cbn [orb]; by rewrite ?cmp_singleton, ?dec_cmp_list.
Qed.
(** Two values in order: [le a b] is [a <= b], both of one type. *)
Definition le (a b : Value) : Prop := ∃ t ka kb, order_key a = Some (t, ka) ∧ order_key b = Some (t, kb) ∧ cmp ka kb ≠ Gt.
Lemma le_trans a b c : le a b → le b c → le a c.
Proof.
  intros (t & ka & kb & Ha & Hb & H1) (t' & kb' & kc & Hb' & Hc & H2). simplify_eq. eexists _, _, _. split_and!; [done..|].
  by eapply cmp_le_trans.
Qed.
Lemma le_spec a b : (c ← cmp_unwrapped a b; Val (is_le c)) = Val (E:=Empty_set) true ↔ le a b.
Proof.
  split.
  - destruct (cmp_unwrapped a b) as [[c|]|[]|] eqn:Hc; [|done..]. apply cmp_unwrapped_spec in Hc as (t & ka & kb & Ha & Hb & ->).
    cbn. intros Hle. exists t, ka, kb. split_and!; [done..|]. intros Hgt. by rewrite Hgt in Hle.
  - intros (t & ka & kb & Ha & Hb & Hle). rewrite (proj2 (cmp_unwrapped_spec a b (cmp ka kb))) by eauto 10. cbn. f_equal. by destruct (cmp ka kb).
Qed.
Lemma ge_spec a b : (c ← cmp_unwrapped a b; Val (is_ge c)) = Val (E:=Empty_set) true ↔ le b a.
Proof.
  split.
  - destruct (cmp_unwrapped a b) as [[c|]|[]|] eqn:Hc; [|done..]. apply cmp_unwrapped_spec in Hc as (t & ka & kb & Ha & Hb & ->).
    cbn. intros Hge. exists t, kb, ka. split_and!; [done..|]. rewrite (cmp_opp ka kb). by destruct (cmp ka kb).
  - intros (t & kb & ka & Hb & Ha & Hle). rewrite (proj2 (cmp_unwrapped_spec a b (cmp ka kb))) by eauto 10. cbn. f_equal.
    rewrite (cmp_opp ka kb) in Hle. by destruct (cmp ka kb).
Qed.
Lemma and_then_true a b : and_then a b = Val true ↔ a = Val true ∧ b = Val true.
Proof. unfold and_then. destruct a as [[]|[]|]; cbn; naive_solver. Qed.
(** The values a range admits. *)
Definition admits (r : AnnotationRange) (v : Value) : Prop :=
  (∀ start, rng_start r = Some start → le start v) ∧ ∀ end_, rng_end r = Some end_ → le v end_.
Lemma start_spec r o : Ranges.value_satisfies_start r o = Val true ↔ ∀ start, rng_start r = Some start → ∃ v, o = Some v ∧ le start v.
Proof.
  unfold Ranges.value_satisfies_start. destruct (rng_start r) as [start|], o as [v|]; [|naive_solver..].
  rewrite le_spec. naive_solver.
Qed.
Lemma end_spec r o : Ranges.value_satisfies_end r o = Val true ↔ ∀ end_, rng_end r = Some end_ → ∃ v, o = Some v ∧ le v end_.
Proof.
  unfold Ranges.value_satisfies_end. destruct (rng_end r) as [end_|], o as [v|]; [|naive_solver..].
  rewrite ge_spec. naive_solver.
Qed.
Lemma range_admits r v : Ranges.value_valid r v = Val true ↔ admits r v.
Proof.
  unfold Ranges.value_valid. rewrite and_then_true, start_spec, end_spec. unfold admits. naive_solver.
Qed.
Lemma range_narrowing r o v : Ranges.narrowed_correctly_by r o = Val true → admits o v → admits r v.
Proof.
  unfold Ranges.narrowed_correctly_by. rewrite and_then_true, start_spec, end_spec. intros [Hs He] [H1 H2]. split.
  - intros start Hr. destruct (Hs start Hr) as (w & Hw & Hle). apply (le_trans _ w); [done|by apply H1].
  - intros end_ Hr. destruct (He end_ Hr) as (w & Hw & Hle). apply (le_trans _ w); [by apply H2|done].
Qed.
Lemma cardinality_narrowing c o n :
  Cardinality.narrowed_correctly_by c o = true → Cardinality.value_valid o n = true → 0 ≤ n ≤ Cardinality.MAX → Cardinality.value_valid c n = true.
Proof.
  unfold Cardinality.narrowed_correctly_by, Cardinality.value_valid, Cardinality.value_satisfies_start, Cardinality.value_satisfies_end, Cardinality.MAX.
  rewrite !andb_true_iff, !Z.leb_le. cbn [from_option]. destruct (card_end c), (card_end o); unfold id; lia.
Qed.
End narrowing.

(** ** Equality of values *)
Section equality.
Context `{ChronoZoned}.
(** Induction over a value and the values of its fields. *)
Lemma value_ind' (P : Value → Prop) :
  (∀ b, P (VBoolean b)) → (∀ i, P (VInteger i)) → (∀ d, P (VDouble d)) → (∀ d, P (VDecimal d)) → (∀ d, P (VDate d)) →
  (∀ t, P (VDateTime t)) → (∀ t, P (VDateTimeTZ t)) → (∀ d, P (VDuration d)) → (∀ s, P (VString s)) →
  (∀ key fields, Forall (λ f, P f.2) fields → P (VStruct key fields)) → ∀ v, P v.
Proof.
  intros H1 H2 H3 H4 H5 H6 H7 H8 H9 H10. fix IH 1. intros [b|i|d|d|d|t|t|d|s|key fields]; [done..|]. apply H10.
  induction fields as [|[i v] fields IHf]; [constructor|]. constructor; [apply IH|exact IHf].
Qed.
Definition fields_eqb (fields fields' : list (Z * Value)) : bool :=
  forallb (λ f, match List.find (λ g : Z * Value, g.1 =? f.1) fields' with Some g => value_eqb f.2 g.2 | None => false end) fields.
Lemma struct_eqb key fields key' fields' :
  value_eqb (VStruct key fields) (VStruct key' fields') = bool_decide (key = key') && (length fields =? length fields')%nat && fields_eqb fields fields'.
Proof.
  cbn [value_eqb]. f_equal. unfold fields_eqb. induction fields as [|[i v] fields IH]; [done|]. cbn [forallb fst snd]. by rewrite IH.
Qed.
Lemma f64_eq_trans a b c : is_eq (f64_partial_cmp a b) = true → is_eq (f64_partial_cmp b c) = true → is_eq (f64_partial_cmp a c) = true.
Proof.
  unfold f64_partial_cmp. destruct (is_nan a), (is_nan b), (is_nan c); cbn [orb]; [done..|].
  intros H1 H2. destruct (cmp (f64_rank a) (f64_rank b)) eqn:E1; [|done..]. apply cmp_eq in E1 as ->. done.
Qed.
Lemma cmp_eq_trans {K} `{OrderedLaws K} (a b c : K) :
  is_eq (Some (cmp a b)) = true → is_eq (Some (cmp b c)) = true → is_eq (Some (cmp a c)) = true.
Proof. destruct (cmp a b) eqn:E1; [|done..]. apply cmp_eq in E1 as ->. done. Qed.
Lemma value_eqb_trans a b c : value_eqb a b = true → value_eqb b c = true → value_eqb a c = true.
Proof.
  revert b c. induction a as [ | | | | | | | | |key fields IH] using value_ind'; intros b' c'; (destruct b' as [ | | | | | | | | |key' fields'], c' as [ | | | | | | | | |key'' fields'']; try done);
    rewrite ?struct_eqb; cbn [value_eqb]; rewrite ?andb_true_iff, ?bool_decide_eq_true; [naive_solver|naive_solver|apply f64_eq_trans| | | | | |naive_solver|].
  - naive_solver congruence.
  - apply (cmp_eq_trans (K:=Z)).
  - apply (cmp_eq_trans (K:=list Z)).
  - apply (cmp_eq_trans (K:=list Z)).
  - naive_solver congruence.
  - rewrite !Nat.eqb_eq. intros [[-> ->] H1] [[-> ->] H2]. split_and!; [done|done|]. unfold fields_eqb in *. rewrite !forallb_forall in *.
    intros [i v] Hin. specialize (H1 (i, v) Hin). cbn [fst snd] in *. destruct (List.find _ fields') as [[j w]|] eqn:Hf; [|done].
    apply List.find_some in Hf as [Hw Hj%Z.eqb_eq]. cbn [fst snd] in *. subst j. specialize (H2 (i, w) Hw). cbn [fst snd] in H2.
    destruct (List.find _ fields'') as [g|]; [|done]. rewrite Forall_forall in IH. apply (IH (i, v)) with (b := w); [by apply list_elem_of_In|done|done].
Qed.
Lemma values_narrowing s o v : ValueSets.narrowed_correctly_by s o = true → ValueSets.value_valid o v = true → ValueSets.value_valid s v = true.
Proof.
  unfold ValueSets.narrowed_correctly_by, ValueSets.value_valid, ValueSets.contains. rewrite forallb_forall, !existsb_exists.
  intros Hn (w & Hw & Hwv). specialize (Hn w Hw). apply existsb_exists in Hn as (u & Hu & Huw). exists u. split; [done|]. by eapply value_eqb_trans.
Qed.
End equality.

(** ** Stored annotations

    [annotation.rs] serialises ranges and value sets field by field, the values
    in their encoding; the fields are put together by the [bincode] crate. *)
Abbreviation RangeFields := (bytes * option bytes * option bytes)%type.
Abbreviation ValuesFields := (bytes * list bytes)%type.
Class AnnotationBincode := {
  bincode_cardinality :: Bincode AnnotationCardinality;
  bincode_range :: Bincode RangeFields;
  bincode_values :: Bincode ValuesFields;
}.
(** What is written reads back. *)
Class AnnotationBincodeLaws `{AnnotationBincode} : Prop := {
  cardinality_inverse (c : AnnotationCardinality) : deserialize (serialize c) = Val c;
  range_fields_inverse (r : RangeFields) : deserialize (serialize r) = Val r;
  values_fields_inverse (v : ValuesFields) : deserialize (serialize v) = Val v;
}.
Section stored.
Context `{ChronoZoned} `{AnnotationBincode}.
Definition serialize_value (v : Value) : outcome bytes :=
  match v with
  | VBoolean b => encode_inline CatBoolean b
  | VInteger i => encode_inline CatInteger i
  | VDouble d => encode_inline CatDouble d
  | VDecimal d => encode_inline CatDecimal d
  | VDate d => encode_inline CatDate d
  | VDateTime t => encode_inline CatDateTime t
  | VDateTimeTZ t => encode_inline CatDateTimeTZ t
  | VDuration d => encode_inline CatDuration d
  | VString s => Val s
  | VStruct _ _ => Panic
  end.
(** [bytes.try_into().unwrap()] and the decoding of the type. *)
Definition decode_exactly {T} (category : ValueTypeCategory) `{!InlineEncodable category T} (inj : T → Value) (bs : bytes) : outcome Value :=
  bs ← into_array (EncLen.length (ENCODED_LENGTH_ID category T)) bs; v ← decode_inline category bs; Val (inj v).
Definition deserialize_value (bs : bytes) (category : ValueTypeCategory) : outcome Value :=
  match category with
  | CatBoolean => decode_exactly CatBoolean VBoolean bs
  | CatInteger => decode_exactly CatInteger VInteger bs
  | CatDouble => decode_exactly CatDouble VDouble bs
  | CatDecimal => decode_exactly CatDecimal VDecimal bs
  | CatDate => decode_exactly CatDate VDate bs
  | CatDateTime => decode_exactly CatDateTime VDateTime bs
  | CatDateTimeTZ => decode_exactly CatDateTimeTZ VDateTimeTZ bs
  | CatDuration => decode_exactly CatDuration VDuration bs
  | CatString => s ← as_str bs; Val (VString s)
  | CatStruct => Panic
  end.
Definition serialize_annotation_range_value_field (value : option Value) : outcome (option bytes) :=
  match value with
  | None => Val None
  | Some (VDuration _) | Some (VStruct _ _) => Panic
  | Some v => bs ← serialize_value v; Val (Some bs)
  end.
Definition deserialize_annotation_range_value_field (bs : option bytes) (category : ValueTypeCategory) : outcome (option Value) :=
  match bs with
  | None => Val None
  | Some bs => match category with CatDuration | CatStruct => Panic | _ => v ← deserialize_value bs category; Val (Some v) end
  end.
Definition serialize_range (r : AnnotationRange) : outcome bytes :=
  let or_end := match rng_start r with Some v => Some v | None => rng_end r end in
  value ← unwrap or_end;
  start ← serialize_annotation_range_value_field (rng_start r);
  end_ ← serialize_annotation_range_value_field (rng_end r);
  Val (serialize ((Category.to_bytes (category value), start, end_) : RangeFields)).
Definition deserialize_range (bs : bytes) : outcome AnnotationRange :=
  '(category, start, end_) ← (deserialize bs : outcome RangeFields);
  category ← Category.from_bytes category;
  start ← deserialize_annotation_range_value_field start category;
  end_ ← deserialize_annotation_range_value_field end_ category;
  Val (mk_AnnotationRange start end_).
Fixpoint serialize_annotation_values_value_field (values : list Value) : outcome (list bytes) :=
  match values with
  | [] => Val []
  | v :: values => bs ← serialize_value v; bss ← serialize_annotation_values_value_field values; Val (bs :: bss)
  end.
Fixpoint deserialize_annotation_values_value_field (bss : list bytes) (category : ValueTypeCategory) : outcome (list Value) :=
  match bss with
  | [] => Val []
  | bs :: bss =>
      v ← deserialize_value bs category; values ← deserialize_annotation_values_value_field bss category; Val (v :: values)
  end.
Definition serialize_values (s : AnnotationValues) : outcome bytes :=
  first ← unwrap (head (ann_values s));
  bss ← serialize_annotation_values_value_field (ann_values s);
  Val (serialize ((Category.to_bytes (category first), bss) : ValuesFields)).
Definition deserialize_values (bs : bytes) : outcome AnnotationValues :=
  '(category, bss) ← (deserialize bs : outcome ValuesFields);
  category ← Category.from_bytes category;
  values ← deserialize_annotation_values_value_field bss category;
  Val (mk_AnnotationValues values).
Definition doc_from_value_bytes (value : bytes) : outcome AnnotationDoc :=
  match value with [] => Val (mk_AnnotationDoc None) | _ => s ← as_str value; Val (mk_AnnotationDoc (Some s)) end.
Definition doc_to_value_bytes (d : AnnotationDoc) : option bytes := doc_description d.
Definition regex_from_value_bytes (value : bytes) : outcome AnnotationRegex := s ← as_str value; Val (mk_AnnotationRegex s).

(** Where an annotation is stored. *)
Definition annotation_infix (c : AnnotationCategory) : Infix :=
  match c with
  | CAbstract => PropertyAnnotationAbstract | CDistinct => PropertyAnnotationDistinct | CDoc => PropertyAnnotationDoc
  | CIndependent => PropertyAnnotationIndependent | CUnique => PropertyAnnotationUnique | CKey => PropertyAnnotationKey
  | CCardinality => PropertyAnnotationCardinality | CRegex => PropertyAnnotationRegex | CCascade => PropertyAnnotationCascade
  | CRange => PropertyAnnotationRange | CValues => PropertyAnnotationValues
  end.
(** The value that [storage_save_annotation] stores; the document of a [@doc]
    without a description is unwrapped, and cardinalities have no encoding for
    types. *)
Definition annotation_value (target : AnnotationTarget) (a : Annotation) : outcome bytes :=
  match a with
  | AnnAbstract | AnnDistinct | AnnIndependent | AnnUnique | AnnKey | AnnCascade => Val []
  | AnnDoc doc => unwrap (doc_to_value_bytes doc)
  | AnnCardinality c => match target with OnType _ => Panic | _ => Val (serialize c) end
  | AnnRegex r => Val (regex r)
  | AnnRange r => serialize_range r
  | AnnValues v => serialize_values v
  end.
(** The annotation of a type under an infix; cardinalities are not decoded for
    types. *)
Definition decode_type_annotation (infix : Infix) (value : bytes) : outcome Annotation :=
  match infix with
  | PropertyAnnotationAbstract => Val AnnAbstract
  | PropertyAnnotationDistinct => Val AnnDistinct
  | PropertyAnnotationIndependent => Val AnnIndependent
  | PropertyAnnotationRegex => r ← regex_from_value_bytes value; Val (AnnRegex r)
  | PropertyAnnotationCascade => Val AnnCascade
  | PropertyAnnotationRange => r ← deserialize_range value; Val (AnnRange r)
  | PropertyAnnotationValues => v ← deserialize_values value; Val (AnnValues v)
  | PropertyAnnotationDoc => d ← doc_from_value_bytes value; Val (AnnDoc d)
  | _ => Panic
  end.
Definition decode_capability_annotation (infix : Infix) (value : bytes) : outcome Annotation :=
  match infix with
  | PropertyAnnotationDistinct => Val AnnDistinct
  | PropertyAnnotationIndependent => Val AnnIndependent
  | PropertyAnnotationUnique => Val AnnUnique
  | PropertyAnnotationKey => Val AnnKey
  | PropertyAnnotationCardinality => c ← (deserialize value : outcome AnnotationCardinality); Val (AnnCardinality c)
  | PropertyAnnotationRegex => r ← regex_from_value_bytes value; Val (AnnRegex r)
  | PropertyAnnotationRange => r ← deserialize_range value; Val (AnnRange r)
  | PropertyAnnotationValues => v ← deserialize_values value; Val (AnnValues v)
  | PropertyAnnotationAbstract => Val AnnAbstract
  | _ => Panic
  end.
Definition decode_annotation (target : AnnotationTarget) (infix : Infix) (value : bytes) : outcome Annotation :=
  match target with OnType _ => decode_type_annotation infix value | _ => decode_capability_annotation infix value end.
End stored.

(** ** What is stored reads back *)
Section round_trip.
Context `{ChronoLaws} `{AnnotationBincodeLaws}.
(** The values an annotation can hold. *)
Definition storable_value (v : Value) : Prop :=
  match v with
  | VBoolean _ | VDate _ => True
  | VInteger i => is_i64 i
  | VDouble d => is_u64 d
  | VDecimal d => decimal_valid d
  | VDateTime t => date_time_valid t
  | VDateTimeTZ t => date_time_tz_valid t
  | VDuration d => duration_valid d
  | VString s => utf8 s = true
  | VStruct _ _ => False
  end.
Definition storable_bound (c : ValueTypeCategory) (o : option Value) : Prop :=
  ∀ v, o = Some v → storable_value v ∧ category v = c ∧ c ≠ CatDuration.
Definition storable (a : Annotation) : Prop :=
  match a with
  | AnnDoc d => ∃ s, doc_description d = Some s ∧ s ≠ [] ∧ utf8 s = true
  | AnnRegex r => utf8 (regex r) = true
  | AnnRange r => (is_Some (rng_start r) ∨ is_Some (rng_end r)) ∧ ∃ c, storable_bound c (rng_start r) ∧ storable_bound c (rng_end r)
  | AnnValues s => ann_values s ≠ [] ∧ ∃ c, Forall (λ v, storable_value v ∧ category v = c) (ann_values s)
  | _ => True
  end.
Lemma exactly_round_trip {T} c `{InlineEncodableLaws c T P} (inj : T → Value) v :
  P v → ∃ bs, encode_inline c v = Val bs ∧ decode_exactly c inj bs = Val (inj v).
Proof.
  intros Hv. destruct (inline_round_trip v Hv) as (bs & He & Hl & _ & Hd). exists bs. split; [done|].
  unfold decode_exactly, into_array. rewrite Hl, Nat.eqb_refl. cbn [mbind exec_bind]. by rewrite Hd.
Qed.
Lemma value_round_trip v : storable_value v → ∃ bs, serialize_value v = Val bs ∧ deserialize_value bs (category v) = Val v.
Proof.
  destruct v; cbn [storable_value serialize_value category value_type VType.category deserialize_value]; intros Hv;
    try (by apply (exactly_round_trip _)).
  - exists s. split; [done|]. unfold as_str. by rewrite Hv.
  - done.
Qed.
Lemma bound_round_trip c o :
  storable_bound c o → ∃ f, serialize_annotation_range_value_field o = Val f ∧ deserialize_annotation_range_value_field f c = Val o.
Proof.
  intros Ho. destruct o as [v|]; [|by exists None]. destruct (Ho v eq_refl) as (Hv & Hc & Hd).
  destruct (value_round_trip v Hv) as (bs & Hs & Hr). exists (Some bs). split.
  - destruct v; cbn [serialize_annotation_range_value_field]; try (by rewrite Hs); [by subst c|done].
  - unfold deserialize_annotation_range_value_field. subst c. rewrite Hr. destruct v; (done || by destruct Hd).
Qed.
Lemma range_round_trip r : storable (AnnRange r) → ∃ bs, serialize_range r = Val bs ∧ deserialize_range bs = Val r.
Proof.
  intros [Hsome (c & Hs & He)]. destruct (bound_round_trip c _ Hs) as (f & Hf & Hf'). destruct (bound_round_trip c _ He) as (g & Hg & Hg').
  assert (∃ v, (match rng_start r with Some v => Some v | None => rng_end r end) = Some v ∧ category v = c) as (v & Hv & Hc).
  { destruct (rng_start r) as [v|]; [exists v; split; [done|by apply Hs]|]. destruct Hsome as [[? ?]|[v Hv]]; [done|]. exists v. split; [done|by apply He]. }
  unfold serialize_range. rewrite Hv. cbn [unwrap mbind exec_bind]. rewrite Hf, Hg. cbn [mbind exec_bind]. eexists. split; [done|].
  unfold deserialize_range. rewrite range_fields_inverse. cbn [mbind exec_bind]. rewrite Hc, category_round_trip. cbn [mbind exec_bind].
  rewrite Hf', Hg'. cbn [mbind exec_bind]. by destruct r.
Qed.
Lemma values_fields_round_trip c l :
  Forall (λ v, storable_value v ∧ category v = c) l →
  ∃ bss, serialize_annotation_values_value_field l = Val bss ∧ deserialize_annotation_values_value_field bss c = Val l.
Proof.
  induction 1 as [|v l [Hv Hc] _ (bss & Hs & Hd)]; [by exists []|]. destruct (value_round_trip v Hv) as (bs & Hb & Hr).
  exists (bs :: bss). cbn. rewrite Hb, Hs. split; [done|]. rewrite <-Hc, Hr, Hc. cbn. by rewrite Hd.
Qed.
Lemma values_round_trip s : storable (AnnValues s) → ∃ bs, serialize_values s = Val bs ∧ deserialize_values bs = Val s.
Proof.
  intros [Hne (c & Hall)]. destruct (values_fields_round_trip c _ Hall) as (bss & Hs & Hd). unfold serialize_values.
  destruct s as [[|v l]]; [done|]. cbn [ann_values head unwrap mbind exec_bind] in *. rewrite Hs. cbn [mbind exec_bind]. eexists. split; [done|].
  unfold deserialize_values. rewrite values_fields_inverse. cbn [mbind exec_bind]. rewrite category_round_trip. cbn [mbind exec_bind].
  apply Forall_cons in Hall as [[_ ->] _]. by rewrite Hd.
Qed.
Lemma annotation_round_trip target a :
  supported target (Annotations.category a) = true → storable a →
  ∃ bs, annotation_value target a = Val bs ∧ decode_annotation target (annotation_infix (Annotations.category a)) bs = Val a.
Proof.
  intros Hsup Hst. destruct a as [| |[d]| | | |c|[r]| |r|v]; cbn [annotation_value Annotations.category annotation_infix] in *.
  1-2,4-6,9: exists []; split; [done|]; destruct target as [[]| | |]; (discriminate Hsup || done).
  - destruct Hst as (s & Hd & Hne & Hu). cbn in Hd. subst d. exists s. split; [done|]. destruct target as [[]| | |]; try discriminate Hsup;
      cbn [decode_annotation decode_type_annotation]; unfold doc_from_value_bytes, as_str; rewrite Hu; by destruct s.
  - exists (serialize c). destruct target as [[]| | |]; try discriminate Hsup; cbn [decode_annotation decode_capability_annotation];
      by rewrite cardinality_inverse.
  - exists r. split; [done|]. cbn in Hst. destruct target as [[]| | |]; try discriminate Hsup; cbn; unfold regex_from_value_bytes, as_str; by rewrite Hst.
  - destruct (range_round_trip r Hst) as (bs & Hs & Hd). exists bs. split; [done|].
    destruct target as [[]| | |]; try discriminate Hsup; cbn [decode_annotation decode_type_annotation decode_capability_annotation]; by rewrite Hd.
  - destruct (values_round_trip v Hst) as (bs & Hs & Hd). exists bs. split; [done|].
    destruct target as [[]| | |]; try discriminate Hsup; cbn [decode_annotation decode_type_annotation decode_capability_annotation]; by rewrite Hd.
Qed.
End round_trip.
