(* ===== verification/TypeReader.v ===== *)
(** * Reading and writing the schema:
    [concept/type_/type_manager/type_reader.rs] and
    [concept/type_/type_manager/type_writer.rs]

    The readers scan the edges and properties of types in a snapshot; the
    writers put and delete every edge in both directions.  A hash set is a
    finite set, and what iterates over one sees its elements in an order that is
    arbitrary: [HashIteration]. *)
From stdpp Require Import strings gmap.
From S2P Require Import Prelude BTree Bytes MemoryStore Buffer LendingIter Mvcc Keyspaces Snapshot Dependency Timeline Isolation Storage Views Layout Values Structs Attributes Things Edges ThingManager Pattern TypeEdges.
Import KeyRangeOps.
#[local] Open Scope Z_scope.

(** The order of iteration over a [HashSet]. *)
Class HashIteration := {
  iter_types : gset Z → list Z;
  iter_edges : gset edge → list edge;
  iter_types_elements s : iter_types s ≡ₚ elements s;
  iter_edges_elements s : iter_edges s ≡ₚ elements s;
}.

Module TypeReader.
Section reader.
Context `{HashIteration}.
Abbreviation read := (exec ConceptReadError).

(** [iterate_range] within a prefix, and [collect_cloned_hashset],
    [collect_cloned_vec] and [first_cloned] of its result. *)
Definition collect_hashset {A} `{Countable A} (fuel : nat) (prefix : EncodingKeyspace * bytes) (fixed_width : bool)
    (mapper : bytes → bytes → outcome A) (s : WriteSnapshot) : read (gset A) :=
  it ← lift (TM.iterate_prefix prefix fixed_width s);
  TM.for_each fuel fuel (λ e, e) (λ key value found, a ← lift (mapper key value); Val ({[a]} ∪ found)) it ∅.
Definition collect_vec {A} (fuel : nat) (prefix : EncodingKeyspace * bytes) (fixed_width : bool)
    (mapper : bytes → bytes → outcome A) (s : WriteSnapshot) : read (list A) :=
  it ← lift (TM.iterate_prefix prefix fixed_width s);
  TM.for_each fuel fuel (λ e, e) (λ key value found, a ← lift (mapper key value); Val (found ++ [a])) it [].
Definition first_cloned (fuel : nat) (prefix : EncodingKeyspace * bytes) (fixed_width : bool) (s : WriteSnapshot)
  : read (option bytes) :=
  it ← lift (TM.iterate_prefix prefix fixed_width s);
  '(x, _) ← lift (SnapIter.next (H:=mvcc_source fuel) fuel it);
  match x with
  | None => Val None
  | Some (inr e) => Err (SnapshotIterate e)
  | Some (inl (key, _)) => Val (Some key.2)
  end.

(** ** Types *)
Definition get_labelled_type (T : TypeAPI) (label : Label) (s : WriteSnapshot) : read (option Z) :=
  v ← map_err SnapshotGet (Snap.get (IdentifierIndex.LabelToTypeVertex label) s);
  match v with
  | None => Val None
  | Some value =>
      match from_bytes T value with
      | Val type_ => Val (Some type_)
      | Err (UnexpectedPrefix _ _) => Val None
      | Err _ => Err Encoding
      | Panic => Panic
      end
  end.
Definition get_roles_by_name (fuel : nat) (n : bytes) (s : WriteSnapshot) : read (list Z) :=
  let key := IdentifierIndex.LabelToTypeVertex (Labels.build (n ++ [colon])) in
  vec ← collect_vec fuel (IdentifierIndex.KEYSPACE, key.2) IdentifierIndex.FIXED_WIDTH_ENCODING
    (λ _ value, match from_bytes RoleType value with Val r => Val (Some r) | Err _ => Val None | Panic => Panic end) s;
  Val (omap (M:=list) id (vec : list (option Z))).
Definition get_struct_definition_key (n : bytes) (s : WriteSnapshot) : read (option bytes) :=
  map_err SnapshotGet (Snap.get (IdentifierIndex.NameToStructDefinition n) s).
(** [get_entity_types], [get_relation_types], [get_attribute_types] and
    [get_role_types]. *)
Definition get_types (fuel : nat) (k : Kind) (s : WriteSnapshot) : read (list Z) :=
  collect_vec fuel (prefix_for_kind k) (match k with KAttribute => false | _ => Prefixes.fixed_width_keys (prefix_of_kind k) end)
    (λ key _, vertex ← TypeVertex.decode key; new (type_of_kind k) vertex) s.
Definition get_object_types (fuel : nat) (s : WriteSnapshot) : read (list Z) :=
  entity_types ← get_types fuel KEntity s;
  relation_types ← get_types fuel KRelation s;
  Val (entity_types ++ relation_types).

(** ** Subtyping *)
Definition get_supertype (fuel : nat) (T : TypeAPI) (subtype : Z) (s : WriteSnapshot) : read (option Z) :=
  first ← first_cloned fuel (EdgeEncoding.prefix_for_canonical_edges_from (Sub T) subtype) TypeEdges.FIXED_WIDTH_ENCODING s;
  match first with
  | Some key => sub ← lift (EdgeEncoding.decode_canonical_edge (Sub T) key); Val (Some sub.2)
  | None => Val None
  end.
(** The loop [while let Some(supertype) = supertype_opt], [n] turns at most. *)
Fixpoint supertypes_loop (n fuel : nat) (T : TypeAPI) (supertypes : list Z) (supertype_opt : option Z) (s : WriteSnapshot)
  : read (list Z) :=
  match n with
  | O => Panic
  | S n =>
      match supertype_opt with
      | None => Val supertypes
      | Some supertype =>
          next ← get_supertype fuel T supertype s;
          supertypes_loop n fuel T (supertypes ++ [supertype]) next s
      end
  end.
Definition get_supertypes_transitive (fuel : nat) (T : TypeAPI) (subtype : Z) (s : WriteSnapshot) : read (list Z) :=
  supertype_opt ← get_supertype fuel T subtype s;
  supertypes_loop fuel fuel T [] supertype_opt s.
Definition get_subtypes (fuel : nat) (T : TypeAPI) (supertype : Z) (s : WriteSnapshot) : read (gset Z) :=
  collect_hashset fuel (EdgeEncoding.prefix_for_reverse_edges_from (Sub T) supertype) TypeEdges.FIXED_WIDTH_ENCODING
    (λ key _, sub ← EdgeEncoding.decode_reverse_edge (Sub T) key; Val sub.1) s.
(** The loop [while let Some(type_) = types_to_check.pop()]; the top of the
    stack is the head of the list. *)
Fixpoint subtypes_loop (n fuel : nat) (T : TypeAPI) (subtypes_transitive types_to_check : list Z) (s : WriteSnapshot)
  : read (list Z) :=
  match n with
  | O => Panic
  | S n =>
      match types_to_check with
      | [] => Val subtypes_transitive
      | type_ :: types_to_check =>
          subtypes ← get_subtypes fuel T type_ s;
          subtypes_loop n fuel T (subtypes_transitive ++ iter_types subtypes)
            (reverse (iter_types subtypes) ++ types_to_check) s
      end
  end.
Definition get_subtypes_transitive (fuel : nat) (T : TypeAPI) (type_ : Z) (s : WriteSnapshot) : read (list Z) :=
  subtypes_loop fuel fuel T [] [type_] s.

(** ** Properties *)
Definition get_type_property_declared {P} (property : PropertyEncoding P) (type_ : Z) (s : WriteSnapshot) : read (option P) :=
  v ← map_err SnapshotGet (Snap.get (VertexProperty.into_storage_key (vertex_key property type_)) s);
  match v with Some value => p ← lift (from_value_bytes property value); Val (Some p) | None => Val None end.
(** The loop of [get_type_property]: the property of the type or of its nearest
    supertype that has one. *)
Fixpoint property_loop (n fuel : nat) {P} (property : PropertyEncoding P) (T : TypeAPI) (type_opt : option Z) (s : WriteSnapshot)
  : read (option (P * Z)) :=
  match n with
  | O => Panic
  | S n =>
      match type_opt with
      | None => Val None
      | Some curr_type =>
          p ← get_type_property_declared property curr_type s;
          match p with
          | Some p => Val (Some (p, curr_type))
          | None => next ← get_supertype fuel T curr_type s; property_loop n fuel property T next s
          end
      end
  end.
Definition get_type_property (fuel : nat) {P} (property : PropertyEncoding P) (T : TypeAPI) (type_ : Z) (s : WriteSnapshot)
  : read (option (P * Z)) := property_loop fuel fuel property T (Some type_) s.
Definition get_type_edge_property {P} (property : PropertyEncoding P) (E : TypeEdgeEncoding) (e : edge) (s : WriteSnapshot)
  : read (option P) :=
  v ← map_err SnapshotGet (Snap.get (EdgeProperty.into_storage_key (edge_key property E e)) s);
  match v with Some value => p ← lift (from_value_bytes property value); Val (Some p) | None => Val None end.
Definition get_label (type_ : Z) (s : WriteSnapshot) : read (option Label) := get_type_property_declared Labels.property type_ s.
Definition get_value_type_declared (type_ : Z) (s : WriteSnapshot) : read (option ValueType) :=
  get_type_property_declared ValueType_property type_ s.
Definition get_value_type (fuel : nat) (type_ : Z) (s : WriteSnapshot) : read (option (ValueType * Z)) :=
  get_type_property fuel ValueType_property AttributeType type_ s.
Definition get_value_type_without_source (fuel : nat) (type_ : Z) (s : WriteSnapshot) : read (option ValueType) :=
  result ← get_value_type fuel type_ s; Val (option_map fst result).
Definition get_relation_type_independence `{Bincode unit} (type_ : Z) (s : WriteSnapshot) : read (option unit) :=
  get_type_property_declared Independent_property type_ s.
Definition get_type_ordering `{Bincode Ordering} (role_type : Z) (s : WriteSnapshot) : read Ordering :=
  o ← get_type_property_declared Ordering_property role_type s; ok_or o OrderingValueMissing.
Definition get_capability_ordering `{Bincode Ordering} (owns : edge) (s : WriteSnapshot) : read Ordering :=
  o ← get_type_edge_property Ordering_property Owns owns s; ok_or o OrderingValueMissing.

(** ** Capabilities: owns, plays and relates *)
Definition get_capabilities_declared (fuel : nat) (CAP : TypeEdgeEncoding) (owner : Z) (s : WriteSnapshot) : read (gset edge) :=
  owner ← lift (new (From CAP) owner);
  collect_hashset fuel (EdgeEncoding.prefix_for_canonical_edges_from CAP owner) TypeEdges.FIXED_WIDTH_ENCODING
    (λ key _, EdgeEncoding.decode_canonical_edge CAP key) s.
(** The body of the loop over the capabilities of one type. *)
Definition add_capability (allow_specialised : bool) (found : gset edge * gset Z) (capability : edge) : gset edge * gset Z :=
  if allow_specialised || negb (bool_decide (capability.2 ∈ found.2)) then
    ({[capability]} ∪ found.1, {[capability.2]} ∪ found.2)
  else found.
Fixpoint capabilities_loop (n fuel : nat) (CAP : TypeEdgeEncoding) (allow_specialised : bool) (found : gset edge * gset Z)
    (current_type : option Z) (s : WriteSnapshot) : read (gset edge) :=
  match n with
  | O => Panic
  | S n =>
      match current_type with
      | None => Val found.1
      | Some type_ =>
          declared_capabilities ← get_capabilities_declared fuel CAP type_ s;
          next ← get_supertype fuel (From CAP) type_ s;
          capabilities_loop n fuel CAP allow_specialised
            (fold_left (add_capability allow_specialised) (iter_edges declared_capabilities) found) next s
      end
  end.
Definition get_capabilities (fuel : nat) (CAP : TypeEdgeEncoding) (object_type : Z) (allow_specialised : bool) (s : WriteSnapshot)
  : read (gset edge) := capabilities_loop fuel fuel CAP allow_specialised (∅, ∅) (Some object_type) s.
Definition get_capabilities_for_interface (fuel : nat) (CAP : TypeEdgeEncoding) (interface_type : Z) (s : WriteSnapshot)
  : read (gset edge) :=
  collect_hashset fuel (EdgeEncoding.prefix_for_reverse_edges_from CAP interface_type) TypeEdges.FIXED_WIDTH_ENCODING
    (λ key _, EdgeEncoding.decode_reverse_edge CAP key) s.
Fixpoint object_types_loop (fuel : nat) (CAP : TypeEdgeEncoding) (capability : edge) (all_subtypes : list Z)
    (object_types : gset Z) (s : WriteSnapshot) : read (gset Z) :=
  match all_subtypes with
  | [] => Val object_types
  | object_type :: all_subtypes =>
      capabilities ← get_capabilities fuel CAP object_type false s;
      object_types_loop fuel CAP capability all_subtypes
        (if decide (capability ∈ (capabilities : gset edge)) then {[object_type]} ∪ object_types else object_types) s
  end.
Definition get_object_types_with_capability (fuel : nat) (CAP : TypeEdgeEncoding) (capability : edge) (s : WriteSnapshot)
  : read (gset Z) :=
  subtypes ← get_subtypes_transitive fuel (From CAP) capability.1 s;
  object_types_loop fuel CAP capability (capability.1 :: subtypes) ∅ s.
Fixpoint interface_loop (fuel : nat) (CAP : TypeEdgeEncoding) (interface_capabilities : list edge) (capabilities : gmap Z edge)
    (s : WriteSnapshot) : read (gmap Z edge) :=
  match interface_capabilities with
  | [] => Val capabilities
  | interface_capability :: interface_capabilities =>
      object_types ← get_object_types_with_capability fuel CAP interface_capability s;
      interface_loop fuel CAP interface_capabilities
        (fold_left (λ m object_type, <[object_type := interface_capability]> m) (iter_types object_types) capabilities) s
  end.
Definition get_object_types_with_capabilities_for_interface (fuel : nat) (CAP : TypeEdgeEncoding) (interface_type : Z)
    (s : WriteSnapshot) : read (gmap Z edge) :=
  interface_capabilities ← get_capabilities_for_interface fuel CAP interface_type s;
  interface_loop fuel CAP (iter_edges interface_capabilities) ∅ s.

(** ** Implicit relates *)
Definition is_relates_implicit (relates : edge) (s : WriteSnapshot) : read bool :=
  relation_type_label ← get_label relates.1 s;
  relation_type_label ← ok_or relation_type_label InternalMissingTypeLabel;
  role_type_label ← get_label relates.2 s;
  role_type_label ← ok_or role_type_label InternalMissingTypeLabel;
  role_scope ← ok_or (scope role_type_label) InternalMissingScopeForRoleTypeLabel;
  Val (negb (bool_decide (name relation_type_label = role_scope))).
Fixpoint explicit_loop (relates : list edge) (root : list edge) (s : WriteSnapshot) : read (list edge) :=
  match relates with
  | [] => Val root
  | r :: relates =>
      implicit ← is_relates_implicit r s;
      explicit_loop relates (if (implicit : bool) then root else r :: root) s
  end.
(** The last explicit one wins. *)
Definition get_role_type_relates_explicit (fuel : nat) (role_type : Z) (s : WriteSnapshot) : read edge :=
  all_relates ← get_capabilities_for_interface fuel Relates role_type s;
  root ← explicit_loop (iter_edges all_relates) [] s;
  ok_or (head root) InternalMissingRootRelatesForRole.
Definition get_relation_type_relates_root (fuel : nat) (relation_type : Z) (s : WriteSnapshot) : read (gset edge) :=
  all_declared_relates ← get_capabilities_declared fuel Relates relation_type s;
  root ← explicit_loop (iter_edges all_declared_relates) [] s;
  Val (list_to_set root).
End reader.
End TypeReader.

Module TypeWriter.
Abbreviation update := (outcome WriteSnapshot).
(** [put], [delete] and [unput] of a key without a value. *)
Definition put (key : skey) (s : WriteSnapshot) : update := Snap.put_val key [] s.
Definition unput (key : skey) (s : WriteSnapshot) : update := Snap.unput_val key [] s.

(** ** Edges *)
Definition storage_put_edge (E : TypeEdgeEncoding) (capability : edge) (s : WriteSnapshot) : update :=
  s ← put (canonical_key E capability) s; put (reverse_key E capability) s.
Definition storage_delete_edge (E : TypeEdgeEncoding) (capability : edge) (s : WriteSnapshot) : update :=
  s ← Snap.delete (canonical_key E capability) s; Snap.delete (reverse_key E capability) s.
Definition storage_unput_edge (E : TypeEdgeEncoding) (capability : edge) (s : WriteSnapshot) : update :=
  s ← unput (canonical_key E capability) s; unput (reverse_key E capability) s.
Definition storage_put_supertype (T : TypeAPI) (subtype supertype : Z) (s : WriteSnapshot) : update :=
  s ← put (canonical_key (Sub T) (subtype, supertype)) s; put (reverse_key (Sub T) (subtype, supertype)) s.
Definition storage_may_delete_supertype (fuel : nat) (T : TypeAPI) (subtype : Z) (s : WriteSnapshot)
  : exec ConceptReadError WriteSnapshot :=
  supertype ← TypeReader.get_supertype fuel T subtype s;
  match supertype with
  | Some supertype =>
      s ← lift (Snap.delete (canonical_key (Sub T) (subtype, supertype)) s);
      lift (Snap.delete (reverse_key (Sub T) (subtype, supertype)) s)
  | None => Val s
  end.

(** ** Vertices and their properties *)
Definition storage_delete_vertex (type_ : Z) (s : WriteSnapshot) : update :=
  Snap.delete (SchemaIDAllocator.into_storage_key type_) s.
Definition storage_unput_vertex (type_ : Z) (s : WriteSnapshot) : update := unput (SchemaIDAllocator.into_storage_key type_) s.
Section properties.
Context {P : Type} (property : PropertyEncoding P).
(** The value of a property that is given, none otherwise. *)
Definition property_value (property_opt : option P) : outcome bytes :=
  match property_opt with Some p => unwrap (to_value_bytes property p) | None => Val [] end.
Definition storage_insert_type_vertex_property (vertex : Z) (property_opt : option P) (s : WriteSnapshot) : update :=
  value ← property_value property_opt; Snap.insert_val (VertexProperty.into_storage_key (vertex_key property vertex)) value s.
Definition storage_put_type_vertex_property (vertex : Z) (property_opt : option P) (s : WriteSnapshot) : update :=
  value ← property_value property_opt; Snap.put_val (VertexProperty.into_storage_key (vertex_key property vertex)) value s.
Definition storage_delete_type_vertex_property (vertex : Z) (s : WriteSnapshot) : update :=
  Snap.delete (VertexProperty.into_storage_key (vertex_key property vertex)) s.
Definition storage_unput_type_vertex_property (vertex : Z) (property_opt : option P) (s : WriteSnapshot) : update :=
  value ← property_value property_opt; Snap.unput_val (VertexProperty.into_storage_key (vertex_key property vertex)) value s.
Definition storage_insert_type_edge_property (E : TypeEdgeEncoding) (e : edge) (property_opt : option P) (s : WriteSnapshot) : update :=
  value ← property_value property_opt; Snap.insert_val (EdgeProperty.into_storage_key (edge_key property E e)) value s.
Definition storage_put_type_edge_property (E : TypeEdgeEncoding) (e : edge) (property_opt : option P) (s : WriteSnapshot) : update :=
  value ← property_value property_opt; Snap.put_val (EdgeProperty.into_storage_key (edge_key property E e)) value s.
Definition storage_delete_type_edge_property (E : TypeEdgeEncoding) (e : edge) (s : WriteSnapshot) : update :=
  Snap.delete (EdgeProperty.into_storage_key (edge_key property E e)) s.
End properties.
Definition storage_set_value_type (attribute : Z) (value_type : ValueType) (s : WriteSnapshot) : update :=
  storage_put_type_vertex_property ValueType_property attribute (Some value_type) s.
Definition storage_unset_value_type (attribute : Z) (s : WriteSnapshot) : update :=
  storage_delete_type_vertex_property ValueType_property attribute s.
Definition storage_set_owns_ordering `{Bincode Ordering} (owns : edge) (ordering : Ordering) (s : WriteSnapshot) : update :=
  storage_put_type_edge_property Ordering_property Owns owns (Some ordering) s.

(** ** Labels *)
Definition storage_put_label (type_ : Z) (label : Label) (s : WriteSnapshot) : update :=
  s ← storage_put_type_vertex_property Labels.property type_ (Some label) s;
  Snap.put_val (IdentifierIndex.LabelToTypeVertex label) (TypeVertex.to_bytes type_) s.
Definition storage_delete_label (type_ : Z) (s : WriteSnapshot) : update :=
  existing_label ← unwrap_ok (TypeReader.get_label type_ s);
  match existing_label with
  | Some label =>
      s ← storage_delete_type_vertex_property Labels.property type_ s;
      Snap.delete (IdentifierIndex.LabelToTypeVertex label) s
  | None => Val s
  end.
Definition storage_unput_label (type_ : Z) (label : Label) (s : WriteSnapshot) : update :=
  s ← storage_unput_type_vertex_property Labels.property type_ (Some label) s;
  Snap.unput_val (IdentifierIndex.LabelToTypeVertex label) (TypeVertex.to_bytes type_) s.
End TypeWriter.
