(* ===== verification/SchemaGraph.v ===== *)
(** * The schema as a graph

    What the readers and writers of [TypeReader] compute, in terms of the edges
    that a snapshot shows: which keys the schema has, that every edge is stored
    in both directions, and that the readers return subtypes, supertypes and
    inherited capabilities of that graph. *)
From stdpp Require Import strings gmap relations.
From S2P Require Import Prelude BTree Bytes MemoryStore Buffer LendingIter Mvcc Keyspaces Snapshot Dependency Timeline Isolation Storage Views Layout Values Structs Attributes Things Edges ThingManager ThingGraph Pattern TypeEdges TypeReader.
Import KeyRangeOps.
#[local] Open Scope Z_scope.

(** ** Kinds of edges *)
Inductive EdgeKind := SubEdge | OwnsEdge | PlaysEdge | RelatesEdge.
#[global] Instance EdgeKind_eq_dec : EqDecision EdgeKind.
Proof. solve_decision. Defined.
Definition canonical_prefix (k : EdgeKind) : Prefix :=
  match k with SubEdge => EdgeSub | OwnsEdge => EdgeOwns | PlaysEdge => EdgePlays | RelatesEdge => EdgeRelates end.
Definition reverse_prefix (k : EdgeKind) : Prefix :=
  match k with
  | SubEdge => EdgeSubReverse | OwnsEdge => EdgeOwnsReverse | PlaysEdge => EdgePlaysReverse | RelatesEdge => EdgeRelatesReverse
  end.
(** Subtyping relates types of one kind. *)
Definition well_typed (k : EdgeKind) (e : edge) : Prop :=
  match k with
  | SubEdge => ∃ kind, in_type (type_of_kind kind) e.1 ∧ in_type (type_of_kind kind) e.2
  | OwnsEdge => edge_typed Owns e
  | PlaysEdge => edge_typed Plays e
  | RelatesEdge => edge_typed Relates e
  end.
Definition SCHEMA : Z := EncodingKeyspaces.id TypeEdges.KEYSPACE.
(** The keys of an edge, from its start and from its end. *)
Definition edge_at (reverse : bool) (k : EdgeKind) (e : edge) : TypeEdge :=
  if reverse then mk_TypeEdge (reverse_prefix k) e.2 e.1 else mk_TypeEdge (canonical_prefix k) e.1 e.2.
Definition key_at (reverse : bool) (k : EdgeKind) (e : edge) : skey := TypeEdges.into_storage_key (edge_at reverse k e).
Abbreviation key := (key_at false).
Abbreviation rkey := (key_at true).
Definition start_of (reverse : bool) (e : edge) : Z := if reverse then e.2 else e.1.
Definition prefix_at (reverse : bool) (k : EdgeKind) : Prefix := if reverse then reverse_prefix k else canonical_prefix k.

(** A key of the schema's keyspace: the first byte of an edge is followed by an
    edge. *)
Definition schema_key (bs : bytes) : Prop :=
  ∃ b rest, bs = b :: rest ∧ ∀ reverse k, b = Prefixes.prefix_id (prefix_at reverse k) →
    ∃ e, well_typed k e ∧ bs = (key_at reverse k e).2.
Record schema_ok (s : WriteSnapshot) : Prop := {
  sc_snapshot : snapshot_ok s;
  sc_open : good_id SCHEMA s;
  sc_keys : ∀ bs, known (SCHEMA, bs) s → schema_key bs;
  sc_step : ∀ k e, well_typed k e → is_Some (view (rkey k e) s) ↔ is_Some (view (key k e) s);
}.
(** The edges of the schema. *)
Definition has (k : EdgeKind) (e : edge) (s : WriteSnapshot) : Prop := well_typed k e ∧ is_Some (view (key k e) s).
Definition sub (s : WriteSnapshot) (a b : Z) : Prop := has SubEdge (a, b) s.
(** Subtyping is a forest. *)
Record hierarchy_ok (s : WriteSnapshot) : Prop := {
  h_single : ∀ a b c, sub s a b → sub s a c → b = c;
  h_acyclic : ∀ a, ¬ tc (sub s) a a;
}.

(** ** Keys *)
Lemma well_typed_vertices k e : well_typed k e → is_vertex e.1 ∧ is_vertex e.2.
Proof. destruct k; [intros (kind & [? _] & [? _]); done|intros [[? _] [? _]]; done..]. Qed.
Lemma edge_at_vertices reverse k e :
  well_typed k e → is_vertex (te_from (edge_at reverse k e)) ∧ is_vertex (te_to (edge_at reverse k e)).
Proof. intros [??]%well_typed_vertices. by destruct reverse. Qed.
Lemma te_prefix_at reverse k e : te_prefix (edge_at reverse k e) = prefix_at reverse k.
Proof. by destruct reverse. Qed.
Lemma te_from_at reverse k e : te_from (edge_at reverse k e) = start_of reverse e.
Proof. by destruct reverse. Qed.
Lemma prefix_at_inj reverse k reverse' k' : prefix_at reverse k = prefix_at reverse' k' → reverse = reverse' ∧ k = k'.
Proof. by destruct reverse, k, reverse', k'. Qed.
Lemma key_at_length reverse k e : length (key_at reverse k e).2 = 7%nat.
Proof. unfold key_at, TypeEdges.into_storage_key, TypeEdges.to_bytes. cbn [snd length]. by rewrite length_app, !length_vertex. Qed.
Lemma key_at_bytes reverse k e : is_bytes (key_at reverse k e).2.
Proof.
  unfold key_at, TypeEdges.into_storage_key, TypeEdges.to_bytes. cbn [snd]. constructor; [apply prefix_id_byte|].
  apply Forall_app. split; apply vertex_is_bytes.
Qed.
Lemma key_at_inj reverse k e reverse' k' e' :
  well_typed k e → well_typed k' e' → (key_at reverse k e).2 = (key_at reverse' k' e').2 → reverse = reverse' ∧ k = k' ∧ e = e'.
Proof.
  intros He He' Heq. destruct (edge_at_vertices reverse k e He) as [H1 H2]. destruct (edge_at_vertices reverse' k' e' He') as [H3 H4].
  pose proof (type_edge_decodes _ H1 H2) as D. pose proof (type_edge_decodes _ H3 H4) as D'.
  unfold key_at, TypeEdges.into_storage_key in Heq. cbn [snd] in Heq. rewrite Heq, D' in D. injection D as Hd.
  pose proof (f_equal te_prefix Hd) as Hp. rewrite !te_prefix_at in Hp. apply prefix_at_inj in Hp as [-> ->]. do 2 (split; [done|]).
  destruct e as [a b], e' as [a' b'], reverse; cbn in Hd; injection Hd; congruence.
Qed.
(** An edge's key is a key of the schema. *)
Lemma key_at_schema reverse k e : well_typed k e → schema_key (key_at reverse k e).2.
Proof.
  intros He. unfold key_at, TypeEdges.into_storage_key. cbn [snd]. unfold TypeEdges.to_bytes at 1. do 2 eexists. split; [reflexivity|].
  intros reverse' k' Hp. rewrite te_prefix_at in Hp. apply prefix_id_inj, prefix_at_inj in Hp as [-> ->]. by exists e.
Qed.
Lemma known_edge_length bs reverse k s :
  schema_ok s → known (SCHEMA, bs) s → head bs = Some (Prefixes.prefix_id (prefix_at reverse k)) →
  ∃ e, well_typed k e ∧ bs = (key_at reverse k e).2.
Proof. intros Hok (b & rest & -> & Hk)%(sc_keys s Hok) [= ->]. by apply Hk. Qed.
(** The prefix of the edges that start from a vertex. *)
Abbreviation edges_from reverse k v := (TypeEdges.build_prefix_from (prefix_at reverse k) v).
Lemma edges_from_bytes reverse k v :
  is_vertex v → ∃ c rest, (edges_from reverse k v).2 = Prefixes.prefix_id (prefix_at reverse k) :: c :: rest ∧
    is_bytes (edges_from reverse k v).2 ∧ c < 255.
Proof.
  intros (p & id & Hid & ->). unfold TypeEdges.build_prefix_from. cbn [snd].
  assert (∃ rest, TypeVertex.to_bytes (TypeVertex.new (Prefixes.prefix_id p) id) = Prefixes.prefix_id p :: rest) as [rest Hr].
  { unfold TypeVertex.to_bytes, TypeVertex.new. rewrite Z.shiftl_mul_pow2 by lia. cbn [be_bytes drop]. eexists. f_equal.
    change (256 ^ Z.of_nat 2) with (2 ^ 16). pose proof (prefix_id_byte p) as Hp.
    rewrite Z.div_add_l by lia. rewrite (Z.div_small id) by exact Hid. rewrite Z.add_0_r. by apply Z.mod_small. }
  exists (Prefixes.prefix_id p), rest. split; [by rewrite Hr|]. split.
  - constructor; [apply prefix_id_byte|apply vertex_is_bytes].
  - destruct p; cbn; lia.
Qed.
Lemma edges_scan_exact reverse k v s :
  schema_ok s → is_vertex v → scans_exactly (edges_from reverse k v).2 SCHEMA s.
Proof.
  intros Hok Hv. destruct (edges_from_bytes reverse k v Hv) as (c & rest & Hp & Hb & Hc). split.
  - intros bs Hkn. destruct (sc_keys s Hok bs Hkn) as (b & r & -> & Hk).
    destruct (decide (b = Prefixes.prefix_id (prefix_at reverse k))) as [->|Hne].
    + destruct (Hk reverse k eq_refl) as (e & He & ->). apply selected_long; [done|apply key_at_bytes|].
      rewrite key_at_length. unfold TypeEdges.build_prefix_from. cbn [snd length]. rewrite length_vertex. lia.
    + rewrite Hp in *. by apply selected_other.
  - intros b x y Hbk Hx Hy Hpx Hxy. apply (known_stored SCHEMA _ _ s Hbk) in Hx, Hy. rewrite Hp in Hpx.
    destruct Hpx as [t Ht]. destruct Hxy as [u Hu].
    destruct (known_edge_length _ reverse k s Hok Hx) as (e & He & Hex); [by rewrite Ht|].
    destruct (known_edge_length _ reverse k s Hok Hy) as (e' & He' & Hey); [by rewrite Hu, Ht|].
    rewrite Hu. apply (f_equal length) in Hu. rewrite Hey, Hex, length_app, !key_at_length in Hu.
    destruct u; [by rewrite app_nil_r|cbn in Hu; lia].
Qed.
(** Scanning the edges from a vertex yields each of them once. *)
Lemma edges_scan fuel reverse k v s :
  schema_ok s → is_vertex v → fits fuel SCHEMA s →
  ∃ it out, TM.iterate_prefix (edges_from reverse k v) TypeEdges.FIXED_WIDTH_ENCODING s = Val it ∧
    yields (H:=SnapIter.next (H:=mvcc_source fuel) fuel) it (snapshot_items SCHEMA out) ∧ (length out < fuel)%nat ∧
    ∀ b, (∃ val, (b, val) ∈ out) ↔ ∃ e, has k e s ∧ start_of reverse e = v ∧ b = (key_at reverse k e).2.
Proof.
  intros Hok Hv Hfit. destruct (edges_from_bytes reverse k v Hv) as (c & rest & Hp & Hb & Hc).
  destruct (prefix_scan_exact fuel SCHEMA (edges_from reverse k v).2 TypeEdges.FIXED_WIDTH_ENCODING s) as (it & out & Hit & Hy & Hwf & Hl & Hin);
    [by apply sc_snapshot|by apply sc_open| |by apply edges_scan_exact|done|].
  { split; [done|]. rewrite Hp. destruct reverse, k; cbn; lia. }
  exists it, out. do 3 (split; [done|]). intros b. split.
  - intros (val & [Hpre Hval]%Hin). destruct (known_edge_length b reverse k s Hok) as (e & He & ->).
    { by eapply view_known. } { rewrite Hp in Hpre. destruct Hpre as [t ->]. done. }
    exists e. apply edge_has_prefix in Hpre as [_ Hs]; [|done|by apply edge_at_vertices]. rewrite te_from_at in Hs. split_and!; [|done..].
    split; [done|]. destruct reverse; [apply (sc_step s Hok k e He)|]; by eexists.
  - intros (e & [He Hval] & Hs & ->). assert (is_Some (view (key_at reverse k e) s)) as [val Hv'].
    { destruct reverse; [by apply (sc_step s Hok k e He)|done]. }
    exists val. apply Hin. split; [|done]. apply edge_has_prefix; [done|by apply edge_at_vertices|]. by rewrite te_prefix_at, te_from_at.
Qed.

(** ** Reading the edges of a vertex *)
Lemma collect_fold {A} `{Countable A} (mapper : bytes → bytes → outcome A) l : ∀ acc : gset A,
  (∀ kv, kv ∈ l → returns (mapper kv.1 kv.2)) →
  ∃ X : gset A, fold_body (E:=ConceptReadError) (λ k v found, a ← lift (mapper k v); Val ({[a]} ∪ found)) l acc = Val X ∧
    ∀ a, a ∈ X ↔ a ∈ acc ∨ ∃ kv, kv ∈ l ∧ mapper kv.1 kv.2 = Val a.
Proof.
  induction l as [|kv l IH]; intros acc Hret; cbn [fold_body].
  - exists acc. split; [done|]. intros a. split; [by left|]. intros [?|(kv & Hkv & _)]; [done|by apply not_elem_of_nil in Hkv].
  - destruct (Hret kv) as [a Ha]; [by left|]. rewrite Ha. cbn [lift mbind exec_bind].
    destruct (IH ({[a]} ∪ acc)) as (X & HX & Hin); [intros kv' ?; apply Hret; by right|]. exists X. split; [done|].
    intros b. rewrite Hin, elem_of_union, elem_of_singleton. setoid_rewrite elem_of_cons. split.
    + intros [[->|?]|(kv' & ? & ?)]; [right; exists kv; auto|by left|right; exists kv'; auto].
    + intros [?|(kv' & [->|?] & Hm)]; [auto| |right; exists kv'; auto]. rewrite Ha in Hm. injection Hm as ->. auto.
Qed.
Lemma for_each_wrap {A} fuel (mapper : bytes → bytes → outcome A) {B} (add : A → B → B) id it l b :
  yields (H:=SnapIter.next (H:=mvcc_source fuel) fuel) it (snapshot_items id l) → (length l < fuel)%nat →
  TM.for_each fuel fuel (λ e, e) (λ key value found, a ← lift (mapper key value); Val (add a found)) it b =
  fold_body (E:=ConceptReadError) (λ key value found, a ← lift (mapper key value); Val (add a found)) l b.
Proof. intros Hy Hl. by apply (for_each_fold fuel fuel _ _ id). Qed.
Lemma collect_edges {A} `{Countable A} fuel reverse k v (mapper : bytes → bytes → outcome A) (f : edge → A) s :
  schema_ok s → is_vertex v → fits fuel SCHEMA s →
  (∀ e val, has k e s → start_of reverse e = v → mapper (key_at reverse k e).2 val = Val (f e)) →
  ∃ X : gset A, TypeReader.collect_hashset fuel (edges_from reverse k v) TypeEdges.FIXED_WIDTH_ENCODING mapper s = Val X ∧
    ∀ a, a ∈ X ↔ ∃ e, has k e s ∧ start_of reverse e = v ∧ a = f e.
Proof.
  intros Hok Hv Hfit Hmap. destruct (edges_scan fuel reverse k v s Hok Hv Hfit) as (it & out & Hit & Hy & Hl & Hin).
  unfold TypeReader.collect_hashset. rewrite Hit. cbn [lift mbind exec_bind].
  rewrite (for_each_wrap fuel mapper (λ a found, {[a]} ∪ found) SCHEMA it out ∅ Hy Hl).
  assert (Hkv : ∀ kv, kv ∈ out → ∃ e, has k e s ∧ start_of reverse e = v ∧ kv.1 = (key_at reverse k e).2).
  { intros [b val] Hkv. destruct (Hin b) as [H1 _]. apply H1. by exists val. }
  destruct (collect_fold mapper out ∅) as (X & -> & HX).
  { intros kv (e & He & Hs & ->)%Hkv. rewrite Hmap by done. by eexists. }
  exists X. split; [done|]. intros a. rewrite HX. split.
  - intros [[]%not_elem_of_empty|(kv & (e & He & Hs & Hk)%Hkv & Hm)]. exists e. rewrite Hk, Hmap in Hm by done. injection Hm as <-. done.
  - intros (e & He & Hs & ->). right. destruct (Hin (key_at reverse k e).2) as [_ H2]. destruct H2 as [val Hval]; [by exists e|].
    exists ((key_at reverse k e).2, val). split; [done|]. by apply Hmap.
Qed.
(** The first edge from a vertex. *)
Lemma first_edge fuel k v s :
  schema_ok s → is_vertex v → fits fuel SCHEMA s →
  (∃ e, has k e s ∧ e.1 = v ∧ TypeReader.first_cloned fuel (edges_from false k v) TypeEdges.FIXED_WIDTH_ENCODING s = Val (Some (key k e).2)) ∨
  ((∀ e, has k e s → e.1 ≠ v) ∧ TypeReader.first_cloned fuel (edges_from false k v) TypeEdges.FIXED_WIDTH_ENCODING s = Val None).
Proof.
  intros Hok Hv Hfit. destruct (edges_scan fuel false k v s Hok Hv Hfit) as (it & out & Hit & Hy & Hl & Hin).
  unfold TypeReader.first_cloned. rewrite Hit. cbn [lift mbind exec_bind].
  apply yields_next in Hy as (it' & Hnx & Hy). unfold li_next in Hnx. rewrite Hnx. cbn [lift mbind exec_bind].
  destruct out as [|[b val] out].
  - right. split; [|done]. intros e He Hs. destruct (Hin (key k e).2) as [_ H2]. destruct H2 as [val Hval]; [by exists e|].
    by apply not_elem_of_nil in Hval.
  - left. destruct (Hin b) as [H1 _]. destruct H1 as (e & He & Hs & ->); [exists val; by left|]. exists e. done.
Qed.

(** ** Types whose subtypes and supertypes are of the same type *)
Definition closed_type (T : TypeAPI) : Prop := ∀ a b, well_typed SubEdge (a, b) → in_type T a ↔ in_type T b.
Lemma from_vertex_of_iff p v : is_vertex v → from_vertex_of p v = Val v ↔ TypeVertex.prefix v = Val p.
Proof.
  intros (q & id & Hid & ->). destruct (type_vertex_parts q id Hid) as [_ Hq]. unfold from_vertex_of. rewrite Hq. cbn [lift mbind exec_bind].
  destruct (decide (q = p)) as [->|Hne]; [done|]. split; [done|]. congruence.
Qed.
Lemma in_kind k v : in_type (type_of_kind k) v ↔ is_vertex v ∧ TypeVertex.prefix v = Val (prefix_of_kind k).
Proof.
  unfold in_type. split; intros [Hv H]; (split; [done|]).
  - apply (from_vertex_of_iff (prefix_of_kind k) v Hv). by destruct k.
  - apply (from_vertex_of_iff (prefix_of_kind k) v Hv) in H. by destruct k.
Qed.
Lemma in_object v : in_type ObjectType v ↔ in_type EntityType v ∨ in_type RelationType v.
Proof.
  pose proof (in_kind KEntity v) as He. pose proof (in_kind KRelation v) as Hr. cbn [type_of_kind prefix_of_kind] in He, Hr. rewrite He, Hr.
  unfold in_type. split.
  - intros [Hv Ho]. cbn in Ho. unfold ObjectType_from_vertex in Ho. destruct (TypeVertex.prefix v) as [p| |]; [|done..].
    cbn [lift mbind exec_bind] in Ho. destruct p; try done; auto.
  - intros [[Hv Hp]|[Hv Hp]]; (split; [done|]); cbn; unfold ObjectType_from_vertex; rewrite Hp; cbn [lift mbind exec_bind]; unfold new; cbn.
    + by rewrite (proj2 (from_vertex_of_iff VertexEntityType v Hv) Hp).
    + by rewrite (proj2 (from_vertex_of_iff VertexRelationType v Hv) Hp).
Qed.
Lemma kind_closed k : closed_type (type_of_kind k).
Proof.
  intros a b (k' & Ha & Hb). cbn [fst snd] in Ha, Hb. apply in_kind in Ha as [Ha Hpa], Hb as [Hb Hpb]. rewrite !in_kind, Hpa, Hpb. tauto.
Qed.
Lemma object_closed : closed_type ObjectType.
Proof. intros a b Hs. rewrite !in_object. by rewrite (kind_closed KEntity a b Hs), (kind_closed KRelation a b Hs). Qed.

(** ** Direct supertypes and subtypes *)
Section hierarchy.
Context (s : WriteSnapshot) (fuel : nat) (Hok : schema_ok s) (Hh : hierarchy_ok s) (Hfit : fits fuel SCHEMA s).
Context (T : TypeAPI) (HT : closed_type T).
Lemma sub_in_type a b : sub s a b → in_type T a ↔ in_type T b.
Proof. intros [Hw _]. by apply HT. Qed.
Lemma tc_in_type a b : tc (sub s) a b → in_type T a ↔ in_type T b.
Proof. intros Ht. induction Ht as [a b Hs|a c b Hs _ IH]; [by apply sub_in_type|]. by rewrite (sub_in_type a c Hs). Qed.
Lemma sub_typed a b : sub s a b → in_type T a → edge_typed (Sub T) (a, b).
Proof. intros Hs Ha. split; [done|]. by apply (sub_in_type a b Hs). Qed.
Lemma get_supertype_spec a :
  in_type T a → ∃ o, TypeReader.get_supertype fuel T a s = Val o ∧ ∀ b, o = Some b ↔ sub s a b.
Proof.
  intros Ha. unfold TypeReader.get_supertype. change (EdgeEncoding.prefix_for_canonical_edges_from (Sub T) a) with (edges_from false SubEdge a).
  destruct (first_edge fuel SubEdge a s Hok (proj1 Ha) Hfit) as [(e & He & Hs & ->)|[Hno ->]]; cbn [mbind exec_bind].
  - destruct e as [a' b]. cbn in Hs. subst a'. change (key SubEdge (a, b)).2 with (canonical_key (Sub T) (a, b)).2.
    rewrite canonical_decodes by (by apply sub_typed). cbn [lift mbind exec_bind snd]. exists (Some b). split; [done|].
    intros c. split; [by intros [= <-]|]. intros Hc. f_equal. by apply (h_single s Hh a).
  - exists None. split; [done|]. intros b. split; [done|]. intros Hb. by edestruct (Hno (a, b)).
Qed.
Lemma get_subtypes_spec b :
  in_type T b → ∃ X : gset Z, TypeReader.get_subtypes fuel T b s = Val X ∧ ∀ a, a ∈ X ↔ sub s a b.
Proof.
  intros Hb. unfold TypeReader.get_subtypes. change (EdgeEncoding.prefix_for_reverse_edges_from (Sub T) b) with (edges_from true SubEdge b).
  destruct (collect_edges (A:=Z) fuel true SubEdge b
    (λ key _, sub ← EdgeEncoding.decode_reverse_edge (Sub T) key; Val sub.1) fst s) as (X & HX & Hin);
    [done|apply Hb|done| |exists X; split; [exact HX|]].
  - intros [a c] val He Hs. cbn in Hs. subst c. change (rkey SubEdge (a, b)).2 with (reverse_key (Sub T) (a, b)).2.
    rewrite reverse_decodes; [done|]. split; [|done]. by apply (sub_in_type a b He).
  - intros a. rewrite Hin. split.
    + intros ([a' b'] & He & Hs & ->). cbn in *. by subst b'.
    + intros Hs. by exists (a, b).
Qed.

(** ** All supertypes *)
(** The supertypes of a type, the nearest first. *)
Fixpoint chain (a : Z) (l : list Z) : Prop :=
  match l with [] => ∀ b, ¬ sub s a b | b :: l => sub s a b ∧ chain b l end.
Lemma acyclic a b : tc (sub s) a b → a ≠ b.
Proof. intros Ht ->. by apply (h_acyclic s Hh b). Qed.
(** There are no more types with a supertype than entries. *)
Lemma subtypes_bounded l : NoDup l → (∀ a, a ∈ l → ∃ b, sub s a b) → (length l ≤ entries SCHEMA s)%nat.
Proof.
  intros Hnd Hsub.
  assert (∃ ks, NoDup ks ∧ length ks = length l ∧ ∀ k, k ∈ ks → ∃ a b, a ∈ l ∧ sub s a b ∧ k = (key SubEdge (a, b)).2) as (ks & Hks & <- & Hin).
  - induction Hnd as [|a l Ha Hnd IH]; [exists []; split; [constructor|]; split; [done|]; by intros ? ?%not_elem_of_nil|].
    destruct IH as (ks & Hks & Hlen & Hin); [intros; apply Hsub; by right|]. destruct (Hsub a) as [b Hb]; [by left|].
    exists ((key SubEdge (a, b)).2 :: ks). split_and!.
    + constructor; [|done]. intros (a' & b' & Ha' & Hb' & Hk)%Hin.
      apply key_at_inj in Hk as (_ & _ & [= <- <-]); [done|apply Hb|apply Hb'].
    + cbn. by rewrite Hlen.
    + intros k [->|(a' & b' & Ha' & ?)%Hin]%elem_of_cons; [exists a, b; split; [by left|done]|exists a', b'; split; [by right|done]].
  - apply known_length; [by apply sc_snapshot|unfold SCHEMA; cbn; lia|done|].
    intros k (a & b & _ & [_ [v Hv]] & ->)%Hin. by eapply view_known.
Qed.
(** A path that has not met a type twice ends before the entries do. *)
Lemma chain_from n : ∀ a visited,
  in_type T a → NoDup visited → (∀ x, x ∈ visited → tc (sub s) x a ∧ ∃ y, sub s x y) → (entries SCHEMA s < n + length visited)%nat →
  ∃ l, chain a l.
Proof.
  induction n as [|n IH]; intros a visited Ha Hnd Hv Hn.
  - pose proof (subtypes_bounded visited Hnd (λ x Hx, proj2 (Hv x Hx))). lia.
  - destruct (get_supertype_spec a Ha) as ([b|] & _ & Hb); [|exists []; intros b Hs; by apply Hb in Hs].
    assert (Hs : sub s a b) by (by apply Hb). destruct (IH b (a :: visited)) as [l Hl]; [by apply (sub_in_type a b Hs)| | |cbn [length]; lia|by exists (b :: l)].
    + constructor; [|done]. intros [Ht _]%Hv. by destruct (acyclic a a Ht).
    + intros x [->|[Ht Hy]%Hv]%elem_of_cons; [split; [by apply tc_once|by exists b]|]. split; [by eapply tc_r|done].
Qed.
Lemma chain_exists a : in_type T a → ∃ l, chain a l.
Proof.
  intros Ha. apply (chain_from (S (entries SCHEMA s)) a []); [done|constructor|by intros ? ?%not_elem_of_nil|cbn [length]; lia].
Qed.
Lemma chain_elem l : ∀ a, chain a l → ∀ b, b ∈ l ↔ tc (sub s) a b.
Proof.
  induction l as [|c l IH]; intros a Hl b.
  - split; [by intros ?%not_elem_of_nil|]. intros Ht. inversion Ht as [? ? Hs|? ? ? Hs]; subst; by apply Hl in Hs.
  - destruct Hl as [Hs Hl]. rewrite elem_of_cons, (IH c Hl). split.
    + intros [->|Ht]; [by apply tc_once|by eapply tc_l].
    + intros Ht. inversion Ht as [? ? Hs'|? y ? Hs' Ht']; subst.
      * left. by apply (h_single s Hh a).
      * right. by rewrite (h_single s Hh a c y Hs Hs').
Qed.
Lemma chain_NoDup l : ∀ a, chain a l → NoDup (a :: l).
Proof.
  induction l as [|c l IH]; intros a Hl; [apply NoDup_singleton|]. constructor.
  - intros Hin. apply (acyclic a a); [|done]. by apply (chain_elem (c :: l) a Hl).
  - apply IH, Hl.
Qed.
Lemma chain_length a l : chain a l → (length l ≤ entries SCHEMA s)%nat.
Proof.
  intros Hl. pose proof (chain_NoDup l a Hl) as Hnd.
  assert (∀ l a, chain a l → ∃ m x, a :: l = m ++ [x] ∧ ∀ y, y ∈ m → ∃ z, sub s y z) as Hm.
  { clear l a Hl Hnd. induction l as [|b l IH]; intros a Hl; [exists [], a; split; [done|]; by intros ? ?%not_elem_of_nil|].
    destruct Hl as [Hs Hl]. destruct (IH b Hl) as (m & x & -> & Hm). exists (a :: m), x. split; [done|].
    intros y [->|?]%elem_of_cons; [by exists b|auto]. }
  destruct (Hm l a Hl) as (m & x & He & Hsub). rewrite He in Hnd. apply NoDup_app in Hnd as (Hnd & _ & _).
  apply (f_equal length) in He. rewrite length_app in He. cbn in He. pose proof (subtypes_bounded m Hnd Hsub). lia.
Qed.
Lemma chain_head a l : chain a l → in_type T a → TypeReader.get_supertype fuel T a s = Val (head l).
Proof.
  intros Hl Ha. destruct (get_supertype_spec a Ha) as (o & -> & Ho). f_equal. destruct l as [|b l]; cbn.
  - destruct o as [b|]; [|done]. by edestruct Hl; apply Ho.
  - by apply Ho, Hl.
Qed.
Lemma supertypes_loop_spec l : ∀ n a acc,
  chain a l → in_type T a → (length l < n)%nat → TypeReader.supertypes_loop n fuel T acc (head l) s = Val (acc ++ l).
Proof.
  induction l as [|b l IH]; intros n a acc Hl Ha Hn; (destruct n as [|n]; [cbn in Hn; lia|]); cbn.
  - by rewrite app_nil_r.
  - destruct Hl as [Hs Hl]. assert (Hb : in_type T b) by (by apply (sub_in_type a b Hs)).
    rewrite (chain_head b l Hl Hb). cbn [mbind exec_bind]. rewrite (IH n b) by (done || cbn in Hn; lia). by rewrite <-app_assoc.
Qed.
Lemma supertypes_spec a :
  in_type T a → ∃ l, TypeReader.get_supertypes_transitive fuel T a s = Val l ∧ chain a l ∧ ∀ b, b ∈ l ↔ tc (sub s) a b.
Proof.
  intros Ha. destruct (chain_exists a Ha) as [l Hl]. exists l. split; [|split; [done|by apply chain_elem]].
  unfold TypeReader.get_supertypes_transitive. rewrite (chain_head a l Hl Ha). cbn [mbind exec_bind].
  rewrite (supertypes_loop_spec l fuel a); [done|done|done|]. pose proof (chain_length a l Hl). unfold fits in Hfit. lia.
Qed.

(** ** All subtypes *)
Context `{HashIteration}.
Lemma iter_types_elem X a : a ∈ iter_types X ↔ a ∈ X.
Proof. by rewrite iter_types_elements, elem_of_elements. Qed.
Lemma iter_types_NoDup X : NoDup (iter_types X).
Proof. rewrite iter_types_elements. apply NoDup_elements. Qed.
(** The search below [t] after some turns: what was found, and the types that
    were found and not visited yet. *)
Record search (t : Z) (found stack : list Z) : Prop := {
  se_found : NoDup (t :: found);
  se_stack : NoDup stack;
  se_within : ∀ x, x ∈ stack → x ∈ t :: found;
  se_visited : ∀ x c, x ∈ t :: found → x ∉ stack → sub s c x → c ∈ found;
  se_parent : ∀ c, c ∈ found → ∃ x, sub s c x ∧ x ∈ t :: found ∧ x ∉ stack;
  se_below : ∀ c, c ∈ found → tc (sub s) c t;
}.
Lemma search_fresh t found stack x c : search t found (x :: stack) → sub s c x → c ∉ t :: found.
Proof.
  intros Hse Hs [->|Hc]%elem_of_cons.
  - assert (Hx : x ∈ t :: found) by (apply (se_within _ _ _ Hse); by left). apply (acyclic t t); [|done].
    apply elem_of_cons in Hx as [->|Hx]; [by apply tc_once|]. eapply tc_l; [done|]. by apply (se_below _ _ _ Hse).
  - destruct (se_parent _ _ _ Hse c Hc) as (y & Hy & _ & Hn). apply Hn. rewrite (h_single s Hh c y x Hy Hs). by left.
Qed.
Lemma search_step t found stack x (X : gset Z) :
  search t found (x :: stack) → (∀ c, c ∈ X ↔ sub s c x) → search t (found ++ iter_types X) (reverse (iter_types X) ++ stack).
Proof.
  intros Hse HX. assert (Hfr : ∀ c, c ∈ iter_types X → c ∉ t :: found).
  { intros c Hc. apply (search_fresh t found stack x c Hse). by apply HX, iter_types_elem. }
  pose proof (se_stack _ _ _ Hse) as [Hxs Hst]%NoDup_cons. assert (Hxf : x ∈ t :: found) by (apply (se_within _ _ _ Hse); by left).
  assert (Hin : ∀ c, c ∈ reverse (iter_types X) ++ stack ↔ c ∈ iter_types X ∨ c ∈ stack) by (intros c; by rewrite elem_of_app, elem_of_reverse).
  split.
  - rewrite app_comm_cons. apply NoDup_app. split_and!; [apply (se_found _ _ _ Hse)|intros c Hc Hc'; by apply (Hfr c Hc')|apply iter_types_NoDup].
  - apply NoDup_app. split_and!; [rewrite reverse_Permutation; apply iter_types_NoDup| |done].
    intros c Hc Hs. rewrite reverse_Permutation in Hc. apply (Hfr c Hc), (se_within _ _ _ Hse). by right.
  - intros c. rewrite Hin, app_comm_cons, elem_of_app. intros [?|?]; [by right|]. left. apply (se_within _ _ _ Hse). by right.
  - intros y c. rewrite Hin, app_comm_cons, !elem_of_app. intros [Hy|Hy] Hn Hs; [|by destruct Hn; left].
    destruct (decide (y = x)) as [->|Hne]; [right; by apply iter_types_elem, HX|]. left. apply (se_visited _ _ _ Hse y); [done| |done].
    intros [?|?]%elem_of_cons; [done|]. apply Hn. by right.
  - intros c. rewrite app_comm_cons. setoid_rewrite Hin. setoid_rewrite elem_of_app. intros [Hc|Hc].
    + destruct (se_parent _ _ _ Hse c Hc) as (y & Hy & Hyf & Hn). exists y. split_and!; [done|by left|].
      intros [Hx|Hs]; [by apply (Hfr y Hx)|]. apply Hn. by right.
    + exists x. split_and!; [by apply HX, iter_types_elem|by left|]. intros [Hx|Hs]; [by apply (Hfr x Hx)|done].
  - intros c [Hc|Hc]%elem_of_app; [by apply (se_below _ _ _ Hse)|]. assert (Hs : sub s c x) by (by apply HX, iter_types_elem).
    apply elem_of_cons in Hxf as [->|Hxf]; [by apply tc_once|]. eapply tc_l; [done|]. by apply (se_below _ _ _ Hse).
Qed.
Lemma search_bounded t found stack : search t found stack → (length stack ≤ S (length found) ≤ S (entries SCHEMA s))%nat.
Proof.
  intros Hse. split.
  - change (S (length found)) with (length (t :: found)). apply submseteq_length, NoDup_submseteq; [apply (se_stack _ _ _ Hse)|].
    intros x. apply (se_within _ _ _ Hse).
  - apply le_n_S, subtypes_bounded; [by destruct (proj1 (NoDup_cons _ _) (se_found _ _ _ Hse))|].
    intros c Hc. destruct (se_parent _ _ _ Hse c Hc) as (x & Hs & _). by exists x.
Qed.
Lemma search_done t found : search t found [] → ∀ c, c ∈ found ↔ tc (sub s) c t.
Proof.
  intros Hse c. split; [apply (se_below _ _ _ Hse)|]. intros Ht. induction Ht as [c t Hs|c y t Hs Ht IH].
  - apply (se_visited _ _ _ Hse t); [by left|by apply not_elem_of_nil|done].
  - apply (se_visited _ _ _ Hse y); [right; by apply IH|by apply not_elem_of_nil|done].
Qed.
Lemma search_in_type t found stack : in_type T t → search t found stack → ∀ x, x ∈ t :: found → in_type T x.
Proof. intros Ht Hse x [->|Hx]%elem_of_cons; [done|]. apply (se_below _ _ _ Hse) in Hx. by apply (tc_in_type x t Hx). Qed.
Lemma subtypes_loop_spec t : in_type T t → ∀ n found stack,
  search t found stack → (S (entries SCHEMA s) < n + (S (length found) - length stack))%nat →
  ∃ l, TypeReader.subtypes_loop n fuel T found stack s = Val l ∧ search t l [].
Proof.
  intros Ht. induction n as [|n IH]; intros found stack Hse Hn; pose proof (search_bounded _ _ _ Hse); [lia|].
  destruct stack as [|x stack]; cbn [TypeReader.subtypes_loop]; [by exists found|].
  destruct (get_subtypes_spec x) as (X & -> & HX); [apply (search_in_type t found (x :: stack) Ht Hse), (se_within _ _ _ Hse); by left|].
  cbn [mbind exec_bind]. apply IH; [by apply (search_step t found stack x)|]. cbn [length] in *. rewrite !length_app, length_reverse. lia.
Qed.
Lemma subtypes_spec t :
  in_type T t → (S (entries SCHEMA s) < fuel)%nat →
  ∃ l, TypeReader.get_subtypes_transitive fuel T t s = Val l ∧ NoDup l ∧ ∀ c, c ∈ l ↔ tc (sub s) c t.
Proof.
  intros Ht Hf. destruct (subtypes_loop_spec t Ht fuel [] [t]) as (l & Hl & Hse).
  - split; [apply NoDup_singleton..|done| | |].
    + intros x c. by intros.
    + intros c Hc%not_elem_of_nil. done.
    + intros c Hc%not_elem_of_nil. done.
  - cbn [length]. lia.
  - exists l. split; [exact Hl|]. split; [by destruct (proj1 (NoDup_cons _ _) (se_found _ _ _ Hse))|by apply search_done].
Qed.
End hierarchy.

(** ** Capabilities *)
(** How the edges of a kind are encoded by a kind of capabilities. *)
Record encodes (CAP : TypeEdgeEncoding) (k : EdgeKind) : Prop := {
  en_canonical : CANONICAL_PREFIX CAP = canonical_prefix k;
  en_reverse : REVERSE_PREFIX CAP = reverse_prefix k;
  en_typed : ∀ e, well_typed k e ↔ edge_typed CAP e;
  en_closed : closed_type (From CAP);
}.
Lemma owns_encodes : encodes Owns OwnsEdge.
Proof. split; [done|done|done|apply object_closed]. Qed.
Lemma plays_encodes : encodes Plays PlaysEdge.
Proof. split; [done|done|done|apply object_closed]. Qed.
Lemma relates_encodes : encodes Relates RelatesEdge.
Proof. split; [done|done|done|apply (kind_closed KRelation)]. Qed.
(** A type has the capability that its nearest declaration gives it. *)
Definition inherits (k : EdgeKind) (s : WriteSnapshot) (o : Z) (e : edge) : Prop :=
  has k e s ∧ rtc (sub s) o e.1 ∧ ∀ o', rtc (sub s) o o' → tc (sub s) o' e.1 → ¬ has k (o', e.2) s.

Lemma add_capabilities_spec allow l : ∀ F I,
  NoDup l.*2 →
  let found := fold_left (TypeReader.add_capability allow) l (F, I) in
  (∀ e, e ∈ found.1 ↔ e ∈ F ∨ (e ∈ l ∧ (allow = true ∨ e.2 ∉ I))) ∧ ∀ i, i ∈ found.2 ↔ i ∈ I ∨ ∃ e, e ∈ l ∧ e.2 = i.
Proof.
  induction l as [|c l IH]; intros F I Hnd; cbn [fold_left].
  - split; [intros e|intros i]; cbn [fst snd]; split; [by left| |by left|].
    + intros [?|[[]%not_elem_of_nil _]]. done.
    + intros [?|(e & []%not_elem_of_nil & _)]. done.
  - rewrite fmap_cons in Hnd. apply NoDup_cons in Hnd as [Hc Hnd].
    assert (Hne : ∀ e, e ∈ l → e.2 ≠ c.2) by (intros e He Heq; apply Hc; rewrite <-Heq; by apply list_elem_of_fmap_2).
    assert (TypeReader.add_capability allow (F, I) c =
      if allow || negb (bool_decide (c.2 ∈ I)) then ({[c]} ∪ F, {[c.2]} ∪ I) else (F, I)) as -> by done.
    destruct (allow || negb (bool_decide (c.2 ∈ I))) eqn:Ea; cbn zeta.
    + destruct (IH ({[c]} ∪ F) ({[c.2]} ∪ I) Hnd) as [H1 H2]. split.
      * intros e. rewrite H1, !elem_of_union, !elem_of_singleton, elem_of_cons. apply orb_true_iff in Ea. split.
        -- intros [[->|?]|[He Hi]]; [|by left|right; set_solver]. right. split; [by left|]. destruct Ea as [?|Ea]; [by left|right].
           by apply negb_true_iff, bool_decide_eq_false in Ea.
        -- intros [?|[[->|He] Hi]]; [by left; right|by left; left|]. right. split; [done|]. specialize (Hne e He). set_solver.
      * intros i. rewrite H2, elem_of_union, elem_of_singleton. setoid_rewrite elem_of_cons. split.
        -- intros [[->|?]|(e & ? & ?)]; [right; exists c; auto|auto|right; exists e; auto].
        -- intros [?|(e & [->|?] & ?)]; [auto|auto|right; exists e; auto].
    + apply orb_false_iff in Ea as [-> Ea]. apply negb_false_iff, bool_decide_eq_true in Ea.
      destruct (IH F I Hnd) as [H1 H2]. split.
      * intros e. rewrite H1, elem_of_cons. split; [naive_solver|]. intros [?|[[->|?] Hi]]; [by left|by destruct Hi|by right].
      * intros i. rewrite H2. setoid_rewrite elem_of_cons. split; [naive_solver|]. intros [?|(e & [->|?] & Hi)]; [auto|left; by subst i|right; by exists e].
Qed.

Section capabilities.
Context `{HashIteration} (s : WriteSnapshot) (fuel : nat) (Hok : schema_ok s) (Hh : hierarchy_ok s) (Hfuel : (S (entries SCHEMA s) < fuel)%nat).
Context (CAP : TypeEdgeEncoding) (k : EdgeKind) (Hk : encodes CAP k).
Lemma roomy : fits fuel SCHEMA s.
Proof. unfold fits. lia. Qed.
Lemma iter_edges_elem X e : e ∈ iter_edges X ↔ e ∈ X.
Proof. by rewrite iter_edges_elements, elem_of_elements. Qed.
Lemma key_canonical e : (key k e).2 = (canonical_key CAP e).2.
Proof. unfold key_at, EdgeEncoding.to_canonical_type_edge. by rewrite (en_canonical _ _ Hk). Qed.
Lemma key_reverse e : (rkey k e).2 = (reverse_key CAP e).2.
Proof. unfold key_at, EdgeEncoding.to_reverse_type_edge. by rewrite (en_reverse _ _ Hk). Qed.
Lemma declared_spec o :
  in_type (From CAP) o →
  ∃ X, TypeReader.get_capabilities_declared fuel CAP o s = Val X ∧ ∀ e, e ∈ X ↔ has k e s ∧ e.1 = o.
Proof.
  intros Ho. unfold TypeReader.get_capabilities_declared. rewrite new_typed by done. cbn [lift mbind exec_bind].
  unfold EdgeEncoding.prefix_for_canonical_edges_from. rewrite (en_canonical _ _ Hk).
  destruct (collect_edges (A:=edge) fuel false k o (λ key _, EdgeEncoding.decode_canonical_edge CAP key) (λ e, e) s) as (X & HX & Hin);
    [done|apply Ho|apply roomy| |exists X; split; [exact HX|]].
  - intros e val [He _] _. rewrite key_canonical. apply canonical_decodes. by apply (en_typed _ _ Hk).
  - intros e. rewrite Hin. split; [by intros (e' & He & Hs & ->)|]. intros [He Hs]. by exists e.
Qed.
Lemma for_interface_spec i :
  is_vertex i → ∃ X, TypeReader.get_capabilities_for_interface fuel CAP i s = Val X ∧ ∀ e, e ∈ X ↔ has k e s ∧ e.2 = i.
Proof.
  intros Hi. unfold TypeReader.get_capabilities_for_interface, EdgeEncoding.prefix_for_reverse_edges_from. rewrite (en_reverse _ _ Hk).
  destruct (collect_edges (A:=edge) fuel true k i (λ key _, EdgeEncoding.decode_reverse_edge CAP key) (λ e, e) s) as (X & HX & Hin);
    [done|apply Hi|apply roomy| |exists X; split; [exact HX|]].
  - intros e val [He _] _. rewrite key_reverse. apply reverse_decodes. by apply (en_typed _ _ Hk).
  - intros e. rewrite Hin. split; [by intros (e' & He & Hs & ->)|]. intros [He Hs]. by exists e.
Qed.
(** What is found on the types [visited], the nearest first. *)
Definition nearest (allow : bool) (visited : list Z) (e : edge) : Prop :=
  has k e s ∧ ∃ pre post, visited = pre ++ e.1 :: post ∧ (allow = true ∨ ∀ o, o ∈ pre → ¬ has k (o, e.2) s).
Lemma nearest_app allow visited a e :
  nearest allow (visited ++ [a]) e ↔
    nearest allow visited e ∨ (has k e s ∧ e.1 = a ∧ (allow = true ∨ ¬ ∃ o, o ∈ visited ∧ has k (o, e.2) s)).
Proof.
  unfold nearest. split.
  - intros (He & pre & post & Hv & Hn). destruct post as [|x post _] using rev_ind.
    + apply app_inj_tail in Hv as [-> ->]. right. split_and!; [done|done|]. destruct Hn as [?|Hn]; [by left|right].
      intros (o & Ho & Hh'). by apply (Hn o).
    + rewrite app_comm_cons, app_assoc in Hv. apply app_inj_tail in Hv as [-> _]. left. split; [done|]. by exists pre, post.
  - intros [(He & pre & post & -> & Hn)|(He & <- & Hn)].
    + split; [done|]. exists pre, (post ++ [a]). split; [by rewrite <-app_assoc|done].
    + split; [done|]. exists visited, []. split; [done|]. destruct Hn as [?|Hn]; [by left|right]. intros o Ho Hh'. apply Hn. by exists o.
Qed.
Lemma capabilities_loop_spec allow l : ∀ a n visited F I,
  chain s a l → in_type (From CAP) a → (S (length l) < n)%nat → 
  (∀ e, e ∈ F ↔ nearest allow visited e) → (∀ i, i ∈ I ↔ ∃ o, o ∈ visited ∧ has k (o, i) s) →
  ∃ X, TypeReader.capabilities_loop n fuel CAP allow (F, I) (Some a) s = Val X ∧ ∀ e, e ∈ X ↔ nearest allow (visited ++ a :: l) e.
Proof.
  induction l as [|b l IH]; intros a n visited F I Hl Ha Hn HF HI; (destruct n as [|n]; [lia|]); cbn [TypeReader.capabilities_loop];
    destruct (declared_spec a Ha) as (X & -> & HX); cbn [mbind exec_bind];
    rewrite (chain_head s fuel Hok Hh roomy (From CAP) (en_closed _ _ Hk) a _ Hl Ha); cbn [mbind exec_bind head];
    (destruct (add_capabilities_spec allow (iter_edges X) F I) as [H1 H2];
      [rewrite iter_edges_elements; apply (NoDup_fmap_2_strong snd); [|apply NoDup_elements]; intros [x1 x2] [y1 y2] [_ Hx]%elem_of_elements%HX [_ Hy]%elem_of_elements%HX;
       cbn in *; congruence|]);
    destruct (fold_left (TypeReader.add_capability allow) (iter_edges X) (F, I)) as [F' I']; cbn [fst snd] in H1, H2;
    (assert (HF' : ∀ e, e ∈ F' ↔ nearest allow (visited ++ [a]) e);
      [intros e; rewrite H1, nearest_app, HF, iter_edges_elem, HX, HI; tauto|]).
  - destruct n as [|n]; [cbn in Hn; lia|]. by exists F'.
  - destruct Hl as [Hs Hl]. destruct (IH b n (visited ++ [a]) F' I') as (Y & HY & Hin); [done|by apply (sub_in_type s (From CAP) (en_closed _ _ Hk) a b Hs)|cbn in Hn; lia|done| |].
    + intros i. rewrite H2, HI. setoid_rewrite elem_of_app. setoid_rewrite list_elem_of_singleton. setoid_rewrite iter_edges_elem. setoid_rewrite HX. split.
      * intros [(o & ? & ?)|([x y] & [? ?] & ?)]; [exists o; auto|]. cbn in *. subst. exists a. auto.
      * intros (o & [?| ->] & ?); [left; by exists o|]. right. by exists (a, i).
    + exists Y. split; [exact HY|]. intros e. by rewrite Hin, <-app_assoc.
Qed.
Abbreviation sub := (sub s).
(** The types of a chain that come before one of its types are below it. *)
Lemma chain_split pre x post : ∀ a l, chain s a l → a :: l = pre ++ x :: post →
  rtc sub a x ∧ chain s x post ∧ ∀ o, o ∈ pre → rtc sub a o ∧ tc sub o x.
Proof.
  induction pre as [|y pre IH]; intros a l Hl He.
  - injection He as -> ->. split_and!; [done|done|]. by intros o ?%not_elem_of_nil.
  - injection He as -> He. destruct l as [|b l]; [by destruct pre|]. destruct Hl as [Hs Hl].
    destruct (IH b l Hl He) as (Hr & Hc & Hp). split_and!; [by eapply rtc_l|done|].
    intros o [->|(Ho & Ht)%Hp]%elem_of_cons; [split; [done|by eapply tc_rtc_r; [apply tc_once|]]|]. split; [by eapply rtc_l|done].
Qed.
Lemma chain_reach a l x : chain s a l → rtc sub a x → x ∈ a :: l.
Proof.
  intros Hl Hr. apply elem_of_cons. apply rtc_tc in Hr as [->|Ht]; [by left|right].
  by apply (chain_elem s Hh l a Hl).
Qed.
Lemma nearest_inherits a l e : chain s a l → nearest false (a :: l) e ↔ inherits k s a e.
Proof.
  intros Hl. split.
  - intros (He & pre & post & Hv & [?|Hn]); [done|]. destruct (chain_split _ _ _ _ _ Hl Hv) as (Hr & Hc & Hp). split_and!; [done|done|].
    intros o Hro Hto. apply (chain_reach a l o Hl) in Hro. rewrite Hv in Hro. apply elem_of_app in Hro as [Hpre|[->|Hpost]%elem_of_cons].
    + by apply Hn.
    + by destruct (acyclic s Hh _ _ Hto).
    + apply (chain_elem s Hh post e.1 Hc) in Hpost. by destruct (acyclic s Hh e.1 e.1); [by eapply tc_transitive|].
  - intros (He & Hr & Hn). split; [done|]. apply (chain_reach a l _ Hl) in Hr. apply list_elem_of_split in Hr as (pre & post & Hv).
    exists pre, post. split; [done|]. right. intros o Ho. destruct (chain_split _ _ _ _ _ Hl Hv) as (_ & _ & Hp). by apply Hn; apply Hp.
Qed.
Lemma nearest_all a l e : chain s a l → nearest true (a :: l) e ↔ has k e s ∧ rtc sub a e.1.
Proof.
  intros Hl. split.
  - intros (He & pre & post & Hv & _). by destruct (chain_split _ _ _ _ _ Hl Hv) as (Hr & _ & _).
  - intros (He & Hr). split; [done|]. apply (chain_reach a l _ Hl) in Hr. apply list_elem_of_split in Hr as (pre & post & Hv).
    exists pre, post. split; [done|by left].
Qed.
Lemma capabilities_spec allow a :
  in_type (From CAP) a →
  ∃ X, TypeReader.get_capabilities fuel CAP a allow s = Val X ∧
    ∀ e, e ∈ X ↔ if allow then has k e s ∧ rtc sub a e.1 else inherits k s a e.
Proof.
  intros Ha. destruct (chain_exists s fuel Hok Hh roomy (From CAP) (en_closed _ _ Hk) a Ha) as [l Hl].
  destruct (capabilities_loop_spec allow l a fuel [] ∅ ∅) as (X & HX & Hin); [done|done| | | |].
  - pose proof (chain_length s Hok Hh a l Hl). lia.
  - intros e. split; [by intros []%not_elem_of_empty|]. intros (_ & pre & post & Hv & _). by destruct pre.
  - intros i. split; [by intros []%not_elem_of_empty|]. intros (o & []%not_elem_of_nil & _).
  - exists X. split; [exact HX|]. intros e. rewrite Hin. cbn [app]. destruct allow; [by apply nearest_all|by apply nearest_inherits].
Qed.
(** A type inherits one declaration for an interface. *)
Lemma inherits_unique a e e' : inherits k s a e → inherits k s a e' → e.2 = e'.2 → e = e'.
Proof.
  intros (He & Hr & Hn) (He' & Hr' & Hn') Hi. destruct e as [x i], e' as [y j]. cbn in *. subst j.
  assert (∀ b x y, rtc sub b x → rtc sub b y → rtc sub x y ∨ rtc sub y x) as Hcomp.
  { clear -Hh. intros b x y Hx. revert y. induction Hx as [b|b c x Hs Hx IH]; intros y Hy; [by left|].
    inversion Hy as [|? c' ? Hs' Hy']; subst; [right; by eapply rtc_l|]. rewrite (h_single s Hh b c' c Hs' Hs) in Hy'. auto. }
  destruct (Hcomp a x y Hr Hr') as [Hc|Hc]; apply rtc_tc in Hc as [->|Hc]; [done| |done|].
  - by destruct (Hn' x Hr Hc).
  - by destruct (Hn y Hr' Hc).
Qed.
Lemma inherits_rtc a e : inherits k s a e → a = e.1 ∨ tc sub a e.1.
Proof. intros (_ & Hr & _). by apply rtc_tc. Qed.
Lemma has_from e : has k e s → in_type (From CAP) e.1 ∧ in_type (To CAP) e.2.
Proof. intros [Ht _]. by apply (en_typed _ _ Hk) in Ht. Qed.
Lemma inherits_in_type a e : inherits k s a e → in_type (From CAP) a.
Proof.
  intros Hi. pose proof Hi as [He _]. apply has_from in He as [Ht _]. apply inherits_rtc in Hi as [->|Htc]; [done|].
  by apply (tc_in_type s (From CAP) (en_closed _ _ Hk) a e.1 Htc).
Qed.
Lemma object_types_loop_spec c l : ∀ O : gset Z,
  (∀ t, t ∈ l → in_type (From CAP) t) →
  ∃ Y, TypeReader.object_types_loop fuel CAP c l O s = Val Y ∧ ∀ t, t ∈ Y ↔ t ∈ O ∨ (t ∈ l ∧ inherits k s t c).
Proof.
  induction l as [|a l IH]; intros O Hl; cbn [TypeReader.object_types_loop].
  - exists O. split; [done|]. intros t. split; [by left|]. intros [?|[[]%not_elem_of_nil _]]. done.
  - destruct (capabilities_spec false a) as (X & -> & HX); [apply Hl; by left|]. cbn [mbind exec_bind].
    destruct (IH (if decide (c ∈ X) then {[a]} ∪ O else O)) as (Y & HY & Hin); [intros; apply Hl; by right|]. exists Y. split; [exact HY|].
    intros t. rewrite Hin, elem_of_cons. specialize (HX c). cbn in HX. destruct (decide (c ∈ X)) as [Hc|Hc].
    + rewrite elem_of_union, elem_of_singleton. apply HX in Hc. naive_solver.
    + rewrite HX in Hc. naive_solver.
Qed.
Lemma object_types_spec c :
  has k c s → ∃ Y, TypeReader.get_object_types_with_capability fuel CAP c s = Val Y ∧ ∀ t, t ∈ Y ↔ inherits k s t c.
Proof.
  intros Hc. destruct (has_from c Hc) as [Hf _]. unfold TypeReader.get_object_types_with_capability.
  destruct (subtypes_spec s fuel Hok Hh roomy (From CAP) (en_closed _ _ Hk) c.1 Hf Hfuel) as (l & -> & _ & Hl). cbn [mbind exec_bind].
  destruct (object_types_loop_spec c (c.1 :: l) ∅) as (Y & HY & Hin).
  { intros t [->|Ht%Hl]%elem_of_cons; [done|]. by apply (tc_in_type s (From CAP) (en_closed _ _ Hk) t c.1 Ht). }
  exists Y. split; [exact HY|]. intros t. rewrite Hin. split; [by intros [[]%not_elem_of_empty|[_ ?]]|].
  intros Hi. right. split; [|done]. apply elem_of_cons. apply inherits_rtc in Hi as [->|Ht]; [by left|right; by apply Hl].
Qed.
Lemma insert_all (c : edge) (l : list Z) : ∀ (m : gmap Z edge) t,
  fold_left (λ m object_type, <[object_type := c]> m) l m !! t = if decide (t ∈ l) then Some c else m !! t.
Proof.
  induction l as [|a l IH]; intros m t; cbn [fold_left].
  - by rewrite decide_False by apply not_elem_of_nil.
  - rewrite IH. destruct (decide (t ∈ l)) as [Ht|Ht]; [by rewrite decide_True by (by right)|].
    destruct (decide (t = a)) as [->|Hne]; [by rewrite lookup_insert_eq, decide_True by (by left)|].
    rewrite lookup_insert_ne by done. rewrite decide_False; [done|]. by intros [?|?]%elem_of_cons.
Qed.
Lemma interface_loop_spec i l : ∀ (seen : list edge) (m : gmap Z edge),
  (∀ e, e ∈ l → has k e s ∧ e.2 = i) → (∀ e, e ∈ seen → e.2 = i) →
  (∀ t e, m !! t = Some e ↔ e ∈ seen ∧ inherits k s t e) →
  ∃ m', TypeReader.interface_loop fuel CAP l m s = Val m' ∧ ∀ t e, m' !! t = Some e ↔ e ∈ seen ++ l ∧ inherits k s t e.
Proof.
  induction l as [|c l IH]; intros seen m Hl Hseen Hm; cbn [TypeReader.interface_loop].
  - exists m. split; [done|]. by rewrite app_nil_r.
  - destruct (Hl c) as [Hc Hci]; [by left|]. destruct (object_types_spec c Hc) as (Y & -> & HY). cbn [mbind exec_bind].
    destruct (IH (seen ++ [c]) (fold_left (λ m object_type, <[object_type := c]> m) (iter_types Y) m)) as (m' & Hm' & Hin).
    + intros e He. apply Hl. by right.
    + intros e [He|He]%elem_of_app; [by apply Hseen|]. apply list_elem_of_singleton in He as ->. done.
    + intros t e. rewrite insert_all, elem_of_app, list_elem_of_singleton. destruct (decide (t ∈ iter_types Y)) as [Ht|Ht]; rewrite iter_types_elem, HY in Ht.
      * split; [intros [= <-]; auto|]. intros [[He| ->] Hi]; [|done]. f_equal. apply (inherits_unique t); [done..|]. by rewrite (Hseen e He).
      * rewrite Hm. naive_solver.
    + exists m'. split; [exact Hm'|]. intros t e. by rewrite Hin, <-app_assoc.
Qed.
Lemma interface_spec i :
  is_vertex i → ∃ m, TypeReader.get_object_types_with_capabilities_for_interface fuel CAP i s = Val m ∧
    ∀ t e, m !! t = Some e ↔ inherits k s t e ∧ e.2 = i.
Proof.
  intros Hi. unfold TypeReader.get_object_types_with_capabilities_for_interface.
  destruct (for_interface_spec i Hi) as (X & -> & HX). cbn [mbind exec_bind].
  destruct (interface_loop_spec i (iter_edges X) [] ∅) as (m & Hm & Hin).
  - intros e He. by apply HX, iter_edges_elem.
  - by intros e []%not_elem_of_nil.
  - intros t e. rewrite lookup_empty. split; [done|]. by intros [[]%not_elem_of_nil _].
  - exists m. split; [exact Hm|]. intros t e. rewrite Hin. cbn [app]. rewrite iter_edges_elem, HX. split; [tauto|].
    intros [Hie He]. split; [|done]. split; [apply Hie|done].
Qed.
End capabilities.
