(* ===== verification/Constraints.v ===== *)
(** * The annotations of types in the schema:
    [concept/type_/type_manager/type_reader.rs] (annotations and constraints),
    [concept/type_/type_manager.rs] (setting and unsetting them) and
    [concept/type_/type_manager/validation/]

    The annotations of a type are properties of its vertex, one for each
    category, and are read by a scan of their infixes; a type has the
    constraints of its own annotations and of those of its supertypes.  Hash
    sets of annotations and constraints are lists in which no two elements are
    equal; what iterates over one sees its elements in an order that is
    arbitrary: [SetIteration]. *)
From stdpp Require Import strings gmap relations.
From S2P Require Import Prelude BTree Bytes MemoryStore Buffer LendingIter Mvcc Keyspaces Snapshot Dependency Timeline Isolation Storage Views Windows Layout Values Structs Attributes Things Edges ThingManager ThingGraph Pattern TypeEdges Annotations TypeReader SchemaGraph.
Import KeyRangeOps.
#[local] Open Scope Z_scope.

Class SetIteration := {
  iter_set {A : Type} : list A → list A;
  iter_set_elements {A : Type} (l : list A) : iter_set l ≡ₚ l;
}.
(** [HashSet::insert]. *)
Definition set_insert {A} (eqb : A → A → bool) (x : A) (l : list A) : list A := if existsb (eqb x) l then l else l ++ [x].

(** ** Equality of annotations and constraints, as derived *)
Section equality.
Context `{ChronoZoned}.
Definition option_eqb {A} (eqb : A → A → bool) (a b : option A) : bool :=
  match a, b with Some a, Some b => eqb a b | None, None => true | _, _ => false end.
Definition range_eqb (a b : AnnotationRange) : bool :=
  option_eqb value_eqb (rng_start a) (rng_start b) && option_eqb value_eqb (rng_end a) (rng_end b).
Fixpoint values_eqb (a b : list Value) : bool :=
  match a, b with [], [] => true | v :: a, w :: b => value_eqb v w && values_eqb a b | _, _ => false end.
Definition annotation_eqb (a b : Annotation) : bool :=
  match a, b with
  | AnnAbstract, AnnAbstract | AnnDistinct, AnnDistinct | AnnIndependent, AnnIndependent | AnnUnique, AnnUnique
  | AnnKey, AnnKey | AnnCascade, AnnCascade => true
  | AnnDoc a, AnnDoc b => bool_decide (doc_description a = doc_description b)
  | AnnCardinality a, AnnCardinality b => Cardinality.eqb a b
  | AnnRegex a, AnnRegex b => bool_decide (regex a = regex b)
  | AnnRange a, AnnRange b => range_eqb a b
  | AnnValues a, AnnValues b => values_eqb (ann_values a) (ann_values b)
  | _, _ => false
  end.
Definition description_eqb (a b : ConstraintDescription) : bool :=
  match a, b with
  | DAbstract, DAbstract | DDistinct, DDistinct | DIndependent, DIndependent | DUnique, DUnique => true
  | DCardinality a, DCardinality b => Cardinality.eqb a b
  | DRegex a, DRegex b => bool_decide (regex a = regex b)
  | DRange a, DRange b => range_eqb a b
  | DValues a, DValues b => values_eqb (ann_values a) (ann_values b)
  | _, _ => false
  end.
End equality.
(** [TypeConstraint] and [CapabilityConstraint]: a description and its source. *)
Record Constraint `{ChronoZoned} (S : Type) := mk_Constraint { description : ConstraintDescription; source : S }.
Arguments mk_Constraint {_ _ S} description source.
Arguments description {_ _ S} c.
Arguments source {_ _ S} c.

Inductive CapabilityKind := CapOwns | CapPlays | CapRelates.

Module TypeAnnotations.
Section annotations.
Context `{ChronoZoned} `{AnnotationBincode} `{Bincode Ordering} `{HashIteration} `{SetIteration}.
Abbreviation read := (exec ConceptReadError).
Definition SCHEMA_ID : Z := EncodingKeyspaces.id VertexProperty.KEYSPACE.
Definition annotation_key (type_ : Z) (infix : Infix) : bytes := VertexProperty.to_bytes (VertexProperty.new type_ infix).
Definition annotations_range (type_ : Z) : KeyRange bytes :=
  mk_KeyRange (Inclusive (annotation_key type_ Infixes.ANNOTATION_MIN))
    (EndPrefixInclusive (annotation_key type_ Infixes.ANNOTATION_MAX)) false.
Definition read_annotation (target : AnnotationTarget) (key value : bytes) : outcome Annotation :=
  annotation_key ← VertexProperty.decode key;
  annotation ← decode_type_annotation (vp_infix annotation_key) value;
  unwrap_ok (try_from target annotation).
Definition get_type_annotations_declared (fuel : nat) (K : Kind) (type_ : Z) (s : WriteSnapshot) : read (list Annotation) :=
  it ← lift (Snap.iterate_range SCHEMA_ID (annotations_range type_) s);
  TM.for_each fuel fuel (λ e, e)
    (λ key value found, a ← lift (read_annotation (OnType K) key value); Val (set_insert annotation_eqb a found)) it [].

(** ** Constraints of types *)
Definition constraint_eqb (a b : Constraint Z) : bool :=
  description_eqb (description a) (description b) && (source a =? source b).
Definition same_category (a b : Constraint Z) : bool :=
  bool_decide (constraint_category (description a) = constraint_category (description b)).
Definition add_constraint (type_ : Z) (all_constraints : list (Constraint Z)) (constraint : Constraint Z) : list (Constraint Z) :=
  match scope_of (description constraint) with
  | SingleInstanceOfType =>
      if source constraint =? type_ then set_insert constraint_eqb constraint all_constraints else all_constraints
  | AllInstancesOfTypeOrSubtypes =>
      let all_constraints :=
        match List.find (λ saved, same_category saved constraint) (iter_set all_constraints) with
        | Some duplicate => List.filter (λ c, negb (constraint_eqb duplicate c)) all_constraints
        | None => all_constraints
        end in
      set_insert constraint_eqb constraint all_constraints
  | SingleInstanceOfTypeOrSubtype | AllInstancesOfSiblingTypeOrSubtypes => set_insert constraint_eqb constraint all_constraints
  end.
Definition add_annotation (type_ curr_type : Z) (all_constraints : list (Constraint Z)) (annotation : Annotation) : list (Constraint Z) :=
  fold_left (add_constraint type_) (List.map (λ d, mk_Constraint d curr_type) (iter_set (from_annotation annotation))) all_constraints.
Fixpoint constraints_loop (n fuel : nat) (K : Kind) (type_ : Z) (all_constraints : list (Constraint Z)) (type_opt : option Z)
    (s : WriteSnapshot) : read (list (Constraint Z)) :=
  match n with
  | O => Panic
  | S n =>
      match type_opt with
      | None => Val all_constraints
      | Some curr_type =>
          declared_annotations ← get_type_annotations_declared fuel K curr_type s;
          let all_constraints := fold_left (add_annotation type_ curr_type) (iter_set declared_annotations) all_constraints in
          type_opt ← TypeReader.get_supertype fuel (type_of_kind K) curr_type s;
          constraints_loop n fuel K type_ all_constraints type_opt s
      end
  end.
Definition get_type_constraints (fuel : nat) (K : Kind) (type_ : Z) (s : WriteSnapshot) : read (list (Constraint Z)) :=
  constraints_loop fuel fuel K type_ [] (Some type_) s.
(** The filters by category; [find] of one. *)
Definition by_category {S} (c : ConstraintCategory) (l : list (Constraint S)) : list (Constraint S) :=
  List.filter (λ x, bool_decide (constraint_category (description x) = c)) l.
Definition get_abstract_constraint {S} (l : list (Constraint S)) : option (Constraint S) := head (by_category KAbstract (iter_set l)).
Definition get_constraints_regex (fuel : nat) (attribute_type : Z) (s : WriteSnapshot) : read (list (Constraint Z)) :=
  l ← get_type_constraints fuel KAttribute attribute_type s; Val (by_category KRegex (l : list (Constraint Z))).
Definition get_constraints_range (fuel : nat) (attribute_type : Z) (s : WriteSnapshot) : read (list (Constraint Z)) :=
  l ← get_type_constraints fuel KAttribute attribute_type s; Val (by_category KRange (l : list (Constraint Z))).
Definition get_constraints_values (fuel : nat) (attribute_type : Z) (s : WriteSnapshot) : read (list (Constraint Z)) :=
  l ← get_type_constraints fuel KAttribute attribute_type s; Val (by_category KValues (l : list (Constraint Z))).

(** ** Constraints of capabilities *)
Definition encoding_of (CAP : CapabilityKind) : TypeEdgeEncoding :=
  match CAP with CapOwns => Owns | CapPlays => Plays | CapRelates => Relates end.
Definition target_of (CAP : CapabilityKind) : AnnotationTarget :=
  match CAP with CapOwns => OnOwns | CapPlays => OnPlays | CapRelates => OnRelates end.
Definition capability_annotation_key (CAP : CapabilityKind) (capability : edge) (infix : Infix) : bytes :=
  EdgeProperty.to_bytes (EdgeProperty.new (EdgeEncoding.to_canonical_type_edge (encoding_of CAP) capability) infix).
Definition capability_annotations_range (CAP : CapabilityKind) (capability : edge) : KeyRange bytes :=
  mk_KeyRange (Inclusive (capability_annotation_key CAP capability Infixes.ANNOTATION_MIN))
    (EndPrefixInclusive (capability_annotation_key CAP capability Infixes.ANNOTATION_MAX)) false.
Definition read_capability_annotation (target : AnnotationTarget) (key value : bytes) : outcome Annotation :=
  annotation_key ← EdgeProperty.decode key;
  annotation ← decode_capability_annotation (ep_infix annotation_key) value;
  unwrap_ok (try_from target annotation).
Definition get_capability_annotations_declared (fuel : nat) (CAP : CapabilityKind) (capability : edge) (s : WriteSnapshot)
  : read (list Annotation) :=
  it ← lift (Snap.iterate_range SCHEMA_ID (capability_annotations_range CAP capability) s);
  TM.for_each fuel fuel (λ e, e)
    (λ key value found, a ← lift (read_capability_annotation (target_of CAP) key value); Val (set_insert annotation_eqb a found)) it [].
Definition capability_constraint_eqb (a b : Constraint edge) : bool :=
  description_eqb (description a) (description b) && bool_decide (source a = source b).
(** The defaults of [owns.rs], [plays.rs] and [relates.rs]. *)
Definition DEFAULT_UNORDERED_CARDINALITY : AnnotationCardinality := mk_AnnotationCardinality 0 (Some 1).
Definition DEFAULT_ORDERED_CARDINALITY : AnnotationCardinality := mk_AnnotationCardinality 0 None.
Definition get_default_cardinality (o : Ordering) : AnnotationCardinality :=
  match o with Unordered => DEFAULT_UNORDERED_CARDINALITY | TypeEdges.Ordered => DEFAULT_ORDERED_CARDINALITY end.
Definition get_default_distinct (o : Ordering) : list ConstraintDescription :=
  match o with TypeEdges.Ordered => [] | Unordered => [DDistinct] end.
Definition get_owns_default_constraints (o : Ordering) : list ConstraintDescription :=
  DCardinality (get_default_cardinality o) :: get_default_distinct o.
Definition get_plays_default_constraints : list ConstraintDescription := [DCardinality DEFAULT_ORDERED_CARDINALITY].
Definition get_relates_default_constraints (role_ordering : Ordering) (is_implicit : bool) : list ConstraintDescription :=
  (if is_implicit then [] else [DCardinality (get_default_cardinality role_ordering)]) ++ get_default_distinct role_ordering.
Definition add_default (capability : edge) (constraints : list (Constraint edge)) (d : ConstraintDescription) : list (Constraint edge) :=
  if existsb (λ c, bool_decide (constraint_category (description c) = constraint_category d)) constraints then constraints
  else set_insert capability_constraint_eqb (mk_Constraint d capability) constraints.
Definition add_capability_default_constraints_if_not_declared (CAP : CapabilityKind) (capability : edge)
    (constraints : list (Constraint edge)) (s : WriteSnapshot) : read (list (Constraint edge)) :=
  defaults ←
    match CAP with
    | CapRelates =>
        relation ← lift (new RelationType capability.1); role ← lift (new RoleType capability.2);
        role_ordering ← TypeReader.get_type_ordering role s;
        is_implicit ← TypeReader.is_relates_implicit (relation, role) s;
        Val (get_relates_default_constraints role_ordering is_implicit)
    | CapPlays => Val get_plays_default_constraints
    | CapOwns =>
        owner ← lift (new TypeEdges.ObjectType capability.1); attribute ← lift (new AttributeType capability.2);
        ordering ← TypeReader.get_capability_ordering (owner, attribute) s;
        Val (get_owns_default_constraints ordering)
    end;
  Val (fold_left (add_default capability) (iter_set (defaults : list ConstraintDescription)) constraints).
Definition get_capability_constraints (fuel : nat) (CAP : CapabilityKind) (capability : edge) (s : WriteSnapshot)
  : read (list (Constraint edge)) :=
  declared_annotations ← get_capability_annotations_declared fuel CAP capability s;
  let constraints :=
    fold_left (λ l d, set_insert capability_constraint_eqb (mk_Constraint d capability) l)
      (concat (List.map (λ a, iter_set (from_annotation a)) (iter_set (declared_annotations : list Annotation)))) [] in
  add_capability_default_constraints_if_not_declared CAP capability constraints s.
Definition capability_is_abstract (fuel : nat) (CAP : CapabilityKind) (capability : edge) (s : WriteSnapshot) : read bool :=
  constraints ← get_capability_constraints fuel CAP capability s;
  Val (match get_abstract_constraint (constraints : list (Constraint edge)) with Some _ => true | None => false end).
(** [is_abstract] of each kind: a role is abstract where it is declared. *)
Definition is_abstract (fuel : nat) (K : Kind) (type_ : Z) (s : WriteSnapshot) : read bool :=
  match K with
  | KRole =>
      relates ← TypeReader.get_role_type_relates_explicit fuel type_ s;
      capability_is_abstract fuel CapRelates relates s
  | _ =>
      constraints ← get_type_constraints fuel K type_ s;
      Val (match get_abstract_constraint (constraints : list (Constraint Z)) with Some _ => true | None => false end)
  end.

(** [get_type_capability_constraints]: the constraints of the capability that an
    object type has for an interface type, with those of the capabilities for
    the supertypes of the interface type. *)
Definition add_capability_constraint (fuel : nat) (CAP : CapabilityKind) (object_capability : edge)
    (all_constraints : list (Constraint edge)) (constraint : Constraint edge) (s : WriteSnapshot) : read (list (Constraint edge)) :=
  match scope_of (description constraint) with
  | SingleInstanceOfType =>
      Val (if bool_decide (source constraint = object_capability) then set_insert capability_constraint_eqb constraint all_constraints
           else all_constraints)
  | AllInstancesOfTypeOrSubtypes =>
      match List.find (λ saved, bool_decide (constraint_category (description saved) = constraint_category (description constraint)))
              (iter_set all_constraints) with
      | Some duplicate =>
          duplicate_source_supertypes ← TypeReader.get_supertypes_transitive fuel (To (encoding_of CAP)) (source duplicate).2 s;
          Val (if bool_decide ((source constraint).2 ∈ (duplicate_source_supertypes : list Z)) then
                 set_insert capability_constraint_eqb constraint
                   (List.filter (λ c, negb (capability_constraint_eqb duplicate c)) all_constraints)
               else all_constraints)
      | None => Val (set_insert capability_constraint_eqb constraint all_constraints)
      end
  | SingleInstanceOfTypeOrSubtype | AllInstancesOfSiblingTypeOrSubtypes =>
      Val (set_insert capability_constraint_eqb constraint all_constraints)
  end.
Fixpoint capability_constraints_inner (fuel : nat) (CAP : CapabilityKind) (object_capability : edge) (constraints : list (Constraint edge))
    (all_constraints : list (Constraint edge)) (s : WriteSnapshot) : read (list (Constraint edge)) :=
  match constraints with
  | [] => Val all_constraints
  | constraint :: constraints =>
      all_constraints ← add_capability_constraint fuel CAP object_capability all_constraints constraint s;
      capability_constraints_inner fuel CAP object_capability constraints all_constraints s
  end.
Fixpoint capability_constraints_loop (fuel : nat) (CAP : CapabilityKind) (object_capability : edge) (capabilities : list edge)
    (all_constraints : list (Constraint edge)) (s : WriteSnapshot) : read (list (Constraint edge)) :=
  match capabilities with
  | [] => Val all_constraints
  | current_capability :: capabilities =>
      constraints ← get_capability_constraints fuel CAP current_capability s;
      all_constraints ← capability_constraints_inner fuel CAP object_capability (iter_set (constraints : list (Constraint edge))) all_constraints s;
      capability_constraints_loop fuel CAP object_capability capabilities all_constraints s
  end.
Definition get_type_capability_constraints (fuel : nat) (CAP : CapabilityKind) (object_type interface_type : Z) (s : WriteSnapshot)
  : read (list (Constraint edge)) :=
  object_capabilities ← TypeReader.get_capabilities fuel (encoding_of CAP) object_type false s;
  match List.find (λ capability : edge, capability.2 =? interface_type) (iter_edges object_capabilities) with
  | None => Val []
  | Some object_capability =>
      supertypes ← TypeReader.get_supertypes_transitive fuel (To (encoding_of CAP)) interface_type s;
      let affecting_interface_types : gset Z := list_to_set (interface_type :: supertypes) in
      capabilities ← TypeReader.get_capabilities fuel (encoding_of CAP) object_type true s;
      let capabilities_for_interface_type : gset edge :=
        filter (λ capability : edge, capability.2 ∈ affecting_interface_types) (capabilities : gset edge) in
      capability_constraints_loop fuel CAP object_capability (iter_edges capabilities_for_interface_type) [] s
  end.
(** [RelationType::is_related_role_type_abstract]. *)
Definition get_relates_role_declared (fuel : nat) (relation_type role_type : Z) (s : WriteSnapshot) : read (option edge) :=
  relates ← TypeReader.get_capabilities_declared fuel Relates relation_type s;
  Val (List.find (λ capability : edge, capability.2 =? role_type) (iter_edges relates)).
Definition get_type_relates_abstract_constraint (fuel : nat) (relation_type role_type : Z) (s : WriteSnapshot)
  : read (option (Constraint edge)) :=
  relates_declared ← get_relates_role_declared fuel relation_type role_type s;
  match relates_declared with
  | Some _ =>
      constraints ← get_type_capability_constraints fuel CapRelates relation_type role_type s;
      Val (get_abstract_constraint constraints)
  | None => Val None
  end.
Definition is_related_role_type_abstract (fuel : nat) (relation_type role_type : Z) (s : WriteSnapshot) : read bool :=
  constraint ← get_type_relates_abstract_constraint fuel relation_type role_type s;
  Val (match constraint with Some _ => true | None => false end).

(** ** Setting and unsetting: [storage_save_annotation] and
    [storage_delete_annotation] *)
Definition annotation_storage_key (type_ : Z) (c : AnnotationCategory) : skey := (SCHEMA_ID, annotation_key type_ (annotation_infix c)).
Definition set_type_annotation (K : Kind) (type_ : Z) (annotation : Annotation) (s : WriteSnapshot) : outcome WriteSnapshot :=
  value ← annotation_value (OnType K) annotation;
  Snap.put_val (annotation_storage_key type_ (Annotations.category annotation)) value s.
Definition unset_type_annotation (fuel : nat) (K : Kind) (type_ : Z) (c : AnnotationCategory) (s : WriteSnapshot) : read WriteSnapshot :=
  annotations ← get_type_annotations_declared fuel K type_ s;
  if existsb (λ a, bool_decide (Annotations.category a = c)) (iter_set annotations) then
    lift (Snap.delete (annotation_storage_key type_ c) s)
  else Val s.
End annotations.
End TypeAnnotations.

(** ** What the readers return *)
Import TypeAnnotations.
Section declared.
Context `{ChronoZoned} `{AnnotationBincode}.
(** The annotation [a] is stored at the type [v]. *)
Definition declared (v : Z) (a : Annotation) (s : WriteSnapshot) : Prop :=
  ∃ value, view (annotation_storage_key v (Annotations.category a)) s = Some value ∧
    decode_type_annotation (annotation_infix (Annotations.category a)) value = Val a.
(** The properties of types are keys of one length, and the annotations stored
    at a type are of its kind and decode. *)
Record annotations_ok (s : WriteSnapshot) : Prop := {
  an_schema : schema_ok s;
  an_keys : ∀ k, known (SCHEMA, k) s → ∀ rest, k = Prefixes.prefix_id PropertyTypeVertex :: rest →
    ∃ v infix, is_vertex v ∧ k = annotation_key v infix;
  an_decode : ∀ K v infix value, in_type (type_of_kind K) v →
    Infixes.infix_id Infixes.ANNOTATION_MIN ≤ Infixes.infix_id infix ≤ Infixes.infix_id Infixes.ANNOTATION_MAX →
    view (SCHEMA, annotation_key v infix) s = Some value →
    ∃ c a, infix = annotation_infix c ∧ supported (OnType K) c = true ∧ decode_type_annotation infix value = Val a;
}.
Lemma decoded_category c value a : decode_type_annotation (annotation_infix c) value = Val a → Annotations.category a = c.
Proof.
  destruct c; cbn [annotation_infix decode_type_annotation]; try discriminate; try (by intros [= <-]); unfold regex_from_value_bytes, doc_from_value_bytes.
  - destruct value; [by intros [= <-]|]. destruct (as_str _); [|done..]. by intros [= <-].
  - destruct (as_str _); [|done..]. by intros [= <-].
  - destruct (deserialize_range _); [|done..]. by intros [= <-].
  - destruct (deserialize_values _); [|done..]. by intros [= <-].
Qed.
Lemma annotation_infix_inj c c' : annotation_infix c = annotation_infix c' → c = c'.
Proof. by destruct c, c'. Qed.
Lemma infix_id_inj i j : Infixes.infix_id i = Infixes.infix_id j → i = j.
Proof. by destruct i, j. Qed.
Lemma annotation_infix_range c :
  Infixes.infix_id Infixes.ANNOTATION_MIN ≤ Infixes.infix_id (annotation_infix c) ≤ Infixes.infix_id Infixes.ANNOTATION_MAX.
Proof. destruct c; cbn; lia. Qed.
Lemma annotation_key_app v infix : annotation_key v infix = (Prefixes.prefix_id PropertyTypeVertex :: TypeVertex.to_bytes v) ++ [Infixes.infix_id infix].
Proof. done. Qed.
Lemma annotation_key_inj v infix v' infix' : is_vertex v → is_vertex v' → annotation_key v infix = annotation_key v' infix' → v = v' ∧ infix = infix'.
Proof.
  rewrite !annotation_key_app. intros Hv Hv' [Hh [= Hi%infix_id_inj]]%app_inj_1; [|by cbn [length]; rewrite !length_vertex]. apply (f_equal tail) in Hh. cbn [tail] in Hh.
  split; [by apply vertex_inj|done].
Qed.
Lemma annotation_key_bytes v infix : is_bytes (annotation_key v infix).
Proof.
  rewrite annotation_key_app. apply Forall_app. split; [constructor; [apply prefix_id_byte|apply vertex_is_bytes]|].
  constructor; [|constructor]. destruct infix; unfold is_byte; cbn; lia.
Qed.
Lemma annotation_key_decodes v infix : is_vertex v → VertexProperty.decode (annotation_key v infix) = Val (VertexProperty.new v infix).
Proof.
  intros Hv. unfold VertexProperty.decode. change (annotation_key v infix) with ([Prefixes.prefix_id PropertyTypeVertex] ++ TypeVertex.to_bytes v ++ [Infixes.infix_id infix] ++ []).
  rewrite slice_at by (done || by rewrite length_vertex). cbn [mbind exec_bind]. rewrite vertex_decodes by done. cbn [mbind exec_bind].
  assert (([Prefixes.prefix_id PropertyTypeVertex] ++ TypeVertex.to_bytes v ++ [Infixes.infix_id infix] ++ []) !! (1 + TypeVertex.LENGTH)%nat = Some (Infixes.infix_id infix)) as ->.
  { change ([Prefixes.prefix_id PropertyTypeVertex] ++ TypeVertex.to_bytes v ++ [Infixes.infix_id infix] ++ []) with ((Prefixes.prefix_id PropertyTypeVertex :: TypeVertex.to_bytes v) ++ Infixes.infix_id infix :: []).
    apply list_lookup_middle. cbn [length]. by rewrite length_vertex. }
  cbn [unwrap mbind exec_bind]. assert (Infixes.from_infix_id (Infixes.infix_id infix) = Val infix) as -> by (by destruct infix). cbn [mbind exec_bind].
  rewrite !length_app, length_vertex. done.
Qed.
End declared.

(** Values collected into a set of annotations with distinct categories. *)
Section collecting.
Context `{ChronoZoned} `{AnnotationBincode} `{HashIteration} `{SetIteration}.
Lemma annotation_eqb_category a b : annotation_eqb a b = true → Annotations.category a = Annotations.category b.
Proof. by destruct a, b. Qed.
Lemma insert_fresh a l : Annotations.category a ∉ Annotations.category <$> l → set_insert annotation_eqb a l = l ++ [a].
Proof.
  intros Hn. unfold set_insert. destruct (existsb _ l) eqn:He; [|done]. apply existsb_exists in He as (b & Hb & He%annotation_eqb_category).
  destruct Hn. rewrite He. apply list_elem_of_fmap. exists b. split; [done|]. by apply list_elem_of_In.
Qed.
Lemma wf_keys_distinct (out : list (bytes * bytes)) : bt_wf out → NoDup out.*1.
Proof.
  intros Hwf. induction Hwf as [|[k v] out Hwf IH Hlt]; [constructor|]. constructor; [|done]. intros (kv & Hk & Hin)%list_elem_of_fmap.
  rewrite Forall_forall in Hlt. specialize (Hlt kv Hin). unfold bt_lt in Hlt. rewrite Hk in Hlt. by apply cmp_irrefl in Hlt.
Qed.
Lemma collect_annotations (read : bytes → bytes → outcome Annotation) (key : AnnotationCategory → bytes) (out : list (bytes * bytes)) :
  ∀ found, NoDup out.*1 → NoDup (Annotations.category <$> found) → (∀ a, a ∈ found → key (Annotations.category a) ∉ out.*1) →
  (∀ kv, kv ∈ out → ∃ a, read kv.1 kv.2 = Val a ∧ kv.1 = key (Annotations.category a)) →
  ∃ l, fold_body (E:=ConceptReadError) (λ k v found, a ← lift (read k v); Val (set_insert annotation_eqb a found)) out found = Val l ∧
    NoDup (Annotations.category <$> l) ∧ ∀ a, a ∈ l ↔ a ∈ found ∨ ∃ kv, kv ∈ out ∧ read kv.1 kv.2 = Val a.
Proof.
  induction out as [|[k v] out IH]; intros found Hnd Hf Hfresh Hread; cbn [fold_body fst snd].
  - exists found. split_and!; [done|done|]. intros a. split; [by left|]. intros [?|(kv & ?%elem_of_nil & _)]; done.
  - destruct (Hread (k, v)) as (a & Ha & Hka); [by left|]. cbn [fst snd] in Ha, Hka. rewrite Ha. cbn [lift mbind exec_bind].
    rewrite fmap_cons in Hnd. apply NoDup_cons in Hnd as [Hk Hnd]. cbn [fst] in Hk.
    assert (Hna : Annotations.category a ∉ Annotations.category <$> found).
    { intros (b & Hb & Hin)%list_elem_of_fmap. apply (Hfresh b Hin). rewrite fmap_cons, elem_of_cons. left. cbn [fst]. by rewrite Hka, Hb. }
    rewrite insert_fresh by done. destruct (IH (found ++ [a])) as (l & Hl & Hndl & Hin).
    + done.
    + rewrite fmap_app. apply NoDup_app. split_and!; [done| |apply NoDup_singleton]. intros c Hc Hc'%list_elem_of_singleton. by subst c.
    + intros b [Hb|Hb%list_elem_of_singleton]%elem_of_app; [|subst b].
      * intros Hc. apply (Hfresh b Hb). rewrite fmap_cons, elem_of_cons. by right.
      * by rewrite <-Hka.
    + intros kv Hkv. apply Hread. by right.
    + exists l. split; [exact Hl|]. split; [done|]. intros b. rewrite Hin, elem_of_app, list_elem_of_singleton. split.
      * intros [[?| ->]|(kv & ? & ?)]; [by left|right; exists (k, v); split; [by left|done]|right; exists kv; split; [by right|done]].
      * intros [?|(kv & [Hkv|?]%elem_of_cons & Hr)]; [by left; left|subst kv; left; right; cbn in Hr; congruence|right; by exists kv].
Qed.
End collecting.

(** ** The annotations declared at a type *)
Section reading.
Context `{ChronoZoned} `{AnnotationBincode} `{HashIteration} `{SetIteration}.
Context (s : WriteSnapshot) (fuel : nat) (Hok : annotations_ok s) (Hfit : fits fuel SCHEMA s).
Section one_type.
Context (K : Kind) (v : Z) (Hv : in_type (type_of_kind K) v).
Abbreviation h := (Prefixes.prefix_id PropertyTypeVertex :: TypeVertex.to_bytes v).
Lemma property_window k : known (SCHEMA, k) s → window_key (Prefixes.prefix_id PropertyTypeVertex) (TypeVertex.to_bytes v) k.
Proof.
  intros Hk. destruct (sc_keys s (an_schema s Hok) k Hk) as (b & rest & Hb & _).
  destruct (decide (b = Prefixes.prefix_id PropertyTypeVertex)) as [->|Hne]; [|right; by exists b, rest].
  destruct (an_keys s Hok k Hk rest Hb) as (w & infix & Hw & ->). left. exists (Prefixes.prefix_id PropertyTypeVertex :: TypeVertex.to_bytes w), (Infixes.infix_id infix).
  split_and!; [done|by cbn [length]; rewrite !length_vertex|done].
Qed.
Lemma annotations_scannable : scannable (annotations_range v) (h ++ [50]) SCHEMA s.
Proof.
  apply (window_scannable (Prefixes.prefix_id PropertyTypeVertex) (TypeVertex.to_bytes v) 50 99).
  - constructor; [apply prefix_id_byte|apply vertex_is_bytes].
  - lia.
  - lia.
  - rewrite length_vertex. lia.
  - unfold is_byte. lia.
  - apply property_window.
  - done.
Qed.
Lemma in_annotations_range w infix :
  is_vertex w → in_range (annotations_range v) (h ++ [50]) (annotation_key w infix) = true ↔
    w = v ∧ 50 ≤ Infixes.infix_id infix ≤ 99.
Proof.
  intros Hw. rewrite annotation_key_app.
  rewrite (in_window (Prefixes.prefix_id PropertyTypeVertex) (TypeVertex.to_bytes v) 50 99) by (cbn [length]; rewrite ?length_vertex; unfold TypeVertex.LENGTH; done || lia).
  rewrite !andb_true_iff, bool_decide_eq_true, !Z.leb_le. split; [|intros [-> ?]; split_and!; (done || lia)].
  intros [[Hh ?] ?]. split; [|lia]. apply (f_equal tail) in Hh. cbn [tail] in Hh. apply vertex_inj in Hh; [done|done|apply Hv].
Qed.
Lemma annotations_declared_spec :
  ∃ l, get_type_annotations_declared fuel K v s = Val l ∧ NoDup (Annotations.category <$> l) ∧ ∀ a, a ∈ l ↔ declared v a s.
Proof.
  unfold get_type_annotations_declared.
  destruct (range_scan fuel SCHEMA _ _ s (sc_snapshot s (an_schema s Hok)) (sc_open s (an_schema s Hok)) annotations_scannable Hfit) as (it & out & Hit & Hy & Hwf & Hl & Hin).
  change SCHEMA_ID with SCHEMA. rewrite Hit. cbn [lift mbind exec_bind]. rewrite (for_each_wrap fuel _ (set_insert annotation_eqb) SCHEMA it out [] Hy Hl).
  assert (Hout : ∀ k value, (k, value) ∈ out ↔ ∃ infix, k = annotation_key v infix ∧ 50 ≤ Infixes.infix_id infix ≤ 99 ∧ view (SCHEMA, k) s = Some value).
  { intros k value. rewrite Hin. split.
    - intros [Hr Hview]. destruct (property_window k) as [(h' & i & -> & Hlen & Hh)|(c & rest & -> & Hc)]; [by eapply view_known| |].
      + destruct h' as [|b h']; [done|]. injection Hh as ->.
        destruct (an_keys s Hok _ (view_known _ _ _ Hview) (h' ++ [i]) eq_refl) as (w & infix & Hw & He). rewrite He in *.
        apply in_annotations_range in Hr as [-> Hr]; [|done]. by exists infix.
      + rewrite (in_window_elsewhere (Prefixes.prefix_id PropertyTypeVertex) (TypeVertex.to_bytes v) 50 99) in Hr; [done|..]; first [done | (rewrite length_vertex; lia) | (constructor; [apply prefix_id_byte|apply vertex_is_bytes])].
    - intros (infix & -> & Hr & Hview). split; [|done]. apply in_annotations_range; [apply Hv|done]. }
  assert (Hread : ∀ kv, kv ∈ out → ∃ a, read_annotation (OnType K) kv.1 kv.2 = Val a ∧ kv.1 = annotation_key v (annotation_infix (Annotations.category a)) ∧ declared v a s).
  { intros [k value] (infix & -> & Hr & Hview)%Hout. destruct (an_decode s Hok K v infix value Hv Hr Hview) as (c & a & -> & Hsup & Hd).
    pose proof (decoded_category c value a Hd) as Hc. exists a. cbn [fst snd]. unfold read_annotation. rewrite annotation_key_decodes by apply Hv.
    cbn [mbind exec_bind vp_infix VertexProperty.new]. rewrite Hd. cbn [mbind exec_bind]. unfold try_from. rewrite Hc, Hsup. split_and!; [done|done|].
    exists value. rewrite Hc. done. }
  destruct (collect_annotations (read_annotation (OnType K)) (λ c, annotation_key v (annotation_infix c)) out []) as (l & Hl' & Hnd & Hel).
  - by apply wf_keys_distinct.
  - constructor.
  - intros a Ha. by apply not_elem_of_nil in Ha.
  - intros kv Hkv. destruct (Hread kv Hkv) as (a & Ha & Hk & _). by exists a.
  - exists l. split; [exact Hl'|]. split; [done|]. intros a. rewrite Hel. split.
    + intros [Ha|(kv & Hkv & Ha)]; [by apply not_elem_of_nil in Ha|]. destruct (Hread kv Hkv) as (a' & Ha' & _ & Hd). congruence.
    + intros (value & Hview & Hd). right. set (k := annotation_key v (annotation_infix (Annotations.category a))).
      assert (Hkv : (k, value) ∈ out) by (apply Hout; eexists; split_and!; [done|apply annotation_infix_range..|done]). exists (k, value). split; [done|].
      destruct (Hread _ Hkv) as (a' & Ha' & Hk & (value' & Hview' & Hd')). cbn [fst snd] in *.
      unfold k in Hk. apply annotation_key_inj in Hk as [_ Hc%annotation_infix_inj]; [|apply Hv..]. rewrite <-Hc in Hview', Hd'. rewrite Ha'. congruence.
Qed.
End one_type.
End reading.

(** ** The constraints of a type *)
Section type_constraints.
Context `{ChronoZoned} `{AnnotationBincode} `{HashIteration} `{SetIteration}.
Definition tag {S} (c : Constraint S) : ConstraintCategory * S := (constraint_category (description c), source c).
(** A constraint on a single instance of a type is not inherited. *)
Definition kept (type_ : Z) (c : Constraint Z) : Prop := description c = DAbstract → source c = type_.
Lemma constraint_eqb_tag a b : constraint_eqb a b = true → tag a = tag b.
Proof.
  unfold constraint_eqb, tag. intros [Hd ->%Z.eqb_eq]%andb_true_iff. f_equal. by destruct (description a), (description b).
Qed.
Lemma insert_untagged c l : tag c ∉ tag <$> l → set_insert constraint_eqb c l = l ++ [c].
Proof.
  intros Hn. unfold set_insert. destruct (existsb _ l) eqn:He; [|done]. apply existsb_exists in He as (b & Hb & He%constraint_eqb_tag).
  destruct Hn. rewrite He. apply list_elem_of_fmap. exists b. split; [done|]. by apply list_elem_of_In.
Qed.
Lemma add_constraint_spec t c l :
  scope_of (description c) ≠ AllInstancesOfTypeOrSubtypes → tag c ∉ tag <$> l → ∀ x, x ∈ add_constraint t l c ↔ x ∈ l ∨ (x = c ∧ kept t c).
Proof.
  intros Hs Hn x. unfold add_constraint. rewrite insert_untagged by done. unfold kept.
  destruct c as [d v]. cbn [description source] in *.
  destruct d; cbn [scope_of] in *; rewrite ?elem_of_app, ?list_elem_of_singleton; try naive_solver.
  destruct (Z.eqb_spec v t) as [->|Hne]; rewrite ?elem_of_app, ?list_elem_of_singleton; naive_solver.
Qed.
Lemma add_constraints_spec t cs : ∀ l,
  NoDup (tag <$> cs) → (∀ c, c ∈ cs → scope_of (description c) ≠ AllInstancesOfTypeOrSubtypes ∧ tag c ∉ tag <$> l) →
  ∀ x, x ∈ fold_left (add_constraint t) cs l ↔ x ∈ l ∨ (x ∈ cs ∧ kept t x).
Proof.
  induction cs as [|c cs IH]; intros l Hnd Hcs x; cbn [fold_left].
  - split; [by left|]. intros [?|[?%not_elem_of_nil _]]; done.
  - rewrite fmap_cons in Hnd. apply NoDup_cons in Hnd as [Hc Hnd]. destruct (Hcs c) as [Hs Hn]; [by left|].
    pose proof (add_constraint_spec t c l Hs Hn) as Hadd. rewrite IH.
    + rewrite Hadd, elem_of_cons. naive_solver.
    + done.
    + intros c' Hc'. split; [apply Hcs; by right|]. intros (y & Hy & [Hin|[-> _]]%Hadd)%list_elem_of_fmap.
      * apply (proj2 (Hcs c' ltac:(by right))). rewrite Hy. by apply list_elem_of_fmap_2.
      * apply Hc. rewrite <-Hy. by apply list_elem_of_fmap_2.
Qed.
(** The constraints that annotations of a type stand for. *)
Definition of_annotations (v : Z) (l : list Annotation) : list (Constraint Z) :=
  concat (List.map (λ a, List.map (λ d, mk_Constraint d v) (iter_set (from_annotation a))) l).
Lemma add_annotations_flat t v l : ∀ acc, fold_left (add_annotation t v) l acc = fold_left (add_constraint t) (of_annotations v l) acc.
Proof. induction l as [|a l IH]; intros acc; [done|]. cbn. by rewrite IH, fold_left_app. Qed.
Lemma of_annotations_elem v l c : c ∈ of_annotations v l ↔ source c = v ∧ ∃ a, a ∈ l ∧ description c ∈ from_annotation a.
Proof.
  unfold of_annotations. rewrite list_elem_of_In, in_concat. setoid_rewrite in_map_iff. split.
  - intros (x & (a & <- & Ha) & (d & <- & Hd)%in_map_iff). split; [done|]. exists a. split; [by apply list_elem_of_In|].
    apply list_elem_of_In in Hd. by rewrite iter_set_elements in Hd.
  - destruct c as [d w]. cbn. intros (-> & a & Ha & Hd). eexists. split; [exists a; split; [done|by apply list_elem_of_In]|].
    apply in_map_iff. exists d. split; [done|]. apply list_elem_of_In. by rewrite iter_set_elements.
Qed.
(** Annotations of different categories on a type constrain differently. *)
Lemma from_annotation_category K a b d d' :
  supported (OnType K) (Annotations.category a) = true → supported (OnType K) (Annotations.category b) = true →
  d ∈ from_annotation a → d' ∈ from_annotation b → constraint_category d = constraint_category d' →
  Annotations.category a = Annotations.category b.
Proof.
  intros Ha Hb Hd Hd' Hc. destruct a; cbn in Hd; try (by apply not_elem_of_nil in Hd); try (by destruct K);
    apply list_elem_of_singleton in Hd as ->; destruct b; cbn in Hd'; try (by apply not_elem_of_nil in Hd'); try (by destruct K);
    apply list_elem_of_singleton in Hd' as ->; done.
Qed.
Lemma from_annotation_single K a :
  supported (OnType K) (Annotations.category a) = true →
  NoDup (constraint_category <$> from_annotation a) ∧ ∀ d, d ∈ from_annotation a → scope_of d ≠ AllInstancesOfTypeOrSubtypes.
Proof.
  intros Ha. destruct a; try (by destruct K); cbn; (split; [try apply NoDup_singleton; try apply NoDup_nil_2; constructor|]);
    intros d Hd; try (by apply not_elem_of_nil in Hd); by apply list_elem_of_singleton in Hd as ->.
Qed.
Lemma of_annotations_tags K v l :
  NoDup (Annotations.category <$> l) → (∀ a, a ∈ l → supported (OnType K) (Annotations.category a) = true) → NoDup (tag <$> of_annotations v l).
Proof.
  induction l as [|a l IH]; intros Hnd Hl; [constructor|]. rewrite fmap_cons in Hnd. apply NoDup_cons in Hnd as [Ha Hnd].
  change (of_annotations v (a :: l)) with (List.map (λ d, mk_Constraint d v) (iter_set (from_annotation a)) ++ of_annotations v l).
  rewrite fmap_app. apply NoDup_app. split_and!.
  - destruct (from_annotation_single K a) as [Hs _]; [apply Hl; by left|]. change (List.map ?f ?x) with (f <$> x). rewrite <-list_fmap_compose.
    rewrite iter_set_elements. revert Hs. generalize (from_annotation a). intros ds. induction ds as [|d ds IHd]; [constructor|].
    rewrite !fmap_cons. intros [Hd Hds]%NoDup_cons. constructor; [|by apply IHd]. intros (d' & Hd' & Hin)%list_elem_of_fmap. apply Hd.
    injection Hd' as ->. by apply list_elem_of_fmap_2.
  - intros x (c & -> & Hc)%list_elem_of_fmap (c' & Ht & Hc')%list_elem_of_fmap. apply of_annotations_elem in Hc' as (_ & b & Hb & Hd').
    change (List.map ?f ?x) with (f <$> x) in Hc. apply list_elem_of_fmap in Hc as (d & -> & Hd). rewrite iter_set_elements in Hd. injection Ht as Ht _.
    apply Ha. rewrite (from_annotation_category K a b d (description c')); [by apply list_elem_of_fmap_2|apply Hl; by left|apply Hl; by right|done..].
  - apply IH; [done|]. intros b Hb. apply Hl. by right.
Qed.
Section schema.
Context (s : WriteSnapshot) (fuel : nat) (Hok : annotations_ok s) (Hh : hierarchy_ok s) (Hfuel : (S (entries SCHEMA s) < fuel)%nat).
Context (K : Kind).
(** The constraint is one of an annotation at its source. *)
Definition constrains (t : Z) (c : Constraint Z) : Prop :=
  ∃ a, declared (source c) a s ∧ description c ∈ from_annotation a ∧ kept t c.
Lemma declared_supported v a : in_type (type_of_kind K) v → declared v a s → supported (OnType K) (Annotations.category a) = true.
Proof.
  intros Hv (value & Hview & _). destruct (an_decode s Hok K v _ value Hv (annotation_infix_range _) Hview) as (c & a' & Hc%annotation_infix_inj & Hs & _).
  by subst c.
Qed.
Lemma constraints_step t x acc :
  in_type (type_of_kind K) x → (∀ c, c ∈ acc → source c ≠ x) →
  ∃ l, get_type_annotations_declared fuel K x s = Val l ∧
    ∀ c, c ∈ fold_left (add_annotation t x) (iter_set l) acc ↔ c ∈ acc ∨ (source c = x ∧ constrains t c).
Proof.
  intros Hx Hacc. destruct (annotations_declared_spec s fuel Hok ltac:(unfold fits; lia) K x Hx) as (l & Hl & Hnd & Hin). exists l. split; [done|].
  assert (Hsup : ∀ a, a ∈ iter_set l → supported (OnType K) (Annotations.category a) = true).
  { intros a. rewrite iter_set_elements, Hin. by apply declared_supported. }
  intros c. rewrite add_annotations_flat, add_constraints_spec.
  - rewrite of_annotations_elem. unfold constrains. setoid_rewrite iter_set_elements. setoid_rewrite Hin. split.
    + intros [?|[(Hs & a & Ha & Hd) Hk]]; [by left|right]. split; [done|]. exists a. by rewrite ?Hs in *.
    + intros [?|(Hs & a & Ha & Hd & Hk)]; [by left|right]. split; [|done]. split; [done|]. exists a. by rewrite ?Hs in *.
  - apply (of_annotations_tags K); [|done]. by rewrite iter_set_elements.
  - intros c' (Hs & a & Ha & Hd)%of_annotations_elem. split; [by apply (from_annotation_single K a (Hsup a Ha))|].
    intros (b & Hb & Hbin)%list_elem_of_fmap. apply (Hacc b Hbin). injection Hb as _ <-. done.
Qed.
Lemma constraints_loop_spec t l : ∀ n x acc,
  chain s x l → in_type (type_of_kind K) x → (S (length l) < n)%nat → (∀ c, c ∈ acc → source c ∉ x :: l) →
  ∃ r, constraints_loop n fuel K t acc (Some x) s = Val r ∧ ∀ c, c ∈ r ↔ c ∈ acc ∨ (source c ∈ x :: l ∧ constrains t c).
Proof.
  induction l as [|y l IH]; intros n x acc Hl Hx Hn Hacc; (destruct n as [|n]; [cbn in Hn; lia|]); cbn [constraints_loop].
  all: destruct (constraints_step t x acc Hx) as (found & -> & Hin); [intros c Hc Hs; apply (Hacc c Hc); rewrite Hs; by left|]; cbn [mbind exec_bind].
  all: rewrite (chain_head s fuel (an_schema s Hok) Hh ltac:(unfold fits; lia) _ (kind_closed K) x _ Hl Hx); cbn [mbind exec_bind head].
  - destruct n as [|n]; [cbn in Hn; lia|]. cbn [constraints_loop]. eexists. split; [done|]. intros c. rewrite Hin, list_elem_of_singleton. done.
  - pose proof (chain_NoDup s Hh _ _ Hl) as [Hnx _]%NoDup_cons. destruct Hl as [Hs Hl].
    destruct (IH n y (fold_left (add_annotation t x) (iter_set found) acc)) as (r & Hr & Hrin);
      [done|by apply (sub_in_type s _ (kind_closed K) x y Hs)|cbn [length] in Hn; lia| |].
    + intros c [Hc|[Hs' _]]%Hin; [|by rewrite Hs']. intros Hin'. apply (Hacc c Hc). by right.
    + exists r. split; [done|]. intros c. rewrite Hrin, Hin, (elem_of_cons (y :: l)). naive_solver.
Qed.
Lemma type_constraints_spec t :
  in_type (type_of_kind K) t → ∃ r, get_type_constraints fuel K t s = Val r ∧ ∀ c, c ∈ r ↔ rtc (sub s) t (source c) ∧ constrains t c.
Proof.
  intros Ht. destruct (chain_exists s fuel (an_schema s Hok) Hh ltac:(unfold fits; lia) _ (kind_closed K) t Ht) as [l Hl].
  pose proof (chain_length s (an_schema s Hok) Hh t l Hl) as Hlen.
  destruct (constraints_loop_spec t l fuel t [] Hl Ht) as (r & Hr & Hin); [lia|by intros ? ?%not_elem_of_nil|].
  exists r. split; [done|]. intros c. rewrite Hin. split.
  - intros [?%not_elem_of_nil|[[->|Hc]%elem_of_cons ?]]; [done|done|]. split; [|done]. apply tc_rtc. by apply (chain_elem s Hh l t Hl).
  - intros [Hr' Hc]. right. split; [|done]. rewrite elem_of_cons, (chain_elem s Hh l t Hl). apply rtc_tc in Hr' as [->|?]; auto.
Qed.
End schema.
End type_constraints.

(** ** Setting and unsetting annotations *)
Section updates.
Context `{ChronoZoned} `{AnnotationBincode}.
Lemma in_kind_inj K K' v : in_type (type_of_kind K) v → in_type (type_of_kind K') v → K = K'.
Proof. intros [_ Hp]%in_kind [_ Hq]%in_kind. rewrite Hp in Hq. by destruct K, K'. Qed.
Lemma property_key_schema v infix : schema_key (annotation_key v infix).
Proof.
  exists (Prefixes.prefix_id PropertyTypeVertex), (TypeVertex.to_bytes v ++ [Infixes.infix_id infix]). split; [done|].
  intros reverse k Hp%prefix_id_inj. by destruct reverse, k.
Qed.
Lemma edge_not_property v infix reverse k e : key_at reverse k e ≠ (SCHEMA, annotation_key v infix).
Proof.
  unfold key_at, TypeEdges.into_storage_key, TypeEdges.to_bytes. intros Hk%(f_equal snd)%(f_equal head). cbn in Hk. by destruct reverse, k.
Qed.
(** What changes when one annotation of a type is written or deleted. *)
Section one_key.
Context (s s' : WriteSnapshot) (Hok : annotations_ok s) (K : Kind) (v : Z) (c : AnnotationCategory).
Context (Hv : in_type (type_of_kind K) v) (Hc : confined (λ x, x = annotation_storage_key v c) s s').
Lemma elsewhere_view w infix : is_vertex w → (w ≠ v ∨ infix ≠ annotation_infix c) → view (SCHEMA, annotation_key w infix) s' = view (SCHEMA, annotation_key w infix) s.
Proof.
  intros Hw Hne. apply (confined_view _ _ _ _ Hc); [cbn; lia|]. intros Hk%(f_equal snd). apply annotation_key_inj in Hk as [-> ->]; [|done|apply Hv]. by destruct Hne.
Qed.
Lemma updated_schema : schema_ok s' ∧ ∀ k e, has k e s' ↔ has k e s.
Proof.
  assert (Hview : ∀ reverse k e, view (key_at reverse k e) s' = view (key_at reverse k e) s).
  { intros reverse k e. apply (confined_view _ _ _ _ Hc); [cbn; lia|]. apply edge_not_property. }
  split; [|intros k e; unfold has; by rewrite Hview]. pose proof (an_schema s Hok) as Hs. split.
  - apply (cf_ok _ _ _ Hc).
  - destruct (sc_open s Hs) as [Hid Hb]. split; [done|]. by rewrite (cf_storage _ _ _ Hc).
  - intros bs Hkn. destruct (decide ((SCHEMA, bs) = annotation_storage_key v c)) as [Hk%(f_equal snd)|Hne]; [cbn [snd] in Hk; rewrite Hk; apply property_key_schema|].
    apply (sc_keys s Hs). by apply (known_confined _ _ _ _ Hc).
  - intros k e He. rewrite !Hview. by apply (sc_step s Hs).
Qed.
Lemma updated_annotations :
  supported (OnType K) c = true →
  (∀ value, view (annotation_storage_key v c) s' = Some value → ∃ a, decode_type_annotation (annotation_infix c) value = Val a) →
  annotations_ok s'.
Proof.
  intros Hsup Hdec. split; [apply updated_schema| |].
  - intros k Hkn rest Hr. destruct (decide ((SCHEMA, k) = annotation_storage_key v c)) as [Hk%(f_equal snd)|Hne].
    + exists v, (annotation_infix c). split; [apply Hv|exact Hk].
    + apply (an_keys s Hok k) with rest; [|done]. by apply (known_confined _ _ _ _ Hc).
  - intros K' w infix value Hw Hr Hview. destruct (decide (w = v ∧ infix = annotation_infix c)) as [[-> ->]|Hne].
    + rewrite (in_kind_inj K' K v Hw Hv) in *. destruct (Hdec value Hview) as [a Ha]. by exists c, a.
    + rewrite elsewhere_view in Hview; [|apply Hw|]; [by apply (an_decode s Hok K' w)|]. destruct (decide (w = v)); tauto.
Qed.
Lemma declared_elsewhere w a : is_vertex w → (w ≠ v ∨ Annotations.category a ≠ c) → declared w a s' ↔ declared w a s.
Proof.
  intros Hw Hne. unfold declared, annotation_storage_key. change SCHEMA_ID with SCHEMA. rewrite elsewhere_view; [done|done|].
  destruct Hne as [?|Hne]; [by left|right]. by intros ?%annotation_infix_inj.
Qed.
End one_key.
End updates.
Section setting.
Context `{ChronoLaws} `{AnnotationBincodeLaws} `{HashIteration} `{SetIteration}.
Context (s : WriteSnapshot) (fuel : nat) (Hok : annotations_ok s) (K : Kind) (v : Z) (Hv : in_type (type_of_kind K) v).
(** [s'] has the annotations of [s], but of the category [c] at [v] only those in [now]. *)
Definition annotation_set (c : AnnotationCategory) (now : Annotation → Prop) (s' : WriteSnapshot) : Prop :=
  annotations_ok s' ∧ (∀ a, Annotations.category a = c → declared v a s' ↔ now a) ∧
  (∀ w a, is_vertex w → (w ≠ v ∨ Annotations.category a ≠ c) → declared w a s' ↔ declared w a s) ∧
  ∀ k e, has k e s' ↔ has k e s.
Lemma set_annotation_spec a :
  supported (OnType K) (Annotations.category a) = true → storable a →
  ∃ s', set_type_annotation K v a s = Val s' ∧ annotation_set (Annotations.category a) (λ b, b = a) s'.
Proof.
  intros Hsup Hst. destruct (annotation_round_trip (OnType K) a Hsup Hst) as (value & He & Hd). unfold set_type_annotation. rewrite He. cbn [mbind exec_bind].
  destruct (put_spec (annotation_storage_key v (Annotations.category a)) s (sc_snapshot s (an_schema s Hok)) ltac:(cbn; lia) value (annotation_key_bytes _ _)) as (s' & Hs' & Hc & Hw).
  pose proof (written_view _ _ _ Hw) as Hview. cbn in Hview. exists s'. split; [done|]. split_and!.
  - apply (updated_annotations s s' Hok K v _ Hv Hc Hsup). intros value' Hv'. rewrite Hview in Hv'. injection Hv' as <-. by exists a.
  - intros b Hb. unfold declared. rewrite Hb. cbn [decode_annotation] in Hd. split; [|intros ->; by exists value].
    intros (value' & Hv' & Hd'). rewrite Hview in Hv'. injection Hv' as <-. rewrite Hd in Hd'. by injection Hd'.
  - by apply (declared_elsewhere s s' K v _ Hv Hc).
  - apply (updated_schema s s' Hok v _ Hc).
Qed.
Lemma unset_annotation_spec c :
  fits fuel SCHEMA s → supported (OnType K) c = true →
  ∃ s', unset_type_annotation fuel K v c s = Val s' ∧ annotation_set c (λ b, False) s'.
Proof.
  intros Hfit Hsup. unfold unset_type_annotation. destruct (annotations_declared_spec s fuel Hok Hfit K v Hv) as (l & -> & Hnd & Hin). cbn [mbind exec_bind].
  assert (Hex : existsb (λ a, bool_decide (Annotations.category a = c)) (iter_set l) = true ↔ ∃ a, Annotations.category a = c ∧ declared v a s).
  { rewrite existsb_exists. setoid_rewrite bool_decide_eq_true. setoid_rewrite <-list_elem_of_In. setoid_rewrite iter_set_elements. setoid_rewrite Hin. naive_solver. }
  destruct (existsb _ _).
  - destruct (delete_spec (annotation_storage_key v c) s (sc_snapshot s (an_schema s Hok)) ltac:(cbn; lia) (annotation_key_bytes _ _)) as (s' & -> & Hc & Hw).
    pose proof (written_view _ _ _ Hw) as Hview. cbn in Hview. exists s'. split; [done|]. split_and!.
    + apply (updated_annotations s s' Hok K v _ Hv Hc Hsup). intros value Hv'. by rewrite Hview in Hv'.
    + intros b Hb. split; [|done]. unfold declared. rewrite Hb. intros (value & Hv' & _). by rewrite Hview in Hv'.
    + by apply (declared_elsewhere s s' K v _ Hv Hc).
    + apply (updated_schema s s' Hok v _ Hc).
  - exists s. split; [done|]. split_and!; [done| |done|done]. intros b Hb. split; [|done]. intros Hd. assert (false = true) by (apply Hex; by exists b). done.
Qed.
End setting.
