(* ===== verification/Validation.v ===== *)
(** * Validation of schema changes: [concept/type_/type_manager/validation/]
    and the operations of [concept/type_/type_manager.rs] that it guards

    What the type manager checks before it changes a supertype or an annotation
    of a type ([operation_time_validation.rs], [validation.rs]), and what it
    checks of the attribute types when the transaction commits
    ([commit_time_validation.rs]).  Reading errors are wrapped the way the
    source wraps them, and a failed check reports the labels of the types.  The
    checks that read the instances of a type are a parameter,
    [InstanceValidation]. *)
From stdpp Require Import strings gmap relations.
From S2P Require Import Prelude BTree Bytes MemoryStore Buffer LendingIter Mvcc Keyspaces Snapshot Dependency Timeline Isolation Storage Views Layout Values Structs Attributes Things Edges ThingManager ThingGraph Pattern TypeEdges Annotations TypeReader SchemaGraph Constraints.
Import KeyRangeOps TypeAnnotations.
#[local] Open Scope Z_scope.

(** ** Errors *)
(** Those that the modelled checks return; the errors of the [regex] crate and of
    the data validation that two of them carry are left out. *)
Inductive SchemaValidationError `{ChronoZoned} :=
| ValidationRead (source : ConceptReadError)
| CycleFoundInTypeHierarchy (start end_ : Label)
| AbstractTypesSupertypeMustBeAbstract (type_ supertype : Label)
| AttributeTypeWithoutValueTypeShouldBeAbstract (attribute : Label)
| ValueTypeIsNotCompatibleWithRegexAnnotation (attribute : Label) (value_type : option ValueType)
| ValueTypeIsNotCompatibleWithRangeAnnotation (attribute : Label) (value_type : option ValueType)
| ValueTypeIsNotCompatibleWithValuesAnnotation (attribute : Label) (value_type : option ValueType)
| CannotSetAnnotationToInterfaceBecauseItsConstraintIsNotNarrowedByItsCapabilityConstraint (interface : Label) (source : ConstraintError)
| CannotSetAnnotationToCapabilityBecauseItsConstraintDoesNotNarrowItsInterfaceConstraint
    (cap : CapabilityKind) (interface label : Label) (source : ConstraintError)
| InvalidCardinalityArguments (card : AnnotationCardinality)
| InvalidRegexArguments (regex : AnnotationRegex)
| InvalidRangeArgumentsForValueType (range : AnnotationRange) (value_type : option ValueType)
| InvalidValuesArgumentsForValueType (values : AnnotationValues) (value_type : option ValueType)
| SubtypeConstraintDoesNotNarrowSupertypeConstraint (subtype supertype : Label) (source : ConstraintError)
| AnnotationIsNotCompatibleWithDeclaredAnnotation (annotation declared_annotation : AnnotationCategory) (label : Label)
| CannotRedeclareInheritedValueTypeWithoutSpecialisation (label super_label : Label) (value_type : ValueType)
| CannotRedeclareConstraintOnSubtypeWithoutSpecialisation (constraint : ConstraintDescription) (subtype : Label)
| CannotUnsetAbstractnessOfRelationTypeWithoutRoleTypes (relation : Label)
| CannotSetAnnotationAsExistingInstancesViolateItsConstraint.
Inductive SchemaWriteError `{ChronoZoned} := SchemaRead (source : ConceptReadError) | SchemaValidation (source : SchemaValidationError).
(** The checks of the instances of a type and of its subtypes. *)
Class InstanceValidation `{ChronoZoned} :=
  validate_new_annotation_constraints_compatible_with_instances : Kind → Z → Annotation → WriteSnapshot → exec SchemaValidationError unit.
(** [try_for_each], and a loop whose body may return an error. *)
Fixpoint try_for_each {A E} (f : A → exec E unit) (l : list A) : exec E unit :=
  match l with [] => Val tt | x :: l => _ ← f x; try_for_each f l end.

Module Validation.
Section validation.
Context `{ChronoZoned} `{AnnotationBincode} `{Bincode Ordering} `{HashIteration} `{SetIteration} `{Regexes.RegexCrate}.
Abbreviation SVE := SchemaValidationError.
Abbreviation validated := (exec SVE unit).
Definition get_label_or_concept_read_err (type_ : Z) (s : WriteSnapshot) : exec ConceptReadError Label :=
  map_err (λ _, InternalMissingTypeLabel) (label ← TypeReader.get_label type_ s; ok_or label InternalMissingTypeLabel).
Definition get_label_or_schema_err (type_ : Z) (s : WriteSnapshot) : exec SVE Label :=
  map_err ValidationRead (get_label_or_concept_read_err type_ s).
(** The closures of [map_err] that look up the labels for the error. *)
Definition or_narrowing_err (subtype supertype : Z) (s : WriteSnapshot) (m : exec ConstraintError unit) : validated :=
  match m with
  | Val _ => Val tt
  | Err source =>
      subtype_label ← get_label_or_schema_err subtype s;
      supertype_label ← get_label_or_schema_err supertype s;
      Err (SubtypeConstraintDoesNotNarrowSupertypeConstraint subtype_label supertype_label source)
  | Panic => Panic
  end.
Definition or_interface_err (interface : Z) (s : WriteSnapshot) (m : exec ConstraintError unit) : validated :=
  match m with
  | Val _ => Val tt
  | Err source =>
      label ← get_label_or_schema_err interface s;
      Err (CannotSetAnnotationToInterfaceBecauseItsConstraintIsNotNarrowedByItsCapabilityConstraint label source)
  | Panic => Panic
  end.

(** ** The hierarchy *)
Definition validate_sub_does_not_create_cycle (fuel : nat) (K : Kind) (type_ supertype : Z) (s : WriteSnapshot) : validated :=
  existing_supertypes ← map_err ValidationRead (TypeReader.get_supertypes_transitive fuel (type_of_kind K) supertype s);
  if decide (supertype = type_ ∨ type_ ∈ (existing_supertypes : list Z)) then
    start ← get_label_or_schema_err type_ s;
    end_ ← get_label_or_schema_err supertype s;
    Err (CycleFoundInTypeHierarchy start end_)
  else Val tt.
Definition validate_type_supertype_abstractness (fuel : nat) (K : Kind) (subtype : Z) (supertype : option Z)
    (set_subtype_abstract set_supertype_abstract : option bool) (s : WriteSnapshot) : validated :=
  supertype ← match supertype with
    | None => map_err ValidationRead (TypeReader.get_supertype fuel (type_of_kind K) subtype s)
    | Some _ => Val supertype
    end;
  match supertype with
  | None => Val tt
  | Some supertype =>
      stored ← map_err ValidationRead (is_abstract fuel K subtype s);
      let subtype_abstract := from_option id stored set_subtype_abstract in
      stored ← map_err ValidationRead (is_abstract fuel K supertype s);
      let supertype_abstract := from_option id stored set_supertype_abstract in
      if subtype_abstract && negb supertype_abstract then
        subtype_label ← get_label_or_schema_err subtype s;
        supertype_label ← get_label_or_schema_err supertype s;
        Err (AbstractTypesSupertypeMustBeAbstract subtype_label supertype_label)
      else Val tt
  end.
Definition validate_type_supertype_abstractness_to_change_supertype (fuel : nat) (K : Kind) (subtype supertype : Z) (s : WriteSnapshot) : validated :=
  validate_type_supertype_abstractness fuel K subtype (Some supertype) None None s.
Definition validate_type_supertype_abstractness_to_set_abstract_annotation (fuel : nat) (K : Kind) (type_ : Z) (s : WriteSnapshot) : validated :=
  validate_type_supertype_abstractness fuel K type_ None (Some true) None s.
Definition validate_no_abstract_subtypes_to_unset_abstract_annotation (fuel : nat) (K : Kind) (type_ : Z) (s : WriteSnapshot) : validated :=
  subtypes ← map_err ValidationRead (TypeReader.get_subtypes fuel (type_of_kind K) type_ s);
  try_for_each (λ subtype, validate_type_supertype_abstractness fuel K subtype (Some type_) None (Some false) s) (iter_types subtypes).
Definition filter_by_source {S} `{EqDecision S} (l : list (Constraint S)) (type_ : S) : list (Constraint S) :=
  List.filter (λ c, bool_decide (source c = type_)) l.
Definition validate_type_declared_constraints_narrowing_of_supertype_constraints (fuel : nat) (K : Kind) (subtype supertype : Z)
    (s : WriteSnapshot) : validated :=
  supertype_constraints ← map_err ValidationRead (get_type_constraints fuel K supertype s);
  subtype_constraints ← map_err ValidationRead (get_type_constraints fuel K subtype s);
  try_for_each (λ subtype_constraint,
      try_for_each (λ supertype_constraint,
          or_narrowing_err subtype supertype s
            (validate_narrowed_by_any_type (description supertype_constraint) (description subtype_constraint)))
        (iter_set (supertype_constraints : list (Constraint Z))))
    (filter_by_source (iter_set (subtype_constraints : list (Constraint Z))) subtype).

(** ** Annotations *)
Definition validate_declared_type_annotation_is_compatible_with_declared_annotations (fuel : nat) (K : Kind) (type_ : Z)
    (annotation_category : AnnotationCategory) (s : WriteSnapshot) : validated :=
  existing_annotations ← map_err ValidationRead (get_type_annotations_declared fuel K type_ s);
  try_for_each (λ existing_annotation,
      let existing_annotation_category := Annotations.category existing_annotation in
      if Annotations.declarable_alongside existing_annotation_category annotation_category then Val tt
      else
        label ← get_label_or_schema_err type_ s;
        Err (AnnotationIsNotCompatibleWithDeclaredAnnotation annotation_category existing_annotation_category label))
    (iter_set (existing_annotations : list Annotation)).
Definition validate_annotation_regex_compatible_value_type (attribute_type : Z) (value_type : option ValueType) (s : WriteSnapshot) : validated :=
  if Regexes.value_type_valid value_type then Val tt
  else label ← get_label_or_schema_err attribute_type s; Err (ValueTypeIsNotCompatibleWithRegexAnnotation label value_type).
Definition validate_annotation_range_compatible_value_type (attribute_type : Z) (value_type : option ValueType) (s : WriteSnapshot) : validated :=
  if Ranges.value_type_valid value_type then Val tt
  else label ← get_label_or_schema_err attribute_type s; Err (ValueTypeIsNotCompatibleWithRangeAnnotation label value_type).
Definition validate_annotation_values_compatible_value_type (attribute_type : Z) (value_type : option ValueType) (s : WriteSnapshot) : validated :=
  if ValueSets.value_type_valid value_type then Val tt
  else label ← get_label_or_schema_err attribute_type s; Err (ValueTypeIsNotCompatibleWithValuesAnnotation label value_type).
Definition validate_cardinality_arguments (c : AnnotationCardinality) : validated :=
  if Cardinality.valid c then Val tt else Err (InvalidCardinalityArguments c).
Definition validate_regex_arguments (r : AnnotationRegex) : validated :=
  if Regexes.validate r then Val tt else Err (InvalidRegexArguments r).
Definition validate_range_arguments (range : AnnotationRange) (value_type : option ValueType) : validated :=
  ok ← lift (Ranges.valid range value_type); if (ok : bool) then Val tt else Err (InvalidRangeArgumentsForValueType range value_type).
Definition validate_values_arguments (values : AnnotationValues) (value_type : option ValueType) : validated :=
  if ValueSets.valid values value_type then Val tt else Err (InvalidValuesArgumentsForValueType values value_type).
(** The constraints of the supertype must be narrowed by the new one. *)
Definition narrows_supertype (get_constraints : nat → Z → WriteSnapshot → exec ConceptReadError (list (Constraint Z)))
    (constraint_description : ConstraintDescription) (fuel : nat) (attribute_type : Z) (s : WriteSnapshot) : validated :=
  supertype ← map_err ValidationRead (TypeReader.get_supertype fuel AttributeType attribute_type s);
  match supertype with
  | None => Val tt
  | Some supertype =>
      supertype_constraints ← map_err ValidationRead (get_constraints fuel supertype s);
      try_for_each (λ supertype_constraint,
          or_narrowing_err attribute_type supertype s
            (validate_narrowed_by_strictly_same_type (description supertype_constraint) constraint_description))
        (iter_set (supertype_constraints : list (Constraint Z)))
  end.
Definition validate_type_regex_narrows_supertype_constraints (fuel : nat) (attribute_type : Z) (r : AnnotationRegex) (s : WriteSnapshot) : validated :=
  narrows_supertype get_constraints_regex (DRegex r) fuel attribute_type s.
Definition validate_type_range_narrows_supertype_constraints (fuel : nat) (attribute_type : Z) (range : AnnotationRange) (s : WriteSnapshot) : validated :=
  narrows_supertype get_constraints_range (DRange range) fuel attribute_type s.
Definition validate_type_values_narrows_supertype_constraints (fuel : nat) (attribute_type : Z) (values : AnnotationValues) (s : WriteSnapshot) : validated :=
  narrows_supertype get_constraints_values (DValues values) fuel attribute_type s.
(** The new constraint must be narrowed by the constraints of the subtypes. *)
Definition subtypes_narrow (get_constraints : nat → Z → WriteSnapshot → exec ConceptReadError (list (Constraint Z)))
    (constraint_description : ConstraintDescription) (fuel : nat) (attribute_type : Z) (s : WriteSnapshot) : validated :=
  subtypes ← map_err ValidationRead (TypeReader.get_subtypes_transitive fuel AttributeType attribute_type s);
  try_for_each (λ subtype,
      constraints ← map_err ValidationRead (get_constraints fuel subtype s);
      try_for_each (λ constraint,
          or_narrowing_err subtype attribute_type s (validate_narrows_strictly_same_type (description constraint) constraint_description))
        (iter_set (constraints : list (Constraint Z))))
    (subtypes : list Z).
Definition validate_subtypes_narrow_regex (fuel : nat) (attribute_type : Z) (r : AnnotationRegex) (s : WriteSnapshot) : validated :=
  subtypes_narrow get_constraints_regex (DRegex r) fuel attribute_type s.
Definition validate_subtypes_narrow_range (fuel : nat) (attribute_type : Z) (range : AnnotationRange) (s : WriteSnapshot) : validated :=
  subtypes_narrow get_constraints_range (DRange range) fuel attribute_type s.
(** The source reads the subtypes' [@regex] constraints here too. *)
Definition validate_subtypes_narrow_values (fuel : nat) (attribute_type : Z) (values : AnnotationValues) (s : WriteSnapshot) : validated :=
  subtypes_narrow get_constraints_regex (DValues values) fuel attribute_type s.
(** The new constraint must be narrowed by those of the ownerships of the type
    and of its subtypes. *)
Definition capabilities_narrow_interface_type (c : ConstraintCategory) (type_constraint_description : ConstraintDescription)
    (fuel : nat) (attribute_type : Z) (s : WriteSnapshot) : validated :=
  all_owns ← map_err ValidationRead (TypeReader.get_capabilities_for_interface fuel Owns attribute_type s);
  try_for_each (λ owns,
      constraints ← map_err ValidationRead (get_capability_constraints fuel CapOwns owns s);
      try_for_each (λ constraint,
          or_interface_err attribute_type s
            (validate_narrows_strictly_same_type (description constraint) type_constraint_description))
        (iter_set (by_category c (constraints : list (Constraint edge)))))
    (iter_edges all_owns).
Definition capabilities_narrow_transitive (c : ConstraintCategory) (constraint_description : ConstraintDescription)
    (fuel : nat) (attribute_type : Z) (s : WriteSnapshot) : validated :=
  subtypes ← map_err ValidationRead (TypeReader.get_subtypes_transitive fuel AttributeType attribute_type s);
  try_for_each (λ type_, capabilities_narrow_interface_type c constraint_description fuel type_ s) (attribute_type :: subtypes).
Definition validate_constraints_on_capabilities_narrow_regex_on_interface_type_transitive (fuel : nat) (attribute_type : Z)
    (type_regex : AnnotationRegex) (s : WriteSnapshot) : validated := capabilities_narrow_transitive KRegex (DRegex type_regex) fuel attribute_type s.
Definition validate_constraints_on_capabilities_narrow_range_on_interface_type_transitive (fuel : nat) (attribute_type : Z)
    (type_range : AnnotationRange) (s : WriteSnapshot) : validated := capabilities_narrow_transitive KRange (DRange type_range) fuel attribute_type s.
Definition validate_constraints_on_capabilities_narrow_values_on_interface_type_transitive (fuel : nat) (attribute_type : Z)
    (type_values : AnnotationValues) (s : WriteSnapshot) : validated := capabilities_narrow_transitive KValues (DValues type_values) fuel attribute_type s.
Definition validate_value_type_compatible_with_abstractness (fuel : nat) (attribute_type : Z) (value_type : option ValueType)
    (abstract_set : option bool) (s : WriteSnapshot) : validated :=
  stored ← map_err ValidationRead (is_abstract fuel KAttribute attribute_type s);
  let is_abstract := from_option id stored abstract_set in
  match value_type with
  | Some _ => Val tt
  | None =>
      if is_abstract then Val tt
      else label ← get_label_or_schema_err attribute_type s; Err (AttributeTypeWithoutValueTypeShouldBeAbstract label)
  end.
(** [get_related_role_types]: the roles of the relates edges of the type. *)
Definition validate_relation_type_has_role_types_to_unset_abstract (fuel : nat) (relation_type : Z) (s : WriteSnapshot) : validated :=
  relates ← map_err ValidationRead (TypeReader.get_capabilities fuel Relates relation_type false s);
  match iter_edges relates with
  | [] => label ← get_label_or_schema_err relation_type s; Err (CannotUnsetAbstractnessOfRelationTypeWithoutRoleTypes label)
  | _ => Val tt
  end.
End validation.
End Validation.

(** ** The operations of the type manager *)
Module TypeManagerOps.
Import Validation.
Section operations.
Context `{ChronoZoned} `{AnnotationBincode} `{Bincode Ordering} `{HashIteration} `{SetIteration} `{Regexes.RegexCrate} `{!InstanceValidation}.
Abbreviation updated := (exec SchemaWriteError WriteSnapshot).
Abbreviation guard m := (map_err SchemaValidation m).
Definition unset_supertype (fuel : nat) (K : Kind) (subtype : Z) (s : WriteSnapshot) : updated :=
  map_err SchemaRead (TypeWriter.storage_may_delete_supertype fuel (type_of_kind K) subtype s).
Definition set_supertype (fuel : nat) (K : Kind) (subtype supertype : Z) (s : WriteSnapshot) : updated :=
  _ ← guard (validate_sub_does_not_create_cycle fuel K subtype supertype s);
  _ ← guard (validate_type_supertype_abstractness_to_change_supertype fuel K subtype supertype s);
  _ ← guard (validate_type_declared_constraints_narrowing_of_supertype_constraints fuel K subtype supertype s);
  s ← unset_supertype fuel K subtype s;
  lift (TypeWriter.storage_put_supertype (type_of_kind K) subtype supertype s).

Definition validate_set_type_annotation_general (fuel : nat) (K : Kind) (type_ : Z) (annotation : Annotation) (s : WriteSnapshot)
  : exec SchemaWriteError unit :=
  guard (validate_declared_type_annotation_is_compatible_with_declared_annotations fuel K type_ (Annotations.category annotation) s).
(** [set_entity_type_annotation_abstract] and those of the other kinds. *)
Definition set_type_annotation_abstract (fuel : nat) (K : Kind) (type_ : Z) (s : WriteSnapshot) : updated :=
  _ ← validate_set_type_annotation_general fuel K type_ AnnAbstract s;
  _ ← guard (validate_type_supertype_abstractness_to_set_abstract_annotation fuel K type_ s);
  _ ← guard (validate_new_annotation_constraints_compatible_with_instances K type_ AnnAbstract s);
  lift (set_type_annotation K type_ AnnAbstract s).
Definition unset_annotation (fuel : nat) (K : Kind) (type_ : Z) (c : AnnotationCategory) (s : WriteSnapshot) : updated :=
  map_err SchemaRead (unset_type_annotation fuel K type_ c s).
(** [unset_entity_type_annotation_abstract] and those of the other kinds. *)
Definition unset_type_annotation_abstract (fuel : nat) (K : Kind) (type_ : Z) (s : WriteSnapshot) : updated :=
  _ ← match K with
    | KRelation => guard (validate_relation_type_has_role_types_to_unset_abstract fuel type_ s)
    | KAttribute =>
        value_type ← map_err SchemaRead (TypeReader.get_value_type_without_source fuel type_ s);
        guard (validate_value_type_compatible_with_abstractness fuel type_ value_type (Some false) s)
    | _ => Val tt
    end;
  _ ← guard (validate_no_abstract_subtypes_to_unset_abstract_annotation fuel K type_ s);
  unset_annotation fuel K type_ CAbstract s.
Definition set_annotation_independent (fuel : nat) (attribute_type : Z) (s : WriteSnapshot) : updated :=
  _ ← validate_set_type_annotation_general fuel KAttribute attribute_type AnnIndependent s;
  _ ← guard (validate_new_annotation_constraints_compatible_with_instances KAttribute attribute_type AnnIndependent s);
  lift (set_type_annotation KAttribute attribute_type AnnIndependent s).
Definition set_annotation_doc (K : Kind) (type_ : Z) (doc : AnnotationDoc) (s : WriteSnapshot) : updated :=
  lift (set_type_annotation K type_ (AnnDoc doc) s).
Definition set_annotation_regex (fuel : nat) (attribute_type : Z) (r : AnnotationRegex) (s : WriteSnapshot) : updated :=
  let annotation := AnnRegex r in
  _ ← validate_set_type_annotation_general fuel KAttribute attribute_type annotation s;
  value_type ← map_err SchemaRead (TypeReader.get_value_type_without_source fuel attribute_type s);
  _ ← guard (validate_annotation_regex_compatible_value_type attribute_type value_type s);
  _ ← guard (validate_regex_arguments r);
  _ ← guard (validate_constraints_on_capabilities_narrow_regex_on_interface_type_transitive fuel attribute_type r s);
  _ ← guard (validate_type_regex_narrows_supertype_constraints fuel attribute_type r s);
  _ ← guard (validate_subtypes_narrow_regex fuel attribute_type r s);
  _ ← guard (validate_new_annotation_constraints_compatible_with_instances KAttribute attribute_type annotation s);
  lift (set_type_annotation KAttribute attribute_type annotation s).
Definition set_annotation_range (fuel : nat) (attribute_type : Z) (range : AnnotationRange) (s : WriteSnapshot) : updated :=
  let annotation := AnnRange range in
  _ ← validate_set_type_annotation_general fuel KAttribute attribute_type annotation s;
  type_value_type ← map_err SchemaRead (TypeReader.get_value_type_without_source fuel attribute_type s);
  _ ← guard (validate_annotation_range_compatible_value_type attribute_type type_value_type s);
  _ ← guard (validate_range_arguments range type_value_type);
  _ ← guard (validate_constraints_on_capabilities_narrow_range_on_interface_type_transitive fuel attribute_type range s);
  _ ← guard (validate_type_range_narrows_supertype_constraints fuel attribute_type range s);
  _ ← guard (validate_subtypes_narrow_range fuel attribute_type range s);
  _ ← guard (validate_new_annotation_constraints_compatible_with_instances KAttribute attribute_type annotation s);
  lift (set_type_annotation KAttribute attribute_type annotation s).
Definition set_annotation_values (fuel : nat) (attribute_type : Z) (values : AnnotationValues) (s : WriteSnapshot) : updated :=
  let annotation := AnnValues values in
  _ ← validate_set_type_annotation_general fuel KAttribute attribute_type annotation s;
  type_value_type ← map_err SchemaRead (TypeReader.get_value_type_without_source fuel attribute_type s);
  _ ← guard (validate_annotation_values_compatible_value_type attribute_type type_value_type s);
  _ ← guard (validate_values_arguments values type_value_type);
  _ ← guard (validate_constraints_on_capabilities_narrow_values_on_interface_type_transitive fuel attribute_type values s);
  _ ← guard (validate_type_values_narrows_supertype_constraints fuel attribute_type values s);
  _ ← guard (validate_subtypes_narrow_values fuel attribute_type values s);
  _ ← guard (validate_new_annotation_constraints_compatible_with_instances KAttribute attribute_type annotation s);
  lift (set_type_annotation KAttribute attribute_type annotation s).
End operations.
End TypeManagerOps.

(** ** At commit: [commit_time_validation.rs] *)
Module CommitTimeValidation.
Import Validation.
Section commit.
Context `{ChronoZoned} `{AnnotationBincode} `{Bincode Ordering} `{HashIteration} `{SetIteration}.
(** Errors are collected in [validation_errors]; only failed reads stop. *)
Abbreviation errors := (list SchemaValidationError).
Abbreviation collected := (exec ConceptReadError errors).
Definition push_err (validation_errors : errors) (m : exec SchemaValidationError unit) : collected :=
  match m with Val _ => Val validation_errors | Err err => Val (validation_errors ++ [err]) | Panic => Panic end.
Fixpoint collect_each {A} (f : A → errors → collected) (l : list A) (validation_errors : errors) : collected :=
  match l with [] => Val validation_errors | x :: l => e ← f x validation_errors; collect_each f l e end.
Definition validate_redundant_type_constraints (fuel : nat) (K : Kind) (type_ : Z) (s : WriteSnapshot) (validation_errors : errors) : collected :=
  constraints ← get_type_constraints fuel K type_ s;
  let declared_constraint_descriptions := List.map description (filter_by_source (iter_set (constraints : list (Constraint Z))) type_) in
  collect_each (λ constraint validation_errors,
      if source constraint =? type_ then Val validation_errors
      else if existsb (description_eqb (description constraint)) declared_constraint_descriptions then
        subtype ← get_label_or_concept_read_err type_ s;
        Val (validation_errors ++ [CannotRedeclareConstraintOnSubtypeWithoutSpecialisation (description constraint) subtype])
      else Val validation_errors)
    (iter_set constraints) validation_errors.
Definition validate_type_constraints (fuel : nat) (K : Kind) (type_ : Z) (s : WriteSnapshot) (validation_errors : errors) : collected :=
  supertype ← TypeReader.get_supertype fuel (type_of_kind K) type_ s;
  validation_errors ←
    match supertype with
    | None => Val validation_errors
    | Some supertype =>
        validation_errors ← push_err validation_errors (validate_type_supertype_abstractness fuel K type_ (Some supertype) None None s);
        push_err validation_errors (validate_type_declared_constraints_narrowing_of_supertype_constraints fuel K type_ supertype s)
    end;
  validate_redundant_type_constraints fuel K type_ s validation_errors.
Definition get_value_type_annotations_declared (fuel : nat) (attribute_type : Z) (s : WriteSnapshot) : exec ConceptReadError (list Annotation) :=
  l ← get_type_annotations_declared fuel KAttribute attribute_type s;
  Val (List.filter (λ a, Annotations.is_value_type_annotation_category (Annotations.category a)) (iter_set l)).
Definition validate_attribute_type_value_type (fuel : nat) (attribute_type : Z) (s : WriteSnapshot) (validation_errors : errors) : collected :=
  supertype ← TypeReader.get_supertype fuel AttributeType attribute_type s;
  validation_errors ←
    match supertype with
    | None => Val validation_errors
    | Some supertype =>
        inherited ← TypeReader.get_value_type fuel supertype s;
        match inherited with
        | None => Val validation_errors
        | Some _ =>
            declared ← TypeReader.get_value_type_declared attribute_type s;
            match declared with
            | None => Val validation_errors
            | Some declared_value_type =>
                declared_value_type_annotations ← get_value_type_annotations_declared fuel attribute_type s;
                match declared_value_type_annotations with
                | [] =>
                    label ← get_label_or_concept_read_err attribute_type s;
                    super_label ← get_label_or_concept_read_err supertype s;
                    Val (validation_errors ++ [CannotRedeclareInheritedValueTypeWithoutSpecialisation label super_label declared_value_type])
                | _ => Val validation_errors
                end
            end
        end
    end;
  value_type ← TypeReader.get_value_type fuel attribute_type s;
  match value_type with
  | Some _ => Val validation_errors
  | None =>
      abstract ← is_abstract fuel KAttribute attribute_type s;
      if (abstract : bool) then Val validation_errors
      else
        label ← get_label_or_concept_read_err attribute_type s;
        Val (validation_errors ++ [AttributeTypeWithoutValueTypeShouldBeAbstract label])
  end.
Definition validate_attribute_type (fuel : nat) (type_ : Z) (s : WriteSnapshot) (validation_errors : errors) : collected :=
  after ← validate_attribute_type_value_type fuel type_ s validation_errors;
  let invalid_value_type := (length validation_errors <? length (after : errors))%nat in
  if invalid_value_type then Val after else validate_type_constraints fuel KAttribute type_ s after.
Definition validate_attribute_types (fuel : nat) (s : WriteSnapshot) (validation_errors : errors) : collected :=
  types ← TypeReader.get_types fuel KAttribute s;
  collect_each (λ root validation_errors,
      supertype ← TypeReader.get_supertype fuel AttributeType root s;
      match supertype with
      | Some _ => Val validation_errors
      | None =>
          validation_errors ← validate_attribute_type fuel root s validation_errors;
          subtypes ← TypeReader.get_subtypes_transitive fuel AttributeType root s;
          collect_each (λ subtype, validate_attribute_type fuel subtype s) subtypes validation_errors
      end)
    (types : list Z) validation_errors.
End commit.
End CommitTimeValidation.
