(* ===== verification/TypeIds.v ===== *)
(** * The ids of types: [SchemaIDAllocator]

    The vertices of one kind lie in one range of keys in the order of their ids,
    so the first id that a scan of the range does not yield is free. *)
From stdpp Require Import strings gmap relations sorting.
From S2P Require Import Prelude BTree Bytes MemoryStore Buffer LendingIter Mvcc Keyspaces Snapshot Dependency Timeline Isolation Storage Views Layout Values Structs Attributes Things Edges ThingManager ThingGraph Pattern TypeEdges TypeReader SchemaGraph.
Import KeyRangeOps SchemaIDAllocator.
#[local] Open Scope Z_scope.

(** A key of the keyspace starts with the byte of a prefix; that of a kind is
    followed by an id. *)
Definition kind_key (bs : bytes) : Prop :=
  ∃ q rest, bs = Prefixes.prefix_id q :: rest ∧
    ∀ kind, q = prefix_of_kind kind → ∃ id, is_u16 id ∧ bs = TypeVertex.to_bytes (object_from_id q id).
Record types_ok (s : WriteSnapshot) : Prop := {
  ty_snapshot : snapshot_ok s;
  ty_open : good_id SCHEMA s;
  ty_keys : ∀ bs, known (SCHEMA, bs) s → kind_key bs;
}.
Definition taken (p : Prefix) (id : Z) (s : WriteSnapshot) : Prop := is_Some (view (into_storage_key (object_from_id p id)) s).

Lemma vertex_bytes p id : is_u16 id → TypeVertex.to_bytes (object_from_id p id) = Prefixes.prefix_id p :: be_bytes 2 id.
Proof.
  intros Hid. unfold TypeVertex.to_bytes, object_from_id, TypeVertex.new. rewrite Z.shiftl_mul_pow2 by lia. cbn [be_bytes drop]. unfold is_u16 in Hid.
  pose proof (prefix_id_byte p) as Hp. unfold is_byte in Hp.
  change (256 ^ Z.of_nat 2) with (2 ^ 16). change (256 ^ Z.of_nat 1) with 256. change (256 ^ Z.of_nat 0) with 1. f_equal; [|f_equal; [|f_equal]].
  - rewrite Z.div_add_l by lia. rewrite (Z.div_small id) by lia. rewrite Z.add_0_r. apply Z.mod_small. lia.
  - replace (Prefixes.prefix_id p * 2 ^ 16 + id) with (Prefixes.prefix_id p * 256 * 256 + id) by lia. rewrite Z.div_add_l by lia.
    by rewrite Z.add_comm, Z.mod_add by lia.
  - rewrite !Z.div_1_r. replace (Prefixes.prefix_id p * 2 ^ 16 + id) with (id + (Prefixes.prefix_id p * 256) * 256) by lia.
    by rewrite Z.mod_add by lia.
Qed.
Lemma cmp_cons (x : Z) (a b : bytes) : cmp (x :: a) (x :: b) = cmp a b.
Proof. cbn. change (cmp x x) with (x ?= x). by rewrite Z.compare_refl. Qed.
Lemma cmp_heads (x y : Z) (a b : bytes) : x < y → cmp (x :: a) (y :: b) = Lt ∧ cmp (y :: b) (x :: a) = Gt.
Proof.
  intros Hlt. cbn. change (cmp x y) with (x ?= y). change (cmp y x) with (y ?= x).
  by rewrite (proj2 (Z.compare_lt_iff x y) Hlt), (proj2 (Z.compare_gt_iff y x) Hlt).
Qed.
Lemma id_cmp i j : is_u16 i → is_u16 j → cmp (be_bytes 2 i) (be_bytes 2 j) = (i ?= j).
Proof.
  intros Hi Hj. rewrite be_value_cmp by (auto using be_bytes_is_bytes; by rewrite !length_be_bytes).
  rewrite !be_value_be_bytes, !Z.mod_small by (change (256 ^ Z.of_nat 2) with (2 ^ 16); done). done.
Qed.

(** ** The range of a kind *)
Section range.
Context (kind : Kind) (start : Z) (Hstart : is_u16 start).
Abbreviation p := (prefix_of_kind kind).
Abbreviation r := (range p start).
Abbreviation first := (TypeVertex.to_bytes (object_from_id p start)).
Abbreviation last := (TypeVertex.to_bytes (object_from_id p MAX_ID)).
Abbreviation end_ := (Excluded (Prefixes.prefix_id p + 1 :: [0; 0])).
Lemma first_eq : first = Prefixes.prefix_id p :: be_bytes 2 start.
Proof. by apply vertex_bytes. Qed.
Lemma last_eq : last = Prefixes.prefix_id p :: [255; 255].
Proof. by destruct kind. Qed.
Lemma range_bounds : WB.bounds r = Val (Included first, end_).
Proof. unfold WB.bounds, range. cbn [range_start range_end WB.compute_exclusive_end WB.range_start_as_bound]. rewrite last_eq. by destruct kind. Qed.
(** A key of the kind is in the range from its id on, whatever follows it. *)
Lemma in_range_kind id t : is_u16 id → in_range r first (TypeVertex.to_bytes (object_from_id p id) ++ t) = (start <=? id).
Proof.
  intros Hid. unfold in_range. cbn [range RangeIter.condition_of range_end accepts]. rewrite first_eq, last_eq, vertex_bytes by done.
  cbn [app length]. replace (take 3 (Prefixes.prefix_id p :: be_bytes 2 id ++ t)) with (Prefixes.prefix_id p :: be_bytes 2 id) by done.
  assert (leb (Prefixes.prefix_id p :: be_bytes 2 id) [Prefixes.prefix_id p; 255; 255] = true) as ->.
  { apply leb_le. rewrite cmp_cons. change [255; 255] with (be_bytes 2 65535). rewrite id_cmp by (unfold is_u16 in *; lia).
    unfold is_u16 in Hid. destruct (Z.compare_spec id 65535); (done || lia). }
  rewrite orb_true_r, andb_true_r. apply eq_true_iff_eq. rewrite leb_le, cmp_cons, Z.leb_le.
  rewrite <-(app_nil_r (be_bytes 2 start)), list_cmp_app_len by (by rewrite !length_be_bytes). rewrite id_cmp by done.
  destruct (Z.compare_spec start id); [split; [lia|]; intros _; by destruct t|split; [lia|done]|split; [done|lia]].
Qed.
(** A key of another prefix is not. *)
Lemma in_range_other c k : c ≠ Prefixes.prefix_id p → in_range r first (c :: k) = false.
Proof.
  intros Hc. unfold in_range. cbn [range RangeIter.condition_of range_end accepts]. rewrite first_eq, last_eq.
  destruct (Z.lt_ge_cases c (Prefixes.prefix_id p)) as [Hlt|Hge].
  - destruct (leb _ (c :: k)) eqn:Hl; [|done]. apply leb_le in Hl. by rewrite (proj2 (cmp_heads c _ _ _ Hlt)) in Hl.
  - apply andb_false_intro2. apply orb_false_intro.
    + destruct (starts_with _ _) eqn:Hs; [|done]. apply starts_with_prefix_of in Hs as [u [= Hu _]]. by subst.
    + cbn [length take]. destruct (leb _ _) eqn:Hl; [|done]. apply leb_le in Hl.
      by rewrite (proj2 (cmp_heads (Prefixes.prefix_id p) c [255; 255] _ ltac:(lia))) in Hl.
Qed.
Lemma kind_key_cases bs :
  kind_key bs → (∃ id, is_u16 id ∧ bs = TypeVertex.to_bytes (object_from_id p id)) ∨ ∃ q rest, bs = Prefixes.prefix_id q :: rest ∧ q ≠ p.
Proof.
  intros (q & rest & -> & Hk). destruct (decide (q = p)) as [->|Hne]; [left; by apply (Hk kind)|right; by exists q, rest].
Qed.
(** The bounds of the buffer's scan select the same keys. *)
Lemma bounds_in_range bs : kind_key bs → above (Included first) bs && below end_ bs = in_range r first bs.
Proof.
  intros Hk. destruct (kind_key_cases bs Hk) as [(id & Hid & ->)|(q & rest & -> & Hq)].
  - rewrite <-(app_nil_r (TypeVertex.to_bytes (object_from_id p id))) at 3. rewrite in_range_kind by done.
    cbn [above below]. rewrite first_eq, vertex_bytes by done.
    assert (ltb (Prefixes.prefix_id p :: be_bytes 2 id) (Prefixes.prefix_id p + 1 :: [0; 0]) = true) as ->.
    { apply ltb_lt. apply cmp_heads. lia. }
    rewrite andb_true_r. apply eq_true_iff_eq. rewrite leb_le, cmp_cons, Z.leb_le, id_cmp by done. by destruct (Z.compare_spec start id); split; try lia.
  - assert (Hne : Prefixes.prefix_id q ≠ Prefixes.prefix_id p) by (intros ?%prefix_id_inj; done).
    rewrite in_range_other by done. cbn [above below]. rewrite first_eq.
    destruct (Z.lt_ge_cases (Prefixes.prefix_id q) (Prefixes.prefix_id p)) as [Hlt|Hge].
    + destruct (leb _ _) eqn:Hl; [|done]. apply leb_le in Hl. by rewrite (proj2 (cmp_heads _ _ _ _ Hlt)) in Hl.
    + apply andb_false_intro2. destruct (ltb _ _) eqn:Hl; [|done]. apply ltb_lt in Hl.
      destruct (Z.lt_ge_cases (Prefixes.prefix_id p + 1) (Prefixes.prefix_id q)) as [Hlt|Hge'].
      * by rewrite (proj2 (cmp_heads _ _ _ _ Hlt)) in Hl.
      * assert (Hq1 : Prefixes.prefix_id q = Prefixes.prefix_id p + 1) by lia.
        assert (∃ kind', q = prefix_of_kind kind') as [kind' ->].
        { destruct kind, q; cbn in Hq1; try lia; [by exists KRelation|by exists KAttribute]. }
        destruct Hk as (q' & rest' & [= Hq' _] & Hk). apply prefix_id_inj in Hq' as <-.
        destruct (Hk kind' eq_refl) as (id & Hid & He). rewrite vertex_bytes in He by done. apply (f_equal tail) in He. cbn [tail] in He. subst rest.
        rewrite Hq1, cmp_cons in Hl. change [0; 0] with (be_bytes 2 0) in Hl. rewrite id_cmp in Hl by (done || (unfold is_u16; lia)).
        unfold is_u16 in Hid. destruct (Z.compare_spec id 0); (done || lia).
Qed.
Lemma kind_scannable s : types_ok s → scannable r first SCHEMA s.
Proof.
  intros Hok. split.
  - done.
  - apply vertex_is_bytes.
  - exists (Included first), end_. split; [apply range_bounds|]. split.
    + cbn [range_panics]. rewrite first_eq. destruct (ltb _ _) eqn:Hl; [|done]. apply ltb_lt in Hl.
      by rewrite (proj2 (cmp_heads (Prefixes.prefix_id p) (Prefixes.prefix_id p + 1) _ _ ltac:(lia))) in Hl.
    + intros k Hk. by apply bounds_in_range, (ty_keys s Hok).
  - intros b v Hb Hv. assert (Hk : kind_key (v_key v)) by (by apply (ty_keys s Hok), (known_stored SCHEMA b)).
    unfold raw. cbn [fst]. rewrite build_app. split.
    + destruct (kind_key_cases _ Hk) as [(id & Hid & ->)|(q & rest & -> & Hq)].
      * rewrite in_range_kind by done. rewrite <-(app_nil_r (TypeVertex.to_bytes (object_from_id p id))). by rewrite in_range_kind.
      * cbn [app]. by rewrite !in_range_other by (intros ?%prefix_id_inj; done).
    + cbn [range RangeIter.condition_of range_end sliceable]. left. rewrite length_vertex, !length_app, length_be_bytes. lia.
  - intros b x y Hb Hx Hy Hin Hxy.
    assert (Hkx : kind_key (v_key x)) by (by apply (ty_keys s Hok), (known_stored SCHEMA b)).
    assert (Hky : kind_key (v_key y)) by (by apply (ty_keys s Hok), (known_stored SCHEMA b)).
    destruct (kind_key_cases _ Hkx) as [(id & Hid & Hex)|(q & rest & Hex & Hq)].
    + destruct Hxy as [u Hu]. destruct (kind_key_cases _ Hky) as [(id' & Hid' & Hey)|(q & rest & Hey & Hq)].
      * rewrite Hu. apply (f_equal length) in Hu. rewrite Hey, Hex, length_app, !length_vertex in Hu.
        destruct u; [by rewrite app_nil_r|cbn in Hu; lia].
      * rewrite Hex, Hey, vertex_bytes in Hu by done. injection Hu as Hu%prefix_id_inj _. done.
    + rewrite Hex, in_range_other in Hin; [done|]. intros ?%prefix_id_inj. done.
Qed.
End range.

(** ** The scan and its first gap *)
Abbreviation id_key p id := (TypeVertex.to_bytes (object_from_id p id)).
Lemma id_key_inj p i j : is_u16 i → is_u16 j → id_key p i = id_key p j → i = j.
Proof.
  intros Hi Hj He. rewrite !vertex_bytes in He by done. apply (f_equal tail) in He. cbn [tail] in He.
  pose proof (id_cmp i j Hi Hj) as Hc. rewrite He, (id_cmp j j Hj Hj), Z.compare_refl in Hc. by symmetry in Hc; apply Z.compare_eq_iff in Hc.
Qed.
Lemma id_key_decodes kind id : is_u16 id → id_from_key (id_key (prefix_of_kind kind) id) = Val id.
Proof.
  intros Hid. unfold id_from_key. rewrite vertex_decodes by (by eexists _, _). cbn [mbind exec_bind]. f_equal. by apply type_vertex_parts.
Qed.
(** The scanned keys as ids in increasing order. *)
Lemma scanned_ids kind (out : list (bytes * bytes)) :
  bt_wf out → (∀ kv, kv ∈ out → ∃ id, is_u16 id ∧ kv.1 = id_key (prefix_of_kind kind) id) →
  ∃ ids, out.*1 = (λ id, id_key (prefix_of_kind kind) id) <$> ids ∧ StronglySorted Z.lt ids ∧ Forall is_u16 ids.
Proof.
  intros Hwf. induction Hwf as [|[k v] out Hwf IH Hlt]; intros Hk; [exists []; split_and!; [done|constructor|constructor]|].
  destruct IH as (ids & He & Hs & Hu); [intros; apply Hk; by right|]. destruct (Hk (k, v)) as (id & Hid & Hke); [by left|]. cbn [fst] in Hke. subst k.
  exists (id :: ids). split; [by rewrite !fmap_cons, He|]. split; [|by constructor]. constructor; [done|]. apply Forall_forall. intros j Hj.
  assert (Hj' : id_key (prefix_of_kind kind) j ∈ out.*1) by (rewrite He; apply list_elem_of_fmap; eauto).
  apply list_elem_of_fmap in Hj' as (kv & Hkv & Hin). rewrite Forall_forall in Hlt. specialize (Hlt kv Hin). unfold bt_lt in Hlt. cbn [fst] in Hlt.
  rewrite Forall_forall in Hu. specialize (Hu j Hj). rewrite <-Hkv, !vertex_bytes, cmp_cons, id_cmp in Hlt by done. by apply Z.compare_lt_iff.
Qed.
Lemma find_gap_spec kind fuel n : ∀ x it (out : list (bytes * bytes)) ids,
  yields (H:=SnapIter.next (H:=mvcc_source fuel) fuel) it (snapshot_items SCHEMA out) →
  out.*1 = (λ id, id_key (prefix_of_kind kind) id) <$> ids → StronglySorted Z.lt ids → Forall is_u16 ids → Forall (λ i, x ≤ i) ids →
  x + Z.of_nat n = 65536 →
  ∃ r, find_gap n fuel x it = Val r ∧ (∀ i, r = Some i → x ≤ i < 65536 ∧ i ∉ ids) ∧ (r = None → ∀ i, x ≤ i < 65536 → i ∈ ids).
Proof.
  induction n as [|n IH]; intros x it out ids Hy He Hs Hu Hx Hn; cbn [find_gap].
  - exists None. split_and!; [done|done|]. intros _ i Hi. lia.
  - apply yields_next in Hy as (it' & Hnx & Hy). unfold li_next in Hnx. rewrite Hnx. cbn [lift mbind exec_bind].
    destruct out as [|[k v] out].
    + exists (Some x). split_and!; [done| |done]. intros i [= <-]. split; [lia|]. destruct ids; [apply not_elem_of_nil|done].
    + destruct ids as [|j ids]; [done|]. rewrite !fmap_cons in He. injection He as -> He.
      apply Forall_cons in Hu as [Hj Hu]. apply Forall_cons in Hx as [Hxj Hx]. apply StronglySorted_inv in Hs as [Hs Hlt].
      cbn [snapshot_items List.map head fst snd]. rewrite id_key_decodes by done. cbn [lift mbind exec_bind].
      destruct (Z.eqb_spec j x) as [->|Hne].
      * destruct (IH (x + 1) it' out ids) as (r & Hr & H1 & H2); [done|done|done|done| |lia|].
        { eapply Forall_impl; [exact Hlt|]. intros i ?. cbn in *. lia. }
        exists r. split; [done|]. split.
        -- intros i [Hi Hn']%H1. split; [lia|]. intros [->|?]%elem_of_cons; [lia|done].
        -- intros Hnone i Hi. destruct (decide (i = x)) as [->|]; [by left|]. right. apply H2; [done|lia].
      * exists (Some x). split_and!; [done| |done]. intros i [= <-]. split; [lia|]. intros [->|Hin]%elem_of_cons; [done|].
        rewrite Forall_forall in Hlt. specialize (Hlt x Hin). lia.
Qed.
Lemma find_unallocated_spec fuel kind start s :
  types_ok s → fits fuel SCHEMA s → is_u16 start →
  ∃ r, find_unallocated_id fuel (prefix_of_kind kind) start s = Val r ∧
    (∀ i, r = Some i → is_u16 i ∧ ¬ taken (prefix_of_kind kind) i s) ∧
    (r = None → ∀ i, start ≤ i < 65536 → taken (prefix_of_kind kind) i s).
Proof.
  intros Hok Hfit Hst. unfold find_unallocated_id.
  destruct (range_scan fuel SCHEMA _ _ s (ty_snapshot s Hok) (ty_open s Hok) (kind_scannable kind start Hst s Hok) Hfit) as (it & out & Hit & Hy & Hwf & _ & Hin).
  unfold SCHEMA, TypeEdges.KEYSPACE in Hit. rewrite Hit. cbn [lift mbind exec_bind].
  assert (Hout : ∀ k v, (k, v) ∈ out ↔ ∃ id, is_u16 id ∧ start ≤ id ∧ k = id_key (prefix_of_kind kind) id ∧ view (SCHEMA, k) s = Some v).
  { intros k v. rewrite Hin. split.
    - intros [Hr Hv]. destruct (kind_key_cases kind k) as [(id & Hid & ->)|(q & rest & -> & Hq)].
      + eapply (ty_keys s Hok), view_known. exact Hv.
      + exists id. rewrite <-(app_nil_r (id_key _ id)), in_range_kind in Hr by done. apply Z.leb_le in Hr. done.
      + rewrite (in_range_other kind start Hst) in Hr; [done|]. intros ?%prefix_id_inj. done.
    - intros (id & Hid & Hle & -> & Hv). split; [|done]. rewrite <-(app_nil_r (id_key _ id)), in_range_kind by done. by apply Z.leb_le. }
  destruct (scanned_ids kind out Hwf) as (ids & He & Hs & Hu).
  { intros [k v] (id & Hid & _ & -> & _)%Hout. by exists id. }
  assert (Hids : ∀ i, is_u16 i → i ∈ ids ↔ start ≤ i ∧ taken (prefix_of_kind kind) i s).
  { intros i Hi. split.
    - intros Hi'. assert (id_key (prefix_of_kind kind) i ∈ out.*1) as ([k v] & Hk & Hkv)%list_elem_of_fmap by (rewrite He; apply list_elem_of_fmap; eauto).
      apply Hout in Hkv as (id & Hid & Hle & -> & Hv). cbn in Hk. apply id_key_inj in Hk as <-; [|done..]. split; [done|by exists v].
    - intros [Hle [v Hv]]. assert (id_key (prefix_of_kind kind) i ∈ out.*1) as Hk.
      { apply list_elem_of_fmap. exists (id_key (prefix_of_kind kind) i, v). split; [done|]. apply Hout. by exists i. }
      rewrite He in Hk. apply list_elem_of_fmap in Hk as (j & Hk & Hj). rewrite Forall_forall in Hu. apply id_key_inj in Hk as ->; [done|done|by apply Hu]. }
  destruct (find_gap_spec kind fuel (Z.to_nat (MAX_ID + 1 - start)) start it out ids Hy He Hs Hu) as (r & Hr & H1 & H2).
  { rewrite Forall_forall. intros i Hi. rewrite Forall_forall in Hu. by apply Hids; [apply Hu|]. }
  { unfold MAX_ID, is_u16 in *. lia. }
  exists r. split; [done|]. unfold is_u16 in *. split.
  - intros i [Hi Hn]%H1. split; [lia|]. intros Ht. apply Hn, Hids; [lia|]. split; [lia|done].
  - intros Hnone i Hi. apply Hids; [lia|]. apply H2; [done|lia].
Qed.

(** A new type gets an id of its own.  Whatever id was allocated last, the
    allocator of a kind returns the vertex of an id that no type of the kind has
    in the snapshot, or, only if all 65536 ids are taken, the error that the ids
    are exhausted; [create] of the generator then shows the type under that
    vertex and changes no other key. *)
Lemma new_types_get_free_ids fuel kind last s :
  types_ok s → fits fuel SCHEMA s → is_u16 last →
  (∃ id, allocate fuel (prefix_of_kind kind) last s = Val (object_from_id (prefix_of_kind kind) id, id) ∧
     is_u16 id ∧ ¬ taken (prefix_of_kind kind) id s ∧
     ∃ s', TypeGenerator.create fuel (prefix_of_kind kind) last s = Val (object_from_id (prefix_of_kind kind) id, id, s') ∧
       updates (into_storage_key (object_from_id (prefix_of_kind kind) id)) (Some []) s s') ∨
  (allocate fuel (prefix_of_kind kind) last s = Err (TypeIDsExhausted kind) ∧ ∀ id, is_u16 id → taken (prefix_of_kind kind) id s).
Proof.
  intros Hok Hfit Hlast.
  assert (Hcreate : ∀ id, allocate fuel (prefix_of_kind kind) last s = Val (object_from_id (prefix_of_kind kind) id, id) →
    ∃ s', TypeGenerator.create fuel (prefix_of_kind kind) last s = Val (object_from_id (prefix_of_kind kind) id, id, s') ∧
      updates (into_storage_key (object_from_id (prefix_of_kind kind) id)) (Some []) s s').
  { intros id Ha. unfold TypeGenerator.create. rewrite Ha. cbn [mbind exec_bind].
    destruct (put_spec (into_storage_key (object_from_id (prefix_of_kind kind) id)) s (ty_snapshot s Hok)) with (v := @nil Z) as (s' & -> & Hc & Hw);
      [cbn; lia|apply vertex_is_bytes|]. exists s'. split; [done|].
    replace (Some []) with (view (into_storage_key (object_from_id (prefix_of_kind kind) id)) s') by (by rewrite (written_view _ _ _ Hw)).
    by apply confined_updates. }
  revert Hcreate. unfold allocate. destruct (find_unallocated_spec fuel kind last s Hok Hfit Hlast) as ([id|] & -> & H1 & H2); cbn [mbind exec_bind]; intros Hcreate.
  - left. exists id. destruct (H1 id eq_refl). auto.
  - destruct (find_unallocated_spec fuel kind 0 s Hok Hfit) as ([id|] & Hz & H3 & H4); [unfold is_u16; lia| |]; rewrite Hz in *; cbn [mbind exec_bind] in *.
    + left. exists id. destruct (H3 id eq_refl). auto.
    + right. split; [by destruct kind|]. intros id Hid. by apply H4.
Qed.
Lemma empty_unknown bs id : 0 ≤ id → ¬ known (id, bs) empty_snapshot.
Proof.
  intros Hid [[w Hw]|(b & v & Hb & Hv & _)].
  - by rewrite empty_written in Hw.
  - rewrite (empty_backend _ _ Hb) in Hv. by apply not_elem_of_nil in Hv.
Qed.
Lemma empty_open : good_id SCHEMA empty_snapshot.
Proof. split; [unfold SCHEMA; cbn; lia|by eexists]. Qed.
Lemma empty_types_ok : types_ok empty_snapshot.
Proof.
  split; [apply (t_snapshot _ empty_things_ok)|apply empty_open|]. intros bs Hk. exfalso. by apply (empty_unknown bs SCHEMA).
Qed.
Lemma new_types_get_free_ids_witness :
  ∃ id s', TypeGenerator.create 1 VertexEntityType 7 empty_snapshot = Val (object_from_id VertexEntityType id, id, s') ∧ is_u16 id.
Proof.
  destruct (new_types_get_free_ids 1 KEntity 7 empty_snapshot empty_types_ok) as [(id & _ & Hid & _ & s' & Hs' & _)|[_ Hall]].
  - unfold fits. vm_compute. lia.
  - unfold is_u16. lia.
  - exists id, s'. split; [exact Hs'|exact Hid].
  - exfalso. destruct (Hall 0) as [v Hv%view_known]; [unfold is_u16; lia|]. by apply (empty_unknown _ _) in Hv.
Defined.

(** ** Listing the types of a kind *)
Lemma selected_first b k : is_byte b → b < 255 → k ≠ [] → selected [b] k.
Proof.
  intros Hb Hlt Hk. destruct k as [|d k]; [done|]. assert (Hp : [b] `prefix_of` d :: k ↔ d = b).
  { split; [by intros [t [= -> _]]|intros ->; by exists k]. }
  split; [|intros t; rewrite Hp; by intros [u [= -> _]]]. intros q Hq. unfold increment_unwrap, increment in Hq. cbn in Hq.
  assert (256 <=? b + 1 = false) as Hc by (apply Z.leb_gt; lia). rewrite Hc in Hq. cbn in Hq. injection Hq as <-. unfold u8. rewrite Z.mod_small by (unfold is_byte in Hb; lia).
  rewrite Hp. cbn. change (cmp b d) with (b ?= d). change (cmp d (b + 1)) with (d ?= b + 1).
  destruct (Z.compare_spec b d), (Z.compare_spec d (b + 1)), k; split; try done; try lia; intros [? ?]; (done || lia).
Qed.
Definition type_exists (K : Kind) (t : Z) (s : WriteSnapshot) : Prop :=
  in_type (type_of_kind K) t ∧ is_Some (view (into_storage_key t) s).
Lemma collect_list {A E} (mapper : bytes → bytes → outcome A) out : ∀ found,
  (∀ kv, kv ∈ out → ∃ a, mapper kv.1 kv.2 = Val a) →
  ∃ l, fold_body (E:=E) (λ k v found, a ← lift (mapper k v); Val (found ++ [a])) out found = Val l ∧
    ∀ a, a ∈ l ↔ a ∈ found ∨ ∃ kv, kv ∈ out ∧ mapper kv.1 kv.2 = Val a.
Proof.
  induction out as [|[k v] out IH]; intros found Hm; cbn [fold_body fst snd].
  - exists found. split; [done|]. intros a. split; [by left|]. intros [?|(kv & ?%not_elem_of_nil & _)]; done.
  - destruct (Hm (k, v)) as [a Ha]; [by left|]. cbn [fst snd] in Ha. rewrite Ha. cbn [lift mbind exec_bind].
    destruct (IH (found ++ [a])) as (l & Hl & Hin); [intros; apply Hm; by right|]. exists l. split; [exact Hl|]. intros b. rewrite Hin, elem_of_app, list_elem_of_singleton. split.
    + intros [[?| ->]|(kv & ? & ?)]; [by left|right; exists (k, v); split; [by left|done]|right; exists kv; split; [by right|done]].
    + intros [?|(kv & Hkv & Hr)]; [by left; left|]. apply elem_of_cons in Hkv as [->|?]; [left; right; cbn in Hr; congruence|right; by exists kv].
Qed.
Lemma kind_prefix_exact K s : types_ok s → scans_exactly (prefix_for_kind K).2 SCHEMA s.
Proof.
  intros Hok. split.
  - intros k Hk. apply selected_first; [apply prefix_id_byte|destruct K; cbn; lia|]. by destruct (ty_keys s Hok k Hk) as (q & rest & -> & _).
  - intros b x y Hb Hx Hy [t Ht] [u Hu]. apply (known_stored SCHEMA _ _ s Hb) in Hx, Hy.
    assert (Hlen : ∀ k t, known (SCHEMA, k) s → k = (prefix_for_kind K).2 ++ t → length k = 3%nat).
    { intros k t' Hk He. destruct (kind_key_cases K k (ty_keys s Hok k Hk)) as [(id & _ & ->)|(q & rest & -> & Hq)]; [apply length_vertex|].
      injection He as He%prefix_id_inj _. done. }
    apply (f_equal length) in Hu as Hl. rewrite length_app, (Hlen _ _ Hx Ht) in Hl. rewrite (Hlen _ (t ++ u) Hy) in Hl; [|by rewrite Hu, Ht, <-app_assoc].
    destruct u; [by rewrite Hu, app_nil_r|cbn in Hl; lia].
Qed.
Lemma get_types_spec fuel K s :
  types_ok s → fits fuel SCHEMA s → ∃ l, TypeReader.get_types fuel K s = Val l ∧ ∀ t, t ∈ l ↔ type_exists K t s.
Proof.
  intros Hok Hfit. unfold TypeReader.get_types, TypeReader.collect_vec. set (fw := match K with KAttribute => _ | _ => _ end).
  destruct (prefix_scan_exact fuel SCHEMA (prefix_for_kind K).2 fw s (ty_snapshot s Hok) (ty_open s Hok)) as (it & out & Hit & Hy & _ & Hl & Hin);
    [|by apply kind_prefix_exact|done|].
  { split; [constructor; [apply prefix_id_byte|constructor]|]. destruct K; cbn; lia. }
  unfold TM.iterate_prefix. change (EncodingKeyspaces.id (prefix_for_kind K).1) with SCHEMA. rewrite Hit. cbn [lift mbind exec_bind].
  rewrite (for_each_wrap fuel _ (λ a found, found ++ [a]) SCHEMA it out [] Hy Hl).
  assert (Hkv : ∀ kv, kv ∈ out ↔ ∃ t, in_type (type_of_kind K) t ∧ kv.1 = TypeVertex.to_bytes t ∧ view (into_storage_key t) s = Some kv.2).
  { intros [k v]. rewrite Hin. cbn [fst snd]. split.
    - intros [[t Ht] Hv]. destruct (kind_key_cases K k (ty_keys s Hok k (view_known _ _ _ Hv))) as [(id & Hid & ->)|(q & rest & -> & Hq)].
      + exists (object_from_id (prefix_of_kind K) id). split_and!; [|done|done]. apply in_kind. split; [by exists (prefix_of_kind K), id|].
        by apply type_vertex_parts.
      + injection Ht as Ht%prefix_id_inj _. done.
    - intros (t & Ht & -> & Hv). split; [|done]. apply in_kind in Ht as [(p & id & Hid & ->) Hp].
      rewrite (vertex_bytes p id Hid : TypeVertex.to_bytes (TypeVertex.new (Prefixes.prefix_id p) id) = _).
      assert (p = prefix_of_kind K) as ->; [|by exists (be_bytes 2 id)]. rewrite (proj2 (type_vertex_parts p id Hid)) in Hp. by injection Hp. }
  assert (Hmap : ∀ t, in_type (type_of_kind K) t → (vertex ← TypeVertex.decode (TypeVertex.to_bytes t); new (type_of_kind K) vertex) = Val t).
  { intros t Ht. rewrite vertex_decodes by apply Ht. cbn [mbind exec_bind]. unfold new. by rewrite (proj2 Ht). }
  destruct (collect_list (E:=ConceptReadError) (λ key _, vertex ← TypeVertex.decode key; new (type_of_kind K) vertex) out []) as (l & Hl' & Hel).
  { intros kv (t & Ht & -> & _)%Hkv. exists t. by apply (Hmap t). }
  exists l. split; [exact Hl'|]. intros t. rewrite Hel. split.
  - intros [?%not_elem_of_nil|(kv & (t' & Ht & Hk & Hv)%Hkv & Hm)]; [done|]. rewrite Hk in Hm. rewrite (Hmap t' Ht) in Hm. injection Hm as ->. split; [done|by eexists].
  - intros [Ht [v Hv]]. right. exists (TypeVertex.to_bytes t, v). split; [by apply Hkv; exists t|]. by apply (Hmap t).
Qed.
