(* ===== verification/SchemaClaims.v ===== *)
(** * The schema stays a graph, and the theorems about it

    The writers change one edge in both of its directions; changing a supertype
    keeps subtyping a forest; a new type gets an id of its own; and the readers
    promise what the type inference relies on. *)
From stdpp Require Import strings gmap relations.
From S2P Require Import Prelude BTree Bytes MemoryStore Buffer LendingIter Mvcc Keyspaces Snapshot Dependency Timeline Isolation Storage Views Layout Values Structs Attributes Things Edges ThingManager ThingGraph Pattern TypeEdges Annotations TypeReader SchemaGraph Constraints Validation TypeIds.
Import KeyRangeOps.
#[local] Open Scope Z_scope.

(** ** Writing an edge *)
Definition pair_of (k : EdgeKind) (e : edge) : skey → Prop := λ x, x = key k e ∨ x = rkey k e.
(** [s'] has the edges of [s], and the edge [e] of kind [k] if [present]. *)
Definition edge_set (k : EdgeKind) (e : edge) (present : Prop) (s s' : WriteSnapshot) : Prop :=
  schema_ok s' ∧ (has k e s' ↔ present) ∧ ∀ k' e', (k', e') ≠ (k, e) → has k' e' s' ↔ has k' e' s.
Lemma key_id reverse k e : (key_at reverse k e).1 = SCHEMA.
Proof. done. Qed.
Lemma key_pair_inj reverse k e k' e' : well_typed k e → well_typed k' e' → pair_of k e (key_at reverse k' e') → (k', e') = (k, e).
Proof.
  intros He He' Hp. assert (∃ r, key_at reverse k' e' = key_at r k e) as [r Hr] by (destruct Hp; eauto).
  destruct (key_at_inj reverse k' e' r k e He' He) as (_ & -> & ->); [by rewrite Hr|done].
Qed.
Lemma pair_updated k e s s' :
  schema_ok s → well_typed k e → confined (pair_of k e) s s' → (is_Some (view (rkey k e) s') ↔ is_Some (view (key k e) s')) →
  edge_set k e (is_Some (view (key k e) s')) s s'.
Proof.
  intros Hok He Hc Hstep.
  assert (Hview : ∀ reverse k' e', well_typed k' e' → (k', e') ≠ (k, e) → view (key_at reverse k' e') s' = view (key_at reverse k' e') s).
  { intros reverse k' e' He' Hne. apply (confined_view _ _ _ _ Hc); [done|]. intros Hp. apply Hne. by eapply key_pair_inj. }
  split_and!.
  - split.
    + apply (cf_ok _ _ _ Hc).
    + destruct (sc_open s Hok) as [Hid Hb]. split; [done|]. by rewrite (cf_storage _ _ _ Hc).
    + intros bs Hkn. destruct (decide ((SCHEMA, bs) = key k e)) as [Heq|H1]; [|destruct (decide ((SCHEMA, bs) = rkey k e)) as [Heq|H2]].
      * replace bs with (key k e).2 by (by rewrite <-Heq). by apply key_at_schema.
      * replace bs with (rkey k e).2 by (by rewrite <-Heq). by apply key_at_schema.
      * apply (sc_keys s Hok). apply (known_confined _ _ _ _ Hc); [done| |done]. by intros [?|?].
    + intros k' e' He'. destruct (decide ((k', e') = (k, e))) as [[= -> ->]|Hne]; [done|].
      rewrite !Hview by done. by apply (sc_step s Hok).
  - unfold has. tauto.
  - intros k' e' Hne. unfold has. split; intros [He' Hv]; (split; [done|]).
    + by rewrite <-(Hview false k' e' He' Hne).
    + by rewrite (Hview false k' e' He' Hne).
Qed.
Lemma key_ne k e : key k e ≠ rkey k e.
Proof. unfold key_at, TypeEdges.into_storage_key, TypeEdges.to_bytes. intros [= Hp]. by destruct k. Qed.
Section pair.
Context (s : WriteSnapshot) (Hok : schema_ok s) (k : EdgeKind) (e : edge) (He : well_typed k e).
(** Two writes of the same kind, one for each key. *)
Lemma write_both (f : skey → WriteSnapshot → outcome WriteSnapshot) (o : option bytes) :
  (∀ x s, snapshot_ok s → 0 ≤ x.1 < 10 → is_bytes x.2 → ∃ s', f x s = Val s' ∧ confined (λ y, y = x) s s' ∧ view x s' = o) →
  ∃ s', (s1 ← f (key k e) s; f (rkey k e) s1) = Val s' ∧ edge_set k e (is_Some o) s s' ∧ confined (pair_of k e) s s'.
Proof.
  intros Hf. assert (Hid : ∀ r, 0 ≤ (key_at r k e).1 < 10) by (intros r; rewrite key_id; unfold SCHEMA; cbn; lia).
  destruct (Hf (key k e) s) as (s1 & -> & Hc1 & Hv1); [by apply sc_snapshot|done|apply key_at_bytes|].
  cbn [mbind exec_bind]. destruct (Hf (rkey k e) s1) as (s2 & -> & Hc2 & Hv2); [apply (cf_ok _ _ _ Hc1)|done|apply key_at_bytes|].
  assert (Hc : confined (pair_of k e) s s2).
  { eapply confined_trans; (eapply confined_weaken; [|done]); intros ? ->; [by left|by right]. }
  assert (Hv : view (key k e) s2 = o).
  { rewrite (confined_view _ _ _ _ Hc2); [done|done|]. apply key_ne. }
  exists s2. split; [done|]. split; [|done]. rewrite <-Hv at 1. apply pair_updated; [done..|]. by rewrite Hv, Hv2.
Qed.
Context (E : TypeEdgeEncoding) (HE : CANONICAL_PREFIX E = canonical_prefix k ∧ REVERSE_PREFIX E = reverse_prefix k).
Lemma canonical_is_key : canonical_key E e = key k e.
Proof. unfold EdgeEncoding.to_canonical_type_edge. by rewrite (proj1 HE). Qed.
Lemma reverse_is_key : reverse_key E e = rkey k e.
Proof. unfold EdgeEncoding.to_reverse_type_edge. by rewrite (proj2 HE). Qed.
Lemma put_edge_spec :
  ∃ s', TypeWriter.storage_put_edge E e s = Val s' ∧ edge_set k e (is_Some (Some ([] : bytes))) s s' ∧ confined (pair_of k e) s s'.
Proof.
  unfold TypeWriter.storage_put_edge, TypeWriter.put. rewrite canonical_is_key, reverse_is_key.
  apply (write_both (λ x, Snap.put_val x [])). intros x s0 Hs0 Hid Hb.
  destruct (put_spec x s0 Hs0 Hid [] Hb) as (s' & Hs' & Hc & Hw). exists s'. by rewrite (written_view _ _ _ Hw).
Qed.
Lemma delete_edge_spec :
  ∃ s', TypeWriter.storage_delete_edge E e s = Val s' ∧ edge_set k e (is_Some (None (A:=bytes))) s s' ∧ confined (pair_of k e) s s'.
Proof.
  unfold TypeWriter.storage_delete_edge. rewrite canonical_is_key, reverse_is_key.
  apply (write_both Snap.delete). intros x s0 Hs0 Hid Hb.
  destruct (delete_spec x s0 Hs0 Hid Hb) as (s' & Hs' & Hc & Hw). exists s'. by rewrite (written_view _ _ _ Hw).
Qed.
(** Undoing the puts of an edge that the transaction had not written before. *)
Lemma unput_edge_spec :
  written (key k e) s = None → written (rkey k e) s = None →
  ∃ s' s'', TypeWriter.storage_put_edge E e s = Val s' ∧ TypeWriter.storage_unput_edge E e s' = Val s'' ∧ edge_set k e (has k e s) s s''.
Proof.
  intros Hw Hrw. unfold TypeWriter.storage_put_edge, TypeWriter.storage_unput_edge, TypeWriter.put, TypeWriter.unput.
  rewrite canonical_is_key, reverse_is_key.
  assert (Hid : ∀ r, 0 ≤ (key_at r k e).1 < 10) by (intros r; rewrite key_id; unfold SCHEMA; cbn; lia).
  assert (Hb : ∀ r, is_bytes (key_at r k e).2) by (intros; apply key_at_bytes).
  destruct (put_spec (key k e) s (sc_snapshot s Hok) (Hid false) [] (Hb false)) as (s1 & -> & Hc1 & Hw1). cbn [mbind exec_bind].
  destruct (put_spec (rkey k e) s1 (cf_ok _ _ _ Hc1) (Hid true) [] (Hb true)) as (s2 & -> & Hc2 & Hw2). cbn [mbind exec_bind].
  assert (Hw12 : written (key k e) s2 = Some (Put [] false false)) by (rewrite (cf_written _ _ _ Hc2); [done|done|apply key_ne]).
  destruct (unput_spec (key k e) s2 (cf_ok _ _ _ Hc2) (Hid false) [] _ _ Hw12) as (s3 & Hs3 & Hc3 & Hw3).
  assert (Hw23 : written (rkey k e) s3 = Some (Put [] false false)) by (rewrite (cf_written _ _ _ Hc3); [done|done|apply not_eq_sym, key_ne]).
  destruct (unput_spec (rkey k e) s3 (cf_ok _ _ _ Hc3) (Hid true) [] _ _ Hw23) as (s4 & Hs4 & Hc4 & Hw4).
  exists s2, s4. split; [done|]. rewrite Hs3. cbn [mbind exec_bind]. split; [done|].
  assert (Hc : confined (pair_of k e) s s4).
  { do 3 (eapply confined_trans; [eapply confined_weaken; [|done]; intros ? ->; (by left) || (by right)|]).
    eapply confined_weaken; [|done]. intros ? ->. by right. }
  assert (Hw34 : written (key k e) s4 = None) by (rewrite (cf_written _ _ _ Hc4); [done|done|apply key_ne]).
  assert (Hv : ∀ r, view (key_at r k e) s4 = view (key_at r k e) s).
  { intros r. rewrite !unwritten_view by (by destruct r). by apply (confined_stored _ _ _ _ Hc). }
  destruct (pair_updated k e s s4 Hok He Hc) as (H1 & H2 & H3); [rewrite !Hv; by apply (sc_step s Hok)|].
  split_and!; [done| |done]. rewrite H2, Hv. unfold has. tauto.
Qed.
End pair.

(** C16: every edge of the schema is stored in both directions, and the writers
    keep it so.  Putting a sub, owns, plays or relates edge returns a schema
    with that edge and otherwise the same edges, in both directions; deleting it
    returns one without it; and undoing the puts, where the transaction had not
    written the edge before, gives back the edges from before the put. *)
Theorem schema_edges_in_step E k e s :
  CANONICAL_PREFIX E = canonical_prefix k ∧ REVERSE_PREFIX E = reverse_prefix k → schema_ok s → well_typed k e →
  (∃ s', TypeWriter.storage_put_edge E e s = Val s' ∧ edge_set k e True s s') ∧
  (∃ s', TypeWriter.storage_delete_edge E e s = Val s' ∧ edge_set k e False s s') ∧
  (written (key k e) s = None → written (rkey k e) s = None →
   ∃ s' s'', TypeWriter.storage_put_edge E e s = Val s' ∧ TypeWriter.storage_unput_edge E e s' = Val s'' ∧
     edge_set k e (has k e s) s s'').
Proof.
  intros HE Hok He. split_and!.
  - destruct (put_edge_spec s Hok k e He E HE) as (s' & Hs' & (H1 & H2 & H3) & _). exists s'. split; [done|]. split_and!; [done| |done].
    rewrite H2. by split; [|intros _; eexists].
  - destruct (delete_edge_spec s Hok k e He E HE) as (s' & Hs' & (H1 & H2 & H3) & _). exists s'. split; [done|]. split_and!; [done| |done].
    rewrite H2. split; [by intros [? [=]]|done].
  - by apply unput_edge_spec.
Qed.

(** ** The hierarchy *)
Section supertype.
Context `{ChronoZoned} `{AnnotationBincode} `{Bincode Ordering} `{HashIteration} `{SetIteration}.
Context (s : WriteSnapshot) (fuel : nat) (Hok : schema_ok s) (Hh : hierarchy_ok s) (Hfit : fits fuel SCHEMA s).
Context (K : Kind) (a b : Z) (Ha : in_type (type_of_kind K) a) (Hb : in_type (type_of_kind K) b).
Abbreviation T := (type_of_kind K).
(** Subtyping after [a] was given the supertype [b]. *)
Definition replaced (x y : Z) : Prop := (x = a ∧ y = b) ∨ (x ≠ a ∧ sub s x y).
Lemma replaced_above x : ¬ rtc (sub s) b a → rtc replaced b x → rtc (sub s) b x.
Proof.
  intros Hn. revert x. apply rtc_ind_r; [done|]. intros y z _ [[-> ->]|[_ Hs]] IH; [done|]. by eapply rtc_r.
Qed.
(** A path after the change is one from before, or it passes from [a] to [b]. *)
Lemma replaced_path x y : tc replaced x y → tc (sub s) x y ∨ (rtc replaced x a ∧ rtc replaced b y).
Proof.
  intros Ht. induction Ht as [x y [[-> ->]|[_ Hs]]|x y z [[-> ->]|[Hne Hs]] Ht IH].
  - by right.
  - left. by apply tc_once.
  - right. split; [done|by apply tc_rtc].
  - destruct IH as [IH|[IH1 IH2]]; [left; by eapply tc_l|right]. split; [|done]. eapply rtc_l; [|done]. by right.
Qed.
Lemma replaced_acyclic x : ¬ rtc (sub s) b a → ¬ tc replaced x x.
Proof.
  intros Hn [Ht|[Hq1 Hq2]]%replaced_path; [by apply (h_acyclic s Hh x)|]. apply Hn, replaced_above; [done|]. by etrans.
Qed.
Lemma cycle_checked :
  (rtc (sub s) b a → Validation.validate_sub_does_not_create_cycle fuel K a b s ≠ Val tt) ∧
  (¬ rtc (sub s) b a → Validation.validate_sub_does_not_create_cycle fuel K a b s = Val tt).
Proof.
  unfold Validation.validate_sub_does_not_create_cycle.
  destruct (supertypes_spec s fuel Hok Hh Hfit T (kind_closed K) b Hb) as (l & -> & _ & Hl). cbn [map_err mbind exec_bind].
  assert (Hc : (b = a ∨ a ∈ l) ↔ rtc (sub s) b a).
  { rewrite Hl. split; [intros [->|?]; [done|by apply tc_rtc]|]. intros [?|?]%rtc_tc; auto. }
  destruct (decide (b = a ∨ a ∈ l)) as [Hd|Hd]; rewrite Hc in Hd; [|done]. split; [|done]. intros _.
  destruct (Validation.get_label_or_schema_err a s); [|done..]. cbn. by destruct (Validation.get_label_or_schema_err b s).
Qed.
(** The keys of sub edges. *)
Definition sub_key (x : skey) : Prop := ∃ e, pair_of SubEdge e x.
(** Dropping the supertype of [a]. *)
Lemma may_delete_spec :
  ∃ s1, TypeWriter.storage_may_delete_supertype fuel T a s = Val s1 ∧ schema_ok s1 ∧
    (∀ k e, has k e s1 ↔ has k e s ∧ ¬ (k = SubEdge ∧ e.1 = a)) ∧ confined sub_key s s1.
Proof.
  unfold TypeWriter.storage_may_delete_supertype.
  destruct (get_supertype_spec s fuel Hok Hh Hfit T (kind_closed K) a Ha) as ([c|] & -> & Hc); cbn [mbind exec_bind].
  - assert (Hs : sub s a c) by (by apply Hc).
    destruct (delete_edge_spec s Hok SubEdge (a, c) (proj1 Hs) (Sub T) (conj eq_refl eq_refl)) as (s1 & Hs1 & (Hq1 & Hq2 & Hq3) & Hcf).
    unfold TypeWriter.storage_delete_edge in Hs1.
    destruct (Snap.delete (canonical_key (Sub T) (a, c)) s) as [s0|[]|]; [|done]. cbn [mbind exec_bind lift] in *.
    rewrite Hs1. exists s1. split; [done|]. split; [done|].
    split; [|eapply confined_weaken; [|done]; intros x Hx; by exists (a, c)]. intros k [x y]. destruct (decide ((k, (x, y)) = (SubEdge, (a, c)))) as [[= -> -> ->]|Hne].
    + rewrite Hq2. cbn. split; [by intros [? [=]]|]. by intros [_ []].
    + rewrite Hq3 by done. cbn. split; [|by intros []]. intros Hxy. split; [done|]. intros [-> ->].
      apply Hne. by rewrite (h_single s Hh a y c Hxy Hs).
  - exists s. split; [done|]. split; [done|]. split; [|apply confined_refl; by apply sc_snapshot]. intros k [x y]. cbn. split; [|by intros []]. intros Hxy. split; [done|]. intros [-> ->].
    by apply Hc in Hxy.
Qed.
Lemma set_supertype_spec s1 :
  schema_ok s1 → (∀ k e, has k e s1 ↔ has k e s ∧ ¬ (k = SubEdge ∧ e.1 = a)) → ¬ rtc (sub s) b a →
  ∃ s2, TypeWriter.storage_put_supertype T a b s1 = Val s2 ∧ schema_ok s2 ∧ hierarchy_ok s2 ∧
    (∀ x y, sub s2 x y ↔ replaced x y) ∧ (∀ k e, k ≠ SubEdge → has k e s2 ↔ has k e s) ∧ confined sub_key s1 s2.
Proof.
  intros Hok1 Hs1 Hn.
  assert (Hw : well_typed SubEdge (a, b)) by (by exists K).
  destruct (put_edge_spec s1 Hok1 SubEdge (a, b) Hw (Sub T) (conj eq_refl eq_refl)) as (s2 & Hs2 & (Hq1 & Hq2 & Hq3) & Hcf).
  assert (Hsub : ∀ x y, sub s2 x y ↔ replaced x y).
  { intros x y. unfold sub, replaced. destruct (decide ((x, y) = (a, b))) as [[= -> ->]|Hne].
    - rewrite Hq2. split; [by left|]. intros _. by eexists.
    - rewrite Hq3 by congruence. rewrite Hs1. cbn. split; [intros [? Hx]; right; split; [intros ->; by apply Hx|done]|].
      intros [[-> ->]|[Hx ?]]; [done|]. split; [done|]. by intros [_ ->]. }
  exists s2. split; [exact Hs2|]. split; [done|]. split; [|split; [done|split]].
  - split.
    + intros x y z. rewrite !Hsub. intros [[-> ->]|[Hx Hxy]] [[? ->]|[Hx' Hxz]]; [done|done|done|]. by apply (h_single s Hh x).
    + intros x Ht. apply (replaced_acyclic x Hn). revert Ht. apply (tc_congruence (λ x, x)). intros ??. apply Hsub.
  - intros k e Hk. rewrite Hq3 by congruence. rewrite Hs1. tauto.
  - eapply confined_weaken; [|done]. intros x Hx. by exists (a, b).
Qed.
End supertype.

(** C14: subtyping stays a forest.  On a schema whose subtyping is one,
    [set_supertype] is refused if the new supertype is the type itself or one of
    its subtypes; whenever it returns a snapshot, subtyping is a forest again in
    which the type has exactly the new supertype, every other type the one it
    had, and no capability has changed; and it does return one if the supertype
    makes no cycle and the other validations accept it. *)
Theorem hierarchy_stays_a_forest `{ChronoZoned} `{AnnotationBincode} `{Bincode Ordering} `{HashIteration} `{SetIteration} fuel K a b s :
  schema_ok s → hierarchy_ok s → fits fuel SCHEMA s → in_type (type_of_kind K) a → in_type (type_of_kind K) b →
  (rtc (sub s) b a → ∀ s', TypeManagerOps.set_supertype fuel K a b s ≠ Val s') ∧
  (∀ s', TypeManagerOps.set_supertype fuel K a b s = Val s' → schema_ok s' ∧ hierarchy_ok s' ∧
     (∀ x y, sub s' x y ↔ (x = a ∧ y = b) ∨ (x ≠ a ∧ sub s x y)) ∧ ∀ k e, k ≠ SubEdge → has k e s' ↔ has k e s) ∧
  (¬ rtc (sub s) b a → Validation.validate_type_supertype_abstractness_to_change_supertype fuel K a b s = Val tt →
   Validation.validate_type_declared_constraints_narrowing_of_supertype_constraints fuel K a b s = Val tt → returns (TypeManagerOps.set_supertype fuel K a b s)).
Proof.
  intros Hok Hh Hfit Ha Hb. unfold TypeManagerOps.set_supertype, TypeManagerOps.unset_supertype.
  destruct (cycle_checked s fuel Hok Hh Hfit K a b Hb) as [Hcy Hncy].
  destruct (may_delete_spec s fuel Hok Hh Hfit K a Ha) as (s1 & -> & Hok1 & Hhas & _). cbn [map_err mbind exec_bind].
  pose proof (set_supertype_spec s Hh K a b Ha Hb s1 Hok1 Hhas) as Hset.
  destruct (Validation.validate_sub_does_not_create_cycle fuel K a b s) as [[]| |]; cbn [map_err mbind exec_bind].
  2,3: split; [done|]; split; [done|]; intros Hn; by specialize (Hncy Hn).
  assert (Hn : ¬ rtc (sub s) b a) by (intros Hr; by apply Hcy). destruct (Hset Hn) as (s2 & -> & Hq1 & Hq2 & Hq3 & Hq4 & _).
  split_and!; [done| |].
  - intros s'. destruct (Validation.validate_type_supertype_abstractness_to_change_supertype fuel K a b s); [|done..].
    destruct (Validation.validate_type_declared_constraints_narrowing_of_supertype_constraints fuel K a b s); [|done..]. by intros [= <-].
  - intros _ -> ->. cbn. by eexists.
Qed.

(** ** An example *)
Module SchemaExample.
Definition person : Z := TypeVertex.new (Prefixes.prefix_id VertexEntityType) 0.
Definition customer : Z := TypeVertex.new (Prefixes.prefix_id VertexEntityType) 1.
Definition email : Z := TypeVertex.new (Prefixes.prefix_id VertexAttributeType) 0.
Definition or_empty (r : outcome WriteSnapshot) : WriteSnapshot := match r with Val s => s | _ => empty_snapshot end.
(** [entity person owns email; entity customer sub person;] *)
Definition with_owns : WriteSnapshot := or_empty (TypeWriter.storage_put_edge Owns (person, email) empty_snapshot).
Definition schema : WriteSnapshot := or_empty (TypeWriter.storage_put_edge (Sub EntityType) (customer, person) with_owns).

Lemma person_ok : in_type EntityType person.
Proof. split; [exists VertexEntityType, 0; split; [unfold is_u16; lia|done]|done]. Qed.
Lemma customer_ok : in_type EntityType customer.
Proof. split; [exists VertexEntityType, 1; split; [unfold is_u16; lia|done]|done]. Qed.
Lemma email_ok : in_type AttributeType email.
Proof. split; [exists VertexAttributeType, 0; split; [unfold is_u16; lia|done]|done]. Qed.
Lemma owns_ok : well_typed OwnsEdge (person, email).
Proof. split; [apply in_object; left; apply person_ok|apply email_ok]. Qed.
Lemma sub_ok : well_typed SubEdge (customer, person).
Proof. exists KEntity. split; [apply customer_ok|apply person_ok]. Qed.
Lemma empty_schema_ok : schema_ok empty_snapshot.
Proof.
  split; [apply (t_snapshot _ empty_things_ok)|apply empty_open| |].
  - intros bs Hk. exfalso. by apply (empty_unknown bs SCHEMA).
  - intros k e _. split; intros [v Hv%view_known]; exfalso; by apply (empty_unknown _ _) in Hv.
Qed.
Lemma empty_has k e : ¬ has k e empty_snapshot.
Proof. intros [_ [v Hv%view_known]]. by apply (empty_unknown _ _) in Hv. Qed.
Lemma with_owns_set : edge_set OwnsEdge (person, email) True empty_snapshot with_owns.
Proof.
  destruct (put_edge_spec empty_snapshot empty_schema_ok OwnsEdge _ owns_ok Owns (conj eq_refl eq_refl)) as (s & Hs & (H1 & H2 & H3) & _).
  unfold with_owns. rewrite Hs. cbn [or_empty]. split_and!; [done| |done]. rewrite H2. by split; [|intros _; eexists].
Qed.
Lemma schema_set : edge_set SubEdge (customer, person) True with_owns schema.
Proof.
  destruct (put_edge_spec with_owns (proj1 with_owns_set) SubEdge _ sub_ok (Sub EntityType) (conj eq_refl eq_refl)) as (s & Hs & (H1 & H2 & H3) & _).
  unfold schema. rewrite Hs. cbn [or_empty]. split_and!; [done| |done]. rewrite H2. by split; [|intros _; eexists].
Qed.
Lemma example_schema_ok : schema_ok schema.
Proof. apply schema_set. Qed.
Lemma schema_has k e : has k e schema ↔ (k, e) = (SubEdge, (customer, person)) ∨ (k, e) = (OwnsEdge, (person, email)).
Proof.
  destruct schema_set as (_ & H1 & H2). destruct with_owns_set as (_ & H3 & H4). destruct (decide ((k, e) = (SubEdge, (customer, person)))) as [[= -> ->]|Hne].
  - rewrite H1. naive_solver.
  - rewrite H2 by done. destruct (decide ((k, e) = (OwnsEdge, (person, email)))) as [[= -> ->]|Hne']; [rewrite H3; naive_solver|].
    rewrite H4 by done. split; [by intros ?%empty_has|]. by intros [?|?].
Qed.
Lemma schema_sub a b : sub schema a b ↔ a = customer ∧ b = person.
Proof. unfold sub. rewrite schema_has. naive_solver. Qed.
Lemma example_hierarchy_ok : hierarchy_ok schema.
Proof.
  split.
  - intros a b c [-> ->]%schema_sub [_ ->]%schema_sub. done.
  - intros a Ht. assert (∀ x y, tc (sub schema) x y → x = customer ∧ y = person) as Hg.
    { intros x y Hxy. induction Hxy as [x y Hs|x y z Hs _ [? ?]]; [by apply schema_sub in Hs|]. apply schema_sub in Hs as [_ Hs]. by subst. }
    apply Hg in Ht as [-> ?]. done.
Qed.
(** Nothing but the two edges was written. *)
Lemma schema_elsewhere x : 0 ≤ x.1 < 10 → (∀ reverse k e, x ≠ key_at reverse k e) → view x schema = None.
Proof.
  intros Hid Hx. assert (Hp : ∀ k e, ¬ pair_of k e x) by (intros k e [?|?]; by eapply Hx).
  destruct (put_edge_spec empty_snapshot empty_schema_ok OwnsEdge _ owns_ok Owns (conj eq_refl eq_refl)) as (s1 & Hs1 & _ & Hc1).
  destruct (put_edge_spec with_owns (proj1 with_owns_set) SubEdge _ sub_ok (Sub EntityType) (conj eq_refl eq_refl)) as (s2 & Hs2 & _ & Hc2).
  unfold schema. rewrite Hs2. cbn [or_empty]. rewrite (confined_view _ _ _ _ Hc2) by (done || lia).
  unfold with_owns. rewrite Hs1. cbn [or_empty]. rewrite (confined_view _ _ _ _ Hc1) by (done || lia).
  destruct (view x empty_snapshot) as [v|] eqn:Hv; [|done]. apply view_known in Hv. destruct x as [id bs]. by apply (empty_unknown bs id) in Hv; [|cbn in Hid; lia].
Qed.
Lemma example_fuel : entries SCHEMA schema = 4%nat.
Proof. vm_compute. reflexivity. Qed.
(** Hash sets that are iterated in the order of their elements. *)
#[export] Instance element_order : HashIteration := {|
  iter_types := elements; iter_edges := elements; iter_types_elements s := reflexivity _; iter_edges_elements s := reflexivity _ |}.
#[export] Instance insertion_order : SetIteration := {| iter_set A l := l; iter_set_elements A l := reflexivity l |}.
(** An encoding of whatever is countable, one number for each value. *)
Definition countable_bincode A `{Countable A} : Bincode A := {|
  serialize x := [Z.pos (countable.encode x)];
  deserialize bs := match bs with [Z.pos p] => unwrap (countable.decode p) | _ => Panic end |}.
#[export] Instance ordering_bincode : Bincode Ordering := {|
  serialize o := [match o with Unordered => 0 | TypeEdges.Ordered => 1 end];
  deserialize bs := match bs with [0] => Val Unordered | [1] => Val TypeEdges.Ordered | _ => Panic end |}.
#[export] Instance annotation_bincode : AnnotationBincode := {|
  bincode_cardinality := {|
    serialize c := card_start c :: match card_end c with Some e => [e] | None => [] end;
    deserialize bs := match bs with [a] => Val (mk_AnnotationCardinality a None) | [a; b] => Val (mk_AnnotationCardinality a (Some b)) | _ => Panic end |};
  bincode_range := countable_bincode _;
  bincode_values := countable_bincode _ |}.
#[export] Instance annotation_bincode_laws : AnnotationBincodeLaws.
Proof.
  split.
  - intros [a [b|]]; reflexivity.
  - intros r. cbn. by rewrite decode_encode.
  - intros v. cbn. by rewrite decode_encode.
Qed.
End SchemaExample.
Import SchemaExample.

Lemma schema_edges_in_step_witness :
  ∃ s', TypeWriter.storage_delete_edge Owns (person, email) schema = Val s' ∧ edge_set OwnsEdge (person, email) False schema s'.
Proof.
  destruct (schema_edges_in_step Owns OwnsEdge (person, email) schema (conj eq_refl eq_refl) example_schema_ok owns_ok) as (_ & H & _). exact H.
Defined.
Lemma hierarchy_stays_a_forest_witness :
  (∀ s', TypeManagerOps.set_supertype 6 KEntity person customer schema ≠ Val s') ∧
  (∀ s', TypeManagerOps.set_supertype 6 KEntity customer person schema = Val s' → hierarchy_ok s').
Proof.
  assert (Hf : fits 6 SCHEMA schema) by (unfold fits; rewrite example_fuel; lia). split.
  - apply (hierarchy_stays_a_forest 6 KEntity person customer schema example_schema_ok example_hierarchy_ok Hf person_ok customer_ok).
    apply rtc_once, schema_sub. split; reflexivity.
  - intros s' Hs'.
    destruct (hierarchy_stays_a_forest 6 KEntity customer person schema example_schema_ok example_hierarchy_ok Hf customer_ok person_ok) as (_ & H & _).
    exact (proj1 (proj2 (H s' Hs'))).
Defined.

(** C15: a type has the capabilities that it declares or inherits.  For owns,
    plays and relates: the capabilities of a type are, for each interface, the
    declaration at the type or at its nearest supertype that has one; with the
    specialised ones they are all declarations at the type and its supertypes;
    and the types listed for an interface, each with its declaration, are
    exactly those that inherit it, in whatever order the hash sets are
    iterated. *)
Theorem inherited_capabilities `{HashIteration} fuel CAP k o i s :
  encodes CAP k → schema_ok s → hierarchy_ok s → (S (entries SCHEMA s) < fuel)%nat → in_type (From CAP) o → is_vertex i →
  (∃ X, TypeReader.get_capabilities fuel CAP o false s = Val X ∧ ∀ e, e ∈ X ↔ inherits k s o e) ∧
  (∃ X, TypeReader.get_capabilities fuel CAP o true s = Val X ∧ ∀ e, e ∈ X ↔ has k e s ∧ rtc (sub s) o e.1) ∧
  (∃ m, TypeReader.get_object_types_with_capabilities_for_interface fuel CAP i s = Val m ∧
     ∀ t e, m !! t = Some e ↔ inherits k s t e ∧ e.2 = i).
Proof.
  intros Hk Hok Hh Hf Ho Hi. split_and!.
  - exact (capabilities_spec s fuel Hok Hh Hf CAP k Hk false o Ho).
  - exact (capabilities_spec s fuel Hok Hh Hf CAP k Hk true o Ho).
  - exact (interface_spec s fuel Hok Hh Hf CAP k Hk i Hi).
Qed.
Lemma inherited_capabilities_witness :
  ∃ X, TypeReader.get_capabilities 6 Owns customer false schema = Val X ∧ (person, email) ∈ X.
Proof.
  destruct (inherited_capabilities 6 Owns OwnsEdge customer email schema owns_encodes example_schema_ok example_hierarchy_ok) as ((X & HX & Hin) & _).
  - rewrite example_fuel. lia.
  - apply in_object. left. apply customer_ok.
  - apply email_ok.
  - exists X. split; [exact HX|]. apply Hin. split; [apply schema_has; right; reflexivity|]. split; [apply rtc_once, schema_sub; split; reflexivity|].
    intros o' _ Habove Hhas. apply schema_has in Hhas as [[=]|[= ->]]. exact (h_acyclic schema example_hierarchy_ok person Habove).
Defined.
