(* ===== verification/AnnotationClaims.v ===== *)
(** * Annotations, constraints and their validation: the theorems

    An annotation accepted for a type is stored, read back and inherited as a
    constraint; abstract types have abstract supertypes; a range that is set
    narrows the ranges above it and is narrowed by those below; and what the
    validation at commit accepts narrows throughout the schema. *)
From stdpp Require Import strings gmap relations.
From S2P Require Import Prelude BTree Bytes MemoryStore Buffer LendingIter Mvcc Keyspaces Snapshot Dependency Timeline Isolation Storage Views Windows Layout Values Structs Attributes Things Edges ThingManager ThingGraph Pattern TypeEdges Annotations TypeReader SchemaGraph Constraints Validation TypeIds SchemaClaims.
Import KeyRangeOps TypeAnnotations Validation TypeManagerOps.
#[local] Open Scope Z_scope.

(** ** Checks *)
Lemma try_for_each_spec {A E} (f : A → exec E unit) l : try_for_each f l = Val tt ↔ ∀ x, x ∈ l → f x = Val tt.
Proof.
  induction l as [|x l IH]; cbn.
  - split; [by intros _ ? ?%not_elem_of_nil|done].
  - setoid_rewrite elem_of_cons. destruct (f x) as [[]| |] eqn:Hf; cbn; [rewrite IH; naive_solver| |]; split; (done || (intros Hx; rewrite (Hx x) in Hf; [done|by left])).
Qed.
Section checks.
Context `{ChronoZoned}.
Lemma map_err_Val {E E' A} (f : E → E') (m : exec E A) a : map_err f m = Val a ↔ m = Val a.
Proof. destruct m; cbn; (split; [by intros [= <-]|by intros [= <-]]) || done. Qed.
Lemma or_narrowing_spec sub super s m : or_narrowing_err sub super s m = Val tt ↔ m = Val tt.
Proof.
  destruct m as [[]|e|]; [done| |done]. cbn. destruct (get_label_or_schema_err sub s) as [l| |]; [|done..]. cbn.
  by destruct (get_label_or_schema_err super s).
Qed.
Lemma narrowed_by_strictly_spec d o : validate_narrowed_by_strictly_same_type d o = Val tt ↔ narrowed_correctly_by d o false = Val true.
Proof. unfold validate_narrowed_by_strictly_same_type, narrowed_by_strictly_same_type, check_bool. by destruct (narrowed_correctly_by d o false) as [[]|[]|]. Qed.
Lemma narrows_strictly_spec d o : validate_narrows_strictly_same_type d o = Val tt ↔ narrowed_correctly_by o d false = Val true.
Proof. unfold validate_narrows_strictly_same_type, narrowed_by_strictly_same_type, check_bool. by destruct (narrowed_correctly_by o d false) as [[]|[]|]. Qed.
Lemma narrowed_by_any_spec d o : validate_narrowed_by_any_type d o = Val tt ↔ narrowed_correctly_by d o true = Val true.
Proof. unfold validate_narrowed_by_any_type, narrowed_by_any_type, check_bool. by destruct (narrowed_correctly_by d o true) as [[]|[]|]. Qed.
End checks.

(** ** What the readers of constraints return *)
Section readers.
Context `{ChronoZoned} `{AnnotationBincode} `{Bincode Ordering} `{HashIteration} `{SetIteration}.
Context (s : WriteSnapshot) (fuel : nat) (Hok : annotations_ok s) (Hh : hierarchy_ok s) (Hfuel : (S (entries SCHEMA s) < fuel)%nat).
Lemma annotations_fit : fits fuel SCHEMA s.
Proof. unfold fits. lia. Qed.
Lemma by_category_elem {S} c (l : list (Constraint S)) x : x ∈ by_category c l ↔ x ∈ l ∧ constraint_category (description x) = c.
Proof. unfold by_category. by rewrite !list_elem_of_In, filter_In, bool_decide_eq_true. Qed.
Lemma rtc_in_type K t y : in_type (type_of_kind K) t → rtc (sub s) t y → in_type (type_of_kind K) y.
Proof. intros Ht [<-|Hr]%rtc_tc; [done|]. by apply (tc_in_type s _ (kind_closed K) t y Hr). Qed.
(** The annotation of a type that a constraint comes from. *)
Definition annotation_of (d : ConstraintDescription) : option Annotation :=
  match d with
  | DAbstract => Some AnnAbstract | DIndependent => Some AnnIndependent
  | DRegex r => Some (AnnRegex r) | DRange r => Some (AnnRange r) | DValues v => Some (AnnValues v)
  | DDistinct | DUnique | DCardinality _ => None
  end.
Lemma from_annotation_of K a d : supported (OnType K) (Annotations.category a) = true → d ∈ from_annotation a ↔ annotation_of d = Some a.
Proof.
  intros Hs. destruct a; try (by destruct K); cbn; rewrite ?list_elem_of_singleton; destruct d; cbn; try naive_solver;
    split; (discriminate || (intros Hin; by apply not_elem_of_nil in Hin)).
Qed.
(** The constraints of a type, and those of one category. *)
Definition constraint_at (t : Z) (c : Constraint Z) : Prop :=
  rtc (sub s) t (source c) ∧ (∃ a, annotation_of (description c) = Some a ∧ declared (source c) a s) ∧ kept t c.
Lemma constraints_spec K t :
  in_type (type_of_kind K) t → ∃ l, get_type_constraints fuel K t s = Val l ∧ ∀ c, c ∈ l ↔ constraint_at t c.
Proof.
  intros Ht. destruct (type_constraints_spec s fuel Hok Hh Hfuel K t Ht) as (l & Hl & Hin). exists l. split; [done|].
  intros c. rewrite Hin. unfold constraint_at, constrains. split.
  - intros [Hr (a & Ha & Hd & Hk)]. split_and!; [done| |done]. exists a. split; [|done]. apply (from_annotation_of K); [|done].
    apply (declared_supported s Hok K (source c)); [|done]. by apply (rtc_in_type K t).
  - intros (Hr & (a & Hd & Ha) & Hk). split; [done|]. exists a. split_and!; [done| |done]. apply (from_annotation_of K); [|done].
    apply (declared_supported s Hok K (source c)); [|done]. by apply (rtc_in_type K t).
Qed.
Lemma is_abstract_spec K t :
  K ≠ KRole → in_type (type_of_kind K) t → ∃ b, is_abstract fuel K t s = Val b ∧ (b = true ↔ declared t AnnAbstract s).
Proof.
  intros HK Ht. destruct (constraints_spec K t Ht) as (l & Hl & Hin).
  assert (Hab : ∀ c, c ∈ by_category KAbstract (iter_set l) ↔ c = mk_Constraint DAbstract t ∧ declared t AnnAbstract s).
  { intros [d y]. rewrite by_category_elem, iter_set_elements, Hin. unfold constraint_at, kept. cbn [description source]. split.
    - intros [(Hr & (a & Ha & Hd) & Hk) Hc]. destruct d; try done. rewrite (Hk eq_refl) in *. by injection Ha as <-.
    - intros [[= -> ->] Hd]. split; [|done]. split_and!; [done| |done]. by exists AnnAbstract. }
  exists (match get_abstract_constraint l with Some _ => true | None => false end). split.
  - destruct K; try done; unfold is_abstract; by rewrite Hl.
  - unfold get_abstract_constraint. destruct (by_category KAbstract (iter_set l)) as [|c cs] eqn:He; cbn.
    + split; [done|]. intros Hd. assert (mk_Constraint DAbstract t ∈ ([] : list (Constraint Z))) as Hn by (by apply Hab). by apply not_elem_of_nil in Hn.
    + split; [|done]. intros _. apply (Hab c). by left.
Qed.
Section category.
Context (c : ConstraintCategory) {X : Type} (describe : X → ConstraintDescription) (annotate : X → Annotation).
Context (Hc : ∀ d a, constraint_category d = c → annotation_of d = Some a → ∃ x, d = describe x ∧ a = annotate x).
Context (Hx : ∀ x, constraint_category (describe x) = c ∧ annotation_of (describe x) = Some (annotate x) ∧ describe x ≠ DAbstract).
Lemma category_spec t :
  in_type AttributeType t → ∃ l, (l ← get_type_constraints fuel KAttribute t s; Val (by_category c (l : list (Constraint Z)))) = Val l ∧
    ∀ k, k ∈ l ↔ ∃ x y, k = mk_Constraint (describe x) y ∧ rtc (sub s) t y ∧ declared y (annotate x) s.
Proof.
  intros Ht. destruct (constraints_spec KAttribute t Ht) as (l & -> & Hin). cbn [mbind exec_bind]. eexists. split; [done|].
  intros [d y]. rewrite by_category_elem, Hin. unfold constraint_at, kept. cbn [description source]. split.
  - intros [(Hr & (a & Ha & Hd) & Hk) Hcat]. destruct (Hc d a Hcat Ha) as (x & -> & ->). by exists x, y.
  - intros (x & y' & [= -> ->] & Hr & Hd). destruct (Hx x) as (H1' & H2' & H3'). split; [|done]. split_and!; [done| |done]. by exists (annotate x).
Qed.
End category.
Lemma range_spec t :
  in_type AttributeType t → ∃ l, get_constraints_range fuel t s = Val l ∧
    ∀ k, k ∈ l ↔ ∃ r y, k = mk_Constraint (DRange r) y ∧ rtc (sub s) t y ∧ declared y (AnnRange r) s.
Proof. apply (category_spec KRange DRange AnnRange); [|done]. intros [] a; try done. intros _ [= <-]. by eexists. Qed.
Lemma values_spec t :
  in_type AttributeType t → ∃ l, get_constraints_values fuel t s = Val l ∧
    ∀ k, k ∈ l ↔ ∃ r y, k = mk_Constraint (DValues r) y ∧ rtc (sub s) t y ∧ declared y (AnnValues r) s.
Proof. apply (category_spec KValues DValues AnnValues); [|done]. intros [] a; try done. intros _ [= <-]. by eexists. Qed.
Lemma regex_spec t :
  in_type AttributeType t → ∃ l, get_constraints_regex fuel t s = Val l ∧
    ∀ k, k ∈ l ↔ ∃ r y, k = mk_Constraint (DRegex r) y ∧ rtc (sub s) t y ∧ declared y (AnnRegex r) s.
Proof. apply (category_spec KRegex DRegex AnnRegex); [|done]. intros [] a; try done. intros _ [= <-]. by eexists. Qed.
End readers.

(** ** Edges leave annotations alone *)
Section edges.
Context `{ChronoZoned} `{AnnotationBincode}.
Definition is_edge_key (x : skey) : Prop := ∃ reverse k e, x = key_at reverse k e.
Context (s s' : WriteSnapshot) (Hok : annotations_ok s) (Hok' : schema_ok s') (Hc : confined is_edge_key s s').
Lemma property_view v infix : view (SCHEMA, annotation_key v infix) s' = view (SCHEMA, annotation_key v infix) s.
Proof. apply (confined_view _ _ _ _ Hc); [cbn; lia|]. intros (r & k & e & He). by destruct (edge_not_property v infix r k e). Qed.
Lemma edges_keep_annotations : annotations_ok s' ∧ ∀ v a, declared v a s' ↔ declared v a s.
Proof.
  split; [|intros v a; unfold declared, annotation_storage_key; change SCHEMA_ID with SCHEMA; by setoid_rewrite property_view]. split; [done| |].
  - intros k Hkn rest Hr. apply (an_keys s Hok k) with rest; [|done]. apply (known_confined _ _ _ _ Hc); [done| |done].
    intros (r & kk & e & He). apply (f_equal snd) in He. cbn [snd] in He. rewrite Hr in He. apply (f_equal head) in He. cbn in He.
    by destruct r, kk.
  - intros K v infix value Hv Hi. rewrite property_view. by apply (an_decode s Hok).
Qed.
End edges.

(** C21: the annotations of a type are of its kind and read back. Where the
    properties in the schema are annotations that their types may have, setting
    an annotation that the type's kind supports and that can be stored stores
    it. What can be stored: a @doc has a non-empty UTF-8 description (without
    one the code panics, lemma [doc_without_description_panics]), a @regex is
    UTF-8, a @range has a bound and its bounds are in-range values of one type
    that is no duration or struct, @values is not empty and of one type that is
    no struct. Reading the type's annotations then returns it, in place of the
    one of its category, together with the type's other annotations; unsetting
    a category returns a schema without it. Either way the annotations of every
    other type and the edges of the schema are what they were, and all
    annotations again decode to ones their type may have. *)
Theorem type_annotations_read_back `{ChronoLaws} `{AnnotationBincodeLaws} `{SetIteration} K v a s :
  annotations_ok s → in_type (type_of_kind K) v → try_from (OnType K) a = Val a → storable a →
  (∃ s', set_type_annotation K v a s = Val s' ∧ annotations_ok s' ∧ (∀ k e, has k e s' ↔ has k e s) ∧
     (∀ w b, is_vertex w → w ≠ v → declared w b s' ↔ declared w b s) ∧
     ∀ fuel, fits fuel SCHEMA s' → ∃ l, get_type_annotations_declared fuel K v s' = Val l ∧
       ∀ b, b ∈ l ↔ b = a ∨ (Annotations.category b ≠ Annotations.category a ∧ declared v b s)) ∧
  (∀ fuel, fits fuel SCHEMA s → ∃ s', unset_type_annotation fuel K v (Annotations.category a) s = Val s' ∧ annotations_ok s' ∧
     (∀ k e, has k e s' ↔ has k e s) ∧ (∀ w b, is_vertex w → w ≠ v → declared w b s' ↔ declared w b s) ∧
     ∀ b, declared v b s' ↔ Annotations.category b ≠ Annotations.category a ∧ declared v b s).
Proof.
  intros Hok Hv Ht Hst. assert (Hsup : supported (OnType K) (Annotations.category a) = true) by (unfold try_from in Ht; by destruct (supported _ _)).
  split.
  - destruct (set_annotation_spec s Hok K v Hv a Hsup Hst) as (s' & Hs' & Hok' & Hnow & Helse & Hhas). exists s'. split_and!; [done..|auto|].
    intros fuel Hf. destruct (annotations_declared_spec s' fuel Hok' Hf K v Hv) as (l & Hl & _ & Hin). exists l. split; [done|]. intros b. rewrite Hin.
    destruct (decide (Annotations.category b = Annotations.category a)) as [Hc|Hc]; [rewrite (Hnow b Hc); naive_solver|].
    rewrite (Helse v b) by (apply Hv || by right). split; [by right|]. intros [->|[_ ?]]; done.
  - intros fuel Hf. destruct (unset_annotation_spec s fuel Hok K v Hv _ Hf Hsup) as (s' & Hs' & Hok' & Hnow & Helse & Hhas).
    exists s'. split_and!; [done..|auto|]. intros b. destruct (decide (Annotations.category b = Annotations.category a)) as [Hc|Hc].
    + rewrite (Hnow b Hc). naive_solver.
    + rewrite (Helse v b) by (apply Hv || by right). naive_solver.
Qed.

(** C20: a type has the constraints of its annotations and of those of its
    supertypes.  The constraints read for a type are exactly those of the
    annotations declared at the type or at a type above it, each with the type
    it was declared at as its source, but a type is abstract only by its own
    annotation; the ranges and the value sets of an attribute type are those of
    its own annotations and of those above.  This holds whatever order the hash
    sets are iterated in. *)
Theorem constraints_are_inherited `{ChronoZoned} `{AnnotationBincode} `{Bincode Ordering} `{HashIteration} `{SetIteration} fuel K t s :
  annotations_ok s → hierarchy_ok s → (S (entries SCHEMA s) < fuel)%nat → in_type (type_of_kind K) t →
  (∃ l, get_type_constraints fuel K t s = Val l ∧
     ∀ d y, mk_Constraint d y ∈ l ↔
       rtc (sub s) t y ∧ (∃ a, annotation_of d = Some a ∧ declared y a s) ∧ (d = DAbstract → y = t)) ∧
  (K ≠ KRole → ∃ b, is_abstract fuel K t s = Val b ∧ (b = true ↔ declared t AnnAbstract s)) ∧
  (K = KAttribute → ∃ ranges values, get_constraints_range fuel t s = Val ranges ∧ get_constraints_values fuel t s = Val values ∧
     (∀ k, k ∈ ranges ↔ ∃ r y, k = mk_Constraint (DRange r) y ∧ rtc (sub s) t y ∧ declared y (AnnRange r) s) ∧
     ∀ k, k ∈ values ↔ ∃ v y, k = mk_Constraint (DValues v) y ∧ rtc (sub s) t y ∧ declared y (AnnValues v) s).
Proof.
  intros Hok Hh Hf Ht. split_and!.
  - destruct (constraints_spec s fuel Hok Hh Hf K t Ht) as (l & Hl & Hin). exists l. split; [done|]. intros d y. apply Hin.
  - intros HK. by apply is_abstract_spec.
  - intros ->. destruct (range_spec s fuel Hok Hh Hf t Ht) as (l & Hl & Hin). destruct (values_spec s fuel Hok Hh Hf t Ht) as (l' & Hl' & Hin'). by exists l, l'.
Qed.

(** A [@doc] without a description cannot be set. *)
Lemma doc_without_description_panics `{ChronoZoned} `{AnnotationBincode} K t s : set_annotation_doc K t (mk_AnnotationDoc None) s = Panic.
Proof. done. Qed.

(** ** Abstract types *)
(** The supertype of an abstract type is abstract. *)
Definition abstract_ok `{ChronoZoned} `{AnnotationBincode} (K : Kind) (s : WriteSnapshot) : Prop :=
  ∀ a b, in_type (type_of_kind K) a → sub s a b → declared a AnnAbstract s → declared b AnnAbstract s.
Section abstractness.
Context `{ChronoLaws} `{AnnotationBincodeLaws} `{Bincode Ordering} `{HashIteration} `{SetIteration}.
Context (s : WriteSnapshot) (fuel : nat) (Hok : annotations_ok s) (Hh : hierarchy_ok s) (Hfuel : (S (entries SCHEMA s) < fuel)%nat).
Context (K : Kind) (HK : K ≠ KRole).
Lemma abstractness_checked a b set_a set_b :
  in_type (type_of_kind K) a → in_type (type_of_kind K) b → validate_type_supertype_abstractness fuel K a (Some b) set_a set_b s = Val tt →
  (set_a = Some true ∨ set_a = None ∧ declared a AnnAbstract s) → set_b = Some true ∨ set_b = None ∧ declared b AnnAbstract s.
Proof.
  intros Ha Hb. unfold validate_type_supertype_abstractness. cbn [mbind exec_bind].
  destruct (is_abstract_spec s fuel Hok Hh Hfuel K a HK Ha) as (x & -> & Hx). destruct (is_abstract_spec s fuel Hok Hh Hfuel K b HK Hb) as (y & -> & Hy).
  cbn [map_err mbind exec_bind]. destruct (from_option id x set_a && negb (from_option id y set_b)) eqn:Hc.
  - destruct (get_label_or_schema_err a s); [|done..]. cbn. by destruct (get_label_or_schema_err b s).
  - intros _ Hset. assert (from_option id x set_a = true) as Hxa by (destruct Hset as [->|[-> ?]]; [done|by apply Hx]).
    rewrite Hxa in Hc. cbn in Hc. apply negb_false_iff in Hc. destruct set_b as [[]|]; [by left|done|right]. split; [done|]. by apply Hy.
Qed.
Lemma sub_edge_in_type a b : sub s a b → in_type (type_of_kind K) a → in_type (type_of_kind K) b.
Proof. intros Hs. by apply (sub_in_type s _ (kind_closed K) a b Hs). Qed.
(** Supertypes must be abstract before their subtypes. *)
Lemma set_abstract_keeps `{!InstanceValidation} t s' :
  in_type (type_of_kind K) t → abstract_ok K s → set_type_annotation_abstract fuel K t s = Val s' →
  annotations_ok s' ∧ abstract_ok K s' ∧ declared t AnnAbstract s'.
Proof.
  intros Ht Hab. unfold set_type_annotation_abstract, validate_set_type_annotation_general.
  destruct (validate_declared_type_annotation_is_compatible_with_declared_annotations _ _ _ _ _) as [[]| |]; [|done..]. cbn [map_err mbind exec_bind].
  destruct (validate_type_supertype_abstractness_to_set_abstract_annotation fuel K t s) as [[]| |] eqn:Hv; [|done..]. cbn [map_err mbind exec_bind].
  destruct (validate_new_annotation_constraints_compatible_with_instances _ _ _ _) as [[]| |]; [|done..]. cbn [map_err mbind exec_bind].
  destruct (set_annotation_spec s Hok K t Ht AnnAbstract) as (s1 & -> & Hok1 & Hnow & Helse & Hhas); [by destruct K|done|]. cbn [lift]. intros [= <-].
  assert (Ht1 : declared t AnnAbstract s1) by (by apply Hnow). split; [done|]. split; [|done]. intros a b Ha Hs Hda.
  unfold sub in Hs. rewrite Hhas in Hs. assert (Hb : in_type (type_of_kind K) b) by (by apply (sub_edge_in_type a b)).
  destruct (decide (b = t)) as [->|Hbt]; [done|]. apply Helse; [apply Hb|by left|].
  destruct (decide (a = t)) as [->|Hat]; [|apply (Hab a b Ha Hs); apply Helse in Hda; [done|apply Ha|by left]].
  unfold validate_type_supertype_abstractness_to_set_abstract_annotation, validate_type_supertype_abstractness in Hv.
  destruct (get_supertype_spec s fuel (an_schema s Hok) Hh (annotations_fit s fuel Hfuel) _ (kind_closed K) t Ht) as (o & Ho & Hsub).
  rewrite Ho in Hv. cbn [map_err mbind exec_bind] in Hv. assert (o = Some b) as -> by (by apply Hsub).
  destruct (abstractness_checked t b (Some true) None Ht Hb Hv) as [?|[_ ?]]; [by left|done..].
Qed.
(** A type whose subtypes are not abstract may become concrete. *)
Lemma unset_abstract_keeps t s' :
  in_type (type_of_kind K) t → abstract_ok K s → unset_type_annotation_abstract fuel K t s = Val s' →
  annotations_ok s' ∧ abstract_ok K s' ∧ ¬ declared t AnnAbstract s'.
Proof.
  intros Ht Hab. unfold unset_type_annotation_abstract. destruct (match K with KRelation => _ | _ => _ end) as [[]| |]; [|done..]. cbn [mbind exec_bind].
  destruct (validate_no_abstract_subtypes_to_unset_abstract_annotation fuel K t s) as [[]| |] eqn:Hv; [|done..]. cbn [map_err mbind exec_bind].
  unfold unset_annotation. destruct (unset_annotation_spec s fuel Hok K t Ht CAbstract (annotations_fit s fuel Hfuel)) as (s1 & -> & Hok1 & Hnow & Helse & Hhas); [by destruct K|].
  cbn [map_err]. intros [= <-]. assert (Ht1 : ¬ declared t AnnAbstract s1) by (rewrite Hnow; tauto). split; [done|]. split; [|done]. intros a b Ha Hs Hda.
  unfold sub in Hs. rewrite Hhas in Hs. assert (Hb : in_type (type_of_kind K) b) by (by apply (sub_edge_in_type a b)).
  assert (Hat : a ≠ t) by (by intros ->). apply Helse in Hda; [|apply Ha|by left].
  destruct (decide (b = t)) as [->|Hbt]; [exfalso|apply Helse; [apply Hb|by left|]; by apply (Hab a b Ha)].
  unfold validate_no_abstract_subtypes_to_unset_abstract_annotation in Hv.
  destruct (get_subtypes_spec s fuel (an_schema s Hok) (annotations_fit s fuel Hfuel) _ (kind_closed K) t Ht) as (X & HX & Hsub).
  rewrite HX in Hv. cbn [map_err mbind exec_bind] in Hv. rewrite try_for_each_spec in Hv.
  destruct (abstractness_checked a t None (Some false) Ha Hb (Hv a ltac:(by rewrite iter_types_elem, Hsub))) as [?|[? _]]; [by right|done..].
Qed.
End abstractness.
Section supertype_change.
Context `{ChronoLaws} `{AnnotationBincodeLaws} `{Bincode Ordering} `{HashIteration} `{SetIteration}.
Context (s : WriteSnapshot) (fuel : nat) (Hok : annotations_ok s) (Hh : hierarchy_ok s) (Hfuel : (S (entries SCHEMA s) < fuel)%nat).
(** Annotations stay where they are when a supertype changes. *)
Lemma set_supertype_accepted K a b s' :
  in_type (type_of_kind K) a → in_type (type_of_kind K) b → set_supertype fuel K a b s = Val s' →
  validate_type_supertype_abstractness_to_change_supertype fuel K a b s = Val tt ∧
  validate_type_declared_constraints_narrowing_of_supertype_constraints fuel K a b s = Val tt ∧
  annotations_ok s' ∧ hierarchy_ok s' ∧ (∀ v x, declared v x s' ↔ declared v x s) ∧
  ∀ x y, sub s' x y ↔ (x = a ∧ y = b) ∨ (x ≠ a ∧ sub s x y).
Proof.
  intros Ha Hb. unfold set_supertype, unset_supertype. pose proof (annotations_fit s fuel Hfuel) as Hfit.
  destruct (cycle_checked s fuel (an_schema s Hok) Hh Hfit K a b Hb) as [Hcy _].
  destruct (may_delete_spec s fuel (an_schema s Hok) Hh Hfit K a Ha) as (s1 & -> & Hok1 & Hhas & Hc1). cbn [map_err mbind exec_bind].
  destruct (validate_sub_does_not_create_cycle fuel K a b s) as [[]| |]; [|done..]. cbn [map_err mbind exec_bind].
  assert (Hn : ¬ rtc (sub s) b a) by (intros Hr; by apply Hcy).
  destruct (set_supertype_spec s Hh K a b Ha Hb s1 Hok1 Hhas Hn) as (s2 & -> & Hs2 & Hh2 & Hsub & _ & Hc2).
  destruct (validate_type_supertype_abstractness_to_change_supertype fuel K a b s) as [[]| |]; [|done..]. cbn [map_err mbind exec_bind].
  destruct (validate_type_declared_constraints_narrowing_of_supertype_constraints fuel K a b s) as [[]| |]; [|done..]. cbn [map_err mbind exec_bind lift].
  intros [= <-]. assert (Hsk : ∀ x, sub_key x → is_edge_key x) by (intros x (e & [-> | ->]); by eexists _, _, _).
  destruct (edges_keep_annotations s s2 Hok Hs2) as [Hok2 Hd2]; [|by split_and!].
  eapply confined_trans; eapply confined_weaken; [|exact Hc1| |exact Hc2]; done.
Qed.
End supertype_change.

(** C19: abstract types have abstract supertypes.  On a schema where the
    supertype of every abstract type is abstract, making an entity, relation or
    attribute type abstract, making it concrete again, and giving it another
    supertype either fail or return a schema where that holds again, in which
    the type is abstract, concrete, or as it was with the new supertype. *)
Theorem abstract_types_have_abstract_supertypes `{ChronoLaws} `{AnnotationBincodeLaws} `{Bincode Ordering} `{HashIteration} `{SetIteration}
    `{!InstanceValidation} fuel K t s :
  annotations_ok s → hierarchy_ok s → (S (entries SCHEMA s) < fuel)%nat → K ≠ KRole → in_type (type_of_kind K) t → abstract_ok K s →
  (∀ s', set_type_annotation_abstract fuel K t s = Val s' → annotations_ok s' ∧ abstract_ok K s' ∧ declared t AnnAbstract s') ∧
  (∀ s', unset_type_annotation_abstract fuel K t s = Val s' → annotations_ok s' ∧ abstract_ok K s' ∧ ¬ declared t AnnAbstract s') ∧
  (∀ b s', in_type (type_of_kind K) b → set_supertype fuel K t b s = Val s' →
     annotations_ok s' ∧ hierarchy_ok s' ∧ abstract_ok K s' ∧ sub s' t b ∧ (declared t AnnAbstract s' ↔ declared t AnnAbstract s)).
Proof.
  intros Hok Hh Hf HK Ht Hab. split_and!.
  - intros s'. by apply set_abstract_keeps.
  - intros s'. by apply unset_abstract_keeps.
  - intros b s' Hb Hs'. destruct (set_supertype_accepted s fuel Hok Hh Hf K t b s' Ht Hb Hs') as (Hv & _ & Hok' & Hh' & Hd & Hsub).
    split_and!; [done|done| |by apply Hsub; left|by apply Hd]. intros x y Hx Hxy. rewrite !Hd.
    apply Hsub in Hxy as [[-> ->]|[_ Hxy]]; [|by apply Hab]. intros Hdt.
    destruct (abstractness_checked s fuel Hok Hh Hf K HK t b None None Ht Hb Hv) as [?|[_ ?]]; [by right|done..].
Qed.

(** ** Ranges *)
(** The range of a type narrows the ranges above it. *)
Definition ranges_narrow `{ChronoZoned} `{AnnotationBincode} (s : WriteSnapshot) : Prop :=
  ∀ x y r above, in_type AttributeType x → tc (sub s) x y → declared x (AnnRange r) s → declared y (AnnRange above) s →
    Ranges.narrowed_correctly_by above r = Val true.
Section ranges.
Context `{ChronoLaws} `{AnnotationBincodeLaws} `{Bincode Ordering} `{HashIteration} `{SetIteration} `{Regexes.RegexCrate} `{!InstanceValidation}.
Context (s : WriteSnapshot) (fuel : nat) (Hok : annotations_ok s) (Hh : hierarchy_ok s) (Hfuel : (S (entries SCHEMA s) < fuel)%nat).
Context (t : Z) (Ht : in_type AttributeType t) (r : AnnotationRange).
Lemma narrows_above y above :
  validate_type_range_narrows_supertype_constraints fuel t r s = Val tt → tc (sub s) t y → declared y (AnnRange above) s →
  Ranges.narrowed_correctly_by above r = Val true.
Proof.
  unfold validate_type_range_narrows_supertype_constraints, narrows_supertype. intros Hv Hy Hd.
  destruct (get_supertype_spec s fuel (an_schema s Hok) Hh (annotations_fit s fuel Hfuel) _ (kind_closed KAttribute) t Ht) as (o & Ho & Hsub).
  cbn [type_of_kind] in Ho. rewrite Ho in Hv. cbn [map_err mbind exec_bind] in Hv.
  assert (∃ b, sub s t b ∧ rtc (sub s) b y) as (b & Hb & Hby) by (destruct Hy as [? y Hs|? b y Hs Hr]; [by exists y|exists b; split; [done|by apply tc_rtc]]).
  assert (o = Some b) as -> by (by apply Hsub). assert (Hbt : in_type AttributeType b) by (by apply (sub_in_type s _ (kind_closed KAttribute) t b Hb)).
  destruct (range_spec s fuel Hok Hh Hfuel b Hbt) as (l & Hl & Hin). rewrite Hl in Hv. cbn [map_err mbind exec_bind] in Hv.
  rewrite try_for_each_spec in Hv. specialize (Hv (mk_Constraint (DRange above) y)). rewrite or_narrowing_spec, narrowed_by_strictly_spec in Hv.
  apply Hv. rewrite iter_set_elements. apply Hin. by exists above, y.
Qed.
(** Every range seen at a subtype, its own or inherited, must narrow the new
    one. *)
Lemma narrowed_below x y below :
  validate_subtypes_narrow_range fuel t r s = Val tt → tc (sub s) x t → rtc (sub s) x y → declared y (AnnRange below) s →
  Ranges.narrowed_correctly_by r below = Val true.
Proof.
  unfold validate_subtypes_narrow_range, subtypes_narrow. intros Hv Hx Hy Hd.
  destruct (subtypes_spec s fuel (an_schema s Hok) Hh (annotations_fit s fuel Hfuel) _ (kind_closed KAttribute) t Ht Hfuel) as (xs & Hxs & _ & Hsub).
  cbn [type_of_kind] in Hxs. rewrite Hxs in Hv. cbn [map_err mbind exec_bind] in Hv. rewrite try_for_each_spec in Hv.
  specialize (Hv x (proj2 (Hsub x) Hx)). assert (Hxt : in_type AttributeType x) by (by apply (tc_in_type s _ (kind_closed KAttribute) x t Hx)).
  destruct (range_spec s fuel Hok Hh Hfuel x Hxt) as (l & Hl & Hin). rewrite Hl in Hv. cbn [map_err mbind exec_bind] in Hv.
  rewrite try_for_each_spec in Hv. specialize (Hv (mk_Constraint (DRange below) y)). rewrite or_narrowing_spec, narrows_strictly_spec in Hv.
  apply Hv. rewrite iter_set_elements. apply Hin. by exists below, y.
Qed.
Lemma set_range_accepted s' :
  set_annotation_range fuel t r s = Val s' →
  validate_type_range_narrows_supertype_constraints fuel t r s = Val tt ∧ validate_subtypes_narrow_range fuel t r s = Val tt ∧
  set_type_annotation KAttribute t (AnnRange r) s = Val s'.
Proof.
  unfold set_annotation_range, validate_set_type_annotation_general.
  destruct (validate_declared_type_annotation_is_compatible_with_declared_annotations _ _ _ _ _) as [[]| |]; [|done..]. cbn [map_err mbind exec_bind].
  destruct (TypeReader.get_value_type_without_source fuel t s) as [vt| |]; [|done..]. cbn [map_err mbind exec_bind].
  destruct (validate_annotation_range_compatible_value_type t vt s) as [[]| |]; [|done..]. cbn [map_err mbind exec_bind].
  destruct (validate_range_arguments r vt) as [[]| |]; [|done..]. cbn [map_err mbind exec_bind].
  destruct (validate_constraints_on_capabilities_narrow_range_on_interface_type_transitive fuel t r s) as [[]| |]; [|done..]. cbn [map_err mbind exec_bind].
  destruct (validate_type_range_narrows_supertype_constraints fuel t r s) as [[]| |]; [|done..]. cbn [map_err mbind exec_bind].
  destruct (validate_subtypes_narrow_range fuel t r s) as [[]| |]; [|done..]. cbn [map_err mbind exec_bind].
  destruct (validate_new_annotation_constraints_compatible_with_instances _ _ _ _) as [[]| |]; [|done..]. cbn [map_err mbind exec_bind].
  destruct (set_type_annotation _ _ _ _) as [s1|[]|]; [|done]. cbn [lift]. by intros [= ->].
Qed.
End ranges.

(** C18: ranges narrow down the hierarchy.  On a schema where the range of every
    attribute type narrows the ranges above it, setting a range that can be
    stored either fails or returns a schema where that holds again and the type
    has that range; and where it holds, a value that the range of a type admits
    is admitted by every range the type inherits. *)
Theorem ranges_narrow_down_the_hierarchy `{ChronoLaws} `{AnnotationBincodeLaws} `{Bincode Ordering} `{HashIteration} `{SetIteration}
    `{Regexes.RegexCrate} `{!InstanceValidation} fuel t r s :
  annotations_ok s → hierarchy_ok s → (S (entries SCHEMA s) < fuel)%nat → in_type AttributeType t → storable (AnnRange r) → ranges_narrow s →
  (∀ s', set_annotation_range fuel t r s = Val s' → annotations_ok s' ∧ ranges_narrow s' ∧ declared t (AnnRange r) s') ∧
  (∀ own ranges v, declared t (AnnRange own) s → get_constraints_range fuel t s = Val ranges → Ranges.value_valid own v = Val true →
     ∀ c, c ∈ ranges → validate_range (description c) v = Val tt).
Proof.
  intros Hok Hh Hf Ht Hst Hn. split.
  - intros s' (Habove & Hbelow & Hset)%set_range_accepted.
    destruct (set_annotation_spec s Hok KAttribute t Ht (AnnRange r) eq_refl Hst) as (s1 & Hs1 & Hok1 & Hnow & Helse & Hhas).
    rewrite Hs1 in Hset. injection Hset as ->. split; [done|]. split; [|by apply Hnow]. intros x y r1 r2 Hx Hxy H1x H2y.
    assert (Hxy0 : tc (sub s) x y) by (revert Hxy; apply (tc_congruence (λ x, x)); intros ??; apply Hhas).
    assert (Hy : in_type AttributeType y) by (by apply (tc_in_type s _ (kind_closed KAttribute) x y Hxy0)).
    destruct (decide (x = t)) as [->|Hxt].
    + apply Hnow in H1x; [|done]. injection H1x as ->. assert (y ≠ t) by (intros ->; by apply (h_acyclic s Hh t)).
      apply Helse in H2y; [|apply Hy|by left]. by apply (narrows_above s fuel Hok Hh Hf t Ht r y).
    + apply Helse in H1x; [|apply Hx|by left]. destruct (decide (y = t)) as [->|Hyt].
      * apply Hnow in H2y; [|done]. injection H2y as ->. by apply (narrowed_below s fuel Hok Hh Hf t Ht r x x).
      * apply Helse in H2y; [|apply Hy|by left]. by apply (Hn x y).
  - intros own ranges v Hown Hr Hv c Hc. destruct (range_spec s fuel Hok Hh Hf t Ht) as (l & Hl & Hin). rewrite Hl in Hr. injection Hr as ->.
    apply Hin in Hc as (r' & y & -> & Hy & Hd). unfold validate_range. cbn [description unwrap_range mbind exec_bind].
    assert (Ranges.value_valid r' v = Val true) as Hr'.
    { apply rtc_tc in Hy as [<-|Hy].
      - destruct Hown as (val & Hview & Hdec), Hd as (val' & Hview' & Hdec'). cbn in *. congruence.
      - apply range_admits. apply range_admits in Hv. apply (range_narrowing r' own); [|done]. by apply (Hn t y). }
    unfold check_bool. by rewrite Hr'.
Qed.

(** A type between two others cannot narrow a range.  Setting a range also
    checks the ranges that the subtypes inherit from above the type, so where
    the type has a subtype and inherits a range, every range that can be set
    admits exactly the values that the inherited one admits. *)
Lemma inner_type_cannot_narrow `{ChronoLaws} `{AnnotationBincodeLaws} `{Bincode Ordering} `{HashIteration} `{SetIteration}
    `{Regexes.RegexCrate} `{!InstanceValidation} fuel x t y r inherited s s' :
  annotations_ok s → hierarchy_ok s → (S (entries SCHEMA s) < fuel)%nat → in_type AttributeType t →
  sub s x t → tc (sub s) t y → declared y (AnnRange inherited) s →
  set_annotation_range fuel t r s = Val s' → ∀ v, Ranges.value_valid r v = Val true ↔ Ranges.value_valid inherited v = Val true.
Proof.
  intros Hok Hh Hf Ht Hx Hy Hd (Habove & Hbelow & _)%set_range_accepted v. rewrite !range_admits. split; apply range_narrowing.
  - by apply (narrows_above s fuel Hok Hh Hf t Ht r y).
  - apply (narrowed_below s fuel Hok Hh Hf t Ht r x y); [done|by apply tc_once| |done]. apply tc_rtc. by eapply tc_l.
Qed.

(** C38: the value sets of subtypes are not checked.  Setting a value set reads
    the [@regex] constraints of the subtypes where their value sets are meant:
    the check accepts every value set if no subtype has a [@regex], whatever
    value sets the subtypes declare, and panics if one has. *)
Theorem subtype_values_are_not_checked `{ChronoZoned} `{AnnotationBincode} `{Bincode Ordering} `{HashIteration} `{SetIteration} fuel t values s :
  annotations_ok s → hierarchy_ok s → (S (entries SCHEMA s) < fuel)%nat → in_type AttributeType t →
  ((∀ x y r, tc (sub s) x t → rtc (sub s) x y → ¬ declared y (AnnRegex r) s) → validate_subtypes_narrow_values fuel t values s = Val tt) ∧
  (∀ x y r, tc (sub s) x t → rtc (sub s) x y → declared y (AnnRegex r) s → validate_subtypes_narrow_values fuel t values s = Panic).
Proof.
  intros Hok Hh Hf Ht. unfold validate_subtypes_narrow_values, subtypes_narrow.
  destruct (subtypes_spec s fuel (an_schema s Hok) Hh (annotations_fit s fuel Hf) _ (kind_closed KAttribute) t Ht Hf) as (xs & Hxs & _ & Hsub).
  cbn [type_of_kind] in Hxs. rewrite Hxs. cbn [map_err mbind exec_bind].
  assert (Hattr : ∀ x, x ∈ xs → in_type AttributeType x) by (intros x Hx%Hsub; by apply (tc_in_type s _ (kind_closed KAttribute) x t Hx)).
  split.
  - intros Hno. apply try_for_each_spec. intros x Hx. destruct (regex_spec s fuel Hok Hh Hf x (Hattr x Hx)) as (l & -> & Hin). cbn [map_err mbind exec_bind].
    apply try_for_each_spec. intros c Hc. rewrite iter_set_elements in Hc. apply Hin in Hc as (r & y & -> & Hy & Hd). exfalso. apply Hsub in Hx. by eapply Hno.
  - intros x y r Hx Hy Hd. apply Hsub in Hx. clear Hxs Hsub. induction xs as [|x' xs IH]; [by apply not_elem_of_nil in Hx|]. cbn [try_for_each].
    destruct (regex_spec s fuel Hok Hh Hf x' (Hattr x' ltac:(by left))) as (l & -> & Hin). cbn [map_err mbind exec_bind].
    destruct (iter_set l) as [|c cs] eqn:Hi.
    + cbn [try_for_each mbind exec_bind]. apply IH; [intros z Hz; apply Hattr; by right|]. apply elem_of_cons in Hx as [->|?]; [|done].
      assert (mk_Constraint (DRegex r) y ∈ ([] : list (Constraint Z))) as Hn by (rewrite <-Hi, iter_set_elements; apply Hin; by exists r, y). by apply not_elem_of_nil in Hn.
    + assert (c ∈ l) as Hcl by (rewrite <-(iter_set_elements l), Hi; by left). apply Hin in Hcl as (r' & y' & -> & _). done.
Qed.

(** ** Validation at commit *)
Import CommitTimeValidation.
Section collected.
Context `{ChronoZoned}.
(** A check only adds errors. *)
Definition adds (f : list SchemaValidationError → exec ConceptReadError (list SchemaValidationError)) : Prop :=
  ∀ e e', f e = Val e' → ∃ more, e' = e ++ more.
Lemma adds_push m : adds (λ e, push_err e m).
Proof. intros e e'. destruct m as [u|x|]; cbn; intros [= <-]; [exists []; by rewrite app_nil_r|by eexists]. Qed.
Lemma adds_same : adds Val.
Proof. intros e e' [= <-]. exists []. by rewrite app_nil_r. Qed.
Lemma adds_bind f g : adds f → adds g → adds (λ e, e' ← f e; g e').
Proof.
  intros Hf Hg e e'. destruct (f e) as [e1| |] eqn:He; cbn; [|done..]. intros Hge. apply Hf in He as [m1 ->]. apply Hg in Hge as [m2 ->].
  exists (m1 ++ m2). by rewrite app_assoc.
Qed.
Lemma adds_collect {A} (f : A → list SchemaValidationError → exec ConceptReadError (list SchemaValidationError)) l :
  (∀ x, adds (f x)) → adds (collect_each f l).
Proof. intros Hf. induction l as [|x l IH]; cbn; [apply adds_same|by apply (adds_bind (f x))]. Qed.
Lemma bind_clean f g : adds f → adds g → (e ← f []; g e) = Val [] ↔ f [] = Val [] ∧ g [] = Val [].
Proof.
  intros Hf Hg. destruct (f []) as [e| |] eqn:He; cbn; [|split; (done || by intros [? _])..]. split; [|by intros [[= ->] ?]].
  intros Hge. apply Hg in Hge as Hm. destruct Hm as [more Hm]. symmetry in Hm. apply app_nil in Hm as [-> ->]. done.
Qed.
Lemma collect_clean {A} (f : A → list SchemaValidationError → exec ConceptReadError (list SchemaValidationError)) l :
  (∀ x, adds (f x)) → collect_each f l [] = Val [] ↔ ∀ x, x ∈ l → f x [] = Val [].
Proof.
  intros Hf. induction l as [|x l IH]; cbn.
  - split; [by intros _ ? ?%not_elem_of_nil|done].
  - rewrite (bind_clean (f x)) by (done || by apply adds_collect). rewrite IH. setoid_rewrite elem_of_cons. naive_solver.
Qed.
Lemma push_clean m : push_err [] m = Val [] ↔ m = Val tt.
Proof. destruct m as [[]| |]; cbn; split; done. Qed.
End collected.
Section commit.
Context `{ChronoZoned} `{AnnotationBincode} `{Bincode Ordering} `{HashIteration} `{SetIteration}.
Lemma adds_redundant fuel K t s : adds (validate_redundant_type_constraints fuel K t s).
Proof.
  intros e e'. unfold validate_redundant_type_constraints. destruct (get_type_constraints fuel K t s) as [l| |]; cbn [mbind exec_bind]; [|done..].
  apply adds_collect. intros c e1 e2. destruct (source c =? t); [apply adds_same|]. destruct (existsb _ _); [|apply adds_same].
  destruct (get_label_or_concept_read_err t s) as [lab| |]; cbn; [|done..]. intros [= <-]. by eexists.
Qed.
Lemma adds_type_constraints fuel K t s : adds (validate_type_constraints fuel K t s).
Proof.
  intros e e'. unfold validate_type_constraints. destruct (TypeReader.get_supertype _ _ _ _) as [[b|]| |]; cbn [mbind exec_bind]; [| |done..].
  - apply (adds_bind (λ e, e1 ← push_err e _; push_err e1 _)); [|apply adds_redundant]. apply adds_bind; apply adds_push.
  - apply adds_redundant.
Qed.
Lemma adds_value_type fuel t s : adds (validate_attribute_type_value_type fuel t s).
Proof.
  intros e e'. unfold validate_attribute_type_value_type. destruct (TypeReader.get_supertype _ _ _ _) as [sup| |]; cbn [mbind exec_bind]; [|done..].
  match goal with |- mbind ?g ?f = _ → _ => assert (Hg : adds g); [|assert (∀ e1, f = Val e1 → ∃ more, e1 = e ++ more)] end.
  - intros e1 e2. destruct (TypeReader.get_value_type fuel t s) as [[vt|]| |]; cbn [mbind exec_bind]; [apply adds_same| |done..].
    destruct (is_abstract fuel KAttribute t s) as [[]| |]; cbn [mbind exec_bind]; [apply adds_same| |done..].
    destruct (get_label_or_concept_read_err t s) as [lab| |]; cbn; [|done..]. intros [= <-]. by eexists.
  - intros e1. destruct sup as [b|]; [|apply adds_same]. destruct (TypeReader.get_value_type fuel b s) as [[inh|]| |]; cbn [mbind exec_bind]; [|apply adds_same|done..].
    destruct (TypeReader.get_value_type_declared t s) as [[vt|]| |]; cbn [mbind exec_bind]; [|apply adds_same|done..].
    destruct (get_value_type_annotations_declared fuel t s) as [[|a l]| |]; cbn [mbind exec_bind]; [|apply adds_same|done..].
    destruct (get_label_or_concept_read_err t s) as [lab| |]; cbn [mbind exec_bind]; [|done..].
    destruct (get_label_or_concept_read_err b s) as [lab'| |]; cbn [mbind exec_bind]; [|done..]. intros [= <-]. by eexists.
  - match goal with H : ∀ e1, ?f = Val e1 → _ |- _ => destruct f as [e1| |] eqn:Hf; cbn [mbind exec_bind]; [|done..]; destruct (H e1 eq_refl) as [m1 ->] end.
    intros [m2 ->]%Hg. exists (m1 ++ m2). by rewrite app_assoc.
Qed.
Lemma adds_attribute fuel t s : adds (validate_attribute_type fuel t s).
Proof.
  intros e e'. unfold validate_attribute_type. destruct (validate_attribute_type_value_type fuel t s e) as [e1| |] eqn:He; cbn [mbind exec_bind]; [|done..].
  apply adds_value_type in He as [m1 ->]. destruct (_ <? _)%nat; [intros [= <-]; by eexists|].
  intros [m2 ->]%adds_type_constraints. exists (m1 ++ m2). by rewrite app_assoc.
Qed.
End commit.
(** What the validation asks of a type: its supertype is abstract if it is, and
    its own constraints narrow those that it inherits and repeat none. *)
Definition consistent `{ChronoZoned} `{AnnotationBincode} (t : Z) (s : WriteSnapshot) : Prop :=
  (∀ b, sub s t b → declared t AnnAbstract s → declared b AnnAbstract s) ∧
  ∀ d a y d' a', declared t a s → annotation_of d = Some a → tc (sub s) t y → declared y a' s → annotation_of d' = Some a' → d' ≠ DAbstract →
    narrowed_correctly_by d' d true = Val true ∧ description_eqb d' d = false.
Section clean.
Context `{ChronoZoned} `{AnnotationBincode} `{Bincode Ordering} `{HashIteration} `{SetIteration}.
Context (s : WriteSnapshot) (fuel : nat) (Hok : annotations_ok s) (Hh : hierarchy_ok s) (Hfuel : (S (entries SCHEMA s) < fuel)%nat).
Section kind.
Context (K : Kind) (HK : K ≠ KRole) (t : Z) (Ht : in_type (type_of_kind K) t).
Lemma redundant_clean :
  validate_redundant_type_constraints fuel K t s [] = Val [] ↔
  ∀ d a y d' a', declared t a s → annotation_of d = Some a → tc (sub s) t y → declared y a' s → annotation_of d' = Some a' → d' ≠ DAbstract →
    description_eqb d' d = false.
Proof.
  unfold validate_redundant_type_constraints. destruct (constraints_spec s fuel Hok Hh Hfuel K t Ht) as (l & -> & Hin). cbn [mbind exec_bind].
  rewrite collect_clean.
  2: { intros c e e'. destruct (source c =? t); [apply adds_same|]. destruct (existsb _ _); [|apply adds_same].
       destruct (get_label_or_concept_read_err t s) as [lab| |]; cbn; [|done..]. intros [= <-]. by eexists. }
  assert (Hown : ∀ d, d ∈ List.map description (filter_by_source (iter_set l) t) ↔ ∃ a, annotation_of d = Some a ∧ declared t a s).
  { intros d. rewrite list_elem_of_In, in_map_iff. unfold filter_by_source. setoid_rewrite filter_In. setoid_rewrite bool_decide_eq_true. split.
    - intros ([d0 y] & <- & Hc & Hs). cbn in Hs. subst y. apply list_elem_of_In in Hc. rewrite iter_set_elements in Hc. by apply Hin in Hc as (_ & ? & _).
    - intros (a & Ha & Hd). exists (mk_Constraint d t). split_and!; [done| |done]. apply list_elem_of_In. rewrite iter_set_elements. apply Hin. split_and!; [done|by exists a|done]. }
  split.
  - intros Hcl d a y d' a' Hd Ha Hy Hd' Ha' Hne. specialize (Hcl (mk_Constraint d' y)). cbn [source description] in Hcl.
    destruct (Z.eqb_spec y t) as [->|Hyt]; [by destruct (h_acyclic s Hh t)|].
    destruct (existsb (description_eqb d') _) eqn:He.
    + assert ((get_label_or_concept_read_err t s ≫= λ subtype, Val ([] ++ [CannotRedeclareConstraintOnSubtypeWithoutSpecialisation d' subtype])) = Val []) as Hbad.
      { apply Hcl. rewrite iter_set_elements. apply Hin. split_and!; [by apply tc_rtc|by exists a'|by intros ?]. }
      by destruct (get_label_or_concept_read_err t s).
    + destruct (description_eqb d' d) eqn:Heq; [|done]. assert (existsb (description_eqb d') (List.map description (filter_by_source (iter_set l) t)) = true); [|congruence].
      apply existsb_exists. exists d. split; [|done]. apply list_elem_of_In, Hown. by exists a.
  - intros Hcl [d' y] Hc. rewrite iter_set_elements in Hc. apply Hin in Hc as (Hr & (a' & Ha' & Hd') & Hk). cbn [source description] in *.
    destruct (Z.eqb_spec y t) as [->|Hyt]; [done|]. destruct (existsb (description_eqb d') _) eqn:He; [|done].
    apply existsb_exists in He as (d & Hd & He). apply list_elem_of_In, Hown in Hd as (a & Ha & Hd).
    rewrite (Hcl d a y d' a') in He; [done|done|done| |done|done|by intros ->; apply Hyt, Hk]. apply rtc_tc in Hr as [<-|?]; done.
Qed.
Lemma narrowing_clean b :
  sub s t b → validate_type_declared_constraints_narrowing_of_supertype_constraints fuel K t b s = Val tt ↔
  ∀ d a y d' a', declared t a s → annotation_of d = Some a → tc (sub s) t y → declared y a' s → annotation_of d' = Some a' → d' ≠ DAbstract →
    narrowed_correctly_by d' d true = Val true.
Proof.
  intros Hb. assert (Hbt : in_type (type_of_kind K) b) by (by apply (sub_in_type s _ (kind_closed K) t b Hb)).
  unfold validate_type_declared_constraints_narrowing_of_supertype_constraints.
  destruct (constraints_spec s fuel Hok Hh Hfuel K b Hbt) as (lb & -> & Hinb). destruct (constraints_spec s fuel Hok Hh Hfuel K t Ht) as (l & -> & Hin).
  cbn [map_err mbind exec_bind]. rewrite try_for_each_spec. setoid_rewrite try_for_each_spec. setoid_rewrite or_narrowing_spec. setoid_rewrite narrowed_by_any_spec.
  assert (Hup : ∀ y, rtc (sub s) b y ↔ tc (sub s) t y).
  { intros y. split; [intros [<-|?]%rtc_tc; [by apply tc_once|by eapply tc_l]|]. intros Hy. assert (∃ c, sub s t c ∧ rtc (sub s) c y) as (c & Hc & Hcy) by (destruct Hy as [? y Hs|? c y Hs Hr]; [by exists y|exists c; split; [done|by apply tc_rtc]]).
    by rewrite (h_single s Hh _ _ _ Hb Hc). }
  split.
  - intros Hcl d a y d' a' Hd Ha Hy Hd' Ha' Hne. refine (Hcl (mk_Constraint d t) _ (mk_Constraint d' y) _).
    + unfold filter_by_source. apply list_elem_of_In, filter_In. split; [|by apply bool_decide_eq_true]. apply list_elem_of_In. rewrite iter_set_elements.
      apply Hin. split_and!; [done|by exists a|done].
    + rewrite iter_set_elements. apply Hinb. split_and!; [by apply Hup|by exists a'|by intros ?].
  - intros Hcl [d y0] Hc [d' y] Hc'. unfold filter_by_source in Hc. apply list_elem_of_In, filter_In in Hc as [Hc Hs%bool_decide_eq_true]. cbn in Hs. subst y0.
    apply list_elem_of_In in Hc. rewrite iter_set_elements in Hc, Hc'. apply Hin in Hc as (_ & (a & Ha & Hd) & _).
    apply Hinb in Hc' as (Hr & (a' & Ha' & Hd') & Hk). cbn [description source] in *. assert (d' = DAbstract ∨ d' ≠ DAbstract) as [->|Hne] by (destruct d'; auto); [done|].
    apply (Hcl d a y d' a'); [done|done|by apply Hup|done..].
Qed.
Lemma abstract_clean b :
  in_type (type_of_kind K) b → validate_type_supertype_abstractness fuel K t (Some b) None None s = Val tt ↔ (declared t AnnAbstract s → declared b AnnAbstract s).
Proof.
  intros Hb. unfold validate_type_supertype_abstractness. cbn [mbind exec_bind].
  destruct (is_abstract_spec s fuel Hok Hh Hfuel K t HK Ht) as (x & -> & Hx). destruct (is_abstract_spec s fuel Hok Hh Hfuel K b HK Hb) as (y & -> & Hy).
  cbn [map_err mbind exec_bind from_option]. rewrite <-Hx, <-Hy. destruct x, y; cbn; [done| |done..]. split; [|by intros ?%(λ f, f eq_refl)].
  destruct (get_label_or_schema_err t s); [|done..]. cbn. by destruct (get_label_or_schema_err b s).
Qed.
Lemma type_constraints_clean : validate_type_constraints fuel K t s [] = Val [] ↔ consistent t s.
Proof.
  unfold validate_type_constraints, consistent.
  destruct (get_supertype_spec s fuel (an_schema s Hok) Hh (annotations_fit s fuel Hfuel) _ (kind_closed K) t Ht) as ([b|] & -> & Hsub); cbn [mbind exec_bind].
  - assert (Hb : sub s t b) by (by apply Hsub). assert (Hbt : in_type (type_of_kind K) b) by (by apply (sub_in_type s _ (kind_closed K) t b Hb)).
    rewrite (bind_clean (λ e, e1 ← push_err e _; push_err e1 _)) by (apply adds_redundant || (apply adds_bind; apply adds_push)).
    rewrite (bind_clean (λ e, push_err e _)) by apply adds_push. rewrite !push_clean, redundant_clean, (narrowing_clean b Hb), (abstract_clean b Hbt). split.
    + intros [[Hab Hn] Hr]. split; [intros b' Hb'; by rewrite (h_single s Hh _ _ _ Hb' Hb)|]. intros. split; eauto.
    + intros [Hab Hc]. split_and!; [by apply Hab| |]; intros; by eapply Hc.
  - rewrite redundant_clean. split.
    + intros Hr. split; [intros b Hb; by apply Hsub in Hb|]. intros d a y d' a' Hd Ha Hy. exfalso. destruct Hy as [? y Hs|? c y Hs _]; by apply Hsub in Hs.
    + intros [_ Hc]. intros. by eapply Hc.
Qed.
End kind.
End clean.
Section attributes.
Context `{ChronoZoned} `{AnnotationBincode} `{Bincode Ordering} `{HashIteration} `{SetIteration}.
Context (s : WriteSnapshot) (fuel : nat) (Hok : annotations_ok s) (Hh : hierarchy_ok s) (Hfuel : (S (entries SCHEMA s) < fuel)%nat).
Lemma attribute_clean t :
  in_type AttributeType t → validate_attribute_type fuel t s [] = Val [] →
  consistent t s ∧ ((∃ vt, TypeReader.get_value_type fuel t s = Val (Some vt)) ∨ declared t AnnAbstract s).
Proof.
  intros Ht. unfold validate_attribute_type. destruct (validate_attribute_type_value_type fuel t s []) as [e| |] eqn:He; cbn [mbind exec_bind]; [|done..].
  destruct e as [|e es]; cbn [length Nat.ltb Nat.leb]; [|done]. intros Hc%type_constraints_clean; [|done..]. split; [done|].
  unfold validate_attribute_type_value_type in He. destruct (TypeReader.get_supertype _ _ _ _) as [sup| |]; cbn [mbind exec_bind] in He; [|done..].
  match type of He with mbind ?g ?f = _ => destruct f as [e| |]; cbn [mbind exec_bind] in He; [|done..] end.
  destruct (TypeReader.get_value_type fuel t s) as [[vt|]| |]; cbn [mbind exec_bind] in He; [left; by exists vt| |done..]. right.
  destruct (is_abstract_spec s fuel Hok Hh Hfuel KAttribute t ltac:(done) Ht) as ([] & Hb & Hd); [by apply Hd|]. rewrite Hb in He. cbn [mbind exec_bind] in He.
  destruct (get_label_or_concept_read_err t s) as [lab| |]; cbn in He; [|done..]. injection He as He. by apply app_nil in He as [_ ?].
Qed.
Lemma attributes_clean root t :
  types_ok s → validate_attribute_types fuel s [] = Val [] → type_exists KAttribute root s → (∀ b, ¬ sub s root b) → rtc (sub s) t root →
  in_type AttributeType t ∧ validate_attribute_type fuel t s [] = Val [].
Proof.
  intros Hty Hv Hroot Hno Hr. destruct (get_types_spec fuel KAttribute s Hty (annotations_fit s fuel Hfuel)) as (l & Hl & Hin).
  unfold validate_attribute_types in Hv. rewrite Hl in Hv. cbn [mbind exec_bind] in Hv.
  pose proof (proj1 Hroot : in_type AttributeType root) as Hrt.
  destruct (get_supertype_spec s fuel (an_schema s Hok) Hh (annotations_fit s fuel Hfuel) _ (kind_closed KAttribute) root Hrt) as (o & Ho & Hsub).
  assert (o = None) as -> by (destruct o as [b|]; [destruct (Hno b); by apply Hsub|done]).
  destruct (subtypes_spec s fuel (an_schema s Hok) Hh (annotations_fit s fuel Hfuel) _ (kind_closed KAttribute) root Hrt Hfuel) as (xs & Hxs & _ & Hbelow).
  rewrite collect_clean in Hv.
  - specialize (Hv root (proj2 (Hin root) Hroot)). cbn [type_of_kind] in Ho, Hxs. rewrite Ho in Hv. cbn [mbind exec_bind] in Hv. rewrite Hxs in Hv.
    cbn [mbind exec_bind] in Hv. rewrite (bind_clean (validate_attribute_type fuel root s)) in Hv by (apply adds_attribute || (apply adds_collect; intros; apply adds_attribute)).
    destruct Hv as [Hvr Hvs]. rewrite collect_clean in Hvs by (intros; apply adds_attribute). apply rtc_tc in Hr as [->|Hr]; [done|].
    split; [by apply (tc_in_type s _ (kind_closed KAttribute) t root Hr)|]. apply Hvs. by apply Hbelow.
  - intros x e e'. destruct (TypeReader.get_supertype fuel AttributeType x s) as [[b|]| |]; cbn [mbind exec_bind]; [apply adds_same| |done..].
    destruct (validate_attribute_type fuel x s e) as [e1| |] eqn:He; cbn [mbind exec_bind]; [|done..]. apply adds_attribute in He as [m1 ->].
    destruct (TypeReader.get_subtypes_transitive fuel AttributeType x s) as [ys| |]; cbn [mbind exec_bind]; [|done..].
    intros [m2 ->]%adds_collect; [|intros; apply adds_attribute]. exists (m1 ++ m2). by rewrite app_assoc.
Qed.
End attributes.

(** C17: what commits is consistent. For an entity, relation or attribute type
    (not for role types), the validation of its constraints at commit reports
    nothing exactly if the supertype of an abstract type is abstract and the
    type's own constraints narrow every constraint it inherits and repeat none
    of them. If the validation of the attribute types reports nothing, this
    holds for every attribute type below an existing root; each of them has a
    value type or is abstract; and whatever the range or the value set of one
    admits is admitted by the ranges and value sets above it. *)
Theorem committed_attribute_types_are_consistent `{ChronoZoned} `{AnnotationBincode} `{Bincode Ordering} `{HashIteration} `{SetIteration} fuel s :
  types_ok s → annotations_ok s → hierarchy_ok s → (S (entries SCHEMA s) < fuel)%nat →
  (∀ K t, K ≠ KRole → in_type (type_of_kind K) t → validate_type_constraints fuel K t s [] = Val [] ↔ consistent t s) ∧
  (validate_attribute_types fuel s [] = Val [] → ∀ root t, type_exists KAttribute root s → (∀ b, ¬ sub s root b) → rtc (sub s) t root →
     consistent t s ∧ ((∃ vt, TypeReader.get_value_type fuel t s = Val (Some vt)) ∨ declared t AnnAbstract s) ∧
     (∀ own y above v, declared t (AnnRange own) s → tc (sub s) t y → declared y (AnnRange above) s →
        Ranges.value_valid own v = Val true → Ranges.value_valid above v = Val true) ∧
     (∀ own y above v, declared t (AnnValues own) s → tc (sub s) t y → declared y (AnnValues above) s →
        ValueSets.value_valid own v = true → ValueSets.value_valid above v = true)).
Proof.
  intros Hty Hok Hh Hf. split; [intros K t HK Ht; by apply type_constraints_clean|]. intros Hv root t Hroot Hno Hr.
  destruct (attributes_clean s fuel Hok Hh Hf root t Hty Hv Hroot Hno Hr) as [Ht Hvt].
  destruct (attribute_clean s fuel Hok Hh Hf t Ht Hvt) as [Hc Hval]. split_and!; [done..| |].
  - intros own y above v Hd Hy Hd'. rewrite !range_admits. apply range_narrowing.
    by destruct (proj2 Hc (DRange own) (AnnRange own) y (DRange above) (AnnRange above) Hd eq_refl Hy Hd' eq_refl) as [Hn _].
  - intros own y above v Hd Hy Hd'. apply values_narrowing.
    destruct (proj2 Hc (DValues own) (AnnValues own) y (DValues above) (AnnValues above) Hd eq_refl Hy Hd' eq_refl) as [Hn _]; [done|]. by injection Hn.
Qed.

(** ** An example *)
Import SchemaExample.
Module AnnotationExample.
Definition a0 : Z := TypeVertex.new (Prefixes.prefix_id VertexAttributeType) 0.
Definition a1 : Z := TypeVertex.new (Prefixes.prefix_id VertexAttributeType) 1.
Definition a2 : Z := TypeVertex.new (Prefixes.prefix_id VertexAttributeType) 2.
(** [@range(0..10)]. *)
Definition r10 : AnnotationRange := mk_AnnotationRange (Some (VInteger 0)) (Some (VInteger 10)).
(** [attribute a0 @range(0..10), value integer; attribute a1 sub a0; attribute a2 sub a1;] *)
Definition with_vertex : WriteSnapshot := or_empty (Snap.put_val (SchemaIDAllocator.into_storage_key a0) [] empty_snapshot).
Definition with_value_type : WriteSnapshot := or_empty (TypeWriter.storage_set_value_type a0 TyInteger with_vertex).
Definition with_a1 : WriteSnapshot := or_empty (TypeWriter.storage_put_edge (Sub AttributeType) (a1, a0) with_value_type).
Definition with_a2 : WriteSnapshot := or_empty (TypeWriter.storage_put_edge (Sub AttributeType) (a2, a1) with_a1).
Definition ranged : WriteSnapshot := or_empty (set_type_annotation KAttribute a0 (AnnRange r10) with_a2).
#[export] Instance no_regex : Regexes.RegexCrate := {| Regexes.regex_ok _ := true; Regexes.is_match _ _ := true |}.
#[export] Instance no_instances : InstanceValidation := λ _ _ _ _, Val tt.

(** Keys that start with the byte of a prefix that is not a kind's. *)
Lemma other_kind_key q rest : (∀ kind, q ≠ prefix_of_kind kind) → kind_key (Prefixes.prefix_id q :: rest).
Proof. intros Hq. exists q, rest. split; [done|]. intros kind ->. by destruct (Hq kind). Qed.
Lemma types_kept P `{∀ x, Decision (P x)} s s' : types_ok s → confined P s s' → (∀ k, P (SCHEMA, k) → kind_key k) → types_ok s'.
Proof.
  intros Hty Hc HP. split; [apply (cf_ok _ _ _ Hc)|destruct (ty_open s Hty) as [Hid Hb]; split; [done|by rewrite (cf_storage _ _ _ Hc)]|].
  intros bs Hk. destruct (decide (P (SCHEMA, bs))) as [Hp|Hp]; [by apply HP|]. apply (ty_keys s Hty). by apply (known_confined _ _ _ _ Hc).
Qed.
Lemma attribute_in_type id : is_u16 id → in_type AttributeType (TypeVertex.new (Prefixes.prefix_id VertexAttributeType) id).
Proof. intros Hid. apply (in_kind KAttribute). split; [by exists VertexAttributeType, id|by apply type_vertex_parts]. Qed.
Lemma a0_ok : in_type AttributeType a0.
Proof. apply attribute_in_type. unfold is_u16. lia. Qed.
Lemma a1_ok : in_type AttributeType a1.
Proof. apply attribute_in_type. unfold is_u16. lia. Qed.
Lemma a2_ok : in_type AttributeType a2.
Proof. apply attribute_in_type. unfold is_u16. lia. Qed.
(** The vertex and its value type. *)
Definition value_type_key : skey := VertexProperty.into_storage_key (vertex_key ValueType_property a0).
Lemma base_confined : confined (λ x, x = SchemaIDAllocator.into_storage_key a0 ∨ x = value_type_key) empty_snapshot with_value_type.
Proof.
  destruct (put_spec (SchemaIDAllocator.into_storage_key a0) empty_snapshot (t_snapshot _ empty_things_ok) ltac:(cbn; lia) [] (vertex_is_bytes a0)) as (s1 & Hs1 & Hc1 & _).
  unfold with_value_type, with_vertex. rewrite Hs1. cbn [or_empty]. unfold TypeWriter.storage_set_value_type, TypeWriter.storage_put_type_vertex_property, TypeWriter.property_value.
  cbn [to_value_bytes ValueType_property unwrap mbind exec_bind].
  destruct (put_spec value_type_key s1 (cf_ok _ _ _ Hc1) ltac:(cbn; lia) (ValueTypeBytes.build TyInteger) (annotation_key_bytes a0 PropertyValueType)) as (s2 & Hs2 & Hc2 & _).
  unfold value_type_key in Hs2. rewrite Hs2. cbn [or_empty]. eapply confined_trans; eapply confined_weaken; [|exact Hc1| |exact Hc2]; naive_solver.
Qed.
Lemma base_known bs : known (SCHEMA, bs) with_value_type → bs = TypeVertex.to_bytes a0 ∨ bs = annotation_key a0 PropertyValueType.
Proof.
  intros Hk. destruct (decide ((SCHEMA, bs) = SchemaIDAllocator.into_storage_key a0)) as [He|Hn]; [left; by apply (f_equal snd) in He|].
  destruct (decide ((SCHEMA, bs) = value_type_key)) as [He|Hn']; [right; by apply (f_equal snd) in He|].
  exfalso. apply (empty_unknown bs SCHEMA); [done|]. apply (known_confined _ _ _ _ base_confined); [done|by intros [?|?]|done].
Qed.
Lemma base_view reverse k e : view (key_at reverse k e) with_value_type = None.
Proof.
  destruct (view _ _) as [v|] eqn:Hv; [|done]. apply view_known in Hv. change (key_at reverse k e) with (SCHEMA, (key_at reverse k e).2) in Hv.
  apply base_known in Hv as [Hv|Hv]; apply (f_equal length) in Hv; rewrite key_at_length in Hv; [by rewrite length_vertex in Hv|].
  rewrite annotation_key_app, length_app in Hv. cbn [length] in Hv. by rewrite length_vertex in Hv.
Qed.
Lemma base_annotations : annotations_ok with_value_type.
Proof.
  assert (Hv : TypeVertex.to_bytes a0 = Prefixes.prefix_id VertexAttributeType :: be_bytes 2 0) by (apply (vertex_bytes VertexAttributeType 0); unfold is_u16; lia).
  split; [split|..].
  - apply (cf_ok _ _ _ base_confined).
  - destruct empty_open as [Hid Hb]. split; [done|]. by rewrite (cf_storage _ _ _ base_confined).
  - intros bs [->| ->]%base_known; [|apply property_key_schema]. rewrite Hv. eexists _, _. split; [done|]. intros reverse k Hp%prefix_id_inj. by destruct reverse, k.
  - intros k e _. by rewrite !base_view.
  - intros bs [->| ->]%base_known rest Hr; [rewrite Hv in Hr; apply (f_equal head) in Hr; cbn in Hr; done|].
    exists a0, PropertyValueType. split; [apply a0_ok|done].
  - intros K v infix value Hin Hi Hview. exfalso. apply view_known, base_known in Hview as [He|He].
    + rewrite Hv in He. apply (f_equal head) in He. cbn in He. done.
    + apply annotation_key_inj in He as [_ ->]; [cbn in Hi; lia|apply Hin|apply a0_ok].
Qed.
Lemma base_types : types_ok with_value_type.
Proof.
  apply (types_kept _ _ _ empty_types_ok base_confined). intros k [He|He]; apply (f_equal snd) in He; cbn [snd] in He; rewrite He.
  - exists VertexAttributeType, (be_bytes 2 0). assert (is_u16 0) by (unfold is_u16; lia). split; [by apply (vertex_bytes VertexAttributeType 0)|]. intros kind Hk. by exists 0.
  - apply other_kind_key. by intros [].
Qed.
Definition no_annotation (s : WriteSnapshot) : Prop := ∀ v a, is_vertex v → ¬ declared v a s.
Lemma base_none : no_annotation with_value_type.
Proof.
  intros v a Hv (value & Hview & _). apply view_known, base_known in Hview as [He|He].
  - apply (f_equal length) in He. rewrite annotation_key_app, length_app in He. cbn [length] in He. by rewrite !length_vertex in He.
  - apply annotation_key_inj in He as [_ He]; [|done|apply a0_ok]. by destruct (Annotations.category a).
Qed.
(** Adding a subtype. *)
Lemma with_edge a b s :
  in_type AttributeType a → in_type AttributeType b → types_ok s → annotations_ok s → no_annotation s →
  ∃ s', TypeWriter.storage_put_edge (Sub AttributeType) (a, b) s = Val s' ∧ types_ok s' ∧ annotations_ok s' ∧ no_annotation s' ∧
    (has SubEdge (a, b) s' ∧ ∀ k e, (k, e) ≠ (SubEdge, (a, b)) → has k e s' ↔ has k e s) ∧
    view (SchemaIDAllocator.into_storage_key a0) s' = view (SchemaIDAllocator.into_storage_key a0) s.
Proof.
  intros Ha Hb Hty Hok Hno. assert (Hw : well_typed SubEdge (a, b)) by (by exists KAttribute).
  destruct (put_edge_spec s (an_schema s Hok) SubEdge (a, b) Hw (Sub AttributeType) (conj eq_refl eq_refl)) as (s' & Hs' & (Hs & Hh & He) & Hc).
  exists s'. split; [done|]. destruct (edges_keep_annotations s s' Hok Hs) as [Hok' Hd].
  { eapply confined_weaken; [|exact Hc]. intros x [-> | ->]; by eexists _, _, _. }
  split_and!; [|done| | |done|].
  - apply (types_kept (pair_of SubEdge (a, b)) s s' Hty Hc). intros k [Hk|Hk]; apply (f_equal snd) in Hk; cbn [snd] in Hk; rewrite Hk; apply other_kind_key; by intros [].
  - intros v x Hv. rewrite Hd. by apply Hno.
  - apply Hh. by eexists.
  - apply (confined_view _ _ _ _ Hc); [cbn; lia|]. intros [He'|He']; apply (f_equal snd), (f_equal length) in He'; rewrite key_at_length in He'; cbn [SchemaIDAllocator.into_storage_key snd] in He'; by rewrite length_vertex in He'.
Qed.
Lemma ranged_storable : storable (AnnRange r10).
Proof.
  split; [left; by eexists|]. exists CatInteger. split; intros v [= <-]; (split; [unfold storable_value, is_i64; lia|done]).
Qed.
Record example_facts (s : WriteSnapshot) : Prop := {
  ef_types : types_ok s;
  ef_annotations : annotations_ok s;
  ef_sub : ∀ x y, sub s x y ↔ (x = a1 ∧ y = a0) ∨ (x = a2 ∧ y = a1);
  ef_declared : ∀ v a, is_vertex v → declared v a s ↔ v = a0 ∧ a = AnnRange r10;
  ef_exists : type_exists KAttribute a0 s;
}.
Lemma ranged_facts : example_facts ranged.
Proof.
  destruct (with_edge a1 a0 with_value_type a1_ok a0_ok base_types base_annotations base_none) as (s1 & Hs1 & Hty1 & Hok1 & Hno1 & (Hh1 & He1) & Hx1).
  destruct (with_edge a2 a1 s1 a2_ok a1_ok Hty1 Hok1 Hno1) as (s2 & Hs2 & Hty2 & Hok2 & Hno2 & (Hh2 & He2) & Hx2).
  destruct (set_annotation_spec s2 Hok2 KAttribute a0 a0_ok (AnnRange r10) eq_refl ranged_storable) as (s3 & Hs3 & Hok3 & Hnow & Helse & Hhas).
  unfold ranged, with_a2, with_a1. rewrite Hs1. cbn [or_empty]. rewrite Hs2. cbn [or_empty]. rewrite Hs3. cbn [or_empty].
  assert (Hc3 : confined (λ x, x = annotation_storage_key a0 CRange) s2 s3).
  { destruct (annotation_round_trip (OnType KAttribute) (AnnRange r10) eq_refl ranged_storable) as (value & Hv & _). unfold set_type_annotation in Hs3. rewrite Hv in Hs3.
    cbn [mbind exec_bind] in Hs3. destruct (put_spec (annotation_storage_key a0 CRange) s2 (sc_snapshot s2 (an_schema s2 Hok2)) ltac:(cbn; lia) value (annotation_key_bytes _ _)) as (s' & Hs' & Hc & _).
    cbn [Annotations.category] in Hs3. rewrite Hs' in Hs3. by injection Hs3 as <-. }
  split; [|done|..].
  - apply (types_kept _ _ _ Hty2 Hc3). intros k Hk. apply (f_equal snd) in Hk. cbn [snd] in Hk. rewrite Hk. apply other_kind_key. by intros [].
  - intros x y. unfold sub. rewrite Hhas. destruct (decide ((x, y) = (a2, a1))) as [[= -> ->]|Hn]; [naive_solver|]. rewrite He2 by congruence.
    destruct (decide ((x, y) = (a1, a0))) as [[= -> ->]|Hn']; [naive_solver|]. rewrite He1 by congruence. split; [|naive_solver].
    intros [_ [v Hv]]. by rewrite (base_view false SubEdge (x, y)) in Hv.
  - intros v a Hv. destruct (decide (v = a0 ∧ Annotations.category a = CRange)) as [[-> Hc]|Hn].
    + rewrite Hnow by done. naive_solver.
    + rewrite Helse by (done || (destruct (decide (v = a0)); tauto)). split; [by intros ?%Hno2|]. intros [-> ->]. by destruct Hn.
  - split; [apply a0_ok|]. rewrite (confined_view _ _ _ _ Hc3); [|cbn; lia|].
    + rewrite Hx2, Hx1. vm_compute. by eexists.
    + intros He. apply (f_equal snd), (f_equal length) in He. unfold annotation_storage_key, SchemaIDAllocator.into_storage_key in He. cbn [snd] in He. rewrite annotation_key_app, length_app in He. cbn [length] in He. by rewrite !length_vertex in He.
Qed.
Lemma a_order : a0 < a1 ∧ a1 < a2.
Proof. by vm_compute. Qed.
Lemma ranged_hierarchy : hierarchy_ok ranged.
Proof.
  pose proof a_order as Ha. split.
  - intros x y z Hy%(ef_sub _ ranged_facts) Hz%(ef_sub _ ranged_facts). lia.
  - assert (∀ x y, tc (sub ranged) x y → y < x) as Hlt.
    { intros x y Ht. induction Ht as [x y Hs|x y z Hs _ IH]; apply (ef_sub _ ranged_facts) in Hs; lia. }
    intros x Hx%Hlt. lia.
Qed.
Lemma ranged_fuel : (S (entries SCHEMA ranged) < 20)%nat.
Proof. vm_compute. lia. Qed.
End AnnotationExample.
Import AnnotationExample.

(** The operation returned a snapshot. *)
Definition is_val {E A} (m : exec E A) : bool := match m with Val _ => true | _ => false end.
Lemma val_returns {E A} (m : exec E A) : is_val m = true → ∃ a, m = Val a.
Proof. destruct m as [a| |]; [by exists a|done..]. Qed.
Definition is_clean {E A} (m : exec E (list A)) : bool := match m with Val [] => true | _ => false end.
Lemma clean_returns {E A} (m : exec E (list A)) : is_clean m = true → m = Val [].
Proof. by destruct m as [[]| |]. Qed.
Lemma type_annotations_read_back_witness :
  ∃ s', set_type_annotation KAttribute a1 AnnIndependent ranged = Val s' ∧ annotations_ok s' ∧ has SubEdge (a1, a0) s' ∧
    ∀ fuel, fits fuel SCHEMA s' → ∃ l, get_type_annotations_declared fuel KAttribute a1 s' = Val l ∧ AnnIndependent ∈ l.
Proof.
  destruct (type_annotations_read_back KAttribute a1 AnnIndependent ranged (ef_annotations _ ranged_facts) a1_ok eq_refl I) as [(s' & Hs' & Hok & Hhas & _ & Hl) _].
  exists s'. split; [exact Hs'|]. split; [exact Hok|]. split.
  - apply Hhas, (ef_sub _ ranged_facts). left. split; reflexivity.
  - intros fuel Hf. destruct (Hl fuel Hf) as (l & Hr & Hin). exists l. split; [exact Hr|]. apply Hin. left. reflexivity.
Defined.
Lemma constraints_are_inherited_witness :
  ∃ l, get_type_constraints 20 KAttribute a2 ranged = Val l ∧ mk_Constraint (DRange r10) a0 ∈ l.
Proof.
  destruct (constraints_are_inherited 20 KAttribute a2 ranged (ef_annotations _ ranged_facts) ranged_hierarchy ranged_fuel a2_ok) as [(l & Hl & Hin) _].
  exists l. split; [exact Hl|]. apply Hin. split; [|split].
  - apply (rtc_l _ a2 a1 a0); [|apply rtc_once]; apply (ef_sub _ ranged_facts); [right|left]; split; reflexivity.
  - exists (AnnRange r10). split; [reflexivity|]. apply (ef_declared _ ranged_facts); [apply a0_ok|split; reflexivity].
  - intros Hd. discriminate Hd.
Defined.
Lemma abstract_types_have_abstract_supertypes_witness :
  ∃ s', set_type_annotation_abstract 20 KAttribute a0 ranged = Val s' ∧ abstract_ok KAttribute s'.
Proof.
  destruct (abstract_types_have_abstract_supertypes 20 KAttribute a0 ranged (ef_annotations _ ranged_facts) ranged_hierarchy ranged_fuel) as [H _].
  - intros HK. discriminate HK.
  - apply a0_ok.
  - intros a b Ha _ Hd. apply (ef_declared _ ranged_facts) in Hd as [_ Hd]; [discriminate Hd|apply Ha].
  - destruct (val_returns (set_type_annotation_abstract 20 KAttribute a0 ranged)) as [s' Hs]; [vm_compute; reflexivity|].
    exists s'. split; [exact Hs|]. exact (proj1 (proj2 (H s' Hs))).
Defined.
Lemma ranged_narrow : ranges_narrow ranged.
Proof.
  intros x y r above Hx Hxy Hd Hd'. apply (ef_declared _ ranged_facts) in Hd as [-> _]; [|apply Hx].
  exfalso. assert (∃ b, sub ranged a0 b) as [b Hs] by (inversion Hxy; eauto). apply (ef_sub _ ranged_facts) in Hs. pose proof a_order. lia.
Qed.
Lemma ranges_narrow_down_the_hierarchy_witness :
  ∃ s', set_annotation_range 20 a1 r10 ranged = Val s' ∧ ranges_narrow s'.
Proof.
  destruct (ranges_narrow_down_the_hierarchy 20 a1 r10 ranged (ef_annotations _ ranged_facts) ranged_hierarchy ranged_fuel a1_ok ranged_storable ranged_narrow) as [H _].
  destruct (val_returns (set_annotation_range 20 a1 r10 ranged)) as [s' Hs]; [vm_compute; reflexivity|].
  exists s'. split; [exact Hs|]. exact (proj1 (proj2 (H s' Hs))).
Defined.
Lemma inner_type_cannot_narrow_witness :
  ∃ s', set_annotation_range 20 a1 r10 ranged = Val s' ∧ Ranges.value_valid r10 (VInteger 4) = Val true.
Proof.
  destruct (val_returns (set_annotation_range 20 a1 r10 ranged)) as [s' Hs]; [vm_compute; reflexivity|]. exists s'. split; [exact Hs|].
  apply (inner_type_cannot_narrow 20 a2 a1 a0 r10 r10 ranged s' (ef_annotations _ ranged_facts) ranged_hierarchy ranged_fuel a1_ok).
  - apply (ef_sub _ ranged_facts). right. split; reflexivity.
  - apply tc_once, (ef_sub _ ranged_facts). left. split; reflexivity.
  - apply (ef_declared _ ranged_facts); [apply a0_ok|split; reflexivity].
  - exact Hs.
  - vm_compute. reflexivity.
Defined.
Lemma subtype_values_are_not_checked_witness : validate_subtypes_narrow_values 20 a0 (mk_AnnotationValues [VInteger 3]) ranged = Val tt.
Proof.
  apply (subtype_values_are_not_checked 20 a0 (mk_AnnotationValues [VInteger 3]) ranged (ef_annotations _ ranged_facts) ranged_hierarchy ranged_fuel a0_ok).
  intros x y r Hx Hy Hd. apply (ef_declared _ ranged_facts) in Hd as [_ Hd]; [discriminate Hd|].
  apply (rtc_in_type ranged KAttribute x y); [apply (tc_in_type ranged _ (kind_closed KAttribute) x a0 Hx), a0_ok|exact Hy].
Defined.
Lemma committed_attribute_types_are_consistent_witness :
  validate_attribute_types 20 ranged [] = Val [] ∧ consistent a2 ranged.
Proof.
  destruct (committed_attribute_types_are_consistent 20 ranged (ef_types _ ranged_facts) (ef_annotations _ ranged_facts) ranged_hierarchy ranged_fuel) as [_ H].
  assert (Hv : validate_attribute_types 20 ranged [] = Val []) by (apply clean_returns; vm_compute; reflexivity). split; [exact Hv|].
  apply (H Hv a0 a2 (ef_exists _ ranged_facts)).
  - intros b Hs. apply (ef_sub _ ranged_facts) in Hs. pose proof a_order. lia.
  - apply (rtc_l _ a2 a1 a0); [|apply rtc_once]; apply (ef_sub _ ranged_facts); [right|left]; split; reflexivity.
Defined.
