(* ===== verification/Block.v ===== *)
(** * Scopes and variables of a block

    The bookkeeping of a query block while its patterns are built
    ([ir/pipeline/block.rs], the variable registry of [ir/pipeline/mod.rs]):
    the tree of scopes, the scope each variable is declared in and how it moves
    when the variable is used elsewhere, and the categories of variables. *)
From S2P Require Import Prelude Layout Pattern.
From stdpp Require Import countable gmap relations.
#[local] Open Scope Z_scope.

Definition u16 (z : Z) : Z := z mod 2 ^ 16.

Inductive ScopeType := ScopeInput | ScopeConjunction | ScopeDisjunction | ScopeNegation | ScopeOptional.
#[global] Instance ScopeType_eq_dec : EqDecision ScopeType.
Proof. solve_decision. Defined.
Inductive VariableLocality := LocParent | LocLocal | LocNone.

(** [ScopeId::INPUT] and [ScopeId::ROOT]. *)
Definition INPUT : Z := 0.
Definition ROOT : Z := 1.

(** ** The scope tree

    The functions walk from a scope to its parent; parents are allocated before
    their children ([scopes_ok]), so the walk from a scope takes at most as
    many steps as its id.  The recursion is on that bound. *)
Abbreviation parent_map := (gmap Z Z).
Definition walk (scope : Z) : nat := S (Z.to_nat scope).

Fixpoint is_equal_or_parent_scope_from (fuel : nat) (parents : parent_map) (scope maybe_parent : Z) : bool :=
  match fuel with
  | O => false
  | S fuel =>
      bool_decide (scope = maybe_parent) ||
      match parents !! scope with
      | Some p => is_equal_or_parent_scope_from fuel parents p maybe_parent
      | None => false
      end
  end.
Definition is_equal_or_parent_scope (parents : parent_map) (scope maybe_parent : Z) : bool :=
  is_equal_or_parent_scope_from (walk scope) parents scope maybe_parent.

Fixpoint is_child_scope_from (fuel : nat) (parents : parent_map) (scope maybe_child : Z) : bool :=
  match fuel with
  | O => false
  | S fuel =>
      match parents !! maybe_child with
      | Some c => bool_decide (c = scope) || is_child_scope_from fuel parents scope c
      | None => false
      end
  end.
Definition is_child_scope (parents : parent_map) (scope maybe_child : Z) : bool :=
  is_child_scope_from (walk maybe_child) parents scope maybe_child.

(** [None] of an outer [option] is a walk that does not end. *)
Fixpoint lowest_common_ancestor_from {E} (fuel : nat) (parents : parent_map) (left right : Z) : option (exec E Z) :=
  match fuel with
  | O => None
  | S fuel =>
      if bool_decide (left = right) || is_child_scope parents left right then Some (Val left)
      else if is_child_scope parents right left then Some (Val right)
      else
        match parents !! left, parents !! right with
        | Some l, Some r => lowest_common_ancestor_from fuel parents l r
        | _, _ => Some Panic
        end
  end.

Fixpoint lowest_parent_conjunction_or_negation_from {E} (fuel : nat) (parents : parent_map) (scope_types : gmap Z ScopeType)
    (scope_id : Z) : option (exec E Z) :=
  match fuel with
  | O => None
  | S fuel =>
      match scope_types !! scope_id with
      | None => Some Panic
      | Some t =>
          if bool_decide (t = ScopeConjunction) || bool_decide (t = ScopeNegation) then Some (Val scope_id)
          else match parents !! scope_id with
               | None => Some Panic
               | Some p => lowest_parent_conjunction_or_negation_from fuel parents scope_types p
               end
      end
  end.

(** ** The block context *)
Record BlockContext := {
  variable_declaration : gmap Var Z;
  scope_parents : parent_map;
  bc_referenced_variables : gset Var;
  scope_types : gmap Z ScopeType;
}.

Definition bc_new : BlockContext :=
  {| variable_declaration := ∅; scope_parents := ∅; bc_referenced_variables := ∅; scope_types := ∅ |}.
Definition with_declaration (v : Var) (s : Z) (c : BlockContext) : BlockContext :=
  {| variable_declaration := <[v := s]> (variable_declaration c); scope_parents := scope_parents c;
     bc_referenced_variables := bc_referenced_variables c; scope_types := scope_types c |}.
Definition add_referenced_variable (v : Var) (c : BlockContext) : BlockContext :=
  {| variable_declaration := variable_declaration c; scope_parents := scope_parents c;
     bc_referenced_variables := {[v]} ∪ bc_referenced_variables c; scope_types := scope_types c |}.
Definition add_input_declaration (v : Var) (c : BlockContext) : BlockContext := with_declaration v INPUT c.
Definition add_variable_declaration (v : Var) (s : Z) (c : BlockContext) : BlockContext :=
  add_referenced_variable v (with_declaration v s c).
Definition declare_scope (s : Z) (t : ScopeType) (c : BlockContext) : BlockContext :=
  {| variable_declaration := variable_declaration c; scope_parents := scope_parents c;
     bc_referenced_variables := bc_referenced_variables c; scope_types := <[s := t]> (scope_types c) |}.
Definition set_scope_parent (s p : Z) (c : BlockContext) : BlockContext :=
  {| variable_declaration := variable_declaration c; scope_parents := <[s := p]> (scope_parents c);
     bc_referenced_variables := bc_referenced_variables c; scope_types := scope_types c |}.

Definition may_update_declaration_scope {E} (v : Var) (scope : Z) (c : BlockContext) : option (exec E BlockContext) :=
  let c := add_referenced_variable v c in
  match variable_declaration c !! v with
  | None => Some Panic
  | Some recorded =>
      if is_equal_or_parent_scope (scope_parents c) scope recorded then Some (Val c)
      else if is_child_scope (scope_parents c) scope recorded then Some (Val (with_declaration v scope c))
      else
        match lowest_common_ancestor_from (walk recorded) (scope_parents c) recorded scope with
        | Some (Val ancestor) =>
            match lowest_parent_conjunction_or_negation_from (E:=E) (walk ancestor) (scope_parents c) (scope_types c) ancestor with
            | Some (Val s) => Some (Val (with_declaration v s c))
            | Some (Err e) => Some (Err e)
            | Some Panic => Some Panic
            | None => None
            end
        | Some (Err e) => Some (Err e)
        | Some Panic => Some Panic
        | None => None
        end
  end.

Definition get_declaring_scope (v : Var) (c : BlockContext) : option Z := variable_declaration c !! v.
Definition is_variable_available_in (scope : Z) (v : Var) (c : BlockContext) : bool :=
  match variable_declaration c !! v with
  | Some s => is_equal_or_parent_scope (scope_parents c) scope s
  | None => false
  end.
Fixpoint bc_is_child_scope_from (fuel : nat) (c : BlockContext) (child ancestor : Z) : bool :=
  match fuel with
  | O => false
  | S fuel =>
      match scope_parents c !! child with
      | None => false
      | Some parent => bool_decide (parent = ancestor) || bc_is_child_scope_from fuel c parent ancestor
      end
  end.
Definition bc_is_child_scope (c : BlockContext) (child ancestor : Z) : bool :=
  bc_is_child_scope_from (walk child) c child ancestor.
Definition variable_locality_in_scope (v : Var) (scope : Z) (c : BlockContext) : outcome VariableLocality :=
  match variable_declaration c !! v with
  | None => Panic
  | Some s =>
      Val (if bool_decide (s = scope) then LocLocal
           else if bc_is_child_scope c scope s then LocParent else LocNone)
  end.

(** ** The registry of variables *)
(** The errors raised by the modelled operations, without source spans. *)
Inductive RepresentationError :=
| VariablesOverflow (variable_count : Z)
| VariableCategoryMismatch (variable_name : string) (category_1 category_2 : VariableCategory)
| UnboundVariable (variable : string)
| LocallyBoundVariableReuse (name : string)
| UnboundRequiredVariable (variable : string)
| VariableCategoryMismatchInIs (lhs_variable rhs_variable : string) (lhs_category rhs_category : VariableCategory).

(** [SourceReduce] carries a reducer, which no operation reads. *)
Inductive VariableCategorySource := SourceConstraint (c : Constraint) | SourceReduce | SourceArgument | SourceDelete.

Record VariableRegistry := {
  branch_id_allocator : Z;
  variable_names : gmap Var string;
  variable_id_allocator : Z;
  variable_categories : gmap Var (VariableCategory * VariableCategorySource);
}.
Definition registry_new : VariableRegistry :=
  {| branch_id_allocator := 0; variable_names := ∅; variable_id_allocator := 0; variable_categories := ∅ |}.
Definition next_branch_id (r : VariableRegistry) : VariableRegistry * Z :=
  ({| branch_id_allocator := u16 (branch_id_allocator r + 1); variable_names := variable_names r;
      variable_id_allocator := variable_id_allocator r; variable_categories := variable_categories r |},
   branch_id_allocator r).
(** [checked_add] on a [u16]. *)
Definition allocate_variable (anonymous : bool) (r : VariableRegistry) : exec RepresentationError (VariableRegistry * Var) :=
  let v := {| var_id := variable_id_allocator r; var_anonymous := anonymous |} in
  if variable_id_allocator r + 1 <? 2 ^ 16 then
    Val ({| branch_id_allocator := branch_id_allocator r; variable_names := variable_names r;
            variable_id_allocator := variable_id_allocator r + 1; variable_categories := variable_categories r |}, v)
  else Err (VariablesOverflow (variable_id_allocator r)).
Definition with_names (names : gmap Var string) (r : VariableRegistry) : VariableRegistry :=
  {| branch_id_allocator := branch_id_allocator r; variable_names := names;
     variable_id_allocator := variable_id_allocator r; variable_categories := variable_categories r |}.
Definition with_categories (cats : gmap Var (VariableCategory * VariableCategorySource)) (r : VariableRegistry) : VariableRegistry :=
  {| branch_id_allocator := branch_id_allocator r; variable_names := variable_names r;
     variable_id_allocator := variable_id_allocator r; variable_categories := cats |}.
Definition register_variable_named (name : string) (r : VariableRegistry) : exec RepresentationError (VariableRegistry * Var) :=
  '(r, v) ← allocate_variable false r;
  Val (with_names (<[v := name]> (variable_names r)) r, v).
Definition register_anonymous_variable (r : VariableRegistry) : exec RepresentationError (VariableRegistry * Var) :=
  allocate_variable true r.
Definition set_variable_category (v : Var) (category : VariableCategory) (source : VariableCategorySource)
    (r : VariableRegistry) : exec RepresentationError VariableRegistry :=
  match variable_categories r !! v with
  | None => Val (with_categories (<[v := (category, source)]> (variable_categories r)) r)
  | Some (existing_category, existing_source) =>
      match narrowest existing_category category with
      | None => Err (VariableCategoryMismatch (default "$<INTERNAL>"%string (variable_names r !! v)) category existing_category)
      | Some narrowed =>
          if bool_decide (narrowed = existing_category) then Val r
          else Val (with_categories (<[v := (narrowed, source)]> (variable_categories r)) r)
      end
  end.
Definition get_variable_category (v : Var) (r : VariableRegistry) : option VariableCategory := fst <$> variable_categories r !! v.

(** ** The builder *)
Record BlockBuilderContext := {
  variable_registry : VariableRegistry;
  variable_names_index : gmap string Var;
  block_context : BlockContext;
  scope_id_allocator : Z;
}.
Definition builder_new (registry : VariableRegistry) (available_input_names : gmap string Var) : BlockBuilderContext :=
  let c := map_fold (λ _ v c, add_input_declaration v c) bc_new available_input_names in
  let c := declare_scope ROOT ScopeConjunction c in
  let c := declare_scope INPUT ScopeInput c in
  let c := set_scope_parent ROOT INPUT c in
  {| variable_registry := registry; variable_names_index := available_input_names; block_context := c;
     scope_id_allocator := 2 |}.
Definition with_block_context (c : BlockContext) (b : BlockBuilderContext) : BlockBuilderContext :=
  {| variable_registry := variable_registry b; variable_names_index := variable_names_index b; block_context := c;
     scope_id_allocator := scope_id_allocator b |}.
Definition get_or_declare_variable (name : string) (scope : Z) (b : BlockBuilderContext)
    : option (exec RepresentationError (BlockBuilderContext * Var)) :=
  match variable_names_index b !! name with
  | None =>
      Some ('(r, v) ← register_variable_named name (variable_registry b);
            Val ({| variable_registry := r; variable_names_index := <[name := v]> (variable_names_index b);
                    block_context := add_variable_declaration v scope (block_context b);
                    scope_id_allocator := scope_id_allocator b |}, v))
  | Some v =>
      match may_update_declaration_scope v scope (block_context b) with
      | Some m => Some (c ← m; Val (with_block_context c b, v))
      | None => None
      end
  end.
Definition create_anonymous_variable (scope : Z) (b : BlockBuilderContext) : exec RepresentationError (BlockBuilderContext * Var) :=
  '(r, v) ← register_anonymous_variable (variable_registry b);
  Val ({| variable_registry := r; variable_names_index := variable_names_index b;
          block_context := add_variable_declaration v scope (block_context b);
          scope_id_allocator := scope_id_allocator b |}, v).
Definition create_child_scope (parent : Z) (t : ScopeType) (b : BlockBuilderContext) : BlockBuilderContext * Z :=
  let scope := scope_id_allocator b in
  ({| variable_registry := variable_registry b; variable_names_index := variable_names_index b;
      block_context := set_scope_parent scope parent (declare_scope scope t (block_context b));
      scope_id_allocator := u16 (scope_id_allocator b + 1) |}, scope).

(** ** Variables bound only in children of the scope that declares them

    [find_disjoint_variable]; [Some v] is [ControlFlow::Break].  A [HashMap] is
    iterated in no particular order, here in that of the finite map. *)
Definition first_disjoint (scope_id : Z) (c : BlockContext) (entries : list (Var * VariableBindingMode)) : outcome (option Var) :=
  fold_left (λ (acc : outcome (option Var)) (e : Var * VariableBindingMode),
    r ← acc;
    match r with
    | Some v => Val (Some v)
    | None =>
        scope ← unwrap (get_declaring_scope e.1 c);
        Val (if bool_decide (scope = scope_id) &&
                (bool_decide (mode e.2 = LocallyBindingInChild) || bool_decide (mode e.2 = OptionallyBinding))
             then Some e.1 else None)
    end) entries (Val None).
Definition break_or (a : outcome (option Var)) (b : outcome (option Var)) : outcome (option Var) :=
  r ← a; match r with Some v => Val (Some v) | None => b end.
Fixpoint find_disjoint_variable (ctx : BlockContext) (c : Conjunction) : outcome (option Var) :=
  match c with
  | MkConjunction scope cs ns =>
      break_or (first_disjoint scope ctx (map_to_list (variable_binding_modes c)))
        (fold_right break_or (Val None) (List.map (nested_find_disjoint_variable ctx) ns))
  end
with nested_find_disjoint_variable (ctx : BlockContext) (n : NestedPattern) : outcome (option Var) :=
  match n with
  | PDisjunction cs _ _ => fold_right break_or (Val None) (List.map (find_disjoint_variable ctx) cs)
  | PNegation c => find_disjoint_variable ctx c
  | POptional c _ => find_disjoint_variable ctx c
  end.

(** ** The checks of a finished block *)
Definition get_variable_name_or_unnamed (v : Var) (r : VariableRegistry) : string := default "_anonymous"%string (variable_names r !! v).
Definition is_unbound (r : VariableRegistry) (v : Var) : bool :=
  match get_variable_category v r with Some CAttributeOrValue | None => true | Some _ => false end.
(** The categories of the two variables of an [is], when they do not meet. *)
Definition is_mismatch (r : VariableRegistry) (c : Constraint) : exec RepresentationError (option RepresentationError) :=
  match c with
  | Is lhs rhs =>
      l ← unwrap (as_variable lhs);
      lc ← unwrap (get_variable_category l r);
      rv ← unwrap (as_variable rhs);
      rc ← unwrap (get_variable_category rv r);
      Val (match narrowest lc rc with
           | Some _ => None
           | None => Some (VariableCategoryMismatchInIs (get_variable_name_or_unnamed l r) (get_variable_name_or_unnamed rv r) lc rc)
           end)
  | _ => Val None
  end.
Definition check_is (r : VariableRegistry) (acc : exec RepresentationError unit) (c : Constraint) : exec RepresentationError unit :=
  _ ← acc; o ← is_mismatch r c; match o with Some e => Err e | None => Val tt end.
Fixpoint validate_is_variables_have_same_category (r : VariableRegistry) (c : Conjunction) : exec RepresentationError unit :=
  match c with
  | MkConjunction _ cs ns =>
      _ ← fold_left (check_is r) cs (Val tt);
      fold_right (λ a b, _ ← a; b) (Val tt) (List.map (nested_validate_is r) ns)
  end
with nested_validate_is (r : VariableRegistry) (n : NestedPattern) : exec RepresentationError unit :=
  match n with
  | PDisjunction cs _ _ => fold_right (λ a b, _ ← a; b) (Val tt) (List.map (validate_is_variables_have_same_category r) cs)
  | PNegation c => validate_is_variables_have_same_category r c
  | POptional c _ => validate_is_variables_have_same_category r c
  end.
Definition requires_input (ctx : BlockContext) (e : Var * VariableBindingMode) : bool :=
  bool_decide (mode e.2 = RequirePrebound) && negb (bool_decide (get_declaring_scope e.1 ctx = Some INPUT)).
Definition validate_conjunction (c : Conjunction) (r : VariableRegistry) (ctx : BlockContext) : exec RepresentationError unit :=
  match List.find (is_unbound r) (referenced_variables c) with
  | Some v => Err (UnboundVariable (get_variable_name_or_unnamed v r))
  | None =>
      d ← map_err (λ e : Empty_set, match e with end) (find_disjoint_variable ctx c);
      match d with
      | Some v => Err (LocallyBoundVariableReuse (get_variable_name_or_unnamed v r))
      | None =>
          match List.find (requires_input ctx) (map_to_list (variable_binding_modes c)) with
          | Some e => Err (UnboundRequiredVariable (get_variable_name_or_unnamed e.1 r))
          | None => validate_is_variables_have_same_category r c
          end
      end
  end.

(** ** The shape of the scope tree *)
Definition up (p : parent_map) (x y : Z) : Prop := p !! x = Some y.
Definition ancestor (p : parent_map) (a s : Z) : Prop := rtc (up p) s a.

Lemma ancestor_trans p a b c : ancestor p a b → ancestor p b c → ancestor p a c.
Proof. unfold ancestor. intros. by etrans. Qed.

Record scopes_ok (p : parent_map) (t : gmap Z ScopeType) : Prop := {
  so_older : ∀ x y, p !! x = Some y → 0 ≤ y < x;
  so_root : t !! ROOT = Some ScopeConjunction;
  so_input : t !! INPUT = Some ScopeInput;
  so_root_parent : p !! ROOT = Some INPUT;
  so_below_root : ∀ x, is_Some (t !! x) → x = INPUT ∨ ancestor p ROOT x;
  so_typed : ∀ x y, p !! x = Some y → is_Some (t !! x) ∧ is_Some (t !! y);
}.

Section tree.
Context (p : parent_map) (Holder : ∀ x y, p !! x = Some y → 0 ≤ y < x).

Lemma is_equal_or_parent_scope_spec s a : is_equal_or_parent_scope p s a = true ↔ ancestor p a s.
Proof.
  unfold is_equal_or_parent_scope, walk.
  assert (∀ fuel s, (Z.to_nat s < fuel)%nat → is_equal_or_parent_scope_from fuel p s a = true ↔ ancestor p a s) as G.
  { clear s. induction fuel as [|fuel IH]; intros s Hf; [lia|]. cbn [is_equal_or_parent_scope_from].
    rewrite orb_true_iff, bool_decide_eq_true. destruct (p !! s) as [y|] eqn:E.
    - pose proof (Holder _ _ E). rewrite IH by lia. split.
      + intros [->|Ha]; [apply rtc_refl|]. by eapply rtc_l.
      + intros Ha. inversion Ha as [|? z ? Hz]; subst; [by left|]. unfold up in Hz. simplify_eq. by right.
    - split; [intros [->|]; [apply rtc_refl|done]|].
      intros Ha. inversion Ha as [|? z ? Hz]; subst; [by left|]. unfold up in Hz. by simplify_eq. }
  apply G. lia.
Qed.
Lemma is_child_scope_spec s c : is_child_scope p s c = true ↔ tc (up p) c s.
Proof.
  unfold is_child_scope, walk.
  assert (∀ fuel c, (Z.to_nat c < fuel)%nat → is_child_scope_from fuel p s c = true ↔ tc (up p) c s) as G.
  { clear c. induction fuel as [|fuel IH]; intros c Hf; [lia|]. cbn [is_child_scope_from].
    destruct (p !! c) as [y|] eqn:E.
    - pose proof (Holder _ _ E). rewrite orb_true_iff, bool_decide_eq_true, IH by lia. split.
      + intros [->|Ha]; [by apply tc_once|]. by eapply tc_l.
      + intros Ha. inversion Ha as [? ? Hz|? z ? Hz]; subst; unfold up in Hz; simplify_eq; auto.
    - split; [done|]. intros Ha. inversion Ha as [? ? Hz|? z ? Hz]; subst; unfold up in Hz; by simplify_eq. }
  apply G. lia.
Qed.
Lemma is_child_scope_false s c : is_child_scope p s c = false ↔ ¬ tc (up p) c s.
Proof. rewrite <-is_child_scope_spec. by destruct (is_child_scope p s c). Qed.
Lemma ancestor_cases a s : ancestor p a s ↔ a = s ∨ tc (up p) s a.
Proof.
  split.
  - intros [->|[z [Hz Hr]]]%rtc_inv; [by left|]. right. by eapply tc_rtc_r; [apply tc_once|].
  - intros [->|Ht]; [apply rtc_refl|]. by apply tc_rtc.
Qed.
Lemma ancestor_parent a s y : p !! s = Some y → a ≠ s → ancestor p a s → ancestor p a y.
Proof. intros Hy Hne [->|[z [Hz Hr]]]%rtc_inv; [done|]. unfold up in Hz. by simplify_eq. Qed.

Lemma lowest_common_ancestor_spec {E} fuel l r x :
  (Z.to_nat l < fuel)%nat → ancestor p x l → ancestor p x r →
  ∃ d, lowest_common_ancestor_from (E:=E) fuel p l r = Some (Val d) ∧ ancestor p d l ∧ ancestor p d r ∧
    ∀ a, ancestor p a l → ancestor p a r → ancestor p a d.
Proof.
  revert l r. induction fuel as [|fuel IH]; intros l r Hf Hl Hr; [lia|]. cbn [lowest_common_ancestor_from].
  destruct (bool_decide (l = r) || is_child_scope p l r) eqn:E1.
  { exists l. apply orb_true_iff in E1. rewrite bool_decide_eq_true, is_child_scope_spec in E1.
    split_and!; [done|apply rtc_refl| |done]. apply ancestor_cases. naive_solver. }
  destruct (is_child_scope p r l) eqn:E2.
  { exists r. apply is_child_scope_spec in E2. split_and!; [done|by apply tc_rtc|apply rtc_refl|done]. }
  apply orb_false_iff in E1 as [Hne%bool_decide_eq_false E1].
  apply is_child_scope_false in E1. apply is_child_scope_false in E2.
  assert (∀ a, ancestor p a l → ancestor p a r → a ≠ l ∧ a ≠ r) as Hna.
  { intros a Hal Har. apply ancestor_cases in Hal, Har. naive_solver. }
  destruct (Hna x Hl Hr) as [Hxl Hxr].
  destruct (rtc_inv _ _ Hl) as [->|[lp [Hlp _]]]; [done|].
  destruct (rtc_inv _ _ Hr) as [->|[rp [Hrp _]]]; [done|].
  unfold up in Hlp, Hrp. rewrite Hlp, Hrp. pose proof (Holder _ _ Hlp).
  destruct (IH lp rp) as (d & -> & Hdl & Hdr & Hlow).
  { lia. } { by eapply ancestor_parent. } { by eapply ancestor_parent. }
  exists d. split_and!; [done|by eapply rtc_l|by eapply rtc_l|].
  intros a Hal Har. destruct (Hna a Hal Har). apply Hlow; by eapply ancestor_parent.
Qed.
End tree.

(** A scope a variable can be declared in when it is shared by siblings. *)
Definition declaring (t : gmap Z ScopeType) (s : Z) : Prop :=
  t !! s = Some ScopeConjunction ∨ t !! s = Some ScopeNegation.

Section scopes.
Context (p : parent_map) (t : gmap Z ScopeType) (Hok : scopes_ok p t).

Lemma ancestor_typed a s : is_Some (t !! s) → ancestor p a s → is_Some (t !! a).
Proof. intros Hs Ha. induction Ha as [|s y a Hy _ IH]; [done|]. apply IH, (so_typed _ _ Hok s y Hy). Qed.
Lemma below_root s : is_Some (t !! s) → s ≠ INPUT → ancestor p ROOT s.
Proof. intros Hs Hne. by destruct (so_below_root _ _ Hok s Hs). Qed.
Lemma input_above s : is_Some (t !! s) → ancestor p INPUT s.
Proof.
  intros Hs. destruct (so_below_root _ _ Hok s Hs) as [->|Hr]; [apply rtc_refl|].
  eapply rtc_r; [exact Hr|]. by apply so_root_parent with t.
Qed.
Lemma root_above_typed s : ancestor p ROOT s → is_Some (t !! s).
Proof.
  intros [->|[y [Hy _]]]%rtc_inv; [by rewrite (so_root _ _ Hok)|]. apply (so_typed _ _ Hok s y Hy).
Qed.

Lemma lowest_parent_spec {E} fuel s :
  (Z.to_nat s < fuel)%nat → ancestor p ROOT s →
  ∃ d, lowest_parent_conjunction_or_negation_from (E:=E) fuel p t s = Some (Val d) ∧ ancestor p d s ∧ declaring t d ∧
    ∀ a, ancestor p a s → declaring t a → ancestor p a d.
Proof.
  revert s. induction fuel as [|fuel IH]; intros s Hf Hs; [lia|]. cbn [lowest_parent_conjunction_or_negation_from].
  destruct (root_above_typed s Hs) as [ts Ets]. rewrite Ets.
  destruct (bool_decide (ts = ScopeConjunction) || bool_decide (ts = ScopeNegation)) eqn:E1.
  - apply orb_true_iff in E1. rewrite !bool_decide_eq_true in E1.
    exists s. split_and!; [done|apply rtc_refl|unfold declaring; naive_solver|done].
  - apply orb_false_iff in E1. rewrite !bool_decide_eq_false in E1. destruct E1 as [Hc Hn].
    assert (¬ declaring t s) as Hnd by (unfold declaring; rewrite Ets; naive_solver).
    destruct (rtc_inv _ _ Hs) as [->|[y [Hy Hr]]].
    { destruct Hnd. left. apply (so_root _ _ Hok). }
    unfold up in Hy. rewrite Hy. pose proof (so_older _ _ Hok _ _ Hy).
    destruct (IH y) as (d & -> & Hd & Hdd & Hlow); [lia|done|].
    exists d. split_and!; [done|by eapply rtc_l|done|].
    intros a Ha Hda. apply Hlow; [|done]. eapply ancestor_parent; [done| |done]. by intros ->.
Qed.
End scopes.

Definition tree_ok (c : BlockContext) : Prop := scopes_ok (scope_parents c) (scope_types c).

(** Where a variable is declared after a use in [scope], from where it was. *)
Record redeclared (c : BlockContext) (recorded scope d : Z) : Prop := {
  rd_recorded : ancestor (scope_parents c) d recorded;
  rd_scope : ancestor (scope_parents c) d scope;
  rd_kind : d = recorded ∨ d = scope ∨ declaring (scope_types c) d;
  rd_lowest : ∀ a, ancestor (scope_parents c) a recorded → ancestor (scope_parents c) a scope →
    declaring (scope_types c) a → ancestor (scope_parents c) a d;
}.

Lemma may_update_spec {E} v scope recorded c :
  tree_ok c → is_Some (scope_types c !! scope) → scope ≠ INPUT →
  variable_declaration c !! v = Some recorded → is_Some (scope_types c !! recorded) →
  ∃ d, may_update_declaration_scope (E:=E) v scope c = Some (Val (with_declaration v d (add_referenced_variable v c))) ∧
    redeclared c recorded scope d.
Proof.
  intros Hok Hscope Hne Hv Hrec. unfold may_update_declaration_scope. cbn [add_referenced_variable variable_declaration scope_parents scope_types].
  rewrite Hv. pose proof (so_older _ _ Hok) as Holder.
  destruct (is_equal_or_parent_scope (scope_parents c) scope recorded) eqn:E1.
  { apply is_equal_or_parent_scope_spec in E1; [|done]. exists recorded. split.
    - unfold with_declaration, add_referenced_variable. cbn. by rewrite insert_id.
    - split; [apply rtc_refl|done|by left|done]. }
  destruct (is_child_scope (scope_parents c) scope recorded) eqn:E2.
  { apply is_child_scope_spec in E2; [|done]. exists scope. split; [done|].
    split; [by apply tc_rtc|apply rtc_refl|by right; left|done]. }
  assert (recorded ≠ INPUT) as Hrne.
  { intros ->. apply not_true_iff_false in E1. apply E1. apply is_equal_or_parent_scope_spec; [done|].
    by eapply input_above. }
  destruct (lowest_common_ancestor_spec (E:=E) _ Holder (walk recorded) recorded scope ROOT)
    as (x & -> & Hx1 & Hx2 & Hlow). { unfold walk; lia. } { by eapply below_root. } { by eapply below_root. }
  destruct (lowest_parent_spec (E:=E) _ _ Hok (walk x) x) as (d & -> & Hd & Hdd & Hdl).
  { unfold walk; lia. } { apply Hlow; by eapply below_root. }
  exists d. split; [done|]. split; [by eapply ancestor_trans|by eapply ancestor_trans|auto|auto].
Qed.

(** ** Building a block *)

(** What the builder keeps: the scopes form a tree below the root, allocated in
    order, every declared variable is declared in a scope of the tree, has an
    id below the registry's allocator, and the index names declared ones. *)
Record builder_ok (b : BlockBuilderContext) : Prop := {
  bo_tree : tree_ok (block_context b);
  bo_allocator : ∀ x, is_Some (scope_types (block_context b) !! x) → x < scope_id_allocator b;
  bo_first : 2 ≤ scope_id_allocator b;
  bo_declared : ∀ v s, variable_declaration (block_context b) !! v = Some s →
    is_Some (scope_types (block_context b) !! s) ∧ var_id v < variable_id_allocator (variable_registry b);
  bo_named : ∀ name v, variable_names_index b !! name = Some v →
    is_Some (variable_declaration (block_context b) !! v);
}.
Definition usable (scope : Z) (b : BlockBuilderContext) : Prop :=
  is_Some (scope_types (block_context b) !! scope) ∧ scope ≠ INPUT.

(** The calls the pattern builders make, with the uses of variables so far and
    the number of child scopes created. *)
Inductive builder_step :
  BlockBuilderContext * list (Var * Z) * Z → BlockBuilderContext * list (Var * Z) * Z → Prop :=
| step_named name scope b b' v uses n :
    usable scope b → get_or_declare_variable name scope b = Some (Val (b', v)) →
    builder_step (b, uses, n) (b', (v, scope) :: uses, n)
| step_anonymous scope b b' v uses n :
    usable scope b → create_anonymous_variable scope b = Val (b', v) →
    builder_step (b, uses, n) (b', (v, scope) :: uses, n)
| step_scope parent ty b uses n :
    usable parent b →
    builder_step (b, uses, n) ((create_child_scope parent ty b).1, uses, n + 1).

Definition available (v : Var) (scope : Z) (b : BlockBuilderContext) : Prop :=
  is_variable_available_in scope v (block_context b) = true.
Lemma available_spec v scope b :
  builder_ok b →
  available v scope b ↔
  ∃ s, variable_declaration (block_context b) !! v = Some s ∧ ancestor (scope_parents (block_context b)) s scope.
Proof.
  intros Hb. unfold available, is_variable_available_in.
  destruct (variable_declaration _ !! v) as [s|] eqn:E; [|naive_solver].
  rewrite (is_equal_or_parent_scope_spec _ (so_older _ _ (bo_tree _ Hb))). naive_solver.
Qed.

Lemma declare_new_ok b r v scope names :
  builder_ok b → usable scope b →
  var_id v = variable_id_allocator (variable_registry b) →
  variable_id_allocator r = variable_id_allocator (variable_registry b) + 1 →
  (∀ n x, names !! n = Some x → variable_names_index b !! n = Some x ∨ x = v) →
  let b' := {| variable_registry := r; variable_names_index := names;
               block_context := add_variable_declaration v scope (block_context b);
               scope_id_allocator := scope_id_allocator b |} in
  builder_ok b' ∧ available v scope b' ∧ ∀ x s, available x s b → available x s b'.
Proof.
  intros Hb [Hs Hne] Hv Hr Hnames b'. destruct (Hb) as [Htree Halloc Hfirst Hdecl Hnamed].
  assert (builder_ok b') as Hb'.
  { split; [done|done|done| |].
    - intros x s. cbn. rewrite lookup_insert_Some, Hr. intros [[<- <-]|[_ [? ?]%Hdecl]]; split; auto; lia.
    - intros n x Hn. cbn. destruct (decide (x = v)) as [->|Hx]; [by rewrite lookup_insert_eq|].
      rewrite lookup_insert_ne by done. destruct (Hnames n x Hn) as [Hi| ->]; [by eapply Hnamed|done]. }
  split; [done|]. split.
  - apply available_spec; [done|]. exists scope. cbn. rewrite lookup_insert_eq. split; [done|apply rtc_refl].
  - intros x s. rewrite !available_spec by done. intros (d & Hd & Ha). exists d. cbn. split; [|done].
    rewrite lookup_insert_ne; [done|]. intros <-. apply Hdecl in Hd as [_ Hlt]. lia.
Qed.

Lemma redeclare_ok b v scope recorded d :
  builder_ok b → usable scope b → variable_declaration (block_context b) !! v = Some recorded →
  redeclared (block_context b) recorded scope d →
  let b' := with_block_context (with_declaration v d (add_referenced_variable v (block_context b))) b in
  builder_ok b' ∧ available v scope b' ∧ ∀ x s, available x s b → available x s b'.
Proof.
  intros Hb [Hs Hne] Hv [Hdr Hds _ _] b'. destruct (Hb) as [Htree Halloc Hfirst Hdecl Hnamed].
  assert (builder_ok b') as Hb'.
  { split; [done|done|done| |].
    - intros x s. cbn. rewrite lookup_insert_Some. intros [[<- <-]|[_ Hx]]; [|by apply Hdecl].
      destruct (Hdecl _ _ Hv) as [Hr Hlt]. split; [|done]. by eapply ancestor_typed.
    - intros n x Hn. cbn. destruct (decide (x = v)) as [->|Hx]; [by rewrite lookup_insert_eq|].
      rewrite lookup_insert_ne by done. by eapply Hnamed. }
  split; [done|]. split.
  - apply available_spec; [done|]. exists d. cbn. by rewrite lookup_insert_eq.
  - intros x s. rewrite !available_spec by done. intros (y & Hy & Ha). cbn.
    destruct (decide (x = v)) as [->|Hx]; [|exists y; by rewrite lookup_insert_ne].
    exists d. rewrite lookup_insert_eq. simplify_eq. split; [done|]. exact (ancestor_trans _ _ _ _ Hdr Ha).
Qed.

Lemma allocate_variable_inv anonymous r r' v :
  allocate_variable anonymous r = Val (r', v) →
  var_id v = variable_id_allocator r ∧ variable_id_allocator r' = variable_id_allocator r + 1.
Proof. unfold allocate_variable. destruct (_ <? _); [|done]. by intros [= <- <-]. Qed.

(** A use of a name in a scope of the tree ends, without a panic. *)
Lemma get_or_declare_ends name scope b :
  builder_ok b → usable scope b →
  (∃ b' v, get_or_declare_variable name scope b = Some (Val (b', v)) ∧
     builder_ok b' ∧ available v scope b' ∧ ∀ x s, available x s b → available x s b') ∨
  get_or_declare_variable name scope b = Some (Err (VariablesOverflow (variable_id_allocator (variable_registry b)))).
Proof.
  intros Hb Hu. unfold get_or_declare_variable. destruct (variable_names_index b !! name) as [v|] eqn:En.
  - destruct (bo_named _ Hb _ _ En) as [recorded Hv]. left.
    destruct (may_update_spec (E:=RepresentationError) v scope recorded (block_context b)) as (d & -> & Hd).
    { apply Hb. } { apply Hu. } { apply Hu. } { done. } { apply (bo_declared _ Hb _ _ Hv). }
    eexists _, v. split; [reflexivity|]. by eapply redeclare_ok.
  - unfold register_variable_named, allocate_variable. cbn [mbind exec_bind].
    destruct (_ <? _) eqn:E; [|right; done]. left. eexists _, _. split; [reflexivity|].
    eapply declare_new_ok; [done|done|done|done|].
    intros n x. rewrite lookup_insert_Some. naive_solver.
Qed.

Lemma create_child_scope_ok parent ty b :
  builder_ok b → usable parent b → scope_id_allocator b + 1 < 2 ^ 16 →
  let b' := (create_child_scope parent ty b).1 in
  builder_ok b' ∧ ∀ x s, available x s b → available x s b'.
Proof.
  intros Hb [Hp Hne] Hmax b'. destruct (Hb) as [Htree Halloc Hfirst Hdecl Hnamed]. destruct (Htree) as [To Tr Ti Trp Tb Tt].
  set (n := scope_id_allocator b) in *.
  assert (scope_types (block_context b) !! n = None) as Hfresh.
  { destruct (_ !! n) eqn:E; [|done]. assert (n < n) by (apply Halloc; eauto). lia. }
  assert (scope_parents (block_context b) !! n = None) as Hpfresh.
  { destruct (scope_parents _ !! n) eqn:E; [|done]. apply Tt in E as [[? ?] _]. congruence. }
  assert (∀ a s, s ≠ n → ancestor (scope_parents (block_context b)) a s → ancestor (scope_parents (block_context b')) a s) as Hanc.
  { intros a s Hsn Ha. induction Ha as [|s y a Hy Ha IH]; [apply rtc_refl|].
    apply rtc_l with y; [by unfold up; cbn; rewrite lookup_insert_ne|]. apply IH. intros ->.
    apply Tt in Hy as [_ [? ?]]. congruence. }
  assert (parent ≠ n) as Hpn. { intros ->. destruct Hp as [? ?]. congruence. }
  assert (builder_ok b') as Hb'.
  { split; cbn.
    - split; cbn.
      + intros x y. rewrite lookup_insert_Some. intros [[<- <-]|[_ ?]]; [|by apply To].
        split; [|by apply Halloc]. destruct (Tb parent Hp) as [|Hr]; [done|].
        destruct (rtc_inv _ _ Hr) as [->|[y [Hy _]]]; [done|]. apply To in Hy. lia.
      + rewrite lookup_insert_ne; [done|]. unfold ROOT. lia.
      + rewrite lookup_insert_ne; [done|]. unfold INPUT. lia.
      + rewrite lookup_insert_ne; [done|]. unfold ROOT. lia.
      + intros x. destruct (decide (x = n)) as [->|Hx].
        * intros _. right. apply rtc_l with parent; [by unfold up; rewrite lookup_insert_eq|].
          apply Hanc; [done|]. by destruct (Tb parent Hp).
        * rewrite lookup_insert_ne by done. intros [->|Hr]%Tb; [by left|right; by apply Hanc].
      + intros x y. rewrite lookup_insert_Some. intros [[<- <-]|[Hx [? ?]%Tt]].
        * rewrite lookup_insert_eq, lookup_insert_ne by done. eauto.
        * rewrite lookup_insert_ne by done. split; [done|]. destruct (decide (y = n)) as [->|];
            [by rewrite lookup_insert_eq|by rewrite lookup_insert_ne].
    - intros x. unfold u16. rewrite Z.mod_small by lia. destruct (decide (x = n)) as [->|Hx]; [lia|].
      rewrite lookup_insert_ne by done. intros ?%Halloc. lia.
    - unfold u16. rewrite Z.mod_small by lia. lia.
    - intros v s [Hs ?]%Hdecl. split; [|done]. destruct (decide (s = n)) as [->|];
        [by rewrite lookup_insert_eq|by rewrite lookup_insert_ne].
    - done. }
  split; [done|]. intros x s. rewrite !available_spec by done. intros (d & Hd & Ha). exists d. split; [done|].
  destruct (decide (s = n)) as [->|]; [|by apply Hanc].
  destruct (rtc_inv _ _ Ha) as [->|[y [Hy _]]]; [apply rtc_refl|]. unfold up in Hy. congruence.
Qed.

Lemma input_declarations (inputs : gmap string Var) :
  let c := map_fold (λ _ v c, add_input_declaration v c) bc_new inputs in
  scope_parents c = ∅ ∧ scope_types c = ∅ ∧
  (∀ v s, variable_declaration c !! v = Some s → s = INPUT ∧ ∃ n, inputs !! n = Some v) ∧
  (∀ n v, inputs !! n = Some v → is_Some (variable_declaration c !! v)).
Proof.
  apply (map_fold_weak_ind (λ (c : BlockContext) inputs, scope_parents c = ∅ ∧ scope_types c = ∅ ∧
    (∀ v s, variable_declaration c !! v = Some s → s = INPUT ∧ ∃ n, inputs !! n = Some v) ∧
    (∀ n v, inputs !! n = Some v → is_Some (variable_declaration c !! v)))).
  - split_and!; [done|done|intros v s Hv; cbn in Hv; by apply lookup_empty_Some in Hv|intros n v Hv; by apply lookup_empty_Some in Hv].
  - intros n x m c Hn (Hp & Ht & Hd & Hi). split_and!; [done|done| |].
    + intros v s. cbn. rewrite lookup_insert_Some. intros [[<- <-]|[Hx [-> [n' Hn']]%Hd]]; (split; [done|]).
      * exists n. by rewrite lookup_insert_eq.
      * exists n'. rewrite lookup_insert_ne; [done|]. congruence.
    + intros n' v. cbn. rewrite lookup_insert_Some. intros [[<- <-]|[Hx Hv%Hi]]; [by rewrite lookup_insert_eq|].
      destruct (decide (v = x)) as [->|]; [by rewrite lookup_insert_eq|by rewrite lookup_insert_ne].
Qed.
Lemma builder_new_ok registry inputs :
  (∀ name v, inputs !! name = Some v → var_id v < variable_id_allocator registry) →
  builder_ok (builder_new registry inputs).
Proof.
  intros Hids. unfold builder_new.
  destruct (input_declarations inputs) as (Hp & Ht & Hd & Hi).
  set (c := map_fold _ _ _) in *. split; cbn.
  - split; cbn; rewrite ?Hp, ?Ht.
    + intros x y. rewrite lookup_insert_Some, lookup_empty. unfold ROOT, INPUT. naive_solver lia.
    + done.
    + done.
    + done.
    + intros x Hx. destruct (decide (x = INPUT)) as [|Hi0]; [by left|right].
      rewrite lookup_insert_ne in Hx by done. destruct (decide (x = ROOT)) as [->|Hr]; [apply rtc_refl|].
      rewrite lookup_insert_ne, lookup_empty in Hx by done. by destruct Hx.
    + intros x y. rewrite lookup_insert_Some, lookup_empty. intros [[<- <-]|[_ ?]]; [|done].
      split; done.
  - intros x. rewrite Ht. destruct (decide (x = INPUT)) as [->|Hi0]; [unfold INPUT; lia|].
    rewrite lookup_insert_ne by done. destruct (decide (x = ROOT)) as [->|Hr]; [unfold ROOT; lia|].
    rewrite lookup_insert_ne, lookup_empty by done. by intros [].
  - lia.
  - intros v s [-> [n Hn]]%Hd. split; [by rewrite lookup_insert_eq|by eapply Hids].
  - intros n v Hn. by eapply Hi.
Qed.

Lemma named_keeps_allocator name scope b b' v :
  get_or_declare_variable name scope b = Some (Val (b', v)) → scope_id_allocator b' = scope_id_allocator b.
Proof.
  unfold get_or_declare_variable. destruct (variable_names_index b !! name).
  - destruct (may_update_declaration_scope _ _ _) as [[]|]; intros [=]; by subst.
  - destruct (register_variable_named _ _) as [[]| |]; intros [=]; by subst.
Qed.
Lemma builder_step_ok b uses n b' uses' n' :
  builder_step (b, uses, n) (b', uses', n') → builder_ok b → scope_id_allocator b = n + 2 → n' + 2 < 2 ^ 16 →
  builder_ok b' ∧ scope_id_allocator b' = n' + 2 ∧ (∀ x s, available x s b → available x s b') ∧
  ∀ v s, (v, s) ∈ uses' → (v, s) ∈ uses ∨ available v s b'.
Proof.
  intros Hs Hb Hn Hmax.
  inversion Hs as [name scope ? ? v ? ? Hu E|scope ? ? v ? ? Hu E|parent ty ? ? ? Hu]; subst; clear Hs.
  - destruct (get_or_declare_ends name scope b Hb Hu) as [(b2 & v2 & E2 & Hb2 & Hav & Hmono)|E2];
      rewrite E2 in E; [|done]. simplify_eq. split_and!; [done|by rewrite (named_keeps_allocator _ _ _ _ _ E2)|done|].
    intros x s. rewrite elem_of_cons. intros [[= -> ->]|?]; auto.
  - unfold create_anonymous_variable, register_anonymous_variable in E.
    destruct (allocate_variable true (variable_registry b)) as [[r x]| |] eqn:Ea; [|done..].
    cbn [mbind exec_bind] in E. apply allocate_variable_inv in Ea as [Hid Hr]. simplify_eq.
    destruct (declare_new_ok b r v scope (variable_names_index b)) as (? & ? & ?); [done|done|done|done|auto|].
    split_and!; [done|done|done|]. intros y s. rewrite elem_of_cons. intros [[= -> ->]|?]; auto.
  - destruct (create_child_scope_ok parent ty b Hb Hu) as [? ?]; [lia|]. split_and!; [done| |done|auto].
    cbn. unfold u16. pose proof (bo_first b Hb). rewrite Z.mod_small; lia.
Qed.
Lemma builder_steps_ok bu bu' :
  rtc builder_step bu bu' → builder_ok bu.1.1 → scope_id_allocator bu.1.1 = bu.2 + 2 → bu'.2 + 2 < 2 ^ 16 →
  (∀ v s, (v, s) ∈ bu.1.2 → available v s bu.1.1) →
  bu.2 ≤ bu'.2 ∧ builder_ok bu'.1.1 ∧ scope_id_allocator bu'.1.1 = bu'.2 + 2 ∧ ∀ v s, (v, s) ∈ bu'.1.2 → available v s bu'.1.1.
Proof.
  intros Hsteps Hb Ha Hmax Hav. revert bu' Hsteps Hmax.
  refine (rtc_ind_r (λ bu', bu'.2 + 2 < 2 ^ 16 → bu.2 ≤ bu'.2 ∧ builder_ok bu'.1.1 ∧ scope_id_allocator bu'.1.1 = bu'.2 + 2 ∧
    ∀ v s, (v, s) ∈ bu'.1.2 → available v s bu'.1.1) bu _ _); [done|].
  intros [[b uses] n] [[b2 uses2] n2] _ Hstep IH. cbn in *. intros Hmax.
  assert (n ≤ n2) by (inversion Hstep; lia). destruct IH as (Hle & Hb1 & Ha1 & Hav1); [lia|].
  destruct (builder_step_ok _ _ _ _ _ _ Hstep Hb1 Ha1 Hmax) as (Hb2 & Ha2 & Hmono & Huses). split_and!; [lia|done|done|].
  intros v s Hin. destruct (Huses v s Hin) as [?|?]; auto.
Qed.

(** C26: while a block is built with at most 65533 child scopes (the 16-bit ids
    of scopes wrap after that: the scope created after id 65535 is [INPUT]
    again, and the walk up the scope tree then never ends, lemma
    [scope_ids_wrap]) from inputs whose ids the registry has given out, every
    variable stays available in every scope it was used in, however its
    declaration moves; and a further use of a name in any scope of the block
    returns (it neither panics nor walks the scope tree forever), failing only
    when the variable ids are exhausted. *)
Theorem uses_stay_available registry inputs b uses scopes :
  (∀ name v, inputs !! name = Some v → var_id v < variable_id_allocator registry) →
  rtc builder_step (builder_new registry inputs, [], 0) (b, uses, scopes) → scopes ≤ 65533 →
  (∀ v scope, (v, scope) ∈ uses → is_variable_available_in scope v (block_context b) = true) ∧
  (∀ name scope, usable scope b →
     (∃ b' v, get_or_declare_variable name scope b = Some (Val (b', v)) ∧
        is_variable_available_in scope v (block_context b') = true) ∨
     get_or_declare_variable name scope b = Some (Err (VariablesOverflow (variable_id_allocator (variable_registry b))))).
Proof.
  intros Hids Hsteps Hmax.
  destruct (builder_steps_ok _ _ Hsteps (builder_new_ok _ _ Hids)) as (_ & Hb & _ & Huses).
  { done. } { cbn. lia. } { intros v s []%not_elem_of_nil. }
  split; [exact Huses|]. intros name scope Hu.
  destruct (get_or_declare_ends name scope b Hb Hu) as [(b' & v & ? & ? & ? & ?)|?]; [left|by right].
  exists b', v. done.
Qed.

(** The ids of scopes wrap.  When the last 16-bit id has been given to a scope,
    the next child scope is [INPUT] again and gets a parent; [INPUT] is the
    parent of the root, so from that parent the walk up the tree comes back to
    where it was and never ends. *)
Lemma scope_ids_wrap parent ty parent' ty' b :
  builder_ok b → scope_id_allocator b = 2 ^ 16 - 1 → usable parent b → usable parent' b →
  let b1 := (create_child_scope parent ty b).1 in
  let b2 := create_child_scope parent' ty' b1 in
  b2.2 = INPUT ∧ tc (up (scope_parents (block_context b2.1))) parent' parent' ∧
  ∀ n, ∃ s, nsteps (up (scope_parents (block_context b2.1))) n parent' s.
Proof.
  intros Hb Ha [Hp Hne] [Hp' Hne'] b1 b2. destruct (bo_tree b Hb) as [To Tr Ti Trp Tb Tt].
  assert (Hs2 : b2.2 = INPUT) by (unfold b2, b1; cbn; rewrite Ha; done).
  assert (Hold : ∀ x y, scope_parents (block_context b) !! x = Some y → x ≠ INPUT → up (scope_parents (block_context b2.1)) x y).
  { intros x y Hx Hx0. unfold up, b2, b1. cbn. rewrite Ha. rewrite lookup_insert_ne by (intros He; by rewrite <-He in Hx0).
    rewrite lookup_insert_ne; [done|]. intros <-. apply Tt in Hx as [Hx _]. apply (bo_allocator b Hb) in Hx. lia. }
  assert (Hup : rtc (up (scope_parents (block_context b2.1))) parent' ROOT).
  { destruct (Tb parent' Hp') as [|Hr]; [done|]. revert Hold.
    generalize (up (scope_parents (block_context b2.1))). clear -Hr To. intros P Hold.
    induction Hr as [|x y z Hxy Hr IH]; [apply rtc_refl|].
    eapply rtc_l; [|exact IH]. apply Hold; [done|]. intros ->. apply To in Hxy. unfold INPUT in Hxy. lia. }
  assert (Hcyc : tc (up (scope_parents (block_context b2.1))) parent' parent').
  { eapply tc_rtc_l; [exact Hup|]. eapply tc_l; [by apply Hold|]. apply tc_once. unfold up, b2, b1. cbn. rewrite Ha.
    by rewrite lookup_insert_eq. }
  split_and!; [done|done|]. revert Hcyc. generalize (up (scope_parents (block_context b2.1))). clear. intros P Hcyc n.
  assert (Hall : ∀ n s, rtc P s parent' → ∃ s', nsteps P n s s').
  { clear n. induction n as [|n IH]; intros s Hs; [by exists s; constructor|].
    assert (∃ y, P s y ∧ rtc P y parent') as (y & Hy & Hr).
    { assert (tc P s parent') as Htc by (by eapply tc_rtc_l).
      inversion Htc as [|? y]; subst; [by exists parent'|]. exists y. split; [done|]. by apply tc_rtc. }
    destruct (IH y Hr) as [s' Hs']. exists s'. by eapply nsteps_l. }
  by apply Hall.
Qed.

(** A use of a variable in a scope that does not see its declaration moves
    the declaration to a scope above both: the scope of the use when the old
    scope lies below it, and otherwise the lowest conjunction or negation above
    both.  The walk over the scope tree ends. *)
Lemma declaration_moves_to_common_scope v scope recorded c :
  tree_ok c → is_Some (scope_types c !! scope) → scope ≠ INPUT →
  variable_declaration c !! v = Some recorded → is_Some (scope_types c !! recorded) →
  ∃ c' d, may_update_declaration_scope (E:=RepresentationError) v scope c = Some (Val c') ∧
    variable_declaration c' = <[v := d]> (variable_declaration c) ∧
    scope_parents c' = scope_parents c ∧ scope_types c' = scope_types c ∧ redeclared c recorded scope d.
Proof.
  intros Hok Hs Hne Hv Hr. destruct (may_update_spec (E:=RepresentationError) v scope recorded c) as (d & -> & Hd); [done..|].
  eexists _, d. split; [reflexivity|]. by split_and!.
Qed.

(** A block with a disjunction of two branches (scopes 3 and 4 below 2). *)
Definition example_branches : BlockBuilderContext :=
  (create_child_scope 2 ScopeConjunction
     (create_child_scope 2 ScopeConjunction
        (create_child_scope ROOT ScopeDisjunction (builder_new registry_new ∅)).1).1).1.
Definition after_use (name : string) (scope : Z) (b : BlockBuilderContext) : BlockBuilderContext :=
  match get_or_declare_variable name scope b with Some (Val (b', _)) => b' | _ => b end.
Definition example_x : Var := {| var_id := 0; var_anonymous := false |}.

Lemma uses_stay_available_witness :
  let b := after_use "x" 4 (after_use "x" 3 example_branches) in
  is_variable_available_in 3 example_x (block_context b) = true ∧
  is_variable_available_in 4 example_x (block_context b) = true.
Proof.
  assert (∀ s, ((example_x, s) ∈ [(example_x, 4); (example_x, 3)]) →
    is_variable_available_in s example_x (block_context (after_use "x" 4 (after_use "x" 3 example_branches))) = true) as H.
  { intros s. apply (uses_stay_available registry_new ∅ (after_use "x" 4 (after_use "x" 3 example_branches))
      [(example_x, 4); (example_x, 3)] 3).
    - intros n v Hv. by apply lookup_empty_Some in Hv.
    - eapply rtc_l; [apply (step_scope ROOT ScopeDisjunction); split; [vm_compute; eauto|done]|].
      eapply rtc_l; [apply (step_scope 2 ScopeConjunction); split; [vm_compute; eauto|done]|].
      eapply rtc_l; [apply (step_scope 2 ScopeConjunction); split; [vm_compute; eauto|done]|].
      eapply rtc_l; [apply (step_named "x" 3); [split; [vm_compute; eauto|done]|vm_compute; reflexivity]|].
      eapply rtc_l; [apply (step_named "x" 4); [split; [vm_compute; eauto|done]|vm_compute; reflexivity]|].
      apply rtc_refl.
    - lia. }
  split; apply H; [apply list_elem_of_further|]; apply list_elem_of_here.
Defined.

Lemma declaration_moves_to_common_scope_witness :
  ∃ c' d, may_update_declaration_scope (E:=RepresentationError) example_x 4 (block_context (after_use "x" 3 example_branches))
            = Some (Val c') ∧
    redeclared (block_context (after_use "x" 3 example_branches)) 3 4 d.
Proof.
  assert (builder_ok example_branches) as Hb.
  { unfold example_branches. apply create_child_scope_ok; [|by split; [vm_compute; eauto|]|by vm_compute].
    apply create_child_scope_ok; [|by split; [vm_compute; eauto|]|by vm_compute].
    apply create_child_scope_ok; [|by split; [vm_compute; eauto|]|by vm_compute].
    apply builder_new_ok. intros n v Hv. by apply lookup_empty_Some in Hv. }
  destruct (get_or_declare_ends "x" 3 example_branches Hb) as [(b' & v & E & Hb' & _)|E].
  { split; [vm_compute; eauto|done]. } 2: { by vm_compute in E. }
  assert (b' = after_use "x" 3 example_branches) as ->. { unfold after_use. by rewrite E. }
  destruct (declaration_moves_to_common_scope example_x 4 3 (block_context (after_use "x" 3 example_branches)))
    as (c' & d & Ec & _ & _ & _ & Hd).
  - apply Hb'.
  - vm_compute; eauto.
  - done.
  - by vm_compute.
  - vm_compute; eauto.
  - by exists c', d.
Defined.

(** ** Categories *)
Definition with_category (v : Var) (r : exec RepresentationError VariableRegistry) (cs : VariableCategory * VariableCategorySource) :
    exec RepresentationError VariableRegistry :=
  r' ← r; set_variable_category v cs.1 cs.2 r'.
(** The registry after constraints give [v] the categories [cs], in order. *)
Definition categorise (v : Var) (cs : list (VariableCategory * VariableCategorySource)) (r : VariableRegistry) :
    exec RepresentationError VariableRegistry :=
  fold_left (with_category v) cs (Val r).
Definition category_of (v : Var) (r : exec RepresentationError VariableRegistry) : option (option VariableCategory) :=
  match r with Val r => Some (get_variable_category v r) | _ => None end.

(** A category narrows what is on record; [None] is a conflict. *)
Definition narrow_step (o : option (option VariableCategory)) (c : VariableCategory) : option (option VariableCategory) :=
  match o with
  | None => None
  | Some None => Some (Some c)
  | Some (Some a) => match narrowest a c with Some d => Some (Some d) | None => None end
  end.
Lemma narrow_step_comm o c d : narrow_step (narrow_step o c) d = narrow_step (narrow_step o d) c.
Proof. by destruct o as [[[]|]|], c, d. Qed.
Lemma set_variable_category_step v c r :
  category_of v (set_variable_category v c.1 c.2 r) = narrow_step (Some (get_variable_category v r)) c.1.
Proof.
  unfold set_variable_category, category_of, get_variable_category, narrow_step.
  destruct (variable_categories r !! v) as [[a src]|] eqn:E; cbn.
  - destruct (narrowest a c.1) as [d|]; [|done]. case_bool_decide as Hd.
    + rewrite E. cbn. by rewrite Hd.
    + cbn. by rewrite lookup_insert_eq.
  - by rewrite lookup_insert_eq.
Qed.
Lemma categorise_narrows v cs r :
  category_of v (categorise v cs r) = fold_left narrow_step (cs.*1) (Some (get_variable_category v r)).
Proof.
  unfold categorise. change (Some (get_variable_category v r)) with (category_of v (Val r)).
  generalize (Val (E:=RepresentationError) r) as m. clear r. induction cs as [|c cs IH]; intros m; [done|].
  cbn [fold_left fmap list_fmap]. rewrite IH. f_equal.
  destruct m as [r| |]; [|done..]. unfold with_category. cbn [mbind exec_bind]. apply set_variable_category_step.
Qed.
Lemma narrow_steps_perm cs cs' o : cs ≡ₚ cs' → fold_left narrow_step cs o = fold_left narrow_step cs' o.
Proof.
  intros Hp. revert o. induction Hp as [|c cs cs' _ IH|c d cs|cs1 cs2 cs3 _ IH1 _ IH2]; intros o; cbn [fold_left].
  - done.
  - apply IH.
  - by rewrite narrow_step_comm.
  - by rewrite IH1.
Qed.

(** The category a variable ends up with does not depend on the order in
    which the constraints of a query are read: any two orders of the same
    category requirements agree on whether the requirements conflict, and on
    the category when they do not. *)
Lemma categories_in_any_order v cs cs' r :
  cs ≡ₚ cs' → category_of v (categorise v cs r) = category_of v (categorise v cs' r).
Proof. intros Hp. rewrite !categorise_narrows. by apply narrow_steps_perm, fmap_Permutation. Qed.
Lemma categories_in_any_order_witness :
  let cs := [(CThing, SourceDelete); (CAttributeOrValue, SourceArgument)] in
  category_of example_x (categorise example_x cs registry_new) = Some (Some CAttribute) ∧
  category_of example_x (categorise example_x (rev cs) registry_new) = Some (Some CAttribute).
Proof.
  intros cs. assert (category_of example_x (categorise example_x cs registry_new) = Some (Some CAttribute)) as E by by vm_compute.
  split; [exact E|]. rewrite <-E. apply categories_in_any_order. by vm_compute; apply Permutation_swap.
Defined.

(** ** A disjunction inside an optional

    [match ...; try { { $x ... } or { $x ... }; };]: the optional is scope 2 of
    the block, the disjunction scope 3, its branches scopes 4 and 5. *)
Definition example_optional : BlockBuilderContext :=
  let b := (create_child_scope ROOT ScopeOptional (builder_new registry_new ∅)).1 in
  let b := (create_child_scope 2 ScopeDisjunction b).1 in
  let b := (create_child_scope 3 ScopeConjunction b).1 in
  let b := (create_child_scope 3 ScopeConjunction b).1 in
  after_use "x" 5 (after_use "x" 4 b).
Definition example_kind : Constraint := KindC KEntity (VVariable example_x).
Definition example_branch (scope : Z) : Conjunction := MkConjunction scope [example_kind] [].
Definition example_disjunction : Conjunction :=
  MkConjunction ROOT [] [POptional (MkConjunction 2 [] [PDisjunction [example_branch 4; example_branch 5] [0; 1] 3]) 2].
(** The same without the disjunction: [match ...; try { $x ... };]. *)
Definition example_plain : Conjunction := MkConjunction ROOT [] [POptional (MkConjunction 2 [example_kind] []) 0].
Definition example_plain_context : BlockBuilderContext :=
  after_use "x" 2 (create_child_scope ROOT ScopeOptional (builder_new registry_new ∅)).1.

(** A variable bound by both branches of a disjunction inside an optional
    is declared outside the optional, in the conjunction around it, because the
    walk to the declaring scope passes over the optional's own scope; the check
    of the finished block then reports the variable as reused, although the
    optional binds it, and although the same variable bound by the optional
    directly is accepted. *)
Lemma optional_disjunction_variable_rejected :
  get_declaring_scope example_x (block_context example_optional) = Some ROOT ∧
  find_disjoint_variable (block_context example_optional) example_disjunction = Val (Some example_x) ∧
  get_declaring_scope example_x (block_context example_plain_context) = Some 2 ∧
  find_disjoint_variable (block_context example_plain_context) example_plain = Val None.
Proof. by vm_compute. Qed.
