(* ===== verification/TypeInference.v ===== *)
(** * Type inference: pruning the type graph

    The core of [compiler/annotation/match_inference.rs]: a graph whose
    vertices carry sets of candidate types and whose edges carry the pairs of
    types a constraint allows, with a nested graph for each branch of each
    disjunction, and the loop that removes types from vertices and pairs from
    edges until nothing changes.  [BTreeMap] and [BTreeSet] are finite maps and
    sets; no result depends on their iteration order. *)
From S2P Require Import Prelude Layout Pattern Block.
From stdpp Require Import countable gmap relations.
#[local] Open Scope Z_scope.

(** ** Types and annotations *)
Inductive TypeAnnotation := TEntity (id : Z) | TRelation (id : Z) | TAttribute (id : Z) | TRoleType (id : Z).
#[global] Instance TypeAnnotation_eq_dec : EqDecision TypeAnnotation.
Proof. solve_decision. Defined.
#[global] Instance TypeAnnotation_countable : Countable TypeAnnotation.
Proof.
  refine (inj_countable'
    (λ t, match t with TEntity i => inl (inl i) | TRelation i => inl (inr i) | TAttribute i => inr (inl i) | TRoleType i => inr (inr i) end)
    (λ s, match s with inl (inl i) => TEntity i | inl (inr i) => TRelation i | inr (inl i) => TAttribute i | inr (inr i) => TRoleType i end) _).
  by intros [].
Defined.

Abbreviation annotations := (gset TypeAnnotation).
Abbreviation VertexAnnotations := (gmap Vertex annotations).
Abbreviation type_map := (gmap TypeAnnotation annotations).

(** [BTreeSet::retain]. *)
Definition retain (p : TypeAnnotation → bool) (s : annotations) : annotations := filter (λ t, Is_true (p t)) s.

Definition add_or_intersect (vertex : Vertex) (new_annotations : annotations) (vs : VertexAnnotations) : VertexAnnotations * bool :=
  match vs !! vertex with
  | Some existing =>
      let kept := retain (λ x, bool_decide (x ∈ new_annotations)) existing in
      (<[vertex := kept]> vs, bool_decide (size kept = size existing))
  | None => (<[vertex := new_annotations]> vs, true)
  end.

(** ** Edges *)
Record TypeInferenceEdge := {
  edge_constraint : Constraint;
  edge_left : Vertex;
  edge_right : Vertex;
  left_to_right : type_map;
  right_to_left : type_map;
}.
Definition edge_build (c : Constraint) (left right : Vertex) (l2r r2l : type_map) : TypeInferenceEdge :=
  {| edge_constraint := c; edge_left := left; edge_right := right; left_to_right := l2r; right_to_left := r2l |}.

Definition remove_under {E} (type_ : TypeAnnotation) (m : exec E type_map) (other_type : TypeAnnotation) : exec E type_map :=
  m ← m;
  match m !! other_type with
  | None => Panic
  | Some values =>
      let values := values ∖ {[type_]} in
      Val (if bool_decide (0%nat = size values) then delete other_type m else <[other_type := values]> m)
  end.
Definition remove_type_from_values_of {E} (type_ : TypeAnnotation) (keys_to_look_under : annotations) (m : type_map) : exec E type_map :=
  fold_left (remove_under type_) (elements keys_to_look_under) (Val m).

(** The entries of [from] whose key is not in [kept] are removed from the other
    direction, then dropped. *)
Definition remove_entry {E} (kept : annotations) (m : exec E type_map) (kv : TypeAnnotation * annotations) : exec E type_map :=
  m ← m;
  if bool_decide (kv.1 ∈ kept) then Val m else remove_type_from_values_of kv.1 kv.2 m.
Definition remove_entries {E} (kept : annotations) (from : type_map) (other : type_map) : exec E type_map :=
  fold_left (remove_entry kept) (map_to_list from) (Val other).
Definition retain_keys (kept : annotations) (m : type_map) : type_map := filter (λ kv, kv.1 ∈ kept) m.

Definition prune_self_from_vertices {E} (e : TypeInferenceEdge) (vs : VertexAnnotations) : exec E TypeInferenceEdge :=
  left_annotations ← unwrap (vs !! edge_left e);
  r2l ← remove_entries left_annotations (left_to_right e) (right_to_left e);
  let l2r := retain_keys left_annotations (left_to_right e) in
  right_annotations ← unwrap (vs !! edge_right e);
  l2r ← remove_entries right_annotations r2l l2r;
  let r2l := retain_keys right_annotations r2l in
  Val (edge_build (edge_constraint e) (edge_left e) (edge_right e) l2r r2l).

(** One [retain] on the annotations of a vertex, with whether it removed any. *)
Definition retain_at {E} (v : Vertex) (m : type_map) (vs : VertexAnnotations) : exec E (VertexAnnotations * bool) :=
  ts ← unwrap (vs !! v);
  let kept := retain (λ k, bool_decide (is_Some (m !! k))) ts in
  Val (<[v := kept]> vs, negb (bool_decide (size ts = size kept))).
Definition prune_vertices_from_self {E} (e : TypeInferenceEdge) (vs : VertexAnnotations) : exec E (VertexAnnotations * bool) :=
  '(vs, m1) ← retain_at (edge_left e) (left_to_right e) vs;
  '(vs, m2) ← retain_at (edge_right e) (right_to_left e) vs;
  Val (vs, m1 || m2).

(** ** Graphs *)
Inductive TypeInferenceGraph :=
| MkGraph (conjunction : Conjunction) (vertices : VertexAnnotations) (edges : list TypeInferenceEdge)
    (nested_disjunctions : list NestedTypeInferenceGraphDisjunction)
with NestedTypeInferenceGraphDisjunction :=
| MkNested (disjunction : list TypeInferenceGraph) (shared_variables : gset Var) (shared_vertex_annotations : VertexAnnotations).
Definition g_conjunction (g : TypeInferenceGraph) : Conjunction := let '(MkGraph c _ _ _) := g in c.
Definition g_vertices (g : TypeInferenceGraph) : VertexAnnotations := let '(MkGraph _ vs _ _) := g in vs.
Definition g_edges (g : TypeInferenceGraph) : list TypeInferenceEdge := let '(MkGraph _ _ es _) := g in es.
Definition g_nested (g : TypeInferenceGraph) : list NestedTypeInferenceGraphDisjunction := let '(MkGraph _ _ _ ns) := g in ns.
Definition disjunction (n : NestedTypeInferenceGraphDisjunction) : list TypeInferenceGraph := let '(MkNested gs _ _) := n in gs.

Section traverse.
Context {E A B S : Type} (f : A → exec E B) (h : A → S → exec E (A * S * bool)).
(** A loop over a [Vec] that may panic. *)
Fixpoint traverse (l : list A) : exec E (list B) :=
  match l with
  | [] => Val []
  | x :: l => y ← f x; ys ← traverse l; Val (y :: ys)
  end.
(** A loop that updates its elements and a state, and ors their flags. *)
Fixpoint traverse_state (l : list A) (s : S) : exec E (list A * S * bool) :=
  match l with
  | [] => Val ([], s, false)
  | x :: l =>
      '(x, s, m) ← h x s;
      '(l, s, m') ← traverse_state l s;
      Val (x :: l, s, m || m')
  end.
End traverse.

(** A nested graph's vertices, retained by the parent's annotations. *)
Definition retain_by_parent (parent vs : VertexAnnotations) : VertexAnnotations :=
  map_imap (λ v ts, Some (match parent !! v with
                          | Some ps => retain (λ t, bool_decide (t ∈ ps)) ts
                          | None => ts
                          end)) vs.

(** [prune_constraints_from_vertices] of the graph with its vertices set to
    [vs]: the loops of the parent set them before the call. *)
Fixpoint prune_constraints_with {E} (vs : VertexAnnotations) (g : TypeInferenceGraph) : exec E TypeInferenceGraph :=
  match g with
  | MkGraph c _ es ns =>
      es ← traverse (λ e, prune_self_from_vertices e vs) es;
      ns ← traverse (nested_prune_self_from_vertices vs) ns;
      Val (MkGraph c vs es ns)
  end
with nested_prune_self_from_vertices {E} (parent_vertices : VertexAnnotations) (n : NestedTypeInferenceGraphDisjunction) :
    exec E NestedTypeInferenceGraphDisjunction :=
  match n with
  | MkNested gs sv sva =>
      gs ← traverse (λ g, prune_constraints_with (retain_by_parent parent_vertices (g_vertices g)) g) gs;
      Val (MkNested gs sv sva)
  end.
Definition prune_constraints_from_vertices {E} (g : TypeInferenceGraph) : exec E TypeInferenceGraph :=
  prune_constraints_with (g_vertices g) g.

Fixpoint prune_by_edges {E} (es : list TypeInferenceEdge) (vs : VertexAnnotations) : exec E (VertexAnnotations * bool) :=
  match es with
  | [] => Val (vs, false)
  | e :: es =>
      '(vs, m) ← prune_vertices_from_self e vs;
      '(vs, m') ← prune_by_edges es vs;
      Val (vs, m || m')
  end.

(** Whether some branch allows a type at a vertex: a branch that does not
    mention the vertex allows every type. *)
Definition supported (gs : list TypeInferenceGraph) (v : Vertex) (t : TypeAnnotation) : bool :=
  existsb (λ g, match g_vertices g !! v with Some ts => bool_decide (t ∈ ts) | None => true end) gs.
Definition retain_supported (gs : list TypeInferenceGraph) (vs : VertexAnnotations) : VertexAnnotations :=
  map_imap (λ v ts, Some (retain (supported gs v) ts)) vs.
Definition any_unsupported (gs : list TypeInferenceGraph) (vs : VertexAnnotations) : bool :=
  existsb (λ vt : Vertex * annotations, negb (bool_decide (size vt.2 = size (retain (supported gs vt.1) vt.2)))) (map_to_list vs).

Fixpoint prune_vertices_from_constraints {E} (g : TypeInferenceGraph) : exec E (TypeInferenceGraph * bool) :=
  match g with
  | MkGraph c vs es ns =>
      '(vs, m) ← prune_by_edges es vs;
      '(ns, vs, m') ← traverse_state nested_prune_vertices_from_self ns vs;
      Val (MkGraph c vs es ns, m || m')
  end
with nested_prune_vertices_from_self {E} (n : NestedTypeInferenceGraphDisjunction) (parent_vertices : VertexAnnotations) :
    exec E (NestedTypeInferenceGraphDisjunction * VertexAnnotations * bool) :=
  match n with
  | MkNested gs sv sva =>
      r ← traverse prune_vertices_from_constraints gs;
      let gs := List.map fst r in
      Val (MkNested gs sv sva, retain_supported gs parent_vertices,
           existsb snd r || any_unsupported gs parent_vertices)
  end.

(** [None]: the loop has not ended within [fuel] iterations. *)
Fixpoint prune_types {E} (fuel : nat) (g : TypeInferenceGraph) : option (exec E TypeInferenceGraph) :=
  match fuel with
  | O => None
  | S fuel =>
      match prune_vertices_from_constraints g with
      | Val (g, true) =>
          match prune_constraints_from_vertices g with
          | Val g => prune_types fuel g
          | Err e => Some (Err e)
          | Panic => Some Panic
          end
      | Val (g, false) => Some (Val g)
      | Err e => Some (Err e)
      | Panic => Some Panic
      end
  end.

(** ** The checks before and after *)
Definition is_thing_edge (e : TypeInferenceEdge) : bool :=
  match edge_constraint e with LinksC _ | Has _ _ | Isa _ _ _ => true | _ => false end.
Definition trivially_unsatisfiable (e : TypeInferenceEdge) : bool :=
  is_thing_edge e && (bool_decide (left_to_right e = ∅) || bool_decide (right_to_left e = ∅)).
Definition first_some {A} (a b : option A) : option A := match a with Some x => Some x | None => b end.
(** The offending graph and edge, if any. *)
Fixpoint pre_check_edges_for_trivial_unsatisfiability (g : TypeInferenceGraph) : option (TypeInferenceGraph * TypeInferenceEdge) :=
  match g with
  | MkGraph c vs es ns =>
      match List.find trivially_unsatisfiable es with
      | Some e => Some (g, e)
      | None => fold_right first_some None (List.map nested_pre_check ns)
      end
  end
with nested_pre_check (n : NestedTypeInferenceGraphDisjunction) : option (TypeInferenceGraph * TypeInferenceEdge) :=
  match n with
  | MkNested gs _ _ => fold_right first_some None (List.map pre_check_edges_for_trivial_unsatisfiability gs)
  end.

(** [true]: [Ok]; [false]: [DetectedUnsatisfiablePattern]; a variable without a
    category panics. *)
Definition thing_variable_present {E} (r : VariableRegistry) (vs : VertexAnnotations) : exec E bool :=
  fold_left (λ acc (v : Var), b ← acc; if (b : bool) then Val true else c ← unwrap (get_variable_category v r); Val (is_category_thing c))
    (omap as_variable (List.map fst (map_to_list vs))) (Val false).
Definition any_vertex_empty (vs : VertexAnnotations) : bool :=
  existsb (λ vt : Vertex * annotations, bool_decide (vt.2 = ∅)) (map_to_list vs).
Section checks.
Context {E : Type} (r : VariableRegistry).
Definition and_then (a b : exec E bool) : exec E bool := x ← a; if (x : bool) then b else Val false.
Fixpoint check_thing_constraints_satisfiable (g : TypeInferenceGraph) : exec E bool :=
  match g with
  | MkGraph c vs es ns =>
      present ← thing_variable_present r vs;
      if any_vertex_empty vs && (present : bool) then Val false
      else fold_right and_then (Val true) (List.map nested_check ns)
  end
with nested_check (n : NestedTypeInferenceGraphDisjunction) : exec E bool :=
  match n with
  | MkNested gs _ _ => fold_right and_then (Val true) (List.map check_thing_constraints_satisfiable gs)
  end.
End checks.

(** ** The pairs an edge allows *)
Definition pair (m : type_map) (a b : TypeAnnotation) : Prop := ∃ s, m !! a = Some s ∧ b ∈ s.
Definition nonempty (m : type_map) : Prop := ∀ a s, m !! a = Some s → s ≠ ∅.
(** Both directions hold the same pairs, and no key without a partner: the
    precondition of the inference loop. *)
Record consistent (e : TypeInferenceEdge) : Prop := {
  co_same : ∀ a b, pair (left_to_right e) a b ↔ pair (right_to_left e) b a;
  co_left : nonempty (left_to_right e);
  co_right : nonempty (right_to_left e);
}.
Definition allows (e : TypeInferenceEdge) (a b : TypeAnnotation) : Prop := pair (left_to_right e) a b.

Lemma retain_spec p s t : t ∈ retain p s ↔ t ∈ s ∧ p t = true.
Proof. unfold retain. rewrite elem_of_filter, Is_true_true. naive_solver. Qed.
Lemma pair_key m a : nonempty m → is_Some (m !! a) ↔ ∃ b, pair m a b.
Proof.
  intros Hn. split.
  - intros [s Hs]. destruct (set_choose_L s (Hn _ _ Hs)) as [b Hb]. exists b, s. done.
  - intros (b & s & Hs & _). eauto.
Qed.
Lemma pair_retain_keys kept m a b : pair (retain_keys kept m) a b ↔ pair m a b ∧ a ∈ kept.
Proof.
  unfold pair, retain_keys. split.
  - intros (s & Hs & Hb). apply map_lookup_filter_Some in Hs as [Hs Ha]. eauto.
  - intros [(s & Hs & Hb) Ha]. exists s. split; [|done]. by apply map_lookup_filter_Some.
Qed.
Lemma nonempty_retain_keys kept m : nonempty m → nonempty (retain_keys kept m).
Proof. intros Hn a s [Hs _]%map_lookup_filter_Some. by eapply Hn. Qed.

Lemma remove_under_spec {E} t m k :
  nonempty m → pair m k t →
  ∃ m', remove_under (E:=E) t (Val m) k = Val m' ∧ nonempty m' ∧
    ∀ a b, pair m' a b ↔ pair m a b ∧ ¬ (a = k ∧ b = t).
Proof.
  intros Hn (s & Hs & Ht). unfold remove_under. cbn [mbind exec_bind]. rewrite Hs. eexists. split; [reflexivity|].
  case_bool_decide as Hz.
  - assert (∀ b, b ∈ s → b = t) as Hall.
    { intros b Hb. destruct (decide (b = t)) as [|Hbt]; [done|]. symmetry in Hz. apply size_empty_inv in Hz. set_solver. }
    split.
    + intros a s'. rewrite lookup_delete_Some. intros [_ ?]. by eapply Hn.
    + intros a b. unfold pair. setoid_rewrite lookup_delete_Some. naive_solver.
  - split.
    + intros a s'. rewrite lookup_insert_Some. intros [[<- <-]|[_ ?]]; [|by eapply Hn].
      intros He. apply Hz. by rewrite He, size_empty.
    + intros a b. unfold pair. setoid_rewrite lookup_insert_Some. split.
      * intros (s' & [[<- <-]|[Hk Hs']] & Hb); [|naive_solver].
        apply elem_of_difference in Hb as [Hb Hbt]. rewrite elem_of_singleton in Hbt. naive_solver.
      * intros [(s' & Hs' & Hb) Hne]. destruct (decide (k = a)) as [->|Hka]; [|naive_solver].
        simplify_eq. eexists. split; [by left|]. apply elem_of_difference. rewrite elem_of_singleton. naive_solver.
Qed.

Lemma remove_keys_spec {E} t l m :
  NoDup l → nonempty m → (∀ k, k ∈ l → pair m k t) →
  ∃ m', fold_left (remove_under (E:=E) t) l (Val m) = Val m' ∧ nonempty m' ∧
    ∀ a b, pair m' a b ↔ pair m a b ∧ ¬ (a ∈ l ∧ b = t).
Proof.
  revert m. induction l as [|k l IH]; intros m Hnd Hn Hk.
  { exists m. split_and!; [done|done|]. intros a b. split; [|naive_solver]. intros ?. split; [done|].
    intros [Ha _]. by apply not_elem_of_nil in Ha. }
  apply NoDup_cons in Hnd as [Hkl Hnd]. cbn [fold_left].
  destruct (remove_under_spec (E:=E) t m k Hn) as (m1 & -> & Hn1 & Hm1); [apply Hk, list_elem_of_here|].
  destruct (IH m1 Hnd Hn1) as (m2 & -> & Hn2 & Hm2).
  { intros x Hx. apply Hm1. split; [by apply Hk, list_elem_of_further|]. by intros [-> _]. }
  exists m2. split_and!; [done|done|]. intros a b. rewrite Hm2, Hm1, elem_of_cons. naive_solver.
Qed.
Lemma remove_type_spec {E} t keys m :
  nonempty m → (∀ k, k ∈ keys → pair m k t) →
  ∃ m', remove_type_from_values_of (E:=E) t keys m = Val m' ∧ nonempty m' ∧
    ∀ a b, pair m' a b ↔ pair m a b ∧ ¬ (a ∈ keys ∧ b = t).
Proof.
  intros Hn Hk. unfold remove_type_from_values_of.
  destruct (remove_keys_spec (E:=E) t (elements keys) m) as (m' & ? & ? & Hm');
    [apply NoDup_elements|done|intros k Hin; by apply Hk, elem_of_elements|].
  exists m'. split_and!; [done|done|]. intros a b. by rewrite Hm', elem_of_elements.
Qed.

Lemma remove_entries_list {E} (kept : annotations) (l : list (TypeAnnotation * annotations)) m :
  NoDup l.*1 → nonempty m → (∀ a s b, (a, s) ∈ l → b ∈ s → pair m b a) →
  ∃ m', fold_left (remove_entry (E:=E) kept) l (Val m) = Val m' ∧
    nonempty m' ∧ ∀ b a, pair m' b a ↔ pair m b a ∧ ¬ ((a ∉ kept) ∧ (∃ s, (a, s) ∈ l ∧ b ∈ s)).
Proof.
  revert m. induction l as [|[a s] l IH]; intros m Hnd Hn Hp.
  { exists m. split_and!; [done|done|]. intros b a. split; [|naive_solver]. intros ?. split; [done|].
    intros (_ & s & Hin & _). by apply not_elem_of_nil in Hin. }
  cbn [fmap list_fmap fst] in Hnd. apply NoDup_cons in Hnd as [Hal Hnd]. cbn [fold_left].
  unfold remove_entry at 2. cbn [mbind exec_bind fst snd]. case_bool_decide as Ha.
  - destruct (IH m Hnd Hn) as (m' & -> & Hn' & Hm').
    { intros x sx b Hx. apply Hp. by apply list_elem_of_further. }
    exists m'. split_and!; [done|done|]. intros b x. rewrite Hm'. setoid_rewrite elem_of_cons. naive_solver.
  - destruct (remove_type_spec (E:=E) a s m Hn) as (m1 & -> & Hn1 & Hm1).
    { intros k Hk. by apply (Hp a s), Hk; apply list_elem_of_here. }
    destruct (IH m1 Hnd Hn1) as (m' & -> & Hn' & Hm').
    { intros x sx b Hx Hb. apply Hm1. split; [apply (Hp x sx); [by apply list_elem_of_further|done]|].
      intros [_ ->]. apply Hal. by apply (list_elem_of_fmap_2 fst) in Hx. }
    exists m'. split_and!; [done|done|]. intros b x. rewrite Hm', Hm1. setoid_rewrite elem_of_cons. naive_solver.
Qed.
Lemma remove_entries_spec {E} kept from other :
  nonempty other → (∀ a b, pair from a b ↔ pair other b a) →
  ∃ m, remove_entries (E:=E) kept from other = Val m ∧ nonempty m ∧
    ∀ b a, pair m b a ↔ pair other b a ∧ a ∈ kept.
Proof.
  intros Hn Hsame. unfold remove_entries.
  destruct (remove_entries_list (E:=E) kept (map_to_list from) other) as (m & ? & ? & Hm).
  - apply NoDup_fst_map_to_list.
  - done.
  - intros a s b Hin%elem_of_map_to_list Hb. apply Hsame. by exists s.
  - exists m. split_and!; [done|done|]. intros b a. rewrite Hm. split.
    + intros [Hp Hno]. split; [done|]. destruct (decide (a ∈ kept)) as [|Hk]; [done|]. destruct Hno.
      split; [done|]. apply Hsame in Hp as (s & Hs & Hb). exists s. by rewrite elem_of_map_to_list.
    + naive_solver.
Qed.

Lemma prune_self_spec {E} e vs ls rs :
  consistent e → vs !! edge_left e = Some ls → vs !! edge_right e = Some rs →
  ∃ e', prune_self_from_vertices (E:=E) e vs = Val e' ∧ consistent e' ∧
    edge_constraint e' = edge_constraint e ∧ edge_left e' = edge_left e ∧ edge_right e' = edge_right e ∧
    ∀ a b, allows e' a b ↔ allows e a b ∧ a ∈ ls ∧ b ∈ rs.
Proof.
  intros [Hsame Hl Hr] Els Ers. unfold prune_self_from_vertices. rewrite Els, Ers. cbn [unwrap mbind exec_bind].
  destruct (remove_entries_spec (E:=E) ls (left_to_right e) (right_to_left e)) as (r1 & -> & Hn1 & Hr1); [done..|].
  cbn [mbind exec_bind].
  destruct (remove_entries_spec (E:=E) rs r1 (retain_keys ls (left_to_right e))) as (l2 & -> & Hn2 & Hl2).
  { by apply nonempty_retain_keys. } { intros a b. rewrite Hr1, pair_retain_keys, Hsame. done. }
  eexists. split; [reflexivity|]. cbn. split_and!; [|done..|].
  - split; cbn; [|done|by apply nonempty_retain_keys].
    intros a b. rewrite Hl2, !pair_retain_keys, Hr1, Hsame. tauto.
  - intros a b. unfold allows. cbn. rewrite Hl2, pair_retain_keys. tauto.
Qed.

(** ** Induction on graphs *)
Section graph_induction.
Context (P : TypeInferenceGraph → Prop)
  (step : ∀ c vs es ns, Forall (λ n, Forall P (disjunction n)) ns → P (MkGraph c vs es ns)).
Fixpoint graph_induction (g : TypeInferenceGraph) : P g :=
  match g with
  | MkGraph c vs es ns =>
      step c vs es ns
        ((fix go (ns : list NestedTypeInferenceGraphDisjunction) : Forall (λ n, Forall P (disjunction n)) ns :=
            match ns with
            | [] => Forall_nil_2 _
            | n :: ns =>
                Forall_cons_2 (λ n, Forall P (disjunction n)) n ns
                  (match n return Forall P (disjunction n) with
                   | MkNested gs _ _ =>
                       (fix go' (gs : list TypeInferenceGraph) : Forall P gs :=
                          match gs with
                          | [] => Forall_nil_2 _
                          | g :: gs => Forall_cons_2 _ g gs (graph_induction g) (go' gs)
                          end) gs
                   end) (go ns)
            end) ns)
  end.
End graph_induction.

(** ** Well-formed graphs, their size and their solutions *)
Definition edge_ok (vs : VertexAnnotations) (e : TypeInferenceEdge) : Prop :=
  consistent e ∧ is_Some (vs !! edge_left e) ∧ is_Some (vs !! edge_right e).
Inductive graph_ok : TypeInferenceGraph → Prop :=
| graph_ok_intro c vs es ns :
    Forall (edge_ok vs) es → Forall (λ n, Forall graph_ok (disjunction n)) ns → graph_ok (MkGraph c vs es ns).

Definition vertex_pairs (vs : VertexAnnotations) : gset (Vertex * TypeAnnotation) :=
  map_fold (λ v ts acc, set_map (λ t, (v, t)) ts ∪ acc) ∅ vs.
Definition vertex_count (vs : VertexAnnotations) : nat := size (vertex_pairs vs).
Fixpoint type_count (g : TypeInferenceGraph) : nat :=
  match g with MkGraph _ vs _ ns => (vertex_count vs + sum_list (List.map nested_type_count ns))%nat end
with nested_type_count (n : NestedTypeInferenceGraphDisjunction) : nat :=
  match n with MkNested gs _ _ => sum_list (List.map type_count gs) end.

(** A solution gives every vertex one of its types, satisfies every edge, and
    is a solution of some branch of every disjunction. *)
Definition vertices_sat (σ : Vertex → TypeAnnotation) (vs : VertexAnnotations) : Prop :=
  ∀ v ts, vs !! v = Some ts → σ v ∈ ts.
Inductive solution (σ : Vertex → TypeAnnotation) : TypeInferenceGraph → Prop :=
| solution_intro c vs es ns :
    vertices_sat σ vs →
    Forall (λ e, allows e (σ (edge_left e)) (σ (edge_right e))) es →
    Forall (λ n, Exists (solution σ) (disjunction n)) ns →
    solution σ (MkGraph c vs es ns).

Lemma vertex_pairs_spec vs v t : (v, t) ∈ vertex_pairs vs ↔ ∃ ts, vs !! v = Some ts ∧ t ∈ ts.
Proof.
  unfold vertex_pairs. revert v t.
  apply (map_fold_weak_ind (λ acc (vs : VertexAnnotations), ∀ v t, (v, t) ∈ acc ↔ ∃ ts, vs !! v = Some ts ∧ t ∈ ts)).
  - intros v t. split; [by intros []%elem_of_empty|]. intros (ts & Hts & _). by apply lookup_empty_Some in Hts.
  - intros v' ts' vs' acc Hv IH v t. rewrite elem_of_union, IH, elem_of_map. setoid_rewrite lookup_insert_Some. split.
    + intros [(x & [= -> ->] & Hx)|(ts & Hts & Ht)]; [by exists ts'; auto|].
      exists ts. split; [|done]. right. split; [|done]. congruence.
    + intros (ts & [[<- <-]|[Hne Hts]] & Ht); [left; by exists t|right; by exists ts].
Qed.

(** Fewer types at the same vertices. *)
Definition shrinks (vs vs' : VertexAnnotations) : Prop :=
  (∀ v, is_Some (vs' !! v) ↔ is_Some (vs !! v)) ∧
  ∀ v ts ts', vs !! v = Some ts → vs' !! v = Some ts' → ts' ⊆ ts.
Lemma shrinks_refl vs : shrinks vs vs.
Proof. split; [done|]. intros v ts ts' ??. by simplify_eq. Qed.
Lemma shrinks_trans vs1 vs2 vs3 : shrinks vs1 vs2 → shrinks vs2 vs3 → shrinks vs1 vs3.
Proof.
  intros [Hd1 Hs1] [Hd2 Hs2]. split; [intros v; by rewrite Hd2, Hd1|].
  intros v ts ts' H1 H2. destruct (proj2 (Hd1 v)) as [ts2 H3]; [by eauto|].
  trans ts2; [by eapply Hs2|by eapply Hs1].
Qed.
Lemma shrinks_pairs vs vs' : shrinks vs vs' → vertex_pairs vs' ⊆ vertex_pairs vs.
Proof.
  intros [Hd Hs] [v t]. rewrite !vertex_pairs_spec. intros (ts' & Hts' & Ht).
  destruct (proj1 (Hd v)) as [ts Hts]; [by eauto|]. exists ts. split; [done|]. by eapply Hs.
Qed.
Lemma shrinks_count vs vs' : shrinks vs vs' → (vertex_count vs' ≤ vertex_count vs)%nat.
Proof. intros. unfold vertex_count. by apply subseteq_size, shrinks_pairs. Qed.
Lemma shrinks_strict vs vs' v ts ts' :
  shrinks vs vs' → vs !! v = Some ts → vs' !! v = Some ts' → size ts ≠ size ts' →
  (vertex_count vs' < vertex_count vs)%nat.
Proof.
  intros Hs Hv Hv' Hne. unfold vertex_count. apply subset_size. split; [by apply shrinks_pairs|].
  intros Hsub. apply Hne. apply set_size_proper. intros t. split; intros Ht.
  - assert ((v, t) ∈ vertex_pairs vs') as (x & ? & ?)%vertex_pairs_spec; [|by simplify_eq].
    apply Hsub, vertex_pairs_spec. eauto.
  - by eapply (proj2 Hs).
Qed.
Lemma shrinks_sat σ vs vs' : shrinks vs vs' → vertices_sat σ vs' → vertices_sat σ vs.
Proof.
  intros [Hd Hs] Hsat v ts Hts. destruct (proj2 (Hd v)) as [ts' Hts']; [by eauto|].
  by eapply Hs, Hsat.
Qed.
Lemma shrinks_edge_ok vs vs' e : shrinks vs vs' → edge_ok vs e → edge_ok vs' e.
Proof. intros [Hd _] (? & ? & ?). split_and!; [done|by apply Hd..]. Qed.
Lemma retain_subseteq p s : retain p s ⊆ s.
Proof. intros t. rewrite retain_spec. naive_solver. Qed.
Lemma retain_size p s : size s = size (retain p s) → retain p s = s.
Proof. intros Hs. apply leibniz_equiv, set_subseteq_size_equiv; [apply retain_subseteq|lia]. Qed.

(** ** Pruning vertices by edges *)

(** What one pass over vertices does: the flag says whether anything changed. *)
Record pass (vs vs' : VertexAnnotations) (m : bool) : Prop := {
  pa_shrinks : shrinks vs vs';
  pa_same : m = false → vs' = vs;
  pa_less : m = true → (vertex_count vs' < vertex_count vs)%nat;
}.
Lemma pass_seq vs1 vs2 vs3 m1 m2 : pass vs1 vs2 m1 → pass vs2 vs3 m2 → pass vs1 vs3 (m1 || m2).
Proof.
  intros [Hs1 He1 Hl1] [Hs2 He2 Hl2].
  pose proof (shrinks_count _ _ Hs1). pose proof (shrinks_count _ _ Hs2). split.
  - by eapply shrinks_trans.
  - intros [-> ->]%orb_false_iff. by rewrite He2, He1.
  - intros [->| ->]%orb_true_iff; [specialize (Hl1 eq_refl)|specialize (Hl2 eq_refl)]; lia.
Qed.
Lemma pass_refl vs : pass vs vs false.
Proof. by split; [apply shrinks_refl|..]. Qed.

Lemma retain_at_spec {E} v m vs :
  is_Some (vs !! v) →
  ∃ vs' f, retain_at (E:=E) v m vs = Val (vs', f) ∧ pass vs vs' f ∧
    (∀ σ, vertices_sat σ vs → is_Some (m !! σ v) → vertices_sat σ vs') ∧
    (f = false → ∀ ts t, vs !! v = Some ts → t ∈ ts → is_Some (m !! t)).
Proof.
  intros [ts Hts]. unfold retain_at. rewrite Hts. cbn [unwrap mbind exec_bind].
  set (kept := retain _ ts). eexists _, _. split; [reflexivity|].
  assert (shrinks vs (<[v:=kept]> vs)) as Hsh.
  { split.
    - intros x. rewrite lookup_insert_is_Some'. split; [|tauto]. intros [->|]; eauto.
    - intros x s s' Hs. rewrite lookup_insert_Some. intros [[<- <-]|[_ ?]]; simplify_eq; [|done]. apply retain_subseteq. }
  split_and!.
  - split; [done| |].
    + intros Hf. apply negb_false_iff, bool_decide_eq_true in Hf. apply retain_size in Hf. fold kept in Hf.
      rewrite Hf. by apply insert_id.
    + intros Hf. apply negb_true_iff, bool_decide_eq_false in Hf. eapply shrinks_strict; [done|done| |done].
      by rewrite lookup_insert_eq.
  - intros σ Hsat Hm x s. rewrite lookup_insert_Some. intros [[<- <-]|[_ ?]]; [|by apply Hsat].
    apply retain_spec. split; [by apply Hsat|]. by apply bool_decide_eq_true.
  - intros Hf s t Hs Ht. simplify_eq. apply negb_false_iff, bool_decide_eq_true, retain_size in Hf.
    rewrite <-Hf, retain_spec, bool_decide_eq_true in Ht. apply Ht.
Qed.

(** Every type at an end of the edge has a partner at the edge. *)
Definition edge_stable (vs : VertexAnnotations) (e : TypeInferenceEdge) : Prop :=
  (∀ ts t, vs !! edge_left e = Some ts → t ∈ ts → ∃ u, allows e t u) ∧
  (∀ ts u, vs !! edge_right e = Some ts → u ∈ ts → ∃ t, allows e t u).

Lemma prune_by_edge_spec {E} e vs :
  edge_ok vs e →
  ∃ vs' f, prune_vertices_from_self (E:=E) e vs = Val (vs', f) ∧ pass vs vs' f ∧
    (∀ σ, vertices_sat σ vs → allows e (σ (edge_left e)) (σ (edge_right e)) → vertices_sat σ vs') ∧
    (f = false → edge_stable vs e).
Proof.
  intros ([Hsame Hnl Hnr] & Hl & Hr). unfold prune_vertices_from_self.
  destruct (retain_at_spec (E:=E) (edge_left e) (left_to_right e) vs Hl) as (vs1 & f1 & -> & Hp1 & Hs1 & He1).
  cbn [mbind exec_bind].
  destruct (retain_at_spec (E:=E) (edge_right e) (right_to_left e) vs1) as (vs2 & f2 & -> & Hp2 & Hs2 & He2).
  { by apply (proj1 (pa_shrinks _ _ _ Hp1)). }
  cbn [mbind exec_bind]. eexists _, _. split; [reflexivity|]. split_and!.
  - by eapply pass_seq.
  - intros σ Hsat Ha. apply Hs2.
    + apply Hs1; [done|]. apply pair_key; [done|]. by exists (σ (edge_right e)).
    + apply pair_key; [done|]. exists (σ (edge_left e)). by apply Hsame.
  - intros [-> ->]%orb_false_iff. specialize (pa_same _ _ _ Hp1 eq_refl) as ->. split.
    + intros ts t Hts Ht. apply (pair_key _ _ Hnl). by eapply He1.
    + intros ts u Hts Hu. destruct (proj1 (pair_key _ u Hnr)) as [t Ht]; [by eapply He2|].
      exists t. by apply Hsame.
Qed.
Lemma prune_by_edges_spec {E} es vs :
  Forall (edge_ok vs) es →
  ∃ vs' f, prune_by_edges (E:=E) es vs = Val (vs', f) ∧ pass vs vs' f ∧
    (∀ σ, vertices_sat σ vs → Forall (λ e, allows e (σ (edge_left e)) (σ (edge_right e))) es → vertices_sat σ vs') ∧
    (f = false → Forall (edge_stable vs) es).
Proof.
  revert vs. induction es as [|e es IH]; intros vs Hok.
  { exists vs, false. split_and!; [done|apply pass_refl|done|done]. }
  apply Forall_cons in Hok as [He Hes]. cbn [prune_by_edges].
  destruct (prune_by_edge_spec (E:=E) e vs He) as (vs1 & f1 & -> & Hp1 & Hs1 & He1). cbn [mbind exec_bind].
  destruct (IH vs1) as (vs2 & f2 & -> & Hp2 & Hs2 & He2).
  { eapply Forall_impl; [done|]. intros x. by eapply shrinks_edge_ok, pa_shrinks. }
  cbn [mbind exec_bind]. eexists _, _. split; [reflexivity|]. split_and!.
  - by eapply pass_seq.
  - intros σ Hsat [Ha Has]%Forall_cons. auto.
  - intros [-> ->]%orb_false_iff. specialize (pa_same _ _ _ Hp1 eq_refl) as ->. constructor; auto.
Qed.

(** ** Pruning by disjunctions *)
Lemma traverse_spec {E A B} (f : A → exec E B) (R : A → B → Prop) l :
  Forall (λ x, ∃ y, f x = Val y ∧ R x y) l → ∃ l', traverse f l = Val l' ∧ Forall2 R l l'.
Proof.
  induction 1 as [|x l (y & Hy & HR) _ (l' & Hl & HRs)]; [by exists []; split|].
  exists (y :: l'). cbn [traverse]. rewrite Hy. cbn [mbind exec_bind]. rewrite Hl. split; [done|by constructor].
Qed.

Lemma retain_map_spec (p : Vertex → TypeAnnotation → bool) (vs : VertexAnnotations) v :
  map_imap (λ v ts, Some (retain (p v) ts)) vs !! v = retain (p v) <$> vs !! v.
Proof. rewrite map_lookup_imap. by destruct (vs !! v). Qed.
Lemma retain_map_shrinks (p : Vertex → TypeAnnotation → bool) (vs : VertexAnnotations) :
  shrinks vs (map_imap (λ v ts, Some (retain (p v) ts)) vs).
Proof.
  split; [intros v; by rewrite retain_map_spec, fmap_is_Some|].
  intros v ts ts' Hts. rewrite retain_map_spec, Hts. intros [= <-]. apply retain_subseteq.
Qed.
Lemma retain_supported_spec gs vs :
  pass vs (retain_supported gs vs) (any_unsupported gs vs) ∧
  (∀ σ, vertices_sat σ vs → Exists (λ g, vertices_sat σ (g_vertices g)) gs → vertices_sat σ (retain_supported gs vs)) ∧
  (any_unsupported gs vs = false → ∀ v ts t, vs !! v = Some ts → t ∈ ts → supported gs v t = true).
Proof.
  assert (any_unsupported gs vs = false → ∀ v ts, vs !! v = Some ts → retain (supported gs v) ts = ts) as Hnone.
  { intros Hf v ts Hts. apply retain_size. unfold any_unsupported in Hf.
    destruct (decide (size ts = size (retain (supported gs v) ts))) as [|Hne]; [done|].
    apply not_true_iff_false in Hf. destruct Hf. apply existsb_exists. exists (v, ts). split.
    - by apply list_elem_of_In, elem_of_map_to_list.
    - by apply negb_true_iff, bool_decide_eq_false. }
  split_and!.
  - split; [apply retain_map_shrinks| |].
    + intros Hf. apply map_eq. intros v. unfold retain_supported. rewrite retain_map_spec.
      destruct (vs !! v) as [ts|] eqn:Hts; [|done]. cbn. by rewrite Hnone.
    + intros Hf. apply existsb_exists in Hf as ([v ts] & Hin & Hne).
      apply list_elem_of_In, elem_of_map_to_list in Hin. apply negb_true_iff, bool_decide_eq_false in Hne.
      eapply shrinks_strict; [apply retain_map_shrinks|exact Hin| |exact Hne].
      unfold retain_supported. by rewrite retain_map_spec, Hin.
  - intros σ Hsat Hex v ts'. unfold retain_supported. rewrite retain_map_spec.
    destruct (vs !! v) as [ts|] eqn:Hts; [|done]. intros [= <-]. apply retain_spec. split; [by apply Hsat|].
    apply Exists_exists in Hex as (g & Hg & Hgs). apply existsb_exists. exists g.
    split; [by apply list_elem_of_In|]. destruct (g_vertices g !! v) as [us|] eqn:Hus; [|done].
    by apply bool_decide_eq_true, Hgs.
  - intros Hf v ts t Hts Ht. rewrite <-(Hnone Hf _ _ Hts), retain_spec in Ht. apply Ht.
Qed.

Definition nested_supports (vs : VertexAnnotations) (n : NestedTypeInferenceGraphDisjunction) : Prop :=
  ∀ v ts t, vs !! v = Some ts → t ∈ ts → supported (disjunction n) v t = true.
Inductive stable : TypeInferenceGraph → Prop :=
| stable_intro c vs es ns :
    Forall (edge_stable vs) es → Forall (nested_supports vs) ns →
    Forall (λ n, Forall stable (disjunction n)) ns → stable (MkGraph c vs es ns).
Definition nested_solution (σ : Vertex → TypeAnnotation) (n : NestedTypeInferenceGraphDisjunction) : Prop :=
  Exists (solution σ) (disjunction n).

(** What a pass over a graph does. *)
Record graph_pass (g g' : TypeInferenceGraph) (f : bool) : Prop := {
  gp_ok : graph_ok g';
  gp_same : f = false → g' = g ∧ stable g;
  gp_less : f = true → (type_count g' < type_count g)%nat;
  gp_solution : ∀ σ, solution σ g ↔ solution σ g';
}.
Lemma graph_pass_le g g' f : graph_pass g g' f → (type_count g' ≤ type_count g)%nat.
Proof. intros [_ Hs Hl _]. destruct f; [specialize (Hl eq_refl); lia|by destruct (Hs eq_refl) as [-> _]]. Qed.

(** The same for the disjunctions of a graph, with the vertices of the parent. *)
Record nested_pass (ns ns' : list NestedTypeInferenceGraphDisjunction) (vs vs' : VertexAnnotations) (f : bool) : Prop := {
  np_ok : Forall (λ n, Forall graph_ok (disjunction n)) ns';
  np_shrinks : shrinks vs vs';
  np_same : f = false → ns' = ns ∧ vs' = vs ∧ Forall (nested_supports vs) ns ∧ Forall (λ n, Forall stable (disjunction n)) ns;
  np_less : f = true →
    (vertex_count vs' + sum_list (List.map nested_type_count ns') < vertex_count vs + sum_list (List.map nested_type_count ns))%nat;
  np_solution : ∀ σ, vertices_sat σ vs ∧ Forall (nested_solution σ) ns ↔ vertices_sat σ vs' ∧ Forall (nested_solution σ) ns';
}.
Lemma nested_pass_le ns ns' vs vs' f :
  nested_pass ns ns' vs vs' f →
  (vertex_count vs' + sum_list (List.map nested_type_count ns') ≤ vertex_count vs + sum_list (List.map nested_type_count ns))%nat.
Proof. intros [_ _ Hs Hl _]. destruct f; [specialize (Hl eq_refl); lia|by destruct (Hs eq_refl) as (-> & -> & _)]. Qed.

Lemma solution_vertices σ g : solution σ g → vertices_sat σ (g_vertices g).
Proof. by intros [c vs es ns Hv _ _]. Qed.

Lemma branches_pass gs (r : list (TypeInferenceGraph * bool)) :
  Forall2 (λ g gf, graph_pass g gf.1 gf.2) gs r →
  Forall graph_ok (List.map fst r) ∧
  (existsb snd r = false → List.map fst r = gs ∧ Forall stable gs) ∧
  (existsb snd r = true → (sum_list (List.map type_count (List.map fst r)) < sum_list (List.map type_count gs))%nat) ∧
  ∀ σ, Exists (solution σ) gs ↔ Exists (solution σ) (List.map fst r).
Proof.
  induction 1 as [|g [g' f] gs r Hp _ (IHok & IHs & IHl & IHsol)]; cbn [List.map existsb fst snd].
  { split_and!; [by constructor|done|done|done]. }
  cbn [fst snd] in Hp. pose proof (graph_pass_le _ _ _ Hp) as Hle. destruct Hp as [Hok Hs Hl Hsol].
  assert (sum_list (List.map type_count (List.map fst r)) ≤ sum_list (List.map type_count gs))%nat as Hle2.
  { destruct (existsb snd r); [by apply Nat.lt_le_incl, IHl|by destruct IHs as [-> _]]. }
  split_and!.
  - by constructor.
  - intros [-> Hr]%orb_false_iff. destruct (Hs eq_refl) as [-> ?]. destruct (IHs Hr) as [-> ?]. split; [done|by constructor].
  - cbn [sum_list sum_list_with id]. unfold sum_list, id in *. cbn.
    intros [->|Hr]%orb_true_iff; [specialize (Hl eq_refl)|specialize (IHl Hr)]; lia.
  - intros σ. rewrite !Exists_cons, Hsol, IHsol. done.
Qed.

Lemma nested_prune_spec {E} n vs :
  Forall (λ g, graph_ok g → ∃ gf, prune_vertices_from_constraints (E:=E) g = Val gf ∧ graph_pass g gf.1 gf.2) (disjunction n) →
  Forall graph_ok (disjunction n) →
  ∃ n' vs' f, nested_prune_vertices_from_self (E:=E) n vs = Val (n', vs', f) ∧ nested_pass [n] [n'] vs vs' f.
Proof.
  destruct n as [gs sv sva]. cbn [disjunction nested_prune_vertices_from_self]. intros Hih Hok.
  destruct (traverse_spec (prune_vertices_from_constraints (E:=E)) (λ g gf, graph_pass g gf.1 gf.2) gs) as (r & -> & Hr).
  { rewrite Forall_forall in Hih, Hok |- *. intros g Hg. by apply Hih, Hok. }
  cbn [mbind exec_bind]. eexists _, _, _. split; [reflexivity|].
  destruct (branches_pass gs r Hr) as (Hok' & Hs & Hl & Hsol).
  destruct (retain_supported_spec (List.map fst r) vs) as (Hp & Hsat & Hsup).
  assert (sum_list (List.map type_count (List.map fst r)) ≤ sum_list (List.map type_count gs))%nat as Hle.
  { destruct (existsb snd r); [by apply Nat.lt_le_incl, Hl|by destruct Hs as [-> _]]. }
  pose proof (shrinks_count _ _ (pa_shrinks _ _ _ Hp)) as Hle2. split.
  - by constructor.
  - apply Hp.
  - intros [Hr0 Hu0]%orb_false_iff. destruct (Hs Hr0) as [Hgs Hst]. rewrite Hgs in *. split_and!.
    + done.
    + by apply Hp.
    + constructor; [|done]. intros v ts t. by apply Hsup.
    + by constructor.
  - unfold sum_list. cbn. unfold sum_list in *.
    intros [Hr0|Hu0]%orb_true_iff; [specialize (Hl Hr0)|pose proof (pa_less _ _ _ Hp Hu0)]; lia.
  - intros σ. rewrite !Forall_cons, !Forall_nil. unfold nested_solution. cbn [disjunction]. rewrite <-Hsol. split.
    + intros (Hv & Hex & _). split_and!; [|done|done]. apply Hsat; [done|].
      apply Hsol in Hex. eapply Exists_impl; [exact Hex|]. intros g. apply solution_vertices.
    + intros (Hv & Hex & _). split_and!; [|done|done]. eapply shrinks_sat; [apply Hp|done].
Qed.

Lemma nested_passes_spec {E} ns vs :
  Forall (λ n, Forall (λ g, graph_ok g → ∃ gf, prune_vertices_from_constraints (E:=E) g = Val gf ∧ graph_pass g gf.1 gf.2) (disjunction n)) ns →
  Forall (λ n, Forall graph_ok (disjunction n)) ns →
  ∃ ns' vs' f, traverse_state nested_prune_vertices_from_self ns vs = Val (E:=E) (ns', vs', f) ∧ nested_pass ns ns' vs vs' f.
Proof.
  intros Hih. revert vs. induction Hih as [|n ns Hn _ IH]; intros vs Hok.
  { exists [], vs, false. split; [done|]. split; [done|apply shrinks_refl|done|done|done]. }
  apply Forall_cons in Hok as [Hok1 Hok]. cbn [traverse_state].
  destruct (nested_prune_spec n vs Hn Hok1) as (n' & vs1 & f1 & -> & Hp1). cbn [mbind exec_bind].
  destruct (IH vs1 Hok) as (ns' & vs2 & f2 & -> & Hp2). cbn [mbind exec_bind].
  eexists _, _, _. split; [reflexivity|].
  pose proof (nested_pass_le _ _ _ _ _ Hp1) as Hle1. pose proof (nested_pass_le _ _ _ _ _ Hp2) as Hle2.
  destruct Hp1 as [Hok1' Hsh1 Hs1 Hl1 Hsol1], Hp2 as [Hok2' Hsh2 Hs2 Hl2 Hsol2]. split.
  - apply Forall_cons in Hok1' as [? _]. by constructor.
  - by eapply shrinks_trans.
  - intros [-> ->]%orb_false_iff. destruct (Hs1 eq_refl) as ([= ->] & -> & Hsup1 & Hst1).
    destruct (Hs2 eq_refl) as (-> & -> & Hsup2 & Hst2). apply Forall_cons in Hsup1 as [? _], Hst1 as [? _].
    split_and!; [done|done|by constructor..].
  - unfold sum_list in *. cbn in *.
    intros [->| ->]%orb_true_iff; [specialize (Hl1 eq_refl)|specialize (Hl2 eq_refl)]; lia.
  - intros σ. specialize (Hsol1 σ). specialize (Hsol2 σ). rewrite !Forall_cons, !Forall_nil in *. tauto.
Qed.

Lemma prune_vertices_spec {E} g :
  graph_ok g → ∃ gf, prune_vertices_from_constraints (E:=E) g = Val gf ∧ graph_pass g gf.1 gf.2.
Proof.
  induction g as [c vs es ns IH] using graph_induction. intros Hg. inversion Hg as [? ? ? ? Hes Hns]; subst.
  cbn [prune_vertices_from_constraints].
  destruct (prune_by_edges_spec (E:=E) es vs Hes) as (vs1 & f1 & -> & Hp1 & Hs1 & He1). cbn [mbind exec_bind].
  destruct (nested_passes_spec ns vs1 IH Hns) as (ns' & vs2 & f2 & -> & Hp2). cbn [mbind exec_bind].
  eexists. split; [reflexivity|]. pose proof (nested_pass_le _ _ _ _ _ Hp2) as Hle2.
  pose proof (shrinks_count _ _ (pa_shrinks _ _ _ Hp1)) as Hle1.
  destruct Hp2 as [Hok2 Hsh2 Hs2 Hl2 Hsol2]. split; cbn [fst snd].
  - constructor; [|done]. eapply Forall_impl; [exact Hes|]. intros e. eapply shrinks_edge_ok, shrinks_trans; [apply Hp1|done].
  - intros [-> ->]%orb_false_iff. specialize (pa_same _ _ _ Hp1 eq_refl) as ->.
    destruct (Hs2 eq_refl) as (-> & -> & Hsup & Hst). split; [done|]. constructor; auto.
  - cbn [type_count]. intros [->| ->]%orb_true_iff; [pose proof (pa_less _ _ _ Hp1 eq_refl)|specialize (Hl2 eq_refl)]; lia.
  - intros σ. split; intros Hsol; inversion Hsol as [? ? ? ? Hv Hea Hna]; subst.
    + destruct (proj1 (Hsol2 σ)) as [? ?]; [by split; [apply Hs1|]|]. by constructor.
    + destruct (proj2 (Hsol2 σ)) as [Hv1 ?]; [done|]. constructor; [|done|done].
      eapply shrinks_sat; [apply Hp1|done].
Qed.

(** ** Pruning constraints by vertices *)

(** Pairs and nested types within the types of the vertices. *)
Definition edge_within (vs : VertexAnnotations) (e : TypeInferenceEdge) : Prop :=
  ∀ a b, allows e a b → ∃ ls rs, vs !! edge_left e = Some ls ∧ vs !! edge_right e = Some rs ∧ a ∈ ls ∧ b ∈ rs.
Definition vertices_within (parent vs : VertexAnnotations) : Prop :=
  ∀ v ps ts, parent !! v = Some ps → vs !! v = Some ts → ts ⊆ ps.
Inductive within : TypeInferenceGraph → Prop :=
| within_intro c vs es ns :
    Forall (edge_within vs) es →
    Forall (λ n, Forall (λ g, vertices_within vs (g_vertices g)) (disjunction n)) ns →
    Forall (λ n, Forall within (disjunction n)) ns → within (MkGraph c vs es ns).

Definition keep_parent (parent : VertexAnnotations) (v : Vertex) (t : TypeAnnotation) : bool :=
  match parent !! v with Some ps => bool_decide (t ∈ ps) | None => true end.
Lemma retain_all ts : retain (λ _, true) ts = ts.
Proof. apply leibniz_equiv. intros t. rewrite retain_spec. naive_solver. Qed.
Lemma retain_by_parent_eq parent vs :
  retain_by_parent parent vs = map_imap (λ v ts, Some (retain (keep_parent parent v) ts)) vs.
Proof.
  apply map_eq. intros v. unfold retain_by_parent, keep_parent. rewrite !map_lookup_imap.
  destruct (vs !! v) as [ts|]; [|done]. cbn. destruct (parent !! v); [done|]. by rewrite retain_all.
Qed.
Lemma retain_by_parent_spec parent vs :
  shrinks vs (retain_by_parent parent vs) ∧ vertices_within parent (retain_by_parent parent vs) ∧
  ∀ σ, vertices_sat σ parent → vertices_sat σ vs → vertices_sat σ (retain_by_parent parent vs).
Proof.
  rewrite retain_by_parent_eq. split_and!.
  - apply retain_map_shrinks.
  - intros v ps ts Hps. rewrite retain_map_spec. destruct (vs !! v) as [us|]; [|done]. intros [= <-] t.
    unfold keep_parent. rewrite Hps, retain_spec, bool_decide_eq_true. naive_solver.
  - intros σ Hp Hv v ts. rewrite retain_map_spec. destruct (vs !! v) as [us|] eqn:Hus; [|done]. intros [= <-].
    apply retain_spec. split; [by apply Hv|]. unfold keep_parent. destruct (parent !! v) as [ps|] eqn:Hps; [|done].
    by apply bool_decide_eq_true, Hp.
Qed.

Record constrained (vs : VertexAnnotations) (g g' : TypeInferenceGraph) : Prop := {
  cn_ok : graph_ok g';
  cn_vertices : g_vertices g' = vs;
  cn_count : (type_count g' ≤ type_count g)%nat;
  cn_within : within g';
  cn_solution : ∀ σ, solution σ g' ↔ solution σ g ∧ vertices_sat σ vs;
}.

Lemma prune_edges_spec {E} es vs vs0 :
  Forall (edge_ok vs0) es → shrinks vs0 vs →
  ∃ es', traverse (λ e, prune_self_from_vertices (E:=E) e vs) es = Val es' ∧ Forall (edge_ok vs) es' ∧ Forall (edge_within vs) es' ∧
    ∀ σ, vertices_sat σ vs →
      Forall (λ e, allows e (σ (edge_left e)) (σ (edge_right e))) es' ↔ Forall (λ e, allows e (σ (edge_left e)) (σ (edge_right e))) es.
Proof.
  intros Hok Hsh.
  destruct (traverse_spec (λ e, prune_self_from_vertices (E:=E) e vs) (λ e e', edge_ok vs e' ∧ edge_within vs e' ∧
    ∀ σ, vertices_sat σ vs → allows e' (σ (edge_left e')) (σ (edge_right e')) ↔ allows e (σ (edge_left e)) (σ (edge_right e))) es)
    as (es' & -> & Hr).
  - eapply Forall_impl; [exact Hok|]. intros e He. apply (shrinks_edge_ok _ _ _ Hsh) in He as (Hc & [ls Hls] & [rs Hrs]).
    destruct (prune_self_spec (E:=E) e vs ls rs Hc Hls Hrs) as (e' & He' & Hc' & _ & El & Er & Hal).
    exists e'. split; [done|]. split_and!.
    + split; [done|]. rewrite El, Er. eauto.
    + intros a b (Hab & Ha & Hb)%Hal. rewrite El, Er. eauto 10.
    + intros σ Hsat. rewrite Hal, El, Er. split; [naive_solver|]. intros. split_and!; [done|by apply Hsat..].
  - exists es'. split; [done|]. clear Hok. induction Hr as [|e e' es es' (H1 & H2 & H3) _ (IH1 & IH2 & IH3)].
    { split_and!; [done|done|done]. }
    split_and!; [by constructor|by constructor|]. intros σ Hsat. rewrite !Forall_cons, H3, IH3; done.
Qed.

Lemma sum_list_step x l : sum_list (x :: l) = (x + sum_list l)%nat.
Proof. done. Qed.
Lemma branches_constrained gs gs' vs :
  Forall2 (λ g g', constrained (retain_by_parent vs (g_vertices g)) g g') gs gs' →
  Forall graph_ok gs' ∧ (sum_list (List.map type_count gs') ≤ sum_list (List.map type_count gs))%nat ∧
  Forall (λ g, vertices_within vs (g_vertices g)) gs' ∧ Forall within gs' ∧
  ∀ σ, vertices_sat σ vs → Exists (solution σ) gs' ↔ Exists (solution σ) gs.
Proof.
  induction 1 as [|g g' gs gs' [Hok Hv Hc Hw Hs] _ (IH1 & IH2 & IH3 & IH4 & IH5)].
  { split_and!; try done; by constructor. }
  destruct (retain_by_parent_spec vs (g_vertices g)) as (_ & Hwi & Hsat). split_and!.
  - by constructor.
  - cbn [List.map]. rewrite !sum_list_step. lia.
  - constructor; [by rewrite Hv|done].
  - by constructor.
  - intros σ Hσ. rewrite !Exists_cons, Hs, IH5 by done. split; [naive_solver|].
    intros [Hg|?]; [|by right]. left. split; [done|]. apply Hsat; [done|]. by apply solution_vertices.
Qed.

Lemma prune_constraints_spec {E} g vs :
  graph_ok g → shrinks (g_vertices g) vs →
  ∃ g', prune_constraints_with (E:=E) vs g = Val g' ∧ constrained vs g g'.
Proof.
  revert vs. induction g as [c vs0 es ns IH] using graph_induction. intros vs Hg Hsh.
  inversion Hg as [? ? ? ? Hes Hns]; subst. cbn [g_vertices] in Hsh. cbn [prune_constraints_with].
  destruct (prune_edges_spec (E:=E) es vs vs0 Hes Hsh) as (es' & -> & Hok' & Hwi' & Hsol'). cbn [mbind exec_bind].
  destruct (traverse_spec (nested_prune_self_from_vertices (E:=E) vs)
    (λ n n', Forall2 (λ g g', constrained (retain_by_parent vs (g_vertices g)) g g') (disjunction n) (disjunction n')) ns)
    as (ns' & -> & Hr).
  { rewrite Forall_forall in IH, Hns |- *. intros [gs sv sva] Hn. specialize (IH _ Hn). specialize (Hns _ Hn). cbn in IH, Hns.
    destruct (traverse_spec (λ g, prune_constraints_with (E:=E) (retain_by_parent vs (g_vertices g)) g)
      (λ g g', constrained (retain_by_parent vs (g_vertices g)) g g') gs) as (gs' & Et & HR).
    - rewrite Forall_forall in IH, Hns |- *. intros g Hg'. apply IH; [done|by apply Hns|apply retain_by_parent_spec].
    - exists (MkNested gs' sv sva). cbn [nested_prune_self_from_vertices]. by rewrite Et. }
  cbn [mbind exec_bind]. eexists. split; [reflexivity|].
  assert (Forall (λ n, Forall graph_ok (disjunction n)) ns' ∧
    (sum_list (List.map nested_type_count ns') ≤ sum_list (List.map nested_type_count ns))%nat ∧
    Forall (λ n, Forall (λ g, vertices_within vs (g_vertices g)) (disjunction n)) ns' ∧
    Forall (λ n, Forall within (disjunction n)) ns' ∧
    ∀ σ, vertices_sat σ vs → Forall (nested_solution σ) ns' ↔ Forall (nested_solution σ) ns) as (N1 & N2 & N3 & N4 & N5).
  { clear -Hr. induction Hr as [|n n' ns ns' Hn _ (IH1 & IH2 & IH3 & IH4 & IH5)].
    { split_and!; try done; by constructor. }
    apply branches_constrained in Hn as (B1 & B2 & B3 & B4 & B5). split_and!; [by constructor| |by constructor|by constructor|].
    - destruct n, n'. cbn [List.map nested_type_count disjunction] in *. rewrite !sum_list_step. lia.
    - intros σ Hσ. unfold nested_solution in *. rewrite !Forall_cons, B5, IH5; done. }
  split.
  - by constructor.
  - done.
  - cbn [type_count]. pose proof (shrinks_count _ _ Hsh). lia.
  - by constructor.
  - intros σ. split.
    + intros Hs. inversion Hs as [? ? ? ? Hv Hea Hna]; subst. split; [|done].
      constructor; [by eapply shrinks_sat|by apply Hsol'|by apply N5].
    + intros [Hs Hv]. inversion Hs as [? ? ? ? _ Hea Hna]; subst.
      constructor; [done|by apply Hsol'|by apply N5].
Qed.

(** ** The loop *)
Lemma prune_types_spec {E} fuel g :
  graph_ok g → (type_count g < fuel)%nat →
  ∃ g', prune_types (E:=E) fuel g = Some (Val g') ∧ graph_ok g' ∧ stable g' ∧ (within g → within g') ∧
    ∀ σ, solution σ g ↔ solution σ g'.
Proof.
  revert g. induction fuel as [|fuel IH]; intros g Hg Hf; [lia|]. cbn [prune_types].
  destruct (prune_vertices_spec (E:=E) g Hg) as ([g1 f] & -> & [Hok Hs Hl Hsol]). cbn [fst snd] in *. destruct f.
  - specialize (Hl eq_refl).
    destruct (prune_constraints_spec (E:=E) g1 (g_vertices g1) Hok (shrinks_refl _)) as (g2 & E2 & [Hok2 _ Hc2 Hw2 Hsol2]).
    unfold prune_constraints_from_vertices. rewrite E2.
    destruct (IH g2 Hok2) as (g' & -> & Hok' & Hst' & Hw' & Hsol'); [lia|].
    exists g'. split_and!; [done|done|done|by intros _; apply Hw'|].
    intros σ. rewrite Hsol, <-Hsol', Hsol2. split; [|naive_solver]. intros Hs1. split; [done|]. by apply solution_vertices.
  - destruct (Hs eq_refl) as [-> Hst]. exists g. done.
Qed.

(** Every type left at an end of an edge has a partner left at the other end;
    every type left at a vertex is allowed by some branch of every disjunction,
    and the branches allow no others. *)
Definition edge_arc_consistent (vs : VertexAnnotations) (e : TypeInferenceEdge) : Prop :=
  ∃ ls rs, vs !! edge_left e = Some ls ∧ vs !! edge_right e = Some rs ∧
    (∀ t, t ∈ ls → ∃ u, u ∈ rs ∧ allows e t u) ∧ (∀ u, u ∈ rs → ∃ t, t ∈ ls ∧ allows e t u).
Inductive arc_consistent : TypeInferenceGraph → Prop :=
| arc_consistent_intro c vs es ns :
    Forall (edge_arc_consistent vs) es →
    Forall (nested_supports vs) ns →
    Forall (λ n, Forall (λ g, vertices_within vs (g_vertices g)) (disjunction n)) ns →
    Forall (λ n, Forall arc_consistent (disjunction n)) ns → arc_consistent (MkGraph c vs es ns).

Lemma stable_within_arc_consistent g : graph_ok g → stable g → within g → arc_consistent g.
Proof.
  induction g as [c vs es ns IH] using graph_induction. intros Hg Hs Hw.
  inversion Hg as [? ? ? ? Hes Hns]; inversion Hs as [? ? ? ? Se Sn Sr]; inversion Hw as [? ? ? ? We Wn Wr]; subst.
  constructor; [|done|done|].
  - rewrite Forall_forall in Hes, Se, We |- *. intros e He. destruct (Hes e He) as (_ & [ls Hls] & [rs Hrs]).
    destruct (Se e He) as [S1 S2]. specialize (We e He). exists ls, rs. split_and!; [done|done| |].
    + intros t Ht. destruct (S1 ls t Hls Ht) as [u Hu]. destruct (We _ _ Hu) as (? & ? & ? & ? & ? & ?). simplify_eq. eauto.
    + intros u Hu. destruct (S2 rs u Hrs Hu) as [t Ht]. destruct (We _ _ Ht) as (? & ? & ? & ? & ? & ?). simplify_eq. eauto.
  - rewrite Forall_forall in IH, Hns, Sr, Wr |- *. intros n Hn. specialize (IH n Hn). specialize (Hns n Hn).
    specialize (Sr n Hn). specialize (Wr n Hn). rewrite Forall_forall in IH, Hns, Sr, Wr |- *. auto.
Qed.

(** C12: type inference ends, without a panic, and loses no solution.  On a graph
    whose edges hold the same pairs in both directions and whose edges' ends
    are annotated (what seeding builds), the pruning loop returns within as
    many iterations as there are candidate types; the assignments of types that
    satisfy the result are exactly those that satisfied the graph it started
    from; and the result is arc consistent when the graph's edges and branches
    started within its vertices' types. *)
Theorem type_inference_prunes g :
  graph_ok g →
  ∃ g', prune_types (E:=Empty_set) (S (type_count g)) g = Some (Val g') ∧ graph_ok g' ∧
    (∀ σ, solution σ g ↔ solution σ g') ∧ (within g → arc_consistent g').
Proof.
  intros Hg. destruct (prune_types_spec (E:=Empty_set) (S (type_count g)) g Hg) as (g' & E & Hok & Hst & Hw & Hsol); [lia|].
  exists g'. split_and!; [done|done|done|]. intros ?. apply stable_within_arc_consistent; auto.
Qed.

(** ** What the unsatisfiability reports mean *)
Inductive subgraph (h : TypeInferenceGraph) : TypeInferenceGraph → Prop :=
| subgraph_here : subgraph h h
| subgraph_branch c vs es ns n b : n ∈ ns → b ∈ disjunction n → subgraph h b → subgraph h (MkGraph c vs es ns).

Lemma first_some_map {A B} (f : A → option B) l y :
  fold_right first_some None (List.map f l) = Some y → ∃ x, x ∈ l ∧ f x = Some y.
Proof.
  induction l as [|x l IH]; [done|]. cbn. destruct (f x) as [z|] eqn:Ez; cbn.
  - intros [= <-]. exists x. split; [apply list_elem_of_here|done].
  - intros (x' & ? & ?)%IH. exists x'. split; [by apply list_elem_of_further|done].
Qed.
Lemma and_then_map {E A} (f : A → exec E bool) l b :
  fold_right and_then (Val true) (List.map f l) = Val b →
  if b then Forall (λ x, f x = Val true) l else ∃ x, x ∈ l ∧ f x = Val false.
Proof.
  induction l as [|x l IH]; cbn; [by intros [= <-]|]. destruct (f x) as [[]| |] eqn:Ex; cbn [and_then mbind exec_bind]; [| |done..].
  - intros H%IH. destruct b; [by constructor|]. destruct H as (x' & ? & ?). exists x'. split; [by apply list_elem_of_further|done].
  - intros [= <-]. exists x. split; [apply list_elem_of_here|done].
Qed.

Lemma empty_edge_no_solution σ g e :
  graph_ok g → e ∈ g_edges g → left_to_right e = ∅ ∨ right_to_left e = ∅ → ¬ solution σ g.
Proof.
  intros Hg He Hempty Hs. inversion Hs as [c vs es ns Hv Hea Hna]; subst. inversion Hg as [? ? ? ? Hes _]; subst.
  cbn in He. rewrite Forall_forall in Hea, Hes. specialize (Hea e He). destruct (Hes e He) as ([Hsame _ _] & _).
  destruct Hempty as [Hl|Hr].
  - destruct Hea as (s & Hs' & _). rewrite Hl in Hs'. by apply lookup_empty_Some in Hs'.
  - apply Hsame in Hea as (s & Hs' & _). rewrite Hr in Hs'. by apply lookup_empty_Some in Hs'.
Qed.
Lemma empty_vertex_no_solution σ g : any_vertex_empty (g_vertices g) = true → ¬ solution σ g.
Proof.
  intros He Hs. apply solution_vertices in Hs. apply existsb_exists in He as ([v ts] & Hin & Hts).
  apply list_elem_of_In, elem_of_map_to_list in Hin. apply bool_decide_eq_true in Hts. cbn in Hts. subst ts.
  specialize (Hs v ∅ Hin). by apply elem_of_empty in Hs.
Qed.

Lemma pre_check_spec g h e :
  graph_ok g → pre_check_edges_for_trivial_unsatisfiability g = Some (h, e) →
  subgraph h g ∧ e ∈ g_edges h ∧ ∀ σ, ¬ solution σ h.
Proof.
  induction g as [c vs es ns IH] using graph_induction. intros Hg. cbn [pre_check_edges_for_trivial_unsatisfiability].
  destruct (List.find trivially_unsatisfiable es) as [e0|] eqn:Ef.
  - intros [= <- <-]. apply find_some in Ef as [Hin Ht]. apply list_elem_of_In in Hin.
    unfold trivially_unsatisfiable in Ht. apply andb_prop in Ht as [_ Ht]. apply orb_true_iff in Ht.
    rewrite !bool_decide_eq_true in Ht. split_and!; [constructor|done|]. intros σ. by eapply empty_edge_no_solution.
  - intros ([gs sv sva] & Hn & Hx)%first_some_map. cbn [nested_pre_check] in Hx. apply first_some_map in Hx as (b & Hb & Hbe).
    inversion Hg as [? ? ? ? _ Hns]; subst. rewrite Forall_forall in IH, Hns. specialize (IH _ Hn). specialize (Hns _ Hn).
    cbn [disjunction] in IH, Hns. rewrite Forall_forall in IH, Hns.
    destruct (IH b Hb (Hns b Hb) Hbe) as (Hsub & ? & ?). split_and!; [|done|done]. by eapply subgraph_branch.
Qed.
Lemma check_spec {E} r g b :
  check_thing_constraints_satisfiable (E:=E) r g = Val b →
  if b then ∀ h, subgraph h g → thing_variable_present (E:=E) r (g_vertices h) = Val true → any_vertex_empty (g_vertices h) = false
  else ∃ h, subgraph h g ∧ any_vertex_empty (g_vertices h) = true.
Proof.
  induction g as [c vs es ns IH] using graph_induction. cbn [check_thing_constraints_satisfiable].
  destruct (thing_variable_present r vs) as [present| |] eqn:Ep; cbn [mbind exec_bind]; [|done..].
  destruct (any_vertex_empty vs && present) eqn:Eb.
  { intros [= <-]. apply andb_prop in Eb as [? _]. eexists. split; [apply subgraph_here|done]. }
  intros H%and_then_map. rewrite Forall_forall in IH. destruct b.
  - rewrite Forall_forall in H. intros h Hsub. inversion Hsub as [|? ? ? ? n x Hn Hx Hsx]; subst.
    + cbn [g_vertices]. rewrite Ep. intros [= ->]. by rewrite andb_true_r in Eb.
    + specialize (H n Hn). specialize (IH n Hn). destruct n as [gs sv sva]. cbn [nested_check disjunction] in *.
      apply and_then_map in H. rewrite Forall_forall in H, IH. by apply (IH x Hx (H x Hx)).
  - destruct H as ([gs sv sva] & Hn & H). cbn [nested_check] in H. apply and_then_map in H as (x & Hx & Hf).
    specialize (IH _ Hn). cbn [disjunction] in IH. rewrite Forall_forall in IH.
    destruct (IH x Hx Hf) as (h & Hsub & ?). exists h. split; [|done]. by eapply subgraph_branch.
Qed.

(** A query is reported unsatisfiable only for a reason.  An edge the check
    before pruning reports belongs to the graph or to a branch of it that no
    assignment of types satisfies; when the check after pruning fails, the
    graph or a branch of it has a vertex without types, so that no assignment
    satisfies it, and it accepts no graph with a thing variable and a vertex
    without types. *)
Lemma unsatisfiable_reports_are_sound r g :
  graph_ok g →
  (∀ h e, pre_check_edges_for_trivial_unsatisfiability g = Some (h, e) →
     subgraph h g ∧ e ∈ g_edges h ∧ ∀ σ, ¬ solution σ h) ∧
  (check_thing_constraints_satisfiable (E:=Empty_set) r g = Val false → ∃ h, subgraph h g ∧ ∀ σ, ¬ solution σ h) ∧
  (check_thing_constraints_satisfiable (E:=Empty_set) r g = Val true →
     ∀ h v ts, subgraph h g → thing_variable_present (E:=Empty_set) r (g_vertices h) = Val true →
       g_vertices h !! v = Some ts → ts ≠ ∅).
Proof.
  intros Hg. split_and!.
  - intros h e. by apply pre_check_spec.
  - intros (h & Hsub & He)%check_spec. exists h. split; [done|]. intros σ. by apply empty_vertex_no_solution.
  - intros Hc h v ts Hsub Hp Hts ->. pose proof (check_spec _ _ _ Hc h Hsub Hp) as He.
    apply not_true_iff_false in He. apply He, existsb_exists. exists (v, ∅).
    split; [by apply list_elem_of_In, elem_of_map_to_list|]. by apply bool_decide_eq_true.
Qed.

(** ** An example

    [$x has $n] where [$x] is a person or a company and [$n] a name or a
    number, only persons own names, and one branch of a disjunction asks for a
    person. *)
Definition vx : Vertex := VVariable {| var_id := 0; var_anonymous := false |}.
Definition vn : Vertex := VVariable {| var_id := 1; var_anonymous := false |}.
Definition person : TypeAnnotation := TEntity 0.
Definition company : TypeAnnotation := TEntity 1.
Definition name : TypeAnnotation := TAttribute 0.
Definition number : TypeAnnotation := TAttribute 1.
Definition example_edge : TypeInferenceEdge :=
  edge_build (Has vx vn) vx vn {[person := {[name]}]} {[name := {[person]}]}.
Definition example_branch_graph : TypeInferenceGraph := MkGraph (MkConjunction 3 [] []) {[vx := {[person]}]} [] [].
Definition example_graph : TypeInferenceGraph :=
  MkGraph (MkConjunction ROOT [Has vx vn] []) {[vx := {[person; company]}; vn := {[name; number]}]} [example_edge]
    [MkNested [example_branch_graph] {[ {| var_id := 0; var_anonymous := false |} ]} ∅].

Lemma pair_singleton a b a' b' : pair {[a := {[b]}]} a' b' ↔ a' = a ∧ b' = b.
Proof.
  unfold pair. setoid_rewrite lookup_singleton_Some. split.
  - intros (s & [<- <-] & Hb). by apply elem_of_singleton in Hb.
  - intros [-> ->]. exists {[b]}. split; [done|by apply elem_of_singleton].
Qed.
Lemma example_edge_consistent : consistent example_edge.
Proof.
  split; unfold example_edge, edge_build; cbn [left_to_right right_to_left].
  - intros a b. rewrite !pair_singleton. tauto.
  - intros a s [_ <-]%lookup_singleton_Some He. apply (f_equal size) in He. by vm_compute in He.
  - intros a s [_ <-]%lookup_singleton_Some He. apply (f_equal size) in He. by vm_compute in He.
Qed.
Lemma example_graph_ok : graph_ok example_graph.
Proof.
  constructor; constructor.
  - split_and!; [apply example_edge_consistent|vm_compute; eexists; reflexivity..].
  - done.
  - constructor; [constructor; constructor|done].
  - done.
Qed.

Lemma type_inference_prunes_witness :
  ∃ g', prune_types (E:=Empty_set) (S (type_count example_graph)) example_graph = Some (Val g') ∧
    g_vertices g' = {[vx := {[person]}; vn := {[name]}]} ∧
    ∀ σ, solution σ example_graph ↔ solution σ g'.
Proof.
  destruct (type_inference_prunes example_graph example_graph_ok) as (g' & E & _ & Hsol & _).
  exists g'. split; [exact E|]. split; [|exact Hsol].
  assert (match prune_types (E:=Empty_set) (S (type_count example_graph)) example_graph with
          | Some (Val g) => Some (g_vertices g) | _ => None end = Some {[vx := {[person]}; vn := {[name]}]}) as C by (vm_compute; reflexivity).
  rewrite E in C. exact (Some_inj _ _ C).
Defined.

Lemma unsatisfiable_reports_are_sound_witness :
  ∃ h, subgraph h (MkGraph (MkConjunction ROOT [] []) {[vx := ∅]} [] []) ∧ ∀ σ, ¬ solution σ h.
Proof.
  assert (graph_ok (MkGraph (MkConjunction ROOT [] []) {[vx := ∅]} [] [])) as Hg by (constructor; constructor).
  apply (proj1 (proj2 (unsatisfiable_reports_are_sound
    (with_categories {[ {| var_id := 0; var_anonymous := false |} := (CThing, SourceArgument) ]} registry_new) _ Hg))).
  by vm_compute.
Defined.
