(* ===== verification/TypeSeeder.v ===== *)
(** * Type inference: seeding the type graph

    [compiler/annotation/type_seeder.rs]: how the graph that [TypeInference]
    prunes is built from a conjunction and the schema.  The schema is read
    through the type manager, an interface of lookups ([TypeManager]) with the
    laws the seeder relies on ([TypeManagerLaws]). *)
From S2P Require Import Prelude Layout Pattern Block TypeInference.
From stdpp Require Import countable gmap relations.
#[local] Open Scope Z_scope.

(** ** The schema, as the seeder reads it *)
Inductive ObjectType := OEntity (id : Z) | ORelation (id : Z).
#[global] Instance ObjectType_eq_dec : EqDecision ObjectType.
Proof. solve_decision. Defined.
Definition object_annotation (o : ObjectType) : TypeAnnotation :=
  match o with OEntity i => TEntity i | ORelation i => TRelation i end.
Definition annotation_of (k : Kind) (id : Z) : TypeAnnotation :=
  match k with KEntity => TEntity id | KAttribute => TAttribute id | KRelation => TRelation id | KRole => TRoleType id end.

(** Sets and maps the lookups return are listed; of an ownership, a played
    role or a related role, the seeder reads the other end. *)
Class TypeManager (CRE : Type) := {
  get_owns : ObjectType → exec CRE (list Z);
  get_owner_types : Z → exec CRE (list ObjectType);
  get_plays : ObjectType → exec CRE (list Z);
  get_player_types : Z → exec CRE (list ObjectType);
  get_relates : Z → exec CRE (list Z);
  get_relation_types_of_role : Z → exec CRE (list Z);
  is_related_role_type_abstract : Z → Z → exec CRE bool;
  get_supertype : Kind → Z → exec CRE (option Z);
  get_supertypes_transitive : Kind → Z → exec CRE (list Z);
  get_subtypes : Kind → Z → exec CRE (list Z);
  get_subtypes_transitive : Kind → Z → exec CRE (list Z);
  get_types : Kind → exec CRE (list Z);
  get_value_type_without_source : Z → exec CRE (option ValueType);
  get_labelled_type : Kind → string → exec CRE (option Z);
  get_roles_by_name : string → exec CRE (option (list Z));
  get_struct_definition_key : string → exec CRE (option bytes);
  is_abstract : TypeAnnotation → exec CRE bool;
}.

Inductive FunctionParameterAnnotation := ParamConcept (types : annotations) | ParamValueType (value_type : ValueType).
Record AnnotatedFunctionSignature := {
  sig_is_stream : bool;
  sig_arguments : list FunctionParameterAnnotation;
  sig_returns : list FunctionParameterAnnotation;
}.
(** The errors raised by the modelled operations, without source spans. *)
Inductive TypeInferenceError (CRE : Type) :=
| ConceptRead (source : CRE)
| LabelNotResolved (name : string)
| RoleNameNotResolved (name : string)
| ValueTypeNotFound (name : string)
| DetectedUnsatisfiableEdge (left right : Vertex) (left_types right_types : annotations) (constraint : Constraint)
| DetectedUnsatisfiablePattern.
Arguments ConceptRead {CRE} source.
Arguments LabelNotResolved {CRE} name.
Arguments RoleNameNotResolved {CRE} name.
Arguments ValueTypeNotFound {CRE} name.
Arguments DetectedUnsatisfiableEdge {CRE} left right left_types right_types constraint.
Arguments DetectedUnsatisfiablePattern {CRE}.

(** What the seeder relies on: the lookups return, the two directions of each
    capability list the same pairs, and subtypes mirror supertypes. *)
Class TypeManagerLaws (CRE : Type) `{TypeManager CRE} : Prop := {
  owns_returns o : returns (get_owns o);
  owner_types_returns a : returns (get_owner_types a);
  owns_owner_types o a l l' : get_owns o = Val l → get_owner_types a = Val l' → a ∈ l ↔ o ∈ l';
  plays_returns o : returns (get_plays o);
  player_types_returns r : returns (get_player_types r);
  plays_player_types o r l l' : get_plays o = Val l → get_player_types r = Val l' → r ∈ l ↔ o ∈ l';
  relates_returns r : returns (get_relates r);
  relation_types_returns r : returns (get_relation_types_of_role r);
  relates_relation_types o r l l' : get_relates o = Val l → get_relation_types_of_role r = Val l' → r ∈ l ↔ o ∈ l';
  related_abstract_returns o r : returns (is_related_role_type_abstract o r);
  supertype_returns k i : returns (get_supertype k i);
  subtypes_returns k i : returns (get_subtypes k i);
  supertype_subtypes k i j o l : get_supertype k i = Val o → get_subtypes k j = Val l → o = Some j ↔ i ∈ l;
  supertypes_returns k i : returns (get_supertypes_transitive k i);
  subtypes_transitive_returns k i : returns (get_subtypes_transitive k i);
  supertypes_subtypes k i j l l' :
    get_supertypes_transitive k i = Val l → get_subtypes_transitive k j = Val l' → j ∈ l ↔ i ∈ l';
  value_type_returns a : returns (get_value_type_without_source a);
}.

Section folds.
Context {E A S : Type} (f : S → A → exec E S).
(** A loop over a collection that updates a state and may fail. *)
Fixpoint fold_exec (l : list A) (s : S) : exec E S :=
  match l with [] => Val s | x :: l => s ← f s x; fold_exec l s end.
End folds.

Section seeder.
Context {CRE : Type} `{TM : TypeManager CRE}.
Context (function_annotations : FunctionID → option AnnotatedFunctionSignature)
  (registry : VariableRegistry) (is_write_stage : bool).
Abbreviation read := (exec CRE).
Abbreviation infer := (exec (TypeInferenceError CRE)).

Definition get_type_annotation_from_label (l : string) : read (option TypeAnnotation) :=
  a ← get_labelled_type KAttribute l;
  match a with
  | Some i => Val (Some (TAttribute i))
  | None =>
      e ← get_labelled_type KEntity l;
      match e with
      | Some i => Val (Some (TEntity i))
      | None =>
          r ← get_labelled_type KRelation l;
          match r with
          | Some i => Val (Some (TRelation i))
          | None => o ← get_labelled_type KRole l; Val (option_map TRoleType o)
          end
      end
  end.
Definition kind_of (t : TypeAnnotation) : Kind * Z :=
  match t with TEntity i => (KEntity, i) | TRelation i => (KRelation, i) | TAttribute i => (KAttribute, i) | TRoleType i => (KRole, i) end.
Definition get_type_annotation_and_subtypes_from_label (l : string) : infer annotations :=
  o ← map_err ConceptRead (get_type_annotation_from_label l);
  match o with
  | None => Err (LabelNotResolved l)
  | Some t =>
      let '(k, i) := kind_of t in
      subs ← map_err ConceptRead (get_subtypes_transitive k i);
      Val ({[t]} ∪ list_to_set (annotation_of k <$> subs))
  end.

(** ** Constraints with two ends *)
Inductive BinaryConstraint :=
| BHas (owner attribute : Vertex)
| BOwns (owner attribute : Vertex)
| BIsa (kind : IsaKind) (thing type_ : Vertex)
| BSub (kind : SubKind) (subtype supertype : Vertex)
| BIs (lhs rhs : Vertex)
| BComparison (lhs rhs : Vertex)
| BPlayerRole (links : Links)
| BPlays (player role_type : Vertex)
| BRelationRole (links : Links)
| BRelates (relation role_type : Vertex).
Definition left (b : BinaryConstraint) : Vertex :=
  match b with
  | BHas o _ | BOwns o _ => o | BIsa _ t _ => t | BSub _ s _ => s | BIs l _ | BComparison l _ => l
  | BPlayerRole l => links_player l | BPlays p _ => p | BRelationRole l => links_relation l | BRelates r _ => r
  end.
Definition right (b : BinaryConstraint) : Vertex :=
  match b with
  | BHas _ a | BOwns _ a => a | BIsa _ _ t => t | BSub _ _ s => s | BIs _ r | BComparison _ r => r
  | BPlayerRole l => links_role_type l | BPlays _ r => r | BRelationRole l => links_role_type l | BRelates _ r => r
  end.

Definition extend (collector : annotations) (l : list TypeAnnotation) : annotations := collector ∪ list_to_set l.
(** [Entity] and [Relation] types as [ObjectType]s. *)
Definition as_object (t : TypeAnnotation) : option ObjectType :=
  match t with TEntity i => Some (OEntity i) | TRelation i => Some (ORelation i) | _ => None end.

Definition owned_types (t : TypeAnnotation) (collector : annotations) : read annotations :=
  match as_object t with
  | Some o => l ← get_owns o; Val (extend collector (TAttribute <$> l))
  | None => Val collector
  end.
Definition owner_types (t : TypeAnnotation) (collector : annotations) : read annotations :=
  match t with
  | TAttribute i => l ← get_owner_types i; Val (extend collector (object_annotation <$> l))
  | _ => Val collector
  end.
Definition played_types (t : TypeAnnotation) (collector : annotations) : read annotations :=
  match as_object t with
  | Some o => l ← get_plays o; Val (extend collector (TRoleType <$> l))
  | None => Val collector
  end.
Definition player_types (t : TypeAnnotation) (collector : annotations) : read annotations :=
  match t with
  | TRoleType i => l ← get_player_types i; Val (extend collector (object_annotation <$> l))
  | _ => Val collector
  end.
(** The pairs of a relation type and a role type a [links] may use. *)
Definition links_allowed (relation role : Z) : read bool :=
  if is_write_stage then a ← is_related_role_type_abstract relation role; Val (negb a) else Val true.
Definition related_types (t : TypeAnnotation) (collector : annotations) : read annotations :=
  match t with
  | TRelation i =>
      l ← get_relates i;
      fold_exec (λ c r, ok ← links_allowed i r; Val (if (ok : bool) then {[TRoleType r]} ∪ c else c)) l collector
  | _ => Val collector
  end.
Definition relating_types (t : TypeAnnotation) (collector : annotations) : read annotations :=
  match t with
  | TRoleType i =>
      l ← get_relation_types_of_role i;
      fold_exec (λ c r, ok ← links_allowed r i; Val (if (ok : bool) then {[TRelation r]} ∪ c else c)) l collector
  | _ => Val collector
  end.

Definition isa_supertypes (kind : IsaKind) (t : TypeAnnotation) (collector : annotations) : read annotations :=
  c ← (if negb is_write_stage && bool_decide (kind = IsaSubtype) then
         match t with
         | TRoleType _ => Val collector
         | t => l ← get_supertypes_transitive (kind_of t).1 (kind_of t).2; Val (extend collector (annotation_of (kind_of t).1 <$> l))
         end
       else Val collector);
  Val ({[t]} ∪ c).
Definition isa_subtypes (kind : IsaKind) (t : TypeAnnotation) (collector : annotations) : read annotations :=
  c ← (if negb is_write_stage && bool_decide (kind = IsaSubtype) then
         match t with
         | TRoleType _ => Val collector
         | t => l ← get_subtypes_transitive (kind_of t).1 (kind_of t).2; Val (extend collector (annotation_of (kind_of t).1 <$> l))
         end
       else Val collector);
  Val ({[t]} ∪ c).
Definition sub_supertypes (kind : SubKind) (t : TypeAnnotation) (collector : annotations) : read annotations :=
  match kind with
  | SubSubtype =>
      l ← get_supertypes_transitive (kind_of t).1 (kind_of t).2;
      Val ({[t]} ∪ extend collector (annotation_of (kind_of t).1 <$> l))
  | SubExact =>
      s ← get_supertype (kind_of t).1 (kind_of t).2;
      Val (match s with Some s => {[annotation_of (kind_of t).1 s]} ∪ collector | None => collector end)
  end.
Definition sub_subtypes (kind : SubKind) (t : TypeAnnotation) (collector : annotations) : read annotations :=
  match kind with
  | SubSubtype =>
      l ← get_subtypes_transitive (kind_of t).1 (kind_of t).2;
      Val ({[t]} ∪ extend collector (annotation_of (kind_of t).1 <$> l))
  | SubExact =>
      l ← get_subtypes (kind_of t).1 (kind_of t).2;
      Val (extend collector (annotation_of (kind_of t).1 <$> l))
  end.
Definition relates_roles (t : TypeAnnotation) (collector : annotations) : read annotations :=
  match t with
  | TRelation i => l ← get_relates i; Val (extend collector (TRoleType <$> l))
  | _ => Val collector
  end.
Definition relates_relations (t : TypeAnnotation) (collector : annotations) : read annotations :=
  match t with
  | TRoleType i => l ← get_relation_types_of_role i; Val (extend collector (TRelation <$> l))
  | _ => Val collector
  end.

Definition annotate_left_to_right_for_type (b : BinaryConstraint) (t : TypeAnnotation) (collector : annotations) : read annotations :=
  match b with
  | BHas _ _ | BOwns _ _ => owned_types t collector
  | BIsa kind _ _ => isa_supertypes kind t collector
  | BSub kind _ _ => sub_supertypes kind t collector
  | BIs _ _ => Val ({[t]} ∪ collector)
  | BComparison _ _ => Panic
  | BPlayerRole _ | BPlays _ _ => played_types t collector
  | BRelationRole _ => related_types t collector
  | BRelates _ _ => relates_roles t collector
  end.
Definition annotate_right_to_left_for_type (b : BinaryConstraint) (t : TypeAnnotation) (collector : annotations) : read annotations :=
  match b with
  | BHas _ _ | BOwns _ _ => owner_types t collector
  | BIsa kind _ _ => isa_subtypes kind t collector
  | BSub kind _ _ => sub_subtypes kind t collector
  | BIs _ _ => Val ({[t]} ∪ collector)
  | BComparison _ _ => Panic
  | BPlayerRole _ | BPlays _ _ => player_types t collector
  | BRelationRole _ => relating_types t collector
  | BRelates _ _ => relates_relations t collector
  end.

(** The default [annotate_left_to_right] and [annotate_right_to_left]: for each
    type the partners among the allowed ones, if any. *)
Definition annotate_with (partners : TypeAnnotation → annotations → read annotations) (types allowed : annotations) : read type_map :=
  fold_exec (λ m t,
    found ← partners t ∅;
    let found := retain (λ u, bool_decide (u ∈ allowed)) found in
    Val (if bool_decide (found = ∅) then m else <[t := found]> m)) (elements types) ∅.

(** [Type::as_attribute_type] panics on the other kinds. *)
Definition as_attribute_type (t : TypeAnnotation) : read Z := match t with TAttribute i => Val i | _ => Panic end.
Definition comparable_categories (c : ValueTypeCategory) : list ValueTypeCategory :=
  match c with
  | CatInteger | CatDouble | CatDecimal => [CatInteger; CatDouble; CatDecimal]
  | c => [c]
  end.
Definition comparable_step (categories : list ValueTypeCategory) (found : annotations) (u : TypeAnnotation) : read annotations :=
  a ← as_attribute_type u;
  v ← get_value_type_without_source a;
  Val (match v with
       | Some v => if bool_decide (VType.category v ∈ categories) then {[TAttribute a]} ∪ found else found
       | None => found
       end).
(** The comparison's own [annotate_left_to_right] and [annotate_right_to_left]. *)
Definition annotate_comparison (types allowed : annotations) : read type_map :=
  fold_exec (λ m t,
    v ← (match t with TAttribute i => get_value_type_without_source i | _ => Val None end);
    found ← (match v with
             | Some v => fold_exec (comparable_step (comparable_categories (VType.category v))) (elements allowed) ∅
             | None => Val ∅
             end);
    Val (if bool_decide (found = ∅) then m else <[t := found]> m)) (elements types) ∅.
Definition annotate_left_to_right (b : BinaryConstraint) (left_types allowed_right_types : annotations) : read type_map :=
  match b with
  | BComparison _ _ => annotate_comparison left_types allowed_right_types
  | b => annotate_with (annotate_left_to_right_for_type b) left_types allowed_right_types
  end.
Definition annotate_right_to_left (b : BinaryConstraint) (right_types allowed_left_types : annotations) : read type_map :=
  match b with
  | BComparison _ _ => annotate_comparison right_types allowed_left_types
  | b => annotate_with (annotate_right_to_left_for_type b) right_types allowed_left_types
  end.

Definition seed_edge (c : Constraint) (b : BinaryConstraint) (vs : VertexAnnotations) : read TypeInferenceEdge :=
  ls ← unwrap (vs !! left b);
  rs ← unwrap (vs !! right b);
  l2r ← annotate_left_to_right b ls rs;
  r2l ← annotate_right_to_left b rs ls;
  Val (edge_build c (left b) (right b) l2r r2l).
End seeder.

Lemma fold_exec_ext {E A S} (f g : S → A → exec E S) l s : (∀ s x, f s x = g s x) → fold_exec f l s = fold_exec g l s.
Proof.
  intros Hfg. revert s. induction l as [|x l IH]; intros s; [done|]. cbn [fold_exec]. rewrite Hfg.
  destruct (g s x); [apply IH|done..].
Qed.

(** ** The edges that seeding builds *)
Section edges.
Context {CRE : Type} `{TM : TypeManager CRE} (is_write_stage : bool).
Implicit Types (types allowed : annotations).

(** A loop that keeps, for each type, the partners it finds, if any. *)
Definition found_map (F : TypeAnnotation → exec CRE annotations) (l : list TypeAnnotation) (m : type_map) : exec CRE type_map :=
  fold_exec (λ m t, found ← F t; Val (if bool_decide (found = ∅) then m else <[t := found]> m)) l m.
Lemma found_map_list F l m :
  NoDup l → (∀ t, t ∈ l → m !! t = None) → nonempty m → (∀ t, t ∈ l → returns (F t)) →
  ∃ m', found_map F l m = Val m' ∧ nonempty m' ∧
    ∀ t u, pair m' t u ↔ pair m t u ∨ (t ∈ l ∧ ∃ s, F t = Val s ∧ u ∈ s).
Proof.
  revert m. induction l as [|t l IH]; intros m Hnd Hm Hn HF.
  { exists m. split_and!; [done|done|]. intros x u. split; [by left|]. intros [?|[Hx _]]; [done|by apply not_elem_of_nil in Hx]. }
  apply NoDup_cons in Hnd as [Htl Hnd]. destruct (HF t (list_elem_of_here _ _)) as [s Es].
  unfold found_map. cbn [fold_exec]. rewrite Es. cbn [mbind exec_bind].
  fold (found_map F l (if bool_decide (s = ∅) then m else <[t := s]> m)). case_bool_decide as Hs.
  - destruct (IH m Hnd) as (m' & -> & Hn' & Hm').
    { intros x Hx. by apply Hm, list_elem_of_further. } { done. } { intros x Hx. by apply HF, list_elem_of_further. }
    exists m'. split_and!; [done|done|]. intros x u. rewrite Hm'. setoid_rewrite elem_of_cons. split; [naive_solver|].
    intros [?|([->|?] & s' & Es' & Hu)]; [by left| |by right; eauto]. rewrite Es in Es'. injection Es' as <-. subst s.
    by apply elem_of_empty in Hu.
  - destruct (IH (<[t := s]> m) Hnd) as (m' & -> & Hn' & Hm').
    { intros x Hx. rewrite lookup_insert_ne; [by apply Hm, list_elem_of_further|]. by intros ->. }
    { intros x s'. rewrite lookup_insert_Some. intros [[<- <-]|[_ ?]]; [done|by eapply Hn]. }
    { intros x Hx. by apply HF, list_elem_of_further. }
    exists m'. split_and!; [done|done|]. intros x u. rewrite Hm'. unfold pair at 1. setoid_rewrite lookup_insert_Some.
    setoid_rewrite elem_of_cons. split.
    + intros [(s' & [[<- <-]|[Hne Hs']] & Hu)|(Hx & s' & Es' & Hu)].
      * right. split; [by left|]. eauto.
      * left. by exists s'.
      * right. split; [by right|]. eauto.
    + intros [(s' & Hs' & Hu)|([->|Hx] & s' & Es' & Hu)].
      * left. exists s'. split; [|done]. right. split; [|done]. intros <-.
        rewrite (Hm t (list_elem_of_here _ _)) in Hs'. done.
      * left. rewrite Es in Es'. injection Es' as <-. exists s. auto.
      * right. eauto.
Qed.
Lemma found_map_spec F types :
  (∀ t, t ∈ types → returns (F t)) →
  ∃ m, found_map F (elements types) ∅ = Val m ∧ nonempty m ∧
    ∀ t u, pair m t u ↔ t ∈ types ∧ ∃ s, F t = Val s ∧ u ∈ s.
Proof.
  intros HF. destruct (found_map_list F (elements types) ∅) as (m & E & Hn & Hm).
  - apply NoDup_elements.
  - intros t _. apply lookup_empty.
  - intros a s Hs. by apply lookup_empty_Some in Hs.
  - intros t Ht. by apply HF, elem_of_elements.
  - exists m. split_and!; [done|done|]. intros t u. rewrite Hm, elem_of_elements. split; [|by right].
    intros [(s & Hs & _)|?]; [by apply lookup_empty_Some in Hs|done].
Qed.

Lemma annotate_with_found (partners : TypeAnnotation → annotations → exec CRE annotations) types allowed :
  annotate_with partners types allowed =
  found_map (λ t, found ← partners t ∅; Val (retain (λ u, bool_decide (u ∈ allowed)) found)) (elements types) ∅.
Proof.
  apply fold_exec_ext. intros m t. by destruct (partners t ∅).
Qed.
Lemma annotate_with_spec (partners : TypeAnnotation → annotations → exec CRE annotations) types allowed :
  (∀ t, t ∈ types → returns (partners t ∅)) →
  ∃ m, annotate_with partners types allowed = Val m ∧ nonempty m ∧
    ∀ t u, pair m t u ↔ t ∈ types ∧ u ∈ allowed ∧ ∃ s, partners t ∅ = Val s ∧ u ∈ s.
Proof.
  intros Hp. rewrite annotate_with_found. destruct (found_map_spec
    (λ t, found ← partners t ∅; Val (retain (λ u, bool_decide (u ∈ allowed)) found)) types) as (m & -> & Hn & Hm).
  { intros t Ht. destruct (Hp t Ht) as [s ->]. eexists. reflexivity. }
  exists m. split_and!; [done|done|]. intros t u. rewrite Hm. split.
  - intros (Ht & s & Es & Hu). destruct (Hp t Ht) as [s' Es']. rewrite Es' in Es. cbn [mbind exec_bind] in Es.
    injection Es as <-. apply retain_spec in Hu as [Hu Hau%bool_decide_eq_true]. eauto.
  - intros (Ht & Hau & s & Es & Hu). split; [done|]. eexists. rewrite Es. split; [reflexivity|].
    apply retain_spec. by rewrite bool_decide_eq_true.
Qed.

(** Comparisons. *)
Definition value_category (t : TypeAnnotation) (c : ValueTypeCategory) : Prop :=
  ∃ i v, t = TAttribute i ∧ get_value_type_without_source i = Val (Some v) ∧ VType.category v = c.
Definition all_attributes (s : annotations) : Prop := ∀ t, t ∈ s → ∃ i, t = TAttribute i.
Definition comparable (c d : ValueTypeCategory) : Prop := d ∈ comparable_categories c.
Lemma comparable_sym c d : comparable c d ↔ comparable d c.
Proof. unfold comparable. destruct c, d; cbn; set_solver. Qed.

Context `{!TypeManagerLaws CRE}.
Lemma comparable_fold categories l (found : annotations) :
  (∀ t, t ∈ l → ∃ i, t = TAttribute i) →
  ∃ s, fold_exec (comparable_step categories) l found = Val s ∧
    ∀ u, u ∈ s ↔ u ∈ found ∨ (u ∈ l ∧ ∃ d, value_category u d ∧ d ∈ categories).
Proof.
  revert found. induction l as [|t l IH]; intros found Hl.
  { exists found. split; [done|]. intros u. split; [by left|]. intros [?|[Hu _]]; [done|by apply not_elem_of_nil in Hu]. }
  destruct (Hl t (list_elem_of_here _ _)) as [i ->]. destruct (value_type_returns i) as [v Ev].
  cbn [fold_exec]. set (found' := match v with
    | Some v => if bool_decide (VType.category v ∈ categories) then {[TAttribute i]} ∪ found else found | None => found end).
  assert (comparable_step categories found (TAttribute i) = Val found') as ->.
  { unfold comparable_step. cbn [as_attribute_type mbind exec_bind]. by rewrite Ev. }
  cbn [mbind exec_bind].
  destruct (IH found') as (s & -> & Hs). { intros t Ht. by apply Hl, list_elem_of_further. }
  exists s. split; [done|]. intros u. rewrite Hs, elem_of_cons.
  assert (u ∈ found' ↔ u ∈ found ∨ (u = TAttribute i ∧ ∃ d, value_category u d ∧ d ∈ categories)) as ->; [|naive_solver].
  assert (∀ d, value_category (TAttribute i) d ↔ ∃ w, v = Some w ∧ VType.category w = d) as Hc.
  { intros d. unfold value_category. split.
    - intros (? & w & [= <-] & Ew & Hd). rewrite Ev in Ew. injection Ew as ->. eauto.
    - intros (w & -> & Hd). eauto. }
  subst found'. destruct v as [w|].
  - case_bool_decide as Hw.
    + rewrite elem_of_union, elem_of_singleton. split; [|naive_solver]. intros [->|?]; [right|by left].
      split; [done|]. eexists. split; [|exact Hw]. apply Hc. eauto.
    + split; [by left|]. intros [?|(-> & d & (w' & [= <-] & <-)%Hc & Hd)]; done.
  - split; [by left|]. intros [?|(-> & d & (w' & [=] & _)%Hc & Hd)]; done.
Qed.
(** The types two compared vertices may have together. *)
Definition compared (t u : TypeAnnotation) : Prop := ∃ c d, value_category t c ∧ value_category u d ∧ comparable c d.
Lemma compared_sym t u : compared t u ↔ compared u t.
Proof. unfold compared. setoid_rewrite comparable_sym at 1. naive_solver. Qed.
Lemma value_category_fun t c d : value_category t c → value_category t d → c = d.
Proof. intros (i & v & -> & Ev & <-) (? & w & [= <-] & Ew & <-). rewrite Ev in Ew. by injection Ew as ->. Qed.
Lemma annotate_comparison_spec types allowed :
  all_attributes allowed →
  ∃ m, annotate_comparison types allowed = Val m ∧ nonempty m ∧
    ∀ t u, pair m t u ↔ t ∈ types ∧ u ∈ allowed ∧ compared t u.
Proof.
  intros Hall. set (F := λ t : TypeAnnotation,
    v ← (match t with TAttribute i => get_value_type_without_source i | _ => Val None end);
    match v with
    | Some v => fold_exec (comparable_step (comparable_categories (VType.category v))) (elements allowed) ∅
    | None => Val ∅
    end).
  assert (annotate_comparison types allowed = found_map F (elements types) ∅) as ->.
  { apply fold_exec_ext. intros m t. unfold F.
    by destruct (match t with TAttribute i => get_value_type_without_source i | _ => Val None end). }
  assert (∀ t, ∃ s, F t = Val s ∧ ∀ u, u ∈ s ↔ u ∈ allowed ∧ compared t u) as HF.
  { intros t. unfold F. destruct t as [i|i|i|i].
    3: { destruct (value_type_returns i) as [[v|] Ev]; rewrite Ev; cbn [mbind exec_bind].
         - destruct (comparable_fold (comparable_categories (VType.category v)) (elements allowed) ∅) as (s & -> & Hs).
           { intros t Ht. by apply Hall, elem_of_elements. }
           exists s. split; [done|]. intros u. rewrite Hs, elem_of_elements. unfold compared. split.
           + intros [[]%elem_of_empty|(Hu & d & Hd & Hc)]. split; [done|]. exists (VType.category v), d.
             split_and!; [|done|done]. by exists i, v.
           + intros (Hu & c & d & Hc & Hd & Hcd). right. split; [done|]. exists d. split; [done|].
             rewrite (value_category_fun (TAttribute i) (VType.category v) c); [done| |done]. by exists i, v.
         - exists ∅. split; [done|]. intros u. split; [by intros []%elem_of_empty|].
           intros (_ & c & d & (? & w & [= <-] & Ew & _) & _). rewrite Ev in Ew. done. }
    all: cbn [mbind exec_bind]; exists ∅; split; [done|]; intros u; split; [by intros []%elem_of_empty|];
      intros (_ & c & d & (? & w & [=] & _) & _). }
  destruct (found_map_spec F types) as (m & -> & Hn & Hm). { intros t _. destruct (HF t) as (s & Es & _). by exists s. }
  exists m. split_and!; [done|done|]. intros t u. rewrite Hm. destruct (HF t) as (s & Es & Hs). split.
  - intros (Ht & s' & Es' & Hu). rewrite Es in Es'. injection Es' as <-. apply Hs in Hu. tauto.
  - intros (Ht & Hu). split; [done|]. exists s. split; [done|]. by apply Hs.
Qed.

(** ** The pairs of types the schema allows at a constraint *)
Definition owns_type (t u : TypeAnnotation) : Prop :=
  ∃ o a l, t = object_annotation o ∧ u = TAttribute a ∧ get_owns o = Val l ∧ a ∈ l.
Definition plays_type (t u : TypeAnnotation) : Prop :=
  ∃ o r l, t = object_annotation o ∧ u = TRoleType r ∧ get_plays o = Val l ∧ r ∈ l.
Definition relates_type (t u : TypeAnnotation) : Prop :=
  ∃ i r l, t = TRelation i ∧ u = TRoleType r ∧ get_relates i = Val l ∧ r ∈ l.
Definition links_type (t u : TypeAnnotation) : Prop :=
  ∃ i r l, t = TRelation i ∧ u = TRoleType r ∧ get_relates i = Val l ∧ r ∈ l ∧
    (is_write_stage = true → is_related_role_type_abstract i r = Val false).
Definition subtype_of (t u : TypeAnnotation) : Prop :=
  ∃ k i j l, t = annotation_of k i ∧ u = annotation_of k j ∧ get_supertypes_transitive k i = Val l ∧ j ∈ l.
Definition direct_subtype_of (t u : TypeAnnotation) : Prop :=
  ∃ k i j, t = annotation_of k i ∧ u = annotation_of k j ∧ get_supertype k i = Val (Some j).
Definition related (b : BinaryConstraint) (t u : TypeAnnotation) : Prop :=
  match b with
  | BHas _ _ | BOwns _ _ => owns_type t u
  | BPlayerRole _ | BPlays _ _ => plays_type t u
  | BRelates _ _ => relates_type t u
  | BRelationRole _ => links_type t u
  | BIs _ _ => t = u
  | BIsa k _ _ => t = u ∨ (is_write_stage = false ∧ k = IsaSubtype ∧ (kind_of t).1 ≠ KRole ∧ subtype_of t u)
  | BSub SubSubtype _ _ => t = u ∨ subtype_of t u
  | BSub SubExact _ _ => direct_subtype_of t u
  | BComparison _ _ => compared t u
  end.

(** A lookup that returns the partners of a type. *)
Definition finds (m : exec CRE annotations) (P : TypeAnnotation → Prop) : Prop := ∃ s, m = Val s ∧ ∀ u, u ∈ s ↔ P u.
Lemma finds_ext m (P Q : TypeAnnotation → Prop) : finds m P → (∀ u, P u ↔ Q u) → finds m Q.
Proof. intros (s & -> & Hs) HPQ. exists s. split; [done|]. intros u. by rewrite Hs. Qed.
Lemma finds_empty P : (∀ u, ¬ P u) → finds (Val ∅) P.
Proof. intros HP. exists ∅. split; [done|]. intros u. split; [by intros []%elem_of_empty|by intros []%HP]. Qed.
Lemma finds_extend {A} (f : A → TypeAnnotation) (m : exec CRE (list A)) :
  returns m → finds (l ← m; Val (extend ∅ (f <$> l))) (λ u, ∃ x l, u = f x ∧ m = Val l ∧ x ∈ l).
Proof.
  intros [l ->]. eexists. split; [reflexivity|]. intros u. unfold extend.
  rewrite elem_of_union, elem_of_list_to_set, list_elem_of_fmap. split.
  - intros [[]%elem_of_empty|(x & -> & Hx)]. eauto.
  - intros (x & l' & -> & [= <-] & Hx). eauto.
Qed.
Lemma annotation_of_inj k k' i i' : annotation_of k i = annotation_of k' i' → k = k' ∧ i = i'.
Proof. by destruct k, k'; intros [=]. Qed.
Lemma kind_of_annotation k i : kind_of (annotation_of k i) = (k, i).
Proof. by destruct k. Qed.
Lemma annotation_of_kind t : annotation_of (kind_of t).1 (kind_of t).2 = t.
Proof. by destruct t. Qed.
Lemma as_object_spec t o : as_object t = Some o ↔ t = object_annotation o.
Proof. destruct t, o; naive_solver. Qed.
Lemma object_annotation_inj o o' : object_annotation o = object_annotation o' → o = o'.
Proof. by destruct o, o'; intros [= ->]. Qed.

Lemma owned_finds t : finds (owned_types t ∅) (owns_type t).
Proof.
  unfold owned_types. destruct (as_object t) as [o|] eqn:Eo.
  - apply as_object_spec in Eo as ->. eapply finds_ext; [apply finds_extend, owns_returns|]. intros u. split.
    + intros (a & l & -> & El & Ha). by exists o, a, l.
    + intros (o' & a & l & Ho%object_annotation_inj & -> & El & Ha). subst o'. eauto.
  - apply finds_empty. intros u (o & a & l & Ht & _). apply as_object_spec in Ht. by rewrite Eo in Ht.
Qed.
Lemma owner_finds u : finds (owner_types u ∅) (λ t, owns_type t u).
Proof.
  unfold owner_types. destruct u as [i|i|i|i]; try (by apply finds_empty; intros t (o & a & l & _ & [=] & _)).
  eapply finds_ext; [apply finds_extend, owner_types_returns|]. intros t. split.
  - intros (o & l & -> & El & Ho). destruct (owns_returns o) as [l' El']. exists o, i, l'. split_and!; [done|done|done|].
    by eapply owns_owner_types.
  - intros (o & a & l & -> & [= <-] & El & Ha). destruct (owner_types_returns i) as [l' El']. exists o, l'.
    split_and!; [done|done|]. by eapply owns_owner_types.
Qed.
Lemma played_finds t : finds (played_types t ∅) (plays_type t).
Proof.
  unfold played_types. destruct (as_object t) as [o|] eqn:Eo.
  - apply as_object_spec in Eo as ->. eapply finds_ext; [apply finds_extend, plays_returns|]. intros u. split.
    + intros (a & l & -> & El & Ha). by exists o, a, l.
    + intros (o' & a & l & Ho%object_annotation_inj & -> & El & Ha). subst o'. eauto.
  - apply finds_empty. intros u (o & a & l & Ht & _). apply as_object_spec in Ht. by rewrite Eo in Ht.
Qed.
Lemma player_finds u : finds (player_types u ∅) (λ t, plays_type t u).
Proof.
  unfold player_types. destruct u as [i|i|i|i]; try (by apply finds_empty; intros t (o & a & l & _ & [=] & _)).
  eapply finds_ext; [apply finds_extend, player_types_returns|]. intros t. split.
  - intros (o & l & -> & El & Ho). destruct (plays_returns o) as [l' El']. exists o, i, l'. split_and!; [done|done|done|].
    by eapply plays_player_types.
  - intros (o & a & l & -> & [= <-] & El & Ha). destruct (player_types_returns i) as [l' El']. exists o, l'.
    split_and!; [done|done|]. by eapply plays_player_types.
Qed.

Lemma allowed_fold (ok : Z → exec CRE bool) (mk : Z → TypeAnnotation) l (c : annotations) :
  (∀ r, returns (ok r)) →
  ∃ s, fold_exec (λ c r, k ← ok r; Val (if (k : bool) then {[mk r]} ∪ c else c)) l c = Val s ∧
    ∀ u, u ∈ s ↔ u ∈ c ∨ ∃ r, r ∈ l ∧ u = mk r ∧ ok r = Val true.
Proof.
  intros Hok. revert c. induction l as [|r l IH]; intros c.
  { exists c. split; [done|]. intros u. split; [by left|]. intros [?|(r & Hr & _)]; [done|by apply not_elem_of_nil in Hr]. }
  cbn [fold_exec]. destruct (Hok r) as [k Ek]. rewrite Ek. cbn [mbind exec_bind].
  destruct (IH (if k then {[mk r]} ∪ c else c)) as (s & -> & Hs). exists s. split; [done|].
  intros u. rewrite Hs. assert ((∃ x, x ∈ r :: l ∧ u = mk x ∧ ok x = Val true) ↔
    (u = mk r ∧ k = true) ∨ ∃ x, x ∈ l ∧ u = mk x ∧ ok x = Val true) as ->.
  { setoid_rewrite elem_of_cons. split.
    - intros (x & [->|Hx] & Hu & Hk); [left|right; by exists x]. rewrite Ek in Hk. by injection Hk as ->.
    - intros [[-> ->]|(x & Hx & Hu & Hk)]; [by exists r; auto|by exists x; auto]. }
  destruct k.
  - rewrite elem_of_union, elem_of_singleton. tauto.
  - intuition done.
Qed.
Lemma links_allowed_returns i r : returns (links_allowed is_write_stage i r).
Proof.
  unfold links_allowed. destruct is_write_stage; [|by exists true].
  destruct (related_abstract_returns i r) as [a ->]. by exists (negb a).
Qed.
Lemma links_allowed_true i r :
  links_allowed is_write_stage i r = Val true ↔ (is_write_stage = true → is_related_role_type_abstract i r = Val false).
Proof.
  unfold links_allowed. destruct is_write_stage; [|naive_solver].
  destruct (related_abstract_returns i r) as [[] ->]; cbn; naive_solver.
Qed.
Lemma related_finds t : finds (related_types is_write_stage t ∅) (links_type t).
Proof.
  unfold related_types. destruct t as [i|i|i|i]; try (by apply finds_empty; intros u (? & ? & ? & [=] & _)).
  destruct (relates_returns i) as [l El]. rewrite El. cbn [mbind exec_bind].
  destruct (allowed_fold (links_allowed is_write_stage i) TRoleType l ∅) as (s & -> & Hs); [apply links_allowed_returns|].
  exists s. split; [done|]. intros u. rewrite Hs. split.
  - intros [[]%elem_of_empty|(r & Hr & -> & Hok)]. exists i, r, l. by rewrite <-links_allowed_true.
  - intros (? & r & l' & [= <-] & -> & El' & Hr & Hok). right. exists r. rewrite El in El'. injection El' as <-.
    by rewrite links_allowed_true.
Qed.
Lemma relating_finds u : finds (relating_types is_write_stage u ∅) (λ t, links_type t u).
Proof.
  unfold relating_types. destruct u as [i|i|i|i]; try (by apply finds_empty; intros t (? & ? & ? & _ & [=] & _)).
  destruct (relation_types_returns i) as [l El]. rewrite El. cbn [mbind exec_bind].
  destruct (allowed_fold (λ r, links_allowed is_write_stage r i) TRelation l ∅) as (s & -> & Hs).
  { intros r. apply links_allowed_returns. }
  exists s. split; [done|]. intros t. rewrite Hs. split.
  - intros [[]%elem_of_empty|(r & Hr & -> & Hok)]. destruct (relates_returns r) as [l' El'].
    exists r, i, l'. rewrite <-links_allowed_true. split_and!; [done|done|done| |done]. by apply (relates_relation_types r i l' l).
  - intros (o & r & l' & -> & [= <-] & El' & Hr & Hok). right. exists o. rewrite links_allowed_true.
    split_and!; [|done|done]. by apply (relates_relation_types o i l' l).
Qed.
Lemma relates_finds t :
  finds (match t with TRelation i => l ← get_relates i; Val (extend ∅ (TRoleType <$> l)) | _ => Val ∅ end) (relates_type t).
Proof.
  destruct t as [i|i|i|i]; try (by apply finds_empty; intros u (? & ? & ? & [=] & _)).
  eapply finds_ext; [apply finds_extend, relates_returns|]. intros u. unfold relates_type. naive_solver.
Qed.
Lemma relation_types_finds u :
  finds (match u with TRoleType i => l ← get_relation_types_of_role i; Val (extend ∅ (TRelation <$> l)) | _ => Val ∅ end)
    (λ t, relates_type t u).
Proof.
  destruct u as [i|i|i|i]; try (by apply finds_empty; intros t (? & ? & ? & _ & [=] & _)).
  eapply finds_ext; [apply finds_extend, relation_types_returns|]. intros t. split.
  - intros (o & l & -> & El & Ho). destruct (relates_returns o) as [l' El']. exists o, i, l'. split_and!; [done|done|done|].
    by apply (relates_relation_types o i l' l).
  - intros (o & a & l & -> & [= <-] & El & Ha). destruct (relation_types_returns i) as [l' El']. exists o, l'.
    split_and!; [done|done|]. by apply (relates_relation_types o i l l').
Qed.

Lemma supertypes_finds t :
  finds (l ← get_supertypes_transitive (kind_of t).1 (kind_of t).2; Val (extend ∅ (annotation_of (kind_of t).1 <$> l))) (subtype_of t).
Proof.
  eapply finds_ext; [apply finds_extend, supertypes_returns|]. intros u. split.
  - intros (j & l & -> & El & Hj). exists (kind_of t).1, (kind_of t).2, j, l. by rewrite annotation_of_kind.
  - intros (k & i & j & l & -> & -> & El & Hj). rewrite kind_of_annotation. cbn. eauto.
Qed.
Lemma subtypes_finds u :
  finds (l ← get_subtypes_transitive (kind_of u).1 (kind_of u).2; Val (extend ∅ (annotation_of (kind_of u).1 <$> l)))
    (λ t, subtype_of t u).
Proof.
  eapply finds_ext; [apply finds_extend, subtypes_transitive_returns|]. intros t. split.
  - intros (i & l & -> & El & Hi). destruct (supertypes_returns (kind_of u).1 i) as [l' El'].
    exists (kind_of u).1, i, (kind_of u).2, l'. rewrite annotation_of_kind. split_and!; [done|done|done|].
    by apply (supertypes_subtypes _ _ _ l' l El' El).
  - intros (k & i & j & l & -> & -> & El & Hj). rewrite kind_of_annotation. cbn.
    destruct (subtypes_transitive_returns k j) as [l' El']. exists i, l'. split_and!; [done|done|].
    by apply (supertypes_subtypes _ _ _ l l' El El').
Qed.
Lemma finds_insert t m P : finds m P → finds (c ← m; Val ({[t]} ∪ c)) (λ u, t = u ∨ P u).
Proof.
  intros (s & -> & Hs). eexists. split; [reflexivity|]. intros u. rewrite elem_of_union, elem_of_singleton, Hs. naive_solver.
Qed.
Lemma finds_insert_extend {A} t (f : A → TypeAnnotation) (m : exec CRE (list A)) P :
  finds (l ← m; Val (extend ∅ (f <$> l))) P → finds (l ← m; Val ({[t]} ∪ extend ∅ (f <$> l))) (λ u, t = u ∨ P u).
Proof. intros Hm%(finds_insert t). by destruct m. Qed.

Definition is_comparison (b : BinaryConstraint) : bool := match b with BComparison _ _ => true | _ => false end.
Lemma supertype_finds t :
  finds (s ← get_supertype (kind_of t).1 (kind_of t).2;
         Val (match s with Some s => {[annotation_of (kind_of t).1 s]} ∪ ∅ | None => ∅ end)) (direct_subtype_of t).
Proof.
  destruct (supertype_returns (kind_of t).1 (kind_of t).2) as [s Es]. rewrite Es. eexists. split; [reflexivity|]. intros u. split.
  - destruct s as [j|]; [|by intros []%elem_of_empty]. rewrite elem_of_union, elem_of_singleton.
    intros [->|[]%elem_of_empty]. exists (kind_of t).1, (kind_of t).2, j. by rewrite annotation_of_kind.
  - intros (k & i & j & -> & -> & Ej). rewrite kind_of_annotation in *. cbn in *. rewrite Ej in Es. injection Es as <-.
    rewrite elem_of_union, elem_of_singleton. by left.
Qed.
Lemma direct_subtypes_finds u :
  finds (l ← get_subtypes (kind_of u).1 (kind_of u).2; Val (extend ∅ (annotation_of (kind_of u).1 <$> l)))
    (λ t, direct_subtype_of t u).
Proof.
  eapply finds_ext; [apply finds_extend, subtypes_returns|]. intros t. split.
  - intros (i & l & -> & El & Hi). destruct (supertype_returns (kind_of u).1 i) as [o Eo].
    exists (kind_of u).1, i, (kind_of u).2. rewrite annotation_of_kind. split_and!; [done|done|]. rewrite Eo. f_equal.
    by eapply supertype_subtypes.
  - intros (k & i & j & -> & -> & Ej). rewrite kind_of_annotation. cbn. destruct (subtypes_returns k j) as [l El].
    exists i, l. split_and!; [done|done|]. by eapply supertype_subtypes.
Qed.
Lemma finds_self t : finds (Val ({[t]} ∪ ∅)) (λ u, t = u).
Proof. eexists. split; [reflexivity|]. intros u. rewrite elem_of_union, elem_of_singleton, elem_of_empty. naive_solver. Qed.
Lemma isa_guard k (P : TypeAnnotation → Prop) m :
  (negb is_write_stage && bool_decide (k = IsaSubtype) = true → finds m (λ u, is_write_stage = false ∧ k = IsaSubtype ∧ P u)) →
  finds (if negb is_write_stage && bool_decide (k = IsaSubtype) then m else Val ∅) (λ u, is_write_stage = false ∧ k = IsaSubtype ∧ P u).
Proof.
  destruct (negb is_write_stage && bool_decide (k = IsaSubtype)) eqn:Ek; [auto|]. intros _.
  apply finds_empty. intros u (Hw & -> & _). by rewrite Hw in Ek.
Qed.
Lemma left_finds b t : is_comparison b = false → finds (annotate_left_to_right_for_type is_write_stage b t ∅) (related b t).
Proof.
  destruct b as [| |k ? ?|[] ? ?|l r|l r|l|p r|l|r o]; intros Hb; cbn [annotate_left_to_right_for_type]; unfold isa_supertypes, sub_supertypes, relates_roles;
    [apply owned_finds|apply owned_finds| |apply supertype_finds| |apply finds_self|done|apply played_finds|apply played_finds
    |apply related_finds|apply relates_finds].
  - cbn [related]. apply finds_insert, isa_guard. intros [Hw%negb_true_iff Hk%bool_decide_eq_true]%andb_prop.
    destruct t as [i|i|i|i]; [eapply finds_ext; [apply supertypes_finds|]; cbn; naive_solver..|].
    apply finds_empty. cbn. naive_solver.
  - cbn [related]. apply finds_insert_extend, supertypes_finds.
Qed.
Lemma subtype_kind t u : subtype_of t u → (kind_of t).1 = (kind_of u).1.
Proof. intros (k & i & j & l & -> & -> & _). by rewrite !kind_of_annotation. Qed.
Lemma right_finds b u : is_comparison b = false → finds (annotate_right_to_left_for_type is_write_stage b u ∅) (λ t, related b t u).
Proof.
  destruct b as [| |k ? ?|[] ? ?|l r|l r|l|p r|l|r o]; intros Hb; cbn [annotate_right_to_left_for_type]; unfold isa_subtypes, sub_subtypes, relates_relations;
    [apply owner_finds|apply owner_finds| |apply direct_subtypes_finds| | |done|apply player_finds|apply player_finds
    |apply relating_finds|apply relation_types_finds].
  - cbn [related]. eapply finds_ext.
    + apply finds_insert, (isa_guard k (λ t, (kind_of t).1 ≠ KRole ∧ subtype_of t u)).
      intros [Hw%negb_true_iff Hk%bool_decide_eq_true]%andb_prop.
      destruct u as [i|i|i|i]; [eapply finds_ext; [apply subtypes_finds|]; intros t; cbn;
        split; [intros Ht; by rewrite (subtype_kind _ _ Ht)|naive_solver]..|].
      apply finds_empty. cbn. intros t (_ & _ & Hn & Ht). apply Hn. by rewrite (subtype_kind _ _ Ht).
    + intros t. cbn. naive_solver.
  - cbn [related]. eapply finds_ext; [apply finds_insert_extend, subtypes_finds|]. intros t. cbn. naive_solver.
  - eapply finds_ext; [apply finds_self|]. cbn. naive_solver.
Qed.

(** The ends of a comparison hold attribute types. *)
Definition comparison_ok (b : BinaryConstraint) (ls rs : annotations) : Prop :=
  is_comparison b = true → all_attributes ls ∧ all_attributes rs.
Lemma finds_returns m P : finds m P → returns m.
Proof. intros (s & -> & _). by exists s. Qed.
Lemma finds_iff m P u : finds m P → (∃ s, m = Val s ∧ u ∈ s) ↔ P u.
Proof. intros (s & -> & Hs). rewrite <-Hs. split; [by intros (s' & [= <-] & ?)|eauto]. Qed.

Lemma seed_edge_spec c b vs ls rs :
  vs !! left b = Some ls → vs !! right b = Some rs → comparison_ok b ls rs →
  ∃ e, seed_edge is_write_stage c b vs = Val e ∧ consistent e ∧ edge_constraint e = c ∧ edge_left e = left b ∧ edge_right e = right b ∧
    ∀ t u, allows e t u ↔ t ∈ ls ∧ u ∈ rs ∧ related b t u.
Proof.
  intros Els Ers Hcmp. unfold seed_edge. rewrite Els, Ers. cbn [unwrap mbind exec_bind].
  assert (∃ m, annotate_left_to_right is_write_stage b ls rs = Val m ∧ nonempty m ∧
    ∀ t u, pair m t u ↔ t ∈ ls ∧ u ∈ rs ∧ related b t u) as (l2r & -> & Hn1 & H1).
  { destruct (is_comparison b) eqn:Hb.
    - destruct b; try done. apply annotate_comparison_spec. by apply Hcmp.
    - destruct (annotate_with_spec (annotate_left_to_right_for_type is_write_stage b) ls rs) as (m & Em & Hn & Hm).
      { intros t _. by eapply finds_returns, left_finds. }
      exists m. split_and!; [by destruct b|done|]. intros t u. rewrite Hm, (finds_iff _ _ u (left_finds b t Hb)). done. }
  cbn [mbind exec_bind].
  assert (∃ m, annotate_right_to_left is_write_stage b rs ls = Val m ∧ nonempty m ∧
    ∀ u t, pair m u t ↔ u ∈ rs ∧ t ∈ ls ∧ related b t u) as (r2l & -> & Hn2 & H2).
  { destruct (is_comparison b) eqn:Hb.
    - destruct b; try done. destruct (annotate_comparison_spec rs ls) as (m & Em & Hn & Hm); [by apply Hcmp|].
      exists m. split_and!; [done|done|]. intros u t. by rewrite Hm, compared_sym.
    - destruct (annotate_with_spec (annotate_right_to_left_for_type is_write_stage b) rs ls) as (m & Em & Hn & Hm).
      { intros t _. by eapply finds_returns, right_finds. }
      exists m. split_and!; [by destruct b|done|]. intros u t. rewrite Hm, (finds_iff _ _ t (right_finds b u Hb)). done. }
  cbn [mbind exec_bind]. eexists. split; [reflexivity|]. split_and!; [|done..].
  split; cbn; [|done|done]. intros t u. rewrite H1, H2. tauto.
Qed.

(** Whatever the types at its ends, an edge that is built is the right one: a
    comparison with a type other than an attribute's panics or relates nothing. *)
Lemma fold_exec_each {E A S} (f : S → A → exec E S) l s s' x :
  fold_exec f l s = Val s' → x ∈ l → ∃ s1 s2, f s1 x = Val s2.
Proof.
  revert s. induction l as [|y l IH]; intros s; cbn [fold_exec]; [by intros _ []%not_elem_of_nil|].
  destruct (f s y) as [s1| |] eqn:E1; cbn [mbind exec_bind]; [|done..]. rewrite elem_of_cons. intros Hf [->|Hx]; eauto.
Qed.
Lemma comparable_fold_inv categories (allowed s : annotations) :
  fold_exec (comparable_step categories) (elements allowed) ∅ = Val s → all_attributes allowed.
Proof.
  intros Hf t Ht%elem_of_elements. destruct (fold_exec_each _ _ _ _ _ Hf Ht) as (s1 & s2 & Hs).
  destruct t; try done. eauto.
Qed.
Lemma annotate_comparison_inv types allowed m :
  annotate_comparison types allowed = Val m →
  nonempty m ∧ ∀ t u, pair m t u ↔ t ∈ types ∧ u ∈ allowed ∧ compared t u.
Proof.
  intros Hm. destruct (decide (set_Forall (λ t, (kind_of t).1 = KAttribute) allowed)) as [Hall|Hall].
  { destruct (annotate_comparison_spec types allowed) as (m' & Em & Hn & Hp).
    { intros t Ht. specialize (Hall t Ht). destruct t; try done. eauto. }
    rewrite Hm in Em. by injection Em as ->. }
  assert (∀ c (s : annotations), fold_exec (comparable_step c) (elements allowed) ∅ ≠ Val s) as Hno.
  { intros c s Hf%comparable_fold_inv. apply Hall. intros t Ht. by destruct (Hf t Ht) as [i ->]. }
  assert (∀ t c, t ∈ types → ¬ value_category t c) as Hval.
  { intros t c Ht (i & v & -> & Ev & _). apply elem_of_elements in Ht. destruct (fold_exec_each _ _ _ _ _ Hm Ht) as (m1 & m2 & Hs).
    rewrite Ev in Hs. cbn [mbind exec_bind] in Hs. destruct (fold_exec _ _ ∅) eqn:Ef; [|done..]. by apply Hno in Ef. }
  assert (m = ∅) as ->.
  { assert (∀ l m0, m0 = ∅ → fold_exec (λ (m : type_map) t,
        v ← (match t with TAttribute i => get_value_type_without_source i | _ => Val None end);
        found ← (match v with
                 | Some v => fold_exec (comparable_step (comparable_categories (VType.category v))) (elements allowed) ∅
                 | None => Val ∅
                 end);
        Val (if bool_decide (found = ∅) then m else <[t := found]> m)) l m0 = Val m → m = ∅) as G; [|by apply (G _ _ eq_refl Hm)].
    induction l as [|t l IH]; intros m0 Hm0; cbn [fold_exec]; [by intros [= <-]|].
    destruct (match t with TAttribute i => get_value_type_without_source i | _ => Val None end) as [[v|]| |];
      cbn [mbind exec_bind]; [| |done..].
    - destruct (fold_exec _ (elements allowed) ∅) eqn:Ef; cbn [mbind exec_bind]; [by apply Hno in Ef|done..].
    - rewrite bool_decide_eq_true_2 by done. by apply IH. }
  split; [by intros a s ?%lookup_empty_Some|]. intros t u. split.
  - by intros (s & ?%lookup_empty_Some & _).
  - intros (Ht & _ & c & d & Hc & _). by apply Hval in Hc.
Qed.
Lemma seed_edge_inv c b vs e :
  seed_edge is_write_stage c b vs = Val e →
  ∃ ls rs, vs !! left b = Some ls ∧ vs !! right b = Some rs ∧ consistent e ∧ edge_constraint e = c ∧ edge_left e = left b ∧
    edge_right e = right b ∧ ∀ t u, allows e t u ↔ t ∈ ls ∧ u ∈ rs ∧ related b t u.
Proof.
  intros He. destruct (vs !! left b) as [ls|] eqn:El, (vs !! right b) as [rs|] eqn:Er.
  2-4: unfold seed_edge in He; rewrite El in He; cbn [unwrap mbind exec_bind] in He; rewrite ?Er in He; done.
  exists ls, rs. destruct (is_comparison b) eqn:Hb.
  - destruct b; try done. unfold seed_edge in He. rewrite El, Er in He. cbn [unwrap mbind exec_bind annotate_left_to_right annotate_right_to_left] in He.
    destruct (annotate_comparison ls rs) as [l2r| |] eqn:E1; cbn [mbind exec_bind] in He; [|done..].
    destruct (annotate_comparison rs ls) as [r2l| |] eqn:E2; cbn [mbind exec_bind] in He; [|done..].
    injection He as <-. apply annotate_comparison_inv in E1 as [N1 P1], E2 as [N2 P2]. split_and!; try done.
    split; cbn; [|done|done]. intros t u. rewrite P1, P2, (compared_sym u t). tauto.
  - destruct (seed_edge_spec c b vs ls rs El Er) as (e' & E' & ?); [unfold comparison_ok; by rewrite Hb|]. rewrite He in E'. injection E' as ->. done.
Qed.
End edges.
