(* ===== verification/TypeGraph.v ===== *)
(** * Type inference: from a pattern to its type graph

    The phases of [compiler/annotation/type_seeder.rs] that annotate the
    vertices of a graph (unary constraints, propagation along constraints and
    between a conjunction and its disjunctions, unbounded vertices), the
    seeding of edges, and [compute_type_inference_graph] of
    [compiler/annotation/match_inference.rs], which composes them with the
    pruning of [TypeInference]. *)
From S2P Require Import Prelude Layout Pattern Block TypeInference TypeSeeder.
From stdpp Require Import countable gmap relations.
#[local] Open Scope Z_scope.

Section seeding.
Context {CRE : Type} `{TM : TypeManager CRE}.
Context (function_annotations : FunctionID → option AnnotatedFunctionSignature)
  (registry : VariableRegistry) (is_write_stage : bool).
Abbreviation read := (exec CRE).
Abbreviation infer := (exec (TypeInferenceError CRE)).

Definition intersect_at (v : Vertex) (s : annotations) (vs : VertexAnnotations) : VertexAnnotations := (add_or_intersect v s vs).1.

(** ** Constraints on one vertex ([UnaryConstraint::apply]) *)
Definition all_types (k : Kind) : infer annotations :=
  l ← map_err ConceptRead (get_types k); Val (list_to_set (annotation_of k <$> l)).
(** The label of a [Label] constraint is always a label vertex. *)
Definition label_name (v : Vertex) : string := match v with VLabel l => l | _ => "" end.
Definition apply_label (t l : Vertex) (vs : VertexAnnotations) : infer VertexAnnotations :=
  match vs !! l with
  | Some a => Val (intersect_at t a vs)
  | None => Err (LabelNotResolved (label_name l))
  end.
Definition role_name_types (roles : list Z) : infer annotations :=
  fold_exec (λ acc r,
    let acc := {[TRoleType r]} ∪ acc in
    if is_write_stage then Val acc
    else subs ← map_err ConceptRead (get_subtypes_transitive KRole r); Val (acc ∪ list_to_set (TRoleType <$> subs))) roles ∅.
Definition pattern_value_type (vt : PatternValueType) : infer ValueType :=
  match vt with
  | Builtin v => Val v
  | StructNamed n =>
      o ← map_err ConceptRead (get_struct_definition_key n);
      match o with Some key => Val (TyStruct key) | None => Err (ValueTypeNotFound n) end
  end.
Definition value_types (v : ValueType) (attribute_types : list Z) : infer annotations :=
  fold_exec (λ acc a,
    o ← map_err ConceptRead (get_value_type_without_source a);
    Val (match o with Some w => if bool_decide (v = w) then {[TAttribute a]} ∪ acc else acc | None => acc end)) attribute_types ∅.
Fixpoint apply_parameters (vertices : list Vertex) (params : list FunctionParameterAnnotation) (vs : VertexAnnotations) : VertexAnnotations :=
  match vertices, params with
  | v :: vertices, p :: params =>
      apply_parameters vertices params (match p with ParamConcept types => intersect_at v types vs | ParamValueType _ => vs end)
  | _, _ => vs
  end.
Definition apply_constraint (vs : VertexAnnotations) (c : Constraint) : infer VertexAnnotations :=
  match c with
  | KindC k t => s ← all_types k; Val (intersect_at t s vs)
  | LabelC t l => apply_label t l vs
  | FunctionCallBinding assigned f args _ =>
      Val (match function_annotations f with
           | Some sig => apply_parameters (VVariable <$> args) (sig_arguments sig) (apply_parameters assigned (sig_returns sig) vs)
           | None => vs
           end)
  | RoleName t name =>
      o ← map_err ConceptRead (get_roles_by_name name);
      match o with
      | Some roles => s ← role_name_types roles; Val (intersect_at t s vs)
      | None => Err (RoleNameNotResolved name)
      end
  | ValueC a vt =>
      v ← pattern_value_type vt;
      l ← map_err ConceptRead (get_types KAttribute);
      s ← value_types v l;
      Val (intersect_at a s vs)
  | IndexedRelation _ _ _ _ _ | Unsatisfiable => Panic
  | _ => Val vs
  end.

Definition annotate_fixed_vertex (vs : VertexAnnotations) (v : Vertex) : infer VertexAnnotations :=
  match v with
  | VVariable _ => Panic
  | VLabel l =>
      match vs !! v with
      | Some _ => Val vs
      | None =>
          o ← map_err ConceptRead (get_type_annotation_from_label l);
          match o with
          | Some t => Val (<[v := {[t]}]> vs)
          | None => Err (LabelNotResolved l)
          end
      end
  | VParameter _ => Val vs
  end.
Definition fixed_vertices (cs : list Constraint) : list Vertex :=
  flat_map (λ c, List.filter (λ v, negb (is_variable v)) (vertices c)) cs.
(** Phase 1 on a graph's own vertices. *)
Definition seed_own_vertices (cs : list Constraint) (vs : VertexAnnotations) : infer VertexAnnotations :=
  vs ← fold_exec annotate_fixed_vertex (fixed_vertices cs) vs;
  fold_exec apply_constraint cs vs.

Fixpoint seed_vertex_annotations_from_type_and_called_function_signatures (g : TypeInferenceGraph) : infer TypeInferenceGraph :=
  match g with
  | MkGraph c vs es ns =>
      vs ← seed_own_vertices (constraints c) vs;
      ns ← traverse nested_seed_vertex_annotations ns;
      Val (MkGraph c vs es ns)
  end
with nested_seed_vertex_annotations (n : NestedTypeInferenceGraphDisjunction) : infer NestedTypeInferenceGraphDisjunction :=
  match n with
  | MkNested gs sv sva =>
      gs ← traverse seed_vertex_annotations_from_type_and_called_function_signatures gs;
      Val (MkNested gs sv sva)
  end.

(** ** Propagation along constraints *)
Definition collect_partners (partners : TypeAnnotation → annotations → read annotations) (types : annotations) : read annotations :=
  fold_exec (λ acc t, partners t acc) (elements types) ∅.
Definition try_propagating_vertex_annotation_impl (b : BinaryConstraint) (vs : VertexAnnotations) : read (VertexAnnotations * bool) :=
  match vs !! left b, vs !! right b with
  | None, None => Val (vs, false)
  | Some _, Some _ => Val (vs, false)
  | Some ls, None =>
      rs ← collect_partners (annotate_left_to_right_for_type is_write_stage b) ls;
      Val (<[right b := rs]> vs, true)
  | None, Some rs =>
      ls ← collect_partners (annotate_right_to_left_for_type is_write_stage b) rs;
      Val (<[left b := ls]> vs, true)
  end.
Definition try_propagating_vertex_annotation (c : Constraint) (vs : VertexAnnotations) : read (VertexAnnotations * bool) :=
  match c with
  | Isa k t y => try_propagating_vertex_annotation_impl (BIsa k t y) vs
  | Sub k s t => try_propagating_vertex_annotation_impl (BSub k s t) vs
  | LinksC l =>
      '(vs, m) ← try_propagating_vertex_annotation_impl (BRelationRole l) vs;
      if (m : bool) then Val (vs, true) else try_propagating_vertex_annotation_impl (BPlayerRole l) vs
  | Has o a => try_propagating_vertex_annotation_impl (BHas o a) vs
  | Is l r => try_propagating_vertex_annotation_impl (BIs l r) vs
  | Owns o a => try_propagating_vertex_annotation_impl (BOwns o a) vs
  | Relates r t => try_propagating_vertex_annotation_impl (BRelates r t) vs
  | Plays p t => try_propagating_vertex_annotation_impl (BPlays p t) vs
  | IndexedRelation _ _ _ _ _ | Unsatisfiable => Panic
  | _ => Val (vs, false)
  end.
Definition is_isa (c : Constraint) : bool := match c with Isa _ _ _ => true | _ => false end.
Definition propagate_constraint (s : VertexAnnotations * bool) (c : Constraint) : read (VertexAnnotations * bool) :=
  '(vs, m) ← try_propagating_vertex_annotation c s.1; Val (vs, s.2 || m).
(** [isa] constraints first. *)
Definition propagate_own (cs : list Constraint) (vs : VertexAnnotations) : read (VertexAnnotations * bool) :=
  fold_exec propagate_constraint (List.filter is_isa cs ++ List.filter (λ c, negb (is_isa c)) cs) (vs, false).

(** The parent's annotations of the shared variables, applied to a branch. *)
Definition apply_parent (parent : VertexAnnotations) (vs : VertexAnnotations) (v : Var) : VertexAnnotations :=
  match parent !! VVariable v with Some s => intersect_at (VVariable v) s vs | None => vs end.
Definition apply_shared (shared : gset Var) (parent vs : VertexAnnotations) : VertexAnnotations :=
  fold_left (apply_parent parent) (elements shared) vs.
Definition try_union_annotations_across_all_branches (gs : list TypeInferenceGraph) (v : Vertex) : option annotations :=
  if forallb (λ g, bool_decide (is_Some (g_vertices g !! v))) gs then
    Some (⋃ (List.map (λ g, default ∅ (g_vertices g !! v)) gs))
  else None.
Definition update_shared (gs : list TypeInferenceGraph) (sva : VertexAnnotations) (v : Var) : VertexAnnotations :=
  match sva !! VVariable v with
  | Some _ => sva
  | None =>
      match try_union_annotations_across_all_branches gs (VVariable v) with
      | Some s => <[VVariable v := s]> sva
      | None => sva
      end
  end.
Definition update_parent (s : VertexAnnotations * bool) (vt : Vertex * annotations) : VertexAnnotations * bool :=
  match s.1 !! vt.1 with Some _ => s | None => (<[vt.1 := vt.2]> s.1, true) end.

(** [propagate_vertex_annotations] of the graph with its vertices set to [vs]. *)
Fixpoint propagate_with (vs : VertexAnnotations) (g : TypeInferenceGraph) : read (TypeInferenceGraph * bool) :=
  match g with
  | MkGraph c _ es ns =>
      '(vs, m) ← propagate_own (constraints c) vs;
      '(ns, vs, m') ← traverse_state reconcile_nested_disjunction ns vs;
      Val (MkGraph c vs es ns, m || m')
  end
with reconcile_nested_disjunction (n : NestedTypeInferenceGraphDisjunction) (parent : VertexAnnotations) :
    read (NestedTypeInferenceGraphDisjunction * VertexAnnotations * bool) :=
  match n with
  | MkNested gs sv sva =>
      r ← traverse (λ g, propagate_with (apply_shared sv parent (g_vertices g)) g) gs;
      let gs := List.map fst r in
      let sva := fold_left (update_shared gs) (elements sv) sva in
      let '(parent, m) := fold_left update_parent (map_to_list sva) (parent, existsb snd r) in
      Val (MkNested gs sv sva, parent, m)
  end.
Definition propagate_vertex_annotations (g : TypeInferenceGraph) : read (TypeInferenceGraph * bool) :=
  propagate_with (g_vertices g) g.

(** ** Vertices without bounds *)
Definition get_unbounded_type_annotations (c : VariableCategory) : read annotations :=
  match c with
  | CAttributeOrValue => Panic
  | _ =>
      let '(things, roles) :=
        match c with
        | CType => (true, true)
        | CRoleType => (false, true)
        | CValueList | CValue => (false, false)
        | _ => (true, false)
        end in
      let types (include : bool) k : read annotations :=
        if include then l ← get_types k; Val (list_to_set (annotation_of k <$> l)) else Val ∅ in
      e ← types things KEntity; r ← types things KRelation; a ← types things KAttribute; o ← types roles KRole;
      Val (e ∪ r ∪ a ∪ o)
  end.
Definition unannotated (vs : VertexAnnotations) (v : Var) : bool :=
  negb (bool_decide (default CValue (get_variable_category v registry) = CValue)) &&
  negb (bool_decide (is_Some (vs !! VVariable v))).
Fixpoint annotate_some_unannotated_vertex (g : TypeInferenceGraph) : read (TypeInferenceGraph * bool) :=
  match g with
  | MkGraph c vs es ns =>
      match List.find (unannotated vs) (flat_map ids (constraints c)) with
      | Some v =>
          s ← get_unbounded_type_annotations (default CType (get_variable_category v registry));
          Val (MkGraph c (<[VVariable v := s]> vs) es ns, true)
      | None =>
          r ← traverse nested_annotate_some ns;
          Val (MkGraph c vs es (List.map fst r), existsb snd r)
      end
  end
with nested_annotate_some (n : NestedTypeInferenceGraphDisjunction) : read (NestedTypeInferenceGraphDisjunction * bool) :=
  match n with
  | MkNested gs sv sva =>
      r ← traverse annotate_some_unannotated_vertex gs;
      Val (MkNested (List.map fst r) sv sva, existsb snd r)
  end.

(** ** Abstract types of thing variables *)
Definition is_not_abstract (t : TypeAnnotation) : read bool := b ← is_abstract t; Val (negb b).
(** [Type::try_retain]. *)
Definition try_retain (p : TypeAnnotation → read bool) (s : annotations) : read annotations :=
  removed ← fold_exec (λ acc t, b ← p t; Val (if (b : bool) then acc else acc ++ [t])) (elements s) [];
  Val (fold_left (λ s t, s ∖ {[t]}) removed s).
Definition is_thing_vertex (v : Vertex) : bool :=
  match v with VVariable x => match get_variable_category x registry with Some c => is_category_thing c | None => false end | _ => false end.
Definition prune_abstract_at (vs : VertexAnnotations) (vt : Vertex * annotations) : infer VertexAnnotations :=
  if is_thing_vertex vt.1 then
    s ← map_err ConceptRead (try_retain is_not_abstract vt.2); Val (<[vt.1 := s]> vs)
  else Val vs.
Fixpoint prune_abstract_types_from_thing_vertex_annotations_recursive (g : TypeInferenceGraph) : infer TypeInferenceGraph :=
  match g with
  | MkGraph c vs es ns =>
      vs ← fold_exec prune_abstract_at (map_to_list vs) vs;
      ns ← traverse nested_prune_abstract ns;
      Val (MkGraph c vs es ns)
  end
with nested_prune_abstract (n : NestedTypeInferenceGraphDisjunction) : infer NestedTypeInferenceGraphDisjunction :=
  match n with
  | MkNested gs sv sva =>
      gs ← traverse prune_abstract_types_from_thing_vertex_annotations_recursive gs; Val (MkNested gs sv sva)
  end.

(** ** Edges *)
Definition seed_constraint (vs : VertexAnnotations) (edges : list TypeInferenceEdge) (c : Constraint) : read (list TypeInferenceEdge) :=
  let seed b edges := e ← seed_edge is_write_stage c b vs; Val (edges ++ [e]) in
  match c with
  | Isa k t y => seed (BIsa k t y) edges
  | Sub k s t => seed (BSub k s t) edges
  | LinksC l => edges ← seed (BRelationRole l) edges; seed (BPlayerRole l) edges
  | Has o a => seed (BHas o a) edges
  | Is l r => seed (BIs l r) edges
  | Comparison l r _ =>
      if bool_decide (is_Some (vs !! r)) && bool_decide (is_Some (vs !! l)) then seed (BComparison l r) edges else Val edges
  | Owns o a => seed (BOwns o a) edges
  | Relates r t => seed (BRelates r t) edges
  | Plays p t => seed (BPlays p t) edges
  | IndexedRelation _ _ _ _ _ | Unsatisfiable => Panic
  | _ => Val edges
  end.
Fixpoint seed_edges (g : TypeInferenceGraph) : read TypeInferenceGraph :=
  match g with
  | MkGraph c vs es ns =>
      es ← fold_exec (seed_constraint vs) (constraints c) es;
      ns ← traverse nested_seed_edges ns;
      Val (MkGraph c vs es ns)
  end
with nested_seed_edges (n : NestedTypeInferenceGraphDisjunction) : read NestedTypeInferenceGraphDisjunction :=
  match n with
  | MkNested gs sv sva => gs ← traverse seed_edges gs; Val (MkNested gs sv sva)
  end.

(** ** The loops

    [None]: a loop has not ended within [fuel] iterations. *)
Fixpoint propagate_until_unchanged (fuel : nat) (g : TypeInferenceGraph) : option (read TypeInferenceGraph) :=
  match fuel with
  | O => None
  | S fuel =>
      match propagate_vertex_annotations g with
      | Val (g, true) => propagate_until_unchanged fuel g
      | Val (g, false) => Some (Val g)
      | Err e => Some (Err e)
      | Panic => Some Panic
      end
  end.
Fixpoint annotate_until_unchanged (fuel : nat) (g : TypeInferenceGraph) : option (read TypeInferenceGraph) :=
  match fuel with
  | O => None
  | S fuel' =>
      match propagate_until_unchanged fuel g with
      | Some (Val g) =>
          match annotate_some_unannotated_vertex g with
          | Val (g, true) => annotate_until_unchanged fuel' g
          | Val (g, false) => Some (Val g)
          | Err e => Some (Err e)
          | Panic => Some Panic
          end
      | r => r
      end
  end.

(** ** Building and seeding a graph *)
Section block.
Context (ctx : BlockContext).
Fixpoint build_recursive (c : Conjunction) : TypeInferenceGraph :=
  match c with
  | MkConjunction scope cs ns => MkGraph c ∅ [] (flat_map (build_disjunction_recursive scope) ns)
  end
with build_disjunction_recursive (parent_scope : Z) (n : NestedPattern) : list NestedTypeInferenceGraphDisjunction :=
  match n with
  | PDisjunction cs _ _ =>
      [MkNested (List.map build_recursive cs)
         (list_to_set (List.filter (λ v, is_variable_available_in parent_scope v ctx) (flat_map referenced_variables cs))) ∅]
  | PNegation _ | POptional _ _ => []
  end.
End block.

Definition set_vertices (vs : VertexAnnotations) (g : TypeInferenceGraph) : TypeInferenceGraph :=
  let '(MkGraph c _ es ns) := g in MkGraph c vs es ns.
(** The annotations of the stages before, for the variables of the pattern. *)
Definition pre_seed (upstream : VertexAnnotations) (variables : list Var) (vs : VertexAnnotations) : VertexAnnotations :=
  fold_left (λ vs v, match upstream !! VVariable v with Some a => intersect_at (VVariable v) a vs | None => vs end) variables vs.
Definition insert_parents (parents : VertexAnnotations) (variables : list Var) (vs : VertexAnnotations) : VertexAnnotations :=
  fold_left (λ vs (vt : Vertex * annotations),
    if bool_decide (vt.1 ∈ VVariable <$> variables) then <[vt.1 := vt.2]> vs else vs) (map_to_list parents) vs.

Definition seed_types (fuel : nat) (parents : VertexAnnotations) (g : TypeInferenceGraph) : option (infer TypeInferenceGraph) :=
  let g := set_vertices (insert_parents parents (referenced_variables (g_conjunction g)) (g_vertices g)) g in
  match seed_vertex_annotations_from_type_and_called_function_signatures g with
  | Val g =>
      match annotate_until_unchanged fuel g with
      | None => None
      | Some m =>
          Some (g ← map_err ConceptRead m;
                g ← prune_abstract_types_from_thing_vertex_annotations_recursive g;
                map_err ConceptRead (seed_edges g))
      end
  | Err e => Some (Err e)
  | Panic => Some Panic
  end.
Definition create_graph (fuel : nat) (ctx : BlockContext) (upstream : VertexAnnotations) (c : Conjunction) : option (infer TypeInferenceGraph) :=
  let g := build_recursive ctx c in
  seed_types fuel ∅ (set_vertices (pre_seed upstream (referenced_variables c) (g_vertices g)) g).

Definition construct_error_for_unsatisfiable_edge (g : TypeInferenceGraph) (e : TypeInferenceEdge) : infer TypeInferenceGraph :=
  ls ← unwrap (g_vertices g !! edge_left e);
  rs ← unwrap (g_vertices g !! edge_right e);
  Err (DetectedUnsatisfiableEdge (edge_left e) (edge_right e) ls rs (edge_constraint e)).
Definition compute_type_inference_graph (fuel : nat) (ctx : BlockContext) (upstream : VertexAnnotations) (c : Conjunction) :
    option (infer TypeInferenceGraph) :=
  match create_graph fuel ctx upstream c with
  | Some (Val g) =>
      match pre_check_edges_for_trivial_unsatisfiability g with
      | Some (h, e) => Some (construct_error_for_unsatisfiable_edge h e)
      | None =>
          match prune_types fuel g with
          | Some (Val g) =>
              Some (ok ← check_thing_constraints_satisfiable registry g;
                    if (ok : bool) then Val g else Err DetectedUnsatisfiablePattern)
          | r => r
          end
      end
  | r => r
  end.
End seeding.
