(* ===== verification/TypeSoundness.v ===== *)
(** * Type inference: no valid typing is lost

    What it means for an assignment of types to satisfy a pattern under a
    schema, and the theorem that seeding and pruning keep every such
    assignment; the loops of the seeder end. *)
From S2P Require Import Prelude Layout Pattern Block TypeInference TypeSeeder TypeGraph.
From stdpp Require Import countable gmap relations.
#[local] Open Scope Z_scope.

(** The lookups of unary constraints return too. *)
Class TypeManagerReads (CRE : Type) `{TypeManager CRE} : Prop := {
  types_return k : returns (get_types k);
  labelled_returns k l : returns (get_labelled_type k l);
  roles_by_name_returns n : returns (get_roles_by_name n);
  struct_key_returns n : returns (get_struct_definition_key n);
  abstract_returns t : returns (is_abstract t);
}.

(** ** Typings of a pattern *)
Section typing.
Context {CRE : Type} `{TM : TypeManager CRE}.
Context (function_annotations : FunctionID → option AnnotatedFunctionSignature)
  (registry : VariableRegistry) (is_write_stage : bool) (σ : Vertex → TypeAnnotation).

Definition binary_constraints (c : Constraint) : list BinaryConstraint :=
  match c with
  | Isa k t y => [BIsa k t y]
  | Sub k s t => [BSub k s t]
  | LinksC l => [BRelationRole l; BPlayerRole l]
  | Has o a => [BHas o a]
  | Is l r => [BIs l r]
  | Comparison l r _ => if is_parameter l || is_parameter r then [] else [BComparison l r]
  | Owns o a => [BOwns o a]
  | Relates r t => [BRelates r t]
  | Plays p t => [BPlays p t]
  | _ => []
  end.
Definition has_kind (k : Kind) (t : TypeAnnotation) : Prop := ∃ i l, t = annotation_of k i ∧ get_types k = Val l ∧ i ∈ l.
Definition named_role (name : string) (t : TypeAnnotation) : Prop :=
  ∃ roles r, get_roles_by_name name = Val (Some roles) ∧ r ∈ roles ∧
    (t = TRoleType r ∨ (is_write_stage = false ∧ ∃ i l, t = TRoleType i ∧ get_subtypes_transitive KRole r = Val l ∧ i ∈ l)).
Definition has_value_type (vt : PatternValueType) (t : TypeAnnotation) : Prop :=
  ∃ i l v, t = TAttribute i ∧ get_types KAttribute = Val l ∧ i ∈ l ∧ get_value_type_without_source i = Val (Some v) ∧
    pattern_value_type (CRE:=CRE) vt = Val v.
Definition fits_parameter (t : TypeAnnotation) (p : FunctionParameterAnnotation) : Prop :=
  match p with ParamConcept s => t ∈ s | ParamValueType _ => True end.
Definition fits_parameters (vs : list Vertex) (ps : list FunctionParameterAnnotation) : Prop :=
  ∀ v p, (v, p) ∈ zip vs ps → fits_parameter (σ v) p.
Definition unary_typed (c : Constraint) : Prop :=
  match c with
  | KindC k t => has_kind k (σ t)
  | LabelC t l => σ t = σ l
  | RoleName t name => named_role name (σ t)
  | ValueC a vt => has_value_type vt (σ a)
  | FunctionCallBinding assigned f args _ =>
      ∀ sig, function_annotations f = Some sig →
        fits_parameters assigned (sig_returns sig) ∧ fits_parameters (VVariable <$> args) (sig_arguments sig)
  | _ => True
  end.
(** A label names its type; a variable has a type its category allows. *)
Definition vertex_typed (v : Vertex) : Prop :=
  match v with
  | VLabel l => get_type_annotation_from_label l = Val (Some (σ v))
  | VVariable x =>
      ∀ c s, get_variable_category x registry = Some c → c ≠ CValue →
        get_unbounded_type_annotations (CRE:=CRE) c = Val s → σ v ∈ s
  | VParameter _ => True
  end.
Definition constraint_typed (c : Constraint) : Prop :=
  Forall (λ b, related is_write_stage b (σ (left b)) (σ (right b))) (binary_constraints c) ∧ unary_typed c ∧
  Forall vertex_typed (vertices c ++ (VVariable <$> ids c)).
(** Things have types that are not abstract. *)
Definition concrete : Prop := ∀ v, is_thing_vertex registry v = true → is_abstract (σ v) = Val false.
Fixpoint typed (c : Conjunction) : Prop :=
  match c with
  | MkConjunction _ cs ns => Forall constraint_typed cs ∧ fold_right and True (List.map nested_typed ns)
  end
with nested_typed (n : NestedPattern) : Prop :=
  match n with
  | PDisjunction cs _ _ => fold_right or False (List.map typed cs)
  | PNegation _ | POptional _ _ => True
  end.

Definition shared_annotations (n : NestedTypeInferenceGraphDisjunction) : VertexAnnotations :=
  let '(MkNested _ _ sva) := n in sva.
(** The vertices of a graph allow the typing, which satisfies some branch of
    every disjunction, and so do those of every branch that it satisfies. *)
Inductive covers : TypeInferenceGraph → Prop :=
| covers_intro c vs es ns :
    vertices_sat σ vs →
    Forall (λ n, vertices_sat σ (shared_annotations n)) ns →
    Forall (λ n, Exists (λ g, typed (g_conjunction g)) (disjunction n)) ns →
    Forall (λ n, Forall (λ g, typed (g_conjunction g) → covers g) (disjunction n)) ns →
    covers (MkGraph c vs es ns).
End typing.

(** The conjunctions the graph of a pattern is built from: negations and
    optionals have graphs of their own. *)
Definition branches (n : NestedPattern) : list Conjunction := match n with PDisjunction cs _ _ => cs | PNegation _ | POptional _ _ => [] end.
Inductive pattern_all (P : Conjunction → Prop) : Conjunction → Prop :=
| pattern_all_intro sc cs ns :
    P (MkConjunction sc cs ns) → Forall (λ n, Forall (pattern_all P) (branches n)) ns → pattern_all P (MkConjunction sc cs ns).
Lemma pattern_all_iff P sc cs ns :
  pattern_all P (MkConjunction sc cs ns) ↔ P (MkConjunction sc cs ns) ∧ Forall (λ n, Forall (pattern_all P) (branches n)) ns.
Proof. split; [intros Hc; by inversion Hc|intros []; by constructor]. Qed.
Section pattern_induction.
Context (P : Conjunction → Prop)
  (step : ∀ sc cs ns, Forall (λ n, Forall P (branches n)) ns → P (MkConjunction sc cs ns)).
Fixpoint pattern_induction (c : Conjunction) : P c :=
  match c with
  | MkConjunction sc cs ns =>
      step sc cs ns
        ((fix go (ns : list NestedPattern) : Forall (λ n, Forall P (branches n)) ns :=
            match ns with
            | [] => Forall_nil_2 _
            | n :: ns =>
                Forall_cons_2 (λ n, Forall P (branches n)) n ns
                  (match n return Forall P (branches n) with
                   | PDisjunction cs _ _ =>
                       (fix go' (cs : list Conjunction) : Forall P cs :=
                          match cs with
                          | [] => Forall_nil_2 _
                          | c :: cs => Forall_cons_2 _ c cs (pattern_induction c) (go' cs)
                          end) cs
                   | PNegation _ | POptional _ _ => Forall_nil_2 _
                   end) (go ns)
            end) ns)
  end.
End pattern_induction.

(** ** Loops *)
Lemma traverse_inv {E A B} (f : A → exec E B) l l' : traverse f l = Val l' → Forall2 (λ x y, f x = Val y) l l'.
Proof.
  revert l'. induction l as [|x l IH]; intros l'; cbn [traverse]; [by intros [= <-]|].
  destruct (f x) as [y| |] eqn:Ey; cbn [mbind exec_bind]; [|done..].
  destruct (traverse f l) as [ys| |]; cbn [mbind exec_bind]; [|done..]. intros [= <-]. constructor; auto.
Qed.
Lemma fold_exec_inv {E A S} (f : S → A → exec E S) (P : S → Prop) l s s' :
  fold_exec f l s = Val s' → P s → (∀ s x s', x ∈ l → P s → f s x = Val s' → P s') → P s'.
Proof.
  revert s. induction l as [|x l IH]; intros s; cbn [fold_exec]; [by intros [= <-]|].
  destruct (f s x) as [s1| |] eqn:Es; cbn [mbind exec_bind]; [|done..]. intros Hf HP Hstep.
  apply (IH s1 Hf).
  - eapply Hstep; [apply list_elem_of_here|exact HP|exact Es].
  - intros ??? Hx. apply Hstep. by apply list_elem_of_further.
Qed.
Lemma map_err_val {E E' A} (f : E → E') (m : exec E A) a : map_err f m = Val a ↔ m = Val a.
Proof. destruct m; naive_solver. Qed.

(** ** Vertices *)
Lemma vertices_sat_insert σ v s (vs : VertexAnnotations) : vertices_sat σ vs → σ v ∈ s → vertices_sat σ (<[v := s]> vs).
Proof. intros Hvs Hv x ts. rewrite lookup_insert_Some. intros [[<- <-]|[_ ?]]; [done|by apply Hvs]. Qed.
Lemma intersect_at_sat σ v s vs : vertices_sat σ vs → σ v ∈ s → vertices_sat σ (intersect_at v s vs).
Proof.
  intros Hvs Hv. unfold intersect_at, add_or_intersect. destruct (vs !! v) as [e|] eqn:Ee; cbn [fst].
  - apply vertices_sat_insert; [done|]. apply retain_spec. split; [by apply Hvs|by apply bool_decide_eq_true].
  - by apply vertices_sat_insert.
Qed.
Lemma vertices_sat_fold {A} σ (f : VertexAnnotations → A → VertexAnnotations) l vs :
  vertices_sat σ vs → (∀ vs x, x ∈ l → vertices_sat σ vs → vertices_sat σ (f vs x)) → vertices_sat σ (fold_left f l vs).
Proof.
  revert vs. induction l as [|x l IH]; intros vs Hvs Hf; [done|]. cbn [fold_left]. apply IH.
  - apply Hf; [apply list_elem_of_here|done].
  - intros ?? Hx. apply Hf. by apply list_elem_of_further.
Qed.

(** ** Collectors: what a lookup adds does not depend on what was collected *)
Section collectors.
Context {CRE : Type} `{TM : TypeManager CRE} (is_write_stage : bool).
Definition adds (f : annotations → exec CRE annotations) : Prop := ∀ c, f c = (s ← f ∅; Val (c ∪ s)).
Lemma adds_extend {A} (m : exec CRE (list A)) (g : A → TypeAnnotation) : adds (λ c, l ← m; Val (extend c (g <$> l))).
Proof. intros c. destruct m; cbn; [|done..]. f_equal. unfold extend. set_solver. Qed.
Lemma adds_nothing : adds (λ c, Val c).
Proof. intros c. cbn. f_equal. set_solver. Qed.
Lemma adds_insert t f : adds f → adds (λ c, x ← f c; Val ({[t]} ∪ x)).
Proof. intros Hf c. rewrite (Hf c). destruct (f ∅); cbn; [|done..]. f_equal. set_solver. Qed.
Lemma adds_insert_extend {A} t (m : exec CRE (list A)) (g : A → TypeAnnotation) :
  adds (λ c, l ← m; Val ({[t]} ∪ extend c (g <$> l))).
Proof. intros c. destruct m; cbn; [|done..]. f_equal. unfold extend. set_solver. Qed.
Lemma adds_fold (ok : Z → exec CRE bool) (mk : Z → TypeAnnotation) l :
  adds (fold_exec (λ c r, k ← ok r; Val (if (k : bool) then {[mk r]} ∪ c else c)) l).
Proof.
  induction l as [|r l IH]; intros c; cbn [fold_exec]; [apply adds_nothing|].
  destruct (ok r) as [k| |]; cbn [mbind exec_bind]; [|done..].
  rewrite (IH (if k then {[mk r]} ∪ c else c)), (IH (if k then {[mk r]} ∪ ∅ else ∅)).
  destruct (fold_exec _ l ∅); cbn [mbind exec_bind]; [|done..]. f_equal. destruct k; set_solver.
Qed.
Lemma adds_left b t : is_comparison b = false → adds (annotate_left_to_right_for_type is_write_stage b t).
Proof.
  destruct b as [| |k ? ?|[] ? ?|l r|l r|l|p r|l|r o]; intros Hb c; try done; cbn [annotate_left_to_right_for_type]; unfold isa_supertypes, sub_supertypes, relates_roles.
  - unfold owned_types. destruct (as_object t); [exact (adds_extend _ _ c)|exact (adds_nothing c)].
  - unfold owned_types. destruct (as_object t); [exact (adds_extend _ _ c)|exact (adds_nothing c)].
  - destruct (negb is_write_stage && bool_decide (k = IsaSubtype)); [|exact (adds_insert t _ adds_nothing c)].
    destruct t; [..|exact (adds_insert _ _ adds_nothing c)];
      (destruct (get_supertypes_transitive _ _); cbn; [|done..]; f_equal; unfold extend; set_solver).
  - destruct (get_supertype _ _) as [[j|]| |]; cbn; [|..|done|done]; f_equal; set_solver.
  - exact (adds_insert_extend _ _ _ c).
  - cbn. f_equal. set_solver.
  - unfold played_types. destruct (as_object t); [exact (adds_extend _ _ c)|exact (adds_nothing c)].
  - unfold played_types. destruct (as_object t); [exact (adds_extend _ _ c)|exact (adds_nothing c)].
  - unfold related_types. destruct t as [i|i|i|i]; [exact (adds_nothing c)| |exact (adds_nothing c)..].
    destruct (get_relates i); [|done..]. cbn [mbind exec_bind]. apply adds_fold.
  - destruct t as [i|i|i|i]; [exact (adds_nothing c)|exact (adds_extend _ _ c)|exact (adds_nothing c)..].
Qed.
Lemma adds_right b t : is_comparison b = false → adds (annotate_right_to_left_for_type is_write_stage b t).
Proof.
  destruct b as [| |k ? ?|[] ? ?|l r|l r|l|p r|l|r o]; intros Hb c; try done; cbn [annotate_right_to_left_for_type]; unfold isa_subtypes, sub_subtypes, relates_relations.
  - unfold owner_types. destruct t; [exact (adds_nothing c)..|exact (adds_extend _ _ c)|exact (adds_nothing c)].
  - unfold owner_types. destruct t; [exact (adds_nothing c)..|exact (adds_extend _ _ c)|exact (adds_nothing c)].
  - destruct (negb is_write_stage && bool_decide (k = IsaSubtype)); [|exact (adds_insert t _ adds_nothing c)].
    destruct t; [..|exact (adds_insert _ _ adds_nothing c)];
      (destruct (get_subtypes_transitive _ _); cbn; [|done..]; f_equal; unfold extend; set_solver).
  - exact (adds_extend _ _ c).
  - exact (adds_insert_extend _ _ _ c).
  - cbn. f_equal. set_solver.
  - unfold player_types. destruct t; [exact (adds_nothing c)..|exact (adds_extend _ _ c)].
  - unfold player_types. destruct t; [exact (adds_nothing c)..|exact (adds_extend _ _ c)].
  - unfold relating_types. destruct t as [i|i|i|i]; [exact (adds_nothing c)..|].
    destruct (get_relation_types_of_role i); [|done..]. cbn [mbind exec_bind]. apply adds_fold.
  - destruct t as [i|i|i|i]; [exact (adds_nothing c)..|exact (adds_extend _ _ c)].
Qed.
Lemma collect_partners_spec (partners : TypeAnnotation → annotations → exec CRE annotations) (P : TypeAnnotation → TypeAnnotation → Prop) types :
  (∀ t, adds (partners t)) → (∀ t, finds (partners t ∅) (P t)) →
  ∃ s, collect_partners partners types = Val s ∧ ∀ u, u ∈ s ↔ ∃ t, t ∈ types ∧ P t u.
Proof.
  intros Hadd Hfind. unfold collect_partners.
  assert (∀ l acc, ∃ s, fold_exec (λ acc t, partners t acc) l acc = Val s ∧ ∀ u, u ∈ s ↔ u ∈ acc ∨ ∃ t, t ∈ l ∧ P t u) as G.
  { induction l as [|t l IH]; intros acc; cbn [fold_exec].
    { exists acc. split; [done|]. intros u. split; [by left|]. intros [?|(t & Ht & _)]; [done|by apply not_elem_of_nil in Ht]. }
    rewrite (Hadd t acc). destruct (Hfind t) as (s0 & -> & Hs0). cbn [mbind exec_bind].
    destruct (IH (acc ∪ s0)) as (s & -> & Hs). exists s. split; [done|].
    intros u. rewrite Hs, elem_of_union, Hs0. setoid_rewrite elem_of_cons. split.
    - intros [[?|?]|(t' & ? & ?)]; [by left|right; by exists t; auto|right; by exists t'; auto].
    - intros [?|(t' & [->|?] & ?)]; [by left; left|by left; right|right; by exists t']. }
  destruct (G (elements types) ∅) as (s & -> & Hs). exists s. split; [done|]. intros u. rewrite Hs. setoid_rewrite elem_of_elements.
  split; [|by right]. intros [[]%elem_of_empty|?]. done.
Qed.
End collectors.

(** ** The recursive definitions, one step at a time *)
Section equations.
Context {CRE : Type} `{TM : TypeManager CRE}.
Context (fa : FunctionID → option AnnotatedFunctionSignature) (registry : VariableRegistry) (is_write_stage : bool).
Lemma propagate_with_eq vs c vs0 es ns :
  propagate_with is_write_stage vs (MkGraph c vs0 es ns) =
  ('(vs, m) ← propagate_own is_write_stage (constraints c) vs;
   '(ns, vs, m') ← traverse_state (reconcile_nested_disjunction is_write_stage) ns vs;
   Val (MkGraph c vs es ns, m || m')).
Proof. reflexivity. Qed.
Lemma reconcile_eq gs sv sva parent :
  reconcile_nested_disjunction is_write_stage (MkNested gs sv sva) parent =
  (r ← traverse (λ g, propagate_with is_write_stage (apply_shared sv parent (g_vertices g)) g) gs;
   let gs := List.map fst r in
   let sva := fold_left (update_shared gs) (elements sv) sva in
   let '(parent, m) := fold_left update_parent (map_to_list sva) (parent, existsb snd r) in
   Val (MkNested gs sv sva, parent, m)).
Proof. reflexivity. Qed.
Lemma seed_vertices_eq c vs es ns :
  seed_vertex_annotations_from_type_and_called_function_signatures fa is_write_stage (MkGraph c vs es ns) =
  (vs ← seed_own_vertices fa is_write_stage (constraints c) vs;
   ns ← traverse (nested_seed_vertex_annotations fa is_write_stage) ns;
   Val (MkGraph c vs es ns)).
Proof. reflexivity. Qed.
Lemma nested_seed_vertices_eq gs sv sva :
  nested_seed_vertex_annotations fa is_write_stage (MkNested gs sv sva) =
  (gs ← traverse (seed_vertex_annotations_from_type_and_called_function_signatures fa is_write_stage) gs; Val (MkNested gs sv sva)).
Proof. reflexivity. Qed.
Lemma annotate_some_eq c vs es ns :
  annotate_some_unannotated_vertex registry (MkGraph c vs es ns) =
  match List.find (unannotated registry vs) (flat_map ids (constraints c)) with
  | Some v =>
      s ← get_unbounded_type_annotations (default CType (get_variable_category v registry));
      Val (MkGraph c (<[VVariable v := s]> vs) es ns, true)
  | None =>
      r ← traverse (nested_annotate_some registry) ns;
      Val (MkGraph c vs es (List.map fst r), existsb snd r)
  end.
Proof. reflexivity. Qed.
Lemma nested_annotate_some_eq gs sv sva :
  nested_annotate_some registry (MkNested gs sv sva) =
  (r ← traverse (annotate_some_unannotated_vertex registry) gs; Val (MkNested (List.map fst r) sv sva, existsb snd r)).
Proof. reflexivity. Qed.
Lemma prune_abstract_eq c vs es ns :
  prune_abstract_types_from_thing_vertex_annotations_recursive registry (MkGraph c vs es ns) =
  (vs ← fold_exec (prune_abstract_at registry) (map_to_list vs) vs;
   ns ← traverse (nested_prune_abstract registry) ns;
   Val (MkGraph c vs es ns)).
Proof. reflexivity. Qed.
Lemma nested_prune_abstract_eq gs sv sva :
  nested_prune_abstract registry (MkNested gs sv sva) =
  (gs ← traverse (prune_abstract_types_from_thing_vertex_annotations_recursive registry) gs; Val (MkNested gs sv sva)).
Proof. reflexivity. Qed.
Lemma seed_edges_eq c vs es ns :
  seed_edges is_write_stage (MkGraph c vs es ns) =
  (es ← fold_exec (seed_constraint is_write_stage vs) (constraints c) es;
   ns ← traverse (nested_seed_edges is_write_stage) ns;
   Val (MkGraph c vs es ns)).
Proof. reflexivity. Qed.
Lemma nested_seed_edges_eq gs sv sva :
  nested_seed_edges is_write_stage (MkNested gs sv sva) =
  (gs ← traverse (seed_edges is_write_stage) gs; Val (MkNested gs sv sva)).
Proof. reflexivity. Qed.
End equations.

Section soundness.
Context {CRE : Type} `{TM : TypeManager CRE} `{!TypeManagerLaws CRE} `{!TypeManagerReads CRE}.
Context (fa : FunctionID → option AnnotatedFunctionSignature) (registry : VariableRegistry) (is_write_stage : bool).
Context (σ : Vertex → TypeAnnotation).
Abbreviation ctyped := (constraint_typed fa registry is_write_stage σ).
Abbreviation typ := (typed fa registry is_write_stage σ).
Abbreviation cov := (covers fa registry is_write_stage σ).
Abbreviation conc := (concrete (CRE:=CRE) registry σ).

(** ** Phase 1: constraints on one vertex *)
Lemma all_types_sat k s t : all_types (CRE:=CRE) k = Val s → has_kind k t → t ∈ s.
Proof.
  unfold all_types. rewrite bind_val. setoid_rewrite map_err_val. intros (l & El & [= <-]) (i & l' & -> & El' & Hi).
  rewrite El in El'. injection El' as <-. apply elem_of_list_to_set, list_elem_of_fmap. eauto.
Qed.
Lemma role_name_types_sat roles s t :
  role_name_types (CRE:=CRE) is_write_stage roles = Val s →
  (∃ r, r ∈ roles ∧ (t = TRoleType r ∨ (is_write_stage = false ∧ ∃ i l, t = TRoleType i ∧ get_subtypes_transitive KRole r = Val l ∧ i ∈ l))) →
  t ∈ s.
Proof.
  unfold role_name_types. intros Hf (r & Hr & Ht).
  assert (∀ l (acc s : annotations), fold_exec (λ acc r,
      let acc := {[TRoleType r]} ∪ acc in
      if is_write_stage then Val acc
      else subs ← map_err ConceptRead (get_subtypes_transitive KRole r); Val (acc ∪ list_to_set (TRoleType <$> subs))) l acc = Val (E:=TypeInferenceError CRE) s →
      acc ⊆ s ∧ (r ∈ l → t ∈ s)) as G.
  { induction l as [|x l IH]; intros acc s0; cbn [fold_exec].
    { intros [= <-]. split; [done|]. by intros []%not_elem_of_nil. }
    intros (acc1 & E1 & E2)%bind_val. destruct (IH _ _ E2) as [Hsub Hin].
    assert (acc ⊆ acc1 ∧ (r = x → t ∈ acc1)) as [H1 H2].
    { destruct is_write_stage.
      - injection E1 as <-. split; [set_solver|]. intros <-. destruct Ht as [->|[? _]]; [set_solver|done].
      - apply bind_val in E1 as (subs & Es%map_err_val & [= <-]). split; [set_solver|]. intros <-.
        destruct Ht as [->|(_ & i & l' & -> & El' & Hi)]; [set_solver|]. rewrite Es in El'. injection El' as <-.
        apply elem_of_union_r, elem_of_list_to_set, list_elem_of_fmap. eauto. }
    split; [by etrans|]. rewrite elem_of_cons. intros [->|?]; [by apply Hsub, H2|auto]. }
  by apply (G _ _ _ Hf).
Qed.
Lemma value_types_sat v l s i :
  value_types (CRE:=CRE) v l = Val s → i ∈ l → get_value_type_without_source i = Val (Some v) → TAttribute i ∈ s.
Proof.
  unfold value_types. intros Hf Hi Hv.
  assert (∀ l (acc s : annotations), fold_exec (λ acc a,
      o ← map_err ConceptRead (get_value_type_without_source a);
      Val (match o with Some w => if bool_decide (v = w) then {[TAttribute a]} ∪ acc else acc | None => acc end)) l acc
      = Val (E:=TypeInferenceError CRE) s → acc ⊆ s ∧ (i ∈ l → TAttribute i ∈ s)) as G.
  { clear Hf. induction l0 as [|x l0 IH]; intros acc s0; cbn [fold_exec].
    { intros [= <-]. split; [done|]. by intros []%not_elem_of_nil. }
    intros (acc1 & E1 & E2)%bind_val. destruct (IH _ _ E2) as [Hsub Hin].
    apply bind_val in E1 as (o & Eo%map_err_val & [= <-]).
    assert (acc ⊆ match o with Some w => if bool_decide (v = w) then {[TAttribute x]} ∪ acc else acc | None => acc end) as H1.
    { destruct o as [w|]; [case_bool_decide; set_solver|done]. }
    split; [by etrans|]. rewrite elem_of_cons. intros [<-|?]; [|auto].
    apply Hsub. rewrite Hv in Eo. injection Eo as <-. rewrite bool_decide_eq_true_2 by done. set_solver. }
  by apply (G _ _ _ Hf).
Qed.
Lemma apply_parameters_sat vs params ann :
  vertices_sat σ ann → fits_parameters σ vs params → vertices_sat σ (apply_parameters vs params ann).
Proof.
  revert params ann. induction vs as [|v vs IH]; intros [|p params] ann Hann Hfit; [done..|]. cbn [apply_parameters].
  apply IH.
  - destruct p as [s|]; [|done]. apply intersect_at_sat; [done|]. apply (Hfit v (ParamConcept s)). apply list_elem_of_here.
  - intros x q Hin. apply Hfit. by apply list_elem_of_further.
Qed.
Lemma apply_constraint_sat c vs vs' :
  ctyped c → vertices_sat σ vs → apply_constraint fa is_write_stage vs c = Val vs' → vertices_sat σ vs'.
Proof.
  intros (_ & Hun & _) Hvs.
  destruct c as [|k t|t lab|t nm| | | | | | | |asg f args str| | | | |a vt| |]; cbn [apply_constraint]; unfold apply_label; try (by intros [= <-]); try done.
  - intros (s & Es & [= <-])%bind_val. apply intersect_at_sat; [done|]. by eapply all_types_sat.
  - destruct (vs !! lab) as [a|] eqn:Ea; [|done]. intros [= <-]. apply intersect_at_sat; [done|].
    cbn in Hun. rewrite Hun. by apply Hvs.
  - intros (o & Eo%map_err_val & Hm)%bind_val. destruct o as [roles|]; [|done].
    apply bind_val in Hm as (s & Es & [= <-]). apply intersect_at_sat; [done|].
    destruct Hun as (roles' & r & Er & Hr & Ht). rewrite Eo in Er. injection Er as <-. eapply role_name_types_sat; eauto.
  - intros [= <-]. destruct (fa f) as [sig|] eqn:Ef; [|done]. destruct (Hun sig Ef) as [H1 H2].
    by apply apply_parameters_sat; [apply apply_parameters_sat|].
  - intros (v & Ev & Hm)%bind_val. apply bind_val in Hm as (l & El%map_err_val & Hm). apply bind_val in Hm as (s & Es & [= <-]).
    destruct Hun as (i & l' & w & Ht & El' & Hi & Hw & Ew). rewrite El in El'. injection El' as <-. rewrite Ev in Ew. injection Ew as <-.
    apply intersect_at_sat; [done|]. rewrite Ht. by eapply value_types_sat.
Qed.
Lemma annotate_fixed_vertex_sat v vs vs' :
  vertex_typed registry σ v → vertices_sat σ vs → annotate_fixed_vertex vs v = Val vs' → vertices_sat σ vs'.
Proof.
  intros Hv Hvs. destruct v as [x|l|p]; cbn [annotate_fixed_vertex]; [done| |by intros [= <-]].
  destruct (vs !! VLabel l); [by intros [= <-]|]. intros (o & Eo%map_err_val & Hm)%bind_val. cbn in Hv. rewrite Hv in Eo.
  injection Eo as <-. injection Hm as <-. apply vertices_sat_insert; [done|]. by apply elem_of_singleton.
Qed.
Lemma seed_own_vertices_sat cs vs vs' :
  Forall ctyped cs → vertices_sat σ vs → seed_own_vertices fa is_write_stage cs vs = Val vs' → vertices_sat σ vs'.
Proof.
  intros Hcs Hvs (vs1 & E1 & E2)%bind_val. rewrite Forall_forall in Hcs.
  eapply (fold_exec_inv _ (vertices_sat σ)); [exact E2| |].
  - eapply (fold_exec_inv _ (vertices_sat σ)); [exact E1|done|]. intros s v s' Hv Hs. apply annotate_fixed_vertex_sat; [|done].
    unfold fixed_vertices in Hv. apply list_elem_of_In, in_flat_map in Hv as (c & Hc & Hv).
    apply filter_In in Hv as [Hv _]. apply list_elem_of_In in Hc. destruct (Hcs c Hc) as (_ & _ & Hvt).
    rewrite Forall_app, Forall_forall in Hvt. by apply Hvt, list_elem_of_In.
  - intros s c s' Hc Hs. apply apply_constraint_sat; auto.
Qed.

(** ** Phase 2: propagation

    [U] is a set of vertices that contains those of the pattern; every change
    the propagation reports annotates one more of them. *)
Context (U : gset Vertex).
Definition missing_vertices (vs : VertexAnnotations) : nat := size (U ∖ dom vs).
Fixpoint missing (g : TypeInferenceGraph) : nat :=
  match g with MkGraph _ vs _ ns => (missing_vertices vs + sum_list (List.map nested_missing ns))%nat end
with nested_missing (n : NestedTypeInferenceGraphDisjunction) : nat :=
  match n with MkNested gs _ _ => sum_list (List.map missing gs) end.

Record grows (vs vs' : VertexAnnotations) (f : bool) : Prop := {
  gr_dom : dom vs ⊆ dom vs';
  gr_bound : dom vs' ⊆ dom vs ∪ U;
  gr_less : f = true → (missing_vertices vs' < missing_vertices vs)%nat;
}.
Lemma grows_le vs vs' f : grows vs vs' f → (missing_vertices vs' ≤ missing_vertices vs)%nat.
Proof. intros [Hd _ _]. unfold missing_vertices. apply subseteq_size. set_solver. Qed.
Lemma grows_refl vs : grows vs vs false.
Proof. split; [done|set_solver|done]. Qed.
Lemma grows_seq vs1 vs2 vs3 f1 f2 : grows vs1 vs2 f1 → grows vs2 vs3 f2 → grows vs1 vs3 (f1 || f2).
Proof.
  intros H1 H2. pose proof (grows_le _ _ _ H1). pose proof (grows_le _ _ _ H2). destruct H1 as [D1 B1 L1], H2 as [D2 B2 L2].
  split; [by etrans|set_solver|]. intros [->| ->]%orb_true_iff; [specialize (L1 eq_refl)|specialize (L2 eq_refl)]; lia.
Qed.
Lemma grows_insert vs v s : v ∈ U → vs !! v = None → grows vs (<[v := s]> vs) true.
Proof.
  intros Hv Hn. split; [rewrite dom_insert; set_solver..|]. intros _. unfold missing_vertices. apply subset_size.
  rewrite dom_insert. apply not_elem_of_dom in Hn. set_solver.
Qed.
Lemma intersect_at_grows vs v s : v ∈ U → grows vs (intersect_at v s vs) false.
Proof.
  intros Hv. split; [| |done]; unfold intersect_at, add_or_intersect; destruct (vs !! v); cbn [fst]; rewrite dom_insert; set_solver.
Qed.

Definition before_optimisation (c : Constraint) : bool :=
  match c with IndexedRelation _ _ _ _ _ | Unsatisfiable => false | _ => true end.
(** Parameters occur in comparisons and in [iid] constraints only. *)
Definition takes_parameters (c : Constraint) : bool := match c with Comparison _ _ _ | Iid _ _ => true | _ => false end.
Definition constraint_in (c : Constraint) : Prop :=
  before_optimisation c = true ∧ Forall (λ v, v ∈ U ∨ (is_parameter v = true ∧ takes_parameters c = true)) (vertices c) ∧
  Forall (λ v, VVariable v ∈ U) (ids c).
Lemma constraint_in_vertices c v : constraint_in c → takes_parameters c = false → v ∈ vertices c → v ∈ U.
Proof. intros (_ & Hv & _) Hp Hin. rewrite Forall_forall in Hv. destruct (Hv v Hin) as [?|[_ ?]]; congruence. Qed.
Inductive in_universe : TypeInferenceGraph → Prop :=
| in_universe_intro c vs es ns :
    Forall constraint_in (constraints c) →
    Forall (λ n, let '(MkNested _ sv sva) := n in (∀ v, v ∈ sv → VVariable v ∈ U) ∧ dom sva ⊆ U) ns →
    Forall (λ n, Forall in_universe (disjunction n)) ns → in_universe (MkGraph c vs es ns).

Definition binary_sound (b : BinaryConstraint) (vs vs' : VertexAnnotations) : Prop :=
  related is_write_stage b (σ (left b)) (σ (right b)) → vertices_sat σ vs → vertices_sat σ vs'.
Lemma propagate_binary_spec b vs :
  is_comparison b = false → left b ∈ U → right b ∈ U →
  ∃ vs' f, try_propagating_vertex_annotation_impl is_write_stage b vs = Val (vs', f) ∧ grows vs vs' f ∧ binary_sound b vs vs'.
Proof.
  intros Hb Hl Hr. unfold try_propagating_vertex_annotation_impl.
  destruct (vs !! left b) as [ls|] eqn:El, (vs !! right b) as [rs|] eqn:Er;
    try (exists vs, false; split_and!; [done|apply grows_refl|by intros ? ?]).
  - destruct (collect_partners_spec (annotate_left_to_right_for_type is_write_stage b) (related is_write_stage b) ls) as (s & -> & Hs).
    { intros t. by apply adds_left. } { intros t. by apply left_finds. }
    cbn [mbind exec_bind]. eexists _, _. split_and!; [reflexivity|by apply grows_insert|].
    intros Hrel Hvs. apply vertices_sat_insert; [done|]. apply Hs. exists (σ (left b)). split; [by apply Hvs|done].
  - destruct (collect_partners_spec (annotate_right_to_left_for_type is_write_stage b) (λ u t, related is_write_stage b t u) rs) as (s & -> & Hs).
    { intros t. by apply adds_right. } { intros t. by apply right_finds. }
    cbn [mbind exec_bind]. eexists _, _. split_and!; [reflexivity|by apply grows_insert|].
    intros Hrel Hvs. apply vertices_sat_insert; [done|]. apply Hs. exists (σ (right b)). split; [by apply Hvs|done].
Qed.
Lemma propagate_constraint_spec c vs :
  constraint_in c →
  ∃ vs' f, try_propagating_vertex_annotation is_write_stage c vs = Val (vs', f) ∧ grows vs vs' f ∧
    (ctyped c → vertices_sat σ vs → vertices_sat σ vs').
Proof.
  intros Hc. pose proof (proj1 Hc) as Hp. pose proof (λ v, constraint_in_vertices c v Hc) as Hv.
  assert (∀ b, binary_constraints c = [b] → is_comparison b = false → left b ∈ U → right b ∈ U →
    try_propagating_vertex_annotation is_write_stage c vs = try_propagating_vertex_annotation_impl is_write_stage b vs →
    ∃ vs' f, try_propagating_vertex_annotation is_write_stage c vs = Val (vs', f) ∧ grows vs vs' f ∧
    (ctyped c → vertices_sat σ vs → vertices_sat σ vs')) as One.
  { intros b Hbs Hb Hl Hr ->. destruct (propagate_binary_spec b vs Hb Hl Hr) as (vs' & f & E & Hg & Hs).
    exists vs', f. split_and!; [done|done|]. intros (Hbc & _) Hvs. rewrite Hbs, Forall_singleton in Hbc. auto. }
  destruct c as [l r| | | |k l r|k l r| |[r p t]| |l r| | |l r k|l r|l r|l r| | |];
    try done; try (by exists vs, false; split_and!; [done|apply grows_refl|]);
    try (by eapply One; [reflexivity|done|apply Hv; [done|cbn; set_solver]..|done]).
  cbn [try_propagating_vertex_annotation].
  destruct (propagate_binary_spec (BRelationRole {| links_relation := r; links_player := p; links_role_type := t |}) vs)
    as (vs1 & f1 & -> & Hg1 & Hs1); [done|apply Hv; [done|cbn; set_solver]..|]. cbn [mbind exec_bind]. destruct f1.
  - exists vs1, true. split_and!; [done|done|]. intros (Hbc & _) Hvs. cbn in Hbc. apply Forall_cons in Hbc as [? _]. auto.
  - destruct (propagate_binary_spec (BPlayerRole {| links_relation := r; links_player := p; links_role_type := t |}) vs1)
      as (vs2 & f2 & -> & Hg2 & Hs2); [done|apply Hv; [done|cbn; set_solver]..|].
    exists vs2, f2. split_and!; [done|by apply (grows_seq _ _ _ _ _ Hg1 Hg2)|]. intros (Hbc & _) Hvs.
    cbn in Hbc. rewrite Forall_cons, Forall_singleton in Hbc. destruct Hbc. auto.
Qed.
Lemma propagate_own_spec cs vs :
  Forall constraint_in cs →
  ∃ vs' f, propagate_own is_write_stage cs vs = Val (vs', f) ∧ grows vs vs' f ∧
    (Forall ctyped cs → vertices_sat σ vs → vertices_sat σ vs').
Proof.
  intros Hcs. unfold propagate_own. set (l := List.filter is_isa cs ++ _).
  assert (∀ c, c ∈ l ↔ c ∈ cs) as Hl.
  { intros c. unfold l. rewrite elem_of_app, !list_elem_of_In, !filter_In. destruct (is_isa c); naive_solver. }
  rewrite Forall_forall in Hcs. assert (∀ c, c ∈ l → constraint_in c) as Hin by (intros c ?%Hl; auto).
  assert (∀ l vs f0, (∀ c, c ∈ l → constraint_in c) → ∃ vs' f,
    fold_exec (propagate_constraint is_write_stage) l (vs, f0) = Val (vs', f0 || f) ∧ grows vs vs' f ∧
    ((∀ c, c ∈ l → ctyped c) → vertices_sat σ vs → vertices_sat σ vs')) as G.
  { clear cs vs Hcs l Hl Hin. induction l as [|c l IH]; intros vs f0 Hl.
    { exists vs, false. split_and!; [by rewrite orb_false_r|apply grows_refl|done]. }
    cbn [fold_exec]. destruct (propagate_constraint_spec c vs (Hl c (list_elem_of_here _ _))) as (vs1 & f1 & E1 & Hg1 & Hs1).
    assert (propagate_constraint is_write_stage (vs, f0) c = Val (vs1, f0 || f1)) as ->.
    { unfold propagate_constraint. cbn [fst snd]. by rewrite E1. }
    cbn [mbind exec_bind].
    destruct (IH vs1 (f0 || f1)) as (vs2 & f2 & -> & Hg2 & Hs2). { intros x Hx. by apply Hl, list_elem_of_further. }
    exists vs2, (f1 || f2). split_and!; [by rewrite orb_assoc|by eapply grows_seq|].
    intros Ht Hvs. apply Hs2; [intros x Hx; by apply Ht, list_elem_of_further|]. apply Hs1; [apply Ht, list_elem_of_here|done]. }
  destruct (G l vs false Hin) as (vs' & f & -> & Hg & Hs). exists vs', f. split_and!; [done|done|].
  rewrite Forall_forall. intros Ht. apply Hs. intros c ?%Hl. auto.
Qed.

Definition nested_cov (n : NestedTypeInferenceGraphDisjunction) : Prop :=
  vertices_sat σ (shared_annotations n) ∧ Exists (λ g, typ (g_conjunction g)) (disjunction n) ∧
  Forall (λ g, typ (g_conjunction g) → cov g) (disjunction n).
Lemma covers_iff c vs es ns : cov (MkGraph c vs es ns) ↔ vertices_sat σ vs ∧ Forall nested_cov ns.
Proof.
  unfold nested_cov. rewrite !Forall_and. split.
  - intros Hc. inversion Hc; subst. done.
  - intros (? & ? & ? & ?). by constructor.
Qed.
Definition nested_in (n : NestedTypeInferenceGraphDisjunction) : Prop :=
  (let '(MkNested _ sv sva) := n in (∀ v, v ∈ sv → VVariable v ∈ U) ∧ dom sva ⊆ U) ∧ Forall in_universe (disjunction n).
Lemma in_universe_iff c vs es ns :
  in_universe (MkGraph c vs es ns) ↔ Forall constraint_in (constraints c) ∧ Forall nested_in ns.
Proof.
  unfold nested_in. rewrite Forall_and. split.
  - intros Hg. inversion Hg; subst. done.
  - intros (? & ? & ?). by constructor.
Qed.

(** A property of the vertices of a graph and of all its branches; those that
    annotating more vertices of [U] keeps. *)
Definition graph_property := Conjunction → VertexAnnotations → list TypeInferenceEdge → Prop.
Inductive everywhere (P : graph_property) : TypeInferenceGraph → Prop :=
| everywhere_intro c vs es ns :
    P c vs es → Forall (λ n, Forall (everywhere P) (disjunction n)) ns → everywhere P (MkGraph c vs es ns).
Definition nested_everywhere (P : graph_property) (n : NestedTypeInferenceGraphDisjunction) : Prop :=
  Forall (everywhere P) (disjunction n).
Lemma everywhere_iff P c vs es ns : everywhere P (MkGraph c vs es ns) ↔ P c vs es ∧ Forall (nested_everywhere P) ns.
Proof. split; [intros Hg; by inversion Hg|intros []; by constructor]. Qed.
Definition mono (P : graph_property) : Prop :=
  ∀ c vs vs' es, dom vs ⊆ dom vs' → dom vs' ⊆ dom vs ∪ U → P c vs es → P c vs' es.
Lemma mono_grows P c vs vs' es f : mono P → grows vs vs' f → P c vs es → P c vs' es.
Proof. intros Hm [Hd Hb _]. by apply Hm. Qed.

Record prop_step (g g' : TypeInferenceGraph) (f : bool) : Prop := {
  ps_conjunction : g_conjunction g' = g_conjunction g;
  ps_universe : in_universe g';
  ps_le : (missing g' ≤ missing g)%nat;
  ps_less : f = true → (missing g' < missing g)%nat;
  ps_everywhere : ∀ P, mono P → everywhere P g → everywhere P g';
  ps_covers : typ (g_conjunction g) → cov g → cov g';
}.

Lemma apply_shared_spec (sv : gset Var) parent vs :
  (∀ v, v ∈ sv → VVariable v ∈ U) →
  grows vs (apply_shared sv parent vs) false ∧ (vertices_sat σ parent → vertices_sat σ vs → vertices_sat σ (apply_shared sv parent vs)).
Proof.
  intros Hsv. unfold apply_shared. split.
  - assert (∀ v, v ∈ elements sv → VVariable v ∈ U) as Hl by (intros v ?%elem_of_elements; auto).
    revert vs. induction (elements sv) as [|v l IH]; intros vs; [apply grows_refl|].
    cbn [fold_left]. apply (grows_seq _ (apply_parent parent vs v) _ false false).
    + unfold apply_parent. destruct (parent !! VVariable v); [apply intersect_at_grows, Hl, list_elem_of_here|apply grows_refl].
    + apply IH. intros x Hx. by apply Hl, list_elem_of_further.
  - intros Hp Hvs. apply vertices_sat_fold; [done|]. intros vs' v _ Hvs'. unfold apply_parent.
    destruct (parent !! VVariable v) as [s|] eqn:Es; [|done]. apply intersect_at_sat; [done|by apply Hp].
Qed.
Lemma set_vertices_missing vs g :
  grows (g_vertices g) vs false → (missing (set_vertices vs g) ≤ missing g)%nat.
Proof. intros Hg%grows_le. destruct g. cbn in *. lia. Qed.
Lemma set_vertices_cov vs g : cov g → vertices_sat σ vs → cov (set_vertices vs g).
Proof. destruct g as [c vs0 es ns]. cbn. rewrite !covers_iff. tauto. Qed.

Lemma union_sat gs v s :
  Exists (λ g, typ (g_conjunction g)) gs → Forall (λ g, typ (g_conjunction g) → cov g) gs →
  try_union_annotations_across_all_branches gs v = Some s → σ v ∈ s.
Proof.
  unfold try_union_annotations_across_all_branches. intros Hex Hall. destruct (forallb _ gs) eqn:Ef; [|done]. intros [= <-].
  apply Exists_exists in Hex as (g & Hg & Ht). rewrite Forall_forall in Hall. specialize (Hall g Hg Ht).
  rewrite forallb_forall in Ef. specialize (Ef g (proj1 (list_elem_of_In _ _) Hg)). apply bool_decide_eq_true in Ef as [ts Ets].
  apply elem_of_union_list. exists ts. split.
  - apply list_elem_of_In, in_map_iff. exists g. rewrite Ets. split; [done|by apply list_elem_of_In].
  - destruct g as [c vs es ns]. apply covers_iff in Hall as [Hvs _]. by apply Hvs.
Qed.
Lemma update_shared_spec gs (l : list Var) sva :
  (∀ v, v ∈ l → VVariable v ∈ U) → dom sva ⊆ U →
  dom (fold_left (update_shared gs) l sva) ⊆ U ∧
  (Exists (λ g, typ (g_conjunction g)) gs → Forall (λ g, typ (g_conjunction g) → cov g) gs →
   vertices_sat σ sva → vertices_sat σ (fold_left (update_shared gs) l sva)).
Proof.
  intros Hl Hd. split.
  - revert sva Hd. induction l as [|v l IH]; intros sva Hd; [done|]. cbn [fold_left]. apply IH.
    { intros x Hx. by apply Hl, list_elem_of_further. }
    unfold update_shared. destruct (sva !! VVariable v); [done|]. destruct (try_union_annotations_across_all_branches _ _); [|done].
    rewrite dom_insert. pose proof (Hl v (list_elem_of_here _ _)). set_solver.
  - intros Hex Hall Hsva. apply vertices_sat_fold; [done|]. intros vs v _ Hvs. unfold update_shared.
    destruct (vs !! VVariable v); [done|]. destruct (try_union_annotations_across_all_branches _ _) eqn:Eu; [|done].
    apply vertices_sat_insert; [done|]. by eapply union_sat.
Qed.
Lemma update_parent_spec (l : list (Vertex * annotations)) parent f0 :
  (∀ v s, (v, s) ∈ l → v ∈ U) →
  ∃ parent' f, fold_left update_parent l (parent, f0) = (parent', f0 || f) ∧ grows parent parent' f ∧
    ((∀ v s, (v, s) ∈ l → σ v ∈ s) → vertices_sat σ parent → vertices_sat σ parent').
Proof.
  revert parent f0. induction l as [|[v s] l IH]; intros parent f0 Hl.
  { exists parent, false. split_and!; [by rewrite orb_false_r|apply grows_refl|done]. }
  cbn [fold_left]. unfold update_parent at 2. cbn [fst snd].
  assert (∀ v s, (v, s) ∈ l → v ∈ U) as Hl' by (intros x y Hx; by eapply Hl, list_elem_of_further).
  destruct (parent !! v) as [e|] eqn:Ee.
  - destruct (IH parent f0 Hl') as (p' & f & -> & Hg & Hs). exists p', f. split_and!; [done|done|].
    intros Ht. apply Hs. intros x y Hx. by apply Ht, list_elem_of_further.
  - destruct (IH (<[v := s]> parent) true Hl') as (p' & f & -> & Hg & Hs). exists p', true.
    split_and!; [by rewrite orb_true_r| |].
    + apply (grows_seq _ (<[v := s]> parent) _ true f); [|done]. apply grows_insert; [|done]. by eapply Hl, list_elem_of_here.
    + intros Ht Hp. apply Hs; [intros x y Hx; by apply Ht, list_elem_of_further|].
      apply vertices_sat_insert; [done|]. apply Ht, list_elem_of_here.
Qed.

(** A step on the disjunctions of a graph together with its vertices. *)
Record nested_step (ns ns' : list NestedTypeInferenceGraphDisjunction) (vs vs' : VertexAnnotations) (f : bool) : Prop := {
  ns_universe : Forall nested_in ns';
  ns_dom : dom vs ⊆ dom vs';
  ns_bound : dom vs' ⊆ dom vs ∪ U;
  ns_le : (missing_vertices vs' + sum_list (List.map nested_missing ns') ≤ missing_vertices vs + sum_list (List.map nested_missing ns))%nat;
  ns_less : f = true →
    (missing_vertices vs' + sum_list (List.map nested_missing ns') < missing_vertices vs + sum_list (List.map nested_missing ns))%nat;
  ns_everywhere : ∀ P, mono P → Forall (nested_everywhere P) ns → Forall (nested_everywhere P) ns';
  ns_covers : vertices_sat σ vs → Forall nested_cov ns → vertices_sat σ vs' ∧ Forall nested_cov ns';
}.

Lemma branches_step (pre : TypeInferenceGraph → TypeInferenceGraph) gs (r : list (TypeInferenceGraph * bool)) :
  Forall (λ g, g_conjunction (pre g) = g_conjunction g ∧ (missing (pre g) ≤ missing g)%nat) gs →
  Forall2 (λ g gf, prop_step (pre g) gf.1 gf.2) gs r →
  Forall in_universe (List.map fst r) ∧
  (∀ P, mono P → Forall (λ g, everywhere P (pre g)) gs → Forall (everywhere P) (List.map fst r)) ∧
  (sum_list (List.map missing (List.map fst r)) ≤ sum_list (List.map missing gs))%nat ∧
  (existsb snd r = true → (sum_list (List.map missing (List.map fst r)) < sum_list (List.map missing gs))%nat) ∧
  (Exists (λ g, typ (g_conjunction g)) gs → Exists (λ g, typ (g_conjunction g)) (List.map fst r)) ∧
  (Forall (λ g, typ (g_conjunction g) → cov (pre g)) gs → Forall (λ g, typ (g_conjunction g) → cov g) (List.map fst r)).
Proof.
  intros Hpre Hr. induction Hr as [|g [g' f] gs r Hp _ IH]; cbn [List.map existsb fst snd].
  { split_and!; [by constructor|done|done|done|by intros ?%Exists_nil|done]. }
  apply Forall_cons in Hpre as [[Hc Hm] Hpre]. destruct (IH Hpre) as (I1 & I6 & I2 & I3 & I4 & I5). cbn [fst snd] in Hp.
  destruct Hp as [Pc Pu Pl Ps Pe Pv]. rewrite Hc in *. split_and!.
  - by constructor.
  - intros P HP [? ?]%Forall_cons. constructor; auto.
  - rewrite !sum_list_step. lia.
  - rewrite !sum_list_step. intros [->|Hx]%orb_true_iff; [specialize (Ps eq_refl)|specialize (I3 Hx)]; lia.
  - rewrite !Exists_cons, Pc. tauto.
  - rewrite !Forall_cons, Pc. tauto.
Qed.

Lemma reconcile_spec n parent :
  Forall (λ g, ∀ vs, in_universe g → ∃ gf, propagate_with is_write_stage vs g = Val gf ∧ prop_step (set_vertices vs g) gf.1 gf.2) (disjunction n) →
  nested_in n →
  ∃ n' parent' f, reconcile_nested_disjunction is_write_stage n parent = Val (n', parent', f) ∧ nested_step [n] [n'] parent parent' f.
Proof.
  destruct n as [gs sv sva]. intros Hih [[Hsv Hsva] Hgs]. cbn [disjunction] in *. rewrite reconcile_eq.
  set (pre := λ g, set_vertices (apply_shared sv parent (g_vertices g)) g).
  destruct (traverse_spec (λ g, propagate_with is_write_stage (apply_shared sv parent (g_vertices g)) g)
    (λ g gf, prop_step (pre g) gf.1 gf.2) gs) as (r & -> & Hr).
  { rewrite Forall_forall in Hih, Hgs |- *. intros g Hg. by apply Hih, Hgs. }
  cbn [mbind exec_bind].
  destruct (branches_step pre gs r) as (B1 & B6 & B2 & B3 & B4 & B5); [|done|].
  { rewrite Forall_forall. intros g _. split; [by destruct g|]. by apply set_vertices_missing, apply_shared_spec. }
  set (gs' := List.map fst r) in *. set (sva' := fold_left (update_shared gs') (elements sv) sva).
  destruct (update_shared_spec gs' (elements sv) sva) as [Hd' Hs']. { intros v Hv. by apply Hsv, elem_of_elements. } { done. }
  fold sva' in Hd', Hs'.
  destruct (update_parent_spec (map_to_list sva') parent (existsb snd r)) as (parent' & f & Ep & Hg & Hps).
  { intros v s Hin%elem_of_map_to_list. apply Hd', elem_of_dom. eauto. }
  rewrite Ep. eexists _, _, _. split; [reflexivity|]. pose proof (grows_le _ _ _ Hg) as Hle. split.
  - constructor; [|done]. split; [by split|done].
  - apply Hg.
  - apply Hg.
  - cbn [List.map nested_missing]. rewrite !sum_list_step. lia.
  - cbn [List.map nested_missing]. rewrite !sum_list_step.
    intros [Hx| ->]%orb_true_iff; [specialize (B3 Hx)|pose proof (gr_less _ _ _ Hg eq_refl)]; lia.
  - intros P HP. rewrite !Forall_singleton. intros He. apply B6; [done|]. eapply Forall_impl; [exact He|].
    intros [c vs es ns]. unfold pre. cbn [set_vertices g_vertices]. rewrite !everywhere_iff. intros [? ?]. split; [|done].
    eapply mono_grows; [done| |done]. by apply apply_shared_spec.
  - intros Hpar. rewrite !Forall_singleton. intros (Csva & Cex & Call). cbn [shared_annotations disjunction] in *.
    assert (Forall (λ g, typ (g_conjunction g) → cov g) gs') as Call'.
    { apply B5. eapply Forall_impl; [exact Call|]. intros g Hc Ht. unfold pre. specialize (Hc Ht).
      apply set_vertices_cov; [done|]. apply apply_shared_spec; [done..|]. destruct g. by apply covers_iff in Hc as [? _]. }
    specialize (B4 Cex). specialize (Hs' B4 Call' Csva). split.
    + apply Hps; [|done]. intros v s Hin%elem_of_map_to_list. by apply Hs'.
    + by split.
Qed.
Lemma reconcile_list_spec ns vs :
  Forall (λ n, Forall (λ g, ∀ vs, in_universe g → ∃ gf, propagate_with is_write_stage vs g = Val gf ∧ prop_step (set_vertices vs g) gf.1 gf.2) (disjunction n)) ns →
  Forall nested_in ns →
  ∃ ns' vs' f, traverse_state (reconcile_nested_disjunction is_write_stage) ns vs = Val (ns', vs', f) ∧ nested_step ns ns' vs vs' f.
Proof.
  intros Hih. revert vs. induction Hih as [|n ns Hn _ IH]; intros vs Hin.
  { exists [], vs, false. split; [done|]. split; try done. set_solver. }
  apply Forall_cons in Hin as [Hin1 Hin]. cbn [traverse_state].
  destruct (reconcile_spec n vs Hn Hin1) as (n' & vs1 & f1 & -> & [U1 D1 K1 L1 S1 E1 C1]). cbn [mbind exec_bind].
  destruct (IH vs1 Hin) as (ns' & vs2 & f2 & -> & [U2 D2 K2 L2 S2 E2 C2]). cbn [mbind exec_bind].
  eexists _, _, _. split; [reflexivity|]. cbn [List.map] in *. rewrite !sum_list_step in *. rewrite Forall_singleton in U1. split.
  - by constructor.
  - by etrans.
  - set_solver.
  - cbn [List.map]. rewrite !sum_list_step. cbn [sum_list sum_list_with] in *. lia.
  - cbn [List.map]. rewrite !sum_list_step.
    intros [->| ->]%orb_true_iff; [specialize (S1 eq_refl)|specialize (S2 eq_refl)]; cbn in *; lia.
  - intros P HP [H1 H2]%Forall_cons. constructor; [|by apply E2].
    specialize (E1 P HP). rewrite !Forall_singleton in E1. auto.
  - intros Hvs [Hc1 Hc]%Forall_cons. rewrite !Forall_singleton in C1. destruct (C1 Hvs Hc1) as [Hvs1 Hc1'].
    destruct (C2 Hvs1 Hc) as [? ?]. split; [done|by constructor].
Qed.
Lemma propagate_spec g vs :
  in_universe g → ∃ gf, propagate_with is_write_stage vs g = Val gf ∧ prop_step (set_vertices vs g) gf.1 gf.2.
Proof.
  revert vs. induction g as [c vs0 es ns IH] using graph_induction. intros vs Hg.
  apply in_universe_iff in Hg as [Hcs Hns]. rewrite propagate_with_eq. cbn [set_vertices].
  destruct (propagate_own_spec (constraints c) vs Hcs) as (vs1 & f1 & -> & Hg1 & Hs1). cbn [mbind exec_bind].
  destruct (reconcile_list_spec ns vs1 IH Hns) as (ns' & vs2 & f2 & -> & [U2 D2 K2 L2 S2 E2 C2]). cbn [mbind exec_bind].
  eexists. split; [reflexivity|]. pose proof (grows_le _ _ _ Hg1). split; cbn [fst snd].
  - done.
  - by apply in_universe_iff.
  - cbn [missing]. lia.
  - cbn [missing]. intros [->| ->]%orb_true_iff; [pose proof (gr_less _ _ _ Hg1 eq_refl)|specialize (S2 eq_refl)]; lia.
  - intros P HP. rewrite !everywhere_iff. intros [H1 H2]. split; [|by apply E2].
    apply (HP _ vs1); [done|done|]. by eapply mono_grows.
  - intros Ht. rewrite !covers_iff. intros [Hvs Hc]. apply C2; [|done]. apply Hs1; [|done]. cbn in Ht. destruct c. apply Ht.
Qed.

(** ** Phase 1 returns, or reports what it could not resolve *)
Lemma fold_exec_no_panic {E A S} (f : S → A → exec E S) l s :
  (∀ s x, x ∈ l → f s x ≠ Panic) → fold_exec f l s ≠ Panic.
Proof.
  revert s. induction l as [|x l IH]; intros s Hf; [done|]. cbn [fold_exec].
  specialize (Hf s x (list_elem_of_here _ _)) as Hx. destruct (f s x); [|done..]. cbn. apply IH.
  intros s' y Hy. by apply Hf, list_elem_of_further.
Qed.
Lemma fold_exec_returns {E A S} (f : S → A → exec E S) (P : S → Prop) l s :
  P s → (∀ s x, x ∈ l → P s → ∃ s', f s x = Val s' ∧ P s') → ∃ s', fold_exec f l s = Val s' ∧ P s'.
Proof.
  revert s. induction l as [|x l IH]; intros s Hs Hf; [by exists s|]. cbn [fold_exec].
  destruct (Hf s x (list_elem_of_here _ _) Hs) as (s1 & -> & Hs1). cbn. apply IH; [done|].
  intros s' y Hy. by apply Hf, list_elem_of_further.
Qed.
Lemma returns_map_err {E E' A} (f : E → E') (m : exec E A) : returns m → returns (map_err f m).
Proof. intros [a ->]. by exists a. Qed.
Lemma label_returns l : returns (get_type_annotation_from_label (CRE:=CRE) l).
Proof.
  unfold get_type_annotation_from_label. destruct (labelled_returns KAttribute l) as [[a|] ->]; [by eexists|]. cbn [mbind exec_bind].
  destruct (labelled_returns KEntity l) as [[e|] ->]; [by eexists|]. cbn [mbind exec_bind].
  destruct (labelled_returns KRelation l) as [[e|] ->]; [by eexists|]. cbn [mbind exec_bind].
  destruct (labelled_returns KRole l) as [o ->]. by eexists.
Qed.
Lemma role_name_types_returns roles : returns (role_name_types (CRE:=CRE) is_write_stage roles).
Proof.
  destruct (fold_exec_returns (λ (acc : annotations) r,
    let acc := {[TRoleType r]} ∪ acc in
    if is_write_stage then Val acc
    else subs ← map_err ConceptRead (get_subtypes_transitive KRole r); Val (E:=TypeInferenceError CRE) (acc ∪ list_to_set (TRoleType <$> subs)))
    (λ _, True) roles ∅) as (s & Es & _); [done| |by exists s].
  intros acc r _ _. destruct is_write_stage; [by eexists|].
  destruct (subtypes_transitive_returns KRole r) as [l ->]. by eexists.
Qed.
Lemma value_types_returns v l : returns (value_types (CRE:=CRE) v l).
Proof.
  destruct (fold_exec_returns (λ (acc : annotations) a,
    o ← map_err ConceptRead (get_value_type_without_source a);
    Val (E:=TypeInferenceError CRE) (match o with Some w => if bool_decide (v = w) then {[TAttribute a]} ∪ acc else acc | None => acc end))
    (λ _, True) l ∅) as (s & Es & _); [done| |by exists s].
  intros acc a _ _. destruct (value_type_returns a) as [o ->]. by eexists.
Qed.
Lemma apply_parameters_grows vs params ann : Forall (λ v, v ∈ U) vs → grows ann (apply_parameters vs params ann) false.
Proof.
  intros Hvs. revert params ann. induction Hvs as [|v vs Hv _ IH]; intros [|p params] ann; [apply grows_refl..|].
  cbn [apply_parameters]. apply (grows_seq _ (match p with ParamConcept types => intersect_at v types ann | ParamValueType _ => ann end) _ false false);
    [|apply IH]. destruct p; [by apply intersect_at_grows|apply grows_refl].
Qed.
Definition labels_in (c : Constraint) (vs : VertexAnnotations) : Prop :=
  ∀ l, VLabel l ∈ vertices c → is_Some (vs !! VLabel l).
Lemma labels_in_mono c vs vs' : dom vs ⊆ dom vs' → labels_in c vs → labels_in c vs'.
Proof. intros Hd Hl l Hin. apply elem_of_dom, Hd, elem_of_dom. by apply Hl. Qed.

Lemma apply_constraint_spec c vs :
  constraint_in c →
  apply_constraint fa is_write_stage vs c ≠ Panic ∧
  (∀ vs', apply_constraint fa is_write_stage vs c = Val vs' → grows vs vs' false).
Proof.
  intros Hc. pose proof (proj1 Hc) as Hp. pose proof (λ v, constraint_in_vertices c v Hc) as Hv.
  destruct c as [|k t|t lab|t nm| | | | | | | |asg f args str| | | | |a vt| |]; cbn [apply_constraint]; unfold apply_label; try done;
    try (by split; [done|intros ? [= <-]; apply grows_refl]).
  - destruct (types_return k) as [l El]. unfold all_types. rewrite El. cbn. split; [done|].
    intros vs' [= <-]. apply intersect_at_grows, Hv; [done|cbn; set_solver].
  - destruct (vs !! lab) as [a|]; [|done]. split; [done|]. intros vs' [= <-]. apply intersect_at_grows, Hv; [done|cbn; set_solver].
  - destruct (roles_by_name_returns nm) as [[roles|] En]; rewrite En; cbn [map_err mbind exec_bind]; [|done].
    destruct (role_name_types_returns roles) as [s ->]. cbn. split; [done|]. intros vs' [= <-]. apply intersect_at_grows, Hv; [done|cbn; set_solver].
  - split; [done|]. intros vs' [= <-]. destruct (fa f); [|apply grows_refl].
    apply (grows_seq _ (apply_parameters asg (sig_returns a) vs) _ false false); apply apply_parameters_grows; rewrite Forall_forall.
    + intros v Hin. by apply Hv.
    + intros v (x & -> & Hx)%list_elem_of_fmap. destruct Hc as (_ & _ & Hid). rewrite Forall_forall in Hid. apply Hid. cbn. set_solver.
  - destruct (types_return KAttribute) as [l El]. rewrite El.
    destruct (pattern_value_type vt) as [v|e|] eqn:Ev; cbn [map_err mbind exec_bind]; [|done|].
    + destruct (value_types_returns v l) as [s ->]. cbn. split; [done|]. intros vs' [= <-]. apply intersect_at_grows, Hv; [done|cbn; set_solver].
    + exfalso. destruct vt as [b|n]; [done|]. cbn in Ev. destruct (struct_key_returns n) as [[key|] En]; by rewrite En in Ev.
Qed.
Lemma annotate_fixed_spec v vs :
  is_variable v = false → (is_parameter v = false → v ∈ U) →
  annotate_fixed_vertex (CRE:=CRE) vs v ≠ Panic ∧
  (∀ vs', annotate_fixed_vertex vs v = Val vs' → grows vs vs' false ∧ ∀ l, v = VLabel l → is_Some (vs' !! v)).
Proof.
  intros Hv HU. destruct v as [x|l|p]; [done| |]; cbn [annotate_fixed_vertex].
  2: { split; [done|]. intros vs' [= <-]. split; [apply grows_refl|by intros l [=]]. }
  destruct (vs !! VLabel l) as [e|] eqn:Ee.
  { split; [done|]. intros vs' [= <-]. split; [apply grows_refl|]. rewrite Ee. eauto. }
  destruct (label_returns l) as [[t|] ->]; cbn [map_err mbind exec_bind]; [|done].
  split; [done|]. intros vs' [= <-]. specialize (HU eq_refl). split.
  - split; [rewrite dom_insert; set_solver..|done].
  - intros l' _. by rewrite lookup_insert_eq.
Qed.
Lemma fixed_labels (l : list Vertex) vs vs' :
  Forall (λ v, is_variable v = false ∧ (is_parameter v = false → v ∈ U)) l →
  fold_exec annotate_fixed_vertex l vs = Val (E:=TypeInferenceError CRE) vs' →
  grows vs vs' false ∧ ∀ s, VLabel s ∈ l → is_Some (vs' !! VLabel s).
Proof.
  revert vs. induction l as [|v l IH]; intros vs Hl; cbn [fold_exec].
  { intros [= <-]. split; [apply grows_refl|]. by intros s []%not_elem_of_nil. }
  apply Forall_cons in Hl as [[Hv HU] Hl]. intros (vs1 & E1 & E2)%bind_val.
  destruct (annotate_fixed_spec v vs Hv HU) as [_ H1]. destruct (H1 vs1 E1) as [Hd1 Hs1]. destruct (IH vs1 Hl E2) as [Hd2 Hs2].
  split; [by apply (grows_seq _ _ _ _ _ Hd1 Hd2)|]. intros s. rewrite elem_of_cons. intros [<-|?]; [|auto].
  apply elem_of_dom, (gr_dom _ _ _ Hd2), elem_of_dom. by eapply Hs1.
Qed.
Lemma fixed_vertices_in cs :
  Forall constraint_in cs → Forall (λ v, is_variable v = false ∧ (is_parameter v = false → v ∈ U)) (fixed_vertices cs).
Proof.
  intros Hcs. rewrite Forall_forall in Hcs. rewrite Forall_forall. unfold fixed_vertices. intros v Hv%list_elem_of_In.
  apply in_flat_map in Hv as (c & Hc%list_elem_of_In & Hv). apply filter_In in Hv as [Hin%list_elem_of_In Hv%negb_true_iff].
  split; [done|]. intros Hp. destruct (Hcs c Hc) as (_ & Hvs & _). rewrite Forall_forall in Hvs. destruct (Hvs v Hin) as [?|[? _]]; congruence.
Qed.
Lemma seed_own_spec cs vs :
  Forall constraint_in cs →
  seed_own_vertices fa is_write_stage cs vs ≠ Panic ∧
  (∀ vs', seed_own_vertices fa is_write_stage cs vs = Val vs' → grows vs vs' false ∧ ∀ c, c ∈ cs → labels_in c vs').
Proof.
  intros Hcs. pose proof (fixed_vertices_in cs Hcs) as Hfix. rewrite Forall_forall in Hcs. unfold seed_own_vertices. split.
  - destruct (fold_exec annotate_fixed_vertex (fixed_vertices cs) vs) as [vs1| |] eqn:E1; cbn [mbind exec_bind]; [|done|].
    + apply fold_exec_no_panic. intros s c Hc. apply apply_constraint_spec. auto.
    + exfalso. revert E1. apply fold_exec_no_panic. rewrite Forall_forall in Hfix. intros s v Hv. apply annotate_fixed_spec; by apply Hfix.
  - intros vs' (vs1 & E1 & E2)%bind_val. destruct (fixed_labels _ _ _ Hfix E1) as [Hg1 Hlab].
    assert (grows vs1 vs' false) as Hg2.
    { apply (fold_exec_inv _ (λ s, grows vs1 s false) _ _ _ E2); [apply grows_refl|]. intros s x s' Hx Hs Es.
      apply (grows_seq _ _ _ _ _ Hs). by eapply apply_constraint_spec; [apply Hcs|]. }
    split; [by apply (grows_seq _ _ _ _ _ Hg1 Hg2)|]. intros c Hc. eapply labels_in_mono; [apply Hg2|].
    intros l Hl. apply Hlab. unfold fixed_vertices. apply list_elem_of_In, in_flat_map. exists c.
    split; [by apply list_elem_of_In|]. apply filter_In. split; [by apply list_elem_of_In|done].
Qed.

Lemma traverse_no_panic {E A B} (f : A → exec E B) l : Forall (λ x, f x ≠ Panic) l → traverse f l ≠ Panic.
Proof.
  induction 1 as [|x l Hx _ IH]; [done|]. cbn [traverse]. destruct (f x); [|done..]. cbn [mbind exec_bind].
  by destruct (traverse f l).
Qed.

(** ** Phases that rewrite the vertices of a graph and of its branches *)
Record phase (g g' : TypeInferenceGraph) : Prop := {
  ph_conjunction : g_conjunction g' = g_conjunction g;
  ph_universe : in_universe g → in_universe g';
  ph_missing : (missing g' ≤ missing g)%nat;
  ph_everywhere : ∀ P, mono P → everywhere P g → everywhere P g';
  ph_covers : conc → typ (g_conjunction g) → cov g → cov g';
}.
Record nested_phase (n n' : NestedTypeInferenceGraphDisjunction) : Prop := {
  np_universe : nested_in n → nested_in n';
  np_missing : (nested_missing n' ≤ nested_missing n)%nat;
  np_everywhere : ∀ P, mono P → nested_everywhere P n → nested_everywhere P n';
  np_covers : conc → nested_cov n → nested_cov n';
}.
Lemma phase_refl g : phase g g.
Proof. by split. Qed.
Lemma phase_trans g1 g2 g3 : phase g1 g2 → phase g2 g3 → phase g1 g3.
Proof.
  intros [C1 U1 M1 E1 V1] [C2 U2 M2 E2 V2]. split; [congruence|auto|lia|eauto|]. rewrite C1 in V2. auto.
Qed.
Lemma phase_nested gs gs' sv sva : Forall2 phase gs gs' → nested_phase (MkNested gs sv sva) (MkNested gs' sv sva).
Proof.
  intros Hr.
  assert (Forall in_universe gs → Forall in_universe gs') as A1.
  { induction Hr as [|g g' gs gs' [] _ IH]; [done|]. intros [? ?]%Forall_cons. constructor; auto. }
  assert (∀ P, mono P → Forall (everywhere P) gs → Forall (everywhere P) gs') as A2.
  { intros P HP. clear A1. induction Hr as [|g g' gs gs' [] _ IH]; [done|]. intros [? ?]%Forall_cons. constructor; auto. }
  assert (sum_list (List.map missing gs') ≤ sum_list (List.map missing gs))%nat as A3.
  { clear A1 A2. induction Hr as [|g g' gs gs' [] _ IH]; [done|]. cbn [List.map]. rewrite !sum_list_step. lia. }
  assert (Exists (λ g, typ (g_conjunction g)) gs → Exists (λ g, typ (g_conjunction g)) gs') as A4.
  { clear A1 A2 A3. induction Hr as [|g g' gs gs' [Hc _ _ _ _] _ IH]; [done|]. rewrite !Exists_cons, Hc. tauto. }
  assert (Forall (λ g, typ (g_conjunction g) → cov g) gs → conc → Forall (λ g, typ (g_conjunction g) → cov g) gs') as A5.
  { clear A1 A2 A3 A4. induction Hr as [|g g' gs gs' [Hc _ _ _ Hv] _ IH]; [done|]. rewrite !Forall_cons, Hc. naive_solver. }
  split; [intros []; split; auto|done|done|]. intros ? (? & ? & ?). split_and!; auto.
Qed.
Lemma phase_graph c vs vs' es ns ns' :
  grows vs vs' false → (conc → Forall ctyped (constraints c) → vertices_sat σ vs → vertices_sat σ vs') → Forall2 nested_phase ns ns' →
  phase (MkGraph c vs es ns) (MkGraph c vs' es ns').
Proof.
  intros Hg Hs Hr. split.
  - done.
  - rewrite !in_universe_iff. intros [? Hns]. split; [done|].
    induction Hr as [|n n' ns ns' [] _ IH]; [done|]. apply Forall_cons in Hns as [? ?]. constructor; auto.
  - cbn [missing]. pose proof (grows_le _ _ _ Hg).
    assert (sum_list (List.map nested_missing ns') ≤ sum_list (List.map nested_missing ns))%nat; [|lia].
    induction Hr as [|n n' ns ns' [] _ IH]; [done|]. cbn [List.map]. rewrite !sum_list_step. lia.
  - intros P HP. rewrite !everywhere_iff. intros [? Hns]. split; [by eapply mono_grows|].
    induction Hr as [|n n' ns ns' [] _ IH]; [done|]. apply Forall_cons in Hns as [? ?]. constructor; auto.
  - cbn [g_conjunction]. rewrite !covers_iff. intros Hcon Ht [? Hns]. split.
    { apply Hs; [done| |done]. destruct c. apply Ht. }
    clear Ht. induction Hr as [|n n' ns ns' [] _ IH]; [done|]. apply Forall_cons in Hns as [? ?]. constructor; auto.
Qed.
(** The branches of the disjunctions, each by the same function. *)
Lemma traverse_branches {E} (f : TypeInferenceGraph → exec E TypeInferenceGraph) (nf : NestedTypeInferenceGraphDisjunction → exec E NestedTypeInferenceGraphDisjunction)
    (Q : TypeInferenceGraph → Prop) ns :
  (∀ gs sv sva, nf (MkNested gs sv sva) = (gs ← traverse f gs; Val (MkNested gs sv sva))) →
  Forall (λ n, Forall (λ g, f g ≠ Panic ∧ ∀ g', f g = Val g' → phase g g' ∧ Q g') (disjunction n)) ns →
  traverse nf ns ≠ Panic ∧
  ∀ ns', traverse nf ns = Val ns' → Forall2 nested_phase ns ns' ∧ Forall (λ n, Forall Q (disjunction n)) ns'.
Proof.
  intros Hnf Hns.
  assert (Forall (λ n, nf n ≠ Panic ∧ ∀ n', nf n = Val n' → nested_phase n n' ∧ Forall Q (disjunction n')) ns) as Hn.
  { eapply Forall_impl; [exact Hns|]. intros [gs sv sva] Hgs. cbn [disjunction] in Hgs. rewrite Hnf. split.
    - assert (traverse f gs ≠ Panic) as Ht by (apply traverse_no_panic; eapply Forall_impl; [exact Hgs|]; by intros ? []).
      by destruct (traverse f gs).
    - intros n' (gs' & Hgs'%traverse_inv & [= <-])%bind_val.
      assert (Forall2 (λ g g', phase g g' ∧ Q g') gs gs') as Hr.
      { clear Hns. induction Hgs' as [|g g' gs gs' Hg _ IH]; [constructor|]. apply Forall_cons in Hgs as [[_ ?] ?]. constructor; auto. }
      split.
      + apply phase_nested. eapply Forall2_impl; [exact Hr|]. by intros ?? [].
      + cbn [disjunction]. clear -Hr. induction Hr as [|???? []]; constructor; auto. }
  split; [apply traverse_no_panic; eapply Forall_impl; [exact Hn|]; by intros ? []|].
  intros ns' Hr%traverse_inv. clear Hns. induction Hr as [|n n' ns ns' Hn1 _ IH]; [done|].
  apply Forall_cons in Hn as [[_ H1] Hn]. destruct (H1 n' Hn1), (IH Hn). split; by constructor.
Qed.

Definition labelled (c : Conjunction) (vs : VertexAnnotations) (_ : list TypeInferenceEdge) : Prop := ∀ k, k ∈ constraints c → labels_in k vs.
Definition bounded (c : Conjunction) (vs : VertexAnnotations) (_ : list TypeInferenceEdge) : Prop := dom vs ⊆ U.
Lemma labelled_mono : mono labelled.
Proof. intros c vs vs' es Hd _ Hl k Hk. by eapply labels_in_mono, Hl. Qed.
Lemma bounded_mono : mono bounded.
Proof. unfold bounded. intros c vs vs' es. set_solver. Qed.
Lemma seed_vertices_spec g :
  in_universe g →
  seed_vertex_annotations_from_type_and_called_function_signatures fa is_write_stage g ≠ Panic ∧
  ∀ g', seed_vertex_annotations_from_type_and_called_function_signatures fa is_write_stage g = Val g' → phase g g' ∧ everywhere labelled g'.
Proof.
  induction g as [c vs es ns IH] using graph_induction. intros [Hcs Hns]%in_universe_iff. rewrite seed_vertices_eq.
  destruct (seed_own_spec (constraints c) vs Hcs) as (Hp & Hs).
  destruct (traverse_branches (seed_vertex_annotations_from_type_and_called_function_signatures fa is_write_stage)
    (nested_seed_vertex_annotations fa is_write_stage) (everywhere labelled) ns) as [Hnp Hn].
  { intros. apply nested_seed_vertices_eq. }
  { rewrite Forall_forall in IH, Hns |- *. intros n Hin. specialize (IH n Hin). destruct (Hns n Hin) as [_ Hu].
    rewrite Forall_forall in IH, Hu |- *. auto. }
  split.
  - destruct (seed_own_vertices _ _ _ _); [|done..]. cbn [mbind exec_bind]. by destruct (traverse _ ns).
  - intros g' (vs' & Evs & (ns' & Ens & [= <-])%bind_val)%bind_val. destruct (Hs vs' Evs) as [Hg Hl]. destruct (Hn ns' Ens). split.
    + apply phase_graph; [done| |done]. intros _ ? ?. by eapply seed_own_vertices_sat.
    + by apply everywhere_iff.
Qed.

(** ** The loops end *)
Lemma propagate_loop_spec fuel g :
  in_universe g → (missing g < fuel)%nat →
  ∃ g', propagate_until_unchanged is_write_stage fuel g = Some (Val g') ∧ phase g g'.
Proof.
  revert g. induction fuel as [|fuel IH]; intros g Hg Hf; [lia|]. cbn [propagate_until_unchanged].
  unfold propagate_vertex_annotations. destruct (propagate_spec g (g_vertices g) Hg) as ([g1 f] & -> & [Pc Pu Pl Ps Pe Pv]).
  assert (set_vertices (g_vertices g) g = g) as Hsv by (by destruct g). rewrite Hsv in *. cbn [fst snd] in *.
  assert (phase g g1) as H1 by (split; auto). destruct f; [|by exists g1].
  specialize (Ps eq_refl). destruct (IH g1 Pu) as (g' & -> & H2); [lia|]. exists g'. split; [done|by eapply phase_trans].
Qed.

(** Every variable that is not a value is annotated. *)
Definition annotated (c : Conjunction) (vs : VertexAnnotations) (_ : list TypeInferenceEdge) : Prop :=
  ∀ k v, k ∈ constraints c → v ∈ ids k → default CValue (get_variable_category v registry) ≠ CValue → is_Some (vs !! VVariable v).
Lemma annotated_mono : mono annotated.
Proof. intros c vs vs' es Hd _ Hl k v Hk Hv Hc. apply elem_of_dom, Hd, elem_of_dom. by eapply Hl. Qed.
Lemma flagged {A} (m : A → nat) (Q : A → Prop) l (r : list (A * bool)) :
  Forall2 (λ x xf, (m xf.1 ≤ m x)%nat ∧ (xf.2 = true → m xf.1 < m x)%nat ∧ (xf.2 = false → Q xf.1)) l r →
  (sum_list (List.map m (List.map fst r)) ≤ sum_list (List.map m l))%nat ∧
  (existsb snd r = true → sum_list (List.map m (List.map fst r)) < sum_list (List.map m l))%nat ∧
  (existsb snd r = false → Forall Q (List.map fst r)).
Proof.
  induction 1 as [|x [y f] l r (Hle & Hlt & Hq) _ (I1 & I2 & I3)]; [done|]. cbn [List.map existsb fst snd] in *.
  rewrite !sum_list_step. split_and!; [lia| |].
  - intros [->|Hx]%orb_true_iff; [specialize (Hlt eq_refl)|specialize (I2 Hx)]; lia.
  - intros [-> Hx]%orb_false_iff. constructor; auto.
Qed.

Hypothesis no_attribute_or_value : ∀ v, VVariable v ∈ U → get_variable_category v registry ≠ Some CAttributeOrValue.
Lemma unbounded_returns c : c ≠ CAttributeOrValue → returns (get_unbounded_type_annotations (CRE:=CRE) c).
Proof.
  intros Hc. destruct (types_return KEntity) as [e Ee], (types_return KRelation) as [r Er], (types_return KAttribute) as [a Ea],
    (types_return KRole) as [o Eo].
  unfold get_unbounded_type_annotations.
  destruct c; try done; cbn [mbind exec_bind]; rewrite ?Ee; cbn [mbind exec_bind]; rewrite ?Er; cbn [mbind exec_bind];
    rewrite ?Ea; cbn [mbind exec_bind]; rewrite ?Eo; by eexists.
Qed.
Record annotate_step (g : TypeInferenceGraph) (gf : TypeInferenceGraph * bool) : Prop := {
  as_phase : phase g gf.1;
  as_less : gf.2 = true → (missing gf.1 < missing g)%nat;
  as_done : gf.2 = false → everywhere annotated gf.1;
}.
Record nested_annotate_step (n : NestedTypeInferenceGraphDisjunction) (nf : NestedTypeInferenceGraphDisjunction * bool) : Prop := {
  nas_phase : nested_phase n nf.1;
  nas_less : nf.2 = true → (nested_missing nf.1 < nested_missing n)%nat;
  nas_done : nf.2 = false → nested_everywhere annotated nf.1;
}.
Lemma map_fst_phases {A} (R : A → A → Prop) (S : A → A * bool → Prop) l r :
  (∀ x xf, S x xf → R x xf.1) → Forall2 S l r → Forall2 R l (List.map fst r).
Proof. intros HRS. induction 1; constructor; auto. Qed.
Lemma nested_annotate_spec n :
  Forall (λ g, ∃ gf, annotate_some_unannotated_vertex registry g = Val gf ∧ annotate_step g gf) (disjunction n) →
  ∃ nf, nested_annotate_some registry n = Val nf ∧ nested_annotate_step n nf.
Proof.
  destruct n as [gs sv sva]. cbn [disjunction]. intros Hgs. rewrite nested_annotate_some_eq.
  destruct (traverse_spec _ annotate_step gs Hgs) as (r & -> & Hr). cbn [mbind exec_bind]. eexists. split; [reflexivity|].
  destruct (flagged missing (everywhere annotated) gs r) as (H1 & H2 & H3).
  { eapply Forall2_impl; [exact Hr|]. intros g gf [[]]. done. }
  split; cbn [fst snd nested_missing]; [|done|done]. apply phase_nested. eapply map_fst_phases; [|exact Hr]. by intros ?? [].
Qed.
Lemma annotate_some_spec g :
  in_universe g → ∃ gf, annotate_some_unannotated_vertex registry g = Val gf ∧ annotate_step g gf.
Proof.
  induction g as [c vs es ns IH] using graph_induction. intros [Hcs Hns]%in_universe_iff. rewrite annotate_some_eq.
  destruct (List.find (unannotated registry vs) (flat_map ids (constraints c))) as [v|] eqn:Ef.
  - apply find_some in Ef as [Hin Hv]. apply in_flat_map in Hin as (k & Hk%list_elem_of_In & Hin%list_elem_of_In).
    unfold unannotated in Hv. apply andb_prop in Hv as [Hc%negb_true_iff%bool_decide_eq_false Hv%negb_true_iff%bool_decide_eq_false].
    apply eq_None_not_Some in Hv. rewrite Forall_forall in Hcs. pose proof (Hcs k Hk) as (_ & _ & Hid). rewrite Forall_forall in Hid.
    specialize (Hid v Hin). pose proof (no_attribute_or_value v Hid) as Hcat.
    destruct (get_variable_category v registry) as [cat|] eqn:Ecat; [|done]. cbn [from_option id] in *. unfold id in *.
    destruct (unbounded_returns cat) as [s Es]; [by intros ->|]. rewrite Es. cbn [mbind exec_bind].
    eexists. split; [reflexivity|]. pose proof (grows_insert vs (VVariable v) s Hid Hv) as Hg. split; cbn [fst snd]; [|intros _|done].
    + apply phase_graph; [destruct Hg; by split| |]. 
      * intros _ Ht Hvs. apply vertices_sat_insert; [done|]. rewrite Forall_forall in Ht. destruct (Ht k Hk) as (_ & _ & Hvt).
        rewrite Forall_app in Hvt. destruct Hvt as [_ Hvt]. rewrite Forall_fmap, Forall_forall in Hvt.
        exact (Hvt v Hin cat s Ecat Hc Es).
      * clear. induction ns; constructor; [by split|done].
    + cbn [missing]. pose proof (gr_less _ _ _ Hg eq_refl). lia.
  - destruct (traverse_spec (nested_annotate_some registry) nested_annotate_step ns) as (r & -> & Hr).
    { rewrite Forall_forall in IH, Hns |- *. intros n Hn. apply nested_annotate_spec. destruct (Hns n Hn) as [_ Hu].
      specialize (IH n Hn). rewrite Forall_forall in IH, Hu |- *. auto. }
    cbn [mbind exec_bind]. eexists. split; [reflexivity|].
    destruct (flagged nested_missing (nested_everywhere annotated) ns r) as (H1 & H2 & H3).
    { eapply Forall2_impl; [exact Hr|]. intros n nf [[]]. done. }
    split; cbn [fst snd].
    + apply phase_graph; [apply grows_refl|done|]. eapply map_fst_phases; [|exact Hr]. by intros ?? [].
    + cbn [missing]. intros Hx. specialize (H2 Hx). lia.
    + intros Hx. apply everywhere_iff. split; [|auto]. intros k v Hk Hv Hc.
      assert (unannotated registry vs v = false) as Hun.
      { eapply find_none; [exact Ef|]. apply in_flat_map. exists k. by split; apply list_elem_of_In. }
      unfold unannotated in Hun. rewrite bool_decide_eq_false_2 in Hun by done. cbn in Hun.
      apply negb_false_iff, bool_decide_eq_true in Hun. done.
Qed.
Lemma annotate_loop_spec fuel g :
  in_universe g → (missing g < fuel)%nat →
  ∃ g', annotate_until_unchanged registry is_write_stage fuel g = Some (Val g') ∧ phase g g' ∧ everywhere annotated g'.
Proof.
  revert g. induction fuel as [|fuel IH]; intros g Hg Hf; [lia|]. cbn [annotate_until_unchanged].
  destruct (propagate_loop_spec (S fuel) g Hg Hf) as (g1 & -> & H1). pose proof (ph_universe _ _ H1 Hg) as Hg1.
  pose proof (ph_missing _ _ H1). destruct (annotate_some_spec g1 Hg1) as ([g2 f] & -> & [H2 Hl Hd]). cbn [fst snd] in *.
  pose proof (phase_trans _ _ _ H1 H2) as H12. destruct f; [|by exists g2; auto].
  specialize (Hl eq_refl). destruct (IH g2) as (g' & -> & H3 & Ha); [by apply H12|lia|].
  exists g'. split_and!; [done|by eapply phase_trans|done].
Qed.

(** ** Abstract types are dropped, edges are seeded *)
Lemma try_retain_spec s :
  ∃ s', try_retain (CRE:=CRE) is_not_abstract s = Val s' ∧ ∀ t, t ∈ s' ↔ t ∈ s ∧ is_abstract t = Val false.
Proof.
  unfold try_retain.
  assert (∀ l acc, ∃ r, fold_exec (λ acc t, b ← is_not_abstract t; Val (if (b : bool) then acc else acc ++ [t])) l acc = Val (E:=CRE) r ∧
    ∀ t, t ∈ r ↔ t ∈ acc ∨ (t ∈ l ∧ is_abstract t ≠ Val false)) as G.
  { induction l as [|x l IH]; intros acc; cbn [fold_exec].
    { exists acc. split; [done|]. intros t. rewrite elem_of_nil. naive_solver. }
    destruct (abstract_returns x) as [b Eb]. assert (is_not_abstract x = Val (negb b)) as -> by (unfold is_not_abstract; by rewrite Eb).
    cbn [mbind exec_bind].
    destruct (IH (if negb b then acc else acc ++ [x])) as (r & -> & Hr). exists r. split; [done|]. intros t.
    rewrite Hr, elem_of_cons. destruct b; cbn [negb].
    - rewrite elem_of_app, list_elem_of_singleton. split; [intros [[?| ->]|?]|intros [?|[[->|?] ?]]]; try tauto.
      right. split; [by left|]. by rewrite Eb.
    - split; [tauto|]. intros [?|[[->|?] ?]]; [by left| |tauto]. congruence. }
  destruct (G (elements s) []) as (r & -> & Hr). cbn [mbind exec_bind]. eexists. split; [reflexivity|]. intros t.
  assert (∀ l (s : annotations), t ∈ fold_left (λ s x, s ∖ {[x]}) l s ↔ t ∈ s ∧ t ∉ l) as F.
  { induction l as [|x l IH]; intros s0; cbn [fold_left]; [rewrite elem_of_nil; tauto|]. rewrite IH. set_solver. }
  rewrite F, Hr, elem_of_nil, elem_of_elements. destruct (abstract_returns t) as [[] ->]; naive_solver.
Qed.
Lemma prune_abstract_fold l vs :
  (∀ v s, (v, s) ∈ l → v ∈ dom vs) →
  ∃ vs', fold_exec (prune_abstract_at registry) l vs = Val vs' ∧ dom vs' = dom vs ∧
    ((∀ v s, (v, s) ∈ l → σ v ∈ s) → conc → vertices_sat σ vs → vertices_sat σ vs').
Proof.
  revert vs. induction l as [|[v s] l IH]; intros vs Hl; [by exists vs|]. cbn [fold_exec].
  assert (∃ vs1, prune_abstract_at (CRE:=CRE) registry vs (v, s) = Val vs1 ∧ dom vs1 = dom vs ∧
    (σ v ∈ s → conc → vertices_sat σ vs → vertices_sat σ vs1)) as (vs1 & -> & Hd1 & Hs1).
  { unfold prune_abstract_at. cbn [fst snd]. destruct (is_thing_vertex registry v) eqn:Ev; [|by exists vs].
    destruct (try_retain_spec s) as (s' & -> & Hs'). eexists. split; [reflexivity|]. split.
    - rewrite dom_insert_L. pose proof (Hl v s (list_elem_of_here _ _)). set_solver.
    - intros Hv Hc Hvs. apply vertices_sat_insert; [done|]. apply Hs'. split; [done|by apply Hc]. }
  cbn [mbind exec_bind]. destruct (IH vs1) as (vs' & -> & Hd & Hs).
  { intros x y Hx. rewrite Hd1. by eapply Hl, list_elem_of_further. }
  exists vs'. split_and!; [done|congruence|]. intros Hall Hc Hvs. apply Hs; [|done|].
  - intros x y Hx. by apply Hall, list_elem_of_further.
  - apply Hs1; [by apply Hall, list_elem_of_here|done..].
Qed.
Lemma prune_abstract_spec g :
  ∃ g', prune_abstract_types_from_thing_vertex_annotations_recursive registry g = Val g' ∧ phase g g'.
Proof.
  induction g as [c vs es ns IH] using graph_induction. rewrite prune_abstract_eq.
  destruct (prune_abstract_fold (map_to_list vs) vs) as (vs' & -> & Hd & Hs).
  { intros v s Hin%elem_of_map_to_list. apply elem_of_dom. eauto. }
  cbn [mbind exec_bind]. destruct (traverse_spec (nested_prune_abstract registry) nested_phase ns) as (ns' & -> & Hr).
  { eapply Forall_impl; [exact IH|]. intros [gs sv sva] Hgs. rewrite nested_prune_abstract_eq. cbn [disjunction] in Hgs.
    destruct (traverse_spec _ phase gs Hgs) as (gs' & -> & Hr). eexists. split; [reflexivity|]. by apply phase_nested. }
  cbn [mbind exec_bind]. eexists. split; [reflexivity|]. apply phase_graph; [split; [set_solver..|done]| |done].
  intros Hc _ Hvs. apply Hs; [|done..]. intros v s Hin%elem_of_map_to_list. by apply Hvs.
Qed.

Definition edge_sat (e : TypeInferenceEdge) : Prop := allows e (σ (edge_left e)) (σ (edge_right e)).
Definition no_parameters (vs : VertexAnnotations) : Prop := ∀ p, vs !! VParameter p = None.
(** One more edge is the right one. *)
Record seeds (vs : VertexAnnotations) (k : Constraint) (es es' : list TypeInferenceEdge) : Prop := {
  sd_ok : Forall (edge_ok vs) es → Forall (edge_ok vs) es';
  sd_sat : ctyped k → vertices_sat σ vs → Forall edge_sat es → Forall edge_sat es';
}.
Lemma seed_one vs k b es es' :
  b ∈ binary_constraints k → (e ← seed_edge is_write_stage k b vs; Val (es ++ [e])) = Val es' → seeds vs k es es'.
Proof.
  intros Hb (e & Ee & [= <-])%bind_val.
  destruct (seed_edge_inv is_write_stage k b vs e Ee) as (ls & rs & El & Er & Hc & _ & Hl & Hr & Ha). split.
  - intros Hes. apply Forall_app. split; [done|]. apply Forall_singleton. split; [done|]. rewrite Hl, Hr, El, Er. eauto.
  - intros (Hbs & _) Hvs Hes. apply Forall_app. split; [done|]. apply Forall_singleton. unfold edge_sat. rewrite Hl, Hr. apply Ha.
    rewrite Forall_forall in Hbs. split_and!; [by apply Hvs|by apply Hvs|auto].
Qed.
Lemma seed_constraint_inv vs k es es' :
  no_parameters vs → seed_constraint is_write_stage vs es k = Val es' → seeds vs k es es'.
Proof.
  intros Hp. destruct k as [| | | | | | |l| | | | |l r op| | | | | |]; cbn [seed_constraint]; try done;
    try (by intros [= <-]); try (by apply seed_one; cbn; set_solver).
  - intros (es1 & E1 & E2)%bind_val. apply seed_one in E1 as [O1 S1]; [|cbn; set_solver].
    apply seed_one in E2 as [O2 S2]; [|cbn; set_solver]. split; auto.
  - destruct (bool_decide (is_Some (vs !! r)) && bool_decide (is_Some (vs !! l))) eqn:Eb; [|by intros [= <-]].
    apply andb_prop in Eb as [[rs Er]%bool_decide_eq_true [ls El]%bool_decide_eq_true]. apply seed_one. cbn.
    destruct l as [x|x|p], r as [y|y|q]; cbn; try set_solver; by rewrite Hp in *.
Qed.
Definition unseeded (c : Conjunction) (vs : VertexAnnotations) (es : list TypeInferenceEdge) : Prop := es = [] ∧ no_parameters vs.
Lemma seed_edges_inv g g' :
  everywhere unseeded g → seed_edges is_write_stage g = Val g' → graph_ok g' ∧ (typ (g_conjunction g) → cov g → solution σ g').
Proof.
  revert g'. induction g as [c vs es ns IH] using graph_induction. intros g' [[-> Hp] Hns]%everywhere_iff. rewrite seed_edges_eq.
  intros (es' & Ees & (ns' & Ens%traverse_inv & [= <-])%bind_val)%bind_val.
  assert (Forall (edge_ok vs) es') as Hok.
  { apply (fold_exec_inv _ (Forall (edge_ok vs)) _ _ _ Ees); [done|]. intros s k s' _ Hs Hk.
    by apply (sd_ok _ _ _ _ (seed_constraint_inv vs k s s' Hp Hk)). }
  assert (Forall (λ n, Forall graph_ok (disjunction n)) ns' ∧ (Forall nested_cov ns → Forall (λ n, Exists (solution σ) (disjunction n)) ns')) as [N1 N2].
  { clear Ees Hok. induction Ens as [|n n' ns ns' Hn _ IHn]; [done|].
    apply Forall_cons in Hns as [Hu Hns]. apply Forall_cons in IH as [IH1 IH]. destruct (IHn IH Hns) as [I1 I2].
    destruct n as [gs sv sva]. rewrite nested_seed_edges_eq in Hn. apply bind_val in Hn as (gs' & Egs%traverse_inv & [= <-]).
    assert (Forall graph_ok gs' ∧ (Exists (λ g, typ (g_conjunction g)) gs → Forall (λ g, typ (g_conjunction g) → cov g) gs → Exists (solution σ) gs')) as [G1 G2].
    { cbn [disjunction] in IH1. unfold nested_everywhere in Hu. cbn [disjunction] in Hu. clear -IH1 Hu Egs.
      induction Egs as [|g g' gs gs' Hg _ IHg]; [split; [done|by intros ?%Exists_nil]|].
      apply Forall_cons in Hu as [Hu1 Hu]. apply Forall_cons in IH1 as [IH1 IH]. destruct (IH1 g' Hu1 Hg) as [Ok Sol].
      destruct (IHg IH Hu) as [I1 I2]. split; [by constructor|]. rewrite !Exists_cons, Forall_cons. intros [Ht|Hex] [Hc Hcs]; [by left; auto|right; auto]. }
    split; [by constructor|]. intros [(_ & Hex & Hc) Hcs]%Forall_cons. constructor; auto. }
  split; [by constructor|]. rewrite covers_iff. intros Ht [Hvs Hcov]. constructor; [done| |auto].
  apply (fold_exec_inv _ (Forall edge_sat) _ _ _ Ees); [done|]. intros s k s' Hin Hs Hk.
  apply (sd_sat _ _ _ _ (seed_constraint_inv vs k s s' Hp Hk)); [|done..].
  cbn [g_conjunction] in Ht. destruct c as [sc cs nn]. destruct Ht as [Hcs _]. rewrite Forall_forall in Hcs. by apply Hcs.
Qed.

(** Seeding edges returns when the ends of every constraint are annotated and
    no comparison has two vertices. *)
Definition seedable (c : Conjunction) (vs : VertexAnnotations) (_ : list TypeInferenceEdge) : Prop :=
  no_parameters vs ∧ ∀ k, k ∈ constraints c → before_optimisation k = true ∧
    ∀ b, b ∈ binary_constraints k → is_comparison b = false ∧ is_Some (vs !! left b) ∧ is_Some (vs !! right b).
Lemma seed_constraint_returns vs k es :
  no_parameters vs → before_optimisation k = true →
  (∀ b, b ∈ binary_constraints k → is_comparison b = false ∧ is_Some (vs !! left b) ∧ is_Some (vs !! right b)) →
  returns (seed_constraint is_write_stage vs es k).
Proof.
  intros Hp Hb Hk.
  assert (∀ b es, b ∈ binary_constraints k → returns (e ← seed_edge is_write_stage k b vs; Val (es ++ [e]))) as One.
  { intros b es0 Hin. destruct (Hk b Hin) as (Hc & [ls El] & [rs Er]).
    destruct (seed_edge_spec is_write_stage k b vs ls rs El Er) as (e & -> & _); [unfold comparison_ok; by rewrite Hc|]. by eexists. }
  destruct k as [| | | | | | |l| | | | |l r op| | | | | |]; cbn [seed_constraint]; try done;
    try (by eexists); try (by apply One; cbn; set_solver).
  - destruct (One (BRelationRole l) es) as [es1 ->]; [cbn; set_solver|]. apply One. cbn. set_solver.
  - destruct (bool_decide (is_Some (vs !! r)) && bool_decide (is_Some (vs !! l))) eqn:Eb; [|by eexists].
    apply andb_prop in Eb as [[rs Er]%bool_decide_eq_true [ls El]%bool_decide_eq_true].
    destruct l as [x|x|p], r as [y|y|q]; try (by rewrite Hp in *);
      (destruct (Hk _ (list_elem_of_here _ _)) as (? & _); done).
Qed.
Lemma seed_edges_returns g : everywhere seedable g → returns (seed_edges is_write_stage g).
Proof.
  induction g as [c vs es ns IH] using graph_induction. intros [[Hp Hcs] Hns]%everywhere_iff. rewrite seed_edges_eq.
  destruct (fold_exec_returns (seed_constraint is_write_stage vs) (λ _, True) (constraints c) es) as (es' & -> & _); [done| |].
  { intros s k Hk _. destruct (Hcs k Hk) as [Hb Hbs]. destruct (seed_constraint_returns vs k s Hp Hb Hbs) as [s' ->]. by eexists. }
  cbn [mbind exec_bind]. destruct (traverse_spec (nested_seed_edges is_write_stage) (λ _ _, True) ns) as (ns' & -> & _); [|by eexists].
  rewrite Forall_forall in IH, Hns |- *. intros [gs sv sva] Hn. specialize (IH _ Hn). specialize (Hns _ Hn).
  unfold nested_everywhere in Hns. cbn [disjunction] in *. rewrite nested_seed_edges_eq.
  destruct (traverse_spec (seed_edges is_write_stage) (λ _ _, True) gs) as (gs' & -> & _); [|by eexists].
  rewrite Forall_forall in IH, Hns |- *. intros g Hg. destruct (IH g Hg (Hns g Hg)) as [g' ->]. by eexists.
Qed.

(** ** The graph of a pattern, seeded *)
Hypothesis no_parameters_in : ∀ p, VParameter p ∉ U.
Lemma unseeded_mono : mono unseeded.
Proof.
  intros c vs vs' es _ Hd [-> Hp]. split; [done|]. intros p. apply not_elem_of_dom. specialize (Hp p).
  apply not_elem_of_dom in Hp. specialize (no_parameters_in p). set_solver.
Qed.
(** The ends of a constraint are types or variables that are not values, and no
    comparison has two vertices. *)
Definition end_ok (v : Vertex) : Prop :=
  match v with VLabel _ => True | VVariable x => default CValue (get_variable_category x registry) ≠ CValue | VParameter _ => False end.
Definition ends_ok (c : Conjunction) : Prop :=
  ∀ k, k ∈ constraints c → before_optimisation k = true ∧
    ∀ b, b ∈ binary_constraints k → is_comparison b = false ∧ end_ok (left b) ∧ end_ok (right b).
Lemma binary_ends k b v : b ∈ binary_constraints k → v = left b ∨ v = right b → v ∈ vertices k.
Proof.
  destruct k as [| | | | | | |l| | | | |l r op| | | | | |]; cbn; try (by intros []%not_elem_of_nil);
    try (intros ->%list_elem_of_singleton; cbn; set_solver).
  - rewrite !elem_of_cons, elem_of_nil. intros [->|[->|[]]]; cbn; set_solver.
  - destruct (is_parameter l || is_parameter r); [by intros []%not_elem_of_nil|]. intros ->%list_elem_of_singleton. cbn. set_solver.
Qed.
Lemma binary_variables k b x : b ∈ binary_constraints k → VVariable x ∈ vertices k → x ∈ ids k.
Proof.
  assert (∀ l : list Vertex, VVariable x ∈ l → x ∈ omap as_variable l) as Ho.
  { intros l Hl. apply list_elem_of_omap. by exists (VVariable x). }
  destruct k; cbn [binary_constraints vertices ids]; intros Hb Hv; try (by apply not_elem_of_nil in Hb); by apply Ho.
Qed.
Lemma end_annotated c vs es k b v :
  labelled c vs es → annotated c vs es → k ∈ constraints c → b ∈ binary_constraints k → v = left b ∨ v = right b → end_ok v →
  is_Some (vs !! v).
Proof.
  intros Hl Ha Hk Hb Hv He. pose proof (binary_ends k b v Hb Hv) as Hin. destruct v as [x|l|p]; [|by eapply Hl|done].
  eapply Ha; [exact Hk| |exact He]. by eapply binary_variables.
Qed.
Lemma everywhere_impl P Q g : (∀ c vs es, P c vs es → Q c vs es) → everywhere P g → everywhere Q g.
Proof.
  intros HPQ. induction g as [c vs es ns IH] using graph_induction. rewrite !everywhere_iff. intros [Hp Hns]. split; [auto|].
  unfold nested_everywhere in *. rewrite Forall_forall in IH, Hns |- *. intros n Hn. specialize (IH n Hn). specialize (Hns n Hn).
  rewrite Forall_forall in IH, Hns |- *. auto.
Qed.
Lemma everywhere_and P Q g : everywhere P g → everywhere Q g → everywhere (λ c vs es, P c vs es ∧ Q c vs es) g.
Proof.
  induction g as [c vs es ns IH] using graph_induction. rewrite !everywhere_iff. intros [Hp Hns] [Hq Hms]. split; [done|].
  unfold nested_everywhere in *. rewrite Forall_forall in IH, Hns, Hms |- *. intros n Hn. specialize (IH n Hn). specialize (Hns n Hn).
  specialize (Hms n Hn). rewrite Forall_forall in IH, Hns, Hms |- *. auto.
Qed.
Lemma seedable_everywhere g :
  everywhere labelled g → everywhere annotated g → everywhere unseeded g → everywhere (λ c _ _, ends_ok c) g → everywhere seedable g.
Proof.
  intros Hl Ha Hu He. pose proof (everywhere_and _ _ _ (everywhere_and _ _ _ Hl Ha) (everywhere_and _ _ _ Hu He)) as H.
  eapply everywhere_impl; [|exact H]. cbn beta. intros c vs es [[Hlc Hac] [[_ Hp] Hec]]. split; [done|].
  intros k Hk. destruct (Hec k Hk) as [Hb Hbs]. split; [done|]. intros b Hin. destruct (Hbs b Hin) as (Hc & H1 & H2).
  split_and!; [done|eapply end_annotated; eauto..].
Qed.

Lemma seed_types_spec fuel g :
  in_universe g → everywhere unseeded g → (missing g < fuel)%nat →
  ∃ r, seed_types fa registry is_write_stage fuel ∅ g = Some r ∧
    (everywhere (λ c _ _, ends_ok c) g → r ≠ Panic) ∧
    ∀ g', r = Val g' → graph_ok g' ∧ (conc → typ (g_conjunction g) → cov g → solution σ g').
Proof.
  intros Hg Hu Hf. unfold seed_types.
  assert (set_vertices (insert_parents ∅ (referenced_variables (g_conjunction g)) (g_vertices g)) g = g) as ->.
  { destruct g. unfold insert_parents. by rewrite map_to_list_empty. }
  destruct (seed_vertices_spec g Hg) as [Hp1 H1].
  destruct (seed_vertex_annotations_from_type_and_called_function_signatures fa is_write_stage g) as [g1|e|] eqn:E1;
    [|by exists (Err e)|done]. destruct (H1 g1 eq_refl) as [P1 L1].
  pose proof (ph_missing _ _ P1). destruct (annotate_loop_spec fuel g1) as (g2 & -> & P2 & A2); [by apply P1|lia|]. eexists. split; [reflexivity|].
  cbn [map_err mbind exec_bind]. destruct (prune_abstract_spec g2) as (g3 & -> & P3). cbn [mbind exec_bind].
  pose proof (phase_trans _ _ _ P1 (phase_trans _ _ _ P2 P3)) as P. pose proof (ph_everywhere _ _ P _ unseeded_mono Hu) as Hu3. split.
  - intros He. destruct (seed_edges_returns g3) as [g4 ->]; [|done]. apply seedable_everywhere; [..|done|].
    + apply (ph_everywhere _ _ (phase_trans _ _ _ P2 P3) _ labelled_mono L1).
    + apply (ph_everywhere _ _ P3 _ annotated_mono A2).
    + apply (ph_everywhere _ _ P); [|done]. by intros ? ? ? ? _ _.
  - intros g4 E4%map_err_val. destruct (seed_edges_inv g3 g4 Hu3 E4) as [Hok Hsol]. split; [done|].
    intros Hc Ht Hcov. apply Hsol; [by rewrite (ph_conjunction _ _ P)|]. by apply (ph_covers _ _ P).
Qed.
End soundness.
