(* ===== verification/TypeClaims.v ===== *)
(** * Type inference: the theorems on a whole pattern

    The graph that [create_graph] builds for a conjunction, from the pattern up:
    that building and seeding it end, that they panic only for the two reasons
    shown at the end of the file, and that no valid typing of the pattern is
    lost on the way to the pruned graph of [compute_type_inference_graph]. *)
From S2P Require Import Prelude Layout Pattern Block TypeInference TypeSeeder TypeGraph TypeSoundness.
From stdpp Require Import countable gmap relations.
#[local] Open Scope Z_scope.

(** ** The vertices of a pattern *)
(** The constraints the builder makes: those of the optimiser apart, parameters
    in comparisons and [iid] constraints only, and no variable as a label. *)
Definition constraint_wf (k : Constraint) : Prop :=
  before_optimisation k = true ∧ (takes_parameters k = false → Forall (λ v, is_parameter v = false) (vertices k)) ∧
  Forall (λ v, match v with VVariable x => x ∈ ids k | _ => True end) (vertices k).
Definition typed_vertices (c : Constraint) : list Vertex := List.filter (λ v, negb (is_parameter v)) (vertices c).
Fixpoint conjunction_vertices (c : Conjunction) : list Vertex :=
  match c with
  | MkConjunction _ cs ns => (VVariable <$> flat_map ids cs) ++ flat_map typed_vertices cs ++ flat_map nested_vertices ns
  end
with nested_vertices (n : NestedPattern) : list Vertex :=
  match n with PDisjunction cs _ _ => flat_map conjunction_vertices cs | PNegation _ | POptional _ _ => [] end.
Definition pattern_vertices (c : Conjunction) : gset Vertex :=
  list_to_set ((VVariable <$> referenced_variables c) ++ conjunction_vertices c).

Lemma unique_elem {A} `{EqDecision A} (x : A) l : x ∈ unique l ↔ x ∈ l.
Proof.
  induction l as [|y l IH]; cbn [unique]; [done|]. rewrite !elem_of_cons, list_elem_of_In, filter_In, <-list_elem_of_In, IH.
  destruct (decide (x = y)) as [->|Hne]; [tauto|]. rewrite bool_decide_eq_false_2 by done. cbn. tauto.
Qed.
Lemma elem_of_flat_map {A B} (f : A → list B) l y : y ∈ flat_map f l ↔ ∃ x, x ∈ l ∧ y ∈ f x.
Proof. rewrite list_elem_of_In, in_flat_map. by setoid_rewrite list_elem_of_In. Qed.

(** What the seeding lemmas ask of every conjunction of the pattern. *)
Definition conjunction_in (U : gset Vertex) (c : Conjunction) : Prop :=
  Forall (constraint_in U) (constraints c) ∧ ∀ v, v ∈ referenced_variables c → VVariable v ∈ U.
Lemma pattern_in (U : gset Vertex) c :
  pattern_all (λ c, Forall constraint_wf (constraints c)) c →
  (∀ v, v ∈ referenced_variables c → VVariable v ∈ U) → (∀ v, v ∈ conjunction_vertices c → v ∈ U) →
  pattern_all (conjunction_in U) c.
Proof.
  induction c as [sc cs ns IH] using pattern_induction. rewrite !pattern_all_iff. intros [Hwf Hns] Hr Hv. split.
  - split; [|done]. cbn [constraints] in *. rewrite Forall_forall in Hwf. rewrite Forall_forall. intros k Hk.
    destruct (Hwf k Hk) as (Hb & Hp & _). split_and!; [done| |]; rewrite Forall_forall.
    + intros v Hin. destruct (is_parameter v) eqn:Ep.
      * destruct (takes_parameters k); [by right|]. specialize (Hp eq_refl). rewrite Forall_forall in Hp. rewrite Hp in Ep; done.
      * left. apply Hv. cbn [conjunction_vertices]. rewrite !elem_of_app. right. left. apply elem_of_flat_map. exists k. split; [done|].
        unfold typed_vertices. apply list_elem_of_In, filter_In. split; [by apply list_elem_of_In|by rewrite Ep].
    + intros x Hx. apply Hr. cbn [referenced_variables]. rewrite unique_elem, elem_of_app. left. apply elem_of_flat_map. eauto.
  - rewrite Forall_forall in IH, Hns |- *. intros n Hn. specialize (IH n Hn). specialize (Hns n Hn). destruct n as [bs ids sc'| |]; [|done..].
    cbn [branches] in *. rewrite Forall_forall in IH, Hns |- *. intros c Hc. apply IH; [done|by apply Hns| |].
    + intros v Hin. apply Hr. cbn [referenced_variables]. rewrite unique_elem, elem_of_app. right. apply elem_of_flat_map.
      eexists. split; [exact Hn|]. cbn. apply elem_of_flat_map. eauto.
    + intros v Hin. apply Hv. cbn [conjunction_vertices]. rewrite !elem_of_app. right. right. apply elem_of_flat_map.
      eexists. split; [exact Hn|]. cbn. apply elem_of_flat_map. eauto.
Qed.
Lemma pattern_vertices_parameters c p : VParameter p ∉ pattern_vertices c.
Proof.
  unfold pattern_vertices. rewrite elem_of_list_to_set, elem_of_app. intros [(x & [=] & _)%list_elem_of_fmap|Hin].
  revert Hin. induction c as [sc cs ns IH] using pattern_induction. cbn [conjunction_vertices]. rewrite !elem_of_app.
  intros [(x & [=] & _)%list_elem_of_fmap|[(k & _ & Hin)%elem_of_flat_map|(n & Hn & Hin)%elem_of_flat_map]].
  - unfold typed_vertices in Hin. apply list_elem_of_In, filter_In in Hin as [_ ?]. done.
  - rewrite Forall_forall in IH. specialize (IH n Hn). destruct n as [bs ids sc'| |]; cbn [nested_vertices branches] in *;
      [|by apply not_elem_of_nil in Hin..]. apply elem_of_flat_map in Hin as (c & Hc & Hin). rewrite Forall_forall in IH. by apply (IH c Hc).
Qed.

Lemma pattern_variables c x :
  pattern_all (λ c, Forall constraint_wf (constraints c)) c → VVariable x ∈ pattern_vertices c → x ∈ referenced_variables c.
Proof.
  intros Hwf. unfold pattern_vertices. rewrite elem_of_list_to_set, elem_of_app. intros [(y & [= <-] & Hy)%list_elem_of_fmap|Hin]; [done|].
  induction c as [sc cs ns IH] using pattern_induction. apply pattern_all_iff in Hwf as [Hcs Hns]. cbn [referenced_variables constraints] in *.
  rewrite unique_elem, elem_of_app. cbn [conjunction_vertices] in Hin. rewrite !elem_of_app in Hin.
  destruct Hin as [(y & [= <-] & Hy)%list_elem_of_fmap|[(k & Hk & Hin)%elem_of_flat_map|(m & Hm & Hin)%elem_of_flat_map]]; [by left| |].
  - left. apply elem_of_flat_map. exists k. split; [done|]. unfold typed_vertices in Hin.
    apply list_elem_of_In, filter_In in Hin as [Hin%list_elem_of_In _]. rewrite Forall_forall in Hcs.
    destruct (Hcs k Hk) as (_ & _ & Hv). rewrite Forall_forall in Hv. exact (Hv _ Hin).
  - right. apply elem_of_flat_map. exists m. split; [done|]. rewrite Forall_forall in IH, Hns. specialize (IH m Hm). specialize (Hns m Hm).
    destruct m as [bs bids sc'| |]; cbn [nested_vertices nested_referenced_variables branches] in *; [|by apply not_elem_of_nil in Hin..].
    apply elem_of_flat_map in Hin as (c & Hc & Hin). apply elem_of_flat_map. exists c. rewrite Forall_forall in IH, Hns. auto.
Qed.
(** A block that passes its checks gives every variable a category. *)
Lemma validated_category c registry ctx v :
  validate_conjunction c registry ctx = Val tt → v ∈ referenced_variables c →
  ∃ cat, get_variable_category v registry = Some cat ∧ cat ≠ CAttributeOrValue.
Proof.
  unfold validate_conjunction. destruct (List.find (is_unbound registry) (referenced_variables c)) as [|] eqn:Ef; [done|]. intros _ Hv%list_elem_of_In.
  pose proof (find_none _ _ Ef v Hv) as Hu. unfold is_unbound in Hu. destruct (get_variable_category v registry) as [[]|]; try done; by eexists.
Qed.

(** ** The graph that is built *)
Section build.
Context (ctx : BlockContext).
Lemma build_eq sc cs ns :
  build_recursive ctx (MkConjunction sc cs ns) = MkGraph (MkConjunction sc cs ns) ∅ [] (flat_map (build_disjunction_recursive ctx sc) ns).
Proof. reflexivity. Qed.
Lemma build_conjunction c : g_conjunction (build_recursive ctx c) = c.
Proof. by destruct c. Qed.
(** A property of the disjunctions that are built, from the nested patterns. *)
Lemma build_nested (P : NestedTypeInferenceGraphDisjunction → Prop) sc ns :
  (∀ cs ids s, PDisjunction cs ids s ∈ ns → P (MkNested (List.map (build_recursive ctx) cs)
     (list_to_set (List.filter (λ v, is_variable_available_in sc v ctx) (flat_map referenced_variables cs))) ∅)) →
  Forall P (flat_map (build_disjunction_recursive ctx sc) ns).
Proof.
  intros HP. rewrite Forall_forall. intros n (m & Hm & Hn)%elem_of_flat_map. destruct m as [cs ids s| |]; cbn in Hn;
    [|by apply not_elem_of_nil in Hn..]. apply list_elem_of_singleton in Hn as ->. by eapply HP.
Qed.
Lemma build_everywhere (P : graph_property) c : pattern_all (λ c, P c ∅ []) c → everywhere P (build_recursive ctx c).
Proof.
  induction c as [sc cs ns IH] using pattern_induction. rewrite pattern_all_iff, build_eq, everywhere_iff. intros [Hp Hns]. split; [done|].
  apply build_nested. intros bs ids s Hn. unfold nested_everywhere. cbn [disjunction]. rewrite Forall_forall in IH, Hns.
  specialize (IH _ Hn). specialize (Hns _ Hn). cbn [branches] in *. rewrite Forall_forall in IH, Hns. rewrite Forall_forall.
  intros g (c & <- & Hc%list_elem_of_In)%list_elem_of_In%in_map_iff. auto.
Qed.
Lemma build_in U c : pattern_all (conjunction_in U) c → in_universe U (build_recursive ctx c).
Proof.
  induction c as [sc cs ns IH] using pattern_induction. rewrite pattern_all_iff, build_eq, in_universe_iff. intros [[Hp Hr] Hns]. split; [done|].
  apply build_nested. intros bs ids s Hn. rewrite Forall_forall in IH, Hns.
  specialize (IH _ Hn). specialize (Hns _ Hn). cbn [branches] in *. rewrite Forall_forall in IH, Hns. split.
  - split; [|by rewrite dom_empty]. intros v (Hv & _)%elem_of_list_to_set%list_elem_of_In%filter_In. apply Hr. cbn [referenced_variables].
    rewrite unique_elem, elem_of_app. right. apply elem_of_flat_map. eexists. split; [exact Hn|]. by apply list_elem_of_In.
  - cbn [disjunction]. rewrite Forall_forall. intros g (c & <- & Hc%list_elem_of_In)%list_elem_of_In%in_map_iff. auto.
Qed.
Lemma exists_map {A B} (f : A → B) (Q : B → Prop) (R : A → Prop) l :
  (∀ x, R x → Q (f x)) → fold_right or False (List.map R l) → Exists Q (List.map f l).
Proof. intros HR. induction l as [|x l IH]; cbn; [done|]. intros [?|?]; [by left; auto|by right; auto]. Qed.
Context {CRE : Type} `{TM : TypeManager CRE}.
Context (fa : FunctionID → option AnnotatedFunctionSignature) (registry : VariableRegistry) (is_write_stage : bool) (σ : Vertex → TypeAnnotation).
Lemma build_covers c : typed fa registry is_write_stage σ c → covers fa registry is_write_stage σ (build_recursive ctx c).
Proof.
  induction c as [sc cs ns IH] using pattern_induction. intros [_ Ht]. rewrite build_eq, covers_iff. split.
  { intros v ts Hv. by apply lookup_empty_Some in Hv. }
  apply build_nested. intros bs ids s Hn. rewrite Forall_forall in IH. specialize (IH _ Hn). cbn [branches] in IH.
  assert (nested_typed fa registry is_write_stage σ (PDisjunction bs ids s)) as Hd.
  { clear IH. induction ns as [|m ns IHn]; [by apply not_elem_of_nil in Hn|]. destruct Ht as [H1 H2].
    apply elem_of_cons in Hn as [<-|Hn]; [exact H1|by apply IHn]. }
  split_and!; cbn [shared_annotations disjunction].
  - intros v ts Hv. by apply lookup_empty_Some in Hv.
  - eapply exists_map; [|exact Hd]. intros c. by rewrite build_conjunction.
  - rewrite Forall_forall in IH. rewrite Forall_forall. intros g (c & <- & Hc%list_elem_of_In)%list_elem_of_In%in_map_iff.
    rewrite build_conjunction. auto.
Qed.
End build.

(** ** More fuel gives the same result *)
Section fuel.
Context {CRE : Type} `{TM : TypeManager CRE}.
Context (fa : FunctionID → option AnnotatedFunctionSignature) (registry : VariableRegistry) (is_write_stage : bool).
Lemma propagate_fuel fuel fuel' g r :
  (fuel ≤ fuel')%nat → propagate_until_unchanged is_write_stage fuel g = Some r → propagate_until_unchanged is_write_stage fuel' g = Some r.
Proof.
  revert fuel' g. induction fuel as [|fuel IH]; intros [|fuel'] g Hle; [done|done|lia|]. cbn [propagate_until_unchanged].
  destruct (propagate_vertex_annotations is_write_stage g) as [[g' []]| |]; [|done..]. apply IH. lia.
Qed.
Lemma annotate_fuel fuel fuel' g r :
  (fuel ≤ fuel')%nat → annotate_until_unchanged registry is_write_stage fuel g = Some r →
  annotate_until_unchanged registry is_write_stage fuel' g = Some r.
Proof.
  revert fuel' g. induction fuel as [|fuel IH]; intros [|fuel'] g Hle; [done|done|lia|]. cbn [annotate_until_unchanged].
  destruct (propagate_until_unchanged is_write_stage (S fuel) g) as [m|] eqn:E; [|done]. rewrite (propagate_fuel _ (S fuel') _ _ Hle E).
  destruct m as [g'| |]; [|done..]. destruct (annotate_some_unannotated_vertex registry g') as [[g2 []]| |]; [|done..]. apply IH. lia.
Qed.
Lemma create_graph_fuel fuel fuel' ctx upstream c r :
  (fuel ≤ fuel')%nat → create_graph fa registry is_write_stage fuel ctx upstream c = Some r →
  create_graph fa registry is_write_stage fuel' ctx upstream c = Some r.
Proof.
  intros Hle. unfold create_graph, seed_types. destruct (seed_vertex_annotations_from_type_and_called_function_signatures _ _ _); [|done..].
  destruct (annotate_until_unchanged registry is_write_stage fuel _) eqn:E; [|done]. by rewrite (annotate_fuel _ _ _ _ Hle E).
Qed.
End fuel.

(** ** The theorems *)
Section claims.
Context {CRE : Type} `{TM : TypeManager CRE} `{!TypeManagerLaws CRE} `{!TypeManagerReads CRE}.
Context (fa : FunctionID → option AnnotatedFunctionSignature) (registry : VariableRegistry) (is_write_stage : bool).
Context (ctx : BlockContext) (upstream : VertexAnnotations) (c : Conjunction).

Lemma pre_seed_sat σ vars vs : vertices_sat σ upstream → vertices_sat σ vs → vertices_sat σ (pre_seed upstream vars vs).
Proof.
  intros Hu Hvs. apply vertices_sat_fold; [done|]. intros vs' v _ Hvs'. destruct (upstream !! VVariable v) as [s|] eqn:Es; [|done].
  apply intersect_at_sat; [done|by apply Hu].
Qed.
Lemma pre_seed_parameters vars vs : no_parameters vs → no_parameters (pre_seed upstream vars vs).
Proof.
  revert vs. induction vars as [|v vars IH]; intros vs Hp; [done|]. apply IH. destruct (upstream !! VVariable v); [|done].
  intros p. unfold intersect_at, add_or_intersect. destruct (vs !! VVariable v); cbn [fst]; by rewrite lookup_insert_ne.
Qed.
Definition well_formed : Prop :=
  pattern_all (λ c, Forall constraint_wf (constraints c)) c ∧ validate_conjunction c registry ctx = Val tt.
Lemma create_graph_spec :
  well_formed →
  ∃ N, ∀ fuel, (N ≤ fuel)%nat → ∃ r, create_graph fa registry is_write_stage fuel ctx upstream c = Some r ∧
    (pattern_all (ends_ok registry) c → r ≠ Panic) ∧
    ∀ g, r = Val g → graph_ok g ∧
      ∀ σ, concrete (CRE:=CRE) registry σ → vertices_sat σ upstream → typed fa registry is_write_stage σ c → solution σ g.
Proof.
  intros [Hwf Hvalid].
  assert (∀ v, VVariable v ∈ pattern_vertices c → get_variable_category v registry ≠ Some CAttributeOrValue) as Hcat.
  { intros v Hv. destruct (validated_category c registry ctx v Hvalid) as (cat & -> & ?); [by apply pattern_variables|congruence]. }
  set (U := pattern_vertices c).
  set (vs := pre_seed upstream (referenced_variables c) (g_vertices (build_recursive ctx c))).
  set (g0 := set_vertices vs (build_recursive ctx c)). exists (S (missing U g0)). intros fuel Hf. unfold create_graph. fold vs g0.
  assert (pattern_all (conjunction_in U) c) as HU.
  { apply pattern_in; [done|..]; intros v Hv; apply elem_of_list_to_set, elem_of_app; [left|by right].
    apply list_elem_of_fmap. eauto. }
  assert (in_universe U g0) as Hin.
  { pose proof (build_in ctx U c HU) as H. unfold g0. destruct (build_recursive ctx c). cbn [set_vertices].
    rewrite in_universe_iff in H |- *. done. }
  assert (everywhere unseeded g0) as Hun.
  { assert (everywhere unseeded (build_recursive ctx c)) as H.
    { apply build_everywhere. clear. induction c using pattern_induction. apply pattern_all_iff. split; [|done]. split; [done|].
      intros p. apply lookup_empty. }
    unfold g0, vs. destruct (build_recursive ctx c) as [c' vs' es ns]. cbn [set_vertices g_vertices]. rewrite everywhere_iff in H |- *.
    destruct H as [[? ?] ?]. split; [|done]. split; [done|]. by apply pre_seed_parameters. }
  assert (∀ σ, ∃ r, seed_types fa registry is_write_stage fuel ∅ g0 = Some r ∧ (everywhere (λ c _ _, ends_ok registry c) g0 → r ≠ Panic) ∧
    ∀ g', r = Val g' → graph_ok g' ∧ (concrete (CRE:=CRE) registry σ → typed fa registry is_write_stage σ (g_conjunction g0) →
      covers fa registry is_write_stage σ g0 → solution σ g')) as Hseed.
  { intros σ. apply (seed_types_spec fa registry is_write_stage σ U); [done| |done|done|lia]. intros p. apply pattern_vertices_parameters. }
  destruct (Hseed (λ _, TEntity 0)) as (r & Er & Hp & Hok). exists r. split_and!; [done| |].
  - intros He. apply Hp. pose proof (build_everywhere ctx (λ c _ _, ends_ok registry c) c He) as H. unfold g0.
    destruct (build_recursive ctx c). cbn [set_vertices]. rewrite everywhere_iff in H |- *. done.
  - intros g ->. split; [by apply Hok|]. intros σ Hc Hup Ht. destruct (Hseed σ) as (r' & Er' & _ & Hsol). rewrite Er in Er'.
    injection Er' as <-. destruct (Hsol g eq_refl) as [_ Hs]. pose proof (build_covers ctx fa registry is_write_stage σ c Ht) as Hcov.
    pose proof (build_conjunction ctx c) as Hbc. unfold vs, g0 in Hs. unfold vs in Hs.
    destruct (build_recursive ctx c) as [c' vs' es ns]. cbn [set_vertices g_vertices g_conjunction] in *. subst c'.
    apply Hs; [done|done|]. rewrite covers_iff in Hcov |- *. destruct Hcov. split; [|done]. by apply pre_seed_sat.
Qed.

(** Seeding the type graph of a pattern ends.  For every well-formed pattern
    (the constraints the builder makes, in a block that passes its checks) there
    is a number of iterations within which the propagation and annotation loops
    of [create_graph] end, for every schema the type manager serves; the result
    is a graph with consistent edges or an error, and a panic only when a
    constraint has a value at an end or a comparison has two vertices. *)
Lemma type_seeding_ends :
  well_formed →
  ∃ N, ∀ fuel, (N ≤ fuel)%nat → ∃ r, create_graph fa registry is_write_stage fuel ctx upstream c = Some r ∧
    (pattern_all (ends_ok registry) c → r ≠ Panic) ∧ ∀ g, r = Val g → graph_ok g.
Proof.
  intros Hwf. destruct (create_graph_spec Hwf) as (N & HN). exists N. intros fuel Hf.
  destruct (HN fuel Hf) as (r & Er & Hp & Hg). exists r. split_and!; [done|done|]. intros g Eg. by apply Hg.
Qed.

(** C11: type inference loses no valid typing. Let the lookups of the type
    manager return and keep their laws (owns and owners, plays and players,
    relates and relations, supertypes and subtypes list the same pairs), and
    take a pattern the block accepts. Type inference then ends within some
    number of iterations of its loops, with a graph, an error or a panic. Where
    it gives a graph, every assignment of types to vertices that satisfies the
    pattern under the schema (each constraint's relation between its ends, the
    kind, label, role name, value type or function signature asked of a vertex,
    some branch of every disjunction, no abstract type for a thing) and agrees
    with the annotations of the stages before is a solution of that graph. A
    panic is possible (lemmas [unbounded_comparison_panics],
    [is_of_values_panics]); the seeding of the graph does not panic where no
    edge is a comparison or ends in a value. *)
Theorem type_inference_loses_no_typing :
  well_formed →
  ∃ N, ∀ fuel, (N ≤ fuel)%nat → ∃ r, compute_type_inference_graph fa registry is_write_stage fuel ctx upstream c = Some r ∧
    (pattern_all (ends_ok registry) c → create_graph fa registry is_write_stage fuel ctx upstream c ≠ Some Panic) ∧
    ∀ g, r = Val g → graph_ok g ∧
      ∀ σ, concrete (CRE:=CRE) registry σ → vertices_sat σ upstream → typed fa registry is_write_stage σ c → solution σ g.
Proof.
  intros Hwf. destruct (create_graph_spec Hwf) as (N & HN). destruct (HN N (le_n _)) as (r & Er & Hp & Hg).
  exists (N + match r with Val g => S (type_count g) | _ => 0 end)%nat. intros fuel Hf. unfold compute_type_inference_graph.
  rewrite (create_graph_fuel fa registry is_write_stage N fuel ctx upstream c r ltac:(lia) Er).
  assert (Hnp : pattern_all (ends_ok registry) c → Some r ≠ Some Panic) by (intros Hc [= ->]; by apply Hp).
  destruct r as [g|e|]; [|by eexists..].
  destruct (Hg g eq_refl) as [Hok Hsol]. destruct (pre_check_edges_for_trivial_unsatisfiability g) as [[h e]|].
  - eexists. split; [reflexivity|]. split; [done|]. unfold construct_error_for_unsatisfiable_edge.
    destruct (g_vertices h !! edge_left e), (g_vertices h !! edge_right e); by intros ? [=].
  - destruct (prune_types_spec (E:=TypeInferenceError CRE) fuel g Hok) as (g' & -> & Hok' & _ & _ & Hs); [lia|].
    eexists. split; [reflexivity|]. split; [done|]. intros g'' ([] & _ & [= <-])%bind_val. split; [done|]. intros σ ???. apply Hs. auto.
Qed.
End claims.

(** ** Schemas without relations or subtypes, to run the inference on *)
Module FlatSchema.
Record t := {
  entities : list (string * Z);
  attributes : list (string * Z * option ValueType);
  ownerships : list (ObjectType * Z);
}.
Definition value_type_of (s : t) (a : Z) : option ValueType :=
  match List.find (λ x : string * Z * option ValueType, bool_decide (x.1.2 = a)) (attributes s) with Some x => x.2 | None => None end.
Definition labelled_type (s : t) (k : Kind) (l : string) : option Z :=
  match k with
  | KEntity => option_map snd (List.find (λ x : string * Z, bool_decide (x.1 = l)) (entities s))
  | KAttribute => option_map (λ x, x.1.2) (List.find (λ x : string * Z * option ValueType, bool_decide (x.1.1 = l)) (attributes s))
  | KRelation | KRole => None
  end.
#[local] Instance manager (s : t) : TypeManager Empty_set := {|
  get_owns o := Val (List.map snd (List.filter (λ x : ObjectType * Z, bool_decide (x.1 = o)) (ownerships s)));
  get_owner_types a := Val (List.map fst (List.filter (λ x : ObjectType * Z, bool_decide (x.2 = a)) (ownerships s)));
  get_plays _ := Val [];
  get_player_types _ := Val [];
  get_relates _ := Val [];
  get_relation_types_of_role _ := Val [];
  is_related_role_type_abstract _ _ := Val false;
  get_supertype _ _ := Val None;
  get_supertypes_transitive _ _ := Val [];
  get_subtypes _ _ := Val [];
  get_subtypes_transitive _ _ := Val [];
  get_types k := Val (match k with KEntity => List.map snd (entities s) | KAttribute => List.map (λ x, x.1.2) (attributes s) | KRelation | KRole => [] end);
  get_value_type_without_source a := Val (value_type_of s a);
  get_labelled_type k l := Val (labelled_type s k l);
  get_roles_by_name _ := Val None;
  get_struct_definition_key _ := Val None;
  is_abstract _ := Val false;
|}.
Lemma elem_of_map_filter {A B} (f : A → B) (p : A → bool) l y : y ∈ List.map f (List.filter p l) ↔ ∃ x, x ∈ l ∧ p x = true ∧ f x = y.
Proof. rewrite list_elem_of_In, in_map_iff. setoid_rewrite filter_In. setoid_rewrite list_elem_of_In. naive_solver. Qed.
#[local] Instance laws (s : t) : @TypeManagerLaws Empty_set (manager s).
Proof.
  split; intros; try (by eexists); cbn in *; simplify_eq; try done;
    try (split; intros Hin; [exfalso; first [by apply not_elem_of_nil in Hin|done]|by apply not_elem_of_nil in Hin]).
  rewrite !elem_of_map_filter. split; intros ([o' a'] & Hin & Hp%bool_decide_eq_true & Hq); cbn in *; subst;
    eexists (_, _); (split_and!; [exact Hin|by apply bool_decide_eq_true|done]).
Qed.
#[local] Instance reads (s : t) : @TypeManagerReads Empty_set (manager s).
Proof. split; intros; by eexists. Qed.
End FlatSchema.

Module InferenceExamples.
Import FlatSchema.
#[local] Existing Instances FlatSchema.manager FlatSchema.laws FlatSchema.reads.
Definition var (i : Z) : Var := {| var_id := i; var_anonymous := false |}.
Definition schema : FlatSchema.t :=
  {| entities := [("person", 0); ("city", 1)]; attributes := [("name", 0, Some TyString); ("age", 1, Some TyInteger)];
     ownerships := [(OEntity 0, 0); (OEntity 0, 1); (OEntity 1, 0)] |}%string.
#[local] Instance example_manager : TypeManager Empty_set := FlatSchema.manager schema.
Definition no_functions (f : FunctionID) : option AnnotatedFunctionSignature := None.
Definition categories (l : list (Z * VariableCategory)) : VariableRegistry :=
  with_categories (list_to_map (List.map (λ ic : Z * VariableCategory, (var ic.1, (ic.2, SourceArgument))) l)) registry_new.
Definition x : Vertex := VVariable (var 0).
Definition n : Vertex := VVariable (var 1).

(** [$x isa person, has name $n;] and its typing. *)
Definition pattern : Conjunction :=
  MkConjunction 1 [Isa IsaSubtype x (VLabel "person"); Has x n; Isa IsaSubtype n (VLabel "name")] []%string.
Definition pattern_context : BlockContext := with_declaration (var 0) ROOT (with_declaration (var 1) ROOT bc_new).
Definition pattern_registry : VariableRegistry := categories [(0, CObject); (1, CAttribute)].
Definition typing (v : Vertex) : TypeAnnotation :=
  if bool_decide (v = n ∨ v = VLabel "name"%string) then TAttribute 0 else TEntity 0.
Definition infer_pattern (fuel : nat) :=
  compute_type_inference_graph no_functions pattern_registry false fuel pattern_context ∅ pattern.
Definition vertices_of {E} (r : option (exec E TypeInferenceGraph)) : option VertexAnnotations :=
  match r with Some (Val g) => Some (g_vertices g) | _ => None end.
Lemma pattern_inferred :
  vertices_of (infer_pattern 10) =
    Some (<[x := {[TEntity 0]}]> (<[n := {[TAttribute 0]}]> (<[VLabel "person"%string := {[TEntity 0]}]> (<[VLabel "name"%string := {[TAttribute 0]}]> ∅)))).
Proof. vm_compute. reflexivity. Qed.
Lemma pattern_wf : well_formed pattern_registry pattern_context pattern.
Proof.
  split; [|vm_compute; reflexivity]. constructor; [|constructor]. cbn [constraints].
  repeat (constructor; [split_and!; [done|intros _; by repeat constructor|repeat constructor]|]); constructor.
Qed.
Lemma typing_concrete : concrete (CRE:=Empty_set) pattern_registry typing.
Proof. by intros v _. Qed.
Lemma thing_typed v cat :
  get_variable_category v pattern_registry = Some cat → is_category_thing cat = true →
  vertex_typed (CRE:=Empty_set) pattern_registry typing (VVariable v).
Proof.
  intros Hc Hthing cat' s Hc' _ Es. rewrite Hc in Hc'. injection Hc' as <-.
  assert (∀ t, t ∈ [TAttribute 0; TEntity 0] →
    match get_unbounded_type_annotations (CRE:=Empty_set) cat with Val s => bool_decide (t ∈ s) | _ => false end = true) as H.
  { intros t Ht%list_elem_of_In. destruct cat; try done; destruct Ht as [<-|[<-|[]]]; vm_compute; reflexivity. }
  rewrite Es in H. eapply bool_decide_eq_true_1, H. unfold typing. destruct (bool_decide _); set_solver.
Qed.
Lemma pattern_typed : typed (CRE:=Empty_set) no_functions pattern_registry false typing pattern.
Proof.
  split; [|done].
  assert (vertex_typed (CRE:=Empty_set) pattern_registry typing x) as Hx by by eapply thing_typed.
  assert (vertex_typed (CRE:=Empty_set) pattern_registry typing n) as Hn by by eapply thing_typed.
  assert (vertex_typed (CRE:=Empty_set) pattern_registry typing (VLabel "person"%string)) as Hp by done.
  assert (vertex_typed (CRE:=Empty_set) pattern_registry typing (VLabel "name"%string)) as Hname by done.
  assert (∀ k b, binary_constraints k = [b] → unary_typed (CRE:=Empty_set) no_functions false typing k →
    related false b (typing (left b)) (typing (right b)) → Forall (vertex_typed (CRE:=Empty_set) pattern_registry typing) (vertices k ++ (VVariable <$> ids k)) →
    constraint_typed (CRE:=Empty_set) no_functions pattern_registry false typing k) as One.
  { intros k b Hb Hu Hr Hv. split_and!; [|done|done]. rewrite Hb. by constructor. }
  constructor; [|constructor; [|constructor; [|constructor]]].
  - eapply One; [reflexivity|done|by left|]. by repeat constructor.
  - eapply One; [reflexivity|done| |by repeat constructor]. exists (OEntity 0), 0, [0; 1]. split_and!; [done..|set_solver].
  - eapply One; [reflexivity|done|by left|]. by repeat constructor.
Qed.
Lemma type_inference_loses_no_typing_witness :
  concrete (CRE:=Empty_set) pattern_registry typing ∧ typed (CRE:=Empty_set) no_functions pattern_registry false typing pattern ∧
  ∃ N, ∀ fuel, (N ≤ fuel)%nat → ∃ r, infer_pattern fuel = Some r ∧ ∀ g, r = Val g → graph_ok g ∧ solution typing g.
Proof.
  split_and!; [exact typing_concrete|exact pattern_typed|].
  destruct (type_inference_loses_no_typing no_functions pattern_registry false pattern_context ∅ pattern pattern_wf) as (N & HN).
  exists N. intros fuel Hf. destruct (HN fuel Hf) as (r & Er & _ & Hr). exists r. split; [exact Er|]. intros g Eg.
  destruct (Hr g Eg) as [Hok Hsol]. split; [exact Hok|]. apply Hsol; [exact typing_concrete| |exact pattern_typed].
  intros v ts Hv. by apply lookup_empty_Some in Hv.
Defined.
Lemma pattern_ends : pattern_all (ends_ok pattern_registry) pattern.
Proof.
  constructor; [|constructor]. intros k Hk. apply list_elem_of_In in Hk. cbn in Hk.
  destruct Hk as [<-|[<-|[<-|[]]]]; (split; [done|]); intros b ->%list_elem_of_singleton; by vm_compute.
Qed.
Lemma type_seeding_ends_witness :
  ∃ N, ∀ fuel, (N ≤ fuel)%nat → ∃ r, create_graph no_functions pattern_registry false fuel pattern_context ∅ pattern = Some r ∧ r ≠ Panic ∧
    ∀ g, r = Val g → graph_ok g.
Proof.
  destruct (type_seeding_ends no_functions pattern_registry false pattern_context ∅ pattern pattern_wf) as (N & HN).
  exists N. intros fuel Hf. destruct (HN fuel Hf) as (r & Er & Hp & Hr). exists r. split_and!; [exact Er|exact (Hp pattern_ends)|exact Hr].
Defined.

Definition accepted_context (vars : list Z) : BlockContext := fold_right (λ i c, with_declaration (var i) ROOT c) bc_new vars.
Definition infer_types (registry : VariableRegistry) (c : Conjunction) (fuel : nat) :=
  compute_type_inference_graph no_functions registry false fuel bc_new ∅ c.
Lemma panic_for_all_fuel registry c fuel fuel' :
  (fuel ≤ fuel')%nat → create_graph no_functions registry false fuel bc_new ∅ c = Some Panic → infer_types registry c fuel' = Some Panic.
Proof. intros Hf Hc. unfold infer_types, compute_type_inference_graph. by rewrite (create_graph_fuel _ _ _ _ _ _ _ _ _ Hf Hc). Qed.
(** [$x isa $t; $y isa $s; $x > $y;] *)
Definition comparison : Conjunction :=
  MkConjunction ROOT [Isa IsaSubtype x (VVariable (var 2)); Isa IsaSubtype (VVariable (var 1)) (VVariable (var 3));
    Comparison x (VVariable (var 1)) CmpGreater] [].
Definition comparison_registry : VariableRegistry := categories [(0, CAttribute); (1, CAttribute); (2, CThingType); (3, CThingType)].

(** A comparison of two attributes of unknown type makes type inference
    panic.  [$x isa $t; $y isa $s; $x > $y;] passes the checks of the block,
    with [$x] and [$y] narrowed to attributes; nothing bounds their types, so
    they are annotated with every thing type of the schema; seeding the edge of
    the comparison then asks an entity type to be an attribute type. *)
Lemma unbounded_comparison_panics fuel :
  (10 ≤ fuel)%nat →
  narrowest CThing CAttributeOrValue = Some CAttribute ∧
  validate_conjunction comparison comparison_registry (accepted_context [0; 1; 2; 3]) = Val tt ∧
  infer_types comparison_registry comparison fuel = Some Panic.
Proof.
  intros Hf. split_and!; [reflexivity|vm_compute; reflexivity|]. apply (panic_for_all_fuel _ _ 10 fuel Hf). vm_compute. reflexivity.
Qed.
Lemma unbounded_comparison_panics_witness : infer_types comparison_registry comparison 12 = Some Panic.
Proof. apply (unbounded_comparison_panics 12). lia. Defined.

(** [let $a = 1; let $b = 1; $a is $b;] *)
Definition is_of_values : Conjunction :=
  MkConjunction ROOT [ExpressionBinding x [ExprConstant (ParamValue 0)]; ExpressionBinding n [ExprConstant (ParamValue 1)]; Is x n] [].
Definition value_registry : VariableRegistry := categories [(0, CValue); (1, CValue)].
(** An [is] between two values makes type inference panic.  The checks of the
    block accept it, since the categories of its two variables agree; values are
    never annotated with types, and seeding the edge of the [is] takes the
    annotations of both ends for granted. *)
Lemma is_of_values_panics fuel :
  (10 ≤ fuel)%nat →
  validate_conjunction is_of_values value_registry (accepted_context [0; 1]) = Val tt ∧
  infer_types value_registry is_of_values fuel = Some Panic.
Proof.
  intros Hf. split; [vm_compute; reflexivity|]. apply (panic_for_all_fuel _ _ 10 fuel Hf). vm_compute. reflexivity.
Qed.
Lemma is_of_values_panics_witness : infer_types value_registry is_of_values 12 = Some Panic.
Proof. apply (is_of_values_panics 12). lia. Defined.
End InferenceExamples.
