(* ===== verification/SchemaManager.v ===== *)
(** * The stored schema serves the type inference

    The lookups of [TypeManager] that the type inference asks for, on a schema
    that is read from a snapshot (a type manager without a cache,
    [concept/type_/type_manager.rs]), and that they keep the laws the inference
    relies on. *)
From stdpp Require Import strings gmap relations.
From S2P Require Import Prelude BTree Bytes MemoryStore Buffer LendingIter Mvcc Keyspaces Snapshot Dependency Timeline Isolation Storage Views Layout Values Structs Attributes Things Edges ThingManager ThingGraph Pattern TypeEdges Annotations TypeReader SchemaGraph Constraints SchemaClaims TypeInference TypeSeeder.
#[local] Open Scope Z_scope.

(** ** Ids and vertices *)
(** The inference names a type by its kind and its id, a number of 16 bits. *)
Definition type_vertex (k : Kind) (i : Z) : Z := TypeVertex.new (Prefixes.prefix_id (prefix_of_kind k)) i.
Definition object_vertex (o : TypeSeeder.ObjectType) : Z :=
  match o with OEntity i => type_vertex KEntity i | ORelation i => type_vertex KRelation i end.
Definition object_id (o : TypeSeeder.ObjectType) : Z := match o with OEntity i | ORelation i => i end.
Definition object_of (v : Z) : TypeSeeder.ObjectType :=
  match TypeVertex.prefix v with
  | Val VertexRelationType => ORelation (TypeVertex.type_id_ v)
  | _ => OEntity (TypeVertex.type_id_ v)
  end.
Definition label_bytes (l : string) : bytes := List.map (λ c, Z.of_nat (Ascii.nat_of_ascii c)) (String.list_ascii_of_string l).

Lemma vertex_of_id k i : is_u16 i → in_type (type_of_kind k) (type_vertex k i) ∧ TypeVertex.type_id_ (type_vertex k i) = i.
Proof.
  intros Hi. destruct (type_vertex_parts (prefix_of_kind k) i Hi) as [H1 H2]. split; [|done]. apply in_kind. split; [|done]. by eexists _, _.
Qed.
Lemma id_of_vertex k v : in_type (type_of_kind k) v → is_u16 (TypeVertex.type_id_ v) ∧ v = type_vertex k (TypeVertex.type_id_ v).
Proof.
  intros [(p & i & Hi & ->) Hp]%in_kind. destruct (type_vertex_parts p i Hi) as [H1 H2]. rewrite H1. split; [done|].
  rewrite H2 in Hp. injection Hp as ->. done.
Qed.
Lemma type_vertex_inj k i j : is_u16 i → is_u16 j → type_vertex k i = type_vertex k j → i = j.
Proof. intros Hi Hj He. by rewrite <-(proj2 (vertex_of_id k i Hi)), <-(proj2 (vertex_of_id k j Hj)), He. Qed.
Lemma object_of_id o : is_u16 (object_id o) → in_type TypeEdges.ObjectType (object_vertex o) ∧ object_of (object_vertex o) = o.
Proof.
  intros Ho. assert (∀ k, TypeVertex.prefix (type_vertex k (object_id o)) = Val (prefix_of_kind k)) as Hp.
  { intros k. by apply type_vertex_parts. }
  unfold object_of. rewrite in_object. destruct o as [i|i]; cbn [object_vertex object_id] in *.
  - destruct (vertex_of_id KEntity i Ho) as [H1 H2]. specialize (Hp KEntity). rewrite Hp, H2. auto.
  - destruct (vertex_of_id KRelation i Ho) as [H1 H2]. specialize (Hp KRelation). rewrite Hp, H2. auto.
Qed.
Lemma vertex_of_object v : in_type TypeEdges.ObjectType v → is_u16 (object_id (object_of v)) ∧ object_vertex (object_of v) = v.
Proof.
  rewrite in_object. intros Hv. unfold object_of.
  destruct Hv as [Hv|Hv]; [pose proof (proj2 (proj1 (in_kind KEntity v) Hv)) as ->|pose proof (proj2 (proj1 (in_kind KRelation v) Hv)) as ->];
    cbn [prefix_of_kind object_id object_vertex].
  - by destruct (id_of_vertex KEntity v Hv).
  - by destruct (id_of_vertex KRelation v Hv).
Qed.

(** ** The lookups *)
Section manager.
Context `{ChronoZoned} `{AnnotationBincode} `{Bincode Ordering} `{HashIteration} `{SetIteration} (fuel : nat) (s : WriteSnapshot).
Abbreviation CRE := ConceptReadError.
(** Numbers that are no 16-bit ids name no type. *)
Definition when_id {A} (i : Z) (otherwise : A) (m : exec CRE A) : exec CRE A := if decide (0 ≤ i < 2 ^ 16) then m else Val otherwise.
Definition interface_ids (CAP : TypeEdgeEncoding) (object_type : Z) : exec CRE (list Z) :=
  capabilities ← TypeReader.get_capabilities fuel CAP object_type false s;
  Val (List.map (λ e : edge, TypeVertex.type_id_ e.2) (iter_edges capabilities)).
Definition object_vertices (CAP : TypeEdgeEncoding) (interface_type : Z) : exec CRE (list Z) :=
  capabilities ← TypeReader.get_object_types_with_capabilities_for_interface fuel CAP interface_type s;
  Val (iter_types (dom (capabilities : gmap Z edge))).
(** [Type::is_abstract] of [answer/lib.rs]. *)
Definition type_is_abstract (t : TypeAnnotation) : exec CRE bool :=
  match t with
  | TEntity i => when_id i false (TypeAnnotations.is_abstract fuel KEntity (type_vertex KEntity i) s)
  | TRelation i => when_id i false (TypeAnnotations.is_abstract fuel KRelation (type_vertex KRelation i) s)
  | TAttribute i => when_id i false (TypeAnnotations.is_abstract fuel KAttribute (type_vertex KAttribute i) s)
  | TRoleType i => when_id i false (TypeAnnotations.is_abstract fuel KRole (type_vertex KRole i) s)
  end.
#[local] Instance stored_manager : TypeManager CRE := {|
  get_owns o := when_id (object_id o) [] (interface_ids Owns (object_vertex o));
  get_owner_types a := when_id a [] (l ← object_vertices Owns (type_vertex KAttribute a); Val (List.map object_of l));
  get_plays o := when_id (object_id o) [] (interface_ids Plays (object_vertex o));
  get_player_types r := when_id r [] (l ← object_vertices Plays (type_vertex KRole r); Val (List.map object_of l));
  get_relates r := when_id r [] (interface_ids Relates (type_vertex KRelation r));
  get_relation_types_of_role r :=
    when_id r [] (l ← object_vertices Relates (type_vertex KRole r); Val (List.map TypeVertex.type_id_ l));
  is_related_role_type_abstract o r :=
    when_id o false (when_id r false
      (TypeAnnotations.is_related_role_type_abstract fuel (type_vertex KRelation o) (type_vertex KRole r) s));
  get_supertype k i :=
    when_id i None (o ← TypeReader.get_supertype fuel (type_of_kind k) (type_vertex k i) s; Val (option_map TypeVertex.type_id_ o));
  get_supertypes_transitive k i :=
    when_id i [] (l ← TypeReader.get_supertypes_transitive fuel (type_of_kind k) (type_vertex k i) s; Val (List.map TypeVertex.type_id_ l));
  get_subtypes k i :=
    when_id i [] (X ← TypeReader.get_subtypes fuel (type_of_kind k) (type_vertex k i) s; Val (List.map TypeVertex.type_id_ (iter_types X)));
  get_subtypes_transitive k i :=
    when_id i [] (l ← TypeReader.get_subtypes_transitive fuel (type_of_kind k) (type_vertex k i) s; Val (List.map TypeVertex.type_id_ l));
  get_types k := l ← TypeReader.get_types fuel k s; Val (List.map TypeVertex.type_id_ l);
  get_value_type_without_source a :=
    when_id a None (TypeReader.get_value_type_without_source fuel (type_vertex KAttribute a) s);
  get_labelled_type k l :=
    label ← lift (Labels.parse_from (label_bytes l));
    o ← TypeReader.get_labelled_type (type_of_kind k) label s; Val (option_map TypeVertex.type_id_ o);
  get_roles_by_name n :=
    l ← TypeReader.get_roles_by_name fuel (label_bytes n) s;
    Val (match l with [] => None | _ => Some (List.map TypeVertex.type_id_ l) end);
  get_struct_definition_key n := TypeReader.get_struct_definition_key (label_bytes n) s;
  is_abstract := type_is_abstract;
|}.

(** ** Their laws *)
Context (Hok : schema_ok s) (Hh : hierarchy_ok s) (Hfuel : (S (entries SCHEMA s) < fuel)%nat).
Context (Hvalues : ∀ a v, view (VertexProperty.into_storage_key (vertex_key ValueType_property a)) s = Some v → returns (ValueType_from_value_bytes v)).
Context (Hrelates : ∀ e, has RelatesEdge e s → returns (TypeAnnotations.get_capability_constraints fuel CapRelates e s)).
Lemma when_id_Val {A} i (none : A) m r :
  when_id i none m = Val r ↔ (is_u16 i ∧ m = Val r) ∨ (¬ is_u16 i ∧ r = none).
Proof.
  unfold when_id, is_u16. destruct (decide (0 ≤ i < 2 ^ 16)); [tauto|]. split; [intros [= <-]; by right|]. by intros [[? _]|[_ ->]].
Qed.
Lemma when_id_returns {A} i (none : A) m : (is_u16 i → returns m) → returns (when_id i none m).
Proof. intros Hm. unfold when_id. destruct (decide (0 ≤ i < 2 ^ 16)); [by apply Hm|by eexists]. Qed.
Lemma elem_of_map {A B} (f : A → B) l y : y ∈ List.map f l ↔ ∃ x, x ∈ l ∧ y = f x.
Proof. rewrite list_elem_of_In, in_map_iff. setoid_rewrite list_elem_of_In. naive_solver. Qed.
Section capability.
Context (CAP : TypeEdgeEncoding) (k : EdgeKind) (Hk : encodes CAP k) (kind : Kind) (Hto : To CAP = type_of_kind kind).
Lemma interface_ids_spec v :
  in_type (From CAP) v →
  ∃ l, interface_ids CAP v = Val l ∧ ∀ j, j ∈ l ↔ is_u16 j ∧ ∃ o, inherits k s v (o, type_vertex kind j).
Proof.
  intros Hv. unfold interface_ids. destruct (capabilities_spec s fuel Hok Hh Hfuel CAP k Hk false v Hv) as (X & -> & HX).
  cbn [mbind exec_bind]. eexists. split; [done|]. intros j. rewrite elem_of_map. setoid_rewrite iter_edges_elem. setoid_rewrite HX. split.
  - intros ([o i] & Hi & ->). cbn [snd]. pose proof (proj1 Hi) as Hhas. apply (has_from s CAP k Hk) in Hhas as [_ Ht]. cbn [snd] in Ht.
    rewrite Hto in Ht. destruct (id_of_vertex kind i Ht) as [Hu He]. split; [done|]. exists o. by rewrite <-He.
  - intros (Hj & o & Hi). exists (o, type_vertex kind j). split; [done|]. cbn [snd]. symmetry. by apply vertex_of_id.
Qed.
Lemma object_vertices_spec j :
  is_u16 j → ∃ l, object_vertices CAP (type_vertex kind j) = Val l ∧
    ∀ v, v ∈ l ↔ in_type (From CAP) v ∧ ∃ o, inherits k s v (o, type_vertex kind j).
Proof.
  intros Hj. unfold object_vertices.
  destruct (interface_spec s fuel Hok Hh Hfuel CAP k Hk (type_vertex kind j)) as (m & -> & Hm); [by apply (vertex_of_id kind j Hj)|].
  cbn [mbind exec_bind]. eexists. split; [done|]. intros v. rewrite iter_types_elem, elem_of_dom. split.
  - intros [[o i] [Hi Hii]%Hm]. cbn in Hii. subst i. split; [|by exists o]. by apply (inherits_in_type s CAP k Hk v _ Hi).
  - intros (_ & o & Hi). exists (o, type_vertex kind j). by apply Hm.
Qed.
(** The two directions of a capability list the same pairs; [enc] and [dec]
    relate the names of its objects to their vertices. *)
Context {C : Type} (enc : C → Z) (dec : Z → C) (idof : C → Z).
Context (Henc : ∀ c, is_u16 (idof c) → in_type (From CAP) (enc c) ∧ dec (enc c) = c).
Context (Hdec : ∀ v, in_type (From CAP) v → is_u16 (idof (dec v)) ∧ enc (dec v) = v).
Lemma interfaces_return c : returns (when_id (idof c) [] (interface_ids CAP (enc c))).
Proof. apply when_id_returns. intros Hc. destruct (interface_ids_spec (enc c)) as (l & -> & _); [by apply Henc|by eexists]. Qed.
Lemma objects_return a : returns (when_id a [] (l ← object_vertices CAP (type_vertex kind a); Val (List.map dec l))).
Proof. apply when_id_returns. intros Ha. destruct (object_vertices_spec a Ha) as (l & -> & _). by eexists. Qed.
Lemma capability_law c a l l' :
  when_id (idof c) [] (interface_ids CAP (enc c)) = Val l →
  when_id a [] (l ← object_vertices CAP (type_vertex kind a); Val (List.map dec l)) = Val l' → a ∈ l ↔ c ∈ l'.
Proof.
  intros Hl1%when_id_Val Hl2%when_id_Val.
  assert (Hl' : c ∈ l' → is_u16 (idof c)).
  { destruct Hl2 as [[Ha Hl2]|[_ ->]]; [|by intros ?%not_elem_of_nil]. destruct (object_vertices_spec a Ha) as (vs & Hvs & Hin).
    rewrite Hvs in Hl2. cbn in Hl2. injection Hl2 as <-. intros (v & [Hv _]%Hin & ->)%elem_of_map. by apply Hdec. }
  destruct Hl1 as [[Hc Hl1]|[Hc ->]]; [|split; [by intros ?%not_elem_of_nil|naive_solver]].
  destruct (interface_ids_spec (enc c)) as (js & Hjs & Hin); [by apply Henc|]. rewrite Hjs in Hl1. injection Hl1 as <-. rewrite Hin.
  destruct Hl2 as [[Ha Hl2]|[Ha ->]]; [|split; [by intros [? _]|by intros ?%not_elem_of_nil]].
  destruct (object_vertices_spec a Ha) as (vs & Hvs & Hin'). rewrite Hvs in Hl2. cbn in Hl2. injection Hl2 as <-.
  rewrite elem_of_map. setoid_rewrite Hin'. split.
  - intros [_ Hi]. exists (enc c). destruct (Henc c Hc) as [? ?]. auto.
  - intros (v & [Hv Hi] & ->). split; [done|]. by rewrite (proj2 (Hdec v Hv)).
Qed.
End capability.

Section subtyping.
Context (k : Kind).
Abbreviation T := (type_of_kind k).
Abbreviation vertex := (type_vertex k).
Lemma schema_fits : fits fuel SCHEMA s.
Proof. unfold fits. lia. Qed.
Lemma map_ids l (P : Z → Prop) : (∀ v, v ∈ l ↔ P v) → (∀ v, P v → in_type T v) → ∀ j, j ∈ List.map TypeVertex.type_id_ l ↔ is_u16 j ∧ P (vertex j).
Proof.
  intros Hl HP j. rewrite elem_of_map. setoid_rewrite Hl. split.
  - intros (v & Hv & ->). destruct (id_of_vertex k v (HP v Hv)) as [Hu He]. split; [done|]. by rewrite <-He.
  - intros [Hj Hv]. exists (vertex j). split; [done|]. symmetry. by apply vertex_of_id.
Qed.
Lemma above i v : is_u16 i → tc (sub s) (vertex i) v → in_type T v.
Proof. intros Hi Ht. apply (tc_in_type s T (kind_closed k) _ _ Ht). by apply vertex_of_id. Qed.
Lemma below j v : is_u16 j → tc (sub s) v (vertex j) → in_type T v.
Proof. intros Hj Ht. apply (tc_in_type s T (kind_closed k) _ _ Ht). by apply vertex_of_id. Qed.
Lemma outside {A} i (none : A) m : ¬ is_u16 i → when_id i none m = Val none.
Proof. intros Hi. unfold when_id. by rewrite decide_False. Qed.
Lemma inside {A} i (none : A) m : is_u16 i → when_id i none m = m.
Proof. intros Hi. unfold when_id. by rewrite decide_True. Qed.
#[local] Instance is_u16_dec i : Decision (is_u16 i).
Proof. unfold is_u16. apply _. Defined.
Lemma stored_supertype i :
  ∃ o, TypeSeeder.get_supertype k i = Val o ∧ ∀ j, o = Some j ↔ is_u16 i ∧ is_u16 j ∧ sub s (vertex i) (vertex j).
Proof.
  cbn. destruct (decide (is_u16 i)) as [Hi|Hi]; [rewrite inside by done|rewrite outside by done; exists None; split; [done|naive_solver]].
  destruct (get_supertype_spec s fuel Hok Hh schema_fits T (kind_closed k) (vertex i)) as (o & -> & Ho); [by apply vertex_of_id|].
  cbn [mbind exec_bind]. eexists. split; [done|]. intros j. split.
  - destruct o as [v|]; [|done]. intros [= <-]. assert (Hs : sub s (vertex i) v) by (by apply Ho).
    destruct (id_of_vertex k v) as [Hu He]; [by apply (above i v Hi), tc_once|]. by rewrite <-He.
  - intros (_ & Hj & ->%Ho). cbn. f_equal. by apply vertex_of_id.
Qed.
Lemma stored_supertypes i :
  ∃ l, TypeSeeder.get_supertypes_transitive k i = Val l ∧ ∀ j, j ∈ l ↔ is_u16 i ∧ is_u16 j ∧ tc (sub s) (vertex i) (vertex j).
Proof.
  cbn. destruct (decide (is_u16 i)) as [Hi|Hi]; [rewrite inside by done|rewrite outside by done; exists []; split; [done|]; intros j; rewrite elem_of_nil; naive_solver].
  destruct (supertypes_spec s fuel Hok Hh schema_fits T (kind_closed k) (vertex i)) as (l & -> & _ & Hl); [by apply vertex_of_id|].
  cbn [mbind exec_bind]. eexists. split; [done|]. intros j. rewrite (map_ids l _ Hl); [tauto|]. intros v. by apply above.
Qed.
Lemma stored_subtypes j :
  ∃ l, TypeSeeder.get_subtypes k j = Val l ∧ ∀ i, i ∈ l ↔ is_u16 j ∧ is_u16 i ∧ sub s (vertex i) (vertex j).
Proof.
  cbn. destruct (decide (is_u16 j)) as [Hj|Hj]; [rewrite inside by done|rewrite outside by done; exists []; split; [done|]; intros i; rewrite elem_of_nil; naive_solver].
  destruct (get_subtypes_spec s fuel Hok schema_fits T (kind_closed k) (vertex j)) as (X & -> & HX); [by apply vertex_of_id|].
  cbn [mbind exec_bind]. eexists. split; [done|]. intros i. rewrite (map_ids (iter_types X) (λ v, sub s v (vertex j))); [tauto| |].
  - intros v. by rewrite iter_types_elem.
  - intros v Hs. by apply (below j v Hj), tc_once.
Qed.
Lemma stored_subtypes_transitive j :
  ∃ l, TypeSeeder.get_subtypes_transitive k j = Val l ∧ ∀ i, i ∈ l ↔ is_u16 j ∧ is_u16 i ∧ tc (sub s) (vertex i) (vertex j).
Proof.
  cbn. destruct (decide (is_u16 j)) as [Hj|Hj]; [rewrite inside by done|rewrite outside by done; exists []; split; [done|]; intros i; rewrite elem_of_nil; naive_solver].
  destruct (subtypes_spec s fuel Hok Hh schema_fits T (kind_closed k) (vertex j)) as (l & -> & _ & Hl); [by apply vertex_of_id|done|].
  cbn [mbind exec_bind]. eexists. split; [done|]. intros i. rewrite (map_ids l (λ v, tc (sub s) v (vertex j)) Hl); [tauto|]. intros v. by apply below.
Qed.
End subtyping.
(** A property is read from a type or from a supertype that has it. *)
Lemma property_loop_returns {P} (property : PropertyEncoding P) T l : closed_type T →
  (∀ a v, view (VertexProperty.into_storage_key (vertex_key property a)) s = Some v → returns (from_value_bytes property v)) →
  ∀ n a, chain s a l → in_type T a → (S (length l) < n)%nat → returns (TypeReader.property_loop n fuel property T (Some a) s).
Proof.
  intros HT Hp. assert (Hd : ∀ a, returns (TypeReader.get_type_property_declared property a s)).
  { intros a. unfold TypeReader.get_type_property_declared. rewrite get_view; [|by apply sc_snapshot|split; [by apply sc_open|]].
    - cbn [map_err mbind exec_bind]. destruct (view _ s) as [v|] eqn:Hv; [|by eexists]. destruct (Hp a v Hv) as [p ->]. by eexists.
    - constructor; [apply prefix_id_byte|]. apply Forall_app. split; [apply vertex_is_bytes|]. apply Forall_app. split; [|constructor].
      constructor; [|constructor]. destruct (vp_infix _); unfold is_byte; cbn; lia. }
  induction l as [|b l IH]; intros n a Hl Ha Hn; (destruct n as [|n]; [lia|]); cbn [TypeReader.property_loop];
    destruct (Hd a) as [[p|] ->]; cbn [mbind exec_bind]; try (by eexists);
    rewrite (chain_head s fuel Hok Hh schema_fits T HT a _ Hl Ha); cbn [mbind exec_bind head].
  - destruct n as [|n]; [cbn in Hn; lia|]. by eexists.
  - destruct Hl as [Hs Hl]. apply IH; [done|by apply (sub_in_type s T HT a b Hs)|cbn in Hn; lia].
Qed.
Lemma stored_value_type a : returns (get_value_type_without_source a).
Proof.
  apply when_id_returns. intros Ha. assert (Hin : in_type AttributeType (type_vertex KAttribute a)) by (by apply (vertex_of_id KAttribute)).
  destruct (chain_exists s fuel Hok Hh schema_fits AttributeType (kind_closed KAttribute) _ Hin) as [l Hl].
  unfold TypeReader.get_value_type_without_source, TypeReader.get_value_type, TypeReader.get_type_property.
  destruct (property_loop_returns ValueType_property AttributeType l (kind_closed KAttribute) Hvalues fuel _ Hl Hin) as [r ->]; [|by eexists].
  pose proof (chain_length s Hok Hh _ l Hl). lia.
Qed.
(** ** The abstractness of a related role *)
Import TypeAnnotations.
Lemma set_insert_elem {A} (eqb : A → A → bool) x l y : y ∈ set_insert eqb x l → y = x ∨ y ∈ l.
Proof.
  unfold set_insert. destruct (existsb _ l); [by right|]. rewrite elem_of_app, list_elem_of_singleton. tauto.
Qed.
Lemma capability_constraints_source CAP e l :
  get_capability_constraints fuel CAP e s = Val l → ∀ c, c ∈ l → source c = e.
Proof.
  unfold get_capability_constraints. intros (a & _ & Hl)%bind_val. unfold add_capability_default_constraints_if_not_declared in Hl.
  apply bind_val in Hl as (defaults & _ & [= <-]).
  assert (Hins : ∀ ds acc, (∀ c, c ∈ acc → source c = e) →
    ∀ c, c ∈ fold_left (λ l d, set_insert capability_constraint_eqb (mk_Constraint d e) l) ds acc → source c = e).
  { induction ds as [|d ds IH]; intros acc Hacc; cbn [fold_left]; [done|]. apply IH. intros c [->|Hc]%set_insert_elem; [done|auto]. }
  assert (Hdef : ∀ ds acc, (∀ c, c ∈ acc → source c = e) → ∀ c, c ∈ fold_left (add_default e) ds acc → source c = e).
  { induction ds as [|d ds IH]; intros acc Hacc; cbn [fold_left]; [done|]. apply IH. unfold add_default.
    destruct (existsb _ acc); [done|]. intros c [->|Hc]%set_insert_elem; [done|auto]. }
  apply Hdef, Hins. intros c Hc. by apply not_elem_of_nil in Hc.
Qed.
Definition sources_stored (l : list (Constraint edge)) : Prop := ∀ c, c ∈ l → has RelatesEdge (source c) s.
Lemma add_capability_constraint_returns oc all c :
  sources_stored all → has RelatesEdge (source c) s →
  ∃ all', add_capability_constraint fuel CapRelates oc all c s = Val all' ∧ sources_stored all'.
Proof.
  intros Hall Hc. unfold add_capability_constraint.
  assert (Hins : ∀ l, sources_stored l → sources_stored (set_insert capability_constraint_eqb c l)).
  { intros l Hl x [->|Hx]%set_insert_elem; [done|by apply Hl]. }
  destruct (scope_of (description c)); try (eexists; split; [done|by apply Hins]).
  - eexists. split; [done|]. case_bool_decide; [by apply Hins|done].
  - destruct (List.find _ _) as [d|] eqn:Hd; [|eexists; split; [done|by apply Hins]].
    apply find_some in Hd as [Hd%list_elem_of_In _]. rewrite iter_set_elements in Hd.
    destruct (has_from s Relates RelatesEdge relates_encodes (source d) (Hall d Hd)) as [_ Ht].
    destruct (supertypes_spec s fuel Hok Hh schema_fits (To Relates) (kind_closed KRole) _ Ht) as (l & Hl & _ & _).
    change (encoding_of CapRelates) with Relates. rewrite Hl. cbn [mbind exec_bind]. eexists. split; [done|].
    case_bool_decide; [|done]. apply Hins. intros x Hx. apply Hall. apply list_elem_of_In, filter_In in Hx as [Hx _]. by apply list_elem_of_In.
Qed.
Lemma capability_inner_returns oc cs : ∀ all,
  sources_stored all → sources_stored cs → ∃ all', capability_constraints_inner fuel CapRelates oc cs all s = Val all' ∧ sources_stored all'.
Proof.
  induction cs as [|c cs IH]; intros all Hall Hcs; cbn [capability_constraints_inner]; [by exists all|].
  destruct (add_capability_constraint_returns oc all c Hall) as (all1 & -> & Hs1); [by apply Hcs; left|]. cbn [mbind exec_bind].
  apply IH; [done|]. intros x Hx. apply Hcs. by right.
Qed.
Lemma capability_loop_returns oc es : ∀ all,
  sources_stored all → (∀ e, e ∈ es → has RelatesEdge e s) → ∃ all', capability_constraints_loop fuel CapRelates oc es all s = Val all'.
Proof.
  induction es as [|e es IH]; intros all Hall Hes; cbn [capability_constraints_loop]; [by exists all|].
  assert (He : has RelatesEdge e s) by (by apply Hes; left). destruct (Hrelates e He) as [l Hl]. rewrite Hl. cbn [mbind exec_bind].
  destruct (capability_inner_returns oc (iter_set l) all Hall) as (all1 & -> & Hs1).
  { intros c Hc. rewrite iter_set_elements in Hc. by rewrite (capability_constraints_source CapRelates e l Hl c Hc). }
  cbn [mbind exec_bind]. apply IH; [done|]. intros x Hx. apply Hes. by right.
Qed.
Lemma related_role_type_abstract_returns relation role :
  in_type RelationType relation → in_type RoleType role →
  returns (TypeAnnotations.is_related_role_type_abstract fuel relation role s).
Proof.
  intros Ho Hr. unfold TypeAnnotations.is_related_role_type_abstract, get_type_relates_abstract_constraint, get_relates_role_declared.
  destruct (declared_spec s fuel Hok Hfuel Relates RelatesEdge relates_encodes relation Ho) as (X & -> & _). cbn [mbind exec_bind].
  destruct (List.find _ _) as [e|]; cbn [mbind exec_bind]; [|by eexists]. unfold get_type_capability_constraints.
  change (encoding_of CapRelates) with Relates.
  destruct (capabilities_spec s fuel Hok Hh Hfuel Relates RelatesEdge relates_encodes false relation Ho) as (Y & -> & _). cbn [mbind exec_bind].
  destruct (List.find _ _) as [oc|]; cbn [mbind exec_bind]; [|by eexists].
  destruct (supertypes_spec s fuel Hok Hh schema_fits (To Relates) (kind_closed KRole) role Hr) as (l & -> & _ & _). cbn [mbind exec_bind].
  destruct (capabilities_spec s fuel Hok Hh Hfuel Relates RelatesEdge relates_encodes true relation Ho) as (C & -> & HC). cbn [mbind exec_bind].
  edestruct (capability_loop_returns oc) as [all Hall]; [|..| rewrite Hall; by eexists].
  - intros c Hc. by apply not_elem_of_nil in Hc.
  - intros e' [_ He]%iter_edges_elem%elem_of_filter. by apply HC in He as [He _].
Qed.
Lemma stored_related_abstract o r : returns (TypeSeeder.is_related_role_type_abstract o r).
Proof.
  apply when_id_returns. intros Ho. apply when_id_returns. intros Hr.
  apply related_role_type_abstract_returns; [by apply (vertex_of_id KRelation)|by apply (vertex_of_id KRole)].
Qed.
Lemma relation_of_id i : is_u16 i → in_type RelationType (type_vertex KRelation i) ∧ TypeVertex.type_id_ (type_vertex KRelation i) = i.
Proof. apply (vertex_of_id KRelation). Qed.
Lemma vertex_of_relation v :
  in_type RelationType v → is_u16 (TypeVertex.type_id_ v) ∧ type_vertex KRelation (TypeVertex.type_id_ v) = v.
Proof. intros [? <-]%(id_of_vertex KRelation). done. Qed.
Lemma stored_laws : TypeManagerLaws CRE.
Proof.
  split.
  - exact (interfaces_return Owns OwnsEdge owns_encodes KAttribute eq_refl object_vertex object_of object_id object_of_id).
  - exact (objects_return Owns OwnsEdge owns_encodes KAttribute object_of).
  - exact (capability_law Owns OwnsEdge owns_encodes KAttribute eq_refl object_vertex object_of object_id object_of_id vertex_of_object).
  - exact (interfaces_return Plays PlaysEdge plays_encodes KRole eq_refl object_vertex object_of object_id object_of_id).
  - exact (objects_return Plays PlaysEdge plays_encodes KRole object_of).
  - exact (capability_law Plays PlaysEdge plays_encodes KRole eq_refl object_vertex object_of object_id object_of_id vertex_of_object).
  - exact (interfaces_return Relates RelatesEdge relates_encodes KRole eq_refl (type_vertex KRelation) TypeVertex.type_id_ id relation_of_id).
  - exact (objects_return Relates RelatesEdge relates_encodes KRole TypeVertex.type_id_).
  - exact (capability_law Relates RelatesEdge relates_encodes KRole eq_refl (type_vertex KRelation) TypeVertex.type_id_ id relation_of_id vertex_of_relation).
  - exact stored_related_abstract.
  - intros k i. destruct (stored_supertype k i) as (o & -> & _). by eexists.
  - intros k i. destruct (stored_subtypes k i) as (o & -> & _). by eexists.
  - intros k i j o l. destruct (stored_supertype k i) as (o' & -> & Ho). destruct (stored_subtypes k j) as (l' & -> & Hl).
    intros [= <-] [= <-]. rewrite Ho, Hl. tauto.
  - intros k i. destruct (stored_supertypes k i) as (o & -> & _). by eexists.
  - intros k i. destruct (stored_subtypes_transitive k i) as (o & -> & _). by eexists.
  - intros k i j l l'. destruct (stored_supertypes k i) as (o' & -> & Ho). destruct (stored_subtypes_transitive k j) as (l1 & -> & Hl).
    intros [= <-] [= <-]. rewrite Ho, Hl. tauto.
  - exact stored_value_type.
Qed.
End manager.

Import SchemaExample.
Lemma schema_has_no_property {P} (property : PropertyEncoding P) a : view (VertexProperty.into_storage_key (vertex_key property a)) schema = None.
Proof.
  apply schema_elsewhere; [cbn; lia|]. intros reverse k e Heq. apply (f_equal (head ∘ snd)) in Heq. by destruct reverse, k.
Qed.
